(* ===== verification/_CoqProject ===== *)
-Q . S2P
Prelude.v
Lines.v
Utf8.v
Time.v
Parser.v
Grid.v
GridText.v
GridFrame.v
Screen.v
PasteWatch.v
Keys.v
Timing.v
Arbiter.v
InputQueue.v
OutputFlow.v
Frames.v
Bridge.v
BridgePair.v
Threads.v
BridgeThreads.v
BridgeThreadsSafe.v
BridgeThreadsRun.v
BridgeThreadsWhole.v
BridgeReads.v
JsValue.v
Selection.v
CodexBroker.v
TaskPlan.v
TaskPlanRules.v
Portable.v
Pacing.v
Text.v
Questions.v
Words.v
Ledger.v
Deliveries.v
Doors.v
MessageRules.v
MessageRuns.v
MessageCarriers.v
CfWord.v
DeliveryText.v
DeliveryRecord.v
Jsonl.v
Json.v
JsonlReads.v
Followed.v
Executor.v
ExecutorRuns.v
ExecutorDrains.v
Holds.v
HoldRuns.v
HoldTurns.v
ProcessTree.v
ProcessBound.v
ProcessSelection.v
ProcessClose.v
PaneClock.v
Births.v
Background.v
BackgroundRules.v
PaneTurns.v
Handles.v
HandleRules.v
HandleLedger.v
HandleRuns.v
TurnWords.v
TurnWordsRules.v
