(* ===== verification/Prelude.v ===== *)
(** * ConsensFlow, verified: the pane host, the bridge, the Codex broker and the ledger

    ConsensFlow runs coding agents in terminal panes and lets them, and a human, work on shared
    tasks. Its parts under [src/crates]: [cf-panes], the pane host, starts each pane's program,
    shows its screen and puts into its input what the human types and what is delivered to the
    agent; the daemon ([cf-daemon], over [cf-engine] and [cf-ledger]) decides what is delivered;
    and [cf-bridge] is the protocol the two speak, JSON frames one to a line over a pair of
    streams, in two implementations: the pane host's, on threads ([lib.rs]), and the daemon's,
    on one thread ([local/]). This development models the pane host's input, output and screen,
    and what it may signal as it closes a pane and what it says a turn left running, both ends of the bridge, the broker that stands between a Codex window and Codex's server
    ([cf-codex-session]), the plan of a project and the messages that the ledger keeps, the engine's
    executor, its hold of a participant and its pacing of deliveries, the reading of a harness's record,
    and the time and text of [cf-base].

    ** How the parts meet

    The human's bytes and the daemon's deliveries come to [InputQueue] (one worker and one bounded
    queue a pane), whose jobs call the input arbiter ([Arbiter]); the arbiter reads the human's
    keys ([Keys]) and pastes ([PasteWatch]) to know what stands unsent in the window's input box,
    refuses or pastes a delivery ([Keys.sanitize]), and lets the Enter after a paste wait
    ([Timing]). What a pane prints goes through [OutputFlow] to the page, and is fed to a [Screen]
    ([Parser], then [Grid]), which is read back as text. What crosses to the daemon and back are
    [Frames], cut into lines by [Lines] or by [BridgeReads]' reader, served by [Bridge] at one end
    and [BridgeThreads] at the other. A delivery for a window of Codex goes past the panes: to the
    window's broker ([CodexBroker]), which puts it to Codex for the thread its [Selection] says the
    window shows. What is delivered begins with the ledger, where a task waits on the board for what
    it needs until [TaskPlan] lets it go to a window, its words are a message ([Ledger]) that waits
    for its window, and [Deliveries] says which is next; and the engine, which hands it over when the
    window has rested long enough ([Pacing]). What the window's own record then shows of it confirms
    it, and moves its task ([Deliveries], [Ledger.reconcile]); a question the window asks, and the
    door that waits for its answer, are [Doors]. All that the engine does are pieces of work that its
    [Executor] runs, one step of a participant at a time ([Holds]). A pane's close ends its processes
    through its [ProcessTree], and what a turn left running is told of that tree by [Background].

    ** Files, and the code they model

    - [Prelude]: bytes, slices and vectors (a panic is [None]), machine integers' clamps, and the
      tactics and hints the rest shares. [Utf8]: text as Rust's standard library reads it.
    - [Lines] ([cf-bridge/src/local/lines.rs], the loop of [reader.rs]): the scanner's record
      [lines]; [new], [push], [next_line], [keep_the_tail]. It refines a [framer], the unread tail
      and whether the rest of a line over the limit is being dropped.
    - [Parser] ([cf-panes/src/screen/parser.rs]), [Grid] ([screen/grid.rs], [screen/grid/edit.rs]),
      [Screen] ([screen.rs]): the terminal's state machine, cells and reading back, a definition
      for each method; [GridText] and [GridFrame] hold what follows of printing, of the parked
      screen and of the scroll region.
    - [PasteWatch], [Keys], [Timing], [Arbiter] ([cf-panes/src/arbiter.rs], with [SilentPaste] of
      [cf-proto/src/panes.rs] and the input writer of [pty.rs]).
    - [InputQueue] ([cf-panes/src/input_queue.rs], [validation.rs]); [OutputFlow] ([OutputFlow] and
      [stream_output] of [pty.rs]) and its module [Hub] ([output_hub.rs]).
    - [Frames] ([cf-proto/src/bridge.rs]), [Bridge] ([cf-bridge/src/local/*.rs]), and [BridgePair],
      two such ends joined.
    - [Threads]: programs of threads over one state, their executions, and the rely and guarantee
      logic of them. [BridgeThreads] ([cf-bridge/src/lib.rs]): the state of [BridgeInner] and every
      thread's program, method by method; [BridgeThreadsSafe]: the invariant, the guarantee and
      the calls of the bridge that keep them; [BridgeThreadsRun]: the reader's, the writer's and
      the handlers' threads; [BridgeThreadsWhole]: the theorems of any execution; [BridgeReads]:
      its reading of lines.
    - [Time] ([cf-base/src/time.rs]).
    - [JsValue]: JSON values as serde_json keeps them, with [truthy] of [cf-base/src/js.rs] and
      [js_order] of [json.rs]. [Selection] ([cf-codex-session/src/broker/selection.rs]): the record
      [selection], a definition for each method. [CodexBroker] ([delivery.rs], with what [pair.rs]
      and [control.rs] hand the selection): the [event]s a window's broker goes through, a delivery.
    - [TaskPlan] ([cf-ledger/src/tasks/giving.rs], [editing.rs], [finishing.rs]): the tables of tasks
      and of what they need, and [create_task], [relink], [release_ready] and [delete_tasks] over
      them, a transaction each; [TaskPlanRules]: the theorems of them.
    - [Text] ([cf-base/src/text.rs], [js.rs]): text as its characters, measured and trimmed as
      JavaScript does. [Questions] ([cf-ledger/src/questions.rs]): questions with options, and their
      answers. [Words] ([messages/continuations.rs], [pauses.rs]): the notes known by their words.
    - [Ledger] ([cf-ledger/src/store.rs], [queue.rs], [messages/carrying.rs], [continuations.rs],
      [receipt.rs]): the tables messages go by, as one record [store]; a SQL query is a function of its
      rows, an UPDATE is [update], and an operation a function to a store or a refusal. [Deliveries]
      ([messages/delivery.rs], [receipt.rs], [pauses.rs], [taken_back.rs], [gate.rs]) and [Doors]
      ([messages.rs], [receipt.rs], [tasks/pausing.rs]): a definition for each operation, of its name.
      [MessageRules]: what each keeps of every row; [MessageRuns]: all of them as the steps of a run,
      with what the rest of the ledger does to its other tables left open, and the theorems;
      [MessageCarriers]: what holds of the rows that ride in another's paste.
    - [Handles] ([cf-ledger/src/handles.rs], with [Harness] of [cf-proto/src/agents.rs]): a member's name,
      made of its model; [HandleRules]: what it is made of. [HandleLedger]: the participants' table as
      members are named in it, one by one and by the migrations, with its constraint that no handle is
      twice in a project; [HandleRuns]: the theorems of it.
    - [Pacing] ([cf-engine/src/pacing.rs]): what a window's record keeps of its rest, and a definition
      for each method of the gate; what the engine does while one waits is a list of events.
    - [CfWord] ([cf-proto/src/cf_word.rs]): the word a window's commands start by, and what a shell
      reads of it. [DeliveryText] ([cf-engine/src/delivery_text.rs]): the text a message is pasted
      as, and the reading of a window's record; [DeliveryRecord]: what a record shows of a paste, and
      the theorems that the two agree.
    - [TurnWords] ([cf-engine/src/turn_end.rs], [turn_end/earlier_turns.rs], [role_change.rs]): a record's
      items, the two walks over them, and the result made of what they find; [TurnWordsRules]: the turns a
      record is cut into, and the theorems.
    - [Jsonl] ([cf-harness/src/shared/record/jsonl.rs]): a look at a file of JSON lines, [read_on_with],
      with what it keeps for the next, and [reference], the file read at once; [Json]
      ([cf-base/src/json.rs]): the JSON of a line, which keeps [LawfulParse], all that [Jsonl] asks of it;
      [JsonlReads]: the theorems; [Followed] ([record/followed.rs]): a transcript found, followed and
      read afresh, over any looks.
    - [Executor] ([cf-engine/src/runtime/executor.rs]): the executor's wakes, drains and driver, as
      programs of [Threads]; [ExecutorRuns]: their invariant, and the theorems of any execution;
      [ExecutorDrains]: that a drain comes to its end. [Holds] ([runtime.rs]): the hold of a participant,
      a definition for each method, and the polls of the work that has it as [step]s; [HoldRuns]: what
      every step keeps; [HoldTurns]: the theorems.
    - [ProcessTree] ([cf-panes/src/process_tree.rs], [process_tree/bound.rs], [selection.rs]): the
      processes of a pane on a Mac; the system is the class [System], as it is a trait of the source,
      and what was signalled is kept beside the state, with the looks there were by then; [ProcessBound]: what
      the bound lets through; [ProcessSelection]: what a look selects; [ProcessClose]: a close, and a
      machine made up.
    - [PaneClock] ([background/clock.rs]): the readings of the clocks a pane keeps, and what they prove.
      [Births] ([background/births.rs]): how the processes of a Windows job began. [Background]
      ([background.rs], [background/work.rs], [harness.rs]): a pane's baseline and what of its tree is the
      turn's work, detached from it, or the harness's own, each told by a walk [climb]; what the copies of
      a baseline share is passed beside it. [BackgroundRules]: the theorems. [PaneTurns] ([pty/turn.rs],
      [ended.rs]): the operations of a pane's turn, over the class [Asks] of what they ask of the platform,
      with others' work between their locks; on a Mac it is the pane's [ProcessTree].
    - [Portable] ([cf-portable/src/format.rs], the layout of [pack.rs]).

    ** How the code is modelled

    Data are records and inductive types with the source's fields and constructors, and an
    operation is a definition of the source's name. A panic is [None] of the option monad, and that
    there is none is proved where it is claimed. A lock's section is one step. Where other threads
    go on between the steps of one operation, they are part of the model, in one of three ways: as
    the environment's [others], held to a [rely], in the arbiter's monad; as a sequence of events
    in any order, in the queue, the output, the one-thread bridge, the Codex
    broker, the plan, the pacing and the hold of a participant; and as programs of which any
    may take the next step, in [BridgeThreads] and [Executor]. An [Arc] two holders share is a cell of a store
    that both name. A time is its nanoseconds or milliseconds, as a [Z]; where a width matters its
    saturation or wrap-around is written out.

    What is not the program's is a parameter: the JSON codec ([Frames.Json] and [Serde], with
    [LawfulSerde] for what it promises), the digest and the letters' table of [Screen], the
    numbers of a JSON value ([JsValue.Numbers]), the letters outside ASCII ([alphanumeric]), serde_json's own reading of a text and the
    standard hasher ([Jsonl], [Json]), the system's processes ([ProcessTree.System]), what Codex answers, the window behind a pane, the handlers of a bridge and the code of the app's threads.

    ** What the theorems show

    - Deliveries: one goes whole into a window that admits it, as one paste and its Enter, or is
      refused and nothing of it goes; it lands in finite time, its Enter at the first look that lets it; its text cannot end the paste it is
      in; the Enter waits for the window. The human's keys reach the window, are counted as read,
      and keys after a paste wait for it. Where writes are cut makes no difference.
    - The queue: bounded, in order, each input answered once and none lost; the page's input in the order
      of its numbers; an input refused has reached nothing, but the human's keys (see the finding below).
    - Output and screen: numbered, in order and bounded by what is not acknowledged; no bytes and no
      size make the screen panic, no cut of the output changes it, a reset recovers it, the
      alternate screen gives the main one back.
    - The bridge on one thread: all it writes are frames within the limit, each request ends once,
      an answer settles its own request, before its deadline, a request served is answered or the bridge fails, the lines
      dispatched are the framing of the input, and two ends joined answer each other.
    - The bridge on threads, in any interleaving: what the peer is sent are the queued lines, whole
      and in order, and at most one part of a line, last; the queue is bounded and shared as it
      says; the close is told once, answers all that wait and leaves nobody waiting; requests wait
      apart; after [wait_launches_closed] no launch runs. A read is the stream's next line however
      its bytes are cut.
    - Time: what is written reads back, every text of the format reads as its fields say, the two
      calendar algorithms are the calendar.
    - The Codex broker: a message goes to Codex only for its thread, while the window shows it, once
      unless Codex did not take it, and the reply says what became of it; what the window shows
      changes only by its owner's switch, and a switch refused goes back; a window's role goes into
      its own starts alone, and all else goes on as it came.
    - The plan: no task waits for itself, so some task can always go on; a task given, or its links
      changed, waits for just what was asked; what needs nothing more goes to its window, one task
      in a session's hands.
    - The messages, whatever is done of them by the operations modelled and in whatever order: one at a time is on its way to a
      window; the next of a window can begin at once; what rides in a paste never grows once the paste
      began (but where the human sends one by hand, which is not modelled), so what a confirmation takes for received was in it, and a confirmation receives that
      and no more, and moves the task by it; what was received, withdrawn or failed goes in no more
      but where its window takes it back; what the human holds waits for the human; what waits rides
      in nothing that will not go, so none of it is lost. The notes known
      by their words read back, and no other note is one; choices answer each question once.
    - The names of members: the search for one ends with a name that nobody of the project has, of forty
      characters at most, in which its model is found again unless it was cut; a member renamed takes its
      windows with it; the migration that names all of them is refused by no row.
    - The pacing: a message goes only over looks in a row that read its window at rest for the settle,
      the human as quiet, and a fresh look that reads the same, with what is let off of that said for
      an urgent row, a launch's own messages, no settle and a settle from the first look; the harness is asked once a settle.
    - The delivery text: a record that has a paste's first line whole, behind no more than Claude Code puts
      there, is known for that message's paste and no other's, behind its brief too; what is taken for a paste has only
      what Claude Code put there before its header; long words go as their opening, and what rides is
      said, in order. A shell reads the word of a window's program as its path (but for the finding
      below), and a text's commands alone are started by it.
    - A result: the walk over a record finds the answers of its last turn, the other those of the turns
      before it; and no report is lost, as the result has the words of each complete one since the task's
      latest message but for a line about a wait.
    - A harness's record: each look leaves just the records of all the file holds, once each and in
      order, as one reading of it from the start would, however its reads, the looks and torn lines
      cut it, and takes it for another only where the line it last stopped in became another; a file put in
      its place is read afresh, one rewritten at its size told at the look that settles its time (of a parser
      that decides nothing at a look's end: all but Claude Code's); and every look ends, with any.
    - The engine's executor: no wake is lost, whichever thread makes it and wherever a drain is: a poll of
      the work follows each, or the work is queued and the driver woken; work is taken up in the order it
      was woken, and a drain that no other thread wakes work in comes to its end, all that was woken polled. The hold of a
      participant: one step or operation at a time, begun where nothing another started goes on; who
      waits is served in turn, and begins once the work before it ends (but for the finding below).
    - The processes of a pane: whatever is done of them and whatever the system answers, a signal goes to
      the pane's program, to what a look showed under it or in its session, or to what is under that, and a
      group is signalled whole only where the program leads it; a look selects the pane's tree whole and
      nothing besides; a close asks what is selected and allowed, and a force kills what it stopped and
      its last look shows, and the program last, whatever fails (see the finding below).
    - What a turn left running: the turn's work is what a chain of processes ties to a shell the harness
      started, the detached work what lost its starter, on any list of processes; what was seen to be the
      harness's own stays its own while it runs; detached work is carried over the marks; a rest is kept as
      it is promised; nothing is named twice but under a carried job (see the findings). What a close names
      was there at two looks, is said once, and on a Mac is the turn's or what a close ends, as the same read of the tree has it. The births of a
      job are the latest of them; no process begun after a call is proved older than it by the clocks, where
      the wall clock is set one way at most between two readings.
    - The portable exe: what is packed is found, and no file makes its footer's reader fail or read
      what is not there.

    ** Fuel

    Loops that are not structural take fuel, given by the definition that calls them and proved
    enough: [Lines.take_lines] and [Bridge.dispatch_lines] as many turns as the buffer has bytes and
    two (each turn takes a line, of a byte at least, or ends); [PasteWatch.feed_loop] and
    [Keys.typed_loop] one turn for each byte and one more, [Grid.pen_loop] one for each parameter;
    [Timing.enough_looks] the looks a wait can need, as each is a poll's rest after the last;
    [Time]'s decimal digits as many as the number has bits; [TaskPlan.recursive] as many rows as there
    are links ([upstream_spec]); [DeliveryText.placeholders] and [count_matches] as many as the text
    has characters ([after_pictures], [count_pictures]); [Json.fix_from] as many ([fix_app]);
    [Handles.first_free] and [HandleLedger.free_name] try as many numbers as there are rows and one
    ([first_free_finds], [window_name_free]); [ProcessTree.under] walks as many steps as there are processes and one, as the source does
    ([under_is_reached]), and [descendants] takes a turn for each process and one, as each turn but the
    last selects one more ([descendants_closed]); [Background.walks] looks at as many processes as it knows
    and one, as the source does, which is enough on any list ([BackgroundRules.walks_reach]); [Births.let_go]
    takes a turn for each birth; [Followed.read] two turns, as a reading from the start asks for no other. A thread's program has no fuel:
    an execution of [Threads] is a sequence of steps, and [ends] is of one that comes to its end.

    ** What modelling found

    - [InputArbiter::retire] reads a cell's generation, lets it go and then removes the table's
      entry; a newer generation that took the cell over in between is dropped from the table
      ([Arbiter.retire_can_drop_a_newer_generation]).
    - [InputError] says of what is refused that nothing of it was written; the human's keys are
      refused as stale also where they were written and the pane was retired before their count
      ([InputQueue.typed_keys_refused_after_writing]).
    - [MAX_PARAMS] of [screen/parser.rs] says 32 parameters are the most; 33 are handed on
      ([Parser.run_csi]).
    - A task that is to need its own number to come is refused by the table's constraint, and not as
      a circle ([TaskPlanRules.own_number_breaks_a_constraint]).
    - [reconcile] is said to be the one place a task moves between queued, working and waiting; a task
      resumed while its window is at work is moved to working, and back, by operations of their own
      ([MessageRuns.work_while_resumed_moves_it]).
    - [CfWord::new] doubles the apostrophes of a path for PowerShell, which takes the typographic ones
      for apostrophes as well: a path with one is not read whole
      ([CfWord.typographic_apostrophe_ends_the_path]).
    - [Waiting] of [runtime.rs] says that one that goes away before it runs leaves the queue or passes on
      its turn; work dropped in the turn between its wait and its work does neither, and its participant
      is held for good ([HoldTurns.drop_between_turns_holds_for_good]).
    - A force kills what it stopped only where its last look at the processes shows it; one whose entry the
      system would not read at that look is left stopped ([ProcessClose.Unread.stopped_and_never_killed]).
    - Work that a shell does which a detached job started after a later mark is found both as the turn's
      and as detached, and named twice ([BackgroundRules.a_carried_jobs_shell_is_named_twice]).
    - Migration 0031 names anew the windows of a member that keeps its name: each finds its name taken, by
      itself, and is numbered ([HandleRuns.kept_name_numbers_its_windows]). [slug] cuts a name in a word,
      where it is said to be cut at a word's end ([HandleRules.slug_is_cut_in_a_word]); and a name cut with
      its harness in front holds its model no longer, where [names_its_model] is said to find it
      ([HandleRules.cut_name_holds_no_model]).

    ** Not modelled, and why

    Of what is modelled: poisoned locks (nothing that holds one panics, but where [InputQueue] says
    so), the wording of errors, the drop of a bridge's last handle, the first line of a connection
    and its streams' Unix flags, a handler of the one-thread bridge that panics, and of [time.rs]
    the arithmetic on doubles and the system's clock. Not modelled at all: what is system calls or
    third-party formats (ptys and the reading of processes, the harness integrations, the Codex session but
    for its broker's thread, the command line and the app); the rest of the ledger (a delivery given up or
    confirmed by hand, a carrier changed for another, words declined, urgent questions, pauses and results,
    the staff but for its names), whose rules lean on tables that nothing here reads; and the engine's dispatcher, scheduler,
    windows and the rest of a turn's end, which tie the parts together over files, processes and the bridge. *)
From stdpp Require Export base list list_numbers option numbers strings gmap.
From Stdlib Require Export Strings.Byte.
From Stdlib Require Export ZArith Lia.

#[local] Open Scope Z_scope.

Declare Scope cf_scope.
Delimit Scope cf_scope with cf.
#[global] Open Scope cf_scope.

Create HintDb cf discriminated.
Create Rewrite HintDb vec.

#[global] Arguments Nat.ltb : simpl never.
#[global] Arguments Nat.leb : simpl never.
#[global] Arguments Nat.eqb : simpl never.
#[global] Arguments Nat.min : simpl never.
#[global] Arguments Nat.max : simpl never.

(** ** Bytes *)

Abbreviation byte := Init.Byte.byte.

(** The value of a byte, as [u8] arithmetic reads it. *)
Definition u8 (b : byte) : Z := Z.of_N (Byte.to_N b).

#[export] Instance byte_eq_dec : EqDecision byte := Byte.byte_eq_dec.

Lemma u8_range b : 0 <= u8 b < 256.
Proof. unfold u8. pose proof (Byte.to_N_bounded b). lia. Qed.

Lemma u8_inj b c : u8 b = u8 c -> b = c.
Proof.
  unfold u8. intros H. apply N2Z.inj in H.
  pose proof (Byte.of_to_N b) as Hb. pose proof (Byte.of_to_N c) as Hc.
  rewrite H in Hb. congruence.
Qed.

#[export] Hint Resolve u8_range : cf.

(** The byte of a value; values of [0..255] are bytes. *)
Definition byte_of (z : Z) : byte :=
  match Byte.of_N (Z.to_N z) with Some b => b | None => "000"%byte end.

Lemma u8_byte_of z : 0 <= z < 256 -> u8 (byte_of z) = z.
Proof.
  intros Hz. unfold u8, byte_of.
  destruct (Byte.of_N (Z.to_N z)) as [b|] eqn:E.
  - apply Byte.to_of_N in E. rewrite E. lia.
  - apply Byte.of_N_None_iff in E. lia.
Qed.

Lemma byte_of_u8 b : byte_of (u8 b) = b.
Proof. apply u8_inj. apply u8_byte_of. apply u8_range. Qed.

(** A range test as Rust's [(lo..=hi).contains(&v)]. *)
Definition within (lo hi v : Z) : bool := (lo <=? v) && (v <=? hi).

Lemma within_spec lo hi v : within lo hi v = true <-> lo <= v <= hi.
Proof. unfold within. rewrite andb_true_iff, !Z.leb_le. tauto. Qed.

Lemma within_false lo hi v : within lo hi v = false <-> v < lo \/ hi < v.
Proof. unfold within. rewrite andb_false_iff, !Z.leb_gt. tauto. Qed.

(** ** Slices and vectors

    A Rust index, slice, [remove], [insert] or [drain] out of range panics:
    here it is [None], in stdpp's option monad, and that no operation of the
    program panics is a theorem of each component. *)

Section Vectors.
Context {A : Type}.
Implicit Types v : list A.

(** [&v[i..]] *)
Definition slice_from v (i : nat) : option (list A) :=
  if (i <=? length v)%nat then Some (drop i v) else None.

(** [&v[i..j]] *)
Definition slice v (i j : nat) : option (list A) :=
  if ((i <=? j) && (j <=? length v))%nat
  then Some (take (j - i) (drop i v)) else None.

(** [v[i] = x] *)
Definition vec_set v (i : nat) (x : A) : option (list A) :=
  if (i <? length v)%nat then Some (<[i := x]> v) else None.

(** [v.remove(i)], the removed element let go *)
Definition vec_remove v (i : nat) : option (list A) :=
  if (i <? length v)%nat then Some (delete i v) else None.

(** [v.insert(i, x)] *)
Definition vec_insert v (i : nat) (x : A) : option (list A) :=
  if (i <=? length v)%nat then Some (take i v ++ x :: drop i v) else None.

(** [v.drain(i..j)], the drained elements let go *)
Definition vec_drain v (i j : nat) : option (list A) :=
  if ((i <=? j) && (j <=? length v))%nat
  then Some (take i v ++ drop j v) else None.

(** [v.pop()] as a statement *)
Definition vec_pop v : list A := take (length v - 1) v.

(** [v.iter().position(p)] *)
Fixpoint position (p : A -> bool) v : option nat :=
  match v with
  | [] => None
  | x :: v' => if p x then Some 0%nat else S <$> position p v'
  end.

Lemma slice_from_Some v i : (i <= length v)%nat -> slice_from v i = Some (drop i v).
Proof. intros H. unfold slice_from. by rewrite (proj2 (Nat.leb_le _ _) H). Qed.

Lemma slice_Some v i j :
  (i <= j)%nat -> (j <= length v)%nat ->
  slice v i j = Some (take (j - i) (drop i v)).
Proof.
  intros H1 H2. unfold slice.
  by rewrite (proj2 (Nat.leb_le _ _) H1), (proj2 (Nat.leb_le _ _) H2).
Qed.

Lemma vec_set_Some v i x : (i < length v)%nat -> vec_set v i x = Some (<[i:=x]> v).
Proof. intros H. unfold vec_set. by rewrite (proj2 (Nat.ltb_lt _ _) H). Qed.

Lemma vec_remove_Some v i : (i < length v)%nat -> vec_remove v i = Some (delete i v).
Proof. intros H. unfold vec_remove. by rewrite (proj2 (Nat.ltb_lt _ _) H). Qed.

Lemma vec_insert_Some v i x :
  (i <= length v)%nat -> vec_insert v i x = Some (take i v ++ x :: drop i v).
Proof. intros H. unfold vec_insert. by rewrite (proj2 (Nat.leb_le _ _) H). Qed.

Lemma vec_drain_Some v i j :
  (i <= j)%nat -> (j <= length v)%nat ->
  vec_drain v i j = Some (take i v ++ drop j v).
Proof.
  intros H1 H2. unfold vec_drain.
  by rewrite (proj2 (Nat.leb_le _ _) H1), (proj2 (Nat.leb_le _ _) H2).
Qed.

Lemma position_None p v : position p v = None <-> Forall (fun x => p x = false) v.
Proof.
  induction v as [|x v IH]; simpl; [split; auto using Forall_nil_2|].
  rewrite Forall_cons, <- IH. destruct (p x); [by split; [|intros [? ?]]|].
  destruct (position p v); simpl; split; by try intros [_ ?].
Qed.

Lemma position_Some p v i :
  position p v = Some i ->
  exists x, v !! i = Some x /\ p x = true /\
            Forall (fun y => p y = false) (take i v).
Proof.
  revert i. induction v as [|x v IH]; intros i; simpl; [done|].
  destruct (p x) eqn:E.
  - intros [= <-]. exists x. split_and!; auto using Forall_nil_2.
  - destruct (position p v) as [j|]; intros [= <-].
    destruct (IH j eq_refl) as (y & ? & ? & ?). exists y. simpl.
    auto using Forall_cons_2.
Qed.

Lemma position_lt p v i : position p v = Some i -> (i < length v)%nat.
Proof. intros (x & H & _)%position_Some. by eapply lookup_lt_Some. Qed.

(** The scan may skip a prefix known to hold nothing. *)
Lemma position_skip p v n :
  Forall (fun x => p x = false) (take n v) ->
  position p v = (fun i => (n `min` length v + i)%nat) <$> position p (drop n v).
Proof.
  revert v. induction n as [|n IH]; intros v; simpl.
  { rewrite drop_0. by destruct (position p v). }
  destruct v as [|x v]; simpl; [done|]. intros [Hx Hv]%Forall_cons.
  rewrite Hx, (IH v Hv). by destruct (position p (drop n v)).
Qed.

(** The first of two parts decides where it has one. *)
Lemma position_app_l p v v' i : position p v = Some i -> position p (v ++ v') = Some i.
Proof.
  revert i. induction v as [|x v IH]; intros i; simpl; [done|].
  destruct (p x); [done|]. destruct (position p v); [|done].
  intros [= <-]. by rewrite (IH _ eq_refl).
Qed.

Lemma position_app_r p v v' :
  position p v = None -> position p (v ++ v') = (fun i => (length v + i)%nat) <$> position p v'.
Proof.
  intros Hv%position_None. rewrite (position_skip _ _ (length v)) by (by rewrite take_app_length).
  rewrite drop_app_length, length_app. destruct (position p v'); simpl; [f_equal; lia|done].
Qed.
End Vectors.

#[export] Hint Rewrite @slice_from_Some @slice_Some @vec_set_Some
  @vec_remove_Some @vec_insert_Some @vec_drain_Some using (simpl in *; lia) : vec.

(** [a - b] of two [usize]s: a panic below zero. *)
Definition checked_sub (a b : nat) : option nat :=
  if (b <=? a)%nat then Some (a - b)%nat else None.

(** Opens the option binds of a goal by the vector laws whose ranges [lia] proves. *)
Ltac vec_step := repeat (progress autorewrite with vec; simpl).

(** Settles a comparison of the goal whose outcome [tac] proves. *)
Ltac settle_bool t l := 
  let H := fresh in
  first [ assert (H : t = true) by (apply l; solve [lia | Z.to_euclidean_division_equations; lia])
        | assert (H : t = false) by (apply not_true_is_false; rewrite l;
            solve [lia | Z.to_euclidean_division_equations; lia]) ];
  rewrite H; clear H.

Ltac settle_test :=
  match goal with
  | |- context [(?a <? ?b)%Z] => settle_bool (a <? b)%Z (Z.ltb_lt a b)
  | |- context [(?a <=? ?b)%Z] => settle_bool (a <=? b)%Z (Z.leb_le a b)
  | |- context [(?a =? ?b)%Z] => settle_bool (a =? b)%Z (Z.eqb_eq a b)
  | |- context [(?a <? ?b)%nat] => settle_bool (a <? b)%nat (Nat.ltb_lt a b)
  | |- context [(?a <=? ?b)%nat] => settle_bool (a <=? b)%nat (Nat.leb_le a b)
  | |- context [(?a =? ?b)%nat] => settle_bool (a =? b)%nat (Nat.eqb_eq a b)
  | |- context [within ?a ?b ?c] => settle_bool (within a b c) (within_spec a b c)
  end.

(** Reads the tests of the hypotheses, and of the goal, as inequalities. *)
Ltac ranges :=
  repeat match goal with
  | H : _ && _ = true |- _ => apply andb_true_iff in H as [? ?]
  | H : _ || _ = true |- _ => apply orb_true_iff in H
  | H : within _ _ _ = true |- _ => apply within_spec in H
  | H : within _ _ _ = false |- _ => apply within_false in H
  | H : (_ =? _)%Z = true |- _ => apply Z.eqb_eq in H
  | H : (_ =? _)%Z = false |- _ => apply Z.eqb_neq in H
  | H : (_ <? _)%Z = true |- _ => apply Z.ltb_lt in H
  | H : (_ <? _)%Z = false |- _ => apply Z.ltb_ge in H
  | H : (_ <=? _)%Z = true |- _ => apply Z.leb_le in H
  | H : (_ <=? _)%Z = false |- _ => apply Z.leb_gt in H
  | H : (_ =? _)%nat = true |- _ => apply Nat.eqb_eq in H
  | H : (_ =? _)%nat = false |- _ => apply Nat.eqb_neq in H
  | H : (_ <? _)%nat = true |- _ => apply Nat.ltb_lt in H
  | H : (_ <? _)%nat = false |- _ => apply Nat.ltb_ge in H
  | H : (_ <=? _)%nat = true |- _ => apply Nat.leb_le in H
  | H : (_ <=? _)%nat = false |- _ => apply Nat.leb_gt in H
  | |- _ && _ = true => apply andb_true_iff; split
  | |- within _ _ _ = true => apply within_spec
  | |- within _ _ _ = false => apply within_false
  end.

Lemma checked_sub_Some a b : (b <= a)%nat -> checked_sub a b = Some (a - b)%nat.
Proof. intros H. unfold checked_sub. by settle_test. Qed.

#[export] Hint Rewrite checked_sub_Some using lia : vec.

(** ** Filters *)

Lemma filter_all {A} (P : A -> Prop) `{!forall x, Decision (P x)} (l : list A) :
  Forall P l -> filter P l = l.
Proof. induction 1 as [|x l Hx _ IH]; [done|]. by rewrite filter_cons_True, IH. Qed.

Lemma filter_none {A} (P : A -> Prop) `{!forall x, Decision (P x)} (l : list A) :
  Forall (fun x => ~ P x) l -> filter P l = [].
Proof. induction 1 as [|x l Hx _ IH]; [done|]. by rewrite filter_cons_False, IH. Qed.
