(* ===== verification/Lines.v ===== *)
(** * The bridge's input as lines: [cf-bridge/src/local/lines.rs]

    Bytes in, whole lines out: the scanner's buffer and its two indices, its
    abstract specification (the unterminated tail and whether the rest of an
    overflowed line is being dropped), the refinement between the two, and
    what follows for any cut of the input into chunks. *)
From S2P Require Import Prelude.

(** ** The scanner *)

(** What the input held next. *)
Inductive line :=
  | Complete (bytes : list byte)
  | Overflow.

Record lines := Lines {
  ls_max : nat;
  ls_buffer : list byte;
  (** where the next line starts in the buffer *)
  ls_start : nat;
  (** how many bytes after the start are known to hold no newline *)
  ls_scanned : nat;
  (** dropping the rest of an overflowed line *)
  ls_discarding : bool
}.

#[export] Instance line_eq_dec : EqDecision line.
Proof. solve_decision. Defined.

Definition lf : byte := x0a.
Definition cr : byte := x0d.
Definition is_lf (b : byte) : bool := Byte.eqb b lf.

Definition new (max : nat) : lines := Lines max [] 0 0 false.

Definition push (l : lines) (chunk : list byte) : option lines :=
  if ls_discarding l then
    match position is_lf chunk with
    | None => Some l
    | Some newline =>
        rest ← slice_from chunk (newline + 1);
        Some (Lines (ls_max l) (ls_buffer l ++ rest) (ls_start l) (ls_scanned l) false)
    end
  else Some (Lines (ls_max l) (ls_buffer l ++ chunk) (ls_start l) (ls_scanned l)
               (ls_discarding l)).

(** No newline is left: what follows the last line is kept while it fits. *)
Definition keep_the_tail (l : lines) : option (lines * option line) :=
  buffer ← vec_drain (ls_buffer l) 0 (ls_start l);
  if (ls_max l <? length buffer)%nat then
    Some (Lines (ls_max l) [] 0 0 true, Some Overflow)
  else Some (Lines (ls_max l) buffer 0 (length buffer) (ls_discarding l), None).

(** [if line.last() == Some(&b'\r') { line.pop(); }] *)
Definition strip_cr (bytes : list byte) : list byte :=
  match last bytes with
  | Some b => if Byte.eqb b cr then vec_pop bytes else bytes
  | None => bytes
  end.

Definition next_line (l : lines) : option (lines * option line) :=
  let from := (ls_start l + ls_scanned l)%nat in
  rest ← slice_from (ls_buffer l) from;
  match position is_lf rest with
  | None => keep_the_tail l
  | Some offset =>
      let end_ := (from + offset)%nat in
      bytes ← slice (ls_buffer l) (ls_start l) end_;
      Some (Lines (ls_max l) (ls_buffer l) (end_ + 1) 0 (ls_discarding l),
            Some (Complete (strip_cr bytes)))
  end.

(** A caller takes lines until none is left, before it pushes the next chunk
    ([dispatch_lines] of reader.rs); [None] when out of fuel or on a panic. *)
Fixpoint take_lines (fuel : nat) (l : lines) : option (lines * list line) :=
  match fuel with
  | O => None
  | S fuel' =>
      next ← next_line l;
      match next with
      | (l', None) => Some (l', [])
      | (l', Some x) =>
          more ← take_lines fuel' l';
          Some (fst more, x :: snd more)
      end
  end.

(** One read of the input: push, then take. A line takes at least a byte. *)
Definition read_chunk (l : lines) (chunk : list byte) : option (lines * list line) :=
  l' ← push l chunk;
  take_lines (length (ls_buffer l') + 2) l'.

Fixpoint read_chunks (l : lines) (chunks : list (list byte)) : option (lines * list line) :=
  match chunks with
  | [] => Some (l, [])
  | chunk :: more =>
      first ← read_chunk l chunk;
      rest ← read_chunks (fst first) more;
      Some (fst rest, snd first ++ snd rest)
  end.

(** ** The specification: the tail, and whether a line is being dropped *)

(** The lines that [bytes] ends, and the unterminated one after them. *)
Fixpoint split_lines (bytes : list byte) : list (list byte) * list byte :=
  match bytes with
  | [] => ([], [])
  | b :: bytes' =>
      let '(whole, tail) := split_lines bytes' in
      if is_lf b then ([] :: whole, tail)
      else match whole with
           | [] => ([], b :: tail)
           | l :: whole' => ((b :: l) :: whole', tail)
           end
  end.

Record framer := Framer { fr_tail : list byte; fr_dropping : bool }.

Definition whole_lines (bytes : list byte) : list line :=
  (fun l => Complete (strip_cr l)) <$> fst (split_lines bytes).

(** What follows the first newline of a chunk, if it has one. *)
Fixpoint after_lf (bytes : list byte) : option (list byte) :=
  match bytes with
  | [] => None
  | b :: bytes' => if is_lf b then Some bytes' else after_lf bytes'
  end.

Definition framer_settle (max : nat) (bytes : list byte) : framer * list line :=
  let '(_, tail) := split_lines bytes in
  if (max <? length tail)%nat then (Framer [] true, whole_lines bytes ++ [Overflow])
  else (Framer tail false, whole_lines bytes).

Definition framer_read (max : nat) (f : framer) (chunk : list byte) : framer * list line :=
  if fr_dropping f then
    match after_lf chunk with
    | None => (f, [])
    | Some rest => framer_settle max rest
    end
  else framer_settle max (fr_tail f ++ chunk).

Fixpoint framer_reads (max : nat) (f : framer) (chunks : list (list byte)) : framer * list line :=
  match chunks with
  | [] => (f, [])
  | chunk :: more =>
      let '(f1, out1) := framer_read max f chunk in
      let '(f2, out2) := framer_reads max f1 more in
      (f2, out1 ++ out2)
  end.

(** The scanner between two reads stands for a framer. *)
Definition stands_for (max : nat) (l : lines) (f : framer) : Prop :=
  l = Lines max (fr_tail f) 0 (length (fr_tail f)) (fr_dropping f) /\
  Forall (fun b => is_lf b = false) (fr_tail f) /\
  (fr_dropping f = true -> fr_tail f = []) /\
  (length (fr_tail f) <= max)%nat.

(** ** Splitting *)

Lemma is_lf_true b : is_lf b = true <-> b = lf.
Proof. unfold is_lf. split; [apply Byte.byte_dec_bl|by intros ->]. Qed.

Lemma split_lines_tail_only bytes :
  Forall (fun b => is_lf b = false) bytes -> split_lines bytes = ([], bytes).
Proof. induction 1 as [|b bytes Hb _ IH]; simpl; [done|]. by rewrite IH, Hb. Qed.

Lemma split_lines_app_lf l bytes :
  Forall (fun b => is_lf b = false) l ->
  split_lines (l ++ lf :: bytes)
  = (l :: fst (split_lines bytes), snd (split_lines bytes)).
Proof.
  induction 1 as [|b l Hb _ IH]; simpl.
  - by destruct (split_lines bytes).
  - by rewrite IH, Hb.
Qed.

Lemma split_lines_tail bytes :
  Forall (fun b => is_lf b = false) (snd (split_lines bytes)).
Proof.
  induction bytes as [|b bytes IH]; simpl; [constructor|].
  destruct (split_lines bytes) as [[|l whole] tail]; simpl in *;
    destruct (is_lf b) eqn:E; simpl; auto.
Qed.

Lemma split_lines_tail_length bytes :
  (length (snd (split_lines bytes)) <= length bytes)%nat.
Proof.
  induction bytes as [|b bytes IH]; simpl; [lia|].
  destruct (split_lines bytes) as [[|l whole] tail]; simpl in *;
    destruct (is_lf b); simpl; lia.
Qed.

(** Cutting at a newline found by [position]. *)
Lemma position_lf_split bytes k :
  position is_lf bytes = Some k ->
  bytes = take k bytes ++ lf :: drop (k + 1) bytes /\
  Forall (fun b => is_lf b = false) (take k bytes).
Proof.
  intros (b & Hk & Hb & Hpre)%position_Some. split; [|done].
  apply is_lf_true in Hb as ->. symmetry.
  rewrite Nat.add_1_r. by apply take_drop_middle.
Qed.

Lemma after_lf_position bytes :
  after_lf bytes = (fun k => drop (k + 1) bytes) <$> position is_lf bytes.
Proof.
  induction bytes as [|b bytes IH]; simpl; [done|].
  destruct (is_lf b); simpl; [by rewrite drop_0|].
  rewrite IH. by destruct (position is_lf bytes).
Qed.

(** ** The scan of one read *)

(** The scanner inside a read, at [rest]: where it reads from, and what it
    has looked at already. *)
Definition scanning (l : lines) (rest : list byte) : Prop :=
  (ls_start l + ls_scanned l <= length (ls_buffer l))%nat /\
  rest = drop (ls_start l) (ls_buffer l) /\
  Forall (fun b => is_lf b = false) (take (ls_scanned l) rest).

Lemma scanning_start max buffer dropping :
  scanning (Lines max buffer 0 0 dropping) buffer.
Proof. split_and!; simpl; [lia|by rewrite drop_0|exact (Forall_nil_2 _)]. Qed.

Lemma scanning_position l rest :
  scanning l rest ->
  position is_lf rest
  = (fun i => (ls_scanned l + i)%nat)
      <$> position is_lf (drop (ls_start l + ls_scanned l) (ls_buffer l)).
Proof.
  intros (Hle & -> & Hpre). rewrite (position_skip _ _ _ Hpre), drop_drop.
  rewrite length_drop, Nat.min_l by lia. done.
Qed.

Lemma next_line_complete l rest k :
  scanning l rest -> position is_lf rest = Some k ->
  exists l', next_line l = Some (l', Some (Complete (strip_cr (take k rest)))) /\
    scanning l' (drop (k + 1) rest) /\ ls_max l' = ls_max l /\
    ls_discarding l' = ls_discarding l.
Proof.
  intros Hs Hk. pose proof (position_lt _ _ _ Hk) as Hlt.
  rewrite (scanning_position _ _ Hs) in Hk.
  destruct Hs as (Hle & -> & Hpre). rewrite length_drop in Hlt.
  unfold next_line. rewrite slice_from_Some by lia. simpl.
  destruct (position is_lf _) as [off|]; [|done]. injection Hk as <-.
  rewrite slice_Some by lia. simpl.
  replace (ls_start l + ls_scanned l + off - ls_start l)%nat
    with (ls_scanned l + off)%nat by lia.
  eexists. split_and!; [done|split_and!|..]; simpl.
  - lia.
  - rewrite drop_drop. f_equal. lia.
  - constructor.
  - done.
  - done.
Qed.

Lemma next_line_none l rest :
  scanning l rest -> position is_lf rest = None ->
  next_line l =
    if (ls_max l <? length rest)%nat
    then Some (Lines (ls_max l) [] 0 0 true, Some Overflow)
    else Some (Lines (ls_max l) rest 0 (length rest) (ls_discarding l), None).
Proof.
  intros Hs Hk. rewrite (scanning_position _ _ Hs) in Hk.
  destruct Hs as (Hle & -> & Hpre).
  unfold next_line. rewrite slice_from_Some by lia. simpl.
  destruct (position is_lf _); [done|].
  unfold keep_the_tail. rewrite vec_drain_Some by lia. simpl. by case_match.
Qed.

Lemma take_lines_settles fuel l rest :
  scanning l rest -> ls_discarding l = false -> (length rest + 1 < fuel)%nat ->
  take_lines fuel l =
    let '(f, out) := framer_settle (ls_max l) rest in
    Some (Lines (ls_max l) (fr_tail f) 0 (length (fr_tail f)) (fr_dropping f), out).
Proof.
  revert l rest. induction fuel as [|fuel IH]; intros l rest Hs Hd Hf; [lia|].
  simpl. destruct (position is_lf rest) as [k|] eqn:Hk.
  - destruct (next_line_complete l rest k Hs Hk) as (l' & -> & Hs' & Hm & Hd').
    simpl. pose proof (position_lt _ _ _ Hk).
    rewrite (IH l' _ Hs') by (rewrite ?length_drop; congruence || lia).
    rewrite Hm. destruct (position_lf_split _ _ Hk) as [Heq Hpre].
    unfold framer_settle, whole_lines.
    assert (split_lines rest
            = (take k rest :: fst (split_lines (drop (k + 1) rest)),
               snd (split_lines (drop (k + 1) rest)))) as ->.
    { rewrite Heq at 1. by apply split_lines_app_lf. }
    destruct (split_lines (drop (k + 1) rest)) as [whole tail]. simpl.
    by destruct (_ <? _)%nat.
  - rewrite (next_line_none l rest Hs Hk). apply position_None in Hk.
    unfold framer_settle, whole_lines. rewrite (split_lines_tail_only _ Hk). simpl.
    destruct (_ <? _)%nat eqn:E; simpl; [|by rewrite Hd].
    destruct fuel as [|fuel]; [apply Nat.ltb_lt in E; lia|]. done.
Qed.

(** ** Refinement *)

Lemma stands_for_scanning max l f bytes :
  stands_for max l f ->
  scanning (Lines max (fr_tail f ++ bytes) 0 (length (fr_tail f)) false)
           (fr_tail f ++ bytes).
Proof.
  intros (_ & Htail & _). split_and!; simpl; [rewrite length_app; lia|done|].
  by rewrite take_app_length.
Qed.

Lemma framer_settle_stands_for max bytes f out :
  framer_settle max bytes = (f, out) ->
  stands_for max (Lines max (fr_tail f) 0 (length (fr_tail f)) (fr_dropping f)) f.
Proof.
  unfold framer_settle. pose proof (split_lines_tail bytes) as Htail.
  destruct (split_lines bytes) as [whole tail]; simpl in *.
  destruct (max <? length tail)%nat eqn:E; intros [= <- <-];
    split_and!; simpl; auto with lia; try done.
  apply Nat.ltb_ge in E. lia.
Qed.

Lemma read_chunk_refines max l f chunk :
  stands_for max l f ->
  exists l', read_chunk l chunk = Some (l', snd (framer_read max f chunk)) /\
    stands_for max l' (fst (framer_read max f chunk)).
Proof.
  intros Hst. pose proof Hst as (-> & Htail & Hdrop & Hlen).
  unfold read_chunk, push, framer_read. simpl.
  destruct (fr_dropping f) eqn:Hd.
  - rewrite after_lf_position. rewrite (Hdrop eq_refl) in *.
    destruct (position is_lf chunk) as [k|] eqn:Hk; simpl.
    + apply position_lt in Hk. rewrite slice_from_Some by lia. simpl.
      rewrite (take_lines_settles _ _ (drop (k + 1) chunk)) by
        (done || (simpl; lia) || apply scanning_start).
      simpl. destruct (framer_settle max _) as [f' out] eqn:E. simpl.
      eexists. split; [done|]. by apply framer_settle_stands_for in E.
    + eexists. split; [reflexivity|exact Hst].
  - simpl. rewrite (take_lines_settles _ _ (fr_tail f ++ chunk)); simpl; [|by eapply stands_for_scanning|done|lia].
    destruct (framer_settle max _) as [f' out] eqn:E. simpl.
    eexists. split; [done|]. by apply framer_settle_stands_for in E.
Qed.

Lemma new_stands_for max : stands_for max (new max) (Framer [] false).
Proof. split_and!; simpl; auto with lia. Qed.

Lemma read_chunks_refines_from max l f chunks :
  stands_for max l f ->
  exists l', read_chunks l chunks = Some (l', snd (framer_reads max f chunks)) /\
    stands_for max l' (fst (framer_reads max f chunks)).
Proof.
  revert l f. induction chunks as [|chunk chunks IH]; intros l f Hst; simpl; [by eauto|].
  destruct (read_chunk_refines max l f chunk Hst) as (l1 & -> & Hst1). simpl.
  destruct (framer_read max f chunk) as [f1 out1]. simpl in *.
  destruct (IH l1 f1 Hst1) as (l2 & -> & Hst2). simpl.
  destruct (framer_reads max f1 chunks) as [f2 out2]. by eauto.
Qed.

(** ** What follows for the stream *)

(** Every line of [bytes], its unterminated tail too, is within the limit. *)
Definition lines_fit (max : nat) (bytes : list byte) : Prop :=
  Forall (fun l => (length l <= max)%nat) (fst (split_lines bytes)) /\
  (length (snd (split_lines bytes)) <= max)%nat.

Lemma split_lines_app a b :
  split_lines (a ++ b)
  = (fst (split_lines a) ++ fst (split_lines (snd (split_lines a) ++ b)),
     snd (split_lines (snd (split_lines a) ++ b))).
Proof.
  induction a as [|x a IH]; simpl; [by destruct (split_lines b)|].
  rewrite IH. destruct (split_lines a) as [wa ta]; simpl in *.
  destruct (is_lf x) eqn:E; simpl.
  - by destruct (split_lines (ta ++ b)).
  - destruct wa as [|w wa]; simpl; [rewrite E|].
    + destruct (split_lines (ta ++ b)) as [[|l whole] t]; done.
    + by destruct (split_lines (ta ++ b)).
Qed.

Lemma split_lines_prefix tail bytes :
  Forall (fun b => is_lf b = false) tail ->
  split_lines (tail ++ bytes)
  = match split_lines bytes with
    | ([], t) => ([], tail ++ t)
    | (l :: whole, t) => ((tail ++ l) :: whole, t)
    end.
Proof.
  induction 1 as [|b tail Hb _ IH]; simpl; [by destruct (split_lines bytes) as [[]]|].
  rewrite IH, Hb. by destruct (split_lines bytes) as [[]].
Qed.

(** An unterminated line is the start of a line of whatever follows it. *)
Lemma lines_fit_prefix max tail bytes :
  Forall (fun b => is_lf b = false) tail ->
  lines_fit max (tail ++ bytes) -> (length tail <= max)%nat.
Proof.
  intros Htail. unfold lines_fit. rewrite (split_lines_prefix _ _ Htail).
  destruct (split_lines bytes) as [[|l whole] t]; simpl;
    rewrite ?Forall_cons, ?length_app; lia.
Qed.

Lemma lines_fit_app max a b :
  lines_fit max (a ++ b) -> lines_fit max (snd (split_lines a) ++ b).
Proof.
  unfold lines_fit. rewrite split_lines_app. simpl. rewrite Forall_app. tauto.
Qed.

(** Within the limit, what comes out is the stream's lines. *)
Lemma framer_reads_within max chunks tail :
  Forall (fun b => is_lf b = false) tail ->
  lines_fit max (tail ++ concat chunks) ->
  framer_reads max (Framer tail false) chunks
  = (Framer (snd (split_lines (tail ++ concat chunks))) false,
     whole_lines (tail ++ concat chunks)).
Proof.
  revert tail. induction chunks as [|chunk chunks IH]; intros tail Htail Hfit; simpl in *.
  { rewrite app_nil_r. unfold whole_lines. by rewrite split_lines_tail_only. }
  rewrite app_assoc in Hfit |- *. apply lines_fit_app in Hfit.
  pose proof (split_lines_tail (tail ++ chunk)) as Htail'.
  unfold framer_read, framer_settle, whole_lines. simpl. rewrite (split_lines_app (tail ++ chunk)).
  destruct (split_lines (tail ++ chunk)) as [whole t]; simpl in *.
  pose proof (lines_fit_prefix _ _ _ Htail' Hfit).
  assert ((max <? length t)%nat = false) as -> by (apply Nat.ltb_ge; lia).
  rewrite IH by done. unfold whole_lines. simpl. by rewrite fmap_app.
Qed.

(** Where every line of a connection is within the limit, the reader takes the
    lines that were written and no others, each whole and in order, however the bytes
    are cut into reads. *)
Theorem lines_any_cut max chunks :
  lines_fit max (concat chunks) ->
  exists l', read_chunks (new max) chunks = Some (l', whole_lines (concat chunks)).
Proof.
  intros Hfit.
  destruct (read_chunks_refines_from max _ _ chunks (new_stands_for max)) as (l' & -> & _).
  rewrite framer_reads_within by (done || constructor). eauto.
Qed.

(** C34: the scanner, whose buffer and two indices are moved in place, reads any
    connection as its specification does, that keeps the unterminated tail and drops the
    rest of an overlong line, told once; no index of it is ever out of range, its loop ends
    at each read, and between two reads it never keeps more than the limit. *)
Theorem lines_implement_framer max chunks :
  exists l', read_chunks (new max) chunks =
      Some (l', snd (framer_reads max (Framer [] false) chunks)) /\
    stands_for max l' (fst (framer_reads max (Framer [] false) chunks)) /\
    (length (ls_buffer l') <= max)%nat.
Proof.
  destruct (read_chunks_refines_from max _ _ chunks (new_stands_for max)) as (l1 & -> & Hst).
  exists l1. split_and!; [done|done|]. destruct Hst as (-> & _ & _ & ?). done.
Qed.

(** ** Witness *)

Lemma lines_any_cut_witness :
  lines_fit 2 (concat [["a"; "b"]; ["010"; "c"]; ["013"; "010"; "d"]]%byte) /\
  exists l', read_chunks (new 2) [["a"; "b"]; ["010"; "c"]; ["013"; "010"; "d"]]%byte =
    Some (l', whole_lines (concat [["a"; "b"]; ["010"; "c"]; ["013"; "010"; "d"]]%byte)).
Proof.
  split; [vm_compute; repeat constructor|].
  apply lines_any_cut. vm_compute. repeat constructor.
Defined.
