(* ===== verification/Utf8.v ===== *)
(** * UTF-8 as Rust's [str] reads it

    The standard library's part of the text the components handle: scalar
    values, [std::str::from_utf8] and its inverse, [char::is_control],
    [char::is_whitespace] and [str::trim_end]. Nothing here is of the program;
    the components' definitions use it. *)
From S2P Require Import Prelude.
#[local] Open Scope Z_scope.

(** A Rust [char], by its code point. *)
Abbreviation char := Z.

Definition REPLACEMENT_CHARACTER : char := 0xFFFD.

(** The values a [char] takes: a Unicode scalar value. *)
Definition is_scalar (c : char) : bool :=
  within 0 0xD7FF c || within 0xE000 0x10FFFF c.

Definition is_ascii (c : char) : bool := within 0 0x7F c.

(** [char::is_control]: category Cc. *)
Definition is_control (c : char) : bool := within 0 0x1F c || within 0x7F 0x9F c.

(** [char::is_whitespace]: Unicode's White_Space. *)
Definition is_whitespace (c : char) : bool :=
  within 0x09 0x0D c || (c =? 0x20) || (c =? 0x85) || (c =? 0xA0) ||
  (c =? 0x1680) || within 0x2000 0x200A c || (c =? 0x2028) || (c =? 0x2029) ||
  (c =? 0x202F) || (c =? 0x205F) || (c =? 0x3000).

(** [str::trim_end] *)
Fixpoint trim_end (s : list char) : list char :=
  match s with
  | [] => []
  | c :: s' =>
      match trim_end s' with
      | [] => if is_whitespace c then [] else [c]
      | t => c :: t
      end
  end.

(** A continuation byte: [10xxxxxx]. *)
Definition is_continuation (b : byte) : bool := within 0x80 0xBF (u8 b).

Definition six (b : byte) : Z := u8 b - 0x80.

(** The characters of two, three and four bytes: none longer than it need be,
    none of the surrogates', none past the last. *)
Definition char2 (b0 b1 : byte) : option char :=
  if within 0xC2 0xDF (u8 b0) && is_continuation b1
  then Some ((u8 b0 - 0xC0) * 0x40 + six b1) else None.

Definition second3 (b0 b1 : byte) : bool :=
  if u8 b0 =? 0xE0 then within 0xA0 0xBF (u8 b1)
  else if u8 b0 =? 0xED then within 0x80 0x9F (u8 b1)
  else is_continuation b1.

Definition char3 (b0 b1 b2 : byte) : option char :=
  if within 0xE0 0xEF (u8 b0) && second3 b0 b1 && is_continuation b2
  then Some ((u8 b0 - 0xE0) * 0x1000 + six b1 * 0x40 + six b2) else None.

Definition second4 (b0 b1 : byte) : bool :=
  if u8 b0 =? 0xF0 then within 0x90 0xBF (u8 b1)
  else if u8 b0 =? 0xF4 then within 0x80 0x8F (u8 b1)
  else is_continuation b1.

Definition char4 (b0 b1 b2 b3 : byte) : option char :=
  if within 0xF0 0xF4 (u8 b0) && second4 b0 b1 && is_continuation b2 && is_continuation b3
  then Some ((u8 b0 - 0xF0) * 0x40000 + six b1 * 0x1000 + six b2 * 0x40 + six b3)
  else None.

(** [std::str::from_utf8(bytes)], as the characters of the text. *)
Fixpoint from_utf8 (bytes : list byte) : option (list char) :=
  match bytes with
  | [] => Some []
  | b0 :: r0 =>
      if u8 b0 <? 0x80 then cons (u8 b0) <$> from_utf8 r0 else
      match r0 with
      | [] => None
      | b1 :: r1 =>
          match char2 b0 b1, r1 with
          | Some c, _ => cons c <$> from_utf8 r1
          | None, [] => None
          | None, b2 :: r2 =>
              match char3 b0 b1 b2, r2 with
              | Some c, _ => cons c <$> from_utf8 r2
              | None, [] => None
              | None, b3 :: r3 =>
                  match char4 b0 b1 b2 b3 with
                  | Some c => cons c <$> from_utf8 r3
                  | None => None
                  end
              end
          end
      end
  end.

(** [String::from_utf8_lossy(bytes)]: a U+FFFD for each longest run of bytes that begins a
    character and does not end it, and for each byte that begins none. *)
Fixpoint from_utf8_lossy (bytes : list byte) : list char :=
  match bytes with
  | [] => []
  | b0 :: r0 =>
      if u8 b0 <? 0x80 then u8 b0 :: from_utf8_lossy r0 else
      match r0 with
      | [] => [REPLACEMENT_CHARACTER]
      | b1 :: r1 =>
          match char2 b0 b1 with
          | Some c => c :: from_utf8_lossy r1
          | None =>
              if within 0xE0 0xEF (u8 b0) && second3 b0 b1 then
                match r1 with
                | [] => [REPLACEMENT_CHARACTER]
                | b2 :: r2 =>
                    match char3 b0 b1 b2 with
                    | Some c => c :: from_utf8_lossy r2
                    | None => REPLACEMENT_CHARACTER :: from_utf8_lossy r1
                    end
                end
              else if within 0xF0 0xF4 (u8 b0) && second4 b0 b1 then
                match r1 with
                | [] => [REPLACEMENT_CHARACTER]
                | b2 :: r2 =>
                    if is_continuation b2 then
                      match r2 with
                      | [] => [REPLACEMENT_CHARACTER]
                      | b3 :: r3 =>
                          match char4 b0 b1 b2 b3 with
                          | Some c => c :: from_utf8_lossy r3
                          | None => REPLACEMENT_CHARACTER :: from_utf8_lossy r2
                          end
                      end
                    else REPLACEMENT_CHARACTER :: from_utf8_lossy r1
                end
              else REPLACEMENT_CHARACTER :: from_utf8_lossy r0
          end
      end
  end.

(** The bytes of a character, as [char::encode_utf8] writes them. *)
Definition encode_char (c : char) : list byte :=
  if c <? 0x80 then [byte_of c]
  else if c <? 0x800 then [byte_of (0xC0 + c / 0x40); byte_of (0x80 + c mod 0x40)]
  else if c <? 0x10000 then
    [byte_of (0xE0 + c / 0x1000); byte_of (0x80 + c / 0x40 mod 0x40);
     byte_of (0x80 + c mod 0x40)]
  else
    [byte_of (0xF0 + c / 0x40000); byte_of (0x80 + c / 0x1000 mod 0x40);
     byte_of (0x80 + c / 0x40 mod 0x40); byte_of (0x80 + c mod 0x40)].

Definition encode (s : list char) : list byte := concat (encode_char <$> s).

Lemma encode_cons c s : encode (c :: s) = encode_char c ++ encode s.
Proof. done. Qed.

(** ** The two are inverse *)

Lemma is_scalar_spec c :
  is_scalar c = true <-> 0 <= c <= 0xD7FF \/ 0xE000 <= c <= 0x10FFFF.
Proof. unfold is_scalar. rewrite orb_true_iff, !within_spec. tauto. Qed.

#[local] Ltac euclid := Z.to_euclidean_division_equations; lia.

Lemma char2_encode c :
  0x80 <= c < 0x800 ->
  char2 (byte_of (0xC0 + c / 0x40)) (byte_of (0x80 + c mod 0x40)) = Some c.
Proof.
  intros Hc. unfold char2, is_continuation, six. rewrite !u8_byte_of by euclid.
  destruct (_ && _) eqn:E; [f_equal; euclid|].
  apply andb_false_iff in E as [E|E]; ranges; euclid.
Qed.

Lemma char3_encode c :
  0x800 <= c < 0x10000 -> is_scalar c = true ->
  char3 (byte_of (0xE0 + c / 0x1000)) (byte_of (0x80 + c / 0x40 mod 0x40))
    (byte_of (0x80 + c mod 0x40)) = Some c.
Proof.
  intros Hc Hs%is_scalar_spec. unfold char3, second3, is_continuation, six.
  rewrite !u8_byte_of by euclid.
  destruct (_ && _) eqn:E; [f_equal; euclid|].
  rewrite !andb_false_iff in E. destruct E as [[E|E]|E]; [ranges; euclid| |ranges; euclid].
  repeat case_match; ranges; euclid.
Qed.

Lemma char4_encode c :
  0x10000 <= c <= 0x10FFFF ->
  char4 (byte_of (0xF0 + c / 0x40000)) (byte_of (0x80 + c / 0x1000 mod 0x40))
    (byte_of (0x80 + c / 0x40 mod 0x40)) (byte_of (0x80 + c mod 0x40)) = Some c.
Proof.
  intros Hc. unfold char4, second4, is_continuation, six.
  rewrite !u8_byte_of by euclid.
  destruct (_ && _) eqn:E; [f_equal; euclid|].
  rewrite !andb_false_iff in E.
  destruct E as [[[E|E]|E]|E]; [ranges; euclid| |ranges; euclid|ranges; euclid].
  repeat case_match; ranges; euclid.
Qed.

(** A lead byte of three or four is none of two, and one of four none of three. *)
Lemma char2_lead b0 b1 : 0xE0 <= u8 b0 -> char2 b0 b1 = None.
Proof. intros H. unfold char2. destruct (_ && _) eqn:E; [ranges; lia|done]. Qed.

Lemma char3_lead b0 b1 b2 : 0xF0 <= u8 b0 -> char3 b0 b1 b2 = None.
Proof. intros H. unfold char3. destruct (_ && _) eqn:E; [ranges; lia|done]. Qed.

Lemma from_utf8_encode_char c bytes :
  is_scalar c = true ->
  from_utf8 (encode_char c ++ bytes) = cons c <$> from_utf8 bytes.
Proof.
  intros Hs. pose proof (proj1 (is_scalar_spec c) Hs) as Hr. unfold encode_char.
  case_match eqn:E1; [|case_match eqn:E2; [|case_match eqn:E3]]; ranges; simpl.
  - rewrite u8_byte_of by lia. by settle_test.
  - rewrite char2_encode by lia. rewrite u8_byte_of by euclid.
    by settle_test.
  - rewrite char3_encode, (char2_lead (byte_of (0xE0 + c / 0x1000))) by
      (done || lia || (rewrite u8_byte_of by euclid; euclid)).
    rewrite u8_byte_of by euclid. by settle_test.
  - rewrite char4_encode, (char2_lead (byte_of (0xF0 + c / 0x40000))),
      (char3_lead (byte_of (0xF0 + c / 0x40000))) by
      (done || lia || (rewrite u8_byte_of by euclid; euclid)).
    rewrite u8_byte_of by euclid. by settle_test.
Qed.

Lemma from_utf8_encode s :
  Forall (fun c => is_scalar c = true) s -> from_utf8 (encode s) = Some s.
Proof.
  induction 1 as [|c s Hc _ IH]; [done|]. rewrite encode_cons.
  by rewrite from_utf8_encode_char, IH.
Qed.

(** The characters decoded are scalar values. *)
Lemma char2_scalar b0 b1 c : char2 b0 b1 = Some c -> is_scalar c = true.
Proof.
  unfold char2, is_continuation, six. case_match eqn:E; [intros [= <-]|done].
  ranges. apply is_scalar_spec. lia.
Qed.

Lemma char3_scalar b0 b1 b2 c : char3 b0 b1 b2 = Some c -> is_scalar c = true.
Proof.
  unfold char3, second3, is_continuation, six. case_match eqn:E; [intros [= <-]|done].
  ranges. apply is_scalar_spec. repeat case_match; ranges; lia.
Qed.

Lemma char4_scalar b0 b1 b2 b3 c : char4 b0 b1 b2 b3 = Some c -> is_scalar c = true.
Proof.
  unfold char4, second4, is_continuation, six. case_match eqn:E; [intros [= <-]|done].
  ranges. apply is_scalar_spec. repeat case_match; ranges; lia.
Qed.

Lemma ascii_scalar b : u8 b < 0x80 -> is_scalar (u8 b) = true.
Proof. intros H. pose proof (u8_range b). apply is_scalar_spec. lia. Qed.

#[export] Hint Resolve char2_scalar char3_scalar char4_scalar ascii_scalar : cf.

(** Induction on the text a byte string decodes to. *)
Lemma from_utf8_ind (P : list byte -> list char -> Prop) :
  P [] [] ->
  (forall b bs s, u8 b < 0x80 -> P bs s -> P (b :: bs) (u8 b :: s)) ->
  (forall b0 b1 bs c s, char2 b0 b1 = Some c -> P bs s -> P (b0 :: b1 :: bs) (c :: s)) ->
  (forall b0 b1 b2 bs c s, char3 b0 b1 b2 = Some c -> P bs s ->
     P (b0 :: b1 :: b2 :: bs) (c :: s)) ->
  (forall b0 b1 b2 b3 bs c s, char4 b0 b1 b2 b3 = Some c -> P bs s ->
     P (b0 :: b1 :: b2 :: b3 :: bs) (c :: s)) ->
  forall bs s, from_utf8 bs = Some s -> P bs s.
Proof.
  intros H0 H1 H2 H3 H4 bs.
  induction bs as [bs IH] using (induction_ltof1 _ (@length byte)). unfold ltof in IH.
  assert (forall rest k, (length rest < length bs)%nat -> forall s,
            cons k <$> from_utf8 rest = Some s -> exists s', s = k :: s' /\ P rest s') as Hrec.
  { intros rest k Hlt s. destruct (from_utf8 rest) as [s'|] eqn:E; intros [= <-]; eauto. }
  intros s. destruct bs as [|b0 r0]; simpl in *; [by intros [= <-]|].
  case_match eqn:E; ranges.
  { intros (s' & -> & ?)%Hrec; auto with lia. }
  destruct r0 as [|b1 r1]; [done|]. simpl in Hrec.
  destruct (char2 b0 b1) eqn:E2; [intros (s' & -> & ?)%Hrec; eauto with lia|].
  destruct r1 as [|b2 r2]; [done|]. simpl in Hrec.
  destruct (char3 b0 b1 b2) eqn:E3; [intros (s' & -> & ?)%Hrec; eauto with lia|].
  destruct r2 as [|b3 r3]; [done|]. simpl in Hrec.
  destruct (char4 b0 b1 b2 b3) eqn:E4; [intros (s' & -> & ?)%Hrec; eauto with lia|done].
Qed.

Lemma from_utf8_scalar bs s :
  from_utf8 bs = Some s -> Forall (fun c => is_scalar c = true) s.
Proof. revert bs s. apply from_utf8_ind; eauto with cf. Qed.

(** ** Decoding undone *)

(** A byte of a character written as it was read. *)
Lemma byte_is z b : z = u8 b -> byte_of z = b.
Proof. intros ->. apply byte_of_u8. Qed.

#[local] Ltac bytes_are := repeat f_equal; apply byte_is; euclid.

Lemma char2_bytes b0 b1 c : char2 b0 b1 = Some c -> encode_char c = [b0; b1].
Proof.
  unfold char2, is_continuation, six. case_match eqn:E; [intros [= <-]|done]. ranges.
  unfold encode_char. do 2 settle_test. bytes_are.
Qed.

Lemma char3_bytes b0 b1 b2 c : char3 b0 b1 b2 = Some c -> encode_char c = [b0; b1; b2].
Proof.
  unfold char3, second3, is_continuation, six. case_match eqn:E; [intros [= <-]|done]. ranges.
  assert (0x80 <= u8 b1 <= 0xBF /\ (u8 b0 = 0xE0 -> 0xA0 <= u8 b1)) as [? ?]
    by (repeat case_match; ranges; lia).
  unfold encode_char. do 3 settle_test. bytes_are.
Qed.

Lemma char4_bytes b0 b1 b2 b3 c :
  char4 b0 b1 b2 b3 = Some c -> encode_char c = [b0; b1; b2; b3].
Proof.
  unfold char4, second4, is_continuation, six. case_match eqn:E; [intros [= <-]|done]. ranges.
  assert (0x80 <= u8 b1 <= 0xBF /\ (u8 b0 = 0xF0 -> 0x90 <= u8 b1)) as [? ?]
    by (repeat case_match; ranges; lia).
  unfold encode_char. do 3 settle_test. bytes_are.
Qed.

Lemma encode_from_utf8 bs s : from_utf8 bs = Some s -> bs = encode s.
Proof.
  revert bs s. apply from_utf8_ind; [done|..]; intros; subst; rewrite encode_cons.
  - unfold encode_char. settle_test. by rewrite byte_of_u8.
  - by erewrite char2_bytes by done.
  - by erewrite char3_bytes by done.
  - by erewrite char4_bytes by done.
Qed.

(** The bytes of a character that is no ASCII are none of ASCII's. *)
Lemma encode_char_ascii c b :
  is_scalar c = true -> b ∈ encode_char c -> u8 b < 0x80 -> c = u8 b /\ encode_char c = [b].
Proof.
  intros Hs%is_scalar_spec. unfold encode_char.
  repeat case_match; ranges; intros Hb Hlt;
    repeat (apply elem_of_cons in Hb as [->|Hb]; [revert Hlt; rewrite u8_byte_of by euclid|]);
    try (by apply elem_of_nil in Hb); intros; first [euclid | by split].
Qed.

(** Text is read as it is. *)
Lemma from_utf8_lossy_valid bs s : from_utf8 bs = Some s -> from_utf8_lossy bs = s.
Proof.
  revert bs s. apply from_utf8_ind.
  - done.
  - intros b bs s Hb <-. simpl. by settle_test.
  - intros b0 b1 bs c s Hc <-. assert (0xC2 <= u8 b0 <= 0xDF) as Hb.
    { unfold char2 in Hc. destruct (_ && _) eqn:E; [|done]. ranges. lia. }
    simpl. settle_test. by rewrite Hc.
  - intros b0 b1 b2 bs c s Hc <-. pose proof Hc as Hc'. unfold char3 in Hc'.
    destruct (_ && _) eqn:E; [|done]. ranges. simpl. settle_test.
    rewrite (char2_lead b0 b1) by lia. rewrite (proj2 (within_spec _ _ _)) by lia.
    by rewrite H1, Hc.
  - intros b0 b1 b2 b3 bs c s Hc <-. pose proof Hc as Hc'. unfold char4 in Hc'.
    destruct (_ && _) eqn:E; [|done]. ranges. simpl. settle_test.
    rewrite (char2_lead b0 b1) by lia.
    rewrite (proj2 (within_false 0xE0 0xEF (u8 b0))) by lia. simpl.
    rewrite (proj2 (within_spec _ _ _)) by lia. by rewrite H2, H1, Hc.
Qed.
