(* ===== verification/Time.v ===== *)
(** * Time as JavaScript wrote and read it: [cf-base/src/time.rs]

    An instant is its milliseconds since the epoch. [iso] writes one, [parse] reads the
    date-time format [Date.parse] is specified to accept, [canonical] is what a store
    keeps of a time. A text ([str]) is its UTF-8 bytes. An [i64] is a [Z]: a year read
    has six digits at most and a day of [iso] is a day of some [i64]'s milliseconds, so
    no sum comes near the type's ends. The calendar's two algorithms are checked against
    the calendar itself: the day after a day. *)
From S2P Require Import Prelude Utf8.
#[local] Open Scope Z_scope.

Definition MS_PER_DAY : Z := 86400000.
Definition LAST_MS : Z := 8640000000000000.

(** ** The calendar *)

Definition is_leap (year : Z) : bool :=
  (Z.rem year 4 =? 0) && negb (Z.rem year 100 =? 0) || (Z.rem year 400 =? 0).

Definition days_in_month (year month : Z) : Z :=
  match month with
  | 2 => if is_leap year then 29 else 28
  | 4 | 6 | 9 | 11 => 30
  | _ => 31
  end.

Definition days_from_civil (year month day : Z) : Z :=
  let year := if month <=? 2 then year - 1 else year in
  let era := year / 400 in
  let of_era := year - era * 400 in
  let of_year := Z.quot (153 * (month + (if 2 <? month then -3 else 9)) + 2) 5 + day - 1 in
  let of_cycle := of_era * 365 + Z.quot of_era 4 - Z.quot of_era 100 + of_year in
  era * 146097 + of_cycle - 719468.

Definition civil_from_days (days : Z) : Z * Z * Z :=
  let days := days + 719468 in
  let era := days / 146097 in
  let of_era := days - era * 146097 in
  let of_cycle := Z.quot (of_era - Z.quot of_era 1460 + Z.quot of_era 36524
                          - Z.quot of_era 146096) 365 in
  let of_year := of_era - (365 * of_cycle + Z.quot of_cycle 4 - Z.quot of_cycle 100) in
  let shifted := Z.quot (5 * of_year + 2) 153 in
  let day := of_year - Z.quot (153 * shifted + 2) 5 + 1 in
  let month := if shifted <? 10 then shifted + 3 else shifted - 9 in
  let year := of_cycle + era * 400 + (if month <=? 2 then 1 else 0) in
  (year, month, day).

(** ** Writing *)

Definition digit (d : Z) : byte := byte_of (0x30 + d).

(** The decimal digits of a number, none of zero's: a number of as many bits as the fuel. *)
Fixpoint decimal (fuel : nat) (n : Z) : list byte :=
  match fuel with
  | O => []
  | S fuel => if n <=? 0 then [] else decimal fuel (n / 10) ++ [digit (n mod 10)]
  end.

(** [{:0width}] of a number that is not negative: its digits, [width] of them or more. *)
Fixpoint padded (width : nat) (n : Z) : list byte :=
  match width with
  | O => decimal (Z.to_nat (Z.log2 n) + 1) n
  | S width => padded width (n / 10) ++ [digit (n mod 10)]
  end.

Definition plus : byte := "+"%byte.
Definition minus : byte := "-"%byte.
Definition point : byte := "."%byte.
Definition colon : byte := ":"%byte.
Definition zero : byte := "0"%byte.

Definition year_text (year : Z) : list byte :=
  if within 0 9999 year then padded 4 year
  else (if year <? 0 then minus else plus) :: padded 6 (Z.abs year).

Definition iso (ms : Z) : list byte :=
  let days := ms / MS_PER_DAY in
  let of_day := ms mod MS_PER_DAY in
  let '(year, month, day) := civil_from_days days in
  year_text year ++ [minus] ++ padded 2 month ++ [minus] ++ padded 2 day ++ ["T"%byte]
  ++ padded 2 (Z.quot of_day 3600000) ++ [colon]
  ++ padded 2 (Z.rem (Z.quot of_day 60000) 60) ++ [colon]
  ++ padded 2 (Z.rem (Z.quot of_day 1000) 60) ++ [point]
  ++ padded 3 (Z.rem of_day 1000) ++ ["Z"%byte].

(** ** Reading *)

Definition is_ascii_digit (b : byte) : bool := within 0x30 0x39 (u8 b).

(** [str::get(..width)]: none past the end, or inside a character. *)
Definition get_to (rest : list byte) (width : nat) : option (list byte) :=
  match rest !! width with
  | Some b => if is_continuation b then None else Some (take width rest)
  | None => if (width =? length rest)%nat then Some rest else None
  end.

Definition strip_prefix (c : byte) (rest : list byte) : option (list byte) :=
  match rest with
  | b :: rest => if decide (b = c) then Some rest else None
  | [] => None
  end.

(** [digits.parse::<i64>()], of digits. *)
Definition digits_value (digits : list byte) : Z :=
  foldl (fun v b => v * 10 + (u8 b - 0x30)) 0 digits.
Definition parse_i64 (digits : list byte) : option Z :=
  match digits with
  | [] => None
  | _ => let v := digits_value digits in if v <? 2 ^ 63 then Some v else None
  end.

Definition take_digits (rest : list byte) (width : nat) : option (Z * list byte) :=
  digits ← get_to rest width;
  if forallb is_ascii_digit digits
  then v ← parse_i64 digits; Some (v, drop width rest)
  else None.

(** What is next of [rest], the separator and its digits; what follows them. *)
Definition take_part (rest : list byte) (separator : byte) (width : nat) :
    option (Z * list byte) :=
  after ← strip_prefix separator rest; take_digits after width.

(** [take_part(&mut rest, ..).unwrap_or(or)]: nothing is taken where there is none. *)
Definition take_part_or (or : Z) (rest : list byte) (separator : byte) (width : nat) :
    Z * list byte :=
  match take_part rest separator width with Some taken => taken | None => (or, rest) end.

Definition take_year (rest : list byte) : option (Z * list byte) :=
  match rest with
  | sign :: after =>
      if decide (sign = plus \/ sign = minus) then
        '(year, after) ← take_digits after 6;
        if bool_decide (sign = minus) && (year =? 0) then None
        else Some (if decide (sign = minus) then - year else year, after)
      else take_digits rest 4
  | [] => take_digits rest 4
  end.

Fixpoint take_while (p : byte -> bool) (s : list byte) : list byte :=
  match s with
  | b :: s => if p b then b :: take_while p s else []
  | [] => []
  end.

(** A second's fraction: its milliseconds, whether all of it is zeros, and what follows. *)
Definition take_fraction (seconds : option Z) (rest : list byte) :
    option (Z * bool * list byte) :=
  match strip_prefix point rest, seconds with
  | Some fraction, Some _ =>
      let all := take_while is_ascii_digit fraction in
      if (length all =? 0)%nat then None
      else
        millis ← parse_i64 (take 3 (all ++ [zero; zero]));
        Some (millis, forallb (fun d => bool_decide (d = zero)) all,
              drop (length all) fraction)
  | _, _ => Some (0, true, rest)
  end.

(** [Z] or the hours and minutes of an offset: its milliseconds, and what follows. *)
Definition take_offset (rest : list byte) : option (Z * list byte) :=
  match rest with
  | b :: rest =>
      if decide (b = "Z"%byte) then Some (0, rest)
      else if decide (b = plus \/ b = minus) then
        let sign := if decide (b = minus) then -1 else 1 in
        '(hours, rest) ← take_digits rest 2;
        '(minutes, rest) ← take_part rest colon 2;
        if (23 <? hours) || (59 <? minutes) then None
        else Some (sign * (hours * 60 + minutes) * 60000, rest)
      else None
  | [] => None
  end.

(** What follows a [T]: the milliseconds of the day, in UTC, and what follows. *)
Definition take_time (rest : list byte) : option (Z * list byte) :=
  '(hours, rest) ← take_digits rest 2;
  '(minutes, rest) ← take_part rest colon 2;
  let '(seconds, rest) :=
    match take_part rest colon 2 with
    | Some (seconds, rest) => (Some seconds, rest)
    | None => (None, rest)
    end in
  '(millis, fraction_zero, rest) ← take_fraction seconds rest;
  let seconds := default 0 seconds in
  let ends_day := (hours =? 24) && (minutes =? 0) && (seconds =? 0) && fraction_zero in
  if ((23 <? hours) && negb ends_day) || (59 <? minutes) || (59 <? seconds) then None
  else
    '(offset, rest) ← take_offset rest;
    Some (((hours * 60 + minutes) * 60 + seconds) * 1000 + millis - offset, rest).

Definition parse (text : list byte) : option Z :=
  '(year, rest) ← take_year text;
  let '(month, rest) := take_part_or 1 rest minus 2 in
  let '(day, rest) :=
    if (4 <? length text - length rest)%nat then take_part_or 1 rest minus 2 else (1, rest) in
  if negb (within 1 12 month) || (day <? 1) || (days_in_month year month <? day) then None
  else
    '(of_day, rest) ←
      match strip_prefix "T"%byte rest with
      | Some time => take_time time
      | None => Some (0, rest)
      end;
    match rest with
    | _ :: _ => None
    | [] =>
        let ms := days_from_civil year month day * MS_PER_DAY + of_day in
        if Z.abs ms <=? LAST_MS then Some ms else None
    end.

(** ** What a store keeps *)

Definition FRACTION_KEPT : nat := 9.

(** [text.split_once('.')], what is after it *)
Fixpoint after_point (text : list byte) : option (list byte) :=
  match text with
  | [] => None
  | b :: text => if decide (b = point) then Some text else after_point text
  end.

Fixpoint trim_end_zeros (s : list byte) : list byte :=
  match s with
  | [] => []
  | b :: s =>
      match trim_end_zeros s with
      | [] => if decide (b = zero) then [] else [b]
      | s => b :: s
      end
  end.

Definition finer (text : list byte) : list byte :=
  match after_point text with
  | None => []
  | Some fraction =>
      let digits := length (take_while is_ascii_digit fraction) in
      let kept := take (digits `min` FRACTION_KEPT) fraction in
      trim_end_zeros (drop 3 kept)
  end.

Definition canonical (text : list byte) : option (list byte) :=
  ms ← parse text;
  let written := iso ms in
  match finer text with
  | [] => Some written
  | finer =>
      Some (take (length written - 1) written ++ finer ++ drop (length written - 1) written)
  end.

Definition month_start (year month : Z) : option Z :=
  let BEFORE := 399999 in
  let COMMON := [0; 31; 59; 90; 120; 151; 181; 212; 243; 273; 304; 334] in
  let LEAP := [0; 31; 60; 91; 121; 152; 182; 213; 244; 274; 305; 335] in
  let days year :=
    let years := year + BEFORE in
    365 * years + Z.quot years 4 - Z.quot years 100 + Z.quot years 400 in
  let leap := (Z.rem year 4 =? 0) && (negb (Z.rem year 100 =? 0) || (Z.rem year 400 =? 0)) in
  let before := if leap then LEAP else COMMON in
  if month <? 0 then None
  else of_month ← before !! Z.to_nat month; Some (days year - days 1970 + of_month).

(** ** The calendar itself *)

Definition date : Type := Z * Z * Z.

(** A day there is. *)
Definition is_date (c : date) : Prop :=
  let '(year, month, day) := c in
  1 <= month <= 12 /\ 1 <= day <= days_in_month year month.

Definition next_day (c : date) : date :=
  let '(year, month, day) := c in
  if day <? days_in_month year month then (year, month, day + 1)
  else if month <? 12 then (year, month + 1, 1)
  else (year + 1, 1, 1).

Definition days_of (c : date) : Z := let '(year, month, day) := c in days_from_civil year month day.

Lemma quot_div a b : 0 <= a -> 0 < b -> Z.quot a b = a / b.
Proof. apply Z.quot_div_nonneg. Qed.

Ltac divisions := Z.to_euclidean_division_equations; lia.

(** A leap year, by the year the code's own calendar counts from March: 3 of its every 4. *)
Lemma is_leap_spec year :
  is_leap year = true <-> year mod 4 = 0 /\ (year mod 100 <> 0 \/ year mod 400 = 0).
Proof.
  unfold is_leap.
  rewrite orb_true_iff, andb_true_iff, negb_true_iff, !Z.eqb_eq, Z.eqb_neq. divisions.
Qed.

Lemma days_in_month_range year month : 28 <= days_in_month year month <= 31.
Proof.
  unfold days_in_month. destruct month as [|p|p]; try lia.
  repeat (destruct p as [p|p|]; try lia); by destruct (is_leap year); lia.
Qed.

(** The months in their order, each with its days. *)
Ltac each_month month :=
  let H := fresh in
  assert (H : month = 1 \/ month = 2 \/ month = 3 \/ month = 4 \/ month = 5 \/ month = 6 \/
              month = 7 \/ month = 8 \/ month = 9 \/ month = 10 \/ month = 11 \/ month = 12)
    by lia;
  repeat destruct H as [H|H]; subst month.

(** The year of the era a day of it is in, from the day. *)
Lemma year_of_era y of_year :
  0 <= y < 400 -> 0 <= of_year <= 365 ->
  (of_year = 365 -> is_leap (y + 1) = true) ->
  let n := y * 365 + y / 4 - y / 100 + of_year in
  0 <= n < 146097 /\ (n - n / 1460 + n / 36524 - n / 146096) / 365 = y.
Proof.
  intros Hy Hd Hl. rewrite is_leap_spec in Hl. intros n.
  assert (exists c q s, y = 100 * c + 4 * q + s /\ 0 <= c <= 3 /\ 0 <= q <= 24 /\ 0 <= s <= 3)
    as (c & q & s & E & Hc & Hq & Hs).
  { exists (y / 100), (y mod 100 / 4), (y mod 4). divisions. }
  assert (H4 : y / 4 = 25 * c + q) by divisions.
  assert (H100 : y / 100 = c) by divisions.
  assert (En : n = 36524 * c + 1461 * q + 365 * s + of_year) by (subst n; lia).
  assert (Hlast : of_year = 365 -> s = 3 /\ (q < 24 \/ c = 3)).
  { intros ->. destruct (Hl eq_refl) as [H1 H2]. split; divisions. }
  clearbody n. clear Hl H4 H100.
  assert (n / 146096 = if (of_year =? 365) && (c =? 3) && (q =? 24) then 1 else 0) as ->.
  { destruct (of_year =? 365) eqn:?, (c =? 3) eqn:?, (q =? 24) eqn:?; simpl; ranges; divisions. }
  destruct (of_year =? 365) eqn:?, (c =? 3) eqn:?, (q =? 24) eqn:?; simpl; ranges; divisions.
Qed.

Lemma is_leap_era year era : is_leap (year + era * 400) = is_leap year.
Proof. apply Bool.eq_iff_eq_true. rewrite !is_leap_spec. divisions. Qed.

(** The day of a year that starts with March, from its month (March the first) and day. *)
Lemma month_of_year shifted day :
  0 <= shifted <= 11 -> 1 <= day <= 31 -> (shifted = 11 -> day <= 29) ->
  (shifted = 1 \/ shifted = 3 \/ shifted = 6 \/ shifted = 8 -> day <= 30) ->
  let of_year := (153 * shifted + 2) / 5 + day - 1 in
  0 <= of_year <= 365 /\ (of_year = 365 -> shifted = 11 /\ day = 29) /\
  (5 * of_year + 2) / 153 = shifted.
Proof. intros. subst of_year. divisions. Qed.

(** What [civil_from_days] makes of a day of an era, its year and its day of that year. *)
Lemma civil_of_parts era y of_year :
  0 <= y < 400 -> 0 <= of_year <= 365 -> (of_year = 365 -> is_leap (y + 1) = true) ->
  civil_from_days (era * 146097 + (y * 365 + Z.quot y 4 - Z.quot y 100 + of_year) - 719468)
  = let shifted := (5 * of_year + 2) / 153 in
    let month := if shifted <? 10 then shifted + 3 else shifted - 9 in
    (y + era * 400 + (if month <=? 2 then 1 else 0), month,
     of_year - (153 * shifted + 2) / 5 + 1).
Proof.
  intros Hy Hd Hl. destruct (year_of_era y of_year Hy Hd Hl) as [Hn Hcycle].
  rewrite !(quot_div y) by lia. set (n := y * 365 + y / 4 - y / 100 + of_year) in *.
  unfold civil_from_days.
  replace (era * 146097 + n - 719468 + 719468) with (era * 146097 + n) by lia.
  assert ((era * 146097 + n) / 146097 = era) as -> by divisions.
  replace (era * 146097 + n - era * 146097) with n by lia.
  rewrite !(quot_div n) by lia.
  rewrite (quot_div (n - n / 1460 + n / 36524 - n / 146096)) by divisions.
  rewrite Hcycle, !(quot_div y) by lia.
  replace (n - (365 * y + y / 4 - y / 100)) with of_year by lia.
  rewrite (quot_div (5 * of_year + 2)), quot_div by divisions. done.
Qed.

(** A month counted from March, and the month it is. *)
Lemma shifted_month month :
  1 <= month <= 12 ->
  let shifted := month + (if 2 <? month then -3 else 9) in
  0 <= shifted <= 11 /\ (if shifted <? 10 then shifted + 3 else shifted - 9) = month /\
  (shifted = 11 -> month = 2) /\
  (shifted = 1 \/ shifted = 3 \/ shifted = 6 \/ shifted = 8 ->
   month = 4 \/ month = 6 \/ month = 9 \/ month = 11).
Proof.
  intros H shifted. subst shifted. destruct (2 <? month) eqn:?; ranges; settle_test; lia.
Qed.

Lemma civil_of_days c : is_date c -> civil_from_days (days_of c) = c.
Proof.
  destruct c as [[year month] day]. intros [Hm Hd]. unfold days_of, days_from_civil.
  destruct (shifted_month month Hm) as (Hs & Emonth & Hfeb & Hshort).
  set (shifted := month + (if 2 <? month then -3 else 9)) in *.
  pose proof (days_in_month_range year month) as Hdays.
  destruct (month_of_year shifted day) as (Hy & Hlast & Hmonth); [done|lia|..].
  { intros ->%Hfeb. unfold days_in_month in Hd. destruct (is_leap year); lia. }
  { intros [-> | [-> | [-> | ->]]]%Hshort; simpl in Hd; lia. }
  rewrite (quot_div (153 * shifted + 2)) by lia.
  set (of_year := (153 * shifted + 2) / 5 + day - 1) in *.
  set (y := if month <=? 2 then year - 1 else year).
  rewrite civil_of_parts; [|divisions|done|].
  - simpl. rewrite Hmonth, Emonth. subst of_year y.
    destruct (month <=? 2) eqn:?; ranges; (f_equal; [f_equal; lia|lia]).
  - intros [->%Hfeb ->]%Hlast. subst y. simpl in *. rewrite <- (is_leap_era _ ((year - 1) / 400)).
    replace (_ + _) with year by lia. destruct (is_leap year); [done|lia].
Qed.

(** The years counted from March: their lengths are those of the Februaries they end with. *)
Definition year_start (year : Z) : Z :=
  let era := year / 400 in
  let of_era := year - era * 400 in
  era * 146097 + (of_era * 365 + Z.quot of_era 4 - Z.quot of_era 100).

Lemma year_start_next year :
  year_start year = year_start (year - 1) + (if is_leap year then 366 else 365).
Proof.
  unfold year_start. rewrite !quot_div by divisions.
  destruct (is_leap year) eqn:E;
    [apply is_leap_spec in E|apply not_true_iff_false in E; rewrite is_leap_spec in E]; divisions.
Qed.

Lemma days_from_civil_start year month day :
  days_from_civil year month day
  = year_start (if month <=? 2 then year - 1 else year)
    + (Z.quot (153 * (month + (if 2 <? month then -3 else 9)) + 2) 5 + day - 1) - 719468.
Proof. unfold days_from_civil, year_start. lia. Qed.

Lemma next_day_is_next c : is_date c -> is_date (next_day c) /\ days_of (next_day c) = days_of c + 1.
Proof.
  destruct c as [[year month] day]. intros [Hm Hd]. unfold next_day.
  destruct (day <? days_in_month year month) eqn:E; ranges.
  { split; [simpl; lia|]. unfold days_of. rewrite !days_from_civil_start. lia. }
  assert (day = days_in_month year month) as -> by lia. clear E Hd.
  destruct (month <? 12) eqn:E; ranges; (split;
    [pose proof (days_in_month_range year (month + 1)); simpl; lia|]);
    unfold days_of; rewrite !days_from_civil_start.
  - pose proof (year_start_next year) as Hyear.
    each_month month; simpl; destruct (is_leap year); divisions.
  - assert (month = 12) as -> by lia. simpl. replace (year + 1 - 1) with year by lia. divisions.
Qed.

(** The day before a date of a year that starts with March there is none earlier than. *)
Lemma a_date_before d : exists c, is_date c /\ days_of c <= d.
Proof.
  exists ((d + 719468) / 146097 * 400, 3, 1). split; [simpl; lia|].
  unfold days_of. rewrite days_from_civil_start. unfold year_start. simpl.
  rewrite !quot_div by divisions. divisions.
Qed.

Lemma dates_go_on (n : nat) : forall c, is_date c -> exists c', is_date c' /\ days_of c' = days_of c + Z.of_nat n.
Proof.
  induction n as [|n IH]; intros c Hc; [exists c; split; [done|lia]|].
  destruct (next_day_is_next c Hc) as [Hnext Hdays].
  destruct (IH _ Hnext) as (c' & ? & ?). exists c'. split; [done|lia].
Qed.

Lemma days_of_civil d : is_date (civil_from_days d) /\ days_of (civil_from_days d) = d.
Proof.
  destruct (a_date_before d) as (c0 & H0 & Hle).
  destruct (dates_go_on (Z.to_nat (d - days_of c0)) c0 H0) as (c & Hc & Hd).
  rewrite Z2Nat.id in Hd by lia. replace d with (days_of c) by lia.
  by rewrite civil_of_days.
Qed.

Lemma civil_next d : civil_from_days (d + 1) = next_day (civil_from_days d).
Proof.
  destruct (days_of_civil d) as [Hc Hd]. destruct (next_day_is_next _ Hc) as [Hn E].
  rewrite Hd in E. by rewrite <- E, civil_of_days.
Qed.

Lemma year_start_closed year :
  year_start year = 365 * year + year / 4 - year / 100 + year / 400.
Proof. unfold year_start. rewrite !quot_div by divisions. divisions. Qed.

Lemma is_leap_v8 year :
  (Z.rem year 4 =? 0) && (negb (Z.rem year 100 =? 0) || (Z.rem year 400 =? 0)) = is_leap year.
Proof.
  apply Bool.eq_iff_eq_true. unfold is_leap.
  rewrite !andb_true_iff, !orb_true_iff, !andb_true_iff, !negb_true_iff, !Z.eqb_eq, !Z.eqb_neq.
  divisions.
Qed.

(** V8's count of a month's first day is the calendar's, from where its division is exact. *)
Lemma month_start_days year month :
  -399999 <= year -> 0 <= month <= 11 ->
  month_start year month = Some (days_from_civil year (month + 1) 1).
Proof.
  intros Hy Hm. unfold month_start. settle_test. rewrite is_leap_v8, days_from_civil_start.
  pose proof (year_start_next year) as Hnext.
  pose proof (year_start_closed (year - 1)) as Hclosed.
  rewrite !(quot_div (year + 399999)) by lia.
  assert (E : 365 * (year + 399999) + (year + 399999) / 4 - (year + 399999) / 100
              + (year + 399999) / 400 = year_start (year - 1) + 146097000)
    by (rewrite Hclosed; divisions).
  rewrite E. clear E Hclosed.
  remember (month + 1) as m eqn:Em. replace month with (m - 1) by lia.
  assert (1 <= m <= 12) as H1 by lia. clear Em Hm.
  each_month m; simpl; destruct (is_leap year); simpl; f_equal; divisions.
Qed.

(** ** Digits written read back *)

Definition is_digits (s : list byte) : Prop := Forall (fun b => is_ascii_digit b = true) s.

(** What may follow digits cut at a width: nothing inside a character. *)
Definition starts (s : list byte) : Prop :=
  match s with b :: _ => is_continuation b = false | [] => True end.

Lemma u8_digit n : u8 (digit (n mod 10)) = 0x30 + n mod 10.
Proof. apply u8_byte_of. pose proof (Z.mod_pos_bound n 10). lia. Qed.

Lemma digit_is_digit n : is_ascii_digit (digit (n mod 10)) = true.
Proof. unfold is_ascii_digit. rewrite u8_digit. pose proof (Z.mod_pos_bound n 10). ranges; lia. Qed.

Lemma digit_starts b s : is_ascii_digit b = true -> starts (b :: s).
Proof. unfold is_ascii_digit. simpl. unfold is_continuation. intros. ranges. lia. Qed.

Lemma digits_snoc s n : is_digits s -> is_digits (s ++ [digit (n mod 10)]).
Proof. intros H. apply Forall_app. by repeat constructor; [|apply digit_is_digit]. Qed.

Lemma decimal_digits fuel n : is_digits (decimal fuel n).
Proof.
  revert n. induction fuel as [|fuel IH]; intros n; simpl; [by constructor|].
  destruct (n <=? 0); [by constructor|]. by apply digits_snoc.
Qed.

Lemma padded_digits width n : is_digits (padded width n).
Proof.
  revert n. induction width as [|width IH]; intros n; simpl; [apply decimal_digits|].
  by apply digits_snoc.
Qed.

Lemma padded_spec width n :
  0 <= n < 10 ^ Z.of_nat width ->
  length (padded width n) = width /\ digits_value (padded width n) = n.
Proof.
  revert n. induction width as [|width IH]; intros n Hn; simpl padded.
  { replace n with 0 by lia. done. }
  rewrite Nat2Z.inj_succ, Z.pow_succ_r in Hn by lia.
  destruct (IH (n / 10)) as [Hl Hv]; [divisions|].
  rewrite length_app, Hl. unfold digits_value in *. rewrite foldl_app, Hv. simpl.
  rewrite u8_digit. split; [lia|divisions].
Qed.

Lemma digits_value_bound s v :
  is_digits s -> 0 <= v ->
  0 <= foldl (fun v b => v * 10 + (u8 b - 0x30)) v s < (v + 1) * 10 ^ Z.of_nat (length s).
Proof.
  intros Hs. revert v. induction Hs as [|b s Hb Hs IH]; intros v Hv; [simpl; lia|].
  change (length (b :: s)) with (S (length s)).
  rewrite Nat2Z.inj_succ, Z.pow_succ_r by lia. simpl.
  unfold is_ascii_digit in Hb. ranges.
  specialize (IH (v * 10 + (u8 b - 0x30)) ltac:(lia)).
  pose proof (Z.pow_pos_nonneg 10 (Z.of_nat (length s))). nia.
Qed.

(** Digits of a width a year, a part or a fraction has: they are a number. *)
Lemma parse_digits s :
  is_digits s -> (0 < length s <= 18)%nat ->
  parse_i64 s = Some (digits_value s) /\ 0 <= digits_value s < 10 ^ Z.of_nat (length s).
Proof.
  intros Hs Hl. pose proof (digits_value_bound s 0 Hs) as Hb.
  unfold parse_i64, digits_value in *. destruct s; [simpl in Hl; lia|].
  assert (10 ^ Z.of_nat (length (b :: s)) <= 10 ^ 18) by (apply Z.pow_le_mono_r; lia).
  settle_test. split; [done|lia].
Qed.

Lemma get_to_app s rest : starts rest -> get_to (s ++ rest) (length s) = Some s.
Proof.
  intros H. unfold get_to. rewrite lookup_app_r, Nat.sub_diag, length_app by lia.
  destruct rest as [|b rest]; simpl in *.
  - rewrite app_nil_r. by settle_test.
  - by rewrite H, take_app_length.
Qed.

Lemma take_digits_app s rest :
  is_digits s -> (0 < length s <= 18)%nat -> starts rest ->
  take_digits (s ++ rest) (length s) = Some (digits_value s, rest).
Proof.
  intros Hs Hl Hr. unfold take_digits. rewrite get_to_app by done. simpl.
  rewrite (proj2 (forallb_forall _ _)) by (by apply List.Forall_forall).
  destruct (parse_digits s Hs Hl) as [-> _]. simpl. by rewrite drop_app_length.
Qed.

Lemma take_digits_padded width n rest :
  (0 < width <= 18)%nat -> 0 <= n < 10 ^ Z.of_nat width -> starts rest ->
  take_digits (padded width n ++ rest) width = Some (n, rest).
Proof.
  intros Hw Hn Hr. destruct (padded_spec width n Hn) as [Hl Hv].
  pose proof (take_digits_app (padded width n) rest (padded_digits width n)) as H.
  rewrite Hl, Hv in H. by apply H.
Qed.

Lemma take_part_padded separator width n rest :
  (0 < width <= 18)%nat -> 0 <= n < 10 ^ Z.of_nat width -> starts rest ->
  take_part (separator :: padded width n ++ rest) separator width = Some (n, rest).
Proof.
  intros. unfold take_part. simpl. rewrite decide_True by done. by apply take_digits_padded.
Qed.

Lemma take_while_digits s rest :
  is_digits s -> (match rest with b :: _ => is_ascii_digit b = false | [] => True end) ->
  take_while is_ascii_digit (s ++ rest) = s.
Proof.
  intros Hs Hr. induction Hs as [|b s Hb _ IH]; simpl.
  - destruct rest as [|b rest]; simpl; [done|]. by rewrite Hr.
  - by rewrite Hb, IH.
Qed.

(** ** What [iso] writes, by its parts *)

#[local] Arguments civil_from_days : simpl never.
#[local] Arguments take_digits : simpl never.
#[local] Arguments parse_i64 : simpl never.
#[local] Arguments days_in_month : simpl never.
#[local] Arguments digit : simpl never.
#[local] Arguments take_part : simpl never.
#[local] Arguments padded : simpl never.
#[local] Arguments year_text : simpl never.
#[local] Arguments days_of : simpl never.

Definition date_text (c : date) : list byte :=
  let '(year, month, day) := c in
  year_text year ++ [minus] ++ padded 2 month ++ [minus] ++ padded 2 day.

(** The text up to the fraction's point. *)
Definition to_seconds (c : date) (of_day : Z) : list byte :=
  date_text c ++ ["T"%byte]
  ++ padded 2 (of_day / 3600000) ++ [colon]
  ++ padded 2 (of_day / 60000 mod 60) ++ [colon]
  ++ padded 2 (of_day / 1000 mod 60).

(** A time with digits past its milliseconds. *)
Definition with_finer (ms : Z) (more : list byte) : list byte :=
  to_seconds (civil_from_days (ms / MS_PER_DAY)) (ms mod MS_PER_DAY) ++ [point]
  ++ padded 3 (ms mod MS_PER_DAY mod 1000) ++ more ++ ["Z"%byte].

Lemma iso_with_finer ms : iso ms = with_finer ms [].
Proof.
  unfold iso, with_finer, to_seconds, date_text.
  destruct (civil_from_days (ms / MS_PER_DAY)) as [[year month] day].
  pose proof (Z.mod_pos_bound ms MS_PER_DAY ltac:(done)) as H. 
  set (t := ms mod MS_PER_DAY) in *.
  rewrite !(quot_div t), !Z.rem_mod_nonneg by first [lia | apply Z.div_pos; lia].
  by rewrite <- !app_assoc.
Qed.

Lemma starts_sep b s : is_continuation b = false -> starts (b :: s).
Proof. done. Qed.

Lemma take_year_signed (negative : bool) after :
  take_year ((if negative then minus else plus) :: after)
  = ('(year, after) ← take_digits after 6;
     if negative && (year =? 0) then None
     else Some (if negative then - year else year, after)).
Proof. by destruct negative. Qed.

Lemma year_text_read year rest :
  -999999 <= year <= 999999 -> starts rest ->
  take_year (year_text year ++ rest) = Some (year, rest).
Proof.
  intros Hy Hr. unfold year_text. destruct (within 0 9999 year) eqn:E; ranges.
  - pose proof (take_digits_padded 4 year rest ltac:(lia) ltac:(lia) Hr) as H.
    destruct (padded_spec 4 year ltac:(lia)) as [Hl _].
    pose proof (padded_digits 4 year) as Hd.
    destruct (padded 4 year) as [|b s]; [done|]. apply Forall_cons in Hd as [Hb _].
    rewrite <- app_comm_cons in *. unfold take_year.
    rewrite decide_False; [done|]. by intros [-> | ->].
  - rewrite <- app_comm_cons, take_year_signed, take_digits_padded by (try done; lia).
    cbn [mbind option_bind].
    destruct (year <? 0) eqn:Eneg; ranges; simpl; [settle_test|]; f_equal; f_equal; lia.
Qed.

Lemma padded_length_ge width n : (width <= length (padded width n))%nat.
Proof.
  revert n. induction width as [|width IH]; intros n; [lia|].
  unfold padded; fold padded. rewrite length_app. specialize (IH (n / 10)). simpl. lia.
Qed.

Lemma year_text_length year : (4 <= length (year_text year))%nat.
Proof.
  unfold year_text. pose proof (padded_length_ge 4 year).
  pose proof (padded_length_ge 6 (Z.abs year)). destruct (within _ _ _); simpl; lia.
Qed.

(** ** What is written reads back *)

Lemma take_fraction_written millis more rest :
  0 <= millis < 1000 -> is_digits more ->
  (match rest with b :: _ => is_ascii_digit b = false | [] => True end) ->
  forall seconds,
  take_fraction (Some seconds) (point :: padded 3 millis ++ more ++ rest)
  = Some (millis, forallb (fun d => bool_decide (d = zero)) (padded 3 millis ++ more), rest).
Proof.
  intros Hm Hmore Hr seconds. destruct (padded_spec 3 millis ltac:(lia)) as [Hl Hv].
  pose proof (padded_digits 3 millis) as Hd.
  unfold take_fraction. simpl.
  rewrite (app_assoc (padded 3 millis)), take_while_digits; [|by apply Forall_app|done].
  rewrite length_app, Hl. simpl.
  replace (take 3 _) with (padded 3 millis)
    by (rewrite <- app_assoc; symmetry; by apply take_app_length').
  destruct (parse_digits (padded 3 millis)) as [-> _]; [done|lia|]. simpl.
  by rewrite Hv, drop_app_length' by (rewrite length_app, Hl; done).
Qed.

Lemma parts_of_day t :
  0 <= t < MS_PER_DAY ->
  ((t / 3600000 * 60 + t / 60000 mod 60) * 60 + t / 1000 mod 60) * 1000 + t mod 1000 = t /\
  0 <= t / 3600000 < 24 /\ 0 <= t / 60000 mod 60 < 60 /\ 0 <= t / 1000 mod 60 < 60.
Proof. unfold MS_PER_DAY. intros H. divisions. Qed.

Lemma take_time_written t more :
  0 <= t < MS_PER_DAY -> is_digits more ->
  take_time (padded 2 (t / 3600000) ++ colon :: padded 2 (t / 60000 mod 60)
             ++ colon :: padded 2 (t / 1000 mod 60)
             ++ point :: padded 3 (t mod 1000) ++ more ++ ["Z"%byte])
  = Some (t, []).
Proof.
  intros Ht Hmore. destruct (parts_of_day t Ht) as (Hsum & Hh & Hm & Hs).
  unfold take_time. rewrite take_digits_padded by (done || lia). simpl.
  rewrite !take_part_padded by (done || lia). simpl.
  rewrite take_part_padded by (done || lia).
  rewrite take_fraction_written by (done || by apply Z.mod_pos_bound).
  simpl. repeat settle_test. simpl. f_equal. f_equal. lia.
Qed.

(** A month and a day of two digits each, of a year the format can say. *)
Definition date_fits (c : date) : Prop :=
  -999999 <= c.1.1 <= 999999 /\ 0 <= c.1.2 < 100 /\ 0 <= c.2 < 100.

Definition is_dateb (c : date) : bool :=
  let '(year, month, day) := c in
  within 1 12 month && within 1 (days_in_month year month) day.

Lemma is_dateb_spec c : is_dateb c = true <-> is_date c.
Proof. destruct c as [[year month] day]. simpl. by rewrite andb_true_iff, !within_spec. Qed.

Lemma is_date_fits c : is_date c -> -999999 <= c.1.1 <= 999999 -> date_fits c.
Proof.
  destruct c as [[year month] day]. intros [Hm Hd] Hy.
  pose proof (days_in_month_range year month). unfold date_fits. simpl in *. lia.
Qed.

Lemma date_read c rest :
  date_fits c -> starts rest ->
  exists after_year after_month,
  take_year (date_text c ++ rest) = Some (c.1.1, after_year) /\
  take_part_or 1 after_year minus 2 = (c.1.2, after_month) /\
  take_part_or 1 after_month minus 2 = (c.2, rest) /\
  (4 < length (date_text c ++ rest) - length after_month)%nat.
Proof.
  destruct c as [[year month] day]. intros (Hy & Hm & Hd) Hr. simpl in *.
  eexists _, (minus :: padded 2 day ++ rest). rewrite <- !app_assoc. simpl.
  rewrite <- !app_assoc. simpl. split_and!.
  - apply year_text_read; done || lia.
  - unfold take_part_or. by rewrite take_part_padded by (done || lia).
  - unfold take_part_or. by rewrite take_part_padded by (done || lia).
  - pose proof (year_text_length year). rewrite !length_app. simpl. rewrite !length_app. simpl.
    pose proof (padded_length_ge 2 month). rewrite ?length_app. lia.
Qed.

(** A date the format can say, and what follows it. *)
Lemma parse_date c rest :
  date_fits c -> starts rest ->
  parse (date_text c ++ rest)
  = if negb (is_dateb c) then None
    else
     ('(of_day, rest) ←
        match strip_prefix "T"%byte rest with
        | Some time => take_time time
        | None => Some (0, rest)
        end;
      match rest with
      | _ :: _ => None
      | [] =>
          let ms := days_of c * MS_PER_DAY + of_day in
          if Z.abs ms <=? LAST_MS then Some ms else None
      end).
Proof.
  intros Hc Hr. destruct (date_read c rest Hc Hr) as (ry & rm & H1 & H2 & H3 & H4).
  unfold parse. rewrite H1. simpl. rewrite H2.
  rewrite (proj2 (Nat.ltb_lt _ _) H4), H3.
  destruct c as [[year month] day]. simpl.
  replace (negb (within 1 12 month) || (day <? 1) || (days_in_month year month <? day))
    with (negb (within 1 12 month && within 1 (days_in_month year month) day)); [done|].
  unfold within. rewrite !negb_andb, <- !orb_assoc, <- !Z.ltb_antisym. done.
Qed.

Lemma civil_year ms : Z.abs ms <= LAST_MS -> -999999 <= (civil_from_days (ms / MS_PER_DAY)).1.1 <= 999999.
Proof.
  intros H. destruct (days_of_civil (ms / MS_PER_DAY)) as [Hc Hd].
  destruct (civil_from_days _) as [[year month] day]. destruct Hc as [Hm Hday]. simpl in *.
  pose proof (days_in_month_range year month).
  unfold days_of in Hd. rewrite days_from_civil_start, year_start_closed in Hd.
  unfold LAST_MS, MS_PER_DAY in *.
  destruct (month <=? 2), (2 <? month); divisions.
Qed.

(** ** A year the format cannot say *)

Lemma padded_length_gt width n :
  10 ^ Z.of_nat width <= n -> (width < length (padded width n))%nat.
Proof.
  revert n. induction width as [|width IH]; intros n Hn.
  - unfold padded. rewrite Nat.add_comm. simpl in *. settle_test.
    rewrite length_app. simpl. lia.
  - rewrite Nat2Z.inj_succ, Z.pow_succ_r in Hn by lia. unfold padded; fold padded.
    rewrite length_app. simpl. specialize (IH (n / 10) ltac:(divisions)). lia.
Qed.

Lemma long_year_unread year rest :
  year < -999999 \/ 999999 < year ->
  match take_year (year_text year ++ rest) with
  | Some (_, b :: _) => is_ascii_digit b = true
  | Some (_, []) => False
  | None => True
  end.
Proof.
  intros Hy. unfold year_text.
  destruct (within 0 9999 year) eqn:E; ranges; [lia|].
  pose proof (padded_length_gt 6 (Z.abs year) ltac:(lia)) as Hl.
  pose proof (padded_digits 6 (Z.abs year)) as Hd.
  rewrite <- (take_drop 6 (padded 6 (Z.abs year))) in Hd |- *.
  set (s := take 6 (padded 6 (Z.abs year))) in *.
  assert (length s = 6%nat) as Hs by (subst s; rewrite length_take; lia).
  destruct (drop 6 (padded 6 (Z.abs year))) as [|b more] eqn:Edrop.
  { apply (f_equal length) in Edrop. rewrite length_drop in Edrop. simpl in Edrop. lia. }
  apply Forall_app in Hd as [Hd [Hb _]%Forall_cons].
  rewrite <- app_comm_cons, take_year_signed, <- app_assoc, <- Hs, take_digits_app; [|done|lia|by apply digit_starts]. simpl.
  by destruct (_ && _).
Qed.

Lemma parse_long_year year rest : year < -999999 \/ 999999 < year -> parse (year_text year ++ rest) = None.
Proof.
  intros Hy. pose proof (long_year_unread year rest Hy) as H. unfold parse.
  destruct (take_year _) as [[y [|b after]]|]; [done| |done]. simpl.
  assert (forall or, take_part_or or (b :: after) minus 2 = (or, b :: after)) as Hnone.
  { intros or. unfold take_part_or, take_part. simpl. rewrite decide_False; [done|]. by intros ->. }
  rewrite Hnone, Hnone. set (cut := (4 <? _)%nat).
  replace (if cut then (1, b :: after) else (1, b :: after)) with (1, b :: after) by (by destruct cut).
  case_match; [done|]. simpl. rewrite decide_False by (by intros ->). done.
Qed.

Lemma parse_with_finer ms more :
  is_digits more ->
  parse (with_finer ms more) = if Z.abs ms <=? LAST_MS then Some ms else None.
Proof.
  intros Hmore. destruct (days_of_civil (ms / MS_PER_DAY)) as [Hc Hd].
  pose proof (civil_year ms) as Hyear.
  unfold with_finer, to_seconds. rewrite <- app_assoc.
  destruct (decide (-999999 <= (civil_from_days (ms / MS_PER_DAY)).1.1 <= 999999)) as [Hy|Hy].
  - rewrite parse_date by (by first [done | apply is_date_fits]).
    rewrite (proj2 (is_dateb_spec _) Hc). rewrite <- !app_assoc. simpl.
    rewrite take_time_written by (done || by apply Z.mod_pos_bound).
    simpl. rewrite Hd. pose proof (Z.div_mod ms MS_PER_DAY ltac:(done)).
    by replace (ms / MS_PER_DAY * MS_PER_DAY + ms mod MS_PER_DAY) with ms by lia.
  - destruct (Z.abs ms <=? LAST_MS) eqn:E; ranges; [by destruct Hy; apply Hyear|].
    destruct (civil_from_days _) as [[year month] day]. simpl in Hy |- *.
    rewrite <- !app_assoc. apply parse_long_year. lia.
Qed.

(** ** A canonical time *)

#[local] Arguments to_seconds : simpl never.

Lemma after_point_app s rest :
  Forall (fun b => b <> point) s -> after_point (s ++ point :: rest) = Some rest.
Proof. induction 1 as [|b s Hb _ IH]; simpl; [done|]. by rewrite decide_False. Qed.

Lemma digits_no_point s : is_digits s -> Forall (fun b => b <> point) s.
Proof. intros H. eapply Forall_impl; [done|]. by intros b Hb ->. Qed.

Lemma to_seconds_no_point c t : Forall (fun b => b <> point) (to_seconds c t).
Proof.
  destruct c as [[year month] day]. unfold to_seconds, date_text, year_text.
  rewrite !Forall_app. split_and!; repeat constructor; try done;
    try by apply digits_no_point, padded_digits.
  destruct (within _ _ _); [|constructor; [by destruct (year <? 0)|]];
    by apply digits_no_point, padded_digits.
Qed.

Lemma trim_digits s : is_digits s -> is_digits (trim_end_zeros s) /\ (length (trim_end_zeros s) <= length s)%nat.
Proof.
  induction 1 as [|b s Hb _ [IH Hl]]; simpl; [split; [constructor|lia]|].
  destruct (trim_end_zeros s) as [|b' s']; [|split; [by constructor|simpl in *; lia]].
  destruct (decide _); simpl in *; (split; [by repeat constructor|simpl; lia]).
Qed.

Lemma trim_idem s : trim_end_zeros (trim_end_zeros s) = trim_end_zeros s.
Proof.
  induction s as [|b s IH]; [done|]. simpl. destruct (trim_end_zeros s) as [|b' s'] eqn:E.
  - destruct (decide _) eqn:Ed; [done|]. simpl. by rewrite Ed.
  - change (trim_end_zeros (b :: b' :: s'))
      with (match trim_end_zeros (b' :: s') with
            | [] => if decide (b = zero) then [] else [b]
            | s => b :: s
            end). by rewrite IH.
Qed.

Lemma take_while_all s : is_digits (take_while is_ascii_digit s).
Proof.
  induction s as [|b s IH]; simpl; [constructor|].
  destruct (is_ascii_digit b) eqn:E; [by constructor|constructor].
Qed.

Lemma take_within n s :
  (n <= length (take_while is_ascii_digit s))%nat ->
  take n s = take n (take_while is_ascii_digit s).
Proof.
  revert n. induction s as [|b s IH]; intros n Hn; simpl in *; [done|].
  destruct (is_ascii_digit b); simpl in *; [|by replace n with 0%nat by lia].
  destruct n as [|n]; [done|]. simpl. by rewrite IH by lia.
Qed.

Lemma finer_digits text :
  is_digits (finer text) /\ (length (finer text) <= 6)%nat /\
  trim_end_zeros (finer text) = finer text.
Proof.
  unfold finer. destruct (after_point text) as [fraction|];
    [|split_and!; [constructor|simpl; lia|done]].
  pose proof (take_while_all fraction) as Hd.
  set (kept := take _ fraction).
  assert (is_digits (drop 3 kept)) as Hkept.
  { subst kept. rewrite take_within by lia. by apply Forall_drop, Forall_take. }
  destruct (trim_digits _ Hkept) as [Ht Hl]. split_and!; [done| |apply trim_idem].
  rewrite length_drop in Hl. subst kept. rewrite length_take in Hl. unfold FRACTION_KEPT in *. lia.
Qed.

Lemma finer_with_finer ms more :
  is_digits more -> (length more <= 6)%nat -> trim_end_zeros more = more ->
  finer (with_finer ms more) = more.
Proof.
  intros Hd Hl Ht. unfold finer, with_finer. cbn [app]. rewrite after_point_app by apply to_seconds_no_point.
  set (millis := padded 3 _).
  assert (length millis = 3%nat) as H3.
  { apply padded_spec. pose proof (Z.mod_pos_bound (ms mod MS_PER_DAY) 1000). lia. }
  rewrite app_assoc, take_while_digits;
    [|by apply Forall_app; split; [apply padded_digits|]|done].
  rewrite take_app_length' by (rewrite length_app; unfold FRACTION_KEPT; lia).
  by rewrite drop_app_length'.
Qed.

Lemma canonical_with_finer text :
  canonical text = (fun ms => with_finer ms (finer text)) <$> parse text.
Proof.
  unfold canonical. destruct (parse text) as [ms|]; [|done].
  cbn [mbind option_bind fmap option_fmap option_map]. rewrite iso_with_finer.
  destruct (finer text) as [|b more] eqn:E; [done|]. f_equal. unfold with_finer. cbn [app].
  set (written := to_seconds _ _). set (millis := padded 3 _).
  replace (written ++ point :: millis ++ ["Z"%byte])
    with ((written ++ point :: millis) ++ ["Z"%byte]) by by rewrite <- app_assoc.
  rewrite length_app. cbn [length]. rewrite Nat.add_sub, take_app_length, drop_app_length.
  by rewrite <- !app_assoc.
Qed.

Lemma year_text_bound year : -999999 <= year <= 999999 -> (length (year_text year) <= 7)%nat.
Proof.
  intros Hy. unfold year_text. destruct (within 0 9999 year) eqn:E; ranges.
  - destruct (padded_spec 4 year ltac:(lia)) as [-> _]. lia.
  - simpl. destruct (padded_spec 6 (Z.abs year) ltac:(lia)) as [-> _]. lia.
Qed.

Lemma with_finer_length ms more :
  Z.abs ms <= LAST_MS -> (length (with_finer ms more) <= 27 + length more)%nat.
Proof.
  intros Hms. pose proof (year_text_bound _ (civil_year ms Hms)) as Hy.
  destruct (days_of_civil (ms / MS_PER_DAY)) as [Hc _].
  pose proof (Z.mod_pos_bound ms MS_PER_DAY ltac:(done)) as Ht.
  unfold with_finer, to_seconds, date_text.
  destruct (civil_from_days _) as [[year month] day]. destruct Hc as [Hm Hd]. simpl in *.
  pose proof (days_in_month_range year month).
  destruct (parts_of_day _ Ht) as (_ & H1 & H2 & H3).
  pose proof (Z.mod_pos_bound (ms mod MS_PER_DAY) 1000 ltac:(done)).
  repeat (rewrite !length_app; simpl).
  rewrite !(fun w n H => proj1 (padded_spec w n H)) by (simpl; lia). lia.
Qed.

Lemma parse_bounded text ms : parse text = Some ms -> Z.abs ms <= LAST_MS.
Proof.
  unfold parse. intros ([y after] & _ & H)%bind_Some.
  destruct (take_part_or 1 after minus 2) as [month rest1].
  set (cut := (4 <? _)%nat) in H.
  destruct (if cut then take_part_or 1 rest1 minus 2 else (1, rest1)) as [day rest2].
  case_match; [done|]. apply bind_Some in H as ([of_day rest3] & _ & H).
  destruct rest3; [|done]. simpl in H.
  destruct (Z.abs _ <=? LAST_MS) eqn:E; [|done]. injection H as <-. by ranges.
Qed.

(** The calendar is the Gregorian one. The epoch is 1970-01-01, every next day is the
    day after in the calendar (the next of its month, of its year, or the first of January),
    which is a day there is; counting the days of a date and finding the date of a count are
    each other's inverse; and V8's count of a month's first day is the same one, from the
    year where its division is exact. *)
Theorem days_are_the_calendar :
  civil_from_days 0 = (1970, 1, 1) /\
  (forall days, is_date (civil_from_days days) /\
                days_of (civil_from_days days) = days /\
                civil_from_days (days + 1) = next_day (civil_from_days days)) /\
  (forall c, is_date c -> civil_from_days (days_of c) = c) /\
  (forall year month, -399999 <= year -> 0 <= month <= 11 ->
     month_start year month = Some (days_from_civil year (month + 1) 1)).
Proof.
  split_and!; [done| |apply civil_of_days|apply month_start_days].
  intros days. destruct (days_of_civil days). auto using civil_next.
Qed.

(** ** Every field *)

(** [HH:mm:ss.sss] and an offset [±HH:mm], after the date's [T]. *)
Definition time_text (h m s f : Z) (west : bool) (oh om : Z) : list byte :=
  padded 2 h ++ colon :: padded 2 m ++ colon :: padded 2 s ++ point :: padded 3 f
  ++ (if west then minus else plus) :: padded 2 oh ++ colon :: padded 2 om.

Definition is_time (h m s f oh om : Z) : bool :=
  ((h <=? 23) || ((h =? 24) && (m =? 0) && (s =? 0) && (f =? 0)))
  && (m <=? 59) && (s <=? 59) && (oh <=? 23) && (om <=? 59).

Definition two_digits (v : Z) : Prop := 0 <= v < 100.

Lemma digits_all_zero s v :
  is_digits s -> 0 <= v ->
  (foldl (fun v b => v * 10 + (u8 b - 0x30)) v s =? 0)
  = (v =? 0) && forallb (fun d => bool_decide (d = zero)) s.
Proof.
  intros Hs. revert v. induction Hs as [|b s Hb Hs IH]; intros v Hv; simpl; [by rewrite andb_true_r|].
  unfold is_ascii_digit in Hb. ranges. rewrite IH, andb_assoc by lia. f_equal.
  apply Bool.eq_iff_eq_true. rewrite andb_true_iff, bool_decide_eq_true, !Z.eqb_eq.
  split; [intros; split; [lia|apply u8_inj; change (u8 zero) with 0x30; lia]|].
  intros [-> ->]. done.
Qed.

Lemma take_offset_written (west : bool) oh om :
  two_digits oh -> two_digits om ->
  take_offset ((if west then minus else plus) :: padded 2 oh ++ colon :: padded 2 om)
  = if (oh <=? 23) && (om <=? 59)
    then Some ((if west then -1 else 1) * (oh * 60 + om) * 60000, []) else None.
Proof.
  intros Hh Hm. unfold two_digits in *.
  assert (forall rest, take_offset ((if west then minus else plus) :: rest)
    = ('(hours, rest) ← take_digits rest 2;
       '(minutes, rest) ← take_part rest colon 2;
       if (23 <? hours) || (59 <? minutes) then None
       else Some ((if west then -1 else 1) * (hours * 60 + minutes) * 60000, rest))) as ->
    by by destruct west.
  rewrite take_digits_padded by (done || lia). cbn [mbind option_bind].
  rewrite <- (app_nil_r (padded 2 om)), take_part_padded by (done || lia). cbn [mbind option_bind].
  rewrite !Z.leb_antisym, <- negb_orb. by destruct (_ || _).
Qed.

Lemma take_time_fields h m s f west oh om :
  two_digits h -> two_digits m -> two_digits s -> 0 <= f < 1000 -> two_digits oh -> two_digits om ->
  take_time (time_text h m s f west oh om)
  = if is_time h m s f oh om
    then Some (((h * 60 + m) * 60 + s) * 1000 + f
               - (if west then -1 else 1) * (oh * 60 + om) * 60000, []) else None.
Proof.
  intros Hh Hm Hs Hf Hoh Hom. unfold two_digits in *. unfold take_time, time_text.
  rewrite take_digits_padded by (done || lia). cbn [mbind option_bind].
  rewrite !take_part_padded by (done || lia). cbn [mbind option_bind].
  rewrite take_part_padded by (done || lia).
  pose proof (take_fraction_written f [] ((if west then minus else plus) :: padded 2 oh
                ++ colon :: padded 2 om) Hf) as Hfraction.
  rewrite app_nil_l, app_nil_r in Hfraction.
  rewrite Hfraction by (constructor || by destruct west). cbn [mbind option_bind from_option id].
  pose proof (digits_all_zero (padded 3 f) 0 (padded_digits 3 f)) as Hzero.
  destruct (padded_spec 3 f ltac:(lia)) as [_ Hv]. unfold digits_value in Hv.
  rewrite Hv in Hzero. simpl in Hzero. rewrite <- Hzero by done.
  rewrite take_offset_written by done. unfold is_time.
  rewrite (Z.leb_antisym 23 h), (Z.leb_antisym 59 m), (Z.leb_antisym 59 s).
  destruct (23 <? h), (h =? 24), (m =? 0), (s =? 0), (f =? 0), (59 <? m), (59 <? s),
    (oh <=? 23), (om <=? 59); reflexivity.
Qed.

Lemma days_of_four_digits year month day :
  0 <= year <= 9999 -> is_date (year, month, day) -> Z.abs (days_of (year, month, day)) <= 4000000.
Proof.
  intros Hy [Hm Hd]. pose proof (days_in_month_range year month).
  unfold days_of. rewrite days_from_civil_start, year_start_closed.
  destruct (month <=? 2), (2 <? month); divisions.
Qed.

(** What a text of the whole format reads as, by its fields, whatever digits they are: a
    date there is and a time of day there is (or the day's end, 24:00 to the last digit), in
    an offset there is, read as the instant they are; of any other fields nothing is read. *)
Theorem fields_are_read year month day h m s f west oh om :
  0 <= year <= 9999 -> two_digits month -> two_digits day ->
  two_digits h -> two_digits m -> two_digits s -> 0 <= f < 1000 -> two_digits oh -> two_digits om ->
  parse (date_text (year, month, day) ++ "T"%byte :: time_text h m s f west oh om)
  = if is_dateb (year, month, day) && is_time h m s f oh om
    then Some (days_of (year, month, day) * MS_PER_DAY + ((h * 60 + m) * 60 + s) * 1000 + f
               - (if west then -1 else 1) * (oh * 60 + om) * 60000)
    else None.
Proof.
  intros Hy Hmo Hd Hh Hm Hs Hf Hoh Hom. unfold two_digits in Hmo, Hd.
  rewrite parse_date by (done || by unfold date_fits; simpl; lia).
  destruct (is_dateb _) eqn:E; [|done]. cbn [negb andb].
  change (strip_prefix "T"%byte ("T"%byte :: time_text h m s f west oh om))
    with (Some (time_text h m s f west oh om)). cbn beta iota.
  rewrite take_time_fields by done.
  destruct (is_time _ _ _ _ _ _) eqn:Etime; [|done]. cbn [mbind option_bind].
  rewrite (proj2 (Z.leb_le _ _)); [f_equal; lia|].
  apply is_dateb_spec in E. pose proof (days_of_four_digits year month day Hy E).
  unfold two_digits, LAST_MS, MS_PER_DAY in *. destruct west; lia.
Qed.

(** What [iso] writes of an instant is what [parse] reads of it, for every instant a
    date holds; and what it writes of any other reads as none. *)
Theorem iso_reads_back ms :
  parse (iso ms) = if Z.abs ms <=? LAST_MS then Some ms else None.
Proof. rewrite iso_with_finer. apply parse_with_finer, Forall_nil_2. Qed.

(** What a store keeps of a time says the same time: it reads as the same instant, with
    the same digits past the milliseconds, to the nanosecond. It is its own canonical form,
    in 33 characters or fewer however long the text was, and is kept of every time that
    reads; what [iso] writes is its own. *)
Theorem canonical_says_the_same_time text :
  match canonical text with
  | None => parse text = None
  | Some kept =>
      (exists ms, parse text = Some ms /\ parse kept = Some ms /\
                  (finer text = [] -> kept = iso ms)) /\
      finer kept = finer text /\ canonical kept = Some kept /\ (length kept <= 33)%nat
  end.
Proof.
  rewrite canonical_with_finer. destruct (parse text) as [ms|] eqn:E; [|done]. simpl.
  pose proof (parse_bounded _ _ E) as Hms.
  destruct (finer_digits text) as (Hd & Hl & Ht).
  pose proof (parse_with_finer ms _ Hd) as Hp. rewrite (proj2 (Z.leb_le _ _) Hms) in Hp.
  pose proof (finer_with_finer ms _ Hd Hl Ht) as Hf. split_and!.
  - exists ms. split_and!; [done|done|]. intros ->. by rewrite iso_with_finer.
  - done.
  - by rewrite canonical_with_finer, Hp, Hf.
  - pose proof (with_finer_length ms (finer text) Hms). lia.
Qed.


(** ** At concrete inputs *)

Lemma fields_are_read_witness :
  parse (date_text (2026, 10, 16) ++ "T"%byte :: time_text 14 30 0 250 false 2 30)
    = Some 1792152000250 /\
  parse (date_text (2026, 2, 29) ++ "T"%byte :: time_text 14 30 0 250 false 2 30) = None.
Proof.
  split; rewrite fields_are_read by (unfold two_digits; lia); reflexivity.
Defined.
