(* ===== verification/Parser.v ===== *)
(** * The bytes a program prints: [cf-panes/src/screen/parser.rs]

    Text, control characters and the escape sequences that move the cursor,
    erase and style, read one byte at a time. The parser keeps no screen: it
    hands on [Action]s ([perform] of the code is the list of them here, in the
    order they are handed on). *)
From S2P Require Import Prelude Utf8.
#[local] Open Scope Z_scope.

(** The most bytes of an OSC, DCS, APC, PM or SOS string that are read. *)
Definition MAX_STRING : Z := 8 * 1024.
(** The most parameters kept before a CSI sequence's last one. *)
Definition MAX_PARAMS : nat := 32.
(** The largest value a parameter takes. *)
Definition MAX_PARAM : Z := 0xFFFF.

Definition ESC : Z := 0x1B.
Definition CAN : Z := 0x18.
Definition SUB : Z := 0x1A.
Definition BEL : Z := 0x07.

Definition usize_max : Z := 2 ^ 64 - 1.
(** [usize::saturating_mul] *)
Definition saturating_mul (a b : Z) : Z := (a * b) `min` usize_max.

(** What a run of bytes said. *)
Module Action.
Inductive t :=
  | Print (character : char)
  | Control (byte : byte)
  | Escape (intermediate : option byte) (last : byte)
  | Csi (marker : option byte) (params : list Z) (intermediate : option byte) (last : byte).
End Action.

Module State.
Inductive t :=
  | Ground
  | Escape
  | EscapeIntermediate
  | Csi
  | CsiIgnore
  | Str
  | StrEscape.
End State.

#[export] Instance state_eq_dec : EqDecision State.t.
Proof. solve_decision. Defined.

(** Where a run of bytes is, possibly between the halves of a character or of
    an escape sequence. *)
Record parser := Parser {
  p_state : State.t;
  p_partial : list byte;
  p_needed : nat;
  p_marker : option byte;
  p_params : list Z;
  p_digits : option Z;
  p_intermediate : option byte;
  p_dropped : Z
}.

Definition initial : parser := Parser State.Ground [] 0 None [] None None 0.

Definition set_state (s : State.t) (p : parser) : parser :=
  Parser s (p_partial p) (p_needed p) (p_marker p) (p_params p) (p_digits p)
    (p_intermediate p) (p_dropped p).
Definition set_partial (x : list byte) (p : parser) : parser :=
  Parser (p_state p) x (p_needed p) (p_marker p) (p_params p) (p_digits p)
    (p_intermediate p) (p_dropped p).
Definition set_marker (x : option byte) (p : parser) : parser :=
  Parser (p_state p) (p_partial p) (p_needed p) x (p_params p) (p_digits p)
    (p_intermediate p) (p_dropped p).
Definition set_params (x : list Z) (p : parser) : parser :=
  Parser (p_state p) (p_partial p) (p_needed p) (p_marker p) x (p_digits p)
    (p_intermediate p) (p_dropped p).
Definition set_digits (x : option Z) (p : parser) : parser :=
  Parser (p_state p) (p_partial p) (p_needed p) (p_marker p) (p_params p) x
    (p_intermediate p) (p_dropped p).
Definition set_intermediate (x : option byte) (p : parser) : parser :=
  Parser (p_state p) (p_partial p) (p_needed p) (p_marker p) (p_params p) (p_digits p)
    x (p_dropped p).
Definition set_dropped (x : Z) (p : parser) : parser :=
  Parser (p_state p) (p_partial p) (p_needed p) (p_marker p) (p_params p) (p_digits p)
    (p_intermediate p) x.

Definition begin_escape (p : parser) : parser :=
  set_intermediate None (set_state State.Escape p).

Definition start_character (p : parser) (b : byte) (length : nat) : parser :=
  Parser (p_state p) (p_partial p ++ [b]) length (p_marker p) (p_params p) (p_digits p)
    (p_intermediate p) (p_dropped p).

(** [std::str::from_utf8(&partial).ok().and_then(|text| text.chars().next())] *)
Definition partial_character (partial : list byte) : char :=
  match from_utf8 partial with
  | Some (c :: _) => c
  | _ => REPLACEMENT_CHARACTER
  end.

(** A byte on the ground with no character pending. *)
Definition ground_byte (p : parser) (b : byte) : parser * list Action.t :=
  let v := u8 b in
  if v =? ESC then (begin_escape p, [])
  else if (v =? CAN) || (v =? SUB) then (p, [])
  else if within 0x00 0x1F v then (p, [Action.Control b])
  else if within 0x20 0x7E v then (p, [Action.Print v])
  else if v =? 0x7F then (p, [])
  else if within 0xC2 0xDF v then (start_character p b 2, [])
  else if within 0xE0 0xEF v then (start_character p b 3, [])
  else if within 0xF0 0xF4 v then (start_character p b 4, [])
  else (p, [Action.Print REPLACEMENT_CHARACTER]).

Definition ground (p : parser) (b : byte) : parser * list Action.t :=
  match p_partial p with
  | [] => ground_byte p b
  | _ =>
      if within 0x80 0xBF (u8 b) then
        let partial := p_partial p ++ [b] in
        if (length partial =? p_needed p)%nat then
          (set_partial [] p, [Action.Print (partial_character partial)])
        else (set_partial partial p, [])
      else
        (* the character was cut short by something else: it is lost *)
        let '(p', out) := ground_byte (set_partial [] p) b in
        (p', Action.Print REPLACEMENT_CHARACTER :: out)
  end.

Definition escape (p : parser) (b : byte) : parser * list Action.t :=
  let v := u8 b in
  if v =? 0x5B (* [ *) then
    (set_intermediate None (set_digits None (set_params []
      (set_marker None (set_state State.Csi p)))), [])
  else if (v =? 0x5D) || (v =? 0x50) || (v =? 0x58) || (v =? 0x5E) || (v =? 0x5F)
       (* ] P X ^ _ *) then
    (set_dropped 0 (set_state State.Str p), [])
  else if within 0x20 0x2F v then
    (set_state State.EscapeIntermediate (set_intermediate (Some b) p), [])
  else if within 0x30 0x7E v then (set_state State.Ground p, [Action.Escape None b])
  else (set_state State.Ground p, []).

Definition escape_intermediate (p : parser) (b : byte) : parser * list Action.t :=
  let v := u8 b in
  if within 0x20 0x2F v then (set_intermediate (Some b) p, [])
  else if within 0x30 0x7E v then
    (set_intermediate None (set_state State.Ground p),
     [Action.Escape (p_intermediate p) b])
  else (set_state State.Ground p, []).

(** [self.digits.take().unwrap_or(0)] pushed on the parameters. *)
Definition push_digits (p : parser) : parser :=
  set_digits None (set_params (p_params p ++ [default 0 (p_digits p)]) p).

Definition csi (p : parser) (b : byte) : parser * list Action.t :=
  let v := u8 b in
  if within 0x30 0x39 v (* 0..9 *) then
    let digit := v - 0x30 in
    let value := saturating_mul (default 0 (p_digits p)) 10 + digit in
    (set_digits (Some (value `min` MAX_PARAM)) p, [])
  else if (v =? 0x3B) || (v =? 0x3A) (* ; : *) then
    let p1 := if (length (p_params p) <? MAX_PARAMS)%nat then push_digits p else p in
    (set_digits None p1, [])
  else if within 0x3C 0x3F v (* < = > ? *) then
    match p_marker p, p_params p, p_digits p with
    | None, [], None => (set_marker (Some b) p, [])
    | _, _, _ => (set_state State.CsiIgnore p, [])
    end
  else if within 0x20 0x2F v then (set_intermediate (Some b) p, [])
  else if within 0x40 0x7E v then
    let p1 := match p_digits p, p_params p with
              | None, [] => p
              | _, _ => push_digits p
              end in
    (set_intermediate None (set_params [] (set_marker None (set_state State.Ground p1))),
     [Action.Csi (p_marker p1) (p_params p1) (p_intermediate p1) b])
  else (set_state State.Ground p, []).

Definition string (p : parser) (b : byte) : parser :=
  let v := u8 b in
  let p := set_dropped (p_dropped p + 1) p in
  if v =? BEL then set_state State.Ground p
  else if v =? ESC then set_state State.StrEscape p
  else if (v =? CAN) || (v =? SUB) then set_state State.Ground p
  else if MAX_STRING <? p_dropped p then set_state State.Ground p
  else p.

(** The arms of [advance] for the states inside an escape sequence, with the
    guards before them. *)
Definition advance_sequence (p : parser) (b : byte) : parser * list Action.t :=
  let v := u8 b in
  if (v =? CAN) || (v =? SUB) then (set_state State.Ground p, [])
  else if v =? ESC then (begin_escape p, [])
  else if v <? 0x20 then (p, [Action.Control b])
  else match p_state p with
       | State.Escape => escape p b
       | State.EscapeIntermediate => escape_intermediate p b
       | State.Csi => csi p b
       | State.CsiIgnore =>
           (if within 0x40 0x7E v then set_state State.Ground p else p, [])
       | State.Ground | State.Str | State.StrEscape => (p, [])
       end.

(** Its recursive [self.advance] is in the state [Escape]. *)
Definition string_escape (p : parser) (b : byte) : parser * list Action.t :=
  if u8 b =? 0x5C (* \ *) then (set_state State.Ground p, [])
  else advance_sequence (begin_escape p) b.

Definition advance (p : parser) (b : byte) : parser * list Action.t :=
  match p_state p with
  | State.Ground => ground p b
  | State.Str => (string p b, [])
  | State.StrEscape => string_escape p b
  | _ => advance_sequence p b
  end.

(** A run of bytes: what [Screen::feed] hands the grid. *)
Fixpoint run (p : parser) (bytes : list byte) : parser * list Action.t :=
  match bytes with
  | [] => (p, [])
  | b :: bytes' =>
      let '(p1, out1) := advance p b in
      let '(p2, out2) := run p1 bytes' in
      (p2, out1 ++ out2)
  end.

(** ** The invariant *)

(** A value a parameter takes. *)
Definition param_ok (v : Z) : Prop := 0 <= v <= MAX_PARAM.

(** The bytes of an unfinished character: a lead byte of [needed] bytes, and
    fewer continuation bytes than it is to have. *)
Definition pending_ok (partial : list byte) (needed : nat) : Prop :=
  match partial with
  | [] => True
  | b :: rest =>
      0xC2 <= u8 b /\ Forall (fun c => is_continuation c = true) rest /\
      (length partial < needed)%nat /\ (needed <= 4)%nat
  end.

Record wf (p : parser) : Prop := {
  wf_pending : pending_ok (p_partial p) (p_needed p);
  wf_pending_ground : p_state p <> State.Ground -> p_partial p = [];
  wf_params : (length (p_params p) <= MAX_PARAMS)%nat;
  wf_values : Forall param_ok (p_params p);
  wf_digits : param_ok (default 0 (p_digits p));
  wf_dropped : 0 <= p_dropped p <= MAX_STRING + 1;
  wf_string : p_state p = State.Str -> p_dropped p <= MAX_STRING
}.

(** What the parser hands on: a character is a scalar value, the parameters
    are one more than [MAX_PARAMS] at the most, each a value kept. *)
Definition action_ok (a : Action.t) : Prop :=
  match a with
  | Action.Print c => is_scalar c = true
  | Action.Control b => u8 b < 0x20
  | Action.Escape _ last => 0x30 <= u8 last <= 0x7E
  | Action.Csi _ params _ last =>
      (length params <= MAX_PARAMS + 1)%nat /\ Forall param_ok params /\
      0x40 <= u8 last <= 0x7E
  end.

Lemma param_ok_0 : param_ok 0.
Proof. unfold param_ok, MAX_PARAM. lia. Qed.

Lemma initial_wf : wf initial.
Proof.
  split; simpl; try done; auto using param_ok_0; unfold MAX_PARAMS, MAX_STRING; lia.
Qed.

Lemma partial_character_scalar partial : is_scalar (partial_character partial) = true.
Proof.
  unfold partial_character. destruct (from_utf8 partial) as [[|c s]|] eqn:E; try done.
  apply from_utf8_scalar in E. by apply Forall_cons in E as [].
Qed.

(** One more digit, clamped as the code clamps it: the multiplication never
    saturates. *)
Definition clamp (v : Z) : Z := v `min` MAX_PARAM.

Lemma digit_clamped v d :
  0 <= v -> 0 <= d <= 9 ->
  (saturating_mul (clamp v) 10 + d) `min` MAX_PARAM = clamp (v * 10 + d).
Proof. unfold saturating_mul, clamp, usize_max, MAX_PARAM. lia. Qed.

#[export] Hint Resolve param_ok_0 partial_character_scalar : cf.

(** Closes the conjuncts of [wf] that the step did not touch. *)
Ltac wf_solve :=
  split; simpl; try done; try (intros ?; congruence); eauto using param_ok_0;
  try (unfold MAX_PARAMS, MAX_STRING, param_ok, MAX_PARAM in *; simpl in *; lia).

(** A step that leaves nothing pending and changes no more than the state. *)
Lemma wf_set_state s p :
  wf p -> p_partial p = [] -> s <> State.Str -> wf (set_state s p).
Proof. intros [] Hp Hs. wf_solve; simpl; by rewrite ?Hp. Qed.

Lemma wf_begin_escape p : wf p -> p_partial p = [] -> wf (begin_escape p).
Proof. intros [] Hp. wf_solve; simpl; by rewrite ?Hp. Qed.

Lemma wf_start_character p b n :
  wf p -> p_partial p = [] -> p_state p = State.Ground ->
  0xC2 <= u8 b -> (2 <= n <= 4)%nat -> wf (start_character p b n).
Proof.
  intros [] Hp Hs Hb Hn. wf_solve; simpl; rewrite ?Hp; simpl.
  split_and!; auto; simpl; lia.
Qed.

Lemma ground_byte_wf p b :
  wf p -> p_partial p = [] -> p_state p = State.Ground ->
  wf (fst (ground_byte p b)) /\ Forall action_ok (snd (ground_byte p b)).
Proof.
  intros Hwf Hp Hs. unfold ground_byte. pose proof (u8_range b).
  repeat (case_match; ranges); simpl;
    (split; [eauto using wf_begin_escape, wf_start_character with lia|]); auto;
    try (apply wf_start_character; auto; lia);
    repeat constructor; simpl; try lia; try done.
  apply ascii_scalar. lia.
Qed.

Lemma ground_wf p b :
  wf p -> p_state p = State.Ground ->
  wf (fst (ground p b)) /\ Forall action_ok (snd (ground p b)).
Proof.
  intros Hwf Hs. unfold ground. destruct (p_partial p) as [|b0 rest] eqn:Hp.
  { by apply ground_byte_wf. }
  pose proof (wf_pending p Hwf) as Hpend. rewrite Hp in Hpend.
  destruct Hpend as (H0 & Hrest & Hlt & Hle).
  case_match eqn:Hc; [case_match eqn:Hn|].
  - simpl. split; [destruct Hwf; wf_solve|]. repeat constructor. apply partial_character_scalar.
  - simpl. split; [|constructor]. destruct Hwf. wf_solve; simpl.
    apply Nat.eqb_neq in Hn. simpl in *. rewrite ?length_app in *. simpl in *.
    split_and!; auto; [|lia]. apply Forall_app. auto.
  - assert (wf (set_partial [] p)) as Hwf' by (destruct Hwf; wf_solve).
    destruct (ground_byte_wf _ b Hwf' eq_refl Hs) as [? ?].
    destruct (ground_byte _ b). simpl in *. split; [done|by constructor].
Qed.

(** What the end of a CSI sequence pushes is fit to hand on. *)
Definition push_ok (p p1 : parser) : Prop :=
  p_partial p1 = [] /\ Forall param_ok (p_params p1) /\
  (length (p_params p1) <= MAX_PARAMS + 1)%nat /\
  p_dropped p1 = p_dropped p /\ param_ok (default 0 (p_digits p1)).

Lemma push_digits_ok p : wf p -> p_partial p = [] -> push_ok p (push_digits p).
Proof.
  intros [] Hp. split_and!; simpl; auto using param_ok_0.
  - apply Forall_app. auto.
  - rewrite length_app. unfold MAX_PARAMS in *. simpl. lia.
Qed.

Lemma csi_wf p b :
  wf p -> p_partial p = [] -> p_state p = State.Csi ->
  wf (fst (csi p b)) /\ Forall action_ok (snd (csi p b)).
Proof.
  intros Hwf Hp Hs. unfold csi.
  case_match eqn:Hd; [|case_match eqn:Hsep; [|case_match eqn:Hm;
    [|case_match eqn:Hi; [|case_match eqn:Hf]]]]; ranges.
  - simpl. split; [|constructor]. destruct Hwf. wf_solve.
    unfold param_ok, saturating_mul, usize_max, MAX_PARAM in *. lia.
  - simpl. split; [|constructor]. destruct Hwf.
    case_match; ranges; wf_solve; simpl.
    + rewrite length_app. simpl. unfold MAX_PARAMS in *. lia.
    + apply Forall_app. auto.
  - assert (wf (set_state State.CsiIgnore p)) by (by apply wf_set_state).
    assert (wf (set_marker (Some b) p)) by (destruct Hwf; wf_solve).
    repeat case_match; simpl; auto.
  - simpl. split; [destruct Hwf; wf_solve|constructor].
  - set (p1 := match p_digits p with None => _ | _ => _ end).
    assert (push_ok p p1) as (? & ? & ? & ? & ?).
    { subst p1. pose proof (wf_params p Hwf). pose proof (wf_values p Hwf).
      pose proof (wf_digits p Hwf). unfold MAX_PARAMS in *.
      assert (push_ok p (push_digits p)) by by apply push_digits_ok.
      destruct (p_digits p) eqn:Ed; [done|]. destruct (p_params p) eqn:Ep; [|done].
      split_and!; rewrite ?Ep, ?Ed; auto using param_ok_0; simpl; lia. }
    clearbody p1. simpl. split; [|apply Forall_singleton; split_and!; auto; lia].
    destruct Hwf. split; simpl; auto; try done.
    + by replace (p_partial p1) with (@nil byte).
    + unfold MAX_PARAMS. lia.
    + by replace (p_dropped p1) with (p_dropped p).
  - simpl. split; [by apply wf_set_state|constructor].
Qed.

Lemma escape_wf p b :
  wf p -> p_partial p = [] ->
  wf (fst (escape p b)) /\ Forall action_ok (snd (escape p b)).
Proof.
  intros Hwf Hp. unfold escape. destruct Hwf.
  repeat (case_match; ranges); simpl;
    (split; [wf_solve; simpl; by rewrite ?Hp|repeat constructor; simpl; lia]).
Qed.

Lemma escape_intermediate_wf p b :
  wf p -> p_partial p = [] -> p_state p <> State.Str ->
  wf (fst (escape_intermediate p b)) /\ Forall action_ok (snd (escape_intermediate p b)).
Proof.
  intros Hwf Hp Hs. unfold escape_intermediate. destruct Hwf.
  repeat (case_match; ranges); simpl;
    (split; [wf_solve; simpl; by rewrite ?Hp|repeat constructor; simpl; lia]).
Qed.

Lemma string_wf p b : wf p -> p_state p = State.Str -> wf (string p b).
Proof.
  intros Hwf Hs. pose proof (wf_string p Hwf Hs). unfold string.
  destruct Hwf. assert (p_partial p = []) as Hp by (apply wf_pending_ground0; congruence).
  repeat (case_match; ranges); wf_solve; simpl in *; try (by rewrite ?Hp); try lia.
Qed.

Lemma advance_sequence_wf p b :
  wf p -> p_partial p = [] -> p_state p <> State.Str ->
  wf (fst (advance_sequence p b)) /\ Forall action_ok (snd (advance_sequence p b)).
Proof.
  intros Hwf Hp Hs. unfold advance_sequence.
  case_match; [simpl; split; [by apply wf_set_state|constructor]|].
  case_match; [simpl; split; [by apply wf_begin_escape|constructor]|].
  case_match; ranges; [simpl; split; [done|repeat constructor; simpl; lia]|].
  destruct (p_state p) eqn:E; simpl; auto using escape_wf, csi_wf.
  - apply escape_intermediate_wf; congruence.
  - split; [|constructor]. case_match; [by apply wf_set_state|done].
Qed.

Lemma advance_wf p b :
  wf p -> wf (fst (advance p b)) /\ Forall action_ok (snd (advance p b)).
Proof.
  intros Hwf. pose proof (wf_pending_ground p Hwf) as Hp. unfold advance.
  destruct (p_state p) eqn:E; try (apply advance_sequence_wf; auto; congruence).
  - by apply ground_wf.
  - simpl. split; [by apply string_wf|constructor].
  - unfold string_escape. assert (p_partial p = []) by auto.
    case_match; [simpl; split; [by apply wf_set_state|constructor]|].
    by apply advance_sequence_wf; auto using wf_begin_escape.
Qed.

(** The parser's invariant holds after any bytes, and all it hands on is in
    bounds. *)
Theorem run_wf p bytes :
  wf p -> wf (fst (run p bytes)) /\ Forall action_ok (snd (run p bytes)).
Proof.
  revert p. induction bytes as [|b bytes IH]; intros p Hwf; simpl; [by split|].
  destruct (advance_wf p b Hwf) as [Hwf1 Hout1].
  destruct (advance p b) as [p1 out1]; simpl in *.
  destruct (IH p1 Hwf1) as [Hwf2 Hout2].
  destruct (run p1 bytes) as [p2 out2]; simpl in *.
  auto using Forall_app_2.
Qed.

Lemma run_app p a b :
  run p (a ++ b) =
    let '(p1, out1) := run p a in let '(p2, out2) := run p1 b in (p2, out1 ++ out2).
Proof.
  revert p. induction a as [|x a IH]; intros p; simpl; [by destruct (run p b)|].
  destruct (advance p x) as [p1 out1]. rewrite IH.
  destruct (run p1 a) as [p2 out2]. destruct (run p2 b) as [p3 out3]. by rewrite app_assoc.
Qed.

(** ** Text *)

(** Where text is read: on the ground, no character pending. *)
Definition at_ground (p : parser) : Prop := p_state p = State.Ground /\ p_partial p = [].

(** A character that is no C0 control and no DEL. *)
Definition is_text (c : char) : bool := is_scalar c && (0x20 <=? c) && negb (c =? 0x7F).

Lemma advance_lead p b n :
  at_ground p ->
  (within 0xC2 0xDF (u8 b) = true /\ n = 2%nat \/ within 0xE0 0xEF (u8 b) = true /\ n = 3%nat \/
   within 0xF0 0xF4 (u8 b) = true /\ n = 4%nat) ->
  advance p b = (start_character p b n, []).
Proof.
  intros [Hs Hp] Hb. unfold advance. rewrite Hs. unfold ground. rewrite Hp.
  unfold ground_byte, ESC, CAN, SUB.
  destruct Hb as [[Hb ->]|[[Hb ->]|[Hb ->]]]; ranges; by repeat settle_test.
Qed.

Lemma advance_continuation p b b0 rest :
  p_state p = State.Ground -> p_partial p = b0 :: rest -> is_continuation b = true ->
  advance p b =
    if (length (b0 :: rest ++ [b]) =? p_needed p)%nat
    then (set_partial [] p, [Action.Print (partial_character (b0 :: rest ++ [b]))])
    else (set_partial (b0 :: rest ++ [b]) p, []).
Proof.
  intros Hs Hp Hb. unfold advance. rewrite Hs. unfold ground. rewrite Hp.
  unfold is_continuation in Hb. by rewrite Hb.
Qed.

(** A whole character is printed by its last byte. *)
Lemma run_sequence p b0 rest c n :
  at_ground p ->
  (within 0xC2 0xDF (u8 b0) = true /\ n = 2%nat \/ within 0xE0 0xEF (u8 b0) = true /\ n = 3%nat \/
   within 0xF0 0xF4 (u8 b0) = true /\ n = 4%nat) ->
  Forall (fun b => is_continuation b = true) rest -> S (length rest) = n ->
  partial_character (b0 :: rest) = c ->
  exists p', run p (b0 :: rest) = (p', [Action.Print c]) /\ at_ground p'.
Proof.
  intros Hg Hb Hrest Hn Hc. simpl. rewrite (advance_lead _ _ _ Hg Hb).
  destruct Hg as [Hs Hp].
  assert (forall seen more q, p_state q = State.Ground -> p_partial q = b0 :: seen ->
            p_needed q = n -> Forall (fun b => is_continuation b = true) more ->
            more <> [] -> seen ++ more = rest ->
            exists p', run q more = (p', [Action.Print c]) /\ at_ground p') as Hrun.
  { intros seen more. revert seen. induction more as [|b more IH]; [done|].
    intros seen q Hqs Hqp Hqn [Hb' Hmore]%Forall_cons _ Heq. simpl.
    rewrite (advance_continuation q b b0 seen Hqs Hqp Hb'), Hqn.
    assert (length rest = length seen + S (length more))%nat as Hl
      by (rewrite <- Heq, length_app; done).
    destruct more as [|b' more].
    - simpl. rewrite length_app. simpl in *. settle_test. rewrite Heq, Hc.
      eexists. split; [done|]. by split.
    - simpl. rewrite length_app. simpl in *. settle_test.
      destruct (IH (seen ++ [b]) (set_partial (b0 :: seen ++ [b]) q)) as (p' & Hr & ?);
        try done; [by rewrite <- app_assoc|].
      simpl in Hr. rewrite Hr. simpl. eauto. }
  destruct (Hrun [] rest (start_character p b0 n)) as (p' & -> & ?);
    simpl; try done; [by rewrite Hp| |eauto].
  intros ->. simpl in *. destruct Hb as [[_ ?]|[[_ ?]|[_ ?]]]; lia.
Qed.

Lemma continuation_mod z : is_continuation (byte_of (0x80 + z mod 0x40)) = true.
Proof.
  pose proof (Z.mod_pos_bound z 0x40 eq_refl).
  unfold is_continuation. rewrite u8_byte_of by lia. ranges. lia.
Qed.

#[local] Hint Resolve continuation_mod : cf.

Lemma run_char p c :
  at_ground p -> is_text c = true ->
  exists p', run p (encode_char c) = (p', [Action.Print c]) /\ at_ground p'.
Proof.
  intros Hg Ht. unfold is_text in Ht. ranges.
  match goal with H : negb _ = true |- _ => apply negb_true_iff in H; ranges end.
  assert (partial_character (encode_char c) = c) as Hc.
  { unfold partial_character. pose proof (from_utf8_encode_char c []) as E.
    rewrite app_nil_r in E. by rewrite E. }
  match goal with H : is_scalar c = true |- _ => apply is_scalar_spec in H end.
  revert Hc. unfold encode_char.
  case_match eqn:E1; [|case_match eqn:E2; [|case_match eqn:E3]]; ranges; intros Hc.
  - destruct Hg as [Hs Hp]. simpl. unfold advance. rewrite Hs. unfold ground. rewrite Hp.
    unfold ground_byte, ESC, CAN, SUB. rewrite u8_byte_of by lia. repeat settle_test.
    simpl. eexists. split; [done|by split].
  - apply run_sequence with 2%nat; auto; [|by repeat constructor; auto with cf].
    left. split; [|done]. rewrite u8_byte_of by (Z.to_euclidean_division_equations; lia).
    by settle_test.
  - apply run_sequence with 3%nat; auto; [|by repeat constructor; auto with cf].
    right; left. split; [|done]. rewrite u8_byte_of by (Z.to_euclidean_division_equations; lia).
    by settle_test.
  - apply run_sequence with 4%nat; auto; [|by repeat constructor; auto with cf].
    right; right. split; [|done]. rewrite u8_byte_of by (Z.to_euclidean_division_equations; lia).
    by settle_test.
Qed.

Lemma run_text p s :
  at_ground p -> Forall (fun c => is_text c = true) s ->
  exists p', run p (encode s) = (p', Action.Print <$> s) /\ at_ground p'.
Proof.
  intros Hg Hs. revert p Hg. induction Hs as [|c s Hc _ IH]; intros p Hg; [by eauto|].
  rewrite encode_cons, run_app. destruct (run_char p c Hg Hc) as (p1 & -> & Hg1).
  destruct (IH p1 Hg1) as (p2 & -> & Hg2). by eauto.
Qed.

(** ** Coming back to the ground *)

Definition can : byte := byte_of CAN.

Lemma advance_can p :
  wf p ->
  exists p' out, advance p can = (p', out) /\ at_ground p' /\
    (out = [] \/ out = [Action.Print REPLACEMENT_CHARACTER]).
Proof.
  intros Hwf. pose proof (wf_pending_ground p Hwf) as Hp.
  assert (u8 can = 0x18) as Hc by done.
  unfold advance, ground, ground_byte, string, string_escape, advance_sequence, CAN, SUB, ESC, BEL.
  rewrite Hc. simpl.
  destruct (p_state p) eqn:E; destruct (p_partial p) eqn:Ep; simpl;
    try (by specialize (Hp ltac:(done)));
    (do 2 eexists; split; [done|split; [split; simpl; by auto|by auto]]).
Qed.

(** Whatever state any bytes left the parser in, a CAN brings it back to the
    text: what follows is read whole. *)
Theorem can_resynchronises bytes s :
  Forall (fun c => is_text c = true) s ->
  exists p' lost,
    run initial (bytes ++ can :: encode s)
    = (p', snd (run initial bytes) ++ lost ++ (Action.Print <$> s)) /\
    at_ground p' /\
    (lost = [] \/ lost = [Action.Print REPLACEMENT_CHARACTER]).
Proof.
  intros Hs. rewrite run_app. destruct (run_wf initial bytes initial_wf) as [Hwf _].
  destruct (run initial bytes) as [p out]; simpl in *.
  destruct (advance_can p Hwf) as (p1 & lost & -> & Hg & Hlost).
  destruct (run_text p1 s Hg Hs) as (p2 & -> & Hg2). eauto.
Qed.

(** ** A string that never ends *)

Lemma run_str_step p b bytes :
  p_state p = State.Str -> fst (run p (b :: bytes)) = fst (run (string p b) bytes).
Proof.
  intros Hs. simpl. unfold advance. rewrite Hs. by destruct (run (string p b) bytes).
Qed.

Lemma run_str_dropped p bytes :
  (forall n, (n <= length bytes)%nat -> p_state (fst (run p (take n bytes))) = State.Str) ->
  p_dropped (fst (run p bytes)) = p_dropped p + Z.of_nat (length bytes).
Proof.
  revert p. induction bytes as [|b bytes IH]; intros p Hall; [simpl; lia|].
  pose proof (Hall 0%nat ltac:(lia)) as Hs. simpl in Hs.
  rewrite run_str_step by done.
  rewrite IH.
  - assert (p_dropped (string p b) = p_dropped p + 1) as ->
      by (unfold string; repeat case_match; done).
    simpl. lia.
  - intros n Hn. rewrite <- run_str_step by done. apply (Hall (S n)). simpl. lia.
Qed.

(** An OSC, DCS, APC, PM or SOS string is given up after [MAX_STRING] bytes at
    the latest: one that never ends does not hide what follows it. *)
Theorem string_given_up p bytes :
  wf p -> p_state p = State.Str -> MAX_STRING < Z.of_nat (length bytes) ->
  exists n, (n <= length bytes)%nat /\ p_state (fst (run p (take n bytes))) <> State.Str.
Proof.
  intros Hwf Hs Hlen.
  destruct (decide (Forall (fun n => p_state (fst (run p (take n bytes))) = State.Str)
                      (seq 0 (S (length bytes))))) as [Hall|Hnot].
  - exfalso. rewrite Forall_forall in Hall.
    assert (forall n, (n <= length bytes)%nat ->
              p_state (fst (run p (take n bytes))) = State.Str) as Hall'.
    { intros n Hn. apply Hall, elem_of_seq. lia. }
    pose proof (run_str_dropped p bytes Hall') as Hd.
    destruct (run_wf p bytes Hwf) as [Hwf' _].
    pose proof (Hall' (length bytes) ltac:(lia)) as Hend. rewrite firstn_all in Hend.
    pose proof (wf_string _ Hwf' Hend). pose proof (wf_dropped p Hwf). lia.
  - apply not_Forall_Exists, Exists_exists in Hnot; [|intros ?; apply _].
    destruct Hnot as (n & Hn%elem_of_seq & ?). exists n. split; [lia|done].
Qed.

(** ** CSI sequences *)

Definition is_digit (b : byte) : bool := within 0x30 0x39 (u8 b).

(** The value of a run of digits, from [v] on, as arithmetic has it. *)
Definition digits_from (v : Z) (ds : list byte) : Z :=
  fold_left (fun v d => v * 10 + (u8 d - 0x30)) ds v.

Definition param_value (ds : list byte) : Z := clamp (digits_from 0 ds).

(** [ESC \[] and parameters, each ended by [;] but the last, then [final]. *)
Definition semicolon : byte := x3b.
Definition csi_text (init : list (list byte)) (lst : list byte) (final : byte) : list byte :=
  [x1b; x5b] ++ concat ((fun ds => ds ++ [semicolon]) <$> init) ++ lst ++ [final].

Lemma digits_from_nonneg v ds :
  0 <= v -> Forall (fun b => is_digit b = true) ds -> 0 <= digits_from v ds.
Proof.
  intros Hv Hds. revert v Hv. induction Hds as [|d ds Hd _ IH]; intros v Hv; simpl; [done|].
  apply IH. unfold is_digit in Hd. ranges. lia.
Qed.

Lemma advance_csi p b :
  p_state p = State.Csi -> 0x20 <= u8 b -> advance p b = csi p b.
Proof.
  intros Hs Hb. unfold advance, advance_sequence, CAN, SUB, ESC. rewrite Hs.
  by repeat settle_test.
Qed.

Lemma run_digits p ds v :
  p_state p = State.Csi -> 0 <= v -> default 0 (p_digits p) = clamp v ->
  Forall (fun b => is_digit b = true) ds ->
  run p ds
  = (set_digits (match ds with [] => p_digits p | _ => Some (clamp (digits_from v ds)) end) p, []).
Proof.
  intros Hs Hv Hd Hds. revert p v Hs Hv Hd.
  induction Hds as [|d ds Hdig Hds IH]; intros p v Hs Hv Hd; [by destruct p|].
  unfold is_digit in Hdig. ranges. simpl. rewrite advance_csi by (done || lia).
  unfold csi. repeat settle_test. rewrite Hd, digit_clamped by lia.
  cbv beta iota zeta. rewrite (IH _ (v * 10 + (u8 d - 0x30))) by (done || lia). by destruct ds, p.
Qed.

Lemma run_param p ds :
  p_state p = State.Csi -> p_digits p = None ->
  Forall (fun b => is_digit b = true) ds ->
  run p (ds ++ [semicolon])
  = (set_params (if (length (p_params p) <? MAX_PARAMS)%nat
                 then p_params p ++ [param_value ds] else p_params p) p, []).
Proof.
  intros Hs Hd Hds. rewrite run_app, (run_digits p ds 0) by (done || by rewrite Hd).
  simpl. rewrite advance_csi by done. unfold csi, semicolon. simpl.
  destruct p as [st pa ne ma ps dg im dr]. simpl in *. subst.
  case_match; simpl; [|by destruct ds]. by destruct ds.
Qed.

Lemma run_params p init :
  p_state p = State.Csi -> p_digits p = None -> (length (p_params p) <= MAX_PARAMS)%nat ->
  Forall (Forall (fun b => is_digit b = true)) init ->
  run p (concat ((fun ds => ds ++ [semicolon]) <$> init))
  = (set_params (take MAX_PARAMS (p_params p ++ (param_value <$> init))) p, []).
Proof.
  intros Hs Hd Hlen Hinit. revert p Hs Hd Hlen.
  induction Hinit as [|ds init Hds Hinit IH]; intros p Hs Hd Hlen.
  { simpl. rewrite app_nil_r, take_ge by done. by destruct p. }
  rewrite fmap_cons. cbn [concat]. rewrite run_app, run_param by done.
  cbv beta iota zeta.
  destruct (length (p_params p) <? MAX_PARAMS)%nat eqn:E; ranges;
    rewrite IH; cbn [p_state p_digits p_params set_params fmap list_fmap]; try done.
  - by rewrite <- app_assoc.
  - rewrite length_app. simpl. lia.
  - by rewrite !take_app_le, !take_ge by lia.
Qed.

(** A CSI sequence is handed on with the values of its parameters, each
    clamped to [MAX_PARAM] however many digits it has: the first [MAX_PARAMS]
    of those a separator ends, and the last. *)
Theorem run_csi p init lst final :
  at_ground p ->
  Forall (Forall (fun b => is_digit b = true)) init ->
  Forall (fun b => is_digit b = true) lst ->
  within 0x40 0x7E (u8 final) = true ->
  ~ (init = [] /\ lst = []) ->
  exists p', run p (csi_text init lst final)
    = (p', [Action.Csi None (take MAX_PARAMS (param_value <$> init) ++ [param_value lst])
                       None final]) /\ at_ground p'.
Proof.
  intros [Hs Hp] Hinit Hlst Hf Hne. ranges. unfold csi_text. rewrite run_app.
  set (p1 := fst (run p [x1b; x5b])).
  assert (run p [x1b; x5b] = (p1, []) /\ p_state p1 = State.Csi /\ p_digits p1 = None /\
          p_params p1 = [] /\ p_marker p1 = None /\ p_intermediate p1 = None /\
          p_partial p1 = []) as (-> & Hs1 & Hd1 & Hps1 & Hm1 & Hi1 & Hp1).
  { subst p1. simpl. unfold advance. rewrite Hs. unfold ground. rewrite Hp. simpl.
    split_and!; auto. }
  clearbody p1. rewrite run_app, run_params by (rewrite ?Hps1; simpl; done || lia).
  rewrite Hps1. simpl. rewrite run_app, (run_digits _ lst 0) by (done || by simpl; rewrite Hd1).
  simpl. rewrite advance_csi by (done || lia). unfold csi. repeat settle_test. simpl.
  destruct p1 as [st pa ne ma ps dg im dr]. simpl in *. subst.
  destruct lst as [|d lst]; [|eexists; split; [done|by split]].
  destruct init as [|ds init]; [by destruct Hne|].
  eexists; split; [done|by split].
Qed.

(** ** Witnesses *)

Lemma string_given_up_witness :
  let p := set_state State.Str initial in
  let bytes := replicate (Z.to_nat 8193) "a"%byte in
  exists n, (n <= length bytes)%nat /\ p_state (fst (run p (take n bytes))) <> State.Str.
Proof.
  apply string_given_up; [|done|rewrite length_replicate; unfold MAX_STRING; lia].
  destruct initial_wf. split; try done.
Defined.

(** [ESC \[ 1 2 ; 7 m] *)
Lemma run_csi_witness :
  exists p', run initial (csi_text [["1"; "2"]%byte] ["7"%byte] "m"%byte)
    = (p', [Action.Csi None (take MAX_PARAMS (param_value <$> [["1"; "2"]%byte]) ++
                               [param_value ["7"%byte]]) None "m"%byte]) /\ at_ground p'.
Proof.
  apply run_csi; [by split|repeat constructor|repeat constructor|reflexivity|by intros []].
Defined.

Lemma can_resynchronises_witness :
  exists p' lost,
    run initial ([x1b; x5d] ++ can :: encode [0x68; 0x69])
    = (p', snd (run initial [x1b; x5d]) ++ lost ++ (Action.Print <$> [0x68; 0x69])) /\
    at_ground p' /\
    (lost = [] \/ lost = [Action.Print REPLACEMENT_CHARACTER]).
Proof. apply (can_resynchronises [x1b; x5d] [0x68; 0x69]). repeat constructor. Defined.
