(* ===== verification/Grid.v ===== *)
(** * The cells of a pane's screen: [cf-panes/src/screen/grid.rs] and its [edit.rs]

    Text goes where the cursor is, lines scroll, erasures blank cells, and the
    alternate screen parks the main one and gives it back. Every operation of
    the code that indexes, inserts into or drains a vector is in the option
    monad, [None] where it would panic; that none does is this file's first
    theorem. A [usize] is a [nat]: what is subtracted without a saturation is
    [checked_sub], and the sums are of a screen's place and a parameter's
    count, which the parser bounds ([Parser.action_ok]). *)
From S2P Require Import Prelude Utf8 Parser.
#[local] Open Scope nat_scope.

Definition MAX_ROWS : nat := 400.
Definition MAX_COLS : nat := 1000.
(** Where the tab stops are: every eighth column. *)
Definition TAB : nat := 8.

(** A cell that is the second half of the wide character before it. *)
Definition SECOND_HALF : char := 0%Z.
Definition SPACE : char := 0x20%Z.

(** [v.clamp(lo, hi)] of a [usize] *)
Definition usize_clamp (lo hi v : nat) : nat := lo `max` (v `min` hi).

(** [v[from..to].fill(x)] *)
Definition fill {A} (v : list A) (from to : nat) (x : A) : option (list A) :=
  if (from <=? to) && (to <=? length v)
  then Some (take from v ++ replicate (to - from) x ++ drop to v) else None.

Record row_t := Row {
  r_cells : list char;
  (** whether each cell was drawn styled *)
  r_styled : list bool;
  (** the text went on in the row below *)
  r_wrapped : bool
}.

Definition row_blank (cols : nat) : row_t :=
  Row (replicate cols SPACE) (replicate cols false) false.

Definition blank_cells (r : row_t) (from to : nat) : option row_t :=
  let to := to `min` length (r_cells r) in
  if from <? to then
    cells ← fill (r_cells r) from to SPACE;
    styled ← fill (r_styled r) from to false;
    Some (Row cells styled (r_wrapped r))
  else Some r.

Definition set_wrapped (w : bool) (r : row_t) : row_t := Row (r_cells r) (r_styled r) w.

(** [row.cells[i] = c; row.styled[i] = s;] *)
Definition row_put (r : row_t) (i : nat) (c : char) (s : bool) : option row_t :=
  cells ← vec_set (r_cells r) i c;
  styled ← vec_set (r_styled r) i s;
  Some (Row cells styled (r_wrapped r)).

Record saved_t := Saved { s_row : nat; s_col : nat; s_pending_wrap : bool }.

Record grid := Grid {
  g_rows : nat;
  g_cols : nat;
  g_cells : list row_t;
  g_parked : option (list row_t);
  g_row : nat;
  g_col : nat;
  g_pending_wrap : bool;
  g_saved : option saved_t;
  g_top : nat;
  g_bottom : nat;
  g_autowrap : bool;
  g_cursor_shown : bool;
  g_coloured : bool;
  g_faint : bool;
  g_last : option char
}.

Definition set_rows (x : nat) (g : grid) : grid :=
  Grid x (g_cols g) (g_cells g) (g_parked g) (g_row g) (g_col g) (g_pending_wrap g)
    (g_saved g) (g_top g) (g_bottom g) (g_autowrap g) (g_cursor_shown g) (g_coloured g)
    (g_faint g) (g_last g).
Definition set_cols (x : nat) (g : grid) : grid :=
  Grid (g_rows g) x (g_cells g) (g_parked g) (g_row g) (g_col g) (g_pending_wrap g)
    (g_saved g) (g_top g) (g_bottom g) (g_autowrap g) (g_cursor_shown g) (g_coloured g)
    (g_faint g) (g_last g).
Definition set_cells (x : list row_t) (g : grid) : grid :=
  Grid (g_rows g) (g_cols g) x (g_parked g) (g_row g) (g_col g) (g_pending_wrap g)
    (g_saved g) (g_top g) (g_bottom g) (g_autowrap g) (g_cursor_shown g) (g_coloured g)
    (g_faint g) (g_last g).
Definition set_parked (x : option (list row_t)) (g : grid) : grid :=
  Grid (g_rows g) (g_cols g) (g_cells g) x (g_row g) (g_col g) (g_pending_wrap g)
    (g_saved g) (g_top g) (g_bottom g) (g_autowrap g) (g_cursor_shown g) (g_coloured g)
    (g_faint g) (g_last g).
Definition set_row (x : nat) (g : grid) : grid :=
  Grid (g_rows g) (g_cols g) (g_cells g) (g_parked g) x (g_col g) (g_pending_wrap g)
    (g_saved g) (g_top g) (g_bottom g) (g_autowrap g) (g_cursor_shown g) (g_coloured g)
    (g_faint g) (g_last g).
Definition set_col (x : nat) (g : grid) : grid :=
  Grid (g_rows g) (g_cols g) (g_cells g) (g_parked g) (g_row g) x (g_pending_wrap g)
    (g_saved g) (g_top g) (g_bottom g) (g_autowrap g) (g_cursor_shown g) (g_coloured g)
    (g_faint g) (g_last g).
Definition set_pending_wrap (x : bool) (g : grid) : grid :=
  Grid (g_rows g) (g_cols g) (g_cells g) (g_parked g) (g_row g) (g_col g) x (g_saved g)
    (g_top g) (g_bottom g) (g_autowrap g) (g_cursor_shown g) (g_coloured g) (g_faint g)
    (g_last g).
Definition set_saved (x : option saved_t) (g : grid) : grid :=
  Grid (g_rows g) (g_cols g) (g_cells g) (g_parked g) (g_row g) (g_col g)
    (g_pending_wrap g) x (g_top g) (g_bottom g) (g_autowrap g) (g_cursor_shown g)
    (g_coloured g) (g_faint g) (g_last g).
Definition set_top (x : nat) (g : grid) : grid :=
  Grid (g_rows g) (g_cols g) (g_cells g) (g_parked g) (g_row g) (g_col g)
    (g_pending_wrap g) (g_saved g) x (g_bottom g) (g_autowrap g) (g_cursor_shown g)
    (g_coloured g) (g_faint g) (g_last g).
Definition set_bottom (x : nat) (g : grid) : grid :=
  Grid (g_rows g) (g_cols g) (g_cells g) (g_parked g) (g_row g) (g_col g)
    (g_pending_wrap g) (g_saved g) (g_top g) x (g_autowrap g) (g_cursor_shown g)
    (g_coloured g) (g_faint g) (g_last g).
Definition set_autowrap (x : bool) (g : grid) : grid :=
  Grid (g_rows g) (g_cols g) (g_cells g) (g_parked g) (g_row g) (g_col g)
    (g_pending_wrap g) (g_saved g) (g_top g) (g_bottom g) x (g_cursor_shown g)
    (g_coloured g) (g_faint g) (g_last g).
Definition set_cursor_shown (x : bool) (g : grid) : grid :=
  Grid (g_rows g) (g_cols g) (g_cells g) (g_parked g) (g_row g) (g_col g)
    (g_pending_wrap g) (g_saved g) (g_top g) (g_bottom g) (g_autowrap g) x
    (g_coloured g) (g_faint g) (g_last g).
Definition set_coloured (x : bool) (g : grid) : grid :=
  Grid (g_rows g) (g_cols g) (g_cells g) (g_parked g) (g_row g) (g_col g)
    (g_pending_wrap g) (g_saved g) (g_top g) (g_bottom g) (g_autowrap g)
    (g_cursor_shown g) x (g_faint g) (g_last g).
Definition set_faint (x : bool) (g : grid) : grid :=
  Grid (g_rows g) (g_cols g) (g_cells g) (g_parked g) (g_row g) (g_col g)
    (g_pending_wrap g) (g_saved g) (g_top g) (g_bottom g) (g_autowrap g)
    (g_cursor_shown g) (g_coloured g) x (g_last g).
Definition set_last (x : option char) (g : grid) : grid :=
  Grid (g_rows g) (g_cols g) (g_cells g) (g_parked g) (g_row g) (g_col g)
    (g_pending_wrap g) (g_saved g) (g_top g) (g_bottom g) (g_autowrap g)
    (g_cursor_shown g) (g_coloured g) (g_faint g) x.

(** [&mut self.cells\[i\]] changed by [f]. *)
Definition at_row (g : grid) (i : nat) (f : row_t -> option row_t) : option grid :=
  r ← g_cells g !! i;
  r' ← f r;
  cells ← vec_set (g_cells g) i r';
  Some (set_cells cells g).

(** A blank screen, its cursor at the top left, kept to the most the model keeps. *)
Definition new (rows cols : nat) : option grid :=
  let rows := usize_clamp 1 MAX_ROWS rows in
  let cols := usize_clamp 1 MAX_COLS cols in
  bottom ← checked_sub rows 1;
  Some (Grid rows cols (replicate rows (row_blank cols)) None 0 0 false None
          0 bottom true true false false None).

(** ** The cursor *)

Definition move_to (g : grid) (row col : nat) : option grid :=
  last_row ← checked_sub (g_rows g) 1;
  last_col ← checked_sub (g_cols g) 1;
  Some (set_pending_wrap false (set_col (col `min` last_col) (set_row (row `min` last_row) g))).

Definition up_limit (g : grid) : nat :=
  if g_top g <=? g_row g then g_top g else 0.

Definition down_limit (g : grid) : option nat :=
  if g_row g <=? g_bottom g then Some (g_bottom g) else checked_sub (g_rows g) 1.

Definition tab (g : grid) (times : nat) : option grid :=
  move_to g (g_row g)
    (Nat.iter (times `min` g_cols g) (fun col => (col / TAB + 1) * TAB) (g_col g)).

Definition back_tab (g : grid) (times : nat) : option grid :=
  move_to g (g_row g)
    (Nat.iter (times `min` g_cols g) (fun col => (col - 1) / TAB * TAB) (g_col g)).

Definition save_cursor (g : grid) : grid :=
  set_saved (Some (Saved (g_row g) (g_col g) (g_pending_wrap g))) g.

Definition restore_cursor (g : grid) : option grid :=
  let saved := default (Saved 0 0 false) (g_saved g) in
  g ← move_to g (s_row saved) (s_col saved);
  Some (set_pending_wrap (s_pending_wrap saved) g).

(** ** Scrolling *)

(** A blank row in at [into], the row at [out] gone: one line of a scroll. *)
Definition scroll_row (g : grid) (out into : nat) : option grid :=
  cells ← vec_remove (g_cells g) out;
  cells ← vec_insert cells into (row_blank (g_cols g));
  Some (set_cells cells g).

(** [for _ in 0..n { step }] *)
Fixpoint times {A} (n : nat) (step : A -> option A) (x : A) : option A :=
  match n with
  | 0 => Some x
  | S n' => x' ← step x; times n' step x'
  end.

Definition region_lines (g : grid) : option nat :=
  height ← checked_sub (g_bottom g) (g_top g);
  Some (height + 1).

Definition scroll_up (g : grid) (lines : nat) : option grid :=
  height ← region_lines g;
  times (lines `min` height) (fun g => scroll_row g (g_top g) (g_bottom g)) g.

Definition scroll_down (g : grid) (lines : nat) : option grid :=
  height ← region_lines g;
  times (lines `min` height) (fun g => scroll_row g (g_bottom g) (g_top g)) g.

Definition line_feed (g : grid) : option grid :=
  let g := set_pending_wrap false g in
  if g_row g =? g_bottom g then scroll_up g 1
  else if g_row g + 1 <? g_rows g then Some (set_row (g_row g + 1) g)
  else Some g.

Definition reverse_index (g : grid) : option grid :=
  let g := set_pending_wrap false g in
  if g_row g =? g_top g then scroll_down g 1
  else Some (set_row (g_row g - 1) g).

(** [params.get(at).copied().filter(|value| *value > 0)] *)
Definition positive_param (params : list Z) (at_ : nat) : option nat :=
  p ← params !! at_; if (0 <? p)%Z then Some (Z.to_nat p) else None.

(** A count, which a missing or zero parameter makes 1. *)
Definition count (params : list Z) (at_ : nat) : nat := default 1 (positive_param params at_).

Definition set_region (g : grid) (params : list Z) : option grid :=
  top ← checked_sub (count params 0) 1;
  bottom ← checked_sub (default (g_rows g) (positive_param params 1) `min` g_rows g) 1;
  let g := if top <? bottom then set_bottom bottom (set_top top g) else g in
  move_to g 0 0.

(** ** Text *)

(** How many cells a character takes. *)
Definition cell_width (c : char) : nat :=
  (if within 0x00 0x1F c || within 0x7F 0x9F c then 0%nat
   else if within 0x300 0x36F c || within 0x200B 0x200F c || within 0x2028 0x202E c ||
           within 0x2060 0x2064 c || within 0xFE00 0xFE0F c || (c =? 0xFEFF) then 0%nat
   else if within 0x1100 0x115F c || within 0x2E80 0x303E c || within 0x3041 0x33FF c ||
           within 0x3400 0x4DBF c || within 0x4E00 0x9FFF c || within 0xA000 0xA4CF c ||
           within 0xAC00 0xD7A3 c || within 0xF900 0xFAFF c || within 0xFE30 0xFE6F c ||
           within 0xFF00 0xFF60 c || within 0xFFE0 0xFFE6 c || within 0x1F300 0x1F64F c ||
           within 0x1F900 0x1F9FF c || within 0x20000 0x3FFFD c then 2%nat
   else 1%nat)%Z.

(** The text filled the row: it goes on in the one below. *)
Definition wrap (g : grid) : option grid :=
  g ← at_row g (g_row g) (fun r => Some (set_wrapped true r));
  g ← line_feed g;
  Some (set_pending_wrap false (set_col 0 g)).

(** The cell of a wide character that does not fit, left with no text in it;
    the style it had stays. *)
Definition leave_second_half (g : grid) : option grid :=
  at_row g (g_row g) (fun r =>
    cells ← vec_set (r_cells r) (g_col g) SECOND_HALF;
    Some (Row cells (r_styled r) (r_wrapped r))).

(** The character and its width put at the cursor, which moves on. *)
Definition put (g : grid) (c : char) (width : nat) : option grid :=
  let styled := g_coloured g || g_faint g in
  g ← at_row g (g_row g) (fun r =>
        r ← row_put r (g_col g) c styled;
        if width =? 2 then row_put r (g_col g + 1) SECOND_HALF styled else Some r);
  let g := set_last (Some c) g in
  if g_cols g <=? g_col g + width then
    last_col ← checked_sub (g_cols g) 1;
    Some (set_pending_wrap true (set_col last_col g))
  else Some (set_col (g_col g + width) g).

Definition print (g : grid) (c : char) : option grid :=
  let width := cell_width c in
  if width =? 0 then Some g else
  g ← (if g_pending_wrap g && g_autowrap g then wrap g else Some g);
  let g := set_pending_wrap false g in
  if (width =? 2) && (g_cols g <? g_col g + 2) then
    if g_autowrap g && (1 <? g_cols g) then
      g ← leave_second_half g;
      g ← wrap g;
      put g c width
    else put g c 1
  else put g c width.

Definition repeat_last (g : grid) (n : nat) : option grid :=
  match g_last g with
  | Some c => times (n `min` (g_rows g * g_cols g)) (fun g => print g c) g
  | None => Some g
  end.

(** ** Modes, the alternate screen and the pen *)

Definition alternate (g : grid) (on : bool) : grid :=
  match on, g_parked g with
  | true, None =>
      set_cells (replicate (g_rows g) (row_blank (g_cols g))) (set_parked (Some (g_cells g)) g)
  | false, Some main => set_cells main (set_parked None g)
  | _, _ => g
  end.

Definition set_mode (on : bool) (g : grid) (mode : Z) : option grid :=
  if (mode =? 7)%Z then Some (set_autowrap on g)
  else if (mode =? 25)%Z then Some (set_cursor_shown on g)
  else if ((mode =? 47) || (mode =? 1047))%Z then Some (alternate g on)
  else if (mode =? 1049)%Z then
    let g := if on then save_cursor g else g in
    let g := alternate g on in
    if on then Some g else restore_cursor g
  else Some g.

Fixpoint set_modes (g : grid) (params : list Z) (on : bool) : option grid :=
  match params with
  | [] => Some g
  | mode :: params' => g ← set_mode on g mode; set_modes g params' on
  end.

(** [CSI m]: what is left of the parameters, and the pen so far (coloured,
    faint). Each turn takes one parameter at least. *)
Fixpoint pen_loop (fuel : nat) (params : list Z) (pen : bool * bool) : bool * bool :=
  match fuel, params with
  | S fuel', param :: rest =>
      let '(coloured, faint) := pen in
      if (param =? 0)%Z then pen_loop fuel' rest (false, false)
      else if (param =? 2)%Z then pen_loop fuel' rest (coloured, true)
      else if (param =? 22)%Z then pen_loop fuel' rest (coloured, false)
      else if within 30 37 param || within 90 97 param then pen_loop fuel' rest (true, faint)
      else if (param =? 39)%Z then pen_loop fuel' rest (false, faint)
      else if ((param =? 38) || (param =? 48))%Z then
        let coloured := coloured || (param =? 38)%Z in
        let skipped := match rest with
                       | n :: _ => if (n =? 5)%Z then 2 else if (n =? 2)%Z then 4 else 0
                       | [] => 0
                       end in
        pen_loop fuel' (drop skipped rest) (coloured, faint)
      else pen_loop fuel' rest (coloured, faint)
  | _, _ => pen
  end.

Definition pen (g : grid) (params : list Z) : grid :=
  let start := match params with
               | [] => (false, false)
               | _ => (g_coloured g, g_faint g)
               end in
  let '(coloured, faint) := pen_loop (length params) params start in
  set_faint faint (set_coloured coloured g).

(** ** Edits: [grid/edit.rs] *)

Definition in_region (g : grid) : bool :=
  (g_top g <=? g_row g) && (g_row g <=? g_bottom g).

(** [CSI L] *)
Definition insert_lines (g : grid) (lines : nat) : option grid :=
  if in_region g then
    below ← checked_sub (g_bottom g) (g_row g);
    g ← times (lines `min` (below + 1)) (fun g => scroll_row g (g_bottom g) (g_row g)) g;
    move_to g (g_row g) 0
  else Some g.

(** [CSI M] *)
Definition delete_lines (g : grid) (lines : nat) : option grid :=
  if in_region g then
    below ← checked_sub (g_bottom g) (g_row g);
    g ← times (lines `min` (below + 1)) (fun g => scroll_row g (g_row g) (g_bottom g)) g;
    move_to g (g_row g) 0
  else Some g.

(** [CSI @] *)
Definition insert_char (col : nat) (r : row_t) : option row_t :=
  cells ← vec_insert (r_cells r) col SPACE;
  styled ← vec_insert (r_styled r) col false;
  Some (Row (vec_pop cells) (vec_pop styled) (r_wrapped r)).

Definition insert_chars (g : grid) (count : nat) : option grid :=
  room ← checked_sub (g_cols g) (g_col g);
  at_row g (g_row g) (times (count `min` room) (insert_char (g_col g))).

(** [CSI P] *)
Definition delete_chars (g : grid) (count : nat) : option grid :=
  room ← checked_sub (g_cols g) (g_col g);
  let count := count `min` room in
  at_row g (g_row g) (fun r =>
    cells ← vec_drain (r_cells r) (g_col g) (g_col g + count);
    styled ← vec_drain (r_styled r) (g_col g) (g_col g + count);
    Some (Row (cells ++ replicate count SPACE) (styled ++ replicate count false)
            (r_wrapped r))).

(** [CSI X] *)
Definition erase_chars (g : grid) (count : nat) : option grid :=
  at_row g (g_row g) (fun r => blank_cells r (g_col g) (g_col g + count)).

(** [CSI K] *)
Definition erase_line (g : grid) (mode : Z) : option grid :=
  at_row g (g_row g) (fun r =>
    if (mode =? 0)%Z then set_wrapped false <$> blank_cells r (g_col g) (g_cols g)
    else if (mode =? 1)%Z then blank_cells r 0 (g_col g + 1)
    else if (mode =? 2)%Z then set_wrapped false <$> blank_cells r 0 (g_cols g)
    else Some r).

Definition clear_row (cols : nat) (r : row_t) : option row_t :=
  set_wrapped false <$> blank_cells r 0 cols.

(** [CSI J] *)
Definition erase_display (g : grid) (mode : Z) : option grid :=
  if (mode =? 0)%Z then
    g' ← erase_line g 0;
    below ← slice_from (g_cells g') (g_row g + 1);
    below ← mapM (clear_row (g_cols g)) below;
    Some (set_cells (take (g_row g + 1) (g_cells g') ++ below) g')
  else if (mode =? 1)%Z then
    above ← slice (g_cells g) 0 (g_row g);
    above ← mapM (clear_row (g_cols g)) above;
    erase_line (set_cells (above ++ drop (g_row g) (g_cells g)) g) 1
  else if (mode =? 2)%Z then
    cells ← mapM (clear_row (g_cols g)) (g_cells g);
    Some (set_cells cells g)
  else Some g.

(** ** What a run of bytes said, done to the screen *)

Definition control (g : grid) (b : byte) : option grid :=
  let v := u8 b in
  if (v =? 0x08)%Z then move_to g (g_row g) (g_col g - 1)
  else if (v =? 0x09)%Z then tab g 1
  else if within 0x0A 0x0C v then line_feed g
  else if (v =? 0x0D)%Z then move_to g (g_row g) 0
  else Some g.

Definition escape (g : grid) (last : byte) : option grid :=
  if Byte.eqb last "7" then Some (save_cursor g)
  else if Byte.eqb last "8" then restore_cursor g
  else if Byte.eqb last "D" then line_feed g
  else if Byte.eqb last "E" then g ← move_to g (g_row g) 0; line_feed g
  else if Byte.eqb last "M" then reverse_index g
  else if Byte.eqb last "c" then new (g_rows g) (g_cols g)
  else Some g.

Definition csi_move (g : grid) (params : list Z) (last : byte) : option (option grid) :=
  let n := count params in
  let up := (g_row g - n 0) `max` up_limit g in
  if Byte.eqb last "A" then Some (move_to g up (g_col g))
  else if Byte.eqb last "B" || Byte.eqb last "e" then
    Some (limit ← down_limit g; move_to g ((g_row g + n 0) `min` limit) (g_col g))
  else if Byte.eqb last "C" || Byte.eqb last "a" then
    Some (move_to g (g_row g) (g_col g + n 0))
  else if Byte.eqb last "D" then Some (move_to g (g_row g) (g_col g - n 0))
  else if Byte.eqb last "E" then
    Some (limit ← down_limit g; move_to g ((g_row g + n 0) `min` limit) 0)
  else if Byte.eqb last "F" then Some (move_to g up 0)
  else if Byte.eqb last "G" || Byte.eqb last "`" then
    Some (col ← checked_sub (n 0) 1; move_to g (g_row g) col)
  else if Byte.eqb last "d" then
    Some (row ← checked_sub (n 0) 1; move_to g row (g_col g))
  else if Byte.eqb last "H" || Byte.eqb last "f" then
    Some (row ← checked_sub (n 0) 1; col ← checked_sub (n 1) 1; move_to g row col)
  else if Byte.eqb last "I" then Some (tab g (n 0))
  else if Byte.eqb last "Z" then Some (back_tab g (n 0))
  else None.

Definition csi_edit (g : grid) (params : list Z) (last : byte) : option grid :=
  let n := count params in
  let first := default 0%Z (params !! 0) in
  if Byte.eqb last "J" then erase_display g first
  else if Byte.eqb last "K" then erase_line g first
  else if Byte.eqb last "L" then insert_lines g (n 0)
  else if Byte.eqb last "M" then delete_lines g (n 0)
  else if Byte.eqb last "@" then insert_chars g (n 0)
  else if Byte.eqb last "P" then delete_chars g (n 0)
  else if Byte.eqb last "X" then erase_chars g (n 0)
  else if Byte.eqb last "S" then scroll_up g (n 0)
  else if Byte.eqb last "T" then scroll_down g (n 0)
  else if Byte.eqb last "b" then repeat_last g (n 0)
  else if Byte.eqb last "r" then set_region g params
  else if Byte.eqb last "s" then
    match params with [] => Some (save_cursor g) | _ => Some g end
  else if Byte.eqb last "u" then restore_cursor g
  else if Byte.eqb last "m" then Some (pen g params)
  else Some g.

Definition csi (g : grid) (marker : option byte) (params : list Z) (last : byte) : option grid :=
  match marker with
  | Some m =>
      if Byte.eqb m "?" then
        if Byte.eqb last "h" then set_modes g params true
        else if Byte.eqb last "l" then set_modes g params false
        else Some g
      else Some g
  | None =>
      match csi_move g params last with
      | Some moved => moved
      | None => csi_edit g params last
      end
  end.

Definition perform (g : grid) (a : Action.t) : option grid :=
  match a with
  | Action.Print c => print g c
  | Action.Control b => control g b
  | Action.Escape None last => escape g last
  | Action.Escape (Some _) _ => Some g
  | Action.Csi marker params None last => csi g marker params last
  | Action.Csi _ _ (Some _) _ => Some g
  end.

(** ** Another size *)

(** [vec.resize(len, x)] is stdpp's [resize]. *)
Definition resize_row (cols : nat) (r : row_t) : row_t :=
  Row (resize cols SPACE (r_cells r)) (resize cols false (r_styled r)) (r_wrapped r).

Definition resize_screen (rows cols : nat) (screen : list row_t) : list row_t :=
  resize_row cols <$> resize rows (row_blank cols) screen.

Definition resize_grid (g : grid) (rows cols : nat) : option grid :=
  let rows := usize_clamp 1 MAX_ROWS rows in
  let cols := usize_clamp 1 MAX_COLS cols in
  (* a cursor below the new last row takes the top rows with it *)
  let dropped := g_row g + 1 - rows in
  cells ← vec_drain (g_cells g) 0 (dropped `min` length (g_cells g));
  let row := g_row g - dropped `min` g_row g in
  bottom ← checked_sub rows 1;
  last_col ← checked_sub cols 1;
  Some (Grid rows cols (resize_screen rows cols cells)
          (resize_screen rows cols <$> g_parked g)
          (row `min` bottom) (g_col g `min` last_col) (g_pending_wrap g) (g_saved g)
          0 bottom (g_autowrap g) (g_cursor_shown g) (g_coloured g) (g_faint g) (g_last g)).

(** ** What is read of the screen *)

(** The characters of a row: the second half of a wide one is none. *)
Definition shown_cells (cells : list char) : list char :=
  List.filter (fun c => negb (c =? SECOND_HALF)%Z) cells.

(** The screen's lines, from [line], the text of the wrapped rows before. *)
Fixpoint lines_from (line : list char) (rows : list row_t) : list (list char) :=
  match rows with
  | [] => match line with [] => [] | _ => [trim_end line] end
  | r :: rows' =>
      let line := line ++ shown_cells (r_cells r) in
      if r_wrapped r then lines_from line rows' else trim_end line :: lines_from [] rows'
  end.

Definition lines (g : grid) : list (list char) := lines_from [] (g_cells g).

(** The characters drawn plain from column [from] of the first row to the end
    of its line. *)
Definition plain_cell (x : char * bool) : bool :=
  negb (snd x) && negb (fst x =? SPACE)%Z && negb (fst x =? SECOND_HALF)%Z.

Fixpoint plain_from (from : nat) (rows : list row_t) : nat :=
  match rows with
  | [] => 0
  | r :: rows' =>
      length (List.filter plain_cell
                (zip (drop from (r_cells r)) (drop from (r_styled r))))
      + (if r_wrapped r then plain_from 0 rows' else 0)
  end.

(** Where the cursor is in [lines]: the line, the characters before it, whether
    it is shown, the characters drawn plain after it. *)
Fixpoint cursor_from (g : grid) (at_ line before : nat) (rows : list row_t)
    : nat * nat * bool * nat :=
  match rows with
  | [] => (line, before, g_cursor_shown g, 0)
  | r :: rows' =>
      let cells to := length (shown_cells (take to (r_cells r))) in
      if at_ =? g_row g then
        (line, before + cells (g_col g), g_cursor_shown g, plain_from (g_col g) rows)
      else if r_wrapped r then
        cursor_from g (at_ + 1) line (before + cells (length (r_cells r))) rows'
      else cursor_from g (at_ + 1) (line + 1) 0 rows'
  end.

Definition cursor (g : grid) : nat * nat * bool * nat := cursor_from g 0 0 0 (g_cells g).

(** What the digest of the screen is taken of: its size, and each cell's
    character and whether it was drawn styled. *)
Definition shown (g : grid) : nat * nat * list (list char * list bool) :=
  (g_rows g, g_cols g, (fun r => (r_cells r, r_styled r)) <$> g_cells g).

(** ** The invariant *)

Definition row_wf (cols : nat) (r : row_t) : Prop :=
  length (r_cells r) = cols /\ length (r_styled r) = cols.

Definition screen_wf (rows cols : nat) (screen : list row_t) : Prop :=
  length screen = rows /\ Forall (row_wf cols) screen.

Record wf (g : grid) : Prop := {
  wf_rows : 1 <= g_rows g <= MAX_ROWS;
  wf_cols : 1 <= g_cols g <= MAX_COLS;
  wf_cells : screen_wf (g_rows g) (g_cols g) (g_cells g);
  wf_parked : forall main, g_parked g = Some main -> screen_wf (g_rows g) (g_cols g) main;
  wf_row : g_row g < g_rows g;
  wf_col : g_col g < g_cols g;
  wf_region : g_top g <= g_bottom g < g_rows g
}.

(** A step from [g] that does not panic, and keeps the invariant and the size. *)
Definition keeps (g : grid) (o : option grid) : Prop :=
  exists g', o = Some g' /\ wf g' /\ g_rows g' = g_rows g /\ g_cols g' = g_cols g.

Lemma keeps_bind g o k :
  keeps g o ->
  (forall g', wf g' -> g_rows g' = g_rows g -> g_cols g' = g_cols g -> keeps g' (k g')) ->
  keeps g (o ≫= k).
Proof.
  intros (g1 & -> & Hwf & Hr & Hc) Hk.
  destruct (Hk g1 Hwf Hr Hc) as (g2 & E & ? & ? & ?). simpl.
  exists g2. split_and!; congruence || done.
Qed.

Lemma keeps_Some g g' :
  wf g' -> g_rows g' = g_rows g -> g_cols g' = g_cols g -> keeps g (Some g').
Proof. intros. by exists g'. Qed.

(** The size is all that the [g] of [keeps] says. *)
Lemma keeps_size g1 g2 o :
  g_rows g1 = g_rows g2 -> g_cols g1 = g_cols g2 -> keeps g1 o -> keeps g2 o.
Proof. intros Hr Hc (g' & ? & ? & ? & ?). exists g'. split_and!; congruence || done. Qed.

Lemma keeps_same g : wf g -> keeps g (Some g).
Proof. intros. by apply keeps_Some. Qed.

Lemma keeps_times g n step :
  wf g ->
  (forall g', wf g' -> keeps g' (step g')) -> keeps g (times n step g).
Proof.
  intros Hwf Hstep. revert g Hwf. induction n as [|n IH]; intros g Hwf; simpl;
    [by apply keeps_same|].
  apply keeps_bind; auto.
Qed.

Lemma wf_set_pending_wrap x g : wf g -> wf (set_pending_wrap x g).
Proof. by intros []. Qed.
Lemma wf_set_saved x g : wf g -> wf (set_saved x g).
Proof. by intros []. Qed.
Lemma wf_set_autowrap x g : wf g -> wf (set_autowrap x g).
Proof. by intros []. Qed.
Lemma wf_set_cursor_shown x g : wf g -> wf (set_cursor_shown x g).
Proof. by intros []. Qed.
Lemma wf_set_last x g : wf g -> wf (set_last x g).
Proof. by intros []. Qed.
Lemma wf_set_pen c f g : wf g -> wf (set_faint f (set_coloured c g)).
Proof. by intros []. Qed.
Lemma wf_set_row x g : wf g -> x < g_rows g -> wf (set_row x g).
Proof. by intros [] ?. Qed.
Lemma wf_set_col x g : wf g -> x < g_cols g -> wf (set_col x g).
Proof. by intros [] ?. Qed.
Lemma wf_set_cells x g : wf g -> screen_wf (g_rows g) (g_cols g) x -> wf (set_cells x g).
Proof. by intros [] ?. Qed.
Lemma wf_set_region top bottom g :
  wf g -> top <= bottom < g_rows g -> wf (set_bottom bottom (set_top top g)).
Proof. by intros [] ?. Qed.

#[local] Hint Resolve wf_set_pending_wrap wf_set_saved wf_set_autowrap
  wf_set_cursor_shown wf_set_last wf_set_pen wf_set_row wf_set_col
  wf_set_cells wf_set_region keeps_Some keeps_same : cf.

Lemma row_blank_wf cols : row_wf cols (row_blank cols).
Proof. split; apply length_replicate. Qed.

Lemma screen_blank_wf rows cols : screen_wf rows cols (replicate rows (row_blank cols)).
Proof. split; [apply length_replicate|]. apply Forall_replicate, row_blank_wf. Qed.

Lemma usize_clamp_range lo hi v : lo <= hi -> lo <= usize_clamp lo hi v <= hi.
Proof. unfold usize_clamp. lia. Qed.

Lemma new_wf rows cols :
  exists g, new rows cols = Some g /\ wf g /\
    g_rows g = usize_clamp 1 MAX_ROWS rows /\ g_cols g = usize_clamp 1 MAX_COLS cols.
Proof.
  pose proof (usize_clamp_range 1 MAX_ROWS rows ltac:(unfold MAX_ROWS; lia)).
  pose proof (usize_clamp_range 1 MAX_COLS cols ltac:(unfold MAX_COLS; lia)).
  unfold new. rewrite checked_sub_Some by lia. simpl. eexists. split; [done|].
  split; [|done]. split; simpl; auto using screen_blank_wf; lia || done.
Qed.

Lemma at_row_keeps g i f :
  wf g -> i < g_rows g ->
  (forall r, row_wf (g_cols g) r -> exists r', f r = Some r' /\ row_wf (g_cols g) r') ->
  keeps g (at_row g i f).
Proof.
  intros Hwf Hi Hf. destruct (wf_cells g Hwf) as [Hlen Hrows]. unfold at_row.
  destruct (lookup_lt_is_Some_2 (g_cells g) i) as [r Hr]; [lia|]. rewrite Hr. simpl.
  destruct (Hf r) as (r' & -> & Hr'); [by eapply Forall_lookup_1|]. simpl.
  rewrite vec_set_Some by lia. simpl. apply keeps_Some; [|done..].
  apply wf_set_cells; [done|]. split; [by rewrite length_insert|].
  by apply Forall_insert.
Qed.

Lemma move_to_keeps g row col : wf g -> keeps g (move_to g row col).
Proof.
  intros Hwf. destruct (wf_rows g Hwf), (wf_cols g Hwf). unfold move_to.
  rewrite !checked_sub_Some by lia. simpl. apply keeps_Some; [|done..].
  destruct Hwf. split; simpl; auto; lia.
Qed.

#[local] Hint Resolve move_to_keeps : cf.

Lemma restore_cursor_keeps g : wf g -> keeps g (restore_cursor g).
Proof. intros Hwf. apply keeps_bind; auto with cf. Qed.

Lemma scroll_row_keeps g out into :
  wf g -> out < g_rows g -> into < g_rows g -> keeps g (scroll_row g out into).
Proof.
  intros Hwf Ho Hi. destruct (wf_cells g Hwf) as [Hlen Hrows]. unfold scroll_row.
  rewrite vec_remove_Some by lia. simpl.
  assert (length (delete out (g_cells g)) = g_rows g - 1) as Hd
    by (rewrite length_delete; [lia|apply lookup_lt_is_Some_2; lia]).
  rewrite vec_insert_Some by lia. simpl. apply keeps_Some; [|done..].
  apply wf_set_cells; [done|]. split.
  - rewrite length_app, length_take. simpl. rewrite length_drop. lia.
  - apply (Forall_delete _ _ out) in Hrows.
    apply Forall_app_2; [by apply Forall_take|].
    constructor; [apply row_blank_wf|by apply Forall_drop].
Qed.

Lemma scroll_up_keeps g n : wf g -> keeps g (scroll_up g n).
Proof.
  intros Hwf. unfold scroll_up, region_lines. destruct (wf_region g Hwf).
  rewrite checked_sub_Some by lia. simpl. apply keeps_times; [done|].
  intros g' Hwf'. destruct (wf_region g' Hwf'). apply scroll_row_keeps; auto; lia.
Qed.

Lemma scroll_down_keeps g n : wf g -> keeps g (scroll_down g n).
Proof.
  intros Hwf. unfold scroll_down, region_lines. destruct (wf_region g Hwf).
  rewrite checked_sub_Some by lia. simpl. apply keeps_times; [done|].
  intros g' Hwf'. destruct (wf_region g' Hwf'). apply scroll_row_keeps; auto; lia.
Qed.

#[local] Hint Resolve restore_cursor_keeps scroll_up_keeps scroll_down_keeps : cf.

Lemma line_feed_keeps g : wf g -> keeps g (line_feed g).
Proof.
  intros Hwf. unfold line_feed. simpl. apply (keeps_size (set_pending_wrap false g)); [done..|].
  repeat case_match; ranges; auto 6 with cf.
Qed.

Lemma reverse_index_keeps g : wf g -> keeps g (reverse_index g).
Proof.
  intros Hwf. unfold reverse_index. simpl. apply (keeps_size (set_pending_wrap false g)); [done..|].
  pose proof (wf_row g Hwf).
  case_match; ranges; auto with cf. apply keeps_Some; [|done..].
  apply wf_set_row; auto with cf. simpl. lia.
Qed.

Lemma positive_param_pos params at_ n : positive_param params at_ = Some n -> 1 <= n.
Proof.
  unfold positive_param. destruct (params !! at_) as [p|]; simpl; [|done].
  case_match; ranges; [intros [= <-]; lia|done].
Qed.

Lemma count_pos params at_ : 1 <= count params at_.
Proof.
  unfold count. destruct (positive_param params at_) eqn:E; simpl; [|lia].
  by apply positive_param_pos in E.
Qed.

Lemma set_region_keeps g params : wf g -> keeps g (set_region g params).
Proof.
  intros Hwf. unfold set_region. destruct (wf_rows g Hwf) as [Hr _].
  assert (1 <= default (g_rows g) (positive_param params 1)) as Hg1
    by (destruct (positive_param params 1) eqn:E; simpl; [by apply positive_param_pos in E|lia]).
  pose proof (count_pos params 0). rewrite !checked_sub_Some by lia. simpl.
  case_match eqn:E; ranges; [|by auto with cf].
  eapply keeps_size; [| |apply move_to_keeps, wf_set_region; [done|lia]]; done.
Qed.

#[local] Hint Resolve line_feed_keeps reverse_index_keeps set_region_keeps : cf.

(** *** Text *)

Lemma row_put_wf cols r i c s :
  row_wf cols r -> i < cols -> exists r', row_put r i c s = Some r' /\ row_wf cols r'.
Proof.
  intros [Hc Hs] Hi. unfold row_put. rewrite !vec_set_Some by lia. simpl.
  eexists. split; [done|]. split; simpl; by rewrite length_insert.
Qed.

Lemma wrap_keeps g : wf g -> keeps g (wrap g).
Proof.
  intros Hwf. unfold wrap. apply keeps_bind.
  { apply at_row_keeps; [done|apply (wf_row g Hwf)|]. intros r Hr. by eexists. }
  intros g1 Hwf1 Hr1 Hc1. apply keeps_bind.
  { apply (keeps_size g1); auto with cf. }
  intros g2 Hwf2 Hr2 Hc2. destruct (wf_cols g2 Hwf2).
  apply keeps_Some; [|done..]. apply wf_set_pending_wrap, wf_set_col; [done|lia].
Qed.

Lemma leave_second_half_keeps g : wf g -> keeps g (leave_second_half g).
Proof.
  intros Hwf. apply at_row_keeps; [done|apply (wf_row g Hwf)|].
  intros r [Hc Hs]. pose proof (wf_col g Hwf). rewrite vec_set_Some by lia. simpl.
  eexists. split; [done|]. split; simpl; by rewrite ?length_insert.
Qed.

Lemma put_keeps g c width :
  wf g -> (width = 2 -> g_col g + 2 <= g_cols g) -> keeps g (put g c width).
Proof.
  intros Hwf Hfit. pose proof (wf_col g Hwf). unfold put. apply keeps_bind.
  - apply at_row_keeps; [done|apply (wf_row g Hwf)|]. intros r Hr.
    destruct (row_put_wf _ r (g_col g) c (g_coloured g || g_faint g) Hr) as (r1 & -> & Hr1);
      [done|]. simpl.
    case_match; ranges; [|by eexists]. apply row_put_wf; [done|lia].
  - intros g1 Hwf1 Hr1 Hc1. cbv zeta. simpl. case_match eqn:E; ranges.
    + destruct (wf_cols g1 Hwf1). rewrite checked_sub_Some by lia. simpl.
      apply keeps_Some; [|done..].
      apply wf_set_pending_wrap, wf_set_col; [by auto with cf|simpl; lia].
    + apply keeps_Some; [|done..]. apply wf_set_col; [by auto with cf|simpl; lia].
Qed.

Lemma print_keeps g c : wf g -> keeps g (print g c).
Proof.
  intros Hwf. unfold print. case_match; [by auto with cf|]. apply keeps_bind.
  { case_match; auto using wrap_keeps with cf. }
  intros g1 Hwf1 Hr1 Hc1. cbv zeta. simpl.
  apply (keeps_size (set_pending_wrap false g1)); [done..|].
  assert (wf (set_pending_wrap false g1)) as Hwf1' by auto with cf.
  case_match eqn:E1; [case_match eqn:E2|].
  - ranges. apply keeps_bind; [by apply leave_second_half_keeps|].
    intros g2 Hwf2 Hr2 Hc2. destruct (wrap_keeps g2 Hwf2) as (g3 & E & Hwf3 & Hr3 & Hc3).
    rewrite E. simpl. apply (keeps_size g3); [congruence..|].
    apply put_keeps; [done|]. intros _.
    assert (g_col g3 = 0) as ->; [|simpl in *; lia].
    revert E. unfold wrap. destruct (at_row g2 _ _); simpl; [|done].
    destruct (line_feed _); simpl; [|done]. by intros [= <-].
  - apply put_keeps; [done|]. done.
  - apply put_keeps; [done|]. intros Hw. rewrite Hw in E1. simpl in E1. ranges. simpl. lia.
Qed.

Lemma repeat_last_keeps g n : wf g -> keeps g (repeat_last g n).
Proof.
  intros Hwf. unfold repeat_last. case_match; auto using keeps_times, print_keeps with cf.
Qed.

(** *** Modes *)

Lemma alternate_wf g on :
  wf g -> wf (alternate g on) /\
  g_rows (alternate g on) = g_rows g /\ g_cols (alternate g on) = g_cols g.
Proof.
  intros Hwf. unfold alternate. destruct on, (g_parked g) as [main|] eqn:E;
    (split; [|by split]); try done.
  - destruct Hwf. split; simpl; auto using screen_blank_wf. by intros ? [= <-].
  - pose proof (wf_parked g Hwf main E). destruct Hwf. split; simpl; auto. done.
Qed.

Lemma set_mode_keeps g on mode : wf g -> keeps g (set_mode on g mode).
Proof.
  intros Hwf. unfold set_mode.
  repeat (case_match; auto with cf).
  - destruct (alternate_wf g on Hwf) as (? & ? & ?). by apply keeps_Some.
  - destruct (alternate_wf (save_cursor g) true) as (? & ? & ?); [by apply wf_set_saved|].
    by apply keeps_Some.
  - destruct (alternate_wf g false Hwf) as (? & ? & ?).
    apply (keeps_size (alternate g false)); auto with cf.
Qed.

Lemma set_modes_keeps g params on : wf g -> keeps g (set_modes g params on).
Proof.
  revert g. induction params as [|mode params IH]; intros g Hwf; simpl; [by auto with cf|].
  apply keeps_bind; [by apply set_mode_keeps|]. intros g' Hwf' Hr Hc.
  by apply (keeps_size g'); auto.
Qed.

Lemma pen_keeps g params : wf g -> keeps g (Some (pen g params)).
Proof.
  intros Hwf. unfold pen. destruct (pen_loop _ _ _). apply keeps_Some; auto with cf.
Qed.

#[local] Hint Resolve wrap_keeps print_keeps repeat_last_keeps set_modes_keeps pen_keeps : cf.

(** *** Edits *)

Lemma fill_Some {A} (v : list A) from to x :
  from <= to <= length v -> exists v', fill v from to x = Some v' /\ length v' = length v.
Proof.
  intros H. unfold fill. repeat settle_test. simpl. eexists. split; [done|].
  rewrite !length_app, length_take, length_replicate, length_drop. lia.
Qed.

Lemma blank_cells_wf cols r from to :
  row_wf cols r -> exists r', blank_cells r from to = Some r' /\ row_wf cols r'.
Proof.
  intros [Hc Hs]. unfold blank_cells. case_match eqn:E; ranges; [|by exists r].
  destruct (fill_Some (r_cells r) from (to `min` length (r_cells r)) SPACE) as (c & -> & Hlc);
    [lia|]. simpl.
  destruct (fill_Some (r_styled r) from (to `min` length (r_cells r)) false) as (t & -> & Hls);
    [lia|]. simpl.
  eexists. split; [done|]. split; simpl; congruence.
Qed.

Lemma set_wrapped_wf cols w r : row_wf cols r -> row_wf cols (set_wrapped w r).
Proof. done. Qed.

Lemma clear_row_wf cols n r :
  row_wf cols r -> exists r', clear_row n r = Some r' /\ row_wf cols r'.
Proof.
  intros Hr. unfold clear_row. destruct (blank_cells_wf cols r 0 n Hr) as (r' & -> & ?).
  by eexists.
Qed.

Lemma clear_rows_wf cols n rows :
  Forall (row_wf cols) rows ->
  exists rows', mapM (clear_row n) rows = Some rows' /\
    Forall (row_wf cols) rows' /\ length rows' = length rows.
Proof.
  induction 1 as [|r rows Hr _ IH]; simpl; [by exists []|].
  destruct (clear_row_wf cols n r Hr) as (r' & -> & Hr').
  destruct IH as (rows' & -> & Hrows & Hlen). simpl.
  exists (r' :: rows'). split_and!; simpl; auto.
Qed.

Lemma vec_insert_pop {A} (v : list A) i x :
  i < length v -> exists v', vec_insert v i x = Some v' /\ length (vec_pop v') = length v.
Proof.
  intros Hi. rewrite vec_insert_Some by lia. eexists. split; [done|].
  unfold vec_pop. rewrite length_take, !length_app, length_take. simpl. rewrite length_drop. lia.
Qed.

Lemma insert_char_wf cols col r :
  row_wf cols r -> col < cols -> exists r', insert_char col r = Some r' /\ row_wf cols r'.
Proof.
  intros [Hc Hs] Hcol. unfold insert_char.
  destruct (vec_insert_pop (r_cells r) col SPACE) as (c & -> & ?); [lia|]. simpl.
  destruct (vec_insert_pop (r_styled r) col false) as (t & -> & ?); [lia|]. simpl.
  eexists. split; [done|]. split; simpl; congruence.
Qed.

Lemma insert_chars_keeps g n : wf g -> keeps g (insert_chars g n).
Proof.
  intros Hwf. unfold insert_chars. pose proof (wf_col g Hwf).
  rewrite checked_sub_Some by lia. simpl.
  apply at_row_keeps; [done|apply (wf_row g Hwf)|].
  generalize (n `min` (g_cols g - g_col g)). clear n.
  intros n. induction n as [|n IH]; intros r Hr; simpl; [by eexists|].
  destruct (insert_char_wf _ (g_col g) r Hr) as (r' & -> & Hr'); [done|]. simpl. auto.
Qed.

Lemma delete_chars_keeps g n : wf g -> keeps g (delete_chars g n).
Proof.
  intros Hwf. unfold delete_chars. pose proof (wf_col g Hwf).
  rewrite checked_sub_Some by lia. simpl.
  apply at_row_keeps; [done|apply (wf_row g Hwf)|]. intros r [Hc Hs].
  rewrite !vec_drain_Some by lia. simpl. eexists. split; [done|].
  split; simpl; rewrite !length_app, length_take, length_drop, length_replicate; lia.
Qed.

Lemma erase_line_keeps g mode : wf g -> keeps g (erase_line g mode).
Proof.
  intros Hwf. unfold erase_line. apply at_row_keeps; [done|apply (wf_row g Hwf)|].
  intros r Hr. repeat case_match; try (by eexists).
  - destruct (blank_cells_wf _ r (g_col g) (g_cols g) Hr) as (r' & -> & ?). by eexists.
  - by apply blank_cells_wf.
  - destruct (blank_cells_wf _ r 0 (g_cols g) Hr) as (r' & -> & ?). by eexists.
Qed.

Lemma erase_display_keeps g mode : wf g -> keeps g (erase_display g mode).
Proof.
  intros Hwf. unfold erase_display. pose proof (wf_row g Hwf).
  case_match; [|case_match; [|case_match; [|by apply keeps_same]]].
  - apply keeps_bind; [by apply erase_line_keeps|]. intros g1 Hwf1 Hr1 Hc1.
    destruct (wf_cells g1 Hwf1) as [Hlen Hrows]. rewrite slice_from_Some by lia. simpl.
    destruct (clear_rows_wf _ (g_cols g) _ (Forall_drop _ (g_row g + 1) _ Hrows))
      as (below & -> & Hb & Hl). simpl.
    apply keeps_Some; [|done..]. apply wf_set_cells; [done|]. split.
    + rewrite length_app, length_take, Hl, length_drop. lia.
    + apply Forall_app_2; [by apply Forall_take|done].
  - destruct (wf_cells g Hwf) as [Hlen Hrows]. rewrite slice_Some by lia. simpl.
    rewrite drop_0, Nat.sub_0_r.
    destruct (clear_rows_wf _ (g_cols g) _ (Forall_take _ (g_row g) _ Hrows))
      as (above & -> & Ha & Hl). simpl.
    eapply keeps_size; [..|apply erase_line_keeps, wf_set_cells; [exact Hwf|]]; [done..|].
    split.
    + rewrite length_app, Hl, length_take, length_drop. lia.
    + apply Forall_app_2; [done|by apply Forall_drop].
  - destruct (wf_cells g Hwf) as [Hlen Hrows].
    destruct (clear_rows_wf _ (g_cols g) _ Hrows) as (cells & -> & ? & Hl). simpl.
    apply keeps_Some; [|done..]. apply wf_set_cells; [done|]. split; [congruence|done].
Qed.

Lemma in_region_spec g : in_region g = true <-> g_top g <= g_row g <= g_bottom g.
Proof. unfold in_region. rewrite andb_true_iff, !Nat.leb_le. lia. Qed.

(** Lines shift between the cursor's row and the region's last. *)
Lemma shift_lines_keeps g n (step : grid -> option grid) :
  wf g -> (forall g', wf g' -> keeps g' (step g')) ->
  keeps g (below ← checked_sub (g_bottom g) (g_row g);
           g' ← times (n `min` (below + 1)) step g;
           move_to g' (g_row g') 0) \/ g_bottom g < g_row g.
Proof.
  intros Hwf Hstep. destruct (decide (g_row g <= g_bottom g)); [left|right; lia].
  rewrite checked_sub_Some by lia. simpl. apply keeps_bind; [by apply keeps_times|].
  intros g' Hwf' Hr Hc. apply (keeps_size g'); auto with cf.
Qed.

Lemma insert_lines_keeps g n : wf g -> keeps g (insert_lines g n).
Proof.
  intros Hwf. unfold insert_lines. case_match eqn:E; [|by auto with cf].
  apply in_region_spec in E.
  edestruct (shift_lines_keeps g n) as [H|H]; [done| |exact H|lia].
  intros g' Hwf'. pose proof (wf_row g' Hwf'). destruct (wf_region g' Hwf').
  apply scroll_row_keeps; [done|lia..].
Qed.

Lemma delete_lines_keeps g n : wf g -> keeps g (delete_lines g n).
Proof.
  intros Hwf. unfold delete_lines. case_match eqn:E; [|by auto with cf].
  apply in_region_spec in E.
  edestruct (shift_lines_keeps g n) as [H|H]; [done| |exact H|lia].
  intros g' Hwf'. pose proof (wf_row g' Hwf'). destruct (wf_region g' Hwf').
  apply scroll_row_keeps; [done|lia..].
Qed.

Lemma erase_chars_keeps g n : wf g -> keeps g (erase_chars g n).
Proof.
  intros Hwf. apply at_row_keeps; [done|apply (wf_row g Hwf)|].
  intros r Hr. by apply blank_cells_wf.
Qed.

#[local] Hint Resolve insert_chars_keeps delete_chars_keeps erase_line_keeps
  erase_display_keeps insert_lines_keeps delete_lines_keeps erase_chars_keeps : cf.

(** *** Actions *)

Lemma tab_keeps g n : wf g -> keeps g (tab g n).
Proof. intros. by apply move_to_keeps. Qed.

Lemma back_tab_keeps g n : wf g -> keeps g (back_tab g n).
Proof. intros. by apply move_to_keeps. Qed.

Lemma save_cursor_keeps g : wf g -> keeps g (Some (save_cursor g)).
Proof. intros. apply keeps_Some; [by apply wf_set_saved|done..]. Qed.

#[local] Hint Resolve tab_keeps back_tab_keeps save_cursor_keeps : cf.

Lemma control_keeps g b : wf g -> keeps g (control g b).
Proof. intros Hwf. unfold control. repeat case_match; auto with cf. Qed.

Lemma new_keeps g : wf g -> keeps g (new (g_rows g) (g_cols g)).
Proof.
  intros Hwf. destruct (new_wf (g_rows g) (g_cols g)) as (g' & -> & Hwf' & Hr & Hc).
  destruct (wf_rows g Hwf), (wf_cols g Hwf).
  apply keeps_Some; [done| |]; rewrite ?Hr, ?Hc; unfold usize_clamp; lia.
Qed.

Lemma escape_keeps g b : wf g -> keeps g (escape g b).
Proof.
  intros Hwf. unfold escape. repeat case_match; auto using new_keeps with cf.
  - apply keeps_bind; [by auto with cf|]. intros g' Hwf' Hr Hc.
    apply (keeps_size g'); auto with cf.
Qed.

Lemma down_limit_Some g : wf g -> exists n, down_limit g = Some n.
Proof.
  intros Hwf. unfold down_limit. destruct (wf_rows g Hwf).
  case_match; [by eexists|]. rewrite checked_sub_Some by lia. by eexists.
Qed.

Lemma csi_move_keeps g params last o :
  wf g -> csi_move g params last = Some o -> keeps g o.
Proof.
  intros Hwf. unfold csi_move. destruct (down_limit_Some g Hwf) as [limit ->].
  pose proof (count_pos params 0). pose proof (count_pos params 1).
  rewrite !checked_sub_Some by lia. simpl.
  repeat (case_match; [intros [= <-]; by auto with cf|]). done.
Qed.

Lemma csi_edit_keeps g params last : wf g -> keeps g (csi_edit g params last).
Proof. intros Hwf. unfold csi_edit. repeat case_match; auto with cf. Qed.

Lemma csi_keeps g marker params last : wf g -> keeps g (csi g marker params last).
Proof.
  intros Hwf. unfold csi.
  destruct marker as [m|]; [repeat case_match; auto with cf|].
  destruct (csi_move g params last) as [o|] eqn:E.
  - by eapply csi_move_keeps.
  - by apply csi_edit_keeps.
Qed.

(** Whatever a program says, the screen it is said to takes it without a panic
    and is a screen of the same size after. *)
Theorem perform_keeps g a : wf g -> keeps g (perform g a).
Proof.
  intros Hwf. destruct a as [c|b|[i|] last|marker params [i|] last]; simpl;
    auto using control_keeps, escape_keeps, csi_keeps with cf.
Qed.

Lemma resize_screen_wf rows cols screen : screen_wf rows cols (resize_screen rows cols screen).
Proof.
  unfold resize_screen. split; [by rewrite length_fmap, length_resize|].
  apply Forall_fmap, Forall_true. intros r. split; apply length_resize.
Qed.

Theorem resize_grid_wf g rows cols :
  wf g -> exists g', resize_grid g rows cols = Some g' /\ wf g' /\
    g_rows g' = usize_clamp 1 MAX_ROWS rows /\ g_cols g' = usize_clamp 1 MAX_COLS cols.
Proof.
  intros Hwf. pose proof (wf_row g Hwf). pose proof (wf_col g Hwf).
  pose proof (usize_clamp_range 1 MAX_ROWS rows ltac:(unfold MAX_ROWS; lia)).
  pose proof (usize_clamp_range 1 MAX_COLS cols ltac:(unfold MAX_COLS; lia)).
  unfold resize_grid. rewrite vec_drain_Some by lia. simpl.
  rewrite !checked_sub_Some by lia. simpl.
  eexists. split; [done|]. split; [|done].
  split; simpl; auto using resize_screen_wf; try lia.
  intros main. destruct (g_parked g); simpl; [|done]. intros [= <-]. apply resize_screen_wf.
Qed.
