(* ===== verification/GridText.v ===== *)
(** * Text printed on a blank screen reads back: [Grid::print] against [Grid::lines]

    Narrow text, as long as the screen has cells, fills its rows in order; the
    rows it wraps from join when they are read, so the screen's lines are that
    text, without the blanks that end it, and the rows left blank. *)
From S2P Require Import Prelude Utf8 Parser Grid.
#[local] Open Scope nat_scope.

(** A character of one cell that is not the mark of a wide one's second half. *)
Definition is_narrow (c : char) : bool := (cell_width c =? 1) && negb (c =? SECOND_HALF)%Z.

Fixpoint print_all (g : grid) (s : list char) : option grid :=
  match s with
  | [] => Some g
  | c :: s' => g' ← print g c; print_all g' s'
  end.

(** ** The screen part way *)

Definition full_row (l : list char) : row_t := Row l (replicate (length l) false) true.
Definition part_row (cols : nat) (l : list char) : row_t :=
  Row (l ++ replicate (cols - length l) SPACE) (replicate cols false) false.

Section Text.
Context (rows cols : nat).

(** The rows that the text wrapped from, the one it is on, the blank ones. *)
Record part_way (g : grid) (full : list (list char)) (part : list char) (blank : nat) : Prop := {
  pw_size : g_rows g = rows /\ g_cols g = cols /\ 1 <= cols;
  pw_cells : g_cells g = (full_row <$> full) ++ part_row cols part ::
               replicate blank (row_blank cols);
  pw_full : Forall (fun l => length l = cols) full;
  pw_part : length part <= cols;
  pw_rows : length full + 1 + blank = rows;
  pw_row : g_row g = length full;
  pw_col : g_col g = length part `min` (cols - 1);
  pw_pending : g_pending_wrap g = (length part =? cols);
  pw_bottom : g_bottom g = rows - 1;
  pw_autowrap : g_autowrap g = true;
  pw_pen : g_coloured g = false /\ g_faint g = false
}.

Lemma insert_app_here {A} (a b : list A) x y : <[length a := y]> (a ++ x :: b) = a ++ y :: b.
Proof. rewrite insert_app_r_alt by lia. by rewrite Nat.sub_diag. Qed.

Lemma at_row_here g i f a r b r' :
  g_cells g = a ++ r :: b -> i = length a -> f r = Some r' ->
  at_row g i f = Some (set_cells (a ++ r' :: b) g).
Proof.
  intros Hc -> Hf. unfold at_row. rewrite Hc, list_lookup_middle by done. simpl. rewrite Hf. simpl.
  rewrite vec_set_Some by (rewrite length_app; simpl; lia). simpl.
  by rewrite insert_app_here.
Qed.

(** The next character on a row with room for it. *)
Lemma row_put_part part c :
  length part < cols ->
  row_put (part_row cols part) (length part) c false = Some (part_row cols (part ++ [c])).
Proof.
  intros Hlt. unfold row_put, part_row. simpl.
  rewrite !vec_set_Some by (rewrite ?length_app, ?length_replicate; lia). simpl. do 2 f_equal.
  - destruct (cols - length part) as [|n] eqn:E; [lia|]. simpl. rewrite insert_app_here.
    rewrite <- app_assoc. simpl. rewrite length_app. simpl.
    by replace (cols - (length part + 1)) with n by lia.
  - apply list_insert_id, lookup_replicate_2. lia.
Qed.

Lemma put_part g full part blank c :
  part_way g full part blank -> length part < cols ->
  exists g', put g c 1 = Some g' /\ part_way g' full (part ++ [c]) blank.
Proof.
  intros [] Hlt. destruct pw_pen0 as [Hco Hfa], pw_size0 as (Hr & Hcl & Hpos).
  unfold put. rewrite Hco, Hfa. simpl.
  assert (g_col g = length part) as Hcol by lia. rewrite Hcol.
  erewrite at_row_here; [|done|by rewrite length_fmap|].
  2:{ simpl. rewrite row_put_part by done. done. }
  simpl. rewrite Hcol, Hcl. case_match eqn:E; ranges.
  - rewrite checked_sub_Some by lia. simpl. eexists. split; [done|].
    split; simpl; rewrite ?length_app; simpl; auto; try lia. symmetry. apply Nat.eqb_eq. lia.
  - eexists. split; [done|].
    split; simpl; rewrite ?length_app; simpl; auto; try lia.
    rewrite pw_pending0. transitivity false; [|symmetry]; apply Nat.eqb_neq; lia.
Qed.

(** A full row wraps to the blank one below it. *)
Lemma wrap_part g full part blank :
  part_way g full part (S blank) -> length part = cols ->
  exists g', wrap g = Some g' /\ part_way g' (full ++ [part]) [] blank.
Proof.
  intros [] Hlen. destruct pw_size0 as (Hr & Hcl & Hpos). unfold wrap.
  erewrite at_row_here; [|done|by rewrite length_fmap|done]. simpl.
  unfold line_feed. simpl. repeat settle_test. simpl. eexists. split; [done|].
  split; simpl; rewrite ?length_app; simpl; auto; try lia.
  - rewrite fmap_app, <- app_assoc. simpl. unfold part_row, row_blank. simpl.
    unfold full_row. by rewrite Hlen, Nat.sub_diag, app_nil_r, Nat.sub_0_r.
  - apply Forall_app. auto.
  - symmetry. apply Nat.eqb_neq. lia.
Qed.

Lemma part_way_unpend g full part blank :
  part_way g full part blank -> length part < cols ->
  part_way (set_pending_wrap false g) full part blank.
Proof. intros [] Hlt. split; simpl; auto. symmetry. apply Nat.eqb_neq. lia. Qed.

Lemma print_part g full part blank c :
  part_way g full part blank -> is_narrow c = true ->
  (length part < cols \/ 0 < blank) ->
  exists g' full' part' blank',
    print g c = Some g' /\ part_way g' full' part' blank' /\
    concat full' ++ part' = concat full ++ part ++ [c] /\ part' <> [].
Proof.
  intros Hpw Hc Hroom. unfold is_narrow in Hc. ranges. unfold print.
  match goal with H : cell_width c = 1 |- _ => rewrite H end. simpl.
  rewrite (pw_pending _ _ _ _ Hpw), (pw_autowrap _ _ _ _ Hpw), andb_true_r.
  destruct (pw_size _ _ _ _ Hpw) as (_ & _ & Hpos).
  destruct (decide (length part = cols)) as [Hfull|Hpart].
  - settle_test. destruct blank as [|blank]; [lia|].
    destruct (wrap_part g full part blank Hpw Hfull) as (g1 & -> & Hpw1). simpl.
    destruct (put_part (set_pending_wrap false g1) (full ++ [part]) [] blank c) as (g2 & E & Hpw2);
      [by apply part_way_unpend; simpl; [|lia]|simpl; lia|].
    exists g2, (full ++ [part]), ([] ++ [c]), blank. split_and!; try done.
    by rewrite concat_app, <- !app_assoc; simpl; rewrite app_nil_r.
  - pose proof (pw_part _ _ _ _ Hpw). settle_test. simpl.
    destruct (put_part (set_pending_wrap false g) full part blank c) as (g2 & E & Hpw2);
      [by apply part_way_unpend; [|lia]|lia|].
    exists g2, full, (part ++ [c]), blank. split_and!; try done. by destruct part.
Qed.

Lemma print_all_part g full part blank s :
  part_way g full part blank -> Forall (fun c => is_narrow c = true) s ->
  length (concat full ++ part) + length s <= rows * cols ->
  exists g' full' part' blank',
    print_all g s = Some g' /\ part_way g' full' part' blank' /\
    concat full' ++ part' = concat full ++ part ++ s.
Proof.
  intros Hpw Hs. revert g full part blank Hpw.
  induction Hs as [|c s Hc _ IH]; intros g full part blank Hpw Hlen; simpl.
  { exists g, full, part, blank. by rewrite app_nil_r. }
  assert (length part < cols \/ 0 < blank) as Hroom.
  { pose proof (pw_rows _ _ _ _ Hpw). pose proof (pw_part _ _ _ _ Hpw).
    assert (length (concat full) = length full * cols) as Hcl.
    { pose proof (pw_full _ _ _ _ Hpw) as Hf. clear -Hf.
      induction Hf as [|l full Hl _ IH]; simpl; [done|]. rewrite length_app. lia. }
    rewrite length_app, Hcl in Hlen. simpl in Hlen.
    destruct blank; [left|lia]. assert (rows = length full + 1) by lia. nia. }
  destruct (print_part g full part blank c Hpw Hc Hroom)
    as (g1 & full1 & part1 & blank1 & -> & Hpw1 & Heq & _). simpl.
  destruct (IH g1 full1 part1 blank1 Hpw1) as (g2 & full2 & part2 & blank2 & -> & Hpw2 & Heq2).
  { rewrite Heq. rewrite !length_app in *. simpl in *. lia. }
  exists g2, full2, part2, blank2. split_and!; try done.
  rewrite Heq2, app_assoc, Heq. by rewrite <- !app_assoc.
Qed.

(** ** What is read of it *)

Lemma shown_narrow s :
  Forall (fun c => is_narrow c = true) s -> shown_cells s = s.
Proof.
  induction 1 as [|c s Hc _ IH]; simpl; [done|]. unfold is_narrow in Hc. ranges.
  match goal with H : negb _ = true |- _ => rewrite H end. by rewrite IH.
Qed.

Lemma shown_app a b : shown_cells (a ++ b) = shown_cells a ++ shown_cells b.
Proof. apply List.filter_app. Qed.

Lemma shown_spaces n : shown_cells (replicate n SPACE) = replicate n SPACE.
Proof. induction n as [|n IH]; simpl; [done|]. by rewrite IH. Qed.

Lemma trim_end_spaces s n : trim_end (s ++ replicate n SPACE) = trim_end s.
Proof.
  induction s as [|c s IH]; simpl; [|by rewrite IH].
  induction n as [|n IH]; simpl; [done|]. by rewrite IH.
Qed.

Lemma lines_blank n : lines_from [] (replicate n (row_blank cols)) = replicate n [].
Proof.
  induction n as [|n IH]; simpl; [done|]. rewrite IH, shown_spaces. f_equal.
  apply (trim_end_spaces []).
Qed.

Lemma lines_full line full more :
  lines_from line ((full_row <$> full) ++ more)
  = lines_from (line ++ shown_cells (concat full)) more.
Proof.
  revert line. induction full as [|l full IH]; intros line; simpl; [by rewrite app_nil_r|].
  by rewrite IH, shown_app, app_assoc.
Qed.

Lemma lines_part_way g full part blank s :
  part_way g full part blank -> concat full ++ part = s ->
  Forall (fun c => is_narrow c = true) s ->
  lines g = trim_end s :: replicate blank [].
Proof.
  intros [] Heq Hs. unfold lines. rewrite pw_cells0, lines_full. simpl.
  rewrite lines_blank, shown_app, shown_spaces, app_assoc, <- shown_app, Heq.
  by rewrite shown_narrow, trim_end_spaces.
Qed.
End Text.

(** Narrow text on a blank screen that has the cells for it reads back as one
    line, whatever rows it wrapped over, and the rest of the screen is blank. *)
Theorem text_reads_back rows cols s :
  1 <= rows <= MAX_ROWS -> 1 <= cols <= MAX_COLS ->
  Forall (fun c => is_narrow c = true) s -> length s <= rows * cols ->
  exists g g' blank,
    new rows cols = Some g /\ print_all g s = Some g' /\
    lines g' = trim_end s :: replicate blank [].
Proof.
  intros Hr Hc Hs Hlen.
  assert (usize_clamp 1 MAX_ROWS rows = rows) as Er by (unfold usize_clamp; lia).
  assert (usize_clamp 1 MAX_COLS cols = cols) as Ec by (unfold usize_clamp; lia).
  unfold new. rewrite Er, Ec, checked_sub_Some by lia. simpl.
  set (g := Grid _ _ _ _ _ _ _ _ _ _ _ _ _ _ _).
  assert (part_way rows cols g [] [] (rows - 1)) as Hpw.
  { split; simpl; auto; try lia.
    - unfold part_row. simpl. rewrite Nat.sub_0_r.
      destruct rows as [|n]; [lia|]. simpl. by rewrite Nat.sub_0_r.
    - symmetry. apply Nat.eqb_neq. lia. }
  destruct (print_all_part rows cols g [] [] _ s Hpw Hs)
    as (g' & full & part & blank & E & Hpw' & Heq); [simpl; lia|].
  exists g, g', blank. split_and!; try done. by eapply lines_part_way.
Qed.
