(* ===== verification/GridFrame.v ===== *)
(** * What the grid's operations leave alone

    The screen parked while the alternate one shows, which only leaving it (or
    a reset) touches, and the rows outside the scroll region, which no
    scrolling moves. *)
From S2P Require Import Prelude Utf8 Parser Grid.
#[local] Open Scope nat_scope.

(** ** The parked screen *)

Definition parks (g : grid) (o : option grid) : Prop :=
  forall g', o = Some g' -> g_parked g' = g_parked g.

Lemma parks_Some g g' : g_parked g' = g_parked g -> parks g (Some g').
Proof. by intros H ? [= <-]. Qed.

Lemma parks_None g : parks g None.
Proof. done. Qed.

Lemma parks_bind g o k :
  parks g o -> (forall g1, g_parked g1 = g_parked g -> parks g1 (k g1)) -> parks g (o ≫= k).
Proof.
  intros Ho Hk g' Hg'. destruct o as [g1|]; [|done]. simpl in Hg'.
  rewrite (Hk g1 (Ho _ eq_refl) _ Hg'). by apply Ho.
Qed.

(** A step that reads something first. *)
Lemma parks_read {A} g (o : option A) k : (forall x, parks g (k x)) -> parks g (o ≫= k).
Proof. intros Hk. destruct o; [apply Hk|by apply parks_None]. Qed.

Lemma parks_from g1 g2 o : g_parked g1 = g_parked g2 -> parks g1 o -> parks g2 o.
Proof. intros E H g' Hg'. rewrite <- E. by apply H. Qed.

Lemma parks_times g n step :
  (forall g1, parks g1 (step g1)) -> parks g (times n step g).
Proof.
  intros Hstep. revert g. induction n as [|n IH]; intros g; simpl; [by apply parks_Some|].
  apply parks_bind; auto.
Qed.

Create HintDb parks discriminated.
#[local] Hint Resolve parks_Some parks_None parks_times eq_refl : parks.
#[local] Hint Unfold move_to at_row scroll_row : parks.

(** Reads what is read, and closes what changes no screen put away. *)
Ltac parks :=
  repeat first
    [ done | progress intros | apply parks_None | apply parks_times; intros
    | solve [auto with parks] | apply parks_read; intros | case_match | apply parks_Some ].

Lemma move_to_parks g row col : parks g (move_to g row col).
Proof. unfold move_to. parks. Qed.
Lemma at_row_parks g i f : parks g (at_row g i f).
Proof. unfold at_row. parks. Qed.
Lemma scroll_row_parks g o i : parks g (scroll_row g o i).
Proof. unfold scroll_row. parks. Qed.
#[local] Hint Resolve move_to_parks at_row_parks scroll_row_parks : parks.

Lemma restore_cursor_parks g : parks g (restore_cursor g).
Proof. apply parks_bind; parks. Qed.
Lemma scroll_up_parks g n : parks g (scroll_up g n).
Proof. unfold scroll_up. parks. Qed.
Lemma scroll_down_parks g n : parks g (scroll_down g n).
Proof. unfold scroll_down. parks. Qed.
#[local] Hint Resolve restore_cursor_parks scroll_up_parks scroll_down_parks : parks.

Lemma line_feed_parks g : parks g (line_feed g).
Proof. unfold line_feed. apply (parks_from (set_pending_wrap false g)); parks. Qed.
Lemma reverse_index_parks g : parks g (reverse_index g).
Proof. unfold reverse_index. apply (parks_from (set_pending_wrap false g)); parks. Qed.
#[local] Hint Resolve line_feed_parks reverse_index_parks : parks.

Lemma wrap_parks g : parks g (wrap g).
Proof. unfold wrap. apply parks_bind; [parks|]. intros. apply parks_bind; parks. Qed.
Lemma leave_second_half_parks g : parks g (leave_second_half g).
Proof. unfold leave_second_half. parks. Qed.
Lemma put_parks g c w : parks g (put g c w).
Proof. unfold put. apply parks_bind; parks. Qed.
#[local] Hint Resolve wrap_parks leave_second_half_parks put_parks : parks.

Lemma print_parks g c : parks g (print g c).
Proof.
  unfold print. case_match; [parks|]. apply parks_bind; [parks|]. intros g1 _.
  apply (parks_from (set_pending_wrap false g1)); [done|].
  case_match; [case_match|]; [|parks..].
  apply parks_bind; [parks|]. intros. apply parks_bind; parks.
Qed.
#[local] Hint Resolve print_parks : parks.

Lemma repeat_last_parks g n : parks g (repeat_last g n).
Proof. unfold repeat_last. parks. Qed.
Lemma set_region_parks g ps : parks g (set_region g ps).
Proof.
  unfold set_region. do 2 (apply parks_read; intros). case_match; [|parks].
  eapply parks_from; [|apply move_to_parks]. done.
Qed.
Lemma insert_lines_parks g n : parks g (insert_lines g n).
Proof.
  unfold insert_lines. case_match; [|parks]. apply parks_read. intros.
  apply parks_bind; parks.
Qed.
Lemma delete_lines_parks g n : parks g (delete_lines g n).
Proof.
  unfold delete_lines. case_match; [|parks]. apply parks_read. intros.
  apply parks_bind; parks.
Qed.
Lemma erase_display_parks g mode : parks g (erase_display g mode).
Proof.
  unfold erase_display. repeat case_match.
  - apply parks_bind; [apply at_row_parks|]. parks.
  - do 2 (apply parks_read; intros). eapply parks_from; [|apply at_row_parks]. done.
  - parks.
  - parks.
Qed.
#[local] Hint Resolve repeat_last_parks set_region_parks insert_lines_parks
  delete_lines_parks erase_display_parks : parks.

(** The modes that show and put away the alternate screen. *)
Definition is_alternate_mode (mode : Z) : bool :=
  ((mode =? 47) || (mode =? 1047) || (mode =? 1049))%Z.

(** A set mode leaves a screen parked already; so does a reset one of another. *)
Lemma set_mode_parks g on mode main :
  g_parked g = Some main -> on = true \/ is_alternate_mode mode = false ->
  parks g (set_mode on g mode).
Proof.
  intros Hmain Hmode. unfold set_mode, is_alternate_mode in *.
  destruct (mode =? 7)%Z eqn:?; [parks|]. destruct (mode =? 25)%Z eqn:?; [parks|].
  assert (forall g', g_parked g' = Some main -> g_parked (alternate g' true) = Some main) as Halt.
  { intros g' E. unfold alternate. by rewrite E. }
  destruct Hmode as [->|Hmode].
  - cbv zeta iota. destruct ((mode =? 47) || (mode =? 1047))%Z;
      [|destruct (mode =? 1049)%Z; [|parks]]; apply parks_Some; rewrite Halt; done || congruence.
  - destruct (mode =? 47)%Z, (mode =? 1047)%Z, (mode =? 1049)%Z; try done. parks.
Qed.

Lemma set_modes_parks g on params main :
  g_parked g = Some main -> on = true \/ Forall (fun m => is_alternate_mode m = false) params ->
  parks g (set_modes g params on).
Proof.
  intros Hmain Hmode. revert g Hmain.
  induction params as [|mode params IH]; intros g Hmain; simpl; [parks|].
  apply parks_bind.
  - apply set_mode_parks with main; [done|]. destruct Hmode as [|[? ?]%Forall_cons]; auto.
  - intros g1 E. apply IH; [|congruence].
    destruct Hmode as [|[? ?]%Forall_cons]; auto.
Qed.

(** The actions that put the alternate screen away: a reset of the terminal,
    and a reset of one of its modes. *)
Definition leaves_alternate (a : Action.t) : bool :=
  match a with
  | Action.Escape None last => Byte.eqb last "c"
  | Action.Csi (Some m) params None last =>
      Byte.eqb m "?" && Byte.eqb last "l" && existsb is_alternate_mode params
  | _ => false
  end.

Lemma existsb_false {A} (p : A -> bool) l :
  existsb p l = false -> Forall (fun x => p x = false) l.
Proof.
  induction l as [|x l IH]; simpl; [constructor|]. intros [? ?]%orb_false_iff. auto.
Qed.

Lemma csi_move_parks g params last o : csi_move g params last = Some o -> parks g o.
Proof.
  unfold csi_move. repeat (case_match; [intros [= <-]; unfold tab, back_tab; by parks|]). done.
Qed.

Lemma csi_edit_parks g params last : parks g (csi_edit g params last).
Proof.
  unfold csi_edit. repeat (case_match; auto with parks).
  - apply at_row_parks.
  - unfold insert_chars. parks.
  - unfold delete_chars. parks.
  - apply at_row_parks.
  - unfold pen. apply parks_Some. by destruct (pen_loop _ _ _).
Qed.

Lemma perform_parks g a main :
  g_parked g = Some main -> leaves_alternate a = false -> parks g (perform g a).
Proof.
  intros Hmain Ha. destruct a as [c|b|[i|] last|marker params [i|] last]; simpl in *; try by parks.
  - unfold control. repeat case_match; unfold tab; parks.
  - unfold escape. rewrite Ha. repeat case_match; auto with parks.
    apply parks_bind; auto with parks.
  - unfold csi. destruct marker as [m|].
    + destruct (m =? "?")%byte; [|parks]. simpl in Ha.
      destruct (last =? "h")%byte; [apply set_modes_parks with main; auto|].
      destruct (last =? "l")%byte; [|parks]. apply set_modes_parks with main; [done|]. right.
      by apply existsb_false.
    + destruct (csi_move g params last) eqn:E; [by eapply csi_move_parks|apply csi_edit_parks].
Qed.

(** [Grid::perform] of actions in turn. *)
Fixpoint perform_all (g : grid) (actions : list Action.t) : option grid :=
  match actions with
  | [] => Some g
  | a :: actions' => g' ← perform g a; perform_all g' actions'
  end.

Lemma perform_all_keeps g actions : wf g -> keeps g (perform_all g actions).
Proof.
  revert g. induction actions as [|a actions IH]; intros g Hwf; simpl; [by apply keeps_same|].
  apply keeps_bind; [by apply perform_keeps|]. intros g' Hwf' Hr Hc.
  apply (keeps_size g'); auto.
Qed.

Lemma perform_all_parks g actions main :
  g_parked g = Some main -> Forall (fun a => leaves_alternate a = false) actions ->
  parks g (perform_all g actions).
Proof.
  intros Hmain Ha. revert g Hmain. induction Ha as [|a actions Ha _ IH]; intros g Hmain; simpl;
    [parks|].
  apply parks_bind; [by eapply perform_parks|]. intros g1 E. apply IH. congruence.
Qed.

Definition enter_alternate : Action.t := Action.Csi (Some "?"%byte) [1049%Z] None "h"%byte.
Definition leave_alternate : Action.t := Action.Csi (Some "?"%byte) [1049%Z] None "l"%byte.

Lemma perform_all_app g a b :
  perform_all g (a ++ b) = g' ← perform_all g a; perform_all g' b.
Proof.
  revert g. induction a as [|x a IH]; intros g; simpl; [done|].
  destruct (perform g x); simpl; [apply IH|done].
Qed.

Lemma enter_alternate_parks g :
  g_parked g = None ->
  exists g', perform g enter_alternate = Some g' /\ g_parked g' = Some (g_cells g).
Proof.
  intros Hmain. unfold perform, enter_alternate, csi. simpl. unfold set_mode. simpl.
  eexists. split; [done|]. unfold alternate. simpl. by rewrite Hmain.
Qed.

Lemma leave_alternate_gives_back g main g' :
  g_parked g = Some main -> perform g leave_alternate = Some g' ->
  g_cells g' = main /\ g_parked g' = None.
Proof.
  intros Hmain. unfold perform, leave_alternate, csi. simpl. unfold set_mode. simpl.
  unfold alternate. rewrite Hmain. unfold restore_cursor, move_to. simpl.
  destruct (checked_sub (g_rows g) 1); simpl; [|done].
  destruct (checked_sub (g_cols g) 1); simpl; [|done]. by intros [= <-].
Qed.

(** Whatever a full-screen program draws on the alternate screen, the main one
    is given back cell for cell when it leaves. *)
Theorem alternate_gives_back g actions :
  wf g -> g_parked g = None ->
  Forall (fun a => leaves_alternate a = false) actions ->
  exists g', perform_all g (enter_alternate :: actions ++ [leave_alternate]) = Some g' /\
    g_cells g' = g_cells g /\ g_parked g' = None /\ lines g' = lines g.
Proof.
  intros Hwf Hmain Ha.
  destruct (perform_all_keeps g (enter_alternate :: actions ++ [leave_alternate]) Hwf)
    as (g' & E & _). exists g'. split; [done|]. cbn [perform_all] in E.
  destruct (enter_alternate_parks g Hmain) as (g1 & E1 & Hp1).
  rewrite E1 in E. simpl in E. rewrite perform_all_app in E.
  destruct (perform_all g1 actions) as [g2|] eqn:E2; [|done].
  cbn [mbind option_bind perform_all] in E.
  apply (perform_all_parks g1 actions (g_cells g) Hp1 Ha) in E2.
  destruct (perform g2 leave_alternate) as [g3|] eqn:E3; [|done].
  injection E as ->. rewrite Hp1 in E2.
  destruct (leave_alternate_gives_back g2 (g_cells g) g' E2 E3) as [Hc Hp].
  split_and!; auto. unfold lines. by rewrite Hc.
Qed.

(** ** The scroll region *)

(** Where each row of the screen comes from once the rows [lo..=hi] moved up [n]
    lines, blank ones coming in below. *)
Definition moved_up (cols lo hi n : nat) (cells : list row_t) (i : nat) : option row_t :=
  if (lo <=? i) && (i <=? hi) then
    if i + n <=? hi then cells !! (i + n) else Some (row_blank cols)
  else cells !! i.

(** The same, moved down. *)
Definition moved_down (cols lo hi n : nat) (cells : list row_t) (i : nat) : option row_t :=
  if (lo <=? i) && (i <=? hi) then
    if lo + n <=? i then cells !! (i - n) else Some (row_blank cols)
  else cells !! i.

Lemma lookup_shifted (cells : list row_t) out into x i :
  out < length cells -> into < length cells ->
  (take into (delete out cells) ++ x :: drop into (delete out cells)) !! i =
    if i =? into then Some x
    else delete out cells !! (if i <? into then i else i - 1).
Proof.
  intros Ho Hi.
  assert (length (delete out cells) = length cells - 1) as Hd
    by (rewrite length_delete; [lia|by apply lookup_lt_is_Some_2]).
  destruct (decide (i < into)) as [Hlt|Hge].
  - repeat settle_test. rewrite lookup_app_l by (rewrite length_take; lia).
    by rewrite lookup_take_lt.
  - rewrite lookup_app_r by (rewrite length_take; lia).
    rewrite length_take, Nat.min_l by lia.
    destruct (decide (i = into)) as [->|Hne]; repeat settle_test; [by rewrite Nat.sub_diag|].
    destruct (i - into) as [|k] eqn:E; [lia|]. simpl. rewrite lookup_drop.
    f_equal. lia.
Qed.

Lemma lookup_delete_shift (cells : list row_t) out i :
  delete out cells !! i = cells !! (if i <? out then i else i + 1).
Proof.
  case_match; ranges.
  - by apply list_lookup_delete_lt.
  - rewrite Nat.add_1_r. by apply list_lookup_delete_ge.
Qed.

Lemma scroll_row_lookup g out into g' i :
  scroll_row g out into = Some g' -> out < length (g_cells g) -> into < length (g_cells g) ->
  g' = set_cells (g_cells g') g /\ length (g_cells g') = length (g_cells g) /\
  g_cells g' !! i =
    if i =? into then Some (row_blank (g_cols g))
    else let k := if i <? into then i else i - 1 in
         g_cells g !! (if k <? out then k else k + 1).
Proof.
  intros E Ho Hi. revert E. unfold scroll_row. rewrite vec_remove_Some by lia. simpl.
  assert (length (delete out (g_cells g)) = length (g_cells g) - 1) as Hd
    by (rewrite length_delete; [lia|by apply lookup_lt_is_Some_2]).
  rewrite vec_insert_Some by lia. simpl. intros [= <-]. split_and!; simpl.
  - done.
  - rewrite length_app, length_take. simpl. rewrite length_drop. lia.
  - rewrite lookup_shifted by lia. case_match; [done|]. by rewrite lookup_delete_shift.
Qed.

Section Moves.
Context (lo hi : grid -> nat).
Context (lo_cells : forall x g, lo (set_cells x g) = lo g)
        (hi_cells : forall x g, hi (set_cells x g) = hi g).

Lemma times_moved_up n g g' i :
  times n (fun g => scroll_row g (lo g) (hi g)) g = Some g' ->
  lo g <= hi g < length (g_cells g) -> n <= hi g - lo g + 1 ->
  g' = set_cells (g_cells g') g /\
  g_cells g' !! i = moved_up (g_cols g) (lo g) (hi g) n (g_cells g) i.
Proof.
  revert g i. induction n as [|n IH]; intros g i; simpl.
  { intros [= <-] Hr _. split; [by destruct g|]. unfold moved_up. rewrite Nat.add_0_r.
    repeat case_match; ranges; try done; lia. }
  destruct (scroll_row g (lo g) (hi g)) as [g1|] eqn:E1; simpl; [|done]. intros E Hr Hn.
  destruct (scroll_row_lookup g _ _ g1 0 E1) as (Hg1 & Hlen & _); [lia..|].
  assert (lo g1 = lo g /\ hi g1 = hi g /\ g_cols g1 = g_cols g) as (Hlo & Hhi & Hcols)
    by (rewrite Hg1, lo_cells, hi_cells; done).
  destruct (IH g1 i E) as [Hg' Hi]; [lia..|]. split; [rewrite Hg', Hg1; done|].
  rewrite Hi, Hlo, Hhi, Hcols. unfold moved_up.
  assert (forall j, g_cells g1 !! j = _) as Hj
    by (intros j; exact (proj2 (proj2 (scroll_row_lookup g _ _ g1 j E1 ltac:(lia) ltac:(lia))))).
  cbv zeta in Hj.
  destruct (decide (lo g <= i)), (decide (i <= hi g)), (decide (i + S n <= hi g)),
    (decide (i + n <= hi g)); try lia;
    repeat settle_test; simpl; try done; rewrite ?Hj; repeat settle_test; try done; f_equal; lia.
Qed.

Lemma times_moved_down n g g' i :
  times n (fun g => scroll_row g (hi g) (lo g)) g = Some g' ->
  lo g <= hi g < length (g_cells g) -> n <= hi g - lo g + 1 ->
  g' = set_cells (g_cells g') g /\
  g_cells g' !! i = moved_down (g_cols g) (lo g) (hi g) n (g_cells g) i.
Proof.
  revert g i. induction n as [|n IH]; intros g i; simpl.
  { intros [= <-] Hr _. split; [by destruct g|]. unfold moved_down. rewrite Nat.sub_0_r.
    repeat case_match; ranges; try done; lia. }
  destruct (scroll_row g (hi g) (lo g)) as [g1|] eqn:E1; simpl; [|done]. intros E Hr Hn.
  destruct (scroll_row_lookup g _ _ g1 0 E1) as (Hg1 & Hlen & _); [lia..|].
  assert (lo g1 = lo g /\ hi g1 = hi g /\ g_cols g1 = g_cols g) as (Hlo & Hhi & Hcols)
    by (rewrite Hg1, lo_cells, hi_cells; done).
  destruct (IH g1 i E) as [Hg' Hi]; [lia..|]. split; [rewrite Hg', Hg1; done|].
  rewrite Hi, Hlo, Hhi, Hcols. unfold moved_down.
  assert (forall j, g_cells g1 !! j = _) as Hj
    by (intros j; exact (proj2 (proj2 (scroll_row_lookup g _ _ g1 j E1 ltac:(lia) ltac:(lia))))).
  cbv zeta in Hj.
  destruct (decide (lo g <= i)), (decide (i <= hi g)), (decide (lo g + S n <= i)),
    (decide (lo g + n <= i)); try lia;
    repeat settle_test; simpl; try done; rewrite ?Hj; repeat settle_test; try done; f_equal; lia.
Qed.
End Moves.

Lemma region_height g : wf g -> region_lines g = Some (g_bottom g - g_top g + 1).
Proof. intros Hwf. destruct (wf_region g Hwf). unfold region_lines. by rewrite checked_sub_Some by lia. Qed.

Lemma move_to_cells g row col g' : move_to g row col = Some g' -> g_cells g' = g_cells g.
Proof.
  unfold move_to. destruct (checked_sub (g_rows g) 1); simpl; [|done].
  destruct (checked_sub (g_cols g) 1); simpl; [|done]. by intros [= <-].
Qed.

(** Scrolling by more than the region's height is scrolling all of it away. *)
Definition capped (n lo hi : nat) : nat := n `min` (hi - lo + 1).

Ltac region_side :=
  try first [eassumption | reflexivity | (unfold capped; lia)].

(** [CSI S] and [CSI T]: the lines of the scroll region move by [n], blank lines
    come in, the lines outside stay, and the cursor with all else stays too. *)
Theorem scroll_moves_region g n :
  wf g ->
  (exists up, scroll_up g n = Some up /\ up = set_cells (g_cells up) g /\
    forall i, g_cells up !! i =
      moved_up (g_cols g) (g_top g) (g_bottom g) (capped n (g_top g) (g_bottom g)) (g_cells g) i) /\
  (exists down, scroll_down g n = Some down /\ down = set_cells (g_cells down) g /\
    forall i, g_cells down !! i =
      moved_down (g_cols g) (g_top g) (g_bottom g) (capped n (g_top g) (g_bottom g)) (g_cells g) i).
Proof.
  intros Hwf. destruct (wf_region g Hwf) as [Hr Hb]. destruct (wf_cells g Hwf) as [Hlen _].
  split; [destruct (scroll_up_keeps g n Hwf) as (g' & E & _)|
          destruct (scroll_down_keeps g n Hwf) as (g' & E & _)]; exists g'; split; try done;
    unfold scroll_up, scroll_down in E; rewrite region_height in E by done; simpl in E.
  - split; [eapply (times_moved_up g_top g_bottom) with (i := 0); region_side|].
    intros i. eapply (times_moved_up g_top g_bottom); region_side.
  - split; [eapply (times_moved_down g_top g_bottom) with (i := 0); region_side|].
    intros i. eapply (times_moved_down g_top g_bottom); region_side.
Qed.

(** [CSI L] and [CSI M]: inside the scroll region the lines from the cursor's to
    the region's last move, and none other; outside it nothing happens. *)
Theorem lines_edited_from_cursor g n :
  wf g ->
  if in_region g then
    (exists ins, insert_lines g n = Some ins /\
      forall i, g_cells ins !! i =
        moved_down (g_cols g) (g_row g) (g_bottom g) (capped n (g_row g) (g_bottom g)) (g_cells g) i) /\
    (exists del, delete_lines g n = Some del /\
      forall i, g_cells del !! i =
        moved_up (g_cols g) (g_row g) (g_bottom g) (capped n (g_row g) (g_bottom g)) (g_cells g) i)
  else insert_lines g n = Some g /\ delete_lines g n = Some g.
Proof.
  intros Hwf. destruct (in_region g) eqn:Hin;
    [|split; [unfold insert_lines|unfold delete_lines]; by rewrite Hin].
  destruct (wf_region g Hwf) as [Hr Hb]. destruct (wf_cells g Hwf) as [Hlen _].
  assert (g_row g <= g_bottom g) by (unfold in_region in Hin; ranges; lia).
  split; [destruct (insert_lines_keeps g n Hwf) as (g' & E & _)|
          destruct (delete_lines_keeps g n Hwf) as (g' & E & _)]; exists g'; split; try done;
    intros i; unfold insert_lines, delete_lines in E; rewrite Hin, checked_sub_Some in E by lia;
    simpl in E; destruct (times _ _ g) as [g1|] eqn:E1; try done;
    rewrite (move_to_cells _ _ _ _ E).
  - eapply (times_moved_down g_row g_bottom); region_side.
  - eapply (times_moved_up g_row g_bottom); region_side.
Qed.

(** ** Witnesses *)

Lemma alternate_gives_back_witness :
  exists g, new 2 4 = Some g /\ wf g /\
  exists g', perform_all g (enter_alternate :: [Action.Print 0x41; Action.Control x0d]
                             ++ [leave_alternate]) = Some g' /\
    g_cells g' = g_cells g /\ g_parked g' = None /\ lines g' = lines g.
Proof.
  destruct (new_wf 2 4) as (g & E & Hwf & _). exists g. split_and!; [done|done|].
  apply alternate_gives_back; [done| |repeat constructor].
  revert E. vm_compute. by intros [= <-].
Defined.

Lemma scroll_moves_region_witness :
  exists g, new 3 4 = Some g /\ wf g /\
  (exists up, scroll_up g 1 = Some up /\ up = set_cells (g_cells up) g /\
    forall i, g_cells up !! i =
      moved_up (g_cols g) (g_top g) (g_bottom g) (capped 1 (g_top g) (g_bottom g)) (g_cells g) i) /\
  (exists down, scroll_down g 1 = Some down /\ down = set_cells (g_cells down) g /\
    forall i, g_cells down !! i =
      moved_down (g_cols g) (g_top g) (g_bottom g) (capped 1 (g_top g) (g_bottom g)) (g_cells g) i).
Proof.
  destruct (new_wf 3 4) as (g & E & Hwf & _). exists g. split_and!; [done|done|..];
    by apply scroll_moves_region.
Defined.

Lemma lines_edited_from_cursor_witness :
  exists g, new 3 4 = Some g /\ in_region g = true /\
  if in_region g then
    (exists ins, insert_lines g 1 = Some ins /\
      forall i, g_cells ins !! i =
        moved_down (g_cols g) (g_row g) (g_bottom g) (capped 1 (g_row g) (g_bottom g)) (g_cells g) i) /\
    (exists del, delete_lines g 1 = Some del /\
      forall i, g_cells del !! i =
        moved_up (g_cols g) (g_row g) (g_bottom g) (capped 1 (g_row g) (g_bottom g)) (g_cells g) i)
  else insert_lines g 1 = Some g /\ delete_lines g 1 = Some g.
Proof.
  destruct (new_wf 3 4) as (g & E & Hwf & _). exists g. split_and!; [done| |].
  - revert E. vm_compute. by intros [= <-].
  - by apply lines_edited_from_cursor.
Defined.
