(* ===== verification/Screen.v ===== *)
(** * A pane's screen: [cf-panes/src/screen.rs]

    [Screen::new], [feed], [resize], [tail] and [bottom] over the parser
    ([Parser.v]) and the grid ([Grid.v]), and [cf_proto::panes::word_tail]. A
    panic is [None]. [std]'s [DefaultHasher] is the parameter [digest] of what it
    is fed ([Grid.shown]) and Unicode's table of letters and digits the parameter
    [is_alphanumeric]: nothing is assumed of either. *)
From S2P Require Import Prelude Utf8 Parser Grid GridText GridFrame.
#[local] Open Scope nat_scope.

(** [lines.drain(..lines.len().saturating_sub(max))] *)
Definition last_of {A} (max : nat) (l : list A) : list A := drop (length l - max) l.

Record Cursor := { c_line : nat; c_col : nat; c_shown : bool; c_plain_after : nat }.
Record Drawn := { d_lines : list (list char); d_cursor : option Cursor }.

(** [lines.iter().rposition(|line| !line.is_empty())], plus one; 0 where none is. *)
Fixpoint drawn_lines (lines : list (list char)) : nat :=
  match lines with
  | [] => 0
  | line :: lines' =>
      match drawn_lines lines' with
      | 0 => match line with [] => 0 | _ => 1 end
      | n => S n
      end
  end.

Section Screen.
Context (digest : nat * nat * list (list char * list bool) -> Z).
Context (is_alphanumeric : char -> bool).

Record screen := Screen { s_parser : parser; s_grid : grid; s_shows : Z }.

Definition new (rows cols : nat) : option screen :=
  grid ← Grid.new rows cols;
  Some (Screen initial grid (digest (shown grid))).

(** The loop of [feed]: each byte's actions are performed as the parser has them. *)
Fixpoint feed_bytes (p : parser) (g : grid) (bytes : list byte) : option (parser * grid) :=
  match bytes with
  | [] => Some (p, g)
  | b :: bytes' =>
      let '(p', actions) := advance p b in
      g' ← perform_all g actions;
      feed_bytes p' g' bytes'
  end.

Definition feed (s : screen) (bytes : list byte) : option (screen * bool) :=
  '(p, g) ← feed_bytes (s_parser s) (s_grid s) bytes;
  let shows := digest (shown g) in
  Some (Screen p g shows, negb (shows =? s_shows s)%Z).

Definition resize (s : screen) (rows cols : nat) : option screen :=
  grid ← resize_grid (s_grid s) rows cols;
  Some (Screen (s_parser s) grid (digest (shown grid))).

Definition word_tail (lines : list (list char)) (max : nat) : list (list char) :=
  last_of max (filter (fun line => existsb is_alphanumeric line = true) lines).

Definition tail (s : screen) (max : nat) : list (list char) :=
  word_tail (lines (s_grid s)) max.

Definition bottom (s : screen) (max : nat) : Drawn :=
  let lines := lines (s_grid s) in
  let lines := take (drawn_lines lines) lines in
  let first := length lines - max in
  let lines := drop first lines in
  let '(line, col, shown, plain_after) := cursor (s_grid s) in
  {| d_lines := lines;
     d_cursor :=
       line ← checked_sub line first;
       if line <? length lines
       then Some {| c_line := line; c_col := col; c_shown := shown;
                    c_plain_after := plain_after |}
       else None |}.

(** What a screen goes through: a chunk of the pty, a new size. *)
Inductive event :=
| Printed (bytes : list byte)
| Resized (rows cols : nat).

Definition step (s : screen) (e : event) : option screen :=
  match e with
  | Printed bytes => fst <$> feed s bytes
  | Resized rows cols => resize s rows cols
  end.

Fixpoint steps (s : screen) (es : list event) : option screen :=
  match es with
  | [] => Some s
  | e :: es' => s' ← step s e; steps s' es'
  end.

(** ** The invariant *)

Record screen_ok (s : screen) : Prop := {
  ok_parser : Parser.wf (s_parser s);
  ok_grid : Grid.wf (s_grid s);
  ok_shows : s_shows s = digest (shown (s_grid s))
}.

Lemma feed_bytes_run p g bytes :
  feed_bytes p g bytes =
    g' ← perform_all g (snd (run p bytes)); Some (fst (run p bytes), g').
Proof.
  revert p g. induction bytes as [|b bytes IH]; intros p g; [done|]. simpl.
  destruct (advance p b) as [p1 out1]. specialize (IH p1).
  destruct (run p1 bytes) as [p2 out2]. simpl in *. rewrite perform_all_app.
  destruct (perform_all g out1) as [g1|]; simpl; [|done]. apply IH.
Qed.

Lemma new_screen_ok rows cols :
  exists s, new rows cols = Some s /\ screen_ok s /\
    g_rows (s_grid s) = usize_clamp 1 MAX_ROWS rows /\
    g_cols (s_grid s) = usize_clamp 1 MAX_COLS cols.
Proof.
  unfold new. destruct (new_wf rows cols) as (g & -> & Hwf & Hr & Hc).
  eexists. split; [done|]. split; [|done]. split; simpl; auto using initial_wf.
Qed.

Lemma screen_feed_ok s bytes :
  screen_ok s ->
  exists s' changed, feed s bytes = Some (s', changed) /\ screen_ok s' /\
    g_rows (s_grid s') = g_rows (s_grid s) /\ g_cols (s_grid s') = g_cols (s_grid s) /\
    s_parser s' = fst (run (s_parser s) bytes) /\
    perform_all (s_grid s) (snd (run (s_parser s) bytes)) = Some (s_grid s') /\
    changed = negb (s_shows s' =? s_shows s)%Z.
Proof.
  intros [Hp Hg Hs]. unfold feed. rewrite feed_bytes_run.
  destruct (perform_all_keeps (s_grid s) (snd (run (s_parser s) bytes)) Hg)
    as (g' & -> & Hg' & ? & ?). simpl.
  do 2 eexists. split; [done|]. split_and!; try done. split; simpl; try done.
  by apply run_wf.
Qed.

Lemma resize_ok s rows cols :
  screen_ok s ->
  exists s', resize s rows cols = Some s' /\ screen_ok s' /\
    g_rows (s_grid s') = usize_clamp 1 MAX_ROWS rows /\
    g_cols (s_grid s') = usize_clamp 1 MAX_COLS cols.
Proof.
  intros [Hp Hg Hs]. unfold resize.
  destruct (resize_grid_wf (s_grid s) rows cols Hg) as (g' & -> & Hg' & ? & ?). simpl.
  eexists. by split_and!.
Qed.

Lemma screen_step_ok s e : screen_ok s -> exists s', step s e = Some s' /\ screen_ok s'.
Proof.
  intros Hs. destruct e as [bytes|rows cols]; simpl.
  - destruct (screen_feed_ok s bytes Hs) as (s' & changed & -> & Hs' & _). by exists s'.
  - destruct (resize_ok s rows cols Hs) as (s' & -> & Hs' & _). by exists s'.
Qed.

Lemma screen_steps_ok s es : screen_ok s -> exists s', steps s es = Some s' /\ screen_ok s'.
Proof.
  revert s. induction es as [|e es IH]; intros s Hs; simpl; [by eauto|].
  destruct (screen_step_ok s e Hs) as (s1 & -> & Hs1). simpl. by apply IH.
Qed.
End Screen.

(** ** What shows nothing new *)

(** The same size and the same cells, whatever else moved. *)
Definition still (g g' : grid) : Prop :=
  g_rows g' = g_rows g /\ g_cols g' = g_cols g /\ g_cells g' = g_cells g.

#[export] Instance still_preorder : PreOrder still.
Proof.
  split; [by intros g|]. intros g1 g2 g3 (?&?&?) (?&?&?).
  unfold still. split_and!; congruence.
Qed.

Lemma still_shown g g' : still g g' -> shown g' = shown g.
Proof. intros (Hr & Hc & Hcells). unfold shown. by rewrite Hr, Hc, Hcells. Qed.

Definition moves_and_pens : list byte :=
  ["A"; "B"; "C"; "D"; "E"; "F"; "G"; "H"; "I"; "Z"; "a"; "d"; "e"; "`"; "f"; "m"; "s"; "u"; "r"]%byte.

(** The actions that write no cell: colours, the cursor's moves, its being saved,
    restored, hidden and shown, the scroll region, the bell. *)
Definition shows_nothing (a : Action.t) : bool :=
  match a with
  | Action.Print _ => false
  | Action.Control b => negb (within 0x0A 0x0C (u8 b))
  | Action.Escape None last => Byte.eqb last "7" || Byte.eqb last "8"
  | Action.Csi None _ None last =>
      existsb (Byte.eqb last) moves_and_pens
  | Action.Csi (Some _) params None _ =>
      forallb (fun mode => negb ((mode =? 47) || (mode =? 1047) || (mode =? 1049))%Z) params
  | _ => true
  end.

Lemma move_to_still g row col g' : move_to g row col = Some g' -> still g g'.
Proof.
  unfold move_to. destruct (checked_sub (g_rows g) 1); simpl; [|done].
  destruct (checked_sub (g_cols g) 1); simpl; [|done]. by intros [= <-].
Qed.

Lemma restore_cursor_still g g' : restore_cursor g = Some g' -> still g g'.
Proof.
  unfold restore_cursor. destruct (move_to _ _ _) as [g1|] eqn:E; simpl; [|done].
  intros [= <-]. by apply move_to_still in E.
Qed.

Lemma set_modes_still g params on g' :
  forallb (fun mode => negb ((mode =? 47) || (mode =? 1047) || (mode =? 1049))%Z) params = true ->
  set_modes g params on = Some g' -> still g g'.
Proof.
  revert g. induction params as [|mode params IH]; intros g; simpl; [by intros _ [= <-]|].
  intros [Hm Hrest]%andb_true_iff. unfold set_mode.
  apply negb_true_iff, orb_false_iff in Hm as [[-> ->]%orb_false_iff ->]. simpl.
  destruct (mode =? 7)%Z; simpl; [|destruct (mode =? 25)%Z; simpl];
    intros E; apply IH in E; auto.
Qed.

Lemma pen_still g params : still g (pen g params).
Proof. unfold pen. by destruct (pen_loop _ _ _). Qed.

Lemma csi_move_still g params last moved g' :
  csi_move g params last = Some moved -> moved = Some g' -> still g g'.
Proof.
  unfold csi_move, tab, back_tab. intros E ->. revert E.
  repeat match goal with |- context [if ?c then _ else _] => destruct c end;
    intros E; injection E as E || done;
    repeat match type of E with
      | (?o ≫= _) = Some _ => destruct o; simpl in E; [|discriminate E]
      end; by apply move_to_still in E.
Qed.

Lemma csi_edit_still g params last g' :
  In last ["m"; "s"; "u"; "r"]%byte -> csi_edit g params last = Some g' -> still g g'.
Proof.
  intros Hlast. unfold csi_edit.
  destruct Hlast as [<-|[<-|[<-|[<-|[]]]]]; simpl.
  - intros [= <-]. apply pen_still.
  - destruct params; by intros [= <-].
  - apply restore_cursor_still.
  - unfold set_region. destruct (checked_sub (count params 0) 1) as [top|]; simpl; [|done].
    destruct (checked_sub (_ `min` _) 1) as [bot|]; simpl; [|done].
    intros E%move_to_still. by case_match.
Qed.

Lemma csi_moves_and_pens g params last g' :
  existsb (Byte.eqb last) moves_and_pens = true ->
  csi g None params last = Some g' -> still g g'.
Proof.
  intros Hin. apply existsb_exists in Hin as (b & Hb & Heq). apply Byte.byte_dec_bl in Heq as ->.
  simpl. destruct (csi_move g params b) as [moved|] eqn:E; [by eapply csi_move_still|].
  apply csi_edit_still. revert Hb E. unfold moves_and_pens. simpl.
  intros Hb. repeat destruct Hb as [<-|Hb]; simpl; try done; tauto.
Qed.

Lemma perform_shows_nothing g a g' :
  shows_nothing a = true -> perform g a = Some g' -> still g g'.
Proof.
  destruct a as [c|b|[i|] last|[m|] params [i|] last]; simpl; try done.
  - unfold control, tab. intros Hb%negb_true_iff. rewrite Hb.
    repeat case_match; try apply move_to_still. by intros [= <-].
  - by intros _ [= <-].
  - unfold escape. intros [H|H]%orb_true_iff; apply Byte.byte_dec_bl in H as ->; simpl.
    + by intros [= <-].
    + apply restore_cursor_still.
  - by intros _ [= <-].
  - intros Hp. unfold csi. repeat case_match; try (by intros [= <-]);
      by apply set_modes_still.
  - by intros _ [= <-].
  - apply csi_moves_and_pens.
Qed.

Lemma perform_all_shows_nothing g actions g' :
  Forall (fun a => shows_nothing a = true) actions ->
  perform_all g actions = Some g' -> still g g'.
Proof.
  intros Ha. revert g. induction Ha as [|a actions H _ IH]; intros g; simpl; [by intros [= <-]|].
  destruct (perform g a) as [g1|] eqn:E; simpl; [|done].
  intros E'. etrans; [by eapply perform_shows_nothing|by apply IH].
Qed.

(** ** Lists of lines *)

Lemma last_of_length {A} max (l : list A) : length (last_of max l) = max `min` length l.
Proof. unfold last_of. rewrite length_drop. lia. Qed.

Lemma last_of_suffix {A} max (l : list A) : last_of max l `suffix_of` l.
Proof. exists (take (length l - max) l). symmetry. apply take_drop. Qed.

Lemma drawn_lines_le lines : drawn_lines lines <= length lines.
Proof.
  induction lines as [|line lines IH]; simpl; [lia|].
  destruct (drawn_lines lines); [destruct line; lia|lia].
Qed.

(** The lines up to the last that is not empty, and only empty ones after. *)
Lemma drawn_lines_spec lines :
  Forall (eq []) (drop (drawn_lines lines) lines) /\
  (drawn_lines lines = 0 \/
   exists line, lines !! (drawn_lines lines - 1) = Some line /\ line <> []).
Proof.
  induction lines as [|line lines IH]; simpl; [split; [constructor|by left]|].
  destruct IH as [Hempty IH]. destruct (drawn_lines lines) as [|n] eqn:E; simpl in *.
  - destruct line as [|c line]; simpl; [split; [by constructor|by left]|].
    split; [done|]. right. by exists (c :: line).
  - split; [done|]. right. destruct IH as [IH|(l & Hl & Hne)]; [lia|].
    exists l. by rewrite Nat.sub_0_r in Hl.
Qed.

(** ** A reset *)

(** What brings any terminal back: whatever was being sent is cut short (CAN),
    and the terminal is reset ([ESC c]). *)
Definition reset_bytes : list byte := [can; "027"; "c"]%byte.

Lemma run_reset p :
  Parser.wf p ->
  exists p' lost, run p reset_bytes = (p', lost ++ [Action.Escape None "c"%byte]) /\
    at_ground p'.
Proof.
  intros Hwf. destruct (advance_can p Hwf) as (p1 & lost & E & [Hg Hp] & _).
  change reset_bytes with ([can] ++ ["027"; "c"]%byte). rewrite run_app. cbn [run].
  rewrite E. unfold advance at 1. rewrite Hg. unfold ground. rewrite Hp.
  unfold ground_byte. simpl. do 2 eexists. split; [by rewrite ?app_nil_r|]. by split.
Qed.

Lemma print_all_perform g s : perform_all g (Action.Print <$> s) = print_all g s.
Proof.
  revert g. induction s as [|c s IH]; intros g; simpl; [done|].
  by destruct (print g c); simpl.
Qed.

Lemma perform_reset g : Grid.wf g -> perform g (Action.Escape None "c"%byte) = Grid.new (g_rows g) (g_cols g).
Proof. done. Qed.

Section Claims.
Context (digest : nat * nat * list (list char * list bool) -> Z).
Context (is_alphanumeric : char -> bool).

(** C7: no run of bytes a program can print, cut into any chunks, and no size
    the pty is given makes the screen panic: every index, subtraction and slice of
    the parser and the grid is in bounds, and the invariant holds after. *)
Theorem screen_never_panics rows cols es :
  exists s0 s, new digest rows cols = Some s0 /\ steps digest s0 es = Some s /\
    screen_ok digest s.
Proof.
  destruct (new_screen_ok digest rows cols) as (s0 & -> & Hs & _).
  destruct (screen_steps_ok digest s0 es Hs) as (s & E & Hs'). eauto.
Qed.

(** Where the pty's reads cut what a program prints makes no difference,
    inside a character or an escape sequence too: two chunks leave the screen one
    chunk would, and a change of the whole is told by one of the two at least. *)
Theorem feed_any_cut s a b :
  screen_ok digest s ->
  exists sa sab ca cb c,
    feed digest s a = Some (sa, ca) /\ feed digest sa b = Some (sab, cb) /\
    feed digest s (a ++ b) = Some (sab, c) /\ (c = true -> ca || cb = true).
Proof.
  intros Hs. destruct (screen_feed_ok digest s a Hs) as (sa & ca & Ea & Hsa & _ & _ & Hpa & Hga & ->).
  destruct (screen_feed_ok digest sa b Hsa) as (sab & cb & Eb & Hsab & _ & _ & Hpb & Hgb & ->).
  destruct (screen_feed_ok digest s (a ++ b) Hs) as (s' & c & E & Hs' & _ & _ & Hp & Hg & ->).
  assert (s' = sab) as ->.
  { rewrite run_app in Hp, Hg. rewrite Hpa in Hpb, Hgb.
    destruct (run (s_parser s) a) as [p1 out1]. simpl in *.
    destruct (run p1 b) as [p2 out2]. simpl in *. rewrite perform_all_app, Hga in Hg.
    simpl in Hg. rewrite Hgb in Hg. injection Hg as Hg. destruct Hs' as [_ _ Hsh], Hsab as [_ _ Hsh'].
    destruct s' as [p' g' sh'], sab as [pb gb shb]. simpl in *. congruence. }
  do 5 eexists. split_and!; try done. intros Hc.
  apply negb_true_iff, Z.eqb_neq in Hc.
  destruct (Z.eqb_spec (s_shows sab) (s_shows sa)), (Z.eqb_spec (s_shows sa) (s_shows s));
    simpl; congruence.
Qed.

(** [feed] says a chunk changed the screen only where what it shows did, and a
    chunk of colours, moves of the cursor and modes alone never is a change: the
    screen of a harness that only does that is at rest. *)
Theorem feed_says_what_changed s bytes :
  screen_ok digest s ->
  exists s' changed, feed digest s bytes = Some (s', changed) /\
    (changed = true -> shown (s_grid s') <> shown (s_grid s)) /\
    (Forall (fun a => shows_nothing a = true) (snd (run (s_parser s) bytes)) ->
     changed = false /\ lines (s_grid s') = lines (s_grid s)).
Proof.
  intros Hs. destruct (screen_feed_ok digest s bytes Hs) as (s' & changed & E & Hs' & _ & _ & _ & Hg & ->).
  do 2 eexists. split; [done|]. rewrite (ok_shows _ _ Hs'), (ok_shows _ _ Hs). split.
  - intros Hc%negb_true_iff%Z.eqb_neq. congruence.
  - intros Ha. pose proof (perform_all_shows_nothing _ _ _ Ha Hg) as Hstill.
    rewrite (still_shown _ _ Hstill), Z.eqb_refl. split; [done|].
    unfold lines. by destruct Hstill as (_ & _ & ->).
Qed.

(** Whatever a program said before and however it was cut, and whatever size
    the screen was given, a CAN and a reset bring it to a blank screen on which the
    next line of text reads back as it was written. *)
Theorem reset_recovers rows cols es text :
  Forall (fun c => is_text c && is_narrow c = true) text ->
  exists s0 s, new digest rows cols = Some s0 /\ steps digest s0 es = Some s /\
    (length text <= g_rows (s_grid s) * g_cols (s_grid s) ->
     exists s' changed blank,
       feed digest s (reset_bytes ++ encode text) = Some (s', changed) /\
       lines (s_grid s') = trim_end text :: replicate blank []).
Proof.
  intros Htext.
  destruct (new_screen_ok digest rows cols) as (s0 & -> & Hs0 & _).
  destruct (screen_steps_ok digest s0 es Hs0) as (s & E & Hs). exists s0, s. do 2 (split; [done|]).
  intros Hlen. destruct (screen_feed_ok digest s (reset_bytes ++ encode text) Hs)
    as (s' & changed & E' & _ & _ & _ & _ & Hg & _).
  destruct (ok_grid _ _ Hs) as [Hr Hc _ _ _ _ _].
  destruct (text_reads_back (g_rows (s_grid s)) (g_cols (s_grid s)) text)
    as (g1 & g2 & blank & E1 & E2 & Hlines); auto.
  { eapply Forall_impl; [done|]. by intros c [_ ?]%andb_true_iff. }
  exists s', changed, blank. split; [done|].
  destruct (run_reset (s_parser s) (ok_parser _ _ Hs)) as (p1 & lost & Er & Hp1).
  destruct (run_text p1 text Hp1) as (p2 & Et & _).
  { eapply Forall_impl; [done|]. by intros c [? _]%andb_true_iff. }
  rewrite run_app, Er, Et in Hg. simpl in Hg.
  rewrite <- app_assoc, perform_all_app in Hg.
  destruct (perform_all_keeps (s_grid s) lost (ok_grid _ _ Hs)) as (gl & El & _ & Hrl & Hcl).
  rewrite El in Hg. cbn [mbind option_bind app perform_all] in Hg.
  change (perform gl _) with (Grid.new (g_rows gl) (g_cols gl)) in Hg.
  rewrite Hrl, Hcl, E1 in Hg. cbn [mbind option_bind] in Hg.
  rewrite print_all_perform in Hg. congruence.
Qed.

(** The tail of a screen is the last of its lines that have a letter or a digit,
    in order and at most as many as asked for; what is drawn at its bottom is its
    lines up to the last that is not empty, and the cursor, where it is told, is on
    one of them. *)
Theorem tail_and_bottom s max :
  (tail is_alphanumeric s max `suffix_of`
     filter (fun line => existsb is_alphanumeric line = true) (lines (s_grid s))) /\
  length (tail is_alphanumeric s max) =
    max `min` length (filter (fun line => existsb is_alphanumeric line = true) (lines (s_grid s))) /\
  (exists above below,
     lines (s_grid s) = above ++ d_lines (bottom s max) ++ below /\
     Forall (eq []) below /\
     (max = 0 \/ d_lines (bottom s max) = [] /\ above = [] \/
      exists line, list.last (d_lines (bottom s max)) = Some line /\ line <> []) /\
     length (d_lines (bottom s max)) <= max /\
     forall c, d_cursor (bottom s max) = Some c ->
       c_line c < length (d_lines (bottom s max)) /\
       (length above + c_line c, c_col c, c_shown c, c_plain_after c) = cursor (s_grid s)).
Proof.
  split; [apply last_of_suffix|]. split; [apply last_of_length|].
  unfold bottom. set (all := lines (s_grid s)).
  destruct (drawn_lines_spec all) as [Hempty Hlast]. pose proof (drawn_lines_le all) as Hle.
  set (drawn := take (drawn_lines all) all) in *.
  assert (length drawn = drawn_lines all) as Hd by (unfold drawn; rewrite length_take; lia).
  destruct (cursor (s_grid s)) as [[[line col] sh] plain]. simpl.
  exists (take (length drawn - max) drawn), (drop (drawn_lines all) all).
  split_and!.
  - rewrite app_assoc, take_drop. symmetry. apply take_drop.
  - done.
  - destruct (decide (drawn_lines all = 0)) as [H0|H0]; [|destruct Hlast as [?|(l & Hl & Hne)]; [done|]].
    + right; left. by rewrite (nil_length_inv drawn) by lia.
    + destruct (decide (max = 0)) as [->|Hmax]; [by left|]. right; right.
      exists l. split; [|done]. apply lookup_lt_Some in Hl as Hlt.
      rewrite last_lookup, length_drop, lookup_drop.
      replace (_ + _) with (drawn_lines all - 1) by lia.
      unfold drawn. rewrite lookup_take_lt by lia. done.
  - rewrite length_drop. lia.
  - intros c. unfold checked_sub. case_match; simpl; [|done]. case_match; [|done].
    intros [= <-]. simpl. ranges. split; [done|]. rewrite length_take. repeat f_equal. lia.
Qed.
End Claims.

(** ** Witnesses *)

(** A digest for the witnesses: what the cells add up to. *)
Definition sum_digest (s : nat * nat * list (list char * list bool)) : Z :=
  foldr (fun row z => (foldr Z.add 0 row.1 + z)%Z) 0%Z s.2.

Definition blank_screen : screen :=
  default (Screen initial (Grid 0 0 [] None 0 0 false None 0 0 true true false false None) 0)
    (new sum_digest 3 8).

Lemma blank_screen_ok : screen_ok sum_digest blank_screen.
Proof.
  destruct (new_screen_ok sum_digest 3 8) as (s & E & Hs & _). unfold blank_screen. by rewrite E.
Defined.

Lemma feed_any_cut_witness :
  exists sa sab ca cb c,
    feed sum_digest blank_screen ["027"; "["]%byte = Some (sa, ca) /\
    feed sum_digest sa ["5"; "C"; "x"]%byte = Some (sab, cb) /\
    feed sum_digest blank_screen ["027"; "["; "5"; "C"; "x"]%byte = Some (sab, c) /\
    (c = true -> ca || cb = true).
Proof. exact (feed_any_cut sum_digest blank_screen ["027"; "["]%byte ["5"; "C"; "x"]%byte blank_screen_ok). Defined.

(** A red pen, the cursor home, the cursor hidden. *)
Definition idle_bytes : list byte :=
  ["027"; "["; "3"; "1"; "m"; "027"; "["; "H"; "027"; "["; "?"; "2"; "5"; "l"]%byte.

Lemma feed_says_what_changed_witness :
  exists s' changed, feed sum_digest blank_screen idle_bytes = Some (s', changed) /\
    changed = false /\ lines (s_grid s') = lines (s_grid blank_screen).
Proof.
  destruct (feed_says_what_changed sum_digest blank_screen idle_bytes blank_screen_ok)
    as (s' & changed & E & _ & H).
  exists s', changed. split; [exact E|]. apply H. vm_compute. repeat constructor.
Defined.

(** "aébcde" *)
Definition sample_text : list char := [0x61; 0xE9; 0x62; 0x63; 0x64; 0x65]%Z.

Lemma reset_recovers_witness :
  exists s0 s, new sum_digest 24 80 = Some s0 /\
    steps sum_digest s0 [Printed ["027"; "]"; "x"]%byte; Resized 2 3] = Some s /\
    (length sample_text <= g_rows (s_grid s) * g_cols (s_grid s) ->
     exists s' changed blank,
       feed sum_digest s (reset_bytes ++ encode sample_text) = Some (s', changed) /\
       lines (s_grid s') = trim_end sample_text :: replicate blank []).
Proof.
  refine (reset_recovers sum_digest 24 80 _ sample_text _).
  unfold sample_text. by repeat constructor.
Defined.
