(* ===== verification/PasteWatch.v ===== *)
(** * Where the human's input stands in a bracketed paste

    [PasteWatch] of [cf-panes/src/arbiter.rs]: the pastes that end in a write,
    over whatever writes they came in. [feed_loop] is the loop of
    [PasteWatch::feed] over the stream (what the last write carried over and this
    one), [feed] the method; [scan] is what they promise, one byte at a time. A
    moment is its nanoseconds, a [Duration] too; a slice out of range is [None]. *)
From Stdlib Require Import Sorting.Sorted.
From S2P Require Import Prelude.
#[local] Open Scope nat_scope.

Definition PASTE_START : list byte := ["027"; "["; "2"; "0"; "0"; "~"]%byte.
Definition PASTE_END : list byte := ["027"; "["; "2"; "0"; "1"; "~"]%byte.

(** A UTF-8 continuation byte: [byte & 0xC0 == 0x80]. *)
Definition continues (b : byte) : bool := (Z.land (u8 b) 0xC0 =? 0x80)%Z.

Definition characters_in (text : list byte) : nat :=
  length (filter (fun b => continues b = false) text).

Record PasteEnd := { pe_at : nat; pe_characters : nat }.

Inductive Segment :=
| Typed (from to : nat)
| Pasted (characters : nat).

Record Fed := { ends : list PasteEnd; segments : list Segment }.

Definition no_fed : Fed := {| ends := []; segments := [] |}.

(** [fed.segments.push(segment)] and [fed.ends.push(end)] *)
Definition push_segment (s : Segment) (fed : Fed) : Fed :=
  {| ends := ends fed; segments := segments fed ++ [s] |}.
Definition push_end (e : PasteEnd) (fed : Fed) : Fed :=
  {| ends := ends fed ++ [e]; segments := segments fed |}.

Definition typed (fed : Fed) (from to : nat) : Fed :=
  if from <? to then push_segment (Typed from to) fed else fed.

Record watch := Watch {
  w_open : option nat;
  w_carried : list byte;
  w_idle_since : option Z;
  w_abandoned_after : Z
}.

Definition PASTE_ABANDONED_AFTER : Z := 10 * 1000 * 1000 * 1000.

Definition default_watch : watch := Watch None [] None PASTE_ABANDONED_AFTER.

(** [bytes.windows(n)] *)
Definition windows (n : nat) (bytes : list byte) : list (list byte) :=
  (fun i => take n (drop i bytes)) <$> seq 0 (length bytes + 1 - n).

Definition position_of (bytes marker : list byte) : option nat :=
  position (fun window => bool_decide (window = marker)) (windows (length marker) bytes).

(** [marker.starts_with(part)] *)
Definition starts_with (whole part : list byte) : bool :=
  bool_decide (take (length part) whole = part).

(** How many of the last bytes of [rest] could begin one of [markers]: from
    [PASTE_END.len() - 1] down. *)
Fixpoint held_from (n : nat) (rest : list byte) (markers : list (list byte)) : nat :=
  match n with
  | 0 => 0
  | S n' =>
      if (n <=? length rest) &&
         existsb (fun marker => starts_with marker (drop (length rest - n) rest)) markers
      then n else held_from n' rest markers
  end.

(** [carry]: what is kept, and how many bytes it is. *)
Definition carry (rest : list byte) (markers : list (list byte)) : list byte * nat :=
  let held := held_from (length PASTE_END - 1) rest markers in
  (drop (length rest - held) rest, held).

(** The loop of [feed], from place [at] of [stream], [n] bytes of it carried over;
    [len] is [bytes.len()]. What it leaves open and carries, and what it read. *)
Fixpoint feed_loop (fuel : nat) (stream : list byte) (n len at_ : nat) (open : option nat)
    (fed : Fed) : option (option nat * list byte * Fed) :=
  match fuel with
  | 0 => None
  | S fuel' =>
      rest ← slice_from stream at_;
      let in_write index := index - n in
      match open with
      | None =>
          match position_of rest PASTE_START with
          | None =>
              let '(carried, _) := carry rest [PASTE_START] in
              Some (None, carried, typed fed (in_write at_) len)
          | Some start =>
              let fed := typed fed (in_write at_) (in_write (at_ + start)) in
              let fed := push_segment (Pasted 0) fed in
              feed_loop fuel' stream n len (at_ + (start + length PASTE_START)) (Some 0) fed
          end
      | Some characters =>
          let closing := position_of rest PASTE_END in
          let opening := position_of rest PASTE_START in
          let closes := match closing, opening with
                        | Some e, Some start => if e <? start then Some e else None
                        | Some e, None => Some e
                        | None, _ => None
                        end in
          match closes, opening with
          | Some e, _ =>
              before ← slice rest 0 e;
              let content := characters_in before in
              let at_ := at_ + (e + length PASTE_END) in
              let fed := push_segment (Pasted content) fed in
              let fed := push_end {| pe_at := in_write at_;
                                     pe_characters := characters + content |} fed in
              feed_loop fuel' stream n len at_ None fed
          | None, Some start =>
              before ← slice rest 0 start;
              let fed := push_segment (Pasted (characters_in before)) fed in
              feed_loop fuel' stream n len (at_ + (start + length PASTE_START)) (Some 0) fed
          | None, None =>
              let '(carried, held) := carry rest [PASTE_END; PASTE_START] in
              before ← slice rest 0 (length rest - held);
              let content := characters_in before in
              Some (Some (characters + content), carried, push_segment (Pasted content) fed)
          end
      end
  end.

(** [now.saturating_duration_since(since)] *)
Definition duration_since (now since : Z) : Z := (now - since) `max` 0.

Definition cut_off (w : watch) (now : Z) : bool :=
  match w_idle_since w with
  | Some since => (w_abandoned_after w <? duration_since now since)%Z
  | None => false
  end.

(** Each turn of the loop takes a marker at least, so the stream's length and one
    are turns enough. *)
Definition feed (w : watch) (bytes : list byte) (now : Z) : option (watch * Fed) :=
  let w := if cut_off w now
           then Watch None [] (w_idle_since w) (w_abandoned_after w) else w in
  let stream := w_carried w ++ bytes in
  '(open, carried, fed) ← feed_loop (S (length stream)) stream (length (w_carried w))
                            (length bytes) 0 (w_open w) no_fed;
  Some (Watch open carried (Some now) (w_abandoned_after w), fed).

Definition idle (w : watch) (now : Z) : watch :=
  Watch (w_open w) (w_carried w) (Some now) (w_abandoned_after w).

(** The parts of a write, each ending where a paste ends. *)
Fixpoint parts_from (bytes : list byte) (from : nat) (none_yet : bool) (es : list PasteEnd) :
    option (list (list byte * option nat)) :=
  match es with
  | [] =>
      if (from <? length bytes) || none_yet
      then last_part ← slice_from bytes from; Some [(last_part, None)]
      else Some []
  | e :: es' =>
      part ← slice bytes from (pe_at e);
      rest ← parts_from bytes (pe_at e) false es';
      Some ((part, Some (pe_characters e)) :: rest)
  end.

Definition parts_ending_pastes (bytes : list byte) (es : list PasteEnd) :
    option (list (list byte * option nat)) :=
  parts_from bytes 0 true es.

(** ** What the scan promises *)

(** The markers looked for next. *)
Definition markers (open : option nat) : list (list byte) :=
  match open with None => [PASTE_START] | Some _ => [PASTE_END; PASTE_START] end.

(** The scan of a stream, a byte at a time, [skip] bytes of a marker still to go
    by: the ends found (their places in the stream from [at_] on), what is open at its
    end and the bytes held back because they may begin a marker. *)
Fixpoint scan (skip : nat) (open : option nat) (at_ : nat) (s : list byte) :
    list PasteEnd * option nat * list byte :=
  match s with
  | [] => ([], open, [])
  | b :: s' =>
      match skip with
      | S skip' => scan skip' open (S at_) s'
      | 0 =>
          if starts_with s PASTE_START then scan 5 (Some 0) (S at_) s'
          else match open with
          | Some n =>
              if starts_with s PASTE_END then
                let '(es, open', held) := scan 5 None (S at_) s' in
                ({| pe_at := at_ + 6; pe_characters := n |} :: es, open', held)
              else if existsb (fun marker => starts_with marker s) (markers open) then
                ([], open, s)
              else scan 0 (Some (n + characters_in [b])) (S at_) s'
          | None =>
              if existsb (fun marker => starts_with marker s) (markers open)
              then ([], open, s) else scan 0 None (S at_) s'
          end
      end
  end.

(** ** Prefixes and places *)

Lemma starts_with_prefix whole part : starts_with whole part = true <-> part `prefix_of` whole.
Proof.
  unfold starts_with. rewrite bool_decide_eq_true. split.
  - intros <-. apply prefix_take.
  - intros [k ->]. by rewrite take_app_length.
Qed.

Lemma starts_with_false whole part : starts_with whole part = false <-> ~ part `prefix_of` whole.
Proof. rewrite <- starts_with_prefix. by destruct (starts_with whole part). Qed.

Definition could_begin (ms : list (list byte)) (s : list byte) : bool :=
  existsb (fun marker => starts_with marker s) ms.

Lemma could_begin_spec ms s : could_begin ms s = true <-> exists m, m ∈ ms /\ s `prefix_of` m.
Proof.
  unfold could_begin. rewrite existsb_exists.
  setoid_rewrite starts_with_prefix. by setoid_rewrite list_elem_of_In.
Qed.

Lemma could_begin_app ms s t : could_begin ms (s ++ t) = true -> could_begin ms s = true.
Proof.
  rewrite !could_begin_spec. intros (m & ? & Hp). exists m. split; [done|].
  by eapply prefix_app_l.
Qed.

Lemma starts_with_app ms s t m :
  m ∈ ms -> could_begin ms s = false -> starts_with (s ++ t) m = starts_with s m.
Proof.
  intros Hm Hno. apply eq_bool_prop_intro. rewrite !Is_true_true, !starts_with_prefix.
  split; [|by intros [k ->]; exists (k ++ t); rewrite app_assoc].
  intros Hp. destruct (prefix_weak_total m s (s ++ t)) as [?|Hs]; [done|by exists t|done|].
  exfalso. apply not_true_iff_false in Hno. apply Hno, could_begin_spec. by exists m.
Qed.

Lemma windows_length n bytes : length (windows n bytes) = length bytes + 1 - n.
Proof. unfold windows. by rewrite length_fmap, length_seq. Qed.

Lemma windows_lookup n bytes i :
  0 < n -> windows n bytes !! i =
    if i + n <=? length bytes then Some (take n (drop i bytes)) else None.
Proof.
  intros Hn. unfold windows. rewrite list_lookup_fmap.
  destruct (i + n <=? length bytes) eqn:E; ranges.
  - rewrite lookup_seq_lt by lia. simpl. done.
  - rewrite lookup_seq_ge by lia. done.
Qed.

(** A marker is where [position_of] says, and nowhere before. *)
Definition none_before (bytes marker : list byte) (n : nat) : Prop :=
  forall i, i < n -> starts_with (drop i bytes) marker = false.

Lemma window_is bytes marker i :
  0 < length marker ->
  starts_with (drop i bytes) marker = true <->
  windows (length marker) bytes !! i = Some marker.
Proof.
  intros Hm. rewrite windows_lookup by done. unfold starts_with. rewrite bool_decide_eq_true.
  case_match; ranges; split; try congruence.
  - intros E. exfalso. apply (f_equal length) in E.
    rewrite length_take, length_drop in E. lia.
Qed.

Lemma position_of_Some bytes marker i :
  0 < length marker -> position_of bytes marker = Some i ->
  starts_with (drop i bytes) marker = true /\ none_before bytes marker i /\
  i + length marker <= length bytes.
Proof.
  unfold position_of. intros Hm H. pose proof (position_lt _ _ _ H) as Hlt.
  rewrite windows_length in Hlt.
  apply position_Some in H as (w & Hw & Hb & Hbefore).
  apply bool_decide_eq_true in Hb as ->. split; [by apply window_is|]. split; [|lia].
  intros j Hj. apply not_true_iff_false. intros Hat. apply window_is in Hat; [|done].
  eapply Forall_lookup_1 with (i := j) in Hbefore; [|by rewrite lookup_take_lt].
  simpl in Hbefore. by apply bool_decide_eq_false in Hbefore.
Qed.

Lemma position_of_None bytes marker :
  0 < length marker -> position_of bytes marker = None ->
  forall i, starts_with (drop i bytes) marker = false.
Proof.
  unfold position_of. intros Hm H i. apply position_None in H.
  apply not_true_iff_false. intros Hat. apply window_is in Hat; [|done].
  eapply Forall_lookup_1 in H; [|exact Hat]. by apply bool_decide_eq_false in H.
Qed.

Lemma held_from_spec n rest ms :
  held_from n rest ms <= n `min` length rest /\
  (held_from n rest ms = 0 \/
     could_begin ms (drop (length rest - held_from n rest ms) rest) = true) /\
  forall k, held_from n rest ms < k <= n `min` length rest ->
    could_begin ms (drop (length rest - k) rest) = false.
Proof.
  induction n as [|n (IH1 & IH2 & IH3)]; cbn [held_from]; [split_and!; [lia|by left|lia]|].
  fold (could_begin ms (drop (length rest - S n) rest)).
  destruct (_ && _) eqn:E.
  - ranges. split_and!; [lia|by right|lia].
  - split_and!; [lia|done|]. intros k Hk.
    destruct (decide (k = S n)) as [->|]; [|apply IH3; lia].
    apply andb_false_iff in E as [E|E]; [ranges; lia|done].
Qed.

(** ** The scan *)

Lemma start_in open : PASTE_START ∈ markers open.
Proof. destruct open; unfold markers; set_solver. Qed.

Lemma end_in n : PASTE_END ∈ markers (Some n).
Proof. unfold markers. set_solver. Qed.

Lemma marker_length open m : m ∈ markers open -> length m = 6.
Proof. destruct open; unfold markers; intros Hm; repeat (apply elem_of_cons in Hm as [->|Hm]; [done|]);
  by apply elem_of_nil in Hm. Qed.

(** The scan at a byte that neither ends a skip nor a marker: one of four ways. *)
Lemma scan_cons open at_ b s :
  scan 0 open at_ (b :: s) =
    if starts_with (b :: s) PASTE_START then scan 5 (Some 0) (S at_) s
    else if could_begin (markers open) (b :: s) && negb (starts_with (b :: s) PASTE_END)
    then ([], open, b :: s)
    else match open with
    | Some n =>
        if starts_with (b :: s) PASTE_END then
          let '(es, open', held) := scan 5 None (S at_) s in
          ({| pe_at := at_ + 6; pe_characters := n |} :: es, open', held)
        else scan 0 (Some (n + characters_in [b])) (S at_) s
    | None => scan 0 None (S at_) s
    end.
Proof.
  simpl scan. fold (could_begin (markers open) (b :: s)).
  destruct (starts_with (b :: s) PASTE_START) eqn:Es; [done|].
  destruct open as [n|].
  - destruct (starts_with (b :: s) PASTE_END) eqn:Ee; simpl; [by rewrite andb_false_r|].
    by rewrite andb_true_r.
  - destruct (could_begin (markers None) (b :: s)) eqn:Ec; simpl; [|done].
    destruct (starts_with (b :: s) PASTE_END) eqn:Ee; simpl; [|done].
    exfalso. apply could_begin_spec in Ec as (m & Hm & Hp1).
    apply starts_with_prefix in Ee.
    apply list_elem_of_singleton in Hm as ->.
    pose proof (prefix_length_eq _ _ (transitivity Ee Hp1) ltac:(done)). done.
Qed.

Lemma scan_skip_bytes k open at_ s t :
  k = length s -> scan k open at_ (s ++ t) = scan 0 open (at_ + length s) t.
Proof.
  revert k at_. induction s as [|b s IH]; intros k at_ ->; simpl; [by rewrite Nat.add_0_r|].
  rewrite IH by done. f_equal. lia.
Qed.

Definition longer (open : option nat) (text : list byte) : option nat :=
  (fun n => n + characters_in text) <$> open.

(** No marker looked for begins at the byte. *)
Definition no_marker (open : option nat) (s : list byte) : Prop :=
  starts_with s PASTE_START = false /\ (is_Some open -> starts_with s PASTE_END = false).

Lemma scan_start open at_ t : scan 0 open at_ (PASTE_START ++ t) = scan 0 (Some 0) (at_ + 6) t.
Proof.
  change (PASTE_START ++ t) with ("027"%byte :: (drop 1 PASTE_START ++ t)). rewrite scan_cons.
  assert (starts_with ("027"%byte :: (drop 1 PASTE_START ++ t)) PASTE_START = true) as ->.
  { apply starts_with_prefix. by exists t. }
  rewrite scan_skip_bytes by done. f_equal. simpl. lia.
Qed.

Lemma scan_end n at_ t :
  scan 0 (Some n) at_ (PASTE_END ++ t) =
    let '(es, open', held) := scan 0 None (at_ + 6) t in
    ({| pe_at := at_ + 6; pe_characters := n |} :: es, open', held).
Proof.
  change (PASTE_END ++ t) with ("027"%byte :: (drop 1 PASTE_END ++ t)). rewrite scan_cons.
  assert (starts_with ("027"%byte :: (drop 1 PASTE_END ++ t)) PASTE_END = true) as ->.
  { apply starts_with_prefix. by exists t. }
  assert (starts_with ("027"%byte :: (drop 1 PASTE_END ++ t)) PASTE_START = false) as ->.
  { apply starts_with_false. intros [k E]. by simplify_eq/=. }
  rewrite andb_false_r, scan_skip_bytes by done.
  replace (S at_ + length (drop 1 PASTE_END)) with (at_ + 6); [done|simpl; lia].
Qed.

Lemma scan_held open at_ s :
  s <> [] -> no_marker open s -> could_begin (markers open) s = true ->
  scan 0 open at_ s = ([], open, s).
Proof.
  intros Hs [H1 H2] Hc. destruct s as [|b s]; [done|]. rewrite scan_cons, H1, Hc.
  destruct (starts_with (b :: s) PASTE_END) eqn:Ee; simpl; [|done].
  destruct open as [n|]; [specialize (H2 ltac:(done)); congruence|]. exfalso.
  apply could_begin_spec in Hc as (m & Hm & Hp). apply list_elem_of_singleton in Hm as ->.
  apply starts_with_prefix in Ee.
  pose proof (prefix_length_eq _ _ (transitivity Ee Hp) ltac:(done)). done.
Qed.

Lemma scan_byte open at_ b s :
  no_marker open (b :: s) -> could_begin (markers open) (b :: s) = false ->
  scan 0 open at_ (b :: s) = scan 0 (longer open [b]) (at_ + 1) s.
Proof.
  intros [H1 H2] Hc. rewrite scan_cons, H1, Hc. simpl. rewrite Nat.add_1_r.
  destruct open as [n|]; [|done]. by rewrite H2.
Qed.

(** The scan's turns. *)
Lemma scan_ind (P : option nat -> nat -> list byte -> list PasteEnd -> option nat ->
                    list byte -> Prop) :
  (forall o at_, P o at_ [] [] o []) ->
  (forall o at_ s, s <> [] -> no_marker o s -> could_begin (markers o) s = true ->
     P o at_ s [] o s) ->
  (forall o at_ t es o' h, P (Some 0) (at_ + 6) t es o' h ->
     P o at_ (PASTE_START ++ t) es o' h) ->
  (forall n at_ t es o' h, P None (at_ + 6) t es o' h ->
     P (Some n) at_ (PASTE_END ++ t) ({| pe_at := at_ + 6; pe_characters := n |} :: es) o' h) ->
  (forall o at_ b s es o' h, no_marker o (b :: s) -> could_begin (markers o) (b :: s) = false ->
     P (longer o [b]) (at_ + 1) s es o' h -> P o at_ (b :: s) es o' h) ->
  forall o at_ s, let '(es, o', h) := scan 0 o at_ s in P o at_ s es o' h.
Proof.
  intros Hnil Hheld Hstart Hend Hbyte o at_ s. remember (length s) as n eqn:Hn.
  revert o at_ s Hn. induction (lt_wf n) as [n _ IH]. intros o at_ s ->.
  assert (IH' : forall o at_ t, length t < length s ->
            let '(es, o', h) := scan 0 o at_ t in P o at_ t es o' h)
    by (intros o1 at1 t Ht; exact (IH (length t) Ht o1 at1 t eq_refl)).
  clear IH.
  destruct (starts_with s PASTE_START) eqn:Es.
  { apply starts_with_prefix in Es as [t ->]. rewrite scan_start.
    specialize (IH' (Some 0) (at_ + 6) t). rewrite length_app in IH'. simpl in IH'.
    destruct (scan _ _ _ t) as [[es o'] h]. apply Hstart, IH'. lia. }
  destruct (decide (is_Some o /\ starts_with s PASTE_END = true)) as [[[k ->] Ee]|Hno].
  { apply starts_with_prefix in Ee as [t ->]. rewrite scan_end.
    specialize (IH' None (at_ + 6) t). rewrite length_app in IH'. simpl in IH'.
    destruct (scan _ _ _ t) as [[es o'] h]. apply Hend, IH'. lia. }
  assert (no_marker o s) as Hm.
  { split; [done|]. intros Ho. apply not_true_iff_false. intros ?. by apply Hno. }
  destruct s as [|b s]; [apply Hnil|].
  destruct (could_begin (markers o) (b :: s)) eqn:Ec.
  - rewrite scan_held by done. by apply Hheld.
  - rewrite scan_byte by done. specialize (IH' (longer o [b]) (at_ + 1) s ltac:(simpl; lia)).
    destruct (scan _ _ _ s) as [[es o'] h]. by apply Hbyte.
Qed.

Lemma could_begin_short o s : could_begin (markers o) s = true -> no_marker o s -> length s <= 5.
Proof.
  intros (m & Hm & Hp)%could_begin_spec [H1 H2]. pose proof (marker_length o m Hm) as Hlen.
  pose proof (prefix_length _ _ Hp) as Hle.
  destruct (decide (length s = 6)) as [H6|]; [|lia]. exfalso.
  pose proof (prefix_length_eq _ _ Hp ltac:(lia)) as ->.
  destruct o as [n|]; simpl in Hm.
  - apply elem_of_cons in Hm as [->|Hm]; [by specialize (H2 ltac:(done))|].
    by apply list_elem_of_singleton in Hm as ->.
  - by apply list_elem_of_singleton in Hm as ->.
Qed.

(** What the scan holds back is the end of the stream, and shorter than a marker. *)
Lemma scan_held_back o at_ s :
  let '(es, o', h) := scan 0 o at_ s in h `suffix_of` s /\ length h <= 5.
Proof.
  revert o at_ s. apply scan_ind.
  - intros. split; [done|simpl; lia].
  - intros o at_ s _ Hm Hc. split; [done|]. by apply could_begin_short with o.
  - intros o at_ t es o' h [H1 H2]. split; [by apply suffix_app_r|done].
  - intros n at_ t es o' h [H1 H2]. split; [by apply suffix_app_r|done].
  - intros o at_ b s es o' h _ _ [H1 H2]. split; [by apply suffix_cons_r|done].
Qed.

(** A paste ends past its marker, in the stream, and after the one before it. *)
Lemma scan_ends o at_ s :
  let '(es, o', h) := scan 0 o at_ s in
  StronglySorted lt (pe_at <$> es) /\ Forall (fun e => at_ + 6 <= pe_at e <= at_ + length s) es.
Proof.
  revert o at_ s. apply scan_ind.
  - intros. by split; constructor.
  - intros. by split; constructor.
  - intros o at_ t es o' h [H1 H2]. split; [done|]. rewrite length_app.
    eapply Forall_impl; [done|]. simpl. lia.
  - intros n at_ t es o' h [H1 H2]. rewrite length_app. split.
    + simpl. constructor; [done|]. apply Forall_fmap.
      eapply Forall_impl; [done|]. simpl. lia.
    + constructor; [simpl; lia|]. eapply Forall_impl; [done|]. simpl. lia.
  - intros o at_ b s es o' h _ _ [H1 H2]. split; [done|].
    eapply Forall_impl; [done|]. simpl. lia.
Qed.

Lemma no_marker_app o s t :
  no_marker o s -> could_begin (markers o) s = false -> no_marker o (s ++ t).
Proof.
  intros [H1 H2] Hc. split.
  - rewrite (starts_with_app (markers o)); auto using start_in.
  - intros Ho. rewrite (starts_with_app (markers o)); auto.
    destruct Ho as [n ->]. apply end_in.
Qed.

(** The scan of two writes is the scan of the first, and of what it held back with the
    second. *)
(** The scan of a place further on is the scan. *)
Lemma scan_shift o at_ n s :
  scan 0 o (at_ + n) s =
    let '(es, o', h) := scan 0 o at_ s in
    ((fun e => {| pe_at := pe_at e + n; pe_characters := pe_characters e |}) <$> es, o', h).
Proof.
  enough (let '(es, o', h) := scan 0 o at_ s in
          scan 0 o (at_ + n) s =
            ((fun e => {| pe_at := pe_at e + n; pe_characters := pe_characters e |}) <$> es, o', h))
    as H by (destruct (scan 0 o at_ s) as [[es o'] h]; exact H).
  revert o at_ s. apply scan_ind; try done.
  - intros o at_ s Hs Hm Hc. by apply scan_held.
  - intros o at_ t es o' h IH. rewrite scan_start, <- IH. f_equal. lia.
  - intros c at_ t es o' h IH. rewrite scan_end.
    replace (at_ + n + 6) with (at_ + 6 + n) by lia. by rewrite IH.
  - intros o at_ b s es o' h Hm Hc IH. rewrite scan_byte by done. rewrite <- IH. f_equal. lia.
Qed.

Lemma scan_app o at_ s t :
  scan 0 o at_ (s ++ t) =
    let '(es, o', h) := scan 0 o at_ s in
    let '(es2, o2, h2) := scan 0 o' (at_ + length s - length h) (h ++ t) in
    (es ++ es2, o2, h2).
Proof.
  enough (let '(es, o', h) := scan 0 o at_ s in
          scan 0 o at_ (s ++ t) =
            let '(es2, o2, h2) := scan 0 o' (at_ + length s - length h) (h ++ t) in
            (es ++ es2, o2, h2)) as H
    by (destruct (scan 0 o at_ s) as [[es o'] h]; exact H).
  revert o at_ s. apply scan_ind.
  - intros o1 at1. simpl. rewrite Nat.add_0_r, Nat.sub_0_r. by destruct (scan _ _ _ t) as [[??]?].
  - intros o1 at1 s1 _ _ _. rewrite Nat.add_sub. by destruct (scan _ _ _ (s1 ++ t)) as [[??]?].
  - intros o1 at1 t1 es o' h IH. rewrite <- app_assoc, scan_start, IH, length_app.
    by rewrite Nat.add_assoc.
  - intros n at1 t1 es o' h IH. rewrite <- app_assoc, scan_end, IH, length_app, Nat.add_assoc.
    by destruct (scan _ _ _ (h ++ t)) as [[??]?].
  - intros o1 at1 b s1 es o' h Hm Hc IH.
    change ((b :: s1) ++ t) with (b :: (s1 ++ t)). rewrite scan_byte.
    + rewrite IH. cbn [length]. by replace (at1 + S (length s1)) with (at1 + 1 + length s1) by lia.
    + by apply (no_marker_app o1 (b :: s1) t).
    + apply not_true_iff_false. intros H.
      by rewrite (could_begin_app _ (b :: s1) t H) in Hc.
Qed.

(** ** The loop is the scan *)

Lemma longer_app o a b : longer (longer o a) b = longer o (a ++ b).
Proof.
  destruct o as [n|]; [|done]. unfold longer, characters_in. simpl. f_equal.
  rewrite filter_app, length_app. lia.
Qed.

Lemma longer_markers o s : markers (longer o s) = markers o.
Proof. by destruct o. Qed.

Lemma longer_no_marker o pre s : no_marker (longer o pre) s <-> no_marker o s.
Proof. unfold no_marker, longer. by rewrite fmap_is_Some. Qed.

(** Bytes none of which begins a marker. *)
Definition plain_bytes (o : option nat) (n : nat) (s : list byte) : Prop :=
  forall i, i < n -> no_marker o (drop i s) /\ could_begin (markers o) (drop i s) = false.

Lemma scan_past o at_ n s :
  plain_bytes o n s -> n <= length s ->
  scan 0 o at_ s = scan 0 (longer o (take n s)) (at_ + n) (drop n s).
Proof.
  revert o at_ s. induction n as [|n IH]; intros o at_ s Hp Hn.
  { rewrite Nat.add_0_r, drop_0. by destruct o as [k|]; simpl; rewrite ?Nat.add_0_r. }
  destruct s as [|b s]; simpl in Hn; [lia|].
  destruct (Hp 0 ltac:(lia)) as [Hm Hc]. rewrite drop_0 in Hm, Hc.
  rewrite scan_byte by done. rewrite IH.
  - rewrite longer_app. cbn [app take drop]. by replace (at_ + S n) with (at_ + 1 + n) by lia.
  - intros i Hi. rewrite longer_no_marker, longer_markers. apply (Hp (S i)). lia.
  - lia.
Qed.

Lemma plain_before_marker o n s :
  none_before s PASTE_START n -> (is_Some o -> none_before s PASTE_END n) ->
  n + 6 <= length s -> plain_bytes o n s.
Proof.
  intros Hs He Hn i Hi. assert (no_marker o (drop i s)) as Hm
    by (split; [by apply Hs|intros Ho; by apply He]).
  split; [done|]. apply not_true_iff_false. intros Hc.
  apply could_begin_short in Hc; [|done]. rewrite length_drop in Hc. lia.
Qed.

Lemma scan_to_start o at_ s i :
  position_of s PASTE_START = Some i -> (is_Some o -> none_before s PASTE_END i) ->
  scan 0 o at_ s = scan 0 (Some 0) (at_ + (i + 6)) (drop (i + 6) s) /\ i + 6 <= length s.
Proof.
  intros Hp He. apply position_of_Some in Hp as (Hat & Hb & Hlen); [|simpl; lia].
  simpl in Hlen. split; [|lia].
  rewrite (scan_past o at_ i) by (auto using plain_before_marker; lia).
  apply starts_with_prefix in Hat as [t Ht]. rewrite Ht, scan_start.
  f_equal; [lia|]. by rewrite <- drop_drop, Ht.
Qed.

Lemma scan_to_end n at_ s i :
  position_of s PASTE_END = Some i -> none_before s PASTE_START i ->
  scan 0 (Some n) at_ s =
    (let '(es, o', h) := scan 0 None (at_ + (i + 6)) (drop (i + 6) s) in
     ({| pe_at := at_ + (i + 6); pe_characters := n + characters_in (take i s) |} :: es, o', h)) /\
  i + 6 <= length s.
Proof.
  intros Hp Hs. apply position_of_Some in Hp as (Hat & Hb & Hlen); [|simpl; lia].
  simpl in Hlen. split; [|lia].
  rewrite (scan_past (Some n) at_ i) by (auto using plain_before_marker; lia).
  apply starts_with_prefix in Hat as [t Ht]. rewrite Ht. cbn [longer fmap option_fmap option_map].
  rewrite scan_end. rewrite <- drop_drop, Ht. change (drop 6 (PASTE_END ++ t)) with t.
  rewrite <- Nat.add_assoc. done.
Qed.

Lemma scan_to_the_end o at_ s :
  (forall i, starts_with (drop i s) PASTE_START = false) ->
  (is_Some o -> forall i, starts_with (drop i s) PASTE_END = false) ->
  let '(carried, held) := carry s (markers o) in
  held <= length s /\ scan 0 o at_ s = ([], longer o (take (length s - held) s), carried).
Proof.
  intros Hs He. unfold carry. change (length PASTE_END - 1) with 5.
  destruct (held_from_spec 5 s (markers o)) as (H1 & H2 & H3).
  remember (held_from 5 s (markers o)) as held eqn:Eh. clear Eh. split; [lia|].
  assert (forall i, no_marker o (drop i s)) as Hm by (split; auto).
  rewrite (scan_past o at_ (length s - held)); [|intros i Hi; split; [done|]|lia].
  - destruct (decide (held = 0)) as [->|Hh].
    + by rewrite Nat.sub_0_r, drop_all.
    + destruct H2 as [?|Hc]; [done|]. apply scan_held.
      * intros H%(f_equal length). rewrite length_drop in H. simpl in H. lia.
      * by apply longer_no_marker.
      * by rewrite longer_markers.
  - apply not_true_iff_false. intros Hc. pose proof (could_begin_short _ _ Hc (Hm i)) as H5.
    rewrite length_drop in H5. specialize (H3 (length s - i) ltac:(lia)).
    replace (length s - (length s - i)) with i in H3 by lia. congruence.
Qed.

(** Ends as places in the write: what was carried over, [n] bytes, was in the one
    before. *)
Definition end_in_write (n : nat) (e : PasteEnd) : PasteEnd :=
  {| pe_at := pe_at e - n; pe_characters := pe_characters e |}.

(** Typed pieces one after another in [from..len]. *)
Fixpoint pieces_in (from len : nat) (segs : list Segment) : Prop :=
  match segs with
  | [] => True
  | Typed f t :: segs' => from <= f /\ f < t /\ t <= len /\ pieces_in t len segs'
  | Pasted _ :: segs' => pieces_in from len segs'
  end.

Lemma pieces_weaken from from' len segs :
  from <= from' -> pieces_in from' len segs -> pieces_in from len segs.
Proof.
  revert from from'. induction segs as [|[f t|c] segs IH]; intros from from' Hle; simpl; [done| |].
  - intros (?&?&?&?). split_and!; auto; lia.
  - by apply IH.
Qed.

Definition pushed (n : nat) (fed : Fed) (es : list PasteEnd) (segs : list Segment) : Fed :=
  {| ends := ends fed ++ (end_in_write n <$> es); segments := segments fed ++ segs |}.

(** What a typed piece pushes. *)
Definition typed_piece (from to : nat) : list Segment :=
  if from <? to then [Typed from to] else [].

Lemma typed_pushed n fed from to : typed fed from to = pushed n fed [] (typed_piece from to).
Proof.
  unfold typed, typed_piece, pushed, push_segment.
  destruct fed as [e s]. simpl. rewrite app_nil_r. case_match; simpl; by rewrite ?app_nil_r.
Qed.

Lemma pushed_pushed n fed es1 segs1 es2 segs2 :
  pushed n (pushed n fed es1 segs1) es2 segs2 = pushed n fed (es1 ++ es2) (segs1 ++ segs2).
Proof. unfold pushed. simpl. by rewrite fmap_app, !app_assoc. Qed.

Lemma push_segment_pushed n fed s : push_segment s fed = pushed n fed [] [s].
Proof. unfold pushed, push_segment. simpl. by rewrite app_nil_r. Qed.

Lemma push_end_pushed n fed at_ c :
  push_end {| pe_at := at_ - n; pe_characters := c |} fed =
    pushed n fed [{| pe_at := at_; pe_characters := c |}] [].
Proof. unfold pushed, push_end. simpl. by rewrite app_nil_r. Qed.

Lemma typed_piece_in from to len segs :
  to <= len -> pieces_in (from `max` to) len segs -> pieces_in from len (typed_piece from to ++ segs).
Proof.
  intros Hlen. unfold typed_piece. case_match; ranges; simpl.
  - rewrite Nat.max_r by lia. auto with lia.
  - by rewrite Nat.max_l by lia.
Qed.

(** What a run of the loop from place [at_] of the stream owes. *)
Definition reads (n len at_ : nat) (o : option nat) (rest : list byte) (fed : Fed)
    (ran : option (option nat * list byte * Fed)) : Prop :=
  let '(es, o', h) := scan 0 o at_ rest in
  exists segs, ran = Some (o', h, pushed n fed es segs) /\ pieces_in (at_ - n) len segs.

(** A turn that pushed [es1] and [segs1] and went on. *)
Lemma reads_on n len at1 at2 o1 o2 rest1 rest2 fed es1 segs1 ran :
  (let '(es, o', h) := scan 0 o2 at2 rest2 in scan 0 o1 at1 rest1 = (es1 ++ es, o', h)) ->
  (forall segs, pieces_in (at2 - n) len segs -> pieces_in (at1 - n) len (segs1 ++ segs)) ->
  reads n len at2 o2 rest2 (pushed n fed es1 segs1) ran -> reads n len at1 o1 rest1 fed ran.
Proof.
  unfold reads. intros Hscan Hp. destruct (scan 0 o2 at2 rest2) as [[es o'] h].
  rewrite Hscan. intros (segs & -> & Hin). exists (segs1 ++ segs).
  rewrite pushed_pushed. auto.
Qed.

Section Turn.
Context (fuel : nat) (stream : list byte) (n len at_ : nat) (rest : list byte).
Context (Hstream : length stream = n + len) (Hrest : at_ + length rest = length stream).
Context (IH : forall i o fed, i + 6 <= length rest ->
  reads n len (at_ + (i + 6)) o (drop (i + 6) rest) fed
    (feed_loop fuel stream n len (at_ + (i + 6)) o fed)).

Lemma turn_closed fed :
  reads n len at_ None rest fed
    (match position_of rest PASTE_START with
     | None => let '(carried, _) := carry rest [PASTE_START] in
               Some (None, carried, typed fed (at_ - n) len)
     | Some start =>
         feed_loop fuel stream n len (at_ + (start + 6)) (Some 0)
           (push_segment (Pasted 0) (typed fed (at_ - n) (at_ + start - n)))
     end).
Proof.
  destruct (position_of rest PASTE_START) as [start|] eqn:E.
  - destruct (scan_to_start None at_ rest start E) as [Hscan Hlen]; [by intros []|].
    rewrite (typed_pushed n), (push_segment_pushed n), pushed_pushed.
    eapply reads_on; [|clear Hscan|by apply IH].
    + rewrite Hscan. clear. by repeat case_match.
    + intros segs Hp. rewrite <- app_assoc. apply typed_piece_in; [lia|]. simpl.
      eapply pieces_weaken; [|done]. lia.
  - pose proof (scan_to_the_end None at_ rest (position_of_None rest PASTE_START ltac:(simpl; lia) E)) as H.
    simpl markers in H. destruct (carry rest [PASTE_START]) as [carried held].
    destruct H as [_ Hscan]; [by intros []|]. unfold reads. rewrite Hscan.
    exists (typed_piece (at_ - n) len). rewrite (typed_pushed n). split; [done|].
    rewrite <- (app_nil_r (typed_piece _ _)). by apply typed_piece_in.
Qed.

(** The closing marker that comes before any opening one. *)
Definition closes (closing opening : option nat) : option nat :=
  match closing, opening with
  | Some e, Some start => if e <? start then Some e else None
  | Some e, None => Some e
  | None, _ => None
  end.

Lemma closes_at e :
  closes (position_of rest PASTE_END) (position_of rest PASTE_START) = Some e ->
  position_of rest PASTE_END = Some e /\ none_before rest PASTE_START e.
Proof.
  unfold closes. intros H. destruct (position_of rest PASTE_END) as [e'|]; [|done].
  destruct (position_of rest PASTE_START) as [start|] eqn:Es.
  - case_match; ranges; [|done]. injection H as ->. split; [done|].
    apply position_of_Some in Es as (_ & Hb & _); [|simpl; lia]. intros j Hj. apply Hb. lia.
  - injection H as ->. split; [done|]. intros j _.
    by apply (position_of_None rest PASTE_START ltac:(simpl; lia) Es).
Qed.

Lemma opens_at start :
  closes (position_of rest PASTE_END) (position_of rest PASTE_START) = None ->
  position_of rest PASTE_START = Some start -> none_before rest PASTE_END start.
Proof.
  unfold closes. intros H Es j Hj. rewrite Es in H.
  destruct (position_of rest PASTE_END) as [e|] eqn:Ee.
  - case_match; ranges; [done|]. apply position_of_Some in Ee as (_ & Hb & _); [|simpl; lia].
    apply Hb. lia.
  - by apply (position_of_None rest PASTE_END ltac:(simpl; lia) Ee).
Qed.

Lemma turn_open characters fed :
  reads n len at_ (Some characters) rest fed
    (match closes (position_of rest PASTE_END) (position_of rest PASTE_START),
           position_of rest PASTE_START with
     | Some e, _ =>
         before ← slice rest 0 e;
         feed_loop fuel stream n len (at_ + (e + 6)) None
           (push_end {| pe_at := at_ + (e + 6) - n;
                        pe_characters := characters + characters_in before |}
              (push_segment (Pasted (characters_in before)) fed))
     | None, Some start =>
         before ← slice rest 0 start;
         feed_loop fuel stream n len (at_ + (start + 6)) (Some 0)
           (push_segment (Pasted (characters_in before)) fed)
     | None, None =>
         let '(carried, held) := carry rest [PASTE_END; PASTE_START] in
         before ← slice rest 0 (length rest - held);
         Some (Some (characters + characters_in before), carried,
               push_segment (Pasted (characters_in before)) fed)
     end).
Proof.
  destruct (closes _ _) as [e|] eqn:Ec; [|destruct (position_of rest PASTE_START) as [start|] eqn:Es].
  - apply closes_at in Ec as [Ee Hb].
    destruct (scan_to_end characters at_ rest e Ee Hb) as [Hscan Hlen].
    rewrite slice_Some by lia. cbn [mbind option_bind]. rewrite Nat.sub_0_r, drop_0.
    rewrite push_end_pushed, (push_segment_pushed n), pushed_pushed.
    eapply reads_on; [|clear Hscan|by apply IH].
    + rewrite Hscan. clear. by repeat case_match.
    + intros segs Hp. simpl. eapply pieces_weaken; [|done]. lia.
  - rewrite <- Es in Ec. apply (opens_at start Ec) in Es as Hb.
    destruct (scan_to_start (Some characters) at_ rest start Es) as [Hscan Hlen]; [done|].
    rewrite slice_Some by lia. cbn [mbind option_bind]. rewrite Nat.sub_0_r, drop_0.
    rewrite (push_segment_pushed n). eapply reads_on; [|clear Hscan|by apply IH].
    + rewrite Hscan. clear. by repeat case_match.
    + intros segs Hp. simpl. eapply pieces_weaken; [|done]. lia.
  - assert (position_of rest PASTE_END = None) as Ee
      by (unfold closes in Ec; by destruct (position_of rest PASTE_END)).
    pose proof (scan_to_the_end (Some characters) at_ rest
      (position_of_None rest PASTE_START ltac:(simpl; lia) Es)) as H. simpl markers in H.
    destruct (carry rest [PASTE_END; PASTE_START]) as [carried held].
    destruct H as [Hheld Hscan]; [intros _; by apply (position_of_None rest PASTE_END ltac:(simpl; lia) Ee)|].
    unfold reads. rewrite Hscan, slice_Some by lia. cbn [mbind option_bind].
    rewrite Nat.sub_0_r, drop_0, (push_segment_pushed n). by eexists.
Qed.
End Turn.

(** The loop reads what the scan does, from any place of the stream, and its fuel is
    enough. *)
Lemma feed_loop_scan fuel stream n len at_ o fed :
  length stream = n + len -> at_ <= length stream -> length stream - at_ < fuel ->
  reads n len at_ o (drop at_ stream) fed (feed_loop fuel stream n len at_ o fed).
Proof.
  intros Hstream. revert at_ o fed. induction fuel as [|fuel IH]; intros at_ o fed Hat Hfuel; [lia|].
  cbn [feed_loop]. rewrite slice_from_Some by done. cbn [mbind option_bind].
  assert (Hgo : forall i o fed, i + 6 <= length (drop at_ stream) ->
    reads n len (at_ + (i + 6)) o (drop (i + 6) (drop at_ stream)) fed
      (feed_loop fuel stream n len (at_ + (i + 6)) o fed)).
  { intros i o' fed'. rewrite length_drop, drop_drop. intros Hi. apply IH; lia. }
  assert (at_ + length (drop at_ stream) = length stream) by (rewrite length_drop; lia).
  destruct o as [c|]; [by apply turn_open|by apply turn_closed].
Qed.

(** ** A write, and the writes after it *)

(** What the watch scans with: nothing of a paste cut off. *)
Definition scanned_from (w : watch) (now : Z) : option nat * list byte :=
  if cut_off w now then (None, []) else (w_open w, w_carried w).

(** What a watch carries cannot be a marker whole. *)
Definition watch_ok (w : watch) : Prop := length (w_carried w) <= 5.

Lemma default_watch_ok : watch_ok default_watch.
Proof. unfold watch_ok. simpl. lia. Qed.

Lemma feed_scan w bytes now :
  watch_ok w ->
  let '(open, carried) := scanned_from w now in
  let '(es, open', carried') := scan 0 open 0 (carried ++ bytes) in
  exists segs,
    feed w bytes now =
      Some (Watch open' carried' (Some now) (w_abandoned_after w),
            {| ends := end_in_write (length carried) <$> es; segments := segs |}) /\
    pieces_in 0 (length bytes) segs /\ length carried <= 5 /\ length carried' <= 5.
Proof.
  intros Hok. unfold feed, scanned_from.
  set (w1 := if cut_off w now then Watch None [] (w_idle_since w) (w_abandoned_after w) else w).
  assert (watch_ok w1) as Hok1 by (unfold w1; case_match; unfold watch_ok in *; simpl; lia).
  assert ((if cut_off w now then (None, []) else (w_open w, w_carried w))
          = (w_open w1, w_carried w1)) as -> by (unfold w1; by case_match).
  assert (w_abandoned_after w1 = w_abandoned_after w) as <- by (unfold w1; by case_match).
  pose proof (feed_loop_scan (S (length (w_carried w1 ++ bytes))) (w_carried w1 ++ bytes)
    (length (w_carried w1)) (length bytes) 0 (w_open w1) no_fed) as H.
  unfold reads in H. rewrite drop_0 in H.
  pose proof (scan_held_back (w_open w1) 0 (w_carried w1 ++ bytes)) as Hheld.
  destruct (scan 0 _ 0 _) as [[es o'] h].
  destruct H as (segs & -> & Hp); [by rewrite length_app|lia|lia|].
  exists segs. split; [done|]. split; [done|]. unfold watch_ok in Hok1. tauto.
Qed.

Lemma sorted_sub n l :
  Forall (fun x => n <= x) l -> StronglySorted lt l ->
  StronglySorted lt ((fun x => x - n) <$> l).
Proof.
  intros Hn Hl. induction Hl as [|x l _ IH Hx]; simpl; [constructor|].
  apply Forall_cons in Hn as [Hnx Hn]. constructor; [by apply IH|].
  apply Forall_fmap. apply (Forall_impl _ _ _ Hx). simpl. lia.
Qed.

Lemma feed_ok w bytes now :
  watch_ok w -> exists w' fed, feed w bytes now = Some (w', fed) /\ watch_ok w' /\
    pieces_in 0 (length bytes) (segments fed) /\
    StronglySorted lt (pe_at <$> ends fed) /\
    Forall (fun e => pe_at e <= length bytes) (ends fed).
Proof.
  intros Hok. pose proof (feed_scan w bytes now Hok) as H.
  destruct (scanned_from w now) as [open carried].
  pose proof (scan_ends open 0 (carried ++ bytes)) as He.
  destruct (scan 0 open 0 _) as [[es o'] h]. destruct H as (segs & -> & Hp & Hc & Hh).
  do 2 eexists. split; [done|]. destruct He as [Hsort Hin]. rewrite length_app in Hin.
  split_and!; simpl; auto.
  - rewrite <- list_fmap_compose.
    change (pe_at ∘ end_in_write (length carried)) with ((fun x => x - length carried) ∘ pe_at).
    rewrite list_fmap_compose. apply sorted_sub; [|done].
    apply Forall_fmap. eapply Forall_impl; [exact Hin|]. simpl. lia.
  - apply Forall_fmap. eapply Forall_impl; [exact Hin|]. simpl. lia.
Qed.

Lemma parts_from_ok bytes from none_yet es :
  from <= length bytes ->
  StronglySorted lt (pe_at <$> es) ->
  Forall (fun e => from <= pe_at e <= length bytes) es ->
  exists parts, parts_from bytes from none_yet es = Some parts /\
    concat (fst <$> parts) = drop from bytes /\
    omap snd parts = pe_characters <$> es.
Proof.
  intros Hfrom Hsort Hin. revert from none_yet Hfrom Hin.
  induction es as [|e es IH]; intros from none_yet Hfrom Hin; simpl.
  - case_match eqn:E.
    + rewrite slice_from_Some by done. eexists. split; [done|]. simpl. by rewrite app_nil_r.
    + apply orb_false_iff in E as [E ->]. ranges. eexists. split; [done|].
      by rewrite drop_ge.
  - apply Forall_cons in Hin as [He Hin].
    change (StronglySorted lt (pe_at e :: (pe_at <$> es))) in Hsort.
    apply StronglySorted_inv in Hsort as [Hsort Hlt]. rewrite slice_Some by lia. simpl.
    destruct (IH Hsort (pe_at e) false) as (parts & -> & Hcat & Hends); [lia| |].
    { apply (Forall_fmap pe_at (lt (pe_at e))) in Hlt.
      eapply Forall_impl; [apply Forall_and; split; [exact Hlt|exact Hin]|simpl; lia]. }
    eexists. split; [done|]. csimpl. rewrite Hcat, Hends. split; [|done].
    rewrite <- (take_drop (pe_at e - from) (drop from bytes)) at 2.
    rewrite drop_drop. do 2 f_equal. lia.
Qed.

(** Every write of the human's is read to its end, whatever it holds and
    whatever the writes before it left open: the places the watch says pastes end at are
    in the write, one after another; the typed pieces are ranges of it in order; and
    cut where its pastes end the write is whole, each part that ends a paste with that
    paste's characters. *)
Theorem write_cut_at_pastes w bytes now :
  watch_ok w ->
  exists w' fed parts,
    feed w bytes now = Some (w', fed) /\ watch_ok w' /\
    pieces_in 0 (length bytes) (segments fed) /\
    StronglySorted lt (pe_at <$> ends fed) /\
    Forall (fun e => pe_at e <= length bytes) (ends fed) /\
    parts_ending_pastes bytes (ends fed) = Some parts /\
    concat (fst <$> parts) = bytes /\
    omap snd parts = pe_characters <$> ends fed.
Proof.
  intros Hok. destruct (feed_ok w bytes now Hok) as (w' & fed & E & Hok' & Hp & Hs & Hin).
  destruct (parts_from_ok bytes 0 true (ends fed)) as (parts & Ep & Hcat & Hends);
    [lia|done|eapply Forall_impl; [exact Hin|simpl; lia]|].
  exists w', fed, parts. by rewrite drop_0 in Hcat.
Qed.

(** The ends a second write of the human's adds to those of the first, [n] bytes long:
    their places in the two as one. *)
Definition ends_after (n : nat) (es : list PasteEnd) : list PasteEnd :=
  (fun e => {| pe_at := n + pe_at e; pe_characters := pe_characters e |}) <$> es.

(** C5: where the page cuts the human's input into writes makes no difference to
    the pastes seen in it, inside a marker too: two writes, the second before the first
    is forgotten, end the pastes one write of both would, at the same places and with as
    many characters, and leave the same paste open. *)
Theorem paste_any_cut w a b now later :
  watch_ok w -> (0 <= w_abandoned_after w)%Z ->
  (duration_since later now <= w_abandoned_after w)%Z ->
  exists w1 w2 w2' f1 f2 f,
    feed w a now = Some (w1, f1) /\ feed w1 b later = Some (w2, f2) /\
    feed w (a ++ b) now = Some (w2', f) /\
    w_open w2' = w_open w2 /\ w_carried w2' = w_carried w2 /\
    ends f = ends f1 ++ ends_after (length a) (ends f2).
Proof.
  intros Hok Ha Hlater.
  destruct (scanned_from w now) as [open carried] eqn:Esc.
  pose proof (feed_scan w a now Hok) as H1. pose proof (feed_scan w (a ++ b) now Hok) as H.
  rewrite Esc in H1, H. rewrite app_assoc in H. rewrite scan_app in H.
  destruct (scan 0 open 0 (carried ++ a)) as [[es1 o1] h1] eqn:Es1.
  destruct H1 as (segs1 & E1 & _ & Hc & Hh1).
  set (w1 := Watch o1 h1 (Some now) (w_abandoned_after w)) in *.
  pose proof (feed_scan w1 b later Hh1) as H2.
  assert (scanned_from w1 later = (o1, h1)) as E.
  { unfold scanned_from, cut_off, w1. simpl. by settle_test. }
  rewrite E in H2. pose proof (scan_shift o1 0 (length carried + length a - length h1) (h1 ++ b)) as Hshift.
  rewrite length_app in H. simpl in H, Hshift. rewrite Hshift in H.
  pose proof (scan_ends o1 0 (h1 ++ b)) as Hends.
  pose proof (scan_held_back open 0 (carried ++ a)) as Hback. rewrite Es1 in Hback.
  destruct (scan 0 o1 0 (h1 ++ b)) as [[es2 o2] h2].
  destruct H2 as (segs2 & E2 & _), H as (segs & E3 & _), Hback as [Hback _], Hends as [_ Hends].
  apply suffix_length in Hback. rewrite length_app in Hback.
  exists w1. do 5 eexists. split_and!; [exact E1|exact E2|exact E3|done|done|]. simpl.
  rewrite fmap_app. f_equal. unfold ends_after. rewrite <- !list_fmap_compose.
  apply list_fmap_ext. intros i e He%(Forall_lookup_1 _ _ _ _ Hends).
  unfold end_in_write. simpl. f_equal. lia.
Qed.

(** ** Witnesses *)

(** "hi" pasted, and "x" typed after it. *)
Definition pasted_hi : list byte := PASTE_START ++ ["h"; "i"]%byte ++ PASTE_END ++ ["x"]%byte.

Lemma write_cut_at_pastes_witness :
  exists w' fed parts,
    feed default_watch pasted_hi 0 = Some (w', fed) /\ watch_ok w' /\
    pieces_in 0 (length pasted_hi) (segments fed) /\
    StronglySorted lt (pe_at <$> ends fed) /\
    Forall (fun e => pe_at e <= length pasted_hi) (ends fed) /\
    parts_ending_pastes pasted_hi (ends fed) = Some parts /\
    concat (fst <$> parts) = pasted_hi /\
    omap snd parts = pe_characters <$> ends fed.
Proof. exact (write_cut_at_pastes default_watch pasted_hi 0 default_watch_ok). Defined.

(** Cut in the closing marker, the second part a second later. *)
Lemma paste_any_cut_witness :
  exists w1 w2 w2' f1 f2 f,
    feed default_watch (take 10 pasted_hi) 0 = Some (w1, f1) /\
    feed w1 (drop 10 pasted_hi) 1000000000 = Some (w2, f2) /\
    feed default_watch (take 10 pasted_hi ++ drop 10 pasted_hi) 0 = Some (w2', f) /\
    w_open w2' = w_open w2 /\ w_carried w2' = w_carried w2 /\
    ends f = ends f1 ++ ends_after (length (take 10 pasted_hi)) (ends f2).
Proof.
  refine (paste_any_cut default_watch (take 10 pasted_hi) (drop 10 pasted_hi) 0 1000000000
            default_watch_ok _ _); vm_compute; discriminate.
Defined.
