(* ===== verification/Keys.v ===== *)
(** * What the human's keys leave unsent, and what a delivery may hold

    [keys_of], [typed_keys] and [sanitize] of [cf-panes/src/arbiter.rs]: how many
    characters a write of the human's leaves unsent in the window's input box and of
    which kinds it is, and the text a delivery is allowed to be. A count is a [nat]
    (a [usize] a write's length bounds); a slice out of range is [None]. *)
From S2P Require Import Prelude Utf8 Parser PasteWatch.
#[local] Open Scope nat_scope.

(** [CLASSES], by their places in [HUMAN_WRITE_CLASSES]. *)
Module Class.
Inductive t := Text | Paste | Enter | Erase | Control | Escape | String | Mouse | Focus.
End Class.

#[export] Instance class_eq_dec : EqDecision Class.t.
Proof. solve_decision. Defined.

Definition CLASSES : list Class.t :=
  [Class.Text; Class.Paste; Class.Enter; Class.Erase; Class.Control; Class.Escape;
   Class.String; Class.Mouse; Class.Focus].

(** The bits of [Classes], in a [u16]. *)
Definition Classes := Z.

Definition with_class (classes : Classes) (c : Class.t) : Classes :=
  match position (fun known => bool_decide (known = c)) CLASSES with
  | Some i => Z.lor classes (Z.shiftl 1 (Z.of_nat i))
  | None => classes
  end.

Definition names (classes : Classes) : list Class.t :=
  snd <$> filter (fun '(i, _) =>
    (Z.land classes (Z.shiftl 1 (Z.of_nat i)) =? 0)%Z = false) (imap pair CLASSES).

Record keys := Keys { k_unsent : nat; k_keyed : bool; k_classes : Classes }.

(** Whether the byte begins a terminal's string after ESC: OSC, DCS, PM, APC, SOS. *)
Definition opens_string (kind : byte) : bool :=
  existsb (Byte.eqb kind) ["]"; "P"; "_"; "^"; "X"]%byte.

(** How many bytes of [rest], which begins with a CSI, are that sequence. *)
Definition csi_end (rest : list byte) : option nat :=
  body ← slice_from rest 2;
  Some (match position (fun b => within 0x40 0x7e (u8 b)) body with
        | Some i => i + 3
        | None => length rest
        end).

(** How many bytes of [body] are the string with its ending. *)
Fixpoint string_end_from (at_ : nat) (body : list byte) : option nat :=
  match body with
  | [] => None
  | b :: body' =>
      if (u8 b =? 0x07)%Z then Some (at_ + 1)
      else if (u8 b =? 0x1b)%Z &&
              match body' with b' :: _ => (u8 b' =? 0x5c)%Z | [] => false end
      then Some (at_ + 2)
      else string_end_from (S at_) body'
  end.

Definition string_end (body : list byte) : nat := default (length body) (string_end_from 0 body).

(** What the terminal reports of itself at the start of [rest], none of it a key: its
    kind and its length. *)
Definition report (rest : list byte) : option (option (Class.t * nat)) :=
  if starts_with rest ["027"]%byte &&
     match rest !! 1 with Some kind => opens_string kind | None => false end
  then body ← slice_from rest 2; Some (Some (Class.String, 2 + string_end body))
  else if starts_with rest ["027"; "["; "M"]%byte then Some (Some (Class.Mouse, 6 `min` length rest))
  else if starts_with rest ["027"; "["; "<"]%byte || starts_with rest ["027"; "["; "I"]%byte ||
          starts_with rest ["027"; "["; "O"]%byte then
    third ← rest !! 2;
    n ← csi_end rest;
    Some (Some (if Byte.eqb third "<" then Class.Mouse else Class.Focus, n))
  else Some None.

(** A key at the start of [rest]: what it leaves, its kind and its length. *)
Definition key (unsent : nat) (classes : Classes) (first : byte) (rest : list byte) :
    option (nat * Classes * nat) :=
  let v := u8 first in
  (if (v =? 0x0d) || (v =? 0x0a) then Some (0%nat, with_class classes Class.Enter, 1%nat)
   else if v =? 0x03 then Some (0%nat, with_class classes Class.Control, 1%nat)
   else if v =? 0x15 then Some (0%nat, with_class classes Class.Erase, 1%nat)
   else if (v =? 0x7f) || (v =? 0x08) then Some ((unsent - 1)%nat, with_class classes Class.Erase, 1%nat)
   else if v =? 0x16 then Some (S unsent, with_class classes Class.Control, 1%nat)
   else if v =? 0x1b then
     n ← match rest !! 1%nat with
         | Some second =>
             if Byte.eqb second "[" then csi_end rest
             else if Byte.eqb second "O" then Some (3 `min` length rest)%nat
             else Some 2%nat
         | None => Some 1%nat
         end;
     Some (unsent, with_class classes Class.Escape, n)
   else if v <? 0x20 then Some (unsent, with_class classes Class.Control, 1%nat)
   else if negb (continues first) then Some (S unsent, with_class classes Class.Text, 1%nat)
   else Some (unsent, classes, 1%nat))%Z.

(** The loop of [typed_keys], at place [at_]. *)
Fixpoint typed_loop (fuel : nat) (bytes : list byte) (at_ : nat) (k : keys) : option keys :=
  match fuel with
  | 0 => None
  | S fuel' =>
      if at_ <? length bytes then
        rest ← slice_from bytes at_;
        first ← rest !! 0;
        reported ← report rest;
        match reported with
        | Some (c, n) =>
            typed_loop fuel' bytes (at_ + n)
              (Keys (k_unsent k) (k_keyed k) (with_class (k_classes k) c))
        | None =>
            '(unsent, classes, n) ← key (k_unsent k) (k_classes k) first rest;
            typed_loop fuel' bytes (at_ + n) (Keys unsent true classes)
        end
      else Some k
  end.

(** Each turn takes one byte at least. *)
Definition typed_keys (k : keys) (bytes : list byte) : option keys :=
  typed_loop (S (length bytes)) bytes 0 k.

Fixpoint keys_from (k : keys) (bytes : list byte) (segments : list Segment) : option keys :=
  match segments with
  | [] => Some k
  | Typed from to :: segments' =>
      piece ← slice bytes from to;
      k ← typed_keys k piece;
      keys_from k bytes segments'
  | Pasted characters :: segments' =>
      keys_from (Keys (k_unsent k + characters) true (with_class (k_classes k) Class.Paste))
        bytes segments'
  end.

Definition keys_of (unsent : nat) (bytes : list byte) (segments : list Segment) : option keys :=
  keys_from (Keys unsent false 0%Z) bytes segments.

(** ** What a delivery may hold *)

Inductive SanitizeError :=
| ControlByte (b : Z)
| ControlCharacter (c : char)
| InvalidUtf8.

(** [\r\n] as [\n]: the loop of [sanitize]. *)
Fixpoint line_breaks (body : list byte) : list byte :=
  match body with
  | [] => []
  | b :: body' =>
      match body' with
      | b' :: body'' =>
          if (u8 b =? 0x0d)%Z && (u8 b' =? 0x0a)%Z then b' :: line_breaks body''
          else b :: line_breaks body'
      | [] => [b]
      end
  end.

Definition TAB : char := 0x09%Z.
Definition LF : char := 0x0a%Z.

Fixpoint refused_character (text : list char) : option SanitizeError :=
  match text with
  | [] => None
  | c :: text' =>
      if is_control c && negb ((c =? TAB) || (c =? LF))%Z then
        Some (if is_ascii c then ControlByte c else ControlCharacter c)
      else refused_character text'
  end.

Definition sanitize (body : list byte) : list byte + SanitizeError :=
  let sanitized := line_breaks body in
  match from_utf8 sanitized with
  | None => inr InvalidUtf8
  | Some text =>
      match refused_character text with
      | Some e => inr e
      | None => inl sanitized
      end
  end.

(** ** Reading keys never stops short *)

Lemma csi_end_spec rest :
  2 <= length rest -> exists n, csi_end rest = Some n /\ 1 <= n <= length rest.
Proof.
  intros Hlen. unfold csi_end. rewrite slice_from_Some by done. simpl.
  destruct (position _ _) as [i|] eqn:E; eexists; (split; [done|]); [|lia].
  apply position_lt in E. rewrite length_drop in E. lia.
Qed.

Lemma string_end_from_spec at_ body n :
  string_end_from at_ body = Some n -> at_ < n <= at_ + length body.
Proof.
  revert at_. induction body as [|b body IH]; intros at_; simpl; [done|].
  case_match; [intros [= <-]; lia|]. case_match eqn:E.
  - intros [= <-]. destruct body; simpl; [|lia]. by rewrite andb_false_r in E.
  - intros Hn%IH. lia.
Qed.

Lemma string_end_le body : string_end body <= length body.
Proof.
  unfold string_end. destruct (string_end_from 0 body) as [n|] eqn:E; simpl; [|lia].
  apply string_end_from_spec in E. lia.
Qed.

Lemma starts_with_length s m : starts_with s m = true -> length m <= length s.
Proof. intros H. by apply prefix_length, starts_with_prefix. Qed.

Lemma report_ok rest :
  exists r, report rest = Some r /\ forall c n, r = Some (c, n) -> 1 <= n <= length rest.
Proof.
  unfold report. destruct (starts_with rest ["027"]%byte && _) eqn:E1.
  { assert (2 <= length rest) as Hlen
      by (destruct rest as [|? [|? ?]]; simpl; try lia; by rewrite andb_false_r in E1).
    rewrite slice_from_Some by done. simpl. eexists. split; [done|]. intros c n [= <- <-].
    pose proof (string_end_le (drop 2 rest)) as H. rewrite length_drop in H. lia. }
  destruct (starts_with rest ["027"; "["; "M"]%byte) eqn:E2.
  { apply starts_with_length in E2. simpl in E2. eexists. split; [done|].
    intros c n [= <- <-]. lia. }
  destruct (_ || _) eqn:E3; [|by eexists].
  assert (3 <= length rest) as Hlen.
  { apply orb_true_iff in E3 as [[E3|E3]%orb_true_iff|E3];
      apply starts_with_length in E3; simpl in E3; lia. }
  destruct (lookup_lt_is_Some_2 rest 2) as [third ->]; [lia|]. simpl.
  destruct (csi_end_spec rest) as (n & -> & Hn); [lia|]. simpl.
  eexists. split; [done|]. by intros c n' [= <- <-].
Qed.

Lemma key_ok unsent classes first rest :
  rest !! 0 = Some first ->
  exists u cl n, key unsent classes first rest = Some (u, cl, n) /\
    1 <= n <= length rest /\ u <= S unsent.
Proof.
  intros H0. assert (1 <= length rest) as Hlen by (apply lookup_lt_Some in H0; lia).
  unfold key. repeat (case_match; [do 3 eexists; split; [done|]; lia|]).
  case_match; [|repeat (case_match; [do 3 eexists; split; [done|]; lia|]);
                do 3 eexists; split; [done|]; lia].
  destruct (rest !! 1) as [second|] eqn:E1; [|do 3 eexists; split; [done|]; lia].
  apply lookup_lt_Some in E1. destruct (Byte.eqb second "[").
  { destruct (csi_end_spec rest) as (n & -> & Hn); [lia|]. do 3 eexists. split; [done|]. lia. }
  destruct (Byte.eqb second "O"); do 3 eexists; (split; [done|]); lia.
Qed.

(** The loop over what is left of the write. *)
Fixpoint typed_rest (fuel : nat) (rest : list byte) (k : keys) : option keys :=
  match fuel, rest with
  | _, [] => Some k
  | 0, _ => None
  | S fuel', first :: _ =>
      reported ← report rest;
      match reported with
      | Some (c, n) =>
          typed_rest fuel' (drop n rest)
            (Keys (k_unsent k) (k_keyed k) (with_class (k_classes k) c))
      | None =>
          '(unsent, classes, n) ← key (k_unsent k) (k_classes k) first rest;
          typed_rest fuel' (drop n rest) (Keys unsent true classes)
      end
  end.

Lemma typed_loop_rest fuel bytes at_ k :
  typed_loop (S fuel) bytes at_ k = typed_rest fuel (drop at_ bytes) k \/
  length (drop at_ bytes) > fuel.
Proof.
  revert at_ k. induction fuel as [|fuel IH]; intros at_ k.
  - cbn [typed_loop]. destruct (at_ <? length bytes) eqn:E; ranges.
    + right. rewrite length_drop. lia.
    + left. by rewrite drop_ge.
  - remember (S fuel) as fuel1. cbn [typed_loop]. destruct (at_ <? length bytes) eqn:E; ranges.
    + rewrite slice_from_Some by lia. cbn [mbind option_bind].
      destruct (drop at_ bytes) as [|first rest] eqn:Er.
      { apply (f_equal length) in Er. rewrite length_drop in Er. simpl in Er. lia. }
      change ((first :: rest) !! 0) with (Some first). subst fuel1. cbn [mbind option_bind typed_rest].
      destruct (report_ok (first :: rest)) as (r & Hr & Hn). rewrite Hr. cbn [mbind option_bind].
      destruct r as [[c n]|].
      * specialize (Hn c n eq_refl). rewrite <- Er, drop_drop.
        destruct (IH (at_ + n) (Keys (k_unsent k) (k_keyed k) (with_class (k_classes k) c)))
          as [->|H]; [by left|right]. rewrite length_drop in *. lia.
      * destruct (key_ok (k_unsent k) (k_classes k) first (first :: rest) eq_refl)
          as (u & cl & n & -> & Hn' & _). cbn [mbind option_bind].
        rewrite <- Er, drop_drop.
        destruct (IH (at_ + n) (Keys u true cl)) as [->|H]; [by left|right].
        rewrite length_drop in *. lia.
    + left. subst fuel1. by rewrite drop_ge.
Qed.

Lemma typed_keys_rest k bytes : typed_keys k bytes = typed_rest (length bytes) bytes k.
Proof.
  unfold typed_keys. destruct (typed_loop_rest (length bytes) bytes 0 k) as [->|H];
    rewrite drop_0 in *; [done|lia].
Qed.

(** What reading some keys does to the count, whatever they are. *)
Definition counted (k k' : keys) (n : nat) : Prop :=
  k_unsent k' <= k_unsent k + n /\
  (k_keyed k' = false -> k_keyed k = false /\ k_unsent k' = k_unsent k).

Lemma typed_rest_ok f1 f2 rest k :
  length rest <= f1 -> length rest <= f2 ->
  typed_rest f1 rest k = typed_rest f2 rest k /\
  exists k', typed_rest f1 rest k = Some k' /\ counted k k' (length rest).
Proof.
  revert f2 rest k. induction f1 as [|f1 IH]; intros f2 rest k H1 H2.
  { destruct rest; [|simpl in H1; lia].
    destruct f2; (split; [done|]); exists k; (split; [done|]); unfold counted; split; auto; lia. }
  destruct rest as [|first rest'].
  { destruct f2; (split; [done|]); exists k; (split; [done|]); unfold counted; split; auto; lia. }
  destruct f2 as [|f2]; [simpl in H2; lia|].
  cbn [typed_rest]. pose proof (eq_refl : (first :: rest') !! 0 = Some first) as H0.
  revert H1 H2 H0. generalize (first :: rest'). intros rest H1 H2 H0.
  destruct (report_ok rest) as (r & -> & Hn). cbn [mbind option_bind].
  destruct r as [[c n]|].
  - specialize (Hn c n eq_refl). pose proof (length_drop rest n).
    destruct (IH f2 (drop n rest) (Keys (k_unsent k) (k_keyed k) (with_class (k_classes k) c)))
      as (He & k' & Hk & Hc1 & Hc2); [lia..|]. rewrite He.
    rewrite He in Hk. split; [done|]. exists k'. split; [done|]. simpl in *. split; [lia|auto].
  - destruct (key_ok (k_unsent k) (k_classes k) first rest) as (u & cl & n & -> & Hn' & Hu);
      [done|]. cbn [mbind option_bind]. pose proof (length_drop rest n).
    destruct (IH f2 (drop n rest) (Keys u true cl)) as (He & k' & Hk & Hc1 & Hc2); [lia..|].
    rewrite He. rewrite He in Hk. split; [done|]. exists k'. split; [done|]. simpl in *.
    split; [lia|]. intros Hf. by destruct (Hc2 Hf).
Qed.

Lemma typed_keys_ok k bytes :
  exists k', typed_keys k bytes = Some k' /\ counted k k' (length bytes).
Proof. rewrite typed_keys_rest. by eapply typed_rest_ok. Qed.

Lemma typed_keys_report c n rest k :
  rest <> [] -> report rest = Some (Some (c, n)) ->
  typed_keys k rest =
    typed_keys (Keys (k_unsent k) (k_keyed k) (with_class (k_classes k) c)) (drop n rest).
Proof.
  intros Hne Hr. rewrite !typed_keys_rest. destruct rest as [|first rest]; [done|].
  cbn [length typed_rest]. rewrite Hr. cbn [mbind option_bind].
  destruct (report_ok (first :: rest)) as (r & Hr' & Hn). rewrite Hr in Hr'. injection Hr' as <-.
  specialize (Hn c n eq_refl). pose proof (length_drop (first :: rest) n) as Hd. simpl in Hd, Hn.
  by apply typed_rest_ok; lia.
Qed.

Lemma typed_keys_key first rest k u cl n :
  report (first :: rest) = Some None ->
  key (k_unsent k) (k_classes k) first (first :: rest) = Some (u, cl, n) ->
  typed_keys k (first :: rest) = typed_keys (Keys u true cl) (drop n (first :: rest)).
Proof.
  intros Hr Hk. rewrite !typed_keys_rest. cbn [length typed_rest]. rewrite Hr, Hk.
  cbn [mbind option_bind].
  destruct (key_ok (k_unsent k) (k_classes k) first (first :: rest) eq_refl)
    as (u' & cl' & n' & Hk' & Hn & _). rewrite Hk in Hk'. injection Hk' as <- <- <-.
  pose proof (length_drop (first :: rest) n) as Hd. simpl in Hd, Hn.
  by apply typed_rest_ok; lia.
Qed.

(** The characters pasted and the bytes typed of a write's pieces. *)
Fixpoint pieces_size (segs : list Segment) : nat :=
  match segs with
  | [] => 0
  | Typed from to :: segs' => (to - from) + pieces_size segs'
  | Pasted c :: segs' => c + pieces_size segs'
  end.

Lemma keys_from_ok k bytes from segs :
  pieces_in from (length bytes) segs ->
  exists k', keys_from k bytes segs = Some k' /\ counted k k' (pieces_size segs).
Proof.
  revert k from. induction segs as [|[f t|c] segs IH]; intros k from; simpl.
  - intros _. exists k. split; [done|]. split; [lia|done].
  - intros (? & ? & ? & Hp). rewrite slice_Some by lia. cbn [mbind option_bind].
    destruct (typed_keys_ok k (take (t - f) (drop f bytes))) as (k1 & -> & Hc1 & Hu1). simpl.
    rewrite length_take, length_drop in Hc1.
    destruct (IH k1 t Hp) as (k2 & -> & Hc2 & Hu2). exists k2. split; [done|].
    split; [lia|]. intros Hf. destruct (Hu2 Hf) as [Hf1 ->]. by apply Hu1.
  - intros Hp. destruct (IH (Keys (k_unsent k + c) true (with_class (k_classes k) Class.Paste))
      from Hp) as (k' & -> & Hc & Hu). exists k'. simpl in *. split; [done|]. split; [lia|].
    intros Hf. by destruct (Hu Hf).
Qed.

(** Whatever bytes the human's path writes into a pane, cut into writes
    anywhere, its keys are read to the end without a panic; they leave at most the
    characters of the write unsent over what was; and a write that holds no key (what
    the terminal reports of itself) leaves the count as it was. *)
Theorem keys_are_read w bytes now unsent :
  watch_ok w ->
  exists w' fed k, feed w bytes now = Some (w', fed) /\
    keys_of unsent bytes (segments fed) = Some k /\
    k_unsent k <= unsent + pieces_size (segments fed) /\
    (k_keyed k = false -> k_unsent k = unsent).
Proof.
  intros Hok. destruct (feed_ok w bytes now Hok) as (w' & fed & E & _ & Hp & _).
  destruct (keys_from_ok (Keys unsent false 0%Z) bytes 0 (segments fed) Hp) as (k & Ek & Hc & Hu).
  exists w', fed, k. split_and!; auto. intros Hf. by destruct (Hu Hf).
Qed.

(** ** The terminal's reports *)

(** What a terminal sends of itself: strings, mouse and focus reports, each whole. *)
Inductive reports : list byte -> Prop :=
| reports_none : reports []
| reports_string kind body ending rest :
    opens_string kind = true ->
    Forall (fun b => u8 b <> 0x07%Z /\ u8 b <> 0x1b%Z) body ->
    ending = ["007"%byte] \/ ending = ["027"; "\"]%byte ->
    reports rest -> reports (["027"%byte; kind] ++ body ++ ending ++ rest)
| reports_mouse params final rest :
    Forall (fun b => within 0x40 0x7e (u8 b) = false) params ->
    within 0x40 0x7e (u8 final) = true ->
    reports rest -> reports (["027"; "["; "<"]%byte ++ params ++ final :: rest)
| reports_legacy_mouse a b c rest :
    reports rest -> reports (["027"; "["; "M"; a; b; c]%byte ++ rest)
| reports_focus_in rest : reports rest -> reports (["027"; "["; "I"]%byte ++ rest)
| reports_focus_out rest : reports rest -> reports (["027"; "["; "O"]%byte ++ rest).

Lemma string_end_body at_ body ending rest :
  Forall (fun b => u8 b <> 0x07%Z /\ u8 b <> 0x1b%Z) body ->
  ending = ["007"%byte] \/ ending = ["027"; "\"]%byte ->
  string_end_from at_ (body ++ ending ++ rest) = Some (at_ + length body + length ending).
Proof.
  intros Hb He. revert at_. induction Hb as [|b body [H7 H1b] _ IH]; intros at_; simpl.
  - destruct He as [->| ->]; simpl; f_equal; lia.
  - repeat settle_test. simpl. rewrite IH. f_equal. lia.
Qed.

Lemma position_app_none {A} (p : A -> bool) a b :
  Forall (fun x => p x = false) a ->
  position p (a ++ b) = (fun i => length a + i) <$> position p b.
Proof.
  intros Ha. rewrite (position_skip p (a ++ b) (length a)) by (by rewrite take_app_length).
  rewrite drop_app_length, length_app, Nat.min_l by lia. done.
Qed.

(** The rest of the reports, read with what the first left. *)
Ltac read_on IH :=
  match goal with |- context [typed_keys ?k1 _] =>
    let k' := fresh in let Hu := fresh in let Hk := fresh in
    destruct (IH k1) as (k' & -> & Hu & Hk); by exists k'
  end.

Lemma reports_leave rest k :
  reports rest ->
  exists k', typed_keys k rest = Some k' /\ k_unsent k' = k_unsent k /\ k_keyed k' = k_keyed k.
Proof.
  intros Hr. revert k. induction Hr as [|kind body ending rest Hk Hb He _ IH
    |params final rest Hp Hf _ IH|a b c rest _ IH|rest _ IH|rest _ IH]; intros k.
  - by exists k.
  - rewrite (typed_keys_report Class.String (2 + length body + length ending));
      [|done|].
    + rewrite app_assoc, app_assoc, drop_app_length'.
      * read_on IH.
      * rewrite !length_app. simpl. lia.
    + unfold report. change (starts_with _ ["027"]%byte) with true. simpl. rewrite Hk.
      unfold slice_from. simpl. unfold string_end.
      by rewrite drop_0, (string_end_body 0 body ending rest Hb He).
  - rewrite (typed_keys_report Class.Mouse (3 + length params + 1)); [|done|].
    + rewrite cons_middle, app_assoc, app_assoc, drop_app_length'.
      * read_on IH.
      * rewrite !length_app. simpl. lia.
    + unfold report. simpl. unfold csi_end, slice_from. simpl.
      rewrite position_app_none by done. simpl. rewrite Hf. simpl. repeat f_equal. lia.
  - rewrite (typed_keys_report Class.Mouse 6); [|done|done]. 
    cbn [app drop]. rewrite drop_0.
    read_on IH.
  - rewrite (typed_keys_report Class.Focus 3); [|done|done]. 
    cbn [app drop]. rewrite drop_0.
    read_on IH.
  - rewrite (typed_keys_report Class.Focus 3); [|done|done]. 
    cbn [app drop]. rewrite drop_0.
    read_on IH.
Qed.

(** What a terminal reports of itself, strings, mouse and focus reports, any
    number of them one after another, is no key of the human's: it leaves the count of
    unsent characters and does not start the wait for their last key again. *)
Theorem terminal_reports_are_no_keys unsent bytes :
  reports bytes ->
  exists k, keys_of unsent bytes [Typed 0 (length bytes)] = Some k /\
    k_unsent k = unsent /\ k_keyed k = false.
Proof.
  intros Hr. unfold keys_of. cbn [keys_from]. rewrite slice_Some by lia. cbn [mbind option_bind].
  rewrite Nat.sub_0_r, drop_0, firstn_all.
  destruct (reports_leave bytes (Keys unsent false 0%Z) Hr) as (k & -> & Hu & Hk).
  simpl. by exists k.
Qed.

(** ** Typed text *)

Lemma continues_spec b : continues b = is_continuation b.
Proof. by destruct b. Qed.

Lemma no_report first rest : u8 first <> 0x1b%Z -> report (first :: rest) = Some None.
Proof.
  intros Hf. assert (forall m, starts_with (first :: rest) ("027"%byte :: m) = false) as Hm.
  { intros m. apply starts_with_false. intros [k E]. injection E as -> _. by apply Hf. }
  unfold report. by rewrite !Hm.
Qed.

Lemma key_text u cl first rest :
  (0x20 <= u8 first)%Z -> u8 first <> 0x7f%Z -> continues first = false ->
  key u cl first rest = Some (S u, with_class cl Class.Text, 1).
Proof. intros H1 H2 H3. unfold key. repeat settle_test. by rewrite H3. Qed.

Lemma key_continues u cl first rest :
  continues first = true -> key u cl first rest = Some (u, cl, 1).
Proof.
  intros H. pose proof H as Hr. rewrite continues_spec in Hr. unfold is_continuation in Hr. ranges.
  unfold key. repeat settle_test. by rewrite H.
Qed.

(** A first byte that begins a character, and what continues it. *)
Lemma encode_char_shape c :
  is_text c = true ->
  exists first more, encode_char c = first :: more /\
    (0x20 <= u8 first)%Z /\ u8 first <> 0x7f%Z /\ continues first = false /\
    Forall (fun b => continues b = true) more.
Proof.
  unfold is_text. intros H. ranges. apply negb_true_iff in H0. ranges.
  pose proof (proj1 (is_scalar_spec c) H).
  assert (forall z, (0x80 <= z < 0xC0)%Z -> continues (byte_of z) = true) as Hc.
  { intros z Hz. rewrite continues_spec. unfold is_continuation. rewrite u8_byte_of by lia.
    ranges. lia. }
  assert (forall z, (0x20 <= z < 0x80 \/ 0xC0 <= z < 0x100)%Z -> continues (byte_of z) = false) as Hn.
  { intros z Hz. rewrite continues_spec. unfold is_continuation. rewrite u8_byte_of by lia.
    ranges. lia. }
  unfold encode_char. repeat case_match; ranges; do 2 eexists; (split; [done|]);
    rewrite u8_byte_of by (Z.to_euclidean_division_equations; lia);
    split_and!; try apply Hn; repeat constructor; try apply Hc;
    Z.to_euclidean_division_equations; lia.
Qed.

Lemma typed_continues more rest k :
  Forall (fun b => continues b = true) more -> k_keyed k = true ->
  typed_keys k (more ++ rest) = typed_keys k rest.
Proof.
  intros Hm. revert k. induction Hm as [|b more Hb _ IH]; intros k Hk; [done|].
  cbn [app]. pose proof Hb as Hr. rewrite continues_spec in Hr. unfold is_continuation in Hr. ranges.
  erewrite typed_keys_key; [|by apply no_report; lia|by apply key_continues].
  cbn [drop]. rewrite drop_0. destruct k as [u ? cl]; simpl in *; subst. by apply (IH (Keys u true cl)).
Qed.

Lemma typed_text s rest k :
  Forall (fun c => is_text c = true) s ->
  exists cl, typed_keys k (encode s ++ rest) =
    typed_keys (Keys (k_unsent k + length s) (match s with [] => k_keyed k | _ => true end) cl) rest.
Proof.
  intros Hs. revert k. induction Hs as [|c s Hc _ IH]; intros k.
  { exists (k_classes k). simpl. rewrite Nat.add_0_r. by destruct k. }
  rewrite encode_cons, <- app_assoc.
  destruct (encode_char_shape c Hc) as (first & more & -> & H1 & H2 & H3 & Hm).
  cbn [app]. erewrite typed_keys_key; [|by apply no_report; lia|by apply key_text].
  cbn [drop]. rewrite drop_0, typed_continues by done.
  destruct (IH (Keys (S (k_unsent k)) true (with_class (k_classes k) Class.Text))) as [cl ->].
  exists cl. simpl. replace (k_unsent k + S (length s)) with (S (k_unsent k + length s)) by lia.
  by destruct s.
Qed.

Definition del : byte := "127"%byte.
Definition carriage_return : byte := "013"%byte.

Lemma typed_backspaces n k :
  exists cl, typed_keys k (replicate n del) =
    Some (Keys (k_unsent k - n) (match n with 0 => k_keyed k | _ => true end) cl).
Proof.
  revert k. induction n as [|n IH]; intros k; cbn [replicate].
  { exists (k_classes k). rewrite Nat.sub_0_r. by destruct k. }
  erewrite typed_keys_key; [|by apply no_report|done]. cbn [drop]. rewrite drop_0.
  destruct (IH (Keys (k_unsent k - 1) true (with_class (k_classes k) Class.Erase))) as [cl ->].
  exists cl. simpl. replace (k_unsent k - 1 - n) with (k_unsent k - S n) by lia. by destruct n.
Qed.

Lemma keys_of_typed unsent bytes :
  keys_of unsent bytes [Typed 0 (length bytes)] = typed_keys (Keys unsent false 0%Z) bytes.
Proof.
  unfold keys_of. cbn [keys_from]. rewrite slice_Some by lia. cbn [mbind option_bind].
  rewrite Nat.sub_0_r, drop_0, firstn_all. by destruct (typed_keys _ _).
Qed.

(** Text typed into a window is counted by the character, whatever bytes its
    UTF-8 takes; a Backspace takes one character off, and none below nothing; an Enter
    leaves none unsent. *)
Theorem typed_text_is_counted unsent s n :
  Forall (fun c => is_text c = true) s ->
  (exists cl, keys_of unsent (encode s ++ replicate n del)
                [Typed 0 (length (encode s ++ replicate n del))]
     = Some (Keys (unsent + length s - n) (0 <? length s + n) cl)) /\
  (exists cl, keys_of unsent (encode s ++ [carriage_return])
                [Typed 0 (length (encode s ++ [carriage_return]))] = Some (Keys 0 true cl)).
Proof.
  intros Hs. rewrite !keys_of_typed. split.
  - destruct (typed_text s (replicate n del) (Keys unsent false 0%Z) Hs) as [cl ->].
    edestruct (typed_backspaces n) as [cl' ->]. exists cl'. simpl. by destruct s, n.
  - destruct (typed_text s [carriage_return] (Keys unsent false 0%Z) Hs) as [cl ->].
    erewrite typed_keys_key; [|by apply no_report|done]. by eexists.
Qed.

(** ** What a delivery may hold *)

(** The characters a delivery may hold: none of the control ones but the tab and the
    line feed. *)
Definition allowed (c : char) : bool := negb (is_control c) || (c =? TAB)%Z || (c =? LF)%Z.

Lemma refused_none text :
  refused_character text = None <-> Forall (fun c => allowed c = true) text.
Proof.
  induction text as [|c text IH]; [by split; [constructor|]|].
  rewrite Forall_cons, <- IH. cbn [refused_character]. unfold allowed.
  destruct (is_control c), (c =? TAB)%Z, (c =? LF)%Z; simpl; try tauto;
    by split; [|intros [? _]].
Qed.

Lemma sanitize_spec body s :
  sanitize body = inl s <->
  s = line_breaks body /\ exists text, from_utf8 s = Some text /\ Forall (fun c => allowed c = true) text.
Proof.
  unfold sanitize. split.
  - destruct (from_utf8 (line_breaks body)) as [text|] eqn:E; [|done].
    destruct (refused_character text) eqn:Er; [done|]. intros [= <-]. split; [done|].
    exists text. by rewrite <- refused_none.
  - intros (-> & text & -> & Ht%refused_none). by rewrite Ht.
Qed.

(** A byte below 0x80 of a text is a character of it. *)
Lemma ascii_byte_is_character s b :
  Forall (fun c => is_scalar c = true) s -> b ∈ encode s -> (u8 b < 0x80)%Z -> u8 b ∈ s.
Proof.
  intros Hs Hb Hlt. induction Hs as [|c s Hc _ IH]; [by apply elem_of_nil in Hb|].
  rewrite encode_cons in Hb. apply elem_of_app in Hb as [Hb|Hb].
  - destruct (encode_char_ascii c b Hc Hb Hlt) as [-> _]. by left.
  - right. by apply IH.
Qed.

(** The control bytes below 0x20 a delivery has: tabs and line feeds, and so no ESC and
    no carriage return. *)
Lemma sanitized_bytes body s b :
  sanitize body = inl s -> b ∈ s -> (u8 b < 0x20)%Z -> u8 b = TAB \/ u8 b = LF.
Proof.
  intros (_ & text & Hu & Ht)%sanitize_spec Hb Hlt.
  pose proof (from_utf8_scalar s text Hu) as Hs. apply encode_from_utf8 in Hu as ->.
  assert (u8 b ∈ text) as Hin by (apply ascii_byte_is_character; auto; lia).
  rewrite Forall_forall in Ht. specialize (Ht _ Hin). unfold allowed, is_control in Ht.
  pose proof (u8_range b). assert (within 0 0x1F (u8 b) = true) as E by (ranges; lia).
  rewrite E in Ht. simpl in Ht. ranges. destruct Ht; ranges; auto.
Qed.

(** Bytes with no ESC among them hold no part of a marker. *)
Lemma scan_no_escape o at_ s t :
  Forall (fun b => u8 b <> 0x1b%Z) s -> 6 <= length t ->
  scan 0 o at_ (s ++ t) = scan 0 (longer o s) (at_ + length s) t.
Proof.
  intros Hs Ht. assert (forall m, none_before (s ++ t) ("027"%byte :: m) (length s)) as Hnone.
  { intros m i Hi. apply starts_with_false. intros [k E].
    rewrite drop_app_le in E by lia. destruct (drop i s) as [|b r] eqn:Ed.
    { apply (f_equal length) in Ed. rewrite length_drop in Ed. simpl in Ed. lia. }
    injection E as -> _. assert ("027"%byte ∈ s) as Hin.
    { apply (list_elem_of_lookup_2 s i). by rewrite <- (Nat.add_0_r i), <- lookup_drop, Ed. }
    rewrite Forall_forall in Hs. by apply (Hs _ Hin). }
  rewrite (scan_past o at_ (length s)); [|apply plain_before_marker|].
  - by rewrite take_app_length, drop_app_length.
  - apply Hnone.
  - intros _. apply Hnone.
  - rewrite length_app. lia.
  - rewrite length_app. lia.
Qed.

(** C32: a delivery's text, in the brackets it is pasted in, is one paste: no byte of it
    opens or closes another, so nothing of it is ever read as keys. Neither can it send
    itself: it holds no carriage return, and no control character but tabs and line
    feeds. *)
Theorem delivery_is_one_paste body s at_ :
  sanitize body = inl s ->
  scan 0 None at_ (PASTE_START ++ s ++ PASTE_END) =
    ([{| pe_at := at_ + length (PASTE_START ++ s ++ PASTE_END);
         pe_characters := characters_in s |}], None, []) /\
  Forall (fun b => u8 b <> 0x1b%Z /\ u8 b <> 0x0d%Z) s /\
  exists text, s = encode text /\ Forall (fun c => is_scalar c && allowed c = true) text.
Proof.
  intros H. assert (Forall (fun b => u8 b <> 0x1b%Z /\ u8 b <> 0x0d%Z) s) as Hb.
  { apply Forall_forall. intros b Hb. pose proof (sanitized_bytes body s b H Hb) as Hc.
    unfold TAB, LF in Hc. lia. }
  split; [|split; [done|]].
  - rewrite scan_start, scan_no_escape; [|eapply Forall_impl; [exact Hb|simpl; tauto]|simpl; lia].
    rewrite <- (app_nil_r PASTE_END) at 1. unfold longer. simpl option_map. cbn [fmap option_fmap option_map].
    rewrite scan_end, !length_app. simpl.
    by replace (at_ + 6 + length s + 6) with (at_ + S (S (S (S (S (S (length s + 6))))))) by lia.
  - apply sanitize_spec in H as (_ & text & Hu & Ht). exists text.
    split; [by apply encode_from_utf8|]. pose proof (from_utf8_scalar s text Hu) as Hs.
    apply Forall_forall. intros c Hc. rewrite Forall_forall in Hs, Ht.
    by rewrite (Hs c Hc), (Ht c Hc).
Qed.

Lemma line_breaks_none s :
  Forall (fun b => u8 b <> 0x0d%Z) s -> line_breaks s = s.
Proof.
  induction 1 as [|b s Hb Hs IH]; [done|]. cbn [line_breaks]. destruct s as [|b' s]; [done|].
  settle_test. simpl andb. cbv iota. by rewrite IH.
Qed.

(** A delivery of any text with no control character but tabs and line feeds is
    taken as it is, its line breaks as a terminal's ([\r\n]) too, and what was taken once
    is taken again unchanged; any other control character of it is refused, by its name,
    and so is what is no UTF-8. *)
Theorem sanitize_takes_text :
  (forall text, Forall (fun c => is_scalar c && allowed c = true) text ->
     sanitize (encode text) = inl (encode text)) /\
  (forall body s, sanitize body = inl s -> sanitize s = inl s) /\
  (forall body e, sanitize body = inr e ->
     (e = InvalidUtf8 /\ from_utf8 (line_breaks body) = None) \/
     exists text before c after, from_utf8 (line_breaks body) = Some text /\
       text = before ++ c :: after /\ Forall (fun c => allowed c = true) before /\
       allowed c = false /\ e = if is_ascii c then ControlByte c else ControlCharacter c).
Proof.
  assert (forall body s, sanitize body = inl s -> line_breaks s = s) as Hlb.
  { intros body s H. apply line_breaks_none, Forall_forall. intros b Hb.
    pose proof (sanitized_bytes body s b H Hb) as Hc. unfold TAB, LF in Hc. lia. }
  split_and!.
  - intros text Ht.
    assert (Forall (fun c => is_scalar c = true) text) as Hs
      by (eapply Forall_impl; [exact Ht|]; simpl; intros c Hc; ranges; done).
    assert (Forall (fun c => allowed c = true) text) as Ha
      by (eapply Forall_impl; [exact Ht|]; simpl; intros c Hc; ranges; done).
    assert (line_breaks (encode text) = encode text) as E.
    { apply line_breaks_none, Forall_forall. intros b Hb Hcr.
      pose proof (ascii_byte_is_character text b Hs Hb ltac:(lia)) as Hin.
      rewrite Forall_forall in Ha. specialize (Ha _ Hin). by rewrite Hcr in Ha. }
    apply sanitize_spec. rewrite E. split; [done|]. exists text. split; [|done].
    by apply from_utf8_encode.
  - intros body s H. pose proof (Hlb body s H) as E. apply sanitize_spec in H as (_ & H).
    apply sanitize_spec. by rewrite E.
  - intros body e. unfold sanitize. destruct (from_utf8 (line_breaks body)) as [text|];
      [|intros [= <-]; by left].
    destruct (refused_character text) as [e'|] eqn:Er; [|done]. intros [= <-]. right. exists text.
    clear Hlb. revert Er. induction text as [|c text IH]; [done|]. cbn [refused_character].
    destruct (is_control c && _) eqn:Ec.
    + intros [= <-]. exists [], c, text. split_and!; try done. unfold allowed. ranges.
      apply negb_true_iff, orb_false_iff in H0 as [-> ->]. by rewrite H.
    + intros (before & c' & after & _ & -> & Hb & Hc & He)%IH.
      exists (c :: before), c', after. split_and!; try done. constructor; [|done].
      unfold allowed. destruct (is_control c), (c =? TAB)%Z, (c =? LF)%Z; done.
Qed.

(** ** Witnesses *)

Lemma keys_are_read_witness :
  exists w' fed k, feed default_watch pasted_hi 0 = Some (w', fed) /\
    keys_of 3 pasted_hi (segments fed) = Some k /\
    k_unsent k <= 3 + pieces_size (segments fed) /\
    (k_keyed k = false -> k_unsent k = 3).
Proof. exact (keys_are_read default_watch pasted_hi 0 3 default_watch_ok). Defined.

(** A cursor report's string, a mouse report and a focus report. *)
Definition sample_reports : list byte :=
  (["027"; "]"] ++ ["1"; "1"] ++ ["007"] ++
   ["027"; "["; "<"] ++ ["0"; ";"; "1"] ++ ["M"; "027"; "["; "I"])%byte.

Lemma terminal_reports_are_no_keys_witness :
  exists k, keys_of 4 sample_reports [Typed 0 (length sample_reports)] = Some k /\
    k_unsent k = 4 /\ k_keyed k = false.
Proof.
  apply (terminal_reports_are_no_keys 4 sample_reports). unfold sample_reports.
  apply (reports_string "]" ["1"; "1"] ["007"])%byte; [reflexivity|by repeat constructor|by left|].
  apply (reports_mouse ["0"; ";"; "1"] "M")%byte; [by repeat constructor|reflexivity|].
  apply (reports_focus_in []). constructor.
Defined.

(** "aé" *)
Definition sample_typed : list char := [0x61; 0xE9]%Z.

Lemma typed_text_is_counted_witness :
  (exists cl, keys_of 1 (encode sample_typed ++ replicate 2 del)
                [Typed 0 (length (encode sample_typed ++ replicate 2 del))]
     = Some (Keys (1 + length sample_typed - 2) (0 <? length sample_typed + 2) cl)) /\
  (exists cl, keys_of 1 (encode sample_typed ++ [carriage_return])
                [Typed 0 (length (encode sample_typed ++ [carriage_return]))] = Some (Keys 0 true cl)).
Proof.
  apply (typed_text_is_counted 1 sample_typed 2). unfold sample_typed. by repeat constructor.
Defined.

(** "a\r\n\tb" *)
Definition sample_body : list byte := ["a"; "013"; "010"; "009"; "b"]%byte.
Definition sample_sanitized : list byte := ["a"; "010"; "009"; "b"]%byte.

Lemma delivery_is_one_paste_witness :
  scan 0 None 0 (PASTE_START ++ sample_sanitized ++ PASTE_END) =
    ([{| pe_at := 0 + length (PASTE_START ++ sample_sanitized ++ PASTE_END);
         pe_characters := characters_in sample_sanitized |}], None, []) /\
  Forall (fun b => u8 b <> 0x1b%Z /\ u8 b <> 0x0d%Z) sample_sanitized /\
  exists text, sample_sanitized = encode text /\
    Forall (fun c => is_scalar c && allowed c = true) text.
Proof. apply (delivery_is_one_paste sample_body). vm_compute. reflexivity. Defined.
