(* ===== verification/Timing.v ===== *)
(** * When a paste's Enter goes

    [SilentPaste] of [cf-proto/src/panes.rs], and [OutputClock] and [EnterTiming] of
    [cf-panes/src/arbiter.rs]. A moment ([Instant]) is its nanoseconds on the host's
    clock, a [u64] of milliseconds is a [Z] with the saturation the code writes. What
    [EnterTiming::wait] looks at on each turn, the time and the pane's output clock which
    another thread notes meanwhile, is the argument [looks]. *)
From S2P Require Import Prelude PasteWatch.
#[local] Open Scope Z_scope.

Definition u64_max : Z := 2 ^ 64 - 1.

Definition saturating_mul_u64 (a b : Z) : Z := (a * b) `min` u64_max.
Definition saturating_add_u64 (a b : Z) : Z := (a + b) `min` u64_max.
Definition saturating_sub_u64 (a b : Z) : Z := (a - b) `max` 0.

(** ** How a harness reads a paste *)

Record SilentPaste := {
  pace_us_per_character : Z;
  sp_drawn_after_ms : Z;
  sp_quiet_ms : Z;
  sp_most_ms : Z;
  most_us_per_character : Z
}.

(** [u64::try_from(characters).unwrap_or(u64::MAX)] *)
Definition u64_of_usize (n : nat) : Z := Z.of_nat n `min` u64_max.

Definition per_character_ms (us : Z) (characters : nat) : Z :=
  saturating_mul_u64 us (u64_of_usize characters) / 1000.

Definition read_ms (s : SilentPaste) (characters : nat) : Z :=
  per_character_ms (pace_us_per_character s) characters.

Definition most_ms (s : SilentPaste) (characters : nat) : Z :=
  saturating_add_u64 (sp_most_ms s) (per_character_ms (most_us_per_character s) characters).

(** ** The output clock *)

(** Whole milliseconds from [earlier] to [now]; none before it. *)
Definition millis_since (now earlier : Z) : Z :=
  (duration_since now earlier / 1000000) `min` u64_max.

Record OutputClock := { started : Z; printed : Z; shown : Z }.

Definition new_clock (now : Z) : OutputClock := {| started := now; printed := 0; shown := 0 |}.

(** The pane printed now: whether it changed what its screen shows. *)
Definition note (o : OutputClock) (now : Z) (changed : bool) : OutputClock :=
  let at_ := saturating_add_u64 (millis_since now (started o)) 1 in
  {| started := started o; printed := at_; shown := if changed then at_ else shown o |}.

Definition since (o : OutputClock) (at_ now : Z) : option Z :=
  if at_ =? 0 then None
  else Some (saturating_sub_u64 (millis_since now (started o)) (at_ - 1)).

Definition quiet_ms (o : OutputClock) (now : Z) : option Z := since o (printed o) now.
Definition screen_quiet_ms (o : OutputClock) (now : Z) : option Z := since o (shown o) now.

(** ** The Enter *)

Record EnterTiming := {
  e_least_ms : Z;
  e_drawn_after_ms : Z;
  e_quiet_ms : Z;
  e_most_ms : Z
}.

Definition fixed (milliseconds : Z) : EnterTiming :=
  {| e_least_ms := milliseconds; e_drawn_after_ms := 0; e_quiet_ms := 0;
     e_most_ms := milliseconds |}.

Definition of_silent_paste (s : SilentPaste) (characters : nat) : EnterTiming :=
  {| e_least_ms := read_ms s characters; e_drawn_after_ms := sp_drawn_after_ms s;
     e_quiet_ms := sp_quiet_ms s; e_most_ms := most_ms s characters |}.

Definition longer_of (a b : EnterTiming) : EnterTiming :=
  {| e_least_ms := e_least_ms a `max` e_least_ms b;
     e_drawn_after_ms := e_drawn_after_ms a `max` e_drawn_after_ms b;
     e_quiet_ms := e_quiet_ms a `max` e_quiet_ms b;
     e_most_ms := e_most_ms a `max` e_most_ms b |}.

Definition for_delivery (t : EnterTiming) (silent : option SilentPaste) (body : list byte) :
    EnterTiming :=
  match silent with
  | Some s => longer_of t (of_silent_paste s (characters_in body))
  | None => t
  end.

(** One look of the wait: whether the Enter of a paste written at [pasted] may go. *)
Definition may_go (t : EnterTiming) (o : OutputClock) (pasted now : Z) : bool :=
  let since_paste := millis_since now pasted in
  let echoed := match quiet_ms o now with
                | Some quiet =>
                    if (quiet <? since_paste) && (e_drawn_after_ms t <=? since_paste - quiet)
                    then Some quiet else None
                | None => None
                end in
  (e_most_ms t <=? since_paste) ||
  ((e_least_ms t <=? since_paste) &&
   match echoed with Some quiet => e_quiet_ms t <=? quiet | None => false end).

(** The wait: looks one after another, the first that lets the Enter go. *)
Fixpoint wait (fuel : nat) (t : EnterTiming) (pasted : Z) (looks : nat -> Z * OutputClock)
    (i : nat) : option nat :=
  match fuel with
  | O => None
  | S fuel' =>
      let '(now, o) := looks i in
      if may_go t o pasted now then Some i else wait fuel' t pasted looks (S i)
  end.

(** ** When the Enter goes *)

Lemma millis_since_range now earlier : 0 <= millis_since now earlier <= u64_max.
Proof.
  unfold millis_since, duration_since, u64_max.
  pose proof (Z.div_pos ((now - earlier) `max` 0) 1000000 ltac:(lia) ltac:(lia)). lia.
Qed.

Lemma millis_since_mono now now' earlier :
  now <= now' -> millis_since now earlier <= millis_since now' earlier.
Proof.
  intros H. unfold millis_since, duration_since.
  apply Z.min_le_compat_r, Z.div_le_mono; lia.
Qed.

Lemma may_go_spec t o pasted now :
  may_go t o pasted now = true <->
  e_most_ms t <= millis_since now pasted \/
  e_least_ms t <= millis_since now pasted /\
  exists quiet, quiet_ms o now = Some quiet /\ quiet < millis_since now pasted /\
    e_drawn_after_ms t <= millis_since now pasted - quiet /\ e_quiet_ms t <= quiet.
Proof.
  unfold may_go. rewrite orb_true_iff, andb_true_iff, !Z.leb_le.
  destruct (quiet_ms o now) as [quiet|];
    [|split; [intros [?|[_ ?]]; [by left|done]|intros [?|(_ & ? & ? & _)]; [by left|done]]].
  destruct (_ && _) eqn:E.
  - ranges. rewrite Z.leb_le. split.
    + intros [?|[? ?]]; [by left|right]. split; [done|]. by exists quiet.
    + intros [?|(? & q & [= <-] & _ & _ & ?)]; auto.
  - apply andb_false_iff in E. rewrite Z.ltb_ge, Z.leb_gt in E.
    split; [intros [?|[_ ?]]; [by left|done]|].
    intros [?|(? & q & [= <-] & ? & ? & ?)]; [by left|lia].
Qed.

Lemma wait_spec fuel t pasted looks i j :
  wait fuel t pasted looks i = Some j <->
  (i <= j < i + fuel)%nat /\ may_go t (looks j).2 pasted (looks j).1 = true /\
  forall k, (i <= k < j)%nat -> may_go t (looks k).2 pasted (looks k).1 = false.
Proof.
  revert i. induction fuel as [|fuel IH]; intros i; simpl; [split; [done|lia]|].
  destruct (looks i) as [now o] eqn:Ei. destruct (may_go t o pasted now) eqn:Eg.
  - split.
    + intros [= <-]. rewrite Ei. split_and!; [lia..|done|lia].
    + intros (Hj & _ & Hbefore). destruct (decide (i = j)) as [->|]; [done|].
      specialize (Hbefore i ltac:(lia)). rewrite Ei in Hbefore. simpl in Hbefore. congruence.
  - rewrite IH. split.
    + intros (Hj & Hgo & Hbefore). split_and!; [lia..|done|]. intros k Hk.
      destruct (decide (i = k)) as [->|]; [by rewrite Ei|]. apply Hbefore. lia.
    + intros (Hj & Hgo & Hbefore). destruct (decide (i = j)) as [->|].
      { rewrite Ei in Hgo. simpl in Hgo. congruence. }
      split_and!; [lia..|done|]. intros k Hk. apply Hbefore. lia.
Qed.

Lemma per_character_mono us a b :
  0 <= us -> (a <= b)%nat -> per_character_ms us a <= per_character_ms us b.
Proof.
  intros Hus Hab. unfold per_character_ms, saturating_mul_u64, u64_of_usize.
  apply Z.div_le_mono; [lia|]. nia.
Qed.

(** Looks taken as [clock.rest] has them: five milliseconds apart at the least, whatever
    the thread was kept from running, and none before the paste. *)
Record spaced (pasted : Z) (looks : nat -> Z * OutputClock) : Prop := {
  spaced_from : pasted <= (looks 0%nat).1;
  spaced_by : forall i, (looks i).1 + 5000000 <= (looks (S i)).1
}.

Lemma spaced_at pasted looks i :
  spaced pasted looks -> pasted + 5000000 * Z.of_nat i <= (looks i).1.
Proof.
  intros Hs. induction i as [|i IH]; [pose proof (spaced_from _ _ Hs); lia|].
  pose proof (spaced_by _ _ Hs i). lia.
Qed.

(** The looks a wait can take: a fifth of its most, and one. *)
Definition enough_looks (t : EnterTiming) : nat := Z.to_nat (e_most_ms t / 5 + 2).

Lemma most_passed t pasted looks i :
  spaced pasted looks -> e_most_ms t <= u64_max -> e_most_ms t <= 5 * Z.of_nat i ->
  may_go t (looks i).2 pasted (looks i).1 = true.
Proof.
  intros Hs Hmax Hi. apply may_go_spec. left. pose proof (spaced_at pasted looks i Hs).
  unfold millis_since, duration_since. apply Z.min_glb; [|done].
  apply Z.div_le_lower_bound; lia.
Qed.

Lemma wait_ends fuel t pasted looks i k :
  (i <= k < i + fuel)%nat -> may_go t (looks k).2 pasted (looks k).1 = true ->
  exists j, wait fuel t pasted looks i = Some j /\ (i <= j <= k)%nat.
Proof.
  revert i. induction fuel as [|fuel IH]; intros i Hk Hgo; [lia|]. simpl.
  destruct (looks i) as [now o] eqn:Ei. destruct (may_go t o pasted now) eqn:Eg.
  { exists i. split; [done|lia]. }
  destruct (decide (i = k)) as [->|]; [rewrite Ei in Hgo; simpl in Hgo; congruence|].
  destruct (IH (S i)) as (j & Hj & ?); [lia|done|]. exists j. split; [done|lia].
Qed.

Lemma wait_returns t pasted looks :
  spaced pasted looks -> 0 <= e_most_ms t <= u64_max ->
  exists j, wait (enough_looks t) t pasted looks 0 = Some j /\ 5 * Z.of_nat j <= e_most_ms t + 4.
Proof.
  intros Hs Hmost. pose proof (Z.mul_div_le (e_most_ms t + 4) 5 ltac:(lia)).
  pose proof (Z.mul_succ_div_gt (e_most_ms t + 4) 5 ltac:(lia)).
  pose proof (Z.div_pos (e_most_ms t + 4) 5 ltac:(lia) ltac:(lia)).
  set (k := Z.to_nat ((e_most_ms t + 4) / 5)).
  destruct (wait_ends (enough_looks t) t pasted looks 0 k) as (j & Hj & Hjk).
  - unfold enough_looks, k. split; [lia|]. apply Z2Nat.inj_lt; [lia|..];
      Z.to_euclidean_division_equations; lia.
  - apply most_passed; [done|lia|unfold k; lia].
  - exists j. split; [done|]. unfold k in Hjk. lia.
Qed.

(** The wait for a paste's Enter ends, whatever the window prints meanwhile: within a
    look every five milliseconds up to its most. It ends at the first look at which the
    Enter may go: its most has passed, or its least has and the window drew something
    after the paste, [drawn_after_ms] after it at the least, and has been quiet for
    [quiet_ms]. *)
Theorem wait_ends_when_due t pasted looks :
  spaced pasted looks -> 0 <= e_most_ms t <= u64_max ->
  exists j, wait (enough_looks t) t pasted looks 0 = Some j /\
    5 * Z.of_nat j <= e_most_ms t + 4 /\
    (e_most_ms t <= millis_since (looks j).1 pasted \/
     e_least_ms t <= millis_since (looks j).1 pasted /\
     exists quiet, quiet_ms (looks j).2 (looks j).1 = Some quiet /\
       quiet < millis_since (looks j).1 pasted /\
       e_drawn_after_ms t <= millis_since (looks j).1 pasted - quiet /\ e_quiet_ms t <= quiet) /\
    forall k, (k < j)%nat -> millis_since (looks k).1 pasted < e_most_ms t.
Proof.
  intros Hs Hmost. destruct (wait_returns t pasted looks Hs Hmost) as (j & Hj & Hle).
  exists j. split; [done|]. apply wait_spec in Hj as (_ & Hgo & Hbefore).
  split; [done|]. split; [by apply may_go_spec|].
  intros i Hi. specialize (Hbefore i ltac:(lia)).
  apply not_true_iff_false in Hbefore. rewrite may_go_spec in Hbefore. lia.
Qed.

(** A window that has printed nothing since the paste may still be reading it: its
    Enter goes at the wait's most and no sooner; and no Enter goes before the wait's
    least, or its most where that is less. *)
Theorem silent_window_waits_its_most fuel t pasted looks j :
  wait fuel t pasted looks 0 = Some j ->
  e_least_ms t `min` e_most_ms t <= millis_since (looks j).1 pasted /\
  ((forall quiet, quiet_ms (looks j).2 (looks j).1 = Some quiet ->
      millis_since (looks j).1 pasted <= quiet) ->
   e_most_ms t <= millis_since (looks j).1 pasted).
Proof.
  intros (_ & Hgo%may_go_spec & _)%wait_spec. split; [lia|].
  intros Hsilent. destruct Hgo as [?|(_ & q & Hq & ? & _)]; [done|].
  specialize (Hsilent q Hq). lia.
Qed.

Lemma longer_may_go a b o pasted now :
  may_go (longer_of a b) o pasted now = true ->
  may_go a o pasted now = true /\ may_go b o pasted now = true.
Proof.
  rewrite !may_go_spec. unfold longer_of. simpl. intros [?|(? & q & Hq & ? & ? & ?)].
  - split; left; lia.
  - split; right; (split; [lia|]); exists q; split_and!; try done; lia.
Qed.

(** Where a window's harness declared how it reads a paste, the Enter of a delivery
    goes no sooner than the host's own wait would have it go, and no sooner than the
    harness's for a paste of this many characters; where it declared nothing, the wait is
    the host's. *)
Theorem delivery_waits_for_both fuel t silent body pasted looks j :
  wait fuel (for_delivery t silent body) pasted looks 0 = Some j ->
  (exists i, wait fuel t pasted looks 0 = Some i /\ (i <= j)%nat) /\
  forall s, silent = Some s ->
    exists i, wait fuel (of_silent_paste s (characters_in body)) pasted looks 0 = Some i /\
      (i <= j)%nat.
Proof.
  intros (Hj & Hgo & _)%wait_spec. destruct silent as [s|]; simpl in Hgo.
  - apply longer_may_go in Hgo as [Ha Hb]. split.
    + destruct (wait_ends fuel t pasted looks 0 j Hj Ha) as (i & Hi & ?). exists i. by split; [|lia].
    + intros s' [= <-]. destruct (wait_ends fuel _ pasted looks 0 j Hj Hb) as (i & Hi & ?).
      exists i. by split; [|lia].
  - split; [|done]. destruct (wait_ends fuel t pasted looks 0 j Hj Hgo) as (i & Hi & ?).
    exists i. by split; [|lia].
Qed.

(** ** The clock *)

(** What notes of a pane's output leave, in the order they come. *)
Fixpoint notes (o : OutputClock) (ns : list (Z * bool)) : OutputClock :=
  match ns with
  | [] => o
  | (now, changed) :: ns' => notes (note o now changed) ns'
  end.

Record clock_ok (o : OutputClock) (now : Z) : Prop := {
  clock_shown : 0 <= shown o <= printed o;
  clock_printed : printed o <= saturating_add_u64 (millis_since now (started o)) 1
}.

Lemma note_ok o now now' changed :
  clock_ok o now -> now <= now' -> clock_ok (note o now' changed) now'.
Proof.
  intros [Hs Hp] Hle. pose proof (millis_since_mono now now' (started o) Hle).
  pose proof (millis_since_range now (started o)). pose proof (millis_since_range now' (started o)).
  assert (0 < u64_max) by done. unfold note, saturating_add_u64 in *.
  destruct changed; split; cbn [shown printed started]; unfold saturating_add_u64; lia.
Qed.

Lemma notes_app o a b : notes o (a ++ b) = notes (notes o a) b.
Proof. revert o. induction a as [|[t c] a IH]; intros o; simpl; auto. Qed.

(** Times that go on from [from]. *)
Fixpoint goes_on (from : Z) (times : list Z) : Prop :=
  match times with
  | [] => True
  | t :: times' => from <= t /\ goes_on t times'
  end.

Lemma notes_ok o from ns to :
  clock_ok o from -> goes_on from ((fst <$> ns) ++ [to]) ->
  clock_ok (notes o ns) to /\ started (notes o ns) = started o /\ from <= to.
Proof.
  revert o from. induction ns as [|[t c] ns IH]; intros o from Hok; simpl.
  - intros [Hle _]. split_and!; try done. destruct Hok as [Hs Hp].
    pose proof (millis_since_mono from to (started o) Hle).
    split; [done|]. unfold saturating_add_u64 in *. lia.
  - intros [Hle Hon]. destruct (IH (note o t c) t) as (H1 & H2 & H3); [by eapply note_ok|done|].
    split; [done|]. split; [by rewrite H2|lia].
Qed.

(** The output clock, noted by the pane's output thread as time goes on, says how long
    the pane has printed nothing and how long its screen has shown nothing new: nothing
    before the first, what the screen shows for no less time than the output, and after a
    chunk that changed nothing the screen's quiet goes on as it was. *)
Theorem output_clock_tells_quiet start ns now changed later :
  goes_on start ((fst <$> ns) ++ [now; later]) ->
  millis_since later start < u64_max ->
  let o := notes (new_clock start) ns in
  let o' := note o now changed in
  quiet_ms (new_clock start) now = None /\
  quiet_ms o' later = Some (millis_since later start - millis_since now start) /\
  screen_quiet_ms o' later =
    (if changed then quiet_ms o' later else screen_quiet_ms o later) /\
  forall quiet, screen_quiet_ms o' later = Some quiet ->
    exists q, quiet_ms o' later = Some q /\ q <= quiet.
Proof.
  intros Hon Hmax o o'.
  assert (clock_ok (new_clock start) start) as Hnew.
  { pose proof (millis_since_range start start). assert (0 < u64_max) by done.
    split; simpl; unfold saturating_add_u64; lia. }
  assert (goes_on start ((fst <$> ns) ++ [now]) /\ now <= later) as [Hnow Hlater].
  { revert Hon. clear. generalize start. induction ns as [|[t c] ns IH]; simpl; [tauto|].
    intros s [? Ht]. destruct (IH t Ht). auto. }
  destruct (notes_ok _ _ _ _ Hnew Hnow) as (Ho & Hstart & Hle). fold o in Ho, Hstart.
  simpl in Hstart. pose proof (note_ok o now now changed Ho ltac:(lia)) as Ho'. fold o' in Ho'.
  assert (started o' = start) as Hstart' by (unfold o'; destruct changed; exact Hstart).
  assert (printed o' = millis_since now start + 1) as Hprinted.
  { unfold o', note. simpl. rewrite Hstart. unfold saturating_add_u64.
    pose proof (millis_since_mono now later start Hlater). lia. }
  pose proof (millis_since_range now start). pose proof (millis_since_mono now later start Hlater).
  assert (quiet_ms o' later = Some (millis_since later start - millis_since now start)) as Hq.
  { unfold quiet_ms, since. rewrite Hprinted, Hstart'. settle_test. f_equal.
    unfold saturating_sub_u64. lia. }
  split_and!; [done|done| |].
  - unfold screen_quiet_ms, quiet_ms, since, o', note. by destruct changed.
  - intros quiet Hs. eexists. split; [exact Hq|]. destruct Ho' as [Hshown _].
    clearbody o'. revert Hs. unfold screen_quiet_ms, since. rewrite Hstart'. case_match; [done|]. ranges.
    intros [= <-]. unfold saturating_sub_u64. lia.
Qed.

(** ** Witnesses *)

(** A host's wait: 300 ms at least, quiet for 120 ms, 2 s at most. *)
Definition sample_timing : EnterTiming :=
  {| e_least_ms := 300; e_drawn_after_ms := 0; e_quiet_ms := 120; e_most_ms := 2000 |}.

(** A window that prints nothing, looked at every five milliseconds. *)
Definition silent_looks (i : nat) : Z * OutputClock := (5000000 * Z.of_nat i, new_clock 0).

Lemma silent_looks_spaced : spaced 0 silent_looks.
Proof. split; [reflexivity|intros i; cbn [silent_looks fst]; lia]. Qed.

Lemma wait_ends_when_due_witness :
  exists j, wait (enough_looks sample_timing) sample_timing 0 silent_looks 0 = Some j /\
    5 * Z.of_nat j <= e_most_ms sample_timing + 4 /\
    (e_most_ms sample_timing <= millis_since (silent_looks j).1 0 \/
     e_least_ms sample_timing <= millis_since (silent_looks j).1 0 /\
     exists quiet, quiet_ms (silent_looks j).2 (silent_looks j).1 = Some quiet /\
       quiet < millis_since (silent_looks j).1 0 /\
       e_drawn_after_ms sample_timing <= millis_since (silent_looks j).1 0 - quiet /\
       e_quiet_ms sample_timing <= quiet) /\
    forall k, (k < j)%nat -> millis_since (silent_looks k).1 0 < e_most_ms sample_timing.
Proof.
  apply (wait_ends_when_due sample_timing 0 silent_looks silent_looks_spaced).
  vm_compute. split; discriminate.
Defined.

Lemma silent_window_waits_its_most_witness :
  e_least_ms sample_timing `min` e_most_ms sample_timing <= millis_since (silent_looks 400).1 0 /\
  ((forall quiet, quiet_ms (silent_looks 400).2 (silent_looks 400).1 = Some quiet ->
      millis_since (silent_looks 400).1 0 <= quiet) ->
   e_most_ms sample_timing <= millis_since (silent_looks 400).1 0).
Proof.
  apply (silent_window_waits_its_most (enough_looks sample_timing) sample_timing 0 silent_looks 400).
  vm_compute. reflexivity.
Defined.

Definition sample_silent : SilentPaste :=
  {| pace_us_per_character := 600; sp_drawn_after_ms := 50; sp_quiet_ms := 120;
     sp_most_ms := 1000; most_us_per_character := 1000 |}.

Lemma delivery_waits_for_both_witness :
  (exists i, wait 1000 sample_timing 0 silent_looks 0 = Some i /\ (i <= 400)%nat) /\
  forall s, Some sample_silent = Some s ->
    exists i, wait 1000 (of_silent_paste s (characters_in ["h"; "i"]%byte)) 0 silent_looks 0 = Some i /\
      (i <= 400)%nat.
Proof.
  apply (delivery_waits_for_both 1000 sample_timing (Some sample_silent) ["h"; "i"]%byte 0
           silent_looks 400).
  vm_compute. reflexivity.
Defined.

Lemma output_clock_tells_quiet_witness :
  let o := notes (new_clock 0) [(1000000, true); (3000000, false)] in
  let o' := note o 4000000 false in
  quiet_ms (new_clock 0) 4000000 = None /\
  quiet_ms o' 9000000 = Some (millis_since 9000000 0 - millis_since 4000000 0) /\
  screen_quiet_ms o' 9000000 = screen_quiet_ms o 9000000 /\
  forall quiet, screen_quiet_ms o' 9000000 = Some quiet ->
    exists q, quiet_ms o' 9000000 = Some q /\ q <= quiet.
Proof.
  apply (output_clock_tells_quiet 0 [(1000000, true); (3000000, false)] 4000000 false 9000000).
  - simpl. lia.
  - vm_compute. reflexivity.
Defined.
