(* ===== verification/Arbiter.v ===== *)
(** * The input arbiter: [cf-panes/src/arbiter.rs]

    Whose input a pane takes, and when. A pane's state is behind an [Arc<Mutex<..>>]
    that a table finds by the pane's id: [states] is the store of those cells,
    [panes] the table, and an operation keeps the cell it found even where the table
    has gone on to another. An operation is a program of the monad [M]: each lock is
    held for one step, and between two steps, while a write goes to the window or a
    wait rests, the other threads of the host run ([yield]). What they do is the
    environment's [others]; what they may do to a pane is [rely], which every
    operation here is shown to keep to. The window itself is a [PaneInputWriter], the
    source's trait. Locks are never poisoned here: nothing that holds one panics. *)
From Stdlib Require Import Sorting.Sorted.
From S2P Require Import Prelude Utf8 PasteWatch Keys Timing.
#[local] Open Scope nat_scope.

(** ** The data *)

Record PaneKey := { id : string; key_generation : Z }.

(** What the pane table says went wrong ([cf-panes/src/pty.rs]). *)
Inductive PaneError :=
| EmptyArgv
| Updating
| UpdateBlocked
| ProgramNotAbsolute (path : string)
| AlreadyOpen (key : PaneKey)
| NotFound (key : PaneKey)
| Cancelled (key : PaneKey)
| Ending (key : PaneKey)
| Pty (message : string)
| Io (error : string)
| InvalidBacklog
| InvalidEnvironmentVariableName (name : string)
| NoOutputStream (key : PaneKey)
| FutureAck (key : PaneKey) (seq highest_issued : Z)
| PaneLockPoisoned.

Inductive ArbiterError :=
| Stale
| Busy
| InputFailed
| Unsent
| InvalidBody (error : SanitizeError)
| Pane (error : PaneError)
| LockPoisoned.

Record Written := { wr_at : Z; wr_length : nat; wr_classes : Classes }.

Definition HUMAN_WRITES : nat := 8.

(** A cell of the store. *)
Abbreviation loc := nat.

Record PaneInputState := PaneInput {
  generation : Z;
  paste_in_flight : bool;
  input_failed : bool;
  unsent : nat;
  typed_count : nat;
  typed_at : option Z;
  output : loc;
  pasted_at : option Z;
  silent_paste : option SilentPaste;
  human_pasted : option (Z * EnterTiming);
  paste : watch;
  writes : list Written
}.

(** [PaneInputState::new]: [out] is its new output clock. *)
Definition new_state (gen : Z) (out : loc) : PaneInputState :=
  PaneInput gen false false 0 0 None out None None None default_watch [].

(** The fields the operations write. *)
Definition set_in_flight (x : bool) (s : PaneInputState) : PaneInputState :=
  PaneInput (generation s) x (input_failed s) (unsent s) (typed_count s) (typed_at s)
    (output s) (pasted_at s) (silent_paste s) (human_pasted s) (paste s) (writes s).
Definition set_failed (x : bool) (s : PaneInputState) : PaneInputState :=
  PaneInput (generation s) (paste_in_flight s) x (unsent s) (typed_count s) (typed_at s)
    (output s) (pasted_at s) (silent_paste s) (human_pasted s) (paste s) (writes s).
Definition set_unsent (x : nat) (s : PaneInputState) : PaneInputState :=
  PaneInput (generation s) (paste_in_flight s) (input_failed s) x (typed_count s) (typed_at s)
    (output s) (pasted_at s) (silent_paste s) (human_pasted s) (paste s) (writes s).
Definition set_typed (n : nat) (at_ : option Z) (s : PaneInputState) : PaneInputState :=
  PaneInput (generation s) (paste_in_flight s) (input_failed s) (unsent s) n at_
    (output s) (pasted_at s) (silent_paste s) (human_pasted s) (paste s) (writes s).
Definition set_pasted (x : option Z) (s : PaneInputState) : PaneInputState :=
  PaneInput (generation s) (paste_in_flight s) (input_failed s) (unsent s) (typed_count s)
    (typed_at s) (output s) x (silent_paste s) (human_pasted s) (paste s) (writes s).
Definition set_silent_paste (x : option SilentPaste) (s : PaneInputState) : PaneInputState :=
  PaneInput (generation s) (paste_in_flight s) (input_failed s) (unsent s) (typed_count s)
    (typed_at s) (output s) (pasted_at s) x (human_pasted s) (paste s) (writes s).
Definition set_human_pasted (x : option (Z * EnterTiming)) (s : PaneInputState) : PaneInputState :=
  PaneInput (generation s) (paste_in_flight s) (input_failed s) (unsent s) (typed_count s)
    (typed_at s) (output s) (pasted_at s) (silent_paste s) x (paste s) (writes s).
Definition set_watch (x : watch) (s : PaneInputState) : PaneInputState :=
  PaneInput (generation s) (paste_in_flight s) (input_failed s) (unsent s) (typed_count s)
    (typed_at s) (output s) (pasted_at s) (silent_paste s) (human_pasted s) x (writes s).
Definition set_writes (x : list Written) (s : PaneInputState) : PaneInputState :=
  PaneInput (generation s) (paste_in_flight s) (input_failed s) (unsent s) (typed_count s)
    (typed_at s) (output s) (pasted_at s) (silent_paste s) (human_pasted s) (paste s) x.

(** The arbiter: its table, the cells (each pane state's, and each output clock's, a
    number of its own), and the wait it was given. *)
Record arbiter := Arbiter {
  panes : gmap string loc;
  states : gmap loc PaneInputState;
  next_loc : loc;
  enter : EnterTiming
}.

Definition put_state (l : loc) (s : PaneInputState) (a : arbiter) : arbiter :=
  Arbiter (panes a) (<[l := s]> (states a)) (next_loc a) (enter a).

(** ** The monad *)

(** The trait: a window that takes bytes, or says why not. *)
Class PaneInputWriter (W : Type) :=
  write_input : W -> PaneKey -> list byte -> W * (unit + PaneError).

(** What the host does around an operation: how long the thread was kept waiting before
    each look at the clock, what the other threads did at each step, and what a pane's
    output clock said at it. *)
Record environment := {
  lag : nat -> Z;
  others : nat -> arbiter -> arbiter;
  clock_at : loc -> nat -> OutputClock
}.

Section Arbiter.
Context {W : Type} `{PaneInputWriter W} (env : environment).

Record world := World {
  w_arbiter : arbiter;
  w_writer : W;
  w_time : Z;
  w_tick : nat
}.

(** An operation: what it leaves and answers, or why it refused. [None] is a panic, or a
    wait that does not end. *)
Definition M (A : Type) : Type := world -> option (world * (A + ArbiterError)).

#[export] Instance M_ret : MRet M := fun A x w => Some (w, inl x).
#[export] Instance M_bind : MBind M := fun A B k m w =>
  match m w with
  | Some (w', inl x) => k x w'
  | Some (w', inr e) => Some (w', inr e)
  | None => None
  end.

Definition refuse {A} (e : ArbiterError) : M A := fun w => Some (w, inr e).

(** [option.unwrap()] and the like, which panics on [None]. *)
Definition sure {A} (o : option A) : M A :=
  fun w => match o with Some x => Some (w, inl x) | None => None end.

Definition get_arbiter : M arbiter := fun w => Some (w, inl (w_arbiter w)).
Definition put_arbiter (a : arbiter) : M unit :=
  fun w => Some (World a (w_writer w) (w_time w) (w_tick w), inl tt).

(** No lock is held: the other threads run. *)
Definition yielded (w : world) : world :=
  World (others env (w_tick w) (w_arbiter w)) (w_writer w) (w_time w) (S (w_tick w)).
Definition yield : M unit := fun w => Some (yielded w, inl tt).

(** [clock.now()] *)
Definition looked (w : world) : world :=
  World (w_arbiter w) (w_writer w) (w_time w + lag env (w_tick w)) (S (w_tick w)).
Definition now : M Z := fun w => Some (looked w, inl (w_time (looked w))).

(** [writer.write(pane, bytes)], no lock held *)
Definition write_pane (key : PaneKey) (bytes : list byte) : M (unit + PaneError) :=
  fun w => let '(window, r) := write_input (w_writer w) key bytes in
           Some (yielded (World (w_arbiter w) window (w_time w) (w_tick w)), inl r).

(** The cell of a pane: [pane_state]. *)
Definition pane_state (key : PaneKey) : M loc :=
  a ← get_arbiter;
  match panes a !! id key with Some l => mret l | None => refuse Stale end.

Definition lock_state (l : loc) : M PaneInputState :=
  a ← get_arbiter; sure (states a !! l).

Definition store (l : loc) (s : PaneInputState) : M unit :=
  a ← get_arbiter; put_arbiter (put_state l s a).

Definition validate_generation (s : PaneInputState) (key : PaneKey) : M unit :=
  if (generation s =? key_generation key)%Z then mret tt else refuse Stale.

Definition validate_admission (s : PaneInputState) (key : PaneKey) : M unit :=
  validate_generation s key;;
  if input_failed s then refuse InputFailed else mret tt.

(** ** Registering *)

(** A cell of the table for a pane it has none of: the generation and its output. *)
Definition register_fresh (key : PaneKey) (a : arbiter) : arbiter * loc :=
  let out := next_loc a in
  let l := S out in
  (Arbiter (<[id key := l]> (panes a))
     (<[l := new_state (key_generation key) out]> (states a)) (S l) (enter a), out).

(** [*state = PaneInputState::new(..)]: the cell's newer generation. *)
Definition replace_generation (l : loc) (key : PaneKey) (a : arbiter) : arbiter * loc :=
  let out := next_loc a in
  (Arbiter (panes a) (<[l := new_state (key_generation key) out]> (states a)) (S out) (enter a),
   out).

Definition register_inner (key : PaneKey) : M loc :=
  a ← get_arbiter;
  match panes a !! id key with
  | None =>
      let '(a', out) := register_fresh key a in
      put_arbiter a';; mret out
  | Some l =>
      yield;;
      s ← lock_state l;
      if (key_generation key <? generation s)%Z then refuse Stale
      else if (generation s =? key_generation key)%Z then mret (output s)
      else
        yield;;
        s ← lock_state l;
        if (key_generation key <? generation s)%Z then refuse Stale
        else if (generation s =? key_generation key)%Z then mret (output s)
        else if paste_in_flight s then refuse Busy
        else
          a ← get_arbiter;
          let '(a', out) := replace_generation l key a in
          put_arbiter a';; mret out
  end.

Definition register_with (key : PaneKey) (silent : option SilentPaste) : M loc :=
  out ← register_inner key;
  yield;;
  l ← pane_state key;
  yield;;
  s ← lock_state l;
  (if (generation s =? key_generation key)%Z then store l (set_silent_paste silent s)
   else mret tt);;
  mret out.

(** The table's lock is held, and no pane's: what the others do is to the cells. *)
Definition yield_cells : M unit := fun w =>
  let a := w_arbiter w in
  let a' := others env (w_tick w) a in
  Some (World (Arbiter (panes a) (states a') (next_loc a') (enter a)) (w_writer w) (w_time w)
          (S (w_tick w)), inl tt).

(** The generation of the cell the table has for a pane. *)
Definition current_generation (key : PaneKey) (a : arbiter) : option Z :=
  l ← panes a !! id key; generation <$> states a !! l.

(** [retire]: the table's lock is held all the while, the cell's only to read it. *)
Definition retire (key : PaneKey) : M unit :=
  a ← get_arbiter;
  let current := current_generation key a in
  yield_cells;;
  a ← get_arbiter;
  if bool_decide (current = Some (key_generation key))
  then put_arbiter (Arbiter (delete (id key) (panes a)) (states a) (next_loc a) (enter a))
  else mret tt.

(** A pane's cell, its lock taken. *)
Definition locked (key : PaneKey) : M (loc * PaneInputState) :=
  l ← pane_state key; yield;; s ← lock_state l; mret (l, s).

(** ** What a snapshot says *)

Record HumanWrite := { hw_ago_ms : Z; hw_length : nat; hw_classes : list Class.t }.

Record ArbiterSnapshot := {
  sn_generation : Z;
  sn_paste_in_flight : bool;
  sn_input_failed : bool;
  sn_unsent : bool;
  sn_typed : nat;
  sn_typed_quiet_ms : option Z;
  sn_output_quiet_ms : option Z;
  sn_screen_quiet_ms : option Z;
  sn_paste_quiet_ms : option Z;
  sn_human_writes : list HumanWrite
}.

Definition snapshot_of (s : PaneInputState) (clock : OutputClock) (now : Z) : ArbiterSnapshot :=
  {| sn_generation := generation s;
     sn_paste_in_flight := paste_in_flight s;
     sn_input_failed := input_failed s;
     sn_unsent := 0 <? unsent s;
     sn_typed := typed_count s;
     sn_typed_quiet_ms := millis_since now <$> typed_at s;
     sn_output_quiet_ms := quiet_ms clock now;
     sn_screen_quiet_ms := screen_quiet_ms clock now;
     sn_paste_quiet_ms := millis_since now <$> pasted_at s;
     sn_human_writes :=
       (fun written => {| hw_ago_ms := millis_since now (wr_at written);
                          hw_length := wr_length written;
                          hw_classes := names (wr_classes written) |}) <$> writes s |}.

Definition read_clock (out : loc) : M OutputClock :=
  fun w => Some (w, inl (clock_at env out (w_tick w))).

Definition snapshot (key : PaneKey) : M ArbiterSnapshot :=
  '(_, s) ← locked key;
  validate_generation s key;;
  t ← now;
  clock ← read_clock (output s);
  mret (snapshot_of s clock t).

(** ** Writing *)

(** A write that failed: [begun] tells whether an earlier one of the input reached the
    pane. *)
Definition fail_input {A} (l : loc) (key : PaneKey) (error : PaneError) (begun : bool) : M A :=
  match begun, error with
  | false, NotFound _ => refuse Stale
  | _, _ =>
      s ← lock_state l;
      (if (generation s =? key_generation key)%Z then store l (set_failed true s) else mret tt);;
      refuse (Pane error)
  end.

Definition write_via (key : PaneKey) (bytes : list byte) : M unit :=
  '(l, s) ← locked key;
  validate_admission s key;;
  match bytes with
  | [] => mret tt
  | _ =>
      yield;;
      r ← write_pane key bytes;
      match r with
      | inl _ => mret tt
      | inr error => fail_input l key error false
      end
  end.

(** The world at the [i]-th look of a wait: five milliseconds' rest before each but the
    first, the others running. *)
Definition rested (w : world) : world :=
  yielded (World (w_arbiter w) (w_writer w) (w_time w + 5000000) (w_tick w)).
Fixpoint looks_world (w : world) (i : nat) : world :=
  match i with
  | 0 => looked w
  | S i' => looked (rested (looks_world w i'))
  end.

(** [EnterTiming::wait] *)
Definition wait_for (t : EnterTiming) (out : loc) (pasted : Z) : M unit := fun w =>
  let looks i := let w' := looks_world w i in (w_time w', clock_at env out (w_tick w')) in
  match wait (enough_looks t) t pasted looks 0 with
  | Some i => Some (looks_world w i, inl tt)
  | None => None
  end.

(** [settle_human_paste] *)
Definition settle_human_paste (key : PaneKey) : M unit :=
  '(l, s) ← locked key;
  if (generation s =? key_generation key)%Z then
    store l (set_human_pasted None s);;
    match human_pasted s with
    | Some (at_, timing) => yield;; wait_for timing (output s) at_
    | None => mret tt
    end
  else mret tt.

(** The parts of a write of the human's, in a window that reads a paste silently. *)
Fixpoint write_parts (key : PaneKey) (silent : SilentPaste)
    (parts : list (list byte * option nat)) : M unit :=
  match parts with
  | [] => mret tt
  | (part, ended) :: parts' =>
      (match part with [] => mret tt | _ => settle_human_paste key end);;
      yield;;
      write_via key part;;
      (match ended with
       | Some characters =>
           let timing := of_silent_paste silent characters in
           yield;;
           '(l, s) ← locked key;
           if (generation s =? key_generation key)%Z then
             t ← now;
             store l (set_human_pasted (Some (t, timing)) s)
           else mret tt
       | None => mret tt
       end);;
      yield;;
      write_parts key silent parts'
  end.

(** [writes.push_back(..)], the oldest let go where there are [HUMAN_WRITES]. *)
Definition push_write (written : Written) (ws : list Written) : list Written :=
  (if length ws =? HUMAN_WRITES then tail ws else ws) ++ [written].

(** What the human's write was, once it is in the pane: the count of it. *)
Definition count_write (bytes : list byte) (segs : list Segment) (now : Z) (s : PaneInputState) :
    option PaneInputState :=
  read ← keys_of (unsent s) bytes segs;
  let s := set_unsent (k_unsent read) s in
  let s := set_watch (idle (paste s) now) s in
  let s := set_writes (push_write {| wr_at := now; wr_length := length bytes;
                                     wr_classes := k_classes read |} (writes s)) s in
  Some (if k_keyed read then set_typed (S (typed_count s)) (Some now) s else s).

(** The count of a write of the human's that is in its pane. *)
Definition count_typed (key : PaneKey) (bytes : list byte) (segs : list Segment) : M unit :=
  '(l, s) ← locked key;
  if (generation s =? key_generation key)%Z then
    t ← now;
    s ← sure (count_write bytes segs t s);
    store l s
  else mret tt.

Definition write_typed_via (key : PaneKey) (bytes : list byte) : M unit :=
  '(l, s) ← locked key;
  fed ← (if (generation s =? key_generation key)%Z then
           t ← now;
           '(watch, fed) ← sure (feed (paste s) bytes t);
           store l (set_watch watch s);;
           mret fed
         else mret {| ends := []; segments := [Typed 0 (length bytes)] |});
  yield;;
  (match silent_paste s with
   | Some silent => parts ← sure (parts_ending_pastes bytes (ends fed)); write_parts key silent parts
   | None => write_via key bytes
   end);;
  yield;;
  count_typed key bytes (segments fed).

(** [claim] *)
Definition claim (key : PaneKey) : M unit :=
  '(_, s) ← locked key; validate_admission s key.

(** ** A delivery *)

Definition bracketed (body : list byte) : list byte := PASTE_START ++ body ++ PASTE_END.

(** The admission of a paste of [body]: the pane's output clock, and the wait for its
    Enter. *)
Definition admission (l : loc) (s : PaneInputState) (key : PaneKey) (body : list byte)
    (read_empty : option nat) : M (loc * EnterTiming) :=
  validate_admission s key;;
  (if (0 <? unsent s) && negb (bool_decide (read_empty = Some (typed_count s)))
   then refuse Unsent else mret tt);;
  a ← get_arbiter;
  let s := if 0 <? unsent s then set_unsent 0 s else s in
  store l (set_in_flight true s);;
  mret (output s, for_delivery (enter a) (silent_paste s) body).

(** [write_paste_via] of [pty.rs]: the paste in brackets, what is done before its Enter,
    the Enter. What the writes said, and whether the paste itself went in. *)
Definition write_bracketed (key : PaneKey) (body : list byte) (before_enter : M unit) :
    M ((unit + PaneError) * bool) :=
  r ← write_pane key (bracketed body);
  match r with
  | inr error => mret (inr error, false)
  | inl _ =>
      before_enter;;
      r ← write_pane key [carriage_return];
      mret (r, true)
  end.

(** The end of a paste, however it went. *)
Definition land (l : loc) (pasted : bool) : M unit :=
  s ← lock_state l;
  (if pasted then
     t ← now;
     store l (set_pasted (Some t) (set_in_flight false s))
   else store l (set_in_flight false s)).

Definition write_paste_via (key : PaneKey) (body : list byte) (read_empty : option nat) : M unit :=
  match sanitize body with
  | inr e => refuse (InvalidBody e)
  | inl body =>
      l ← pane_state key;
      yield;;
      s ← lock_state l;
      '(out, timing) ← admission l s key body read_empty;
      yield;;
      '(written, pasted) ←
        write_bracketed key body (t ← now; wait_for timing out t);
      land l pasted;;
      yield;;
      match written with
      | inl _ => mret tt
      | inr error => fail_input l key error pasted
      end
  end.

(** ** Running an operation *)

Lemma bind_inl {A B} (m : M A) (k : A -> M B) w w1 x :
  m w = Some (w1, inl x) -> (m ≫= k) w = k x w1.
Proof. intros E. unfold mbind, M_bind. by rewrite E. Qed.

Lemma bind_inr {A B} (m : M A) (k : A -> M B) w w1 e :
  m w = Some (w1, inr e) -> (m ≫= k) w = Some (w1, inr e).
Proof. intros E. unfold mbind, M_bind. by rewrite E. Qed.

(** What an operation went through on its way to its answer. *)
Lemma bind_run {A B} (m : M A) (k : A -> M B) w w2 r :
  (m ≫= k) w = Some (w2, r) ->
  (exists w1 x, m w = Some (w1, inl x) /\ k x w1 = Some (w2, r)) \/
  (exists e, m w = Some (w2, inr e) /\ r = inr e).
Proof.
  unfold mbind, M_bind. destruct (m w) as [[w1 [x|e]]|]; [|intros [= <- <-]|done]; eauto.
Qed.

(** An operation keeps a relation of the worlds before and after it. *)
Definition along {A} (R : world -> world -> Prop) (m : M A) : Prop :=
  forall w w' r, m w = Some (w', r) -> R w w'.

Section Along.
Context (R : world -> world -> Prop) `{!PreOrder R}.

Lemma along_ret {A} (x : A) : along R (mret x).
Proof. intros w w' r [= <- <-]. reflexivity. Qed.

Lemma along_refuse {A} e : along R (refuse e : M A).
Proof. intros w w' r [= <- <-]. reflexivity. Qed.

Lemma along_sure {A} (o : option A) : along R (sure o).
Proof. intros w w' r. unfold sure. destruct o; [intros [= <- <-]; reflexivity|done]. Qed.

Lemma along_get : along R get_arbiter.
Proof. intros w w' r [= <- <-]. reflexivity. Qed.

Lemma along_bind {A B} (m : M A) (k : A -> M B) :
  along R m -> (forall x, along R (k x)) -> along R (m ≫= k).
Proof.
  intros Hm Hk w w' r [(w1 & x & E1 & E2)|(e & E & _)]%bind_run; [|by eapply Hm].
  etrans; [by eapply Hm|by eapply Hk].
Qed.

(** The same, where what follows needs to know what the step answered. *)
Lemma along_bind_from {A B} (m : M A) (k : A -> M B) (P : A -> world -> Prop) :
  along R m -> (forall w w' x, m w = Some (w', inl x) -> P x w') ->
  (forall x w w' r, P x w -> k x w = Some (w', r) -> R w w') -> along R (m ≫= k).
Proof.
  intros Hm HP Hk w w' r [(w1 & x & E1 & E2)|(e & E & _)]%bind_run; [|by eapply Hm].
  etrans; [by eapply Hm|]. eapply Hk; eauto.
Qed.

Lemma along_pane_state key : along R (pane_state key).
Proof.
  apply along_bind; [apply along_get|]. intros a. case_match; [apply along_ret|apply along_refuse].
Qed.

Lemma along_lock_state l : along R (lock_state l).
Proof. apply along_bind; [apply along_get|]. intros a. apply along_sure. Qed.

Lemma along_validate_generation s key : along R (validate_generation s key).
Proof. unfold validate_generation. case_match; [apply along_ret|apply along_refuse]. Qed.

Lemma along_validate_admission s key : along R (validate_admission s key).
Proof.
  apply along_bind; [apply along_validate_generation|]. intros _.
  case_match; [apply along_refuse|apply along_ret].
Qed.
End Along.

(** ** The window *)

(** Nothing is written meanwhile. *)
Definition same_window (w w' : world) : Prop := w_writer w' = w_writer w.

#[export] Instance same_window_preorder : PreOrder same_window.
Proof. split; [done|]. intros w1 w2 w3. unfold same_window. congruence. Qed.

Create HintDb along discriminated.
#[local] Hint Resolve along_ret along_refuse along_sure along_get along_pane_state
  along_lock_state along_validate_generation along_validate_admission : along.
#[local] Hint Extern 1 (PreOrder _) => typeclasses eauto : along.

(** Steps through an operation, each part of it by its lemma. *)
Ltac along_step :=
  match goal with
  | |- along _ (_ ≫= _) => apply along_bind; [typeclasses eauto| |intros]
  | |- along _ (match ?x with _ => _ end) => destruct x
  | |- along _ (let '(_, _) := ?x in _) => destruct x
  | |- along _ _ => solve [auto with along]
  end.
Ltac along := repeat along_step.

Lemma yield_window : along same_window yield.
Proof. by intros w w' r [= <- <-]. Qed.
Lemma now_window : along same_window now.
Proof. by intros w w' r [= <- <-]. Qed.
Lemma put_window a : along same_window (put_arbiter a).
Proof. by intros w w' r [= <- <-]. Qed.
Lemma yield_cells_window : along same_window yield_cells.
Proof. by intros w w' r [= <- <-]. Qed.
Lemma read_clock_window out : along same_window (read_clock out).
Proof. by intros w w' r [= <- <-]. Qed.
#[local] Hint Resolve yield_window now_window put_window yield_cells_window read_clock_window : along.

Lemma store_window l s : along same_window (store l s).
Proof. unfold store. along. Qed.
#[local] Hint Resolve store_window : along.

Lemma looks_window w i : same_window w (looks_world w i).
Proof. induction i as [|i IH]; [done|exact IH]. Qed.

Lemma wait_window t out pasted : along same_window (wait_for t out pasted).
Proof.
  intros w w' r. unfold wait_for. case_match; [|done]. intros [= <- <-]. apply looks_window.
Qed.
Lemma locked_window key : along same_window (locked key).
Proof. unfold locked. along. Qed.
#[local] Hint Resolve wait_window locked_window : along.

Lemma fail_input_window {A} l key error begun : along same_window (fail_input (A:=A) l key error begun).
Proof. unfold fail_input. along. Qed.
Lemma land_window l pasted : along same_window (land l pasted).
Proof. unfold land. along. Qed.
Lemma admission_window l s key body read_empty : along same_window (admission l s key body read_empty).
Proof. unfold admission. along. Qed.
Lemma settle_window key : along same_window (settle_human_paste key).
Proof. unfold settle_human_paste. along. Qed.
#[local] Hint Resolve fail_input_window land_window admission_window settle_window : along.

(** ** What other threads may do to a pane *)

(** A cell may be given how its harness reads a paste; and while no paste goes in, a newer
    generation may take it over, new. Nothing else of it is another thread's. *)
Definition rely_state (s s' : PaneInputState) : Prop :=
  s' = set_silent_paste (silent_paste s') s \/
  paste_in_flight s = false /\ (generation s < generation s')%Z /\
  s' = set_silent_paste (silent_paste s') (new_state (generation s') (output s')).

#[export] Instance rely_state_preorder : PreOrder rely_state.
Proof.
  split.
  - intros s. left. by destruct s.
  - intros s1 s2 s3 H12 H23.
    destruct H12 as [E2|(F1 & G1 & E2)], H23 as [E3|(F2 & G2 & E3)].
    + left. rewrite E3, E2. done.
    + right. rewrite E2 in F2, G2. auto.
    + right. split; [done|]. rewrite E3. simpl. split; [done|]. by rewrite E2 at 1.
    + right. split_and!; [done|lia|done].
Qed.

Lemma rely_generation s s' : rely_state s s' -> (generation s <= generation s')%Z.
Proof. intros [->|(_ & ? & _)]; simpl; lia. Qed.

Lemma rely_in_flight s s' :
  rely_state s s' -> paste_in_flight s = true -> s' = set_silent_paste (silent_paste s') s.
Proof. intros [?|(F & _)]; [done|congruence]. Qed.

Definition rely (l : loc) (a a' : arbiter) : Prop :=
  l < next_loc a ->
  l < next_loc a' /\
  forall s, states a !! l = Some s -> exists s', states a' !! l = Some s' /\ rely_state s s'.

#[export] Instance rely_preorder l : PreOrder (rely l).
Proof.
  split.
  - intros a Hl. split; [done|]. intros s Hs. exists s. split; [done|reflexivity].
  - intros a1 a2 a3 H12 H23 Hl. destruct (H12 Hl) as [Hl2 H2]. destruct (H23 Hl2) as [Hl3 H3].
    split; [done|]. intros s Hs. destruct (H2 s Hs) as (s2 & Hs2 & R2).
    destruct (H3 s2 Hs2) as (s3 & Hs3 & R3). exists s3. split; [done|by etrans].
Qed.

Definition rely_world (l : loc) (w w' : world) : Prop := rely l (w_arbiter w) (w_arbiter w').

#[export] Instance rely_world_preorder l : PreOrder (rely_world l).
Proof.
  unfold rely_world. split; [by intros w|]. intros w1 w2 w3. apply transitivity.
Qed.

Section Rely.
Context (l : loc) (Hothers : forall n a, rely l a (others env n a)).

Lemma yield_rely : along (rely_world l) yield.
Proof. intros w w' r [= <- <-]. apply Hothers. Qed.
Lemma now_rely : along (rely_world l) now.
Proof. intros w w' r [= <- <-]. unfold rely_world. simpl. reflexivity. Qed.
Lemma read_clock_rely out : along (rely_world l) (read_clock out).
Proof. by intros w w' r [= <- <-]. Qed.
Lemma yield_cells_rely : along (rely_world l) yield_cells.
Proof. intros w w' r [= <- <-]. apply (Hothers (w_tick w) (w_arbiter w)). Qed.
#[local] Hint Resolve yield_rely now_rely read_clock_rely yield_cells_rely : along.

Lemma locked_rely key : along (rely_world l) (locked key).
Proof using Hothers. unfold locked. along. Qed.
#[local] Hint Resolve locked_rely : along.

(** A cell another than [l], or one that was not there. *)
Lemma put_other l' s a : l <> l' -> rely l a (put_state l' s a).
Proof.
  intros Hne Hl. split; [done|]. intros s0 Hs0. exists s0. split; [|reflexivity].
  simpl. by rewrite lookup_insert_ne.
Qed.

Lemma register_fresh_rely key a : rely l a (register_fresh key a).1.
Proof.
  intros Hl. split; simpl; [lia|]. intros s Hs. exists s. split; [|reflexivity].
  by rewrite lookup_insert_ne by lia.
Qed.

Lemma replace_generation_rely l' key a s :
  states a !! l' = Some s -> paste_in_flight s = false ->
  (generation s < key_generation key)%Z -> rely l a (replace_generation l' key a).1.
Proof.
  intros Hs Hf Hg Hl. split; simpl; [lia|]. intros s0 Hs0.
  destruct (decide (l' = l)) as [->|Hne].
  - rewrite lookup_insert_eq. eexists. split; [done|]. right.
    rewrite Hs in Hs0. injection Hs0 as <-. by split_and!.
  - rewrite lookup_insert_ne by done. exists s0. split; [done|reflexivity].
Qed.

Lemma silent_paste_rely l' silent a s :
  states a !! l' = Some s -> rely l a (put_state l' (set_silent_paste silent s) a).
Proof.
  intros Hs Hl. split; [done|]. intros s0 Hs0. simpl. destruct (decide (l' = l)) as [->|Hne].
  - rewrite lookup_insert_eq. eexists. split; [done|]. left.
    rewrite Hs in Hs0. by injection Hs0 as <-.
  - rewrite lookup_insert_ne by done. exists s0. split; [done|reflexivity].
Qed.

Lemma lock_state_run l' w :
  lock_state l' w = match states (w_arbiter w) !! l' with
                    | Some s => Some (w, inl s) | None => None end.
Proof. by unfold lock_state, mbind, M_bind, get_arbiter, sure; simpl; case_match. Qed.

(** What is done with a cell locked. *)
Lemma along_locked {A} l' (k : PaneInputState -> M A) :
  (forall s w w' r, states (w_arbiter w) !! l' = Some s -> k s w = Some (w', r) ->
     rely_world l w w') ->
  along (rely_world l) (lock_state l' ≫= k).
Proof.
  intros Hk w w' r. unfold mbind, M_bind. rewrite lock_state_run.
  destruct (states (w_arbiter w) !! l') as [s|] eqn:Hs; [|done]. by apply Hk.
Qed.

Lemma along_got {A} (k : arbiter -> M A) (R : world -> world -> Prop) :
  (forall w w' r, k (w_arbiter w) w = Some (w', r) -> R w w') -> along R (get_arbiter ≫= k).
Proof. intros Hk w w' r. apply Hk. Qed.

Lemma put_run {A} a (x : A) w w' r :
  (put_arbiter a;; mret x) w = Some (w', r) -> w_arbiter w' = a.
Proof. by intros [= <- <-]. Qed.

Lemma store_rely l' s0 s : 
  (forall a, states a !! l' = Some s0 -> rely l a (put_state l' s a)) ->
  forall w w' r, states (w_arbiter w) !! l' = Some s0 -> store l' s w = Some (w', r) ->
    rely_world l w w'.
Proof. intros Ha w w' r Hs [= <- <-]. by apply Ha. Qed.

Lemma register_inner_rely key : along (rely_world l) (register_inner key).
Proof using Hothers.
  unfold register_inner. apply along_got. intros w w' r.
  destruct (panes (w_arbiter w) !! id key) as [l'|].
  - revert w w' r. apply along_bind; [typeclasses eauto|auto with along|]. intros _.
    apply along_locked. intros s w w' r Hs. case_match; [intros [= <- <-]; done|].
    case_match; [intros [= <- <-]; done|]. clear s Hs H0 H1.
    revert w w' r. apply along_bind; [typeclasses eauto|auto with along|]. intros _.
    apply along_locked. intros s w w' r Hs. case_match; [intros [= <- <-]; done|].
    case_match; [intros [= <- <-]; done|]. case_match eqn:Hf; [intros [= <- <-]; done|].
    revert w w' r Hs. intros w w' r Hs Hrun. ranges.
    cbn [mbind M_bind get_arbiter] in Hrun. apply put_run in Hrun. unfold rely_world.
    rewrite Hrun. eapply replace_generation_rely; [done|done|lia].
  - intros Hrun%put_run. unfold rely_world. rewrite Hrun. apply (register_fresh_rely key).
Qed.
#[local] Hint Resolve register_inner_rely : along.

Lemma table_rely t a : rely l a (Arbiter t (states a) (next_loc a) (enter a)).
Proof. intros Hl. split; [done|]. intros s Hs. exists s. split; [done|reflexivity]. Qed.

Lemma register_with_rely key silent : along (rely_world l) (register_with key silent).
Proof using Hothers.
  unfold register_with.
  do 4 (apply along_bind; [typeclasses eauto|auto with along|intros]). apply along_locked.
  intros s w w' r Hs [(w1 & [] & Hrun & [= <- <-])|(e & Hrun & ->)]%bind_run;
    revert Hrun; case_match; intros Hrun.
  1,3: by eapply store_rely; [|exact Hs|exact Hrun]; intros a Ha; apply silent_paste_rely.
  all: by injection Hrun as <-.
Qed.

Lemma retire_rely key : along (rely_world l) (retire key).
Proof using Hothers.
  unfold retire. apply along_got. intros w0 w0' r0. revert w0 w0' r0.
  intros w0. generalize (bool_decide
    (current_generation key (w_arbiter w0) = Some (key_generation key))). intros b. revert w0.
  apply along_bind; [typeclasses eauto|auto with along|]. intros _. apply along_got.
  intros w w' r. destruct b; [|by intros [= <- <-]]. intros [= <- <-]. apply table_rely.
Qed.

(** Other threads that register, renew, retire, read or claim panes never disturb
    a pane's input: whatever they do, and however it interleaves, a cell is only ever given
    its harness's way with a paste, or, with no paste going into it, taken over by a newer
    generation, new; and a paste in flight keeps its generation. *)
Theorem registering_keeps_to_rely key silent :
  along (rely_world l) (register_with key silent) /\ along (rely_world l) (retire key) /\
  along (rely_world l) (snapshot key) /\ along (rely_world l) (claim key) /\
  forall s s', rely_state s s' ->
    (generation s <= generation s')%Z /\
    (paste_in_flight s = true -> generation s' = generation s /\ paste_in_flight s' = true).
Proof using Hothers.
  split_and!; [apply register_with_rely|apply retire_rely| | |].
  - unfold snapshot. along.
  - unfold claim. along.
  - intros s s' Hr. split; [by apply rely_generation|]. intros Hf.
    by rewrite (rely_in_flight s s' Hr Hf).
Qed.
End Rely.

(** ** A delivery *)

(** What admits a paste: the pane's current generation, its input working, and nothing of
    the human's unsent in it, or its input box read empty since their last key. *)
Definition admitted (key : PaneKey) (s : PaneInputState) (read_empty : option nat) : Prop :=
  generation s = key_generation key /\ input_failed s = false /\
  (unsent s = 0 \/ read_empty = Some (typed_count s)).

#[export] Instance admitted_dec key s read_empty : Decision (admitted key s read_empty).
Proof. apply _. Defined.

(** What an admission refuses with. *)
Definition refusal (key : PaneKey) (s : PaneInputState) : ArbiterError :=
  if (generation s =? key_generation key)%Z
  then if input_failed s then InputFailed else Unsent else Stale.

Definition admitted_state (s : PaneInputState) : PaneInputState :=
  set_in_flight true (if 0 <? unsent s then set_unsent 0 s else s).

Lemma admission_run l s key body read_empty w :
  admission l s key body read_empty w =
    if decide (admitted key s read_empty)
    then Some (World (put_state l (admitted_state s) (w_arbiter w)) (w_writer w) (w_time w) (w_tick w),
               inl (output s, for_delivery (enter (w_arbiter w)) (silent_paste s) body))
    else Some (w, inr (refusal key s)).
Proof.
  unfold admission, validate_admission, validate_generation, refusal, admitted_state, mbind, M_bind.
  destruct (decide (admitted key s read_empty)) as [Ha|Ha]; unfold admitted in Ha.
  - destruct Ha as (Hg & Hf & Hu). rewrite Hg, Z.eqb_refl, Hf. simpl.
    destruct (0 <? unsent s) eqn:E; ranges; simpl; [|done].
    rewrite bool_decide_eq_true_2 by (destruct Hu; [lia|done]). done.
  - destruct (Z.eqb_spec (generation s) (key_generation key)) as [Hg|Hg]; simpl; [|done].
    destruct (input_failed s) eqn:Hf; simpl; [done|].
    destruct (0 <? unsent s) eqn:E; ranges; simpl; [|exfalso; apply Ha; split_and!; auto; lia].
    rewrite bool_decide_eq_false_2 by (intros ?; apply Ha; auto). done.
Qed.

(** What a failed write is answered with. *)
Definition failure (error : PaneError) (begun : bool) : ArbiterError :=
  match begun, error with false, NotFound _ => Stale | _, _ => Pane error end.

Lemma store_run l s w :
  store l s w =
    Some (World (put_state l s (w_arbiter w)) (w_writer w) (w_time w) (w_tick w), inl tt).
Proof. done. Qed.

(** What a failed write leaves: a pane that takes no more input, if it is the generation
    written to still, and if anything reached it. *)
Definition failed_arbiter (l : loc) (key : PaneKey) (error : PaneError) (begun : bool)
    (s : PaneInputState) (a : arbiter) : arbiter :=
  match begun, error with
  | false, NotFound _ => a
  | _, _ => if (generation s =? key_generation key)%Z then put_state l (set_failed true s) a else a
  end.

Lemma fail_input_run {A} l key error begun w s :
  states (w_arbiter w) !! l = Some s ->
  fail_input (A:=A) l key error begun w =
    Some (World (failed_arbiter l key error begun s (w_arbiter w)) (w_writer w) (w_time w) (w_tick w),
          inr (failure error begun)).
Proof.
  intros Hs. unfold fail_input, failure, failed_arbiter.
  assert (((s ← lock_state l;
            (if (generation s =? key_generation key)%Z then store l (set_failed true s)
             else mret tt);; refuse (A:=A) (Pane error)) w) =
          Some (World (if (generation s =? key_generation key)%Z
                       then put_state l (set_failed true s) (w_arbiter w) else w_arbiter w)
                  (w_writer w) (w_time w) (w_tick w), inr (Pane error))) as Hrun.
  { rewrite (bind_inl _ _ w w s) by (by rewrite lock_state_run, Hs).
    case_match; [by erewrite bind_inl by apply store_run|by destruct w]. }
  destruct begun, error; try exact Hrun. by destruct w.
Qed.

Lemma fail_input_answer {A} l key error begun w w' r :
  fail_input (A:=A) l key error begun w = Some (w', r) -> r = inr (failure error begun).
Proof.
  destruct (states (w_arbiter w) !! l) as [s|] eqn:Hs.
  - rewrite (fail_input_run l key error begun w s Hs). by intros [= _ <-].
  - unfold fail_input, failure. destruct begun, error; try (by intros [= _ <-]);
      unfold mbind at 1, M_bind at 1; by rewrite lock_state_run, Hs.
Qed.

(** What the window was given, and what it said. *)
Definition delivered (key : PaneKey) (body : list byte) (v : W) : W * (unit + ArbiterError) :=
  let '(v1, r1) := write_input v key (bracketed body) in
  match r1 with
  | inr error => (v1, inr (failure error false))
  | inl _ =>
      let '(v2, r2) := write_input v1 key [carriage_return] in
      (v2, match r2 with inl _ => inl tt | inr error => inr (failure error true) end)
  end.

(** What the window was given by a bracketed paste whose wait writes nothing. *)
Lemma write_bracketed_window key body (before_enter : M unit) w w' written pasted :
  along same_window before_enter ->
  (forall w w' r, before_enter w = Some (w', r) -> r = inl tt) ->
  write_bracketed key body before_enter w = Some (w', inl (written, pasted)) ->
  delivered key body (w_writer w) =
    (w_writer w', match written with inl _ => inl tt | inr e => inr (failure e pasted) end).
Proof.
  intros Hwin Hok. unfold write_bracketed, delivered, write_pane, mbind at 1, M_bind at 1.
  destruct (write_input (w_writer w) key (bracketed body)) as [v1 [[]|e]] eqn:E1;
    [|by intros [= <- <- <-]].
  intros [(w1 & [] & Hrun & Hrest)|(e & Hrun & ?)]%bind_run; [|done].
  apply Hwin in Hrun. unfold same_window in Hrun. simpl in Hrun. rewrite <- Hrun.
  unfold mbind, M_bind in Hrest.
  destruct (write_input (w_writer w1) key [carriage_return]) as [v2 [[]|e]];
    by injection Hrest as <- <- <-.
Qed.

Lemma wait_answers t out pasted w w' r : wait_for t out pasted w = Some (w', r) -> r = inl tt.
Proof. unfold wait_for. case_match; [by intros [= _ <-]|done]. Qed.

Lemma enter_wait_answers timing out w w' r :
  (t ← now; wait_for timing out t) w = Some (w', r) -> r = inl tt.
Proof.
  intros [(w1 & t & _ & Hrun)|(e & Hrun & _)]%bind_run; [by eapply wait_answers|done].
Qed.

(** What the end of a paste leaves of its cell. *)
Definition landed (pasted : bool) (t : Z) (s : PaneInputState) : PaneInputState :=
  if pasted then set_pasted (Some t) (set_in_flight false s) else set_in_flight false s.

Lemma land_run l (pasted : bool) w s :
  states (w_arbiter w) !! l = Some s ->
  let w1 := if pasted then looked w else w in
  land l pasted w =
    Some (World (put_state l (landed pasted (w_time w1) s) (w_arbiter w)) (w_writer w)
            (w_time w1) (w_tick w1), inl tt).
Proof.
  intros Hs w1. unfold land. rewrite (bind_inl _ _ w w s) by (by rewrite lock_state_run, Hs).
  unfold w1, landed. destruct pasted; [|by rewrite store_run].
  rewrite (bind_inl _ _ w (looked w) (w_time (looked w))) by done. by rewrite store_run.
Qed.

Lemma land_answers l pasted w w' r : land l pasted w = Some (w', r) -> r = inl tt.
Proof.
  destruct (states (w_arbiter w) !! l) as [s|] eqn:Hs.
  - rewrite (land_run l pasted w s Hs). by intros [= _ <-].
  - unfold land, mbind at 1, M_bind at 1. by rewrite lock_state_run, Hs.
Qed.

Lemma pane_state_run key w :
  pane_state key w =
    match panes (w_arbiter w) !! id key with
    | Some l => Some (w, inl l) | None => Some (w, inr Stale) end.
Proof. unfold pane_state, mbind, M_bind, get_arbiter. simpl. by case_match. Qed.

(** What follows the admission. *)
Definition deliver (l : loc) (key : PaneKey) (body : list byte) (admission : loc * EnterTiming) :
    M unit :=
  yield;;
  '(written, pasted) ←
    write_bracketed key body (t ← now; wait_for admission.2 admission.1 t);
  land l pasted;;
  yield;;
  match written with
  | inl _ => mret tt
  | inr error => fail_input l key error pasted
  end.

Lemma write_paste_run key body s_body read_empty w l s :
  sanitize body = inl s_body -> panes (w_arbiter w) !! id key = Some l ->
  states (w_arbiter (yielded w)) !! l = Some s ->
  write_paste_via key body read_empty w =
    (admission l s key s_body read_empty ≫= deliver l key s_body) (yielded w).
Proof.
  intros Hb Hl Hs. unfold write_paste_via. rewrite Hb.
  rewrite (bind_inl _ _ w w l) by (by rewrite pane_state_run, Hl).
  rewrite (bind_inl _ _ w (yielded w) tt) by done.
  rewrite (bind_inl _ _ (yielded w) (yielded w) s) by (by rewrite lock_state_run, Hs).
  unfold mbind, M_bind. by destruct (admission _ _ _ _ _ _) as [[? [[? ?]|?]]|].
Qed.

Lemma deliver_window l key body admission w w' r :
  deliver l key body admission w = Some (w', r) ->
  delivered key body (w_writer w) = (w_writer w', r).
Proof.
  unfold deliver. intros [(w1 & [] & [= <-] & Hrun)|(e & [=] & _)]%bind_run.
  apply bind_run in Hrun as [(w2 & [written pasted] & Hwrite & Hrun)|(e & Hwrite & ->)].
  - apply write_bracketed_window in Hwrite; [|along|apply enter_wait_answers].
    change (w_writer (yielded w)) with (w_writer w) in Hwrite. rewrite Hwrite.
    apply bind_run in Hrun as [(w3 & [] & Hland & Hrun)|(e & Hland & _)];
      [|by apply land_answers in Hland].
    apply land_window in Hland. rewrite <- Hland.
    apply bind_run in Hrun as [(w4 & [] & [= <-] & Hrun)|(e & [=] & _)].
    destruct written as [[]|e]; [by injection Hrun as <- <-|].
    pose proof (fail_input_window l key e pasted _ _ _ Hrun) as Hw.
    apply fail_input_answer in Hrun as ->. by rewrite Hw.
  - exfalso. revert Hwrite. unfold write_bracketed. intros [(v1 & r1 & _ & Hrun)|(? & Hrun & _)]%bind_run.
    + destruct r1; [|done]. apply bind_run in Hrun as [(v2 & [] & _ & Hrun)|(? & Hrun & _)].
      * apply bind_run in Hrun as [(v3 & r3 & _ & Hrun)|(? & Hrun & _)]; [done|].
        unfold write_pane in Hrun. by destruct (write_input _ _ _).
      * by apply enter_wait_answers in Hrun.
    + unfold write_pane in Hrun. by destruct (write_input _ _ _).
Qed.


(** ** A delivery under way *)

Section UnderWay.
Context (l : loc) (Hothers : forall n a, rely l a (others env n a)).
Context (Hlag : forall n, (0 <= lag env n)%Z).

(** A timing whose numbers are a [u64]'s. *)
Definition timing_ok (t : EnterTiming) : Prop := (0 <= e_most_ms t <= u64_max)%Z.

Lemma rested_rely w : rely_world l w (rested w).
Proof using Hothers. unfold rely_world, rested. simpl. apply Hothers. Qed.

Lemma looks_rely w i : rely_world l w (looks_world w i).
Proof using Hothers.
  induction i as [|i IH]; [unfold rely_world; simpl; reflexivity|].
  etrans; [exact IH|]. apply (rested_rely (looks_world w i)).
Qed.

Lemma looks_spaced out pasted w :
  (pasted <= w_time w)%Z ->
  spaced pasted (fun i => (w_time (looks_world w i), clock_at env out (w_tick (looks_world w i)))).
Proof using Hlag.
  intros Hp. split; simpl.
  - pose proof (Hlag (w_tick w)). lia.
  - intros i. pose proof (Hlag (w_tick (rested (looks_world w i)))). simpl in *. lia.
Qed.

(** The wait ends, at a moment the Enter may go. *)
Lemma wait_for_run t out pasted w :
  timing_ok t -> (pasted <= w_time w)%Z ->
  exists i, wait_for t out pasted w = Some (looks_world w i, inl tt) /\
    may_go t (clock_at env out (w_tick (looks_world w i))) pasted (w_time (looks_world w i)) = true /\
    forall j, j < i ->
      may_go t (clock_at env out (w_tick (looks_world w j))) pasted (w_time (looks_world w j)) = false.
Proof using Hlag.
  intros Ht Hp. destruct (wait_returns t pasted _ (looks_spaced out pasted w Hp) Ht) as (i & Hi & _).
  exists i. unfold wait_for. rewrite Hi. split; [done|]. apply wait_spec in Hi as (_ & Hgo & Hnot).
  split; [exact Hgo|]. intros j Hj. apply (Hnot j). lia.
Qed.

(** The time and the step of a look are those of the wait's start and the looks. *)
Lemma looks_same (w w' : world) i : w_time w = w_time w' -> w_tick w = w_tick w' ->
  w_time (looks_world w i) = w_time (looks_world w' i) /\ w_tick (looks_world w i) = w_tick (looks_world w' i).
Proof.
  intros Et Ek. induction i as [|i [IH1 IH2]]; simpl; [by rewrite Et, Ek|]. by rewrite IH1, IH2.
Qed.

(** The Enter of a paste: [start] is the world its wait starts in, at the time it went in; at the look
    the wait ends with it may go, at none before it might, and the rest of the delivery are three
    steps, the Enter, a look at the clock and what the other threads do then. *)
Definition enter_waited (t : EnterTiming) (out : loc) (start w' : world) : Prop :=
  exists i, let go_at j := may_go t (clock_at env out (w_tick (looks_world start j)))
                             (w_time start) (w_time (looks_world start j)) in
    go_at i = true /\ (forall j, j < i -> go_at j = false) /\ w_tick w' = 3 + w_tick (looks_world start i).

(** The paste of [s0] is going in. *)
Definition going (s0 : PaneInputState) (w : world) : Prop :=
  l < next_loc (w_arbiter w) /\
  exists sp, states (w_arbiter w) !! l = Some (set_silent_paste sp (set_in_flight true s0)).

Lemma going_on s0 w w' : going s0 w -> rely_world l w w' -> going s0 w'.
Proof.
  intros (Hl & sp & Hs) Hr. destruct (Hr Hl) as [Hl' Hstates]. split; [done|].
  destruct (Hstates _ Hs) as (s' & Hs' & Hrel). exists (silent_paste s').
  rewrite Hs'. f_equal. by apply (rely_in_flight _ _ Hrel).
Qed.

Lemma write_pane_run key bytes w :
  exists w' r, write_pane key bytes w = Some (w', inl r) /\ rely_world l w w' /\
    w_time w' = w_time w /\ w_tick w' = S (w_tick w) /\ r = (write_input (w_writer w) key bytes).2.
Proof using Hothers.
  unfold write_pane. destruct (write_input (w_writer w) key bytes) as [v r].
  do 2 eexists. split; [done|]. split; [|done]. unfold rely_world. simpl. apply Hothers.
Qed.

Lemma write_bracketed_run s0 key body timing out w :
  timing_ok timing -> going s0 w ->
  exists w' written pasted,
    write_bracketed key body (t ← now; wait_for timing out t) w = Some (w', inl (written, pasted)) /\
    going s0 w' /\
    pasted = (match (write_input (w_writer w) key (bracketed body)).2 with inl _ => true | inr _ => false end) /\
    (pasted = true -> forall start, w_time start = w_time (looked (yielded w)) -> w_tick start = w_tick (looked (yielded w)) ->
       forall last, w_tick last = 2 + w_tick w' -> enter_waited timing out start last).
Proof using Hothers Hlag.
  intros Ht Hgo. destruct (write_pane_run key (bracketed body) w) as (w1 & r1 & E1 & Hr1 & Etime & Etick & Er1).
  apply (going_on _ _ _ Hgo) in Hr1 as Hgo1. unfold write_bracketed.
  rewrite (bind_inl _ _ w w1 r1 E1), <- Er1. destruct r1 as [[]|e]; [|by exists w1, (inr e), false].
  destruct (wait_for_run timing out (w_time (looked w1)) (looked w1) Ht) as (i & E2 & Hgo2 & Hnot); [simpl; lia|].
  rewrite (bind_inl _ _ w1 (looks_world (looked w1) i) tt)
    by (by rewrite (bind_inl _ _ w1 (looked w1) (w_time (looked w1)))).
  assert (going s0 (looks_world (looked w1) i)) as Hgoing.
  { apply (going_on s0 (looked w1)); [exact Hgo1|]. apply looks_rely. }
  destruct (write_pane_run key [carriage_return] (looks_world (looked w1) i)) as (w3 & r3 & E3 & Hr3 & _ & Etick3 & _).
  rewrite (bind_inl _ _ _ w3 r3 E3). exists w3, r3, true. split; [done|]. split; [by eapply going_on|]. split; [done|].
  intros _ start Es1 Es2 last El. simpl in Es1, Es2. rewrite <- Etime in Es1. rewrite <- Etick in Es1, Es2.
  exists i. cbv zeta. split_and!.
  - destruct (looks_same start (looked w1) i Es1 Es2) as [-> ->]. rewrite Es1. exact Hgo2.
  - intros j Hj. destruct (looks_same start (looked w1) j Es1 Es2) as [-> ->]. rewrite Es1. by apply Hnot.
  - destruct (looks_same start (looked w1) i Es1 Es2) as [_ ->]. lia.
Qed.

(** What a delivery leaves: the paste no longer going in, and the pane failed where the
    window took part of it only. *)
Definition landed_well (key : PaneKey) (r : unit + ArbiterError) (s : PaneInputState) : Prop :=
  paste_in_flight s = false /\ (key_generation key <= generation s)%Z /\
  (if decide (generation s = key_generation key)
   then unsent s = 0 /\ (input_failed s = true <-> exists e, r = inr (Pane e))
   else input_failed s = false).

Lemma landed_rely pasted t s0 sp key s :
  generation s0 = key_generation key -> input_failed s0 = false -> unsent s0 = 0 ->
  rely_state (landed pasted t (set_silent_paste sp (set_in_flight true s0))) s ->
  paste_in_flight s = false /\ (key_generation key <= generation s)%Z /\ input_failed s = false /\
  (generation s = key_generation key -> unsent s = 0).
Proof.
  intros Hg Hf Hu. destruct pasted; intros [->|(_ & Hlt & ->)]; simpl in *; split_and!;
    auto; try lia; done.
Qed.

Lemma deliver_lands s0 key body out timing w :
  timing_ok timing -> generation s0 = key_generation key -> input_failed s0 = false ->
  unsent s0 = 0 -> going s0 w ->
  exists w' r s', deliver l key body (out, timing) w = Some (w', r) /\
    states (w_arbiter w') !! l = Some s' /\ landed_well key r s' /\
    ((write_input (w_writer w) key (bracketed body)).2 = inl tt ->
     forall start, w_time start = w_time (looked (yielded (yielded w))) ->
       w_tick start = w_tick (looked (yielded (yielded w))) -> enter_waited timing out start w').
Proof using Hothers Hlag.
  intros Ht Hg Hf Hu Hgo. unfold deliver.
  rewrite (bind_inl _ _ w (yielded w) tt) by done.
  assert (going s0 (yielded w)) as Hgo1 by (eapply going_on; [exact Hgo|apply Hothers]).
  destruct (write_bracketed_run s0 key body timing out (yielded w) Ht Hgo1)
    as (w2 & written & pasted & E2 & [Hl2 (sp & Hs2)] & Epasted & Hwaited).
  change (w_writer (yielded w)) with (w_writer w) in Epasted.
  rewrite (bind_inl _ _ _ w2 (written, pasted) E2). cbv beta iota.
  erewrite (bind_inl (land l pasted) _ w2) by (by apply land_run).
  set (t := w_time _). set (w3 := World _ _ _ _).
  rewrite (bind_inl _ _ w3 (yielded w3) tt) by done.
  assert (forall w', w_tick w' = w_tick (yielded w3) -> (write_input (w_writer w) key (bracketed body)).2 = inl tt ->
     forall start, w_time start = w_time (looked (yielded (yielded w))) ->
       w_tick start = w_tick (looked (yielded (yielded w))) -> enter_waited timing out start w') as Hwait.
  { intros w' Ew Etaken start E3 E4. rewrite Etaken in Epasted. subst pasted. apply (Hwaited eq_refl start E3 E4). exact Ew. }
  destruct (Hothers (w_tick w3) (w_arbiter w3)) as [_ Hrel]; [simpl; exact Hl2|].
  destruct (Hrel (landed pasted t (set_silent_paste sp (set_in_flight true s0)))) as (s4 & Hs4 & Hr4).
  { simpl. by rewrite lookup_insert_eq. }
  destruct (landed_rely pasted t s0 sp key s4 Hg Hf Hu Hr4) as (H1 & H2 & H3 & H4).
  destruct written as [[]|e].
  - exists (yielded w3), (inl tt), s4. split_and!; try done; [|by apply Hwait]. unfold landed_well.
    split_and!; try done. case_decide; [|done]. split; [auto|]. rewrite H3. split; [done|by intros []].
  - rewrite (fail_input_run l key e pasted _ s4) by exact Hs4.
    set (w4 := yielded w3) in *.
    assert (forall er, exists w' r s',
      Some (World (if (generation s4 =? key_generation key)%Z
                   then put_state l (set_failed true s4) (w_arbiter w4) else w_arbiter w4)
              (w_writer w4) (w_time w4) (w_tick w4), inr (Pane er)) = Some (w', r) /\
      states (w_arbiter w') !! l = Some s' /\ landed_well key r s' /\ w_tick w' = w_tick w4) as Hfail.
    { intros er. destruct (Z.eqb_spec (generation s4) (key_generation key)) as [Hg4|Hg4].
      - do 2 eexists. exists (set_failed true s4). split; [done|]. split; [simpl; by rewrite lookup_insert_eq|].
        unfold landed_well. simpl. rewrite decide_True by done. split; [|done]. split_and!; auto.
        split; [intros _; by exists er|done].
      - do 2 eexists. exists s4. split; [done|]. split; [exact Hs4|]. unfold landed_well.
        rewrite decide_False by done. by split. }
    assert (landed_well key (inr Stale) s4) as Hstale.
    { unfold landed_well. split_and!; try done. case_decide; [|done]. split; [auto|].
      rewrite H3. split; [done|by intros []]. }
    enough (exists w' r s', Some (World (failed_arbiter l key e pasted s4 (w_arbiter w4)) (w_writer w4) (w_time w4) (w_tick w4),
        inr (failure e pasted)) = Some (w', r) /\
      states (w_arbiter w') !! l = Some s' /\ landed_well key r s' /\ w_tick w' = w_tick w4) as (w' & r & s' & E & H5 & H6 & H7).
    { exists w', r, s'. split_and!; [exact E|done..|by apply Hwait]. }
    unfold failed_arbiter, failure. destruct pasted; [apply Hfail|]. destruct e; try apply Hfail.
    do 2 eexists. exists s4. by split.
Qed.

(** C33: a delivery that is taken in ends, whatever the window prints, however long its threads are kept
    waiting and whatever other threads do: the window was given the paste and, if it took that, an Enter,
    and the answer is what it said of them; the Enter went at the first look of the wait, which starts
    once the paste is in, that its timing allows it at, and right after that look. While it goes in no
    newer generation takes the pane over; once it has, no paste is going in, and the pane's input is
    failed exactly where the window took a write in part, and never that of a newer generation that came
    meanwhile. *)
Theorem delivery_lands key body text read_empty w s :
  let timing := for_delivery (enter (w_arbiter (yielded w))) (silent_paste s) text in
  timing_ok timing -> l < next_loc (w_arbiter (yielded w)) ->
  sanitize body = inl text -> panes (w_arbiter w) !! id key = Some l ->
  states (w_arbiter (yielded w)) !! l = Some s -> admitted key s read_empty ->
  exists w' r s', write_paste_via key body read_empty w = Some (w', r) /\
    delivered key text (w_writer w) = (w_writer w', r) /\
    ((write_input (w_writer w) key (bracketed text)).2 = inl tt ->
       enter_waited timing (output s) (looked (yielded (yielded (yielded w)))) w') /\
    states (w_arbiter w') !! l = Some s' /\ landed_well key r s'.
Proof using Hothers Hlag.
  intros timing Ht Hl Hb Hp Hs Ha. rewrite (write_paste_run key body text read_empty w l s Hb Hp Hs).
  unfold mbind, M_bind. rewrite admission_run. rewrite decide_True by done.
  match goal with |- exists w' r s', deliver _ _ _ _ ?w0 = _ /\ _ => set (w1 := w0) end.
  assert (exists w' r s', deliver l key text (output s, timing) w1 = Some (w', r) /\
    states (w_arbiter w') !! l = Some s' /\ landed_well key r s' /\
    ((write_input (w_writer w1) key (bracketed text)).2 = inl tt ->
     forall start, w_time start = w_time (looked (yielded (yielded w1))) ->
       w_tick start = w_tick (looked (yielded (yielded w1))) -> enter_waited timing (output s) start w')) as
    (w' & r & s' & Hrun & Hs' & Hland & Hwait).
  { destruct Ha as (Hg & Hf & Hu). apply (deliver_lands (if 0 <? unsent s then set_unsent 0 s else s)); auto.
    - by case_match.
    - by case_match.
    - case_match; ranges; [done|lia].
    - split; [exact Hl|]. exists (silent_paste s). simpl. rewrite lookup_insert_eq.
      unfold admitted_state. by case_match; destruct s. }
  exists w', r, s'. split_and!; [exact Hrun|by apply deliver_window in Hrun| |done..].
  intros Htaken. by apply Hwait.
Qed.

Lemma locked_run key w s :
  panes (w_arbiter w) !! id key = Some l -> states (w_arbiter (yielded w)) !! l = Some s ->
  locked key w = Some (yielded w, inl (l, s)).
Proof.
  intros Hl Hs. unfold locked. rewrite (bind_inl _ _ w w l) by (by rewrite pane_state_run, Hl).
  rewrite (bind_inl _ _ w (yielded w) tt) by done.
  by rewrite (bind_inl _ _ (yielded w) (yielded w) s) by (by rewrite lock_state_run, Hs).
Qed.

(** In a window that reads a paste silently, the keys the human types after a paste of
    theirs wait for it: before any of them is written the wait ends, at a moment the window
    has taken the paste in or the wait's most has passed, and the wait is taken once. *)
Theorem keys_after_a_paste_wait key w s pasted timing :
  panes (w_arbiter w) !! id key = Some l -> states (w_arbiter (yielded w)) !! l = Some s ->
  l < next_loc (w_arbiter (yielded w)) ->
  generation s = key_generation key -> human_pasted s = Some (pasted, timing) ->
  timing_ok timing -> (pasted <= w_time w)%Z ->
  exists w' s', settle_human_paste key w = Some (w', inl tt) /\
    w_writer w' = w_writer w /\
    may_go timing (clock_at env (output s) (w_tick w')) pasted (w_time w') = true /\
    states (w_arbiter w') !! l = Some s' /\ human_pasted s' = None.
Proof using Hothers Hlag.
  intros Hl Hs Hnext Hg Hh Ht Hp. unfold settle_human_paste.
  rewrite (bind_inl _ _ w (yielded w) (l, s)) by (by apply locked_run).
  rewrite Hg, Z.eqb_refl. rewrite (bind_inl _ _ _ _ _ (store_run l (set_human_pasted None s) (yielded w))).
  rewrite Hh. set (w1 := World _ _ _ _). rewrite (bind_inl _ _ w1 (yielded w1) tt) by done.
  destruct (wait_for_run timing (output s) pasted (yielded w1) Ht) as (i & Hrun & Hgo & _); [done|].
  assert (rely_world l w1 (looks_world (yielded w1) i)) as Hrel.
  { etrans; [|apply looks_rely]. apply (Hothers (w_tick w1) (w_arbiter w1)). }
  destruct (Hrel Hnext) as [_ Hstates].
  destruct (Hstates (set_human_pasted None s)) as (s' & Hs' & Hrs); [simpl; by rewrite lookup_insert_eq|].
  exists (looks_world (yielded w1) i), s'. split_and!; try done.
  - apply (looks_window (yielded w1) i).
  - by destruct Hrs as [->|(_ & _ & ->)].
Qed.
End UnderWay.

(** ** What a pane whose input failed takes *)

Lemma validate_failed s key w :
  input_failed s = true ->
  validate_admission s key w = Some (w, inr (refusal key s)).
Proof.
  intros Hf. unfold validate_admission, validate_generation, refusal, mbind, M_bind.
  destruct (generation s =? key_generation key)%Z; by rewrite ?Hf.
Qed.

(** A write that failed once it was begun may have reached the window in part, so the
    pane takes no input after it: every key, every delivery and every claim is refused and
    writes nothing, however other threads go on, until a newer generation takes the pane
    over. *)
Theorem failed_pane_takes_nothing l key bytes body read_empty w s :
  panes (w_arbiter w) !! id key = Some l -> states (w_arbiter (yielded w)) !! l = Some s ->
  input_failed s = true ->
  (forall w' r, write_via key bytes w = Some (w', r) ->
     r = inr (refusal key s) /\ w_writer w' = w_writer w) /\
  (forall w' r, claim key w = Some (w', r) -> r = inr (refusal key s)) /\
  (forall w' r, write_paste_via key body read_empty w = Some (w', r) ->
     w_writer w' = w_writer w /\ r <> inl tt) /\
  (forall s', rely_state s s' -> generation s' = generation s -> input_failed s' = true).
Proof.
  intros Hl Hs Hf. split_and!.
  - intros w' r. unfold write_via.
    rewrite (bind_inl _ _ w (yielded w) (l, s)) by (by apply locked_run). simpl.
    rewrite (bind_inr _ _ _ _ _ (validate_failed s key (yielded w) Hf)). by intros [= <- <-].
  - intros w' r. unfold claim.
    rewrite (bind_inl _ _ w (yielded w) (l, s)) by (by apply locked_run). simpl.
    rewrite (validate_failed s key (yielded w) Hf). by intros [= <- <-].
  - intros w' r. destruct (sanitize body) as [text|e] eqn:Hb.
    + rewrite (write_paste_run key body text read_empty w l s Hb Hl Hs).
      unfold mbind, M_bind. rewrite admission_run, decide_False; [by intros [= <- <-]|].
      intros (_ & Hf' & _). congruence.
    + unfold write_paste_via. rewrite Hb. by intros [= <- <-].
  - intros s' [->|(_ & Hlt & _)] Hg; [done|lia].
Qed.

(** ** The human's keys *)

(** What a cell keeps of the human's writes: the last [HUMAN_WRITES], in order, none
    after [now]; and a watch that carries less than a marker. *)
Record cell_ok (now : Z) (s : PaneInputState) : Prop := {
  cell_watch : watch_ok (paste s);
  cell_few : length (writes s) <= HUMAN_WRITES;
  cell_order : StronglySorted Z.le (wr_at <$> writes s);
  cell_past : Forall (fun written => wr_at written <= now)%Z (writes s)
}.

Lemma new_state_ok now gen out : cell_ok now (new_state gen out).
Proof. split; simpl; [unfold watch_ok; simpl; lia|lia|constructor|constructor]. Qed.

Lemma push_write_ok now ws written :
  length ws <= HUMAN_WRITES -> StronglySorted Z.le (wr_at <$> ws) ->
  Forall (fun x => wr_at x <= now)%Z ws -> (now <= wr_at written)%Z ->
  length (push_write written ws) <= HUMAN_WRITES /\
  StronglySorted Z.le (wr_at <$> push_write written ws).
Proof.
  intros Hlen Hsort Hpast Hnow. unfold push_write.
  set (kept := if length ws =? HUMAN_WRITES then tail ws else ws).
  assert (length kept < HUMAN_WRITES /\ StronglySorted Z.le (wr_at <$> kept) /\
          Forall (fun x => wr_at x <= now)%Z kept) as (Hlen' & Hsort' & Hpast').
  { unfold kept. case_match; ranges; [|by split_and!; [lia|..]].
    destruct ws as [|x ws]; [done|]. simpl. apply StronglySorted_inv in Hsort as [? _].
    apply Forall_cons in Hpast as [_ ?]. simpl in *. unfold HUMAN_WRITES in *. split_and!; auto; lia. }
  rewrite length_app, fmap_app. split; [simpl; lia|].
  clear - Hsort' Hpast' Hnow. induction kept as [|x kept IH]; simpl; [repeat constructor|].
  apply StronglySorted_inv in Hsort' as [Hs Hx]. apply Forall_cons in Hpast' as [Hxn Hp].
  constructor; [by apply IH|]. apply Forall_app. split; [exact Hx|]. constructor; [lia|constructor].
Qed.

Lemma count_write_ok before now bytes segs s s' :
  cell_ok before s -> (before <= now)%Z -> count_write bytes segs now s = Some s' ->
  cell_ok now s'.
Proof.
  intros [Hw Hf Ho Hp] Hle. unfold count_write.
  destruct (keys_of (unsent s) bytes segs) as [k|]; simpl; [|done].
  intros [= <-].
  destruct (push_write_ok before (writes s) {| wr_at := now; wr_length := length bytes;
    wr_classes := k_classes k |} Hf Ho Hp Hle) as [Hf' Ho'].
  assert (Forall (fun x => wr_at x <= now)%Z (push_write {| wr_at := now; wr_length := length bytes;
    wr_classes := k_classes k |} (writes s))) as Hp'.
  { unfold push_write. apply Forall_app. split; [|repeat constructor; simpl; lia].
    assert (Forall (fun x => wr_at x <= now)%Z (writes s)) as Hall
      by (eapply Forall_impl; [exact Hp|simpl; lia]).
    case_match; [|done]. destruct (writes s); [done|]. by apply Forall_cons in Hall as [_ ?]. }
  by destruct (k_keyed k); split.
Qed.

Section Quiet.
Context (Hquiet : forall n a, others env n a = a).

Lemma yielded_quiet w : w_arbiter (yielded w) = w_arbiter w.
Proof. apply Hquiet. Qed.

Lemma locked_quiet l key w s :
  panes (w_arbiter w) !! id key = Some l -> states (w_arbiter w) !! l = Some s ->
  locked key w = Some (yielded w, inl (l, s)).
Proof. intros Hl Hs. apply locked_run; [done|]. by rewrite yielded_quiet. Qed.

(** A write of some bytes into a pane that takes input. *)
Lemma write_via_quiet l key bytes w s :
  panes (w_arbiter w) !! id key = Some l -> states (w_arbiter w) !! l = Some s ->
  generation s = key_generation key -> input_failed s = false -> bytes <> [] ->
  let '(v, said) := write_input (w_writer w) key bytes in
  exists w', write_via key bytes w =
      Some (w', match said with inl _ => inl tt | inr e => inr (failure e false) end) /\
    w_writer w' = v /\ w_time w' = w_time w /\
    w_arbiter w' = match said with
                   | inl _ => w_arbiter w
                   | inr e => failed_arbiter l key e false s (w_arbiter w)
                   end.
Proof using Hquiet.
  intros Hl Hs Hg Hf Hb. unfold write_via.
  rewrite (bind_inl _ _ w (yielded w) (l, s)) by (by apply locked_quiet). cbv beta iota.
  assert (validate_admission s key (yielded w) = Some (yielded w, inl tt)) as Hv.
  { unfold validate_admission, validate_generation. rewrite Hg, Z.eqb_refl, Hf. done. }
  rewrite (bind_inl _ _ _ _ _ Hv). destruct bytes as [|b bytes]; [done|].
  rewrite (bind_inl _ _ (yielded w) (yielded (yielded w)) tt) by done.
  destruct (write_input (w_writer w) key (b :: bytes)) as [v said] eqn:E.
  set (w1 := yielded (World (w_arbiter (yielded (yielded w))) v (w_time w) (S (S (w_tick w))))).
  assert (write_pane key (b :: bytes) (yielded (yielded w)) = Some (w1, inl said)) as Hrun
    by (unfold write_pane; simpl; by rewrite E).
  assert (w_arbiter w1 = w_arbiter w) as Ha by (unfold w1; by rewrite !yielded_quiet).
  rewrite (bind_inl _ _ _ _ _ Hrun). destruct said as [[]|e].
  - exists w1. by split_and!.
  - rewrite (fail_input_run l key e false w1 s) by (by rewrite Ha).
    eexists. split; [done|]. cbn [w_arbiter w_writer w_time]. by rewrite Ha.
Qed.

(** A write of the human's up to the window. *)
Lemma write_typed_begun l key bytes w s watch fed :
  panes (w_arbiter w) !! id key = Some l -> states (w_arbiter w) !! l = Some s ->
  generation s = key_generation key -> silent_paste s = None ->
  feed (paste s) bytes (w_time (looked (yielded w))) = Some (watch, fed) ->
  let w1 := World (put_state l (set_watch watch s) (w_arbiter w)) (w_writer w)
              (w_time (looked (yielded w))) (w_tick (looked (yielded w))) in
  write_typed_via key bytes w =
    (write_via key bytes;; yield;; count_typed key bytes (segments fed)) (yielded w1).
Proof using Hquiet.
  intros Hl Hs Hg Hsilent Hfeed w1.
  unfold write_typed_via. rewrite (bind_inl _ _ w (yielded w) (l, s)) by (by apply locked_quiet).
  cbv beta iota. rewrite Hg, Z.eqb_refl, Hsilent.
  erewrite (bind_inl _ _ (yielded w) w1 fed); [by rewrite (bind_inl _ _ w1 (yielded w1) tt)|].
  rewrite (bind_inl _ _ _ (looked (yielded w)) (w_time (looked (yielded w)))) by done.
  rewrite (bind_inl _ _ _ (looked (yielded w)) (watch, fed)) by (by rewrite Hfeed).
  cbv beta iota. erewrite bind_inl by apply store_run. unfold w1. simpl. by rewrite Hquiet.
Qed.

(** What the count of a write leaves of its cell. *)
Definition counted (bytes : list byte) (k : Keys.keys) (now : Z) (s s' : PaneInputState) : Prop :=
  unsent s' = k_unsent k /\
  typed_count s' = (if k_keyed k then S (typed_count s) else typed_count s) /\
  typed_at s' = (if k_keyed k then Some now else typed_at s) /\
  exists written, list.last (writes s') = Some written /\ wr_length written = length bytes /\
    wr_classes written = k_classes k.

Lemma count_typed_quiet l key bytes segs w s k :
  panes (w_arbiter w) !! id key = Some l -> states (w_arbiter w) !! l = Some s ->
  generation s = key_generation key -> keys_of (unsent s) bytes segs = Some k ->
  exists w' s', count_typed key bytes segs w = Some (w', inl tt) /\
    w_writer w' = w_writer w /\ w_time w' = (w_time w + lag env (S (w_tick w)))%Z /\
    states (w_arbiter w') !! l = Some s' /\
    count_write bytes segs (w_time w') s = Some s' /\ counted bytes k (w_time w') s s'.
Proof using Hquiet.
  intros Hl Hs Hg Hk. unfold count_typed.
  rewrite (bind_inl _ _ w (yielded w) (l, s)) by (by apply locked_quiet). cbv beta iota.
  rewrite Hg, Z.eqb_refl. set (w1 := looked (yielded w)).
  rewrite (bind_inl _ _ _ w1 (w_time w1)) by done.
  assert (exists s', count_write bytes segs (w_time w1) s = Some s' /\ counted bytes k (w_time w1) s s')
    as (s' & Hs' & Hc).
  { unfold count_write. rewrite Hk. eexists. split; [done|]. unfold counted, push_write.
    destruct (k_keyed k); simpl; split_and!; try done; (eexists; split; [apply last_snoc|done]). }
  rewrite (bind_inl _ _ w1 w1 s') by (by rewrite Hs'). rewrite store_run.
  eexists _, s'. split; [done|]. split_and!; try done. simpl. by rewrite lookup_insert_eq.
Qed.

(** The human's keys go into a window as they come, and are counted for what they
    leave unsent once they are in: the characters typed and pasted, by the watch over the
    writes before; the write is remembered, among the last [HUMAN_WRITES] and in order, by
    its length and kinds; and only a write that holds a key counts as one. A write the
    window does not take counts nothing. *)
Theorem human_keys_are_counted l key bytes w s :
  panes (w_arbiter w) !! id key = Some l -> states (w_arbiter w) !! l = Some s ->
  generation s = key_generation key -> input_failed s = false -> silent_paste s = None ->
  bytes <> [] -> cell_ok (w_time w) s -> (forall n, 0 <= lag env n)%Z ->
  let '(v, said) := write_input (w_writer w) key bytes in
  exists w' r s', write_typed_via key bytes w = Some (w', r) /\ w_writer w' = v /\
    states (w_arbiter w') !! l = Some s' /\
    match said with
    | inl _ =>
        r = inl tt /\ cell_ok (w_time w') s' /\ exists watch fed k,
          feed (paste s) bytes (w_time (looked (yielded w))) = Some (watch, fed) /\
          keys_of (unsent s) bytes (segments fed) = Some k /\ counted bytes k (w_time w') s s'
    | inr e => r = inr (failure e false) /\ unsent s' = unsent s /\ typed_count s' = typed_count s
    end.
Proof using Hquiet.
  intros Hl Hs Hg Hf Hsilent Hb Hok Hlag.
  destruct (feed_ok (paste s) bytes (w_time (looked (yielded w))) (cell_watch _ _ Hok))
    as (watch & fed & Hfeed & Hwatch & Hpieces & _).
  rewrite (write_typed_begun l key bytes w s watch fed) by done.
  set (w1 := World _ _ _ _). set (s1 := set_watch watch s).
  assert (panes (w_arbiter (yielded w1)) !! id key = Some l /\
          states (w_arbiter (yielded w1)) !! l = Some s1) as [Hl1 Hs1]
    by (rewrite yielded_quiet; simpl; by rewrite lookup_insert_eq).
  pose proof (write_via_quiet l key bytes (yielded w1) s1 Hl1 Hs1 Hg Hf Hb) as Hwrite.
  change (w_writer (yielded w1)) with (w_writer w) in Hwrite.
  destruct (write_input (w_writer w) key bytes) as [v [[]|e]];
    destruct Hwrite as (w2 & Hrun & Hv & Ht2 & Ha2).
  - rewrite (bind_inl _ _ _ _ _ Hrun), (bind_inl _ _ w2 (yielded w2) tt) by done.
    destruct (keys_from_ok (Keys (unsent s) false 0%Z) bytes 0 (segments fed) Hpieces)
      as (k & Hk & _). fold (keys_of (unsent s) bytes (segments fed)) in Hk.
    destruct (count_typed_quiet l key bytes (segments fed) (yielded w2) s1 k)
      as (w' & s' & Hcount & Hv' & Ht' & Hs' & Hwritten & Hc); [by rewrite yielded_quiet, Ha2..|done|done|].
    assert (w_time w <= w_time w')%Z.
    { rewrite Ht'. simpl in *. rewrite Ht2. pose proof (Hlag (S (S (w_tick w2)))).
      pose proof (Hlag (S (w_tick w))). lia. }
    exists w', (inl tt), s'. split_and!; [done|by rewrite Hv', <- Hv|done|done| |by exists watch, fed, k].
    eapply (count_write_ok (w_time w)); [|done|done]. destruct Hok as [_ H1 H2 H3]. by split.
  - rewrite (bind_inr _ _ _ _ _ Hrun). do 2 eexists. unfold failed_arbiter in Ha2.
    exists (match e with NotFound _ => s1 | _ => set_failed true s1 end).
    split; [done|]. split; [exact Hv|]. rewrite Ha2, yielded_quiet. unfold s1. cbn [generation set_watch].
    rewrite Hg, Z.eqb_refl. destruct e; (split; [simpl; by rewrite lookup_insert_eq|by split_and!]).
Qed.

(** A pane gone from the table leaves the arbiter, and only the generation that
    went: where no other thread is at the pane meanwhile, a newer generation that took its
    place keeps its state and its place, and so do all other panes. *)
Theorem retire_takes_its_generation key w :
  exists w', retire key w = Some (w', inl tt) /\ w_writer w' = w_writer w /\
    states (w_arbiter w') = states (w_arbiter w) /\
    panes (w_arbiter w') =
      (if decide (current_generation key (w_arbiter w) = Some (key_generation key))
       then delete (id key) (panes (w_arbiter w)) else panes (w_arbiter w)) /\
    (forall other, id other <> id key \/
         current_generation other (w_arbiter w) <> Some (key_generation key) ->
       current_generation other (w_arbiter w') = current_generation other (w_arbiter w)).
Proof using Hquiet.
  unfold retire.
  set (w1 := World (Arbiter (panes (w_arbiter w)) (states (others env (w_tick w) (w_arbiter w)))
    (next_loc (others env (w_tick w) (w_arbiter w))) (enter (w_arbiter w)))
    (w_writer w) (w_time w) (S (w_tick w))).
  assert (states (w_arbiter w1) = states (w_arbiter w)) as Hs1 by (simpl; by rewrite Hquiet).
  rewrite (bind_inl get_arbiter _ w w (w_arbiter w)) by done. cbv zeta.
  rewrite (bind_inl _ _ w w1 tt) by done.
  rewrite (bind_inl get_arbiter _ w1 w1 (w_arbiter w1)) by done.
  destruct (decide (current_generation key (w_arbiter w) = Some (key_generation key))) as [Hcur|Hcur];
    [rewrite bool_decide_eq_true_2 by done|rewrite bool_decide_eq_false_2 by done].
  - eexists. split; [done|]. simpl in *. split_and!; try done. intros other Hne.
    unfold current_generation in *. simpl. rewrite Hs1.
    destruct (decide (id other = id key)) as [E|E]; [|by rewrite lookup_delete_ne].
    rewrite E in Hne. by destruct Hne.
  - exists w1. split_and!; try done. intros other _. unfold current_generation. by rewrite Hs1.
Qed.
End Quiet.
End Arbiter.

(** ** A newer generation dropped by the retirement of an older *)

(** A window that takes everything. *)
#[export] Instance taking_writer : PaneInputWriter (list (list byte)) :=
  fun window _ bytes => (window ++ [bytes], inl tt).

(** A host whose threads do nothing and whose panes print nothing. *)
Definition quiet_host : environment :=
  {| lag := fun _ => 0%Z; others := fun _ a => a; clock_at := fun _ _ => new_clock 0 |}.

(** The same, but another thread does [step] at tick [n]. *)
Definition host_with (n : nat) (step : arbiter -> arbiter) : environment :=
  {| lag := fun _ => 0%Z; others := fun k a => if k =? n then step a else a;
     clock_at := fun _ _ => new_clock 0 |}.

Definition pane_1 : PaneKey := {| id := "p"; key_generation := 1 |}.
Definition pane_2 : PaneKey := {| id := "p"; key_generation := 2 |}.

(** The arbiter with the first generation of a pane in it. *)
Definition with_pane_1 : arbiter := (register_fresh pane_1 (Arbiter ∅ ∅ 0 (fixed 300))).1.

Definition host_world (a : arbiter) : world (W := list (list byte)) := World a [] 0 0.

(** [retire] reads the generation of the pane's cell, lets the cell go, and then
    takes the pane off the table. A registration of the newer generation that found the
    cell before takes it over in between: the table drops the newer generation, though
    [retire]'s comment says it keeps its own state. *)
Theorem retire_can_drop_a_newer_generation :
  (* the newer generation registers, having found the cell: its last step takes it over *)
  (exists w' out, register_inner quiet_host pane_2 (host_world with_pane_1) = Some (w', inl out) /\
     w_arbiter w' = (replace_generation 1 pane_2 with_pane_1).1) /\
  (* the older retires meanwhile: the newer is on the table no more *)
  exists w', retire (host_with 0 (fun a => (replace_generation 1 pane_2 a).1)) pane_1
               (host_world with_pane_1) = Some (w', inl tt) /\
    panes (w_arbiter w') !! "p"%string = None /\
    exists s, states (w_arbiter w') !! 1 = Some s /\ generation s = 2%Z.
Proof.
  split.
  - do 2 eexists. split; [vm_compute; reflexivity|reflexivity].
  - eexists. split; [vm_compute; reflexivity|]. split; [reflexivity|].
    eexists. split; reflexivity.
Qed.

(** ** Witnesses *)

Lemma quiet_rely l n a : rely l a (others quiet_host n a).
Proof. reflexivity. Qed.

Lemma registering_keeps_to_rely_witness :
  let R := rely_world (W := list (list byte)) 1 in
  along R (register_with quiet_host pane_2 None) /\ along R (retire quiet_host pane_1) /\
  along R (snapshot quiet_host pane_1) /\ along R (claim quiet_host pane_1) /\
  forall s s', rely_state s s' ->
    (generation s <= generation s')%Z /\
    (paste_in_flight s = true -> generation s' = generation s /\ paste_in_flight s' = true).
Proof.
  pose proof (registering_keeps_to_rely (W := list (list byte)) quiet_host 1 (quiet_rely 1)) as H.
  destruct (H pane_2 None) as (H1 & _ & _ & _ & H5). destruct (H pane_1 None) as (_ & H2 & H3 & H4 & _).
  exact (conj H1 (conj H2 (conj H3 (conj H4 H5)))).
Defined.

Definition sample_world : world (W := list (list byte)) := host_world with_pane_1.


Definition sample_state : PaneInputState := new_state 1 0.

Lemma delivery_lands_witness :
  exists w' r s', write_paste_via quiet_host pane_1 sample_body None sample_world = Some (w', r) /\
    delivered pane_1 sample_sanitized (w_writer sample_world) = (w_writer w', r) /\
    ((write_input (w_writer sample_world) pane_1 (bracketed sample_sanitized)).2 = inl tt ->
       enter_waited quiet_host (for_delivery (enter (w_arbiter (yielded quiet_host sample_world)))
           (silent_paste sample_state) sample_sanitized) (output sample_state)
         (looked quiet_host (yielded quiet_host (yielded quiet_host (yielded quiet_host sample_world)))) w') /\
    states (w_arbiter w') !! 1 = Some s' /\ landed_well pane_1 r s'.
Proof.
  apply (delivery_lands quiet_host 1 (quiet_rely 1) (fun _ => Z.le_refl 0) pane_1 sample_body
           sample_sanitized None sample_world sample_state).
  - vm_compute. split; discriminate.
  - vm_compute. lia.
  - reflexivity.
  - reflexivity.
  - reflexivity.
  - split; [reflexivity|]. split; [reflexivity|left; reflexivity].
Defined.

Lemma human_keys_are_counted_witness :
  let s := sample_state in
  let bytes := ["h"; "i"]%byte in
  let '(v, said) := write_input (w_writer sample_world) pane_1 bytes in
  exists w' r s', write_typed_via quiet_host pane_1 bytes sample_world = Some (w', r) /\
    w_writer w' = v /\ states (w_arbiter w') !! 1 = Some s' /\
    match said with
    | inl _ =>
        r = inl tt /\ cell_ok (w_time w') s' /\ exists watch fed k,
          feed (paste s) bytes (w_time (looked quiet_host (yielded quiet_host sample_world)))
            = Some (watch, fed) /\
          keys_of (unsent s) bytes (segments fed) = Some k /\ counted bytes k (w_time w') s s'
    | inr e => r = inr (failure e false) /\ unsent s' = unsent s /\ typed_count s' = typed_count s
    end.
Proof.
  apply (human_keys_are_counted quiet_host (fun _ _ => eq_refl) 1 pane_1 ["h"; "i"]%byte
           sample_world sample_state); try reflexivity.
  - discriminate.
  - apply new_state_ok.
Defined.

(** A pane whose human pasted at the start. *)
Definition pasted_state : PaneInputState := set_human_pasted (Some (0%Z, sample_timing)) sample_state.
Definition pasted_world : world (W := list (list byte)) :=
  host_world (put_state 1 pasted_state with_pane_1).

Lemma keys_after_a_paste_wait_witness :
  exists w' s', settle_human_paste quiet_host pane_1 pasted_world = Some (w', inl tt) /\
    w_writer w' = w_writer pasted_world /\
    may_go sample_timing (clock_at quiet_host (output pasted_state) (w_tick w')) 0 (w_time w') = true /\
    states (w_arbiter w') !! 1 = Some s' /\ human_pasted s' = None.
Proof.
  apply (keys_after_a_paste_wait quiet_host 1 (quiet_rely 1) (fun _ => Z.le_refl 0) pane_1
           pasted_world pasted_state 0 sample_timing); try reflexivity.
  - vm_compute. lia.
  - vm_compute. split; discriminate.
Defined.

Definition failed_state : PaneInputState := set_failed true sample_state.
Definition failed_world : world (W := list (list byte)) :=
  host_world (put_state 1 failed_state with_pane_1).

Lemma failed_pane_takes_nothing_witness :
  (forall w' r, write_via quiet_host pane_1 ["x"]%byte failed_world = Some (w', r) ->
     r = inr (refusal pane_1 failed_state) /\ w_writer w' = w_writer failed_world) /\
  (forall w' r, claim quiet_host pane_1 failed_world = Some (w', r) ->
     r = inr (refusal pane_1 failed_state)) /\
  (forall w' r, write_paste_via quiet_host pane_1 sample_body None failed_world = Some (w', r) ->
     w_writer w' = w_writer failed_world /\ r <> inl tt) /\
  (forall s', rely_state failed_state s' -> generation s' = generation failed_state ->
     input_failed s' = true).
Proof.
  apply (failed_pane_takes_nothing quiet_host 1 pane_1 ["x"]%byte sample_body None failed_world
           failed_state); reflexivity.
Defined.

Lemma retire_takes_its_generation_witness :
  let w := sample_world in
  exists w', retire quiet_host pane_1 w = Some (w', inl tt) /\ w_writer w' = w_writer w /\
    states (w_arbiter w') = states (w_arbiter w) /\
    panes (w_arbiter w') =
      (if decide (current_generation pane_1 (w_arbiter w) = Some (key_generation pane_1))
       then delete (id pane_1) (panes (w_arbiter w)) else panes (w_arbiter w)) /\
    (forall other, id other <> id pane_1 \/
         current_generation other (w_arbiter w) <> Some (key_generation pane_1) ->
       current_generation other (w_arbiter w') = current_generation other (w_arbiter w)).
Proof. exact (retire_takes_its_generation quiet_host (fun _ _ => eq_refl) pane_1 sample_world). Defined.
