(* ===== verification/InputQueue.v ===== *)
(** * Every pane's input, in order: [cf-panes/src/input_queue.rs]

    One worker and one bounded queue per pane, and a second for the terminal's
    replies. A route is behind the [Arc]s its jobs share: [queues] is the store of
    them, [senders] the table that finds a pane's, and a queue the table has let go is
    still worked off by its workers. What the host's threads do is a sequence of
    [event]s: [submit] and the page's admission under the queue's lock, a worker
    taking its next job and ending it with what the arbiter answered. A lock is never
    poisoned here; a worker that a panic took down is the event [WorkerLost]. *)
From Stdlib Require Import Sorting.Sorted.
From stdpp Require Import pretty sorting.
From S2P Require Import Prelude Utf8 PasteWatch Keys Timing Arbiter.
#[local] Open Scope nat_scope.

Definition INPUT_QUEUE_CAPACITY : nat := 1024.
Definition MAX_PENDING_INPUT_BYTES_PER_PANE : Z := 4 * 1024 * 1024.
Definition MAX_PENDING_INPUT_TICKETS : nat := 4096.
Definition MAX_INPUT_BYTES : nat := 64 * 1024.
Definition usize_max : Z := 2 ^ 64 - 1.
Definition u64_limit : Z := 2 ^ 64 - 1.

#[export] Instance pane_key_eq_dec : EqDecision PaneKey.
Proof. solve_decision. Defined.

#[export] Instance pane_key_countable : Countable PaneKey.
Proof.
  refine (inj_countable' (fun k => (id k, key_generation k))
            (fun p => {| id := p.1; key_generation := p.2 |}) _). by intros [].
Defined.

Inductive InputWork :=
| TypedKeys (bytes : list byte)
| Write (bytes : list byte)
| Reply (bytes : list byte)
| Paste (body : list byte) (read_empty : option nat)
| Claim.

(** [byte_count]: a delivery's brackets and Enter too. *)
Definition byte_count (work : InputWork) : Z :=
  match work with
  | TypedKeys bytes | Write bytes | Reply bytes => Z.of_nat (length bytes)
  | Paste body _ => (Z.of_nat (length body) + 13) `min` usize_max
  | Claim => 0
  end.

(** The codes of a refusal. *)
Inductive code :=
| INPUT_QUEUE_FULL
| INPUT_CLOSED
| LOCK_POISONED
| STALE_PANE
| PASTE_IN_FLIGHT
| INPUT_FAILED
| UNSENT_TEXT
| INVALID_BODY.

Inductive InputError :=
| Refused (c : code)
| Uncertain (error : PaneError)
| Unanswered.

(** [InputError::from(ArbiterError)] *)
Definition input_error (e : ArbiterError) : InputError :=
  match e with
  | Pane error => Uncertain error
  | Stale => Refused STALE_PANE
  | Busy => Refused PASTE_IN_FLIGHT
  | InputFailed => Refused INPUT_FAILED
  | Unsent => Refused UNSENT_TEXT
  | InvalidBody _ => Refused INVALID_BODY
  | Arbiter.LockPoisoned => Refused LOCK_POISONED
  end.

(** A paste's answer: [admitted], and what is told of the bytes written. *)
Record PasteAnswer := {
  pa_admitted : option bool;
  pa_bytes_written : option nat;
  pa_error : option code
}.

Definition paste_answer (e : InputError) : PasteAnswer :=
  match e with
  | Refused c => {| pa_admitted := Some false; pa_bytes_written := Some 0; pa_error := Some c |}
  | Uncertain _ | Unanswered =>
      {| pa_admitted := None; pa_bytes_written := None; pa_error := None |}
  end.

(** A job, and the channel its answer goes to. *)
Record InputJob := Job {
  j_work : InputWork;
  j_response : nat;
  j_reserved_bytes : Z
}.

(** A worker: what is queued for it, in order, what it does now, and whether it lives. *)
Record worker := Worker { wk_jobs : list InputJob; wk_doing : option InputJob; wk_alive : bool }.

Definition fresh_worker : worker := Worker [] None true.

(** [InputRoute], with both its workers. *)
Record route := Route { r_input : worker; r_replies : worker; r_pending_bytes : Z }.

Definition fresh_route : route := Route fresh_worker fresh_worker 0.

(** Which worker a job is for. *)
Definition is_reply (work : InputWork) : bool :=
  match work with Reply _ => true | _ => false end.

Definition worker_of (replies : bool) (r : route) : worker :=
  if replies then r_replies r else r_input r.
Definition set_worker (replies : bool) (w : worker) (r : route) : route :=
  if replies then Route (r_input r) w (r_pending_bytes r)
  else Route w (r_replies r) (r_pending_bytes r).
Definition add_pending (n : Z) (r : route) : route :=
  Route (r_input r) (r_replies r) (r_pending_bytes r + n)%Z.

Record PageInputState := Page {
  last_sequences : gmap PaneKey Z;
  completions : gmap string (nat * bool);
  next_ticket : Z
}.

Record queue := Queue {
  queues : gmap nat route;
  senders : gmap PaneKey nat;
  page : PageInputState;
  accepting : bool;
  next_queue : nat;
  next_response : nat;
  answered : list (nat * (unit + InputError))
}.

Definition new_queue : queue := Queue ∅ ∅ (Page ∅ ∅ 1) true 0 0 [].

Definition put_route (l : nat) (r : route) (q : queue) : queue :=
  Queue (<[l := r]> (queues q)) (senders q) (page q) (accepting q) (next_queue q)
    (next_response q) (answered q).
Definition put_page (p : PageInputState) (q : queue) : queue :=
  Queue (queues q) (senders q) p (accepting q) (next_queue q) (next_response q) (answered q).
Definition took_response (q : queue) : queue :=
  Queue (queues q) (senders q) (page q) (accepting q) (next_queue q) (S (next_response q))
    (answered q).
Definition answer (response : nat) (result : unit + InputError) (q : queue) : queue :=
  Queue (queues q) (senders q) (page q) (accepting q) (next_queue q) (next_response q)
    (answered q ++ [(response, result)]).

(** [pending.checked_add(reserved).filter(|next| *next <= MAX..)] *)
Definition reserve (r : route) (n : Z) : option route :=
  if (r_pending_bytes r + n <=? MAX_PENDING_INPUT_BYTES_PER_PANE)%Z
  then Some (add_pending n r) else None.

(** [submit]: the channel the answer comes on, or why the job was not taken. *)
Definition submit (q : queue) (key : PaneKey) (work : InputWork) : queue * (nat + InputError) :=
  if negb (accepting q) then (q, inr (Refused INPUT_CLOSED)) else
  match senders q !! key with
  | None => (q, inr (input_error Stale))
  | Some l =>
      match queues q !! l with
      | None => (q, inr (input_error Stale))
      | Some r =>
          let reserved := byte_count work in
          match reserve r reserved with
          | None => (q, inr (Refused INPUT_QUEUE_FULL))
          | Some r =>
              let response := next_response q in
              let q := took_response q in
              let job := Job work response reserved in
              let w := worker_of (is_reply work) r in
              if negb (wk_alive w) then
                (put_route l (add_pending (- reserved) r) q, inr (Refused INPUT_CLOSED))
              else if length (wk_jobs w) <? INPUT_QUEUE_CAPACITY then
                (put_route l (set_worker (is_reply work)
                   (Worker (wk_jobs w ++ [job]) (wk_doing w) (wk_alive w)) r) q, inl response)
              else (put_route l (add_pending (- reserved) r) q, inr (Refused INPUT_QUEUE_FULL))
          end
      end
  end.

(** The page's numbered input: what it is refused with. *)
Inductive PageError :=
| SequenceOverflow
| SequenceRegression
| SequenceGap
| InputTooLong
| TicketCapacity
| TicketOverflow
| NotSubmitted (e : InputError)
| TicketNotFound.

(** [validate_input] *)
Definition validate_input (bytes : list byte) : bool := length bytes <=? MAX_INPUT_BYTES.

Definition work_valid (work : InputWork) : bool :=
  match work with
  | TypedKeys bytes | Write bytes | Reply bytes | Paste bytes _ => validate_input bytes
  | Claim => true
  end.

(** [checked_add(1)] of a [u64] *)
Definition checked_succ (z : Z) : option Z := if (z <? u64_limit)%Z then Some (z + 1)%Z else None.

Definition ticket_name (n : Z) : string := "pane-input-" +:+ pretty (Z.to_N n).

Definition enqueue_page (q : queue) (key : PaneKey) (sequence : Z) (work : InputWork)
    (human : bool) : queue * (string + PageError) :=
  match checked_succ (default 0%Z (last_sequences (page q) !! key)) with
  | None => (q, inr SequenceOverflow)
  | Some expected =>
      if (sequence <? expected)%Z then (q, inr SequenceRegression)
      else if (expected <? sequence)%Z then (q, inr SequenceGap)
      else
        let q := put_page (Page (<[key := sequence]> (last_sequences (page q)))
                             (completions (page q)) (next_ticket (page q))) q in
        if negb (work_valid work) then (q, inr InputTooLong)
        else if MAX_PENDING_INPUT_TICKETS <=? size (completions (page q))
        then (q, inr TicketCapacity)
        else match checked_succ (next_ticket (page q)) with
        | None => (q, inr TicketOverflow)
        | Some next =>
            let '(q, submitted) := submit q key work in
            match submitted with
            | inr e => (q, inr (NotSubmitted e))
            | inl response =>
                let ticket := ticket_name (next_ticket (page q)) in
                (put_page (Page (last_sequences (page q))
                             (<[ticket := (response, human)]> (completions (page q))) next) q,
                 inl ticket)
            end
        end
  end.

Definition begin_page (q : queue) : queue := put_page (Page ∅ ∅ (next_ticket (page q))) q.

Definition take_page_completion (q : queue) (ticket : string) :
    queue * ((nat * bool) + PageError) :=
  match completions (page q) !! ticket with
  | Some completion =>
      (put_page (Page (last_sequences (page q)) (delete ticket (completions (page q)))
                   (next_ticket (page q))) q, inl completion)
  | None => (q, inr TicketNotFound)
  end.

(** [open]: the pane's queue and workers, when the two threads start ([spawned]), and
    whether it got them. *)
Definition open_pane (q : queue) (key : PaneKey) (spawned : bool) : queue * bool :=
  if accepting q && spawned then
    (Queue (<[next_queue q := fresh_route]> (queues q)) (<[key := next_queue q]> (senders q))
       (page q) (accepting q) (S (next_queue q)) (next_response q) (answered q), true)
  else (q, false).

(** [retire], the arbiter's own apart ([Arbiter.retire]). *)
Definition retire_pane (q : queue) (key : PaneKey) : queue :=
  Queue (queues q) (delete key (senders q))
    (Page (delete key (last_sequences (page q))) (completions (page q)) (next_ticket (page q)))
    (accepting q) (next_queue q) (next_response q) (answered q).

(** A worker takes its next job. *)
Definition take_job (q : queue) (l : nat) (replies : bool) : queue :=
  match queues q !! l with
  | None => q
  | Some r =>
      let w := worker_of replies r in
      match wk_alive w, wk_doing w, wk_jobs w with
      | true, None, job :: jobs =>
          put_route l (set_worker replies (Worker jobs (Some job) true) r) q
      | _, _, _ => q
      end
  end.

(** The job ends as the arbiter answered it. *)
Definition end_job (q : queue) (l : nat) (replies : bool) (result : unit + ArbiterError) : queue :=
  match queues q !! l with
  | None => q
  | Some r =>
      let w := worker_of replies r in
      match wk_doing w with
      | Some job =>
          let r := set_worker replies (Worker (wk_jobs w) None (wk_alive w)) r in
          let r := add_pending (- j_reserved_bytes job) r in
          answer (j_response job)
            (match result with inl _ => inl tt | inr e => inr (input_error e) end)
            (put_route l r q)
      | None => q
      end
  end.

(** A worker went down: the jobs it had are never answered by it, which whoever waits on
    them reads as [Unanswered]. *)
Definition lose_worker (q : queue) (l : nat) (replies : bool) : queue :=
  match queues q !! l with
  | None => q
  | Some r =>
      let w := worker_of replies r in
      let lost := match wk_doing w with Some job => job :: wk_jobs w | None => wk_jobs w end in
      fold_left (fun q job => answer (j_response job) (inr Unanswered) q) lost
        (put_route l (set_worker replies (Worker [] None false) r) q)
  end.

(** The host is stopping: nothing more is taken; what was taken is worked off. *)
Definition close (q : queue) : queue :=
  if accepting q
  then Queue (queues q) ∅ (page q) false (next_queue q) (next_response q) (answered q)
  else q.

(** ** What the host's threads do *)

Inductive event :=
| Submitted (key : PaneKey) (work : InputWork)
| Enqueued (key : PaneKey) (sequence : Z) (work : InputWork) (human : bool)
| PageBegun
| CompletionTaken (ticket : string)
| Opened (key : PaneKey) (spawned : bool)
| Retired (key : PaneKey)
| JobTaken (l : nat) (replies : bool)
| JobEnded (l : nat) (replies : bool) (result : unit + ArbiterError)
| WorkerLost (l : nat) (replies : bool)
| Closed.

Definition step (q : queue) (e : event) : queue :=
  match e with
  | Submitted key work => (submit q key work).1
  | Enqueued key sequence work human => (enqueue_page q key sequence work human).1
  | PageBegun => begin_page q
  | CompletionTaken ticket => (take_page_completion q ticket).1
  | Opened key spawned => (open_pane q key spawned).1
  | Retired key => retire_pane q key
  | JobTaken l replies => take_job q l replies
  | JobEnded l replies result => end_job q l replies result
  | WorkerLost l replies => lose_worker q l replies
  | Closed => close q
  end.

Definition steps (q : queue) (es : list event) : queue := fold_left step es q.

(** ** The invariant *)

(** The jobs a worker has, in order, the one it does first. *)
Definition jobs_of (w : worker) : list InputJob :=
  match wk_doing w with Some job => job :: wk_jobs w | None => wk_jobs w end.

Definition route_jobs (r : route) : list InputJob := jobs_of (r_input r) ++ jobs_of (r_replies r).

Definition reserved_of (jobs : list InputJob) : Z := foldr (fun job n => j_reserved_bytes job + n)%Z 0%Z jobs.

Record worker_ok (next : nat) (w : worker) : Prop := {
  worker_order : StronglySorted lt (j_response <$> jobs_of w);
  worker_known : Forall (fun job => j_response job < next) (jobs_of w);
  worker_bytes : Forall (fun job => (0 <= j_reserved_bytes job)%Z) (jobs_of w);
  worker_bounded : length (wk_jobs w) <= INPUT_QUEUE_CAPACITY;
  worker_dead : wk_alive w = false -> jobs_of w = []
}.

Record route_ok (next : nat) (r : route) : Prop := {
  route_input : worker_ok next (r_input r);
  route_replies : worker_ok next (r_replies r);
  route_reserved : (reserved_of (route_jobs r) <= r_pending_bytes r
                    <= MAX_PENDING_INPUT_BYTES_PER_PANE)%Z;
  route_exact : wk_alive (r_input r) = true -> wk_alive (r_replies r) = true ->
    r_pending_bytes r = reserved_of (route_jobs r)
}.

(** The channels of a store's jobs that no answer came on yet. *)
Definition waiting_of (qs : gmap nat route) : list nat :=
  map_to_list qs ≫= fun lr => j_response <$> route_jobs lr.2.
Definition waiting (q : queue) : list nat := waiting_of (queues q).

Record queue_ok (q : queue) : Prop := {
  queue_routes : forall l r, queues q !! l = Some r -> route_ok (next_response q) r;
  queue_fresh : forall l r, queues q !! l = Some r -> l < next_queue q;
  queue_once : NoDup (waiting q ++ (fst <$> answered q));
  queue_answered : Forall (fun a => a.1 < next_response q) (answered q);
  queue_tickets : size (completions (page q)) <= MAX_PENDING_INPUT_TICKETS
}.

(** The channels of all that was taken and waits, or was answered. *)
Definition channels (q : queue) : list nat := waiting q ++ (fst <$> answered q).

(** The channel an input that is taken is to be answered on, and what a step of the host takes. *)
Definition taken_on {E : Type} (r : nat + E) : list nat := match r with inl response => [response] | inr _ => [] end.
Definition taken (q : queue) (e : event) : list nat :=
  match e with
  | Submitted key work => taken_on (submit q key work).2
  | Enqueued key sequence work human =>
      let '(q', r) := enqueue_page q key sequence work human in
      match r with inl ticket => option_list (fst <$> completions (page q') !! ticket) | inr _ => [] end
  | _ => []
  end.
Fixpoint taken_by (q : queue) (es : list event) : list nat :=
  match es with [] => [] | e :: es => taken q e ++ taken_by (step q e) es end.

(** A step that keeps the invariant, and loses no channel of the ones there were and the [new] ones. *)
Record keeps_all (new : list nat) (q q' : queue) : Prop := {
  kept_ok : queue_ok q';
  kept_channels : channels q' ≡ₚ new ++ channels q
}.

Lemma keeps_nothing_new q : queue_ok q -> keeps_all [] q q.
Proof. by split. Qed.

Lemma keeps_all_trans q1 q2 q3 new1 new2 :
  keeps_all new1 q1 q2 -> keeps_all new2 q2 q3 -> keeps_all (new2 ++ new1) q1 q3.
Proof. intros [_ H1] [H2 H3]. split; [done|]. by rewrite H3, H1, app_assoc. Qed.

Lemma reserved_app a b : reserved_of (a ++ b) = (reserved_of a + reserved_of b)%Z.
Proof. induction a as [|x a IH]; simpl; lia. Qed.

Lemma waiting_insert qs l r :
  waiting_of (<[l := r]> qs) ≡ₚ (j_response <$> route_jobs r) ++ waiting_of (delete l qs).
Proof.
  unfold waiting_of. rewrite <- insert_delete_eq.
  rewrite map_to_list_insert by apply lookup_delete_eq. done.
Qed.

Lemma waiting_split qs l r :
  qs !! l = Some r ->
  waiting_of qs ≡ₚ (j_response <$> route_jobs r) ++ waiting_of (delete l qs).
Proof. intros Hr. rewrite <- (insert_id qs l r Hr) at 1. apply waiting_insert. Qed.

Lemma worker_ok_mono n m w : worker_ok n w -> n <= m -> worker_ok m w.
Proof.
  intros [H1 H2 H3 H4 H5] Hle. split; auto. eapply Forall_impl; [exact H2|]. simpl. lia.
Qed.

Lemma route_ok_mono n m r : route_ok n r -> n <= m -> route_ok m r.
Proof. intros [H1 H2 H3 H4] Hle. split; eauto using worker_ok_mono. Qed.

Lemma byte_count_nonneg work : (0 <= byte_count work)%Z.
Proof. assert (0 <= usize_max)%Z by done. destruct work; simpl; lia. Qed.

Lemma waiting_known q x :
  queue_ok q -> x ∈ waiting q ++ (fst <$> answered q) -> x < next_response q.
Proof.
  intros [Hr _ _ Ha _] [Hx|Hx]%elem_of_app.
  - apply list_elem_of_bind in Hx as ([l r] & Hx & Hlr). apply elem_of_map_to_list in Hlr.
    apply list_elem_of_fmap in Hx as (job & -> & Hjob). specialize (Hr l r Hlr).
    unfold route_jobs in Hjob. simpl in Hjob. apply elem_of_app in Hjob as [Hjob|Hjob].
    + pose proof (worker_known _ _ (route_input _ _ Hr)) as Hk. rewrite Forall_forall in Hk. auto.
    + pose proof (worker_known _ _ (route_replies _ _ Hr)) as Hk. rewrite Forall_forall in Hk. auto.
  - apply list_elem_of_fmap in Hx as (a & -> & Ha'). rewrite Forall_forall in Ha. auto.
Qed.

(** A step that changes one queue, makes at most some new channels and answers on some. *)
Lemma put_ok q q' l r r' new extra :
  queue_ok q -> queues q !! l = Some r ->
  queues q' = <[l := r']> (queues q) -> next_queue q' = next_queue q ->
  completions (page q') = completions (page q) ->
  answered q' = answered q ++ extra -> next_response q <= next_response q' ->
  route_ok (next_response q') r' ->
  (j_response <$> route_jobs r') ++ (fst <$> extra) ≡ₚ new ++ (j_response <$> route_jobs r) ->
  NoDup new -> Forall (fun x => next_response q <= x < next_response q') new ->
  keeps_all new q q'.
Proof.
  intros Hok Hl Eq Enq Ec Ea Hnext Hr' Hperm Hnew Hin. destruct Hok as [H1 H2 H3 H4 H5] eqn:Hq.
  assert (waiting q' ++ (fst <$> answered q') ≡ₚ new ++ (waiting q ++ (fst <$> answered q))) as Hall.
  { unfold waiting. rewrite Eq, Ea, fmap_app, waiting_insert, (waiting_split _ _ _ Hl).
    trans (((j_response <$> route_jobs r') ++ (fst <$> extra)) ++
           (waiting_of (delete l (queues q)) ++ (fst <$> answered q))); [solve_Permutation|].
    rewrite Hperm. by rewrite <- !app_assoc. }
  split; [split|exact Hall].
  - intros l' r''. rewrite Eq. intros [[-> <-]|[Hne Hl']]%lookup_insert_Some; [done|].
    by eapply route_ok_mono; [eapply H1|].
  - intros l' r''. rewrite Eq, Enq. intros [[-> <-]|[Hne Hl']]%lookup_insert_Some; eauto.
  - rewrite Hall. apply NoDup_app. split; [done|]. split; [|done]. intros x Hx Hold.
    apply (waiting_known q x Hok) in Hold. rewrite Forall_forall in Hin. specialize (Hin x Hx). lia.
  - rewrite Ea. apply Forall_app. split; [eapply Forall_impl; [exact H4|simpl; lia]|].
    apply Forall_forall. intros a Ha.
    assert (a.1 ∈ new ++ (j_response <$> route_jobs r)) as Hx.
    { rewrite <- Hperm. apply elem_of_app. right. apply list_elem_of_fmap. by exists a. }
    apply elem_of_app in Hx as [Hx|Hx]; [rewrite Forall_forall in Hin; specialize (Hin _ Hx); lia|].
    enough (a.1 < next_response q) by lia. apply (waiting_known q _ Hok). apply elem_of_app. left.
    unfold waiting. rewrite (waiting_split _ _ _ Hl). apply elem_of_app. by left.
  - by rewrite Ec.
Qed.

Lemma sorted_snoc l x :
  StronglySorted lt l -> Forall (fun y => y < x) l -> StronglySorted lt (l ++ [x]).
Proof.
  intros Hs Hx. induction Hs as [|y l Hs IH Hy]; simpl; [repeat constructor|].
  apply Forall_cons in Hx as [Hyx Hx]. constructor; [by apply IH|].
  apply Forall_app. split; [done|by constructor].
Qed.

Lemma jobs_of_snoc w job :
  jobs_of (Worker (wk_jobs w ++ [job]) (wk_doing w) (wk_alive w)) = jobs_of w ++ [job].
Proof. unfold jobs_of. simpl. by destruct (wk_doing w). Qed.

(** A worker given one more job. *)
Lemma worker_snoc_ok next w job :
  worker_ok next w -> j_response job = next -> (0 <= j_reserved_bytes job)%Z ->
  wk_alive w = true -> length (wk_jobs w) < INPUT_QUEUE_CAPACITY ->
  worker_ok (S next) (Worker (wk_jobs w ++ [job]) (wk_doing w) (wk_alive w)).
Proof.
  intros [H1 H2 H3 H4 H5] Hr Hb Hal Hlen. split; rewrite ?jobs_of_snoc, ?fmap_app.
  - apply sorted_snoc; [done|]. apply Forall_fmap. rewrite Hr. exact H2.
  - apply Forall_app. split; [eapply Forall_impl; [exact H2|simpl; lia]|].
    constructor; [lia|constructor].
  - apply Forall_app. split; [done|by repeat constructor].
  - simpl. rewrite length_app. simpl. lia.
  - simpl. congruence.
Qed.

(** A route whose one worker has gone on. *)
Lemma set_worker_ok next b w r n :
  route_ok next r -> worker_ok next w ->
  (reserved_of (jobs_of w) - reserved_of (jobs_of (worker_of b r)) <= n)%Z ->
  (wk_alive w = true -> n = reserved_of (jobs_of w) - reserved_of (jobs_of (worker_of b r)))%Z ->
  (r_pending_bytes r + n <= MAX_PENDING_INPUT_BYTES_PER_PANE)%Z ->
  (wk_alive w = true -> wk_alive (worker_of b r) = true) ->
  route_ok next (set_worker b w (add_pending n r)).
Proof.
  intros [H1 H2 H3 H4] Hw Hn Hexact Hmax Halive.
  unfold route_jobs in *. rewrite reserved_app in *.
  destruct b; simpl in *; split; simpl; auto; unfold route_jobs; simpl; rewrite ?reserved_app; try lia;
    intros Ha Hb; [rewrite (Hexact Hb), H4 by auto|rewrite (Hexact Ha), H4 by auto]; lia.
Qed.

Lemma set_worker_responses b w r n new extra :
  (j_response <$> jobs_of w) ++ extra ≡ₚ new ++ (j_response <$> jobs_of (worker_of b r)) ->
  (j_response <$> route_jobs (set_worker b w (add_pending n r))) ++ extra
    ≡ₚ new ++ (j_response <$> route_jobs r).
Proof.
  intros Hp. unfold route_jobs. rewrite !fmap_app. destruct b; simpl in *.
  - rewrite <- app_assoc, Hp. solve_Permutation.
  - trans (((j_response <$> jobs_of w) ++ extra) ++ (j_response <$> jobs_of (r_replies r)));
      [solve_Permutation|]. rewrite Hp. by rewrite <- app_assoc.
Qed.

Lemma set_worker_pending b w r n : set_worker b w (add_pending n r) = add_pending n (set_worker b w r).
Proof. by destruct b. Qed.

Lemma worker_of_ok next b r : route_ok next r -> worker_ok next (worker_of b r).
Proof. intros []. by destruct b. Qed.

Lemma add_pending_undo n r : add_pending (- n) (add_pending n r) = r.
Proof. destruct r. unfold add_pending. simpl. f_equal. lia. Qed.

Lemma submit_ok q key work :
  queue_ok q ->
  keeps_all (taken_on (submit q key work).2) q (submit q key work).1 /\ page (submit q key work).1 = page q.
Proof.
  intros Hok. pose proof (keeps_nothing_new q Hok) as Hsame. unfold submit. destruct (accepting q); [|by split]. simpl.
  destruct (senders q !! key) as [l|]; [|by split].
  destruct (queues q !! l) as [r|] eqn:Hl; [|by split].
  unfold reserve.
  destruct (r_pending_bytes r + byte_count work <=? MAX_PENDING_INPUT_BYTES_PER_PANE)%Z eqn:Hmax;
    [|by split]. ranges.
  pose proof (queue_routes _ Hok l r Hl) as Hr. pose proof (byte_count_nonneg work) as Hb.
  assert (forall q', queues q' = queues q -> next_queue q' = next_queue q -> page q' = page q ->
            answered q' = answered q -> next_response q' = S (next_response q) ->
            keeps_all [] q (put_route l (add_pending (- byte_count work) (add_pending (byte_count work) r)) q'))
    as Hundo.
  { intros q' E1 E2 E3 E4 E5. rewrite add_pending_undo.
    apply (put_ok q (put_route l r q') l r r [] []); simpl; auto; rewrite ?E1, ?E3, ?E4, ?E5; auto.
    - by rewrite app_nil_r.
    - eapply route_ok_mono; [exact Hr|lia].
    - by rewrite app_nil_r.
    - constructor. }
  set (w := worker_of (is_reply work) (add_pending (byte_count work) r)).
  assert (w = worker_of (is_reply work) r) as Ew by (unfold w; by destruct (is_reply work)).
  destruct (wk_alive w) eqn:Halive; simpl; [|split; [by apply Hundo|done]].
  destruct (length (wk_jobs w) <? INPUT_QUEUE_CAPACITY) eqn:Hlen; simpl;
    [|split; [by apply Hundo|done]].
  ranges. split; [|done]. rewrite Ew in *.
  set (job := Job work (next_response q) (byte_count work)).
  assert (worker_ok (S (next_response q))
    (Worker (wk_jobs (worker_of (is_reply work) r) ++ [job]) (wk_doing (worker_of (is_reply work) r)) true)) as Hw.
  { pose proof (worker_snoc_ok _ _ job (worker_of_ok _ (is_reply work) r Hr) eq_refl Hb Halive Hlen)
      as Hw. by rewrite Halive in Hw. }
  assert (jobs_of (Worker (wk_jobs (worker_of (is_reply work) r) ++ [job])
    (wk_doing (worker_of (is_reply work) r)) true) = jobs_of (worker_of (is_reply work) r) ++ [job]) as Ej.
  { pose proof (jobs_of_snoc (worker_of (is_reply work) r) job) as Ej. by rewrite Halive in Ej. }
  eapply (put_ok q _ l r _ [next_response q] []); simpl; auto.
  - by rewrite app_nil_r.
  - apply set_worker_ok; auto.
    + eapply route_ok_mono; [exact Hr|lia].
    + rewrite Ej, reserved_app. simpl. lia.
    + rewrite Ej, reserved_app. simpl. lia.
  - apply (set_worker_responses _ _ r _ [next_response q] []).
    rewrite Ej, fmap_app, app_nil_r. by rewrite Permutation_app_comm.
  - constructor; [set_solver|constructor].
Qed.

Lemma take_job_ok q l replies : queue_ok q -> keeps_all [] q (take_job q l replies).
Proof.
  intros Hok. pose proof (keeps_nothing_new q Hok) as Hsame. unfold take_job. destruct (queues q !! l) as [r|] eqn:Hl; [|done].
  pose proof (queue_routes _ Hok l r Hl) as Hr. pose proof (worker_of_ok _ replies r Hr) as Hw.
  destruct (worker_of replies r) as [jobs doing alive] eqn:E. simpl.
  destruct alive; [|done]. destruct doing; [done|]. destruct jobs as [|job jobs]; [done|].
  assert (forall w, set_worker replies w r = set_worker replies w (add_pending 0 r)) as E0.
  { intros w. destruct r. unfold add_pending. simpl. by rewrite Z.add_0_r. }
  rewrite E0. eapply (put_ok q _ l r _ [] []); simpl; auto.
  - by rewrite app_nil_r.
  - destruct Hr as [Hr1 Hr2 Hr3 Hr4] eqn:Hr'. apply set_worker_ok; rewrite ?E; auto.
    + destruct Hw as [H1 H2 H3 H4 H5]. split; auto. simpl in *. lia.
    + cbn. lia.
    + cbn. lia.
    + lia.
  - apply (set_worker_responses _ _ r _ [] []). rewrite E. cbn. by rewrite app_nil_r.
  - constructor.
Qed.

Lemma end_job_ok q l replies result : queue_ok q -> keeps_all [] q (end_job q l replies result).
Proof.
  intros Hok. pose proof (keeps_nothing_new q Hok) as Hsame. unfold end_job. destruct (queues q !! l) as [r|] eqn:Hl; [|done].
  pose proof (queue_routes _ Hok l r Hl) as Hr. pose proof (worker_of_ok _ replies r Hr) as Hw.
  destruct (worker_of replies r) as [jobs doing alive] eqn:E. simpl.
  destruct doing as [job|]; [|done]. set (res := match result with inl _ => _ | inr _ => _ end).
  rewrite <- set_worker_pending. destruct Hw as [H1 H2 H3 H4 H5]. cbn in H1, H2, H3, H4, H5.
  apply StronglySorted_inv in H1 as [H1 _]. apply Forall_cons in H2 as [_ H2].
  apply Forall_cons in H3 as [H3b H3].
  assert (alive = true) as -> by (destruct alive; [done|by specialize (H5 eq_refl)]).
  eapply (put_ok q _ l r _ [] [(j_response job, res)]); simpl; auto.
  - apply set_worker_ok; rewrite ?E; auto.
    + by split.
    + cbn. lia.
    + cbn. lia.
    + destruct Hr as [_ _ ? _]. lia.
  - apply (set_worker_responses _ _ r _ [] [j_response job]). rewrite E. cbn.
    by rewrite Permutation_app_comm.
  - constructor.
Qed.

Lemma answer_all_spec q jobs :
  let q' := fold_left (fun q job => answer (j_response job) (inr Unanswered) q) jobs q in
  queues q' = queues q /\ senders q' = senders q /\ page q' = page q /\
  accepting q' = accepting q /\ next_queue q' = next_queue q /\
  next_response q' = next_response q /\
  answered q' = answered q ++ ((fun job => (j_response job, inr Unanswered)) <$> jobs).
Proof.
  revert q. induction jobs as [|job jobs IH]; intros q; [by rewrite app_nil_r|].
  cbn [fold_left]. destruct (IH (answer (j_response job) (inr Unanswered) q))
    as (-> & -> & -> & -> & -> & -> & ->). csimpl. by rewrite <- app_assoc.
Qed.

Lemma lose_worker_ok q l replies : queue_ok q -> keeps_all [] q (lose_worker q l replies).
Proof.
  intros Hok. pose proof (keeps_nothing_new q Hok) as Hsame. unfold lose_worker. destruct (queues q !! l) as [r|] eqn:Hl; [|done].
  pose proof (queue_routes _ Hok l r Hl) as Hr. fold (jobs_of (worker_of replies r)).
  set (q0 := put_route l (set_worker replies (Worker [] None false) r) q).
  destruct (answer_all_spec q0 (jobs_of (worker_of replies r))) as (E1 & _ & E3 & _ & E5 & E6 & E7).
  assert (forall w, set_worker replies w r = set_worker replies w (add_pending 0 r)) as E0.
  { intros w. destruct r. unfold add_pending. simpl. by rewrite Z.add_0_r. }
  pose proof (worker_bytes _ _ (worker_of_ok _ replies r Hr)) as Hbytes.
  assert (0 <= reserved_of (jobs_of (worker_of replies r)))%Z as Hpos.
  { clear - Hbytes. induction (jobs_of (worker_of replies r)) as [|job jobs IH]; simpl; [lia|].
    apply Forall_cons in Hbytes as [? ?]. specialize (IH ltac:(done)). lia. }
  eapply (put_ok q _ l r (set_worker replies (Worker [] None false) (add_pending 0 r)) []
           ((fun job => (j_response job, inr Unanswered)) <$> jobs_of (worker_of replies r))).
  - done.
  - done.
  - rewrite E1. unfold q0. simpl. by rewrite E0.
  - by rewrite E5.
  - by rewrite E3.
  - by rewrite E7.
  - by rewrite E6.
  - rewrite E6. apply set_worker_ok; auto.
    + by repeat constructor.
    + cbn. lia.
    + done.
    + destruct Hr as [_ _ ? _]. lia.
    + done.
  - apply (set_worker_responses _ _ r _ [] _). cbn. by rewrite <- list_fmap_compose.
  - constructor.
  - constructor.
Qed.

Lemma queue_ok_same q q' :
  queue_ok q -> queues q' = queues q -> next_queue q' = next_queue q ->
  next_response q' = next_response q -> answered q' = answered q ->
  size (completions (page q')) <= MAX_PENDING_INPUT_TICKETS -> keeps_all [] q q'.
Proof.
  intros [H1 H2 H3 H4 H5] E1 E2 E3 E4 Ht.
  split; [split|]; unfold channels, waiting in *; rewrite ?E1, ?E2, ?E3, ?E4; auto.
Qed.

Lemma size_insert_le {A} k (x : A) (m : gmap string A) : size (<[k := x]> m) <= S (size m).
Proof. rewrite map_size_insert. destruct (m !! k); simpl; lia. Qed.

Lemma size_delete_le {A} k (m : gmap string A) : size (delete k m) <= size m.
Proof. rewrite map_size_delete. destruct (m !! k); simpl; lia. Qed.

Lemma enqueue_page_ok q key sequence work human :
  queue_ok q -> keeps_all (taken q (Enqueued key sequence work human)) q (enqueue_page q key sequence work human).1.
Proof.
  intros Hok. pose proof (keeps_nothing_new q Hok) as Hsame. unfold taken, enqueue_page.
  destruct (checked_succ _) as [expected|]; [|done].
  destruct (sequence <? expected)%Z; [done|]. destruct (expected <? sequence)%Z; [done|].
  set (q1 := put_page _ q).
  assert (keeps_all [] q q1) as Hok1 by (apply (queue_ok_same q); auto; apply (queue_tickets _ Hok)).
  destruct (negb (work_valid work)); [done|].
  destruct (MAX_PENDING_INPUT_TICKETS <=? _) eqn:Ht; [done|]. ranges.
  destruct (checked_succ (next_ticket (page q1))) as [next|]; [|done].
  destruct (submit_ok q1 key work (kept_ok _ _ _ Hok1)) as [Hok2 Hp]. destruct (submit q1 key work) as [q2 [r|e]];
    [|exact (keeps_all_trans _ _ _ [] [] Hok1 Hok2)].
  cbn [put_page page completions fst snd taken_on] in *. rewrite lookup_insert_eq.
  change (option_list (fst <$> Some (r, human))) with ([] ++ [r]).
  eapply (keeps_all_trans q q2 _ [r] []); [exact (keeps_all_trans _ _ _ [] [r] Hok1 Hok2)|]. apply (queue_ok_same q2); auto; [apply Hok2|].
  cbn [put_page page completions]. rewrite Hp.
  eapply Nat.le_trans; [apply size_insert_le|]. unfold q1 in *. simpl in *. lia.
Qed.

Lemma queue_step_ok q e : queue_ok q -> keeps_all (taken q e) q (step q e).
Proof.
  intros Hok. pose proof (keeps_nothing_new q Hok) as Hsame.
  destruct e as [key work|key sequence work human| |ticket|key spawned|key|l b|l b result|l b|];
    cbn [step]; auto using take_job_ok, end_job_ok, lose_worker_ok, enqueue_page_ok.
  - by apply submit_ok.
  - apply (queue_ok_same q); auto. cbn. rewrite map_size_empty. unfold MAX_PENDING_INPUT_TICKETS. lia.
  - unfold take_page_completion. case_match; [|done]. apply (queue_ok_same q); auto. simpl.
    pose proof (queue_tickets _ Hok). pose proof (size_delete_le ticket (completions (page q))). lia.
  - unfold open_pane. destruct (accepting q), spawned; [|done..]. simpl. destruct Hok as [H1 H2 H3 H4 H5].
    assert (queues q !! next_queue q = None) as Hnone.
    { destruct (queues q !! next_queue q) eqn:E; [|done]. apply H2 in E. lia. }
    assert (forall q', queues q' = <[next_queue q:=fresh_route]> (queues q) -> waiting q' ≡ₚ waiting q) as Hw.
    { intros q' E. unfold waiting. by rewrite E, waiting_insert, delete_id. }
    split; [split|]; simpl; auto.
    + intros l r [[<- <-]|[_ Hl]]%lookup_insert_Some; [|by eauto].
      assert (forall n, worker_ok n fresh_worker) as Hfresh
        by (intros n; split; simpl; try constructor; unfold INPUT_QUEUE_CAPACITY; try lia; done).
      split; auto; cbn; split; try lia; done.
    + intros l r [[<- <-]|[_ Hl]]%lookup_insert_Some; [lia|]. apply H2 in Hl. lia.
    + rewrite Hw by done. exact H3.
    + unfold channels. simpl. by rewrite Hw.
  - apply (queue_ok_same q); auto. apply (queue_tickets _ Hok).
  - unfold close. destruct (accepting q); [|done].
    apply (queue_ok_same q); auto. apply (queue_tickets _ Hok).
Qed.

Lemma new_queue_ok : queue_ok new_queue.
Proof.
  split; simpl; try done; [|rewrite map_size_empty; unfold MAX_PENDING_INPUT_TICKETS; lia].
  unfold waiting, waiting_of. simpl. rewrite map_to_list_empty. constructor.
Qed.

Lemma queue_steps_keep es : keeps_all (taken_by new_queue es) new_queue (steps new_queue es).
Proof.
  unfold steps. generalize new_queue new_queue_ok. induction es as [|e es IH]; intros q Hok; [by apply keeps_nothing_new|].
  simpl. pose proof (queue_step_ok q e Hok) as He. destruct (IH (step q e) (kept_ok _ _ _ He)) as [H1 H2].
  split; [done|]. rewrite H2, (kept_channels _ _ _ He). rewrite !app_assoc. f_equiv. apply Permutation_app_comm.
Qed.

Lemma queue_steps_ok es : queue_ok (steps new_queue es).
Proof. apply (kept_ok _ _ _ (queue_steps_keep es)). Qed.

Lemma waiting_at q l r replies job :
  queues q !! l = Some r -> job ∈ jobs_of (worker_of replies r) -> j_response job ∈ waiting q.
Proof.
  intros Hl Hjob. unfold waiting. rewrite (waiting_split _ _ _ Hl). apply elem_of_app. left.
  apply list_elem_of_fmap. exists job. split; [done|]. unfold route_jobs. destruct replies; set_solver.
Qed.

(** C2: whatever the host's threads do, a pane's input is bounded and every input taken is
    answered once, none lost: no queue holds over 4 MiB or 1024 jobs a worker, what it counts as
    pending is what its jobs reserved, and no more than 4096 of the page's tickets stand; and of the
    channels of all the inputs that were ever taken, each is once either answered or that of a job
    that a worker has, a worker that lives, so that the end of the job, or of the worker, answers it. *)
Theorem input_is_bounded_and_answered_once es :
  let q := steps new_queue es in
  (forall l r, queues q !! l = Some r ->
     (0 <= r_pending_bytes r <= MAX_PENDING_INPUT_BYTES_PER_PANE)%Z /\
     length (wk_jobs (r_input r)) <= INPUT_QUEUE_CAPACITY /\
     length (wk_jobs (r_replies r)) <= INPUT_QUEUE_CAPACITY /\
     (wk_alive (r_input r) = true -> wk_alive (r_replies r) = true ->
      r_pending_bytes r = reserved_of (route_jobs r))) /\
  taken_by new_queue es ≡ₚ waiting q ++ (fst <$> answered q) /\
  NoDup (waiting q ++ (fst <$> answered q)) /\
  (forall response, response ∈ waiting q -> exists l r replies job,
     queues q !! l = Some r /\ job ∈ jobs_of (worker_of replies r) /\ j_response job = response /\
     wk_alive (worker_of replies r) = true) /\
  (forall l r replies job, queues q !! l = Some r -> job ∈ jobs_of (worker_of replies r) ->
     (j_response job, inr Unanswered) ∈ answered (lose_worker q l replies) /\
     (wk_doing (worker_of replies r) = Some job -> forall result,
        (j_response job, match result with inl _ => inl tt | inr e => inr (input_error e) end)
          ∈ answered (end_job q l replies result))) /\
  size (completions (page q)) <= MAX_PENDING_INPUT_TICKETS.
Proof.
  intros q. destruct (queue_steps_keep es) as [[H1 H2 H3 H4 H5] Hch]. fold q in H1, H2, H3, H4, H5, Hch.
  split_and!; [| | | | |done].
  - intros l r Hl. destruct (H1 l r Hl) as [Hi Hr Hres Hex].
    assert (forall jobs, Forall (fun job => (0 <= j_reserved_bytes job)%Z) jobs ->
              (0 <= reserved_of jobs)%Z) as Hpos by (induction 1; simpl; lia).
    pose proof (Hpos _ (worker_bytes _ _ Hi)). pose proof (Hpos _ (worker_bytes _ _ Hr)).
    unfold route_jobs in Hres. rewrite reserved_app in Hres.
    split_and!; [lia|lia|apply (worker_bounded _ _ Hi)|apply (worker_bounded _ _ Hr)|exact Hex].
  - unfold channels in Hch. simpl in Hch. unfold waiting at 2, waiting_of in Hch. simpl in Hch.
    rewrite map_to_list_empty, !app_nil_r in Hch. by symmetry.
  - done.
  - intros response (lr & Hr & Hlr)%list_elem_of_bind. destruct lr as [l r].
    apply elem_of_map_to_list in Hlr. apply list_elem_of_fmap in Hr as (job & -> & Hjob).
    assert (exists replies, job ∈ jobs_of (worker_of replies r)) as [replies Hj].
    { apply elem_of_app in Hjob as [?|?]; [by exists false|by exists true]. }
    exists l, r, replies, job. split_and!; [done..|]. destruct (wk_alive _) eqn:Ea; [done|].
    rewrite (worker_dead _ _ (worker_of_ok _ replies r (H1 l r Hlr)) Ea) in Hj. by apply elem_of_nil in Hj.
  - intros l r replies job Hl Hjob. split.
    + unfold lose_worker. rewrite Hl. fold (jobs_of (worker_of replies r)).
      destruct (answer_all_spec (put_route l (set_worker replies (Worker [] None false) r) q) (jobs_of (worker_of replies r)))
        as (_ & _ & _ & _ & _ & _ & ->). apply elem_of_app. right. apply list_elem_of_fmap. by exists job.
    + intros Hd result. unfold end_job. rewrite Hl, Hd. simpl. apply elem_of_app. right. by apply list_elem_of_singleton.
Qed.

(** A pane's input goes in in the order it was taken: a worker's jobs are in that order,
    the one it does is the first of them, its end is told on that one's channel, and a job
    taken later comes after all that stand. *)
Theorem input_goes_in_order es l r replies :
  let q := steps new_queue es in
  queues q !! l = Some r ->
  StronglySorted lt (j_response <$> jobs_of (worker_of replies r)) /\
  (forall result job, wk_doing (worker_of replies r) = Some job ->
     answered (end_job q l replies result) =
       answered q ++ [(j_response job, match result with inl _ => inl tt | inr e => inr (input_error e) end)] /\
     Forall (fun later => j_response job < j_response later) (wk_jobs (worker_of replies r))) /\
  (forall key work q' response, submit q key work = (q', inl response) ->
     Forall (fun job => j_response job < response) (jobs_of (worker_of replies r))).
Proof.
  intros q Hl. pose proof (queue_steps_ok es) as Hok. fold q in Hok.
  pose proof (worker_of_ok _ replies r (queue_routes _ Hok l r Hl)) as [H1 H2 H3 H4 H5].
  split_and!; [done| |].
  - intros result job Hd. unfold end_job. rewrite Hl, Hd. split; [done|].
    unfold jobs_of in H1. rewrite Hd in H1. apply StronglySorted_inv in H1 as [_ H1].
    exact (proj1 (Forall_fmap j_response (lt (j_response job)) _) H1).
  - intros key work q' response. unfold submit. destruct (accepting q); [|done]. simpl.
    destruct (senders q !! key) as [l'|]; [|done]. destruct (queues q !! l') as [r'|]; [|done].
    destruct (reserve r' (byte_count work)) as [r''|]; [|done].
    destruct (negb _); [done|]. destruct (_ <? _); [|done]. by intros [= _ <-].
Qed.

(** ** A worker works its queue off *)

Definition answer_of (result : unit + ArbiterError) : unit + InputError :=
  match result with inl _ => inl tt | inr e => inr (input_error e) end.

(** [input_worker]: its jobs one after another, each ended as the arbiter answered it. *)
Definition work_off (q : queue) (l : nat) (replies : bool) (results : list (unit + ArbiterError)) :
    queue :=
  fold_left (fun q result => end_job (take_job q l replies) l replies result) results q.

Lemma worker_of_set b w r : worker_of b (set_worker b w r) = w.
Proof. by destruct b. Qed.

Lemma set_worker_set b w w' r : set_worker b w (set_worker b w' r) = set_worker b w r.
Proof. by destruct b. Qed.

(** One job done. *)
Lemma end_take q l replies r job jobs result :
  queues q !! l = Some r -> worker_of replies r = Worker (job :: jobs) None true ->
  end_job (take_job q l replies) l replies result =
    answer (j_response job) (answer_of result)
      (put_route l (add_pending (- j_reserved_bytes job)
                      (set_worker replies (Worker jobs None true) r)) q).
Proof.
  intros Hl Hw. unfold take_job. rewrite Hl, Hw. simpl. unfold end_job. simpl.
  rewrite lookup_insert_eq, worker_of_set. simpl. rewrite set_worker_set.
  unfold answer, put_route, answer_of. simpl. by rewrite insert_insert_eq.
Qed.

Lemma work_off_run q l replies r jobs results :
  queues q !! l = Some r -> worker_of replies r = Worker jobs None true ->
  length results = length jobs ->
  let q' := work_off q l replies results in
  queues q' !! l =
    Some (add_pending (- reserved_of jobs) (set_worker replies fresh_worker r)) /\
  answered q' = answered q ++ zip_with (fun job result => (j_response job, answer_of result))
                                jobs results.
Proof.
  revert q r jobs. induction results as [|result results IH]; intros q r jobs Hl Hw Hlen;
    destruct jobs as [|job jobs]; try done; cbn [length] in Hlen.
  - unfold work_off. cbn [fold_left zip_with]. rewrite Hl, app_nil_r. split; [|done]. f_equal.
    unfold fresh_worker. rewrite <- Hw. destruct r; destruct replies; unfold add_pending; simpl;
      f_equal; lia.
  - unfold work_off. cbn [fold_left]. rewrite (end_take q l replies r job jobs result Hl Hw).
    destruct (IH (answer (j_response job) (answer_of result)
      (put_route l (add_pending (- j_reserved_bytes job)
                      (set_worker replies (Worker jobs None true) r)) q))
      (add_pending (- j_reserved_bytes job) (set_worker replies (Worker jobs None true) r)) jobs)
      as [E1 E2]; [apply lookup_insert_eq|by destruct replies|lia|].
    unfold work_off in E1, E2. rewrite E1, E2. split.
    + f_equal. destruct r; destruct replies; unfold add_pending; simpl; f_equal; lia.
    + simpl. by rewrite <- app_assoc.
Qed.

(** What a worker took is worked off, also where the table let its pane go or the host
    is stopping: given an answer of the arbiter for each of its jobs, it ends with none, each
    was answered in the order it was taken, and what they reserved is free again. *)
Theorem taken_input_is_worked_off es l r replies results :
  let q := steps new_queue es in
  queues q !! l = Some r -> wk_alive (worker_of replies r) = true ->
  wk_doing (worker_of replies r) = None ->
  length results = length (wk_jobs (worker_of replies r)) ->
  let q' := work_off q l replies results in
  answered q' = answered q ++ zip_with (fun job result => (j_response job, answer_of result))
                                (wk_jobs (worker_of replies r)) results /\
  exists r', queues q' !! l = Some r' /\ worker_of replies r' = fresh_worker /\
    worker_of (negb replies) r' = worker_of (negb replies) r /\
    (wk_alive (worker_of (negb replies) r) = true ->
     r_pending_bytes r' = reserved_of (jobs_of (worker_of (negb replies) r))).
Proof.
  intros q Hl Halive Hdoing Hlen q'.
  pose proof (route_exact _ _ (queue_routes _ (queue_steps_ok es) l r Hl)) as Hexact.
  destruct (worker_of replies r) as [jobs doing alive] eqn:Hw. simpl in *. subst doing alive.
  destruct (work_off_run q l replies r jobs results Hl Hw Hlen) as [E1 E2].
  split; [done|]. eexists. split; [done|].
  split_and!; [by destruct replies|by destruct replies|].
  intros Ho. unfold route_jobs in Hexact. rewrite reserved_app in Hexact.
  destruct r as [wi wr n], replies; simpl in *; subst; unfold jobs_of at 2 in Hexact; 
    unfold jobs_of in Hexact |- *; simpl in *; rewrite Hexact; auto; lia.
Qed.

(** ** The page's numbered input *)

(** Every ticket that stands was named by a number the count is past. *)
Record page_ok (p : PageInputState) : Prop := {
  page_count : (1 <= next_ticket p)%Z;
  page_names : forall ticket, is_Some (completions p !! ticket) ->
    exists n, (1 <= n < next_ticket p)%Z /\ ticket = ticket_name n
}.

Lemma ticket_name_inj n m : (0 <= n)%Z -> (0 <= m)%Z -> ticket_name n = ticket_name m -> n = m.
Proof. intros Hn Hm H%(inj (String.app _)). apply (inj pretty) in H. lia. Qed.

Lemma submit_page q key work : page (submit q key work).1 = page q.
Proof.
  unfold submit. destruct (accepting q); [|done]. simpl.
  destruct (senders q !! key); [|done]. destruct (queues q !! _); [|done].
  destruct (reserve _ _); [|done]. destruct (negb _); [done|]. by destruct (_ <? _).
Qed.

(** The outcomes of a numbered input that passes its number. *)
Lemma enqueue_page_cases q key sequence work human :
  let '(q', r) := enqueue_page q key sequence work human in
  match r with
  | inl ticket =>
      sequence = (default 0 (last_sequences (page q) !! key) + 1)%Z /\
      ticket = ticket_name (next_ticket (page q)) /\
      exists response, page q' =
        Page (<[key := sequence]> (last_sequences (page q)))
          (<[ticket := (response, human)]> (completions (page q))) (next_ticket (page q) + 1) /\
        work_valid work = true /\
        (exists q1, submit q1 key work = (put_page (page q1) q', inl response) /\
           q1 = put_page (Page (<[key := sequence]> (last_sequences (page q)))
                            (completions (page q)) (next_ticket (page q))) q)
  | inr (SequenceOverflow | SequenceRegression | SequenceGap) => q' = q
  | inr _ => page q' = Page (<[key := sequence]> (last_sequences (page q)))
                         (completions (page q)) (next_ticket (page q))
  end.
Proof.
  unfold enqueue_page. destruct (checked_succ (default _ _)) as [expected|] eqn:He; [|done].
  destruct (sequence <? expected)%Z eqn:E1; [done|].
  destruct (expected <? sequence)%Z eqn:E2; [done|]. ranges.
  assert (expected = default 0 (last_sequences (page q) !! key) + 1)%Z as Hexp.
  { unfold checked_succ in He. by destruct (_ <? _)%Z; simplify_eq. }
  destruct (work_valid work) eqn:Hv; simpl; [|done].
  destruct (MAX_PENDING_INPUT_TICKETS <=? _); [done|].
  destruct (checked_succ (next_ticket (page q))) as [next|] eqn:Hn; [|done].
  assert (next = next_ticket (page q) + 1)%Z as ->.
  { unfold checked_succ in Hn. by destruct (_ <? _)%Z; simplify_eq. }
  match goal with |- context [submit ?q1 key work] => pose proof (submit_page q1 key work) as Hp;
    destruct (submit q1 key work) as [q2 [response|e]] eqn:Es end; simpl in *; rewrite Hp; simpl;
    [|done].
  split; [lia|]. split; [done|]. exists response. split_and!; [done|done|].
  eexists. split; [|done]. rewrite Es. destruct q2. simpl in *. by rewrite Hp.
Qed.

Lemma page_ok_step q e : page_ok (page q) -> page_ok (page (step q e)).
Proof.
  intros [H1 H2].
  assert (forall ls, page_ok (Page ls (completions (page q)) (next_ticket (page q)))) as Hls
    by (split; auto).
  destruct e as [key work|key sequence work human| |ticket|key spawned|key|l b|l b result|l b|]; simpl.
  - rewrite submit_page. by split.
  - pose proof (enqueue_page_cases q key sequence work human) as Hc.
    destruct (enqueue_page q key sequence work human) as [q' [ticket|e]]; simpl in *.
    + destruct Hc as (_ & -> & response & -> & _). split; simpl; [lia|].
      intros ticket [c Hc]. apply lookup_insert_Some in Hc as [[<- _]|[_ Hc]].
      * exists (next_ticket (page q)). split; [lia|done].
      * destruct (H2 ticket) as (n & ? & ?); [by eexists|]. exists n. split; [lia|done].
    + destruct e; try (rewrite Hc; auto); by split.
  - split; simpl; [done|]. intros ticket [c Hc]. by rewrite lookup_empty in Hc.
  - unfold take_page_completion. destruct (completions (page q) !! ticket); [|by split].
    split; simpl; [done|]. intros t [c Hc]. apply lookup_delete_Some in Hc as [_ Hc].
    apply H2. by eexists.
  - unfold open_pane. by destruct (accepting q && spawned).
  - apply Hls.
  - unfold take_job. repeat (case_match; simpl; try by split).
  - unfold end_job. repeat (case_match; simpl; try by split).
  - unfold lose_worker. destruct (queues q !! l) as [r|]; [|by split].
    destruct (answer_all_spec (put_route l (set_worker b (Worker [] None false) r) q)
      match wk_doing (worker_of b r) with
      | Some job => job :: wk_jobs (worker_of b r) | None => wk_jobs (worker_of b r) end)
      as (_ & _ & -> & _). by split.
  - unfold close. destruct (accepting q); by split.
Qed.

Lemma steps_page_ok es : page_ok (page (steps new_queue es)).
Proof.
  assert (page_ok (page new_queue)) as H0.
  { split; simpl; [lia|]. intros ticket [c Hc]. by rewrite lookup_empty in Hc. }
  unfold steps. revert H0. generalize new_queue. induction es as [|e es IH]; intros q Hq; [done|].
  simpl. by apply IH, page_ok_step.
Qed.

(** A taken job waits on a channel of its own. *)
Lemma submit_waiting q key work q' response :
  submit q key work = (q', inl response) ->
  response = next_response q /\ waiting q' ≡ₚ response :: waiting q.
Proof.
  unfold submit. destruct (accepting q); [|done]. simpl.
  destruct (senders q !! key) as [l|]; [|done].
  destruct (queues q !! l) as [r|] eqn:Hl; [|done].
  unfold reserve. destruct (_ <=? _)%Z; [|done].
  destruct (negb _); [done|]. destruct (_ <? _); [|done].
  intros [= <- <-]. split; [done|]. unfold waiting. simpl.
  rewrite waiting_insert, (waiting_split _ _ _ Hl). unfold route_jobs.
  destruct (is_reply work); simpl; rewrite jobs_of_snoc, !fmap_app; simpl; solve_Permutation.
Qed.

(** The page's input is numbered: an input is taken only as the next of its pane's
    numbers, for a ticket no other input of the page's stands under, on which its own answer
    comes and once; a number out of turn changes nothing, and a refusal later than that
    uses the number up and leaves no ticket. *)
Theorem page_input_is_numbered es key sequence work human :
  let q := steps new_queue es in
  let '(q', r) := enqueue_page q key sequence work human in
  let last := default 0%Z (last_sequences (page q) !! key) in
  match r with
  | inl ticket =>
      sequence = (last + 1)%Z /\ completions (page q) !! ticket = None /\
      last_sequences (page q') !! key = Some sequence /\
      exists response,
        response ∈ waiting q' /\ (response ∉ waiting q) /\
        (let '(q'', taken) := take_page_completion q' ticket in
         taken = inl (response, human) /\ completions (page q'') = completions (page q) /\
         (take_page_completion q'' ticket).2 = inr TicketNotFound)
  | inr (SequenceOverflow | SequenceRegression | SequenceGap) => q' = q
  | inr _ => last_sequences (page q') = <[key := sequence]> (last_sequences (page q)) /\
             completions (page q') = completions (page q)
  end.
Proof.
  intros q. pose proof (steps_page_ok es) as [Hp1 Hp2]. fold q in Hp1, Hp2.
  pose proof (enqueue_page_cases q key sequence work human) as Hc.
  destruct (enqueue_page q key sequence work human) as [q' [ticket|e]].
  - destruct Hc as (Hseq & -> & response & Hpage & _ & q1 & Hsubmit & Hq1).
    apply submit_waiting in Hsubmit as [Hresp Hwait].
    assert (next_response q1 = next_response q /\ waiting q1 = waiting q) as [E1 E2] by by subst.
    assert (completions (page q) !! ticket_name (next_ticket (page q)) = None) as Hnone.
    { apply eq_None_not_Some. intros (n & Hn & Hname)%Hp2.
      apply ticket_name_inj in Hname; lia. }
    split_and!; [done|done|rewrite Hpage; apply lookup_insert_eq|].
    change (waiting (put_page (page q1) q')) with (waiting q') in Hwait.
    rewrite E2 in Hwait. rewrite E1 in Hresp. exists response. split_and!.
    + rewrite Hwait. by left.
    + intros Hin. enough (response < next_response q) by lia.
      apply (waiting_known q _ (queue_steps_ok es)). apply elem_of_app. by left.
    + unfold take_page_completion. rewrite Hpage. cbn [completions]. rewrite lookup_insert_eq. simpl.
      rewrite delete_insert_id by done. split_and!; [done|done|]. by rewrite Hnone.
  - destruct e; try done; by rewrite Hc.
Qed.

(** ** What a worker asks of the arbiter, and what a refusal says *)

Section Refusals.
Context {W : Type} `{PaneInputWriter W} (env : environment).

(** [input_worker]: what the arbiter is asked for a job. *)
Definition do_work (key : PaneKey) (work : InputWork) : M (W:=W) unit :=
  match work with
  | TypedKeys bytes => write_typed_via env key bytes
  | Write bytes | Reply bytes => write_via env key bytes
  | Paste body read_empty => write_paste_via env key body read_empty
  | Claim => claim env key
  end.

(** A window that says a pane is not open gave it nothing ([PaneTable::write]). *)
Class LawfulWriter : Prop :=
  not_found_takes_nothing : forall v key bytes gone,
    (write_input v key bytes).2 = inr (NotFound gone) -> (write_input v key bytes).1 = v.

Context `{!LawfulWriter}.

Lemma failure_refused error begun c :
  input_error (failure error begun) = Refused c -> exists gone, error = NotFound gone /\ begun = false.
Proof. destruct begun, error; simpl; intros [=]; eauto. Qed.

Lemma write_pane_refused key bytes w w' error c :
  write_pane env key bytes w = Some (w', inl (inr error)) ->
  input_error (failure error false) = Refused c -> same_window w w'.
Proof.
  unfold write_pane. intros Hw (gone & -> & _)%failure_refused.
  pose proof (not_found_takes_nothing (w_writer w) key bytes) as Hn.
  destruct (write_input (w_writer w) key bytes) as [v r]. injection Hw as <- ->.
  by apply (Hn gone).
Qed.

(** An operation that leaves the window as it was where it is refused. *)
Definition refused_alone {A} (m : M (W:=W) A) : Prop :=
  forall w w' e c, m w = Some (w', inr e) -> input_error e = Refused c -> same_window w w'.

Lemma quiet_refused {A} (m : M (W:=W) A) : along same_window m -> refused_alone m.
Proof. intros Hm w w' e c Hrun _. by eapply Hm. Qed.

Lemma quiet_then {A B} (m : M (W:=W) A) (k : A -> M B) :
  along same_window m -> (forall x, refused_alone (k x)) -> refused_alone (m ≫= k).
Proof.
  intros Hm Hk w w' e c [(w1 & x & Hrun & Hrest)|(e' & Hrun & [= <-])]%bind_run He.
  - trans w1; [by eapply Hm|by eapply Hk].
  - by eapply Hm.
Qed.

Lemma write_via_refused key bytes : refused_alone (write_via env key bytes).
Proof.
  unfold write_via. apply quiet_then; [apply locked_window|]. intros [l s].
  apply quiet_then; [apply along_validate_admission; apply _|]. intros [].
  destruct bytes as [|b bytes]; [apply quiet_refused, along_ret; apply _|].
  apply quiet_then; [apply yield_window|]. intros [] w w' e c.
  intros [(w1 & [[]|error] & Hwrite & Hrest)|(e' & Hwrite & _)]%bind_run He; [done| |].
  - trans w1; [|by eapply fail_input_window].
    apply fail_input_answer in Hrest as [= ->]. by eapply write_pane_refused.
  - unfold write_pane in Hwrite. by destruct (write_input _ _ _).
Qed.

Lemma deliver_refused l key body admission : refused_alone (deliver env l key body admission).
Proof.
  intros w w' e c Hrun%deliver_window He. unfold delivered in Hrun. unfold same_window.
  pose proof (not_found_takes_nothing (w_writer w) key (bracketed body)) as Hn.
  destruct (write_input (w_writer w) key (bracketed body)) as [v1 [[]|error]].
  - destruct (write_input v1 key [carriage_return]) as [v2 [[]|error]]; [done|].
    injection Hrun as _ <-. by apply (failure_refused error true) in He as (? & _ & ?).
  - injection Hrun as <- <-. apply (failure_refused error false) in He as (gone & -> & _). by apply (Hn gone).
Qed.

Lemma write_paste_refused key body read_empty : refused_alone (write_paste_via env key body read_empty).
Proof.
  unfold write_paste_via.
  destruct (sanitize body) as [text|?]; [|apply quiet_refused, along_refuse; apply _].
  apply quiet_then; [apply along_pane_state; apply _|]. intros l.
  apply quiet_then; [apply yield_window|]. intros [].
  apply quiet_then; [apply along_lock_state; apply _|]. intros s.
  apply quiet_then; [apply admission_window|]. intros [out timing].
  exact (deliver_refused l key text (out, timing)).
Qed.

(** C40: an input the arbiter refuses wrote nothing, a delivery's, the daemon's keys, a
    reply's and a claim's: what the paste's answer then says, not admitted and no byte
    written, is true of the window, whatever other threads do meanwhile. The human's keys
    are not among these (see [typed_keys_refused_after_writing]). *)
Theorem refused_input_reached_nothing key work w w' e c :
  match work with TypedKeys _ => False | _ => True end ->
  do_work key work w = Some (w', inr e) -> input_error e = Refused c ->
  w_writer w' = w_writer w /\
  paste_answer (input_error e) =
    {| pa_admitted := Some false; pa_bytes_written := Some 0; pa_error := Some c |}.
Proof.
  intros Hwork Hrun He. split; [|by rewrite He]. revert w w' e c Hrun He.
  enough (refused_alone (do_work key work)) as Hr by exact Hr.
  destruct work; try done;
    [apply write_via_refused|apply write_via_refused|apply write_paste_refused|].
  apply quiet_refused. simpl. unfold claim. apply along_bind; [apply _|apply locked_window|].
  intros [l s]. apply along_validate_admission. apply _.
Qed.
End Refusals.

(** The human's keys are answered as refused though they went in: the pane is
    retired between the write of them and the count of it, which finds no pane. (In a window
    that reads pastes silently, where a write goes in part by part, between two parts.)
    [InputError] says of a refusal that nothing of it was written, so it may be sent again. *)
Theorem typed_keys_refused_after_writing :
  exists n w' e,
    do_work (host_with n (fun a => Arbiter (delete "p"%string (panes a)) (states a) (next_loc a) (enter a)))
      pane_1 (TypedKeys ["h"; "i"]%byte) sample_world = Some (w', inr e) /\
    input_error e = Refused STALE_PANE /\
    w_writer sample_world = [] /\ w_writer w' = [["h"; "i"]%byte].
Proof. exists 5. do 2 eexists. split; [vm_compute; reflexivity|]. by split_and!. Qed.

(** ** Witnesses *)

(** A pane opened, given three inputs, the first of them taken by its worker. *)
Definition sample_events : list event :=
  [Opened pane_1 true; Submitted pane_1 (TypedKeys ["h"; "i"]%byte); Submitted pane_1 Claim;
   Submitted pane_1 (Reply ["x"]%byte); Submitted pane_1 (Write ["y"]%byte); JobTaken 0 false].

Definition sample_jobs : list InputJob :=
  [Job Claim 1 0; Job (Write ["y"]%byte) 3 1].

Definition sample_route : route :=
  Route (Worker sample_jobs (Some (Job (TypedKeys ["h"; "i"]%byte) 0 2)) true)
    (Worker [Job (Reply ["x"]%byte) 2 1] None true) 4.

Lemma input_goes_in_order_witness :
  let q := steps new_queue sample_events in
  queues q !! 0 = Some sample_route /\
  StronglySorted lt (j_response <$> jobs_of (worker_of false sample_route)) /\
  (forall result job, wk_doing (worker_of false sample_route) = Some job ->
     answered (end_job q 0 false result) =
       answered q ++ [(j_response job, match result with inl _ => inl tt | inr e => inr (input_error e) end)] /\
     Forall (fun later => j_response job < j_response later) (wk_jobs (worker_of false sample_route))) /\
  (forall key work q' response, submit q key work = (q', inl response) ->
     Forall (fun job => j_response job < response) (jobs_of (worker_of false sample_route))).
Proof.
  split; [vm_compute; reflexivity|].
  apply (input_goes_in_order sample_events 0 sample_route false). vm_compute. reflexivity.
Defined.

(** The first input ended, and the pane retired. *)
Definition retired_events : list event :=
  sample_events ++ [JobEnded 0 false (inl tt); Retired pane_1; Closed].

Definition retired_route : route :=
  Route (Worker sample_jobs None true) (Worker [Job (Reply ["x"]%byte) 2 1] None true) 2.

Lemma taken_input_is_worked_off_witness :
  let q := steps new_queue retired_events in
  let q' := work_off q 0 false [inl tt; inr Stale] in
  answered q' = answered q ++ zip_with (fun job result => (j_response job, answer_of result))
                                (wk_jobs (worker_of false retired_route)) [inl tt; inr Stale] /\
  exists r', queues q' !! 0 = Some r' /\ worker_of false r' = fresh_worker /\
    worker_of (negb false) r' = worker_of (negb false) retired_route /\
    (wk_alive (worker_of (negb false) retired_route) = true ->
     r_pending_bytes r' = reserved_of (jobs_of (worker_of (negb false) retired_route))).
Proof.
  apply (taken_input_is_worked_off retired_events 0 retired_route false [inl tt; inr Stale]);
    vm_compute; reflexivity.
Defined.

#[export] Instance taking_writer_lawful : LawfulWriter (W:=list (list byte)).
Proof. by intros v key bytes gone. Defined.

(** A pane the human's keys left text unsent in. *)
Definition unsent_world : world (W := list (list byte)) :=
  host_world (put_state 1 (set_unsent 2 sample_state) with_pane_1).

Lemma refused_input_reached_nothing_witness :
  exists w', do_work quiet_host pane_1 (Paste sample_body None) unsent_world = Some (w', inr Unsent) /\
    w_writer w' = w_writer unsent_world /\
    paste_answer (input_error Unsent) =
      {| pa_admitted := Some false; pa_bytes_written := Some 0; pa_error := Some UNSENT_TEXT |}.
Proof.
  eexists. split; [vm_compute; reflexivity|].
  apply (refused_input_reached_nothing quiet_host pane_1 (Paste sample_body None) unsent_world _
           Unsent UNSENT_TEXT); [exact I|vm_compute; reflexivity|reflexivity].
Defined.
