(* ===== verification/OutputFlow.v ===== *)
(** * A pane's output: [OutputFlow] and [stream_output] of [cf-panes/src/pty.rs], and
    [cf-panes/src/output_hub.rs]

    What a pane prints is read only while the page has less than the backlog of it still
    to acknowledge, numbered, and handed to the hub, which gives it to one destination at
    a time and keeps what there is none for. The flow is behind a lock of its own and so
    is the hub: each operation is a step, and the reader's thread, the page's
    acknowledgements and a close are a sequence of [event]s, in any order. *)
From S2P Require Import Prelude.
#[local] Open Scope nat_scope.

(** ** The flow *)

(** A chunk's number is a [u64], here without its end: a pane would print for centuries. *)
Record flow := Flow {
  backlog_bytes : nat;
  next_seq : Z;
  unacked : list (Z * nat);
  unacked_bytes : nat;
  closed : bool
}.

Definition new_flow (backlog : nat) : flow := Flow backlog 1 [] 0 false.

(** What the reader is told where it would read: it waits, it ends, or it may read so many
    bytes. *)
Inductive allowance :=
| Waits
| Ended
| May (bytes : nat).

(** One look of [read_allowance]'s loop; [None] where a subtraction would be below zero. *)
Definition read_allowance (f : flow) : option allowance :=
  if closed f then Some Ended
  else if backlog_bytes f <=? unacked_bytes f then Some Waits
  else May <$> checked_sub (backlog_bytes f) (unacked_bytes f).

Definition record (f : flow) (byte_count : nat) : flow * option Z :=
  if closed f then (f, None)
  else (Flow (backlog_bytes f) (next_seq f + 1) (unacked f ++ [(next_seq f, byte_count)])
          (unacked_bytes f + byte_count) (closed f), Some (next_seq f)).

(** The loop of [acknowledge]: what is acknowledged is let go from the front. *)
Fixpoint let_go (seq : Z) (pending : list (Z * nat)) (bytes : nat) :
    option (list (Z * nat) * nat) :=
  match pending with
  | (pending_seq, byte_count) :: pending' =>
      if (seq <? pending_seq)%Z then Some (pending, bytes)
      else bytes ← checked_sub bytes byte_count; let_go seq pending' bytes
  | [] => Some ([], bytes)
  end.

(** [acknowledge]: [inr] is the highest number issued, where [seq] is past it. *)
Definition acknowledge (f : flow) (seq : Z) : option (flow * (unit + Z)) :=
  let highest_issued := (0 `max` (next_seq f - 1))%Z in
  if (highest_issued <? seq)%Z then Some (f, inr highest_issued)
  else
    '(pending, bytes) ← let_go seq (unacked f) (unacked_bytes f);
    Some (Flow (backlog_bytes f) (next_seq f) pending bytes (closed f), inl tt).

Definition acknowledge_all (f : flow) : flow :=
  Flow (backlog_bytes f) (next_seq f) [] 0 (closed f).

Definition close (f : flow) : flow :=
  Flow (backlog_bytes f) (next_seq f) (unacked f) (unacked_bytes f) true.

(** ** The reader *)

Definition MAX_CHUNK_BYTES : nat := 8 * 1024.

(** Where [stream_output] is: asking the flow, reading into a buffer of so many bytes,
    or throwing away what still comes. *)
Inductive phase :=
| Asking
| Reading (room : nat)
| Discarding
| Done.

(** [st_recorded] is what the flow numbered, [st_sent] what the channel took of it. *)
Record stream := Stream {
  st_flow : flow;
  st_phase : phase;
  st_recorded : list (Z * list byte);
  st_sent : list (Z * list byte)
}.

Definition new_stream (backlog : nat) : stream := Stream (new_flow backlog) Asking [] [].

Inductive event :=
| Looked                                      (* the reader asks the flow *)
| Got (bytes : list byte) (taken : bool)      (* a read gave bytes; the channel took them *)
| End                                         (* the output has ended for good *)
| Acknowledged (seq : Z)
| AllAcknowledged
| Closed.

(** [output.read(buffer)] gives at least a byte and at most what the buffer holds. *)
Definition fits (room : nat) (bytes : list byte) : bool :=
  (0 <? length bytes) && (length bytes <=? room).

Definition step (s : stream) (e : event) : option stream :=
  let '(Stream f ph recorded sent) := s in
  match e, ph with
  | Looked, Asking =>
      allowed ← read_allowance f;
      Some (Stream f (match allowed with
                      | Waits => Asking
                      | Ended => Discarding
                      | May n => Reading (n `min` MAX_CHUNK_BYTES)
                      end) recorded sent)
  | Got bytes taken, Reading room =>
      if fits room bytes then
        let '(f, numbered) := record f (length bytes) in
        match numbered with
        | None => Some (Stream f Discarding recorded sent)
        | Some seq =>
            let recorded := recorded ++ [(seq, bytes)] in
            if taken then Some (Stream f Asking recorded (sent ++ [(seq, bytes)]))
            else Some (Stream f Discarding recorded sent)
        end
      else Some s
  | End, Reading _ => Some (Stream f Discarding recorded sent)
  | End, Discarding => Some (Stream (close f) Done recorded sent)
  | Acknowledged seq, _ =>
      '(f, _) ← acknowledge f seq; Some (Stream f ph recorded sent)
  | AllAcknowledged, _ => Some (Stream (acknowledge_all f) ph recorded sent)
  | Closed, _ => Some (Stream (close f) ph recorded sent)
  | _, _ => Some s
  end.

Fixpoint steps (s : stream) (es : list event) : option stream :=
  match es with
  | [] => Some s
  | e :: es' => s' ← step s e; steps s' es'
  end.

(** ** What holds of a stream *)

Definition total (pending : list (Z * nat)) : nat := foldr (fun p n => p.2 + n) 0 pending.

(** Chunks as the flow counts them. *)
Definition counted (chunks : list (Z * list byte)) : list (Z * nat) :=
  (fun c => (c.1, length c.2)) <$> chunks.

Record stream_ok (backlog : nat) (s : stream) : Prop := {
  ok_backlog : backlog_bytes (st_flow s) = backlog;
  ok_total : unacked_bytes (st_flow s) = total (unacked (st_flow s));
  ok_room : match st_phase s with
            | Reading room => total (unacked (st_flow s)) + room <= backlog /\
                              0 < room <= MAX_CHUNK_BYTES
            | _ => total (unacked (st_flow s)) <= backlog
            end;
  ok_next : next_seq (st_flow s) = (1 + Z.of_nat (length (st_recorded s)))%Z;
  ok_numbers : (st_recorded s).*1 = seqZ 1 (Z.of_nat (length (st_recorded s)));
  ok_chunks : Forall (fun c => 0 < length c.2 <= MAX_CHUNK_BYTES) (st_recorded s);
  ok_unacked : unacked (st_flow s) `suffix_of` counted (st_recorded s);
  ok_sent : st_recorded s = st_sent s \/
    (match st_phase s with Discarding | Done => True | _ => False end /\
     exists c, st_recorded s = st_sent s ++ [c])
}.

Lemma total_app a b : total (a ++ b) = total a + total b.
Proof. unfold total. induction a as [|p a IH]; simpl; lia. Qed.

Lemma suffix_total a b : a `suffix_of` b -> total a <= total b.
Proof. intros [k ->]. rewrite total_app. lia. Qed.

(** What [acknowledge] lets go is a prefix, and the count is kept. *)
Lemma let_go_spec seq pending :
  exists gone kept, pending = gone ++ kept /\
    let_go seq pending (total pending) = Some (kept, total kept) /\
    Forall (fun p => (p.1 <= seq)%Z) gone /\
    match kept with p :: _ => (seq < p.1)%Z | [] => True end.
Proof.
  induction pending as [|[n b] pending (gone & kept & -> & E & Hgone & Hkept)].
  { by exists [], []. }
  cbn [let_go]. destruct (seq <? n)%Z eqn:Hn; ranges.
  - by exists [], ((n, b) :: gone ++ kept).
  - exists ((n, b) :: gone), kept. cbn [total foldr]. fold (total (gone ++ kept)). simpl.
    rewrite checked_sub_Some by lia. simpl.
    replace (b + total (gone ++ kept) - b) with (total (gone ++ kept)) by lia.
    split_and!; auto.
Qed.

Lemma record_ok backlog f room recorded sent bytes :
  stream_ok backlog (Stream f (Reading room) recorded sent) -> closed f = false ->
  fits room bytes = true ->
  let f' := (record f (length bytes)).1 in
  let chunk := (next_seq f, bytes) in
  stream_ok backlog (Stream f' Asking (recorded ++ [chunk]) (sent ++ [chunk])) /\
  stream_ok backlog (Stream f' Discarding (recorded ++ [chunk]) sent).
Proof.
  intros [Hb Ht Hroom Hnext Hnum Hch Hun Hsent] Hc Hfits f' chunk. unfold fits in Hfits. ranges.
  cbn [st_flow st_phase st_recorded st_sent] in *. destruct Hsent as [->|[[] _]].
  unfold f', record. rewrite Hc.
  assert (total (unacked f ++ [(next_seq f, length bytes)]) <= backlog) as Htot
    by (rewrite total_app; simpl; lia).
  assert ((sent ++ [chunk]).*1 = seqZ 1 (Z.of_nat (length (sent ++ [chunk])))) as Hnum'.
  { rewrite fmap_app, Hnum, length_app, Nat2Z.inj_add, seqZ_app by lia. simpl. f_equal.
    rewrite Hnext. unfold seqZ. done. }
  assert (Forall (fun c : Z * list byte => 0 < length c.2 <= MAX_CHUNK_BYTES) (sent ++ [chunk])) as Hch'
    by (apply Forall_app; split; [done|apply Forall_singleton; simpl; lia]).
  assert (unacked f ++ [(next_seq f, length bytes)] `suffix_of` counted (sent ++ [chunk])) as Hun'.
  { unfold counted. rewrite fmap_app. simpl. destruct Hun as [k Hk]. exists k.
    unfold counted in Hk. by rewrite Hk, app_assoc. }
  assert ((next_seq f + 1)%Z = (1 + Z.of_nat (length (sent ++ [chunk])))%Z) as Hnext'
    by (rewrite length_app; simpl; lia).
  assert (unacked_bytes f + length bytes = total (unacked f ++ [(next_seq f, length bytes)])) as Ht'
    by (rewrite total_app; simpl; lia).
  split; split; auto. right. split; [done|by exists chunk].
Qed.

(** The flow let some of what it counted go. *)
Lemma freed_ok backlog f f' ph recorded sent :
  stream_ok backlog (Stream f ph recorded sent) ->
  backlog_bytes f' = backlog_bytes f -> next_seq f' = next_seq f ->
  unacked f' `suffix_of` unacked f -> unacked_bytes f' = total (unacked f') ->
  stream_ok backlog (Stream f' ph recorded sent).
Proof.
  intros [Hb Ht Hroom Hnext Hnum Hch Hun Hsent] E1 E2 E3 E4.
  cbn [st_flow st_phase st_recorded st_sent] in *. pose proof (suffix_total _ _ E3).
  split; cbn [st_flow st_phase st_recorded st_sent]; try congruence.
  - destruct ph; lia.
  - by trans (unacked f).
Qed.

Lemma stream_step_ok backlog s e : stream_ok backlog s -> exists s', step s e = Some s' /\ stream_ok backlog s'.
Proof.
  intros Hok. destruct s as [f ph recorded sent].
  assert (exists s', Some (Stream f ph recorded sent) = Some s' /\ stream_ok backlog s') as Hsame by eauto.
  assert (forall f', backlog_bytes f' = backlog_bytes f -> next_seq f' = next_seq f ->
    unacked f' `suffix_of` unacked f -> unacked_bytes f' = total (unacked f') ->
    exists s', Some (Stream f' ph recorded sent) = Some s' /\ stream_ok backlog s') as Hfreed
    by eauto using freed_ok.
  assert (forall q, match ph with Asking | Reading _ => True | _ => False end ->
    match q with Reading _ => False | _ => True end ->
    exists s', Some (Stream f q recorded sent) = Some s' /\ stream_ok backlog s') as Hquit.
  { intros q Hph Hq. eexists. split; [done|].
    destruct Hok as [Hb Ht Hroom Hnext Hnum Hch Hun Hsent].
    cbn [st_flow st_phase st_recorded st_sent] in *.
    split; auto; cbn [st_flow st_phase st_recorded st_sent]; [destruct q, ph; try done; lia|].
    destruct Hsent as [?|[? _]]; [by left|by destruct ph]. }
  pose proof Hok as [Hb Ht Hroom Hnext Hnum Hch Hun Hsent].
  cbn [st_flow st_phase st_recorded st_sent] in *.
  destruct e as [|bytes taken| |seq| |]; simpl.
  - destruct ph; try exact Hsame. unfold read_allowance.
    destruct (closed f); [by apply Hquit|].
    destruct (backlog_bytes f <=? unacked_bytes f) eqn:E; ranges; [by apply Hquit|].
    rewrite checked_sub_Some by lia. simpl. eexists. split; [done|].
    assert (forall n, n `min` MAX_CHUNK_BYTES <= n /\ n `min` MAX_CHUNK_BYTES <= MAX_CHUNK_BYTES /\
              (0 < n -> 0 < n `min` MAX_CHUNK_BYTES)) as Hmin by (unfold MAX_CHUNK_BYTES; lia).
    destruct (Hmin (backlog_bytes f - unacked_bytes f)) as (H1 & H2 & H3).
    split; auto; cbn [st_flow st_phase st_recorded st_sent]; lia.
  - destruct ph as [|room| |]; try exact Hsame.
    destruct (fits room bytes) eqn:Hfits; [|exact Hsame].
    destruct (closed f) eqn:Hc.
    { unfold record. rewrite Hc. by apply Hquit. }
    destruct (record_ok _ _ _ _ _ _ Hok Hc Hfits) as [Htaken Hnot].
    unfold record in *. rewrite Hc in *. destruct taken; eauto.
  - destruct ph; try exact Hsame; [by apply Hquit|].
    eexists. split; [done|]. split; auto.
  - destruct ph; unfold acknowledge; (destruct (_ <? seq)%Z; [exact Hsame|]);
      rewrite Ht; destruct (let_go_spec seq (unacked f)) as (gone & kept & E & -> & _); simpl;
      apply Hfreed; auto; rewrite E; by exists gone.
  - destruct ph; apply Hfreed; auto; simpl; by eexists; rewrite app_nil_r.
  - destruct ph; apply Hfreed; auto.
Qed.

Lemma new_stream_ok backlog : stream_ok backlog (new_stream backlog).
Proof. split; simpl; auto; lia. Qed.

Lemma stream_steps_ok backlog s es :
  stream_ok backlog s -> exists s', steps s es = Some s' /\ stream_ok backlog s'.
Proof.
  revert s. induction es as [|e es IH]; intros s Hok; [by eauto|]. simpl.
  destruct (stream_step_ok backlog s e Hok) as (s1 & -> & Hok1). by apply IH.
Qed.

(** ** What the page is sent, and what its acknowledgements free *)

(** C39: whatever a pane prints and whatever the page acknowledges, in any order, no
    subtraction of the flow goes below zero, what is sent and not acknowledged is never
    more than the backlog, the chunks sent are numbered from 1 without a gap, none is empty
    or over 8 KiB, and those still to acknowledge are the last that were numbered. *)
Theorem output_is_numbered_and_bounded backlog es :
  exists s, steps (new_stream backlog) es = Some s /\
    unacked_bytes (st_flow s) = total (unacked (st_flow s)) /\
    unacked_bytes (st_flow s) <= backlog /\
    (st_sent s).*1 = seqZ 1 (Z.of_nat (length (st_sent s))) /\
    Forall (fun c => 0 < length c.2 <= MAX_CHUNK_BYTES) (st_sent s) /\
    unacked (st_flow s) `suffix_of` counted (st_recorded s) /\
    (st_recorded s = st_sent s \/ exists lost, st_recorded s = st_sent s ++ [lost]).
Proof.
  destruct (stream_steps_ok backlog _ es (new_stream_ok backlog)) as (s & -> & [Hb Ht Hr Hn Hnum Hch Hun Hs]).
  exists s. split_and!; try done.
  - rewrite Ht. destruct (st_phase s); lia.
  - destruct Hs as [<-|(_ & c & E)]; [done|]. rewrite E in Hnum.
    rewrite fmap_app, length_app, Nat2Z.inj_add, seqZ_app in Hnum by lia.
    apply app_inj_1 in Hnum as [Hnum _]; [done|]. rewrite length_fmap, length_seqZ. lia.
  - destruct Hs as [<-|(_ & c & E)]; [done|]. rewrite E in Hch. by apply Forall_app in Hch as [? _].
  - destruct Hs as [?|(_ & c & ?)]; eauto.
Qed.

(** The chunks still to acknowledge are numbered one after another. *)
Lemma unacked_sorted backlog s :
  stream_ok backlog s ->
  exists from, (1 <= from)%Z /\
    (unacked (st_flow s)).*1 = seqZ from (Z.of_nat (length (unacked (st_flow s)))) /\
    (from + Z.of_nat (length (unacked (st_flow s))) = next_seq (st_flow s))%Z.
Proof.
  intros [_ _ _ Hn Hnum _ [k Hk] _].
  assert ((counted (st_recorded s)).*1 = (st_recorded s).*1) as E.
  { unfold counted. rewrite <- list_fmap_compose. by apply list_fmap_ext. }
  assert (length (st_recorded s) = length k + length (unacked (st_flow s))) as Hlen.
  { rewrite <- length_app, <- Hk. unfold counted. by rewrite length_fmap. }
  rewrite <- E, Hk, fmap_app, Hlen, Nat2Z.inj_add, seqZ_app in Hnum by lia.
  apply app_inj_1 in Hnum as [_ Hnum]; [|rewrite length_fmap, length_seqZ; lia].
  exists (1 + Z.of_nat (length k))%Z. split_and!; [lia|done|lia].
Qed.

Lemma numbered_from from (pending : list (Z * nat)) n :
  pending.*1 = seqZ from n -> Forall (fun p => (from <= p.1 < from + n)%Z) pending.
Proof.
  intros Hnum. apply Forall_forall. intros p Hp. apply elem_of_seqZ. rewrite <- Hnum.
  apply list_elem_of_fmap. eauto.
Qed.

(** What an acknowledgement of a numbered queue leaves. *)
Lemma let_go_numbered seq from pending :
  pending.*1 = seqZ from (Z.of_nat (length pending)) ->
  let_go seq pending (total pending) =
    Some (filter (fun p => (seq < p.1)%Z) pending,
          total (filter (fun p => (seq < p.1)%Z) pending)).
Proof.
  revert from. induction pending as [|[n b] pending IH]; intros from Hnum; [done|].
  rewrite length_cons, Nat2Z.inj_succ, seqZ_cons, Z.pred_succ in Hnum by lia.
  injection Hnum as -> Hnum. cbn [let_go].
  destruct (seq <? from)%Z eqn:E; ranges.
  - rewrite filter_cons_True by done. rewrite filter_all; [done|].
    eapply Forall_impl; [by eapply numbered_from|]. simpl. lia.
  - rewrite filter_cons_False by (simpl; lia). cbn [total foldr]. fold (total pending). simpl.
    rewrite checked_sub_Some by lia. simpl.
    replace (b + total pending - b) with (total pending) by lia. by eapply IH.
Qed.

(** An acknowledgement frees exactly what it covers: a number not issued yet is refused
    with the highest that was, and changes nothing; any other lets go the chunks up to it and
    their bytes and no more, and once the last is acknowledged the pane may print its whole
    backlog again. *)
Theorem acknowledgement_frees_what_it_covers backlog es s seq :
  steps (new_stream backlog) es = Some s ->
  let f := st_flow s in
  let issued := Z.of_nat (length (st_recorded s)) in
  (issued < seq -> acknowledge f seq = Some (f, inr issued))%Z /\
  (seq <= issued ->
   exists f', acknowledge f seq = Some (f', inl tt) /\
     unacked f' = filter (fun p => seq < p.1) (unacked f) /\
     unacked_bytes f' = total (filter (fun p => seq < p.1) (unacked f)) /\
     next_seq f' = next_seq f /\
     (seq = issued -> closed f = false -> (0 < backlog)%nat ->
      unacked f' = [] /\ read_allowance f' = Some (May backlog)))%Z.
Proof.
  intros Hsteps f issued.
  destruct (stream_steps_ok backlog _ es (new_stream_ok backlog)) as (s' & E & Hok).
  rewrite E in Hsteps. injection Hsteps as ->.
  destruct (unacked_sorted backlog s Hok) as (from & Hfrom & Hnum & Hto).
  pose proof (let_go_numbered seq from _ Hnum) as Hgo.
  destruct Hok as [Hb Ht _ Hnext _ _ _ _]. fold f in Hb, Ht, Hnext, Hnum, Hto, Hgo. fold issued in Hnext.
  unfold acknowledge. rewrite Hnext.
  replace (0 `max` (1 + issued - 1))%Z with issued by (unfold issued; lia).
  split; intros Hseq; settle_test; [done|].
  rewrite Ht, Hgo. simpl. eexists. split; [done|]. split_and!; try done.
  intros -> Hc Hback. simpl.
  assert (filter (fun p => (issued < p.1)%Z) (unacked f) = []) as ->.
  { apply filter_none. eapply Forall_impl; [by eapply numbered_from|]. simpl. lia. }
  split; [done|]. unfold read_allowance. simpl. rewrite Hc, Hb. by destruct backlog; [lia|].
Qed.

(** ** The hub *)

Module Hub.

Record PaneOutputMessage := Message {
  id : string;
  generation : Z;
  seq : Z;
  bytes : list byte
}.

Section Hub.
(** Whether a destination takes a message, after those it was given before: the sink's
    own code, which the page's channel or the headless peer is behind. *)
Context (takes : nat -> list PaneOutputMessage -> PaneOutputMessage -> bool).

(** [OutputHubState], and what each destination was given, and whether it took it. *)
Record hub := HubState {
  sink : option nat;
  pending : list PaneOutputMessage;
  given : list (nat * PaneOutputMessage * bool)
}.

Definition new : hub := HubState None [] [].

Definition given_to (s : nat) (log : list (nat * PaneOutputMessage * bool)) : list PaneOutputMessage :=
  (fun g => g.1.2) <$> filter (fun g => g.1.1 = s) log.

Definition deliver_or_park (h : hub) (message : PaneOutputMessage) : hub :=
  match sink h with
  | Some s =>
      let took := takes s (given_to s (given h)) message in
      let log := given h ++ [(s, message, took)] in
      if took then HubState (Some s) (pending h) log
      else HubState None (pending h ++ [message]) log
  | None => HubState None (pending h ++ [message]) (given h)
  end.

Definition attach (h : hub) (s : nat) : hub :=
  fold_left deliver_or_park (pending h) (HubState (Some s) [] (given h)).

Definition publish (h : hub) (message : PaneOutputMessage) : hub := deliver_or_park h message.

Inductive event :=
| Attached (s : nat)
| Published (message : PaneOutputMessage).

Definition step (h : hub) (e : event) : hub :=
  match e with Attached s => attach h s | Published message => publish h message end.

Definition published (es : list event) : list PaneOutputMessage :=
  omap (fun e => match e with Published m => Some m | _ => None end) es.
Definition attached (es : list event) : list nat :=
  omap (fun e => match e with Attached s => Some s | _ => None end) es.

(** What the destinations took, in the order they did. *)
Definition taken (h : hub) : list PaneOutputMessage :=
  (fun g => g.1.2) <$> filter (fun g => g.2 = true) (given h).

(** [told] is what the hub was told of, [known] the destinations it had. *)
Record hub_ok (told : list PaneOutputMessage) (known : list nat) (h : hub) : Prop := {
  hub_all : taken h ++ pending h = told;
  hub_known : Forall (fun g => g.1.1 ∈ known) (given h);
  hub_sink : forall s, sink h = Some s ->
    s ∈ known /\ Forall (fun g => g.1.1 = s -> g.2 = true) (given h);
  hub_once : forall before s m after, given h = before ++ (s, m, false) :: after ->
    Forall (fun g => g.1.1 <> s) after
}.

Lemma taken_snoc s0 p log s m (took : bool) s1 p1 :
  taken (HubState s0 p (log ++ [(s, m, took)])) =
    taken (HubState s1 p1 log) ++ (if took then [m] else []).
Proof. unfold taken. simpl. rewrite filter_app, fmap_app. f_equal. by destruct took. Qed.

Lemma deliver_ok told known h m :
  hub_ok told known h -> (is_Some (sink h) -> pending h = []) ->
  hub_ok (told ++ [m]) known (deliver_or_park h m) /\
  (is_Some (sink (deliver_or_park h m)) -> pending (deliver_or_park h m) = []).
Proof.
  intros [H1 H2 H3 H4] Hp. unfold deliver_or_park. destruct (sink h) as [s|] eqn:Hs.
  - rewrite Hp in H1 by eauto. rewrite app_nil_r in H1. destruct (H3 s eq_refl) as [Hin Htrue].
    assert (forall took before s' m' after,
      given h ++ [(s, m, took)] = before ++ (s', m', false) :: after ->
      Forall (fun g => g.1.1 <> s') after) as Honce.
    { intros took before s' m' after E. destruct after as [|g after _] using rev_ind; [done|].
      rewrite app_comm_cons, app_assoc in E. apply app_inj_2 in E as [E [= <-]]; [|done].
      apply Forall_app. split; [by eapply H4|]. apply Forall_singleton. simpl. intros <-.
      rewrite E, Forall_app, Forall_cons in Htrue. by destruct Htrue as (_ & Hf & _); specialize (Hf eq_refl). }
    destruct (takes _ _ _); (split; [split|]); simpl; try done.
    + rewrite (taken_snoc _ _ _ _ _ _ (sink h) (pending h)). destruct h. simpl in *.
      rewrite Hp, app_nil_r by eauto. by rewrite <- H1.
    + apply Forall_app. split; [done|by apply Forall_singleton].
    + intros s' [= <-]. split; [done|]. apply Forall_app. split; [done|by apply Forall_singleton].
    + eauto.
    + rewrite (taken_snoc _ _ _ _ _ _ (sink h) (pending h)). destruct h. simpl in *.
      rewrite Hp, app_nil_r by eauto. by rewrite <- H1.
    + apply Forall_app. split; [done|by apply Forall_singleton].
    + eauto.
  - split; [split|]; simpl; try done.
    rewrite <- H1, app_assoc. by destruct h.
Qed.

Lemma delivers_ok told known h ms :
  hub_ok told known h -> (is_Some (sink h) -> pending h = []) ->
  hub_ok (told ++ ms) known (fold_left deliver_or_park ms h) /\
  (is_Some (sink (fold_left deliver_or_park ms h)) -> pending (fold_left deliver_or_park ms h) = []).
Proof.
  revert told h. induction ms as [|m ms IH]; intros told h Hok Hp; [by rewrite app_nil_r|].
  destruct (deliver_ok told known h m Hok Hp) as [Hok' Hp'].
  replace (told ++ m :: ms) with ((told ++ [m]) ++ ms) by by rewrite <- app_assoc. by apply IH.
Qed.

Lemma hub_step_ok told known h e :
  hub_ok told known h -> (is_Some (sink h) -> pending h = []) ->
  NoDup (known ++ attached [e]) ->
  hub_ok (told ++ published [e]) (known ++ attached [e]) (step h e) /\
  (is_Some (sink (step h e)) -> pending (step h e) = []).
Proof.
  intros Hok Hp Hnew. destruct e as [s|m]; simpl.
  - rewrite app_nil_r. apply NoDup_app in Hnew as (_ & Hnew & _).
    assert (s ∉ known) as Hs by (intros Hin; apply (Hnew s Hin); by left).
    destruct Hok as [H1 H2 H3 H4]. rewrite <- H1. unfold attach.
    replace (taken h) with (taken (HubState (Some s) [] (given h))) by by destruct h.
    apply delivers_ok; [|done]. split; simpl.
    + by rewrite app_nil_r.
    + eapply Forall_impl; [exact H2|]. simpl. intros g Hg. apply elem_of_app. by left.
    + intros s' [= <-]. split; [apply elem_of_app; right; by left|].
      eapply Forall_impl; [exact H2|]. simpl. intros g Hg <-. done.
    + exact H4.
  - rewrite app_nil_r. by apply deliver_ok.
Qed.

(** What the panes print reaches the destinations whole and in order: what they took,
    then what waits for the next, is what was published; while there is a destination
    nothing waits, and one that refused a message is given no other. *)
Theorem output_is_kept_in_order es :
  NoDup (attached es) ->
  let h := fold_left step es new in
  taken h ++ pending h = published es /\
  (is_Some (sink h) -> pending h = []) /\
  (forall before s m after, given h = before ++ (s, m, false) :: after ->
     Forall (fun g => g.1.1 <> s) after).
Proof.
  intros Hnew h.
  enough (hub_ok (published es) (attached es) h /\ (is_Some (sink h) -> pending h = []))
    as [[H1 _ _ H4] Hp] by by split_and!.
  unfold h. revert Hnew. induction es as [|e es IH] using rev_ind; intros Hnew.
  - split; [|done]. split; simpl; try done. intros [|] ? ? ?; done.
  - rewrite fold_left_app. cbn [fold_left].
    assert (published (es ++ [e]) = published es ++ published [e]) as -> by apply omap_app.
    assert (attached (es ++ [e]) = attached es ++ attached [e]) as E by apply omap_app.
    rewrite E in *. destruct IH as [Hok Hp]; [by apply NoDup_app in Hnew as (? & _)|].
    by apply hub_step_ok.
Qed.
End Hub.
End Hub.

(** ** Witnesses *)

Definition sample_events : list event :=
  [Looked; Got ["h"; "i"]%byte true; Looked; Got ["x"]%byte true; Looked].

Lemma acknowledgement_frees_what_it_covers_witness :
  exists s, steps (new_stream 4) sample_events = Some s /\
  let f := st_flow s in
  let issued := Z.of_nat (length (st_recorded s)) in
  (issued < 1 -> acknowledge f 1 = Some (f, inr issued))%Z /\
  (1 <= issued ->
   exists f', acknowledge f 1 = Some (f', inl tt) /\
     unacked f' = filter (fun p => 1 < p.1) (unacked f) /\
     unacked_bytes f' = total (filter (fun p => 1 < p.1) (unacked f)) /\
     next_seq f' = next_seq f /\
     (1 = issued -> closed f = false -> (0 < 4)%nat ->
      unacked f' = [] /\ read_allowance f' = Some (May 4)))%Z.
Proof.
  eexists. split; [vm_compute; reflexivity|].
  apply (acknowledgement_frees_what_it_covers 4 sample_events). vm_compute. reflexivity.
Defined.

(** A destination that goes after its first message, and one that takes all. *)
Definition sample_takes (s : nat) (before : list Hub.PaneOutputMessage)
    (_ : Hub.PaneOutputMessage) : bool := (s =? 2) || (length before =? 0).
Definition sample_message (seq : Z) : Hub.PaneOutputMessage := Hub.Message "p" 1 seq ["a"]%byte.
Definition sample_hub_events : list Hub.event :=
  [Hub.Attached 1; Hub.Published (sample_message 1); Hub.Published (sample_message 2);
   Hub.Published (sample_message 3); Hub.Attached 2; Hub.Published (sample_message 4)].

Lemma output_is_kept_in_order_witness :
  let h := fold_left (Hub.step sample_takes) sample_hub_events Hub.new in
  (Hub.taken h ++ Hub.pending h = Hub.published sample_hub_events /\
   (is_Some (Hub.sink h) -> Hub.pending h = []) /\
   (forall before s m after, Hub.given h = before ++ (s, m, false) :: after ->
      Forall (fun g => g.1.1 <> s) after)) /\
  Hub.taken h = sample_message <$> [1%Z; 2%Z; 3%Z; 4%Z].
Proof.
  split; [|vm_compute; reflexivity].
  apply (Hub.output_is_kept_in_order sample_takes sample_hub_events).
  apply (bool_decide_unpack (NoDup [1; 2])). exact I.
Defined.
