(* ===== verification/Frames.v ===== *)
(** * The bridge's frames: [cf-proto/src/bridge.rs], and [BridgeError]

    What crosses the bridge, one frame a line, and the two ends' names. JSON is
    serde_json's: its values and its codec are a class each, of which the program
    uses what is here. [LawfulSerde] is what the codec promises; [bit_serde] is an
    instance of it, a codec of frames as lines of binary digits. *)
From stdpp Require Import pretty countable.
From S2P Require Import Prelude Utf8 Lines.
#[local] Open Scope Z_scope.

(** [serde_json::Value], as [json!] makes it. *)
Class Json := {
  Value : Type;
  object : list (string * Value) -> Value;
  bool_value : bool -> Value;
  text_value : string -> Value
}.

Definition PROTOCOL_VERSION : Z := 1.

Record Frame `{Json} := MkFrame {
  v : Z;
  fr_id : string;
  kind : string;
  op : string;
  body : Value
}.

#[global] Arguments MkFrame {_}.

(** [serde_json::to_vec] and [from_str] of a frame, or their words for why not. *)
Class Serde `{Json} := {
  to_vec : Frame -> list byte + string;
  from_str : list char -> Frame + string
}.

(** serde_json writes a frame as one line of text, and reads it back. *)
Class LawfulSerde `{Serde} : Prop := {
  to_vec_read_back : forall frame bytes, to_vec frame = inl bytes ->
    exists text, from_utf8 bytes = Some text /\ from_str text = inl frame;
  to_vec_one_line : forall frame bytes, to_vec frame = inl bytes ->
    bytes <> [] /\ Forall (fun b => is_lf b = false /\ b <> cr) bytes
}.

Section Frames.
Context `{Json}.

Definition is_well_formed (f : Frame) : bool :=
  (v f =? PROTOCOL_VERSION) && negb (bool_decide (fr_id f = ""%string)) &&
  bool_decide (kind f ∈ ["req"; "res"; "evt"]%string).

Definition refusal (error : string) : Value :=
  object [("ok"%string, bool_value false); ("error"%string, text_value error)].

Definition DEADLINE : string := "deadline".
Definition too_large_body : Value := refusal "too-large".
Definition unknown_op_body : Value := refusal "unknown-op".
End Frames.

Inductive Role := Host | Daemon.

#[export] Instance role_eq_dec : EqDecision Role.
Proof. solve_decision. Defined.

Definition prefix (r : Role) : string := match r with Host => "r-" | Daemon => "n-" end.
Definition peer (r : Role) : Role := match r with Host => Daemon | Daemon => Host end.

(** [str::starts_with] *)
Definition starts_with (s p : string) : bool := String.prefix p s.

(** What a [MalformedFrame] says. *)
Inductive malformed :=
| OverTheLimit
| NotWellFormed (quoted : list char)
| NotRead (error : string)
| NotEncoded (error : string)
| WrongNamespace (id kind : string)
| OpMismatch (id op expected : string)
| CannotFit (id : string).

Inductive BridgeError :=
| Eof
| Io (message : string)
| InvalidHandle (message : string)
| MalformedFrame (message : malformed)
| LockPoisoned.

(** [format!("{prefix}{number}")] *)
Definition minted (r : Role) (number : Z) : string := prefix r +:+ pretty (Z.to_N number).

(** ** Whose an id is *)

Lemma prefix_app (p s : string) : String.prefix p (p +:+ s) = true.
Proof.
  induction p as [|c p IH].
  - by destruct s.
  - simpl. by destruct (Ascii.ascii_dec c c).
Qed.

Lemma minted_own r n : starts_with (minted r n) (prefix r) = true.
Proof. apply prefix_app. Qed.

Lemma minted_other r n : starts_with (minted r n) (prefix (peer r)) = false.
Proof. destruct r; reflexivity. Qed.

Lemma minted_inj r n m : 0 <= n -> 0 <= m -> minted r n = minted r m -> n = m.
Proof. intros Hn Hm E%(inj (String.app _)). apply (inj pretty) in E. lia. Qed.

Lemma minted_not_empty r n : minted r n <> ""%string.
Proof. destruct r; discriminate. Qed.

Lemma peer_peer r : peer (peer r) = r.
Proof. by destruct r. Qed.

(** ** An instance: frames as binary digits *)

#[export] Instance text_json : Json := {|
  Value := string;
  object fields := String.concat "," (snd <$> fields);
  bool_value b := if b : bool then "true"%string else "false"%string;
  text_value s := s
|}.

#[export] Instance frame_eq_dec : EqDecision (@Frame text_json).
Proof. solve_decision. Defined.

#[export] Instance frame_countable : Countable (@Frame text_json).
Proof.
  refine (inj_countable' (fun f => (v f, fr_id f, kind f, op f, body f : string))
    (fun t => let '(v, id, kind, op, body) := t in MkFrame (H := text_json) v id kind op body) _).
  by intros [].
Defined.

Fixpoint digits (p : positive) : list byte :=
  match p with xH => ["."%byte] | xO p => "0"%byte :: digits p | xI p => "1"%byte :: digits p end.

Fixpoint undigits (s : list char) : option positive :=
  match s with
  | [] => None
  | c :: s => if c =? 0x2E then Some xH
              else p ← undigits s; Some (if c =? 0x31 then xI p else xO p)
  end.

#[export] Instance bit_serde : Serde := {|
  to_vec frame := inl (digits (countable.encode frame));
  from_str text := match undigits text ≫= decode with
                   | Some frame => inl frame | None => inr "no frame"%string end
|}.

Lemma undigits_digits p : undigits (u8 <$> digits p) = Some p.
Proof. induction p as [p IH|p IH|]; [change (undigits (u8 <$> digits p) ≫= (fun p => Some (xI p)) = Some (xI p))|
  change (undigits (u8 <$> digits p) ≫= (fun p => Some (xO p)) = Some (xO p))|done]; by rewrite IH. Qed.

Lemma digits_text p : from_utf8 (digits p) = Some (u8 <$> digits p).
Proof. induction p as [p IH|p IH|]; [| |done]; simpl in *; by rewrite IH. Qed.

#[export] Instance bit_serde_lawful : LawfulSerde.
Proof.
  split; intros frame bytes [= <-].
  - exists (u8 <$> digits (countable.encode frame)). split; [apply digits_text|].
    simpl. rewrite undigits_digits. simpl. by rewrite decode_encode.
  - generalize (countable.encode frame). intros p. split; [by destruct p|].
    induction p; simpl; repeat constructor; done.
Qed.
