(* ===== verification/Bridge.v ===== *)
(** * One end of the bridge: [cf-bridge/src/local/]

    The daemon's end, on one thread: the requests waiting for an answer, the handlers,
    the queue the writer drains and the ways a bridge ends ([state.rs], [registry.rs]),
    what this end asks and tells ([request.rs]), what it serves ([serve.rs]), and the two
    loops over its streams ([reader.rs], [writer.rs]). No borrow is held while a handler
    runs: a handler, of a request, an event or an error, is what it does to the bridge
    ([action]s, in order), as the environment has it at each of its calls. What else runs on
    the thread is a sequence of [event]s. A number is a [u64] here without its end, and the
    bridge is held all along (the source ends it when its last handle goes). *)
From Stdlib Require Import Sorting.Sorted.
From S2P Require Import Prelude Utf8 Lines Frames.
#[local] Open Scope nat_scope.

(** ** The data *)

(** What a request ends in: the peer's body, or why none will come. *)
Definition Answer `{Json} : Type := (Value + BridgeError)%type.

(** A request sent and not answered yet; [p_answer] is its channel. *)
Record Pending := MkPending { p_op : string; p_until : Z; p_answer : nat }.

(** Why a bridge ended. *)
Inductive Ended :=
| Input
| Closed
| Failed (error : BridgeError).

(** The handlers by op, each (a number for its closure) with the serial it was added with. *)
Record Registry := MkRegistry {
  serial : Z;
  requests : gmap string (Z * nat);
  events : gmap string (list (Z * nat))
}.

(** What taking a handler away needs to find it again. *)
Inductive Registered :=
| RegisteredRequest (op : string) (added : Z)
| RegisteredEvent (op : string) (added : Z).

Record Settings := MkSettings {
  role : Role;
  max_frame_bytes : nat;
  default_deadline : Z
}.

(** [closed], [terminal] and [ended] of [Inner]. *)
Record life := Life {
  closed : bool;
  terminal : option BridgeError;
  ended : option Ended
}.

(** The requests: [answers] are what came on the channels, [live] the futures not done yet,
    by their channels, and [outcomes] what those done gave. *)
Record asking `{Json} := Asking {
  next_id : Z;
  pending : gmap string Pending;
  next_answer : nat;
  answers : list (nat * Answer);
  live : gmap nat (string * Z);
  outcomes : list (nat * Answer)
}.

(** The writer's loop: writing, done when the queue closed, or stopped by a failed write. *)
Inductive writing := Writing | Shutdown | Broken.

(** The queue: whether it takes lines still, all it took, and how many were written. *)
Record output := Output {
  sending : bool;
  queued : list (list byte);
  written : nat;
  writer : writing
}.

(** What [on_error] and [on_fatal] were told. *)
Record heard := Heard { told : list BridgeError; fatal : list BridgeError }.

(** The handlers at work: the request each answers. *)
Record serving := Serving {
  registry : Registry;
  tasks : gmap nat (string * string);
  next_task : nat
}.

Record clock := Clock { time : Z; tick : nat }.

Record bridge `{Json} := Bridge {
  b_settings : Settings;
  b_life : life;
  b_asking : asking;
  b_output : output;
  b_heard : heard;
  b_serving : serving;
  b_reader : option lines;
  b_clock : clock
}.

(** What code on the thread does with a bridge. *)
Inductive action `{Json} :=
| Request (op : string) (body : Value) (deadline : option Z)
| Event (op : string) (body : Value)
| Close
| On (op : string) (handler : nat)
| OnEvent (op : string) (handler : nat)
| Off (registered : Registered).

(** What a bridge runs on: how long the thread was kept waiting before each look at the
    clock, the clock's last instant, and what each handler does at each of its calls; a
    request's handler is done at its first poll, or not. *)
Record environment `{Json} := {
  lag : nat -> Z;
  clock_end : Z;
  request_handler : nat -> nat -> Value -> list action * option (Value + string);
  event_handler : nat -> nat -> Value -> list action;
  error_handler : nat -> BridgeError -> list action;
  fatal_handler : nat -> BridgeError -> list action;
  after_read : nat -> list action
}.

(** What a request's making goes to. *)
Inductive Sent `{Json} :=
| Settled (answer : Answer)
| Waiting (answered : nat) (until : Z) (id : string).

(** A read of the input. *)
Inductive read_result :=
| Bytes (chunk : list byte)
| EndOfInput
| ReadFailed (error : BridgeError).

#[global] Arguments Asking {_}.
#[global] Arguments Bridge {_}.
#[global] Arguments Request {_}.
#[global] Arguments Event {_}.
#[global] Arguments Close {_}.
#[global] Arguments On {_}.
#[global] Arguments OnEvent {_}.
#[global] Arguments Off {_}.
#[global] Arguments Settled {_}.
#[global] Arguments Waiting {_}.

(** ** The handlers' registry *)

Definition add_request (op : string) (handler : nat) (r : Registry) : Registry * Z :=
  let added := (serial r + 1)%Z in
  (MkRegistry added (<[op := (added, handler)]> (requests r)) (events r), added).

Definition add_event (op : string) (handler : nat) (r : Registry) : Registry * Z :=
  let added := (serial r + 1)%Z in
  (MkRegistry added (requests r)
     (<[op := default [] (events r !! op) ++ [(added, handler)]]> (events r)), added).

Definition request_of (op : string) (r : Registry) : option nat := snd <$> requests r !! op.
Definition events_of (op : string) (r : Registry) : list nat := snd <$> default [] (events r !! op).

Definition remove_request (op : string) (added : Z) (r : Registry) : Registry :=
  match requests r !! op with
  | Some (found, _) =>
      if (found =? added)%Z then MkRegistry (serial r) (delete op (requests r)) (events r) else r
  | None => r
  end.

(** [handlers.remove(at)] where [position] found it. *)
Definition remove_event (op : string) (added : Z) (r : Registry) : Registry :=
  match events r !! op with
  | Some handlers =>
      match position (fun h => (h.1 =? added)%Z) handlers with
      | Some at_ => MkRegistry (serial r) (requests r) (<[op := delete at_ handlers]> (events r))
      | None => r
      end
  | None => r
  end.

Definition clear (r : Registry) : Registry := MkRegistry (serial r) ∅ ∅.

(** [Subscription::off] *)
Definition off (registered : Registered) (r : Registry) : Registry :=
  match registered with
  | RegisteredRequest op added => remove_request op added r
  | RegisteredEvent op added => remove_event op added r
  end.

Section Bridge.
Context `{Serde} (env : environment).
Implicit Types b : bridge.

Definition set_life (x : life) b : bridge :=
  Bridge (b_settings b) x (b_asking b) (b_output b) (b_heard b) (b_serving b) (b_reader b) (b_clock b).
Definition set_asking (x : asking) b : bridge :=
  Bridge (b_settings b) (b_life b) x (b_output b) (b_heard b) (b_serving b) (b_reader b) (b_clock b).
Definition set_output (x : output) b : bridge :=
  Bridge (b_settings b) (b_life b) (b_asking b) x (b_heard b) (b_serving b) (b_reader b) (b_clock b).
Definition set_heard (x : heard) b : bridge :=
  Bridge (b_settings b) (b_life b) (b_asking b) (b_output b) x (b_serving b) (b_reader b) (b_clock b).
Definition set_serving (x : serving) b : bridge :=
  Bridge (b_settings b) (b_life b) (b_asking b) (b_output b) (b_heard b) x (b_reader b) (b_clock b).
Definition set_reader (x : option lines) b : bridge :=
  Bridge (b_settings b) (b_life b) (b_asking b) (b_output b) (b_heard b) (b_serving b) x (b_clock b).
Definition set_clock (x : clock) b : bridge :=
  Bridge (b_settings b) (b_life b) (b_asking b) (b_output b) (b_heard b) (b_serving b) (b_reader b) x.
Definition set_registry (x : Registry) b : bridge :=
  set_serving (Serving x (tasks (b_serving b)) (next_task (b_serving b))) b.
Definition b_registry b : Registry := registry (b_serving b).

(** [Inner::new], and [connect]'s reader. *)
Definition new (settings : Settings) (start : Z) : bridge :=
  Bridge settings (Life false None None) (Asking 0 ∅ 0 [] ∅ []) (Output true [] 0 Writing)
    (Heard [] []) (Serving (MkRegistry 0 ∅ ∅) ∅ 0) (Some (Lines.new (max_frame_bytes settings)))
    (Clock start 0).

(** ** What every task shares: [state.rs] *)

Definition is_closed b : bool := closed (b_life b).
Definition terminal_of b : BridgeError := default Eof (terminal (b_life b)).

(** [Instant::now()] *)
Definition ticked b : bridge := set_clock (Clock (time (b_clock b)) (S (tick (b_clock b)))) b.
Definition now b : bridge * Z :=
  let t := (time (b_clock b) + lag env (tick (b_clock b)))%Z in
  (set_clock (Clock t (S (tick (b_clock b)))) b, t).

(** [Inner::next_id] *)
Definition mint b : bridge * string :=
  let a := b_asking b in
  let number := (next_id a + 1)%Z in
  (set_asking (Asking number (pending a) (next_answer a) (answers a) (live a) (outcomes a)) b,
   minted (role (b_settings b)) number).

Definition accepts b (frame : Frame) : bool :=
  let minted_by := if bool_decide (kind frame = "res"%string) then role (b_settings b)
                   else peer (role (b_settings b)) in
  starts_with (fr_id frame) (prefix minted_by).

Definition write (line : list byte) b : bridge :=
  let o := b_output b in
  if sending o then set_output (Output true (queued o ++ [line ++ [lf]]) (written o) (writer o)) b
  else b.

Definition set_pending (x : gmap string Pending) b : bridge :=
  let a := b_asking b in
  set_asking (Asking (next_id a) x (next_answer a) (answers a) (live a) (outcomes a)) b.

Definition expect (id op : string) (until : Z) b : bridge * nat :=
  let a := b_asking b in
  (set_asking (Asking (next_id a) (<[id := MkPending op until (next_answer a)]> (pending a))
                 (S (next_answer a)) (answers a) (live a) (outcomes a)) b, next_answer a).

Definition forget (id : string) b : bridge := set_pending (delete id (pending (b_asking b))) b.

(** [answer.send(..)]: a channel is used once, its sender moved. *)
Definition answer_request (request : Pending) (answer : Answer) b : bridge :=
  let a := b_asking b in
  set_asking (Asking (next_id a) (pending a) (next_answer a)
                (answers a ++ [(p_answer request, answer)]) (live a) (outcomes a)) b.

(** ** What code on the thread does: [request.rs], [registry.rs] *)

(** 30 years of nanoseconds *)
Definition FAR_FUTURE : Z := 30 * 365 * 24 * 60 * 60 * 1000000000.

Definition encode (frame : Frame) : list byte + BridgeError :=
  match to_vec frame with
  | inl line => inl line
  | inr error => inr (MalformedFrame (NotEncoded error))
  end.

(** [now.checked_add(wait)], or further than any deadline. *)
Definition deadline_at (now wait : Z) : Z :=
  if (now + wait <=? clock_end env)%Z then now + wait else now + FAR_FUTURE.

Definition send (op : string) (body : Value) (deadline : option Z) b : bridge * Sent :=
  if is_closed b then (b, Settled (inr (terminal_of b))) else
  let '(b, id) := mint b in
  match encode (MkFrame PROTOCOL_VERSION id "req" op body) with
  | inr error => (b, Settled (inr error))
  | inl line =>
      if max_frame_bytes (b_settings b) <? length line then (b, Settled (inl too_large_body))
      else
        let '(b, now) := now b in
        let until := deadline_at now (default (default_deadline (b_settings b)) deadline) in
        let '(b, answered) := expect id op until b in
        (write line b, Waiting answered until id)
  end.

(** [request]: [send], and the future of what it is waiting for. *)
Definition request (op : string) (body : Value) (deadline : option Z) b : bridge :=
  let '(b, sent) := send op body deadline b in
  match sent with
  | Settled _ => b
  | Waiting answered until id =>
      let a := b_asking b in
      set_asking (Asking (next_id a) (pending a) (next_answer a) (answers a)
                    (<[answered := (id, until)]> (live a)) (outcomes a)) b
  end.

Definition event (op : string) (body : Value) b : bridge * bool :=
  if is_closed b then (b, false) else
  let '(b, id) := mint b in
  match encode (MkFrame PROTOCOL_VERSION id "evt" op body) with
  | inl line =>
      if length line <=? max_frame_bytes (b_settings b) then (write line b, true) else (b, false)
  | inr _ => (b, false)
  end.

(** ** The ways a bridge ends: [state.rs] *)

Definition finish (error : BridgeError) b : bridge :=
  let waiting := snd <$> map_to_list (pending (b_asking b)) in
  let b := set_life (Life (closed (b_life b)) (Some error) (ended (b_life b))) b in
  let b := set_pending ∅ b in
  let b := fold_left (fun b request => answer_request request (inr error) b) waiting b in
  set_registry (clear (b_registry b)) b.

Definition close_now b : bridge :=
  set_life (Life true (terminal (b_life b)) (ended (b_life b))) b.
Definition set_ended (why : Ended) b : bridge :=
  set_life (Life (closed (b_life b)) (terminal (b_life b)) (Some why)) b.

(** [Inner::end] *)
Definition end_ (why : Ended) b : bridge :=
  if is_closed b then b else set_ended why (finish Eof (close_now b)).

Definition end_output b : bridge :=
  let o := b_output b in set_output (Output false (queued o) (written o) (writer o)) b.

Definition eof b : bridge := end_ Input b.
Definition close b : bridge := end_output (end_ Closed b).

(** What code on the thread does with the bridge, an action after another. *)
Definition act b (a : action) : bridge :=
  match a with
  | Request op body deadline => request op body deadline b
  | Event op body => (event op body b).1
  | Close => close b
  | On op handler => set_registry (add_request op handler (b_registry b)).1 b
  | OnEvent op handler => set_registry (add_event op handler (b_registry b)).1 b
  | Off registered => set_registry (off registered (b_registry b)) b
  end.

Definition acts (actions : list action) b : bridge := fold_left act actions b.

Definition report (error : BridgeError) b : bridge :=
  let b := set_heard (Heard (told (b_heard b) ++ [error]) (fatal (b_heard b))) b in
  acts (error_handler env (tick (b_clock b)) error) (ticked b).

Definition fail (error : BridgeError) b : bridge :=
  if is_closed b then b else
  let b := set_ended (Failed error) (finish error (close_now b)) in
  let b := report error b in
  let b := end_output b in
  let b := set_heard (Heard (told (b_heard b)) (fatal (b_heard b) ++ [error])) b in
  acts (fatal_handler env (tick (b_clock b)) error) (ticked b).

Definition settle (id op : string) (body : Value) b : bridge :=
  match pending (b_asking b) !! id with
  | None => b
  | Some request =>
      let b := forget id b in
      if bool_decide (p_op request = op) then
        let '(b, now) := now b in
        answer_request request
          (inl (if (p_until request <=? now)%Z then refusal DEADLINE else body)) b
      else
        let b := set_pending (<[id := request]> (pending (b_asking b))) b in
        report (MalformedFrame (OpMismatch id op (p_op request))) b
  end.

(** ** What this end serves: [serve.rs] *)

Definition respond (id op : string) (body : Value) b : bridge :=
  if is_closed b then b else
  match encode (MkFrame PROTOCOL_VERSION id "res" op body) with
  | inr error => fail error b
  | inl line =>
      if max_frame_bytes (b_settings b) <? length line then
        match encode (MkFrame PROTOCOL_VERSION id "res" op too_large_body) with
        | inr error => fail error b
        | inl line =>
            if max_frame_bytes (b_settings b) <? length line
            then fail (MalformedFrame (CannotFit id)) b else write line b
        end
      else write line b
  end.

(** [Bridge::answer] *)
Definition answer (id op : string) (result : Value + string) b : bridge :=
  respond id op (match result with inl body => body | inr words => refusal words end) b.

Definition serve (frame : Frame) b : bridge :=
  match request_of (Frames.op frame) (b_registry b) with
  | None => respond (fr_id frame) (Frames.op frame) unknown_op_body b
  | Some handler =>
      let '(actions, result) := request_handler env handler (tick (b_clock b)) (body frame) in
      let b := acts actions (ticked b) in
      match result with
      | Some result => answer (fr_id frame) (Frames.op frame) result b
      | None =>
          let s := b_serving b in
          set_serving (Serving (registry s)
            (<[next_task s := (fr_id frame, Frames.op frame)]> (tasks s)) (S (next_task s))) b
      end
  end.

(** ** The input: [reader.rs] *)

Definition QUOTED_CHARS : nat := 80.

Definition report_over_the_limit b : bridge := report (MalformedFrame OverTheLimit) b.

Definition emit (op : string) (body : Value) b : bridge :=
  fold_left (fun b handler => acts (event_handler env handler (tick (b_clock b)) body) (ticked b))
    (events_of op (b_registry b)) b.

Definition refuse_oversized (text : list char) b : bridge :=
  match from_str text with
  | inl frame =>
      if is_well_formed frame && accepts b frame then
        if bool_decide (kind frame = "req"%string)
        then respond (fr_id frame) (Frames.op frame) too_large_body b
        else if bool_decide (kind frame = "res"%string)
        then settle (fr_id frame) (Frames.op frame) too_large_body b
        else report_over_the_limit b
      else report_over_the_limit b
  | inr _ => report_over_the_limit b
  end.

Definition dispatch_frame (frame : Frame) b : bridge :=
  if accepts b frame then
    if bool_decide (kind frame = "res"%string)
    then settle (fr_id frame) (Frames.op frame) (body frame) b
    else if bool_decide (kind frame = "evt"%string)
    then emit (Frames.op frame) (body frame) b
    else serve frame b
  else report (MalformedFrame (WrongNamespace (fr_id frame) (kind frame))) b.

Definition dispatch_bytes (bytes : list byte) b : bridge :=
  match bytes with
  | [] => b
  | _ =>
      let text := from_utf8_lossy bytes in
      let max := max_frame_bytes (b_settings b) in
      if (max <? length bytes) || (max <? length (Utf8.encode text)) then refuse_oversized text b
      else match from_str text with
      | inr error => report (MalformedFrame (NotRead error)) b
      | inl frame =>
          if is_well_formed frame then dispatch_frame frame b
          else report (MalformedFrame (NotWellFormed (take QUOTED_CHARS text))) b
      end
  end.

Definition dispatch_line (next : line) b : bridge :=
  match next with
  | Complete bytes => dispatch_bytes bytes b
  | Overflow => report_over_the_limit b
  end.

(** The loop of [dispatch_lines]: whether the bridge closed meanwhile. [None] where an
    index of the scanner is out of range, or out of fuel. *)
Fixpoint dispatch_lines (fuel : nat) (l : lines) b : option (bridge * lines * bool) :=
  match fuel with
  | O => None
  | S fuel' =>
      '(l', next) ← next_line l;
      match next with
      | None => Some (b, l', false)
      | Some next =>
          let b := dispatch_line next b in
          if is_closed b then Some (b, l', true) else dispatch_lines fuel' l' b
      end
  end.

(** [ReaderEnded]: a reader that ends closes the bridge. *)
Definition reader_ended b : bridge := eof (set_reader None b).

(** One turn of [read_loop]; a bridge that closed has told it to stop. *)
Definition read (result : read_result) b : option bridge :=
  match b_reader b with
  | None => Some b
  | Some l =>
      if is_closed b then Some (reader_ended b) else
      match result with
      | Bytes [] | EndOfInput => Some (reader_ended (eof b))
      | ReadFailed error => Some (reader_ended (fail error b))
      | Bytes chunk =>
          l ← push l chunk;
          '(b, l, closed) ← dispatch_lines (length (ls_buffer l) + 2) l b;
          let b := acts (after_read env (tick (b_clock b))) (ticked b) in
          if closed : bool then Some (reader_ended b) else Some (set_reader (Some l) b)
      end
  end.

(** ** The tasks, the futures and the writer *)

(** A handler's task: what it does meanwhile, and its end. *)
Definition task_ended (t : nat) (result : Value + string) b : bridge :=
  let s := b_serving b in
  match tasks s !! t with
  | Some (id, op) =>
      answer id op result (set_serving (Serving (registry s) (delete t (tasks s)) (next_task s)) b)
  | None => b
  end.

(** What came on a channel. *)
Definition answer_on (n : nat) (log : list (nat * Answer)) : option Answer :=
  snd <$> head (filter (fun a => a.1 = n) log).

(** A request's future done, which takes it off the waiting list as one dropped does. *)
Definition drop_request (n : nat) (id : string) (log : list (nat * Answer)) b : bridge :=
  let b := forget id b in
  let a := b_asking b in
  set_asking (Asking (next_id a) (pending a) (next_answer a) (answers a) (delete n (live a))
                (outcomes a ++ log)) b.

Definition poll_request (n : nat) b : bridge :=
  match live (b_asking b) !! n with
  | None => b
  | Some (id, until) =>
      match answer_on n (answers (b_asking b)) with
      | Some answer => drop_request n id [(n, answer)] b
      | None =>
          if bool_decide (p_answer <$> pending (b_asking b) !! id = Some n) then
            let '(b, now) := now b in
            if (until <=? now)%Z then drop_request n id [(n, inl (refusal DEADLINE))] b else b
          else drop_request n id [(n, inr Eof)] b
      end
  end.

(** One turn of [write_loop]: the next line written, or why it was not. *)
Definition write_next (error : option BridgeError) b : bridge :=
  let o := b_output b in
  match writer o with
  | Writing =>
      match queued o !! written o with
      | Some _ =>
          match error with
          | None => set_output (Output (sending o) (queued o) (S (written o)) Writing) b
          | Some error =>
              fail error (set_output (Output (sending o) (queued o) (written o) Broken) b)
          end
      | None =>
          if sending o then b
          else set_output (Output (sending o) (queued o) (written o) Shutdown) b
      end
  | _ => b
  end.

(** What happens on the bridge's thread. *)
Inductive happening :=
| Acted (a : action)
| Received (result : read_result)
| TaskEnded (t : nat) (result : Value + string)
| Polled (n : nat)
| Dropped (n : nat)
| Wrote (error : option BridgeError).

Definition step b (h : happening) : option bridge :=
  match h with
  | Acted a => Some (act b a)
  | Received result => read result b
  | TaskEnded t result => Some (task_ended t result b)
  | Polled n => Some (poll_request n b)
  | Dropped n =>
      match live (b_asking b) !! n with
      | Some (id, _) => Some (drop_request n id [] b)
      | None => Some b
      end
  | Wrote error => Some (write_next error b)
  end.

Fixpoint steps b (hs : list happening) : option bridge :=
  match hs with
  | [] => Some b
  | h :: hs' => b' ← step b h; steps b' hs'
  end.

(** ** The invariant *)

(** A request or an event of this end's own, as a line of the output. *)
Record own_line (r : Role) (number : Z) (frame : Frame) : Prop := {
  own_kind : kind frame = "req"%string \/ kind frame = "evt"%string;
  own_id : fr_id frame = minted r number
}.

Definition is_answer (frame : Frame) : Prop := kind frame = "res"%string.

(** A line queued: a frame of this protocol within the limit, and a newline. *)
Definition line_of (max : nat) (line : list byte) (frame : Frame) : Prop :=
  v frame = PROTOCOL_VERSION /\
  exists bytes, to_vec frame = inl bytes /\ line = bytes ++ [lf] /\ length bytes <= max.

(** The frames the lines are, and the numbers of this end's own among them. *)
Fixpoint frames_of (r : Role) (max : nat) (lines : list (list byte)) (frames : list Frame)
    (numbers : list Z) : Prop :=
  match lines, frames with
  | [], [] => numbers = []
  | line :: lines', frame :: frames' =>
      line_of max line frame /\
      ((is_answer frame /\ frames_of r max lines' frames' numbers) \/
       exists number numbers', numbers = number :: numbers' /\ own_line r number frame /\
         frames_of r max lines' frames' numbers')
  | _, _ => False
  end.

Record asking_ok (r : Role) (a : asking) : Prop := {
  ask_pending : forall id p, pending a !! id = Some p -> p_answer p < next_answer a /\
    exists number, (1 <= number <= next_id a)%Z /\ id = minted r number;
  ask_channels : forall id1 id2 p1 p2, pending a !! id1 = Some p1 -> pending a !! id2 = Some p2 ->
    p_answer p1 = p_answer p2 -> id1 = id2;
  ask_open : forall id p, pending a !! id = Some p -> p_answer p ∉ (answers a).*1;
  ask_once : NoDup (answers a).*1;
  ask_answers : Forall (fun n => n < next_answer a) (answers a).*1;
  ask_live : forall n id until, live a !! n = Some (id, until) -> n < next_answer a /\
    (n ∉ (outcomes a).*1) /\ (exists number, (1 <= number <= next_id a)%Z /\ id = minted r number) /\
    (forall p, pending a !! id = Some p -> p_answer p = n) /\
    (n ∈ (answers a).*1 \/ is_Some (pending a !! id));
  ask_live_ids : forall n1 n2 id until1 until2, live a !! n1 = Some (id, until1) ->
    live a !! n2 = Some (id, until2) -> n1 = n2;
  ask_outcomes : NoDup (outcomes a).*1;
  ask_outcome : Forall (fun n => n < next_answer a) (outcomes a).*1;
  ask_next : (0 <= next_id a)%Z
}.

(** The lines are frames, this end's own numbered upwards. *)
Definition lines_ok (r : Role) (max : nat) (next : Z) (lines : list (list byte)) : Prop :=
  exists frames numbers, frames_of r max lines frames numbers /\
    Forall (fun n => 1 <= n <= next)%Z numbers /\ StronglySorted Z.lt numbers.

Record bridge_ok b : Prop := {
  ok_asking : asking_ok (role (b_settings b)) (b_asking b);
  ok_lines : lines_ok (role (b_settings b)) (max_frame_bytes (b_settings b))
               (next_id (b_asking b)) (queued (b_output b));
  ok_written : written (b_output b) <= length (queued (b_output b));
  ok_open : is_closed b = false ->
    terminal (b_life b) = None /\ ended (b_life b) = None /\ sending (b_output b) = true;
  ok_closed : is_closed b = true ->
    pending (b_asking b) = ∅ /\
    exists why, ended (b_life b) = Some why /\
      terminal (b_life b) = Some (match why with Failed error => error | _ => Eof end)
}.

(** What any part of the bridge's code keeps to: what was queued, answered and given stays,
    and once the bridge closed nothing is queued or answered any more and its end is the
    same. *)
Record goes b b' : Prop := {
  goes_settings : b_settings b' = b_settings b;
  goes_queued : queued (b_output b) `prefix_of` queued (b_output b');
  goes_written : written (b_output b) <= written (b_output b');
  goes_answers : answers (b_asking b) `prefix_of` answers (b_asking b');
  goes_outcomes : outcomes (b_asking b) `prefix_of` outcomes (b_asking b');
  goes_ids : (next_id (b_asking b) <= next_id (b_asking b'))%Z;
  goes_closed : is_closed b = true ->
    b_life b' = b_life b /\ queued (b_output b') = queued (b_output b) /\
    answers (b_asking b') = answers (b_asking b)
}.

#[export] Instance goes_preorder : PreOrder goes.
Proof.
  split.
  - intros b. by split.
  - intros b1 b2 b3 [S1 Q1 W1 A1 O1 N1 C1] [S2 Q2 W2 A2 O2 N2 C2].
    split; [congruence|by etrans|lia|by etrans|by etrans|lia|].
    intros Hc. destruct (C1 Hc) as (E1 & E2 & E3).
    assert (is_closed b2 = true) as Hc2 by (unfold is_closed; by rewrite E1).
    destruct (C2 Hc2) as (E4 & E5 & E6). split_and!; congruence.
Qed.

Record good b b' : Prop := {
  good_ok : bridge_ok b';
  good_goes : goes b b';
  good_reader : b_reader b' = b_reader b
}.

Lemma good_trans b1 b2 b3 : good b1 b2 -> (bridge_ok b2 -> good b2 b3) -> good b1 b3.
Proof. intros [H1 H2 E1] H3. destruct (H3 H1) as [H4 H5 E2]. split; [done|by etrans|congruence]. Qed.

Lemma good_refl b : bridge_ok b -> good b b.
Proof. by split. Qed.

(** What leaves the ways it ends, its requests and its output alone. *)
Lemma good_same b b' :
  bridge_ok b -> b_settings b' = b_settings b -> b_life b' = b_life b ->
  b_asking b' = b_asking b -> b_output b' = b_output b -> b_reader b' = b_reader b -> good b b'.
Proof.
  intros [H1 H2 H3 H4 H5] E1 E2 E3 E4 E5. unfold is_closed in *.
  split; [split|split|done]; unfold is_closed; rewrite ?E1, ?E2, ?E3, ?E4; auto; by rewrite E3 || done.
Qed.

(** ** Lines *)

Lemma frames_of_snoc r max lines frames numbers line frame more :
  frames_of r max lines frames numbers -> line_of max line frame ->
  (is_answer frame /\ more = [] \/ exists n, more = [n] /\ own_line r n frame) ->
  frames_of r max (lines ++ [line]) (frames ++ [frame]) (numbers ++ more).
Proof.
  intros Hf Hl Hm. revert frames numbers Hf.
  induction lines as [|l lines IH]; intros [|f frames] numbers Hf; try done; simpl in *.
  - subst numbers. split; [done|]. destruct Hm as [[? ->]|(n & -> & ?)]; [by left|].
    right. by exists n, [].
  - destruct Hf as [Hl' Hf]. split; [done|].
    destruct Hf as [[? Hf]|(n & numbers' & -> & ? & Hf)]; [left|right]; auto.
    exists n, (numbers' ++ more). split_and!; auto.
Qed.

Lemma lines_ok_mono r max next next' lines :
  lines_ok r max next lines -> (next <= next')%Z -> lines_ok r max next' lines.
Proof.
  intros (fs & ns & H1 & H2 & H3) Hle. exists fs, ns. split_and!; auto.
  eapply Forall_impl; [exact H2|]. simpl. lia.
Qed.

Lemma lines_ok_answer r max next lines line frame :
  lines_ok r max next lines -> line_of max line frame -> is_answer frame ->
  lines_ok r max next (lines ++ [line]).
Proof.
  intros (fs & ns & H1 & H2 & H3) Hl Ha. exists (fs ++ [frame]), (ns ++ []).
  split; [|by rewrite app_nil_r]. apply frames_of_snoc; auto.
Qed.

Lemma lines_ok_own r max next lines line frame :
  lines_ok r max next lines -> line_of max line frame -> own_line r (next + 1) frame ->
  (0 <= next)%Z -> lines_ok r max (next + 1) (lines ++ [line]).
Proof.
  intros (fs & ns & H1 & H2 & H3) Hl Ho Hn. exists (fs ++ [frame]), (ns ++ [next + 1]%Z).
  split; [apply frames_of_snoc; eauto|]. split.
  - apply Forall_app. split; [eapply Forall_impl; [exact H2|simpl; lia]|].
    apply Forall_singleton. lia.
  - clear H1. induction H3 as [|n ns Hs IH Hall]; simpl; [repeat constructor|].
    apply Forall_cons in H2 as [Hb H2]. constructor; [by apply IH|].
    apply Forall_app. split; [done|]. apply Forall_singleton. lia.
Qed.

(** ** Requests *)

Lemma asking_mono r (a : asking) next :
  asking_ok r a -> (next_id a <= next)%Z ->
  asking_ok r (Asking next (pending a) (next_answer a) (answers a) (live a) (outcomes a)).
Proof.
  intros [H1 H2 H3 H4 H5 H6 H7 H8 H9 H10] Hle. split; simpl; auto; [| |lia].
  - intros id p Hp. destruct (H1 id p Hp) as (? & n & ? & ?). split; [done|]. exists n. split; [lia|done].
  - intros n id until Hl. destruct (H6 n id until Hl) as (? & ? & (m & ? & ?) & ? & ?).
    split_and!; auto. exists m. split; [lia|done].
Qed.

(** A request made: on the waiting list, its channel new, its future live. *)
Lemma asking_request r (a : asking) op until :
  asking_ok r a ->
  asking_ok r (Asking (next_id a + 1)
    (<[minted r (next_id a + 1) := MkPending op until (next_answer a)]> (pending a))
    (S (next_answer a)) (answers a)
    (<[next_answer a := (minted r (next_id a + 1), until)]> (live a)) (outcomes a)).
Proof.
  intros [H1 H2 H3 H4 H5 H6 H7 H8 H9 H10]. set (id := minted r (next_id a + 1)).
  assert (forall number, (1 <= number <= next_id a)%Z -> minted r number <> id) as Hnew.
  { intros number Hn E. apply minted_inj in E; lia. }
  assert (forall id' p, pending a !! id' = Some p -> id' <> id) as Hpnew.
  { intros id' p Hp. destruct (H1 id' p Hp) as (_ & n & Hn & ->). by apply Hnew. }
  assert (forall n, n ∈ (answers a).*1 -> n < next_answer a) as H5'
    by (intros n Hn; rewrite Forall_forall in H5; auto).
  assert (forall n, n ∈ (outcomes a).*1 -> n < next_answer a) as H9'
    by (intros n Hn; rewrite Forall_forall in H9; auto).
  split; simpl; auto.
  - intros id' p [[<- <-]|[_ Hp]]%lookup_insert_Some; simpl.
    + split; [lia|]. exists (next_id a + 1)%Z. split; [lia|done].
    + destruct (H1 id' p Hp) as (? & n & ? & ?). split; [lia|]. exists n. split; [lia|done].
  - intros id1 id2 p1 p2 [[<- <-]|[_ Hp1]]%lookup_insert_Some
      [[<- <-]|[_ Hp2]]%lookup_insert_Some; simpl; auto.
    + intros E. destruct (H1 _ _ Hp2). lia.
    + intros E. destruct (H1 _ _ Hp1). lia.
    + eauto.
  - intros id' p [[<- <-]|[_ Hp]]%lookup_insert_Some; simpl; [|eauto].
    intros Hin%H5'. lia.
  - eapply Forall_impl; [exact H5|simpl; lia].
  - intros n id' until' [[<- [= <- <-]]|[_ Hl]]%lookup_insert_Some.
    + split_and!; [lia|intros Hin%H9'; lia|exists (next_id a + 1)%Z; split; [lia|done]| |].
      * intros p. rewrite lookup_insert_eq. by intros [= <-].
      * right. rewrite lookup_insert_eq. eauto.
    + destruct (H6 n id' until' Hl) as (? & ? & (m & Hm & Eid) & Hp & Ha).
      assert (id' <> id) as Hne by (rewrite Eid; by apply Hnew).
      split_and!; [lia|done|exists m; split; [lia|done]| |].
      * intros p. rewrite lookup_insert_ne by done. apply Hp.
      * rewrite lookup_insert_ne by done. destruct Ha; auto.
  - intros n1 n2 id' u1 u2 [[<- E1]|[_ Hl1]]%lookup_insert_Some
      [[<- E2]|[_ Hl2]]%lookup_insert_Some; auto.
    + injection E1 as <- <-. destruct (H6 _ _ _ Hl2) as (_ & _ & (m & Hm & E) & _). by destruct (Hnew m Hm).
    + injection E2 as <- <-. destruct (H6 _ _ _ Hl1) as (_ & _ & (m & Hm & E) & _). by destruct (Hnew m Hm).
    + eauto.
  - eapply Forall_impl; [exact H9|simpl; lia].
  - lia.
Qed.

(** A request answered, and off the waiting list. *)
Lemma asking_answer r (a : asking) id p answer :
  asking_ok r a -> pending a !! id = Some p ->
  asking_ok r (Asking (next_id a) (delete id (pending a)) (next_answer a)
                 (answers a ++ [(p_answer p, answer)]) (live a) (outcomes a)).
Proof.
  intros [H1 H2 H3 H4 H5 H6 H7 H8 H9 H10] Hp. split; simpl; auto; rewrite ?fmap_app; simpl.
  - intros id' p' [_ Hp']%lookup_delete_Some. eauto.
  - intros id1 id2 p1 p2 [_ Hp1]%lookup_delete_Some [_ Hp2]%lookup_delete_Some. eauto.
  - intros id' p' [Hne Hp']%lookup_delete_Some Hin.
    apply elem_of_app in Hin as [Hin|Hin%list_elem_of_singleton]; [by eapply H3|].
    apply Hne. eapply H2; eauto.
  - apply NoDup_app. split_and!; [done| |apply NoDup_singleton].
    intros n Hn ->%list_elem_of_singleton. by eapply H3.
  - apply Forall_app. split; [done|]. apply Forall_singleton. by destruct (H1 _ _ Hp).
  - intros n id' until Hl. destruct (H6 n id' until Hl) as (? & ? & ? & Hpn & Ha).
    split_and!; auto.
    + intros p' [_ Hp']%lookup_delete_Some. auto.
    + destruct Ha as [Ha|Ha]; [left; apply elem_of_app; by left|].
      destruct (decide (id' = id)) as [->|Hne]; [|right; by rewrite lookup_delete_ne].
      left. apply elem_of_app. right. apply list_elem_of_singleton. symmetry. eauto.
Qed.

(** The order the answers came in does not matter. *)
Lemma asking_log r nid ps na (log log' : list (nat * Answer)) lv out :
  asking_ok r (Asking nid ps na log lv out) -> log.*1 ≡ₚ log'.*1 ->
  asking_ok r (Asking nid ps na log' lv out).
Proof.
  intros [H1 H2 H3 H4 H5 H6 H7 H8 H9 H10] E. simpl in *. split; simpl; auto.
  - intros id p Hp. rewrite <- E. eauto.
  - by rewrite <- E.
  - by rewrite <- E.
  - intros n id until Hl. rewrite <- E. eauto.
Qed.

(** All that wait refused: the order they are in does not matter. *)
Lemma asking_answers r (a : asking) (error : BridgeError) waiting :
  waiting ≡ₚ snd <$> map_to_list (pending a) -> asking_ok r a ->
  asking_ok r (Asking (next_id a) ∅ (next_answer a)
    (answers a ++ ((fun p => (p_answer p, inr error)) <$> waiting)) (live a) (outcomes a)).
Proof.
  intros Hperm Hok. revert waiting Hperm Hok.
  destruct a as [nid ps na ans lv out]. cbn [pending next_id next_answer answers live outcomes].
  revert ans. induction ps as [|id p ps Hnone IH] using map_ind; intros ans waiting Hperm Hok.
  - rewrite map_to_list_empty in Hperm. apply Permutation_nil_r in Hperm as ->.
    by rewrite app_nil_r.
  - rewrite map_to_list_insert in Hperm by done. simpl in Hperm.
    pose proof (asking_answer r _ id p (inr error) Hok (lookup_insert_eq _ _ _)) as Hok'.
    simpl in Hok'. rewrite delete_insert_id in Hok' by done.
    eapply asking_log; [exact (IH _ _ (reflexivity _) Hok')|].
    rewrite Hperm, !fmap_app. simpl. by rewrite <- app_assoc.
Qed.

(** A request's future done: it is live no more, nor on the waiting list. *)
Lemma asking_drop r (a : asking) n id until log :
  asking_ok r a -> live a !! n = Some (id, until) -> (log.*1 = [n] \/ log = []) ->
  asking_ok r (Asking (next_id a) (delete id (pending a)) (next_answer a) (answers a)
                 (delete n (live a)) (outcomes a ++ log)).
Proof.
  intros [H1 H2 H3 H4 H5 H6 H7 H8 H9 H10] Hl Hlog.
  destruct (H6 n id until Hl) as (Hn & Hout & _).
  assert (forall m, m ∈ log.*1 -> m = n) as Hlog'.
  { intros m. destruct Hlog as [->| ->]; [by intros ->%list_elem_of_singleton|]. intros Hm. by inversion Hm. }
  split; simpl; auto; rewrite ?fmap_app.
  - intros id' p [_ Hp]%lookup_delete_Some. eauto.
  - intros id1 id2 p1 p2 [_ Hp1]%lookup_delete_Some [_ Hp2]%lookup_delete_Some. eauto.
  - intros id' p [_ Hp]%lookup_delete_Some. eauto.
  - intros m id' u [Hne Hm]%lookup_delete_Some. destruct (H6 m id' u Hm) as (? & ? & ? & Hp & Ha).
    assert (id' <> id) as Hid by (intros ->; eauto).
    split_and!; auto.
    + intros [Hin|Hin%Hlog']%elem_of_app; [done|congruence].
    + intros p [_ Hp']%lookup_delete_Some. auto.
    + rewrite lookup_delete_ne by done. done.
  - intros n1 n2 id' u1 u2 [_ Hl1]%lookup_delete_Some [_ Hl2]%lookup_delete_Some. eauto.
  - apply NoDup_app. split_and!; [done|by intros m Hm ->%Hlog'|].
    destruct Hlog as [->| ->]; [apply NoDup_singleton|constructor].
  - apply Forall_app. split; [done|]. apply Forall_forall. by intros m ->%Hlog'.
Qed.

(** ** Every part keeps to it *)

Lemma encode_inl frame line : encode frame = inl line -> to_vec frame = inl line.
Proof. unfold encode. destruct (to_vec frame); [by intros [= <-]|done]. Qed.

Lemma line_of_encode max frame line :
  encode frame = inl line -> v frame = PROTOCOL_VERSION -> length line <= max ->
  line_of max (line ++ [lf]) frame.
Proof. intros E%encode_inl Hv Hlen. split; [done|]. by exists line. Qed.

Lemma write_open b line :
  bridge_ok b -> is_closed b = false ->
  write line b = set_output (Output (sending (b_output b)) (queued (b_output b) ++ [line ++ [lf]])
                               (written (b_output b)) (writer (b_output b))) b.
Proof.
  intros Hok Hc. destruct (ok_open b Hok Hc) as (_ & _ & Hs). unfold write. by rewrite Hs.
Qed.

Lemma write_answer_good b frame line :
  bridge_ok b -> is_closed b = false -> encode frame = inl line -> v frame = PROTOCOL_VERSION ->
  is_answer frame -> length line <= max_frame_bytes (b_settings b) -> good b (write line b).
Proof.
  intros Hok Hc He Hv Ha Hlen. rewrite (write_open b line Hok Hc). destruct Hok as [H1 H2 H3 H4 H5].
  split; split; simpl; auto; try lia.
  - eapply lines_ok_answer; eauto using line_of_encode.
  - rewrite length_app. simpl. lia.
  - by eexists.
  - congruence.
Qed.

(** A frame of this end's own queued, whatever its making did to the requests. *)
Lemma write_own_good b b1 frame line :
  bridge_ok b -> is_closed b = false ->
  b_settings b1 = b_settings b -> b_life b1 = b_life b -> b_output b1 = b_output b ->
  b_reader b1 = b_reader b -> asking_ok (role (b_settings b)) (b_asking b1) ->
  next_id (b_asking b1) = (next_id (b_asking b) + 1)%Z ->
  answers (b_asking b1) = answers (b_asking b) -> outcomes (b_asking b1) = outcomes (b_asking b) ->
  encode frame = inl line -> v frame = PROTOCOL_VERSION ->
  own_line (role (b_settings b)) (next_id (b_asking b) + 1) frame ->
  length line <= max_frame_bytes (b_settings b) -> good b (write line b1).
Proof.
  intros Hok Hc E1 E2 E3 E7 Ha E4 E5 E6 He Hv Ho Hlen.
  destruct Hok as [H1 H2 H3 H4 H5]. pose proof (ask_next _ _ H1) as Hn.
  destruct (H4 Hc) as (Ht & Hend & Hs).
  unfold write. rewrite E3, Hs. split; [split|split|done]; simpl; unfold is_closed in *; simpl;
    rewrite ?E1, ?E2, ?E3, ?E4, ?E5, ?E6; auto; try lia.
  - eapply lines_ok_own; eauto using line_of_encode.
  - rewrite length_app. simpl. lia.
  - congruence.
  - by eexists.
  - congruence.
Qed.

Lemma mint_good b : bridge_ok b -> good b (mint b).1.
Proof.
  intros [H1 H2 H3 H4 H5]. split; split; simpl; auto; try lia.
  - apply asking_mono; [done|lia].
  - eapply lines_ok_mono; [done|lia].
Qed.

Lemma request_good b op body deadline : bridge_ok b -> good b (request op body deadline b).
Proof.
  intros Hok. unfold request, send. destruct (is_closed b) eqn:Hc; [by apply good_refl|].
  destruct (mint b) as [b1 id] eqn:Hm. pose proof (mint_good b Hok) as Hg. rewrite Hm in Hg.
  unfold mint in Hm. injection Hm as <- <-.
  destruct (encode _) as [line|error] eqn:He; [|done].
  destruct (_ <? length line) eqn:Hlen; [done|]. ranges.
  unfold now, expect. simpl in *.
  set (b2 := set_asking _ (set_clock _ _)).
  unfold write at 1. cbn [b_output set_asking set_clock].
  match goal with |- good b ?x => assert (x = write line
    (set_asking (Asking (next_id (b_asking b2)) (pending (b_asking b2)) (next_answer (b_asking b2))
       (answers (b_asking b2)) (<[next_answer (b_asking b) :=
         (minted (role (b_settings b)) (next_id (b_asking b) + 1),
          deadline_at (time (b_clock b) + lag env (tick (b_clock b)))
            (default (default_deadline (b_settings b)) deadline))]> (live (b_asking b2)))
       (outcomes (b_asking b2))) b2)) as -> end.
  { unfold write. destruct (ok_open b Hok Hc) as (_ & _ & Hs). simpl. by rewrite Hs. }
  eapply write_own_good; eauto; simpl; try done.
  - apply asking_request. apply (ok_asking b Hok).
  - split; [by left|done].
Qed.

Lemma event_good b op body : bridge_ok b -> good b (event op body b).1.
Proof.
  intros Hok. unfold event. destruct (is_closed b) eqn:Hc; [by apply good_refl|].
  destruct (mint b) as [b1 id] eqn:Hm. pose proof (mint_good b Hok) as Hg. rewrite Hm in Hg.
  unfold mint in Hm. injection Hm as <- <-.
  destruct (encode _) as [line|error] eqn:He; [|done].
  simpl in *. destruct (length line <=? _) eqn:Hlen; [|done]. ranges.
  eapply write_own_good; eauto; simpl; try done.
  - apply asking_mono; [apply (ok_asking b Hok)|lia].
  - split; [by right|done].
Qed.

(** The requests waiting refused. *)
Lemma fold_answers (error : BridgeError) waiting b :
  fold_left (fun b request => answer_request request (inr error) b) waiting b =
    set_asking (Asking (next_id (b_asking b)) (pending (b_asking b)) (next_answer (b_asking b))
      (answers (b_asking b) ++ ((fun p => (p_answer p, inr error)) <$> waiting))
      (live (b_asking b)) (outcomes (b_asking b))) b.
Proof.
  revert b. induction waiting as [|p waiting IH]; intros b; cbn [fold_left].
  - rewrite app_nil_r. by destruct b as [? ? [] ? ? ? ? ?].
  - rewrite IH. unfold answer_request. simpl. by rewrite <- app_assoc.
Qed.

Lemma finish_good b why error :
  bridge_ok b -> is_closed b = false ->
  error = match why with Failed error => error | _ => Eof end ->
  good b (set_ended why (finish error (close_now b))).
Proof.
  intros [H1 H2 H3 H4 H5] Hc ->. unfold finish. rewrite fold_answers.
  split; split; simpl; auto; try lia.
  - apply (asking_answers _ (b_asking b)); [done|exact H1].
  - done.
  - intros _. split; [done|]. exists why. split; [done|]. by destruct why.
  - by eexists.
  - congruence.
Qed.

Lemma end_good b why :
  bridge_ok b -> match why with Failed _ => False | _ => True end -> good b (end_ why b).
Proof.
  intros Hok Hw. unfold end_. destruct (is_closed b) eqn:Hc; [by apply good_refl|].
  apply finish_good; auto. by destruct why.
Qed.

Lemma end_output_good b : bridge_ok b -> is_closed b = true -> good b (end_output b).
Proof.
  intros [H1 H2 H3 H4 H5] Hc. unfold is_closed in *. split; split; simpl; auto; try lia.
  unfold is_closed. simpl. congruence.
Qed.

Lemma end_closed b why : is_closed (end_ why b) = true.
Proof. unfold end_. destruct (is_closed b) eqn:Hc; [done|]. unfold finish. by rewrite fold_answers. Qed.

Lemma eof_good b : bridge_ok b -> good b (eof b).
Proof. intros. by apply end_good. Qed.

Lemma close_good b : bridge_ok b -> good b (close b).
Proof.
  intros Hok. unfold close. eapply good_trans; [exact (end_good b Closed Hok I)|]. intros Hok1.
  apply end_output_good; [done|]. apply end_closed.
Qed.

Lemma act_good b a : bridge_ok b -> good b (act b a).
Proof.
  intros Hok. destruct a; simpl; auto using request_good, event_good, close_good;
    by apply good_same.
Qed.

Lemma acts_good b actions : bridge_ok b -> good b (acts actions b).
Proof.
  unfold acts. revert b. induction actions as [|a actions IH]; intros b Hok; simpl;
    [by apply good_refl|]. eapply good_trans; [by apply act_good|auto].
Qed.

Lemma ticked_good b : bridge_ok b -> good b (ticked b).
Proof. intros. by apply good_same. Qed.

Lemma callback_good b actions : bridge_ok b -> good b (acts actions (ticked b)).
Proof. intros. eapply good_trans; [by apply ticked_good|]. intros. by apply acts_good. Qed.

Lemma report_good b error : bridge_ok b -> good b (report error b).
Proof.
  intros Hok. unfold report. eapply good_trans; [|intros; by apply callback_good].
  by apply good_same.
Qed.

Lemma goes_stays_closed b b' : goes b b' -> is_closed b = true -> is_closed b' = true.
Proof. intros Hg Hc. destruct (goes_closed _ _ Hg Hc) as (E & _). unfold is_closed. by rewrite E. Qed.

Lemma fail_good b error : bridge_ok b -> good b (fail error b).
Proof.
  intros Hok. unfold fail. destruct (is_closed b) eqn:Hc; [by apply good_refl|].
  set (b1 := set_ended _ _).
  assert (good b b1) as Hg1 by by apply finish_good.
  assert (is_closed b1 = true) as Hc1 by (unfold b1, finish; by rewrite fold_answers).
  eapply good_trans; [exact Hg1|]. intros Hok1.
  pose proof (report_good b1 error Hok1) as Hg2.
  eapply good_trans; [exact Hg2|]. intros Hok2.
  eapply good_trans; [apply end_output_good; [done|]; eapply goes_stays_closed; [apply Hg2|done]|].
  intros Hok3. eapply good_trans; [|intros; by apply callback_good]. by apply good_same.
Qed.

Lemma answer_pending_good b id p answer b1 :
  bridge_ok b -> pending (b_asking b) !! id = Some p ->
  b_settings b1 = b_settings b -> b_life b1 = b_life b -> b_output b1 = b_output b ->
  b_reader b1 = b_reader b -> b_asking b1 = b_asking (forget id b) ->
  good b (answer_request p answer b1).
Proof.
  intros [H1 H2 H3 H4 H5] Hp E1 E2 E3 E5 E4. unfold is_closed in *.
  assert (closed (b_life b) = true -> False) as Hopen.
  { intros Hc. destruct (H5 Hc) as [E _]. by rewrite E, lookup_empty in Hp. }
  split; [split|split|done]; unfold is_closed; simpl; rewrite ?E1, ?E2, ?E3, ?E4; simpl; auto; try done.
  - by apply asking_answer.
  - by eexists.
Qed.

Lemma settle_good b id op body : bridge_ok b -> good b (settle id op body b).
Proof.
  intros Hok. unfold settle. destruct (pending (b_asking b) !! id) as [p|] eqn:Hp; [|by apply good_refl].
  destruct (bool_decide _).
  - unfold now. by apply (answer_pending_good b id).
  - set (b1 := set_pending _ _). assert (b_asking b1 = b_asking b) as E.
    { simpl. rewrite insert_delete_id by done. by destruct (b_asking b). }
    eapply good_trans; [|intros; by apply report_good]. by apply good_same.
Qed.

Lemma respond_good b id op body : bridge_ok b -> good b (respond id op body b).
Proof.
  intros Hok. unfold respond. destruct (is_closed b) eqn:Hc; [by apply good_refl|].
  destruct (encode _) as [line|error] eqn:He; [|by apply fail_good].
  destruct (_ <? length line) eqn:Hlen; ranges.
  - destruct (encode (MkFrame _ _ _ _ too_large_body)) as [line'|error] eqn:He'; [|by apply fail_good].
    destruct (_ <? length line') eqn:Hlen'; ranges; [by apply fail_good|].
    by eapply write_answer_good.
  - by eapply write_answer_good.
Qed.

Lemma answer_good b id op result : bridge_ok b -> good b (answer id op result b).
Proof. apply respond_good. Qed.

Lemma serve_good b frame : bridge_ok b -> good b (serve frame b).
Proof.
  intros Hok. unfold serve. destruct (request_of _ _) as [handler|]; [|by apply respond_good].
  destruct (request_handler _ _ _ _) as [actions result].
  apply good_trans with (acts actions (ticked b)); [by apply callback_good|]. intros Hok1.
  destruct result as [result|]; [by apply answer_good|by apply good_same].
Qed.

Lemma emit_good b op body : bridge_ok b -> good b (emit op body b).
Proof.
  unfold emit. generalize (events_of op (b_registry b)). intros handlers. revert b.
  induction handlers as [|h handlers IH]; intros b Hok; simpl; [by apply good_refl|].
  eapply good_trans; [by apply callback_good|auto].
Qed.

Lemma refuse_oversized_good b text : bridge_ok b -> good b (refuse_oversized text b).
Proof.
  intros Hok. unfold refuse_oversized, report_over_the_limit.
  destruct (from_str text); [|by apply report_good].
  repeat (destruct (_ && _) || destruct (bool_decide _));
    auto using report_good, respond_good, settle_good.
Qed.

Lemma dispatch_frame_good b frame : bridge_ok b -> good b (dispatch_frame frame b).
Proof.
  intros Hok. unfold dispatch_frame. destruct (accepts b frame); [|by apply report_good].
  repeat destruct (bool_decide _); auto using settle_good, emit_good, serve_good.
Qed.

Lemma dispatch_line_good b next : bridge_ok b -> good b (dispatch_line next b).
Proof.
  intros Hok. unfold dispatch_line, report_over_the_limit.
  destruct next as [bytes|]; [|by apply report_good].
  unfold dispatch_bytes. destruct bytes as [|x bytes]; [by apply good_refl|].
  destruct (_ || _); [by apply refuse_oversized_good|].
  destruct (from_str _); [|by apply report_good].
  destruct (is_well_formed _); [by apply dispatch_frame_good|by apply report_good].
Qed.

(** Lines dispatched in order until the bridge closes. *)
Fixpoint dispatch_all (next : list line) b : bridge :=
  match next with
  | [] => b
  | x :: next' => let b' := dispatch_line x b in if is_closed b' then b' else dispatch_all next' b'
  end.

Lemma dispatch_all_good b next : bridge_ok b -> good b (dispatch_all next b).
Proof.
  revert b. induction next as [|x next IH]; intros b Hok; simpl; [by apply good_refl|].
  pose proof (dispatch_line_good b x Hok) as Hg.
  destruct (is_closed _); [done|]. eapply good_trans; [exact Hg|auto].
Qed.

(** The scanner's loop dispatches what it would take. *)
Lemma dispatch_lines_run fuel l l' next b :
  take_lines fuel l = Some (l', next) -> is_closed b = false ->
  exists l1, dispatch_lines fuel l b = Some (dispatch_all next b, l1, is_closed (dispatch_all next b)) /\
    (is_closed (dispatch_all next b) = false -> l1 = l').
Proof.
  revert l l' next b. induction fuel as [|fuel IH]; intros l l' next b; [done|].
  cbn [take_lines dispatch_lines]. destruct (next_line l) as [[l0 [x|]]|]; simpl; [|by intros [= <- <-]; simpl; intros ->; eauto|done].
  destruct (take_lines fuel l0) as [[l1 more]|] eqn:E; [|done]. intros [= <- <-] Hc. simpl.
  destruct (is_closed (dispatch_line x b)) eqn:Hc'; [|by eapply IH].
  rewrite ?Hc'. by exists l0.
Qed.

(** What the scanner stands for between two reads. *)
Definition reader_ok b (f : framer) : Prop :=
  forall l, b_reader b = Some l -> stands_for (max_frame_bytes (b_settings b)) l f.

(** What a read of bytes comes to: its lines dispatched, and [after_read] told. *)
Definition read_lines (next : list line) b : bridge :=
  let b := dispatch_all next b in acts (after_read env (tick (b_clock b))) (ticked b).

Lemma read_bytes b l f chunk :
  b_reader b = Some l -> is_closed b = false -> chunk <> [] ->
  stands_for (max_frame_bytes (b_settings b)) l f ->
  let next := framer_read (max_frame_bytes (b_settings b)) f chunk in
  exists l', stands_for (max_frame_bytes (b_settings b)) l' next.1 /\
    read (Bytes chunk) b =
      Some (if is_closed (dispatch_all next.2 b) then reader_ended (read_lines next.2 b)
            else set_reader (Some l') (read_lines next.2 b)).
Proof.
  intros Hl Hc Hne Hst next.
  destruct (read_chunk_refines _ l f chunk Hst) as (l' & Hrun & Hst').
  exists l'. split; [done|]. unfold read. rewrite Hl, Hc. destruct chunk as [|x chunk]; [done|].
  unfold read_chunk in Hrun. destruct (push l (x :: chunk)) as [l0|]; [|done]. cbn [mbind option_bind] in *.
  destruct (dispatch_lines_run _ l0 l' _ b Hrun Hc) as (l1 & -> & Hl1). simpl.
  unfold next. destruct (is_closed (dispatch_all _ b)) eqn:Hc'; [done|]. by rewrite Hl1.
Qed.

Lemma read_lines_good b next : bridge_ok b -> good b (read_lines next b).
Proof.
  intros Hok. unfold read_lines. eapply good_trans; [by apply dispatch_all_good|].
  intros. by apply callback_good.
Qed.

Lemma set_reader_goes b b' l :
  good b b' -> bridge_ok (set_reader l b') /\ goes b (set_reader l b').
Proof.
  intros [[H1 H2 H3 H4 H5] [G1 G2 G3 G4 G5 G6 G7] _]. split; by split.
Qed.

Lemma reader_ended_goes b b' :
  good b b' -> bridge_ok (reader_ended b') /\ goes b (reader_ended b').
Proof.
  intros Hg. destruct (set_reader_goes b b' None Hg) as [Hok Hgo].
  destruct (eof_good _ Hok) as [Hok' Hgo' _]. split; [done|]. unfold reader_ended. by etrans.
Qed.

Lemma reader_ended_reader b f : reader_ok (reader_ended b) f.
Proof.
  intros l. unfold reader_ended, eof, end_. destruct (is_closed _); [done|].
  unfold finish. by rewrite fold_answers.
Qed.

Lemma read_goes b f result :
  bridge_ok b -> reader_ok b f ->
  exists b', read result b = Some b' /\ bridge_ok b' /\ goes b b' /\ exists f', reader_ok b' f'.
Proof.
  intros Hok Hr. destruct (b_reader b) as [l|] eqn:Hl;
    [|unfold read; rewrite Hl; exists b; split_and!; [done|done|reflexivity|by exists f]].
  assert (forall b1, good b b1 -> exists b', Some (reader_ended b1) = Some b' /\ bridge_ok b' /\ goes b b' /\
            exists f', reader_ok b' f') as Hend.
  { intros b1 Hg. eexists. split; [done|]. destruct (reader_ended_goes b b1 Hg).
    split_and!; [done..|]. exists f. apply reader_ended_reader. }
  destruct (is_closed b) eqn:Hc; [unfold read; rewrite Hl, Hc; by apply Hend, good_refl|].
  destruct result as [chunk| |error].
  - destruct chunk as [|x chunk]; [unfold read; rewrite Hl, Hc; by apply Hend, eof_good|].
    destruct (read_bytes b l f (x :: chunk) Hl Hc ltac:(done) (Hr l Hl)) as (l' & Hst & ->).
    set (next := (framer_read _ f _).2). pose proof (read_lines_good b next Hok) as Hg.
    destruct (is_closed (dispatch_all next b)); [by apply Hend|]. eexists. split; [done|].
    destruct (set_reader_goes _ _ (Some l') Hg) as [H1 H2]. split_and!; [done|done|].
    eexists. intros l1 [= <-]. simpl. rewrite (goes_settings _ _ (good_goes _ _ Hg)). exact Hst.
  - unfold read. rewrite Hl, Hc. by apply Hend, eof_good.
  - unfold read. rewrite Hl, Hc. by apply Hend, fail_good.
Qed.

Lemma task_ended_good b t result : bridge_ok b -> good b (task_ended t result b).
Proof.
  intros Hok. unfold task_ended. destruct (tasks (b_serving b) !! t) as [[id op]|]; [|by apply good_refl].
  eapply good_trans; [|intros; by apply answer_good]. by apply good_same.
Qed.

Lemma drop_request_good b n id until log b1 :
  bridge_ok b -> live (b_asking b) !! n = Some (id, until) -> (log.*1 = [n] \/ log = []) ->
  b_settings b1 = b_settings b -> b_life b1 = b_life b -> b_output b1 = b_output b ->
  b_reader b1 = b_reader b -> b_asking b1 = b_asking b -> good b (drop_request n id log b1).
Proof.
  intros [H1 H2 H3 H4 H5] Hl Hlog E1 E2 E3 E4 E5. unfold is_closed in *.
  split; [split|split|done]; unfold is_closed; simpl; rewrite ?E1, ?E2, ?E3, ?E5; auto; try done.
  - by eapply asking_drop.
  - intros Hc. destruct (H5 Hc) as [-> ?]. by rewrite delete_empty.
  - by eexists.
Qed.

Lemma poll_request_good b n : bridge_ok b -> good b (poll_request n b).
Proof.
  intros Hok. unfold poll_request. destruct (live (b_asking b) !! n) as [[id until]|] eqn:Hl;
    [|by apply good_refl].
  destruct (answer_on n _) as [ans|]; [by eapply drop_request_good; eauto|].
  destruct (bool_decide _); [|eapply drop_request_good; eauto; by left].
  unfold now. destruct (until <=? _)%Z; [|by apply good_same].
  by eapply (drop_request_good b); eauto.
Qed.

Lemma write_next_good b error : bridge_ok b -> good b (write_next error b).
Proof.
  intros Hok. unfold write_next. destruct (writer (b_output b)); try by apply good_refl.
  assert (forall w wr, written (b_output b) <= w <= length (queued (b_output b)) ->
    good b (set_output (Output (sending (b_output b)) (queued (b_output b)) w wr) b)) as Hset.
  { intros w wr Hw. destruct Hok as [H1 H2 H3 H4 H5]. split; split; simpl; auto; try lia. }
  destruct (queued (b_output b) !! written (b_output b)) as [line|] eqn:Hq.
  - apply lookup_lt_Some in Hq. destruct error as [error|]; [|apply Hset; lia].
    eapply good_trans; [apply (Hset (written (b_output b)) Broken); lia|]. intros. by apply fail_good.
  - pose proof (ok_written b Hok). destruct (sending (b_output b)); [by apply good_refl|].
    apply Hset. lia.
Qed.

Lemma step_goes b f h :
  bridge_ok b -> reader_ok b f ->
  exists b', step b h = Some b' /\ bridge_ok b' /\ goes b b' /\ exists f', reader_ok b' f'.
Proof.
  intros Hok Hr.
  assert (forall b', good b b' -> exists b1, Some b' = Some b1 /\ bridge_ok b1 /\ goes b b1 /\
            exists f', reader_ok b1 f') as Hgood.
  { intros b' [H1 H2 H3]. eexists. split; [done|]. split_and!; [done|done|]. exists f.
    intros l. rewrite H3, (goes_settings _ _ H2). apply Hr. }
  destruct h as [a|result|t result|n|n|error]; cbn [step].
  - by apply Hgood, act_good.
  - by eapply read_goes.
  - by apply Hgood, task_ended_good.
  - by apply Hgood, poll_request_good.
  - destruct (live (b_asking b) !! n) as [[id until]|] eqn:Hl; [|by apply Hgood, good_refl].
    apply Hgood. eapply drop_request_good; eauto.
  - by apply Hgood, write_next_good.
Qed.

Lemma steps_goes b f hs :
  bridge_ok b -> reader_ok b f ->
  exists b', steps b hs = Some b' /\ bridge_ok b' /\ goes b b' /\ exists f', reader_ok b' f'.
Proof.
  revert b f. induction hs as [|h hs IH]; intros b f Hok Hr; simpl;
    [exists b; split_and!; [done|done|reflexivity|by exists f]|].
  destruct (step_goes b f h Hok Hr) as (b1 & -> & Hok1 & Hgo1 & f1 & Hr1). simpl.
  destruct (IH b1 f1 Hok1 Hr1) as (b2 & -> & Hok2 & Hgo2 & Hf2). exists b2.
  split_and!; [done|done|by etrans|done].
Qed.

Lemma new_bridge_ok settings start : bridge_ok (new settings start) /\ reader_ok (new settings start) (Framer [] false).
Proof.
  split; [|intros l [= <-]; apply new_stands_for].
  split; simpl; try done.
  - split; simpl; try done; constructor.
  - exists [], []. split_and!; [done|constructor|constructor].
Qed.

(** ** What holds of a bridge *)

Lemma sorted_nodup (ns : list Z) : StronglySorted Z.lt ns -> NoDup ns.
Proof.
  induction 1 as [|n ns _ IH Hall]; constructor; [|done].
  intros Hin. rewrite Forall_forall in Hall. apply Hall in Hin. lia.
Qed.

Lemma reached settings start hs :
  exists b, steps (new settings start) hs = Some b /\ bridge_ok b /\ goes (new settings start) b /\
    exists f, reader_ok b f.
Proof. destruct (new_bridge_ok settings start). by eapply steps_goes. Qed.

Lemma reached_ok settings start hs b :
  steps (new settings start) hs = Some b ->
  bridge_ok b /\ b_settings b = settings /\ exists f, reader_ok b f.
Proof.
  destruct (reached settings start hs) as (b' & -> & Hok & Hgo & Hr). intros [= <-].
  split_and!; [done|apply (goes_settings _ _ Hgo)|done].
Qed.

(** C3: whatever happens on a bridge's thread, in any order, every request ends once: its
    channel is answered at most once and its future gives one outcome; a future not done has
    its answer already, or the request is on the waiting list of a bridge that is open. Once
    the bridge closed nothing waits. The reader's loop always ends, and no index of it is out
    of range. *)
Theorem requests_end_once settings start hs :
  exists b, steps (new settings start) hs = Some b /\
    NoDup (answers (b_asking b)).*1 /\ NoDup (outcomes (b_asking b)).*1 /\
    (forall n id until, live (b_asking b) !! n = Some (id, until) ->
       (n ∉ (outcomes (b_asking b)).*1) /\
       (n ∈ (answers (b_asking b)).*1 \/
        (is_closed b = false /\ exists p, pending (b_asking b) !! id = Some p /\ p_answer p = n))) /\
    (forall id p, pending (b_asking b) !! id = Some p ->
       p_answer p ∉ (answers (b_asking b)).*1) /\
    (is_closed b = true -> pending (b_asking b) = ∅).
Proof.
  destruct (reached settings start hs) as (b & -> & [[H1 H2 H3 H4 H5 H6 H7 H8 H9 H10] _ _ _ Hc] & _).
  exists b. split_and!; auto; [|intros Hc'; by destruct (Hc Hc')].
  intros n id until Hl. destruct (H6 n id until Hl) as (_ & Ho & _ & Hp & Ha). split; [done|].
  destruct Ha as [Ha|[p Hpend]]; [by left|]. right. split; [|by eauto].
  destruct (is_closed b) eqn:E; [|done]. destruct (Hc eq_refl) as [E' _].
  by rewrite E', lookup_empty in Hpend.
Qed.

Lemma frames_of_lines r max lines frames numbers :
  frames_of r max lines frames numbers ->
  Forall2 (line_of max) lines frames /\
  omap (fun f => if bool_decide (is_answer f) then None else Some (fr_id f)) frames =
    minted r <$> numbers.
Proof.
  revert frames numbers. induction lines as [|line lines IH]; intros [|f frames] numbers Hf; try done.
  - simpl in Hf. by subst.
  - destruct Hf as [Hl [[Ha Hf]|(n & ns & -> & [Hk Hid] & Hf)]]; destruct (IH _ _ Hf) as [H1 H2];
      (split; [by constructor|]); simpl.
    + by rewrite bool_decide_eq_true_2.
    + rewrite bool_decide_eq_false_2; [rewrite Hid; f_equal; exact H2|].
      unfold is_answer. by destruct Hk as [->| ->].
Qed.

(** All a bridge writes is frames of its protocol, one a line and none over the limit;
    the ids of its requests and events are its own and no two are the same; and the writer
    has written the first of the lines queued, in order. *)
Theorem lines_are_frames_within_the_limit settings start hs b :
  steps (new settings start) hs = Some b ->
  exists frames numbers,
    Forall2 (fun line frame => v frame = PROTOCOL_VERSION /\
       exists bytes, to_vec frame = inl bytes /\ line = bytes ++ [lf] /\
         length bytes <= max_frame_bytes settings) (queued (b_output b)) frames /\
    omap (fun f => if bool_decide (kind f = "res"%string) then None else Some (fr_id f)) frames =
      minted (role settings) <$> numbers /\
    Forall (fun n => 1 <= n)%Z numbers /\ StronglySorted Z.lt numbers /\
    NoDup (minted (role settings) <$> numbers) /\
    written (b_output b) <= length (queued (b_output b)).
Proof.
  intros Hs. destruct (reached_ok _ _ _ _ Hs) as ([_ (fs & ns & Hf & Hb & Hsort) Hw _ _] & <- & _).
  destruct (frames_of_lines _ _ _ _ _ Hf) as [H1 H2]. exists fs, ns.
  split_and!; try done.
  - eapply Forall_impl; [exact Hb|simpl; lia].
  - apply NoDup_fmap_2_strong; [|by apply sorted_nodup].
    intros n m Hn Hm. rewrite Forall_forall in Hb. apply Hb in Hn, Hm. apply minted_inj; lia.
Qed.

(** A bridge ends once: closed, it stays closed for the reason it first ended for,
    whatever follows (a failed write, the end of the input, a close), and from then on no
    frame is queued, no request is answered and none waits. *)
Theorem bridge_ends_once settings start hs b :
  steps (new settings start) hs = Some b -> is_closed b = true ->
  (exists why, ended (b_life b) = Some why /\
     terminal (b_life b) = Some (match why with Failed error => error | _ => Eof end)) /\
  forall more, exists b', steps b more = Some b' /\
    is_closed b' = true /\ b_life b' = b_life b /\
    queued (b_output b') = queued (b_output b) /\
    answers (b_asking b') = answers (b_asking b) /\ pending (b_asking b') = ∅.
Proof.
  intros Hs Hc. destruct (reached_ok _ _ _ _ Hs) as (Hok & _ & f & Hr).
  split; [apply (ok_closed b Hok Hc)|]. intros more.
  destruct (steps_goes b f more Hok Hr) as (b' & E & Hok' & Hgo & _). exists b'.
  destruct (goes_closed _ _ Hgo Hc) as (E1 & E2 & E3).
  assert (is_closed b' = true) as Hc' by (unfold is_closed; by rewrite E1).
  split_and!; try done. apply (ok_closed b' Hok' Hc').
Qed.

(** An answer of the peer's settles the request it names and no other: with its body, or
    as past its deadline where it comes after it; one that names another op is told of and
    leaves the request waiting; one for no request waiting changes nothing. *)
Theorem answer_settles_its_request settings start hs b bytes text frame :
  steps (new settings start) hs = Some b ->
  bytes <> [] -> length bytes <= max_frame_bytes settings ->
  from_utf8 bytes = Some text -> from_str text = inl frame -> is_well_formed frame = true ->
  kind frame = "res"%string -> starts_with (fr_id frame) (prefix (role settings)) = true ->
  let b' := dispatch_bytes bytes b in
  match pending (b_asking b) !! fr_id frame with
  | None => b' = b
  | Some p =>
      if decide (p_op p = Frames.op frame) then
        let t := (time (b_clock b) + lag env (tick (b_clock b)))%Z in
        answers (b_asking b') = answers (b_asking b) ++
          [(p_answer p, inl (if (p_until p <=? t)%Z then refusal DEADLINE else body frame))] /\
        pending (b_asking b') = delete (fr_id frame) (pending (b_asking b)) /\
        b_life b' = b_life b /\ b_output b' = b_output b /\ b_heard b' = b_heard b
      else
        exists b1, b' = acts (error_handler env (tick (b_clock b))
                          (MalformedFrame (OpMismatch (fr_id frame) (Frames.op frame) (p_op p)))) (ticked b1) /\
          b_asking b1 = b_asking b /\ b_life b1 = b_life b /\ b_output b1 = b_output b
  end.
Proof.
  intros Hs Hne Hlen Htext Hframe Hwf Hkind Hid. destruct (reached_ok _ _ _ _ Hs) as (_ & E & _).
  unfold dispatch_bytes. destruct bytes as [|x bytes]; [done|].
  rewrite (from_utf8_lossy_valid _ _ Htext), <- (encode_from_utf8 _ _ Htext), E.
  settle_test. cbn [orb]. rewrite Hframe, Hwf. unfold dispatch_frame, accepts.
  rewrite !bool_decide_eq_true_2 by done. rewrite E, Hid. unfold settle.
  destruct (pending (b_asking b) !! fr_id frame) as [p|] eqn:Hp; [|done].
  destruct (decide (p_op p = Frames.op frame)) as [Hop|Hop].
  - rewrite bool_decide_eq_true_2 by done. by split_and!.
  - rewrite bool_decide_eq_false_2 by done. unfold report. eexists. split; [done|].
    split_and!; try done. simpl. rewrite insert_delete_id by done. by destruct (b_asking b).
Qed.

(** What a failed bridge says. *)
Lemma fail_ended b error :
  bridge_ok b -> is_closed b = false ->
  is_closed (fail error b) = true /\ ended (b_life (fail error b)) = Some (Failed error) /\
  queued (b_output (fail error b)) = queued (b_output b).
Proof.
  intros Hok Hc. unfold fail. rewrite Hc. set (b1 := set_ended _ _).
  assert (good b b1) as [Hok1 Hg1 _] by by apply finish_good.
  assert (is_closed b1 = true /\ ended (b_life b1) = Some (Failed error) /\
          queued (b_output b1) = queued (b_output b)) as (Hc1 & He1 & Hq1)
    by (unfold b1, finish; by rewrite fold_answers).
  clearbody b1. destruct (report_good b1 error Hok1) as [Hok2 Hgo2 _].
  destruct (goes_closed _ _ Hgo2 Hc1) as (E1 & E2 & _).
  set (b3 := set_heard _ _).
  assert (is_closed b3 = true) as Hc3 by (unfold is_closed; simpl; rewrite E1; exact Hc1).
  assert (bridge_ok b3) as Hok3.
  { refine (good_ok _ _ (good_same (end_output (report error b1)) b3 _ _ _ _ _ _)); try done.
    apply end_output_good; [done|]. unfold is_closed. by rewrite E1. }
  destruct (callback_good b3 (fatal_handler env (tick (b_clock b3)) error) Hok3) as [_ Hgo4 _].
  destruct (goes_closed _ _ Hgo4 Hc3) as (E3 & E4 & _).
  split_and!.
  - eapply goes_stays_closed; [exact Hgo4|done].
  - change (ended (b_life (acts (fatal_handler env (tick (b_clock b3)) error) (ticked b3))) =
      Some (Failed error)). rewrite E3. simpl. rewrite E1. exact He1.
  - change (queued (b_output (acts (fatal_handler env (tick (b_clock b3)) error) (ticked b3))) =
      queued (b_output b)). rewrite E4. simpl. rewrite E2. exact Hq1.
Qed.

(** A request taken is answered, or the bridge fails and says so: at its handler's end
    one frame is queued, that answers it by its id and op with the handler's body or words,
    or as too large where those do not fit; only where not even that fits, or the frame
    cannot be encoded, is nothing queued and the bridge failed. *)
Theorem request_is_answered_or_bridge_fails settings start hs b id op result :
  steps (new settings start) hs = Some b -> is_closed b = false ->
  let b' := answer id op result b in
  let full := MkFrame PROTOCOL_VERSION id "res" op
                (match result with inl body => body | inr words => refusal words end) in
  let short := MkFrame PROTOCOL_VERSION id "res" op too_large_body in
  let fits frame line := to_vec frame = inl line /\ length line <= max_frame_bytes settings in
  let over frame := exists line, to_vec frame = inl line /\ max_frame_bytes settings < length line in
  (exists frame line, fits frame line /\ (frame = full \/ frame = short /\ over full) /\
     b' = write line b /\
     queued (b_output b') = queued (b_output b) ++ [line ++ [lf]] /\ is_closed b' = false) \/
  (exists error, (over full /\ over short /\ error = MalformedFrame (CannotFit id) \/
       exists words, error = MalformedFrame (NotEncoded words)) /\
     is_closed b' = true /\ ended (b_life b') = Some (Failed error) /\
     queued (b_output b') = queued (b_output b)).
Proof.
  intros Hs Hc. destruct (reached_ok _ _ _ _ Hs) as (Hok & E & _).
  unfold answer, respond. rewrite Hc, E.
  set (full := MkFrame _ _ _ _ (match result with inl _ => _ | inr _ => _ end)).
  set (short := MkFrame _ _ _ _ too_large_body). cbv zeta.
  assert (forall line, queued (b_output (write line b)) = queued (b_output b) ++ [line ++ [lf]] /\
            is_closed (write line b) = false) as Hwrite
    by (intros line; by rewrite write_open).
  unfold encode. destruct (to_vec full) as [line|words] eqn:Hfull.
  - destruct (_ <? length line) eqn:Hlen; ranges.
    + destruct (to_vec short) as [line'|words] eqn:Hshort.
      * destruct (_ <? length line') eqn:Hlen'; ranges.
        -- right. destruct (fail_ended b (MalformedFrame (CannotFit id)) Hok Hc) as (? & ? & ?).
           eexists. split_and!; [left; split_and!; eauto|done..].
        -- left. destruct (Hwrite line'). exists short, line'. split_and!; eauto.
      * right. destruct (fail_ended b (MalformedFrame (NotEncoded words)) Hok Hc) as (? & ? & ?).
        eexists. split_and!; [right; eauto|done..].
    + left. destruct (Hwrite line). exists full, line. split_and!; eauto.
  - right. destruct (fail_ended b (MalformedFrame (NotEncoded words)) Hok Hc) as (? & ? & ?).
    eexists. split_and!; [right; eauto|done..].
Qed.

(** ** The input, from its start *)

Definition chunks_of (hs : list happening) : list (list byte) :=
  omap (fun h => match h with Received (Bytes chunk) => Some chunk | _ => None end) hs.

Lemma steps_app b hs more : steps b (hs ++ more) = b' ← steps b hs; steps b' more.
Proof. revert b. induction hs as [|h hs IH]; intros b; simpl; [done|]. by destruct (step b h); simpl. Qed.

Lemma framer_reads_snoc max f chunks chunk :
  (framer_reads max f (chunks ++ [chunk])).1 = (framer_read max (framer_reads max f chunks).1 chunk).1.
Proof.
  revert f. induction chunks as [|c chunks IH]; intros f; simpl.
  - by destruct (framer_read max f chunk).
  - destruct (framer_read max f c) as [f1 out1]. specialize (IH f1).
    destruct (framer_reads max f1 (chunks ++ [chunk])) as [f2 out2].
    destruct (framer_reads max f1 chunks) as [f3 out3]. exact IH.
Qed.

(** What is no read of bytes leaves the reader where it is, or closes the bridge. *)
Lemma step_reader b f h b' :
  bridge_ok b -> reader_ok b f -> step b h = Some b' -> is_closed b' = false ->
  chunks_of [h] = [] -> b_reader b' = b_reader b.
Proof.
  intros Hok Hr Hs Hc Hn. destruct h as [a|result|t result|n|n|error]; simpl in Hs;
    try (injection Hs as <-).
  - by apply act_good.
  - destruct result as [chunk| |error]; [done|..]; unfold read in Hs;
      (destruct (b_reader b) eqn:Hl; [|by injection Hs as <-]);
      (destruct (is_closed b); [|]); injection Hs as <-;
      by rewrite (end_closed _ Input : is_closed (reader_ended _) = true) in Hc.
  - by apply task_ended_good.
  - by apply poll_request_good.
  - destruct (live (b_asking b) !! n) as [[id until]|] eqn:Hl; injection Hs as <-; [|done].
    eapply (good_reader b). by eapply drop_request_good; eauto.
  - by apply write_next_good.
Qed.

Lemma reader_follows settings start hs b :
  steps (new settings start) hs = Some b -> is_closed b = false ->
  exists l, b_reader b = Some l /\
    stands_for (max_frame_bytes settings) l
      (framer_reads (max_frame_bytes settings) (Framer [] false) (chunks_of hs)).1.
Proof.
  revert b. induction hs as [|h hs IH] using rev_ind; intros b Hs Hc.
  { injection Hs as <-. eexists. split; [done|]. apply new_stands_for. }
  rewrite steps_app in Hs. destruct (steps (new settings start) hs) as [b0|] eqn:Hs0; [|done].
  simpl in Hs. destruct (step b0 h) as [b1|] eqn:Hh; [|done]. injection Hs as ->.
  destruct (reached_ok _ _ _ _ Hs0) as (Hok & E & f & Hr).
  assert (is_closed b0 = false) as Hc0.
  { destruct (step_goes b0 f h Hok Hr) as (b' & E' & _ & Hgo & _). rewrite Hh in E'.
    injection E' as <-. destruct (is_closed b0) eqn:Hc0; [|done].
    by rewrite (goes_stays_closed _ _ Hgo Hc0) in Hc. }
  destruct (IH b0 eq_refl Hc0) as (l & Hl & Hst).
  assert (chunks_of (hs ++ [h]) = chunks_of hs ++ chunks_of [h]) as -> by apply omap_app.
  destruct (chunks_of [h]) as [|chunk more] eqn:Hch.
  { rewrite app_nil_r, (step_reader _ _ _ _ Hok Hr Hh Hc Hch). eauto. }
  destruct h as [|[chunk'| |]| | | |]; try done. injection Hch as -> <-.
  rewrite framer_reads_snoc. simpl in Hh. rewrite <- E in Hst |- *.
  destruct chunk as [|x chunk].
  { unfold read in Hh. rewrite Hl, Hc0 in Hh. injection Hh as <-.
    by rewrite (end_closed _ Input : is_closed (reader_ended _) = true) in Hc. }
  destruct (read_bytes b0 l _ (x :: chunk) Hl Hc0 ltac:(done) Hst) as (l' & Hst' & Hread).
  rewrite Hread in Hh. injection Hh as <-.
  destruct (is_closed (dispatch_all _ b0));
    [by rewrite (end_closed _ Input : is_closed (reader_ended _) = true) in Hc|].
  by exists l'.
Qed.

(** The reader hears the peer as it wrote: each read dispatches the lines it ends, one
    after another and before the next read, those a framing of the whole input so far has
    there; a line that closes the bridge is the last, and the reader ends with it; and
    [after_read] is told once the lines are dispatched. *)
Theorem frames_are_dispatched_in_order settings start hs b chunk :
  steps (new settings start) hs = Some b -> is_closed b = false -> chunk <> [] ->
  let max := max_frame_bytes settings in
  let heard := (framer_reads max (Framer [] false) (chunks_of hs)).1 in
  let next := (framer_read max heard chunk).2 in
  exists b', step b (Received (Bytes chunk)) = Some b' /\
    if is_closed (dispatch_all next b)
    then b' = reader_ended (read_lines next b)
    else exists l, b' = set_reader (Some l) (read_lines next b) /\
      stands_for max l (framer_reads max (Framer [] false) (chunks_of hs ++ [chunk])).1.
Proof.
  intros Hs Hc Hne max heard next. destruct (reached_ok _ _ _ _ Hs) as (Hok & E & _).
  destruct (reader_follows _ _ _ _ Hs Hc) as (l & Hl & Hst).
  destruct (read_bytes b l heard chunk Hl Hc Hne) as (l' & Hst' & Hread); [by rewrite E|].
  rewrite E in Hread, Hst'. simpl. rewrite Hread. eexists. split; [done|].
  fold max. fold next. destruct (is_closed (dispatch_all next b)); [done|].
  exists l'. split; [done|]. by rewrite framer_reads_snoc.
Qed.
End Bridge.

(** ** Witnesses *)

(** A host whose handlers echo and do nothing else. *)
Definition quiet : environment (H := text_json) :=
  {| lag := fun _ => 0%Z; clock_end := (2 ^ 100)%Z;
     request_handler := fun _ _ body => ([], Some (inl body));
     event_handler := fun _ _ _ => [];
     error_handler := fun _ _ => [];
     fatal_handler := fun _ _ => [];
     after_read := fun _ => [] |}.

Definition sample_settings : Settings := MkSettings Daemon 2000 30000000000.

Definition sample_asked : list (happening (H := text_json)) :=
  [Acted (Request "ping" "x"%string None); Acted (Event "seen" "y"%string)].

Definition sample_answer : Frame (H := text_json) :=
  MkFrame PROTOCOL_VERSION "n-1" "res" "ping" "x"%string.

Definition sample_line : list byte := match to_vec sample_answer with inl line => line | inr _ => [] end.

Lemma lines_are_frames_within_the_limit_witness :
  exists b, steps quiet (new sample_settings 0) sample_asked = Some b /\
  exists frames numbers,
    Forall2 (fun line frame => v frame = PROTOCOL_VERSION /\
       exists bytes, to_vec frame = inl bytes /\ line = bytes ++ [lf] /\
         length bytes <= max_frame_bytes sample_settings) (queued (b_output b)) frames /\
    omap (fun f => if bool_decide (kind f = "res"%string) then None else Some (fr_id f)) frames =
      minted (role sample_settings) <$> numbers /\
    Forall (fun n => 1 <= n)%Z numbers /\ StronglySorted Z.lt numbers /\
    NoDup (minted (role sample_settings) <$> numbers) /\
    written (b_output b) <= length (queued (b_output b)).
Proof.
  eexists. split; [vm_compute; reflexivity|].
  apply (lines_are_frames_within_the_limit quiet sample_settings 0 sample_asked).
  vm_compute. reflexivity.
Defined.

Lemma bridge_ends_once_witness :
  exists b, steps quiet (new sample_settings 0) (sample_asked ++ [Acted Close]) = Some b /\
  (exists why, ended (b_life b) = Some why /\
     terminal (b_life b) = Some (match why with Failed error => error | _ => Eof end)) /\
  forall more, exists b', steps quiet b more = Some b' /\
    is_closed b' = true /\ b_life b' = b_life b /\
    queued (b_output b') = queued (b_output b) /\
    answers (b_asking b') = answers (b_asking b) /\ pending (b_asking b') = ∅.
Proof.
  eexists. split; [vm_compute; reflexivity|].
  apply (bridge_ends_once quiet sample_settings 0 (sample_asked ++ [Acted Close]));
    vm_compute; reflexivity.
Defined.

Lemma answer_settles_its_request_witness :
  exists b p, steps quiet (new sample_settings 0) sample_asked = Some b /\
  pending (b_asking b) !! fr_id sample_answer = Some p /\
  let b' := dispatch_bytes quiet sample_line b in
  match pending (b_asking b) !! fr_id sample_answer with
  | None => b' = b
  | Some p =>
      if decide (p_op p = Frames.op sample_answer) then
        let t := (time (b_clock b) + lag quiet (tick (b_clock b)))%Z in
        answers (b_asking b') = answers (b_asking b) ++
          [(p_answer p, inl (if (p_until p <=? t)%Z then refusal DEADLINE else body sample_answer))] /\
        pending (b_asking b') = delete (fr_id sample_answer) (pending (b_asking b)) /\
        b_life b' = b_life b /\ b_output b' = b_output b /\ b_heard b' = b_heard b
      else
        exists b1, b' = acts quiet (error_handler quiet (tick (b_clock b))
                          (MalformedFrame (OpMismatch (fr_id sample_answer) (Frames.op sample_answer)
                             (p_op p)))) (ticked b1) /\
          b_asking b1 = b_asking b /\ b_life b1 = b_life b /\ b_output b1 = b_output b
  end.
Proof.
  do 2 eexists. split; [vm_compute; reflexivity|]. split; [vm_compute; reflexivity|].
  eapply (answer_settles_its_request quiet sample_settings 0 sample_asked _ sample_line).
  - vm_compute. reflexivity.
  - discriminate.
  - apply Nat.leb_le. vm_compute. reflexivity.
  - vm_compute. reflexivity.
  - vm_compute. reflexivity.
  - reflexivity.
  - reflexivity.
  - reflexivity.
Defined.

Lemma request_is_answered_or_bridge_fails_witness :
  let b := new sample_settings 0 in
  let b' := answer quiet "r-1" "ping" (inl "x"%string) b in
  let full := MkFrame PROTOCOL_VERSION "r-1" "res" "ping"
                (match inl "x"%string : Value + string with inl body => body | inr words => refusal words end) in
  let short := MkFrame PROTOCOL_VERSION "r-1" "res" "ping" too_large_body in
  let fits frame line := to_vec frame = inl line /\ length line <= max_frame_bytes sample_settings in
  let over frame := exists line, to_vec frame = inl line /\ max_frame_bytes sample_settings < length line in
  (exists frame line, fits frame line /\ (frame = full \/ frame = short /\ over full) /\
     b' = write line b /\
     queued (b_output b') = queued (b_output b) ++ [line ++ [lf]] /\ is_closed b' = false) \/
  (exists error, (over full /\ over short /\ error = MalformedFrame (CannotFit "r-1") \/
       exists words, error = MalformedFrame (NotEncoded words)) /\
     is_closed b' = true /\ ended (b_life b') = Some (Failed error) /\
     queued (b_output b') = queued (b_output b)).
Proof.
  apply (request_is_answered_or_bridge_fails quiet sample_settings 0 []); reflexivity.
Defined.

Lemma frames_are_dispatched_in_order_witness :
  let b := new sample_settings 0 in
  let max := max_frame_bytes sample_settings in
  let heard := (framer_reads max (Framer [] false) (chunks_of (H := text_json) [])).1 in
  let next := (framer_read max heard ["a"; "010"; "b"]%byte).2 in
  exists b', step quiet b (Received (Bytes ["a"; "010"; "b"]%byte)) = Some b' /\
    if is_closed (dispatch_all quiet next b)
    then b' = reader_ended (read_lines quiet next b)
    else exists l, b' = set_reader (Some l) (read_lines quiet next b) /\
      stands_for max l (framer_reads max (Framer [] false)
        (chunks_of (H := text_json) [] ++ [["a"; "010"; "b"]%byte])).1.
Proof.
  apply (frames_are_dispatched_in_order quiet sample_settings 0 []);
    [reflexivity|reflexivity|discriminate].
Defined.
