(* ===== verification/BridgePair.v ===== *)
(** * Two ends of a bridge

    What one end writes the other reads: a request goes out as a line, the peer's handler
    is called with its body, and the answer comes back to the request that asked, through
    both ends' limits, framing and names ([Bridge]). *)
From S2P Require Import Prelude Utf8 Lines Frames Bridge.
#[local] Open Scope nat_scope.

Section Pair.
Context `{LawfulSerde}.

(** A request between two ends: made by the one, its line read by the other, whose last
    line is read by the one in turn; the bridges after each. *)
Definition exchange (envA envB : environment) (op : string) (body : Value) (deadline : option Z)
    (a b : bridge) : option (bridge * bridge * bridge) :=
  a1 ← step envA a (Acted (Request op body deadline));
  asked ← last (queued (b_output a1));
  b1 ← step envB b (Received (Bytes asked));
  answered ← last (queued (b_output b1));
  a2 ← step envA a1 (Received (Bytes answered));
  Some (a1, b1, a2).

(** What a handler's end is answered with. *)
Definition answer_body (result : Value + string) : Value :=
  match result with inl body => body | inr words => refusal words end.

(** The time at the next look at a bridge's clock, and when a request that is made at it is past its
    deadline: its own, or the bridge's; thirty years on, where the clock does not go that far. *)
Definition next_look (env : environment) (b : bridge) : Z := (time (b_clock b) + lag env (tick (b_clock b)))%Z.
Definition past_at (env : environment) (deadline : option Z) (b : bridge) : Z :=
  let wait := default (default_deadline (b_settings b)) deadline in
  (if next_look env b + wait <=? clock_end env then next_look env b + wait
   else next_look env b + 30 * 365 * 24 * 60 * 60 * 1000000000)%Z.

(** A line of this kind, read where the input is at a line's start. *)
Lemma framer_read_line max line :
  Forall (fun b => is_lf b = false /\ b <> cr) line ->
  framer_read max (Framer [] false) (line ++ [lf]) = (Framer [] false, [Complete line]).
Proof.
  intros Hl. assert (Forall (fun b => is_lf b = false) line) as Hlf.
  { eapply Forall_impl; [exact Hl|]. by intros b []. }
  unfold framer_read, framer_settle, whole_lines. simpl.
  rewrite (split_lines_app_lf line [] Hlf). simpl. f_equal. f_equal. f_equal.
  unfold strip_cr. destruct (last line) as [b|] eqn:E; [|done].
  apply last_Some_elem_of in E. rewrite Forall_forall in Hl. destruct (Hl b E) as [_ Hb].
  destruct (Byte.eqb b cr) eqn:Hcr; [|done]. by apply Byte.byte_dec_bl in Hcr.
Qed.

(** A frame of the peer's, read whole. *)
Lemma dispatch_peer_frame env b frame line :
  to_vec frame = inl line -> length line <= max_frame_bytes (b_settings b) ->
  is_well_formed frame = true -> accepts b frame = true ->
  dispatch_all env [Complete line] b = dispatch_frame env frame b.
Proof.
  intros Hline Hlen Hwf Hacc. destruct (to_vec_read_back _ _ Hline) as (text & Htext & Hread).
  destruct (to_vec_one_line _ _ Hline) as [Hne _]. cbn [dispatch_all dispatch_line].
  unfold dispatch_bytes. destruct line as [|x line]; [done|].
  rewrite (from_utf8_lossy_valid _ _ Htext), <- (encode_from_utf8 _ _ Htext).
  settle_test. cbn [orb]. rewrite Hread, Hwf. by destruct (is_closed _).
Qed.

Lemma well_formed v id kind op body :
  v = PROTOCOL_VERSION -> id <> ""%string -> kind ∈ ["req"; "res"; "evt"]%string ->
  is_well_formed (MkFrame v id kind op body) = true.
Proof.
  intros -> Hid Hk. unfold is_well_formed. simpl.
  rewrite bool_decide_eq_false_2, bool_decide_eq_true_2 by done. done.
Qed.

(** A request made by an open bridge. *)
Lemma request_run env b op body deadline line :
  bridge_ok b -> is_closed b = false ->
  let id := minted (role (b_settings b)) (next_id (b_asking b) + 1) in
  let n := next_answer (b_asking b) in
  to_vec (MkFrame PROTOCOL_VERSION id "req" op body) = inl line ->
  length line <= max_frame_bytes (b_settings b) ->
  let until := past_at env deadline b in let b' := request env op body deadline b in
    pending (b_asking b') !! id = Some (MkPending op until n) /\
    live (b_asking b') !! n = Some (id, until) /\
    answers (b_asking b') = answers (b_asking b) /\
    queued (b_output b') = queued (b_output b) ++ [line ++ [lf]] /\
    b_life b' = b_life b /\ b_settings b' = b_settings b /\ b_reader b' = b_reader b.
Proof.
  intros Hok Hc id n Hline Hlen until b'. unfold b'. clear b'. destruct (ok_open b Hok Hc) as (_ & _ & Hs).
  unfold request, send. rewrite Hc. simpl. unfold encode, Bridge.encode. fold id. rewrite Hline.
  settle_test. unfold write. simpl. rewrite Hs. simpl.
  split_and!; try done; by rewrite lookup_insert_eq.
Qed.

(** A read of one line of the peer's, where nothing is done after a read. *)
Lemma read_line env b l line frame :
  b_reader b = Some l -> is_closed b = false ->
  stands_for (max_frame_bytes (b_settings b)) l (Framer [] false) ->
  to_vec frame = inl line -> length line <= max_frame_bytes (b_settings b) ->
  is_well_formed frame = true -> accepts b frame = true ->
  (forall t, after_read env t = []) ->
  is_closed (dispatch_frame env frame b) = false ->
  exists l', step env b (Received (Bytes (line ++ [lf]))) =
    Some (set_reader (Some l') (ticked (dispatch_frame env frame b))).
Proof.
  intros Hl Hc Hst Hline Hlen Hwf Hacc Hafter Hopen.
  destruct (to_vec_one_line _ _ Hline) as [_ Hone].
  destruct (read_bytes env b l _ (line ++ [lf]) Hl Hc ltac:(by destruct line) Hst)
    as (l' & _ & Hread).
  rewrite (framer_read_line _ _ Hone) in Hread. simpl snd in Hread.
  unfold read_lines in Hread. rewrite (dispatch_peer_frame env b frame line) in Hread by done.
  rewrite Hopen, Hafter in Hread. exists l'. exact Hread.
Qed.

(** The peer's request, whose handler is done at its first poll. *)
Lemma serve_line env b l n op body handler result line answered :
  bridge_ok b -> b_reader b = Some l -> is_closed b = false ->
  stands_for (max_frame_bytes (b_settings b)) l (Framer [] false) ->
  let id := minted (peer (role (b_settings b))) n in
  to_vec (MkFrame PROTOCOL_VERSION id "req" op body) = inl line ->
  to_vec (MkFrame PROTOCOL_VERSION id "res" op (answer_body result)) = inl answered ->
  length line <= max_frame_bytes (b_settings b) ->
  length answered <= max_frame_bytes (b_settings b) ->
  (forall t, after_read env t = []) -> request_of op (b_registry b) = Some handler ->
  (forall t, request_handler env handler t body = ([], Some result)) ->
  exists b', step env b (Received (Bytes (line ++ [lf]))) = Some b' /\
    queued (b_output b') = queued (b_output b) ++ [answered ++ [lf]] /\ b_heard b' = b_heard b.
Proof.
  intros Hok Hl Hc Hst id Hline Hanswered Hlen Hlen' Hafter Hreg Hhandler.
  destruct (ok_open b Hok Hc) as (_ & _ & Hs).
  set (frame := MkFrame PROTOCOL_VERSION id "req" op body) in *.
  assert (accepts b frame = true) as Hacc by (unfold accepts; simpl; apply minted_own).
  assert (dispatch_frame env frame b = write answered (ticked b)) as Hserve.
  { unfold dispatch_frame. rewrite Hacc. unfold serve. simpl. rewrite Hreg, Hhandler. simpl.
    unfold answer, respond. simpl. change (is_closed (ticked b)) with (is_closed b). rewrite Hc.
    unfold Bridge.encode. unfold answer_body in Hanswered. rewrite Hanswered. simpl. by settle_test. }
  destruct (read_line env b l line frame Hl Hc Hst Hline Hlen) as (l' & Hstep); try done.
  { apply well_formed; [done|apply minted_not_empty|set_solver]. }
  { rewrite Hserve. unfold write. simpl. rewrite Hs. exact Hc. }
  rewrite Hstep. eexists. split; [done|]. rewrite Hserve. unfold write. simpl. by rewrite Hs.
Qed.

(** The answer to a request waiting. *)
Lemma settle_line env b l n op body p line :
  b_reader b = Some l -> is_closed b = false ->
  stands_for (max_frame_bytes (b_settings b)) l (Framer [] false) ->
  let id := minted (role (b_settings b)) n in
  pending (b_asking b) !! id = Some p -> p_op p = op ->
  to_vec (MkFrame PROTOCOL_VERSION id "res" op body) = inl line ->
  length line <= max_frame_bytes (b_settings b) -> (forall t, after_read env t = []) ->
  exists b', step env b (Received (Bytes (line ++ [lf]))) = Some b' /\
    answers (b_asking b') = answers (b_asking b) ++
      [(p_answer p, inl (if (p_until p <=? next_look env b)%Z then refusal DEADLINE else body))] /\
    live (b_asking b') = live (b_asking b) /\ b_heard b' = b_heard b.
Proof.
  intros Hl Hc Hst id Hp Hop Hline Hlen Hafter.
  set (frame := MkFrame PROTOCOL_VERSION id "res" op body) in *.
  set (t := next_look env b).
  assert (accepts b frame = true) as Hacc by (unfold accepts; simpl; apply minted_own).
  assert (dispatch_frame env frame b =
    answer_request p (inl (if (p_until p <=? t)%Z then refusal DEADLINE else body))
      (now env (forget id b)).1) as Hsettle.
  { unfold dispatch_frame. rewrite Hacc. simpl. unfold settle. rewrite Hp.
    by rewrite !bool_decide_eq_true_2. }
  destruct (read_line env b l line frame Hl Hc Hst Hline Hlen) as (l' & Hstep); try done.
  { apply well_formed; [done|apply minted_not_empty|set_solver]. }
  { by rewrite Hsettle. }
  rewrite Hstep, Hsettle. by exists (set_reader (Some l') (ticked (answer_request p
    (inl (if (p_until p <=? t)%Z then refusal DEADLINE else body)) (now env (forget id b)).1))).
Qed.

(** C6: a request is answered by what the peer's handler gave: the line this end writes is
    one the peer reads, whose handler is called with the body; the line the peer writes is
    one this end reads, and the future of the request that asked gets the answer, and no other
    does; unless the deadline it was given as it was made (or the bridge's own) has passed at
    this end's look at its clock as it reads the answer, when it gets that instead. *)
Theorem request_reaches_the_handler_and_back
    envA envB settingsA settingsB startA startB hsA hsB a b op body deadline handler result lineA lineB :
  role settingsB = peer (role settingsA) ->
  steps envA (new settingsA startA) hsA = Some a -> is_closed a = false ->
  steps envB (new settingsB startB) hsB = Some b -> is_closed b = false ->
  (framer_reads (max_frame_bytes settingsA) (Framer [] false) (chunks_of hsA)).1 = Framer [] false ->
  (framer_reads (max_frame_bytes settingsB) (Framer [] false) (chunks_of hsB)).1 = Framer [] false ->
  (forall t, after_read envA t = []) -> (forall t, after_read envB t = []) ->
  request_of op (b_registry b) = Some handler ->
  (forall t, request_handler envB handler t body = ([], Some result)) ->
  let id := minted (role settingsA) (next_id (b_asking a) + 1) in
  let given := answer_body result in
  to_vec (MkFrame PROTOCOL_VERSION id "req" op body) = inl lineA ->
  to_vec (MkFrame PROTOCOL_VERSION id "res" op given) = inl lineB ->
  length lineA <= max_frame_bytes settingsA -> length lineA <= max_frame_bytes settingsB ->
  length lineB <= max_frame_bytes settingsA -> length lineB <= max_frame_bytes settingsB ->
  let until := past_at envA deadline a in
  let n := next_answer (b_asking a) in
  exists a1 b1 a2,
    exchange envA envB op body deadline a b = Some (a1, b1, a2) /\
    queued (b_output a1) = queued (b_output a) ++ [lineA ++ [lf]] /\
    queued (b_output b1) = queued (b_output b) ++ [lineB ++ [lf]] /\
    live (b_asking a2) !! n = Some (id, until) /\
    answers (b_asking a2) = answers (b_asking a) ++
      [(n, inl (if (until <=? next_look envA a1)%Z then refusal DEADLINE else given))] /\
    b_heard a2 = b_heard a1 /\ b_heard b1 = b_heard b.
Proof.
  intros Hrole Ha Hca Hb Hcb Hfa Hfb Haa Hab Hreg Hhandler id given HlA HlB HAA HAB HBA HBB until n.
  unfold until, n. clear until n.
  destruct (reached_ok envA _ _ _ _ Ha) as (Hoka & Ea & _).
  destruct (reached_ok envB _ _ _ _ Hb) as (Hokb & Eb & _).
  destruct (reader_follows envA _ _ _ _ Ha Hca) as (la & Hla & Hsta). rewrite Hfa in Hsta.
  destruct (reader_follows envB _ _ _ _ Hb Hcb) as (lb & Hlb & Hstb). rewrite Hfb in Hstb.
  unfold id in *. clear id. rewrite <- Ea, <- Eb in *.
  destruct (request_run envA a op body deadline lineA Hoka Hca HlA HAA)
    as (Hp & Hlive & Hans & Hq & Hlife & Hset & Hread).
  set (a1 := request envA op body deadline a) in *. set (until := past_at envA deadline a) in *.
  destruct (serve_line envB b lb (next_id (b_asking a) + 1) op body handler result lineA lineB)
    as (b1 & Hb1 & Hqb & Hheard); try done; try by rewrite Hrole, peer_peer.
  destruct (settle_line envA a1 la (next_id (b_asking a) + 1) op given
              (MkPending op until (next_answer (b_asking a))) lineB)
    as (a2 & Ha2 & Hans2 & Hlive2 & Hheard2); rewrite ?Hset, ?Hread; try done.
  { unfold is_closed. by rewrite Hlife. }
  exists a1, b1, a2. unfold exchange.
  cbn [step act mbind option_bind]. fold a1.
  rewrite Hq, last_snoc. cbn [mbind option_bind]. cbn [step] in Hb1, Ha2.
  rewrite Hb1. cbn [mbind option_bind]. rewrite Hqb, last_snoc. cbn [mbind option_bind].
  rewrite Ha2, Hans2, Hans, Hlive2. by split_and!.
Qed.
End Pair.

(** ** Witness *)

Definition peer_settings : Settings := MkSettings Host 2000 30000000000.
Definition peer_ready : list (happening (H := text_json)) := [Acted (On "ping" 0)].

Lemma request_reaches_the_handler_and_back_witness :
  exists a b lineA lineB,
    steps quiet (new sample_settings 0) [] = Some a /\
    steps quiet (new peer_settings 0) peer_ready = Some b /\
  let id := minted (role sample_settings) (next_id (b_asking a) + 1) in
  exists a1 b1 a2,
    exchange quiet quiet "ping" "x"%string None a b = Some (a1, b1, a2) /\
    queued (b_output a1) = queued (b_output a) ++ [lineA ++ [lf]] /\
    queued (b_output b1) = queued (b_output b) ++ [lineB ++ [lf]] /\
    live (b_asking a2) !! next_answer (b_asking a) = Some (id, past_at quiet None a) /\
    answers (b_asking a2) = answers (b_asking a) ++
      [(next_answer (b_asking a), inl (if (past_at quiet None a <=? next_look quiet a1)%Z then refusal DEADLINE else "x"%string))] /\
    b_heard a2 = b_heard a1 /\ b_heard b1 = b_heard b.
Proof.
  do 4 eexists. split; [vm_compute; reflexivity|]. split; [vm_compute; reflexivity|].
  eapply (request_reaches_the_handler_and_back quiet quiet sample_settings peer_settings 0 0
            [] peer_ready _ _ "ping" "x"%string None 0 (inl "x"%string));
    try (vm_compute; reflexivity); try (intros; reflexivity);
    apply Nat.leb_le; vm_compute; reflexivity.
Defined.
