(* ===== verification/Threads.v ===== *)
(** * Programs on threads that share a state

    A thread's code as a program ([prog]): what it does with the shared state, a step at a
    time. A step ([Act]) is what no other thread can come between, such as all that is done
    while a lock is held, or one atomic access; one that is [None] waits. [Iter] is a loop.
    A [config] is the state and the threads, any of which may go next ([Go]), what is outside
    may act ([Env]) and a thread may start ([Begin]). The logic is rely and guarantee: a
    thread's assertions hold through what the others do. *)
From S2P Require Import Prelude.
#[local] Open Scope nat_scope.

Section Programs.
Context {S : Type}.

Inductive prog (A : Type) : Type :=
| Ret (a : A)
| Act {B : Type} (f : S -> option (S * B)) (k : B -> prog A)
| Iter {X B : Type} (x : X) (turn : X -> prog (X + B)) (k : B -> prog A).

#[global] Arguments Ret {_}.
#[global] Arguments Act {_ _}.
#[global] Arguments Iter {_ _ _}.

Fixpoint pbind {A B : Type} (p : prog A) (k : A -> prog B) : prog B :=
  match p with
  | Ret a => k a
  | Act f k' => Act f (fun b => pbind (k' b) k)
  | Iter x turn k' => Iter x turn (fun b => pbind (k' b) k)
  end.

#[export] Instance prog_ret : MRet prog := @Ret.
#[export] Instance prog_bind : MBind prog := fun A B k p => pbind p k.

(** A step of the state that no thread waits for. *)
Definition act {B : Type} (f : S -> S * B) : prog B := Act (fun s => Some (f s)) Ret.
(** A step that waits for its state. *)
Definition await {B : Type} (f : S -> option (S * B)) : prog B := Act f Ret.
Definition look {B : Type} (f : S -> B) : prog B := act (fun s => (s, f s)).
Definition change (f : S -> S) : prog unit := act (fun s => (f s, tt)).
(** [loop] as long as its turn gives no value. *)
Definition loop {B : Type} (turn : prog (option B)) : prog B :=
  Iter tt (fun _ => r ← turn; mret (match r with Some b => inr b | None => inl tt end)) Ret.

(** One step of a program; none of one that is done, or waits. *)
Definition step {A : Type} (p : prog A) (s : S) : option (S * prog A) :=
  match p with
  | Ret _ => None
  | Act f k => '(s, b) ← f s; Some (s, k b)
  | Iter x turn k =>
      Some (s, r ← turn x; match r with inl x => Iter x turn k | inr b => k b end)
  end.

(** ** Rely and guarantee *)

Section Logic.
Variables (I : S -> Prop) (rely guarantee : S -> S -> Prop).

(** What the other threads leave true. *)
Definition stable (P : S -> Prop) : Prop :=
  forall s s', I s -> I s' -> rely s s' -> P s -> P s'.

(** [p] from a state of [P] keeps the invariant and the guarantee at each of its steps, and
    ends with a value and a state of [Q]. *)
Fixpoint safe {A : Type} (P : S -> Prop) (p : prog A) (Q : A -> S -> Prop) : Prop :=
  match p with
  | Ret a => forall s, I s -> P s -> Q a s
  | Act f k =>
      exists R, (forall b, stable (R b)) /\
      (forall s s' b, I s -> P s -> f s = Some (s', b) -> I s' /\ guarantee s s' /\ R b s') /\
      forall b, safe (R b) (k b) Q
  | Iter x turn k =>
      exists J R, (forall x, stable (J x)) /\ (forall b, stable (R b)) /\
      (forall s, I s -> P s -> J x s) /\
      (forall x, safe (J x) (turn x) (fun r => match r with inl x => J x | inr b => R b end)) /\
      forall b, safe (R b) (k b) Q
  end.

Lemma safe_pre {A : Type} (p : prog A) (P P' : S -> Prop) (Q : A -> S -> Prop) :
  (forall s, I s -> P' s -> P s) -> safe P p Q -> safe P' p Q.
Proof.
  destruct p as [a|B f k|X B x turn k]; simpl; intros HP H; [by auto| |].
  - destruct H as (R & HR & Hf & Hk). exists R. split_and!; [done| |done]. intros. by eapply Hf; eauto.
  - destruct H as (J & R & HJ & HR & Hx & Ht & Hk). exists J, R. split_and!; auto.
Qed.

Lemma safe_post {A : Type} (p : prog A) : forall (P : S -> Prop) (Q Q' : A -> S -> Prop),
  (forall a s, I s -> Q a s -> Q' a s) -> safe P p Q -> safe P p Q'.
Proof.
  induction p as [A a|A B f k IH|A X B x turn IHt k IH]; simpl; intros P Q Q' HQ H; [by auto| |].
  - destruct H as (R & HR & Hf & Hk). exists R. split_and!; eauto.
  - destruct H as (J & R & HJ & HR & Hx & Ht & Hk). exists J, R. split_and!; eauto.
Qed.

Lemma safe_bind {A B : Type} (p : prog A) (k : A -> prog B) :
  forall (P : S -> Prop) (R : A -> S -> Prop) (Q : B -> S -> Prop),
  safe P p R -> (forall a, safe (R a) (k a) Q) -> safe P (p ≫= k) Q.
Proof.
  unfold mbind, prog_bind.
  induction p as [A a|A C f k' IH|A X C x turn IHt k' IH]; simpl; intros P R Q Hp Hk.
  - eapply safe_pre; [|apply Hk]. auto.
  - destruct Hp as (R' & HR & Hf & Hk'). exists R'. split_and!; eauto.
  - destruct Hp as (J & R' & HJ & HR & Hx & Ht & Hk'). exists J, R'. split_and!; eauto.
Qed.

Lemma safe_bind_assoc {A B C : Type} (p : prog A) (k : A -> prog B) (k' : B -> prog C) :
  forall (P : S -> Prop) (Q : C -> S -> Prop),
  safe P (p ≫= fun a => k a ≫= k') Q -> safe P ((p ≫= k) ≫= k') Q.
Proof.
  unfold mbind, prog_bind.
  induction p as [A a|A D f k1 IH|A X D x turn IHt k1 IH]; simpl; intros P Q Hp; [done| |].
  - destruct Hp as (R & HR & Hf & Hk). exists R. split_and!; eauto.
  - destruct Hp as (J & R & HJ & HR & Hx & Ht & Hk). exists J, R. split_and!; eauto.
Qed.

(** A step keeps what a thread is safe by. *)
Lemma safe_step {A : Type} (p p' : prog A) (P : S -> Prop) (Q : A -> S -> Prop) s s' :
  (forall s, guarantee s s) -> stable P -> safe P p Q -> I s -> P s -> step p s = Some (s', p') ->
  I s' /\ guarantee s s' /\ exists P', stable P' /\ P' s' /\ safe P' p' Q.
Proof.
  intros Hrefl HP. destruct p as [a|B f k|X B x turn k]; simpl; [done| |].
  - intros (R & HR & Hf & Hk) Hs Ps. destruct (f s) as [[s1 b]|] eqn:E; [|done].
    intros [= <- <-]. destruct (Hf _ _ _ Hs Ps E) as (? & ? & ?). eauto 10.
  - intros (J & R & HJ & HR & Hx & Ht & Hk) Hs Ps [= <- <-]. split_and!; [done..|].
    exists (J x). split_and!; [auto..|].
    eapply safe_bind; [apply Ht|]. intros [x'|b]; [|auto].
    simpl. exists J, R. split_and!; auto.
Qed.

(** The rules of the small programs. *)
Lemma safe_ret {A : Type} (a : A) (P : S -> Prop) (Q : A -> S -> Prop) :
  (forall s, I s -> P s -> Q a s) -> safe P (mret a) Q.
Proof. done. Qed.

Lemma safe_await {B : Type} (f : S -> option (S * B)) (P : S -> Prop) (R : B -> S -> Prop) :
  (forall b, stable (R b)) ->
  (forall s s' b, I s -> P s -> f s = Some (s', b) -> I s' /\ guarantee s s' /\ R b s') ->
  safe P (await f) R.
Proof. intros HR Hf. exists R. split_and!; simpl; auto. Qed.

Lemma safe_act {B : Type} (f : S -> S * B) (P : S -> Prop) (R : B -> S -> Prop) :
  (forall b, stable (R b)) ->
  (forall s, I s -> P s -> I (f s).1 /\ guarantee s (f s).1 /\ R (f s).2 (f s).1) ->
  safe P (act f) R.
Proof.
  intros HR Hf. apply safe_await; [done|]. intros s s' b Hs Ps [= E].
  specialize (Hf s Hs Ps). by rewrite E in Hf.
Qed.

Lemma safe_loop {B : Type} (turn : prog (option B)) (P : S -> Prop) (R : B -> S -> Prop) :
  stable P -> (forall b, stable (R b)) ->
  safe P turn (fun r s => match r with Some b => R b s | None => P s end) ->
  safe P (loop turn) R.
Proof.
  intros HP HR Ht. exists (fun _ => P), R. split_and!; [by auto..| |by simpl; auto].
  intros []. eapply safe_bind; [apply Ht|]. intros [b|]; apply safe_ret; auto.
Qed.
End Logic.

(** A guarantee may be weakened. *)
Lemma safe_guarantee {A : Type} (I : S -> Prop) (rely G G' : S -> S -> Prop) (p : prog A) :
  (forall s s', G s s' -> G' s s') ->
  forall P Q, safe I rely G P p Q -> safe I rely G' P p Q.
Proof.
  intros HG. induction p as [A a|A B f k IH|A X B x turn IHt k IH]; simpl; intros P Q H; [by auto| |].
  - destruct H as (R & HR & Hf & Hk). exists R. split_and!; [done| |by auto].
    intros s s' b Hs Ps E. destruct (Hf s s' b Hs Ps E) as (? & ? & ?). auto.
  - destruct H as (J & R & HJ & HR & Hx & Ht & Hk). exists J, R. split_and!; auto.
Qed.

(** What holds of the other threads' guarantees only grows with what they may do. *)
Lemma safe_rely {A : Type} (I : S -> Prop) (rely rely' G : S -> S -> Prop) (p : prog A) :
  (forall s s', rely' s s' -> rely s s') ->
  forall P Q, safe I rely G P p Q -> safe I rely' G P p Q.
Proof.
  intros Hr. assert (Hstable : forall P, stable I rely P -> stable I rely' P)
    by (intros P HP s s' H1 H2 H3; eauto).
  induction p as [A a|A B f k IH|A X B x turn IHt k IH]; simpl; intros P Q H; [by auto| |].
  - destruct H as (R & HR & Hf & Hk). exists R. split_and!; eauto.
  - destruct H as (J & R & HJ & HR & Hx & Ht & Hk). exists J, R. split_and!; eauto 10.
Qed.
(** ** A thread that runs alone *)

(** [p] by itself comes to its end, with a value and a state. *)
Inductive ends : forall {A : Type}, prog A -> S -> A -> S -> Prop :=
| EndsRet {A : Type} (a : A) s : ends (Ret a) s a s
| EndsAct {A B : Type} (f : S -> option (S * B)) (k : B -> prog A) s s1 b a s' :
    f s = Some (s1, b) -> ends (k b) s1 a s' -> ends (Act f k) s a s'
| EndsIter {A X B : Type} (x : X) (turn : X -> prog (X + B)) (k : B -> prog A) s r s1 a s' :
    ends (turn x) s r s1 -> ends (match r with inl x => Iter x turn k | inr b => k b end) s1 a s' ->
    ends (Iter x turn k) s a s'.

Lemma ends_bind {A B : Type} (p : prog A) (k : A -> prog B) s a s1 b s' :
  ends p s a s1 -> ends (k a) s1 b s' -> ends (p ≫= k) s b s'.
Proof.
  intros Hp. revert k. induction Hp; intros k1 Hk; [done|..].
  - eapply EndsAct; [done|]. by apply IHHp.
  - eapply EndsIter; [done|]. destruct r; by apply (IHHp2 k1).
Qed.

Lemma ends_await {B : Type} (f : S -> option (S * B)) s s' b :
  f s = Some (s', b) -> ends (await f) s b s'.
Proof. intros E. eapply EndsAct; [done|constructor]. Qed.

Lemma ends_act {B : Type} (f : S -> S * B) s : ends (act f) s (f s).2 (f s).1.
Proof. apply ends_await. by destruct (f s). Qed.

(** [p] by itself comes to its end with a value and a state of [Q]. *)
Definition ends_in {A : Type} (p : prog A) (s : S) (Q : A -> S -> Prop) : Prop := exists a s', ends p s a s' /\ Q a s'.

Lemma ends_in_ret {A : Type} (a : A) s (Q : A -> S -> Prop) : Q a s -> ends_in (mret a) s Q.
Proof. intros H. exists a, s. split; [constructor|done]. Qed.

Lemma ends_in_act {B : Type} (f : S -> S * B) s (Q : B -> S -> Prop) : Q (f s).2 (f s).1 -> ends_in (act f) s Q.
Proof. intros H. eexists _, _. split; [apply ends_act|done]. Qed.

Lemma ends_in_bind {A B : Type} (p : prog A) (k : A -> prog B) s (Q : A -> S -> Prop) (R : B -> S -> Prop) :
  ends_in p s Q -> (forall a s', Q a s' -> ends_in (k a) s' R) -> ends_in (p ≫= k) s R.
Proof.
  intros (a & s1 & Hp & Ha) Hk. destruct (Hk a s1 Ha) as (b & s2 & Hb & HR). exists b, s2.
  split; [by eapply ends_bind|done].
Qed.

Lemma ends_in_act_bind {A B : Type} (f : S -> S * B) (k : B -> prog A) s (Q : A -> S -> Prop) :
  ends_in (k (f s).2) (f s).1 Q -> ends_in (act f ≫= k) s Q.
Proof. intros (a & s' & H & HQ). exists a, s'. split; [|done]. eapply ends_bind; [apply ends_act|done]. Qed.

Lemma ends_in_post {A : Type} (p : prog A) s (Q R : A -> S -> Prop) :
  (forall a s', Q a s' -> R a s') -> ends_in p s Q -> ends_in p s R.
Proof. intros H (a & s' & Hp & Ha). exists a, s'. eauto. Qed.

(** A loop runs if its turns do, each that goes on at less than it was at. *)
Lemma ends_in_iter {A X B : Type} (turn : X -> prog (X + B)) (k : B -> prog A) (P : X -> S -> Prop) (m : S -> nat) Q R :
  (forall x s, P x s -> ends_in (turn x) s (fun r s' => match r with inl x' => P x' s' /\ m s' < m s | inr b => R b s' end)) ->
  (forall b s, R b s -> ends_in (k b) s Q) ->
  forall x s, P x s -> ends_in (Iter x turn k) s Q.
Proof.
  intros Ht Hk x s. revert x. induction s as [s IH] using (induction_ltof1 _ m). intros x HP.
  destruct (Ht x s HP) as ([x'|b] & s1 & Hturn & H).
  - destruct H as [HP' Hlt]. destruct (IH s1 Hlt x' HP') as (a & s2 & Hrest & HQ). exists a, s2.
    split; [by eapply EndsIter; [exact Hturn|]|done].
  - destruct (Hk b s1 H) as (a & s2 & Hrest & HQ). exists a, s2. split; [by eapply EndsIter; [exact Hturn|]|done].
Qed.

(** What a thread is safe by among others it is by when it runs alone. *)
Lemma ends_safe {A : Type} (I : S -> Prop) (rely G : S -> S -> Prop) (p : prog A) s a s' :
  ends p s a s' -> forall P Q, safe I rely G P p Q -> I s -> P s -> I s' /\ Q a s'.
Proof.
  induction 1 as [A a s|A B f k s s1 b a s' E _ IH|A X B x turn k s r s1 a s' _ IH1 _ IH2]; intros P Q.
  - intros H Hs Ps. by split; [|apply H].
  - intros (R & _ & Hf & Hk) Hs Ps. destruct (Hf _ _ _ Hs Ps E) as (Hs1 & _ & Hb). by eapply IH.
  - intros (J & R & HJ & HR & Hx & Ht & Hk) Hs Ps. destruct (IH1 _ _ (Ht x) Hs (Hx s Hs Ps)) as [Hs1 Hr].
    destruct r as [x'|b]; [|by eapply IH2]. eapply (IH2 (J x')); [|done..]. exists J, R. by split_and!.
Qed.

(** Steps of [p], as many as there are. *)
Fixpoint drive {A : Type} (n : nat) (p : prog A) (s : S) : option (S * prog A) :=
  match n with O => Some (s, p) | Datatypes.S n => '(s, p) ← step p s; drive n p s end.

Lemma ends_drive {A : Type} (p : prog A) s a s1 :
  ends p s a s1 ->
  (exists n, drive n p s = Some (s1, Ret a)) /\
  forall B (k : A -> prog B) r, (exists n, drive n (k a) s1 = Some r) ->
    exists n, drive n (p ≫= k) s = Some r.
Proof.
  induction 1 as [A a s|A B f k s s2 b a s1 E _ [[n Hn] IH]|A X B x turn k s r s2 a s1 _ [_ IH1] _ [IH2 IH2']].
  - split; [by exists 0|done].
  - split; [exists (Datatypes.S n); simpl; by rewrite E|]. intros C k1 r Hr.
    destruct (IH C k1 r Hr) as [m Hm]. exists (Datatypes.S m). simpl. by rewrite E.
  - split.
    + destruct (IH1 _ (fun r => match r with inl x => Iter x turn k | inr b => k b end) _ IH2) as [n Hn].
      by exists (Datatypes.S n).
    + intros C k1 r' Hr. apply (IH2' C k1) in Hr.
      destruct (IH1 _ (fun r => match r with
        | inl x => Iter x turn (fun b => pbind (k b) k1) | inr b => pbind (k b) k1 end) r') as [n Hn].
      { by destruct r. }
      by exists (Datatypes.S n).
Qed.
End Programs.

#[global] Arguments prog : clear implicits.

(** ** Threads *)

Section Pool.
Context {S E : Type}.
(** What is outside the program, and a thread that is started: the state without it, and the
    code it runs as the thread of that number. *)
Variable env : E -> S -> option S.
Variable begin : nat -> nat -> S -> option (S * prog S unit).

Record config := Config { shared : S; threads : list (prog S unit) }.

Inductive choice := Go (thread : nat) | Env (e : E) | Begin (n : nat).

Definition choose (c : config) (ch : choice) : option config :=
  match ch with
  | Go i =>
      p ← threads c !! i;
      '(s, p) ← step p (shared c);
      Some (Config s (<[i := p]> (threads c)))
  | Env e => s ← env e (shared c); Some (Config s (threads c))
  | Begin n =>
      '(s, p) ← begin (length (threads c)) n (shared c);
      Some (Config s (threads c ++ [p]))
  end.

Fixpoint execute (c : config) (chs : list choice) : option config :=
  match chs with
  | [] => Some c
  | ch :: chs => c ← choose c ch; execute c chs
  end.

Definition reaches (c c' : config) : Prop := exists chs, execute c chs = Some c'.

Lemma reaches_refl c : reaches c c.
Proof. by exists []. Qed.

Lemma execute_app c chs chs' :
  execute c (chs ++ chs') = (c' ← execute c chs; execute c' chs').
Proof.
  revert c. induction chs as [|ch chs IH]; intros c; [done|]. simpl.
  destruct (choose c ch); simpl; [apply IH|done].
Qed.

(** A thread that comes to its end by itself may do so here, if the others let it go on. *)
Lemma ends_reaches c i p s' :
  threads c !! i = Some p -> ends p (shared c) tt s' ->
  reaches c (Config s' (<[i := Ret tt]> (threads c))).
Proof.
  intros Hp Hends. destruct (ends_drive _ _ _ _ Hends) as [[n Hn] _]. clear Hends.
  exists (repeat (Go i) n). destruct c as [s ps]. simpl in *.
  revert s ps p Hp Hn. induction n as [|n IH]; intros s ps p Hp Hn; simpl in *.
  - injection Hn as -> ->. by rewrite list_insert_id.
  - destruct (step p s) as [[s1 p1]|] eqn:Estep; [|done]. simpl in Hn.
    rewrite Hp. simpl. rewrite Estep. simpl.
    rewrite (IH s1 (<[i := p1]> ps) p1); [by rewrite list_insert_insert_eq| |done].
    apply list_lookup_insert_eq. by eapply lookup_lt_Some.
Qed.

Lemma reaches_trans c1 c2 c3 : reaches c1 c2 -> reaches c2 c3 -> reaches c1 c3.
Proof.
  intros [chs1 H1] [chs2 H2]. exists (chs1 ++ chs2). by rewrite execute_app, H1.
Qed.

Section Sound.
Variables (I : S -> Prop) (guarantee : nat -> S -> S -> Prop).
(** What a thread leaves when it is done. *)
Variable post : nat -> S -> Prop.

(** What others than [i] may do: what is outside, the threads that start, the other threads. *)
Definition rely_of (i : nat) (s s' : S) : Prop :=
  (exists e, env e s = Some s') \/ (exists t n p, begin t n s = Some (s', p)) \/
  (exists j, j <> i /\ guarantee j s s').

Definition thread_ok (c : config) (i : nat) (p : prog S unit) : Prop :=
  exists P, stable I (rely_of i) P /\ P (shared c) /\
            safe I (rely_of i) (guarantee i) P p (fun _ => post i).

Record config_ok (c : config) : Prop := {
  shared_ok : I (shared c);
  threads_ok : forall i p, threads c !! i = Some p -> thread_ok c i p
}.

Hypothesis guarantee_refl : forall i s, guarantee i s s.
Hypothesis env_ok : forall e s s', I s -> env e s = Some s' -> I s'.
Hypothesis begin_ok : forall t n s s' p, I s -> begin t n s = Some (s', p) ->
  I s' /\ exists P, stable I (rely_of t) P /\ P s' /\
                    safe I (rely_of t) (guarantee t) P p (fun _ => post t).

(** The others of a thread leave what it is safe by. *)
Lemma thread_ok_rely c c' i p :
  I (shared c) -> I (shared c') -> rely_of i (shared c) (shared c') ->
  thread_ok c i p -> thread_ok c' i p.
Proof. intros ? ? ? (P & HP & Hs & Hp). exists P. split_and!; eauto. Qed.

Lemma choose_ok c ch c' : config_ok c -> choose c ch = Some c' -> config_ok c'.
Proof.
  intros [Hs Ht] Hch. destruct ch as [i|e|n]; simpl in Hch.
  - destruct (threads c !! i) as [p|] eqn:Ep; [|done]. simpl in Hch.
    destruct (step p (shared c)) as [[s' p']|] eqn:Estep; [|done]. injection Hch as <-.
    destruct (Ht i p Ep) as (P & HP & Ps & Hp).
    destruct (safe_step I (rely_of i) (guarantee i) p p' P _ _ s' (guarantee_refl i) HP Hp Hs Ps Estep)
      as (Hs' & HG & P' & HP' & Ps' & Hp').
    split; [done|]. intros j q Hj. simpl in *. destruct (decide (i = j)) as [<-|Hij].
    + rewrite list_lookup_insert_eq in Hj by (by eapply lookup_lt_Some).
      injection Hj as <-. by exists P'.
    + rewrite list_lookup_insert_ne in Hj by done.
      eapply (thread_ok_rely c); [done..| |by apply Ht]. right. right. eauto.
  - destruct (env e (shared c)) as [s'|] eqn:Ee; [|done]. injection Hch as <-.
    split; simpl; [by eapply env_ok|]. intros j q Hj.
    eapply (thread_ok_rely c); [done|by eapply env_ok| |by apply Ht]. left. eauto.
  - destruct (begin _ n (shared c)) as [[s' p]|] eqn:Eb; [|done]. injection Hch as <-.
    destruct (begin_ok _ _ _ _ _ Hs Eb) as (Hs' & HP).
    split; simpl; [done|]. intros j q [Hj|[Hj Eq]]%lookup_app_Some.
    + eapply (thread_ok_rely c); [done..| |by apply Ht]. right. left. eauto.
    + assert (j = length (threads c)) as ->.
      { apply lookup_lt_Some in Eq. simpl in Eq. lia. }
      rewrite Nat.sub_diag in Eq. injection Eq as <-. done.
Qed.

Lemma execute_ok c chs c' : config_ok c -> execute c chs = Some c' -> config_ok c'.
Proof.
  revert c. induction chs as [|ch chs IH]; intros c Hc Hch; [by injection Hch as <-|].
  simpl in Hch. destruct (choose c ch) as [c1|] eqn:E1; [|done]. eauto using choose_ok.
Qed.

(** A thread that is done left what it was to. *)
Lemma ended_ok c i : config_ok c -> threads c !! i = Some (Ret tt) -> post i (shared c).
Proof. intros [Hs Ht] Hi. destruct (Ht i _ Hi) as (P & _ & Ps & Hp). by apply Hp. Qed.

(** What every step leaves related, from the first to the last of them. *)
Lemma execute_related (M : S -> S -> Prop) c chs c' :
  (forall s, M s s) -> (forall s1 s2 s3, M s1 s2 -> M s2 s3 -> M s1 s3) ->
  (forall i s s', I s -> I s' -> guarantee i s s' -> M s s') ->
  (forall e s s', I s -> env e s = Some s' -> M s s') ->
  (forall t n s s' p, I s -> begin t n s = Some (s', p) -> M s s') ->
  config_ok c -> execute c chs = Some c' -> M (shared c) (shared c').
Proof.
  intros Hrefl Htrans HG He Hb. revert c.
  induction chs as [|ch chs IH]; intros c Hc Hch; [by injection Hch as <-|].
  simpl in Hch. destruct (choose c ch) as [c1|] eqn:E1; [|done].
  pose proof (choose_ok c ch c1 Hc E1) as Hc1.
  eapply Htrans; [|by eapply IH]. destruct Hc as [Hs Ht]. destruct Hc1 as [Hs1 _].
  destruct ch as [i|e|n]; simpl in E1.
  - destruct (threads c !! i) as [p|] eqn:Ep; [|done]. simpl in E1.
    destruct (step p (shared c)) as [[s' p']|] eqn:Estep; [|done]. injection E1 as <-.
    destruct (Ht i p Ep) as (P & HP & Ps & Hp).
    destruct (safe_step I (rely_of i) (guarantee i) p p' P _ _ s' (guarantee_refl i) HP Hp Hs Ps Estep)
      as (Hs' & HG' & _). by eapply HG.
  - destruct (env e (shared c)) as [s'|] eqn:Ee; [|done]. injection E1 as <-. by eapply He.
  - destruct (begin _ n (shared c)) as [[s' p]|] eqn:Eb; [|done]. injection E1 as <-. by eapply Hb.
Qed.
End Sound.
End Pool.

#[global] Arguments Config {_}.
#[global] Arguments Go {_}.
#[global] Arguments Env {_}.
#[global] Arguments Begin {_}.
