(* ===== verification/BridgeThreads.v ===== *)
(** * One end of the bridge on threads: [cf-bridge/src/lib.rs]

    The pane host's end. Its callers' threads, the reader's, the writer's and one for each
    handler at work share [BridgeInner] ([st]); what each runs is a program of [Threads]. A
    lock's section is one step, as nothing that holds one waits or panics; the lifecycle's
    is held across the steps of [close_transport], by [held]. An [mpsc] channel of answers is
    a [chan], and where its sender is says who may still answer. A queue that stays full is
    looked at again ([enqueue_encoded]); a wait on a condition variable waits for the
    condition it looks for. What a handler does is any code of calls to the bridge
    ([client]), and so is what the app's threads do; [on_error] and [on_close] are told
    ([reports], [closes]), and what they do of the bridge they do as a thread of the app's.
    At least one handle to the bridge is kept all along. A thread's number is its place. *)
From stdpp Require Import gmap.
From S2P Require Import Prelude Utf8 Lines Frames Threads.
#[local] Open Scope nat_scope.

(** ** The data *)

Definition WRITER_QUEUE_CAPACITY : nat := 32.
Definition STREAM_QUEUE_SHARE : nat := WRITER_QUEUE_CAPACITY / 2.
(** In nanoseconds, as every time here is. *)
Definition DEFAULT_REQUEST_DEADLINE : Z := 30000 * 1000000.

Definition Answer `{Json} : Type := (Value + BridgeError)%type.

(** A request that waits: its op, and the channel its answer goes to, by its number. *)
Record PendingRequest := MkPending { p_op : string; p_sender : nat }.

(** A channel of one answer: whose request it is of, what came, and whether its sender lives. *)
Record chan `{Json} := Chan {
  c_id : string; c_op : string; c_answer : option Answer; c_sender : bool
}.

(** A frame's line in the queue, and the flag that says it is not to be written. *)
Record WriteJob := MkJob { bytes : list byte; canceled : nat }.

(** What came of a job the writer took. *)
Inductive fate := InHand | Passed | Wrote | Cut (n : nat) | Dropped.

(** A thread to start: a request's handler with its admission, or an event's. *)
Inductive start `{Json} :=
| StartHandler (admission : nat) (id op : string) (launches_panes : bool) (body : Value)
| StartEvent (op : string) (n : nat) (body : Value).

(** [closed], [output_ended], the shutdown's [requested], and of [Lifecycle] [closed] and
    [transport_workers]; who holds its lock, who closed the transport, and how often
    [on_close] was told. *)
Record life := Life {
  closed : bool;
  output_ended : bool;
  requested : bool;
  lc_closed : bool;
  transport_workers : nat;
  held : option nat;
  closer : option nat;
  closes : nat
}.

(** [next_id], as who minted each id so far; [pending], and every channel made. The senders
    taken from [pending]: the close's to answer, and the reader's. *)
Record asking `{Json} := Asking {
  minters : list nat;
  pending : gmap string PendingRequest;
  chans : list chan;
  drained : gset nat;
  taken : option nat
}.

(** The handlers: [in_flight_handlers] and [in_flight_launches] of [Lifecycle], the
    [HandlerAdmission]s there are (each with whether it is of a launch, and the thread that
    has it), the threads to start, and the admissions whose handler is running. *)
Record work `{Json} := Work {
  in_flight_handlers : nat;
  in_flight_launches : nat;
  admissions : gmap nat (bool * option nat);
  next_admission : nat;
  starting : list start;
  running : gset nat
}.

(** The writer's queue: its sender ([writer]), its jobs and its receiver; [queued], the flags
    raised and how many were made; and what was queued, and came of what the writer took. *)
Record queue := Queue {
  writer : bool;
  channel : list WriteJob;
  receiver : bool;
  queued : Z;
  flags : gset nat;
  next_flag : nat;
  accepted : list WriteJob;
  fates : list (WriteJob * fate)
}.

(** The clock, the peer's bytes as they come (an empty chunk is their end) and what the
    reader's buffer holds, how the next writes go (or how many bytes of one go, and then why
    none), and what [on_error] was told. *)
Record world := World {
  now : Z;
  input : list (list byte + string);
  buffer : list byte;
  writes : list (option (nat * string));
  written : list byte;
  reports : list BridgeError
}.

Record st `{Json} := St {
  s_life : life;
  s_asking : asking;
  s_work : work;
  s_queue : queue;
  s_world : world
}.

(** A bridge as it is built: the handlers by op, whether each launches panes, and the events'
    by op, how many each has; [interruptible], that its streams are a Unix's, which end as
    the shutdown is requested. *)
Record settings := Settings {
  role : Role;
  max_frame_bytes : nat;
  default_request_deadline : Z;
  keeps_output : bool;
  interruptible : bool;
  handlers : gmap string bool;
  event_handlers : gmap string nat
}.

(** A call of the bridge, and code of such calls. *)
Inductive call `{Json} : Type -> Type :=
| Request (op : string) (body : Value) (deadline : option Z) : call Answer
| Event (op : string) (body : Value) : call (bool + BridgeError)
| StreamEvent (op : string) (body : Value) : call (bool + BridgeError)
| IsClosed : call bool
| CloseInput : call unit
| EndOutput (within : Z) : call bool
| WaitClosed : call unit
| WaitLaunchesClosed : call unit.

Inductive client `{Json} (A : Type) : Type :=
| Return (a : A)
| Call {B : Type} (c : call B) (k : B -> client A).

#[global] Arguments Return {_ _}.
#[global] Arguments Call {_ _ _}.

(** What the handlers do: a request's ends in its answer, or panics. *)
Record closures `{Json} := Closures {
  handler : string -> Value -> client (option (Value + string));
  event_handler : string -> nat -> Value -> client unit
}.

Inductive BoundedLine :=
| BComplete (line : list byte)
| BOverflow
| BUnterminated
| BEof.

(** What a look at the queue under the writer's lock comes to. *)
Inductive tried := Queued | NoWriter | Full | Disconnected.

#[global] Arguments Chan {_}.
#[global] Arguments Asking {_}.
#[global] Arguments Work {_}.
#[global] Arguments St {_}.
#[global] Arguments Closures {_}.
#[global] Arguments StartHandler {_}.
#[global] Arguments StartEvent {_}.
#[global] Arguments Request {_}.
#[global] Arguments Event {_}.
#[global] Arguments StreamEvent {_}.
#[global] Arguments IsClosed {_}.
#[global] Arguments CloseInput {_}.
#[global] Arguments EndOutput {_}.
#[global] Arguments WaitClosed {_}.
#[global] Arguments WaitLaunchesClosed {_}.

Section Bridge.
Context `{Serde} (cfg : settings) (env : closures).
Implicit Types s : st.

Abbreviation code := (prog st).

(** ** The state's parts *)

Definition set_life (f : life -> life) s : st :=
  St (f (s_life s)) (s_asking s) (s_work s) (s_queue s) (s_world s).
Definition set_asking (f : asking -> asking) s : st :=
  St (s_life s) (f (s_asking s)) (s_work s) (s_queue s) (s_world s).
Definition set_work (f : work -> work) s : st :=
  St (s_life s) (s_asking s) (f (s_work s)) (s_queue s) (s_world s).
Definition set_queue (f : queue -> queue) s : st :=
  St (s_life s) (s_asking s) (s_work s) (f (s_queue s)) (s_world s).
Definition set_world (f : world -> world) s : st :=
  St (s_life s) (s_asking s) (s_work s) (s_queue s) (f (s_world s)).

Definition store_closed l : life :=
  Life true (output_ended l) (requested l) (lc_closed l) (transport_workers l) (held l)
       (closer l) (closes l).
Definition store_output_ended l : life :=
  Life (closed l) true (requested l) (lc_closed l) (transport_workers l) (held l)
       (closer l) (closes l).
Definition request_shutdown l : life :=
  Life (closed l) (output_ended l) true (lc_closed l) (transport_workers l) (held l)
       (closer l) (closes l).
Definition hold_closed (me : nat) l : life :=
  Life (closed l) (output_ended l) (requested l) true (transport_workers l) (Some me)
       (Some me) (closes l).
Definition let_go l : life :=
  Life (closed l) (output_ended l) (requested l) (lc_closed l) (transport_workers l) None
       (closer l) (closes l).
Definition tell_close l : life :=
  Life (closed l) (output_ended l) (requested l) (lc_closed l) (transport_workers l) (held l)
       (closer l) (S (closes l)).
Definition worker_gone l : life :=
  Life (closed l) (output_ended l) (requested l) (lc_closed l) (transport_workers l - 1)
       (held l) (closer l) (closes l).

Definition set_pending (x : gmap string PendingRequest) a : asking :=
  Asking (minters a) x (chans a) (drained a) (taken a).
Definition set_chans (x : list chan) a : asking :=
  Asking (minters a) (pending a) x (drained a) (taken a).

(** A sender dropped, and an answer sent and its sender dropped with it. *)
Definition drop_sender (c : nat) a : asking :=
  set_chans (alter (fun x => Chan (c_id x) (c_op x) (c_answer x) false) c (chans a)) a.
Definition answered (c : nat) (answer : Answer) a : asking :=
  let a := set_chans (alter (fun x => Chan (c_id x) (c_op x) (Some answer) false) c (chans a)) a in
  Asking (minters a) (pending a) (chans a) (drained a ∖ {[c]})
         (if decide (taken a = Some c) then None else taken a).

Definition set_sender (x : bool) q : queue :=
  Queue x (channel q) (receiver q) (queued q) (flags q) (next_flag q) (accepted q) (fates q).
Definition decided (f : fate) q : queue :=
  Queue (writer q) (channel q) (receiver q) (queued q) (flags q) (next_flag q) (accepted q)
        (alter (fun j => (fst j, f)) (length (fates q) - 1) (fates q)).

Definition set_buffer (x : list byte) w : world :=
  World (now w) (input w) x (writes w) (written w) (reports w).

(** ** Small steps *)

Definition report (error : BridgeError) : code unit :=
  change (set_world (fun w => World (now w) (input w) (buffer w) (writes w) (written w)
                                    (reports w ++ [error]))).

Definition is_closed : code bool := look (fun s => closed (s_life s)).

Definition output_closed : code bool :=
  c ← is_closed;
  if c : bool then
    if keeps_output cfg then look (fun s => output_ended (s_life s)) else mret true
  else mret false.

Definition next_id (me : nat) : code string :=
  act (fun s =>
    let n := length (minters (s_asking s)) in
    (set_asking (fun a => Asking (minters a ++ [me]) (pending a) (chans a) (drained a) (taken a)) s,
     minted (role cfg) (Z.of_nat n + 1))).

Definition encode (frame : Frame) : list byte + BridgeError :=
  match to_vec frame with
  | inl line => inl line
  | inr error => inr (MalformedFrame (NotEncoded error))
  end.

(** [AtomicBool::new(false)] *)
Definition new_flag : code nat :=
  act (fun s =>
    (set_queue (fun q => Queue (writer q) (channel q) (receiver q) (queued q) (flags q)
                               (S (next_flag q)) (accepted q) (fates q)) s,
     next_flag (s_queue s))).
Definition cancel (flag : nat) : code unit :=
  change (set_queue (fun q => Queue (writer q) (channel q) (receiver q) (queued q)
                                    ({[flag]} ∪ flags q) (next_flag q) (accepted q) (fates q))).

(** [self.inner.writer.lock()..take()] *)
Definition close_input : code unit := change (set_queue (set_sender false)).

Definition cut_output : code unit :=
  change (set_life store_output_ended);;
  change (set_life request_shutdown);;
  close_input.

(** [sender.send(..)] of a sender that was taken from [pending] *)
Definition send_answer (c : nat) (answer : Answer) : code unit :=
  change (set_asking (answered c answer)).

Fixpoint send_all (cs : list nat) (answer : Answer) : code unit :=
  match cs with
  | [] => mret tt
  | c :: cs => send_answer c answer;; send_all cs answer
  end.

(** ** Closing *)

(** The lifecycle's lock: whether it says closed; if not it does from now on, and it is kept. *)
Definition take_lifecycle (me : nat) : code bool :=
  await (fun s =>
    match held (s_life s) with
    | Some _ => None
    | None => Some (if lc_closed (s_life s) then (s, true)
                    else (set_life (hold_closed me) s, false))
    end).

Definition drain_pending : code (list nat) :=
  act (fun s =>
    let senders := map (fun kv => p_sender (snd kv)) (map_to_list (pending (s_asking s))) in
    (set_asking (fun a => Asking (minters a) ∅ (chans a) (list_to_set senders) (taken a)) s,
     senders)).

Definition close_transport (me : nat) (error : BridgeError) (report_it keep : bool) : code unit :=
  already ← take_lifecycle me;
  if already : bool then (if keep then mret tt else cut_output)
  else
    change (set_life store_closed);;
    (if keep then mret tt else cut_output);;
    senders ← drain_pending;
    send_all senders (inr error);;
    change (set_life let_go);;
    (if report_it then report error else mret tt);;
    change (set_life tell_close).

Definition close_with_eof (me : nat) : code unit := close_transport me Eof false (keeps_output cfg).
Definition fail_transport (me : nat) (error : BridgeError) : code unit :=
  close_transport me error true false.

(** ** Queueing a frame *)

(** What is done under the writer's lock. *)
Definition try_enqueue (job : WriteJob) (depth : nat) s : st * tried :=
  let q := s_queue s in
  if negb (writer q) then (s, NoWriter)
  else if (depth <? WRITER_QUEUE_CAPACITY) && (Z.of_nat depth <=? queued q)%Z then (s, Full)
  else if negb (receiver q) then (s, Disconnected)
  else if WRITER_QUEUE_CAPACITY <=? length (channel q) then (s, Full)
  else (set_queue (fun q => Queue (writer q) (channel q ++ [job]) (receiver q) (queued q + 1)%Z
                                  (flags q) (next_flag q) (accepted q ++ [job]) (fates q)) s,
        Queued).

Definition enqueue_encoded (me : nat) (encoded : list byte) (flag : nat) (deadline : option Z)
    (depth : nat) : code (bool + BridgeError) :=
  let job := MkJob (encoded ++ [lf]) flag in
  loop (
    ended ← output_closed;
    if ended : bool then mret (Some (inr Eof))
    else
      result ← act (try_enqueue job depth);
      match result with
      | Queued => mret (Some (inl true))
      | NoWriter => mret (Some (inr Eof))
      | Full =>
          match deadline with
          | Some deadline =>
              late ← look (fun s => (deadline <=? now (s_world s))%Z);
              mret (if late : bool then Some (inl false) else None)
          | None => mret None
          end
      | Disconnected =>
          let error := Io "bridge writer queue is closed" in
          fail_transport me error;; mret (Some (inr error))
      end).

Definition write_encoded (me : nat) (encoded : list byte) : code (unit + BridgeError) :=
  flag ← new_flag;
  instant ← look (fun s => now (s_world s));
  queued ← enqueue_encoded me encoded flag (Some instant) WRITER_QUEUE_CAPACITY;
  match queued with
  | inr error => mret (inr error)
  | inl true => mret (inl tt)
  | inl false =>
      let error := Io "bridge writer queue is full" in
      fail_transport me error;; mret (inr error)
  end.

(** ** What this end asks and tells *)

(** Under the lock of [pending]: none once closed. *)
Definition insert_pending (id op : string) : code (option nat) :=
  act (fun s =>
    if closed (s_life s) then (s, None)
    else
      let c := length (chans (s_asking s)) in
      (set_asking (fun a => Asking (minters a) (<[id := MkPending op c]> (pending a))
                                   (chans a ++ [Chan id op None true]) (drained a) (taken a)) s,
       Some c)).

Definition remove_pending (id : string) : code unit :=
  change (set_asking (fun a =>
    match pending a !! id with
    | Some request => drop_sender (p_sender request) (set_pending (delete id (pending a)) a)
    | None => a
    end)).

(** [receiver.recv_timeout(..)]: what came; [Disconnected]; [Timeout]. *)
Inductive received := Received (answer : Answer) | Hung | Late.

Definition recv_timeout (c : nat) (deadline : Z) : code received :=
  await (fun s =>
    match chans (s_asking s) !! c with
    | Some (Chan _ _ (Some answer) _) => Some (s, Received answer)
    | Some (Chan _ _ None true) =>
        if (deadline <=? now (s_world s))%Z then Some (s, Late) else None
    | _ => Some (s, Hung)
    end).

Definition request (me : nat) (op : string) (body : Value) (deadline_ms : option Z) :
    code Answer :=
  started ← look (fun s => now (s_world s));
  let timeout := default (default_request_deadline cfg) ((fun ms => ms * 1000000)%Z <$> deadline_ms) in
  let deadline := (started + timeout)%Z in
  gone ← is_closed;
  if gone : bool then mret (inr Eof)
  else
    id ← next_id me;
    match encode (MkFrame PROTOCOL_VERSION id "req" op body) with
    | inr error => mret (inr error)
    | inl encoded =>
        if max_frame_bytes cfg <? length encoded then mret (inl too_large_body)
        else
          waiting ← insert_pending id op;
          match waiting with
          | None => mret (inr Eof)
          | Some c =>
              flag ← new_flag;
              admitted ← enqueue_encoded me encoded flag (Some deadline) WRITER_QUEUE_CAPACITY;
              match admitted with
              | inr error => mret (inr error)
              | inl false => cancel flag;; remove_pending id;; mret (inl (refusal DEADLINE))
              | inl true =>
                  result ← recv_timeout c deadline;
                  match result with
                  | Received answer => mret answer
                  | Late => cancel flag;; remove_pending id;; mret (inl (refusal DEADLINE))
                  | Hung => mret (inr Eof)
                  end
              end
          end
    end.

Definition encode_event (me : nat) (op : string) (body : Value) :
    code (option (list byte) + BridgeError) :=
  ended ← output_closed;
  if ended : bool then mret (inl None)
  else
    id ← next_id me;
    mret (match encode (MkFrame PROTOCOL_VERSION id "evt" op body) with
          | inr error => inr error
          | inl encoded =>
              inl (if length encoded <=? max_frame_bytes cfg then Some encoded else None)
          end).

Definition event (me : nat) (op : string) (body : Value) : code (bool + BridgeError) :=
  encoded ← encode_event me op body;
  match encoded with
  | inr error => mret (inr error)
  | inl None => mret (inl false)
  | inl (Some encoded) =>
      written ← write_encoded me encoded;
      mret (match written with inl _ => inl true | inr error => inr error end)
  end.

Definition stream_event (me : nat) (op : string) (body : Value) : code (bool + BridgeError) :=
  encoded ← encode_event me op body;
  match encoded with
  | inr error => mret (inr error)
  | inl None => mret (inl false)
  | inl (Some encoded) =>
      flag ← new_flag;
      enqueue_encoded me encoded flag None STREAM_QUEUE_SHARE
  end.

(** ** Waiting for the end *)

(** A look under the lifecycle's lock, until it finds what it waits for. *)
Definition wait_lifecycle {B : Type} (f : st -> option B) : code B :=
  await (fun s => match held (s_life s) with Some _ => None | None => b ← f s; Some (s, b) end).

Definition wait_for_the_writer (deadline : Z) : code bool :=
  wait_lifecycle (fun s =>
    if transport_workers (s_life s) =? 0 then Some true
    else if (deadline <=? now (s_world s))%Z then Some false else None).

Definition end_output (within : Z) : code bool :=
  close_input;;
  instant ← look (fun s => now (s_world s));
  flushed ← wait_for_the_writer (instant + within)%Z;
  cut_output;;
  mret flushed.

Definition wait_closed : code unit :=
  wait_lifecycle (fun s =>
    if lc_closed (s_life s) && (in_flight_handlers (s_work s) =? 0)
       && (transport_workers (s_life s) =? 0) then Some tt else None).

(** What [wait_launches_closed] waits for. *)
Definition launches_closed s : bool :=
  lc_closed (s_life s) && (in_flight_launches (s_work s) =? 0).

Definition wait_launches_closed : code unit :=
  wait_lifecycle (fun s => if launches_closed s then Some tt else None).

(** ** Answering the peer *)

Definition respond (me : nat) (id op : string) (body : Value) : code (unit + BridgeError) :=
  let frame body := MkFrame PROTOCOL_VERSION id "res" op body in
  match encode (frame body) with
  | inr error => mret (inr error)
  | inl encoded =>
      if max_frame_bytes cfg <? length encoded then
        match encode (frame too_large_body) with
        | inr error => mret (inr error)
        | inl encoded =>
            if max_frame_bytes cfg <? length encoded then
              let error := MalformedFrame (CannotFit id) in
              fail_transport me error;; mret (inr error)
            else write_encoded me encoded
        end
      else write_encoded me encoded
  end.

Definition respond_or_report (me : nat) (id op : string) (body : Value) : code unit :=
  result ← respond me id op body;
  match result with
  | inl _ => mret tt
  | inr error => gone ← is_closed; if gone : bool then mret tt else report error
  end.

(** A step under the lifecycle's lock. *)
Definition with_lifecycle {B : Type} (f : st -> st * B) : code B :=
  await (fun s => match held (s_life s) with Some _ => None | None => Some (f s) end).

(** The admission of a handler, none once closed; its thread is to start with it. *)
Definition admit_handler (me : nat) (launches_panes : bool) : code (option nat) :=
  with_lifecycle (fun s =>
    if lc_closed (s_life s) then (s, None)
    else
      (set_work (fun w => Work (S (in_flight_handlers w))
                               ((if launches_panes then S else id) (in_flight_launches w))
                               (<[next_admission w := (launches_panes, Some me)]> (admissions w))
                               (S (next_admission w)) (starting w) (running w)) s,
       Some (next_admission (s_work s)))).

(** [drop(admission)] *)
Definition finish_handler (admission : nat) (launches_panes : bool) : code unit :=
  with_lifecycle (fun s =>
    (set_work (fun w => Work (in_flight_handlers w - 1)
                             (in_flight_launches w - (if launches_panes then 1 else 0))
                             (delete admission (admissions w)) (next_admission w) (starting w)
                             (running w)) s, tt)).

(** [thread::spawn]; a handler's admission goes with it. *)
Definition spawn (x : start) : code unit :=
  change (set_work (fun w =>
    Work (in_flight_handlers w) (in_flight_launches w)
         (match x with
          | StartHandler a _ _ launches _ => <[a := (launches, None)]> (admissions w)
          | StartEvent _ _ _ => admissions w
          end) (next_admission w) (starting w ++ [x]) (running w))).

Definition dispatch_request (me : nat) (frame : Frame) : code unit :=
  match handlers cfg !! op frame with
  | None => respond_or_report me (fr_id frame) (op frame) unknown_op_body
  | Some launches =>
      admission ← admit_handler me launches;
      match admission with
      | None => mret tt
      | Some a => spawn (StartHandler a (fr_id frame) (op frame) launches (body frame))
      end
  end.

(** What the answer's request is, under the lock of [pending]: its sender; another op. *)
Definition take_pending (frame : Frame) : code (option nat + string) :=
  act (fun s =>
    match pending (s_asking s) !! fr_id frame with
    | None => (s, inl None)
    | Some request =>
        if decide (p_op request = op frame) then
          (set_asking (fun a => Asking (minters a) (delete (fr_id frame) (pending a)) (chans a)
                                       (drained a) (Some (p_sender request))) s,
           inl (Some (p_sender request)))
        else (s, inr (p_op request))
    end).

Definition dispatch_response (frame : Frame) : code unit :=
  found ← take_pending frame;
  match found with
  | inr expected => report (MalformedFrame (OpMismatch (fr_id frame) (op frame) expected))
  | inl None => mret tt
  | inl (Some c) => send_answer c (inl (body frame))
  end.

Fixpoint spawn_events (frame : Frame) (n count : nat) : code unit :=
  match count with
  | O => mret tt
  | S count => spawn (StartEvent (op frame) n (body frame));; spawn_events frame (S n) count
  end.

Definition dispatch_event (frame : Frame) : code unit :=
  match event_handlers cfg !! op frame with
  | None => mret tt
  | Some count => spawn_events frame 0 count
  end.

(** [serde_json::from_slice]: bytes that are no text are no frame. *)
Definition from_slice (raw : list byte) : Frame + string :=
  match from_utf8 raw with
  | Some text => from_str text
  | None => inr "invalid unicode code point"%string
  end.

Definition valid_namespace (frame : Frame) : bool :=
  if decide (kind frame = "res"%string) then starts_with (fr_id frame) (prefix (role cfg))
  else starts_with (fr_id frame) (prefix (peer (role cfg))).

Definition dispatch_line (me : nat) (raw : list byte) : code unit :=
  gone ← is_closed;
  if gone : bool then mret tt
  else if max_frame_bytes cfg <? length raw then report (MalformedFrame OverTheLimit)
  else
    match from_slice raw with
    | inr error => report (MalformedFrame (NotRead error))
    | inl frame =>
        if negb (is_well_formed frame)
        then report (MalformedFrame (NotWellFormed (from_utf8_lossy raw)))
        else if negb (valid_namespace frame)
        then report (MalformedFrame (WrongNamespace (fr_id frame) (kind frame)))
        else if decide (kind frame = "req"%string) then dispatch_request me frame
        else if decide (kind frame = "res"%string) then dispatch_response frame
        else dispatch_event frame
    end.

(** ** The reader *)

(** [BufReader::fill_buf], over a stream that on Unix ends as the shutdown is requested. *)
Definition fill_buf : code (list byte + string) :=
  await (fun s =>
    let w := s_world s in
    match buffer w with
    | _ :: _ => Some (s, inl (buffer w))
    | [] =>
        if interruptible cfg && requested (s_life s) then Some (s, inl [])
        else
          match input w with
          | [] => None
          | inl [] :: _ => Some (s, inl [])
          | inl chunk :: rest =>
              Some (set_world (fun w => World (now w) rest chunk (writes w) (written w) (reports w)) s,
                    inl chunk)
          | inr error :: rest =>
              Some (set_world (fun w => World (now w) rest [] (writes w) (written w) (reports w)) s,
                    inr error)
          end
    end).

Definition consume (n : nat) : code unit :=
  change (set_world (fun w => set_buffer (drop n (buffer w)) w)).

Definition trim_line_ending (line : list byte) : list byte :=
  let line := if decide (last line = Some lf) then vec_pop line else line in
  if decide (last line = Some cr) then vec_pop line else line.

(** On to the end of the line that overflowed: what ends the reading, or none; if it is there. *)
Definition discard_more : code (option (option (BoundedLine + string))) :=
  available ← fill_buf;
  match available with
  | inr error => mret (Some (Some (inr error)))
  | inl [] => mret (Some (Some (inl BEof)))
  | inl available =>
      let newline := position is_lf available in
      consume (match newline with Some index => index + 1 | None => length available end);;
      mret (match newline with Some _ => Some None | None => None end)
  end.

Definition discard_line : code (option (BoundedLine + string)) := loop discard_more.

(** More of a line: the line so far, or what is read, and whether the rest of its line is to
    be discarded. *)
Definition read_more (max_bytes : nat) (line : list byte) :
    code (list byte + (BoundedLine + string) * bool) :=
  available ← fill_buf;
  match available with
  | inr error => mret (inr (inr error, false))
  | inl [] => mret (inr (inl (match line with [] => BEof | _ => BUnterminated end), false))
  | inl available =>
      match position is_lf available with
      | Some newline =>
          consume (newline + 1);;
          mret (inr (inl (if max_bytes <? length line + newline then BOverflow
                          else BComplete (trim_line_ending (line ++ take newline available))),
                     false))
      | None =>
          consume (length available);;
          mret (if max_bytes <? length line + length available
                then inr (inl BOverflow, true) else inl (line ++ available))
      end
  end.

Definition read_bounded_line (max_bytes : nat) (discarding : bool) :
    code ((BoundedLine + string) * bool) :=
  ended ← (if discarding then discard_line else mret None);
  match ended with
  | Some ended => mret (ended, true)
  | None => Iter [] (read_more max_bytes) mret
  end.

(** [TransportWorker::drop] *)
Definition worker_ended : code unit := with_lifecycle (fun s => (set_life worker_gone s, tt)).

Definition reader (me : nat) : code unit :=
  Iter false (fun discarding =>
    gone ← is_closed;
    if gone : bool then mret (inr tt)
    else
      '(outcome, discarding) ← read_bounded_line (max_frame_bytes cfg) discarding;
      match outcome with
      | inl BEof => close_with_eof me;; mret (inr tt)
      | inl (BComplete line) =>
          (match line with [] => mret tt | _ => dispatch_line me line end);; mret (inl discarding)
      | inl BOverflow => report (MalformedFrame OverTheLimit);; mret (inl discarding)
      | inl BUnterminated =>
          report (MalformedFrame (NotRead "unterminated frame at EOF"));;
          close_with_eof me;; mret (inr tt)
      | inr error => report (Io error);; close_with_eof me;; mret (inr tt)
      end) (fun _ => worker_ended).

(** ** The writer *)

(** [jobs.recv()]: the next job; none once the queue is empty and its sender gone. *)
Definition recv : code (option WriteJob) :=
  await (fun s =>
    let q := s_queue s in
    match channel q with
    | job :: rest =>
        Some (set_queue (fun q => Queue (writer q) rest (receiver q) (queued q) (flags q)
                                        (next_flag q) (accepted q) (fates q ++ [(job, InHand)])) s,
              Some job)
    | [] => if writer q then None else Some (s, None)
    end).

Definition count_taken : code unit :=
  change (set_queue (fun q => Queue (writer q) (channel q) (receiver q) (queued q - 1)%Z (flags q)
                                    (next_flag q) (accepted q) (fates q))).

Definition is_canceled (job : WriteJob) : code bool :=
  act (fun s => if decide (canceled job ∈ flags (s_queue s))
                then (set_queue (decided Passed) s, true) else (s, false)).

(** [writer.write_all(..)] and its flush, over a stream that on Unix breaks as the shutdown
    is requested: how it goes is the peer's. *)
Definition write_all (job : WriteJob) : code (option string) :=
  await (fun s =>
    let w := s_world s in
    let wrote f line error writes :=
      (set_queue (decided f) (set_world (fun w =>
         World (now w) (input w) (buffer w) writes (written w ++ line) (reports w)) s), error) in
    match writes w with
    | None :: rest => Some (wrote Wrote (bytes job) None rest)
    | Some (n, error) :: rest => Some (wrote (Cut n) (take n (bytes job)) (Some error) rest)
    | [] =>
        if interruptible cfg && requested (s_life s)
        then Some (wrote (Cut 0) [] (Some "bridge transport is closed"%string) []) else None
    end).

Definition writer_loop (me : nat) : code unit :=
  loop (
    job ← recv;
    match job with
    | None => mret (Some tt)
    | Some job =>
        count_taken;;
        given_up ← is_canceled job;
        if given_up : bool then mret None
        else
          ended ← output_closed;
          if ended : bool then change (set_queue (decided Dropped));; mret (Some tt)
          else
            failed ← write_all job;
            match failed with
            | Some error => fail_transport me (Io error);; mret (Some tt)
            | None => mret None
            end
    end).

(** The queue's receiver goes as the loop ends, and what is queued with it. *)
Definition writer_thread (me : nat) : code unit :=
  writer_loop me;;
  change (set_queue (fun q => Queue (writer q) [] false (queued q) (flags q) (next_flag q)
                                    (accepted q) (fates q)));;
  worker_ended.

(** ** Handlers, and the app's threads *)

Definition run_call {B : Type} (me : nat) (c : call B) : code B :=
  match c with
  | Request op body deadline => request me op body deadline
  | Event op body => event me op body
  | StreamEvent op body => stream_event me op body
  | IsClosed => is_closed
  | CloseInput => close_input
  | EndOutput within => end_output within
  | WaitClosed => wait_closed
  | WaitLaunchesClosed => wait_launches_closed
  end.

Fixpoint run_client {A : Type} (me : nat) (c : client A) : code A :=
  match c with
  | Return a => mret a
  | Call c k => r ← run_call me c; run_client me (k r)
  end.

Definition enter_handler (admission : nat) : code unit :=
  change (set_work (fun w => Work (in_flight_handlers w) (in_flight_launches w) (admissions w)
                                  (next_admission w) (starting w) ({[admission]} ∪ running w))).
Definition leave_handler (admission : nat) : code unit :=
  change (set_work (fun w => Work (in_flight_handlers w) (in_flight_launches w) (admissions w)
                                  (next_admission w) (starting w) (running w ∖ {[admission]}))).

(** A request's handler: the admission goes once it is done, also where it panics. *)
Definition serve (me admission : nat) (id op : string) (launches_panes : bool) (body : Value) :
    code unit :=
  enter_handler admission;;
  result ← run_client me (handler env op body);
  leave_handler admission;;
  finish_handler admission launches_panes;;
  match result with
  | None => mret tt
  | Some (inl body) => respond_or_report me id op body
  | Some (inr error) => respond_or_report me id op (refusal error)
  end.

(** The [n]th thread to start goes, as the thread [me]. *)
Definition begin (me n : nat) s : option (st * code unit) :=
  x ← starting (s_work s) !! n;
  let s := set_work (fun w =>
    Work (in_flight_handlers w) (in_flight_launches w)
         (match x with
          | StartHandler a _ _ launches _ => <[a := (launches, Some me)]> (admissions w)
          | StartEvent _ _ _ => admissions w
          end) (next_admission w) (delete n (starting w)) (running w)) s in
  Some (s, match x with
           | StartHandler a id op launches body => serve me a id op launches body
           | StartEvent op i body => run_client me (event_handler env op i body)
           end).

(** What is outside: time passes, the peer's bytes come (or the reading fails), and the next
    write goes through, or after some of its bytes not. *)
Inductive outside := Passes (elapsed : nat) | Comes (chunk : list byte + string)
                   | Goes (how : option (nat * string)).

Definition outside_step (e : outside) s : option st :=
  Some (set_world (fun w =>
    match e with
    | Passes d => World (now w + Z.of_nat d) (input w) (buffer w) (writes w) (written w) (reports w)
    | Comes chunk => World (now w) (input w ++ [chunk]) (buffer w) (writes w) (written w) (reports w)
    | Goes how => World (now w) (input w) (buffer w) (writes w ++ [how]) (written w) (reports w)
    end) s).

(** [build] and [start_reader], with a channel whose writer and reader are the first threads;
    then the app's. *)
Definition built (apps : list (nat -> client unit)) : config (S := st) :=
  Config
    (St (Life false false false false 2 None None 0)
        (Asking [] ∅ [] ∅ None)
        (Work 0 0 ∅ 0 [] ∅)
        (Queue true [] true 0 ∅ 0 [] [])
        (World 0 [] [] [] [] []))
    (writer_thread 0 :: reader 1 :: imap (fun i app => run_client (2 + i) (app (2 + i))) apps).
End Bridge.
