(* ===== verification/BridgeThreadsSafe.v ===== *)
(** * What the bridge's threads keep: the invariant, and its calls

    The invariant of [BridgeThreads]'s state ([inv]), part by part, what each thread
    guarantees the others ([gua]), and that every call of the bridge keeps to both
    ([keeps_run_call]), the close by an account of its steps ([closing], [draining],
    [telling]). *)
From stdpp Require Import gmap.
From S2P Require Import Prelude Utf8 Lines Frames Threads BridgeThreads.
#[local] Open Scope nat_scope.

Section Safe.
Context `{Serde} (cfg : settings) (env : closures).
Implicit Types s : st.

(** ** The invariant *)

Record life_ok (l : life) : Prop := {
  closed_by : forall i, closer l = Some i -> lc_closed l = true;
  closed_flag : closed l = true -> lc_closed l = true;
  held_by : forall i, held l = Some i -> closer l = Some i /\ lc_closed l = true;
  closes_once : closes l <= 1;
  closes_after : closes l = 1 -> lc_closed l = true /\ held l = None
}.

(** A channel whose sender lives, with no answer: its sender is where one may use it. *)
Definition alive (a : asking) (c : nat) : Prop :=
  exists id op, chans a !! c = Some (Chan id op None true).

Record asking_ok (a : asking) : Prop := {
  pending_chan : forall id r, pending a !! id = Some r ->
    chans a !! p_sender r = Some (Chan id (p_op r) None true);
  pending_apart : forall id r, pending a !! id = Some r ->
    (p_sender r ∉ drained a) /\ taken a <> Some (p_sender r);
  drained_alive : forall c, c ∈ drained a -> alive a c /\ taken a <> Some c;
  taken_alive : forall c, taken a = Some c -> alive a c;
  sender_placed : forall c x, chans a !! c = Some x -> c_sender x = true ->
    pending a !! c_id x = Some (MkPending (c_op x) c) \/ c ∈ drained a \/ taken a = Some c;
  pending_minted : forall id r, pending a !! id = Some r ->
    exists n, n < length (minters a) /\ id = minted (role cfg) (Z.of_nat n + 1)
}.

(** What a close leaves of the requests. *)
Record settled_ok (l : life) (a : asking) : Prop := {
  settled_after : lc_closed l = true -> held l = None ->
    closed l = true /\ pending a = ∅ /\ drained a = ∅;
  settled_before : lc_closed l = false -> drained a = ∅
}.

Definition launching (kv : nat * (bool * option nat)) : Prop := kv.2.1 = true.

Definition launch_count (m : gmap nat (bool * option nat)) : nat :=
  size (filter launching m).

(** The admissions that wait for their thread to start. *)
Definition waiting (l : list start) : list nat :=
  omap (fun x => match x with StartHandler a _ _ _ _ => Some a | StartEvent _ _ _ => None end) l.

Record work_ok (w : work) : Prop := {
  handlers_counted : in_flight_handlers w = size (admissions w);
  launches_counted : in_flight_launches w = launch_count (admissions w);
  admissions_made : forall a x, admissions w !! a = Some x -> a < next_admission w;
  starting_admitted : forall a id op launches body,
    StartHandler a id op launches body ∈ starting w -> admissions w !! a = Some (launches, None);
  starting_once : NoDup (waiting (starting w));
  running_admitted : forall a, a ∈ running w -> exists l i, admissions w !! a = Some (l, Some i)
}.

(** A job is the line of a frame within the limit. *)
Definition is_line (job : WriteJob) : Prop :=
  exists frame line, to_vec frame = inl line /\ length line <= max_frame_bytes cfg /\
                     bytes job = line ++ [lf].

Definition fate_bytes (jf : WriteJob * fate) : list byte :=
  match jf.2 with Wrote => bytes jf.1 | Cut n => take n (bytes jf.1) | _ => [] end.

(** A job that is done with, and the writer went on. *)
Definition done_with (f : fate) : Prop := f = Wrote \/ f = Passed.

Record queue_ok (q : queue) (out : list byte) : Prop := {
  queue_bounded : length (channel q) <= WRITER_QUEUE_CAPACITY;
  queue_counted : receiver q = true ->
    (Z.of_nat (length (channel q)) <= queued q <= Z.of_nat (length (channel q)) + 1)%Z;
  queue_order : (fst <$> fates q) ++ channel q `prefix_of` accepted q;
  queue_whole : receiver q = true -> accepted q = (fst <$> fates q) ++ channel q;
  queue_gone : receiver q = false -> channel q = [];
  queue_lines : Forall is_line (accepted q);
  fates_last : forall i j f, fates q !! i = Some (j, f) -> ~ done_with f -> S i = length (fates q);
  fates_passed : forall j, (j, Passed) ∈ fates q -> canceled j ∈ flags q;
  queue_output : out = concat (fate_bytes <$> fates q)
}.

Record inv s : Prop := {
  inv_life : life_ok (s_life s);
  inv_asking : asking_ok (s_asking s);
  inv_settled : settled_ok (s_life s) (s_asking s);
  inv_work : work_ok (s_work s);
  inv_queue : queue_ok (s_queue s) (written (s_world s))
}.

(** ** The guarantee *)

Record gua_life (j : nat) (l l' : life) : Prop := {
  life_closed : closed l = true -> closed l' = true;
  life_lc_closed : lc_closed l = true -> lc_closed l' = true;
  life_closer : forall i, closer l = Some i -> closer l' = Some i;
  life_held : forall i, i <> j -> held l = Some i -> held l' = Some i;
  life_free : lc_closed l = true -> held l = None -> held l' = None;
  life_closes : forall i, i <> j -> closer l = Some i -> closes l' = closes l
}.

Record gua_asking (j : nat) (l : life) (a a' : asking) : Prop := {
  asking_minters : minters a `prefix_of` minters a';
  asking_closed : closed l = true -> forall id r, pending a' !! id = Some r -> pending a !! id = Some r;
  asking_pending : forall id r, pending a' !! id = Some r -> pending a !! id = Some r \/
    exists n, minters a !! n = Some j /\ id = minted (role cfg) (Z.of_nat n + 1);
  asking_drained : forall i, i <> j -> held l = Some i -> drained a' = drained a;
  asking_taken : j <> 1 -> taken a' = taken a
}.

Record gua_work (j : nat) (l : life) (w w' : work) : Prop := {
  work_owned : forall a x i, i <> j -> admissions w !! a = Some (x, Some i) ->
    admissions w' !! a = Some (x, Some i) /\ (a ∈ running w <-> a ∈ running w');
  work_closed : lc_closed l = true -> forall a x o, admissions w' !! a = Some (x, o) ->
    exists o', admissions w !! a = Some (x, o')
}.

Record gua_queue (j : nat) (q q' : queue) : Prop := {
  queue_lag : j <> 0 ->
    (queued q' - Z.of_nat (length (channel q')) = queued q - Z.of_nat (length (channel q)))%Z;
  queue_fates : j <> 0 -> fates q' = fates q;
  queue_receiver : j <> 0 -> receiver q' = receiver q
}.

Record gua (j : nat) s s' : Prop := {
  g_life : gua_life j (s_life s) (s_life s');
  g_asking : gua_asking j (s_life s) (s_asking s) (s_asking s');
  g_work : gua_work j (s_life s) (s_work s) (s_work s');
  g_queue : gua_queue j (s_queue s) (s_queue s')
}.

Lemma gua_life_refl j l : gua_life j l l.
Proof. by split. Qed.
Lemma gua_asking_refl j l a : gua_asking j l a a.
Proof. split; auto. Qed.
Lemma gua_work_refl j l w : gua_work j l w w.
Proof. split; eauto. Qed.
Lemma gua_queue_refl j q : gua_queue j q q.
Proof. by split. Qed.
#[local] Hint Resolve gua_life_refl gua_asking_refl gua_work_refl gua_queue_refl : cf.

Lemma gua_refl j s : gua j s s.
Proof. split; auto with cf. Qed.

(** What a thread does in a call of the bridge: nothing to the handlers, nor to what is the
    reader's and the writer's alone. *)
Record gua_call (j : nat) s s' : Prop := {
  call_gua : gua j s s';
  call_work : s_work s' = s_work s;
  call_taken : taken (s_asking s') = taken (s_asking s);
  call_queue : gua_queue 1 (s_queue s) (s_queue s')
}.

Lemma gua_call_refl j s : gua_call j s s.
Proof. split; [apply gua_refl|done|done|apply gua_queue_refl]. Qed.

Lemma gua_queue_any j q q' : gua_queue 1 q q' -> gua_queue j q q'.
Proof. intros [H1 H2 H3]. split; intros _; by auto. Qed.

(** ** Steps of one part of the state *)

Lemma step_world j f s :
  written (f (s_world s)) = written (s_world s) ->
  inv s -> inv (set_world f s) /\ gua_call j s (set_world f s).
Proof.
  intros E [Hl Ha Hs Hw Hq]. split; [|split; simpl; auto with cf; by split; simpl; auto with cf].
  split; simpl; try done. by rewrite E.
Qed.

Lemma step_life j f s :
  (inv s -> life_ok (f (s_life s)) /\ settled_ok (f (s_life s)) (s_asking s) /\
            gua_life j (s_life s) (f (s_life s))) ->
  inv s -> inv (set_life f s) /\ gua_call j s (set_life f s).
Proof.
  intros Hf Hs. destruct (Hf Hs) as (? & ? & ?). destruct Hs as [Hl Ha Hs Hw Hq].
  split; split; simpl; auto with cf. by split; simpl; auto using gua_queue_any with cf.
Qed.

Lemma step_asking j f s :
  (inv s -> asking_ok (f (s_asking s)) /\ settled_ok (s_life s) (f (s_asking s)) /\
            gua_asking j (s_life s) (s_asking s) (f (s_asking s)) /\
            taken (f (s_asking s)) = taken (s_asking s)) ->
  inv s -> inv (set_asking f s) /\ gua_call j s (set_asking f s).
Proof.
  intros Hf Hs. destruct (Hf Hs) as (? & ? & ? & ?). destruct Hs as [Hl Ha Hs Hw Hq].
  split; split; simpl; auto with cf. by split; simpl; auto using gua_queue_any with cf.
Qed.

Lemma step_work j f s :
  (inv s -> work_ok (f (s_work s)) /\ gua_work j (s_life s) (s_work s) (f (s_work s))) ->
  inv s -> inv (set_work f s) /\ gua j s (set_work f s).
Proof.
  intros Hf Hs. destruct (Hf Hs) as (? & ?). destruct Hs as [Hl Ha Hs Hw Hq].
  split; split; simpl; auto with cf.
Qed.

Lemma step_queue j f s :
  (inv s -> queue_ok (f (s_queue s)) (written (s_world s)) /\ gua_queue 1 (s_queue s) (f (s_queue s))) ->
  inv s -> inv (set_queue f s) /\ gua_call j s (set_queue f s).
Proof.
  intros Hf Hs. destruct (Hf Hs) as (? & ?). destruct Hs as [Hl Ha Hs Hw Hq].
  split; split; simpl; auto with cf. by split; simpl; auto using gua_queue_any with cf.
Qed.

(** ** Counting the launches *)

Lemma launch_count_delete m a l o :
  m !! a = Some (l, o) ->
  launch_count m = (if l : bool then 1 else 0) + launch_count (delete a m).
Proof.
  intros E. unfold launch_count. rewrite map_filter_delete.
  rewrite <- (insert_delete_id m a (l, o) E) at 1.
  destruct l.
  - rewrite map_filter_insert_True by done. rewrite map_size_insert_None; [by rewrite map_filter_delete|].
    rewrite map_filter_delete. apply lookup_delete_eq.
  - rewrite map_filter_insert_False by done.
    by rewrite delete_delete_eq, map_filter_delete.
Qed.

Lemma launch_count_insert m a l o :
  m !! a = None ->
  launch_count (<[a := (l, o)]> m) = (if l : bool then 1 else 0) + launch_count m.
Proof.
  intros E. rewrite (launch_count_delete _ a l o) by apply lookup_insert_eq.
  by rewrite delete_insert_id.
Qed.

Lemma launch_count_update m a l o o' :
  m !! a = Some (l, o) -> launch_count (<[a := (l, o')]> m) = launch_count m.
Proof.
  intros E. rewrite (launch_count_delete _ a l o') by apply lookup_insert_eq.
  by rewrite (launch_count_delete m a l o E), delete_insert_eq.
Qed.

(** Nothing launches where none is counted. *)
Lemma launch_count_zero m a l o : launch_count m = 0 -> m !! a = Some (l, o) -> l = false.
Proof. intros E Ha. rewrite (launch_count_delete m a l o Ha) in E. by destruct l. Qed.

(** ** What is outside, and the threads that start *)

Lemma outside_gua e s s' : inv s -> outside_step e s = Some s' -> inv s' /\ forall j, gua j s s'.
Proof.
  intros Hs [= <-]. split; [|intros j; apply call_gua]; apply (step_world 0) || apply (step_world j); by destruct e.
Qed.

Lemma waiting_delete l n x :
  l !! n = Some x -> waiting l ≡ₚ waiting [x] ++ waiting (delete n l).
Proof.
  intros E. unfold waiting. rewrite <- omap_app. apply omap_Permutation.
  simpl. by apply delete_Permutation.
Qed.

Lemma waiting_in l a id op launches body :
  StartHandler a id op launches body ∈ l -> a ∈ waiting l.
Proof. intros E. apply list_elem_of_omap. by eexists. Qed.

Lemma begin_work_ok t n w x :
  work_ok w -> starting w !! n = Some x ->
  work_ok (Work (in_flight_handlers w) (in_flight_launches w)
         (match x with
          | StartHandler a _ _ launches _ => <[a := (launches, Some t)]> (admissions w)
          | StartEvent _ _ _ => admissions w
          end) (next_admission w) (delete n (starting w)) (running w)).
Proof.
  intros [Hh Hl Hm Hsa Hso Hr] Ex.
  pose proof (waiting_delete _ _ _ Ex) as Hw. rewrite Hw in Hso.
  assert (forall y, y ∈ delete n (starting w) -> y ∈ starting w) as Hin.
  { intros y Hy. rewrite (delete_Permutation _ _ _ Ex). by right. }
  destruct x as [a id op launches body|op i body].
  - assert (Ha : admissions w !! a = Some (launches, None)) by (eapply Hsa, list_elem_of_lookup_2, Ex).
    split; simpl.
    + by rewrite map_size_insert_Some.
    + by rewrite (launch_count_update _ _ _ None).
    + intros b y [[<- <-]|[_ Hb]]%lookup_insert_Some; eauto.
    + intros b id' op' l' body' Hb. rewrite lookup_insert_ne; [by eapply Hsa, Hin|].
      intros <-. apply waiting_in in Hb. simpl in Hso. by apply NoDup_cons in Hso as [].
    + simpl in Hso. by apply NoDup_cons in Hso as [].
    + intros b Hb. destruct (decide (a = b)) as [<-|Hab].
      * rewrite lookup_insert_eq. eauto.
      * rewrite lookup_insert_ne by done. auto.
  - simpl in Hso. split; simpl; try done. intros; eapply Hsa, Hin; done.
Qed.

Lemma begin_work_gua t n w x j l :
  work_ok w -> starting w !! n = Some x ->
  gua_work j l w (Work (in_flight_handlers w) (in_flight_launches w)
         (match x with
          | StartHandler a _ _ launches _ => <[a := (launches, Some t)]> (admissions w)
          | StartEvent _ _ _ => admissions w
          end) (next_admission w) (delete n (starting w)) (running w)).
Proof.
  intros Hw Ex. destruct x as [a id op launches body|op i body]; [|split; simpl; eauto].
  assert (Ha : admissions w !! a = Some (launches, None))
    by (eapply starting_admitted, list_elem_of_lookup_2; done).
  split; simpl.
  - intros b y i _ Hb. split; [rewrite lookup_insert_ne; [done|congruence]|done].
  - intros _ b y o [[<- [= <- <-]]|[_ Hb]]%lookup_insert_Some; eauto.
Qed.

Lemma begin_gua t n s s' p :
  inv s -> begin cfg env t n s = Some (s', p) -> inv s' /\ forall j, gua j s s'.
Proof.
  intros Hs E. unfold begin in E.
  destruct (starting (s_work s) !! n) as [x|] eqn:Ex; [|done]. injection E as <- <-.
  enough (forall j, inv (set_work _ s) /\ gua j s (set_work _ s)) as HH
    by (split; [apply (HH 0)|intros j; apply (HH j)]).
  intros j. apply step_work; [|done]. intros [_ _ _ Hw _].
  eauto using begin_work_ok, begin_work_gua.
Qed.

(** ** The logic of one thread *)

Definition others (i : nat) : st -> st -> Prop := rely_of outside_step (begin cfg env) gua i.

Lemma others_gua i s s' : inv s -> others i s s' -> exists j, j <> i /\ gua j s s'.
Proof.
  intros Hs [[e He]|[(t & n & p & Hb)|(j & Hj & Hg)]]; [| |by exists j].
  - exists (S i). split; [lia|]. by eapply outside_gua.
  - exists (S i). split; [lia|]. by eapply begin_gua.
Qed.

(** What every other thread's guarantee leaves is left by the others. *)
Lemma stable_by me (P : st -> Prop) :
  (forall j s s', j <> me -> inv s -> inv s' -> gua j s s' -> P s -> P s') ->
  stable inv (others me) P.
Proof.
  intros HP s s' Hs Hs' Ho. destruct (others_gua _ _ _ Hs Ho) as (j & Hj & Hg). eauto.
Qed.

Definition sound {A : Type} (me : nat) (P : st -> Prop) (p : prog st A) (Q : A -> st -> Prop) : Prop :=
  safe inv (others me) (gua_call me) P p Q.

Lemma stable_True me : stable inv (others me) (fun _ => True).
Proof. done. Qed.

Lemma stable_and me P Q :
  stable inv (others me) P -> stable inv (others me) Q -> stable inv (others me) (fun s => P s /\ Q s).
Proof. intros HP HQ s s' H1 H2 H3 [? ?]. eauto. Qed.

(** A program that needs nothing but the invariant, and says nothing of what it gives. *)
Definition keeps {A : Type} (me : nat) (p : prog st A) : Prop :=
  sound me (fun _ => True) p (fun _ _ => True).

Lemma sound_bind {A B} me (R : A -> st -> Prop) P Q (p : prog st A) (k : A -> prog st B) :
  sound me P p R -> (forall a, sound me (R a) (k a) Q) -> sound me P (p ≫= k) Q.
Proof. apply safe_bind. Qed.

Lemma sound_ret {A} me (a : A) (P : st -> Prop) (Q : A -> st -> Prop) :
  (forall s, inv s -> P s -> Q a s) -> sound me P (mret a) Q.
Proof. apply safe_ret. Qed.

Lemma sound_pre {A} me (P P' : st -> Prop) (p : prog st A) Q :
  sound me P p Q -> (forall s, inv s -> P' s -> P s) -> sound me P' p Q.
Proof. intros Hp HP. by eapply safe_pre. Qed.

Lemma sound_post {A} me P (p : prog st A) (Q Q' : A -> st -> Prop) :
  sound me P p Q -> (forall a s, inv s -> Q a s -> Q' a s) -> sound me P p Q'.
Proof. intros Hp HQ. by eapply safe_post. Qed.

(** A step, from what it does to a state of [P]. *)
Lemma sound_act {B} me (f : st -> st * B) (P : st -> Prop) (R : B -> st -> Prop) :
  (forall b, stable inv (others me) (R b)) ->
  (forall s, inv s -> P s -> inv (f s).1 /\ gua_call me s (f s).1 /\ R (f s).2 (f s).1) ->
  sound me P (act f) R.
Proof. apply safe_act. Qed.

Lemma sound_change me (f : st -> st) (P : st -> Prop) (R : st -> Prop) :
  stable inv (others me) R ->
  (forall s, inv s -> P s -> inv (f s) /\ gua_call me s (f s) /\ R (f s)) ->
  sound me P (change f) (fun _ => R).
Proof. intros HR Hf. by apply sound_act. Qed.

(** What the others leave, and a call of this thread's, is so through any calls. *)
Lemma sound_keeps {A} me (p : prog st A) (P : st -> Prop) :
  stable inv (others me) P ->
  (forall s s', inv s -> inv s' -> gua_call me s s' -> P s -> P s') -> keeps me p ->
  sound me P p (fun _ => P).
Proof.
  intros HSt HP. unfold keeps, sound.
  enough (Hgen : forall B (p : prog st B) (P1 : st -> Prop) (Q1 : B -> st -> Prop),
    safe inv (others me) (gua_call me) P1 p Q1 ->
    safe inv (others me) (gua_call me) (fun s => P1 s /\ P s) p (fun b s => Q1 b s /\ P s)).
  { intros Hp. apply (sound_post me _ p (fun _ s => True /\ P s)); [|by intros a s _ []].
    apply (sound_pre me (fun s => True /\ P s)); [by apply Hgen|by auto]. }
  clear A p. intros B p. induction p as [A a|A B f k IH|A X B x turn IHt k IH]; simpl; intros P1 Q1 Hp.
  - intros s Hs []; auto.
  - destruct Hp as (R & HR & Hf & Hk). exists (fun b s => R b s /\ P s). split_and!; [|..|by auto].
    + intros b. by apply stable_and.
    + intros s s' b Hs [H1 H2] E. destruct (Hf s s' b Hs H1 E) as (? & ? & ?). split_and!; eauto.
  - destruct Hp as (J & R & HJ & HR & Hx & Ht & Hk).
    exists (fun x s => J x s /\ P s), (fun b s => R b s /\ P s). split_and!; [| | | |by auto].
    + intros y. by apply stable_and.
    + intros b. by apply stable_and.
    + intros s Hs []; auto.
    + intros y. eapply safe_post; [|by apply IHt]. by intros [].
Qed.

Lemma keeps_sound {A} me (p : prog st A) P : keeps me p -> sound me P p (fun _ _ => True).
Proof. apply safe_pre. done. Qed.

Lemma keeps_then {A B} me (p : prog st A) (k : A -> prog st B) :
  keeps me p -> (forall a, keeps me (k a)) -> keeps me (p ≫= k).
Proof. intros Hp Hk. by eapply safe_bind. Qed.

Lemma keeps_ret {A} me (a : A) : keeps me (mret a).
Proof. done. Qed.

Lemma keeps_loop {A} me (p : prog st (option A)) : keeps me p -> keeps me (loop p).
Proof.
  intros Hp. apply safe_loop; [done..|]. eapply safe_post; [|apply Hp]. by intros [].
Qed.

Lemma keeps_iter {A X B} me (x : X) (turn : X -> prog st (X + B)) (k : B -> prog st A) :
  (forall x, keeps me (turn x)) -> (forall b, keeps me (k b)) -> keeps me (Iter x turn k).
Proof.
  intros Ht Hk. exists (fun _ _ => True), (fun _ _ => True). split_and!; [done..| |done].
  intros y. eapply safe_post; [|apply Ht]. by intros [].
Qed.

Lemma keeps_await {B} me (f : st -> option (st * B)) :
  (forall s s' b, inv s -> f s = Some (s', b) -> inv s' /\ gua_call me s s') -> keeps me (await f).
Proof. intros Hf. apply safe_await; [done|]. intros s s' b Hs _ E. destruct (Hf _ _ _ Hs E). done. Qed.

Lemma keeps_act {B} me (f : st -> st * B) :
  (forall s, inv s -> inv (f s).1 /\ gua_call me s (f s).1) -> keeps me (act f).
Proof. intros Hf. apply keeps_await. intros s s' b Hs [= E]. specialize (Hf s Hs). by rewrite E in Hf. Qed.

Lemma keeps_look {B} me (f : st -> B) : keeps me (look f).
Proof. apply keeps_act. intros s Hs. split; [done|apply gua_call_refl]. Qed.

Lemma keeps_change me (f : st -> st) :
  (forall s, inv s -> inv (f s) /\ gua_call me s (f s)) -> keeps me (change f).
Proof. intros Hf. by apply (keeps_act me (fun s => (f s, tt))). Qed.

(** ** The small steps *)

Lemma keeps_report me error : keeps me (report error).
Proof. apply keeps_change. intros s Hs. by apply step_world. Qed.

Lemma keeps_is_closed me : keeps me is_closed.
Proof. apply keeps_look. Qed.

Lemma keeps_output_closed me : keeps me (output_closed cfg).
Proof.
  apply keeps_then; [apply keeps_is_closed|]. intros [|]; [|apply keeps_ret].
  destruct (keeps_output cfg); [apply keeps_look|apply keeps_ret].
Qed.

(** A step of the queue's that leaves its jobs as they are; flags are only raised. *)
Lemma step_flags me w fl nf s :
  flags (s_queue s) ⊆ fl ->
  inv s ->
  let f := fun q => Queue w (channel q) (receiver q) (queued q) fl nf (accepted q) (fates q) in
  inv (set_queue f s) /\ gua_call me s (set_queue f s).
Proof.
  intros Hfl Hs. apply step_queue; [|done]. intros [_ _ _ _ [Hb Hc Ho Hw Hg Hl Hla Hp Hout]].
  split; [|by split]. split; simpl; try done. intros j Hj. by apply Hfl, Hp.
Qed.

Lemma keeps_new_flag me : keeps me new_flag.
Proof. apply keeps_act. intros s Hs. by apply step_flags. Qed.

Lemma keeps_cancel me flag : keeps me (cancel flag).
Proof. apply keeps_change. intros s Hs. apply step_flags; [set_solver|done]. Qed.

Lemma keeps_close_input me : keeps me close_input.
Proof. apply keeps_change. intros s Hs. by apply step_flags. Qed.

(** A step of [life] that leaves what a close is told by. *)
Lemma step_flag me c o r w s :
  (closed (s_life s) = true -> c = true) -> (c = true -> lc_closed (s_life s) = true) ->
  inv s ->
  let f := fun l => Life c o r (lc_closed l) w (held l) (closer l) (closes l) in
  inv (set_life f s) /\ gua_call me s (set_life f s).
Proof.
  intros Hc Hc' Hs. apply step_life; [|done]. intros [[H1 H2 H3 H4 H5] _ Hset _ _].
  destruct Hset as [Ha Hb]. split_and!; [by split| |by split].
  split; [|done]. intros Hl Hh. destruct (Ha Hl Hh) as (? & ? & ?). auto.
Qed.

Lemma keeps_cut_output me : keeps me cut_output.
Proof.
  apply keeps_then; [|intros _; apply keeps_then; [|intros _; apply keeps_close_input]];
    apply keeps_change; intros s Hs; apply step_flag; try done; apply (inv_life s Hs).
Qed.

(** ** Closing *)

(** This thread closes the transport, and holds the lifecycle's lock. *)
Record closing (me : nat) s : Prop := {
  closing_held : held (s_life s) = Some me;
  closing_closer : closer (s_life s) = Some me;
  closing_first : closes (s_life s) = 0
}.

Lemma stable_closing me : stable inv (others me) (closing me).
Proof.
  apply stable_by. intros j s s' Hj Hs Hs' [Hl _ _ _] [Hh Hc Hf]. split.
  - by eapply life_held.
  - by eapply life_closer.
  - rewrite (life_closes _ _ _ Hl me) by done. done.
Qed.

Lemma stable_closed me : stable inv (others me) (fun s => closed (s_life s) = true).
Proof. apply stable_by. intros j s s' Hj Hs Hs' [Hl _ _ _]. by eapply life_closed. Qed.

(** The senders still to be answered by this close. *)
Definition draining (me : nat) (cs : list nat) s : Prop :=
  closing me s /\ closed (s_life s) = true /\ pending (s_asking s) = ∅ /\
  NoDup cs /\ drained (s_asking s) = list_to_set cs.

Lemma stable_draining me cs : stable inv (others me) (draining me cs).
Proof.
  apply stable_by. intros j s s' Hj Hs Hs' Hg (Hcl & Hc & Hp & Hnd & Hd).
  split_and!; [by eapply (stable_closing me); [..|right; right; eauto|]
              |by eapply life_closed, Hc; apply Hg| |done|].
  - apply map_eq. intros id. rewrite lookup_empty. destruct (pending (s_asking s') !! id) as [r|] eqn:E; [|done].
    eapply asking_closed in E; [|apply Hg|done]. by rewrite Hp, lookup_empty in E.
  - rewrite <- Hd. eapply asking_drained; [apply Hg|done|apply Hcl].
Qed.

Lemma answered_ok c x a :
  asking_ok a -> c ∈ drained a \/ taken a = Some c -> asking_ok (answered c x a).
Proof.
  intros [Hp Ha Hd Ht Hs Hm] Hc.
  assert (Hne : forall id r, pending a !! id = Some r -> p_sender r <> c).
  { intros id r Hr E. destruct (Ha id r Hr). rewrite E in *. naive_solver. }
  assert (Hkeep : forall c', c' <> c -> alive a c' -> alive (answered c x a) c').
  { intros c' Hc' (id & op & E). exists id, op. simpl. by rewrite list_lookup_alter_ne. }
  assert (Htaken : forall c', taken (answered c x a) = Some c' -> taken a = Some c' /\ c' <> c).
  { intros c'. simpl. case_decide; [done|]. naive_solver. }
  split; simpl.
  - intros id r Hr. rewrite list_lookup_alter_ne by (apply not_eq_sym; eauto). auto.
  - intros id r Hr. destruct (Ha id r Hr). split; [set_solver|]. intros [? _]%Htaken. done.
  - intros c' Hc'. apply elem_of_difference in Hc' as [Hc' Hne']. rewrite elem_of_singleton in Hne'.
    destruct (Hd c' Hc'). split; [by apply Hkeep|]. intros [? _]%Htaken. done.
  - intros c' [Hc' Hne']%Htaken. apply Hkeep; auto.
  - intros c' y. destruct (decide (c = c')) as [<-|Hcc'].
    + rewrite list_lookup_alter_eq. intros (y0 & _ & ->)%fmap_Some. done.
    + rewrite list_lookup_alter_ne by done. intros Hy Hsend.
      destruct (Hs c' y Hy Hsend) as [?|[?|?]]; [by left|right; left; set_solver|].
      right. right. rewrite decide_False; congruence.
  - auto.
Qed.

Lemma answered_chans c x a : minters (answered c x a) = minters a /\ pending (answered c x a) = pending a.
Proof. done. Qed.

(** The close answers the requests it found, each at a step. *)
Lemma sound_send_all me cs error :
  sound me (draining me cs) (send_all cs error) (fun _ => draining me []).
Proof.
  induction cs as [|c cs IH]; [by apply sound_ret|]. cbn [send_all].
  apply (sound_bind me (fun _ => draining me cs)); [|intros []; apply IH].
  apply sound_change; [apply stable_draining|].
  intros s Hs (Hcl & Hc & Hp & Hnd & Hd).
  apply NoDup_cons in Hnd as [Hin Hnd].
  assert (Hcd : c ∈ drained (s_asking s)) by (rewrite Hd; set_solver).
  assert (Hdc : drained (s_asking s) ∖ {[c]} = list_to_set cs).
  { rewrite Hd. apply set_eq. intros y. rewrite elem_of_difference. set_solver. }
  assert (Htaken : taken (answered c error (s_asking s)) = taken (s_asking s)).
  { simpl. rewrite decide_False; [done|]. by apply (drained_alive _ (inv_asking s Hs)). }
  destruct (step_asking me (answered c error) s) as [H1 H2]; [|done|].
  { intros _. split_and!.
    - apply answered_ok; [apply Hs|by left].
    - split; [intros _ Hh; destruct Hcl; congruence|]. intros Hl. simpl.
      by rewrite (settled_before _ _ (inv_settled s Hs) Hl) in Hcd.
    - split; try done; eauto. intros i Hi Hh. destruct Hcl as [Hh' _ _]. congruence.
    - done. }
  split; [done|split; [done|]]. by destruct Hcl.
Qed.

Definition closing_started (me : nat) (already : bool) s : Prop :=
  if already then True else closing me s /\ drained (s_asking s) = ∅.

Lemma stable_closing_started me already : stable inv (others me) (closing_started me already).
Proof.
  destruct already; [done|]. apply stable_by. intros j s s' Hj Hs Hs' Hg [Hcl Hd].
  split; [by eapply (stable_closing me); [..|right; right; eauto|]|].
  rewrite <- Hd. eapply asking_drained; [apply Hg|done|apply Hcl].
Qed.

Lemma sound_take_lifecycle me :
  sound me (fun _ => True) (take_lifecycle me) (closing_started me).
Proof.
  apply safe_await; [apply stable_closing_started|].
  intros s s' b Hs _ E. destruct (held (s_life s)) eqn:Eh; [done|].
  destruct (lc_closed (s_life s)) eqn:El; injection E as <- <-.
  { split_and!; [done|apply gua_call_refl|done]. }
  destruct (inv_life s Hs) as [K1 K2 K3 K4 K5].
  assert (Hnone : closer (s_life s) = None) by (destruct (closer (s_life s)) eqn:E; [|done]; by rewrite (K1 _ eq_refl) in El).
  assert (Hzero : closes (s_life s) = 0) by (destruct (closes (s_life s)) as [|[]]; [done| |lia]; destruct K5; congruence).
  pose proof (settled_before _ _ (inv_settled s Hs) El) as Hd.
  destruct (step_life me (hold_closed me) s) as [H1 H2]; [|done|by split_and!].
  intros _. split_and!.
  - split; simpl; try done; lia.
  - done.
  - split; simpl; try done; try congruence.
Qed.

Lemma sound_drain me :
  sound me (fun s => closing_started me false s /\ closed (s_life s) = true) drain_pending (draining me).
Proof.
  apply sound_act; [apply stable_draining|]. intros s Hs [[Hcl Hnone] Hc].
  set (senders := map _ _).
  assert (Hin : forall c, c ∈ senders <-> exists id r, pending (s_asking s) !! id = Some r /\ p_sender r = c).
  { intros c. subst senders. rewrite list_elem_of_fmap. split.
    - intros ([id r] & -> & Hr%elem_of_map_to_list). eauto.
    - intros (id & r & Hr & <-). exists (id, r). split; [done|]. by apply elem_of_map_to_list. }
  destruct (inv_asking s Hs) as [Hp Ha Hd Ht Hse Hm].
  assert (Hnd : NoDup senders).
  { apply NoDup_fmap_2_strong; [|apply NoDup_map_to_list].
    intros [id r] [id' r'] Hr%elem_of_map_to_list Hr'%elem_of_map_to_list E. simpl in E.
    pose proof (Hp _ _ Hr) as E1. pose proof (Hp _ _ Hr') as E2. rewrite E in E1.
    rewrite E1 in E2. injection E2 as -> _. rewrite Hr in Hr'. congruence. }
  destruct (step_asking me (fun a => Asking (minters a) ∅ (chans a) (list_to_set senders) (taken a)) s)
    as [H1 H2]; [|done|by split; [|split; [|destruct Hcl]]].
  intros _. split_and!.
  - split; simpl; try done.
    + intros c (id & r & Hr & <-)%elem_of_list_to_set%Hin. split.
      * exists id, (p_op r). simpl. by apply Hp.
      * by apply (Ha id r).
    + intros c x Hx Hsend. destruct (Hse c x Hx Hsend) as [Hpend|[Hdr|?]]; [| |by right; right].
      * right. left. apply elem_of_list_to_set, Hin. eauto.
      * by rewrite Hnone in Hdr.
  - split; [intros _ Hh; destruct Hcl; congruence|]. intros Hl.
    destruct Hcl as [Hh Hclo _]. by rewrite (closed_by _ (inv_life s Hs) _ Hclo) in Hl.
  - split; simpl; try done. intros i Hi Hh. destruct Hcl as [Hh' _ _]. congruence.
  - done.
Qed.

(** A step of the world's says nothing of the rest. *)
Lemma sound_report me error (P : st -> Prop) :
  stable inv (others me) P -> (forall f s, P s -> P (set_world f s)) ->
  sound me P (report error) (fun _ => P).
Proof.
  intros HP Hw. apply sound_change; [done|]. intros s Hs Ps.
  destruct (step_world me (fun w => World (now w) (input w) (buffer w) (writes w) (written w)
    (reports w ++ [error])) s) as [H1 H2]; auto.
Qed.

Lemma sound_cut_output me (P : st -> Prop) :
  stable inv (others me) P ->
  (forall s, P s -> P (set_life store_output_ended s)) ->
  (forall s, P s -> P (set_life request_shutdown s)) ->
  (forall s, P s -> P (set_queue (set_sender false) s)) ->
  sound me P cut_output (fun _ => P).
Proof.
  intros HP H1 H2 H3. unfold cut_output, close_input.
  apply (sound_bind me (fun _ => P)); [|intros _; apply (sound_bind me (fun _ => P)); [|intros _]];
    (apply sound_change; [done|]; intros s Hs Ps; split; [|split; [|by auto]]);
    first [apply (step_flag me); by (try done; apply (inv_life s Hs)) | by apply (step_flags me)].
Qed.

(** The close that let go of the lock and has not told of it yet. *)
Record telling (me : nat) s : Prop := {
  telling_closer : closer (s_life s) = Some me;
  telling_held : held (s_life s) = None;
  telling_closes : closes (s_life s) = 0
}.

Lemma stable_telling me : stable inv (others me) (telling me).
Proof.
  apply stable_by. intros j s s' Hj Hs Hs' [Hl _ _ _] [Hc Hh Hz]. split.
  - by eapply life_closer.
  - eapply life_free; [done| |done]. by eapply closed_by; [apply Hs|].
  - by rewrite (life_closes _ _ _ Hl me).
Qed.

Definition closing_stored (me : nat) s : Prop :=
  closing_started me false s /\ closed (s_life s) = true.

Lemma stable_closing_stored me : stable inv (others me) (closing_stored me).
Proof. apply stable_and; [apply (stable_closing_started me false)|apply stable_closed]. Qed.

Lemma sound_store_closed me :
  sound me (closing_started me false) (change (set_life store_closed)) (fun _ => closing_stored me).
Proof.
  apply sound_change; [apply stable_closing_stored|]. intros s Hs Hcl.
  destruct Hcl as [[Hh Hc Hz] Hd].
  destruct (step_flag me true (output_ended (s_life s)) (requested (s_life s))
              (transport_workers (s_life s)) s) as [H1 H2]; [done| |done|].
  { intros _. by eapply closed_by; [apply Hs|]. }
  split; [exact H1|split; [exact H2|]]. by split; [split|].
Qed.

Lemma sound_let_go me :
  sound me (draining me []) (change (set_life let_go)) (fun _ => telling me).
Proof.
  apply sound_change; [apply stable_telling|]. intros s Hs ([Hh Hc Hz] & Hclosed & Hp & _ & Hd).
  destruct (inv_life s Hs) as [K1 K2 K3 K4 K5].
  destruct (step_life me let_go s) as [H1 H2]; [|done|split; [done|split; [done|by split]]].
  intros _. split; [|split].
  - split; simpl; try done; lia.
  - split; simpl; [by intros _ _; split_and!|]. intros Hl. by rewrite (K1 _ Hc) in Hl.
  - split; simpl; try done. intros i Hi Hh'. congruence.
Qed.

Lemma keeps_tell_close me : sound me (telling me) (change (set_life tell_close)) (fun _ _ => True).
Proof.
  apply sound_change; [done|]. intros s Hs [Hc Hh Hz].
  destruct (inv_life s Hs) as [K1 K2 K3 K4 K5].
  destruct (step_life me tell_close s) as [H1 H2]; [|done|done].
  intros _. split; [|split].
  - split; simpl; try done; [lia|]. intros _. split; [by eapply K1|done].
  - destruct (inv_settled s Hs). by split.
  - split; simpl; try done. intros i Hi Hc'. congruence.
Qed.

Lemma keeps_close_transport me error report_it keep :
  keeps me (close_transport me error report_it keep).
Proof.
  apply (sound_bind me (closing_started me)); [apply sound_take_lifecycle|]. intros [|].
  { destruct keep; [by apply sound_ret|apply keeps_cut_output]. }
  apply (sound_bind me (fun _ => closing_stored me)); [apply sound_store_closed|]. intros _.
  apply (sound_bind me (fun _ => closing_stored me)); [|intros _].
  { destruct keep; [by apply sound_ret|]. apply sound_cut_output; [apply stable_closing_stored|..];
      intros s [[[Hh Hc Hz] Hd] Hcl]; (split; [split; [by split|done]|done]). }
  apply (sound_bind me (draining me)); [apply sound_drain|]. intros senders.
  apply (sound_bind me (fun _ => draining me [])); [apply sound_send_all|]. intros _.
  apply (sound_bind me (fun _ => telling me)); [apply sound_let_go|]. intros _.
  apply (sound_bind me (fun _ => telling me)); [|intros _; apply keeps_tell_close].
  destruct report_it; [|by apply sound_ret]. apply sound_report; [apply stable_telling|].
  intros f s []. by split.
Qed.

(** ** Queueing *)

(** A frame as it may be queued. *)
Definition fits (encoded : list byte) : Prop :=
  exists frame, to_vec frame = inl encoded /\ length encoded <= max_frame_bytes cfg.

Lemma fits_line encoded flag : fits encoded -> is_line (MkJob (encoded ++ [lf]) flag).
Proof. intros (frame & E & Hl). by exists frame, encoded. Qed.

Lemma queue_push_ok q out job :
  is_line job -> receiver q = true -> length (channel q) < WRITER_QUEUE_CAPACITY -> queue_ok q out ->
  queue_ok (Queue (writer q) (channel q ++ [job]) (receiver q) (queued q + 1)%Z (flags q)
                  (next_flag q) (accepted q ++ [job]) (fates q)) out.
Proof.
  intros Hline Hr Hroom [Hb Hc Ho Hw Hg Hl Hla Hp Hout]. specialize (Hw Hr).
  split; simpl; try done.
  - rewrite length_app. simpl. lia.
  - intros _. specialize (Hc Hr). rewrite length_app. simpl. lia.
  - by rewrite Hw, app_assoc.
  - intros _. by rewrite Hw, app_assoc.
  - congruence.
  - apply Forall_app. auto.
Qed.

Lemma keeps_try_enqueue me job depth : is_line job -> keeps me (act (try_enqueue job depth)).
Proof.
  intros Hline. apply keeps_act. intros s Hs. unfold try_enqueue.
  destruct (writer (s_queue s)) eqn:Ew; simpl; [|by split; [|apply gua_call_refl]].
  destruct (_ && _); simpl; [by split; [|apply gua_call_refl]|].
  destruct (receiver (s_queue s)) eqn:Er; simpl; [|by split; [|apply gua_call_refl]].
  destruct (_ <=? _) eqn:El; simpl; [by split; [|apply gua_call_refl]|]. ranges.
  apply step_queue; [|done]. intros [_ _ _ _ Hq]. split; [by apply queue_push_ok|].
  split; simpl; try done. intros _. rewrite length_app. simpl. lia.
Qed.

Lemma keeps_enqueue me encoded flag deadline depth :
  fits encoded -> keeps me (enqueue_encoded cfg me encoded flag deadline depth).
Proof.
  intros Hfits. apply keeps_loop.
  apply keeps_then; [apply keeps_output_closed|]. intros [|]; [apply keeps_ret|].
  apply keeps_then; [by apply keeps_try_enqueue, fits_line|]. intros [| | |]; try apply keeps_ret.
  - destruct deadline; [|apply keeps_ret].
    apply keeps_then; [apply keeps_look|]. intros late. apply keeps_ret.
  - apply keeps_then; [apply keeps_close_transport|]. intros _. apply keeps_ret.
Qed.

Lemma keeps_write_encoded me encoded : fits encoded -> keeps me (write_encoded cfg me encoded).
Proof.
  intros Hfits. apply keeps_then; [apply keeps_new_flag|]. intros flag.
  apply keeps_then; [apply keeps_look|]. intros instant.
  apply keeps_then; [by apply keeps_enqueue|]. intros [[|]|error]; try apply keeps_ret.
  apply keeps_then; [apply keeps_close_transport|]. intros _. apply keeps_ret.
Qed.

Lemma encode_fits frame encoded :
  encode frame = inl encoded -> length encoded <= max_frame_bytes cfg -> fits encoded.
Proof.
  unfold encode. intros E Hl. exists frame. split; [|done]. destruct (to_vec frame); congruence.
Qed.

(** ** Ids, and the requests *)

(** The id is this thread's, and no request waits under it. *)
Definition own_id (me : nat) (id : string) s : Prop :=
  exists n, minters (s_asking s) !! n = Some me /\ id = minted (role cfg) (Z.of_nat n + 1) /\
            pending (s_asking s) !! id = None.

Lemma stable_own_id me id : stable inv (others me) (own_id me id).
Proof.
  apply stable_by. intros j s s' Hj Hs Hs' [_ Ha _ _] (n & Hn & -> & Hp).
  exists n. split_and!; [|done|].
  - eapply prefix_lookup_Some; [done|apply Ha].
  - destruct (pending (s_asking s') !! _) as [r|] eqn:E; [|done].
    destruct (asking_pending _ _ _ _ Ha _ _ E) as [E'|(n' & Hn' & E')]; [congruence|].
    apply minted_inj in E'; [|lia..]. assert (n' = n) as -> by lia. congruence.
Qed.

Lemma sound_next_id me (P : st -> Prop) : sound me P (next_id cfg me) (own_id me).
Proof.
  apply sound_act; [apply stable_own_id|]. intros s Hs _.
  destruct (inv_asking s Hs) as [Hp Ha Hd Ht Hse Hm].
  destruct (step_asking me (fun a => Asking (minters a ++ [me]) (pending a) (chans a) (drained a)
                                            (taken a)) s) as [H1 H2]; [|done|].
  { intros _. split; [|split; [|split; [|done]]].
    - split; simpl; try done. intros id r Hr. destruct (Hm id r Hr) as (n & Hn & ->).
      exists n. rewrite length_app. split; [lia|done].
    - destruct (inv_settled s Hs). by split.
    - split; simpl; auto. by eexists. }
  split; [done|split; [done|]]. exists (length (minters (s_asking s))). simpl. split_and!.
  - by rewrite lookup_app_r, Nat.sub_diag by lia.
  - done.
  - destruct (pending (s_asking s) !! _) as [r|] eqn:E; [|done].
    destruct (Hm _ _ E) as (n & Hn & En%minted_inj); lia.
Qed.

Lemma insert_asking_ok id op0 me a :
  let c := length (chans a) in
  asking_ok a -> (exists n, minters a !! n = Some me /\ id = minted (role cfg) (Z.of_nat n + 1)) ->
  pending a !! id = None ->
  asking_ok (Asking (minters a) (<[id := MkPending op0 c]> (pending a))
                    (chans a ++ [Chan id op0 None true]) (drained a) (taken a)).
Proof.
  intros c [Hp Ha Hd Ht Hse Hm] (n & Hn & Hid) Hnone.
  assert (Hold : forall c', alive a c' -> c' < c /\ alive (Asking (minters a) (pending a)
    (chans a ++ [Chan id op0 None true]) (drained a) (taken a)) c').
  { intros c' (id' & op' & E). split; [by eapply lookup_lt_Some|].
    exists id', op'. simpl. by apply lookup_app_l_Some. }
  assert (Hc : (c ∉ drained a) /\ taken a <> Some c).
  { split; [intros [Hal _]%Hd|intros Hal%Ht]; apply Hold in Hal; lia. }
  split; simpl.
  - intros id' r [[<- <-]|[Hne Hr]]%lookup_insert_Some; simpl.
    + by rewrite lookup_app_r, Nat.sub_diag by (subst c; lia).
    + by apply lookup_app_l_Some, Hp.
  - intros id' r [[<- <-]|[Hne Hr]]%lookup_insert_Some; [done|by eapply Ha].
  - intros c' Hc'. destruct (Hd c' Hc') as [Hal ?]. split; [by apply Hold|done].
  - intros c' Hc'. by apply Hold, Ht.
  - intros c' x [Hx|[Hge Hx]]%lookup_app_Some Hsend.
    + destruct (Hse c' x Hx Hsend) as [Hpx|?]; [|by right]. left.
      rewrite lookup_insert_ne; [done|]. congruence.
    + apply list_lookup_singleton_Some in Hx as [Hx <-]. left. simpl.
      rewrite lookup_insert_eq. do 2 f_equal. subst c. lia.
  - intros id' r [[<- <-]|[Hne Hr]]%lookup_insert_Some; [|by eapply Hm].
    exists n. split; [by eapply lookup_lt_Some|done].
Qed.

Lemma sound_insert_pending me id op0 :
  sound me (own_id me id) (insert_pending id op0) (fun _ _ => True).
Proof.
  apply sound_act; [done|]. intros s Hs (n & Hn & Hid & Hnone).
  destruct (closed (s_life s)) eqn:Ec; [by split; [|split; [apply gua_call_refl|]]|].
  destruct (step_asking me (fun a => Asking (minters a) (<[id := MkPending op0 (length (chans (s_asking s)))]> (pending a))
                                   (chans a ++ [Chan id op0 None true]) (drained a) (taken a)) s)
    as [H1 H2]; [|done|by split; [|split]].
  intros _. split; [|split; [|split; [|done]]].
  - eapply insert_asking_ok; [apply Hs|eauto|done].
  - destruct (inv_settled s Hs) as [Hsa Hsb]. split; [|done].
    intros Hl Hh. destruct (Hsa Hl Hh). congruence.
  - split; simpl; auto; [congruence|].
    intros id' r [[<- <-]|[Hne Hr]]%lookup_insert_Some; [right; eauto|by left].
Qed.

Lemma drop_sender_ok id r a :
  asking_ok a -> pending a !! id = Some r ->
  asking_ok (drop_sender (p_sender r) (set_pending (delete id (pending a)) a)).
Proof.
  intros [Hp Ha Hd Ht Hse Hm] Hr. pose proof (Hp _ _ Hr) as Hc.
  assert (Hne : forall id' r', pending a !! id' = Some r' -> id' <> id -> p_sender r' <> p_sender r).
  { intros id' r' Hr' Hid E. apply Hp in Hr'. rewrite E, Hc in Hr'. congruence. }
  assert (Hkeep : forall c, c <> p_sender r -> alive a c ->
    alive (drop_sender (p_sender r) (set_pending (delete id (pending a)) a)) c).
  { intros c Hne' (id' & op' & E). exists id', op'. simpl. by rewrite list_lookup_alter_ne. }
  destruct (Ha _ _ Hr) as [Hnd Hnt].
  split; simpl.
  - intros id' r' [Hid Hr']%lookup_delete_Some. rewrite list_lookup_alter_ne; [by apply Hp|].
    apply not_eq_sym; eauto.
  - intros id' r' [Hid Hr']%lookup_delete_Some. by eapply Ha.
  - intros c Hcd. destruct (Hd c Hcd). split; [|done]. apply Hkeep; [congruence|done].
  - intros c Hct. apply Hkeep; [congruence|auto].
  - intros c x. destruct (decide (p_sender r = c)) as [<-|Hcc].
    + rewrite list_lookup_alter_eq. intros (y & _ & ->)%fmap_Some. done.
    + rewrite list_lookup_alter_ne by done. intros Hx Hsend.
      destruct (Hse c x Hx Hsend) as [Hpx|?]; [left|by right].
      apply lookup_delete_Some. split; [|done]. intros E. rewrite <- E, Hr in Hpx.
      injection Hpx as ->. done.
  - intros id' r' [Hid Hr']%lookup_delete_Some. by eapply Hm.
Qed.

Lemma keeps_remove_pending me id : keeps me (remove_pending id).
Proof.
  apply keeps_change. intros s Hs.
  apply step_asking; [|done]. intros _.
  destruct (pending (s_asking s) !! id) as [r|] eqn:Er;
    [|by split; [apply Hs|split; [apply Hs|split; [apply gua_asking_refl|done]]]].
  split; [|split; [|split; [|done]]].
  - apply drop_sender_ok; [apply Hs|done].
  - destruct (inv_settled s Hs) as [Ha Hb]. split; [|done].
    intros Hl Hh. simpl. destruct (Ha Hl Hh) as (? & -> & ?). by rewrite delete_empty.
  - split; simpl; try done; [intros _|];
      intros id' r' [_ Hr']%lookup_delete_Some; [done|by left].
Qed.

(** A wait that changes nothing. *)
Lemma keeps_wait {B} me (f : st -> option (st * B)) :
  (forall s s' b, f s = Some (s', b) -> s' = s) -> keeps me (await f).
Proof.
  intros Hf. apply keeps_await. intros s s' b Hs E. rewrite (Hf _ _ _ E). split; [done|apply gua_call_refl].
Qed.

Lemma keeps_recv_timeout me c deadline : keeps me (recv_timeout c deadline).
Proof.
  apply keeps_wait. intros s s' b E.
  repeat case_match; by simplify_eq.
Qed.

Lemma keeps_request me op0 body0 deadline : keeps me (request cfg me op0 body0 deadline).
Proof.
  apply keeps_then; [apply keeps_look|]. intros started.
  apply keeps_then; [apply keeps_is_closed|]. intros [|]; [apply keeps_ret|].
  apply (sound_bind me (own_id me)); [apply sound_next_id|]. intros id.
  destruct (encode _) as [encoded|error] eqn:Ee; [|by apply sound_ret].
  destruct (_ <? _) eqn:El; [by apply sound_ret|]. ranges.
  eapply (sound_bind me (fun _ _ => True)); [apply sound_insert_pending|].
  intros [c|]; [|apply keeps_ret].
  apply keeps_then; [apply keeps_new_flag|]. intros flag.
  apply keeps_then; [by eapply keeps_enqueue, encode_fits|].
  intros [[|]|error]; [| |apply keeps_ret].
  - apply keeps_then; [apply keeps_recv_timeout|]. intros [answer| |]; try apply keeps_ret.
    apply keeps_then; [apply keeps_cancel|]. intros _.
    apply keeps_then; [apply keeps_remove_pending|]. intros _. apply keeps_ret.
  - apply keeps_then; [apply keeps_cancel|]. intros _.
    apply keeps_then; [apply keeps_remove_pending|]. intros _. apply keeps_ret.
Qed.

(** What an event is encoded to, if it is, fits. *)
Lemma sound_encode_event me op0 body0 (k : option (list byte) + BridgeError -> prog st (bool + BridgeError)) :
  (forall error, keeps me (k (inr error))) -> keeps me (k (inl None)) ->
  (forall encoded, fits encoded -> keeps me (k (inl (Some encoded)))) ->
  keeps me (encode_event cfg me op0 body0 ≫= k).
Proof.
  intros Herr Hnone Hsome. apply safe_bind_assoc.
  apply keeps_then; [apply keeps_output_closed|]. intros [|]; [done|]. apply safe_bind_assoc.
  apply (sound_bind me (own_id me)); [apply sound_next_id|]. intros id.
  apply keeps_sound. change (keeps me (k (match encode (MkFrame PROTOCOL_VERSION id "evt" op0 body0) with
    | inr error => inr error
    | inl encoded => inl (if length encoded <=? max_frame_bytes cfg then Some encoded else None)
    end))).
  destruct (encode _) as [encoded|error] eqn:Ee; [|done].
  destruct (_ <=? _) eqn:El; [|done]. ranges. by eapply Hsome, encode_fits.
Qed.

Lemma keeps_event me op0 body0 : keeps me (event cfg me op0 body0).
Proof.
  apply sound_encode_event; [intros error; apply keeps_ret|apply keeps_ret|].
  intros encoded Hfits. apply keeps_then; [by apply keeps_write_encoded|].
  intros written. apply keeps_ret.
Qed.

Lemma keeps_stream_event me op0 body0 : keeps me (stream_event cfg me op0 body0).
Proof.
  apply sound_encode_event; [intros error; apply keeps_ret|apply keeps_ret|].
  intros encoded Hfits. apply keeps_then; [apply keeps_new_flag|].
  intros flag. by apply keeps_enqueue.
Qed.

Lemma keeps_wait_lifecycle {B} me (f : st -> option B) : keeps me (wait_lifecycle f).
Proof.
  apply keeps_wait. intros s s' b E. destruct (held (s_life s)); [done|].
  destruct (f s); simplify_eq/=; done.
Qed.

Lemma keeps_end_output me within : keeps me (end_output within).
Proof.
  apply keeps_then; [apply keeps_close_input|]. intros _.
  apply keeps_then; [apply keeps_look|]. intros instant.
  apply keeps_then; [apply keeps_wait_lifecycle|]. intros flushed.
  apply keeps_then; [apply keeps_cut_output|]. intros _. apply keeps_ret.
Qed.

Lemma keeps_run_call {B} me (c : call B) : keeps me (run_call cfg me c).
Proof.
  destruct c; [apply keeps_request|apply keeps_event|apply keeps_stream_event|apply keeps_is_closed
    |apply keeps_close_input|apply keeps_end_output|apply keeps_wait_lifecycle
    |apply keeps_wait_lifecycle].
Qed.

(** Whatever code calls the bridge. *)
Lemma keeps_run_client {A} me (c : client A) : keeps me (run_client cfg me c).
Proof.
  induction c as [a|B c k IH]; simpl; [apply keeps_ret|].
  apply keeps_then; [apply keeps_run_call|done].
Qed.

(** ** Answering *)

Lemma keeps_respond me id op0 body0 : keeps me (respond cfg me id op0 body0).
Proof.
  unfold respond. destruct (encode _) as [encoded|error] eqn:Ee; [|apply keeps_ret].
  destruct (_ <? length encoded) eqn:El; [|ranges; by eapply keeps_write_encoded, encode_fits].
  destruct (encode (MkFrame _ _ _ _ too_large_body)) as [encoded'|error] eqn:Ee'; [|apply keeps_ret].
  destruct (_ <? length encoded') eqn:El'; [|ranges; by eapply keeps_write_encoded, encode_fits].
  apply keeps_then; [apply keeps_close_transport|]. intros _. apply keeps_ret.
Qed.

Lemma keeps_respond_or_report me id op0 body0 : keeps me (respond_or_report cfg me id op0 body0).
Proof.
  apply keeps_then; [apply keeps_respond|]. intros [|error]; [apply keeps_ret|].
  apply keeps_then; [apply keeps_is_closed|]. intros [|]; [apply keeps_ret|apply keeps_report].
Qed.
End Safe.
