(* ===== verification/BridgeThreadsRun.v ===== *)
(** * Every thread of the bridge keeps the invariant

    The threads of [BridgeThreads] themselves, by [BridgeThreadsSafe]'s invariant and
    guarantee: the handlers' and the app's, the reader, which alone takes an answer's sender,
    and the writer, which alone takes from the queue. So any state that a bridge as it is
    built reaches is one of the invariant ([built_ok]), whichever thread goes next. *)
From stdpp Require Import gmap.
From S2P Require Import Prelude Utf8 Lines Frames Threads BridgeThreads BridgeThreadsSafe.
#[local] Open Scope nat_scope.

Section Run.
Context `{Serde} (cfg : settings) (env : closures).
Implicit Types s : st.

#[local] Abbreviation inv := (inv cfg).
#[local] Abbreviation gua := (gua cfg).
#[local] Abbreviation gua_call := (gua_call cfg).
#[local] Abbreviation others := (others cfg env).
#[local] Abbreviation keeps := (keeps cfg env).

(** A thread's program: any step of the guarantee, not only of a call. *)
Definition runs {A : Type} (me : nat) (P : st -> Prop) (p : prog st A) (Q : A -> st -> Prop) : Prop :=
  safe inv (others me) (gua me) P p Q.

Lemma runs_bind {A B} me (R : A -> st -> Prop) P Q (p : prog st A) (k : A -> prog st B) :
  runs me P p R -> (forall a, runs me (R a) (k a) Q) -> runs me P (p ≫= k) Q.
Proof. apply safe_bind. Qed.

Lemma runs_pre {A} me (P P' : st -> Prop) (p : prog st A) Q :
  runs me P p Q -> (forall s, inv s -> P' s -> P s) -> runs me P' p Q.
Proof. intros Hp HP. by eapply safe_pre. Qed.

Lemma runs_post {A} me P (p : prog st A) (Q Q' : A -> st -> Prop) :
  runs me P p Q -> (forall a s, inv s -> Q a s -> Q' a s) -> runs me P p Q'.
Proof. intros Hp HQ. by eapply safe_post. Qed.

Lemma runs_ret {A} me (a : A) (P : st -> Prop) (Q : A -> st -> Prop) :
  (forall s, inv s -> P s -> Q a s) -> runs me P (mret a) Q.
Proof. apply safe_ret. Qed.

(** What the others leave, and a call of this thread's. *)
Definition own (me : nat) (P : st -> Prop) : Prop :=
  stable inv (others me) P /\ forall s s', inv s -> inv s' -> gua_call me s s' -> P s -> P s'.

Lemma own_True me : own me (fun _ => True).
Proof. by split. Qed.

(** Calls of the bridge leave what is this thread's own. *)
Lemma runs_keeps {A} me (p : prog st A) (P : st -> Prop) :
  own me P -> keeps me p -> runs me P p (fun _ => P).
Proof.
  intros [HSt HP] Hp. eapply safe_guarantee; [|by apply sound_keeps].
  intros s s' Hg. by apply call_gua.
Qed.

Lemma runs_act {B} me (f : st -> st * B) (P : st -> Prop) (R : B -> st -> Prop) :
  (forall b, stable inv (others me) (R b)) ->
  (forall s, inv s -> P s -> inv (f s).1 /\ gua me s (f s).1 /\ R (f s).2 (f s).1) ->
  runs me P (act f) R.
Proof. apply safe_act. Qed.

Lemma runs_change me (f : st -> st) (P : st -> Prop) (R : st -> Prop) :
  stable inv (others me) R ->
  (forall s, inv s -> P s -> inv (f s) /\ gua me s (f s) /\ R (f s)) ->
  runs me P (change f) (fun _ => R).
Proof. intros HR Hf. by apply runs_act. Qed.

Lemma runs_with_lifecycle {B} me (f : st -> st * B) (P : st -> Prop) (R : B -> st -> Prop) :
  (forall b, stable inv (others me) (R b)) ->
  (forall s, inv s -> P s -> inv (f s).1 /\ gua me s (f s).1 /\ R (f s).2 (f s).1) ->
  runs me P (with_lifecycle f) R.
Proof.
  intros HR Hf. apply safe_await; [done|]. intros s s' b Hs Ps E.
  destruct (held (s_life s)); [done|]. injection E as E. specialize (Hf s Hs Ps). by rewrite E in Hf.
Qed.

(** ** Admissions *)

(** This thread has the admission; its handler is not running yet, or is. *)
Definition has (me a : nat) (launches : bool) s : Prop :=
  admissions (s_work s) !! a = Some (launches, Some me) /\ a ∉ running (s_work s).
Definition serving (me a : nat) (launches : bool) s : Prop :=
  admissions (s_work s) !! a = Some (launches, Some me) /\ a ∈ running (s_work s).

Lemma own_serving me a launches : own me (serving me a launches).
Proof.
  split.
  - apply stable_by. intros j s s' Hj Hs Hs' [_ _ Hw _] [Ha Hr].
    destruct (work_owned _ _ _ _ Hw a launches me (not_eq_sym Hj) Ha) as [Ha' Hr'].
    split; [done|by apply Hr'].
  - intros s s' _ _ [_ E _ _]. unfold serving. by rewrite E.
Qed.

Lemma own_has me a launches : own me (has me a launches).
Proof.
  split.
  - apply stable_by. intros j s s' Hj Hs Hs' [_ _ Hw _] [Ha Hr].
    destruct (work_owned _ _ _ _ Hw a launches me (not_eq_sym Hj) Ha) as [Ha' Hr'].
    split; [done|]. by rewrite <- Hr'.
  - intros s s' _ _ [_ E _ _]. unfold has. by rewrite E.
Qed.

Lemma runs_enter me a launches :
  runs me (has me a launches) (enter_handler a) (fun _ => serving me a launches).
Proof.
  apply runs_change; [apply own_serving|]. intros s Hs [Ha Hr].
  destruct (step_work cfg me (fun w => Work (in_flight_handlers w) (in_flight_launches w) (admissions w)
                                  (next_admission w) (starting w) ({[a]} ∪ running w)) s) as [H1 H2];
    [|done|split; [done|split; [done|split; [done|set_solver]]]].
  intros _. destruct (inv_work _ s Hs) as [W1 W2 W3 W4 W5 W6]. split.
  - split; simpl; try done. intros b [->%elem_of_singleton|Hb]%elem_of_union; eauto.
  - split; simpl; [|eauto]. intros b x i Hi Hb. split; [done|].
    assert (b <> a) by congruence. set_solver.
Qed.

Lemma runs_leave me a launches :
  runs me (serving me a launches) (leave_handler a) (fun _ => has me a launches).
Proof.
  apply runs_change; [apply own_has|]. intros s Hs [Ha Hr].
  destruct (step_work cfg me (fun w => Work (in_flight_handlers w) (in_flight_launches w) (admissions w)
                                  (next_admission w) (starting w) (running w ∖ {[a]})) s) as [H1 H2];
    [|done|split; [done|split; [done|split; [done|set_solver]]]].
  intros _. destruct (inv_work _ s Hs) as [W1 W2 W3 W4 W5 W6]. split.
  - split; simpl; try done. intros b [Hb _]%elem_of_difference; eauto.
  - split; simpl; [|eauto]. intros b x i Hi Hb. split; [done|].
    assert (b <> a) by congruence. set_solver.
Qed.

Lemma runs_finish me a launches :
  runs me (has me a launches) (finish_handler a launches) (fun _ _ => True).
Proof.
  apply runs_with_lifecycle; [done|]. intros s Hs [Ha Hr].
  destruct (step_work cfg me (fun w => Work (in_flight_handlers w - 1)
                             (in_flight_launches w - (if launches then 1 else 0))
                             (delete a (admissions w)) (next_admission w) (starting w)
                             (running w)) s) as [H1 H2]; [|done|done].
  intros _. destruct (inv_work _ s Hs) as [W1 W2 W3 W4 W5 W6]. split.
  - split; simpl.
    + rewrite map_size_delete_Some by eauto. lia.
    + rewrite W2, (launch_count_delete _ _ _ _ Ha). lia.
    + intros b x [_ Hb]%lookup_delete_Some. eauto.
    + intros b id op l body Hb. rewrite lookup_delete_ne; [by eapply W4|].
      intros <-. apply W4 in Hb. congruence.
    + done.
    + intros b Hb. rewrite lookup_delete_ne; [by auto|]. by intros <-.
  - split; simpl.
    + intros b x i Hi Hb. split; [|done]. rewrite lookup_delete_ne; [done|]. congruence.
    + intros _ b x o [_ Hb]%lookup_delete_Some. eauto.
Qed.

Definition admitted (me : nat) (launches : bool) (b : option nat) s : Prop :=
  match b with Some a => has me a launches s | None => True end.

Lemma own_admitted me launches b : own me (admitted me launches b).
Proof. destruct b; [apply own_has|apply own_True]. Qed.

(** What the thread knows besides, of the rest of the state. *)
Section Besides.
Variables (me : nat) (P : st -> Prop).
Hypothesis P_stable : stable inv (others me) P.
Hypothesis P_work : forall f s, P s -> P (set_work f s).

Lemma runs_admit launches :
  runs me P (admit_handler me launches) (fun b s => admitted me launches b s /\ P s).
Proof.
  apply runs_with_lifecycle; [intros b; by apply stable_and; [apply own_admitted|]|]. intros s Hs Ps.
  destruct (lc_closed (s_life s)) eqn:El; [split; [done|split; [apply gua_refl|done]]|].
  destruct (inv_work _ s Hs) as [W1 W2 W3 W4 W5 W6].
  assert (Hfresh : admissions (s_work s) !! next_admission (s_work s) = None).
  { destruct (admissions _ !! _) as [x|] eqn:E; [|done]. apply W3 in E. lia. }
  assert (Hne : forall b x, admissions (s_work s) !! b = Some x -> next_admission (s_work s) <> b).
  { intros b x Hb E. congruence. }
  destruct (step_work cfg me (fun w => Work (S (in_flight_handlers w))
                               ((if launches then S else id) (in_flight_launches w))
                               (<[next_admission w := (launches, Some me)]> (admissions w))
                               (S (next_admission w)) (starting w) (running w)) s) as [H1 H2]; [|done|].
  - intros _. split.
    + split; simpl.
      * rewrite map_size_insert_None by done. by rewrite W1.
      * rewrite launch_count_insert by done. rewrite W2. by destruct launches.
      * intros b x [[<- _]|[_ Hb]]%lookup_insert_Some; [lia|]. apply W3 in Hb. lia.
      * intros b id op l body Hb%W4. by rewrite lookup_insert_ne by eauto.
      * done.
      * intros b Hb. destruct (W6 b Hb) as (l & i & E). exists l, i.
        by rewrite lookup_insert_ne by eauto.
    + split; simpl; [|congruence]. intros b x i Hi Hb. by rewrite lookup_insert_ne by eauto.
  - split; [done|split; [done|split; [|by apply P_work]]]. split; simpl; [by rewrite lookup_insert_eq|].
    intros (l & i & E)%W6. congruence.
Qed.

Lemma runs_spawn_handler a id op launches body :
  runs me (fun s => has me a launches s /\ P s) (spawn (StartHandler a id op launches body)) (fun _ => P).
Proof.
  apply runs_change; [done|]. intros s Hs [[Ha Hr] Ps].
  destruct (inv_work _ s Hs) as [W1 W2 W3 W4 W5 W6].
  assert (Hin : a ∉ waiting (starting (s_work s))).
  { intros (x & Hx & Ex)%list_elem_of_omap. destruct x; [|done]. injection Ex as ->.
    apply W4 in Hx. congruence. }
  edestruct (step_work cfg me) as [H1 H2]; [|exact Hs|split; [exact H1|split; [exact H2|by apply P_work]]].
  intros _. split.
  - split; simpl.
    + by rewrite map_size_insert_Some.
    + by rewrite (launch_count_update _ _ _ (Some me)).
    + intros b x [[<- _]|[_ Hb]]%lookup_insert_Some; eauto.
    + intros b id' op' l body' [Hb|Hb%list_elem_of_singleton]%elem_of_app.
      * rewrite lookup_insert_ne; [by eapply W4|]. intros <-. by eapply Hin, waiting_in.
      * injection Hb as -> -> -> -> ->. by rewrite lookup_insert_eq.
    + unfold waiting. rewrite omap_app. apply NoDup_app. split; [done|]. simpl.
      split; [|apply NoDup_singleton]. intros b Hb ->%list_elem_of_singleton. done.
    + intros b Hb. rewrite lookup_insert_ne; [by auto|]. by intros <-.
  - split; simpl.
    + intros b x i Hi Hb. split; [|done]. rewrite lookup_insert_ne; [done|]. congruence.
    + intros _ b x o [[<- [= <- <-]]|[_ Hb]]%lookup_insert_Some; eauto.
Qed.

Lemma runs_spawn_event op n body :
  runs me P (spawn (StartEvent op n body)) (fun _ => P).
Proof.
  apply runs_change; [done|]. intros s Hs Ps.
  edestruct (step_work cfg me) as [H1 H2]; [|exact Hs|split; [exact H1|split; [exact H2|by apply P_work]]].
  intros _. destruct (inv_work _ s Hs) as [W1 W2 W3 W4 W5 W6]. split.
  - split; simpl; try done.
    + intros b id' op' l body' [Hb|Hb%list_elem_of_singleton]%elem_of_app; [by eapply W4|done].
    + unfold waiting. rewrite omap_app. simpl. by rewrite app_nil_r.
  - split; simpl; eauto.
Qed.
End Besides.

(** ** Handlers, and the app's threads *)

Lemma runs_serve me a id op launches body :
  runs me (has me a launches) (serve cfg env me a id op launches body) (fun _ _ => True).
Proof.
  apply (runs_bind me (fun _ => serving me a launches)); [apply runs_enter|]. intros _.
  apply (runs_bind me (fun _ => serving me a launches));
    [apply runs_keeps; [apply own_serving|apply keeps_run_client]|]. intros result.
  apply (runs_bind me (fun _ => has me a launches)); [apply runs_leave|]. intros _.
  apply (runs_bind me (fun _ _ => True)); [apply runs_finish|]. intros _.
  destruct result as [[answer|error]|]; [| |by apply runs_ret];
    apply runs_keeps; [apply own_True|apply keeps_respond_or_report|apply own_True|apply keeps_respond_or_report].
Qed.

Lemma begin_runs t n s s' p :
  inv s -> begin cfg env t n s = Some (s', p) ->
  exists P, stable inv (others t) P /\ P s' /\ runs t P p (fun _ _ => True).
Proof.
  intros Hs E. unfold begin in E.
  destruct (starting (s_work s) !! n) as [x|] eqn:Ex; [|done]. injection E as <- <-.
  destruct x as [a id op launches body|op i body].
  - exists (has t a launches). split; [apply own_has|]. split; [|apply runs_serve].
    destruct (inv_work _ s Hs) as [W1 W2 W3 W4 W5 W6].
    split; simpl; [by rewrite lookup_insert_eq|].
    intros (l & i & E)%W6. erewrite W4 in E; [done|]. by eapply list_elem_of_lookup_2.
  - exists (fun _ => True). split_and!; [done..|].
    apply runs_keeps; [apply own_True|apply keeps_run_client].
Qed.

(** ** The reader *)

(** The reader has no answer's sender in its hand. *)
Definition idle s : Prop := taken (s_asking s) = None.

Lemma stable_taken (P : option nat -> Prop) : stable inv (others 1) (fun s => P (taken (s_asking s))).
Proof.
  apply stable_by. intros j s s' Hj Hs Hs' [_ Ha _ _]. by rewrite (asking_taken _ _ _ _ _ Ha).
Qed.

Lemma own_idle : own 1 idle.
Proof.
  split; [apply (stable_taken (fun x => x = None))|]. intros s s' _ _ [_ _ E _]. unfold idle. by rewrite E.
Qed.

Definition in_hand (found : option nat + string) s : Prop :=
  match found with inl (Some c) => taken (s_asking s) = Some c | _ => idle s end.

Lemma step_in_hand f s :
  asking_ok cfg (f (s_asking s)) -> settled_ok (s_life s) (f (s_asking s)) ->
  gua_asking cfg 1 (s_life s) (s_asking s) (f (s_asking s)) ->
  inv s -> inv (set_asking f s) /\ gua 1 s (set_asking f s).
Proof.
  intros Hf Hset Hg [Hl Ha Hs Hw Hq].
  split; split; simpl; auto using gua_life_refl, gua_work_refl, gua_queue_refl.
Qed.

Lemma take_ok id r a :
  asking_ok cfg a -> taken a = None -> pending a !! id = Some r ->
  asking_ok cfg (Asking (minters a) (delete id (pending a)) (chans a) (drained a) (Some (p_sender r))).
Proof.
  intros [Hp Ha Hd Ht Hse Hm] Hnone Hr. destruct (Ha _ _ Hr) as [Hnd _]. split; simpl.
  - intros id' r' [_ Hr']%lookup_delete_Some. auto.
  - intros id' r' [Hne Hr']%lookup_delete_Some. split; [by eapply Ha|].
    intros [= E]. pose proof (Hp _ _ Hr) as E1. rewrite E, (Hp _ _ Hr') in E1. congruence.
  - intros c Hc. split; [by apply Hd|]. intros [= <-]. done.
  - intros c [= <-]. exists id, (p_op r). by apply Hp.
  - intros c x Hx Hsend. destruct (Hse c x Hx Hsend) as [Hpx|[?|?]]; [|by right; left|congruence].
    destruct (decide (id = c_id x)) as [->|Hne].
    + right. right. rewrite Hr in Hpx. by injection Hpx as ->.
    + left. by rewrite lookup_delete_ne.
  - intros id' r' [_ Hr']%lookup_delete_Some. eauto.
Qed.

Lemma runs_take_pending frame : runs 1 idle (take_pending frame) in_hand.
Proof.
  apply runs_act.
  { intros [[c|]|]; simpl; try apply own_idle. apply (stable_taken (fun x => x = Some c)). }
  intros s Hs Hidle. destruct (pending (s_asking s) !! fr_id frame) as [r|] eqn:Er;
    [|split; [done|split; [apply gua_refl|done]]].
  case_decide as Eop; [|split; [done|split; [apply gua_refl|done]]]. simpl.
  edestruct (step_in_hand) as [H1 H2]; [..|exact Hs|split; [exact H1|split; [exact H2|done]]].
  - by apply take_ok; [apply Hs|..].
  - destruct (inv_settled _ s Hs) as [Ha Hb]. split; [|done]. intros Hl Hh. simpl.
    destruct (Ha Hl Hh) as (? & -> & ?). by rewrite delete_empty.
  - split; simpl; try done.
    + intros _ id' r' [_ ?]%lookup_delete_Some. done.
    + intros id' r' [_ ?]%lookup_delete_Some. by left.
Qed.

Lemma runs_send_answer c answer :
  runs 1 (fun s => taken (s_asking s) = Some c) (send_answer c answer) (fun _ => idle).
Proof.
  apply runs_change; [apply own_idle|]. intros s Hs Hc.
  assert (Hnd : drained (s_asking s) ∖ {[c]} = drained (s_asking s)).
  { assert (c ∉ drained (s_asking s)); [|set_solver].
    intros Hcd. by destruct (drained_alive _ _ (inv_asking _ s Hs) c Hcd). }
  edestruct (step_in_hand) as [H1 H2]; [..|exact Hs|split; [exact H1|split; [exact H2|]]].
  - apply answered_ok; [apply Hs|by right].
  - destruct (inv_settled _ s Hs) as [Ha Hb]. by split; simpl; rewrite Hnd.
  - split; simpl; rewrite ?Hnd; auto; done.
  - unfold idle. simpl. by rewrite decide_True.
Qed.

Lemma runs_spawn_events frame n count : runs 1 idle (spawn_events frame n count) (fun _ => idle).
Proof.
  revert n. induction count as [|count IH]; intros n; [by apply runs_ret|].
  apply (runs_bind 1 (fun _ => idle)); [|intros _; apply IH].
  by apply runs_spawn_event; [apply own_idle|].
Qed.

Lemma idle_keeps {A} (p : prog st A) : keeps 1 p -> runs 1 idle p (fun _ => idle).
Proof. apply runs_keeps, own_idle. Qed.

Lemma runs_dispatch_request frame : runs 1 idle (dispatch_request cfg 1 frame) (fun _ => idle).
Proof.
  unfold dispatch_request. destruct (handlers cfg !! op frame) as [launches|];
    [|apply idle_keeps, keeps_respond_or_report].
  eapply runs_bind; [by apply runs_admit; [apply own_idle|]|].
  intros [a|]; [|by apply runs_ret; intros s _ []].
  by apply runs_spawn_handler; [apply own_idle|].
Qed.

Lemma runs_dispatch_response frame : runs 1 idle (dispatch_response frame) (fun _ => idle).
Proof.
  eapply runs_bind; [apply runs_take_pending|]. intros [[c|]|expected].
  - apply runs_send_answer.
  - by apply runs_ret.
  - apply idle_keeps, keeps_report.
Qed.

Lemma runs_dispatch_line raw : runs 1 idle (dispatch_line cfg 1 raw) (fun _ => idle).
Proof.
  eapply runs_bind; [apply idle_keeps, keeps_is_closed|]. intros [|]; [by apply runs_ret|].
  destruct (_ <? _); [apply idle_keeps, keeps_report|].
  destruct (from_slice raw) as [frame|error]; [|apply idle_keeps, keeps_report].
  destruct (negb (is_well_formed frame)); [apply idle_keeps, keeps_report|].
  destruct (negb (valid_namespace cfg frame)); [apply idle_keeps, keeps_report|].
  case_decide; [apply runs_dispatch_request|].
  case_decide; [apply runs_dispatch_response|].
  unfold dispatch_event. destruct (event_handlers cfg !! op frame) as [count|];
    [apply runs_spawn_events|by apply runs_ret].
Qed.

Lemma keeps_fill_buf me : keeps me (fill_buf cfg).
Proof.
  apply keeps_await. intros s s' b Hs E.
  assert (s' = s \/ exists f, s' = set_world f s /\ written (f (s_world s)) = written (s_world s))
    as [->|(f & -> & Ef)]; [|split; [done|apply gua_call_refl]|by apply step_world].
  cbv zeta in E. repeat (case_match; simplify_eq; eauto).
Qed.

Lemma keeps_consume me n : keeps me (consume n).
Proof. apply keeps_change. intros s Hs. by apply step_world. Qed.

Lemma keeps_discard_line me : keeps me (discard_line cfg).
Proof.
  apply keeps_loop, keeps_then; [apply keeps_fill_buf|]. intros [[|x available]|error]; try apply keeps_ret.
  apply keeps_then; [apply keeps_consume|]. intros _. apply keeps_ret.
Qed.

Lemma keeps_read_bounded_line me max discarding : keeps me (read_bounded_line cfg max discarding).
Proof.
  apply keeps_then; [destruct discarding; [apply keeps_discard_line|apply keeps_ret]|].
  intros [ended|]; [apply keeps_ret|]. apply keeps_iter; [|intros b; apply keeps_ret].
  intros line. apply keeps_then; [apply keeps_fill_buf|].
  intros [[|x available]|error]; try apply keeps_ret.
  destruct (position _ _); (apply keeps_then; [apply keeps_consume|]; intros _; apply keeps_ret).
Qed.

Lemma keeps_worker_ended me : keeps me worker_ended.
Proof.
  apply keeps_await. intros s s' b Hs E. destruct (held (s_life s)); [done|]. injection E as <- <-.
  apply step_flag; [done|apply (inv_life _ s Hs)|done].
Qed.

Lemma runs_reader : runs 1 idle (reader cfg 1) (fun _ _ => True).
Proof.
  exists (fun _ => idle), (fun _ => idle). split_and!; try (intros; apply own_idle); [done| |].
  - intros discarding. apply (runs_bind 1 (fun _ => idle)); [apply idle_keeps, keeps_is_closed|].
    intros [|]; [by apply runs_ret|].
    apply (runs_bind 1 (fun _ => idle)); [apply idle_keeps, keeps_read_bounded_line|].
    intros [[[line| | |]|error] discarding'].
    + apply (runs_bind 1 (fun _ => idle)); [|intros _; by apply runs_ret].
      destruct line; [by apply runs_ret|apply runs_dispatch_line].
    + apply (runs_bind 1 (fun _ => idle)); [apply idle_keeps, keeps_report|intros _; by apply runs_ret].
    + apply (runs_bind 1 (fun _ => idle)); [apply idle_keeps, keeps_report|intros _].
      apply (runs_bind 1 (fun _ => idle)); [apply idle_keeps, keeps_close_transport|intros _; by apply runs_ret].
    + apply (runs_bind 1 (fun _ => idle)); [apply idle_keeps, keeps_close_transport|intros _; by apply runs_ret].
    + apply (runs_bind 1 (fun _ => idle)); [apply idle_keeps, keeps_report|intros _].
      apply (runs_bind 1 (fun _ => idle)); [apply idle_keeps, keeps_close_transport|intros _; by apply runs_ret].
  - intros b. eapply runs_post; [apply idle_keeps, keeps_worker_ended|done].
Qed.

(** ** The writer *)

(** The writer between two jobs: it is done with those it took. *)
Definition ready s : Prop :=
  let q := s_queue s in
  receiver q = true /\ queued q = Z.of_nat (length (channel q)) /\ Forall (fun jf => done_with jf.2) (fates q).

(** The writer with a job, of which came [f] so far, counted as taken or not yet. *)
Definition at_job (lag : Z) (job : WriteJob) (f : fate) s : Prop :=
  let q := s_queue s in
  receiver q = true /\ queued q = (Z.of_nat (length (channel q)) + lag)%Z /\
  exists l, fates q = l ++ [(job, f)] /\ Forall (fun jf => done_with jf.2) l.

Lemma stable_queue (P : bool -> Z -> list (WriteJob * fate) -> Prop) :
  own 0 (fun s => let q := s_queue s in
    P (receiver q) (queued q - Z.of_nat (length (channel q)))%Z (fates q)).
Proof.
  split.
  - apply stable_by. intros j s s' Hj Hs Hs' [_ _ _ [H1 H2 H3]]. simpl. by rewrite H1, H2, H3.
  - intros s s' _ _ [_ _ _ [H1 H2 H3]]. simpl. by rewrite H1, H2, H3.
Qed.

Lemma own_ext me (P P' : st -> Prop) : (forall s, P s <-> P' s) -> own me P -> own me P'.
Proof.
  intros HE [H1 H2]. split.
  - intros s s' Hs Hs' Ho Ps. apply HE. eapply H1; [..|by apply HE]; done.
  - intros s s' Hs Hs' Hg Ps. apply HE. eapply H2; [..|by apply HE]; done.
Qed.

Lemma own_ready : own 0 ready.
Proof.
  eapply own_ext; [|apply (stable_queue (fun r n fs =>
    r = true /\ n = 0%Z /\ Forall (fun jf => done_with jf.2) fs))].
  intros s. unfold ready. simpl. split; intros (? & ? & ?); (split_and!; [done|lia|done]).
Qed.

Lemma own_at_job lag job f : own 0 (at_job lag job f).
Proof.
  eapply own_ext; [|apply (stable_queue (fun r n fs =>
    r = true /\ n = lag /\ exists l, fs = l ++ [(job, f)] /\ Forall (fun jf => done_with jf.2) l))].
  intros s. unfold at_job. simpl. split; intros (? & ? & ?); (split_and!; [done|lia|done]).
Qed.

(** The queue is the writer's to change, and the output with it. *)
Lemma step_writer f g s :
  (inv s -> queue_ok cfg (f (s_queue s)) (written (g (s_world s)))) ->
  inv s -> inv (set_queue f (set_world g s)) /\ gua 0 s (set_queue f (set_world g s)).
Proof.
  intros Hf Hs. specialize (Hf Hs). destruct Hs as [Hl Ha Hs Hw Hq].
  split; split; simpl; auto using gua_life_refl, gua_work_refl, gua_asking_refl. by split.
Qed.

Lemma decided_last l job f f' q :
  fates q = l ++ [(job, f)] -> fates (decided f' q) = l ++ [(job, f')].
Proof.
  intros E. simpl. rewrite E, length_app. simpl.
  replace (length l + 1 - 1) with (length l + 0) by lia. by rewrite alter_app_r.
Qed.

Lemma fates_last_ok l (job : WriteJob) (f : fate) :
  Forall (fun jf => done_with jf.2) l ->
  forall i j f', (l ++ [(job, f)]) !! i = Some (j, f') -> ~ done_with f' -> S i = length (l ++ [(job, f)]).
Proof.
  intros Hl i j f' [Hi|[Hi E]]%lookup_app_Some Hnot.
  - rewrite Forall_lookup in Hl. by apply Hl in Hi.
  - apply list_lookup_singleton_Some in E as [E _]. rewrite length_app. simpl. lia.
Qed.

Lemma fst_decided l (job : WriteJob) (f f' : fate) :
  fst <$> l ++ [(job, f)] = fst <$> l ++ [(job, f')].
Proof. by rewrite !fmap_app. Qed.

(** What becomes of the job in hand. *)
Lemma decided_ok l job f q out out' :
  fates q = l ++ [(job, InHand)] -> Forall (fun jf => done_with jf.2) l ->
  (f = Passed -> canceled job ∈ flags q) -> out' = out ++ fate_bytes (job, f) ->
  queue_ok cfg q out -> queue_ok cfg (decided f q) out'.
Proof.
  intros E Hl Hpass -> [Hb Hc Ho Hw Hg Hlines Hla Hp Hout].
  pose proof (decided_last _ _ _ f _ E) as E'.
  rewrite ?E in *. split; try done; rewrite ?E'.
  - by rewrite (fst_decided _ _ _ InHand).
  - intros Hr. rewrite (fst_decided _ _ _ InHand). by apply Hw.
  - by apply fates_last_ok.
  - intros j [Hj|[= -> <-]%list_elem_of_singleton]%elem_of_app; [|by apply Hpass].
    apply Hp, elem_of_app. by left.
  - rewrite Hout, !fmap_app, !concat_app. simpl. by rewrite !app_nil_r.
Qed.

Definition received (job : option WriteJob) s : Prop :=
  match job with Some job => at_job 1 job InHand s | None => ready s end.

Lemma runs_recv : runs 0 ready recv received.
Proof.
  apply safe_await; [intros [job|]; [apply own_at_job|apply own_ready]|].
  intros s s' b Hs (Hr & Hn & Hf) E. cbv zeta in E.
  destruct (channel (s_queue s)) as [|job rest] eqn:Ech.
  { destruct (writer (s_queue s)); [done|]. injection E as <- <-.
    split; [done|split; [apply gua_refl|]]. split; [done|]. by rewrite Ech. }
  injection E as <- <-.
  destruct (step_writer (fun q => Queue (writer q) rest (receiver q) (queued q) (flags q)
    (next_flag q) (accepted q) (fates q ++ [(job, InHand)])) id s) as [H1 H2]; [|done|].
  - intros _. destruct (inv_queue _ s Hs) as [Hb Hc Ho Hw Hg Hlines Hla Hp Hout].
    rewrite Ech in *. simpl in *. split; simpl; try done.
    + lia.
    + lia.
    + rewrite fmap_app, <- app_assoc. done.
    + intros _. rewrite fmap_app, <- app_assoc. by apply Hw.
    + congruence.
    + by apply fates_last_ok.
    + intros j [Hj|Hj%list_elem_of_singleton]%elem_of_app; [by apply Hp|done].
    + rewrite fmap_app, concat_app, Hout. simpl. by rewrite !app_nil_r.
  - split; [done|split; [done|]]. split; [done|]. split; [|by eexists].
    simpl in *. lia.
Qed.

Lemma runs_count_taken job : runs 0 (at_job 1 job InHand) count_taken (fun _ => at_job 0 job InHand).
Proof.
  apply runs_change; [apply own_at_job|]. intros s Hs (Hr & Hn & Hf).
  destruct (step_writer (fun q => Queue (writer q) (channel q) (receiver q) (queued q - 1)%Z (flags q)
    (next_flag q) (accepted q) (fates q)) id s) as [H1 H2]; [|done|].
  - intros _. destruct (inv_queue _ s Hs) as [Hb Hc Ho Hw Hg Hlines Hla Hp Hout].
    split; simpl; try done. intros _. lia.
  - split; [done|split; [done|]]. split; [done|]. split; [simpl; lia|done].
Qed.

(** The job in hand is decided. *)
Lemma step_decided job f g s :
  inv s -> at_job 0 job InHand s -> (f = Passed -> canceled job ∈ flags (s_queue s)) ->
  written (g (s_world s)) = written (s_world s) ++ fate_bytes (job, f) ->
  let s' := set_queue (decided f) (set_world g s) in
  inv s' /\ gua 0 s s' /\ at_job 0 job f s' /\ (done_with f -> ready s').
Proof.
  intros Hs (Hr & Hn & l & E & Hl) Hpass Hg s'.
  pose proof (decided_last _ _ _ f _ E) as E'.
  destruct (step_writer (decided f) g s) as [H1 H2]; [|done|].
  { intros _. eapply decided_ok; [done..|apply Hs]. }
  split_and!; [done..| | ].
  - split; [done|split; [done|]]. eauto.
  - intros Hf. split; [done|split; [simpl in *; lia|]]. unfold s'. simpl s_queue. rewrite E'.
    apply Forall_app. by rewrite Forall_singleton.
Qed.

Lemma runs_is_canceled job :
  runs 0 (at_job 0 job InHand) (is_canceled job)
       (fun b => if b then ready else at_job 0 job InHand).
Proof.
  apply runs_act; [intros [|]; [apply own_ready|apply own_at_job]|]. intros s Hs Hj.
  case_decide as Hf; [|split; [done|split; [apply gua_refl|done]]].
  destruct (step_decided job Passed id s Hs Hj) as (H1 & H2 & _ & H3); [done|by rewrite app_nil_r|].
  split; [done|split; [done|]]. apply H3. by right.
Qed.

(** ... and what went of it is in the output. *)
Lemma step_wrote job f rest s :
  inv s -> at_job 0 job InHand s -> f <> Passed ->
  let s' := set_queue (decided f) (set_world (fun w =>
    World (now w) (input w) (buffer w) rest (written w ++ fate_bytes (job, f)) (reports w)) s) in
  inv s' /\ gua 0 s s' /\ (done_with f -> ready s').
Proof.
  intros Hs Hj Hf. edestruct (step_decided job f (fun w =>
    World (now w) (input w) (buffer w) rest (written w ++ fate_bytes (job, f)) (reports w)) s Hs Hj)
    as (H1 & H2 & _ & H3); [done..|]. by split_and!.
Qed.

Definition wrote (job : WriteJob) (failed : option string) s : Prop :=
  match failed with None => ready s | Some _ => True end.

Lemma runs_write_all job : runs 0 (at_job 0 job InHand) (write_all cfg job) (wrote job).
Proof.
  apply safe_await; [intros [|]; [done|apply own_ready]|]. intros s s' b Hs Hj E. cbv zeta in E.
  destruct (writes (s_world s)) as [|[[n error]|] rest]; [destruct (_ && _); [|done]|..];
    injection E as <- <-.
  - by destruct (step_wrote job (Cut 0) [] s Hs Hj) as (H1 & H2 & _).
  - by destruct (step_wrote job (Cut n) rest s Hs Hj) as (H1 & H2 & _).
  - destruct (step_wrote job Wrote rest s Hs Hj) as (H1 & H2 & H3); [done|].
    split; [exact H1|split; [exact H2|]]. apply H3. by left.
Qed.

Lemma runs_drop job :
  runs 0 (at_job 0 job InHand) (change (set_queue (decided Dropped))) (fun _ _ => True).
Proof.
  apply runs_change; [done|]. intros s Hs Hj.
  destruct (step_decided job Dropped id s Hs Hj) as (H1 & H2 & _); [done|by rewrite app_nil_r|].
  by split; [exact H1|split; [exact H2|]].
Qed.

Lemma runs_writer_loop : runs 0 ready (writer_loop cfg 0) (fun _ _ => True).
Proof.
  apply safe_loop; [apply own_ready|done|].
  eapply runs_bind; [apply runs_recv|]. intros [job|]; [|by apply runs_ret].
  apply (runs_bind 0 (fun _ => at_job 0 job InHand)); [apply runs_count_taken|]. intros _.
  eapply runs_bind; [apply runs_is_canceled|]. intros [|]; [by apply runs_ret|].
  apply (runs_bind 0 (fun _ => at_job 0 job InHand)); [apply runs_keeps; [apply own_at_job|apply keeps_output_closed]|]. intros [|].
  { apply (runs_bind 0 (fun _ _ => True)); [apply runs_drop|]. intros _. by apply runs_ret. }
  eapply runs_bind; [apply runs_write_all|]. intros [error|]; [|by apply runs_ret].
  apply (runs_bind 0 (fun _ _ => True));
    [apply runs_keeps; [apply own_True|apply keeps_close_transport]|].
  intros _. by apply runs_ret.
Qed.

Lemma runs_writer : runs 0 ready (writer_thread cfg 0) (fun _ _ => True).
Proof.
  apply (runs_bind 0 (fun _ _ => True)); [apply runs_writer_loop|]. intros _.
  apply (runs_bind 0 (fun _ _ => True)).
  - apply runs_change; [done|]. intros s Hs _.
    destruct (step_writer (fun q => Queue (writer q) [] false (queued q) (flags q) (next_flag q)
      (accepted q) (fates q)) id s) as [H1 H2]; [|done|by split; [exact H1|split; [exact H2|]]].
    intros _. destruct (inv_queue _ s Hs) as [Hb Hc Ho Hw Hg Hlines Hla Hp Hout].
    split; simpl; try done; [lia|]. rewrite app_nil_r. etransitivity; [|apply Ho]. by exists (channel (s_queue s)).
  - intros _. apply runs_keeps; [apply own_True|apply keeps_worker_ended].
Qed.

(** ** The whole bridge *)

Lemma initial_ok apps : inv (shared (built cfg apps)).
Proof.
  split; split; simpl; try done; try set_solver; try lia; constructor.
Qed.

Lemma built_ok apps :
  config_ok outside_step (begin cfg env) inv gua (fun _ _ => True) (built cfg apps).
Proof.
  split; [apply initial_ok|]. intros [|[|i]] p Hp; simpl in Hp.
  - injection Hp as <-. exists ready. split; [apply own_ready|]. split; [done|apply runs_writer].
  - injection Hp as <-. exists idle. split; [apply own_idle|]. split; [done|apply runs_reader].
  - rewrite list_lookup_imap in Hp. apply fmap_Some in Hp as (app & _ & ->).
    exists (fun _ => True). split_and!; [done..|]. apply runs_keeps; [apply own_True|apply keeps_run_client].
Qed.

Lemma bridge_ok apps chs c :
  execute outside_step (begin cfg env) (built cfg apps) chs = Some c ->
  config_ok outside_step (begin cfg env) inv gua (fun _ _ => True) c.
Proof.
  apply execute_ok; [intros; apply gua_refl|..|apply built_ok].
  - intros e s s' Hs E. by eapply outside_gua.
  - intros t n s s' p Hs E. split; [by eapply begin_gua|by eapply begin_runs].
Qed.

(** What each step leaves related is related from one state reached to a later one. *)
Lemma bridge_related (M : st -> st -> Prop) apps chs c chs' c' :
  (forall s, M s s) -> (forall s1 s2 s3, M s1 s2 -> M s2 s3 -> M s1 s3) ->
  (forall i s s', inv s -> inv s' -> gua i s s' -> M s s') ->
  execute outside_step (begin cfg env) (built cfg apps) chs = Some c ->
  execute outside_step (begin cfg env) c chs' = Some c' -> M (shared c) (shared c').
Proof.
  intros Hrefl Htrans HG Hc Hc'.
  eapply (execute_related outside_step (begin cfg env) inv gua (fun _ _ => True)); try exact Hc'; try done.
  - intros; apply gua_refl.
  - intros e s s' Hs E. by eapply outside_gua.
  - intros t n s s' p Hs E. split; [by eapply begin_gua|by eapply begin_runs].
  - intros e s s' Hs E. destruct (outside_gua _ _ _ _ Hs E) as [Hs' Hg]. by eapply (HG 0).
  - intros t n s s' p Hs E. destruct (begin_gua _ _ _ _ _ _ _ Hs E) as [Hs' Hg]. by eapply (HG 0).
  - by eapply bridge_ok.
Qed.
End Run.
