(* ===== verification/BridgeThreadsWhole.v ===== *)
(** * What holds of a bridge on threads, whichever thread goes next

    The theorems of [BridgeThreads]: of every state that an execution of a bridge as it is
    built comes to, by [BridgeThreadsRun]; of its queue and its output, its close, the
    requests that wait and the launches. *)
From stdpp Require Import gmap.
From S2P Require Import Prelude Utf8 Lines Frames Threads BridgeThreads BridgeThreadsSafe BridgeThreadsRun.
#[local] Open Scope nat_scope.

(** ** The output, as the peer may see it *)

(** What the queued lines may be sent as: whole and in their order, without those given up,
    up to one of which a part is sent. *)
Inductive sends (given_up : gset nat) : list WriteJob -> list byte -> Prop :=
| SendsNone : sends given_up [] []
| SendsLine job jobs out : sends given_up jobs out -> sends given_up (job :: jobs) (bytes job ++ out)
| SendsNot job jobs out :
    canceled job ∈ given_up -> sends given_up jobs out -> sends given_up (job :: jobs) out
| SendsPart job jobs n : sends given_up (job :: jobs) (take n (bytes job)).

Lemma sends_nothing given_up jobs : sends given_up jobs [].
Proof. destruct jobs as [|job jobs]; [constructor|]. exact (SendsPart given_up job jobs 0). Qed.

Lemma fates_send given_up (l : list (WriteJob * fate)) rest :
  (forall i j f, l !! i = Some (j, f) -> ~ done_with f -> S i = length l) ->
  (forall j, (j, Passed) ∈ l -> canceled j ∈ given_up) ->
  sends given_up ((fst <$> l) ++ rest) (concat (fate_bytes <$> l)).
Proof.
  induction l as [|[job f] l IH]; intros Hlast Hpass; simpl; [apply sends_nothing|].
  assert (Hgo : sends given_up ((fst <$> l) ++ rest) (concat (fate_bytes <$> l))).
  { apply IH.
    - intros i j f' Hi Hf. specialize (Hlast (S i) j f' Hi Hf). simpl in Hlast. lia.
    - intros j Hj. apply Hpass. by right. }
  assert (Hend : ~ done_with f -> l = []).
  { intros Hf. specialize (Hlast 0 job f eq_refl Hf). by destruct l. }
  destruct f as [| | |n|]; unfold fate_bytes at 1; simpl.
  - rewrite Hend by (intros [|]; done). apply sends_nothing.
  - apply SendsNot; [apply Hpass; by left|done].
  - by apply SendsLine.
  - rewrite Hend by (intros [|]; done). simpl. rewrite app_nil_r. apply SendsPart.
  - rewrite Hend by (intros [|]; done). apply sends_nothing.
Qed.

Section Whole.
Context `{Serde} (cfg : settings) (env : closures).
Implicit Types s : st.

(** An execution of a bridge as it is built, with those app's threads. *)
Definition run (apps : list (nat -> client unit)) (chs : list (choice (E := outside))) :
    option (config (S := st)) :=
  execute outside_step (begin cfg env) (built cfg apps) chs.

Lemma run_inv apps chs c : run apps chs = Some c -> inv cfg (shared c).
Proof. intros Hc. by eapply bridge_ok. Qed.

(** C8: the peer is sent what was queued, each a frame's line within the limit, in the order
    it was queued: a line goes whole or not at all, one is left out only where its request was
    given up, and only the last thing ever sent can be a part of a line. *)
Theorem output_is_the_queued_lines apps chs c :
  run apps chs = Some c ->
  let q := s_queue (shared c) in
  Forall (is_line cfg) (accepted q) /\
  sends (flags q) (accepted q) (written (s_world (shared c))).
Proof.
  intros Hc q. destruct (inv_queue _ _ (run_inv _ _ _ Hc)) as [Hb Hn [rest Ho] Hw Hg Hl Hla Hp Hout].
  split; [done|]. rewrite Hout. subst q. rewrite Ho, <- app_assoc. by apply fates_send.
Qed.

(** The writer's queue never holds more than its capacity, and while it is open a frame is
    queued only where fewer than its share of the queue are there, and is where one fewer is. *)
Theorem queue_takes_up_to_a_share apps chs c job depth :
  run apps chs = Some c -> depth <= WRITER_QUEUE_CAPACITY ->
  let s := shared c in
  length (channel (s_queue s)) <= WRITER_QUEUE_CAPACITY /\
  ((try_enqueue job depth s).2 = Queued -> length (channel (s_queue s)) < depth) /\
  (writer (s_queue s) = true -> receiver (s_queue s) = true ->
   S (length (channel (s_queue s))) < depth -> (try_enqueue job depth s).2 = Queued).
Proof.
  intros Hc Hd s. destruct (inv_queue _ _ (run_inv _ _ _ Hc)) as [Hb Hn _ _ _ _ _ _ _].
  fold s in Hb, Hn. split; [done|]. unfold try_enqueue.
  destruct (writer (s_queue s)); [|done]. simpl.
  destruct (receiver (s_queue s)); simpl; [specialize (Hn eq_refl)|by destruct (_ && _)].
  destruct ((depth <? _) && _) eqn:E1; simpl.
  { ranges. split; [done|]. lia. }
  destruct (_ <=? length _) eqn:E2; simpl; [ranges; split; [done|lia]|]. ranges.
  split; [intros _|done]. apply andb_false_iff in E1 as [E1|E1]; ranges; lia.
Qed.

(** C9: however the threads go, the bridge tells its close at most once; and once a close is
    done nothing waits under [pending], and nobody waits for an answer: every channel of a
    request has its answer or lost its sender, but the one whose answer the reader has in
    hand. *)
Theorem close_lets_every_request_go apps chs c :
  run apps chs = Some c ->
  let s := shared c in
  closes (s_life s) <= 1 /\
  (closed (s_life s) = true -> lc_closed (s_life s) = true) /\
  (lc_closed (s_life s) = true -> held (s_life s) = None ->
   closed (s_life s) = true /\ pending (s_asking s) = ∅ /\
   forall ch deadline, taken (s_asking s) <> Some ch ->
     is_Some (step (recv_timeout ch deadline) s)).
Proof.
  intros Hc s. destruct (run_inv _ _ _ Hc) as [Hl Ha Hset _ _]. fold s in Hl, Ha, Hset.
  split; [apply Hl|]. split; [apply Hl|]. intros Hcl Hh.
  destruct (settled_after _ _ Hset Hcl Hh) as (Hc' & Hp & Hd). split; [done|]. split; [done|].
  intros ch deadline Ht. simpl.
  destruct (chans (s_asking s) !! ch) as [[id op [answer|] [|]]|] eqn:E; simpl; try by eexists.
  destruct (sender_placed _ _ Ha ch _ E eq_refl) as [Hx|[Hx|Hx]]; simpl in Hx; [| |done].
  - by rewrite Hp, lookup_empty in Hx.
  - by rewrite Hd in Hx.
Qed.

(** ** A close, run to its end *)

Lemma ends_change (f : st -> st) s : ends (change f) s tt (f s).
Proof. apply (ends_act (fun s => (f s, tt))). Qed.

Definition answer_all (cs : list nat) (answer : Answer) (a : asking) : asking :=
  foldl (fun a c => answered c answer a) a cs.

Lemma send_all_ends cs answer s :
  ends (send_all cs answer) s tt (set_asking (answer_all cs answer) s).
Proof.
  revert s. induction cs as [|c cs IH]; intros s; [by destruct s; constructor|].
  eapply ends_bind; [apply ends_change|]. apply (IH (set_asking (answered c answer) s)).
Qed.

Lemma answer_all_parts cs answer a :
  pending (answer_all cs answer a) = pending a /\ minters (answer_all cs answer a) = minters a /\
  forall c x, chans a !! c = Some x -> chans (answer_all cs answer a) !! c =
    Some (if decide (c ∈ cs) then Chan (c_id x) (c_op x) (Some answer) false else x).
Proof.
  revert a. induction cs as [|c0 cs IH]; intros a; [done|].
  destruct (IH (answered c0 answer a)) as (Hp & Hm & Hc). split; [done|]. split; [done|].
  intros c x Hx. simpl. destruct (decide (c = c0)) as [->|Hne].
  - rewrite (Hc c0 (Chan (c_id x) (c_op x) (Some answer) false)).
    + rewrite (decide_True (P := c0 ∈ c0 :: cs)) by left. by destruct (decide (c0 ∈ cs)).
    + simpl. by rewrite list_lookup_alter_eq, Hx.
  - rewrite (Hc c x) by (simpl; by rewrite list_lookup_alter_ne).
    f_equal. apply decide_ext. set_solver.
Qed.

Definition cut (keep : bool) s : st :=
  if keep then s else set_queue (set_sender false) (set_life request_shutdown (set_life store_output_ended s)).

Lemma cut_ends (keep : bool) s : ends (A := unit) (if keep then Ret tt else cut_output) s tt (cut keep s).
Proof.
  destruct keep; [constructor|]. eapply ends_bind; [apply ends_change|].
  eapply ends_bind; [apply ends_change|]. exact (ends_change (set_queue (set_sender false)) _).
Qed.

(** A close comes to its end wherever the lifecycle's lock is free; the first one answers
    every request that waits, each by the error it closes with, leaves none to wait, tells the
    error where it is to be told and the close once, and cuts the output if it is not kept. *)
Theorem first_close_answers_all apps chs c me error report_it keep :
  run apps chs = Some c ->
  let s := shared c in
  held (s_life s) = None -> lc_closed (s_life s) = false ->
  exists s', ends (close_transport me error report_it keep) s tt s' /\
    closed (s_life s') = true /\ lc_closed (s_life s') = true /\ held (s_life s') = None /\
    closes (s_life s') = 1 /\ pending (s_asking s') = ∅ /\
    (forall id r, pending (s_asking s) !! id = Some r ->
       chans (s_asking s') !! p_sender r = Some (Chan id (p_op r) (Some (inr error)) false)) /\
    reports (s_world s') = reports (s_world s) ++ (if report_it then [error] else []) /\
    (keep = false -> requested (s_life s') = true /\ writer (s_queue s') = false).
Proof.
  intros Hc s Hh Hl. destruct (run_inv _ _ _ Hc) as [Hlife Ha _ _ _]. fold s in Hlife, Ha.
  assert (Hzero : closes (s_life s) = 0).
  { pose proof (closes_once _ Hlife). destruct (closes (s_life s)) as [|[|n]] eqn:E; [done| |lia].
    destruct (closes_after _ Hlife E). congruence. }
  set (s1 := cut keep (set_life store_closed (set_life (hold_closed me) s))).
  assert (E1 : s_asking s1 = s_asking s /\ s_world s1 = s_world s /\ closed (s_life s1) = true /\
    lc_closed (s_life s1) = true /\ closes (s_life s1) = 0 /\
    (keep = false -> requested (s_life s1) = true /\ writer (s_queue s1) = false))
    by (subst s1; by destruct keep).
  destruct E1 as (Easking & Eworld & Eclosed & Elc & Ecloses & Ecut).
  set (senders := map (fun kv => p_sender (snd kv)) (map_to_list (pending (s_asking s)))).
  set (s2 := set_life let_go (set_asking (answer_all senders (inr error)) (set_asking (fun a : asking =>
    Asking (minters a) ∅ (chans a) (list_to_set senders) (taken a)) s1))).
  set (s3 := if report_it then set_world (fun w => World (now w) (input w) (buffer w) (writes w)
    (written w) (reports w ++ [error])) s2 else s2).
  exists (set_life tell_close s3). split.
  - eapply ends_bind; [apply ends_await; rewrite Hh, Hl; done|]. cbv iota.
    eapply ends_bind; [apply ends_change|]. eapply ends_bind; [apply cut_ends|]. fold s1.
    eapply ends_bind; [apply ends_act|]. cbv beta zeta. cbn [fst snd]. rewrite Easking. fold senders.
    eapply ends_bind; [apply send_all_ends|]. eapply ends_bind; [apply ends_change|]. fold s2.
    apply (ends_bind (if report_it then report error else Ret tt) _ s2 tt s3); [|apply ends_change]. subst s3. destruct report_it; [apply ends_change|constructor].
  - assert (E3 : s_life s3 = s_life s2 /\ s_asking s3 = s_asking s2 /\ s_queue s3 = s_queue s2 /\
      reports (s_world s3) = reports (s_world s) ++ (if report_it then [error] else [])).
    { subst s3. destruct report_it; simpl; rewrite ?Eworld, ?app_nil_r; done. }
    destruct E3 as (El3 & Ea3 & Eq3 & Er3).
    simpl. rewrite El3, Ea3, Eq3, Er3. simpl.
    destruct (answer_all_parts senders (inr error) (Asking (minters (s_asking s1)) ∅
      (chans (s_asking s1)) (list_to_set senders) (taken (s_asking s1)))) as (Hp & _ & Hch).
    split_and!; try done.
    + by rewrite Ecloses.
    + intros id r Hr. rewrite (Hch _ (Chan id (p_op r) None true)).
      * rewrite decide_True; [done|]. subst senders. apply list_elem_of_fmap. exists (id, r).
        split; [done|]. by apply elem_of_map_to_list.
      * simpl. rewrite Easking. by apply (pending_chan _ _ Ha).
Qed.

(** C38: a request that waits has an id this bridge minted, a channel that is no other's, and
    on it no answer yet, and it waits for an answer of its own op. *)
Theorem requests_wait_apart apps chs c id r :
  run apps chs = Some c ->
  let a := s_asking (shared c) in
  pending a !! id = Some r ->
  chans a !! p_sender r = Some (Chan id (p_op r) None true) /\
  starts_with id (prefix (role cfg)) = true /\
  (forall id' r', pending a !! id' = Some r' -> p_sender r' = p_sender r -> id' = id).
Proof.
  intros Hc a Hr. destruct (inv_asking _ _ (run_inv _ _ _ Hc)) as [Hp Ha Hd Ht Hs Hm].
  fold a in Hp, Hm. pose proof (Hp _ _ Hr) as E. split; [done|]. split.
  - destruct (Hm _ _ Hr) as (n & _ & ->). apply minted_own.
  - intros id' r' Hr' Es. apply Hp in Hr'. rewrite Es, E in Hr'. congruence.
Qed.

(** No admission of a launch is left, and none is made. *)
Definition no_launches s : Prop :=
  lc_closed (s_life s) = true /\ forall a o, admissions (s_work s) !! a <> Some (true, o).

Lemma launches_closed_none s : inv cfg s -> launches_closed s = true -> no_launches s.
Proof.
  intros Hs E. unfold launches_closed in E. ranges. split; [done|]. intros a o Ha.
  destruct (inv_work _ _ Hs) as [_ Hn _ _ _ _]. 
  match goal with E : in_flight_launches _ = 0 |- _ => rewrite Hn in E;
    by apply (launch_count_zero _ _ _ _ E) in Ha end.
Qed.

(** Once [wait_launches_closed] finds what it waits for, no handler that launches panes
    runs any more, and none ever will, whatever the threads do after. *)
Theorem launches_stay_closed apps chs c chs' c' :
  run apps chs = Some c -> launches_closed (shared c) = true ->
  execute outside_step (begin cfg env) c chs' = Some c' ->
  let w := s_work (shared c') in
  launches_closed (shared c') = true /\
  forall a, a ∈ running w -> exists thread, admissions w !! a = Some (false, Some thread).
Proof.
  intros Hc Hl Hc'.
  assert (Hinv : inv cfg (shared c')).
  { eapply (run_inv apps (chs ++ chs')). unfold run. rewrite execute_app.
    unfold run in Hc. by rewrite Hc. }
  pose proof (bridge_related cfg env (fun s s' => no_launches s -> no_launches s')) as Hrel.
  assert (Hno : no_launches (shared c')).
  { eapply Hrel; [..|exact Hc|exact Hc'|by eapply launches_closed_none; [eapply run_inv|]]; [auto..|].
    intros i s s' Hs Hs' [Hgl _ Hgw _] [Hlc Hnone]. split; [by eapply life_lc_closed|].
    intros a o Ha. destruct (work_closed _ _ _ _ Hgw Hlc _ _ _ Ha) as [o' Ho']. by eapply Hnone. }
  destruct Hno as [Hlc Hnone]. destruct (inv_work _ _ Hinv) as [_ Hn _ _ _ Hr]. split.
  - unfold launches_closed. rewrite Hlc, Hn. simpl. apply Nat.eqb_eq, map_size_empty_iff.
    apply map_empty_filter_2. intros a [l o] Ha El. unfold launching in El. simpl in El. subst l.
    by eapply Hnone.
  - intros a Ha. destruct (Hr a Ha) as (l & i & E). destruct l; [by apply Hnone in E|]. eauto.
Qed.
End Whole.

(** ** Executions of one bridge *)

Module Sample.
Definition cfg : settings :=
  Settings Host 2000 DEFAULT_REQUEST_DEADLINE true true {[ "pane.launch"%string := true ]} ∅.
Definition env : closures (H := text_json) :=
  Closures (fun _ body => Return (Some (inl body))) (fun _ _ _ => Return tt).

(** The app's thread asks the peer, and is done. *)
Definition app (me : nat) : client (H := text_json) unit :=
  Call (Request (H := text_json) "hi" "body"%string None) (fun _ => Return tt).

Definition go (thread times : nat) : list (choice (E := outside)) := repeat (Go thread) times.
Definition comes (frame : Frame (H := text_json)) : choice (E := outside) :=
  Env (Comes (inl (match to_vec frame with inl line => line ++ [lf] | inr _ => [] end))).

Definition asked := go 2 8.
Definition answered := asked ++ go 0 5 ++ [Env (Goes None)] ++ go 0 2 ++
  [comes (MkFrame (H := text_json) 1 "r-1" "res" "hi" "answer"%string)] ++ go 1 11 ++ go 2 1.
Definition broken := asked ++ go 0 5 ++ [Env (Goes (Some (3, "broken"%string)))] ++ go 0 13.
Definition launched := asked ++
  [comes (MkFrame (H := text_json) 1 "n-1" "req" "pane.launch" "window"%string)] ++ go 1 11 ++
  [Begin 0; Env (Comes (inl []))] ++ go 1 8 ++ go 3 9.

Definition after (chs : list choice) : option (config (S := st)) := run cfg env [app] chs.

Lemma after_intro chs (check : config (S := st) -> bool) (P : config -> Prop) :
  match after chs with Some c => check c | None => false end = true ->
  (forall c, run cfg env [app] chs = Some c -> check c = true -> P c) -> exists c, after chs = Some c /\ P c.
Proof. unfold after. destruct (run cfg env [app] chs) as [c|]; [|done]. eauto. Qed.
End Sample.

Lemma output_is_the_queued_lines_witness : exists c,
  Sample.after Sample.broken = Some c /\
  (length (written (s_world (shared c))) = 3 /\
   sends (flags (s_queue (shared c))) (accepted (s_queue (shared c))) (written (s_world (shared c)))).
Proof.
  apply (Sample.after_intro _ (fun c => length (written (s_world (shared c))) =? 3));
    [vm_compute; reflexivity|].
  intros c E Ec%Nat.eqb_eq. split; [done|].
  by apply (output_is_the_queued_lines Sample.cfg Sample.env [Sample.app] Sample.broken c).
Defined.

Lemma queue_takes_up_to_a_share_witness : exists c,
  Sample.after Sample.asked = Some c /\
  (length (channel (s_queue (shared c))) = 1 /\
   (try_enqueue (MkJob [lf] 7) STREAM_QUEUE_SHARE (shared c)).2 = Queued).
Proof.
  apply (Sample.after_intro _ (fun c => (length (channel (s_queue (shared c))) =? 1) &&
    writer (s_queue (shared c)) && receiver (s_queue (shared c)))); [vm_compute; reflexivity|].
  intros c E Ec. apply andb_true_iff in Ec as [[En%Nat.eqb_eq Ew]%andb_true_iff Er].
  split; [done|].
  apply (queue_takes_up_to_a_share Sample.cfg Sample.env [Sample.app] Sample.asked c);
    [done|vm_compute; lia|done|done|rewrite En; vm_compute; lia].
Defined.

Lemma close_lets_every_request_go_witness : exists c,
  Sample.after Sample.broken = Some c /\
  (closes (s_life (shared c)) <= 1 /\ pending (s_asking (shared c)) = ∅).
Proof.
  apply (Sample.after_intro _ (fun c => lc_closed (s_life (shared c)) &&
    bool_decide (held (s_life (shared c)) = None))); [vm_compute; reflexivity|].
  intros c E Ec. apply andb_true_iff in Ec as [El Eh%bool_decide_eq_true].
  destruct (close_lets_every_request_go Sample.cfg Sample.env [Sample.app] Sample.broken c E)
    as (H1 & _ & H2). split; [done|]. by apply H2.
Defined.

Lemma requests_wait_apart_witness : exists c,
  Sample.after Sample.asked = Some c /\
  chans (s_asking (shared c)) !! 0 = Some (Chan "r-1" "hi" None true).
Proof.
  apply (Sample.after_intro _ (fun c => match pending (s_asking (shared c)) !! "r-1"%string with
    | Some r => bool_decide (p_op r = "hi"%string) && (p_sender r =? 0) | None => false end));
    [vm_compute; reflexivity|].
  intros c E Ec. destruct (pending (s_asking (shared c)) !! "r-1"%string) as [r|] eqn:Er; [|done].
  apply andb_true_iff in Ec as [Eop%bool_decide_eq_true Es%Nat.eqb_eq].
  pose proof (proj1 (requests_wait_apart Sample.cfg Sample.env [Sample.app] Sample.asked c _ r E Er)) as Hch.
  by rewrite Eop, Es in Hch.
Defined.

Lemma first_close_answers_all_witness : exists c,
  Sample.after Sample.asked = Some c /\
  exists s', ends (close_transport 7 Eof true false) (shared c) tt s' /\
             pending (s_asking s') = ∅ /\ closes (s_life s') = 1.
Proof.
  apply (Sample.after_intro _ (fun c => negb (lc_closed (s_life (shared c))) &&
    bool_decide (held (s_life (shared c)) = None))); [vm_compute; reflexivity|].
  intros c E Ec. apply andb_true_iff in Ec as [El%negb_true_iff Eh%bool_decide_eq_true].
  destruct (first_close_answers_all Sample.cfg Sample.env [Sample.app] Sample.asked c 7 Eof true false
    E Eh El) as (s' & H1 & _ & _ & _ & H2 & H3 & _). by exists s'.
Defined.

Lemma launches_stay_closed_witness : exists c,
  Sample.after Sample.launched = Some c /\
  (next_admission (s_work (shared c)) = 1 /\
   forall c', execute outside_step (begin Sample.cfg Sample.env) c (Sample.go 2 1) = Some c' ->
              launches_closed (shared c') = true).
Proof.
  apply (Sample.after_intro _ (fun c => launches_closed (shared c) &&
    (next_admission (s_work (shared c)) =? 1))); [vm_compute; reflexivity|].
  intros c E Ec. apply andb_true_iff in Ec as [El En%Nat.eqb_eq]. split; [done|]. intros c' E'.
  by apply (launches_stay_closed Sample.cfg Sample.env [Sample.app] Sample.launched c (Sample.go 2 1) c').
Defined.
