(* ===== verification/BridgeReads.v ===== *)
(** * How the threaded bridge's reader reads lines: [read_bounded_line]

    However the bytes of a stream are cut as they come, what is read of it are its lines, each
    within the limit or as one that is over it, and then how it ends. The stream is what the
    reader's buffer holds and what comes after; a read is [BridgeThreads.read_bounded_line],
    run alone ([Threads.ends]), as no other thread reads. *)
From S2P Require Import Prelude Utf8 Lines Frames Threads BridgeThreads.
#[local] Open Scope nat_scope.

(** ** What there is to read *)

(** A line read of [data], and then of how the stream ends. *)
Definition line_of (max : nat) (data : list byte) (ending : list byte + string) : BoundedLine + string :=
  match position is_lf data with
  | Some n => inl (if max <? n then BOverflow else BComplete (trim_line_ending (take n data)))
  | None =>
      if max <? length data then inl BOverflow
      else match ending with
           | inr error => inr error
           | inl _ => inl (match data with [] => BEof | _ => BUnterminated end)
           end
  end.

(** What is left of [data] after its first line. *)
Definition rest_of (data : list byte) : list byte := default [] (after_lf data).

(** What is to be read yet: of a line that overflowed, nothing. *)
Definition unread (discarding : bool) (data : list byte) : list byte :=
  if discarding then rest_of data else data.

Lemma after_lf_app_None l data : position is_lf l = None -> after_lf (l ++ data) = after_lf data.
Proof.
  intros El. rewrite !after_lf_position, (position_app_r _ _ _ El).
  destruct (position is_lf data) as [n|]; simpl; [|done].
  by rewrite drop_app_ge, <- Nat.add_assoc, Nat.add_comm, Nat.add_sub by lia.
Qed.

Lemma rest_of_app l data : position is_lf l = None -> rest_of (l ++ data) = rest_of data.
Proof. intros El. unfold rest_of. by rewrite after_lf_app_None. Qed.

Lemma rest_of_position n l data :
  position is_lf l = Some n -> rest_of (l ++ data) = drop (n + 1) l ++ data.
Proof.
  intros El. unfold rest_of. rewrite after_lf_position, (position_app_l _ _ _ _ El). simpl.
  pose proof (position_lt _ _ _ El). by rewrite drop_app_le by lia.
Qed.

Section Reads.
Context `{Serde} (cfg : settings).
Implicit Types s : st.

(** [data] is to come, in whatever chunks, and then [ending], the end or why no more is read. *)
Record stream s (data : list byte) (ending : list byte + string) : Prop := {
  streams_on : interruptible cfg && requested (s_life s) = false;
  stream_ending : forall more, ending = inl more -> more = [];
  streamed : exists chunks, input (s_world s) = (inl <$> chunks) ++ [ending] /\
    Forall (fun c => c <> []) chunks /\ data = buffer (s_world s) ++ concat chunks
}.

(** [s] but for what is read. *)
Definition reading s s' : Prop :=
  exists i b, s' = set_world (fun w => World (now w) i b (writes w) (written w) (reports w)) s.

Lemma reading_refl s : reading s s.
Proof. exists (input (s_world s)), (buffer (s_world s)). by destruct s as [? ? ? ? []]. Qed.

Lemma reading_trans s1 s2 s3 : reading s1 s2 -> reading s2 s3 -> reading s1 s3.
Proof. intros (i & b & ->) (i' & b' & ->). by exists i', b'. Qed.

(** More comes, in the buffer. *)
Lemma fill_buf_more s data ending :
  stream s data ending -> data <> [] ->
  exists b rest s', ends (fill_buf cfg) s (inl b) s' /\ reading s s' /\ stream s' data ending /\
    b <> [] /\ buffer (s_world s') = b /\ data = b ++ rest.
Proof.
  intros [Hon Hend (chunks & Hin & Hne & ->)] Hdata.
  destruct (buffer (s_world s)) as [|x b] eqn:Eb.
  - destruct chunks as [|c chunks]; [done|]. apply Forall_cons in Hne as [Hc Hne].
    exists c, (concat chunks), (set_world (fun w => World (now w) ((inl <$> chunks) ++ [ending]) c
      (writes w) (written w) (reports w)) s).
    split; [|split; [by eexists _, _|split; [|done]]].
    + apply ends_await. cbv zeta. rewrite Eb, Hon, Hin. by destruct c.
    + split; [done|done|]. by exists chunks.
  - exists (x :: b), (concat chunks), s. split; [|split; [apply reading_refl|split; [|done]]].
    + apply ends_await. cbv zeta. by rewrite Eb.
    + split; [done..|]. exists chunks. by rewrite Eb.
Qed.

(** Nothing more comes. *)
Lemma fill_buf_ending s ending :
  stream s [] ending ->
  exists s', ends (fill_buf cfg) s ending s' /\ reading s s' /\
    ((forall error, ending <> inr error) -> stream s' [] ending).
Proof.
  intros [Hon Hend (chunks & Hin & Hne & E)].
  symmetry in E. apply app_eq_nil in E as [Eb Ec].
  destruct chunks as [|c chunks]; [|apply Forall_cons in Hne as [Hc _]; by apply app_eq_nil in Ec as [-> _]].
  simpl in Hin. destruct ending as [more|error].
  - rewrite (Hend more eq_refl) in *. exists s. split; [|split; [apply reading_refl|]].
    + apply ends_await. cbv zeta. by rewrite Eb, Hon, Hin.
    + intros _. split; [done|congruence|]. exists []. simpl. by rewrite Eb.
  - exists (set_world (fun w => World (now w) [] [] (writes w) (written w) (reports w)) s).
    split; [|split; [by eexists _, _|by intros Hne'; destruct (Hne' error)]].
    apply ends_await. cbv zeta. by rewrite Eb, Hon, Hin.
Qed.

(** Some of the buffer is read. *)
Lemma consume_reads s b rest ending n :
  stream s (b ++ rest) ending -> buffer (s_world s) = b -> n <= length b ->
  exists s', ends (consume n) s tt s' /\ reading s s' /\ stream s' (drop n b ++ rest) ending.
Proof.
  intros [Hon Hend (chunks & Hin & Hne & E)] Eb Hn. rewrite Eb in E. apply app_inv_head in E as ->.
  eexists. split; [apply ends_act|]. split; [by eexists _, _|].
  split; [done..|]. exists chunks. simpl. by rewrite Eb.
Qed.

(** What a read comes to from here: [result], and the stream with [left] of it unread. *)
Definition reads_to (p : prog st ((BoundedLine + string) * bool)) s (ending : list byte + string)
    (result : BoundedLine + string) (left : list byte) : Prop :=
  exists discarding s', ends p s (result, discarding) s' /\ reading s s' /\
    ((forall error, result <> inr error) ->
     exists data, stream s' data ending /\ unread discarding data = left).

Lemma reads_to_step {B} (p : prog st B) k b s s1 ending result left :
  ends p s b s1 -> reading s s1 -> reads_to (k b) s1 ending result left ->
  reads_to (p ≫= k) s ending result left.
Proof.
  intros Hp Hs (d & s' & Hk & Hs' & Hleft). exists d, s'.
  split; [by eapply ends_bind|]. split; [by eapply reading_trans|done].
Qed.

Lemma reads_to_ret s result discarding data ending :
  ((forall error, result <> inr error) -> stream s data ending) ->
  reads_to (mret (result, discarding)) s ending result (unread discarding data).
Proof.
  intros Hs. exists discarding, s. split; [constructor|]. split; [apply reading_refl|].
  intros Hr. eauto.
Qed.

Lemma reads_to_iter {X} (x : X) turn r s s1 ending result left :
  ends (turn x) s r s1 -> reading s s1 ->
  reads_to (match r with inl x => Iter x turn mret | inr b => mret b end) s1 ending result left ->
  reads_to (Iter x turn mret) s ending result left.
Proof.
  intros Ht Hs (d & s' & Hk & Hs' & Hleft). exists d, s'.
  split; [by eapply EndsIter|]. split; [by eapply reading_trans|done].
Qed.

(** What a turn comes to, that has [line] of what is [line ++ data] in all. *)
Definition turned (max : nat) (line data : list byte) (ending : list byte + string)
    (r : list byte + (BoundedLine + string) * bool) s : Prop :=
  match r with
  | inl line' =>
      position is_lf line' = None /\ length line' <= max /\
      exists data', stream s data' ending /\ line ++ data = line' ++ data' /\ length data' < length data
  | inr (result, discarding) =>
      result = line_of max (line ++ data) ending /\
      ((forall error, result <> inr error) ->
       exists data', stream s data' ending /\ unread discarding data' = rest_of (line ++ data))
  end.

Lemma read_more_turns max line data s ending :
  position is_lf line = None -> length line <= max -> stream s data ending ->
  exists r s1, ends (read_more cfg max line) s r s1 /\ reading s s1 /\ turned max line data ending r s1.
Proof.
  intros El Hl Hs. destruct (decide (data = [])) as [->|Hdata].
  { destruct (fill_buf_ending _ _ Hs) as (s1 & Hf & Hr & Hs1).
    assert (Eof : line_of max (line ++ []) ending = match ending with
      | inr error => inr error | inl _ => inl (match line with [] => BEof | _ => BUnterminated end) end).
    { unfold line_of. by rewrite app_nil_r, El, (proj2 (Nat.ltb_ge _ _) Hl). }
    exists (inr (line_of max (line ++ []) ending, false)), s1. split; [|split; [done|split; [done|]]].
    - eapply ends_bind; [exact Hf|]. rewrite Eof. destruct ending as [more|error]; [|constructor].
      rewrite (stream_ending _ _ _ Hs more eq_refl). constructor.
    - intros Hne. exists []. split; [|by rewrite rest_of_app].
      apply Hs1. intros error ->. rewrite Eof in Hne. by destruct (Hne error). }
  destruct (fill_buf_more _ _ _ Hs Hdata) as (b & rest & s1 & Hf & Hr & Hs1 & Hb & Ebuf & ->).
  destruct b as [|x b0]; [done|]. set (b := x :: b0) in *.
  destruct (position is_lf b) as [n|] eqn:Ep.
  - pose proof (position_lt _ _ _ Ep) as Hlt.
    destruct (consume_reads s1 b rest ending (n + 1)) as (s2 & Hc & Hr2 & Hs2); [done..|lia|].
    eexists _, s2. split; [eapply ends_bind; [exact Hf|]; subst b; cbv beta iota; rewrite Ep;
      eapply ends_bind; [exact Hc|constructor]|].
    split; [by eapply reading_trans|]. split.
    + unfold line_of. rewrite (position_app_r _ _ _ El), (position_app_l _ _ _ _ Ep). simpl fmap.
      cbv beta iota. by rewrite take_app_add', take_app_le by lia.
    + intros _. exists (drop (n + 1) b ++ rest). split; [done|].
      by rewrite rest_of_app, (rest_of_position n).
  - destruct (consume_reads s1 b rest ending (length b)) as (s2 & Hc & Hr2 & Hs2); [done..|].
    rewrite drop_all in Hs2.
    eexists _, s2. split; [eapply ends_bind; [exact Hf|]; subst b; cbv beta iota; rewrite Ep;
      eapply ends_bind; [exact Hc|constructor]|].
    split; [by eapply reading_trans|]. fold b.
    assert (Epl : position is_lf (line ++ b) = None) by (rewrite position_app_r, Ep; done).
    destruct (_ <? _) eqn:Eover; ranges.
    + split.
      * unfold line_of. rewrite app_assoc, (position_app_r _ _ _ Epl), !length_app.
        destruct (position is_lf rest); cbn [fmap option_fmap option_map];
          (destruct (max <? _) eqn:Em; [done|]; ranges; rewrite ?length_app in Em; subst b; simpl in *; lia).
      * intros _. exists rest. split; [done|]. unfold unread. by rewrite app_assoc, rest_of_app.
    + split; [done|]. split; [rewrite length_app; lia|].
      exists rest. split; [done|]. split; [by rewrite app_assoc|].
      rewrite length_app. simpl. lia.
Qed.

Lemma lines_read max data : forall line s ending,
  position is_lf line = None -> length line <= max -> stream s data ending ->
  reads_to (Iter line (read_more cfg max) mret) s ending
           (line_of max (line ++ data) ending) (rest_of (line ++ data)).
Proof.
  induction data as [data IH] using (induction_ltof1 _ (@length byte)). unfold ltof in IH.
  intros line s ending El Hl Hs.
  destruct (read_more_turns max line data s ending El Hl Hs) as (r & s1 & Ht & Hr & Hturn).
  eapply reads_to_iter; [exact Ht|exact Hr|]. destruct r as [line'|[result discarding]]; simpl in Hturn.
  - destruct Hturn as (El' & Hl' & data' & Hs1 & -> & Hlt). by apply IH.
  - destruct Hturn as (<- & Hleft). exists discarding, s1.
    split; [constructor|]. split; [apply reading_refl|done].
Qed.

(** How the discarding of a line that overflowed ends. *)
Definition discarded (data : list byte) (ending : list byte + string)
    (ended : option (BoundedLine + string)) s : Prop :=
  match ended with
  | None => exists data', stream s data' ending /\ after_lf data = Some data'
  | Some result => after_lf data = None /\ result = line_of 0 [] ending /\
      ((forall error, result <> inr error) -> stream s [] ending)
  end.

Lemma discard_more_turns data s ending :
  stream s data ending ->
  exists r s1, ends (discard_more cfg) s r s1 /\ reading s s1 /\
    match r with
    | Some ended => discarded data ending ended s1
    | None => exists data', stream s1 data' ending /\ after_lf data = after_lf data' /\
                            length data' < length data
    end.
Proof.
  intros Hs. destruct (decide (data = [])) as [->|Hdata].
  { destruct (fill_buf_ending _ _ Hs) as (s1 & Hf & Hr & Hs1).
    exists (Some (Some (line_of 0 [] ending))), s1. split; [|split; [done|]].
    - eapply ends_bind; [exact Hf|]. destruct ending as [more|error]; [|constructor].
      rewrite (stream_ending _ _ _ Hs more eq_refl). constructor.
    - split; [done|]. split; [done|]. intros Hne. apply Hs1. intros error ->. by destruct (Hne error). }
  destruct (fill_buf_more _ _ _ Hs Hdata) as (b & rest & s1 & Hf & Hr & Hs1 & Hb & Ebuf & ->).
  destruct b as [|x b0]; [done|]. set (b := x :: b0) in *.
  destruct (position is_lf b) as [n|] eqn:Ep.
  - pose proof (position_lt _ _ _ Ep) as Hlt.
    destruct (consume_reads s1 b rest ending (n + 1)) as (s2 & Hc & Hr2 & Hs2); [done..|lia|].
    eexists _, s2. split; [eapply ends_bind; [exact Hf|]; subst b; cbv beta iota zeta; rewrite Ep;
      eapply ends_bind; [exact Hc|constructor]|].
    split; [by eapply reading_trans|]. exists (drop (n + 1) b ++ rest). split; [done|].
    rewrite after_lf_position, (position_app_l _ _ _ _ Ep). simpl. by rewrite <- drop_app_le by lia.
  - destruct (consume_reads s1 b rest ending (length b)) as (s2 & Hc & Hr2 & Hs2); [done..|].
    rewrite drop_all in Hs2.
    eexists _, s2. split; [eapply ends_bind; [exact Hf|]; subst b; cbv beta iota zeta; rewrite Ep;
      eapply ends_bind; [exact Hc|constructor]|].
    split; [by eapply reading_trans|]. exists rest. split; [done|]. split; [by apply after_lf_app_None|].
    rewrite length_app. subst b. simpl. lia.
Qed.

Lemma discards data : forall s ending,
  stream s data ending ->
  exists ended s', ends (discard_line cfg) s ended s' /\ reading s s' /\ discarded data ending ended s'.
Proof.
  induction data as [data IH] using (induction_ltof1 _ (@length byte)). unfold ltof in IH.
  intros s ending Hs. destruct (discard_more_turns _ _ _ Hs) as (r & s1 & Ht & Hr & Hturn).
  destruct r as [ended|].
  - exists ended, s1. split; [|done].
    eapply EndsIter; [eapply ends_bind; [exact Ht|constructor]|constructor].
  - destruct Hturn as (data' & Hs1 & Ea & Hlt).
    destruct (IH data' Hlt s1 ending Hs1) as (ended & s2 & Hd & Hr2 & Hended).
    exists ended, s2. split; [|split; [by eapply reading_trans|]].
    + eapply EndsIter; [eapply ends_bind; [exact Ht|constructor]|exact Hd].
    + unfold discarded in *. by rewrite Ea.
Qed.

(** A read, run alone, comes to an end; however the stream's bytes are cut as they come it
    gives the first line of what is not read yet (the rest of a line that overflowed is
    skipped): whole, without its line ending, where it is within the limit, and as one over
    it where it is not; where there is none, how the stream ends. It reads no other line. *)
Theorem read_is_of_any_cut max data ending discarding s :
  stream s data ending ->
  let left := unread discarding data in
  exists discarding' s',
    ends (read_bounded_line cfg max discarding) s (line_of max left ending, discarding') s' /\
    reading s s' /\
    ((forall error, line_of max left ending <> inr error) ->
     exists data', stream s' data' ending /\ unread discarding' data' = rest_of left).
Proof.
  intros Hs left. change (reads_to (read_bounded_line cfg max discarding) s ending
    (line_of max left ending) (rest_of left)).
  destruct discarding.
  - destruct (discards _ _ _ Hs) as (ended & s1 & Hd & Hr & Hended).
    eapply reads_to_step; [exact Hd|exact Hr|]. destruct ended as [result|]; simpl in Hended.
    + destruct Hended as (Ea & -> & Hs1). unfold left, unread.
      assert (rest_of data = []) as -> by (unfold rest_of; by rewrite Ea).
      exact (reads_to_ret s1 (line_of 0 [] ending) true [] ending Hs1).
    + destruct Hended as (data' & Hs1 & Ea). unfold left, unread.
      assert (rest_of data = data') as -> by (unfold rest_of; by rewrite Ea).
      apply (lines_read max data' []); [done|simpl; lia|done].
  - eapply reads_to_step; [constructor|apply reading_refl|].
    apply (lines_read max data []); [done|simpl; lia|done].
Qed.
End Reads.

(** A stream whose first line comes in two chunks, with a second line and a part of a third. *)
Definition cut_stream : st (H := text_json) :=
  set_world (fun w => World (now w)
    [inl ["a"%byte]; inl ["b"%byte; lf; "c"%byte]; inl [lf; "d"%byte]; inl []]
    (buffer w) (writes w) (written w) (reports w))
  (shared (built (Settings Host 2000 DEFAULT_REQUEST_DEADLINE true true ∅ ∅) [])).

Lemma read_is_of_any_cut_witness :
  let cfg := Settings Host 2000 DEFAULT_REQUEST_DEADLINE true true ∅ ∅ in
  exists discarding s', ends (read_bounded_line cfg 2000 false) cut_stream
    (inl (BComplete ["a"%byte; "b"%byte]), discarding) s'.
Proof.
  intros cfg.
  destruct (read_is_of_any_cut cfg 2000 ["a"%byte; "b"%byte; lf; "c"%byte; lf; "d"%byte] (inl [])
    false cut_stream) as (discarding & s' & Hends & _).
  - split; [reflexivity|congruence|].
    exists [["a"%byte]; ["b"%byte; lf; "c"%byte]; [lf; "d"%byte]]. split; [reflexivity|].
    split; [repeat constructor; done|reflexivity].
  - exists discarding, s'. exact Hends.
Defined.
