(* ===== verification/JsValue.v ===== *)
(** * JSON values as the program reads them: serde_json's, and [cf-base/src/js.rs], [json.rs]

    A value is serde_json's ([Map] keeps the order its keys were written in), with what the
    program asks of one: [get], [as_str], an insertion, [truthy], and [js_order], the keys as
    JavaScript enumerates them. A number is a parameter, with the two questions asked of it,
    both of the double it reads as. *)
From S2P Require Import Prelude.
#[local] Open Scope Z_scope.

Class Numbers := {
  num : Type;
  same_number : num -> num -> bool;
  is_zero : num -> bool
}.

(** Numbers that are whole, an instance the examples use. *)
Definition integers : Numbers := {| num := Z; same_number := Z.eqb; is_zero := Z.eqb 0 |}.

Inductive Value `{Numbers} : Type :=
| Null
| Bool (b : bool)
| Number (n : num)
| Str (s : string)
| Array (items : list Value)
| Object (fields : list (string * Value)).

#[global] Arguments Null {_}.
#[global] Arguments Bool {_}.
#[global] Arguments Number {_}.
#[global] Arguments Str {_}.
#[global] Arguments Array {_}.
#[global] Arguments Object {_}.

(** ** Maps *)

Section Maps.
Context {A : Type}.
Implicit Types fields : list (string * A).

Fixpoint map_get (key : string) fields : option A :=
  match fields with
  | [] => None
  | (k, x) :: rest => if decide (k = key) then Some x else map_get key rest
  end.

(** A key that is there keeps its place. *)
Fixpoint map_insert (key : string) (x : A) fields : list (string * A) :=
  match fields with
  | [] => [(key, x)]
  | (k, y) :: rest => if decide (k = key) then (k, x) :: rest else (k, y) :: map_insert key x rest
  end.

Definition contains_key (key : string) fields : bool := bool_decide (is_Some (map_get key fields)).

(** What a map promises: no key twice. *)
Definition keys_once fields : Prop := NoDup (fst <$> fields).

Lemma map_get_insert key x fields : map_get key (map_insert key x fields) = Some x.
Proof.
  induction fields as [|[k y] rest IH]; simpl; [by rewrite decide_True|].
  case_decide as E; simpl; [by rewrite decide_True|by rewrite decide_False].
Qed.

Lemma map_get_insert_ne key key' x fields :
  key <> key' -> map_get key' (map_insert key x fields) = map_get key' fields.
Proof.
  intros Hne. induction fields as [|[k y] rest IH]; simpl; [by rewrite decide_False|].
  destruct (decide (k = key)) as [->|E]; simpl; [by rewrite !decide_False by done|].
  by rewrite IH.
Qed.

Lemma map_insert_keys key x fields k :
  k ∈ (fst <$> map_insert key x fields) <-> k = key \/ k ∈ (fst <$> fields).
Proof.
  induction fields as [|[k' y] rest IH]; simpl; [set_solver|].
  case_decide as E; simpl; set_solver.
Qed.

Lemma map_insert_once key x fields : keys_once fields -> keys_once (map_insert key x fields).
Proof.
  unfold keys_once. induction fields as [|[k y] rest IH]; simpl; [intros _; apply NoDup_singleton|].
  intros [Hk Hr]%NoDup_cons. case_decide as E; simpl; apply NoDup_cons; [done|].
  split; [rewrite map_insert_keys; naive_solver|auto].
Qed.

Lemma map_get_Some key x fields :
  keys_once fields -> map_get key fields = Some x <-> (key, x) ∈ fields.
Proof.
  unfold keys_once. induction fields as [|[k y] rest IH]; simpl; [set_solver|].
  intros [Hk Hr]%NoDup_cons. rewrite elem_of_cons. case_decide as E; [subst k|rewrite IH by done].
  - split; [intros [= ->]; by left|intros [[= ->]|Hin]; [done|]].
    destruct Hk. apply list_elem_of_fmap. by exists (key, x).
  - naive_solver.
Qed.

(** The order of the keys is nothing to who looks one up. *)
Lemma map_get_permutation key fields fields' :
  keys_once fields -> fields ≡ₚ fields' -> map_get key fields' = map_get key fields.
Proof.
  intros Hf Hp. assert (Hf' : keys_once fields') by (unfold keys_once in *; by rewrite <- Hp).
  apply option_eq. intros x. by rewrite !map_get_Some, Hp.
Qed.
End Maps.

Lemma map_get_fmap {A B} (f : A -> B) key (fields : list (string * A)) :
  map_get key ((fun kv => (kv.1, f kv.2)) <$> fields) = f <$> map_get key fields.
Proof.
  induction fields as [|[k x] rest IH]; [done|]. simpl. by case_decide.
Qed.

(** ** What is asked of a value *)

Section Values.
Context `{Numbers}.

Definition as_str (v : Value) : option string := match v with Str s => Some s | _ => None end.
Definition as_object (v : Value) : option (list (string * Value)) :=
  match v with Object fields => Some fields | _ => None end.
Definition as_array (v : Value) : option (list Value) :=
  match v with Array items => Some items | _ => None end.

Definition get (key : string) (v : Value) : option Value := as_object v ≫= map_get key.

(** [and_then(|value| value.get(key))] *)
Definition field (key : string) (v : option Value) : option Value := v ≫= get key.

(** [js::truthy] *)
Definition truthy (v : option Value) : bool :=
  match v with
  | None | Some Null => false
  | Some (Bool flag) => flag
  | Some (Number n) => negb (is_zero n)
  | Some (Str text) => negb (bool_decide (text = ""%string))
  | Some _ => true
  end.

(** ** The order JavaScript enumerates keys in *)

Definition is_digit (b : byte) : bool := within 0x30 0x39 (u8 b).

Definition digits_value (digits : list byte) : Z :=
  fold_left (fun n b => n * 10 + (u8 b - 0x30)) digits 0.

(** The array index a key is: digits with no leading zero, below 2^32 - 1. *)
Definition array_index (key : string) : option Z :=
  let bytes := String.list_byte_of_string key in
  if negb (bool_decide (bytes = [])) && forallb is_digit bytes &&
     (bool_decide (key = "0"%string) || negb (bool_decide (head bytes = Some "0"%byte)))
  then let index := digits_value bytes in if index <? 2 ^ 32 - 1 then Some index else None
  else None.

Definition is_index (key : string) : bool :=
  match array_index key with Some _ => true | None => false end.

(** [sort_by_key] of the array indices, which keeps equal ones in their order. *)
Fixpoint index_insert (field : string * Value) (sorted : list (string * Value)) :
    list (string * Value) :=
  match sorted with
  | [] => [field]
  | other :: rest =>
      if default 0 (array_index field.1) <=? default 0 (array_index other.1) then field :: sorted
      else other :: index_insert field rest
  end.

Definition index_sort (fields : list (string * Value)) : list (string * Value) :=
  foldr index_insert [] fields.

Definition in_enumeration_order (fields : list (string * Value)) : list (string * Value) :=
  if existsb (fun field => is_index field.1) fields then
    index_sort (filter (fun field => is_index field.1 = true) fields) ++
    filter (fun field => is_index field.1 <> true) fields
  else fields.

(** The values first and then the keys, which is the same: the keys' order is theirs alone. *)
Fixpoint js_order (v : Value) : Value :=
  match v with
  | Array items => Array (map js_order items)
  | Object fields =>
      Object (in_enumeration_order (map (fun field => (field.1, js_order field.2)) fields))
  | _ => v
  end.

Lemma index_insert_permutation field sorted : index_insert field sorted ≡ₚ field :: sorted.
Proof.
  induction sorted as [|other rest IH]; [done|]. simpl. destruct (_ <=? _); [done|].
  rewrite IH. apply perm_swap.
Qed.

Lemma index_sort_permutation fields : index_sort fields ≡ₚ fields.
Proof.
  induction fields as [|field rest IH]; [done|]. simpl. by rewrite index_insert_permutation, IH.
Qed.

Lemma in_enumeration_order_permutation fields : in_enumeration_order fields ≡ₚ fields.
Proof.
  unfold in_enumeration_order. destruct (existsb _ _); [|done].
  rewrite index_sort_permutation. induction fields as [|field rest IH]; [done|].
  destruct (decide (is_index field.1 = true)) as [E|E].
  - rewrite filter_cons_True, filter_cons_False by naive_solver. simpl. by rewrite IH.
  - rewrite filter_cons_False, filter_cons_True by naive_solver.
    by rewrite <- Permutation_middle, IH.
Qed.

Lemma map_get_js_order key fields :
  keys_once fields ->
  map_get key (in_enumeration_order (map (fun field => (field.1, js_order field.2)) fields)) =
  js_order <$> map_get key fields.
Proof.
  intros Hf. rewrite <- (map_get_fmap js_order). apply map_get_permutation.
  - unfold keys_once in *. rewrite <- list_fmap_compose. done.
  - symmetry. apply in_enumeration_order_permutation.
Qed.

(** What is under a key is what was, in JavaScript's order itself. *)
Lemma get_js_order key v :
  (forall fields, v = Object fields -> keys_once fields) ->
  get key (js_order v) = js_order <$> get key v.
Proof.
  intros Hv. unfold get. destruct v; try done. cbn [js_order as_object mbind option_bind].
  apply map_get_js_order. by apply Hv.
Qed.

(** Every map in a value has each key once, as serde_json's do. *)
Fixpoint once (v : Value) : Prop :=
  match v with
  | Array items => foldr (fun x P => once x /\ P) True items
  | Object fields => keys_once fields /\ foldr (fun field P => once field.2 /\ P) True fields
  | _ => True
  end.

Lemma once_get key v x : once v -> get key v = Some x -> once x.
Proof.
  destruct v as [| | | | |fields]; try done. intros [_ Hf]. unfold get. cbn [as_object mbind option_bind].
  induction fields as [|[k y] rest IH]; [done|]. destruct Hf as [Hy Hf]. cbn [map_get].
  destruct (decide (k = key)); [by intros [= <-]|auto].
Qed.

Lemma once_keys v fields : once v -> as_object v = Some fields -> keys_once fields.
Proof. destruct v; try done. intros [Hk _] [= <-]. done. Qed.

(** The fields of the object under a key, where there is one. *)
Definition object_at (key : string) (v : Value) : list (string * Value) :=
  default [] (get key v ≫= as_object).

Lemma once_object_at key v : once v -> keys_once (object_at key v).
Proof.
  intros Hv. unfold object_at. destruct (get key v) as [x|] eqn:E; [|constructor]. simpl.
  pose proof (once_get _ _ _ Hv E) as Hx. destruct (as_object x) as [fields|] eqn:Eo; [|constructor].
  by apply (once_keys x).
Qed.

Lemma js_order_object v fields :
  as_object v = Some fields ->
  as_object (js_order v) =
    Some (in_enumeration_order (map (fun field => (field.1, js_order field.2)) fields)).
Proof. destruct v; try done. by intros [= ->]. Qed.

Lemma js_order_str v : as_str (js_order v) = as_str v.
Proof. by destruct v. Qed.
End Values.
