(* ===== verification/Selection.v ===== *)
(** * Which thread a Codex window shows: [cf-codex-session/src/broker/selection.rs]

    The broker stands between a window's Codex TUI, whose connections it proxies, Codex's
    server and the daemon. What passes through it is learned here: the requests that may
    switch the window's thread, remembered by their ids until Codex answers, and the threads
    that are idle. What happens is a sequence of [event]s, each a call of a method as the
    broker's one thread makes it; a connection ([ClientId]) has its own [Requests]. A
    revision counts the window's changes of thread: a [u64], whose end no count comes near. *)
From S2P Require Import Prelude JsValue.
#[local] Open Scope nat_scope.

(** [cf_proto::codex::Refusal] *)
Inductive Refusal :=
| Unauthorized | InvalidRecord | Expired | NativeSessionUnavailable | NativeSessionChanged.

(** What kind of thread a [thread/start] begins. *)
Inductive Start := Main | Side | Unclassified (why : string).

(** What a request that was not answered yet may change. *)
Inductive Pending :=
| Switch (revision : nat) (prior : option string) (prior_empty main_resume : bool)
| PermissionChange.

Record Admission := MkAdmission { thread : string; a_revision : nat; a_idle : bool }.

Record selection := Selection {
  selected : option string;
  empty : bool;
  owner : option nat;
  switching : bool;
  revision : nat;
  idle : gmap string bool;
  fresh_bypass : bool;
  role : option string;
  shell_env : list (string * string);
  told_unclassified : bool;
  s_closed : bool;
  s_ready : bool
}.

Section Selection.
Context `{Numbers}.
Implicit Types s : selection.

(** ** The requests of a connection *)

Definition RequestId : Type := option Value.

Definition same_id (one other : RequestId) : bool :=
  match one, other with
  | Some (Number a), Some (Number b) => same_number a b
  | Some (Object _ | Array _), _ | _, Some (Object _ | Array _) => false
  | None, None => true
  | Some Null, Some Null => true
  | Some (Bool a), Some (Bool b) => Bool.eqb a b
  | Some (Str a), Some (Str b) => bool_decide (a = b)
  | _, _ => false
  end.

Definition Requests : Type := list (RequestId * Pending).

Fixpoint remember (id : RequestId) (pending : Pending) (requests : Requests) : Requests :=
  match requests with
  | [] => [(id, pending)]
  | (known, old) :: rest =>
      if same_id known id then (known, pending) :: rest
      else (known, old) :: remember id pending rest
  end.

Fixpoint take (id : RequestId) (requests : Requests) : option Pending * Requests :=
  match requests with
  | [] => (None, [])
  | (known, pending) :: rest =>
      if same_id known id then (Some pending, rest)
      else let '(found, rest) := take id rest in (found, (known, pending) :: rest)
  end.

(** ** Parts of the state *)

Definition show (x : option string) (e : bool) s : selection :=
  Selection x e (owner s) (switching s) (revision s) (idle s) (fresh_bypass s) (role s)
            (shell_env s) (told_unclassified s) (s_closed s) (s_ready s).
Definition set_empty (e : bool) s : selection := show (selected s) e s.
Definition set_idle (t : string) (i : bool) s : selection :=
  Selection (selected s) (empty s) (owner s) (switching s) (revision s) (<[t := i]> (idle s))
            (fresh_bypass s) (role s) (shell_env s) (told_unclassified s) (s_closed s) (s_ready s).
Definition set_switching (x : bool) s : selection :=
  Selection (selected s) (empty s) (owner s) x (revision s) (idle s) (fresh_bypass s) (role s)
            (shell_env s) (told_unclassified s) (s_closed s) (s_ready s).
Definition bypassed s : selection :=
  Selection (selected s) (empty s) (owner s) (switching s) (revision s) (idle s) false (role s)
            (shell_env s) (told_unclassified s) (s_closed s) (s_ready s).
(** Another connection's window, or none's: a change of its thread. *)
Definition own (shown : option string) (x : option nat) (w : bool) s : selection :=
  Selection shown false x w (S (revision s)) (idle s) (fresh_bypass s) (role s)
            (shell_env s) (told_unclassified s) (s_closed s) (s_ready s).
Definition set_ready (x : bool) s : selection :=
  Selection (selected s) (empty s) (owner s) (switching s) (revision s) (idle s)
            (fresh_bypass s) (role s) (shell_env s) (told_unclassified s) (s_closed s) x.

(** ** The methods *)

Definition new (bypass : bool) (r : option string) (env : list (string * string)) : selection :=
  Selection None false None false 0 ∅ bypass r env false false false.

Definition ready s : selection := set_ready true s.
Definition lose_control s : selection := set_ready false s.
Definition close s : selection :=
  Selection None (empty s) (owner s) (switching s) (revision s) (idle s) (fresh_bypass s)
            (role s) (shell_env s) (told_unclassified s) true false.

Definition session_id s : option string := if switching s then None else selected s.
Definition is_empty s : bool := negb (switching s) && empty s.
Definition thread_idle s : option bool := session_id s ≫= fun t => idle s !! t.

(** A thread's [status.type] is [idle]. *)
Definition status_is_idle (t : option Value) : bool :=
  bool_decide ((field "type" (field "status" t) ≫= as_str) = Some "idle"%string).

Definition learn (t : string) (read : option Value) s : selection :=
  if bool_decide (session_id s = Some t) && bool_decide (is_Some (field "status" read))
  then set_idle t (status_is_idle read) s else s.

Definition available (control_open : bool) s : bool :=
  negb (s_closed s) && s_ready s && control_open && negb (switching s) &&
  bool_decide (is_Some (selected s)).

Definition admit_delivery (session : string) (control_open : bool) s : selection * (Admission + Refusal) :=
  if negb (available control_open s) then (s, inr NativeSessionUnavailable)
  else
    match selected s with
    | Some t =>
        if decide (t = session) then
          let s := set_empty false s in
          let i := bool_decide (idle s !! t = Some true) in
          let s := if i then set_idle t false s else s in
          (s, inl (MkAdmission t (revision s) i))
        else (s, inr NativeSessionChanged)
    | None => (s, inr NativeSessionChanged)
    end.

Definition is_current (a : Admission) s : bool :=
  (revision s =? a_revision a) && bool_decide (selected s = Some (thread a)).

(** *** What a TUI says *)

Definition start_kind (params : list (string * Value)) : Start :=
  let ephemeral := match map_get "ephemeral" params with
                   | None | Some Null => Some false
                   | Some (Bool e) => Some e
                   | Some _ => None
                   end in
  match ephemeral, map_get "threadSource" params with
  | Some true, _ => Side
  | None, _ => Unclassified "its `ephemeral` is neither true nor false"
  | Some false, Some (Str source) => if decide (source = "user"%string) then Main else Side
  | Some false, _ => Unclassified "it names no `threadSource`"
  end.

Definition is_main (k : Start) : bool := match k with Main => true | _ => false end.

Definition rewritten_start (message : Value) (bypass : bool) (r : option string)
    (env : list (string * string)) : Value :=
  let params := object_at "params" message in
  let params :=
    if bypass then
      map_insert "permissions" Null
        (map_insert "sandbox" (Str "danger-full-access")
           (map_insert "approvalPolicy" (Str "never") params))
    else params in
  let params := match r with
                | Some text => map_insert "developerInstructions" (Str text) params
                | None => params
                end in
  let params :=
    match env with
    | [] => params
    | _ =>
        let config := default [] (map_get "config" params ≫= as_object) in
        let config := fold_left (fun config nv =>
          map_insert ("shell_environment_policy.set." +:+ nv.1) (Str nv.2) config) env config in
        map_insert "config" (Object config) params
    end in
  js_order (match message with
            | Object fields => Object (map_insert "params" (Object params) fields)
            | _ => message
            end).

(** What a message asks, of what its method and its params say. *)
Definition method_of (message : Value) : option string := get "method" message ≫= as_str.
Definition params_of (message : Value) : list (string * Value) := object_at "params" message.

Definition is_method (message : Value) (m : string) : bool := bool_decide (method_of message = Some m).

Definition main_start (message : Value) : bool :=
  is_method message "thread/start" && is_main (start_kind (params_of message)).
Definition main_resume_of (message : Value) : bool :=
  is_method message "thread/resume" && contains_key "runtimeWorkspaceRoots" (params_of message).
Definition main_fork (message : Value) : bool :=
  is_method message "thread/fork" &&
  match map_get "ephemeral" (params_of message) with Some (Bool true) => false | _ => true end &&
  bool_decide ((map_get "threadSource" (params_of message) ≫= as_str) = Some "user"%string) &&
  contains_key "runtimeWorkspaceRoots" (params_of message).

(** The request may switch the window's thread. *)
Definition switches (message : Value) : bool :=
  main_start message || main_resume_of message || main_fork message.

Definition begin_switch (client : nat) (requests : Requests) (message : Value) s :
    selection * Requests :=
  if switches message then
    let prior := if switching s then None else selected s in
    let prior_empty := negb (switching s) && empty s in
    let s := own (if switching s then selected s else None) (Some client) true s in
    (s, remember (get "id" message)
                 (Switch (revision s) prior prior_empty (main_resume_of message)) requests)
  else (s, requests).

Definition names_selected (message : Value) s : bool :=
  match selected s with
  | Some t => bool_decide ((map_get "threadId" (params_of message) ≫= as_str) = Some t)
  | None => false
  end.

(** The request is given something: the first start's permissions, a role, the variables. *)
Definition given (message : Value) s : option Value :=
  let bypass := main_start message && fresh_bypass s in
  let r := if main_start message then role s else None in
  let env := (is_method message "thread/start" || is_method message "thread/resume" ||
              is_method message "thread/fork") && negb (bool_decide (shell_env s = [])) in
  if bypass || bool_decide (is_Some r) || env
  then Some (rewritten_start message bypass r (if env then shell_env s else []))
  else None.

Definition tui_said (client : nat) (requests : Requests) (message : Value) s :
    selection * Requests * option Value :=
  let '(s, requests) := begin_switch client requests message s in
  let rewritten := given message s in
  let requests :=
    if is_method message "thread/settings/update" && names_selected message s &&
       existsb (fun key => contains_key key (params_of message))
               ["approvalPolicy"; "sandbox"; "permissions"]%string
    then remember (get "id" message) PermissionChange requests else requests in
  let s :=
    if (is_method message "turn/start" || is_method message "thread/queue/add") &&
       names_selected message s
    then let s := set_empty false s in
         match selected s with Some t => set_idle t false s | None => s end
    else s in
  (s, requests, rewritten).

(** *** What Codex says *)

(** The thread an answer to a switch names. *)
Definition is_thread_id (text : string) : bool :=
  let bytes := String.list_byte_of_string text in
  let hex b := is_digit b || within 0x41 0x46 (u8 b) || within 0x61 0x66 (u8 b) in
  (length bytes =? 36) &&
  forallb (fun at_byte : nat * byte =>
    let '(at_, b) := at_byte in
    match at_ with
    | 8 | 13 | 18 | 23 => Byte.eqb b "-"%byte
    | 14 => within 0x31 0x38 (u8 b)
    | 19 => within 0x38 0x39 (u8 b) || within 0x41 0x42 (u8 b) || within 0x61 0x62 (u8 b)
    | _ => hex b
    end) (imap pair bytes).

Definition switched (message : Value) (failed : bool) (prior : option string)
    (prior_empty main_resume : bool) s : selection :=
  let s :=
    if failed then show prior prior_empty s
    else
      let result := get "result" message in
      let t := field "thread" result in
      let candidate :=
        match field "id" t ≫= as_str with
        | Some id => if is_thread_id id && negb (truthy (field "readOnly" result))
                     then Some id else None
        | None => None
        end in
      let i := status_is_idle t in
      let s := show candidate
                 (bool_decide (is_Some candidate) &&
                  match field "turns" t ≫= as_array with Some [] => true | _ => false end && i) s in
      match candidate with
      | Some t => set_idle t i (if main_resume then bypassed s else s)
      | None => s
      end in
  set_switching false s.

Definition observe (message : Value) s : selection :=
  let params := get "params" message in
  match field "threadId" params ≫= as_str with
  | None => s
  | Some t =>
      if is_method message "thread/status/changed" then
        set_idle t (status_is_idle params) s
      else if is_method message "turn/started" then
        let s := set_idle t false s in
        if decide (selected s = Some t) then set_empty false s else s
      else if is_method message "turn/completed" then set_idle t true s
      else s
  end.

(** The request a message answers: only one with no method answers any. *)
Definition answered (message : Value) (requests : Requests) : option Pending * Requests :=
  match get "method" message with
  | None => take (get "id" message) requests
  | Some _ => (None, requests)
  end.

Definition codex_said (client : nat) (requests : Requests) (message : Value) s :
    selection * Requests :=
  let '(pending, requests) := answered message requests in
  let failed := truthy (get "error" message) in
  let s :=
    match pending with
    | Some PermissionChange => if failed then s else bypassed s
    | Some (Switch r prior prior_empty main_resume) =>
        if bool_decide (owner s = Some client) && (r =? revision s)
        then switched message failed prior prior_empty main_resume s else s
    | None => s
    end in
  (observe message s, requests).

Definition retire (client : nat) s : selection :=
  if decide (owner s = Some client) then own None None false s else s.

Definition unclassified (message : Value) s : selection * option string :=
  if told_unclassified s || negb (bool_decide (is_Some (role s))) ||
     negb (is_method message "thread/start")
  then (s, None)
  else match start_kind (params_of message) with
       | Unclassified why =>
           (Selection (selected s) (empty s) (owner s) (switching s) (revision s) (idle s)
                      (fresh_bypass s) (role s) (shell_env s) true (s_closed s) (s_ready s),
            Some why)
       | _ => (s, None)
       end.

(** ** What a start is given *)

Definition config_of (params : list (string * Value)) : list (string * Value) :=
  default [] (map_get "config" params ≫= as_object).

Definition variable (name : string) : string := "shell_environment_policy.set." +:+ name.

Definition with_variables (env : list (string * string)) (config : list (string * Value)) :
    list (string * Value) :=
  fold_left (fun config nv => map_insert (variable nv.1) (Str nv.2) config) env config.

Lemma with_variables_once env config : keys_once config -> keys_once (with_variables env config).
Proof.
  revert config. induction env as [|nv env IH]; intros config Hc; [done|]. by apply IH, map_insert_once.
Qed.

Lemma with_variables_other env config key :
  (forall nv, nv ∈ env -> variable nv.1 <> key) ->
  map_get key (with_variables env config) = map_get key config.
Proof.
  revert config. induction env as [|nv env IH]; intros config Hne; [done|].
  cbn [with_variables fold_left]. unfold with_variables in IH. rewrite IH by (intros; apply Hne; by right).
  apply map_get_insert_ne, Hne. by left.
Qed.

Lemma variable_inj name name' : variable name = variable name' -> name = name'.
Proof. intros E. by apply (inj (String.app "shell_environment_policy.set.")) in E. Qed.

Lemma with_variables_set env config name value :
  NoDup (fst <$> env) -> (name, value) ∈ env ->
  map_get (variable name) (with_variables env config) = Some (Str value).
Proof.
  revert config. induction env as [|[n w] env IH]; intros config Hnd Hin; [by apply not_elem_of_nil in Hin|].
  rewrite fmap_cons in Hnd. apply NoDup_cons in Hnd as [Hn Hnd].
  cbn [with_variables fold_left fst snd]. apply elem_of_cons in Hin as [[= -> ->]|Hin].
  - fold (with_variables env (map_insert (variable n) (Str w) config)).
    rewrite with_variables_other, map_get_insert; [done|]. intros nv Hnv E%variable_inj.
    destruct Hn. apply list_elem_of_fmap. exists nv. by subst n.
  - by apply IH.
Qed.

(** The params of a start, resume or fork as they go out, but for their keys' order. *)
Definition given_params (bypass : bool) (r : option string) (env : list (string * string))
    (params : list (string * Value)) : list (string * Value) :=
  let params := if bypass then
      map_insert "permissions" Null
        (map_insert "sandbox" (Str "danger-full-access")
           (map_insert "approvalPolicy" (Str "never") params)) else params in
  let params := match r with
                | Some text => map_insert "developerInstructions" (Str text) params
                | None => params
                end in
  match env with
  | [] => params
  | _ => map_insert "config" (Object (with_variables env (config_of params))) params
  end.

Lemma rewritten_start_params message bypass r env :
  rewritten_start message bypass r env =
  js_order (match message with
            | Object fields =>
                Object (map_insert "params" (Object (given_params bypass r env (params_of message))) fields)
            | _ => message
            end).
Proof. unfold rewritten_start, given_params, params_of. by destruct env. Qed.

Lemma given_params_once bypass r env params :
  keys_once params -> keys_once (given_params bypass r env params).
Proof.
  intros Hp. unfold given_params.
  destruct bypass, r, env; repeat apply map_insert_once; done.
Qed.

(** What was under a key stays, where nothing is given under it. *)
Lemma given_params_other bypass r env params key :
  (bypass = true -> key <> "approvalPolicy" /\ key <> "sandbox" /\ key <> "permissions")%string ->
  (is_Some r -> key <> "developerInstructions"%string) -> (env <> [] -> key <> "config"%string) ->
  map_get key (given_params bypass r env params) = map_get key params.
Proof.
  intros Hb Hr He. unfold given_params.
  assert (H1 : map_get key (if bypass then
      map_insert "permissions" Null
        (map_insert "sandbox" (Str "danger-full-access")
           (map_insert "approvalPolicy" (Str "never") params)) else params) = map_get key params).
  { destruct bypass; [|done]. destruct Hb as (? & ? & ?); [done|].
    by rewrite !map_get_insert_ne by congruence. }
  rewrite <- H1. destruct r as [text|], env as [|nv env];
    repeat (rewrite map_get_insert_ne by first [exact (not_eq_sym (Hr ltac:(eauto)))|exact (not_eq_sym (He ltac:(done)))]); done.
Qed.

Lemma given_params_role bypass text env params :
  map_get "developerInstructions" (given_params bypass (Some text) env params) = Some (Str text).
Proof.
  unfold given_params. destruct env; [by rewrite map_get_insert|].
  rewrite map_get_insert_ne by done. by rewrite map_get_insert.
Qed.

Lemma given_params_config bypass r env params :
  env <> [] -> map_get "config" (given_params bypass r env params) =
    Some (Object (with_variables env (config_of params))).
Proof.
  intros He. unfold given_params. destruct env; [done|]. rewrite map_get_insert. do 3 f_equal.
  unfold config_of. destruct r, bypass; by rewrite ?map_get_insert_ne by done.
Qed.

Lemma given_params_bypass r env params :
  let out := given_params true r env params in
  map_get "approvalPolicy" out = Some (Str "never") /\
  map_get "sandbox" out = Some (Str "danger-full-access") /\ map_get "permissions" out = Some Null.
Proof.
  unfold given_params. destruct r, env; split_and!;
    repeat (rewrite map_get_insert || rewrite map_get_insert_ne by done); done.
Qed.

(** What goes out, key by key. *)
Lemma rewritten_start_other fields bypass r env key :
  keys_once fields -> key <> "params"%string ->
  get key (rewritten_start (Object fields) bypass r env) = js_order <$> get key (Object fields).
Proof.
  intros Hf Hk. rewrite rewritten_start_params, get_js_order.
  - unfold get. cbn [as_object mbind option_bind]. by rewrite map_get_insert_ne by congruence.
  - intros ? [= <-]. by apply map_insert_once.
Qed.

Lemma rewritten_start_param fields bypass r env key :
  once (Object fields) ->
  map_get key (params_of (rewritten_start (Object fields) bypass r env)) =
  js_order <$> map_get key (given_params bypass r env (params_of (Object fields))).
Proof.
  intros Hf. pose proof (once_object_at "params" _ Hf) as Hp. destruct Hf as [Hf _].
  unfold params_of at 1, object_at at 1. rewrite rewritten_start_params, get_js_order.
  - unfold get. cbn [as_object mbind option_bind]. rewrite map_get_insert.
    cbn [fmap option_fmap option_map js_order as_object mbind option_bind default].
    by apply map_get_js_order, given_params_once.
  - intros ? [= <-]. by apply map_insert_once.
Qed.

Lemma params_once fields : once (Object fields) -> keys_once (config_of (params_of (Object fields))).
Proof.
  intros Hf. unfold config_of, params_of, object_at.
  destruct (get "params" (Object fields)) as [v|] eqn:E; [|constructor].
  apply once_get in E; [|done]. destruct v as [| | | | |params]; try constructor.
  cbn [mbind option_bind as_object default]. apply (once_object_at "config" (Object params)), E.
Qed.

(** Nothing that a start is given changes as the window begins its switch. *)
Lemma tui_said_gives client requests message s :
  (tui_said client requests message s).2 = given message s.
Proof. unfold tui_said, begin_switch, given. destruct (switches message); [|done]. done. Qed.

Lemma given_params_config_of bypass r env params :
  config_of (given_params bypass r env params) = with_variables env (config_of params).
Proof.
  destruct env as [|nv env].
  - cbn [with_variables fold_left]. unfold config_of. rewrite given_params_other; [done..|]. done.
  - unfold config_of at 1. by rewrite given_params_config.
Qed.

Lemma rewritten_start_config fields bypass r env key :
  once (Object fields) ->
  map_get key (config_of (params_of (rewritten_start (Object fields) bypass r env))) =
  js_order <$> map_get key (with_variables env (config_of (params_of (Object fields)))).
Proof.
  intros Hf. unfold config_of at 1. rewrite rewritten_start_param by done.
  pose proof (with_variables_once env _ (params_once _ Hf)) as Hc.
  rewrite <- (given_params_config_of bypass r) in *. unfold config_of in *.
  destruct (map_get "config" (given_params _ _ _ _)) as [[| | | | |config]|]; try done.
  by apply map_get_js_order.
Qed.

(** *** What goes out *)

(** The TUI begins a thread, goes on with one or forks one. *)
Definition begins_thread (message : Value) : bool :=
  is_method message "thread/start" || is_method message "thread/resume" ||
  is_method message "thread/fork".

(** The first main start of a window that is to open in full-permission mode. *)
Definition opens_bypassed (message : Value) s : bool := main_start message && fresh_bypass s.

(** The role that a message is given. *)
Definition role_for (message : Value) s : option string := if main_start message then role s else None.

Definition bypass_keys : list string := ["approvalPolicy"; "sandbox"; "permissions"]%string.

(** [out] goes to Codex for [message]: what is given it is there, and the rest as it came. *)
Record goes_for s (message out : Value) : Prop := {
  keeps_fields key : key <> "params"%string -> get key out = js_order <$> get key message;
  keeps_params key :
    key ∉ ("developerInstructions" :: "config" :: bypass_keys)%string ->
    map_get key (params_of out) = js_order <$> map_get key (params_of message);
  has_role :
    map_get "developerInstructions" (params_of out) =
      match role_for message s with
      | Some text => Some (Str text)
      | None => js_order <$> map_get "developerInstructions" (params_of message)
      end;
  has_bypass :
    opens_bypassed message s = true ->
    map_get "approvalPolicy" (params_of out) = Some (Str "never") /\
    map_get "sandbox" (params_of out) = Some (Str "danger-full-access") /\
    map_get "permissions" (params_of out) = Some Null;
  keeps_permissions key :
    opens_bypassed message s = false -> key ∈ bypass_keys ->
    map_get key (params_of out) = js_order <$> map_get key (params_of message);
  has_variables name value :
    (name, value) ∈ shell_env s ->
    map_get (variable name) (config_of (params_of out)) = Some (Str value);
  keeps_config key :
    (forall name value, (name, value) ∈ shell_env s -> variable name <> key) ->
    map_get key (config_of (params_of out)) = js_order <$> map_get key (config_of (params_of message))
}.

Lemma given_alternatives message s :
  given message s =
    (if opens_bypassed message s || bool_decide (is_Some (role_for message s)) ||
        (begins_thread message && negb (bool_decide (shell_env s = [])))
     then Some (rewritten_start message (opens_bypassed message s) (role_for message s) (shell_env s))
     else None).
Proof.
  unfold given. fold (opens_bypassed message s) (role_for message s) (begins_thread message).
  destruct (begins_thread message) eqn:Eb; simpl.
  - by destruct (shell_env s).
  - assert (main_start message = false) as Em.
    { unfold main_start. unfold begins_thread in Eb. by destruct (is_method message "thread/start"). }
    unfold opens_bypassed, role_for. by rewrite Em.
Qed.

Lemma rewritten_goes fields s :
  once (Object fields) -> NoDup (fst <$> shell_env s) ->
  goes_for s (Object fields)
    (rewritten_start (Object fields) (opens_bypassed (Object fields) s) (role_for (Object fields) s)
                     (shell_env s)).
Proof.
  intros Hf Hnd. split; intros *.
  - apply rewritten_start_other, Hf.
  - intros Hk. rewrite rewritten_start_param by done. unfold bypass_keys in Hk.
    rewrite given_params_other; [done|set_solver..].
  - rewrite rewritten_start_param by done. destruct (role_for (Object fields) s) as [text|].
    + by rewrite given_params_role.
    + rewrite given_params_other; [done..|]. done.
  - intros ->. rewrite !rewritten_start_param by done.
    destruct (given_params_bypass (role_for (Object fields) s) (shell_env s) (params_of (Object fields)))
      as (-> & -> & ->). done.
  - intros -> Hk. rewrite rewritten_start_param by done. unfold bypass_keys in Hk.
    rewrite given_params_other; [done|done|set_solver..].
  - intros Hin. rewrite rewritten_start_config by done.
    by rewrite (with_variables_set _ _ _ value).
  - intros Hk. rewrite rewritten_start_config by done. rewrite with_variables_other; [done|].
    intros [name value] Hin. by apply (Hk name value).
Qed.

(** A window's role goes into the starts of its own threads, and into nothing else; the first
    of them is opened with every permission where the window is to; and each thread that is
    begun, gone on with or forked has the variables in its configuration. All else goes on as it
    came, and a message that is to be given nothing goes as it is. *)
Theorem starts_are_given_their_own client requests fields s :
  once (Object fields) -> NoDup (fst <$> shell_env s) ->
  match (tui_said client requests (Object fields) s).2 with
  | Some out => goes_for s (Object fields) out
  | None => role_for (Object fields) s = None /\ opens_bypassed (Object fields) s = false /\
            (begins_thread (Object fields) = true -> shell_env s = [])
  end.
Proof.
  intros Hf Hnd. rewrite tui_said_gives, given_alternatives.
  destruct (_ || _) eqn:E; [by apply rewritten_goes|].
  apply orb_false_iff in E as [[Hb Hr%bool_decide_eq_false]%orb_false_iff He]. split_and!; [|done|].
  - by apply eq_None_not_Some.
  - intros Hm. rewrite Hm in He. simpl in He. by case_bool_decide.
Qed.
End Selection.

#[local] Existing Instance integers.

Lemma starts_are_given_their_own_witness :
  let message : Value := Object
    [("method", Str "thread/start"); ("id", Number (1%Z : num));
     ("params", Object [("threadSource", Str "user"); ("cwd", Str "/"); ("developerInstructions", Null)])] in
  let s := new true (Some "the role") [("CONSENSFLOW_URL", "http://here")] in
  exists out, (tui_said 7 [] message s).2 = Some out /\ goes_for s message out /\
    map_get "developerInstructions" (params_of out) = Some (Str "the role") /\
    map_get "cwd" (params_of out) = Some (Str "/").
Proof.
  intros message s.
  assert (Hf : once message) by (vm_compute; repeat (constructor || set_solver)).
  assert (Hn : NoDup (fst <$> shell_env s)) by (vm_compute; repeat (constructor || set_solver)).
  pose proof (starts_are_given_their_own 7 [] _ s Hf Hn) as Hout.
  eexists. split; [reflexivity|]. split; [exact Hout|]. by vm_compute.
Defined.
