(* ===== verification/CodexBroker.v ===== *)
(** * The broker of a Codex window, and a delivery through it

    [Shared] of [cf-codex-session/src/broker/mod.rs] as far as the window's thread and a
    message for it go: the [selection] with each connection's requests, what passes ([event]s,
    as [pair.rs] and [control.rs] hand them to it), and [Shared::deliver] of [delivery.rs].
    The broker runs on one thread: what else passes while a delivery waits for Codex is its
    environment's ([during]), with what became of the request; that Codex answers a request
    with an error where it did not take it is Codex's own word. *)
From S2P Require Import Prelude JsValue Selection.
#[local] Open Scope nat_scope.

Section Broker.
Context `{Numbers}.
Implicit Types s : selection.

Record broker := Broker { sel : selection; reqs : gmap nat Requests }.

Definition requests_of (c : nat) (b : broker) : Requests := default [] (reqs b !! c).
Definition set_sel (f : selection -> selection) (b : broker) : broker := Broker (f (sel b)) (reqs b).

Inductive event :=
| TuiSaid (client : nat) (message : Value)
| CodexSaid (client : nat) (message : Value)
| ControlSaid (message : Value)
| ControlReady
| ControlLost
| Closed
| Retired (client : nat)
| Asked (session : string) (control_open : bool)
| Learned (session : string) (read : option Value).

Definition step (e : event) (b : broker) : broker :=
  match e with
  | TuiSaid c message =>
      let '(s, requests, _) := tui_said c (requests_of c b) message (sel b) in
      Broker (unclassified message s).1 (<[c := requests]> (reqs b))
  | CodexSaid c message =>
      let '(s, requests) := codex_said c (requests_of c b) message (sel b) in
      Broker s (<[c := requests]> (reqs b))
  | ControlSaid message => set_sel (observe message) b
  | ControlReady => set_sel ready b
  | ControlLost => set_sel lose_control b
  | Closed => set_sel close b
  | Retired c => Broker (retire c (sel b)) (delete c (reqs b))
  | Asked session control_open => set_sel (fun s => (admit_delivery session control_open s).1) b
  | Learned session read => set_sel (learn session read) b
  end.

Definition steps (es : list event) (b : broker) : broker := fold_left (fun b e => step e b) es b.

(** A broker as it starts, and what it comes to. *)
Definition started bypass r env : broker := Broker (new bypass r env) ∅.
Definition reached bypass r env (b : broker) : Prop := exists es, b = steps es (started bypass r env).

(** ** A delivery *)

Record Delivery := MkDelivery { d_session : string; d_text : string }.

(** The reply for a message that Codex took has a shorter name here. *)
Inductive DeliveryReply := Taken | Refused (refusal : Refusal) | Uncertain.

(** What became of a request to Codex's server. *)
Inductive Answer := Answered (answer : Value) | NotSent | Unanswered.

(** A request put to Codex's server, what became of it, and the broker as it went. *)
Record Sent := MkSent { q_method : string; q_thread : string; q_text : string; q_answer : Answer; q_at : broker }.

Definition reply_of (answer : Answer) : DeliveryReply :=
  match answer with
  | Answered answer => if truthy (get "result" answer) then Taken else Uncertain
  | NotSent => Refused NativeSessionUnavailable
  | Unanswered => Uncertain
  end.

(** Codex said that it did not take the request. *)
Definition declined (answer : Answer) : bool :=
  match answer with Answered answer => truthy (get "error" answer) | _ => false end.

Definition deliver (d : Delivery) (expired control_open : bool) (during : nat -> list event * Answer)
    (b : broker) : broker * DeliveryReply * list Sent :=
  if expired then (b, Refused Expired, [])
  else
    match admit_delivery (d_session d) control_open (sel b) with
    | (s, inr refusal) => (Broker s (reqs b), Refused refusal, [])
    | (s, inl a) =>
        let b := Broker s (reqs b) in
        let '(others, answer) := during 0 in
        let first := MkSent (if a_idle a then "turn/start" else "thread/queue/add")%string
                            (thread a) (d_text d) answer b in
        let b := steps others b in
        if a_idle a && declined answer then
          if is_current a (sel b) then
            let '(others, answer) := during 1 in
            (steps others b, reply_of answer,
             [first; MkSent "thread/queue/add" (thread a) (d_text d) answer b])
          else (b, Refused NativeSessionChanged, [first])
        else (b, reply_of answer, [first])
    end.

(** The shown thread's status is asked where it was last heard at work, and the answer learned:
    with the thread that was asked about, where one was. *)
Definition refresh_idle (during : list event * Answer) (b : broker) : broker * option string :=
  match session_id (sel b) with
  | Some t =>
      if bool_decide (thread_idle (sel b) = Some false) then
        let '(others, answer) := during in
        let b := steps others b in
        (match answer with
         | Answered answer => set_sel (learn t (field "thread" (get "result" answer))) b
         | _ => b
         end, Some t)
      else (b, None)
  | None => (b, None)
  end.

(** ** The invariant *)

Definition switch_revision (p : Pending) : option nat :=
  match p with Switch r _ _ _ => Some r | PermissionChange => None end.

(** The revisions of a connection's switches that are not answered. *)
Definition revisions (requests : Requests) : list nat := omap switch_revision (snd <$> requests).

Record connection_ok s (c : nat) (requests : Requests) : Prop := {
  switches_past : forall r, r ∈ revisions requests -> r <= revision s;
  switch_latest : revision s ∈ revisions requests -> switching s = true /\ owner s = Some c;
  switches_once : NoDup (revisions requests)
}.

Record broker_ok (b : broker) : Prop := {
  switching_shows_none : switching (sel b) = true -> selected (sel b) = None;
  connections_ok : forall c, connection_ok (sel b) c (requests_of c b)
}.

(** What the window shows, and the switch it is at, are as they were. *)
Definition kept s s' : Prop :=
  selected s' = selected s /\ owner s' = owner s /\ switching s' = switching s /\
  revision s' = revision s.

Lemma kept_refl s : kept s s.
Proof. done. Qed.

Lemma kept_trans s1 s2 s3 : kept s1 s2 -> kept s2 s3 -> kept s1 s3.
Proof. intros (? & ? & ? & ?) (? & ? & ? & ?). split_and!; congruence. Qed.

Lemma observe_kept message s : kept s (observe message s).
Proof. unfold observe. repeat case_match; done. Qed.

Lemma admit_kept session control_open s : kept s (admit_delivery session control_open s).1.
Proof. unfold admit_delivery. repeat case_match; done. Qed.

Lemma learn_kept session read s : kept s (learn session read s).
Proof. unfold learn. by case_match. Qed.

Lemma unclassified_kept message s : kept s (unclassified message s).1.
Proof. unfold unclassified. by repeat case_match. Qed.

(** *** Requests remembered and taken *)

Lemma remember_pendings id p requests :
  exists l old l', snd <$> requests = l ++ old ++ l' /\
    snd <$> remember id p requests = l ++ p :: l'.
Proof.
  induction requests as [|[known q] rest (l & old & l' & E & E')]; [by exists [], [], []|].
  cbn [remember]. destruct (same_id known id).
  - by exists [], [q], (snd <$> rest).
  - exists (q :: l), old, l'. by rewrite !fmap_cons, E, E'.
Qed.

Lemma remember_revisions id p requests r :
  r ∈ revisions (remember id p requests) -> r ∈ revisions requests \/ switch_revision p = Some r.
Proof.
  destruct (remember_pendings id p requests) as (l & old & l' & E & E').
  unfold revisions. rewrite E, E', !omap_app. simpl.
  destruct (switch_revision p); set_solver.
Qed.

Lemma remember_once id p requests :
  NoDup (revisions requests) -> (forall r, switch_revision p = Some r -> r ∉ revisions requests) ->
  NoDup (revisions (remember id p requests)).
Proof.
  destruct (remember_pendings id p requests) as (l & old & l' & E & E').
  unfold revisions. rewrite E, E', !omap_app. simpl. intros Hnd Hp.
  assert (Hnd' : NoDup (omap switch_revision l ++ omap switch_revision l')).
  { eapply sublist_NoDup; [exact Hnd|]. apply sublist_app; [done|]. apply sublist_inserts_l. done. }
  destruct (switch_revision p) as [r|] eqn:Er; [|done].
  rewrite <- Permutation_middle. apply NoDup_cons. split; [|done].
  specialize (Hp r eq_refl). set_solver.
Qed.

Lemma take_pendings id requests :
  match Selection.take id requests with
  | (Some p, rest) => exists l l', snd <$> requests = l ++ p :: l' /\ snd <$> rest = l ++ l'
  | (None, rest) => rest = requests
  end.
Proof.
  induction requests as [|[known q] rest IH]; [done|]. cbn [Selection.take].
  destruct (same_id known id).
  - by exists [], (snd <$> rest).
  - destruct (Selection.take id rest) as [[p|] left].
    + destruct IH as (l & l' & E & E'). exists (q :: l), l'. by rewrite !fmap_cons, E, E'.
    + by subst left.
Qed.

Lemma answered_pendings message requests :
  match answered message requests with
  | (Some p, rest) => exists l l', snd <$> requests = l ++ p :: l' /\ snd <$> rest = l ++ l'
  | (None, rest) => rest = requests
  end.
Proof. unfold answered. destruct (get "method" message); [done|]. apply take_pendings. Qed.

Lemma answered_connection s c message requests :
  connection_ok s c requests -> connection_ok s c (answered message requests).2.
Proof.
  intros [Hp Hl Ho]. pose proof (answered_pendings message requests) as Ha.
  destruct (answered message requests) as [[p|] rest]; [|by subst rest].
  destruct Ha as (l & l' & E & E'). unfold revisions in *. rewrite E, omap_app in *.
  split; simpl; unfold revisions; rewrite E', omap_app.
  - intros r Hr. apply Hp. simpl. destruct (switch_revision p); set_solver.
  - intros Hr. apply Hl. simpl. destruct (switch_revision p); set_solver.
  - eapply sublist_NoDup; [exact Ho|]. apply sublist_app; [done|].
    simpl. destruct (switch_revision p); [by apply sublist_cons|done].
Qed.

(** A connection's switches through what others do to the state. *)
Lemma connection_same s s' c requests :
  owner s' = owner s -> switching s' = switching s -> revision s' = revision s ->
  connection_ok s c requests -> connection_ok s' c requests.
Proof. intros Eo Ew Er [Hp Hl Ho]. split; rewrite ?Er, ?Eo, ?Ew; auto. Qed.

Lemma connection_kept s s' c requests :
  kept s s' -> connection_ok s c requests -> connection_ok s' c requests.
Proof. intros (_ & Eo & Ew & Er). by apply connection_same. Qed.

Lemma connection_later s s' c requests :
  revision s < revision s' -> connection_ok s c requests -> connection_ok s' c requests.
Proof.
  intros Hr [Hp Hl Ho]. split; [|intros Hin|done].
  - intros r Hin. apply Hp in Hin. lia.
  - apply Hp in Hin. lia.
Qed.

Lemma remember_other s c id requests :
  connection_ok s c requests -> connection_ok s c (remember id PermissionChange requests).
Proof.
  intros [Hp Hl Ho].
  assert (Hin : forall r, r ∈ revisions (remember id PermissionChange requests) -> r ∈ revisions requests)
    by (intros r [Hr|[=]]%remember_revisions; done).
  split; auto. by apply remember_once.
Qed.

(** *** What a TUI says *)

(** The window is on its way to another thread. *)
Definition begun (c : nat) s s' : Prop :=
  selected s' = None /\ owner s' = Some c /\ switching s' = true /\ revision s' = S (revision s).

Lemma begin_switch_begun c requests message s :
  (switching s = true -> selected s = None) -> switches message = true ->
  begun c s (begin_switch c requests message s).1.
Proof.
  intros Hnone Hm. unfold begin_switch. rewrite Hm. simpl. split_and!; [|done..].
  destruct (switching s); auto.
Qed.

Lemma begin_switch_connection c requests message s :
  connection_ok s c requests ->
  connection_ok (begin_switch c requests message s).1 c (begin_switch c requests message s).2.
Proof.
  intros Hc. unfold begin_switch. destruct (switches message); [|done].
  destruct Hc as [Hp Hl Ho]. split; simpl.
  - intros r [Hr%Hp|[= <-]]%remember_revisions; lia.
  - done.
  - apply remember_once; [done|]. intros r [= <-] Hr%Hp. lia.
Qed.

Lemma tui_said_parts c requests message s :
  let begun := begin_switch c requests message s in
  kept begun.1 (tui_said c requests message s).1.1 /\
  ((tui_said c requests message s).1.2 = begun.2 \/
   (tui_said c requests message s).1.2 = remember (get "id" message) PermissionChange begun.2).
Proof.
  unfold tui_said. destruct (begin_switch c requests message s) as [s1 requests1]. simpl.
  split; [|by match goal with |- context [if ?x then remember _ _ _ else _] => destruct x end; auto].
  destruct ((_ || _) && _); [|done]. by destruct (selected s1).
Qed.

Lemma tui_said_connection c requests message s :
  connection_ok s c requests ->
  connection_ok (tui_said c requests message s).1.1 c (tui_said c requests message s).1.2.
Proof.
  intros Hc%(begin_switch_connection _ _ message).
  destruct (tui_said_parts c requests message s) as [Hk [->| ->]];
    eapply connection_kept; try exact Hk; [done|by apply remember_other].
Qed.

(** *** What Codex says *)

(** The request a message to [c] answers. *)
Definition answers (c : nat) (message : Value) (b : broker) : option Pending :=
  (answered message (requests_of c b)).1.

(** The answer to the switch that the window is at. *)
Definition latest (c : nat) (message : Value) (b : broker) prior prior_empty main_resume : Prop :=
  answers c message b = Some (Switch (revision (sel b)) prior prior_empty main_resume) /\
  owner (sel b) = Some c.

(** The window is at a thread, or at none, and no longer on its way. *)
Definition arrived (failed : bool) (prior : option string) s s' : Prop :=
  owner s' = owner s /\ switching s' = false /\ revision s' = revision s /\
  (failed = true -> selected s' = prior).

Lemma switched_arrived message failed prior prior_empty main_resume s :
  arrived failed prior s (switched message failed prior prior_empty main_resume s).
Proof.
  unfold switched. destruct failed; [done|]. split_and!; try done; repeat case_match; done.
Qed.

Lemma codex_said_moves c message b :
  let failed := truthy (get "error" message) in
  let s' := (codex_said c (requests_of c b) message (sel b)).1 in
  kept (sel b) s' \/ exists prior prior_empty main_resume,
    latest c message b prior prior_empty main_resume /\ arrived failed prior (sel b) s'.
Proof.
  unfold codex_said, latest, answers.
  destruct (answered message (requests_of c b)) as [[[r prior prior_empty main_resume|]|] rest]; simpl.
  - destruct (bool_decide _ && _) eqn:E; [|left; apply observe_kept]. right.
    apply andb_true_iff in E as [Eo%bool_decide_eq_true Er%Nat.eqb_eq]. subst r.
    exists prior, prior_empty, main_resume. split; [done|].
    destruct (switched_arrived message (truthy (get "error" message)) prior prior_empty main_resume (sel b))
      as (H1 & H2 & H3 & H4).
    destruct (observe_kept message (switched message (truthy (get "error" message)) prior prior_empty
      main_resume (sel b))) as (K1 & K2 & K3 & K4). split_and!; [congruence..|].
    intros Hf. rewrite K1. auto.
  - left. destruct (truthy _); (eapply kept_trans; [|apply observe_kept]); done.
  - left. apply observe_kept.
Qed.

Lemma latest_switching c message b prior prior_empty main_resume :
  broker_ok b -> latest c message b prior prior_empty main_resume -> switching (sel b) = true.
Proof.
  intros [_ Hc] [Ha _]. unfold answers in Ha. pose proof (answered_pendings message (requests_of c b)) as Hp.
  destruct (answered message (requests_of c b)) as [[p|] rest]; [|done]. simpl in Ha. injection Ha as ->.
  destruct Hp as (l & l' & E & _). apply (switch_latest _ _ _ (Hc c)).
  unfold revisions. rewrite E, omap_app. simpl. set_solver.
Qed.

(** Once the switch is answered, none of the connection's is the window's latest. *)
Lemma latest_taken c message b prior prior_empty main_resume :
  broker_ok b -> latest c message b prior prior_empty main_resume ->
  revision (sel b) ∉ revisions (answered message (requests_of c b)).2.
Proof.
  intros [_ Hc] [Ha _]. unfold answers in Ha. pose proof (answered_pendings message (requests_of c b)) as Hp.
  pose proof (switches_once _ _ _ (Hc c)) as Hnd.
  destruct (answered message (requests_of c b)) as [[p|] rest]; [|done]. simpl in Ha. injection Ha as ->.
  destruct Hp as (l & l' & E & E'). unfold revisions in *. rewrite E, omap_app in Hnd. simpl in Hnd.
  rewrite <- Permutation_middle in Hnd. apply NoDup_cons in Hnd as [Hnd _].
  simpl. by rewrite E', omap_app.
Qed.

(** ** What moves the window *)

(** Every event leaves the window at the thread and the switch it is at, but for a request
    that switches, the answer to the latest switch, the end of the connection that chose the
    thread, and the close. *)
Inductive moves (b : broker) : event -> broker -> Prop :=
| Kept e b' : kept (sel b) (sel b') -> moves b e b'
| Begins c message b' :
    switches message = true -> begun c (sel b) (sel b') -> moves b (TuiSaid c message) b'
| Arrives c message prior prior_empty main_resume b' :
    latest c message b prior prior_empty main_resume -> switching (sel b) = true ->
    arrived (truthy (get "error" message)) prior (sel b) (sel b') -> moves b (CodexSaid c message) b'
| Leaves c b' :
    owner (sel b) = Some c -> selected (sel b') = None -> switching (sel b') = false ->
    revision (sel b') = S (revision (sel b)) -> moves b (Retired c) b'
| Closes b' :
    selected (sel b') = None -> owner (sel b') = owner (sel b) ->
    switching (sel b') = switching (sel b) -> revision (sel b') = revision (sel b) ->
    moves b Closed b'.

Lemma step_moves e b : broker_ok b -> moves b e (step e b).
Proof.
  intros Hb. destruct e as [c message|c message|message| | | |c|session open|session read]; simpl.
  - pose proof (tui_said_parts c (requests_of c b) message (sel b)) as [Hk _].
    destruct (tui_said c (requests_of c b) message (sel b)) as [[s requests] out]. simpl in Hk.
    pose proof (unclassified_kept message s) as Hu.
    destruct (switches message) eqn:Em.
    + apply Begins; [done|].
      destruct (begin_switch_begun c (requests_of c b) message (sel b)
        (switching_shows_none _ Hb) Em) as (H1 & H2 & H3 & H4).
      destruct Hk as (K1 & K2 & K3 & K4), Hu as (U1 & U2 & U3 & U4).
      split_and!; simpl; congruence.
    + apply Kept. simpl. eapply kept_trans; [|exact Hu]. eapply kept_trans; [|exact Hk].
      unfold begin_switch. by rewrite Em.
  - destruct (codex_said_moves c message b) as [Hk|(prior & pe & mr & Hl & Ha)].
    + apply Kept. by destruct (codex_said c (requests_of c b) message (sel b)).
    + eapply Arrives; [exact Hl|by eapply latest_switching|].
      by destruct (codex_said c (requests_of c b) message (sel b)).
  - apply Kept, observe_kept.
  - by apply Kept.
  - by apply Kept.
  - by apply Closes.
  - unfold retire. case_decide as E; [by apply Leaves|by apply Kept].
  - apply Kept, admit_kept.
  - apply Kept, learn_kept.
Qed.

Lemma requests_of_insert c c' requests s (m : gmap nat Requests) :
  requests_of c' (Broker s (<[c := requests]> m)) =
  if decide (c = c') then requests else default [] (m !! c').
Proof.
  unfold requests_of. simpl. case_decide as E; [subst c'; by rewrite lookup_insert_eq|].
  by rewrite lookup_insert_ne.
Qed.

Lemma moves_connection b e b' c requests :
  moves b e b' -> (forall c message, e <> CodexSaid c message) ->
  connection_ok (sel b) c requests -> connection_ok (sel b') c requests.
Proof.
  intros Hm He Hc. destruct Hm as [e b' Hk|c' message b' _ (_ & _ & _ & Hr)|c' message prior pe mr b' _ _ _
    |c' b' _ _ _ Hr|b' _ Eo Ew Er].
  - by eapply connection_kept.
  - eapply connection_later; [|done]. lia.
  - by destruct (He c' message).
  - eapply connection_later; [|done]. lia.
  - by eapply connection_same.
Qed.

Lemma moves_none b e b' :
  moves b e b' -> (switching (sel b) = true -> selected (sel b) = None) ->
  switching (sel b') = true -> selected (sel b') = None.
Proof.
  intros Hm Hb Hw. destruct Hm as [e b' (K1 & _ & K3 & _)|c message b' _ (Hs & _)|c message prior pe mr b' _ _ (_ & Ha & _)
    |c b' _ Hs Ha _|b' Hs _ _ _]; try done; [|congruence]. rewrite K1. apply Hb. congruence.
Qed.

(** The connection whose message it was, and every other's switches. *)
Lemma codex_said_connection c c' message b :
  broker_ok b ->
  connection_ok (codex_said c (requests_of c b) message (sel b)).1 c'
    (if decide (c = c') then (answered message (requests_of c b)).2 else requests_of c' b).
Proof.
  intros Hb. destruct Hb as [Hnone Hc].
  assert (Hc' : connection_ok (sel b) c'
    (if decide (c = c') then (answered message (requests_of c b)).2 else requests_of c' b)).
  { case_decide as E; [subst c'; by apply answered_connection|done]. }
  destruct (codex_said_moves c message b) as [Hk|(prior & pe & mr & Hl & Ho & Hw & Hr & _)];
    [by eapply connection_kept|].
  destruct Hc' as [Hp Hlatest Hnd]. split; rewrite ?Hr; [done| |done]. intros Hin. exfalso.
  case_decide as E; [by eapply latest_taken in Hin|].
  destruct (Hlatest Hin) as [_ Howner]. destruct Hl as [_ Hl]. congruence.
Qed.

Lemma codex_said_requests c message requests s :
  (codex_said c requests message s).2 = (answered message requests).2.
Proof. unfold codex_said. by destruct (answered message requests). Qed.

Lemma step_ok e b : broker_ok b -> broker_ok (step e b).
Proof.
  intros Hb. pose proof (step_moves e b Hb) as Hm. pose proof Hb as [Hnone Hc].
  split; [by eapply moves_none|]. intros c'.
  assert (Hother : (forall c message, e <> CodexSaid c message) ->
    connection_ok (sel (step e b)) c' (requests_of c' b)) by (intros He; by eapply moves_connection).
  destruct e as [c message|c message|message| | | |c|session open|session read];
    try (by apply Hother).
  - simpl. pose proof (tui_said_connection c (requests_of c b) message (sel b) (Hc c)) as Hown.
    simpl in Hother. destruct (tui_said c (requests_of c b) message (sel b)) as [[s requests] out].
    rewrite requests_of_insert. case_decide as E; [|by apply Hother]. subst c'. simpl in *.
    eapply connection_kept; [apply unclassified_kept|done].
  - simpl. pose proof (codex_said_connection c c' message b Hb) as Hown.
    rewrite <- (codex_said_requests c _ _ (sel b)) in Hown.
    destruct (codex_said c (requests_of c b) message (sel b)) as [s requests]. simpl in *.
    by rewrite requests_of_insert.
  - simpl in *. unfold requests_of. simpl. destruct (decide (c = c')) as [<-|E].
    + rewrite lookup_delete_eq. split; simpl; [set_solver|set_solver|constructor].
    + rewrite lookup_delete_ne by done. by apply Hother.
Qed.

Lemma steps_ok es b : broker_ok b -> broker_ok (steps es b).
Proof.
  revert b. induction es as [|e es IH]; intros b Hb; [done|]. apply IH, step_ok, Hb.
Qed.

Lemma started_ok bypass r env : broker_ok (started bypass r env).
Proof. split; [done|]. intros c. split; simpl; [set_solver|set_solver|constructor]. Qed.

Lemma reached_broker_ok bypass r env b : reached bypass r env b -> broker_ok b.
Proof. intros [es ->]. apply steps_ok, started_ok. Qed.

(** ** A thread that is still shown *)

(** The window shows a thread, at a revision. *)
Definition shows (t : string) (r : nat) (b : broker) : Prop :=
  selected (sel b) = Some t /\ switching (sel b) = false /\ revision (sel b) = r.

Lemma moves_revision b e b' : moves b e b' -> revision (sel b) <= revision (sel b').
Proof.
  intros Hm. destruct Hm as [e b' (_ & _ & _ & E)|c message b' _ (_ & _ & _ & E)
    |c message prior pe mr b' _ _ (_ & _ & E & _)|c b' _ _ _ E|b' _ _ _ E]; lia.
Qed.

Lemma steps_revision es b : broker_ok b -> revision (sel b) <= revision (sel (steps es b)).
Proof.
  revert b. induction es as [|e es IH]; intros b Hb; [done|].
  etransitivity; [apply (moves_revision b e), step_moves, Hb|apply IH, step_ok, Hb].
Qed.

(** At one revision a window that is at no switch goes from a thread to none, and no further. *)
Definition only_leaves (b b' : broker) : Prop :=
  switching (sel b') = false /\
  forall t, selected (sel b') = Some t -> selected (sel b) = Some t.

Lemma moves_shows b e b' :
  moves b e b' -> switching (sel b) = false -> revision (sel b') = revision (sel b) ->
  only_leaves b b'.
Proof.
  intros Hm Hw Hr. destruct Hm as [e b' (K1 & K2 & K3 & K4)|c message b' _ (_ & _ & _ & E)
    |c message prior pe mr b' _ Hw' _|c b' _ _ _ E|b' Es Eo Ew Er]; [|lia|congruence|lia|].
  - split; [congruence|]. by rewrite K1.
  - split; [congruence|]. by rewrite Es.
Qed.

Lemma steps_shows es b :
  broker_ok b -> switching (sel b) = false -> revision (sel (steps es b)) = revision (sel b) ->
  only_leaves b (steps es b).
Proof.
  revert b. induction es as [|e es IH]; intros b Hb Hw Hr; [done|].
  change (steps (e :: es) b) with (steps es (step e b)) in *.
  pose proof (step_moves e b Hb) as Hm. pose proof (step_ok e b Hb) as Hb'.
  pose proof (moves_revision _ _ _ Hm). pose proof (steps_revision es _ Hb').
  destruct (moves_shows b e (step e b) Hm Hw) as [Hw' Hback]; [lia|].
  destruct (IH (step e b) Hb' Hw') as [Hw'' Hs']; [lia|]. split; auto.
Qed.

Lemma admitted_shows session open s s' a :
  admit_delivery session open s = (s', inl a) ->
  s_closed s = false /\ s_ready s = true /\ open = true /\ switching s = false /\
  selected s = Some session /\ thread a = session /\ a_revision a = revision s /\
  a_idle a = bool_decide (idle s !! session = Some true) /\ kept s s' /\
  empty s' = false /\ idle s' !! session <> Some true.
Proof.
  unfold admit_delivery, available. intros E.
  destruct (s_closed s), (s_ready s), open, (switching s) eqn:Ew; simpl in E; try done.
  destruct (selected s) as [t|] eqn:Es; [|done]. rewrite bool_decide_eq_true_2 in E by eauto. simpl in E.
  destruct (decide (t = session)) as [->|]; [|done]. injection E as <- <-. simpl.
  destruct (bool_decide (idle s !! session = Some true)) eqn:Ei; split_and!; try done; simpl.
  - by rewrite lookup_insert_eq.
  - by apply bool_decide_eq_false in Ei.
Qed.

Lemma admitted_ok session open b s a :
  broker_ok b -> admit_delivery session open (sel b) = (s, inl a) -> broker_ok (Broker s (reqs b)).
Proof.
  intros Hb E. pose proof (step_ok (Asked session open) b Hb) as Hok. simpl in Hok.
  unfold set_sel in Hok. by rewrite E in Hok.
Qed.

(** A delivery that was admitted for a thread is current only while the window has shown
    that thread ever since: at every step on the way it showed it, and was at no switch. *)
Theorem current_was_shown_all_along bypass r env b session open s a es1 es2 :
  reached bypass r env b -> admit_delivery session open (sel b) = (s, inl a) ->
  is_current a (sel (steps (es1 ++ es2) (Broker s (reqs b)))) = true ->
  session_id (sel (steps es1 (Broker s (reqs b)))) = Some session.
Proof.
  intros Hb%reached_broker_ok Ha Hcur. set (b0 := Broker s (reqs b)) in *.
  pose proof (admitted_ok _ _ _ _ _ Hb Ha) as Hb0. fold b0 in Hb0.
  apply admitted_shows in Ha as (_ & _ & _ & Hw & Hs & Et & Er & _ & (K1 & K2 & K3 & K4) & _).
  unfold steps in Hcur. rewrite fold_left_app in Hcur. fold (steps es1 b0) in Hcur.
  fold (steps es2 (steps es1 b0)) in Hcur.
  unfold is_current in Hcur. apply andb_true_iff in Hcur as [Hr%Nat.eqb_eq Hshow%bool_decide_eq_true].
  rewrite Et in Hshow. rewrite Er, <- K4 in Hr.
  pose proof (steps_ok es1 b0 Hb0) as Hb1.
  pose proof (steps_revision es1 b0 Hb0). pose proof (steps_revision es2 _ Hb1).
  change (revision s) with (revision (sel b0)) in Hr.
  destruct (steps_shows es1 b0 Hb0) as [Hw1 _]; [simpl; congruence|lia|].
  destruct (steps_shows es2 _ Hb1 Hw1) as [_ Hs1]; [lia|].
  unfold session_id. rewrite Hw1. auto.
Qed.

(** ** A message *)

(** It did not go in: Codex was not asked, or said that it did not take it. *)
Definition not_taken (q : Sent) : Prop := q_answer q = NotSent \/ declined (q_answer q) = true.

(** It was for that thread, which the window showed as it went. *)
Definition sent_to (d : Delivery) (q : Sent) : Prop :=
  q_thread q = d_session d /\ q_text q = d_text d /\ session_id (sel (q_at q)) = Some (d_session d).

(** What the reply says of the requests that were put to Codex. *)
Definition tells (reply : DeliveryReply) (sent : list Sent) : Prop :=
  match reply with
  | Taken => exists before q answer, sent = before ++ [q] /\ Forall not_taken before /\
      q_answer q = Answered answer /\ truthy (get "result" answer) = true
  | Refused _ => Forall not_taken sent
  | Uncertain => exists before q, sent = before ++ [q] /\ Forall not_taken before
  end.

Lemma reply_tells before q :
  Forall not_taken before -> tells (reply_of (q_answer q)) (before ++ [q]).
Proof.
  intros Hb. unfold reply_of. destruct (q_answer q) as [answer| |] eqn:E; simpl; [|..|by eexists _, _].
  - destruct (truthy (get "result" answer)) eqn:Et; simpl; [|by eexists _, _].
    by exists before, q, answer.
  - apply Forall_app. split; [done|]. apply Forall_singleton. by left.
Qed.

(** C10: whatever passes through the broker meanwhile, a message is put to Codex only for the
    thread it names, while the window shows it, and a second time only where Codex said that it
    did not take the first; a reply that it was refused is of a message that is in nowhere, one
    that it was admitted of one that Codex took, and no other reply is sure. *)
Theorem message_goes_once_to_its_thread bypass r env b d expired open during :
  reached bypass r env b ->
  let '(_, reply, sent) := deliver d expired open during b in
  Forall (sent_to d) sent /\ length sent <= 2 /\ tells reply sent.
Proof.
  intros Hb%reached_broker_ok. unfold deliver. destruct expired; [by simpl; auto using Forall_nil_2|].
  destruct (admit_delivery (d_session d) open (sel b)) as [s [a|refusal]] eqn:Ea;
    [|by simpl; auto using Forall_nil_2].
  pose proof (admitted_ok _ _ _ _ _ Hb Ea) as Hb0.
  apply admitted_shows in Ea as (_ & _ & _ & Hw & Hs & Et & Er & _ & (K1 & K2 & K3 & K4) & _).
  destruct (during 0) as [others answer]. set (first := MkSent _ _ _ answer _).
  assert (Hfirst : sent_to d first).
  { split; [done|split; [done|]]. unfold session_id. simpl. by rewrite K3, Hw, K1. }
  destruct (a_idle a && declined answer) eqn:Ed; [|split; [by constructor|split; [simpl; lia|]];
    apply (reply_tells [] first), Forall_nil_2].
  apply andb_true_iff in Ed as [_ Ed]. assert (Hn : not_taken first) by (by right).
  destruct (is_current a _) eqn:Ec; [|split; [by constructor|split; [simpl; lia|by constructor]]].
  destruct (during 1) as [others' answer']. set (second := MkSent _ _ _ answer' _).
  split; [|split; [simpl; lia|apply (reply_tells [first] second); by constructor]].
  constructor; [done|]. constructor; [|done]. split; [done|split; [done|]].
  unfold is_current in Ec. apply andb_true_iff in Ec as [_ Ec%bool_decide_eq_true]. rewrite Et in Ec.
  unfold session_id. simpl. pose proof (switching_shows_none _ (steps_ok others _ Hb0)) as Hnone.
  destruct (switching (sel (steps others _))) eqn:Ew; [by rewrite (Hnone eq_refl) in Ec|done].
Qed.

(** The thread a window shows changes only as its TUI's request to switch goes to Codex, as
    the latest such request of the connection that chose it is answered (an error goes back to
    the thread before), as that connection ends, and at the close. *)
Theorem thread_changes_only_by_its_owner bypass r env b e :
  reached bypass r env b ->
  session_id (sel (step e b)) <> session_id (sel b) ->
  (exists c message, e = TuiSaid c message /\ switches message = true) \/
  (exists c message prior prior_empty main_resume,
     e = CodexSaid c message /\ owner (sel b) = Some c /\
     answers c message b = Some (Switch (revision (sel b)) prior prior_empty main_resume) /\
     (truthy (get "error" message) = true -> session_id (sel (step e b)) = prior)) \/
  (exists c, e = Retired c /\ owner (sel b) = Some c) \/ e = Closed.
Proof.
  intros Hb%reached_broker_ok Hne. destruct (step_moves e b Hb) as [e b' (K1 & _ & K3 & _)|c message b' Hm _
    |c message prior pe mr b' [Hl Ho] _ (_ & Hw & _ & Hp)|c b' Ho _ _ _|b' _ _ _ _]; eauto 10.
  - destruct Hne. unfold session_id. by rewrite K1, K3.
  - right. left. exists c, message, prior, pe, mr. split_and!; try done. intros Hf.
    unfold session_id. rewrite Hw. auto.
Qed.

(** A refresh changes no more than whether the window's own thread is idle. *)
Lemma refresh_idle_learns during b :
  let '(b', asked) := refresh_idle during b in
  match asked with
  | None => b' = b
  | Some t => session_id (sel b) = Some t /\ thread_idle (sel b) = Some false /\
      (b' = steps during.1 b \/ exists read, b' = steps (during.1 ++ [Learned t read]) b)
  end.
Proof.
  unfold refresh_idle. destruct (session_id (sel b)) as [t|]; [|done].
  case_bool_decide as E; [|done]. destruct during as [others [answer| |]]; split_and!; auto.
  right. eexists. unfold steps. by rewrite fold_left_app.
Qed.

(** ** A switch that Codex refuses *)

Lemma take_remember id p requests :
  same_id id id = true -> (Selection.take id (remember id p requests)).1 = Some p.
Proof.
  intros Hid. induction requests as [|[known q] rest IH]; cbn [remember Selection.take]; [by rewrite Hid|].
  destruct (same_id known id) eqn:E; cbn [Selection.take]; rewrite E; [done|].
  by destruct (Selection.take id (remember id p rest)).
Qed.

(** The window is at the switch of [c]'s request [id], from what it showed then. *)
Record at_switch (c : nat) (id : RequestId) (prior : option string) (prior_empty : bool) (r : nat)
    (b : broker) : Prop := {
  at_revision : revision (sel b) = r;
  at_owner : owner (sel b) = Some c;
  at_request : exists main_resume,
    (Selection.take id (requests_of c b)).1 = Some (Switch r prior prior_empty main_resume)
}.

Lemma switch_is_at c message b :
  broker_ok b -> switches message = true -> same_id (get "id" message) (get "id" message) = true ->
  at_switch c (get "id" message) (session_id (sel b)) (is_empty (sel b)) (S (revision (sel b)))
            (step (TuiSaid c message) b).
Proof.
  intros [Hnone _] Hm Hid. cbn [step].
  pose proof (tui_said_parts c (requests_of c b) message (sel b)) as [(K1 & K2 & K3 & K4) _].
  assert (Hreq : (tui_said c (requests_of c b) message (sel b)).1.2 =
    (begin_switch c (requests_of c b) message (sel b)).2).
  { unfold tui_said, begin_switch, names_selected. rewrite Hm. cbn [fst snd selected own].
    replace (if switching (sel b) then selected (sel b) else None) with (@None string)
      by (destruct (switching (sel b)); [by rewrite Hnone|done]).
    by rewrite !andb_false_r. }
  destruct (tui_said c (requests_of c b) message (sel b)) as [[s requests] out]. cbn [fst snd] in *.
  subst requests. pose proof (unclassified_kept message s) as (U1 & U2 & U3 & U4).
  unfold begin_switch in *. rewrite Hm in *. cbn [fst snd] in *. simpl in K2, K4.
  split; cbn [sel]; [congruence..|]. rewrite requests_of_insert, decide_True by done.
  exists (main_resume_of message). rewrite take_remember by done. do 2 f_equal.
Qed.

(** Nothing of [c]'s own. *)
Definition of_another (c : nat) (e : event) : Prop :=
  match e with TuiSaid c' _ | CodexSaid c' _ | Retired c' => c' <> c | _ => True end.

Lemma another_keeps c e b : of_another c e -> requests_of c (step e b) = requests_of c b.
Proof.
  destruct e as [c' message|c' message|message| | | |c'|session open|session read]; try done; intros Hc; cbn [step].
  - destruct (tui_said c' (requests_of c' b) message (sel b)) as [[s requests] out].
    by rewrite requests_of_insert, decide_False.
  - destruct (codex_said c' (requests_of c' b) message (sel b)) as [s requests].
    by rewrite requests_of_insert, decide_False.
  - unfold requests_of. simpl. by rewrite lookup_delete_ne.
Qed.

Lemma moves_owner b e b' :
  moves b e b' -> revision (sel b') = revision (sel b) -> owner (sel b') = owner (sel b).
Proof.
  intros Hm Hr. destruct Hm as [e b' (_ & E & _)|c message b' _ (_ & _ & _ & E)
    |c message prior pe mr b' _ _ (E & _)|c b' _ _ _ E|b' _ E _ _]; [done|lia|done|lia|done].
Qed.

Lemma still_at_switch c id prior pe r es b :
  broker_ok b -> Forall (of_another c) es -> revision (sel (steps es b)) = r ->
  at_switch c id prior pe r b -> at_switch c id prior pe r (steps es b).
Proof.
  intros Hb Hes. revert b Hb. induction Hes as [|e es He _ IH]; intros b Hb Hr Hat; [done|].
  change (steps (e :: es) b) with (steps es (step e b)) in *.
  pose proof (step_moves e b Hb) as Hm. pose proof (step_ok e b Hb) as Hb'.
  pose proof (moves_revision _ _ _ Hm). pose proof (steps_revision es _ Hb').
  destruct Hat as [Er Eo Eq]. assert (Er' : revision (sel (step e b)) = revision (sel b)) by lia.
  apply IH; [done..|]. split; [congruence| |by rewrite another_keeps].
  by rewrite (moves_owner _ _ _ Hm Er').
Qed.

(** A switch that Codex refuses gives the window back the thread it showed, and whether
    anything was said in it, whatever other connections and Codex itself say meanwhile, as long
    as none of it is another switch of the window. *)
Theorem refused_switch_goes_back bypass r env b c message es refusal :
  reached bypass r env b -> switches message = true ->
  same_id (get "id" message) (get "id" message) = true ->
  Forall (of_another c) es ->
  revision (sel (steps es (step (TuiSaid c message) b))) = S (revision (sel b)) ->
  get "method" refusal = None -> get "id" refusal = get "id" message ->
  truthy (get "error" refusal) = true ->
  let b' := step (CodexSaid c refusal) (steps es (step (TuiSaid c message) b)) in
  session_id (sel b') = session_id (sel b) /\ is_empty (sel b') = is_empty (sel b).
Proof.
  intros Hb%reached_broker_ok Hm Hid Hes Hr Hmethod Hrid Herr.
  pose proof (switch_is_at c message b Hb Hm Hid) as Hat.
  apply (still_at_switch c _ _ _ _ es) in Hat; [|by apply step_ok|done..].
  revert Hat. generalize (steps es (step (TuiSaid c message) b)). intros b1 [Er Eo [mr Eq]].
  cbn [step]. unfold codex_said, answered. rewrite Hmethod, Hrid.
  destruct (Selection.take (get "id" message) (requests_of c b1)) as [found rest]. simpl in Eq. subst found.
  rewrite Herr, Eo, Er, bool_decide_eq_true_2, Nat.eqb_refl by done. cbn [andb].
  assert (Hobs : forall s, observe refusal s = s).
  { intros s. unfold observe, is_method, method_of. rewrite Hmethod. simpl.
    by destruct (field "threadId" (get "params" refusal) ≫= as_str). }
  cbn [sel]. by rewrite Hobs.
Qed.
End Broker.

(** ** A window that shows a thread *)

#[local] Existing Instance integers.

Definition example_thread : string := "01a09094-938f-7fd1-a2d3-315cf92b4559".

Definition example_start (n : Z) : Value :=
  Object [("method", Str "thread/start"); ("id", Number (n : num));
          ("params", Object [("threadSource", Str "user")])].

Definition example_answer (n : Z) : Value :=
  Object [("id", Number (n : num));
          ("result", Object [("thread", Object
             [("id", Str example_thread); ("turns", Array []);
              ("status", Object [("type", Str "idle")])])])].

Definition example_refusal (n : Z) : Value :=
  Object [("id", Number (n : num)); ("error", Object [])].

Definition example_events : list event :=
  [ControlReady; TuiSaid 7 (example_start 1); CodexSaid 7 (example_answer 1)].

Definition example_broker : broker := steps example_events (started true (Some "a role") []).

Lemma example_reached : reached true (Some "a role") [] example_broker.
Proof. by exists example_events. Qed.

Lemma current_was_shown_all_along_witness :
  let admitted := admit_delivery example_thread true (sel example_broker) in
  let b := Broker admitted.1 (reqs example_broker) in
  exists a, admitted.2 = inl a /\
    is_current a (sel (steps [ControlSaid (example_answer 1); Retired 8] b)) = true /\
    session_id (sel (steps [ControlSaid (example_answer 1)] b)) = Some example_thread.
Proof.
  intros admitted b. eexists. split; [vm_compute; reflexivity|]. split; [vm_compute; reflexivity|].
  eapply (current_was_shown_all_along true (Some "a role") [] example_broker example_thread true _ _
            [ControlSaid (example_answer 1)] [Retired 8]);
    [apply example_reached|vm_compute; reflexivity|vm_compute; reflexivity].
Defined.

Lemma message_goes_once_to_its_thread_witness :
  let d := MkDelivery example_thread "a result" in
  let during (n : nat) : list event * Answer := match n with
    | O => ([TuiSaid 7 (Object [])], Answered (example_refusal 3))
    | _ => ([], Answered (Object [("result", Object [])]))
    end in
  let '(_, reply, sent) := deliver d false true during example_broker in
  (reply = Taken /\ q_method <$> sent = ["turn/start"; "thread/queue/add"]) /\
  (Forall (sent_to d) sent /\ length sent <= 2 /\ tells reply sent).
Proof.
  intros d during.
  pose proof (message_goes_once_to_its_thread true (Some "a role") [] example_broker d false true during
                example_reached) as Hsent.
  assert (Hout : let '(_, reply, sent) := deliver d false true during example_broker in
                 reply = Taken /\ q_method <$> sent = ["turn/start"; "thread/queue/add"])
    by (vm_compute; split; reflexivity).
  destruct (deliver d false true during example_broker) as [[b reply] sent].
  split; [exact Hout|exact Hsent].
Defined.

Lemma thread_changes_only_by_its_owner_witness :
  session_id (sel (step (Retired 7) example_broker)) <> session_id (sel example_broker) /\
  exists c, Retired 7 = Retired c /\ owner (sel example_broker) = Some c.
Proof.
  assert (Hne : session_id (sel (step (Retired 7) example_broker)) <> session_id (sel example_broker))
    by (vm_compute; done).
  split; [exact Hne|].
  destruct (thread_changes_only_by_its_owner true (Some "a role") [] example_broker (Retired 7)
              example_reached Hne) as [(c&m&E&_)|[(c&m&p&pe&mr&E&_)|[Hr|E]]];
    [discriminate E|discriminate E|exact Hr|discriminate E].
Defined.

Lemma refused_switch_goes_back_witness :
  let b := step (CodexSaid 7 (example_refusal 2))
             (steps [Retired 8; CodexSaid 9 (example_answer 2)]
                (step (TuiSaid 7 (example_start 2)) example_broker)) in
  session_id (sel example_broker) = Some example_thread /\
  session_id (sel b) = session_id (sel example_broker) /\
  is_empty (sel b) = is_empty (sel example_broker).
Proof.
  split; [vm_compute; reflexivity|].
  apply (refused_switch_goes_back true (Some "a role") [] example_broker 7 (example_start 2)
           [Retired 8; CodexSaid 9 (example_answer 2)] (example_refusal 2));
    [apply example_reached| | |repeat constructor; discriminate|..]; vm_compute; reflexivity.
Defined.
