(* ===== verification/TaskPlan.v ===== *)
(** * The tasks of a project and what they wait for: [cf-ledger/src/tasks]

    Two of the ledger's tables, [task] (the columns its plan goes by, each row at its id, in the
    order of the ids) and [task_need], with the constraints their schema holds them to; and the
    operations that link tasks or let go of them: [create_task] of [giving.rs], [relink] of
    [editing.rs] and [release_ready] of [finishing.rs]. An operation is in one transaction: a
    refusal leaves the tables as they were. What the staff's rules say of a window is an argument
    ([staff]), as is the window that a task given by name goes to. *)
From S2P Require Import Prelude.
From stdpp Require Import sorting relations.
#[local] Open Scope Z_scope.

Inductive TaskState :=
| Open | Queued | Working | Waiting | Paused | Done | Accepted | Failed | Cancelled.

#[export] Instance task_state_eq_dec : EqDecision TaskState.
Proof. solve_decision. Defined.

Record task := Task {
  t_id : Z;
  t_project : Z;
  t_number : Z;
  t_state : TaskState;
  t_assignee : option Z;
  t_pool : option string;
  t_deleted : bool
}.

(** [sequence] is the greatest id a row of [task] ever had: AUTOINCREMENT's. *)
Record plan := Plan { tasks : list task; needs : list (Z * Z); sequence : Z }.

(** Why the ledger did not do what it was asked; [Sql] is a constraint that did not hold. *)
Inductive Refused :=
| UnknownTask (number : Z)
| InvalidNeeds
| NeedCancelled (number : Z)
| TaskDeleted (number : Z)
| CircularNeeds (waiter waited : Z)
| NotOnTheBoard (number : Z)
| InvalidTransition (number : Z)
| NotFinished (number : Z)
| TaskNeeded (number : Z)
| Sql.

#[local] Notation "'let?' x := e 'in' k" :=
  (match e with inl x => k | inr why => inr why end)
  (at level 10, x pattern, e at level 200, k at level 200).

(** One after another, until one refuses. *)
Fixpoint each {A} (f : A -> plan -> plan + Refused) (xs : list A) (p : plan) : plan + Refused :=
  match xs with
  | [] => inl p
  | x :: rest => let? p := f x p in each f rest p
  end.

(** ** Reading the tables *)

(** [Store::task_row] *)
Definition task_row (project number : Z) (p : plan) : task + Refused :=
  match find (fun t => (t_project t =? project) && (t_number t =? number)) (tasks p) with
  | Some t => inl t
  | None => inr (UnknownTask number)
  end.

Definition task_by_id (p : plan) (id : Z) : option task := find (fun t => t_id t =? id) (tasks p).

(** [SELECT needs_id FROM task_need WHERE task_id = ?] *)
Definition needs_of (p : plan) (id : Z) : list Z :=
  snd <$> filter (fun link : Z * Z => link.1 = id) (needs p).

(** [SELECT 1 FROM task_need n JOIN task d ON d.id = n.needs_id WHERE n.task_id = ? AND
    d.state != 'accepted'] *)
Definition blocked (p : plan) (id : Z) : bool :=
  existsb (fun need => match task_by_id p need with
                       | Some d => negb (bool_decide (t_state d = Accepted))
                       | None => false
                       end) (needs_of p id).

(** A recursive query takes a row of its queue and puts in it the rows that follow and were not
    in it yet. *)
Fixpoint recursive (fuel : nat) (p : plan) (seen queue : list Z) : list Z :=
  match fuel, queue with
  | S fuel, id :: queue =>
      let new := filter (fun need => need ∉ seen) (remove_dups (needs_of p id)) in
      recursive fuel p (seen ++ new) (queue ++ new)
  | _, _ => seen
  end.

Definition upstream (p : plan) (task_id other_id : Z) : bool :=
  let first := remove_dups (needs_of p task_id) in
  bool_decide (other_id ∈ recursive (length (needs p)) p first first).

(** ** Writing them *)

Definition link (task_id needs_id : Z) (p : plan) : plan + Refused :=
  if (task_id =? needs_id) || bool_decide ((task_id, needs_id) ∈ needs p) ||
     negb (bool_decide (is_Some (task_by_id p task_id))) ||
     negb (bool_decide (is_Some (task_by_id p needs_id)))
  then inr Sql
  else inl (Plan (tasks p) (needs p ++ [(task_id, needs_id)]) (sequence p)).

Definition unlink (task_id needs_id : Z) (p : plan) : plan :=
  Plan (tasks p) (filter (fun link : Z * Z => link <> (task_id, needs_id)) (needs p)) (sequence p).

Definition update (id : Z) (f : task -> task) (p : plan) : plan :=
  Plan (map (fun t => if t_id t =? id then f t else t) (tasks p)) (needs p) (sequence p).

Definition set_state (to : TaskState) (t : task) : task :=
  Task (t_id t) (t_project t) (t_number t) to (t_assignee t) (t_pool t) (t_deleted t).

(** [Store::move_task], of the task's row. *)
Definition move_task (t : task) (to : TaskState) (p : plan) : plan := update (t_id t) (set_state to) p.

(** [require_on_board] *)
Definition require_on_board (t : task) : unit + Refused :=
  if t_deleted t then inr (TaskDeleted (t_number t)) else inl tt.

(** What a task may wait for: not one cancelled, nor one deleted before it was accepted. *)
Definition may_be_needed (need : task) : unit + Refused :=
  if decide (t_state need = Cancelled) then inr (NeedCancelled (t_number need))
  else if decide (t_state need = Accepted) then inl tt else require_on_board need.

(** ** A task given *)

(** Each once, in the order first given. *)
Definition once (numbers : list Z) : list Z :=
  fold_left (fun all n => if decide (n ∈ all) then all else all ++ [n]) numbers [].

(** [distinct]: positive numbers, each once, in the order first given. *)
Definition distinct (numbers : list Z) : list Z + Refused :=
  if forallb (fun n => (0 <? n) && (n <? 2 ^ 63)) numbers
  then inl (once numbers)
  else inr InvalidNeeds.

(** Whether one of the tasks is not accepted, as far as they are read. *)
Fixpoint first_unaccepted (project : Z) (numbers : list Z) (p : plan) : bool + Refused :=
  match numbers with
  | [] => inl false
  | n :: rest =>
      let? t := task_row project n p in
      if decide (t_state t = Accepted) then first_unaccepted project rest p else inl true
  end.

Definition greatest (numbers : list Z) : Z := foldr Z.max 0 numbers.

(** [COALESCE(MAX(number), 0) + 1] *)
Definition next_number (project : Z) (p : plan) : Z :=
  greatest (t_number <$> filter (fun t => t_project t = project) (tasks p)) + 1.

Definition need_of_new (project task_id number : Z) (p : plan) : plan + Refused :=
  let? need := task_row project number p in
  let? _ := may_be_needed need in
  link task_id (t_id need) p.

Definition waiter_of_new (project task_id next number : Z) (p : plan) : plan + Refused :=
  let? waits := task_row project number p in
  if decide (t_state waits <> Open) then inr (NotOnTheBoard number)
  else if upstream p task_id (t_id waits) then inr (CircularNeeds number next)
  else link (t_id waits) task_id p.

(** A new task for [pool], or by name for [assignee]'s window, which the tasks [behind] keep: once
    the staff's rules allow it. *)
Definition create_task (project : Z) (assignee : option Z) (behind : list Z) (pool : string)
    (asked before : list Z) (p : plan) : plan + Refused :=
  let? needed := distinct asked in
  let? blocking := distinct before in
  let needed := once (needed ++ behind) in
  let? is_blocked := match assignee with
                     | Some _ => first_unaccepted project needed p
                     | None => inl false
                     end in
  let next := next_number project p in
  let open := bool_decide (assignee = None) || is_blocked in
  let id := sequence p + 1 in
  let row := Task id project next (if open then Open else Queued) assignee
                  (match assignee with None => Some pool | Some _ => None end) false in
  let p := Plan (tasks p ++ [row]) (needs p) id in
  let? p := each (need_of_new project id) needed p in
  each (waiter_of_new project id next) blocking p.

(** ** Tasks off the board *)

(** [FINISHED_TASK_STATES] *)
Definition finished : list TaskState := [Accepted; Cancelled; Failed].

(** Whether a task that is not finished waits for this one. *)
Definition needed_still (p : plan) (id : Z) : bool :=
  existsb (fun waiter => match task_by_id p waiter with
                         | Some w => negb (bool_decide (t_state w ∈ finished))
                         | None => false
                         end) (fst <$> filter (fun link : Z * Z => link.2 = id) (needs p)).

Definition delete_one (project number : Z) (p : plan) : plan + Refused :=
  let? t := task_row project number p in
  let? _ := require_on_board t in
  if decide (t_state t ∉ finished) then inr (NotFinished number)
  else if bool_decide (t_state t = Failed) && needed_still p (t_id t) then inr (TaskNeeded number)
  else inl (update (t_id t) (fun t => Task (t_id t) (t_project t) (t_number t) (t_state t)
                                           (t_assignee t) (t_pool t) true) p).

Definition delete_tasks (project : Z) (numbers : list Z) (p : plan) : plan + Refused :=
  each (delete_one project) (once numbers) p.

(** ** What lets go of a task that waits *)

(** A participant's window, as the staff's rules have it: a member's ([a_members_window]), a
    session of one ([member_id]), gone from the board, and whether it can come back. *)
Record window := Window { w_members : bool; w_session : bool; w_left : bool; w_can_continue : bool }.

Definition has_task_in (states : list TaskState) (w : Z) (p : plan) : bool :=
  existsb (fun t => bool_decide (t_assignee t = Some w) && bool_decide (t_state t ∈ states)) (tasks p).

Definition has_task_in_hand (w : Z) (p : plan) : bool :=
  has_task_in [Queued; Working; Waiting; Paused] w p.

Definition undecided_results (w : Z) (p : plan) : list Z :=
  t_number <$> filter (fun t => t_assignee t = Some w /\ t_state t = Done /\ t_deleted t = false)
                      (tasks p).

Section Release.
Context (staff : Z -> window).

(** The tasks of the project that are given a window and wait for nothing. *)
Definition waiting (project : Z) (p : plan) : list (task * Z) :=
  omap (fun t => match t_assignee t with
                 | Some w => if (t_project t =? project) && bool_decide (t_state t = Open) &&
                                negb (blocked p (t_id t)) then Some (t, w) else None
                 | None => None
                 end) (tasks p).

(** The window takes nothing new. *)
Definition busy (w : Z) (p : plan) : bool :=
  w_session (staff w) && (has_task_in_hand w p || negb (bool_decide (undecided_results w p = []))).

(** A member's window that left and cannot come back: no window can take the task. *)
Definition unreachable (w : Z) : bool :=
  w_members (staff w) && w_left (staff w) && negb (w_can_continue (staff w)).

Definition release_one (p : plan) (tw : task * Z) : plan :=
  let '(t, w) := tw in
  if unreachable w then move_task t Cancelled p
  else if busy w p then p
  else move_task t Queued p.

Definition release_ready (project : Z) (p : plan) : plan :=
  fold_left release_one (waiting project p) p.

(** ** The links of a task changed *)

Inductive Links := SetTo (set : list Z) | Change (add remove : list Z).

Fixpoint dedup (numbers : list Z) : list Z :=
  match numbers with
  | x :: ((y :: _) as rest) => if x =? y then dedup rest else x :: dedup rest
  | _ => numbers
  end.

Definition sorted (numbers : list Z) : list Z := dedup (merge_sort Z.le numbers).

Definition numbers_of (p : plan) (ids : list Z) : list Z :=
  merge_sort Z.le (t_number <$> omap (task_by_id p) ids).

(** What [task_id] needs, and what waits for it, by their numbers. *)
Definition needs_numbers (p : plan) (task_id : Z) : list Z := numbers_of p (needs_of p task_id).
Definition waiter_numbers (p : plan) (task_id : Z) : list Z :=
  numbers_of p (fst <$> filter (fun link : Z * Z => link.2 = task_id) (needs p)).

Definition wanted (links : option Links) (held : list Z) : option (list Z) :=
  match links with
  | None => None
  | Some (SetTo set) => Some (sorted set)
  | Some (Change add remove) =>
      Some (sorted (filter (fun n => n ∉ remove \/ n ∈ add) (held ++ add)))
  end.

(** Those of [held] that are not wanted any more, and those wanted that are not held. *)
Definition dropped (held : list Z) (now : option (list Z)) : list Z :=
  match now with Some now => filter (fun n => n ∉ now) held | None => [] end.
Definition added (held : list Z) (now : option (list Z)) : list Z :=
  match now with Some now => filter (fun n => n ∉ held) now | None => [] end.

Definition drop_need (project task_id number : Z) (p : plan) : plan + Refused :=
  let? other := task_row project number p in inl (unlink task_id (t_id other) p).

Definition drop_waiter (project task_id number : Z) (p : plan) : plan + Refused :=
  let? other := task_row project number p in inl (unlink (t_id other) task_id p).

Definition add_need (project : Z) (t : task) (number : Z) (p : plan) : plan + Refused :=
  let? need := task_row project number p in
  if (t_id need =? t_id t) || upstream p (t_id need) (t_id t)
  then inr (CircularNeeds (t_number t) number)
  else
    let? _ := may_be_needed need in
    link (t_id t) (t_id need) p.

Definition add_waiter (project : Z) (t : task) (number : Z) (p : plan) : plan + Refused :=
  let? waits := task_row project number p in
  if (t_id waits =? t_id t) || upstream p (t_id t) (t_id waits)
  then inr (CircularNeeds number (t_number t))
  else if decide (t_state waits <> Open) then inr (NotOnTheBoard number)
  else link (t_id waits) (t_id t) p.

Definition relinked (project : Z) (t : task) (edit_needs edit_before : option Links) (p : plan) :
    plan + Refused :=
  let held := needs_numbers p (t_id t) in
  let waiters := waiter_numbers p (t_id t) in
  let needs_now := wanted edit_needs held in
  let waiters_now := wanted edit_before waiters in
  let? p := each (drop_need project (t_id t)) (dropped held needs_now) p in
  let? p := each (drop_waiter project (t_id t)) (dropped waiters waiters_now) p in
  let? p := each (add_need project t) (added held needs_now) p in
  each (add_waiter project t) (added waiters waiters_now) p.

(** [release_inside], of the rows: back on the board with no window, and what that frees goes. *)
Definition put_back (t : task) : task :=
  Task (t_id t) (t_project t) (t_number t) Open None (t_pool t) (t_deleted t).

Definition to_the_board (project : Z) (t : task) (p : plan) : plan :=
  release_ready project (update (t_id t) put_back p).

Definition relink (project number : Z) (edit_needs edit_before : option Links) (p : plan) :
    plan + Refused :=
  let? t := task_row project number p in
  let? p := relinked project t edit_needs edit_before p in
  let? p :=
    if blocked p (t_id t) && bool_decide (is_Some (t_assignee t)) &&
       negb (bool_decide (t_state t = Open))
    then if negb (bool_decide (t_state t = Queued)) || bool_decide (t_pool t = None)
         then inr (InvalidTransition number)
         else inl (to_the_board project t p)
    else inl p in
  inl (release_ready project p).

(** ** The life of a plan *)

(** What happens to the tables: the operations, any other move of a task (the rest of the ledger
    gives tasks windows and moves them, and links none), and the end of
    a project, with its rows and theirs. *)
Inductive event :=
| Created (project : Z) (assignee : option Z) (behind : list Z) (pool : string) (asked before : list Z)
| Relinked (project number : Z) (edit_needs edit_before : option Links)
| Released (project : Z)
| Deleted (project : Z) (numbers : list Z)
| Moved (id : Z) (state : TaskState) (assignee : option Z)
| Removed (project : Z).

Definition write (r : plan + Refused) (p : plan) : plan :=
  match r with inl p' => p' | inr _ => p end.

Definition remove_project (project : Z) (p : plan) : plan :=
  let gone := t_id <$> filter (fun t => t_project t = project) (tasks p) in
  Plan (filter (fun t => t_project t <> project) (tasks p))
       (filter (fun link : Z * Z => link.1 ∉ gone /\ link.2 ∉ gone) (needs p)) (sequence p).

Definition step (e : event) (p : plan) : plan :=
  match e with
  | Created project assignee behind pool asked before =>
      write (create_task project assignee behind pool asked before p) p
  | Relinked project number edit_needs edit_before =>
      write (relink project number edit_needs edit_before p) p
  | Released project => release_ready project p
  | Deleted project numbers => write (delete_tasks project numbers p) p
  | Moved id state assignee =>
      update id (fun t => Task (t_id t) (t_project t) (t_number t) state assignee (t_pool t)
                               (t_deleted t)) p
  | Removed project => remove_project project p
  end.

Definition reached (p : plan) : Prop := exists es, p = fold_left (fun p e => step e p) es (Plan [] [] 0).

End Release.

(** ** The tasks upstream *)

(** A task waits for another. *)
Definition waits (p : plan) (x y : Z) : Prop := (x, y) ∈ needs p.

Lemma elem_of_needs_of p x y : y ∈ needs_of p x <-> waits p x y.
Proof.
  unfold needs_of, waits. rewrite list_elem_of_fmap. split.
  - intros ([x' y'] & -> & [E Hin]%list_elem_of_filter). simpl in E. by subst x'.
  - intros Hin. exists (x, y). split; [done|]. by apply list_elem_of_filter.
Qed.

(** The rows a recursive query has read and has in its queue, before its end. *)
Record reading (p : plan) (from : Z) (read queue : list Z) : Prop := {
  reading_once : NoDup (read ++ queue);
  reading_waits : forall y, y ∈ read ++ queue -> tc (waits p) from y;
  reading_first : forall y, waits p from y -> y ∈ read ++ queue;
  reading_next : forall x y, x ∈ read -> waits p x y -> y ∈ read ++ queue
}.

Lemma reading_bound p from read queue :
  reading p from read queue -> (length (read ++ queue) <= length (needs p))%nat.
Proof.
  intros [Hnd Hw _ _]. rewrite <- (length_fmap snd (needs p)). apply submseteq_length.
  apply NoDup_submseteq; [done|]. intros y Hy%Hw.
  assert (exists x, waits p x y) as [x Hx]
    by (clear -Hy; induction Hy as [x y Hxy|x z y Hxz _ IH]; [by exists x|exact IH]).
  apply list_elem_of_fmap. by exists (x, y).
Qed.

Lemma reading_step p from read id queue :
  reading p from read (id :: queue) ->
  let new := filter (fun need => need ∉ read ++ id :: queue) (remove_dups (needs_of p id)) in
  reading p from (read ++ [id]) (queue ++ new).
Proof.
  intros [Hnd Hw Hf Hn] new.
  assert (Enew : forall y, y ∈ new <-> y ∉ read ++ id :: queue /\ waits p id y).
  { intros y. unfold new. by rewrite list_elem_of_filter, elem_of_remove_dups, elem_of_needs_of. }
  assert (E : (read ++ [id]) ++ queue ++ new = (read ++ id :: queue) ++ new)
    by (rewrite <- !app_assoc; simpl; done).
  split; rewrite ?E.
  - apply NoDup_app. split; [done|]. split; [|apply NoDup_filter, NoDup_remove_dups].
    intros y Hy Hin%Enew. naive_solver.
  - intros y [Hy|[_ Hy]%Enew]%elem_of_app; [auto|].
    eapply tc_r; [apply (Hw id)|exact Hy]. set_solver.
  - intros y Hy%Hf. set_solver.
  - intros x y [Hx| ->%list_elem_of_singleton]%elem_of_app Hy.
    + apply (Hn x y) in Hy; [|done]. set_solver.
    + destruct (decide (y ∈ read ++ id :: queue)); [set_solver|].
      apply elem_of_app. right. by apply Enew.
Qed.

Lemma recursive_closed p from fuel read queue :
  reading p from read queue -> (length (needs p) <= fuel + length read)%nat ->
  exists all, recursive fuel p (read ++ queue) queue = all /\ reading p from all [].
Proof.
  revert read queue. induction fuel as [|fuel IH]; intros read queue Hr Hfuel.
  - pose proof (reading_bound _ _ _ _ Hr) as Hb. rewrite length_app in Hb.
    destruct queue; [|simpl in *; lia]. rewrite app_nil_r. by exists read.
  - destruct queue as [|id queue]; [rewrite app_nil_r; by exists read|].
    cbn [recursive]. pose proof (reading_step _ _ _ _ _ Hr) as Hr'.
    destruct (IH _ _ Hr') as (all & E & Hall); [rewrite length_app; simpl; lia|].
    exists all. split; [|done]. rewrite <- E. f_equal. by rewrite <- !app_assoc.
Qed.

Lemma tc_head {A} (R : A -> A -> Prop) x y : tc R x y -> exists z, R x z /\ rtc R z y.
Proof. inversion 1; subst; eauto using rtc_refl, tc_rtc. Qed.

Lemma reading_all p from all y : reading p from all [] -> y ∈ all <-> tc (waits p) from y.
Proof.
  intros [_ Hw Hf Hn]. rewrite app_nil_r in *. split; [auto|].
  intros (z & Hz%Hf & Hy)%tc_head. revert Hz. induction Hy as [|x z' y Hxz _ IH]; [done|].
  intros Hx. eauto.
Qed.

(** A task is upstream of another where that waits for it, near or far. *)
Lemma upstream_spec p x y : upstream p x y = true <-> tc (waits p) x y.
Proof.
  unfold upstream. rewrite bool_decide_eq_true.
  assert (Hr : reading p x [] (remove_dups (needs_of p x))).
  { split; simpl; [apply NoDup_remove_dups|..].
    - intros y'. rewrite elem_of_remove_dups, elem_of_needs_of. by apply tc_once.
    - intros y'. by rewrite elem_of_remove_dups, elem_of_needs_of.
    - by intros x' y' ?%elem_of_nil. }
  destruct (recursive_closed p x (length (needs p)) [] _ Hr) as (all & E & Hall); [simpl; lia|].
  simpl in E. rewrite E. by apply reading_all.
Qed.

(** ** Circles *)

Definition acyclic {A} (R : A -> A -> Prop) : Prop := forall x, ~ tc R x x.

Lemma tc_mono {A} (R S : A -> A -> Prop) x y : (forall x y, R x y -> S x y) -> tc R x y -> tc S x y.
Proof. intros H. induction 1; eauto using tc_once, tc_l. Qed.

Lemma acyclic_mono {A} (R S : A -> A -> Prop) :
  (forall x y, R x y -> S x y) -> acyclic S -> acyclic R.
Proof. intros H HS x Hx. apply (HS x). by eapply tc_mono. Qed.

(** A link more makes no circle where the one it is to did not wait for the one it is from. *)
Lemma acyclic_link {A} (R S : A -> A -> Prop) a b :
  (forall x y, S x y -> R x y \/ (x = a /\ y = b)) -> a <> b -> ~ tc R b a -> acyclic R -> acyclic S.
Proof.
  intros HS Hne Hba HR.
  assert (H : forall x y, tc S x y -> tc R x y \/ (rtc R x a /\ rtc R b y)).
  { induction 1 as [x y Hxy%HS|x y z Hxy%HS _ IH].
    - destruct Hxy as [Hxy|[-> ->]]; eauto using tc_once, rtc_refl.
    - destruct Hxy as [Hxy|[-> ->]].
      + destruct IH as [IH|[IH1 IH2]]; eauto using tc_l, rtc_l.
      + right. destruct IH as [IH%tc_rtc|[_ IH]]; eauto using rtc_refl. }
  intros x [Hx|[H1 H2]]%H; [by apply (HR x)|].
  assert (Hrtc : rtc R b a) by by etransitivity.
  inversion Hrtc as [|? y ? Hby Hya]; subst; [done|]. apply Hba. eapply tc_rtc_r; [|exact Hya].
  by apply tc_once.
Qed.

(** ** Rows *)

Lemma find_Some {A} (f : A -> bool) xs x : find f xs = Some x -> x ∈ xs /\ f x = true.
Proof. intros [Hin%list_elem_of_In Hf]%List.find_some. done. Qed.

Lemma task_row_Some project n p t :
  task_row project n p = inl t -> t ∈ tasks p /\ t_project t = project /\ t_number t = n.
Proof.
  unfold task_row. destruct (find _ _) as [t'|] eqn:E; [|done]. intros [= <-].
  apply find_Some in E as [Hin [Ep%Z.eqb_eq En%Z.eqb_eq]%andb_true_iff]. done.
Qed.

Lemma task_by_id_Some p id t : task_by_id p id = Some t -> t ∈ tasks p /\ t_id t = id.
Proof. by intros [Hin E%Z.eqb_eq]%find_Some. Qed.

Lemma task_by_id_is_Some p id : is_Some (task_by_id p id) <-> id ∈ (t_id <$> tasks p).
Proof.
  rewrite list_elem_of_fmap. split.
  - intros [t [Hin <-]%task_by_id_Some]. eauto.
  - intros (t & -> & Hin). unfold task_by_id. destruct (find _ _) eqn:E; [done|].
    rewrite list_elem_of_In in Hin. eapply List.find_none in Hin; [|exact E]. simpl in Hin.
    by rewrite Z.eqb_refl in Hin.
Qed.

(** What a row is told apart by. *)
Definition key (t : task) : Z * Z * Z := (t_id t, t_project t, t_number t).

Lemma keys_ids p p' : key <$> tasks p' = key <$> tasks p -> t_id <$> tasks p' = t_id <$> tasks p.
Proof.
  intros E. apply (f_equal (fmap (fun k : Z * Z * Z => k.1.1))) in E. by rewrite <- !list_fmap_compose in E.
Qed.

Definition project_of (p : plan) (id : Z) : option Z := t_project <$> task_by_id p id.

Lemma keys_project p p' id : key <$> tasks p' = key <$> tasks p -> project_of p' id = project_of p id.
Proof.
  unfold project_of, task_by_id. generalize (tasks p). clear p. destruct p' as [ts' ls' seq']. simpl.
  clear ls' seq'. induction ts' as [|t' ts' IH]; intros [|t ts]; try done.
  rewrite !fmap_cons. intros [= Ei Ep En Ek]. cbn [find]. rewrite Ei. case_match; [by simpl; rewrite Ep|auto].
Qed.

Lemma task_by_id_unique p t :
  NoDup (t_id <$> tasks p) -> t ∈ tasks p -> task_by_id p (t_id t) = Some t.
Proof.
  intros Hnd Hin. assert (is_Some (task_by_id p (t_id t))) as [t' Et'].
  { apply task_by_id_is_Some, list_elem_of_fmap. eauto. }
  rewrite Et'. f_equal. apply task_by_id_Some in Et' as [Hin' E].
  apply list_elem_of_lookup in Hin as [i Hi], Hin' as [j Hj].
  assert (i = j) as ->; [|congruence]. eapply NoDup_lookup; [exact Hnd|..]; rewrite list_lookup_fmap.
  - by rewrite Hi.
  - rewrite Hj. simpl. by rewrite E.
Qed.

Record plan_ok (p : plan) : Prop := {
  ids_once : NoDup (t_id <$> tasks p);
  ids_past : forall id, id ∈ (t_id <$> tasks p) -> id <= sequence p;
  numbers_once : NoDup ((fun t => (t_project t, t_number t)) <$> tasks p);
  links_once : NoDup (needs p);
  links_tasks : forall x y, waits p x y -> x ∈ (t_id <$> tasks p) /\ y ∈ (t_id <$> tasks p);
  links_project : forall x y, waits p x y -> project_of p x = project_of p y;
  no_circles : acyclic (waits p)
}.

(** The same rows, whatever is in them, and no link more. *)
Record fewer (p p' : plan) : Prop := {
  fewer_keys : key <$> tasks p' = key <$> tasks p;
  fewer_links : sublist (needs p') (needs p);
  fewer_sequence : sequence p' = sequence p
}.

Lemma fewer_refl p : fewer p p.
Proof. done. Qed.

Lemma fewer_trans p1 p2 p3 : fewer p1 p2 -> fewer p2 p3 -> fewer p1 p3.
Proof. intros [] []. split; [congruence|by etransitivity|congruence]. Qed.

Lemma fewer_ok p p' : fewer p p' -> plan_ok p -> plan_ok p'.
Proof.
  intros [Ek Hl Es] [H1 H2 H3 H4 H5 H6 H7]. pose proof (keys_ids _ _ Ek) as Ei.
  assert (Hw : forall x y, waits p' x y -> waits p x y).
  { intros x y Hin. by eapply elem_of_submseteq, sublist_submseteq. }
  split.
  - by rewrite Ei.
  - by rewrite Ei, Es.
  - apply (f_equal (fmap (fun k : Z * Z * Z => (k.1.2, k.2)))) in Ek.
    rewrite <- !list_fmap_compose in Ek. unfold compose in Ek. simpl in Ek. by rewrite Ek.
  - by eapply sublist_NoDup.
  - intros x y Hxy%Hw. rewrite Ei. auto.
  - intros x y Hxy%Hw. rewrite !(keys_project p p') by done. auto.
  - by eapply acyclic_mono.
Qed.

Lemma update_fewer id f p : (forall t, key (f t) = key t) -> fewer p (update id f p).
Proof.
  intros Hf. split; [|done..]. simpl. rewrite <- list_fmap_compose. apply list_fmap_ext.
  intros i t _. simpl. destruct (t_id t =? id); [apply Hf|done].
Qed.

Lemma unlink_fewer x y p : fewer p (unlink x y p).
Proof. split; [done| |done]. apply sublist_filter. Qed.

Lemma release_one_fewer staff p tw : fewer p (release_one staff p tw).
Proof.
  destruct tw as [t w]. unfold release_one.
  destruct (unreachable staff w); [by apply update_fewer|]. destruct (busy staff w p); [done|by apply update_fewer].
Qed.

Lemma release_ready_fewer staff project p : fewer p (release_ready staff project p).
Proof.
  unfold release_ready. generalize (waiting project p). intros l. revert p.
  induction l as [|tw l IH]; intros p; [done|]. eapply fewer_trans; [apply release_one_fewer|apply IH].
Qed.

(** ** Links *)

(** The rows as they were, and one link more. *)
Definition links (x y : Z) (p p' : plan) : Prop :=
  tasks p' = tasks p /\ sequence p' = sequence p /\
  forall a b, waits p' a b <-> waits p a b \/ (a = x /\ b = y).

Lemma link_ok x y p p' :
  link x y p = inl p' -> project_of p x = project_of p y -> ~ tc (waits p) y x -> plan_ok p ->
  plan_ok p' /\ x <> y /\ links x y p p'.
Proof.
  unfold link. intros E Hpr Hc [H1 H2 H3 H4 H5 H6 H7].
  destruct (Z.eqb_spec x y) as [|Hne]; [done|]. simpl in E.
  destruct (bool_decide ((x, y) ∈ needs p)) eqn:Ein; [done|]. apply bool_decide_eq_false in Ein. simpl in E.
  destruct (bool_decide (is_Some (task_by_id p x))) eqn:Ex; [|done].
  destruct (bool_decide (is_Some (task_by_id p y))) eqn:Ey; [|done]. simpl in E. injection E as <-.
  apply bool_decide_eq_true, task_by_id_is_Some in Ex, Ey.
  assert (Hl : forall a b, waits (Plan (tasks p) (needs p ++ [(x, y)]) (sequence p)) a b <->
                           waits p a b \/ (a = x /\ b = y)).
  { intros a b. unfold waits. simpl. rewrite elem_of_app, list_elem_of_singleton. naive_solver. }
  split; [|done]. split; simpl; try done.
  - apply NoDup_app. split; [done|]. split; [|apply NoDup_singleton].
    intros l Hin ->%list_elem_of_singleton. done.
  - intros a b [Hab|[-> ->]]%Hl; auto.
  - intros a b [Hab|[-> ->]]%Hl; [by apply H6|done].
  - eapply acyclic_link; [|exact Hne|exact Hc|exact H7]. intros a b. apply Hl.
Qed.

Lemma each_inv {A} (P : plan -> Prop) (f : A -> plan -> plan + Refused) xs p p' :
  (forall x p p', P p -> f x p = inl p' -> P p') -> P p -> each f xs p = inl p' -> P p'.
Proof.
  intros Hf. revert p. induction xs as [|x xs IH]; intros p Hp E; [by injection E as <-|].
  cbn [each] in E. destruct (f x p) as [q|] eqn:Ef; [|done]. eauto.
Qed.

(** The task of a number, by its id. *)
Definition named (project n : Z) (p : plan) (id : Z) : Prop :=
  exists t, task_row project n p = inl t /\ t_id t = id.

Lemma named_tasks project n p p' id : tasks p' = tasks p -> named project n p' id <-> named project n p id.
Proof. intros E. unfold named, task_row. by rewrite E. Qed.

Lemma named_project project n p id : plan_ok p -> named project n p id -> project_of p id = Some project.
Proof.
  intros Hp (t & (Hin & Epr & _)%task_row_Some & <-). unfold project_of.
  rewrite task_by_id_unique by (done || apply Hp). simpl. by rewrite Epr.
Qed.

Lemma may_be_needed_inl t u : may_be_needed t = inl u -> t_state t <> Cancelled.
Proof. unfold may_be_needed. by case_decide. Qed.

Lemma upstream_false p x y : upstream p x y = false -> ~ tc (waits p) x y.
Proof. intros E H%upstream_spec. congruence. Qed.

(** *** A new task's *)

(** [id] is a task of the project that nothing waits for. *)
Definition nobody_waits (project id : Z) (p : plan) : Prop :=
  plan_ok p /\ project_of p id = Some project /\ forall x, ~ waits p x id.

Lemma tc_last {A} (R : A -> A -> Prop) x y : tc R x y -> exists z, R z y.
Proof. induction 1; eauto. Qed.

Lemma links_project_of x y p p' id : links x y p p' -> project_of p' id = project_of p id.
Proof. intros [E _]. apply keys_project. by rewrite E. Qed.

Lemma need_of_new_ok project id n p p' :
  nobody_waits project id p -> need_of_new project id n p = inl p' -> nobody_waits project id p'.
Proof.
  intros (Hp & Hpr & Hno) E. unfold need_of_new in E.
  destruct (task_row project n p) as [need|] eqn:En; [|done].
  destruct (may_be_needed need); [|done].
  assert (Hn : project_of p (t_id need) = Some project) by (eapply named_project; [done|by eexists]).
  apply link_ok in E as (Hp' & Hne & Hl); [|congruence| |done].
  - split; [done|]. split; [by rewrite (links_project_of _ _ _ _ _ Hl)|].
    intros x [Hx|[-> E]]%Hl; [by apply (Hno x)|done].
  - intros [z Hz]%tc_last. by apply (Hno z).
Qed.

Definition in_project (project id : Z) (p : plan) : Prop := plan_ok p /\ project_of p id = Some project.

Lemma waiter_of_new_ok project id next n p p' :
  in_project project id p -> waiter_of_new project id next n p = inl p' -> in_project project id p'.
Proof.
  intros (Hp & Hpr) E. unfold waiter_of_new in E.
  destruct (task_row project n p) as [t|] eqn:En; [|done]. case_decide; [done|].
  destruct (upstream p id (t_id t)) eqn:Eu; [done|]. apply upstream_false in Eu.
  assert (Hn : project_of p (t_id t) = Some project) by (eapply named_project; [done|by eexists]).
  apply link_ok in E as (Hp' & _ & Hl); [|congruence|done|done].
  split; [done|]. by rewrite (links_project_of _ _ _ _ _ Hl).
Qed.

Lemma greatest_in n ns : n ∈ ns -> n <= greatest ns.
Proof. unfold greatest. induction 1; simpl; lia. Qed.

(** The table with a row more, whose number is the project's next. *)
Lemma new_row_ok project state assignee pool p :
  plan_ok p ->
  let id := sequence p + 1 in
  let row := Task id project (next_number project p) state assignee pool false in
  nobody_waits project id (Plan (tasks p ++ [row]) (needs p) id).
Proof.
  intros Hp id row. pose proof Hp as [H1 H2 H3 H4 H5 H6 H7].
  assert (Hnew : id ∉ (t_id <$> tasks p)) by (intros ?%H2; unfold id in *; lia).
  assert (Hold : forall x, x ∈ (t_id <$> tasks p) ->
    project_of (Plan (tasks p ++ [row]) (needs p) id) x = project_of p x).
  { intros x [t Et]%task_by_id_is_Some. unfold project_of, task_by_id in *. simpl.
    rewrite Et. revert Et. clear. induction (tasks p) as [|t' ts IH]; [done|]. simpl. destruct (t_id t' =? x); [by intros [= ->]|auto]. }
  split; [|split].
  - split; simpl; rewrite ?fmap_app.
    + apply NoDup_app. split; [done|]. split; [|apply NoDup_singleton].
      intros x Hx ->%list_elem_of_singleton. done.
    + intros x [Hx%H2| ->%list_elem_of_singleton]%elem_of_app; subst id; simpl; lia.
    + apply NoDup_app. split; [done|]. split; [|apply NoDup_singleton].
      intros x (t & -> & Hin)%list_elem_of_fmap [= Epr En]%list_elem_of_singleton.
      assert (t_number t <= greatest (t_number <$> filter (fun t => t_project t = project) (tasks p))).
      { apply greatest_in, list_elem_of_fmap. exists t. split; [done|]. by apply list_elem_of_filter. }
      unfold next_number in En. lia.
    + done.
    + intros x y [Hx Hy]%H5. split; apply elem_of_app; auto.
    + intros x y Hxy. destruct (H5 x y Hxy). rewrite !Hold by done. by apply H6.
    + done.
  - unfold project_of. replace id with (t_id row) by done. rewrite task_by_id_unique; [done|..]; simpl.
    + rewrite fmap_app. apply NoDup_app. split; [done|]. split; [|apply NoDup_singleton].
      intros x Hx ->%list_elem_of_singleton. done.
    + apply elem_of_app. right. by apply list_elem_of_singleton.
  - intros x [_ Hy]%H5. done.
Qed.

Lemma create_task_ok project assignee behind pool asked before p p' :
  plan_ok p -> create_task project assignee behind pool asked before p = inl p' -> plan_ok p'.
Proof.
  intros Hp E. unfold create_task in E.
  destruct (distinct asked) as [needed|]; [|done]. destruct (distinct before) as [blocking|]; [|done].
  destruct (match assignee with Some _ => _ | None => _ end) as [is_blocked|]; [|done].
  destruct (each (need_of_new _ _) _ _) as [q|] eqn:Eq; [|done].
  apply (each_inv (nobody_waits project (sequence p + 1))) in Eq as (Hq & Hpr & _);
    [|intros *; apply need_of_new_ok|by apply new_row_ok].
  apply (each_inv (in_project project (sequence p + 1))) in E as [Hp' _]; [done| |done].
  intros *. apply waiter_of_new_ok.
Qed.

(** *** A task's that is there *)

Lemma add_need_ok project t n p p' :
  in_project project (t_id t) p -> add_need project t n p = inl p' ->
  in_project project (t_id t) p' /\
  exists id, named project n p id /\ links (t_id t) id p p'.
Proof.
  intros (Hp & Hpr) E. unfold add_need in E. destruct (task_row project n p) as [need|] eqn:En; [|done].
  assert (Hn : project_of p (t_id need) = Some project) by (eapply named_project; [done|by eexists]).
  destruct (_ || _) eqn:Eu; [done|]. apply orb_false_iff in Eu as [_ Eu%upstream_false].
  destruct (may_be_needed need); [|done].
  apply link_ok in E as (Hp' & _ & Hl); [|congruence|done|done].
  split; [split; [done|by rewrite (links_project_of _ _ _ _ _ Hl)]|]. exists (t_id need).
  split; [by exists need|done].
Qed.

Lemma add_waiter_ok project t n p p' :
  in_project project (t_id t) p -> add_waiter project t n p = inl p' ->
  in_project project (t_id t) p' /\
  exists id, named project n p id /\ links id (t_id t) p p'.
Proof.
  intros (Hp & Hpr) E. unfold add_waiter in E. destruct (task_row project n p) as [w|] eqn:En; [|done].
  assert (Hn : project_of p (t_id w) = Some project) by (eapply named_project; [done|by eexists]).
  destruct (_ || _) eqn:Eu; [done|]. apply orb_false_iff in Eu as [_ Eu%upstream_false].
  case_decide; [done|].
  apply link_ok in E as (Hp' & _ & Hl); [|congruence|done|done].
  split; [split; [done|by rewrite (links_project_of _ _ _ _ _ Hl)]|]. exists (t_id w).
  split; [by exists w|done].
Qed.

(** The rows as they were, and links fewer. *)
Definition unlinks (x y : Z) (p p' : plan) : Prop :=
  tasks p' = tasks p /\ sequence p' = sequence p /\
  forall a b, waits p' a b <-> waits p a b /\ ~ (a = x /\ b = y).

Lemma unlink_unlinks x y p : unlinks x y p (unlink x y p).
Proof.
  split; [done|]. split; [done|]. intros a b. unfold waits. simpl. rewrite list_elem_of_filter.
  split; intros [H1 H2]; split; try done; naive_solver.
Qed.

Lemma drop_ok project id p p' :
  in_project project id p -> fewer p p' -> in_project project id p'.
Proof.
  intros (Hp & Hpr) Hf. split; [by eapply fewer_ok|]. by rewrite (keys_project p) by apply Hf.
Qed.

Lemma drop_need_ok project id n p p' :
  in_project project id p -> drop_need project id n p = inl p' ->
  in_project project id p' /\ exists y, named project n p y /\ unlinks id y p p'.
Proof.
  intros Hp E. unfold drop_need in E. destruct (task_row project n p) as [t|] eqn:En; [|done].
  injection E as <-. split; [eapply drop_ok; [done|apply unlink_fewer]|].
  exists (t_id t). split; [by exists t|apply unlink_unlinks].
Qed.

Lemma drop_waiter_ok project id n p p' :
  in_project project id p -> drop_waiter project id n p = inl p' ->
  in_project project id p' /\ exists y, named project n p y /\ unlinks y id p p'.
Proof.
  intros Hp E. unfold drop_waiter in E. destruct (task_row project n p) as [t|] eqn:En; [|done].
  injection E as <-. split; [eapply drop_ok; [done|apply unlink_fewer]|].
  exists (t_id t). split; [by exists t|apply unlink_unlinks].
Qed.

Lemma relinked_ok project t en eb p p' :
  in_project project (t_id t) p -> relinked project t en eb p = inl p' -> in_project project (t_id t) p'.
Proof.
  intros Hp E. unfold relinked in E.
  destruct (each (drop_need _ _) _ p) as [p1|] eqn:E1; [|done].
  destruct (each (drop_waiter _ _) _ p1) as [p2|] eqn:E2; [|done].
  destruct (each (add_need _ _) _ p2) as [p3|] eqn:E3; [|done].
  apply (each_inv (in_project project (t_id t))) in E1; [|by intros * ? []%drop_need_ok|done].
  apply (each_inv (in_project project (t_id t))) in E2; [|by intros * ? []%drop_waiter_ok|done].
  apply (each_inv (in_project project (t_id t))) in E3; [|by intros * ? []%add_need_ok|done].
  apply (each_inv (in_project project (t_id t))) in E; [done|by intros * ? []%add_waiter_ok|done].
Qed.

Lemma to_the_board_fewer staff project t p : fewer p (to_the_board staff project t p).
Proof. eapply fewer_trans; [by apply (update_fewer (t_id t) put_back)|apply release_ready_fewer]. Qed.

Lemma relink_ok staff project n en eb p p' :
  plan_ok p -> relink staff project n en eb p = inl p' -> plan_ok p'.
Proof.
  intros Hp E. unfold relink in E. destruct (task_row project n p) as [t|] eqn:En; [|done].
  destruct (relinked project t en eb p) as [p1|] eqn:E1; [|done].
  apply relinked_ok in E1 as [Hp1 _]; [|split; [done|]; eapply named_project; [done|by eexists]].
  assert (H2 : exists p2, fewer p1 p2 /\ p' = release_ready staff project p2).
  { destruct (_ && _); [destruct (_ || _); [done|]|]; injection E as <-;
      [exists (to_the_board staff project t p1)|exists p1]; split; try done. apply to_the_board_fewer. }
  destruct H2 as (p2 & Hf & ->). eapply fewer_ok; [apply release_ready_fewer|]. by eapply fewer_ok.
Qed.

Lemma delete_one_fewer project n p p' : delete_one project n p = inl p' -> fewer p p'.
Proof.
  unfold delete_one. intros E. repeat case_match; try done. injection E as <-. by apply update_fewer.
Qed.

Lemma remove_project_ok project p : plan_ok p -> plan_ok (remove_project project p).
Proof.
  intros [H1 H2 H3 H4 H5 H6 H7]. unfold remove_project.
  set (gone := t_id <$> filter (fun t => t_project t = project) (tasks p)).
  assert (Hsub : forall {A} (f : task -> A), sublist (f <$> filter (fun t => t_project t <> project) (tasks p)) (f <$> tasks p)).
  { intros A f. apply fmap_sublist, sublist_filter. }
  assert (Hin : forall id, id ∈ (t_id <$> filter (fun t => t_project t <> project) (tasks p)) <->
                           id ∈ (t_id <$> tasks p) /\ id ∉ gone).
  { intros id. unfold gone. rewrite !list_elem_of_fmap. setoid_rewrite list_elem_of_filter. split.
    - intros (t & -> & Ht & Hin). split; [eauto|]. intros (t' & E & Hpr & Hin').
      assert (t' = t) as ->; [|done].
      pose proof (task_by_id_unique p t H1 Hin). pose proof (task_by_id_unique p t' H1 Hin'). congruence.
    - intros [(t & -> & Hin) Hn]. exists t. split_and!; [done| |done]. intros Hpr. apply Hn. eauto. }
  assert (Hw : forall x y, waits (remove_project project p) x y <-> waits p x y /\ x ∉ gone /\ y ∉ gone).
  { intros x y. unfold waits, remove_project. simpl. rewrite list_elem_of_filter. simpl. naive_solver. }
  split; simpl.
  - eapply sublist_NoDup; [exact H1|apply Hsub].
  - intros id [Hid _]%Hin. auto.
  - eapply sublist_NoDup; [exact H3|apply (Hsub _ (fun t => (t_project t, t_number t)))].
  - by apply NoDup_filter.
  - intros x y (Hxy & Hx & Hy)%Hw. rewrite !Hin. destruct (H5 x y Hxy). done.
  - assert (Hpr : forall id, id ∈ (t_id <$> tasks p) -> id ∉ gone ->
      project_of (remove_project project p) id = project_of p id).
    { intros id [t Et]%task_by_id_is_Some Hid. unfold project_of. rewrite Et.
      apply task_by_id_Some in Et as [Ht <-]. rewrite task_by_id_unique; [done|..]; simpl.
      - eapply sublist_NoDup; [exact H1|apply Hsub].
      - apply list_elem_of_filter. split; [|done]. intros Ep. apply Hid.
        apply list_elem_of_fmap. exists t. split; [done|]. by apply list_elem_of_filter. }
    intros x y (Hxy & Hx & Hy)%Hw. destruct (H5 x y Hxy). rewrite !Hpr by done. auto.
  - eapply acyclic_mono; [|exact H7]. by intros x y [Hxy _]%Hw.
Qed.

Lemma step_plan_ok staff e p : plan_ok p -> plan_ok (step staff e p).
Proof.
  intros Hp. destruct e as [project assignee behind pool asked before|project n en eb|project|project ns
    |id state assignee|project]; cbn [step].
  - destruct (create_task _ _ _ _ _ _ p) as [p'|] eqn:E; [|done]. by eapply create_task_ok.
  - destruct (relink _ _ _ _ _ p) as [p'|] eqn:E; [|done]. by eapply relink_ok.
  - eapply fewer_ok; [apply release_ready_fewer|done].
  - destruct (delete_tasks project ns p) as [p'|] eqn:E; [|done]. simpl. unfold delete_tasks in E.
    eapply each_inv; [|exact Hp|exact E]. intros *. intros Hx E'.
    eapply fewer_ok; [|exact Hx]. by eapply delete_one_fewer.
  - eapply fewer_ok; [by apply update_fewer|done].
  - by apply remove_project_ok.
Qed.

Lemma steps_plan_ok staff es p : plan_ok p -> plan_ok (fold_left (fun p e => step staff e p) es p).
Proof. revert p. induction es as [|e es IH]; intros p Hp; [done|]. by apply IH, step_plan_ok. Qed.

Lemma reached_plan_ok staff p : reached staff p -> plan_ok p.
Proof.
  intros [es ->]. apply steps_plan_ok. split; simpl; [apply NoDup_nil_2| |apply NoDup_nil_2..| | |].
  - by intros id ?%elem_of_nil.
  - by intros x y ?%elem_of_nil.
  - by intros x y ?%elem_of_nil.
  - intros x (z & Hz)%tc_last. by apply elem_of_nil in Hz.
Qed.
