(* ===== verification/TaskPlanRules.v ===== *)
(** * What the plan of a project promises

    The theorems of [TaskPlan]: there are no circles in it, so some task can always go on; a task
    given and a task's links changed wait for what was asked and nothing else changes; and what
    waits goes to its window as soon as it may, one task to a session. *)
From S2P Require Import Prelude TaskPlan.
From stdpp Require Import sorting relations.
#[local] Open Scope Z_scope.

(** ** Circles *)

(** C11: whatever is given, linked, moved, deleted and let go, no task of a plan waits for itself,
    near or far, and a task waits only for tasks of its own project. *)
Theorem plan_has_no_circles staff p :
  reached staff p -> (forall x, ~ tc (waits p) x x) /\
  (forall x y, waits p x y -> project_of p x = project_of p y /\ is_Some (project_of p x)).
Proof.
  intros Hp%reached_plan_ok. split; [apply Hp|]. intros x y Hxy. split; [by apply Hp|].
  destruct (links_tasks _ Hp _ _ Hxy) as [[t Et]%task_by_id_is_Some _].
  unfold project_of. rewrite Et. by eexists.
Qed.

Lemma waits_finite p x : pred_finite (tc (waits p) x).
Proof.
  exists (snd <$> needs p). intros y Hy.
  assert (exists z, waits p z y) as [z Hz] by (by eapply tc_last).
  apply list_elem_of_fmap. by exists (z, y).
Qed.

Lemma waits_ends p x : plan_ok p -> sn (waits p) x.
Proof. intros Hp. apply tc_finite_sn; [intros y; apply Hp|apply waits_finite]. Qed.

Lemma blocked_true p x :
  blocked p x = true <->
  exists y t, waits p x y /\ task_by_id p y = Some t /\ t_state t <> Accepted.
Proof.
  unfold blocked. rewrite existsb_exists. split.
  - intros (y & Hy%list_elem_of_In%elem_of_needs_of & Et). destruct (task_by_id p y) as [t|] eqn:E; [|done].
    exists y, t. split_and!; [done|done|]. by apply negb_true_iff, bool_decide_eq_false in Et.
  - intros (y & t & Hy & Et & Hs). exists y. rewrite <- list_elem_of_In, elem_of_needs_of, Et.
    split; [done|]. by apply negb_true_iff, bool_decide_eq_false.
Qed.

(** A task that is not accepted waits, near or far, for one that is not accepted and waits for
    nothing, or it is one: a plan never stands still of itself. *)
Theorem some_task_can_go_on staff p t :
  reached staff p -> t ∈ tasks p -> t_state t <> Accepted ->
  exists u, u ∈ tasks p /\ rtc (waits p) (t_id t) (t_id u) /\ t_state u <> Accepted /\
    blocked p (t_id u) = false.
Proof.
  intros Hp%reached_plan_ok. pose proof (waits_ends p (t_id t) Hp) as Hsn. remember (t_id t) as x eqn:Ex.
  revert t Ex. induction Hsn as [x _ IH]. intros t -> Ht Hs.
  destruct (blocked p (t_id t)) eqn:Eb; [|by exists t].
  apply blocked_true in Eb as (y & d & Hy & Ed & Hd). apply task_by_id_Some in Ed as [Hin Eid].
  destruct (IH y Hy d (eq_sym Eid) Hin Hd) as (u & Hu & Hr & Hsu & Hbu).
  exists u. split_and!; [done| |done..]. by eapply rtc_l.
Qed.

(** ** Numbers and ids *)

Lemma named_inj project p n n' id :
  plan_ok p -> named project n p id -> named project n' p id -> n = n'.
Proof.
  intros Hp (t & (Hin & _ & <-)%task_row_Some & <-) (t' & (Hin' & _ & <-)%task_row_Some & E).
  pose proof (task_by_id_unique p t (ids_once _ Hp) Hin).
  pose proof (task_by_id_unique p t' (ids_once _ Hp) Hin'). congruence.
Qed.

Lemma named_fun project p n id id' : named project n p id -> named project n p id' -> id = id'.
Proof. intros (t & E & <-) (t' & E' & <-). congruence. Qed.

Lemma named_row project p t :
  plan_ok p -> t ∈ tasks p -> t_project t = project -> named project (t_number t) p (t_id t).
Proof.
  intros Hp Hin Epr. unfold named, task_row. destruct (find _ (tasks p)) as [t'|] eqn:E.
  - exists t'. split; [done|]. apply find_Some in E as [Hin' [E1%Z.eqb_eq E2%Z.eqb_eq]%andb_true_iff].
    f_equal. apply list_elem_of_lookup in Hin as [i Hi], Hin' as [j Hj].
    assert (i = j) as ->; [|congruence].
    eapply NoDup_lookup; [apply (numbers_once _ Hp)|..]; rewrite list_lookup_fmap; [by rewrite Hi|].
    rewrite Hj. simpl. congruence.
  - rewrite list_elem_of_In in Hin. eapply List.find_none in Hin; [|exact E]. simpl in Hin.
    by rewrite Epr, !Z.eqb_refl in Hin.
Qed.

Lemma numbers_of_named project p ids n :
  plan_ok p -> (forall id, id ∈ ids -> project_of p id = Some project) ->
  n ∈ numbers_of p ids <-> exists id, id ∈ ids /\ named project n p id.
Proof.
  intros Hp Hids. unfold numbers_of. rewrite merge_sort_Permutation, list_elem_of_fmap. split.
  - intros (t & -> & (id & Hid & Et)%list_elem_of_omap). exists id. split; [done|].
    specialize (Hids id Hid). unfold project_of in Hids. rewrite Et in Hids. injection Hids as Epr.
    apply task_by_id_Some in Et as [Hin <-]. by apply named_row.
  - intros (id & Hid & t & (Hin & Epr & <-)%task_row_Some & <-). exists t. split; [done|].
    apply list_elem_of_omap. exists (t_id t). split; [done|]. apply task_by_id_unique; [apply Hp|done].
Qed.

Lemma needs_numbers_named project p id n :
  in_project project id p ->
  n ∈ needs_numbers p id <-> exists y, waits p id y /\ named project n p y.
Proof.
  intros [Hp Hpr]. unfold needs_numbers. rewrite (numbers_of_named project) by
    (done || (intros y Hy%elem_of_needs_of; by rewrite <- (links_project _ Hp _ _ Hy))).
  by setoid_rewrite elem_of_needs_of.
Qed.

Lemma elem_of_waiters p id x :
  x ∈ (fst <$> filter (fun link : Z * Z => link.2 = id) (needs p)) <-> waits p x id.
Proof.
  unfold waits. rewrite list_elem_of_fmap. split.
  - intros ([x' y'] & -> & [E Hin]%list_elem_of_filter). simpl in E. by subst y'.
  - intros Hin. exists (x, id). split; [done|]. by apply list_elem_of_filter.
Qed.

Lemma waiter_numbers_named project p id n :
  in_project project id p ->
  n ∈ waiter_numbers p id <-> exists x, waits p x id /\ named project n p x.
Proof.
  intros [Hp Hpr]. unfold waiter_numbers. rewrite (numbers_of_named project) by
    (done || (intros x Hx%elem_of_waiters; by rewrite (links_project _ Hp _ _ Hx))).
  by setoid_rewrite elem_of_waiters.
Qed.

(** ** Links one after another *)

Section Each.
Context (project : Z) (f : Z -> plan -> plan + Refused) (end_ : Z -> Z * Z) (P : plan -> Prop).

(** Each number's link is put. *)
Lemma each_links ns p p' :
  (forall n p p', P p -> f n p = inl p' ->
     P p' /\ exists id, named project n p id /\ links (end_ id).1 (end_ id).2 p p') ->
  P p -> each f ns p = inl p' ->
  P p' /\ tasks p' = tasks p /\ (forall n, n ∈ ns -> exists id, named project n p id) /\
  forall a b, waits p' a b <->
    waits p a b \/ exists n id, n ∈ ns /\ named project n p id /\ (a, b) = end_ id.
Proof.
  intros Hf. revert p. induction ns as [|n ns IH]; intros p Hp E.
  - injection E as <-. split_and!; try done; [by intros n ?%elem_of_nil|].
    intros a b. split; [by left|]. intros [?|(n & id & ?%elem_of_nil & _)]; done.
  - cbn [each] in E. destruct (f n p) as [q|] eqn:Eq; [|done].
    destruct (Hf n p q Hp Eq) as (Hq & id & Hn & Eqt & _ & Hl).
    destruct (IH q Hq E) as (Hp' & Et & Hns & Hw).
    assert (Hnm : forall m i, named project m q i <-> named project m p i)
      by (intros m i; by apply named_tasks).
    split_and!; [done|congruence|..].
    + intros m [->|Hm]%elem_of_cons; [by exists id|]. destruct (Hns m Hm) as [i Hi%Hnm]. by exists i.
    + intros a b. rewrite Hw, Hl. setoid_rewrite Hnm. setoid_rewrite elem_of_cons.
      split.
      * intros [[?|[-> ->]]|(m & i & ? & ? & ?)]; [by left| |right; naive_solver].
        right. exists n, id. split_and!; [by left|done|by destruct (end_ id)].
      * intros [?|(m & i & [->|?] & Hi & Ei)]; [by left; left| |right; naive_solver].
        left. right. rewrite (named_fun _ _ _ _ _ Hi Hn) in Ei. by rewrite <- Ei.
Qed.

(** Each number's link is taken away. *)
Lemma each_unlinks ns p p' :
  (forall n p p', P p -> f n p = inl p' ->
     P p' /\ exists id, named project n p id /\ unlinks (end_ id).1 (end_ id).2 p p') ->
  P p -> each f ns p = inl p' ->
  P p' /\ tasks p' = tasks p /\
  forall a b, waits p' a b <->
    waits p a b /\ ~ exists n id, n ∈ ns /\ named project n p id /\ (a, b) = end_ id.
Proof.
  intros Hf. revert p. induction ns as [|n ns IH]; intros p Hp E.
  - injection E as <-. split_and!; try done. intros a b. split; [|by intros []].
    intros ?. split; [done|]. by intros (n & id & ?%elem_of_nil & _).
  - cbn [each] in E. destruct (f n p) as [q|] eqn:Eq; [|done].
    destruct (Hf n p q Hp Eq) as (Hq & id & Hn & Eqt & _ & Hl).
    destruct (IH q Hq E) as (Hp' & Et & Hw). split_and!; [done|congruence|].
    intros a b. rewrite Hw, Hl. setoid_rewrite (named_tasks _ _ _ _ _ Eqt). setoid_rewrite elem_of_cons.
    split.
    + intros [[Hab Hne] Hno]. split; [done|]. intros (m & i & [->|?] & Hi & Ei); [|naive_solver].
      apply Hne. rewrite (named_fun _ _ _ _ _ Hi Hn) in Ei. by rewrite <- Ei.
    + intros [Hab Hno]. split; [split; [done|]|naive_solver]. intros [-> ->]. apply Hno.
      exists n, id. split_and!; [by left|done|by destruct (end_ id)].
Qed.
End Each.

(** ** Lists as they were asked for *)

Lemma elem_of_dedup ns n : n ∈ dedup ns <-> n ∈ ns.
Proof.
  induction ns as [|x ns IH]; [done|]. destruct ns as [|y ns]; [done|]. cbn [dedup].
  destruct (Z.eqb_spec x y) as [->|Hne].
  - rewrite IH, !elem_of_cons. naive_solver.
  - rewrite elem_of_cons, IH. by rewrite (elem_of_cons (y :: ns)).
Qed.

Lemma elem_of_sorted ns n : n ∈ sorted ns <-> n ∈ ns.
Proof. unfold sorted. by rewrite elem_of_dedup, merge_sort_Permutation. Qed.

(** [n] is to be linked, of those that are ([held]). *)
Definition asked (links : option Links) (held : list Z) (n : Z) : Prop :=
  match links with
  | None => n ∈ held
  | Some (SetTo set) => n ∈ set
  | Some (Change add remove) => n ∈ add \/ (n ∈ held /\ n ∉ remove)
  end.

Lemma wanted_asked links held n :
  asked links held n <->
  (n ∈ held /\ n ∉ dropped held (wanted links held)) \/ n ∈ added held (wanted links held).
Proof.
  assert (H : forall now, (n ∈ held /\ n ∉ dropped held (Some now)) \/ n ∈ added held (Some now) <-> n ∈ now).
  { intros now. simpl. rewrite !list_elem_of_filter. split.
    - intros [[Hh Hd]|[_ ?]]; [|done]. destruct (decide (n ∈ now)); [done|]. naive_solver.
    - intros Hn. destruct (decide (n ∈ held)); [left|by right]. split; [done|]. by intros []. }
  destruct links as [[set|add remove]|]; cbn [wanted asked].
  - by rewrite H, elem_of_sorted.
  - rewrite H, elem_of_sorted, list_elem_of_filter, elem_of_app.
    destruct (decide (n ∈ add)), (decide (n ∈ remove)); naive_solver.
  - simpl. split; [left|intros [[? _]|?%elem_of_nil]]; try done. split; [done|]. by intros ?%elem_of_nil.
Qed.

Lemma added_fresh links held n : n ∈ added held (wanted links held) -> n ∉ held.
Proof. unfold added. destruct (wanted links held); [|by intros ?%elem_of_nil]. by intros []%list_elem_of_filter. Qed.

Lemma dropped_held links held n : n ∈ dropped held (wanted links held) -> n ∈ held.
Proof. unfold dropped. destruct (wanted links held); [|by intros ?%elem_of_nil]. by intros []%list_elem_of_filter. Qed.

(** ** What a release leaves as it is *)

Lemma release_ready_needs staff project p : needs (release_ready staff project p) = needs p.
Proof.
  unfold release_ready. generalize (waiting project p). intros l. revert p.
  induction l as [|[t w] l IH]; intros p; [done|]. cbn [fold_left]. rewrite IH. unfold release_one.
  by repeat case_match.
Qed.

Lemma needs_waits p p' a b : needs p' = needs p -> waits p' a b <-> waits p a b.
Proof. intros E. unfold waits. by rewrite E. Qed.

Lemma named_keys project n p p' id :
  key <$> tasks p' = key <$> tasks p -> named project n p' id <-> named project n p id.
Proof.
  unfold named, task_row. generalize (tasks p) as ts. destruct p' as [ts' ls' seq']. simpl.
  clear. induction ts' as [|t' ts' IH]; intros [|t ts]; try done. rewrite !fmap_cons.
  intros [= Ei Ep En Ek]. cbn [find]. rewrite Ep, En.
  destruct ((t_project t =? project) && (t_number t =? n)); [|by apply IH].
  split; intros (u & [= <-] & <-); eauto.
Qed.

(** ** A task's links changed *)

Lemma relinked_links project t en eb p p' :
  in_project project (t_id t) p -> relinked project t en eb p = inl p' ->
  let held := needs_numbers p (t_id t) in
  let waiters := waiter_numbers p (t_id t) in
  in_project project (t_id t) p' /\ tasks p' = tasks p /\
  (forall n, n ∈ added held (wanted en held) \/ n ∈ added waiters (wanted eb waiters) ->
     exists id, named project n p id) /\
  forall a b, waits p' a b <->
    (((waits p a b /\
       ~ exists n id, n ∈ dropped held (wanted en held) /\ named project n p id /\ (a, b) = (t_id t, id)) /\
      ~ exists n id, n ∈ dropped waiters (wanted eb waiters) /\ named project n p id /\ (a, b) = (id, t_id t)) \/
     exists n id, n ∈ added held (wanted en held) /\ named project n p id /\ (a, b) = (t_id t, id)) \/
    exists n id, n ∈ added waiters (wanted eb waiters) /\ named project n p id /\ (a, b) = (id, t_id t).
Proof.
  intros Hp E held waiters. unfold relinked in E. fold held waiters in E.
  destruct (each (drop_need _ _) _ p) as [p1|] eqn:E1; [|done].
  destruct (each (drop_waiter _ _) _ p1) as [p2|] eqn:E2; [|done].
  destruct (each (add_need _ _) _ p2) as [p3|] eqn:E3; [|done].
  apply (each_unlinks project _ (fun id => (t_id t, id)) (in_project project (t_id t))) in E1
    as (H1 & T1 & W1); [|intros *; apply drop_need_ok|done].
  apply (each_unlinks project _ (fun id => (id, t_id t)) (in_project project (t_id t))) in E2
    as (H2 & T2 & W2); [|intros *; apply drop_waiter_ok|done].
  apply (each_links project _ (fun id => (t_id t, id)) (in_project project (t_id t))) in E3
    as (H3 & T3 & N3 & W3); [|intros *; apply add_need_ok|done].
  apply (each_links project _ (fun id => (id, t_id t)) (in_project project (t_id t))) in E
    as (H4 & T4 & N4 & W4); [|intros *; apply add_waiter_ok|done].
  assert (E2' : tasks p2 = tasks p) by congruence. assert (E3' : tasks p3 = tasks p) by congruence.
  split_and!; [done|congruence|..].
  - intros n [Hn|Hn]; [destruct (N3 n Hn) as [id Hid]|destruct (N4 n Hn) as [id Hid]]; exists id;
      by rewrite named_tasks in Hid.
  - intros a b. rewrite W4, W3, W2, W1. setoid_rewrite (named_tasks _ _ _ _ _ E3').
    setoid_rewrite (named_tasks _ _ _ _ _ E2'). by setoid_rewrite (named_tasks _ _ _ _ _ T1).
Qed.

Lemma no_self p x : plan_ok p -> ~ waits p x x.
Proof. intros Hp Hx%tc_once. by apply (no_circles _ Hp x). Qed.

(** The numbers a task is linked to, at one end of its links, by what became of them. *)
Lemma linked_numbers project p (l l' : Z -> Prop) links held n :
  plan_ok p -> (forall m, m ∈ held <-> exists id, l id /\ named project m p id) ->
  (forall m, m ∈ added held (wanted links held) -> exists id, named project m p id) ->
  (forall id, l' id <->
     (l id /\ ~ exists m, m ∈ dropped held (wanted links held) /\ named project m p id) \/
     exists m, m ∈ added held (wanted links held) /\ named project m p id) ->
  (exists id, l' id /\ named project n p id) <-> asked links held n.
Proof.
  intros Hp Hheld Hadd Hl'. rewrite wanted_asked. setoid_rewrite Hl'. split.
  - intros (id & [[Hl Hno]|(m & Hm & Hid)] & Hn).
    + left. split; [apply Hheld; eauto|]. eauto.
    + right. by rewrite (named_inj _ _ _ _ _ Hp Hn Hid).
  - intros [[Hh Hno]|Ha].
    + apply Hheld in Hh as (id & Hl & Hn). exists id. split; [|done]. left. split; [done|].
      intros (m & Hm & Hid). by rewrite (named_inj _ _ _ _ _ Hp Hn Hid) in Hno.
    + destruct (Hadd n Ha) as [id Hid]. exists id. split; [|done]. right. eauto.
Qed.

(** A task's links are changed to what was asked: it needs the tasks it needed or was given,
    but for those taken away, as a list that replaces them or as some more and some less; the
    tasks that wait for it likewise; and no other two tasks are linked or let go. *)
Theorem relink_links_what_is_asked staff project n edit_needs edit_before p p' :
  reached staff p -> relink staff project n edit_needs edit_before p = inl p' ->
  exists t, task_row project n p = inl t /\
    (forall m, m ∈ needs_numbers p' (t_id t) <-> asked edit_needs (needs_numbers p (t_id t)) m) /\
    (forall m, m ∈ waiter_numbers p' (t_id t) <-> asked edit_before (waiter_numbers p (t_id t)) m) /\
    forall x y, x <> t_id t -> y <> t_id t -> waits p' x y <-> waits p x y.
Proof.
  intros Hp%reached_plan_ok E. pose proof (relink_ok _ _ _ _ _ _ _ Hp E) as Hp'. unfold relink in E.
  destruct (task_row project n p) as [t|] eqn:En; [|done].
  destruct (relinked project t edit_needs edit_before p) as [p1|] eqn:E1; [|done].
  assert (Hpr : in_project project (t_id t) p) by (split; [done|]; eapply named_project; [done|by eexists]).
  apply relinked_links in E1 as ([Hp1 Hpr1] & T1 & N1 & W1); [|done].
  assert (H2 : needs p' = needs p1 /\ key <$> tasks p' = key <$> tasks p1).
  { assert (Hrel : forall q, needs (release_ready staff project q) = needs q /\
        key <$> tasks (release_ready staff project q) = key <$> tasks q)
      by (intros q; split; [apply release_ready_needs|apply release_ready_fewer]).
    destruct (_ && _); [destruct (_ || _); [done|]|]; injection E as <-; [|apply Hrel].
    destruct (Hrel (to_the_board staff project t p1)) as [-> ->].
    split; [unfold to_the_board; by rewrite release_ready_needs|apply to_the_board_fewer]. }
  destruct H2 as [Hneeds Hkeys].
  assert (Hin' : in_project project (t_id t) p')
    by (split; [done|]; by rewrite (keys_project p1)).
  assert (Hnm : forall m id, named project m p' id <-> named project m p id).
  { intros m id. rewrite (named_keys project m p1) by done. by apply named_tasks. }
  pose proof (no_self p' (t_id t) Hp') as Hself.
  assert (Hw : forall a b, waits p' a b <-> waits p1 a b) by (intros a b; by apply needs_waits).
  setoid_rewrite <- Hw in W1. exists t. split; [done|]. split; [|split].
  - intros m. rewrite (needs_numbers_named project) by done. setoid_rewrite Hnm.
    apply (linked_numbers _ _ (waits p (t_id t))); [done|intros k; by apply needs_numbers_named|auto|].
    intros id. destruct (decide (id = t_id t)) as [->|Hne].
    + split; [done|]. intros [[Hw1 _]|Ha]; [by apply (no_self p) in Hw1|].
      apply W1. left. right. naive_solver.
    + rewrite W1. naive_solver.
  - intros m. rewrite (waiter_numbers_named project) by done. setoid_rewrite Hnm.
    apply (linked_numbers _ _ (fun id => waits p id (t_id t)));
      [done|intros k; by apply waiter_numbers_named|auto|].
    intros id. destruct (decide (id = t_id t)) as [->|Hne].
    + split; [done|]. intros [[Hw1 _]|Ha]; [by apply (no_self p) in Hw1|].
      apply W1. right. naive_solver.
    + rewrite W1. naive_solver.
  - intros x y Hx Hy. rewrite W1. naive_solver.
Qed.

(** ** A task given *)

Lemma elem_of_once ns n : n ∈ once ns <-> n ∈ ns.
Proof.
  unfold once. assert (H : forall all, n ∈ fold_left (fun all n => if decide (n ∈ all) then all else all ++ [n]) ns all
                           <-> n ∈ all \/ n ∈ ns); [|rewrite H; set_solver].
  induction ns as [|x ns IH]; intros all; [set_solver|]. simpl. rewrite IH. case_decide; set_solver.
Qed.

Lemma distinct_inl ns ns' : distinct ns = inl ns' -> ns' = once ns.
Proof. unfold distinct. case_match; [by intros [= <-]|done]. Qed.

(** A task that is not accepted is among those read. *)
Lemma first_unaccepted_true project ns p b :
  first_unaccepted project ns p = inl b ->
  b = true <-> exists n t, n ∈ ns /\ task_row project n p = inl t /\ t_state t <> Accepted.
Proof.
  revert b. induction ns as [|n ns IH]; intros b E.
  - injection E as <-. split; [done|]. by intros (n & t & ?%elem_of_nil & _).
  - cbn [first_unaccepted] in E. destruct (task_row project n p) as [t|] eqn:En; [|done].
    setoid_rewrite elem_of_cons. case_decide as Hs.
    + rewrite (IH b E). split; [intros (m & u & ? & ?); eauto|].
      intros (m & u & [->|?] & Hu & Hus); [congruence|eauto].
    + injection E as <-. split; [|done]. intros _. exists n, t. auto.
Qed.

Lemma task_row_more project n p row ls seq t :
  task_row project n p = inl t -> task_row project n (Plan (tasks p ++ [row]) ls seq) = inl t.
Proof.
  unfold task_row. simpl. induction (tasks p) as [|u ts IH]; [done|]. simpl. by destruct (_ && _).
Qed.

Lemma first_unaccepted_named project ns p b row ls seq :
  first_unaccepted project ns p = inl b ->
  let q := Plan (tasks p ++ [row]) ls seq in
  b = true <-> exists n t, n ∈ ns /\ task_row project n q = inl t /\ t_state t <> Accepted.
Proof.
  intros E q. rewrite (first_unaccepted_true _ _ _ _ E). split.
  - intros (n & t & Hn & Et & Hs). exists n, t. split_and!; [done|by apply task_row_more|done].
  - intros (n & t & Hn & Et & Hs). destruct b; [by apply (first_unaccepted_true _ _ _ _ E)|]. exfalso.
    assert (Hall : forall m, m ∈ ns -> exists u, task_row project m p = inl u /\ t_state u = Accepted).
    { clear -E. induction ns as [|k ns IH]; [by intros m ?%elem_of_nil|].
      cbn [first_unaccepted] in E. destruct (task_row project k p) as [u|] eqn:Eu; [|done].
      case_decide; [|done]. intros m [->|Hm]%elem_of_cons; eauto. }
    destruct (Hall n Hn) as (u & Eu & Hu). apply (task_row_more _ _ _ row ls seq) in Eu.
    unfold q in Et. congruence.
Qed.

(** The links of [p'] are those of [p1] and a new task's, and no others. *)
Definition new_links (project id : Z) (needed blocking : list Z) (p1 p' : plan) : Prop :=
  forall a b, waits p' a b <->
    (waits p1 a b \/ exists n y, n ∈ needed /\ named project n p1 y /\ (a, b) = (id, y)) \/
    exists n x, n ∈ blocking /\ named project n p1 x /\ (a, b) = (x, id).

Lemma create_links project id next needed blocking p1 p2 p' :
  nobody_waits project id p1 ->
  each (need_of_new project id) needed p1 = inl p2 ->
  each (waiter_of_new project id next) blocking p2 = inl p' ->
  in_project project id p' /\ tasks p' = tasks p1 /\
  (forall n, n ∈ needed \/ n ∈ blocking -> exists y, named project n p1 y) /\
  new_links project id needed blocking p1 p'.
Proof.
  intros H0 E2 E.
  apply (each_links project _ (fun y => (id, y)) (nobody_waits project id)) in E2
    as ((H2 & Hpr2 & _) & T2 & N2 & W2); [| |done].
  2: { intros n q q' Hq Eq. split; [by eapply need_of_new_ok|]. destruct Hq as (Hq & Hpr & Hno).
       unfold need_of_new in Eq. destruct (task_row project n q) as [need|] eqn:En; [|done].
       destruct (may_be_needed need); [|done].
       assert (Hn : project_of q (t_id need) = Some project) by (eapply named_project; [done|by eexists]).
       exists (t_id need). split; [by exists need|].
       apply link_ok in Eq as (_ & _ & Hl); [done|congruence|by intros [z ?%Hno]%tc_last|done]. }
  apply (each_links project _ (fun x => (x, id)) (in_project project id)) in E
    as (H3 & T3 & N3 & W3); [| |done].
  2: { intros n q q' Hq Eq. split; [by eapply waiter_of_new_ok|]. destruct Hq as (Hq & Hpr).
       unfold waiter_of_new in Eq. destruct (task_row project n q) as [w|] eqn:En; [|done].
       case_decide; [done|]. destruct (upstream q id (t_id w)) eqn:Eu; [done|]. apply upstream_false in Eu.
       assert (Hn : project_of q (t_id w) = Some project) by (eapply named_project; [done|by eexists]).
       exists (t_id w). split; [by exists w|]. by apply link_ok in Eq as (_ & _ & Hl); [|congruence|..]. }
  split_and!; [done|congruence|..].
  - intros n [Hn|Hn]; [by apply N2|]. destruct (N3 n Hn) as [y Hy]. exists y. by rewrite named_tasks in Hy.
  - intros a b. rewrite W3, W2. by setoid_rewrite (named_tasks _ _ _ _ _ T2).
Qed.

Lemma new_task_blocked project id needed blocking p1 p' :
  plan_ok p' -> tasks p' = tasks p1 -> (forall y, ~ waits p1 id y) ->
  new_links project id needed blocking p1 p' ->
  blocked p' id = true <->
  exists n t, n ∈ needed /\ task_row project n p1 = inl t /\ t_state t <> Accepted.
Proof.
  intros Hp' T Hfrom W. rewrite blocked_true.
  assert (Hid : forall t, t ∈ tasks p1 -> task_by_id p' (t_id t) = Some t).
  { intros t Ht. apply task_by_id_unique; [apply Hp'|by rewrite T]. }
  split.
  - intros (y & t & Hy & Et & Hs).
    apply W in Hy as [[?%Hfrom|(k & z & Hk & (u & Eu & Hu) & [= ->])]|(k & z & Hk & Hz & [= <- ->])];
      [done| |].
    + exists k, u. split_and!; [done..|]. pose proof Eu as (Hin%Hid & _)%task_row_Some. congruence.
    + exfalso. apply (no_self p' id Hp'), W. right. eauto.
  - intros (n & t & Hn & Et & Hs). exists (t_id t), t. pose proof Et as (Hin & _)%task_row_Some.
    split_and!; [|by apply Hid|done]. apply W. left. right. exists n, (t_id t).
    split_and!; [done|by exists t|done].
Qed.

Lemma new_task_numbers project id needed blocking p1 p' :
  plan_ok p1 -> in_project project id p' -> tasks p' = tasks p1 ->
  (forall y, ~ waits p1 id y) -> (forall x, ~ waits p1 x id) ->
  (forall n, n ∈ needed \/ n ∈ blocking -> exists y, named project n p1 y) ->
  new_links project id needed blocking p1 p' ->
  (forall m, m ∈ needs_numbers p' id <-> m ∈ needed) /\
  (forall m, m ∈ waiter_numbers p' id <-> m ∈ blocking).
Proof.
  intros Hp1 Hp' T Hfrom Hto N W. unfold new_links in W. pose proof (no_self p' id (proj1 Hp')) as Hself.
  assert (Hnm : forall m y, named project m p' y <-> named project m p1 y)
    by (intros *; by apply named_tasks).
  split; intros m.
  - rewrite (needs_numbers_named project) by done. setoid_rewrite Hnm. setoid_rewrite W. split.
    + intros (y & [[?%Hfrom|(k & z & Hk & Hz & [= ->])]|(k & z & Hk & Hz & [= <- ->])] & Hm); [done| |].
      * by rewrite (named_inj _ _ _ _ _ Hp1 Hm Hz).
      * exfalso. apply Hself, W. right. eauto.
    + intros Hm. destruct (N m) as [y Hy]; [by left|]. exists y. split; [|done]. left. right. eauto.
  - rewrite (waiter_numbers_named project) by done. setoid_rewrite Hnm. setoid_rewrite W. split.
    + intros (y & [[?%Hto|(k & z & Hk & Hz & [= -> <-])]|(k & z & Hk & Hz & [= ->])] & Hm); [done| |].
      * exfalso. apply Hself, W. left. right. eauto.
      * by rewrite (named_inj _ _ _ _ _ Hp1 Hm Hz).
    + intros Hm. destruct (N m) as [y Hy]; [by right|]. exists y. split; [|done]. right. eauto.
Qed.

(** A task given is a row more of the project, with the next number; it needs what it was given
    for and what keeps its window, what was to wait for it does, and no other two tasks are linked;
    and it goes to its window at once just where it has one and all it needs is accepted. *)
Theorem new_task_waits_for_what_it_needs staff project assignee behind pool needed before p p' :
  reached staff p -> create_task project assignee behind pool needed before p = inl p' ->
  exists row, tasks p' = tasks p ++ [row] /\ t_id row ∉ (t_id <$> tasks p) /\
    t_project row = project /\ t_number row = next_number project p /\ t_assignee row = assignee /\
    (forall m, m ∈ needs_numbers p' (t_id row) <-> m ∈ needed \/ m ∈ behind) /\
    (forall m, m ∈ waiter_numbers p' (t_id row) <-> m ∈ before) /\
    (forall x y, x <> t_id row -> y <> t_id row -> waits p' x y <-> waits p x y) /\
    (t_state row = Queued \/ t_state row = Open) /\
    (t_state row = Queued <-> is_Some assignee /\ blocked p' (t_id row) = false).
Proof.
  intros Hp%reached_plan_ok E. unfold create_task in E.
  destruct (distinct needed) as [ns|] eqn:En; [|done]. apply distinct_inl in En.
  destruct (distinct before) as [bs|] eqn:Eb; [|done]. apply distinct_inl in Eb.
  destruct (match assignee with Some _ => _ | None => _ end) as [is_blocked|] eqn:Ebl; [|done].
  set (id := sequence p + 1) in *. set (row := Task id project _ _ _ _ _) in E.
  set (p1 := Plan (tasks p ++ [row]) (needs p) id) in E.
  destruct (each (need_of_new _ _) _ p1) as [p2|] eqn:E2; [|done].
  assert (H0 : nobody_waits project id p1) by (by apply new_row_ok).
  pose proof (create_links _ _ _ _ _ _ _ _ H0 E2 E) as (Hp' & T & N & W). destruct H0 as (Hp1 & Hpr1 & Hno1).
  assert (Hnew : id ∉ (t_id <$> tasks p)) by (intros Hin%(ids_past _ Hp); unfold id in *; lia).
  assert (Hfrom : forall y, ~ waits p1 id y) by (intros y [Hin _]%(links_tasks _ Hp); done).
  destruct (new_task_numbers _ _ _ _ _ _ Hp1 Hp' T Hfrom Hno1 N W) as [Hneeds Hwaiters].
  exists row. cbn [t_id t_state t_assignee row]. split_and!; try done.
  - intros m. rewrite Hneeds, elem_of_once, elem_of_app. subst ns. by rewrite elem_of_once.
  - intros m. rewrite Hwaiters. subst bs. by rewrite elem_of_once.
  - intros x y Hx Hy. unfold new_links in W. rewrite W. split; [|by left; left].
    intros [[?|(k & z & _ & _ & [= -> _])]|(k & z & _ & _ & [= _ ->])]; done.
  - destruct (_ || _); auto.
  - destruct assignee as [w|]; simpl; [|split; [done|by intros [[]]]].
    replace is_blocked with (blocked p' id); [destruct (blocked p' id); naive_solver|].
    apply eq_true_iff_eq. rewrite (new_task_blocked _ _ _ _ _ _ (proj1 Hp') T Hfrom W).
    by rewrite (first_unaccepted_named _ _ _ _ row (needs p) id Ebl).
Qed.

(** ** What waits goes *)

(** A task of the project that has a window, waits on the board and needs nothing more. *)
Definition ready (project : Z) (p : plan) (t : task) (w : Z) : Prop :=
  t ∈ tasks p /\ t_project t = project /\ t_state t = Open /\ t_assignee t = Some w /\
  blocked p (t_id t) = false.

(** The tasks of a window that are in its hands. *)
Definition in_hand (w : Z) (p : plan) : list task :=
  filter (fun t => t_assignee t = Some w /\ t_state t ∈ [Queued; Working; Waiting; Paused]) (tasks p).

Lemma not_in_hand to : to = Open \/ to = Cancelled -> to ∉ [Queued; Working; Waiting; Paused].
Proof. intros [->| ->]; rewrite !not_elem_of_cons; by repeat split; try apply not_elem_of_nil. Qed.

Lemma waiting_ready project p t w : (t, w) ∈ waiting project p <-> ready project p t w.
Proof.
  unfold waiting, ready. rewrite list_elem_of_omap. split.
  - intros (u & Hu & E). destruct (t_assignee u) as [v|] eqn:Ea; [|done].
    destruct ((_ && _) && _) eqn:Eb; [|done]. injection E as -> ->.
    apply andb_true_iff in Eb as [[Ep%Z.eqb_eq Es%bool_decide_eq_true]%andb_true_iff Eb%negb_true_iff]. done.
  - intros (Hin & Ep & Es & Ea & Eb). exists t. split; [done|].
    by rewrite Ea, Ep, Z.eqb_refl, Es, bool_decide_eq_true_2, Eb.
Qed.

Lemma waiting_once project p : NoDup (t_id <$> tasks p) -> NoDup ((fun tw => t_id tw.1) <$> waiting project p).
Proof.
  intros Hnd. eapply sublist_NoDup; [exact Hnd|]. unfold waiting. generalize (blocked p). intros b. clear Hnd.
  induction (tasks p) as [|t ts IH]; [constructor|]. cbn [omap list_omap].
  destruct (t_assignee t) as [w|]; [destruct (_ && _)|]; simpl; by constructor.
Qed.

Lemma update_rows id f p t' :
  t' ∈ tasks (update id f p) <->
  exists t, t ∈ tasks p /\ t' = if t_id t =? id then f t else t.
Proof. simpl. rewrite list_elem_of_fmap. naive_solver. Qed.

Lemma has_task_in_spec states w p :
  has_task_in states w p = true <-> exists t, t ∈ tasks p /\ t_assignee t = Some w /\ t_state t ∈ states.
Proof.
  unfold has_task_in. rewrite existsb_exists. setoid_rewrite <- list_elem_of_In.
  setoid_rewrite andb_true_iff. by setoid_rewrite bool_decide_eq_true.
Qed.

Lemma undecided_spec w p :
  undecided_results w p <> [] <->
  exists t, t ∈ tasks p /\ t_assignee t = Some w /\ t_state t = Done /\ t_deleted t = false.
Proof.
  unfold undecided_results. split.
  - destruct (filter _ (tasks p)) as [|t ts] eqn:E; [done|]. intros _. exists t.
    assert (Hin : t ∈ filter (fun t => t_assignee t = Some w /\ t_state t = Done /\ t_deleted t = false) (tasks p))
      by (rewrite E; by left).
    apply list_elem_of_filter in Hin. naive_solver.
  - intros (t & Hin & Ht) E. apply fmap_nil_inv in E.
    assert (Hf : t ∈ filter (fun t => t_assignee t = Some w /\ t_state t = Done /\ t_deleted t = false) (tasks p))
      by (by apply list_elem_of_filter).
    rewrite E in Hf. by apply elem_of_nil in Hf.
Qed.

Lemma busy_spec staff w p :
  busy staff w p = true <->
  w_session (staff w) = true /\ exists t, t ∈ tasks p /\ t_assignee t = Some w /\
    (t_state t ∈ [Queued; Working; Waiting; Paused] \/ (t_state t = Done /\ t_deleted t = false)).
Proof.
  unfold busy. rewrite andb_true_iff, orb_true_iff, negb_true_iff, bool_decide_eq_false.
  fold (undecided_results w p <> []). rewrite undecided_spec. unfold has_task_in_hand.
  rewrite has_task_in_spec. naive_solver.
Qed.

(** A row that moves from the board, where only it has its id. *)
Lemma moved_rows p t to :
  NoDup (t_id <$> tasks p) -> t ∈ tasks p -> forall t', t' ∈ tasks (move_task t to p) <->
    t' = set_state to t \/ (t' ∈ tasks p /\ t' <> t).
Proof.
  intros Hnd Hin t'. unfold move_task. rewrite update_rows. split.
  - intros (u & Hu & ->). destruct (Z.eqb_spec (t_id u) (t_id t)) as [E|Hne].
    + pose proof (task_by_id_unique p t Hnd Hin). pose proof (task_by_id_unique p u Hnd Hu).
      left. congruence.
    + right. split; [done|]. by intros ->.
  - intros [->|[Ht' Hne]]; [exists t; by rewrite Z.eqb_refl|]. exists t'. split; [done|].
    destruct (Z.eqb_spec (t_id t') (t_id t)) as [E|]; [|done].
    pose proof (task_by_id_unique p t Hnd Hin). pose proof (task_by_id_unique p t' Hnd Ht'). congruence.
Qed.

Lemma busy_moved staff p t to w :
  NoDup (t_id <$> tasks p) -> t ∈ tasks p -> t_state t = Open ->
  busy staff w p = true -> busy staff w (move_task t to p) = true.
Proof.
  intros Hnd Hin Hs. rewrite !busy_spec. intros [Hw (u & Hu & Ha & Hst)]. split; [done|]. exists u.
  split; [|done]. apply moved_rows; [done..|]. right. split; [done|]. intros ->. rewrite Hs in Hst.
  destruct Hst as [Hst|[? _]]; [|done]. by apply (not_in_hand Open) in Hst; [|left].
Qed.

(** One that is let go, and the plan as that leaves it. *)
Inductive lets_go staff (p : plan) (t : task) (w : Z) : plan -> Prop :=
| Unreachable : unreachable staff w = true -> lets_go staff p t w (move_task t Cancelled p)
| Busy : busy staff w p = true -> lets_go staff p t w p
| Goes : unreachable staff w = false -> busy staff w p = false -> lets_go staff p t w (move_task t Queued p).

Lemma release_one_lets_go staff p t w : lets_go staff p t w (release_one staff p (t, w)).
Proof.
  unfold release_one. destruct (unreachable staff w) eqn:Eu; [by constructor|].
  destruct (busy staff w p) eqn:Eb; by constructor.
Qed.

(** *** The tasks in a window's hands *)

Lemma in_hand_kept p t to w :
  NoDup (t_id <$> tasks p) -> t ∈ tasks p -> t_state t = Open ->
  t_assignee t <> Some w \/ to = Cancelled -> in_hand w (move_task t to p) = in_hand w p.
Proof.
  intros Hnd Hin Hs Hw. unfold in_hand, move_task. simpl.
  assert (Hrow : forall u, u ∈ tasks p -> t_id u = t_id t -> u = t).
  { intros u Hu E. pose proof (task_by_id_unique p t Hnd Hin).
    pose proof (task_by_id_unique p u Hnd Hu). congruence. }
  revert Hrow. clear Hin Hnd. induction (tasks p) as [|u ts IH]; intros Hrow; [done|]. simpl.
  assert (IH' := IH (fun v Hv => Hrow v (list_elem_of_further _ _ _ Hv))).
  destruct (Z.eqb_spec (t_id u) (t_id t)) as [E|Hne].
  - apply Hrow in E; [|by left]. subst u. rewrite filter_cons_False; [rewrite filter_cons_False; [exact IH'|]|].
    + rewrite Hs. intros [_ Hh]. by apply (not_in_hand Open) in Hh; [|left].
    + simpl. intros [? Hh]. destruct Hw as [?| ->]; [done|]. by apply (not_in_hand Cancelled) in Hh; [|right].
  - rewrite !filter_cons. by rewrite IH'.
Qed.

Lemma in_hand_once p w : NoDup (t_id <$> tasks p) -> NoDup (in_hand w p).
Proof. intros Hnd%NoDup_fmap_1. by apply NoDup_filter. Qed.

Lemma all_one {A} (xs : list A) x : NoDup xs -> (forall y, y ∈ xs -> y = x) -> (length xs <= 1)%nat.
Proof.
  intros Hnd Hx. destruct xs as [|y [|z ys]]; simpl; [lia..|]. exfalso.
  apply NoDup_cons in Hnd as [Hy _]. apply Hy. rewrite (Hx y), (Hx z); by repeat constructor.
Qed.

Lemma not_busy_none staff w p : w_session (staff w) = true -> busy staff w p = false -> in_hand w p = [].
Proof.
  intros Hw Hb. destruct (in_hand w p) as [|t ts] eqn:E; [done|].
  assert (Hin : t ∈ in_hand w p) by (rewrite E; by left).
  apply list_elem_of_filter in Hin as [[Ha Hs] Hin]. exfalso.
  enough (busy staff w p = true) by congruence. apply busy_spec. split; [done|]. exists t. auto.
Qed.

(** *** One after another *)

(** What became of the tasks [l], let go in turn from [p] to [q]. *)
Record let_go staff (l : list (task * Z)) (p q : plan) : Prop := {
  go_rows t' : t' ∈ tasks q -> t' ∈ tasks p \/
    exists t w, (t, w) ∈ l /\ t' = set_state (if unreachable staff w then Cancelled else Queued) t;
  go_others t : t ∈ tasks p -> (forall w, (t, w) ∉ l) -> t ∈ tasks q;
  go_busy w : busy staff w p = true -> busy staff w q = true /\ in_hand w q = in_hand w p;
  go_kept t w : (t, w) ∈ l -> t ∈ tasks q -> busy staff w q = true;
  go_one w : w_session (staff w) = true ->
    (length (in_hand w q) <= Nat.max 1 (length (in_hand w p)))%nat
}.

Lemma let_go_one staff p p' t w :
  NoDup (t_id <$> tasks p) -> t ∈ tasks p -> t_state t = Open -> t_assignee t = Some w ->
  lets_go staff p t w p' -> let_go staff [(t, w)] p p'.
Proof.
  intros Hnd Hin Hs Ha Hgo.
  assert (Hmoved : forall to, (to = if unreachable staff w then Cancelled else Queued) -> to <> Open ->
    (busy staff w p = true -> to = Cancelled) -> (w_session (staff w) = true -> to = Queued -> in_hand w p = []) ->
    let_go staff [(t, w)] p (move_task t to p)).
  { intros to Eto Hto Hbusy Hnone. pose proof (moved_rows p t to Hnd Hin) as Hrows.
    assert (Hkeys : NoDup (t_id <$> tasks (move_task t to p))).
    { rewrite (keys_ids p); [done|]. by apply update_fewer. }
    split.
    - intros t' [->|[? _]]%Hrows; [|by left]. right. exists t, w. split; [by left|by rewrite Eto].
    - intros u Hu Hno. apply Hrows. right. split; [done|]. intros ->. apply (Hno w). by left.
    - intros v Hv. split; [by apply busy_moved|]. apply in_hand_kept; [done..|].
      destruct (decide (v = w)) as [->|Hne]; [right; auto|left; congruence].
    - intros u v [= -> ->]%list_elem_of_singleton [E|[_ ?]]%Hrows; [|done]. exfalso. apply Hto.
      apply (f_equal t_state) in E. simpl in E. congruence.
    - intros v Hv. destruct (decide (v = w /\ to = Queued)) as [[-> Eq]|Hno].
      + transitivity 1%nat; [|lia]. apply (all_one _ (set_state to t)); [by apply in_hand_once|].
        intros y [Hy [->|[Hyin _]]%Hrows]%list_elem_of_filter; [done|]. exfalso.
        assert (Hh : y ∈ in_hand w p) by (by apply list_elem_of_filter).
        rewrite Hnone in Hh by done. by apply elem_of_nil in Hh.
      + rewrite in_hand_kept; [lia|done..|]. destruct (decide (v = w)) as [->|]; [right|left; congruence].
        rewrite Eto in *. destruct (unreachable staff w); [done|]. by destruct Hno. }
  destruct Hgo as [Hu|Hb|Hu Hb].
  - apply Hmoved; [by rewrite Hu|done..].
  - split; [by left|done|done| |intros; lia]. by intros u v [= -> ->]%list_elem_of_singleton.
  - apply Hmoved; [by rewrite Hu|done|congruence|]. intros. by eapply not_busy_none.
Qed.

Lemma let_go_app staff l1 l2 p1 p2 p3 :
  (forall t w, (t, w) ∈ l2 -> t ∈ tasks p1) ->
  (forall t w v, (t, w) ∈ l1 -> (t, v) ∉ l2) -> (forall t w, (t, w) ∈ l1 -> t_state t = Open) ->
  let_go staff l1 p1 p2 -> let_go staff l2 p2 p3 -> let_go staff (l1 ++ l2) p1 p3.
Proof.
  intros Hl2 Hdis Hopen [R1 O1 B1 K1 N1] [R2 O2 B2 K2 N2]. split.
  - intros t' [[?|(t & w & ? & ->)]%R1|(t & w & ? & ->)]%R2; [by left|right..]; exists t, w; set_solver.
  - intros t Ht Hno. apply O2; [apply O1; [done|]|]; intros w Hw; apply (Hno w); set_solver.
  - intros w Hw. destruct (B1 w Hw) as [Hw2 E2], (B2 w Hw2) as [Hw3 E3]. split; [done|congruence].
  - intros t w [Hw|Hw]%elem_of_app Ht; [|by apply (K2 t)].
    apply R2 in Ht as [Ht|(u & v & Hu & E)]; [by apply B2, (K1 t)|]. exfalso.
    apply Hopen in Hw. rewrite E in Hw. simpl in Hw. by destruct (unreachable staff v).
  - intros w Hw. specialize (N1 w Hw). specialize (N2 w Hw). lia.
Qed.

Lemma let_go_all staff l p :
  NoDup (t_id <$> tasks p) -> NoDup ((fun tw => t_id tw.1) <$> l) ->
  (forall t w, (t, w) ∈ l -> t ∈ tasks p /\ t_state t = Open /\ t_assignee t = Some w) ->
  let_go staff l p (fold_left (release_one staff) l p).
Proof.
  revert p. induction l as [|[t w] l IH]; intros p Hnd Hl Hin.
  - split; [by left|done|done|by intros t w ?%elem_of_nil|intros; simpl; lia].
  - rewrite fmap_cons in Hl. apply NoDup_cons in Hl as [Ht Hl]. cbn [fold_left fst] in *.
    destruct (Hin t w) as (Htin & Hts & Hta); [by left|].
    pose proof (let_go_one staff p _ t w Hnd Htin Hts Hta (release_one_lets_go staff p t w)) as H1.
    assert (Hne : forall u v, (u, v) ∈ l -> u <> t).
    { intros u v Huv ->. apply Ht, list_elem_of_fmap. by exists (t, v). }
    eapply (let_go_app staff [(t, w)] l p); [| | |exact H1|].
    + intros u v Huv. destruct (Hin u v); [by right|done].
    + intros u v v' [= -> ->]%list_elem_of_singleton Huv. by apply Hne in Huv.
    + by intros u v [= -> ->]%list_elem_of_singleton.
    + apply IH; [|done|].
      * rewrite (keys_ids p); [done|]. apply release_one_fewer.
      * intros u v Huv. destruct (Hin u v) as (Hu & ?); [by right|]. split; [|done].
        apply H1; [done|]. intros v' [= -> _]%list_elem_of_singleton. by apply Hne in Huv.
Qed.

(** What a release moves is not accepted before or after, so it keeps no more and no less waiting. *)
Lemma blocked_released staff project p id :
  plan_ok p -> blocked (release_ready staff project p) id = blocked p id.
Proof.
  intros Hp. set (q := release_ready staff project p).
  assert (Hq : plan_ok q) by (eapply fewer_ok; [apply release_ready_fewer|done]).
  assert (Hgo : let_go staff (waiting project p) p q).
  { apply let_go_all; [apply Hp|apply waiting_once, Hp|]. intros t w (?&_&?&?&_)%waiting_ready. done. }
  apply eq_true_iff_eq. rewrite !blocked_true.
  assert (Hw : forall y, waits q id y <-> waits p id y) by (intros y; apply needs_waits, release_ready_needs).
  setoid_rewrite Hw.
  assert (Hrow : forall y t, task_by_id q y = Some t ->
    task_by_id p y = Some t \/ exists u, task_by_id p y = Some u /\ t_state u = Open /\ t_state t <> Accepted).
  { intros y t [Ht Ey]%task_by_id_Some. apply (go_rows _ _ _ _ Hgo) in Ht as [Ht|(u & w & Hu & ->)]; subst y.
    - left. apply task_by_id_unique; [apply Hp|done].
    - right. apply waiting_ready in Hu as (Hu & _ & Hs & _). exists u. split_and!; [|done|].
      + exact (task_by_id_unique p u (ids_once _ Hp) Hu).
      + simpl. by destruct (unreachable staff w). }
  split; intros (y & t & Hy & Et & Hs); exists y.
  - apply Hrow in Et as [Et|(u & Eu & Hu & _)]; [by exists t|]. exists u. split_and!; [done..|]. by rewrite Hu.
  - assert (is_Some (task_by_id q y)) as [t' Et'].
    { apply task_by_id_is_Some. unfold q. rewrite (keys_ids p) by apply release_ready_fewer.
      apply task_by_id_is_Some. by exists t. }
    exists t'. split_and!; [done..|]. apply Hrow in Et' as [E|(u & _ & _ & ?)]; [|done]. congruence.
Qed.

(** C12: of the tasks that have a window and need nothing more, each goes to it, or ends where it
    cannot be reached, or stays only as the window is busy; a session has no more than one put in
    its hands, and none while it is busy; and no other task is touched. *)
Theorem what_waits_goes_to_its_window staff project p :
  reached staff p ->
  let q := release_ready staff project p in
  (forall t', t' ∈ tasks q -> t' ∈ tasks p \/ exists t w, ready project p t w /\
     t' = set_state (if unreachable staff w then Cancelled else Queued) t) /\
  (forall t, t ∈ tasks p -> (forall w, ~ ready project p t w) -> t ∈ tasks q) /\
  (forall t w, ready project q t w -> busy staff w q = true) /\
  (forall w, busy staff w p = true -> in_hand w q = in_hand w p) /\
  (forall w, w_session (staff w) = true -> (length (in_hand w q) <= Nat.max 1 (length (in_hand w p)))%nat).
Proof.
  intros Hp%reached_plan_ok q.
  assert (Hgo : let_go staff (waiting project p) p q).
  { apply let_go_all; [apply Hp|apply waiting_once, Hp|]. intros t w (?&_&?&?&_)%waiting_ready. done. }
  split_and!.
  - intros t' [?|(t & w & ?%waiting_ready & ->)]%(go_rows _ _ _ _ Hgo); eauto.
  - intros t Ht Hno. apply (go_others _ _ _ _ Hgo); [done|]. intros w Hw%waiting_ready. by apply (Hno w).
  - intros t w (Ht & Epr & Hs & Ha & Hb). apply (go_kept _ _ _ _ Hgo t); [|done]. apply waiting_ready.
    unfold q in Hb. rewrite blocked_released in Hb by done. split_and!; [|done..].
    apply (go_rows _ _ _ _ Hgo) in Ht as [?|(u & v & _ & ->)]; [done|].
    simpl in Hs. by destruct (unreachable staff v).
  - intros w Hw. by apply (go_busy _ _ _ _ Hgo).
  - apply Hgo.
Qed.

(** ** A plan of three tasks *)

Definition example_staff (w : Z) : window := Window true true false true.

(** The second waits for the first, and the third, for the session 7, for the second. *)
Definition example_events : list event :=
  [Created 1 None [] "worker" [] []; Created 1 None [] "worker" [1] [];
   Created 1 (Some 7) [] "worker" [2] []]%string.

Definition example_plan : plan := fold_left (fun p e => step example_staff e p) example_events (Plan [] [] 0).

(** And the first two are accepted. *)
Definition example_accepted : plan :=
  fold_left (fun p e => step example_staff e p) [Moved 1 Accepted (Some 8); Moved 2 Accepted (Some 8)]
            example_plan.

Lemma example_plan_reached : reached example_staff example_plan.
Proof. by exists example_events. Qed.

Lemma example_accepted_reached : reached example_staff example_accepted.
Proof. by exists (example_events ++ [Moved 1 Accepted (Some 8); Moved 2 Accepted (Some 8)]). Qed.

(** The number to come is not told from another's until the table's own check. *)
Fact own_number_breaks_a_constraint :
  next_number 1 example_plan = 4 /\
  create_task 1 None [] "worker" [4] [] example_plan = inr Sql /\
  create_task 1 None [] "worker" [] [4] example_plan = inr Sql.
Proof. by vm_compute. Qed.

Lemma plan_has_no_circles_witness :
  waits example_plan 3 2 /\ ~ tc (waits example_plan) 3 3.
Proof.
  split; [vm_compute; right; left|].
  exact (proj1 (plan_has_no_circles example_staff example_plan example_plan_reached) 3).
Defined.

Lemma some_task_can_go_on_witness :
  exists t u, t ∈ tasks example_plan /\ t_number t = 3 /\ u ∈ tasks example_plan /\
    rtc (waits example_plan) (t_id t) (t_id u) /\ blocked example_plan (t_id u) = false.
Proof.
  set (t := Task 3 1 3 Open (Some 7) None false).
  assert (Ht : t ∈ tasks example_plan) by (vm_compute; right; right; left).
  destruct (some_task_can_go_on example_staff example_plan t example_plan_reached Ht) as (u & Hu & Hr & _ & Hb);
    [discriminate|].
  exists t, u. done.
Defined.

Lemma relink_links_what_is_asked_witness :
  exists p', relink example_staff 1 3 (Some (Change [1] [2])) None example_plan = inl p' /\
    needs_numbers p' 3 = [1] /\
    exists t, task_row 1 3 example_plan = inl t /\
      forall m, m ∈ needs_numbers p' (t_id t) <->
                asked (Some (Change [1] [2])) (needs_numbers example_plan (t_id t)) m.
Proof.
  eexists. split; [vm_compute; reflexivity|]. split; [vm_compute; reflexivity|].
  edestruct (relink_links_what_is_asked example_staff 1 3 (Some (Change [1] [2])) None example_plan)
    as (t & Et & Hn & _); [apply example_plan_reached|vm_compute; reflexivity|].
  exists t. split; [exact Et|exact Hn].
Defined.

Lemma new_task_waits_for_what_it_needs_witness :
  exists p', create_task 1 (Some 9) [] "worker" [2] [3] example_plan = inl p' /\
    needs p' = [(2, 1); (3, 2); (4, 2); (3, 4)] /\
    exists row, tasks p' = tasks example_plan ++ [row] /\
      (forall m, m ∈ needs_numbers p' (t_id row) <-> m ∈ [2] \/ m ∈ []).
Proof.
  eexists. split; [vm_compute; reflexivity|]. split; [vm_compute; reflexivity|].
  edestruct (new_task_waits_for_what_it_needs example_staff 1 (Some 9) [] "worker" [2] [3] example_plan)
    as (row & Et & _ & _ & _ & _ & Hn & _); [apply example_plan_reached|vm_compute; reflexivity|].
  exists row. split; [exact Et|exact Hn].
Defined.

Lemma what_waits_goes_to_its_window_witness :
  let q := release_ready example_staff 1 example_accepted in
  (exists t, t ∈ tasks q /\ t_number t = 3 /\ t_state t = Queued) /\
  (length (in_hand 7 q) <= Nat.max 1 (length (in_hand 7 example_accepted)))%nat.
Proof.
  split; [exists (Task 3 1 3 Queued (Some 7) None false); vm_compute; repeat split; right; right; left|].
  apply (what_waits_goes_to_its_window example_staff 1 example_accepted example_accepted_reached).
  reflexivity.
Defined.
