(* ===== verification/Portable.v ===== *)
(** * The footer of a portable exe: [cf-portable/src/format.rs], and the layout of [pack.rs]

    A portable exe is the app's own exe, the runtime as a gzip stream, and a footer that says how
    long that is. A file is its bytes. [find] reads it where it says: a read past the file's end is
    an error of the system's ([Io]), a subtraction that would go below zero a panic ([None]). *)
From S2P Require Import Prelude.
#[local] Open Scope Z_scope.

Definition TAG : list byte := String.list_byte_of_string "CFPAYLD1".
Definition FOOTER_BYTES : Z := 16.
Definition SMALLEST_GZIP : Z := 18.
Definition TRAILER_BYTES : Z := 8.

(** [to_le_bytes] and [from_le_bytes] of a number of [n] bytes. *)
Fixpoint to_le_bytes (n : nat) (v : Z) : list byte :=
  match n with
  | O => []
  | S n => byte_of (v mod 256) :: to_le_bytes n (v / 256)
  end.

Definition from_le_bytes (bytes : list byte) : Z := foldr (fun b v => u8 b + 256 * v) 0 bytes.

Definition footer (length : Z) : list byte := to_le_bytes 8 length ++ TAG.

Record Payload := MkPayload { offset : Z; length_ : Z; crc : Z; tar_length : Z }.

Inductive Error := Footer (length size : Z) | Io.

(** [seek(SeekFrom::Start(at))], then [read_exact] of [n] bytes. *)
Definition read_exact (at_ : Z) (n : nat) (file : list byte) : list byte + Error :=
  let bytes := take n (drop (Z.to_nat at_) file) in
  if decide (length bytes = n) then inl bytes else inr Io.

Definition checked_sub64 (a b : Z) : option Z := if b <=? a then Some (a - b) else None.

(** The payload a file carries, or none; [None] outside is a panic. *)
Definition find (file : list byte) : option (option Payload + Error) :=
  let size := Z.of_nat (length file) in
  if size <? FOOTER_BYTES then Some (inl None)
  else
    start ← checked_sub64 size FOOTER_BYTES;
    match read_exact start 8 file, read_exact (start + 8) 8 file with
    | inl length_bytes, inl tag =>
        if negb (bool_decide (tag = TAG)) then Some (inl None)
        else
          let length_ := from_le_bytes length_bytes in
          if (length_ <? SMALLEST_GZIP) || (start <? length_) then Some (inr (Footer length_ size))
          else
            offset ← checked_sub64 start length_;
            trailer ← checked_sub64 (offset + length_) TRAILER_BYTES;
            match read_exact trailer 4 file, read_exact (trailer + 4) 4 file with
            | inl crc, inl tar_length =>
                Some (inl (Some (MkPayload offset length_ (from_le_bytes crc)
                                           (from_le_bytes tar_length))))
            | _, _ => Some (inr Io)
            end
    | _, _ => Some (inr Io)
    end.

(** [write]: the app's exe, the payload and the footer. *)
Definition packed (exe payload : list byte) : list byte :=
  exe ++ payload ++ footer (Z.of_nat (length payload)).

(** A hex digit, as [{:x}] writes it. *)
Definition hex_digit (d : Z) : Ascii.ascii :=
  Ascii.ascii_of_nat (Z.to_nat (if d <? 10 then 0x30 + d else 0x61 + (d - 10))).

(** The lowest [n] hex digits of a number, the highest first: [{:08x}] of a [u32], with [n] 8. *)
Fixpoint hex (n : nat) (v : Z) (text : string) : string :=
  match n with
  | O => text
  | S n => hex n (v / 16) (String (hex_digit (v mod 16)) text)
  end.

Definition crc_hex (p : Payload) : string := hex 8 (crc p) "".

(** The name of the folder a runtime is kept in. *)
Definition folder (version : string) (p : Payload) : string := version +:+ "-" +:+ crc_hex p.

(** ** Numbers of bytes *)

Lemma to_le_bytes_length n v : length (to_le_bytes n v) = n.
Proof. revert v. induction n as [|n IH]; intros v; [done|]. simpl. by rewrite IH. Qed.

Lemma le_bytes_back n v : 0 <= v < 256 ^ Z.of_nat n -> from_le_bytes (to_le_bytes n v) = v.
Proof.
  revert v. induction n as [|n IH]; intros v Hv; [simpl in *; lia|].
  rewrite Nat2Z.inj_succ, Z.pow_succ_r in Hv by lia. cbn [to_le_bytes].
  unfold from_le_bytes in *. cbn [foldr]. rewrite IH.
  - rewrite u8_byte_of by (apply Z.mod_pos_bound; lia). pose proof (Z.div_mod v 256). lia.
  - split; [apply Z.div_pos; lia|apply Z.div_lt_upper_bound; lia].
Qed.

Lemma from_le_bytes_bound bytes : 0 <= from_le_bytes bytes < 256 ^ Z.of_nat (length bytes).
Proof.
  unfold from_le_bytes. induction bytes as [|b bytes IH]; [simpl; lia|]. cbn [foldr length].
  rewrite Nat2Z.inj_succ, Z.pow_succ_r by lia. pose proof (u8_range b). lia.
Qed.

(** ** Reading *)

Lemma read_exact_inside at_ n file :
  0 <= at_ -> at_ + Z.of_nat n <= Z.of_nat (length file) ->
  read_exact at_ n file = inl (take n (drop (Z.to_nat at_) file)).
Proof.
  intros H1 H2. unfold read_exact. rewrite decide_True; [done|].
  rewrite length_take, length_drop. lia.
Qed.

Lemma read_exact_at before bytes after at_ n :
  at_ = Z.of_nat (length before) -> n = length bytes ->
  read_exact at_ n (before ++ bytes ++ after) = inl bytes.
Proof.
  intros -> ->. rewrite read_exact_inside by (rewrite ?length_app; lia).
  by rewrite Nat2Z.id, drop_app_length, take_app_length.
Qed.

Lemma read_exact_length at_ n file bytes : read_exact at_ n file = inl bytes -> length bytes = n.
Proof. unfold read_exact. case_decide; [by intros [= <-]|done]. Qed.

Lemma checked_sub64_le a b : b <= a -> checked_sub64 a b = Some (a - b).
Proof. intros H. unfold checked_sub64. by rewrite (proj2 (Z.leb_le b a) H). Qed.

(** What [pack] writes carries the payload: it is found where the app's exe ends, with its
    length and the two numbers its gzip stream ends with. *)
Theorem packed_payload_is_found exe stream crc tar_length :
  (10 <= length stream)%nat -> Z.of_nat (length stream) + 8 < 2 ^ 64 ->
  0 <= crc < 2 ^ 32 -> 0 <= tar_length < 2 ^ 32 ->
  let payload := stream ++ to_le_bytes 4 crc ++ to_le_bytes 4 tar_length in
  find (packed exe payload) =
    Some (inl (Some (MkPayload (Z.of_nat (length exe)) (Z.of_nat (length payload)) crc tar_length))).
Proof.
  intros Hlong Hfits Hcrc Htar payload.
  assert (Hpayload : length payload = (length stream + 8)%nat).
  { unfold payload. rewrite !length_app, !to_le_bytes_length. lia. }
  assert (Hfooter : length (footer (Z.of_nat (length payload))) = 16%nat)
    by (unfold footer; by rewrite length_app, to_le_bytes_length).
  set (file := packed exe payload).
  assert (Hsize : Z.of_nat (length file) = Z.of_nat (length exe) + Z.of_nat (length payload) + 16).
  { unfold file, packed. rewrite !length_app, Hfooter. lia. }
  unfold find. rewrite Hsize. unfold FOOTER_BYTES, SMALLEST_GZIP, TRAILER_BYTES.
  rewrite (proj2 (Z.ltb_ge _ _)) by lia. rewrite checked_sub64_le by lia. cbn [mbind option_bind].
  assert (Hlen : read_exact (Z.of_nat (length exe) + Z.of_nat (length payload) + 16 - 16) 8 file =
    inl (to_le_bytes 8 (Z.of_nat (length payload)))).
  { unfold file, packed, footer. rewrite app_assoc. apply read_exact_at; [rewrite length_app; lia|].
    by rewrite to_le_bytes_length. }
  assert (Htag : read_exact (Z.of_nat (length exe) + Z.of_nat (length payload) + 16 - 16 + 8) 8 file = inl TAG).
  { unfold file, packed, footer. rewrite !app_assoc, <- (app_nil_r TAG), (app_assoc _ TAG) at 1.
    rewrite <- app_assoc. apply read_exact_at; [|done]. rewrite !length_app, to_le_bytes_length. lia. }
  rewrite Hlen, Htag, bool_decide_eq_true_2 by done. cbn [negb].
  rewrite le_bytes_back by (rewrite Hpayload; change (256 ^ Z.of_nat 8) with (2 ^ 64); lia).
  rewrite (proj2 (Z.ltb_ge _ 18)), (proj2 (Z.ltb_ge _ (Z.of_nat (length payload)))) by lia. cbn [orb].
  rewrite checked_sub64_le by lia. cbn [mbind option_bind]. rewrite checked_sub64_le by lia.
  cbn [mbind option_bind].
  assert (Efile : file = (exe ++ stream) ++ to_le_bytes 4 crc ++
    to_le_bytes 4 tar_length ++ footer (Z.of_nat (length payload))).
  { unfold file, packed. set (f := footer _). unfold payload. by rewrite <- !app_assoc. }
  rewrite Efile, (read_exact_at (exe ++ stream)) by (rewrite ?length_app, ?to_le_bytes_length; lia || done).
  rewrite (app_assoc _ (to_le_bytes 4 crc)), (read_exact_at ((exe ++ stream) ++ to_le_bytes 4 crc))
    by (rewrite ?length_app, ?to_le_bytes_length; lia || done).
  rewrite !le_bytes_back by (change (256 ^ Z.of_nat 4) with (2 ^ 32); lia).
  do 4 f_equal. lia.
Qed.

(** Whatever is in a file, [find] does not panic nor read past its end: it finds no tag, or a
    footer that says more than the file holds or less than a gzip stream, or a payload that lies
    whole in the file, from its start to the footer, its numbers of 32 bits. *)
Theorem find_stays_in_the_file file :
  let size := Z.of_nat (length file) in
  match find file with
  | Some (inl None) => size < FOOTER_BYTES \/ drop (length file - 8) file <> TAG
  | Some (inl (Some p)) =>
      drop (length file - 8) file = TAG /\ 0 <= offset p /\ SMALLEST_GZIP <= length_ p /\
      offset p + length_ p + FOOTER_BYTES = size /\
      0 <= crc p < 2 ^ 32 /\ 0 <= tar_length p < 2 ^ 32
  | Some (inr (Footer n size')) =>
      size' = size /\ 0 <= n < 2 ^ 64 /\ (n < SMALLEST_GZIP \/ size < n + FOOTER_BYTES)
  | Some (inr Io) | None => False
  end.
Proof.
  intros size. unfold find. fold size. unfold FOOTER_BYTES, SMALLEST_GZIP, TRAILER_BYTES.
  destruct (Z.ltb_spec size 16) as [Hs|Hs]; [by left|].
  rewrite checked_sub64_le by lia. cbn [mbind option_bind].
  rewrite !read_exact_inside by (unfold size in *; lia).
  set (bytes := take 8 (drop (Z.to_nat (size - 16)) file)).
  assert (Etag : take 8 (drop (Z.to_nat (size - 16 + 8)) file) = drop (length file - 8) file).
  { replace (Z.to_nat (size - 16 + 8)) with (length file - 8)%nat by (unfold size in *; lia).
    apply take_ge. rewrite length_drop. lia. }
  rewrite Etag. destruct (bool_decide _) eqn:Et; cbn [negb]; [|right; by apply bool_decide_eq_false in Et].
  apply bool_decide_eq_true in Et.
  assert (Hn : 0 <= from_le_bytes bytes < 2 ^ 64).
  { pose proof (from_le_bytes_bound bytes) as Hb. unfold bytes in *.
    rewrite length_take, length_drop in Hb.
    replace (Nat.min 8 (length file - Z.to_nat (size - 16))) with 8%nat in Hb by (unfold size in *; lia). done. }
  set (n := from_le_bytes bytes) in *.
  destruct ((n <? 18) || (size - 16 <? n)) eqn:En.
  - apply orb_true_iff in En as [H%Z.ltb_lt|H%Z.ltb_lt];
      (split; [done|split; [exact Hn|lia]]).
  - apply orb_false_iff in En as [H1%Z.ltb_ge H2%Z.ltb_ge].
    rewrite checked_sub64_le by lia. cbn [mbind option_bind]. rewrite checked_sub64_le by lia.
    cbn [mbind option_bind]. rewrite !read_exact_inside by (unfold size in *; lia). simpl.
    assert (Hbound : forall at_, 0 <= at_ -> at_ + 4 <= size ->
      0 <= from_le_bytes (take 4 (drop (Z.to_nat at_) file)) < 2 ^ 32).
    { intros at_ H3 H4. pose proof (from_le_bytes_bound (take 4 (drop (Z.to_nat at_) file))) as Hb.
      rewrite length_take, length_drop in Hb.
      replace (Nat.min 4 (length file - Z.to_nat at_)) with 4%nat in Hb by (unfold size in *; lia). done. }
    split; [exact Et|]. split; [lia|]. split; [lia|]. split; [lia|]. split; apply Hbound; lia.
Qed.

(** ** Folders *)

Lemma hex_digit_inj d d' : 0 <= d < 16 -> 0 <= d' < 16 -> hex_digit d = hex_digit d' -> d = d'.
Proof.
  intros Hd Hd' E. unfold hex_digit in E. apply (f_equal Ascii.nat_of_ascii) in E.
  rewrite !Ascii.nat_ascii_embedding in E
    by (destruct (Z.ltb_spec d 10), (Z.ltb_spec d' 10); lia).
  destruct (Z.ltb_spec d 10), (Z.ltb_spec d' 10); lia.
Qed.

Lemma hex_inj n v v' text text' :
  0 <= v < 16 ^ Z.of_nat n -> 0 <= v' < 16 ^ Z.of_nat n ->
  String.length text = String.length text' -> hex n v text = hex n v' text' -> v = v' /\ text = text'.
Proof.
  revert v v' text text'. induction n as [|n IH]; intros v v' text text' Hv Hv' Hlen E.
  - simpl in *. split; [lia|done].
  - rewrite Nat2Z.inj_succ, Z.pow_succ_r in Hv, Hv' by lia. cbn [hex] in E.
    apply IH in E as [Eq Et]; [..|by simpl; rewrite Hlen].
    + injection Et as Ed Et. split; [|done].
      apply hex_digit_inj in Ed; [|apply Z.mod_pos_bound; lia..].
      rewrite (Z.div_mod v 16), (Z.div_mod v' 16) by lia. lia.
    + split; [apply Z.div_pos; lia|apply Z.div_lt_upper_bound; lia].
    + split; [apply Z.div_pos; lia|apply Z.div_lt_upper_bound; lia].
Qed.

(** Each build of a version has a folder of its own: one for each CRC. *)
Lemma folder_of_its_build version p p' :
  0 <= crc p < 2 ^ 32 -> 0 <= crc p' < 2 ^ 32 -> folder version p = folder version p' -> crc p = crc p'.
Proof.
  intros Hp Hp' E. apply (inj (String.app version)), (inj (String.app "-")) in E.
  by apply (hex_inj 8) in E as [E _].
Qed.

Lemma packed_payload_is_found_witness :
  let exe := [byte_of 77; byte_of 90] in
  let stream := repeat (byte_of 7) 12 in
  exists p, find (packed exe (stream ++ to_le_bytes 4 0xCAFE ++ to_le_bytes 4 1024)) = Some (inl (Some p)) /\
    offset p = 2 /\ length_ p = 20 /\ crc_hex p = "0000cafe"%string.
Proof.
  intros exe stream. eexists. split; [apply packed_payload_is_found; simpl; lia|]. by vm_compute.
Defined.
