(* ===== verification/Pacing.v ===== *)
(** * Paced delivery: [cf-engine/src/pacing.rs]

    When a message may be typed into a window: once the looks at it have read it at rest, one after
    another and on the same last item, for the settle, with no key of the human's in that time, and
    a fresh look just before the paste reads the same. The state is what the record of a window
    keeps of it ([part]); the engine is on one thread, and what it does between is a list of
    [event]s, in any order. What a look reads, what the harness says of its window and what the
    pane host answers are arguments, each read at the time it is. *)
From Stdlib Require Import Sorting.Sorted.
From S2P Require Import Prelude.
#[local] Open Scope Z_scope.

(** [cf_harness::records::Reading] *)
Record Item := MkItem { i_id : string; i_complete : bool }.

Inductive Reading := Known (items : list Item) | Unknown (reason : string) | Missing (reason : string).

Definition read_failed (r : Reading) : bool := match r with Unknown _ => true | _ => false end.

Definition reason (r : Reading) : option string :=
  match r with Unknown why | Missing why => Some why | Known _ => None end.

(** [Observed], as far as the pacing reads it; [waiting] is whether it waits for anything. *)
Record Observed := MkObserved {
  reading : option Reading;
  settled : bool;
  waiting : bool;
  at_prompt : bool
}.

Definition items (o : Observed) : list Item :=
  match reading o with Some (Known items) => items | _ => [] end.

(** What the harness says of an open window. *)
Record Window := MkWindow { idle_word : bool; at_work : bool }.

Record Frontier := MkFrontier { f_last : option (string * bool); f_items : nat; f_at_prompt : bool }.

#[export] Instance frontier_eq_dec : EqDecision Frontier.
Proof. solve_decision. Defined.

(** [Frontier::of] *)
Definition frontier_of (o : Observed) : Frontier :=
  MkFrontier ((fun item => (i_id item, i_complete item)) <$> last (items o)) (length (items o))
             (at_prompt o).

Record Rest := MkRest { since : Z; r_frontier : Frontier; look : Z }.

Record Paced := MkPaced {
  message : Z;
  frontier : Frontier;
  rest_ms : Z;
  p_typed_quiet : option Z;
  p_screen_quiet : option Z;
  p_output_quiet : option Z;
  fallback : bool
}.

Inductive Pace := Go | Wait (why : string) | Gone.


(** [Limits]; [in_seconds] is the settle in seconds, as a double is written. *)
Record Limits := MkLimits { settle_ms : Z; settle_from_first_look : bool; in_seconds : string }.

(** What a launch put ahead of the window's queue. *)
Record Prelude_ := MkPrelude { replacement : Z; displaced : option Z }.

Record part := Part {
  looks : Z;
  rest : option Rest;
  unrest : option string;
  paced_ : option Paced;
  at_work_since : option Z;
  prelude : option Prelude_
}.

(** Whether a look read the window's record. *)
Definition read (o : Observed) : bool :=
  match reading o with Some r => negb (read_failed r) | None => false end.

Definition unreadable (o : Observed) : string :=
  "its record cannot be read (" +:+ default "no reading" (reading o ≫= reason) +:+
  "): nothing is typed into it until it can be".

Definition AT_WORK : string := "its harness says it is at work".
Definition NOT_RESTED : string := "it has not rested ".


(** Whether a reason to wait passes by itself in seconds. *)
Definition passing (reason : string) : bool := String.prefix NOT_RESTED reason.

Definition set_rest (r : option Rest) (why : option string) (d : part) : part :=
  Part (looks d) r why (paced_ d) (at_work_since d) (prelude d).
Definition set_at_work_since (x : option Z) (d : part) : part :=
  Part (looks d) (rest d) (unrest d) (paced_ d) x (prelude d).

(** The step's look is the next: its number. *)
Definition looked (d : part) : Z * part :=
  (looks d + 1, Part (looks d + 1) (rest d) (unrest d) (paced_ d) (at_work_since d) (prelude d)).

(** The harness's live word that its window is at work. *)
Definition says_at_work (w : option Window) : bool := match w with Some w => at_work w | None => false end.

(** The step's look [looked]: the rest goes on, begins or ends. *)
Definition note_rest (w : option Window) (o : Observed) (idle : bool) (looked now : Z) (d : part) : part :=
  if negb (idle && read o) || says_at_work w then
    set_rest None
      (if negb (read o) then Some (unreadable o)
       else if says_at_work w then Some AT_WORK else None) d
  else
    let new := set_rest (Some (MkRest now (frontier_of o) looked)) None d in
    match rest d with
    | Some r =>
        if bool_decide (r_frontier r = frontier_of o) && (look r + 1 =? looked)
        then set_rest (Some (MkRest (since r) (r_frontier r) looked)) None d
        else new
    | None => new
    end.

(** Whether the window's harness is asked its live word again. *)
Definition recheck_if_due (l : Limits) (w : option Window) (o : Observed) (idle : bool) (now : Z)
    (d : part) : bool * part :=
  if says_at_work w && idle && read o then
    let since := default now (at_work_since d) in
    let d := set_at_work_since (Some since) d in
    if (settle_ms l =? 0) || (now - since <? settle_ms l) then (false, d)
    else (true, set_at_work_since (Some now) d)
  else (false, set_at_work_since None d).

Definition rested_for (now : Z) (d : part) : option Z := (fun r => now - since r) <$> rest d.

Definition rest_ends (d : part) : part :=
  Part (looks d) None (unrest d) None (at_work_since d) (prelude d).

(** ** The gate *)


(** What happens at a window while the engine waits. *)
Inductive event :=
| Looked
| Noted (w : option Window) (o : Observed) (idle : bool) (number now : Z)
| Rechecked (l : Limits) (w : option Window) (o : Observed) (idle : bool) (now : Z)
| RestEnds
| Launched (prelude : option Prelude_).

Definition step (e : event) (d : part) : part :=
  match e with
  | Looked => (looked d).2
  | Noted w o idle number now => note_rest w o idle number now d
  | Rechecked l w o idle now => (recheck_if_due l w o idle now d).2
  | RestEnds => rest_ends d
  | Launched p => Part (looks d) (rest d) (unrest d) (paced_ d) (at_work_since d) p
  end.

Definition steps (es : list event) (d : part) : part := fold_left (fun d e => step e d) es d.


(** What an input box is read as. *)
Inductive InputBox := Empty | Holds.

(** The fresh look just before [m]'s paste. [known] is whether the record's participant is there;
    [fresh] is the look, none where it failed, [w] the window after it and [box] what its input box
    was read as, none where it was not. *)
Definition still_at_rest (m : Z) (known : bool) (others : list event) (fresh : option Observed)
    (w : option Window) (box : option InputBox) (forgotten : bool) (d : part) : Pace * part :=
  match paced_ d with
  | Some p =>
      if message p =? m then
        if negb known then (Gone, d)
        else
          let d := steps others d in
          if forgotten then (Gone, d)
          else
            let why :=
              match fresh with
              | None => Some "a look at it failed as the message was to go"%string
              | Some o =>
                  if negb (read o) then Some (unreadable o)
                  else if negb (settled o) || waiting o then
                    Some "it began a turn as the message was to go"%string
                  else if negb (bool_decide (frontier_of o = frontier p)) then
                    Some "its record changed as the message was to go"%string
                  else if says_at_work w then Some AT_WORK
                  else match box with
                       | Some Holds => Some "its input box holds words"%string
                       | _ => None
                       end
              end in
            match why with
            | None => (Go, d)
            | Some why => (Wait why, rest_ends d)
            end
      else (Go, d)
  | None => (Go, d)
  end.

(** What the look that let [m] go read, for its delivery to say. *)
Definition paced_look (m : Z) (d : part) : option Paced :=
  match paced_ d with Some p => if message p =? m then Some p else None | None => None end.

Definition opened : part := Part 0 None None None None None.

(** ** A rest *)

(** A look that read the window at rest on [f]. *)
Definition at_rest (f : Frontier) (w : option Window) (o : Observed) (idle : bool) : Prop :=
  idle = true /\ read o = true /\ says_at_work w = false /\ frontier_of o = f.

(** Nothing of the window's rest. *)
Definition apart (e : event) : Prop :=
  match e with Looked | Rechecked _ _ _ _ _ | Launched _ => True | _ => False end.

(** Looks in a row from the time [from], each the number after the one before it, all of which read
    the window at rest on [f]; the last of them is the look [number]. *)
Inductive in_a_row (f : Frontier) (from : Z) : Z -> list event -> Prop :=
| Begins w o idle number :
    at_rest f w o idle -> in_a_row f from number [Noted w o idle number from]
| GoesOn es w o idle number now :
    in_a_row f from number es -> at_rest f w o idle ->
    in_a_row f from (number + 1) (es ++ [Noted w o idle (number + 1) now])
| Passes es e number : in_a_row f from number es -> apart e -> in_a_row f from number (es ++ [e]).

Lemma steps_of_app es es' d : steps (es ++ es') d = steps es' (steps es d).
Proof. apply fold_left_app. Qed.

Lemma note_rest_cases w o idle number now d :
  rest (note_rest w o idle number now d) = None \/
  at_rest (frontier_of o) w o idle /\
  (rest (note_rest w o idle number now d) = Some (MkRest now (frontier_of o) number) \/
   exists r, rest d = Some r /\ r_frontier r = frontier_of o /\ look r + 1 = number /\
     rest (note_rest w o idle number now d) = Some (MkRest (since r) (r_frontier r) number)).
Proof.
  unfold note_rest. destruct (negb (idle && read o) || says_at_work w) eqn:E; [by left|]. right.
  apply orb_false_iff in E as [[-> Hr]%negb_false_iff%andb_true_iff Hw]. split; [done|].
  destruct (rest d) as [r|]; [|by left].
  destruct (bool_decide _ && _) eqn:Ec; [|by left]. right. exists r.
  apply andb_true_iff in Ec as [Ef%bool_decide_eq_true El%Z.eqb_eq]. done.
Qed.

Lemma rest_apart e d : apart e -> rest (step e d) = rest d.
Proof.
  destruct e as [|? ? ? ? ?|l w o idle now| |]; try done. intros _. cbn [step]. unfold recheck_if_due.
  by repeat case_match.
Qed.

Lemma rest_in_a_row es r :
  rest (steps es opened) = Some r ->
  exists before row, es = before ++ row /\ in_a_row (r_frontier r) (since r) (look r) row.
Proof.
  revert r. induction es as [|e es IH] using rev_ind; intros r Hr; [done|].
  rewrite steps_of_app in Hr. cbn [steps fold_left] in Hr.
  assert (Happ : forall before row, es = before ++ row -> es ++ [e] = before ++ (row ++ [e]))
    by (intros ? ? ->; by rewrite app_assoc).
  destruct e as [|w o idle number now|l w o idle now| |pl];
    try (rewrite rest_apart in Hr by done; destruct (IH r Hr) as (before & row & E & Hrow);
         exists before; eexists; split; [apply Happ, E|by apply Passes]); cbn [step] in Hr; [|done].
  destruct (note_rest_cases w o idle number now (steps es opened)) as [E|[Hat [E|(r' & Er & Ef & El & E)]]];
    rewrite E in Hr; [done|injection Hr as <-..].
  - exists es, [Noted w o idle number now]. split; [done|]. by apply Begins.
  - destruct (IH r' Er) as (before & row & Ees & Hrow). exists before, (row ++ [Noted w o idle number now]).
    split; [by apply Happ|]. simpl. subst number. apply GoesOn; [done|by rewrite Ef].
Qed.

(** A rest that a window is read to have is of looks in a row since it began, each of which read
    its record, its harness not at work and the same last item, with no other look and no failed
    one between them. *)
Theorem rest_is_looks_in_a_row es now ms :
  rested_for now (steps es opened) = Some ms ->
  exists before row f number, es = before ++ row /\ in_a_row f (now - ms) number row.
Proof.
  unfold rested_for. destruct (rest (steps es opened)) as [r|] eqn:Er; [|done]. intros [= <-].
  destruct (rest_in_a_row es r Er) as (before & row & E & Hrow).
  exists before, row, (r_frontier r), (look r). split; [done|]. by replace (now - (now - since r)) with (since r) by lia.
Qed.

(** *** The gate and the fresh look *)








(** A fresh look that reads otherwise gives the message back, and the rest is over. *)
Lemma still_wait m known others fresh w box forgotten d d' why :
  still_at_rest m known others fresh w box forgotten d = (Wait why, d') ->
  rest d' = None /\ paced_ d' = None.
Proof.
  unfold still_at_rest. destruct (paced_ d) as [p|]; [|done]. destruct (message p =? m); [|done].
  destruct known; [|done]. destruct forgotten; [done|]. cbn [negb].
  match goal with |- (match ?x with Some _ => _ | None => _ end) = _ -> _ => destruct x end;
    [by intros [= _ <-]|done].
Qed.

(** *** What the harness is asked *)

(** Rechecks one after another, at the times given: which of them asked. *)
Fixpoint asked_at (l : Limits) (looks : list (option Window * Observed * bool * Z)) (d : part) : list Z :=
  match looks with
  | [] => []
  | (w, o, idle, now) :: rest =>
      let '(asks, d) := recheck_if_due l w o idle now d in
      (if asks then [now] else []) ++ asked_at l rest d
  end.

(** Each time is a settle or more after the one before. *)
Fixpoint apart_by (settle : Z) (times : list Z) : Prop :=
  match times with
  | t :: ((t' :: _) as rest) => t + settle <= t' /\ apart_by settle rest
  | _ => True
  end.

Lemma asked_after l looks d lo :
  0 <= settle_ms l ->
  StronglySorted Z.le (lo :: (snd <$> looks)) ->
  (forall t, at_work_since d = Some t -> lo <= t) ->
  apart_by (settle_ms l) (asked_at l looks d) /\
  Forall (fun t => lo + settle_ms l <= t) (asked_at l looks d).
Proof.
  intros Hl. revert d lo. induction looks as [|[[[w o] idle] now] looks IH]; intros d lo Hsorted Hd; [done|].
  apply StronglySorted_inv in Hsorted as [Hsorted Hlo]. rewrite fmap_cons in Hsorted, Hlo. simpl in Hsorted, Hlo.
  apply Forall_cons in Hlo as [Hnow Hlo].
  assert (Hlater : StronglySorted Z.le (lo :: (snd <$> looks)))
    by (constructor; [by apply StronglySorted_inv in Hsorted as []|done]).
  cbn [asked_at]. unfold recheck_if_due.
  destruct (says_at_work w && idle && read o); [|by apply (IH _ lo)].
  assert (Hsince : lo <= default now (at_work_since d)) by (destruct (at_work_since d) eqn:E; simpl; auto).
  destruct ((settle_ms l =? 0) || _) eqn:E.
  - apply (IH _ lo); [done|]. simpl. intros t [= <-]. done.
  - apply orb_false_iff in E as [_ E%Z.ltb_ge].
    destruct (IH (set_at_work_since (Some now) (set_at_work_since (Some (default now (at_work_since d))) d)) now)
      as [H1 H2]; [done|by intros t [= <-]|].
    simpl. split.
    + destruct (asked_at l looks _) as [|t ts]; [done|]. apply Forall_cons in H2 as [H2 _]. done.
    + constructor; [lia|]. eapply Forall_impl; [exact H2|]. simpl. lia.
Qed.

(** A window's harness is asked again for its live word at most once a settle, whatever the looks
    between read. *)
Theorem harness_is_asked_once_a_settle l looks d :
  0 <= settle_ms l -> StronglySorted Z.le (snd <$> looks) -> at_work_since d = None ->
  apart_by (settle_ms l) (asked_at l looks d).
Proof.
  intros Hl Hsorted Hd. destruct looks as [|[[[w o] idle] now] looks]; [done|].
  apply (asked_after l _ _ now); [done| |by rewrite Hd].
  constructor; [done|]. simpl in *. apply StronglySorted_inv in Hsorted as [_ Hf].
  by constructor.
Qed.

(** ** A window at rest *)

Definition example_limits : Limits := MkLimits 3000 false "3".
Definition example_window : Window := MkWindow true false.
Definition example_look : Observed :=
  MkObserved (Some (Known [MkItem "a" true])) true false true.

Definition example_looks : list event :=
  [Looked; Noted (Some example_window) example_look true 1 10000;
   Looked; Noted (Some example_window) example_look true 2 12000;
   Looked; Noted (Some example_window) example_look true 3 14000].

Lemma rest_is_looks_in_a_row_witness :
  rested_for 14000 (steps example_looks opened) = Some 4000 /\
  exists before row f number, example_looks = before ++ row /\ in_a_row f (14000 - 4000) number row.
Proof.
  assert (H : rested_for 14000 (steps example_looks opened) = Some 4000) by reflexivity.
  split; [exact H|]. exact (rest_is_looks_in_a_row example_looks 14000 4000 H).
Defined.


Lemma harness_is_asked_once_a_settle_witness :
  let at_work_ := MkWindow true true in
  let looks := (fun now => (Some at_work_, example_look, true, now)) <$> [0; 2000; 4000; 5000; 8000] in
  asked_at example_limits looks opened = [4000; 8000] /\
  apart_by 3000 (asked_at example_limits looks opened).
Proof.
  intros at_work_ looks. split; [vm_compute; reflexivity|].
  apply (harness_is_asked_once_a_settle example_limits looks opened); [done| |reflexivity].
  repeat constructor; done.
Defined.
