(* ===== verification/Text.v ===== *)
(** * Text as the ledger and the engine handle it: [cf-base/src/text.rs], [js.rs]

    First what they use of Rust's [str], over the characters of a text: prefixes and suffixes,
    cuts at a separator, joins, and an [i64] written and read; then the program's own: JavaScript's
    measures ([utf16_len], [utf16_prefix], [pad_end], [trim]) and the text a window can take
    ([window_text]). *)
From S2P Require Import Prelude Utf8 Keys.
#[local] Open Scope Z_scope.

Abbreviation text := (list char).

(** A literal of the source. *)
Definition txt (s : string) : text := default [] (from_utf8 (String.list_byte_of_string s)).

(** ** Rust's [str] *)

(** [strip_prefix], [strip_suffix] *)
Fixpoint strip_prefix (p t : text) : option text :=
  match p, t with
  | [], _ => Some t
  | c :: p, d :: t => if c =? d then strip_prefix p t else None
  | _ :: _, [] => None
  end.

Definition strip_suffix (s t : text) : option text :=
  @reverse char <$> strip_prefix (reverse s) (reverse t).

(** [split_once]: at the first of [sep]. *)
Fixpoint split_once (sep t : text) : option (text * text) :=
  match strip_prefix sep t with
  | Some rest => Some ([], rest)
  | None => match t with
            | [] => None
            | c :: t => prod_map (cons c) id <$> split_once sep t
            end
  end.

(** [split(c)] *)
Fixpoint split_at (sep : char) (t : text) : list text :=
  match t with
  | [] => [[]]
  | c :: t => if c =? sep then [] :: split_at sep t
              else match split_at sep t with
                   | first :: rest => (c :: first) :: rest
                   | [] => [[c]]
                   end
  end.

(** [to_ascii_lowercase], of a character. *)
Definition ascii_lower (c : char) : char := if within 0x41 0x5A c then c + 0x20 else c.

(** [split] by a test of the characters. *)
Fixpoint split_by (p : char -> bool) (t : text) : list text :=
  match t with
  | [] => [[]]
  | c :: t => if p c then [] :: split_by p t
              else match split_by p t with
                   | first :: rest => (c :: first) :: rest
                   | [] => [[c]]
                   end
  end.

(** [split_whitespace] *)
Definition split_whitespace (t : text) : list text := List.filter (fun part => negb (bool_decide (part = []))) (split_by is_whitespace t).

(** [split(sep)] of a separator that is not empty, with a turn for each part. *)
Fixpoint split_turns (turns : nat) (sep t : text) : list text :=
  match turns, split_once sep t with
  | S turns, Some (first, rest) => first :: split_turns turns sep rest
  | _, _ => [t]
  end.
Definition split (sep t : text) : list text := split_turns (length t) sep t.

(** [join(sep)] *)
Fixpoint join (sep : text) (parts : list text) : text :=
  match parts with
  | [] => []
  | [t] => t
  | t :: parts => t ++ sep ++ join sep parts
  end.

(** [i64]'s [Display] and [FromStr]. *)
Fixpoint digits (fuel : nat) (n : Z) : text :=
  match fuel with
  | O => []
  | S fuel => (if n <? 10 then [] else digits fuel (n / 10)) ++ [0x30 + n mod 10]
  end.
Definition unsigned (n : Z) : text := digits (Z.to_nat (Z.log2 n) + 1) n.
Definition show (n : Z) : text := if n <? 0 then 0x2D :: unsigned (- n) else unsigned n.

Definition is_digit (c : char) : bool := within 0x30 0x39 c.
Definition value_of (ds : text) : Z := foldl (fun v c => v * 10 + (c - 0x30)) 0 ds.
Definition is_i64 (n : Z) : bool := within (- 2 ^ 63) (2 ^ 63 - 1) n.

Definition read_i64 (t : text) : option Z :=
  let '(sign, ds) := match t with
                     | c :: ds => if c =? 0x2D then (-1, ds) else if c =? 0x2B then (1, ds) else (1, t)
                     | [] => (1, t)
                     end in
  let n := sign * value_of ds in
  if negb (bool_decide (ds = [])) && forallb is_digit ds && is_i64 n then Some n else None.

(** ** JavaScript's measures *)

Definition len_utf16 (c : char) : nat := if c <? 0x10000 then 1 else 2.
Definition utf16_len (t : text) : nat := sum_list_with len_utf16 t.

(** The first [units] code units, a character cut in half as U+FFFD. *)
Fixpoint utf16_prefix (t : text) (units : nat) : text :=
  match t with
  | [] => []
  | c :: t =>
      if (len_utf16 c <=? units)%nat then c :: utf16_prefix t (units - len_utf16 c)
      else if (0 <? units)%nat then [REPLACEMENT_CHARACTER] else []
  end.

Definition pad_end (t : text) (width : nat) : text := t ++ replicate (width - utf16_len t) 0x20.

(** [js::is_space], [js::trim] *)
Definition is_space (c : char) : bool := (c =? 0xFEFF) || (negb (c =? 0x85) && is_whitespace c).

Fixpoint trim_start (t : text) : text :=
  match t with
  | c :: rest => if is_space c then trim_start rest else t
  | [] => []
  end.
Definition trim (t : text) : text := reverse (trim_start (reverse (trim_start t))).

(** [cf-ledger]'s [model::require_text]. *)
Definition MAX_BODY : nat := Z.to_nat 1000000.
Definition MAX_TITLE : nat := 120.
Definition require_text (t : text) (max : nat) : bool :=
  negb (bool_decide (trim t = []) || (max <? utf16_len t)%nat).

(** ** Text a window can take *)

(** [replace("\r\n", "\n")] *)
Fixpoint without_cr (t : text) : text :=
  match t with
  | c :: ((d :: _) as rest) => if (c =? 0x0D) && (d =? 0x0A) then without_cr rest
                               else c :: without_cr rest
  | _ => t
  end.

Definition shown (c : char) : char :=
  if (c =? TAB) || (c =? LF) then c
  else if within 0 0x1F c then 0x2400 + c
  else if c =? 0x7F then 0x2421
  else if within 0x80 0x9F c then REPLACEMENT_CHARACTER
  else c.

Definition window_text (t : text) : text := shown <$> without_cr t.

(** ** What follows of them *)

Lemma strip_prefix_Some p t rest : strip_prefix p t = Some rest <-> t = p ++ rest.
Proof.
  revert t. induction p as [|c p IH]; intros t; simpl; [naive_solver|].
  destruct t as [|d t]; [naive_solver|]. destruct (Z.eqb_spec c d) as [->|Hne].
  - rewrite IH. naive_solver.
  - naive_solver.
Qed.

Lemma strip_suffix_Some s t rest : strip_suffix s t = Some rest <-> t = rest ++ s.
Proof.
  unfold strip_suffix. split.
  - intros (r & E%strip_prefix_Some & ->)%fmap_Some. apply (f_equal reverse) in E.
    by rewrite reverse_involutive, reverse_app, reverse_involutive in E.
  - intros ->. rewrite reverse_app. apply fmap_Some. exists (reverse rest).
    by rewrite strip_prefix_Some, reverse_involutive.
Qed.

Lemma strip_prefix_app p t : strip_prefix p (p ++ t) = Some t.
Proof. by apply strip_prefix_Some. Qed.

Lemma strip_suffix_app s t : strip_suffix s (t ++ s) = Some t.
Proof. by apply strip_suffix_Some. Qed.

Lemma strip_suffix_other x y s t u : x <> y -> strip_suffix (s ++ x :: u) (t ++ y :: u) = None.
Proof.
  intros Hne. destruct (strip_suffix _ _) as [r|] eqn:E; [|done]. apply strip_suffix_Some in E.
  rewrite (app_assoc r) in E. apply (app_inj_2 t (r ++ s)) in E as [_ E]; [congruence|done].
Qed.

(** A text no character of which opens the separator holds none of it. *)
Lemma split_once_skip sep c t rest :
  Forall (fun d => d <> c) t ->
  split_once (c :: sep) (t ++ rest) = prod_map (app t) id <$> split_once (c :: sep) rest.
Proof.
  induction 1 as [|d t Hd Ht IH].
  { rewrite app_nil_l. by destruct (split_once (c :: sep) rest) as [[]|]. }
  simpl.
  destruct (Z.eqb_spec c d); [congruence|]. rewrite IH. by destruct (split_once (c :: sep) rest) as [[]|].
Qed.

Lemma split_once_Some sep t a b : split_once sep t = Some (a, b) -> t = a ++ sep ++ b.
Proof.
  revert a b. induction t as [|c t IH]; intros a b; cbn [split_once]; destruct (strip_prefix _ _) as [r|] eqn:E.
  - intros [= <- <-]. by apply strip_prefix_Some in E.
  - done.
  - intros [= <- <-]. by apply strip_prefix_Some in E.
  - intros ([a0 b0] & Hs%IH & [= -> ->])%fmap_Some. simpl. by rewrite <- Hs.
Qed.

Lemma split_once_here sep rest : split_once sep (sep ++ rest) = Some ([] : text, rest).
Proof.
  assert (strip_prefix sep (sep ++ rest) = Some rest) as E by by apply strip_prefix_Some.
  destruct (sep ++ rest); cbn [split_once]; by rewrite E.
Qed.

Lemma split_once_first sep c t rest :
  Forall (fun d => d <> c) t -> split_once (c :: sep) (t ++ (c :: sep) ++ rest) = Some (t, rest).
Proof. intros Ht. rewrite split_once_skip, split_once_here by done. simpl. by rewrite app_nil_r. Qed.

Lemma split_once_none sep c t : Forall (fun d => d <> c) t -> split_once (c :: sep) t = None.
Proof. intros Ht. rewrite <- (app_nil_r t). by rewrite split_once_skip. Qed.

Lemma split_by_parts p t : Forall (Forall (fun c => p c = false)) (split_by p t).
Proof.
  induction t as [|c t IH]; simpl; [by repeat constructor|]. destruct (p c) eqn:E; [by constructor|].
  destruct (split_by p t) as [|first rest]; [by repeat constructor|]. inversion IH; subst. by repeat constructor.
Qed.

Lemma split_by_in p t part c : part ∈ split_by p t -> c ∈ part -> c ∈ t.
Proof.
  revert part. induction t as [|d t IH]; intros part; simpl; [intros ->%list_elem_of_singleton; set_solver|].
  destruct (p d); [intros [->|H]%elem_of_cons Hc; [set_solver|right; by eapply IH]|].
  destruct (split_by p t) as [|first rest]; [intros ->%list_elem_of_singleton; set_solver|].
  intros [->|H]%elem_of_cons Hc; [apply elem_of_cons in Hc as [->|Hc]; [left|right; apply (IH first); [left|done]]|right; apply (IH part); [by right|done]].
Qed.

Lemma split_by_ne p t : split_by p t <> [].
Proof. destruct t as [|c t]; simpl; [done|]. destruct (p c); [done|]. by destruct (split_by p t). Qed.

Lemma utf16_len_app s t : utf16_len (s ++ t) = (utf16_len s + utf16_len t)%nat.
Proof. induction s; simpl; lia. Qed.

Lemma utf16_prefix_len t units :
  utf16_len (utf16_prefix t units) = Nat.min units (utf16_len t).
Proof.
  unfold utf16_len. revert units. induction t as [|c t IH]; intros units; simpl; [lia|].
  assert (len_utf16 c = 1 \/ len_utf16 c = 2)%nat as Hc by (unfold len_utf16; destruct (_ <? _); auto).
  destruct (Nat.leb_spec (len_utf16 c) units); simpl; [rewrite IH; lia|].
  destruct (Nat.ltb_spec 0 units); simpl; lia.
Qed.

(** ** Numbers *)

Lemma digits_spec fuel n :
  0 <= n < 2 ^ Z.of_nat fuel -> (0 < fuel)%nat ->
  Forall (fun c => is_digit c = true) (digits fuel n) /\ digits fuel n <> [] /\
  value_of (digits fuel n) = n.
Proof.
  revert n. induction fuel as [|fuel IH]; intros n Hn Hf; [lia|]. cbn [digits].
  assert (is_digit (0x30 + n mod 10) = true) as Hd.
  { unfold is_digit, within. pose proof (Z.mod_pos_bound n 10). lia. }
  destruct (Z.ltb_spec n 10) as [Hlt|Hge].
  - split_and!; [by repeat constructor|done|]. unfold value_of. simpl. rewrite Z.mod_small; lia.
  - rewrite Nat2Z.inj_succ, Z.pow_succ_r in Hn by lia.
    destruct fuel as [|fuel]; [simpl in Hn; lia|].
    destruct (IH (n / 10)) as (Hds & Hne & Hv); [|lia|].
    { pose proof (Z.div_lt_upper_bound n 10 (2 ^ Z.of_nat (S fuel))). pose proof (Z.div_pos n 10). lia. }
    split_and!; [by apply Forall_app_2; [|repeat constructor]|by intros [_ [=]]%app_nil|].
    unfold value_of in *. rewrite foldl_app, Hv. simpl. pose proof (Z.div_mod n 10). lia.
Qed.

Lemma unsigned_spec n :
  0 <= n ->
  Forall (fun c => is_digit c = true) (unsigned n) /\ unsigned n <> [] /\ value_of (unsigned n) = n.
Proof.
  intros Hn. apply digits_spec; [|lia]. rewrite Nat2Z.inj_add, Z2Nat.id by apply Z.log2_nonneg.
  split; [done|]. destruct (decide (n = 0)) as [->|Hne]; [done|].
  rewrite Z.add_1_r. by apply Z.log2_spec; lia.
Qed.

Lemma forallb_Forall {A} (f : A -> bool) l : forallb f l = true <-> Forall (fun x => f x = true) l.
Proof. rewrite Forall_forall, forallb_forall. by setoid_rewrite list_elem_of_In. Qed.

Lemma read_show n : is_i64 n = true -> read_i64 (show n) = Some n.
Proof.
  intros Hn. unfold show. destruct (Z.ltb_spec n 0) as [Hneg|Hpos].
  - destruct (unsigned_spec (- n)) as (Hds%forallb_Forall & Hne & Hv); [lia|]. unfold read_i64. simpl.
    rewrite bool_decide_eq_false_2, Hds, Hv by done. simpl negb. simpl andb.
    replace (-1 * - n) with n by lia. by rewrite Hn.
  - destruct (unsigned_spec n) as (Hds & Hne & Hv); [lia|]. unfold read_i64.
    destruct (unsigned n) as [|c ds]; [done|].
    assert (is_digit c = true) as Hc by (by apply Forall_cons in Hds as [? _]).
    unfold is_digit in Hc. ranges. repeat settle_test.
    apply forallb_Forall in Hds. rewrite bool_decide_eq_false_2, Hds, Hv, Z.mul_1_l by done. simpl.
    by rewrite Hn.
Qed.

(** ** What a window takes *)

Lemma shown_allowed c : is_scalar c = true -> is_scalar (shown c) && allowed (shown c) = true.
Proof.
  intros Hc. unfold shown, allowed, is_control, is_scalar, REPLACEMENT_CHARACTER, TAB, LF, within in *.
  repeat case_match; lia.
Qed.

Lemma without_cr_scalar t :
  Forall (fun c => is_scalar c = true) t -> Forall (fun c => is_scalar c = true) (without_cr t).
Proof.
  induction 1 as [|c t Hc Ht IH]; [by constructor|]. cbn [without_cr]. destruct t as [|d t]; [by constructor|].
  destruct (_ && _); [done|by constructor].
Qed.

(** What the engine makes of a text for a window is what the pane takes of it: whatever the
    text, the pane host takes its delivery as it is, with nothing refused or changed, and a text
    the pane takes already goes as it is. *)
Theorem window_text_is_taken t :
  Forall (fun c => is_scalar c = true) t ->
  sanitize (encode (window_text t)) = inl (encode (window_text t)) /\
  (sanitize (encode t) = inl (encode t) -> window_text t = t).
Proof.
  intros Ht. split.
  - apply sanitize_takes_text. apply Forall_fmap, (Forall_impl _ _ _ (without_cr_scalar t Ht)).
    intros c Hc. by apply shown_allowed.
  - intros (_ & u & Hu & Ha)%sanitize_spec. rewrite from_utf8_encode in Hu by done. injection Hu as <-. unfold window_text.
    assert (without_cr t = t) as ->.
    { clear Ht. induction Ha as [|c t Hc Ha IH]; [done|]. cbn [without_cr]. destruct t as [|d t]; [done|].
      rewrite IH. unfold allowed, is_control, TAB, LF, within in Hc.
      destruct (Z.eqb_spec c 0x0D); [subst; done|done]. }
    rewrite <- (list_fmap_id t) at 2. apply list_fmap_ext. intros i c Hi.
    apply (list_elem_of_lookup_2) in Hi. rewrite Forall_forall in Ha. specialize (Ha c Hi).
    unfold allowed, is_control, shown, TAB, LF, within, id in *. repeat case_match; lia.
Qed.

#[global] Arguments strip_prefix : simpl never.
#[global] Arguments split_once : simpl never.
#[global] Arguments txt : simpl never.

(** ** Trimming *)

Abbreviation blank := (Forall (fun c => is_space c = true)).

Lemma trim_start_blank p t : blank p -> trim_start (p ++ t) = trim_start t.
Proof. induction 1 as [|c p Hc Hp IH]; [done|]. simpl. by rewrite Hc. Qed.

Lemma trim_start_nil t : trim_start t = [] <-> blank t.
Proof.
  induction t as [|c t IH]; [by split; [constructor|]|]. simpl. rewrite Forall_cons.
  destruct (is_space c); [rewrite IH; tauto|]. by split; [|intros [? _]].
Qed.

Lemma trim_start_app t p : ~ blank t -> trim_start (t ++ p) = trim_start t ++ p.
Proof.
  induction t as [|c t IH]; simpl; [by intros []|]. destruct (is_space c) eqn:Ec; [|done].
  intros Hn. apply IH. intros Hb. by apply Hn; constructor.
Qed.

Lemma trim_start_suffix t : exists p, blank p /\ t = p ++ trim_start t.
Proof.
  induction t as [|c t (p & Hp & E)]; [by exists []|]. simpl. destruct (is_space c) eqn:Ec; [|by exists []].
  exists (c :: p). split; [by constructor|]. simpl. by rewrite <- E.
Qed.

Lemma trim_nil t : trim t = [] <-> blank t.
Proof.
  unfold trim. rewrite <- (reverse_nil (A := char)) at 1. rewrite (inj_iff reverse).
  rewrite trim_start_nil, Forall_reverse. split; [|by intros ->%trim_start_nil].
  intros Hb. destruct (trim_start_suffix t) as (p & Hp & E). rewrite E. by apply Forall_app_2.
Qed.

Lemma trim_blank_l p t : blank p -> trim (p ++ t) = trim t.
Proof. intros Hp. unfold trim. by rewrite trim_start_blank. Qed.

Lemma trim_blank_r t p : blank p -> trim (t ++ p) = trim t.
Proof.
  intros Hp. destruct (decide (blank t)) as [Hb|Hb].
  - rewrite !(proj2 (trim_nil _)); [done..|by apply Forall_app_2].
  - unfold trim. rewrite trim_start_app by done. rewrite reverse_app, trim_start_blank; [done|].
    by apply Forall_reverse.
Qed.

(** What is left begins and ends with no space, so trimming again changes nothing. *)
Lemma trim_spec t : exists p q, blank p /\ blank q /\ t = p ++ trim t ++ q.
Proof.
  destruct (trim_start_suffix t) as (p & Hp & E).
  destruct (trim_start_suffix (reverse (trim_start t))) as (q & Hq & E').
  exists p, (reverse q). split_and!; [done|by apply Forall_reverse|].
  rewrite E at 1. f_equal. unfold trim. rewrite <- reverse_app, <- E'. by rewrite reverse_involutive.
Qed.

Lemma utf16_len_trim t : (utf16_len (trim t) <= utf16_len t)%nat.
Proof. destruct (trim_spec t) as (p & q & _ & _ & E). rewrite E at 2. rewrite !utf16_len_app. lia. Qed.

Lemma trim_idemp t : trim (trim t) = trim t.
Proof.
  destruct (trim_spec t) as (p & q & Hp & Hq & E). rewrite E at 2. by rewrite trim_blank_l, trim_blank_r.
Qed.

(** The lines of a text are its parts at the line feeds. *)
Lemma join_split_at sep t : join [sep] (split_at sep t) = t.
Proof.
  induction t as [|c t IH]; [done|]. cbn [split_at].
  assert (split_at sep t <> []) as Hne.
  { destruct t as [|d t]; [done|]. simpl. destruct (d =? sep); [done|]. by destruct (split_at sep t). }
  destruct (Z.eqb_spec c sep) as [->|Hc]; destruct (split_at sep t) as [|first rest] eqn:E; try done.
  - by rewrite <- IH.
  - rewrite <- IH. by destruct rest.
Qed.

Lemma split_at_here sep t rest :
  Forall (fun c => c <> sep) t -> split_at sep (t ++ sep :: rest) = t :: split_at sep rest.
Proof.
  induction 1 as [|c t Hc Ht IH]; simpl; [by rewrite Z.eqb_refl|].
  destruct (Z.eqb_spec c sep); [done|]. by rewrite IH.
Qed.

Lemma split_at_none sep t : Forall (fun c => c <> sep) t -> split_at sep t = [t].
Proof.
  induction 1 as [|c t Hc Ht IH]; [done|]. simpl. destruct (Z.eqb_spec c sep); [done|]. by rewrite IH.
Qed.

Lemma split_at_join sep parts :
  parts <> [] -> Forall (Forall (fun c => c <> sep)) parts -> split_at sep (join [sep] parts) = parts.
Proof.
  intros Hne Hp. destruct parts as [|t parts]; [done|]. clear Hne. revert t Hp.
  induction parts as [|u parts IH]; intros t [Ht Hp]%Forall_cons; [by apply split_at_none|].
  change (join [sep] (t :: u :: parts)) with (t ++ sep :: join [sep] (u :: parts)).
  by rewrite split_at_here, IH.
Qed.

Lemma join_snoc sep parts t : parts <> [] -> join sep (parts ++ [t]) = join sep parts ++ sep ++ t.
Proof.
  intros Hne. destruct parts as [|u parts]; [done|]. clear Hne. revert u.
  induction parts as [|v parts IH]; intros u; [done|].
  change (join sep ((u :: v :: parts) ++ [t])) with (u ++ sep ++ join sep ((v :: parts) ++ [t])).
  rewrite IH. simpl. by rewrite <- !app_assoc.
Qed.

(** A text none of whose lines says something is all space; one with one line that does is that
    line, but for the space around it. *)
Lemma no_line ls : filter (fun t : text => t <> []) (trim <$> ls) = [] -> blank (join [0x0A] ls).
Proof.
  induction ls as [|t ls IH]; [by constructor|]. cbn [fmap list_fmap filter list_filter].
  case_decide as Ht; [done|]. apply trim_nil in Ht. intros Hb. specialize (IH Hb).
  destruct ls; [done|]. simpl in *. apply Forall_app_2; [done|]. by constructor.
Qed.

Lemma one_line ls l :
  filter (fun t : text => t <> []) (trim <$> ls) = [l] -> trim (join [0x0A] ls) = l.
Proof.
  induction ls as [|t ls IH]; [done|]. cbn [fmap list_fmap filter list_filter]. case_decide as Ht.
  - intros [= <- Hb]. apply no_line in Hb. destruct ls; [done|]. simpl. rewrite trim_blank_r; [done|].
    by constructor.
  - apply trim_nil in Ht. intros Hl. specialize (IH Hl). destruct ls; [done|].
    cbn [join]. by rewrite (trim_blank_l t), (trim_blank_l [_]) by (done || by repeat constructor).
Qed.

(** ** Witnesses *)

(** An escape, a terminal's line break, a tab and an emoji. *)
Definition sample_shown : text := [0x1B; 0x0D; 0x0A; 0x09; 0x1F600; 0x0D; 0x85].

Lemma window_text_is_taken_witness :
  sanitize (encode (window_text sample_shown)) =
    inl (encode [0x241B; 0x0A; 0x09; 0x1F600; 0x240D; 0xFFFD]) /\
  (sanitize (encode sample_shown) = inl (encode sample_shown) -> window_text sample_shown = sample_shown).
Proof. exact (window_text_is_taken sample_shown ltac:(repeat constructor)). Defined.
