(* ===== verification/Questions.v ===== *)
(** * Questions with options and their answers by choice: [cf-ledger/src/questions.rs]

    What a harness's question tool asks is read from JSON ([require_questions]), and what answers
    it from choices or from words ([require_choices]); both are shown as text. How a number is
    written and how letters are lowered (Unicode's tables) are parameters. *)
From S2P Require Import Prelude Utf8 Text JsValue.
#[local] Open Scope Z_scope.

Record QuestionOption := { label : text; description : option text }.
Record Question :=
  { question : text; header : text; options : list QuestionOption; multiple : bool }.

(** Why a question or a choice is not taken. *)
Inductive BadQuestions := NotOneToFour | NoOptions | NoText | NotShort (field : string) | InvalidText.
Inductive BadChoices :=
| OneAnswerEach (questions : nat)
| Picks (header : text) (multiple : bool)
| EmptyPick
| PickTooLong (room : nat).

(** [collect::<Result<Vec<_>, _>>()]: the first refusal, where there is one. *)
Fixpoint collect {A B E} (f : A -> B + E) (xs : list A) : list B + E :=
  match xs with
  | [] => inl []
  | x :: xs => match f x with
               | inr e => inr e
               | inl y => match collect f xs with inl ys => inl (y :: ys) | inr e => inr e end
               end
  end.

Definition MAX_QUESTIONS : nat := 4.

Section Questions.
Context {N : Numbers} (number_text : num -> text) (to_lowercase : text -> text).

(** [js::text], and [js::join] of a list's items: [null] as nothing. *)
Fixpoint value_text (v : Value) : text :=
  match v with
  | Null => txt "null"
  | Str s => txt s
  | Array items =>
      join (txt ",") ((fun item => match item with Null => [] | _ => value_text item end) <$> items)
  | Object _ => txt "[object Object]"
  | Number n => number_text n
  | Bool flag => txt (if flag then "true" else "false")
  end.

Definition str (v : option Value) : option text := txt <$> (v ≫= as_str).

Definition short_text (v : option Value) (name : string) : text + BadQuestions :=
  match str v with
  | Some t => if negb (bool_decide (trim t = [])) && (utf16_len t <=? MAX_TITLE * 10)%nat
              then inl (trim t) else inr (NotShort name)
  | None => inr (NotShort name)
  end.

(** [map(js::trim).filter(|text| !text.is_empty())] *)
Definition said (v : option Value) : option text :=
  t ← str v; if decide (trim t = []) then None else Some (trim t).

Definition require_option (option : Value) : QuestionOption + BadQuestions :=
  match short_text (get "label" option) "an option label" with
  | inl label => inl {| label := label; description := said (get "description" option) |}
  | inr e => inr e
  end.

Definition require_question (question : Value) : Question + BadQuestions :=
  match get "options" question ≫= as_array with
  | None => inr NoOptions
  | Some options =>
      match said (get "question" question) with
      | None => inr NoText
      | Some t =>
          if negb (require_text t MAX_BODY) then inr InvalidText else
          match short_text (get "header" question) "header", collect require_option options with
          | inl header, inl options =>
              inl {| question := t; header := header; options := options;
                     multiple := match get "multiple" question with
                                 | Some (Bool true) => true
                                 | _ => false
                                 end |}
          | inr e, _ => inr e
          | _, inr e => inr e
          end
      end
  end.

Definition require_questions (questions : Value) : list Question + BadQuestions :=
  match as_array questions with
  | Some items => if (1 <=? length items)%nat && (length items <=? MAX_QUESTIONS)%nat
                  then collect require_question items else inr NotOneToFour
  | None => inr NotOneToFour
  end.

Definition render_option (option : QuestionOption) : text :=
  match description option with
  | None => txt "- " ++ label option
  | Some description => txt "- " ++ label option ++ txt ": " ++ description
  end.

Definition render_questions (questions : list Question) : text :=
  join (txt "
" ++ txt "
") ((fun q => join (txt "
") ((header q ++ txt ": " ++ question q) :: (render_option <$> options q))) <$> questions).

Definition render_choices (questions : list Question) (choices : list (list text)) : text :=
  join [0x0A] (zip_with (fun q picks => header q ++ txt ": " ++ join (txt ", ") picks) questions choices).

(** The picks of each question as they are given, a list of texts where it is a list. *)
Definition given (choices body : option Value) (questions : list Question) :
    list (option (list text)) + BadChoices :=
  match choices with
  | Some (Array picks) => inl ((fun v => option_map (map value_text) (as_array v)) <$> picks)
  | Some _ => inr (OneAnswerEach (length questions))
  | None =>
      let t := match body with
               | None | Some Null => []
               | Some v => value_text v
               end in
      let lines := filter (fun line : text => line <> []) (trim <$> split_at 0x0A t) in
      if bool_decide (length questions = 1%nat) && (1 <? length lines)%nat then inl [Some [trim t]]
      else inl (imap (fun at_ line =>
                        Some (if match questions !! at_ with Some q => multiple q | None => false end
                              then split_at 0x2C line else [line])) lines)
  end.

(** A label, in any case, or the words themselves. *)
Definition picked (q : Question) (wanted : text) : text :=
  match find (fun o => bool_decide (to_lowercase (label o) = to_lowercase wanted)) (options q) with
  | Some o => label o
  | None => wanted
  end.

Definition take_pick (q : Question) (t : text) : text + BadChoices :=
  if decide (trim t = []) then inr EmptyPick else inl (picked q (trim t)).

Definition take_picks (pick : option (list text) * Question) : list text + BadChoices :=
  let '(pick, q) := pick in
  match pick with
  | Some ts => if negb (bool_decide (ts = [])) && (multiple q || bool_decide (length ts = 1%nat))
               then collect (take_pick q) ts else inr (Picks (header q) (multiple q))
  | None => inr (Picks (header q) (multiple q))
  end.

(** [max] of the picks' lengths, or 0. *)
Definition longest (taken : list (list text)) : nat := max_list (utf16_len <$> concat taken).

Definition require_choices (questions : list Question) (choices body : option Value) :
    list (list text) + BadChoices :=
  match given choices body questions with
  | inr e => inr e
  | inl picks =>
      if decide (length picks <> length questions) then inr (OneAnswerEach (length questions)) else
      match collect take_picks (zip picks questions) with
      | inr e => inr e
      | inl taken =>
          let printed := utf16_len (render_choices questions taken) in
          if (MAX_BODY <? printed)%nat
          then inr (PickTooLong (longest taken - (printed - MAX_BODY)))
          else inl taken
      end
  end.

(** ** What is taken *)

Lemma collect_inl {A B E} (f : A -> B + E) xs ys :
  collect f xs = inl ys <-> Forall2 (fun x y => f x = inl y) xs ys.
Proof.
  revert ys. induction xs as [|x xs IH]; intros ys; simpl.
  - split; [by intros [= <-]|by intros ->%Forall2_nil_inv_l].
  - destruct (f x) as [y|e] eqn:Hy.
    + destruct (collect f xs) as [zs|e']; split; try done.
      * intros [= <-]. constructor; [done|by apply IH].
      * intros (y' & ys' & Hy' & Hys%IH & ->)%Forall2_cons_inv_l. congruence.
      * intros (y' & ys' & Hy' & Hys%IH & ->)%Forall2_cons_inv_l. congruence.
    + split; [done|]. intros (y' & ys' & Hy' & Hys & ->)%Forall2_cons_inv_l. congruence.
Qed.

Lemma collect_each {A B E} (f : A -> B + E) (P : B -> Prop) xs ys :
  (forall x y, f x = inl y -> P y) -> collect f xs = inl ys -> Forall P ys /\ length ys = length xs.
Proof.
  intros Hf Hc%collect_inl. split; [|symmetry; by eapply Forall2_length].
  apply Forall_lookup. intros i y Hy. destruct (Forall2_lookup_r _ _ _ _ _ Hc Hy) as (x & _ & Hx). eauto.
Qed.

(** A question as [require_questions] lets it in. *)
Definition asked_well (q : Question) : Prop :=
  trim (question q) = question q /\ question q <> [] /\ (utf16_len (question q) <= MAX_BODY)%nat /\
  trim (header q) = header q /\ header q <> [] /\ (utf16_len (header q) <= MAX_TITLE * 10)%nat /\
  Forall (fun o => trim (label o) = label o /\ label o <> []) (options q).

Lemma short_text_ok v name t :
  short_text v name = inl t -> trim t = t /\ t <> [] /\ (utf16_len t <= MAX_TITLE * 10)%nat.
Proof.
  unfold short_text. destruct (str v) as [s|]; [|done]. destruct (_ && _) eqn:E; [|done]. intros [= <-].
  apply andb_true_iff in E as [Hne%negb_true_iff%bool_decide_eq_false Hl%Nat.leb_le].
  split_and!; [apply trim_idemp|done|].
  pose proof (utf16_len_trim s). lia.
Qed.

Lemma said_ok v t : said v = Some t -> trim t = t /\ t <> [].
Proof.
  unfold said. intros (s & _ & Hs)%bind_Some. case_decide; [done|]. injection Hs as <-.
  split; [apply trim_idemp|done].
Qed.

Lemma require_question_ok v q : require_question v = inl q -> asked_well q.
Proof.
  unfold require_question. destruct (_ ≫= as_array) as [items|]; [|done].
  destruct (said _) as [t|] eqn:Et; [|done]. apply said_ok in Et as [Ht Hne].
  destruct (negb _) eqn:Er; [done|]. apply negb_false_iff, negb_true_iff, orb_false_iff in Er as [_ Hl].
  ranges. destruct (short_text _ _) as [h|] eqn:Eh; [|by destruct (collect require_option items)].
  apply short_text_ok in Eh as (Hht & Hh & Hhl).
  destruct (collect require_option items) as [os|] eqn:Eo; [|done]. intros [= <-]. split_and!; try done.
  eapply collect_each in Eo as [? _]; [done|]. intros o y. unfold require_option.
  destruct (short_text _ _) as [l|] eqn:El; [|done]. intros [= <-]. by apply short_text_ok in El as (? & ? & _).
Qed.

Lemma require_questions_ok v qs :
  require_questions v = inl qs -> (1 <= length qs <= MAX_QUESTIONS)%nat /\ Forall asked_well qs.
Proof.
  unfold require_questions. destruct (as_array v) as [items|]; [|done]. destruct (_ && _) eqn:E; [|done].
  ranges. intros [Hok Hl]%(collect_each _ _ _ _ require_question_ok). split; [lia|done].
Qed.

(** What becomes of a pick. *)
Lemma take_pick_ok q t p :
  asked_well q -> take_pick q t = inl p -> trim p = p /\ p <> [] /\ p = picked q (trim t).
Proof.
  intros (_ & _ & _ & _ & _ & _ & Ho) H. unfold take_pick in H. case_decide as Ht; [done|]. injection H as <-.
  unfold picked. destruct (find _ _) as [o|] eqn:E; [|by split_and!; [apply trim_idemp|..]].
  apply find_some in E as [Hin _]. rewrite Forall_forall in Ho.
  destruct (Ho o) as [? ?]; [by apply list_elem_of_In|done].
Qed.

(** What an answer by choice is: picks for each question, one where only one may be picked. *)
Definition answers (q : Question) (picks : list text) : Prop :=
  picks <> [] /\ (multiple q = false -> length picks = 1%nat) /\
  Forall (fun p => trim p = p /\ p <> []) picks.

Lemma take_picks_ok pick q ps :
  asked_well q -> take_picks (pick, q) = inl ps ->
  answers q ps /\ exists ts, pick = Some ts /\ ps = (fun t => picked q (trim t)) <$> ts.
Proof.
  intros Hq Ht. simpl in Ht. destruct pick as [ts|]; [|done]. destruct (_ && _) eqn:E; [|done].
  apply andb_true_iff in E as [Hne%negb_true_iff%bool_decide_eq_false E]. apply collect_inl in Ht.
  assert (ps = (fun t => picked q (trim t)) <$> ts /\ Forall (fun p => trim p = p /\ p <> []) ps) as [-> Hps].
  { clear -Ht Hq. induction Ht as [|t p ts ps (Ht & Hne & ->)%take_pick_ok H [-> IH]]; [done| |done].
    split; [done|]. by constructor. }
  split; [|by exists ts]. split_and!; [by destruct ts| |done]. intros Hm.
  rewrite Hm in E. by rewrite length_fmap, (bool_decide_eq_true_1 _ E).
Qed.

Lemma take_all picks qs taken :
  Forall asked_well qs -> length picks = length qs -> collect take_picks (zip picks qs) = inl taken ->
  Forall2 answers qs taken /\
  exists tss, picks = Some <$> tss /\
    Forall3 (fun q ts ps => ps = (fun t => picked q (trim t)) <$> ts) qs tss taken.
Proof.
  intros Hqs. revert picks taken. induction Hqs as [|q qs Hq Hqs IH]; intros [|pick picks] taken Hl; try done.
  - intros [= <-]. split; [constructor|]. exists []. split; [done|constructor].
  - intros Hc%collect_inl. simpl in Hc. apply Forall2_cons_inv_l in Hc as (ps & taken' & Hp & Hc & ->).
    apply take_picks_ok in Hp as (Ha & ts & -> & ->); [|done].
    destruct (IH picks taken') as (Has & tss & -> & H3); [by injection Hl|by apply collect_inl|].
    split; [by constructor|]. exists (ts :: tss). split; [done|by constructor].
Qed.

(** An answer by choice that is taken answers each question of the ask, once where one pick
    may be made, each pick being what was given, trimmed, or the label it names in any case; and it
    prints to a text the ledger takes as a message's. *)
Theorem choices_answer_each_question v qs choices body taken :
  require_questions v = inl qs -> require_choices qs choices body = inl taken ->
  Forall2 answers qs taken /\
  (exists tss, given choices body qs = inl (Some <$> tss) /\
     Forall3 (fun q ts ps => ps = (fun t => picked q (trim t)) <$> ts) qs tss taken) /\
  require_text (render_choices qs taken) MAX_BODY = true.
Proof.
  intros [Hn Hqs]%require_questions_ok H. unfold require_choices in H.
  destruct (given _ _ _) as [picks|]; [|done]. case_decide as Hl; [done|].
  destruct (collect _ _) as [ps|] eqn:Ec; [|done].
  destruct (Nat.ltb_spec MAX_BODY (utf16_len (render_choices qs ps))); [done|]. injection H as ->.
  apply take_all in Ec as (Ha & tss & -> & H3); [|done..]. split_and!; [done|by exists tss|].
  unfold require_text. rewrite (proj2 (Nat.ltb_ge _ _)) by done. rewrite orb_false_r, bool_decide_eq_false_2; [done|].
  rewrite trim_nil. destruct Ha as [|q ps qs taken Ha Has]; [simpl in Hn; lia|].
  apply Forall_cons in Hqs as [(_ & _ & _ & Ht & Hne & _) _]. intros Hb.
  assert (blank (header q)) as Hh%trim_nil; [|congruence].
  unfold render_choices in Hb. destruct qs, taken; cbn [zip_with join] in Hb; rewrite <- ?app_assoc in Hb;
    by apply Forall_app in Hb as [? _].
Qed.

(** An ask of one question, one pick, is answered by any words that fit, whole, in as many lines
    as they take; and a label in any case is that label. *)
Theorem any_words_answer_one_question q v :
  multiple q = false -> v <> Null -> trim (value_text v) <> [] ->
  (utf16_len (header q ++ txt ": " ++ picked q (trim (value_text v))) <= MAX_BODY)%nat ->
  require_choices [q] None (Some v) = inl [[picked q (trim (value_text v))]] /\
  forall o, o ∈ options q -> to_lowercase (label o) = to_lowercase (trim (value_text v)) ->
    exists o', o' ∈ options q /\ picked q (trim (value_text v)) = label o' /\
               to_lowercase (label o') = to_lowercase (label o).
Proof.
  intros Hm Hv Ht Hl. split.
  - assert (given None (Some v) [q] = inl [Some [trim (value_text v)]]) as Hg.
    { unfold given. replace (match v with Null => [] | _ => value_text v end) with (value_text v) by by destruct v.
      set (lines := filter _ _). destruct lines as [|l [|l' lines']] eqn:E.
      - exfalso. apply Ht, trim_nil. rewrite <- (join_split_at 0x0A (value_text v)). by apply no_line.
      - simpl. rewrite Hm. apply one_line in E. rewrite join_split_at in E. by rewrite E.
      - done. }
    unfold require_choices. rewrite Hg. simpl. unfold take_pick. rewrite trim_idemp.
    rewrite decide_False, orb_true_r by done. unfold render_choices. cbn [zip_with join].
    by rewrite (proj2 (Nat.ltb_ge _ _)) by done.
  - intros o Ho Hlow. unfold picked. destruct (find _ _) as [o'|] eqn:E.
    + apply find_some in E as [Hin Eq%bool_decide_eq_true]. exists o'. split_and!; [|done|congruence].
      by apply list_elem_of_In.
    + exfalso. apply list_elem_of_In in Ho. apply (find_none _ _ E) in Ho.
      by apply bool_decide_eq_false in Ho.
Qed.

End Questions.

(** ** Witnesses *)

Definition lowered (t : text) : text := (fun c => if within 0x41 0x5A c then c + 0x20 else c) <$> t.

Definition yes_or_no : @Value integers :=
  let option (l : string) : Value := Object [("label"%string, Str l)] in
  Array [Object [("question"%string, Str "Go on? "); ("header"%string, Str "Next");
                 ("options"%string, Array [option "Yes"%string; option "No"%string])]]%string.

Definition yes_or_no_asked : list Question :=
  [{| question := txt "Go on?"; header := txt "Next"; multiple := false;
      options := [{| label := txt "Yes"; description := None |}; {| label := txt "No"; description := None |}] |}].

Lemma choices_answer_each_question_witness :
  require_questions yes_or_no = inl yes_or_no_asked /\
  Forall2 answers yes_or_no_asked [[txt "Yes"]] /\
  require_text (render_choices yes_or_no_asked [[txt "Yes"]]) MAX_BODY = true.
Proof.
  destruct (choices_answer_each_question (N := integers) show lowered yes_or_no yes_or_no_asked None
              (Some (Str " yES")) [[txt "Yes"]] ltac:(vm_compute; reflexivity) ltac:(vm_compute; reflexivity))
    as (Ha & _ & Hr).
  split; [vm_compute; reflexivity|]. split; [exact Ha|exact Hr].
Defined.

(** Three lines of words are one answer to one question. *)
Definition three_lines : @Value integers := Str "Do this:
- first
- then ".

Lemma any_words_answer_one_question_witness :
  require_choices (N := integers) show lowered yes_or_no_asked None (Some three_lines) =
    inl [[trim (value_text (N := integers) show three_lines)]].
Proof.
  exact (proj1 (any_words_answer_one_question (N := integers) show lowered
    {| question := txt "Go on?"; header := txt "Next"; multiple := false;
       options := [{| label := txt "Yes"; description := None |}; {| label := txt "No"; description := None |}] |}
    three_lines ltac:(reflexivity) ltac:(discriminate) ltac:(vm_compute; discriminate)
    ltac:(apply Nat.leb_le; vm_compute; reflexivity))).
Defined.
