(* ===== verification/Words.v ===== *)
(** * Notes of ConsensFlow's known by their words: [cf-ledger/src/messages]

    The note that tells a window to go on with its work ([continuations.rs]) and the note that tells
    of tasks that paused ([pauses.rs]) are kinds of no column: each is told from every other note
    by the words that write it. Here are the words, and what reads them back. *)
From S2P Require Import Prelude Utf8 Text.
#[local] Open Scope Z_scope.

Definition RESUME_WORDS : text := txt "Go on where you stopped.".

(** The tasks as a note names them. *)
Definition named (tasks : list Z) : text := join (txt ", ") ((fun n => txt "T-" ++ show n) <$> tasks).

(** [list.split(", ")], each part a task's name. *)
Definition read_named (names : text) : option (list Z) :=
  mapM (fun part => n ← strip_prefix (txt "T-") part; read_i64 n) (split (txt ", ") names).

(** ** Continuations *)

Definition STOPPED : text := txt "ConsensFlow stopped while you were working on ".
Definition QUIT : text := txt "ConsensFlow quit while you were working on ".
Definition IN_THE_TURN : text := txt ", in ".
Definition TURN_BEGAN : text := txt "the turn that began ".

Definition continuation (number : Z) : text := STOPPED ++ named [number] ++ txt ". " ++ RESUME_WORDS.

Definition continuation_in (number : Z) (turn : text) : text :=
  STOPPED ++ named [number] ++ IN_THE_TURN ++ turn ++ txt ". " ++ RESUME_WORDS.

Definition cut_turn (at_ : option text) (words : text) : text :=
  match at_ with
  | Some at_ => txt "the turn that began at " ++ at_ ++ txt " with " ++ [0x22] ++ words ++ [0x22]
  | None => txt "the turn that began with " ++ [0x22] ++ words ++ [0x22]
  end.

Definition tasks_after (start body : text) : option (list Z) :=
  rest ← strip_prefix start body;
  said ← strip_suffix (txt ". " ++ RESUME_WORDS) rest;
  let '(names, turn) :=
    match split_once IN_THE_TURN said with
    | Some (names, turn) =>
        if bool_decide (start = STOPPED) && bool_decide (is_Some (strip_prefix TURN_BEGAN turn))
        then (names, Some turn) else (said, None)
    | None => (said, None)
    end in
  tasks ← read_named names;
  let turn := match turn with Some turn => IN_THE_TURN ++ turn | None => [] end in
  if decide (start ++ named tasks ++ turn ++ txt ". " ++ RESUME_WORDS = body) then Some tasks else None.

(** The tasks a continuation names: those of the first of the two openings that the body has. *)
Definition continuation_tasks (body : text) : option (list Z) :=
  match strip_prefix STOPPED body with
  | Some _ => tasks_after STOPPED body
  | None => tasks_after QUIT body
  end.

(** ** Pause notes *)

Inductive Way := Resume | Gone | Held.

Record Paused := { number : Z; because : text; way : Way }.

Definition MAY_STILL_RUN : text := txt "could not be ended and may still run".
Definition NOT_PROVEN_GONE : text := txt "closed with no proof its program was gone".

(** [contains] *)
Definition contains (words t : text) : bool := bool_decide (is_Some (split_once words t)).

Definition warns (because : text) : bool := contains MAY_STILL_RUN because || contains NOT_PROVEN_GONE because.

Definition ONE_TAIL : text := txt "; its window comes back on its own conversation.".
Definition MANY_TAIL : text := txt "Each window comes back on its own conversation.".

(** The words to be filled in, in quotes. *)
Definition WORDS : text := [0x22; 0x2026; 0x22].

Definition way_on (number : Z) (w : Way) : text :=
  let T := txt "T-" ++ show number in
  match w with
  | Gone => txt "Its member runs on a harness whose windows ConsensFlow cannot open: cancel it with cf task cancel " ++ T
      ++ txt " and add it again with cf task add once a member on another harness is on the staff, or finish it with cf task finish " ++ T
  | Resume => txt "Resume it with: cf task resume " ++ T ++ txt " " ++ WORDS
  | Held => txt "It does not go on in that conversation, and a window of its own would not remember it: if its brief counts on that, rewrite it with cf task edit " ++ T
      ++ txt " " ++ WORDS ++ txt " first, then send it to a window of its own with: cf task resume " ++ T
      ++ txt " " ++ WORDS ++ txt ", or cancel it"
  end.

Definition IS_PAUSED : text := txt " is paused: ".

Definition clause (p : Paused) : text :=
  txt "T-" ++ show (number p) ++ IS_PAUSED ++ because p ++ txt ". " ++ way_on (number p) (way p).

Definition is_resume (p : Paused) : bool := match way p with Resume => true | _ => false end.

Definition render (paused : list Paused) : text :=
  match paused with
  | [one] => if is_resume one then clause one ++ ONE_TAIL else clause one ++ txt "."
  | many => join [0x0A] ((clause <$> many) ++ (if existsb is_resume many then [MANY_TAIL] else []))
  end.

Definition read_clause (t : text) : option Paused :=
  '(n, rest) ← strip_prefix (txt "T-") t ≫= split_once IS_PAUSED;
  n ← read_i64 n;
  let with_way w := fmap (fun b => {| number := n; because := b; way := w |})
                         (strip_suffix (txt ". " ++ way_on n w) rest) in
  head (omap with_way [Resume; Gone; Held]).

#[export] Instance way_eq_dec : EqDecision Way.
Proof. solve_decision. Defined.
#[export] Instance paused_eq_dec : EqDecision Paused.
Proof. solve_decision. Defined.

(** The tasks a note names, of the three readings the first that writes the same words. *)
Definition read (body : text) : option (list Paused) :=
  let one t := fmap (fun p => [p]) (t ≫= read_clause) in
  let lines := default body (strip_suffix MANY_TAIL body ≫= strip_suffix [0x0A]) in
  head (filter (fun paused => render paused = body)
    (omap id [one (strip_suffix ONE_TAIL body); one (strip_suffix (txt ".") body);
              mapM read_clause (split_at 0x0A lines)])).

(** ** What is written reads back *)

Lemma show_chars n : Forall (fun c => is_digit c = true \/ c = 0x2D) (show n).
Proof.
  unfold show. destruct (Z.ltb_spec n 0).
  - constructor; [by right|]. eapply Forall_impl; [apply unsigned_spec; lia|]. by left.
  - eapply Forall_impl; [apply unsigned_spec; lia|]. by left.
Qed.

Lemma show_no c n : is_digit c = false -> c <> 0x2D -> Forall (fun d => d <> c) (show n).
Proof. intros Hc Hm. eapply Forall_impl; [apply show_chars|]. simpl. intros d [Hd|Hd]; congruence. Qed.

Lemma no_comma n : Forall (fun d => d <> 0x2C) (txt "T-" ++ show n).
Proof. apply Forall_app_2; [by repeat constructor|by apply show_no]. Qed.

Lemma cut_at_comma n rest :
  split_once (txt ", ") ((txt "T-" ++ show n) ++ txt ", " ++ rest) = Some (txt "T-" ++ show n, rest).
Proof. exact (split_once_first [0x20] 0x2C _ rest (no_comma n)). Qed.

Lemma no_cut n : split_once (txt ", ") (txt "T-" ++ show n) = None.
Proof. exact (split_once_none [0x20] 0x2C _ (no_comma n)). Qed.

Lemma names_are_long n ns : (length ns <= length (named (n :: ns)))%nat.
Proof.
  revert n. induction ns as [|m ns IH]; intros n; [simpl; lia|]. specialize (IH m).
  change (named (n :: m :: ns)) with ((txt "T-" ++ show n) ++ [0x2C; 0x20] ++ named (m :: ns)).
  rewrite !length_app. simpl length in *. lia.
Qed.

Lemma split_names n ns :
  split (txt ", ") (named (n :: ns)) = (fun n => txt "T-" ++ show n) <$> n :: ns.
Proof.
  unfold split. assert (forall turns, (length ns <= turns)%nat ->
    split_turns turns (txt ", ") (named (n :: ns)) = (fun n => txt "T-" ++ show n) <$> n :: ns) as H.
  { revert n. induction ns as [|m ns IH]; intros n turns Hl.
    - unfold named. cbn [fmap list_fmap join]. destruct turns; [done|]. cbn [split_turns].
      by rewrite no_cut.
    - destruct turns as [|turns]; [simpl in Hl; lia|]. unfold named. cbn [fmap list_fmap join split_turns].
      rewrite cut_at_comma.
      cbn [fmap list_fmap] in IH. f_equal. rewrite <- (IH m turns) by (simpl in Hl; lia). done. }
  apply H, names_are_long.
Qed.

Lemma read_names ns :
  ns <> [] -> Forall (fun n => is_i64 n = true) ns -> read_named (named ns) = Some ns.
Proof.
  intros Hne Hns. unfold read_named. destruct ns as [|n ns]; [done|]. rewrite split_names.
  clear Hne. apply mapM_Some. revert Hns. generalize (n :: ns). clear.
  induction 1 as [|n ns Hn Hns IH]; [constructor|]. constructor; [|done].
  rewrite strip_prefix_app. by apply read_show.
Qed.

(** No list of names holds the words that lead a turn. *)
Lemma names_hold_no_turn ns rest :
  split_once IN_THE_TURN (named ns ++ rest) =
  prod_map (app (named ns)) id <$> split_once IN_THE_TURN rest.
Proof.
  unfold named. destruct ns as [|n ns].
  { simpl join. rewrite app_nil_l. by destruct (split_once _ rest) as [[]|]. }
  revert n. induction ns as [|m ns IH]; intros n.
  - exact (split_once_skip [0x20; 0x69; 0x6E; 0x20] 0x2C _ rest (no_comma n)).
  - specialize (IH m). set (names := join (txt ", ") _) in IH.
    change (join _ _) with ((txt "T-" ++ show n) ++ [0x2C; 0x20] ++ names).
    rewrite <- !app_assoc.
    transitivity (prod_map (app (txt "T-" ++ show n)) id <$>
                  split_once IN_THE_TURN ([0x2C; 0x20] ++ names ++ rest)).
    { rewrite (app_assoc (txt "T-")). exact (split_once_skip [0x20; 0x69; 0x6E; 0x20] 0x2C _ _ (no_comma n)). }
    assert (split_once IN_THE_TURN ([0x2C; 0x20] ++ names ++ rest) =
      prod_map (app [0x2C; 0x20]) id <$> split_once IN_THE_TURN (names ++ rest)) as ->.
    { assert (exists t, names = 0x54 :: t) as [t ->].
      { subst names. destruct ns; simpl; by eexists. }
      set (v := (0x54 :: t) ++ rest).
      change (split_once IN_THE_TURN ([0x2C; 0x20] ++ v)) with
        (prod_map (cons 0x2C) (@id text) <$> (prod_map (cons 0x20) (@id text) <$> split_once IN_THE_TURN v)).
      by destruct (split_once IN_THE_TURN v) as [[]|]. }
    rewrite IH. destruct (split_once _ rest) as [[]|]; [|done]. simpl. by rewrite <- !app_assoc.
Qed.

(** What [tasks_after] reads of an opening, names, and what may follow them of a turn. *)
Lemma read_after start ns turn :
  ns <> [] -> Forall (fun n => is_i64 n = true) ns ->
  (turn = None \/ start = STOPPED /\ exists t, turn = Some (TURN_BEGAN ++ t)) ->
  tasks_after start (start ++ named ns ++ match turn with Some t => IN_THE_TURN ++ t | None => [] end
                     ++ txt ". " ++ RESUME_WORDS) = Some ns.
Proof.
  intros Hne Hns Hturn. unfold tasks_after.
  rewrite strip_prefix_app. cbn [mbind option_bind].
  set (tail := txt ". " ++ RESUME_WORDS). rewrite (app_assoc (named ns)), strip_suffix_app.
  cbn [mbind option_bind]. rewrite names_hold_no_turn.
  destruct Hturn as [->|[-> [t ->]]].
  - simpl (fmap _ _). rewrite app_nil_r, read_names by done. cbn [mbind option_bind]. by rewrite decide_True.
  - rewrite split_once_here. cbn [fmap option_fmap option_map prod_map fst snd id].
    rewrite strip_prefix_app.
    rewrite bool_decide_eq_true_2 by done. rewrite bool_decide_eq_true_2 by by eexists. cbn [andb].
    rewrite app_nil_r, read_names by done. cbn [mbind option_bind]. rewrite decide_True; [done|].
    by rewrite <- !app_assoc.
Qed.

Lemma quit_is_not_stopped t : strip_prefix STOPPED (QUIT ++ t) = None.
Proof. done. Qed.

(** The note that tells a window to go on with its work is known for one, and for the task it
    names, whatever the words of the turn it quotes; those of older builds too, which named several;
    and no other text is. *)
Theorem continuations_read_back :
  (forall n, is_i64 n = true -> continuation_tasks (continuation n) = Some [n]) /\
  (forall n at_ words, is_i64 n = true ->
     continuation_tasks (continuation_in n (cut_turn at_ words)) = Some [n]) /\
  (forall start ns, start = STOPPED \/ start = QUIT -> ns <> [] -> Forall (fun n => is_i64 n = true) ns ->
     continuation_tasks (start ++ named ns ++ txt ". " ++ RESUME_WORDS) = Some ns) /\
  (forall body ns, continuation_tasks body = Some ns ->
     exists start turn, (start = STOPPED \/ start = QUIT) /\
       (turn = [] \/ exists t, turn = IN_THE_TURN ++ TURN_BEGAN ++ t) /\
       body = start ++ named ns ++ turn ++ txt ". " ++ RESUME_WORDS).
Proof.
  assert (forall start ns turn, start = STOPPED \/ start = QUIT -> ns <> [] ->
    Forall (fun n => is_i64 n = true) ns ->
    (turn = None \/ start = STOPPED /\ exists t, turn = Some (TURN_BEGAN ++ t)) ->
    continuation_tasks (start ++ named ns ++ match turn with Some t => IN_THE_TURN ++ t | None => [] end
                        ++ txt ". " ++ RESUME_WORDS) = Some ns) as H.
  { intros start ns turn Hs Hne Hns Ht. unfold continuation_tasks. destruct Hs as [->| ->].
    - rewrite strip_prefix_app. by apply read_after.
    - rewrite quit_is_not_stopped. by apply read_after. }
  split_and!.
  - intros n Hn. apply (H STOPPED [n] None); auto.
  - intros n at_ words Hn. unfold continuation_in. rewrite (app_assoc IN_THE_TURN).
    apply (H STOPPED [n] (Some (cut_turn at_ words))); [by auto|done|by repeat constructor|right].
    split; [done|]. unfold cut_turn. destruct at_; by eexists.
  - intros start ns Hs Hne Hns. by apply (H start ns None); auto.
  - intros body ns Hb. assert (exists start, (start = STOPPED \/ start = QUIT) /\ tasks_after start body = Some ns)
      as (start & Hs & Ha) by (unfold continuation_tasks in Hb; case_match; eauto).
    unfold tasks_after in Ha. destruct (strip_prefix _ _) as [rest|]; [|done]. simpl in Ha.
    destruct (strip_suffix _ _) as [said|]; [|done]. simpl in Ha.
    destruct (match split_once _ said with Some _ => _ | None => _ end) as [names turn] eqn:Et.
    destruct (read_named names) as [ms|]; [|done]. simpl in Ha. case_decide as Hw; [|done].
    injection Ha as ->. exists start, (match turn with Some turn => IN_THE_TURN ++ turn | None => [] end).
    split_and!; [done| |done]. destruct turn as [turn|]; [right|by left].
    destruct (split_once _ said) as [[a b]|]; [|done]. destruct (_ && _) eqn:E; [|done].
    injection Et as _ ->. apply andb_true_iff in E as [_ E%bool_decide_eq_true_1].
    destruct (strip_prefix TURN_BEGAN turn) as [t|] eqn:Ht; [|by destruct E].
    apply strip_prefix_Some in Ht. exists t. by rewrite Ht.
Qed.

(** A way on ends as no other does. *)
Definition last_of (w : Way) (c : char) : Prop :=
  match w with Resume => c = 0x22 | Gone => is_digit c = true | Held => c = 0x74 end.

Lemma show_last n : exists t c, show n = t ++ [c] /\ is_digit c = true.
Proof.
  assert (forall n, 0 <= n -> exists t c, unsigned n = t ++ [c] /\ is_digit c = true) as H.
  { intros m Hm. destruct (unsigned_spec m Hm) as (Hd & Hne & _).
    destruct (exists_last Hne) as (t & c & E). rewrite E in *. exists t, c.
    apply Forall_app in Hd as [_ [Hc _]%Forall_cons]. done. }
  unfold show. destruct (Z.ltb_spec n 0); [|by apply H].
  destruct (H (- n)) as (t & c & -> & Hc); [lia|]. by exists (0x2D :: t), c.
Qed.

Lemma way_last n w : exists t c, way_on n w = t ++ [c] /\ last_of w c.
Proof.
  destruct w.
  - exists (txt "Resume it with: cf task resume " ++ (txt "T-" ++ show n) ++ txt " " ++ [0x22; 0x2026]), 0x22.
    split; [|done]. unfold way_on. by rewrite <- !app_assoc.
  - destruct (show_last n) as (t & c & E & Hc). unfold way_on. rewrite E. eexists _, c.
    split; [by rewrite !app_assoc|done].
  - eexists _, 0x74. split; [|done]. unfold way_on. rewrite !app_assoc.
    change (txt ", or cancel it") with (txt ", or cancel i" ++ [0x74]). by rewrite app_assoc.
Qed.

Lemma last_differs w w' c c' : w <> w' -> last_of w c -> last_of w' c' -> c <> c'.
Proof. destruct w, w'; simpl; intros Hw Hc Hc' ->; subst; done. Qed.

Lemma other_way n n' w w' t : w <> w' -> strip_suffix (txt ". " ++ way_on n w) (t ++ way_on n' w') = None.
Proof.
  intros Hw. destruct (way_last n w) as (r & c & -> & Hc), (way_last n' w') as (r' & c' & -> & Hc').
  rewrite !app_assoc. apply strip_suffix_other. by eapply last_differs.
Qed.

Lemma read_clause_back p : is_i64 (number p) = true -> read_clause (clause p) = Some p.
Proof.
  intros Hn. unfold read_clause, clause. rewrite strip_prefix_app. cbn [mbind option_bind].
  assert (split_once IS_PAUSED (show (number p) ++ IS_PAUSED ++ because p ++ txt ". " ++ way_on (number p) (way p)) =
    Some (show (number p), because p ++ txt ". " ++ way_on (number p) (way p))) as E
    by (apply (split_once_first (txt "is paused: ") 0x20); by apply show_no).
  rewrite E. cbn [mbind option_bind]. rewrite read_show by done. cbn [mbind option_bind].
  assert (forall w, strip_suffix (txt ". " ++ way_on (number p) w)
      (because p ++ txt ". " ++ way_on (number p) (way p)) = if decide (w = way p) then Some (because p) else None) as Hs.
  { intros w. case_decide as Hw; [subst; apply strip_suffix_app|]. rewrite app_assoc. by apply other_way. }
  cbn [omap list_omap]. rewrite !Hs. destruct p as [n b []]; simpl; by repeat case_decide.
Qed.

(** A clause whose reason is on one line is on one line. *)
Lemma clause_line p :
  Forall (fun c => c <> 0x0A) (because p) -> Forall (fun c => c <> 0x0A) (clause p).
Proof.
  intros Hb. assert (forall s, forallb (fun c => negb (c =? 0x0A)) s = true -> Forall (fun c => c <> 0x0A) s) as Hl.
  { intros s Hs%forallb_Forall. eapply Forall_impl; [exact Hs|]. simpl. intros c Hc%negb_true_iff. lia. }
  assert (Forall (fun c => c <> 0x0A) (show (number p))) as Hn by by apply show_no.
  unfold clause, way_on. destruct (way p); repeat apply Forall_app_2; try done; by apply Hl.
Qed.

(** How a clause ends: as its way does. *)
Lemma clause_last p : exists t c, clause p = t ++ [c] /\ last_of (way p) c.
Proof.
  destruct (way_last (number p) (way p)) as (t & c & E & Hc). unfold clause. rewrite E.
  eexists _, c. split; [by rewrite !app_assoc|done].
Qed.

Lemma render_one_reads p :
  is_i64 (number p) = true -> read (render [p]) = Some [p].
Proof.
  intros Hn. unfold read. cbn [render].
  destruct (clause_last p) as (t & c & E & Hc). pose proof (read_clause_back p Hn) as Hr.
  destruct (is_resume p) eqn:Ew.
  - rewrite strip_suffix_app. cbn [mbind option_bind]. rewrite Hr. cbn [fmap option_fmap option_map omap list_omap id].
    rewrite filter_cons_True; [done|]. cbn [render]. by rewrite Ew.
  - assert (strip_suffix ONE_TAIL (clause p ++ txt ".") = None) as ->.
    { rewrite E, <- app_assoc. change ONE_TAIL with (txt "; its window comes back on its own conversatio" ++ [0x6E; 0x2E]).
      apply strip_suffix_other. destruct p as [n b []]; simpl in Hc; [done| |]; intros <-; done. }
    rewrite strip_suffix_app. cbn [mbind option_bind]. rewrite Hr. cbn [fmap option_fmap option_map omap list_omap id].
    rewrite filter_cons_True; [done|]. cbn [render]. by rewrite Ew.
Qed.

(** What ends as no way on does is no clause. *)
Lemma no_clause t c : c <> 0x22 /\ is_digit c = false /\ c <> 0x74 -> read_clause (t ++ [c]) = None.
Proof.
  intros (H1 & H2 & H3). unfold read_clause. destruct (strip_prefix _ _ ≫= _) as [[ds rest]|] eqn:E; [|done].
  cbn [mbind option_bind]. destruct (read_i64 ds) as [n|]; [|done]. cbn [mbind option_bind].
  apply bind_Some in E as (u & Hu%strip_prefix_Some & Hs%split_once_Some).
  assert (forall w, strip_suffix (txt ". " ++ way_on n w) rest = None) as Hw.
  { intros w. destruct (strip_suffix _ rest) as [r|] eqn:E; [|done]. exfalso.
    apply strip_suffix_Some in E. destruct (way_last n w) as (v & d & Ev & Hd).
    rewrite Hs, E, Ev, !app_assoc in Hu. apply app_inj_tail in Hu as [_ ->].
    destruct w; simpl in Hd; congruence. }
  cbn [omap list_omap]. by rewrite !Hw.
Qed.

(** How a note of several ends: with its last line, or as the last way does. *)
Lemma many_last p q ps :
  existsb is_resume (p :: q :: ps) = false ->
  exists t c, render (p :: q :: ps) = t ++ [c] /\ (is_digit c = true \/ c = 0x74).
Proof.
  intros He. change (render (p :: q :: ps)) with
    (join [0x0A] ((clause <$> p :: q :: ps) ++ (if existsb is_resume (p :: q :: ps) then [MANY_TAIL] else []))).
  rewrite He, app_nil_r. destruct (exists_last (l := p :: q :: ps) ltac:(done)) as (init & z & E).
  rewrite E in *. rewrite existsb_app in He. apply orb_false_iff in He as [_ He]. simpl in He.
  rewrite orb_false_r in He. rewrite fmap_app. cbn [fmap list_fmap].
  rewrite join_snoc by (destruct init; [done|]; done).
  destruct (clause_last z) as (t & c & -> & Hc). eexists _, c. split; [by rewrite !app_assoc|].
  destruct z as [n b []]; simpl in *; [done|auto..].
Qed.

Lemma render_many_reads p q ps :
  Forall (fun p => is_i64 (number p) = true) (p :: q :: ps) ->
  Forall (fun p => Forall (fun c => c <> 0x0A) (because p)) (p :: q :: ps) ->
  read (render (p :: q :: ps)) = Some (p :: q :: ps).
Proof.
  intros Hn Hl. set (all := p :: q :: ps) in *. set (body := render all).
  assert (mapM read_clause (split_at 0x0A (join [0x0A] (clause <$> all))) = Some all) as Hlines.
  { rewrite split_at_join; [|done|].
    - apply mapM_Some, Forall2_fmap_l, Forall_Forall2_diag. eapply Forall_impl; [exact Hn|]. apply read_clause_back.
    - apply Forall_fmap. eapply Forall_impl; [exact Hl|]. intros r. apply clause_line. }
  assert (body = join [0x0A] ((clause <$> all) ++ (if existsb is_resume all then [MANY_TAIL] else []))) as Hb by done.
  assert (filter (fun paused => render paused = body) [all] = [all]) as Hf by by rewrite filter_cons_True.
  unfold read. fold body. destruct (existsb is_resume all) eqn:He.
  - rewrite join_snoc in Hb by done.
    assert (strip_suffix ONE_TAIL body = None) as ->.
    { rewrite Hb. rewrite (app_assoc _ [0x0A]).
      change MANY_TAIL with (txt "Eac" ++ 0x68 :: txt " window comes back on its own conversation.").
      rewrite (app_assoc _ (txt "Eac")). apply (strip_suffix_other 0x73 0x68 (txt "; it")); done. }
    assert (strip_suffix (txt ".") body ≫= read_clause = None) as ->.
    { rewrite Hb. change MANY_TAIL with (txt "Each window comes back on its own conversatio" ++ [0x6E] ++ txt ".").
      rewrite !app_assoc, strip_suffix_app. cbn [mbind option_bind]. apply no_clause. done. }
    assert (strip_suffix MANY_TAIL body ≫= strip_suffix [0x0A] = Some (join [0x0A] (clause <$> all))) as ->.
    { rewrite Hb, (app_assoc _ [0x0A]), strip_suffix_app. cbn [mbind option_bind]. apply strip_suffix_app. }
    cbn [default from_option id]. rewrite Hlines. exact (f_equal head Hf).
  - rewrite app_nil_r in Hb. destruct (many_last p q ps He) as (t & c & Et & Hc). fold all body in Et.
    assert (forall s, strip_suffix (s ++ [0x2E]) body = None) as Hdot.
    { intros s. rewrite Et. apply strip_suffix_other. intros <-. by destruct Hc. }
    pose proof (Hdot (txt "; its window comes back on its own conversation")) as E1.
    pose proof (Hdot []) as E2. pose proof (Hdot (txt "Each window comes back on its own conversation")) as E3.
    change (strip_suffix ONE_TAIL body = None) in E1. change (strip_suffix (txt ".") body = None) in E2.
    change (strip_suffix MANY_TAIL body = None) in E3. rewrite E1, E2, E3. cbn [mbind option_bind default from_option].
    replace (split_at 0x0A body) with (split_at 0x0A (join [0x0A] (clause <$> all))) by by rewrite <- Hb.
    rewrite Hlines. exact (f_equal head Hf).
Qed.

(** A note of tasks that paused reads back as the tasks it was written of, whatever why each
    stopped, on one line where the note names several; and only a note written so is read as one. *)
Theorem pause_notes_read_back :
  (forall ps, ps <> [] -> Forall (fun p => is_i64 (number p) = true) ps ->
     (length ps = 1%nat \/ Forall (fun p => Forall (fun c => c <> 0x0A) (because p)) ps) ->
     read (render ps) = Some ps) /\
  (forall body ps, read body = Some ps -> body = render ps).
Proof.
  split.
  - intros ps Hne Hn Hl. destruct ps as [|p [|q ps]]; [done| |].
    { apply render_one_reads. by apply Forall_cons in Hn as [? _]. }
    destruct Hl as [[=]|Hl]. by apply render_many_reads.
  - intros body ps Hr. unfold read in Hr. apply head_Some_elem_of in Hr.
    by apply list_elem_of_filter in Hr as [<- _].
Qed.

(** ** Witnesses *)

Lemma continuations_read_back_witness :
  continuation_tasks (continuation 7) = Some [7] /\
  continuation_tasks (continuation_in 7 (cut_turn None (txt "Go on, in T-9."))) = Some [7].
Proof.
  destruct continuations_read_back as (H1 & H2 & _). split; [by apply H1|by apply H2].
Defined.

Definition two_paused : list Paused :=
  [{| number := 3; because := txt "its window went"; way := Resume |};
   {| number := 12; because := txt "its window (claude) could not be ended and may still run"; way := Held |}].

Lemma pause_notes_read_back_witness : read (render two_paused) = Some two_paused.
Proof. apply (proj1 pause_notes_read_back); [done|by repeat constructor|right; by repeat constructor]. Defined.
