(* ===== verification/Ledger.v ===== *)
(** * The ledger's messages: [cf-ledger/src/store.rs], [queue.rs], [messages/carrying.rs]

    The tables the messages go by (each row at its id, in the order of the ids), what SQL asks of
    them, and the writes every operation shares: a message queued ([queue], [send]), one that joins
    another's paste ([adopt], [fold]), one withdrawn ([withdraw], [release_carried]), what told a
    window to go on with work it no longer has ([withdrawn_if_stale]), and a task moved by what its
    window received ([reconcile]). The operations are those of [Deliveries] and [Doors].

    An operation is one transaction: a refusal leaves the tables as they were. It reads the clock
    once, [now]: a time is the clock's milliseconds, which the texts of the code's columns order as
    ([Time]). *)
From S2P Require Import Prelude Utf8 Text JsValue Questions Words TaskPlan.
From stdpp Require Import sorting.
#[local] Open Scope Z_scope.

(** ** The tables *)

Module Kind.
Inductive t := Task | Result | Question | Answer | Note.
End Kind.

Module State.
Inductive t := Queued | Delivering | Delivered | Read | Gated | Failed | Cancelled.
End State.

Inductive Role := Human | Chief | Worker | Advisor | Reviewer | Tester | Designer.

#[export] Instance kind_eq_dec : EqDecision Kind.t.
Proof. solve_decision. Defined.
#[export] Instance state_eq_dec : EqDecision State.t.
Proof. solve_decision. Defined.
#[export] Instance role_eq_dec : EqDecision Role.
Proof. solve_decision. Defined.

(** JSON as the ledger's columns hold it: its numbers are whole. *)
Abbreviation json := (@Value integers).

(** The columns of a message that are written once. *)
Record sent := Sent {
  s_project : Z;
  s_recipient : Z;
  s_sender : option Z;
  s_kind : Kind.t;
  s_reply_to : option Z;
  s_questions : option (list Question);
  s_choices : option (list (list text));
  s_urgent : bool;
  s_created_at : Z;
  s_role_text : option text
}.

Record message := Message {
  m_id : Z;
  m_sent : sent;
  m_task : option Z;
  m_body : text;
  m_state : State.t;
  m_attempts : Z;
  m_reason : option text;
  m_receipt : option json;
  m_delivered_at : option Z;
  m_claimed_at : option Z;
  m_carried_by : option Z;
  m_handed_at : option Z;
  m_door_closed_at : option Z
}.

Definition m_project (m : message) : Z := s_project (m_sent m).
Definition m_recipient (m : message) : Z := s_recipient (m_sent m).
Definition m_sender (m : message) : option Z := s_sender (m_sent m).
Definition m_kind (m : message) : Kind.t := s_kind (m_sent m).
Definition m_reply_to (m : message) : option Z := s_reply_to (m_sent m).
Definition m_urgent (m : message) : bool := s_urgent (m_sent m).
Definition m_role_text (m : message) : option text := s_role_text (m_sent m).

(** What a task's row says to its messages. *)
Record task := Task {
  t_id : Z;
  t_project : Z;
  t_number : Z;
  t_state : TaskState;
  t_assignee : option Z;
  t_requester : Z;
  t_paused_at : option Z
}.

Record participant := Participant {
  p_id : Z; p_project : Z; p_handle : text; p_role : Role; p_left : bool
}.

Record project := Project { pr_id : Z; pr_open : bool; pr_gate : bool; pr_meeting_at : option Z }.

Record conversation := Conversation {
  c_id : Z; c_participant : Z; c_ended : bool; c_started_at : Z; c_role_text : option text
}.

(** The log's events that the rules read, or that say what became of a message. *)
Inductive event :=
| MessageSent (message : Z)
| MessageApproved (message : Z)
| MessageRead (message : Z)
| MessageCarried (carrier : Z) (carried superseded requeued : list Z)
| MessageUncarried (carrier : Z) (released : list Z)
| MessageReconciled (uncarried : list nat)
| DeliveryBegun (message attempt : Z)
| DeliveryConfirmed (message : Z) (carried withdrawn_after_handed : list Z)
| DeliveryUnproven (message : Z) (item : text)
| DeliveryRetried (message : Z) (reason : text)
| DeliveryCancelled (message : Z) (reason : text)
| DeliveryTakenBack (message : Z) (kept : list Z)
| DeliveryClaimed (message question : Z)
| DeliveryUnclaimed (message : Z)
| TaskMoved (number : Z) (from to : TaskState) (message : option Z)
| TaskReleased (number : Z)
| TaskAssigned (number : Z).

(** [events] are a project's and what happened, an event's id its place; [sequence] is the greatest
    id a message ever had. *)
Record store := Store {
  messages : list message;
  tasks : list task;
  participants : list participant;
  projects : list project;
  conversations : list conversation;
  events : list (Z * event);
  sequence : Z
}.

(** Why the ledger did not do what it was asked. *)
Inductive Refused :=
| UnknownProject (id : Z)
| UnknownParticipant
| UnknownTask (number : Z)
| UnknownMessage (id : Z)
| UnknownConversation (id : Z)
| MemberLeft (handle : text)
| InvalidText
| InvalidTransition (message : Z)
| HumanReadsInApp
| RecipientBusy (message : Z)
| NotPending (message : Z)
| NotForTheHuman (message : Z)
| NotAQuestion (message : Z)
| NotYourQuestion (message : Z)
| TaskOver (number : Z) (state : TaskState)
| AlreadyAnswered (message : Z)
| QuestionWithdrawn (message : Z)
| AskInYourTerminal
| Choices (why : BadChoices)
| DoorClosed (message : Z)
| NotResumed (number : Z).

Notation "'let?' x := e 'in' k" :=
  (match e with inl x => k | inr why => inr why end)
  (at level 10, x pattern, e at level 200, k at level 200).

(** ** Rows written *)

Definition with_messages (f : list message -> list message) (s : store) : store :=
  Store (f (messages s)) (tasks s) (participants s) (projects s) (conversations s) (events s) (sequence s).

(** [UPDATE message SET .. WHERE ..] *)
Definition update (where_ : message -> bool) (set_ : message -> message) : store -> store :=
  with_messages (map (fun m => if where_ m then set_ m else m)).

Definition update_one (id : Z) : (message -> message) -> store -> store := update (fun m => m_id m =? id).

Definition update_task (id : Z) (f : task -> task) (s : store) : store :=
  Store (messages s) (map (fun t => if t_id t =? id then f t else t) (tasks s)) (participants s)
        (projects s) (conversations s) (events s) (sequence s).

Definition log (project : Z) (e : event) (s : store) : store :=
  Store (messages s) (tasks s) (participants s) (projects s) (conversations s)
        (events s ++ [(project, e)]) (sequence s).

Definition set_state (to : State.t) (m : message) : message :=
  Message (m_id m) (m_sent m) (m_task m) (m_body m) to (m_attempts m) (m_reason m) (m_receipt m)
          (m_delivered_at m) (m_claimed_at m) (m_carried_by m) (m_handed_at m) (m_door_closed_at m).
Definition set_attempts (n : Z) (m : message) : message :=
  Message (m_id m) (m_sent m) (m_task m) (m_body m) (m_state m) n (m_reason m) (m_receipt m)
          (m_delivered_at m) (m_claimed_at m) (m_carried_by m) (m_handed_at m) (m_door_closed_at m).
Definition set_reason (why : option text) (m : message) : message :=
  Message (m_id m) (m_sent m) (m_task m) (m_body m) (m_state m) (m_attempts m) why (m_receipt m)
          (m_delivered_at m) (m_claimed_at m) (m_carried_by m) (m_handed_at m) (m_door_closed_at m).
(** When it was received, and the proof. *)
Definition set_receipt (at_ : option Z) (r : option json) (m : message) : message :=
  Message (m_id m) (m_sent m) (m_task m) (m_body m) (m_state m) (m_attempts m) (m_reason m) r
          at_ (m_claimed_at m) (m_carried_by m) (m_handed_at m) (m_door_closed_at m).
Definition set_claimed (at_ : option Z) (m : message) : message :=
  Message (m_id m) (m_sent m) (m_task m) (m_body m) (m_state m) (m_attempts m) (m_reason m) (m_receipt m)
          (m_delivered_at m) at_ (m_carried_by m) (m_handed_at m) (m_door_closed_at m).
Definition set_carried (by_ : option Z) (m : message) : message :=
  Message (m_id m) (m_sent m) (m_task m) (m_body m) (m_state m) (m_attempts m) (m_reason m) (m_receipt m)
          (m_delivered_at m) (m_claimed_at m) by_ (m_handed_at m) (m_door_closed_at m).
Definition set_handed (at_ : option Z) (m : message) : message :=
  Message (m_id m) (m_sent m) (m_task m) (m_body m) (m_state m) (m_attempts m) (m_reason m) (m_receipt m)
          (m_delivered_at m) (m_claimed_at m) (m_carried_by m) at_ (m_door_closed_at m).
Definition set_words (task : option Z) (body : text) (m : message) : message :=
  Message (m_id m) (m_sent m) task body (m_state m) (m_attempts m) (m_reason m) (m_receipt m)
          (m_delivered_at m) (m_claimed_at m) (m_carried_by m) (m_handed_at m) (m_door_closed_at m).

(** ** Rows read *)

Definition message_row (s : store) (id : Z) : option message := find (fun m => m_id m =? id) (messages s).

Definition known_message (s : store) (id : Z) : message + Refused :=
  match message_row s id with Some m => inl m | None => inr (UnknownMessage id) end.

(** [require_message] *)
Definition require_message (s : store) (id : Z) (in_ : State.t) : message + Refused :=
  let? m := known_message s id in
  if decide (m_state m = in_) then inl m else inr (InvalidTransition id).

Definition project_row (s : store) (id : Z) : project + Refused :=
  match find (fun p => pr_id p =? id) (projects s) with Some p => inl p | None => inr (UnknownProject id) end.

Definition participant_row (s : store) (id : Z) : participant + Refused :=
  match find (fun p => p_id p =? id) (participants s) with Some p => inl p | None => inr UnknownParticipant end.

(** [participant_of] *)
Definition participant_of (s : store) (id : option Z) : participant + Refused :=
  match id with Some id => participant_row s id | None => inr UnknownParticipant end.

(** [require_active] *)
Definition require_active (p : participant) : unit + Refused :=
  if p_left p then inr (MemberLeft (p_handle p)) else inl tt.

Definition participant_by_handle (s : store) (project : Z) (handle : text) : participant + Refused :=
  let? _ := project_row s project in
  match find (fun p => (p_project p =? project) && bool_decide (p_handle p = handle)) (participants s) with
  | Some p => let? _ := require_active p in inl p
  | None => inr UnknownParticipant
  end.

Definition task_row (s : store) (project number : Z) : task + Refused :=
  match find (fun t => (t_project t =? project) && (t_number t =? number)) (tasks s) with
  | Some t => inl t
  | None => inr (UnknownTask number)
  end.

Definition task_by_id (s : store) (id : Z) : option task := find (fun t => t_id t =? id) (tasks s).

(** [message_task], of the message's row. *)
Definition message_task (s : store) (m : message) : option task := m_task m ≫= task_by_id s.

(** [current_conversation] *)
Definition current_conversation (s : store) (participant : Z) : option conversation :=
  find (fun c => (c_participant c =? participant) && negb (c_ended c)) (conversations s).

Definition is_open (s : store) (project : Z) : bool :=
  existsb (fun p => (pr_id p =? project) && pr_open p) (projects s).

Definition role_of (s : store) (id : Z) : option Role :=
  p_role <$> find (fun p => p_id p =? id) (participants s).

(** The messages of a task for a window, of a kind, in one of the states. *)
Definition exists_message (s : store) (where_ : message -> bool) : bool := existsb where_ (messages s).

Definition is_kind (k : Kind.t) (m : message) : bool := bool_decide (m_kind m = k).
Definition in_state (states : list State.t) (m : message) : bool := bool_decide (m_state m ∈ states).
Definition about (task : Z) (m : message) : bool := bool_decide (m_task m = Some task).
Definition for_ (recipient : Z) (m : message) : bool := m_recipient m =? recipient.
Definition rides_in (carrier : Z) (m : message) : bool := bool_decide (m_carried_by m = Some carrier).
Definition on_its_own (m : message) : bool := bool_decide (m_carried_by m = None).

Definition ids (s : store) (where_ : message -> bool) : list Z :=
  m_id <$> filter (fun m => where_ m = true) (messages s).

(** [HELD_TASK_STATES], [ACTIVE_TASK_STATES], [FINISHED_TASK_STATES], [MEMBER_ROLES] *)
Definition held_states : list TaskState := [Queued; Working; Waiting].
Definition active_states : list TaskState := [Working; Waiting].
Definition finished_states : list TaskState := [Accepted; Cancelled; Failed].
Definition member_roles : list Role := [Worker; Advisor; Reviewer; Tester; Designer].

(** ** Words told to a window *)

(** The SQL [told]: a note from a participant, never urgent. *)
Definition told (m : message) : bool :=
  is_kind Kind.Note m && bool_decide (is_Some (m_sender m)) && negb (m_urgent m).

(** [behind_held_words]: older words told to the window about the task wait for the human. *)
Definition behind_held_words (s : store) (m : message) : bool :=
  told m && exists_message s (fun o =>
    bool_decide (is_Some (m_task m)) && bool_decide (m_task o = m_task m) && for_ (m_recipient m) o &&
    told o && (m_id o <? m_id m) && in_state [State.Gated] o).

(** ** A message withdrawn *)

Definition withdraw (id : Z) (reason : text) : store -> store :=
  update_one id (fun m => set_reason (Some reason) (set_state State.Cancelled m)).

(** [withdraw_each]: each with the reason, as the log says. *)
Definition withdraw_each (project : Z) (which : list Z) (reason : text) (s : store) : store :=
  fold_left (fun s id => log project (DeliveryCancelled id reason) (withdraw id reason s)) which s.

(** *** Continuations *)

Definition state_name (st : TaskState) : text :=
  match st with
  | Open => txt "open" | Queued => txt "queued" | Working => txt "working" | Waiting => txt "waiting"
  | Paused => txt "paused" | Done => txt "done" | Accepted => txt "accepted" | Failed => txt "failed"
  | Cancelled => txt "cancelled"
  end.

Definition T_ (number : Z) : text := txt "T-" ++ show number.

(** Why a continuation is no longer to be given to its window. *)
Definition stale (s : store) (m : message) : option text :=
  if negb (is_kind Kind.Note m && bool_decide (m_sender m = None) &&
           in_state [State.Queued; State.Delivering] m) then None else
  named ← continuation_tasks (m_body m);
  match named with
  | [number] =>
      match task_row s (m_project m) number with
      | inl t => if decide (t_assignee t = Some (m_recipient m))
                 then if decide (t_state t ∈ active_states) then None
                      else Some (T_ number ++ txt " is " ++ state_name (t_state t) ++ txt " now")
                 else Some (T_ number ++ txt " went from its window")
      | inr _ => Some (T_ number ++ txt " went from its window")
      end
  | _ => Some (txt "it names several tasks")
  end.

Definition withdrawn_if_stale (m : message) (s : store) : bool * store :=
  match stale s m with
  | Some reason => (true, withdraw_each (m_project m) [m_id m] reason s)
  | None => (false, s)
  end.

Definition withdraw_stale_among (which : list Z) (s : store) : store :=
  fold_left (fun s id => match message_row s id with
                         | Some m => (withdrawn_if_stale m s).2
                         | None => s
                         end) which s.

(** [continuations_of]: those about the task, each with the window it is for. *)
Definition continuations_of (s : store) (t : task) (where_ : message -> bool) : list (Z * Z) :=
  omap (fun m =>
    if (m_project m =? t_project t) && bool_decide (m_sender m = None) && is_kind Kind.Note m && where_ m &&
       (about (t_id t) m || bool_decide (t_assignee t = Some (m_recipient m)))
    then named ← continuation_tasks (m_body m);
         if about (t_id t) m || bool_decide (t_number t ∈ named) then Some (m_id m, m_recipient m) else None
    else None) (messages s).

(** A task moved out of its work: what told its window to go on and was not handed to it. *)
Definition withdraw_continuations (t : task) (to : TaskState) (s : store) : store :=
  let unsent := continuations_of s t (fun m =>
    in_state [State.Queued] m || in_state [State.Delivering] m && bool_decide (m_handed_at m = None)) in
  withdraw_each (t_project t) unsent.*1 (T_ (t_number t) ++ txt " is " ++ state_name to ++ txt " now") s.

(** ** A task moved *)

Definition with_state (to : TaskState) (t : task) : task :=
  Task (t_id t) (t_project t) (t_number t) to (t_assignee t) (t_requester t) (t_paused_at t).

(** [Store::move_task], of a task in its window's hands: such a move tells nothing of a failure, nor
    of a wait that ended. *)
Definition move_task (t : task) (to : TaskState) (s : store) : store :=
  let s := update_task (t_id t) (with_state to) s in
  let s := log (t_project t) (TaskMoved (t_number t) (t_state t) to None) s in
  if decide (to ∈ active_states) then s else withdraw_continuations t to s.

(** [barrier]: a task message for the window is still on its way; [arrived]: one was received. *)
Definition task_words (task window : Z) (states : list State.t) (m : message) : bool :=
  about task m && for_ window m && is_kind Kind.Task m && in_state states m.
Definition barrier (s : store) (task window : Z) : bool :=
  exists_message s (task_words task window [State.Queued; State.Gated; State.Delivering]).
Definition arrived (s : store) (task window : Z) : bool :=
  exists_message s (task_words task window [State.Delivered; State.Read]).

Definition answers (question : Z) (m : message) : bool :=
  bool_decide (m_reply_to m = Some question) && is_kind Kind.Answer m.

(** [outstanding]: a question of the window's that no received answer resolves. *)
Definition outstanding (s : store) (task window : Z) : bool :=
  exists_message s (fun q =>
    about task q && is_kind Kind.Question q && bool_decide (m_sender q = Some window) && negb (m_urgent q) &&
    negb (exists_message s (fun a => answers (m_id q) a && in_state [State.Delivered; State.Read] a)) &&
    (negb (in_state [State.Cancelled] q) || exists_message s (answers (m_id q)))).

(** Where a task of a window goes by what the window received, if anywhere. *)
Definition moved_to (s : store) (t : task) (window : Z) : option TaskState :=
  match t_state t with
  | Queued => if barrier s (t_id t) window || negb (arrived s (t_id t) window) then None
              else Some (if outstanding s (t_id t) window then Waiting else Working)
  | Working => if outstanding s (t_id t) window then Some Waiting else None
  | Waiting => if outstanding s (t_id t) window then None else Some Working
  | _ => None
  end.

Definition reconcile (task : Z) (s : store) : store :=
  match task_by_id s task with
  | Some t => match t_assignee t with
              | Some window => match moved_to s t window with
                               | Some to => move_task t to s
                               | None => s
                               end
              | None => s
              end
  | None => s
  end.

Definition reconcile_each (which : list Z) (s : store) : store := fold_left (fun s id => reconcile id s) which s.

(** The task a message is about is reconciled. *)
Definition reconcile_of (m : message) (s : store) : store :=
  match message_task s m with Some t => reconcile (t_id t) s | None => s end.

(** ** Rows that ride in another's paste *)

(** The rows a carrier carries and has not yet delivered. *)
Definition carried (s : store) (carrier : Z) : list message :=
  filter (fun m => rides_in carrier m && in_state [State.Queued] m = true) (messages s).

Definition kept_kinds : list Kind.t := [Kind.Task; Kind.Answer; Kind.Note].
Definition kept (task recipient : Z) (m : message) : bool :=
  about task m && for_ recipient m && negb (m_urgent m) && bool_decide (m_kind m ∈ kept_kinds) &&
  in_state [State.Queued] m.

(** Whether a paste of the message began, as the log says. *)
Definition begun (s : store) (project id : Z) : bool :=
  existsb (fun e => (e.1 =? project) && match e.2 with DeliveryBegun m _ => m =? id | _ => false end) (events s).

(** The task message that waits for the message's window, the newest, which it joins. *)
Definition joins (s : store) (m : message) : option Z :=
  if negb (m_urgent m) && in_state [State.Queued] m && on_its_own m && bool_decide (m_kind m ∈ kept_kinds) &&
     negb (behind_held_words s m)
  then m_id <$> last (filter (fun c =>
         bool_decide (is_Some (m_task m)) && bool_decide (m_task c = m_task m) && for_ (m_recipient m) c &&
         is_kind Kind.Task c && on_its_own c && in_state [State.Queued; State.Gated] c &&
         negb (m_id c =? m_id m) && (negb (is_kind Kind.Task m) || (m_id m <? m_id c)) &&
         negb (begun s (m_project c) (m_id c)) = true) (messages s))
  else None.

Definition adopt (id : Z) (s : store) : store :=
  match message_row s id with
  | None => s
  | Some m =>
      match joins s m with
      | None => s
      | Some carrier =>
          let s := update (fun r => (m_id r =? id) || rides_in id r) (set_carried (Some carrier)) s in
          update (fun f => bool_decide (is_Some (m_task m)) && bool_decide (m_task f = m_task m) &&
                           for_ (m_recipient m) f && (id <? m_id f) && in_state [State.Queued] f &&
                           on_its_own f && told f && negb (behind_held_words s f))
                 (set_carried (Some carrier)) s
      end
  end.

(** What a carrier of the task that was cancelled, or failed, carried is its own again. *)
Definition release_carried (task : Z) (s : store) : store :=
  let gone := ids s (fun c => about task c && in_state [State.Cancelled; State.Failed] c) in
  let released_ m := about task m && in_state [State.Queued] m &&
                     match m_carried_by m with Some c => bool_decide (c ∈ gone) | None => false end in
  let released := ids s released_ in
  withdraw_stale_among released (update released_ (fun m => set_handed None (set_carried None m)) s).

(** [cancel_message] *)
Definition cancel_message (id : Z) (reason : text) (s : store) : store + Refused :=
  if negb (require_text reason 1000) then inr InvalidText else
  match message_row s id with
  | Some m =>
      if in_state [State.Queued; State.Delivering] m then
        let s := log (m_project m) (DeliveryCancelled id reason) (withdraw id reason s) in
        inl match message_task s m with Some t => release_carried (t_id t) s | None => s end
      else inr (NotPending id)
  | None => inr (NotPending id)
  end.

(** Each of the messages cancelled, with the reason. *)
Fixpoint cancel_each (which : list Z) (reason : text) (s : store) : store + Refused :=
  match which with
  | [] => inl s
  | id :: which => let? s := cancel_message id reason s in cancel_each which reason s
  end.

Definition m_ (id : Z) : text := txt "m-" ++ show id.

(** [requeue_unreceived_reads]: the answers Node marked read with no proof since the task paused. *)
Definition requeue_unreceived_reads (t : task) (recipient : Z) (s : store) : list Z * store :=
  match t_paused_at t with
  | None => ([], s)
  | Some paused_at =>
      let unread := ids s (fun m => about (t_id t) m && for_ recipient m && is_kind Kind.Answer m &&
                                    in_state [State.Read] m && bool_decide (m_receipt m = None) &&
                                    (paused_at <=? s_created_at (m_sent m))) in
      (unread, update (fun m => bool_decide (m_id m ∈ unread)) (set_state State.Queued) s)
  end.

(** What the daemon says when it resumes a hold. *)
Definition bare_resume : text := txt "Resumed: " ++ RESUME_WORDS.

(** [fold]: what the window keeps about the task goes with the carrier, which was just queued. *)
Definition fold (t : task) (recipient carrier : Z) (s : store) : store + Refused :=
  let '(requeued, s) := requeue_unreceived_reads t recipient s in
  let superseded := ids s (fun m => about (t_id t) m && for_ recipient m && is_kind Kind.Task m &&
    in_state [State.Queued] m && on_its_own m && negb (m_id m =? carrier) && bool_decide (m_body m = bare_resume)) in
  let? s := cancel_each superseded (txt "superseded by " ++ m_ carrier) s in
  let pasting := ids s (in_state [State.Delivering]) in
  let taken := ids s (fun m => kept (t_id t) recipient m && negb (m_id m =? carrier) &&
    negb (behind_held_words s m) &&
    match m_carried_by m with
    | None => true
    | Some c => bool_decide (is_Some (message_row s c)) && negb (bool_decide (c ∈ pasting))
    end) in
  let s := update (fun m => bool_decide (m_id m ∈ taken)) (set_carried (Some carrier)) s in
  inl (if bool_decide (taken = []) && bool_decide (superseded = []) && bool_decide (requeued = []) then s
       else log (t_project t) (MessageCarried carrier taken superseded requeued) s).

(** *** What a daemon that knows no carriers left riding in one *)

Definition release_one_stranded (s : store) (of_ : Z * Z) : store :=
  let '(carrier, project) := of_ in
  let stranded m := rides_in carrier m && in_state [State.Queued] m in
  let released := ids s stranded in
  let s := update stranded (fun m => set_handed None (set_carried None m)) s in
  withdraw_stale_among released (log project (MessageUncarried carrier released) s).

Definition carrier_settled (s : store) (carrier : Z) : bool :=
  match message_row s carrier with
  | Some c => negb (in_state [State.Queued; State.Gated; State.Delivering] c)
  | None => false
  end.

(** The carriers whose rows wait though the carrier does not, each with its rows' project. *)
Definition stranding (s : store) : list (Z * Z) :=
  let rows := filter (fun m => in_state [State.Queued] m = true) (messages s) in
  let carriers := filter (fun c => carrier_settled s c = true) (TaskPlan.sorted (omap m_carried_by rows)) in
  concat ((fun c => pair c <$> remove_dups (m_project <$> filter (fun m => rides_in c m = true) rows)) <$> carriers).

Definition release_stranded (s : store) : store := fold_left release_one_stranded (stranding s) s.

(** The lets-go not yet reconciled: each one's project, its event, and what it let go of. *)
Definition unreconciled (s : store) : list (Z * nat * list Z) :=
  let done_ := concat (omap (fun e : Z * event =>
    match e.2 with MessageReconciled which => Some which | _ => None end) (events s)) in
  omap (fun e : nat * (Z * event) =>
    match e.2.2 with
    | MessageUncarried _ released => if decide (e.1 ∈ done_) then None else Some (e.2.1, e.1, released)
    | _ => None
    end) (imap pair (events s)).

(** The tasks of what was let go of and waits still, on its own. *)
Definition tasks_released (s : store) (released : list Z) : list Z :=
  TaskPlan.sorted (omap (fun m => if bool_decide (m_id m ∈ released) && in_state [State.Queued] m && on_its_own m
                                  then m_task m else None) (messages s)).

Definition reconcile_released (s : store) : store :=
  let found := unreconciled s in
  let s := fold_left (fun s e => reconcile_each (tasks_released s e.2) s) found s in
  fold_left (fun s project =>
    log project (MessageReconciled (omap (fun e : Z * nat * list Z =>
      if e.1.1 =? project then Some e.1.2 else None) found)) s)
    (TaskPlan.sorted ((fun e : Z * nat * list Z => e.1.1) <$> found)) s.

(** ** A message on its way *)

Record queued := ToQueue {
  q_to : Z;
  q_from : option Z;
  q_kind : Kind.t;
  q_task : option Z;
  q_reply_to : option Z;
  q_body : text;
  q_from_window : bool;
  q_door_closed : bool;
  q_questions : option (list Question);
  q_choices : option (list (list text));
  q_urgent : bool;
  q_role : option text
}.

(** [gate_holds]: one agent's word to another, where the human approves every hand-off. *)
Definition gate_holds (s : store) (project : Z) (from : option Z) (to : Z) : bool + Refused :=
  match from with
  | None => inl false
  | Some from =>
      if from =? to then inl false else
      let? p := project_row s project in
      if negb (pr_gate p) then inl false else
      let? sender := participant_row s from in
      if bool_decide (p_role sender = Human) then inl false else
      let? recipient := participant_row s to in
      inl (negb (bool_decide (p_role recipient = Human)))
  end.

(** What the asker's own window gave says so. *)
Definition from_window : json := Object [("window"%string, Bool true)].

Definition insert_row (now project : Z) (q : queued) (landing : State.t) (s : store) : Z * store :=
  let id := sequence s + 1 in
  let received := bool_decide (landing = State.Read) in
  let m := Message id
    (Sent project (q_to q) (q_from q) (q_kind q) (q_reply_to q) (q_questions q) (q_choices q) (q_urgent q) now
          (q_role q))
    (q_task q) (q_body q) landing 0 None (if received then Some from_window else None)
    (if received then Some now else None) None None None (if q_door_closed q then Some now else None) in
  (id, Store (messages s ++ [m]) (tasks s) (participants s) (projects s) (conversations s) (events s) id).

(** [queue]: the id it has. *)
Definition queue (now project : Z) (q : queued) (s : store) : Z * store + Refused :=
  let? gated := gate_holds s project (q_from q) (q_to q) in
  let landing := if gated then State.Gated else if q_from_window q then State.Read else State.Queued in
  let '(id, s) := insert_row now project q landing s in
  inl (id, if bool_decide (landing = State.Queued) && bool_decide (q_kind q ∈ [Kind.Answer; Kind.Note])
           then adopt id s else s).

(** What is sent by handle: from whom (ConsensFlow itself when no one), to whom, and about which task. *)
Record sending := ToSend {
  d_from : option text;
  d_to : text;
  d_body : text;
  d_task : option Z;
  d_kind : Kind.t;
  d_questions : option (list Question);
  d_urgent : bool;
  d_door_closed : bool;
  d_role : option text
}.

Definition send (now project : Z) (d : sending) (s : store) : Z * store + Refused :=
  if negb (require_text (d_body d) MAX_BODY) then inr InvalidText else
  let? sender := match d_from d with
                 | Some from => let? p := participant_by_handle s project from in inl (Some (p_id p))
                 | None => inl None
                 end in
  let? recipient := participant_by_handle s project (d_to d) in
  let? task := match d_task d with
               | Some number => let? t := task_row s project number in inl (Some (t_id t))
               | None => inl None
               end in
  let? (id, s) := queue now project
    (ToQueue (p_id recipient) sender (d_kind d) task None (d_body d) false (d_door_closed d) (d_questions d)
             None (d_urgent d) (d_role d)) s in
  inl (id, log project (MessageSent id) s).

(** [note]: from a participant, or ConsensFlow itself, about a task or none; [note_role]: one that says
    a conversation its role. *)
Definition note (now project : Z) (from : option text) (to body : text) (task : option Z) (s : store) :
    Z * store + Refused :=
  send now project (ToSend from to body task Kind.Note None false false None) s.

Definition note_role (now project : Z) (to body role : text) (s : store) : Z * store + Refused :=
  send now project (ToSend None to body None Kind.Note None false false (Some role)) s.

(** A task's messages that go no further: those held for the human, a result not yet given, and all
    that wait of one cancelled or failed. *)
Definition withdraw_gated (task : Z) (reason : text) (s : store) : store :=
  release_carried task (update (fun m => about task m && in_state [State.Gated] m)
                               (fun m => set_reason (Some reason) (set_state State.Cancelled m)) s).

Definition withdraw_result (t : task) (why : text) : store -> store :=
  update (fun m => about (t_id t) m && is_kind Kind.Result m && in_state [State.Queued] m)
         (fun m => set_reason (Some (T_ (t_number t) ++ txt " " ++ why)) (set_state State.Cancelled m)).

Definition drop_queued (task : Z) : store -> store :=
  update (fun m => about task m && in_state [State.Queued; State.Gated] m) (set_state State.Cancelled).
