(* ===== verification/Deliveries.v ===== *)
(** * A message's way into a window: [cf-ledger/src/messages]

    The head of a window's queue that may go, its delivery begun, let go to the window, confirmed by
    the harness's record, tried again or taken back ([delivery.rs], [taken_back.rs]); what a read of
    it makes received ([receipt.rs]); and the human's own reading and passing on ([gate.rs]). *)
From S2P Require Import Prelude Utf8 Text JsValue Words TaskPlan Ledger.
#[local] Open Scope Z_scope.

(** ** What a read receives: [receipt.rs] *)

Module Via.
Inductive t := Inbox | Task.
End Via.

#[export] Instance via_eq_dec : EqDecision Via.t.
Proof. solve_decision. Defined.

Definition word (via : Via.t) : string := match via with Via.Inbox => "inbox" | Via.Task => "task" end.
Definition of_word (word : string) : option Via.t :=
  if decide (word = "inbox"%string) then Some Via.Inbox
  else if decide (word = "task"%string) then Some Via.Task else None.

Definition says_a_role (m : message) : bool := bool_decide (is_Some (m_role_text m)).

(** [Read::receives], of a message still queued; [Read::keeps], of one on its way. *)
Definition receives (via : Via.t) (m : message) : bool :=
  match via with
  | Via.Inbox => negb (is_kind Kind.Task m) && negb (says_a_role m)
  | Via.Task => is_kind Kind.Answer m
  end.
Definition keeps (via : Via.t) (m : message) : bool :=
  match via with
  | Via.Inbox => negb (is_kind Kind.Task m)
  | Via.Task => is_kind Kind.Answer m
  end.

(** A read made while the paste was on its way, and the conversation it was made in. *)
Record Kept := { kept_via : Via.t; kept_in : option Z }.

Definition KEPT : string := "readEarly".
Definition KEPT_IN : string := "readIn".

Definition as_i64 (v : json) : option Z :=
  match v with Number n => if is_i64 n then Some n else None | _ => None end.

Definition kept_read (m : message) : option Kept :=
  receipt ← m_receipt m;
  via ← (get KEPT receipt ≫= as_str) ≫= of_word;
  Some {| kept_via := via; kept_in := get KEPT_IN receipt ≫= as_i64 |}.

Definition with_kept_read (receipt : json) (k : option Kept) : json :=
  match k with
  | None => receipt
  | Some k =>
      let fields := default [] (as_object receipt) in
      let fields := map_insert KEPT (Str (word (kept_via k))) fields in
      Object match kept_in k with
             | Some c => map_insert KEPT_IN (@Number integers c) fields
             | None => fields
             end
  end.

(** [keep_read] *)
Definition keep_read (m : message) (via : Via.t) (s : store) : store :=
  let conversation := c_id <$> current_conversation s (m_recipient m) in
  let receipt := with_kept_read (Object []) (Some {| kept_via := via; kept_in := conversation |}) in
  update (fun r => (m_id r =? m_id m) && in_state [State.Delivering] r)
         (fun r => set_receipt (m_delivered_at r) (Some receipt) r) s.

(** [received_as]: the message is read, with the proof, its claim given up. *)
Definition received_as (now : Z) (m : message) (receipt : json) (s : store) : store :=
  log (m_project m) (MessageRead (m_id m))
    (update_one (m_id m) (fun r => set_claimed None (set_receipt (Some now) (Some receipt)
                                     (set_state State.Read r))) s).

Definition with_conversation (id : Z) (role : text) (s : store) : store :=
  Store (messages s) (tasks s) (participants s) (projects s)
    (map (fun c => if c_id c =? id
                   then Conversation (c_id c) (c_participant c) (c_ended c) (c_started_at c) (Some role) else c)
         (conversations s)) (events s) (sequence s).

(** [read_role]: a note that says a role, delivered cut, and printed whole since. *)
Definition read_role (m : message) (s : store) : store :=
  let s := log (m_project m) (MessageRead (m_id m)) (update_one (m_id m) (set_state State.Read) s) in
  let last_ := last (ids s (fun r => for_ (m_recipient m) r && says_a_role r)) in
  match current_conversation s (m_recipient m) with
  | None => s
  | Some c =>
      let since := match m_delivered_at m with Some at_ => c_started_at c <=? at_ | None => false end in
      match message_row s (m_id m) ≫= m_role_text with
      | Some role => if bool_decide (last_ = Some (m_id m)) && since then with_conversation (c_id c) role s else s
      | None => s
      end
  end.

(** [told_when_confirmed] *)
Definition told_when_confirmed (id : Z) (k : Kept) (s : store) : store + Refused :=
  let? delivered := known_message s id in
  if negb (bool_decide (kept_via k = Via.Inbox) && says_a_role delivered) then inl s else
  let conversation := c_id <$> current_conversation s (m_recipient delivered) in
  inl (if decide (conversation = kept_in k) then read_role delivered s else s).

Definition read_receipt (via : Via.t) : json := Object [("read"%string, Str (word via))].

(** [settle_kept_read]: the read kept with the message, which is in [in_], is told; whether it was. *)
Definition settle_kept_read (now id : Z) (in_ : State.t) (s : store) : bool * store + Refused :=
  let? m := known_message s id in
  match kept_read m with
  | None => inl (false, s)
  | Some k =>
      if bool_decide (m_state m = in_) && receives (kept_via k) m
      then inl (true, reconcile_of m (received_as now m (read_receipt (kept_via k)) s))
      else inl (false, s)
  end.

(** [receive_read]: one served message, the count of those received and their tasks. *)
Definition receive_one (now recipient : Z) (via : Via.t) (acc : nat * list Z * store) (id : Z) :
    nat * list Z * store :=
  let '(received, tasks, s) := acc in
  match message_row s id with
  | Some m =>
      if negb (m_recipient m =? recipient) then acc
      else if bool_decide (via = Via.Inbox) && says_a_role m && in_state [State.Delivered] m
      then (S received, tasks, read_role m s)
      else if in_state [State.Delivering] m then (received, tasks, if keeps via m then keep_read m via s else s)
      else if negb (in_state [State.Queued] m) || negb (receives via m) then acc
      else
        let s := received_as now m (read_receipt via) s in
        (S received, match message_task s m with
                     | Some t => if decide (t_id t ∈ tasks) then tasks else tasks ++ [t_id t]
                     | None => tasks
                     end, s)
  | None => acc
  end.

Definition receive_read (now recipient : Z) (which : list Z) (via : Via.t) (s : store) : nat * store :=
  let '(received, tasks, s) := fold_left (receive_one now recipient via) which (0%nat, [], s) in
  (received, reconcile_each tasks s).

(** ** The head of a window's queue *)

(** The words ConsensFlow's notes to a chief open with that a meeting does not hold. *)
Definition HANDOFF_TITLE : text := txt "You are the chief now".
Definition LEAD_HANDOFF_TITLE : text := txt "You are the lead now".
Definition CHIEF_CUT : text := txt "ConsensFlow stopped in the middle of your turn, which was cut".
Definition SWITCH_ASKED : text := txt "The human is moving this project's chief to".
Definition NOT_HELD : list text := [HANDOFF_TITLE; LEAD_HANDOFF_TITLE; CHIEF_CUT; SWITCH_ASKED].

(** [held_by_meeting] *)
Definition held_by_meeting (s : store) (m : message) : bool :=
  in_state [State.Queued] m &&
  existsb (fun p => (pr_id p =? m_project m) && bool_decide (is_Some (pr_meeting_at p))) (projects s) &&
  existsb (fun p => (p_id p =? m_recipient m) && bool_decide (p_role p = Chief)) (participants s) &&
  negb (says_a_role m) &&
  negb (bool_decide (m_sender m = None) && is_kind Kind.Note m && bool_decide (m_task m = None) &&
        existsb (fun words => bool_decide (is_Some (strip_prefix words (m_body m)))) NOT_HELD).

(** A question of a member's, which goes ahead. *)
Definition ahead (m : message) : bool := is_kind Kind.Question m && negb (m_urgent m).

(** Whether the window has a task of its in one of the states, other than the message's. *)
Definition has_task (s : store) (window : Z) (states : list TaskState) (but : option Z) : bool :=
  existsb (fun t => bool_decide (t_assignee t = Some window) && bool_decide (t_state t ∈ states) &&
                    negb (bool_decide (but = Some (t_id t)))) (tasks s).

Definition is_member (p : participant) : bool := bool_decide (p_role p ∈ member_roles).

Definition may_go (s : store) (p : participant) (m : message) : bool :=
  let serial := is_member p in
  for_ (p_id p) m && in_state [State.Queued] m && on_its_own m && bool_decide (m_claimed_at m = None) &&
  (negb (is_kind Kind.Task m) || negb serial || negb (has_task s (p_id p) active_states (m_task m))) &&
  (negb serial || m_urgent m ||
   existsb (fun t => bool_decide (m_task m = Some (t_id t)) && bool_decide (t_assignee t = Some (p_id p)) &&
                     bool_decide (t_state t ∈ held_states)) (tasks s)) &&
  (m_urgent m || match m_task m with
                 | None => true
                 | Some task => negb (exists_message s (task_words task (m_recipient m) [State.Gated]))
                 end) &&
  negb (behind_held_words s m) && negb (held_by_meeting s m).

Definition next_delivery_among (s : store) (participant : Z) (only : option Z) : option message + Refused :=
  let? p := participant_row s participant in
  if decide (p_role p = Human) then inl None else
  if exists_message s (fun m => for_ participant m && in_state [State.Delivering] m) then inl None else
  let may m := may_go s p m && match only with Some id => m_id m =? id | None => true end in
  inl match find (fun m => may m && ahead m) (messages s) with
      | Some m => Some m
      | None => find may (messages s)
      end.

Definition next_delivery (s : store) (participant : Z) := next_delivery_among s participant None.
Definition next_delivery_of (s : store) (participant id : Z) := next_delivery_among s participant (Some id).

(** The participants something waits on, each once. *)
Definition with_work (s : store) (project : Z) : list Z :=
  remove_dups
    ((m_recipient <$> filter (fun m => (m_project m =? project) && in_state [State.Queued; State.Delivering] m = true)
                             (messages s)) ++
     omap (fun t => if (t_project t =? project) && bool_decide (t_state t ∈ held_states)
                    then t_assignee t else None) (tasks s)).

(** [last_given] *)
Definition last_given (s : store) (participant : Z) : option Z :=
  last (ids s (fun m => for_ participant m && in_state [State.Delivered; State.Read] m)).

(** ** A delivery begun, and let go to its window *)

Definition begin_delivery (id : Z) (s : store) : message * list message * store + Refused :=
  let? m := require_message s id State.Queued in
  let? p := participant_row s (m_recipient m) in
  if decide (p_role p = Human) then inr HumanReadsInApp else
  if negb (on_its_own m) then inr (InvalidTransition id) else
  if negb (bool_decide (m_claimed_at m = None)) then inr (InvalidTransition id) else
  let busy := exists_message s (fun r => for_ (m_recipient m) r && in_state [State.Delivering] r) in
  let working := is_kind Kind.Task m && is_member p && has_task s (m_recipient m) active_states (m_task m) in
  if busy || working then inr (RecipientBusy id) else
  let s := update_one id (fun r => set_reason None (set_attempts (m_attempts r + 1) (set_state State.Delivering r))) s in
  let s := log (m_project m) (DeliveryBegun id (m_attempts m + 1)) s in
  let? now_ := known_message s id in
  inl (now_, carried s id, s).

(** [own_steps.rs]: the chief asked for the task and has it. *)
Definition is_own_step (s : store) (t : task) : bool + Refused :=
  if negb (bool_decide (t_assignee t = Some (t_requester t))) then inl false else
  let? p := participant_row s (t_requester t) in inl (bool_decide (p_role p = Chief)).

Definition done_before (t : task) (chief : text) : text :=
  T_ (t_number t) ++ txt " was done before it came back to @" ++ chief.

(** [withdrawn_late]: a step of the chief's, finished while its brief was on its way. *)
Definition withdrawn_late (m : message) (t : task) (s : store) : bool * store + Refused :=
  if negb (is_kind Kind.Task m) || bool_decide (t_state t ∈ held_states) then inl (false, s) else
  let? own := is_own_step s t in
  if negb own then inl (false, s) else
  let? chief := participant_row s (t_requester t) in
  let? s := cancel_message (m_id m) (done_before t (p_handle chief)) s in
  inl (true, s).

(** What the transport is to do with a hand-over begun: it goes, or nothing goes in. *)
Inductive HandOver := Goes | Closed | Withdrawn.

(** Each of the rows withdrawn if it is stale; whether any was. *)
Definition any_stale (rows : list message) (s : store) : bool * store :=
  fold_left (fun '(stale, s) row => let '(w, s) := withdrawn_if_stale row s in (stale || w, s)) rows (false, s).

(** [admit], of what the delivery was begun with. *)
Definition admit_delivery (now id : Z) (begun_with : list Z) (s : store) : HandOver * store + Refused :=
  match message_row s id with
  | None => inl (Withdrawn, s)
  | Some m =>
      if negb (is_open s (m_project m)) then inl (Closed, s) else
      let '(stale, s) := withdrawn_if_stale m s in
      let '(stale', s) := any_stale (carried s id) s in
      if stale || stale' then inl (Withdrawn, s) else
      let? (late, s) := match message_task s m with
                        | Some t => withdrawn_late m t s
                        | None => inl (false, s)
                        end in
      if late then inl (Withdrawn, s) else
      let riding := m_id <$> carried s id in
      if negb (in_state [State.Delivering] m) || existsb (fun r => bool_decide (r ∉ riding)) begun_with
      then inl (Withdrawn, s)
      else inl (Goes, update (fun r => (m_id r =? id) || rides_in id r && in_state [State.Queued] r)
                             (set_handed (Some now)) s)
  end.

(** [received_of], [handed_over] *)
Definition received_of (s : store) (id : Z) (begun_with : list Z) : option Z :=
  find (fun r => bool_decide (r ∈ begun_with))
    (ids s (fun m => rides_in id m && in_state [State.Read; State.Delivered] m)).

Definition handed_over (s : store) (project : Z) : list Z :=
  ids s (fun m => (m_project m =? project) &&
    (in_state [State.Delivering] m && bool_decide (is_Some (m_handed_at m)) ||
     in_state [State.Queued] m && (bool_decide (is_Some (m_handed_at m)) || bool_decide (is_Some (m_claimed_at m))))).

(** ** What the harness's record proves *)

Definition WITHDRAWN_AFTER_HANDED : string := "after it was handed over".

Definition carrier_receipt (id : Z) : list (string * json) := [("carrier"%string, @Number integers id)].
Definition late_receipt (id : Z) : json :=
  Object (carrier_receipt id ++ [("cancelled"%string, Str WITHDRAWN_AFTER_HANDED)]).

(** Withdrawn after it was handed over with the paste of the carrier's last hand-over. *)
Definition rode_withdrawn (s : store) (id : Z) (m : message) : bool :=
  rides_in id m && in_state [State.Cancelled] m &&
  match m_handed_at m, message_row s id ≫= m_handed_at with
  | Some handed, Some at_ => at_ <=? handed
  | _, _ => false
  end.

Definition confirm_delivery (now id : Z) (receipt : option json) (s : store) : message * store + Refused :=
  let? m := require_message s id State.Delivering in
  let early := kept_read m in
  let proof_ := js_order (with_kept_read (default Null receipt) early) in
  let s := update_one id (fun r => set_receipt (Some now) (Some proof_) (set_state State.Delivered r)) s in
  let rode := m_id <$> carried s id in
  let s := update (fun r => rides_in id r && in_state [State.Queued] r)
                  (fun r => set_receipt (Some now) (Some (Object (carrier_receipt id))) (set_state State.Delivered r)) s in
  let late := ids s (rode_withdrawn s id) in
  let s := update (rode_withdrawn s id)
                  (fun r => set_receipt (Some now) (Some (late_receipt id)) (set_state State.Delivered r)) s in
  let s := log (m_project m) (DeliveryConfirmed id rode late) s in
  let? s := match early with Some k => told_when_confirmed id k s | None => inl s end in
  let s := reconcile_of m s in
  let? m := known_message s id in
  inl (m, s).

(** [confirm_delivery_telling], [confirm_unproven] *)
Definition confirm_delivery_telling (now id : Z) (receipt : option json) (s : store) : message * store + Refused :=
  let? (confirmed, s) := confirm_delivery now id receipt s in
  inl (confirmed, match m_role_text confirmed, current_conversation s (m_recipient confirmed) with
                  | Some role, Some c => with_conversation (c_id c) role s
                  | _, _ => s
                  end).

(** A note told when something arrived unproven: from whom, to whom, what, about which task. *)
Abbreviation new_note := (option text * text * text * option Z)%type.

Fixpoint note_each (now project : Z) (notes : list new_note) (s : store) : store + Refused :=
  match notes with
  | [] => inl s
  | (from, to, body, task) :: notes =>
      let? (_, s) := note now project from to body task s in note_each now project notes s
  end.

Definition confirm_unproven (now id : Z) (item : string) (tell : list new_note) (s : store) :
    message * store + Refused :=
  let receipt := Object [("item"%string, Str item); ("unproven"%string, Bool true)] in
  let? (confirmed, s) := confirm_delivery now id (Some receipt) s in
  let s := log (m_project confirmed) (DeliveryUnproven id (txt item)) s in
  let? s := note_each now (m_project confirmed) tell s in
  inl (confirmed, s).

(** ** A pause note that does not arrive: [pauses.rs] *)

(** [moved_on]: the words its requester is told of a task that moved on. *)
Definition moved_on (t : task) : text :=
  match t_state t with
  | Queued | Working | Waiting => txt "resumed"
  | Paused => txt "was paused again"
  | Open => txt "was taken back"
  | Done => txt "was done"
  | Accepted => txt "was accepted"
  | Failed => txt "failed"
  | Cancelled => txt "cancelled"
  end.

(** [moved_on_its_way]: a move of the task is logged after the message's last delivery began. *)
Definition moves (project number : Z) (e : Z * event) : bool :=
  (e.1 =? project) && match e.2 with
                      | TaskMoved n _ _ _ | TaskReleased n | TaskAssigned n => n =? number
                      | _ => false
                      end.
Definition begins (project id : Z) (e : Z * event) : bool :=
  (e.1 =? project) && match e.2 with DeliveryBegun m _ => m =? id | _ => false end.

Fixpoint moved_since (project number id : Z) (newest_first : list (Z * event)) : bool :=
  match newest_first with
  | [] => false
  | e :: rest => if begins project id e then false
                 else if moves project number e then existsb (begins project id) rest
                 else moved_since project number id rest
  end.
Definition moved_on_its_way (s : store) (m : message) (number : Z) : bool :=
  moved_since (m_project m) number (m_id m) (reverse (events s)).

(** [say_again]: a warning, as what came before. *)
Definition say_again (now : Z) (t : task) (why : text) (because : text) (s : store) : store + Refused :=
  let? requester := participant_row s (t_requester t) in
  let? (_, s) := send now (t_project t) (ToSend None (p_handle requester)
    (T_ (t_number t) ++ txt " " ++ why ++ txt ". Before that, " ++ because ++ txt ".")
    None Kind.Note None false false None) s in
  inl s.

(** [set]: the words of a note naming what is left. *)
Definition set_paused (id project : Z) (paused : list Words.Paused) (s : store) : store + Refused :=
  let? task := match paused with
               | [one] => let? t := task_row s project (number one) in inl (Some (t_id t))
               | _ => inl None
               end in
  inl (update_one id (set_words task (render paused)) s).

(** The tasks a note names that stay, and those that moved on. *)
Fixpoint moved_apart (s : store) (m : message) (paused : list Words.Paused) :
    list Words.Paused * list (task * text) + Refused :=
  match paused with
  | [] => inl ([], [])
  | named :: rest =>
      let? t := task_row s (m_project m) (number named) in
      let? (stay, gone) := moved_apart s m rest in
      inl (if bool_decide (t_state t = TaskPlan.Paused) && negb (moved_on_its_way s m (number named))
           then (named :: stay, gone) else (stay, (t, because named) :: gone))
  end.

Fixpoint say_each_again (now : Z) (gone : list (task * text)) (s : store) : store + Refused :=
  match gone with
  | [] => inl s
  | (t, why) :: gone =>
      let? s := if warns why then say_again now t (moved_on t) why s else inl s in
      say_each_again now gone s
  end.

(** [withdrawn_on_its_way]: whether the note was withdrawn, no task of it left. *)
Definition withdrawn_on_its_way (now : Z) (m : message) (s : store) : bool * store + Refused :=
  if negb (is_kind Kind.Note m && bool_decide (m_sender m = None)) then inl (false, s) else
  match read (m_body m) with
  | None => inl (false, s)
  | Some paused =>
      let? (stay, gone) := moved_apart s m paused in
      if bool_decide (gone = []) then inl (false, s) else
      let? s := say_each_again now gone s in
      if negb (bool_decide (stay = [])) then
        let? s := set_paused (m_id m) (m_project m) stay s in inl (false, s)
      else
        let reason := join (txt ", ") ((fun g : task * text => T_ (t_number g.1) ++ txt " " ++ moved_on g.1) <$> gone) in
        inl (true, log (m_project m) (DeliveryCancelled (m_id m) reason) (withdraw (m_id m) reason s))
  end.

(** ** A delivery tried again, and one taken back *)

(** [settle_answered]: a question that has an answer standing is never typed in after it. *)
Definition standing (s : store) (question : Z) : option message :=
  find (fun a => answers question a && negb (in_state [State.Cancelled; State.Failed] a)) (messages s).

Definition answered_receipt (answer : Z) : json := Object [("answered"%string, @Number integers answer)].

Definition settle_answered (id : Z) (s : store) : store + Refused :=
  let? q := known_message s id in
  if negb (is_kind Kind.Question q && in_state [State.Queued] q) then inl s else
  inl match standing s id with
      | Some a => update_one id (fun r => set_receipt (Some (s_created_at (m_sent a))) (Some (answered_receipt (m_id a)))
                                            (set_state State.Read r)) s
      | None => s
      end.

(** What of a message's task keeps it from its queue: whether it went. *)
Definition withdrawn_with_task (m : message) (s : store) : bool * store + Refused :=
  match message_task s m with
  | None => inl (false, s)
  | Some t =>
      let? (late, s) := withdrawn_late m t s in
      if late then inl (true, s)
      else if is_kind Kind.Task m && bool_decide (t_state t = TaskPlan.Failed)
      then let? s := cancel_message (m_id m) (T_ (t_number t) ++ txt " failed before it landed") s in inl (true, s)
      else inl (false, s)
  end.

(** The carrier cannot carry the row any more. *)
Definition let_go_of (s : store) (m : message) : bool :=
  match m_carried_by m ≫= message_row s with
  | Some c => negb (in_state [State.Queued; State.Gated] c)
  | None => false
  end.

Definition retry_delivery (now id : Z) (reason : text) (refund logged : bool) (s : store) : message * store + Refused :=
  if negb (require_text reason 1000) then inr InvalidText else
  let? m := require_message s id State.Delivering in
  let? (gone, s) := withdrawn_with_task m s in
  if gone then let? m := known_message s id in inl (m, s) else
  let? (gone, s) := withdrawn_on_its_way now m s in
  let '(gone, s) := if gone then (true, s) else withdrawn_if_stale m s in
  if gone then let? m := known_message s id in inl (m, s) else
  let s := withdraw_stale_among (m_id <$> carried s id) s in
  let s := update_one id (fun r => set_handed None (set_attempts (Z.max (m_attempts r - if refund then 1 else 0) 0)
                                     (set_reason (Some reason) (set_state State.Queued r)))) s in
  let s := update (fun r => rides_in id r && in_state [State.Queued] r) (set_handed None) s in
  let s := if logged then log (m_project m) (DeliveryRetried id reason) s else s in
  let s := update (fun r => (m_id r =? id) && let_go_of s r) (set_carried None) s in
  let? (read_, s) := settle_kept_read now id State.Queued s in
  if read_ then let? m := known_message s id in inl (m, s) else
  let? s := settle_answered id (adopt id s) in
  let? m := known_message s id in
  inl (m, s).

(** [is_told]: words told to the window of the task, by its id where the code compares handles. *)
Definition is_told (m : message) (assignee : option Z) : bool :=
  told m && bool_decide (assignee = Some (m_recipient m)).

(** Delivered only as the paste that carried it arrived after it was withdrawn. *)
Definition arrived_withdrawn (m : message) : bool :=
  match m_receipt m ≫= get "cancelled" with
  | None | Some Null => false
  | Some _ => true
  end.

(** Kept for the window again: its delivery is its hand-over, where no other was marked. *)
Definition kept_again (m : message) : message :=
  set_receipt None None (set_handed (match m_handed_at m with Some at_ => Some at_ | None => m_delivered_at m end)
                           (set_state State.Queued m)).

Definition take_back (id : Z) (reason : text) (s : store) : message * store + Refused :=
  if negb (require_text reason 1000) then inr InvalidText else
  let? m := require_message s id State.Delivered in
  let assignee := message_task s m ≫= t_assignee in
  if negb ((is_kind Kind.Task m || is_told m assignee) && on_its_own m) then inr (InvalidTransition id) else
  let s := update_one id (fun r => kept_again (set_reason (Some reason) r)) s in
  let s := update (fun r => rides_in id r && in_state [State.Delivered] r && arrived_withdrawn r)
                  (fun r => set_receipt None None (set_state State.Cancelled r)) s in
  let rode r := rides_in id r && in_state [State.Delivered] r in
  let kept := ids s rode in
  let s := update rode kept_again s in
  let s := log (m_project m) (DeliveryTakenBack id kept) s in
  let s := adopt id (withdraw_stale_among kept s) in
  let? m := known_message s id in
  inl (m, s).

(** ** What waits for the human: [gate.rs] *)

Definition mark_read (now id : Z) (s : store) : message * store + Refused :=
  let? m := known_message s id in
  let? p := participant_row s (m_recipient m) in
  if negb (bool_decide (p_role p = Human)) then inr (NotForTheHuman id) else
  if in_state [State.Read] m then inl (m, s) else
  let? m := require_message s id State.Queued in
  let s := update_one id (fun r => set_receipt (Some now) (m_receipt r) (set_state State.Read r)) s in
  let s := log (m_project m) (MessageRead id) s in
  let? m := known_message s id in
  inl (m, s).

Definition approve_message (id : Z) (by_ : text) (s : store) : message * store + Refused :=
  let? m := require_message s id State.Gated in
  let? _ := participant_by_handle s (m_project m) by_ in
  let s := update_one id (set_state State.Queued) s in
  let s := adopt id (log (m_project m) (MessageApproved id) s) in
  let? m := known_message s id in
  inl (m, s).
