(* ===== verification/Doors.v ===== *)
(** * Questions, their answers, and the doors that wait for them: [cf-ledger/src/messages]

    A question asked, and answered ([messages.rs]); the door of a harness's question tool, which
    claims the answer and says whether it handed it over ([receipt.rs]); and a task whose window is
    at work before the words that resumed it are in ([tasks/pausing.rs]). *)
From S2P Require Import Prelude Utf8 Text JsValue Questions Words TaskPlan Ledger Deliveries.
#[local] Open Scope Z_scope.

(** ** The words that resumed a task *)

(** The task moved from paused to queued with the message. *)
Definition resumed_with (s : store) (t : task) (id : Z) : bool :=
  existsb (fun e => (e.1 =? t_project t) && match e.2 with
    | TaskMoved n TaskPlan.Paused Queued (Some m) => (n =? t_number t) && (m =? id)
    | _ => false
    end) (events s).

Definition is_bare (s : store) (m : message) : bool :=
  bool_decide (m_sender m = None) && bool_decide (m_body m = bare_resume) &&
  negb (exists_message s (rides_in (m_id m))).

(** [resume_words]: those still to go in, or being pasted. *)
Definition resume_words (s : store) (t : task) : option message :=
  window ← t_assignee t;
  last (filter (fun m =>
    task_words (t_id t) window [State.Queued; State.Gated; State.Delivering] m && negb (is_bare s m) &&
    resumed_with s t (m_id m) = true) (messages s)).

Definition resume_words_not_in (s : store) (t : task) : option Z :=
  if decide (t_state t ∈ held_states) then
    m ← resume_words s t; if in_state [State.Delivering] m then None else Some (m_id m)
  else None.

(** [work_while_resumed]: its window is at work on it, and the words wait for its rest. *)
Definition work_while_resumed (project number : Z) (s : store) : store + Refused :=
  let? t := task_row s project number in
  match (if bool_decide (t_state t = Queued) then resume_words_not_in s t else None) with
  | None => inr (NotResumed number)
  | Some _ => inl (reconcile (t_id t) (move_task t Working s))
  end.

(** [rest_while_resumed]: no window is at work on it any more. *)
Definition rest_while_resumed (project number : Z) (why : text) (s : store) : store + Refused :=
  if negb (require_text why 1000) then inr InvalidText else
  let? t := task_row s project number in
  match (if bool_decide (t_state t ∈ active_states) then resume_words_not_in s t else None) with
  | None => inr (NotResumed number)
  | Some _ => inl (move_task t Queued s)
  end.

(** ** Questions *)

(** [door_born_closed]: the window is still on the turn before the words that send it on. *)
Definition door_born_closed (s : store) (t : task) : bool :=
  match t_assignee t with
  | None => false
  | Some window =>
      match t_state t with
      | TaskPlan.Paused => true
      | Queued => exists_message s (task_words (t_id t) window [State.Queued; State.Gated])
      | Working | Waiting => bool_decide (is_Some (resume_words_not_in s t))
      | _ => false
      end
  end.

(** A question asked, in words or with options. *)
Record asked := Ask {
  a_from : text;
  a_to : text;
  a_body : text;
  a_task : option Z;
  a_questions : option (list Question)
}.

(** [ask], of a question that is not urgent, its options read ([require_questions]). *)
Definition ask (now project : Z) (a : asked) (s : store) : Z * store + Refused :=
  let? to := participant_by_handle s project (a_to a) in
  if decide (p_role to = Human) then inr AskInYourTerminal else
  let body := match a_questions a with Some questions => render_questions questions | None => a_body a end in
  let? asking := match a_task a with
                 | None => inl None
                 | Some number =>
                     let? t := task_row s project number in
                     let? asker := participant_by_handle s project (a_from a) in
                     inl (if decide (t_assignee t = Some (p_id asker)) then Some t else None)
                 end in
  let shut := match asking with Some t => door_born_closed s t | None => false end in
  let? (id, s) := send now project
    (ToSend (Some (a_from a)) (a_to a) body (a_task a) Kind.Question (a_questions a) false shut None) s in
  inl (id, match asking with Some t => reconcile (t_id t) s | None => s end).

Definition has_any_answer (s : store) (question : Z) : bool := exists_message s (answers question).

Section Answer.
Context (number_text : Z -> text) (to_lowercase : text -> text).

Definition answer (now question from : Z) (body choices : option json) (s : store) : message * store + Refused :=
  let? q := match message_row s question with
            | Some q => if is_kind Kind.Question q then inl q else inr (NotAQuestion question)
            | None => inr (NotAQuestion question)
            end in
  let? answerer := participant_row s from in
  let from_asker := bool_decide (is_Some (s_questions (m_sent q))) && bool_decide (m_sender q = Some from) in
  if negb (from =? m_recipient q) && negb from_asker then inr (NotYourQuestion question) else
  let? _ := match message_task s q with
            | Some t => if decide (t_state t ∈ finished_states) then inr (TaskOver (t_number t) (t_state t)) else inl tt
            | None => inl tt
            end in
  if bool_decide (is_Some (standing s question)) then inr (AlreadyAnswered question) else
  if in_state [State.Cancelled] q && negb (has_any_answer s question) then inr (QuestionWithdrawn question) else
  let? (picks, words) :=
    match s_questions (m_sent q) with
    | Some questions =>
        match require_choices (N := integers) number_text to_lowercase questions choices body with
        | inl picks => inl (Some picks, render_choices questions picks)
        | inr why => inr (Choices why)
        end
    | None => inl (None, default [] (str (N := integers) body))
    end in
  if negb (require_text words MAX_BODY) then inr InvalidText else
  let? _ := require_active answerer in
  let? asker := participant_of s (m_sender q) in
  let? _ := require_active asker in
  let? (id, s) := queue now (m_project q)
    (ToQueue (p_id asker) (Some from) Kind.Answer (m_task q) (Some question) words from_asker false None picks false None) s in
  let s := log (m_project q) (MessageSent id) s in
  let s := if in_state [State.Gated] q || in_state [State.Queued] q && from_asker
           then withdraw question (txt "answered by @" ++ p_handle answerer) s else s in
  let? s := settle_answered question s in
  let? a := known_message s id in
  inl (a, if in_state [State.Read] a
          then match m_task q with Some t => reconcile t s | None => s end else s).
End Answer.

(** [withdraw_open_questions]: those of a task finished while it waits, with no answer that stands. *)
Definition withdraw_open_questions (t : task) (why : text) (s : store) : store :=
  match t_assignee t with
  | None => s
  | Some window =>
      update (fun q => about (t_id t) q && bool_decide (m_sender q = Some window) && is_kind Kind.Question q &&
                       negb (m_urgent q) &&
                       in_state [State.Queued; State.Delivering; State.Gated; State.Delivered; State.Read] q &&
                       negb (bool_decide (is_Some (standing s (m_id q)))))
             (fun q => set_reason (Some (T_ (t_number t) ++ txt " " ++ why)) (set_state State.Cancelled q)) s
  end.

(** ** Doors *)

(** What a door that asks for its answer is told. *)
Inductive Claim := Answered (answer : message) | NotYet | Shut.

(** The answer a door may be handed: the first that is not given up and not held for the human. *)
Definition claimable (s : store) (question : Z) : option message :=
  find (fun a => answers question a && negb (in_state [State.Gated; State.Cancelled; State.Failed] a)) (messages s).

Definition claim_answer (now question asker : Z) (s : store) : Claim * store + Refused :=
  match message_row s question with
  | None => inr (NotAQuestion question)
  | Some q =>
      if negb (is_kind Kind.Question q) then inr (NotAQuestion question) else
      if negb (bool_decide (m_sender q = Some asker)) then inr (NotYourQuestion question) else
      let paused := match message_task s q with
                    | Some t => bool_decide (t_state t = TaskPlan.Paused)
                    | None => false
                    end in
      if bool_decide (is_Some (m_door_closed_at q)) || paused then inl (Shut, s) else
      match claimable s question with
      | None => inl (NotYet, s)
      | Some a =>
          if in_state [State.Read] a then inl (Answered a, s)
          else if in_state [State.Queued] a && on_its_own a then
            if bool_decide (m_claimed_at a = None) then
              if negb (is_open s (m_project q)) then inl (NotYet, s) else
              let s := update_one (m_id a) (set_claimed (Some now)) s in
              let s := log (m_project q) (DeliveryClaimed (m_id a) question) s in
              let? a := known_message s (m_id a) in inl (Answered a, s)
            else inl (Answered a, s)
          else inl (Shut, s)
      end
  end.

Definition door_receipt : json := Object [("door"%string, Bool true)].

(** [settle_claim]: the door handed the answer over, or gives the claim back. *)
Definition settle_claim (now id recipient : Z) (received : bool) (s : store) : store + Refused :=
  match message_row s id with
  | None => inr (UnknownMessage id)
  | Some a =>
      if negb (is_kind Kind.Answer a && for_ recipient a) then inr (UnknownMessage id) else
      if negb received
      then inl (update (fun r => (m_id r =? id) && in_state [State.Queued] r) (set_claimed None) s) else
      if in_state [State.Read] a then inl s else
      let open := match m_reply_to a ≫= message_row s with
                  | Some q => bool_decide (m_door_closed_at q = None)
                  | None => false
                  end in
      if negb (in_state [State.Queued] a && on_its_own a && open) then inr (DoorClosed id)
      else inl (reconcile_of a (received_as now a door_receipt s))
  end.

(** [release]: the claims of a participant, or of all, voided. *)
Definition release_one (acc : list Z * store) (a : message) : list Z * store :=
  let '(tasks, s) := acc in
  let s := log (m_project a) (DeliveryUnclaimed (m_id a)) (update_one (m_id a) (set_claimed None) s) in
  (match message_task s a with
   | Some t => if decide (t_id t ∈ tasks) then tasks else tasks ++ [t_id t]
   | None => tasks
   end, s).

Definition release_claims (participant : option Z) (s : store) : store :=
  let claimed := filter (fun m =>
    bool_decide (is_Some (m_claimed_at m)) && in_state [State.Queued] m &&
    match participant with Some p => for_ p m | None => true end = true) (messages s) in
  let '(tasks, s) := fold_left release_one claimed ([], s) in
  reconcile_each tasks s.
