(* ===== verification/MessageRules.v ===== *)
(** * What the ledger's operations do to a message: the rules every operation keeps

    [evolves] says how the rows of the messages may change: each keeps what it was sent with, one
    received stays so but where it is taken back, one held for the human or withdrawn stays so but
    where the human passes it on, and only a delivery begun puts one on its way. Every operation of
    [Ledger], [Deliveries] and [Doors] is shown to keep to it; [MessageRuns] holds the theorems. *)
From S2P Require Import Prelude Utf8 Text JsValue Questions Words TaskPlan Ledger Deliveries Doors.
#[local] Open Scope Z_scope.

(** ** How a row may change *)

(** What an operation may do besides: begin a delivery of the message, pass it on for the human,
    receive messages, or take those of a kind back. *)
Record allowed := Allowed {
  begins_ : Z -> Prop; passes_on : Z -> Prop; receives_ : Prop; returns : Kind.t -> Prop
}.

Definition quiet : allowed := Allowed (fun _ => False) (fun _ => False) False (fun _ => False).
Definition receiving : allowed := Allowed (fun _ => False) (fun _ => False) True (fun _ => False).

Definition received (m : message) : Prop := m_state m = State.Delivered \/ m_state m = State.Read.

(** Received, withdrawn or failed: on no way any more. *)
Definition over (m : message) : Prop :=
  received m \/ m_state m = State.Cancelled \/ m_state m = State.Failed.

(** Held for the human, or withdrawn, and in nobody's paste. *)
Definition idle (m : message) : Prop :=
  m_carried_by m = None /\ (m_state m = State.Gated \/ m_state m = State.Cancelled).

(** A paste of the carrier began, as its project's log says. *)
Definition pasted (s : store) (c : Z) : Prop :=
  exists k, k ∈ messages s /\ m_id k = c /\ begun s (m_project k) c = true.

(** [J] says which carriers a row may come to ride in. *)
Record changed (J : Z -> Prop) (A : allowed) (m m' : message) : Prop := Changed {
  ch_id : m_id m' = m_id m;
  ch_sent : m_sent m' = m_sent m;
  ch_task : (m_kind m = Kind.Note /\ m_sender m = None) \/ m_task m' = m_task m;
  ch_over : over m -> over m' \/ returns A (m_kind m);
  ch_received : m_kind m <> Kind.Question -> received m -> received m' \/ returns A (m_kind m);
  ch_receives : received m' -> received m \/ receives_ A;
  ch_delivering : m_state m' = State.Delivering -> m_state m = State.Delivering \/ begins_ A (m_id m);
  ch_gated : m_state m' = State.Gated -> m_state m = State.Gated;
  ch_idle : idle m -> idle m' \/ (m_state m = State.Gated /\ passes_on A (m_id m));
  ch_rides : forall c, m_carried_by m' = Some c -> m_carried_by m = Some c \/ J c
}.

#[export] Instance changed_refl J A : Reflexive (changed J A).
Proof. intros m. constructor; auto. Qed.

#[export] Instance changed_trans J A : Transitive (changed J A).
Proof.
  intros m m' m'' [] []. assert (m_kind m' = m_kind m /\ m_sender m' = m_sender m) as [Ek Es].
  { unfold m_kind, m_sender. by rewrite ch_sent0. }
  rewrite Ek, Es, ch_id0 in *. constructor; try congruence.
  - intuition congruence.
  - intros [H|H]%ch_over0; auto.
  - intros Hk [H|H]%ch_received0; auto.
  - intros [H|H]%ch_receives1; auto.
  - intros [H|H]%ch_delivering1; auto.
  - auto.
  - intros [H|H]%ch_idle0; [|by right]. apply ch_idle1 in H as [?|[Hg ?]]; [by left|]. right. auto.
  - intros c [H|H]%ch_rides1; [|by right]. by apply ch_rides0.
Qed.

Lemma changed_joins (J J' : Z -> Prop) A m m' : (forall c, J c -> J' c) -> changed J A m m' -> changed J' A m m'.
Proof. intros H []. constructor; auto. intros c [?|?]%ch_rides0; auto. Qed.

(** Once an operation is over, each row there was is there still, changed at most so; rows may be new,
    each past the ids there were; nothing came to ride in a carrier whose paste had begun; and the log
    has more at its end, no paste of its begun but those let. *)
Record evolves (A : allowed) (s s' : store) : Prop := Evolves {
  ev_rows : exists rows new, messages s' = rows ++ new /\ 
    Forall2 (changed (fun c => ~ pasted s c) A) (messages s) rows /\
    Forall (fun m => sequence s < m_id m <= sequence s' /\
                     (m_state m = State.Delivering -> begins_ A (m_id m)) /\
                     (forall c, m_carried_by m = Some c -> ~ pasted s c)) new /\
    NoDup (m_id <$> new);
  ev_events : exists more, events s' = events s ++ more /\
    Forall (fun e => forall c n, e.2 = DeliveryBegun c n -> begins_ A c /\ c <= sequence s') more;
  ev_sequence : sequence s <= sequence s'
}.

#[export] Instance evolves_refl A : Reflexive (evolves A).
Proof.
  intros s. constructor; try done; [|exists []; by rewrite app_nil_r].
  exists (messages s), []. rewrite app_nil_r. split_and!; [done| |constructor|constructor].
  by apply Forall_Forall2_diag, Forall_true.
Qed.

(** Reads a WHERE as what it says. *)
Ltac where_ :=
  unfold is_kind, in_state, about, for_, rides_in, on_its_own in *;
  repeat match goal with
  | H : _ && _ = true |- _ => apply andb_true_iff in H as [? ?]
  | H : _ || _ = false |- _ => apply orb_false_iff in H as [? ?]
  | H : negb _ = true |- _ => apply negb_true_iff in H
  | H : negb _ = false |- _ => apply negb_false_iff in H
  | H : bool_decide _ = true |- _ => apply bool_decide_eq_true in H
  | H : bool_decide _ = false |- _ => apply bool_decide_eq_false in H
  | H : (_ =? _) = true |- _ => apply Z.eqb_eq in H
  | H : (_ =? _) = false |- _ => apply Z.eqb_neq in H
  | H : (_ <? _) = true |- _ => apply Z.ltb_lt in H
  | H : _ ∈ [_] |- _ => apply list_elem_of_singleton in H
  | H : _ ∈ [_; _] |- _ => apply elem_of_cons in H as [H|H%list_elem_of_singleton]
  end.

Lemma forall2_ids J A rows rows' : Forall2 (changed J A) rows rows' -> m_id <$> rows' = m_id <$> rows.
Proof.
  induction 1 as [|m m' rows rows' Hm _ IH]; [done|]. rewrite !fmap_cons. f_equal; [by apply (ch_id J A)|done].
Qed.

Lemma begun_spec s p c : begun s p c = true <-> exists n, (p, DeliveryBegun c n) ∈ events s.
Proof.
  unfold begun. rewrite existsb_exists. split.
  - intros ([p' e] & Hin & E). simpl in E. apply andb_true_iff in E as [->%Z.eqb_eq E]. destruct e; try done.
    apply Z.eqb_eq in E as ->. eexists. by apply list_elem_of_In.
  - intros [n Hin%list_elem_of_In]. eexists. split; [exact Hin|]. simpl. by rewrite !Z.eqb_refl.
Qed.

Lemma evolves_row A s s' m :
  evolves A s s' -> m ∈ messages s -> exists m', m' ∈ messages s' /\ changed (fun c => ~ pasted s c) A m m'.
Proof.
  intros [(r & n & E & Hr & _) _ _] Hm. apply list_elem_of_lookup in Hm as [i Hi].
  destruct (Forall2_lookup_l _ _ _ _ _ Hr Hi) as (m' & Hm' & Hc). exists m'. split; [|done].
  rewrite E. apply elem_of_app. left. by eapply list_elem_of_lookup_2.
Qed.

Lemma evolves_pasted A s s' c : evolves A s s' -> pasted s c -> pasted s' c.
Proof.
  intros H (k & Hk & Hid & [n Hb]%begun_spec). destruct (evolves_row _ _ _ _ H Hk) as (k' & Hk' & Hc).
  exists k'. split_and!; [done|by rewrite (ch_id _ _ _ _ Hc)|]. apply begun_spec. exists n.
  unfold m_project in *. rewrite (ch_sent _ _ _ _ Hc). destruct H as [_ (more & -> & _) _]. apply elem_of_app. by left.
Qed.

#[export] Instance evolves_trans A : Transitive (evolves A).
Proof.
  intros s1 s2 s3 H1 H2. pose proof (fun c => evolves_pasted _ _ _ c H1) as Hp. revert H1 H2.
  intros [(r & n & E & Hr & Hn & Hd) (e & Ee & He) Hs] [(r' & n' & E' & Hr' & Hn' & Hd') (e' & Ee' & He') Hs'].
  constructor; [| |lia].
  2: { exists (e ++ e'). split; [by rewrite Ee', Ee, app_assoc|]. apply Forall_app_2; [|done].
       eapply Forall_impl; [exact He|]. intros x Hx c k Ek. destruct (Hx c k Ek). split; [done|lia]. }
  rewrite E in Hr'. apply Forall2_app_inv_l in Hr' as (r1 & n1 & Hr1 & Hn1 & ->).
  assert (forall l l', Forall2 (changed (fun c => ~ pasted s2 c) A) l l' ->
                       Forall2 (changed (fun c => ~ pasted s1 c) A) l l') as Hw.
  { intros l l' H. eapply Forall2_impl; [exact H|]. intros m m'. apply changed_joins. auto. }
  exists r1, (n1 ++ n'). split_and!.
  - by rewrite E', app_assoc.
  - etransitivity; [exact Hr|by apply Hw].
  - apply Forall_app_2; [|eapply Forall_impl; [exact Hn'|]; simpl; intros m (? & ? & Hj''); split_and!; [lia|lia|done|]].
    2: { intros c Hc Hpc. by apply (Hj'' c Hc), Hp. }
    apply Hw in Hn1. clear -Hn Hn1 Hs'. induction Hn1 as [|m m' n n1 Hm _ IH]; [constructor|].
    apply Forall_cons in Hn as [(Hi & Hdel & Hj) Hn]. constructor; [|by apply IH].
    rewrite (ch_id _ _ _ _ Hm). split_and!; [lia|lia| |].
    + intros [?|?]%(ch_delivering _ _ _ _ Hm); auto.
    + intros c [?|?]%(ch_rides _ _ _ _ Hm); auto.
  - rewrite fmap_app, (forall2_ids _ _ _ _ Hn1). apply NoDup_app. split_and!; [done| |done].
    intros id (m & -> & Hm)%list_elem_of_fmap (m' & E1 & Hm')%list_elem_of_fmap.
    rewrite Forall_forall in Hn, Hn'. destruct (Hn m Hm), (Hn' m' Hm'). lia.
Qed.

Lemma ev_update A where_ set_ s :
  (forall m, m ∈ messages s -> where_ m = true -> changed (fun c => ~ pasted s c) A m (set_ m)) ->
  evolves A s (update where_ set_ s).
Proof.
  intros H. constructor; try done; [|exists []; by rewrite app_nil_r].
  exists (messages (update where_ set_ s)), []. rewrite app_nil_r. split_and!; [done| |constructor|constructor].
  simpl. apply Forall2_fmap_r, Forall_Forall2_diag, Forall_forall. intros m Hm.
  assert (changed (fun c => ~ pasted s c) A m (if where_ m then set_ m else m)) as Hc by (destruct (where_ m) eqn:E; [by apply H|done]).
  exact Hc.
Qed.

Lemma ev_more A p e s :
  (forall c n, e = DeliveryBegun c n -> begins_ A c /\ c <= sequence s) -> evolves A s (log p e s).
Proof.
  intros H. constructor; try done; [|exists [(p, e)]; split; [done|by apply Forall_singleton]].
  exists (messages s), []. rewrite app_nil_r. split_and!; [done| |constructor|constructor].
  by apply Forall_Forall2_diag, Forall_true.
Qed.

(** What an operation changes besides messages, their log and their ids. *)
Lemma ev_same A s s' :
  messages s' = messages s -> events s' = events s -> sequence s' = sequence s -> evolves A s s'.
Proof.
  intros E1 E2 E3. constructor; [|exists []; by rewrite app_nil_r, E2|lia].
  exists (messages s), []. rewrite app_nil_r, E1. split_and!; [done| |constructor|constructor].
  by apply Forall_Forall2_diag, Forall_true.
Qed.

(** A quiet change is one of any operation's. *)
Lemma changed_weaken J A m m' : changed J quiet m m' -> changed J A m m'.
Proof. intros []. simpl in *. constructor; try done; tauto || naive_solver. Qed.

Lemma evolves_weaken A s s' : evolves quiet s s' -> evolves A s s'.
Proof.
  intros [(r & n & E & Hr & Hn & Hd) (e & Ee & He) Hs]. constructor; try done.
  - exists r, n. split_and!; try done.
    + eapply Forall2_impl; [exact Hr|]. intros m m'. apply changed_weaken.
    + eapply Forall_impl; [exact Hn|]. simpl. intros m (? & Hm & ?). split; [done|]. split; [by intros ?%Hm|done].
  - exists e. split; [done|]. eapply Forall_impl; [exact He|]. intros x Hx c k Ek. by destruct (Hx c k Ek).
Qed.

(** ** The rows an operation finds *)

(** Every row has an id of its own, which the ledger gave, as it did those of the pastes begun. *)
Record ids_ok (s : store) : Prop := IdsOk {
  ids_own : NoDup (m_id <$> messages s);
  ids_given : Forall (fun m => m_id m <= sequence s) (messages s);
  ids_pasted : forall p c n, (p, DeliveryBegun c n) ∈ events s -> c <= sequence s
}.

Lemma evolves_ids A s s' : evolves A s s' -> ids_ok s -> ids_ok s'.
Proof.
  intros [(r & n & E & Hr & Hn & Hd) (e & Ee & He) Hs] [Hnd Hle Hb]. pose proof (forall2_ids _ _ _ _ Hr) as Eids.
  assert (forall m, m ∈ r -> m_id m <= sequence s) as Hold.
  { intros m Hm. apply (list_elem_of_fmap_2 m_id) in Hm. rewrite Eids in Hm.
    apply list_elem_of_fmap in Hm as (m0 & -> & Hm0). rewrite Forall_forall in Hle. by apply Hle. }
  rewrite Forall_forall in Hn. split.
  - rewrite E, fmap_app, Eids. apply NoDup_app. split_and!; [done| |done].
    intros id Hid (m & -> & Hm)%list_elem_of_fmap. rewrite <- Eids in Hid.
    apply list_elem_of_fmap in Hid as (m0 & E0 & Hm0). specialize (Hold _ Hm0). destruct (Hn m Hm). lia.
  - rewrite E. apply Forall_forall. intros m [Hm|Hm]%elem_of_app; [specialize (Hold _ Hm); lia|].
    destruct (Hn m Hm). lia.
  - intros p c k. rewrite Ee. intros [Hin|Hin]%elem_of_app; [specialize (Hb _ _ _ Hin); lia|].
    rewrite Forall_forall in He. by destruct (He _ Hin c k).
Qed.

(** A row that is no new one is one there was, changed. *)
Lemma evolves_origin A s s' m' :
  evolves A s s' -> m' ∈ messages s' -> m_id m' <= sequence s ->
  exists m, m ∈ messages s /\ changed (fun c => ~ pasted s c) A m m'.
Proof.
  intros [(r & n & E & Hr & Hn & _) _ _] Hm Hid. rewrite E in Hm. apply elem_of_app in Hm as [Hm|Hm].
  - apply list_elem_of_lookup in Hm as [i Hi]. destruct (Forall2_lookup_r _ _ _ _ _ Hr Hi) as (m & Hm & Hc).
    exists m. split; [by eapply list_elem_of_lookup_2|done].
  - rewrite Forall_forall in Hn. destruct (Hn m' Hm). lia.
Qed.

Lemma id_inj s m m' : ids_ok s -> m ∈ messages s -> m' ∈ messages s -> m_id m = m_id m' -> m = m'.
Proof.
  intros [Hnd _ _] (i & Hi)%list_elem_of_lookup (j & Hj)%list_elem_of_lookup E.
  assert (i = j) as ->; [|congruence].
  eapply (NoDup_lookup _ i j (m_id m)); [exact Hnd| |]; rewrite list_lookup_fmap, ?Hi, ?Hj; simpl; congruence.
Qed.

Lemma message_row_Some s id m :
  message_row s id = Some m -> m ∈ messages s /\ m_id m = id.
Proof. intros [Hin%list_elem_of_In E%Z.eqb_eq]%find_some. done. Qed.

Lemma known_message_Some s id m : known_message s id = inl m -> message_row s id = Some m.
Proof. unfold known_message. destruct (message_row s id); [by intros [= ->]|done]. Qed.

Lemma require_message_Some s id st m :
  require_message s id st = inl m -> message_row s id = Some m /\ m_state m = st.
Proof.
  unfold require_message. destruct (known_message s id) as [m'|] eqn:E; [|done].
  apply known_message_Some in E. case_decide; [|done]. by intros [= <-].
Qed.

Lemma message_row_at s m : ids_ok s -> m ∈ messages s -> message_row s (m_id m) = Some m.
Proof.
  intros Hok Hm. unfold message_row. destruct (find _ _) as [m'|] eqn:E.
  - apply message_row_Some in E as [Hm' E]. by rewrite (id_inj s m' m).
  - exfalso. apply list_elem_of_In, (find_none _ _ E) in Hm. lia.
Qed.

(** An operation of a store whose rows' ids are right. *)
Definition goes (A : allowed) (s s' : store) : Prop := ids_ok s -> evolves A s s'.

#[export] Instance goes_refl A : Reflexive (goes A).
Proof. by intros s _. Qed.

#[export] Instance goes_trans A : Transitive (goes A).
Proof.
  intros s1 s2 s3 H1 H2 Hok. etransitivity; [by apply H1|]. apply H2. by eapply evolves_ids; [apply H1|].
Qed.

Lemma goes_ok A s s' : (ids_ok s -> goes A s s') -> goes A s s'.
Proof. intros H Hok. by apply H. Qed.

Lemma goes_weaken A s s' : goes quiet s s' -> goes A s s'.
Proof. intros H Hok. by apply evolves_weaken, H. Qed.

Lemma goes_fold {X} A (f : store -> X -> store) xs s :
  (forall s x, x ∈ xs -> goes A s (f s x)) -> goes A s (fold_left f xs s).
Proof.
  revert s. induction xs as [|x xs IH]; intros s H; [done|]. simpl. etransitivity; [apply H; left|].
  apply IH. intros s' y Hy. apply H. by right.
Qed.

(** An event that begins no paste. *)
Lemma goes_log A p e s : (forall c n, e <> DeliveryBegun c n) -> goes A s (log p e s).
Proof. intros H _. apply ev_more. by intros c n E%H. Qed.

Ltac logged := apply goes_log; intros ??; discriminate.

(** ** Rows withdrawn *)

(** No row of the id is received. *)
Definition pending (s : store) (id : Z) : Prop :=
  id <= sequence s /\ forall m, m ∈ messages s -> m_id m = id -> ~ received m.

Lemma pending_goes s s' id : goes quiet s s' -> ids_ok s -> pending s id -> pending s' id.
Proof.
  intros H Hok [Hle Hp]. specialize (H Hok). split; [destruct H; lia|]. intros m' Hm' E Hrec.
  destruct (evolves_origin _ _ _ m' H Hm') as (m & Hm & Hc); [lia|].
  destruct (ch_receives _ _ _ _ Hc Hrec) as [Hr|[]]. apply (Hp m); [done| |done]. by rewrite <- (ch_id _ _ _ _ Hc).
Qed.

Lemma pending_row s m : ids_ok s -> m ∈ messages s -> ~ received m -> pending s (m_id m).
Proof.
  intros Hok Hm Hr. split; [destruct Hok as [_ Hle _]; by eapply Forall_forall in Hle|].
  intros m' Hm' E. by rewrite (id_inj s m' m).
Qed.

Lemma goes_withdraw A id reason s : pending s id -> goes A s (withdraw id reason s).
Proof.
  intros [_ Hp] _. apply ev_update. intros m Hm E%Z.eqb_eq. specialize (Hp m Hm E).
  constructor; simpl; unfold over, received, idle in *; simpl; naive_solver.
Qed.

Lemma goes_withdraw_each A project which reason s :
  ids_ok s -> Forall (pending s) which -> goes A s (withdraw_each project which reason s).
Proof.
  intros Hok Hp. apply goes_weaken. unfold withdraw_each. revert s Hok Hp.
  induction which as [|id which IH]; intros s Hok Hp; [done|].
  apply Forall_cons in Hp as [Hid Hp]. cbn [fold_left].
  assert (goes quiet s (log project (DeliveryCancelled id reason) (withdraw id reason s))) as H
    by (etransitivity; [by apply goes_withdraw|logged]).
  etransitivity; [exact H|]. apply IH; [by eapply evolves_ids; [apply H|]|].
  eapply Forall_impl; [exact Hp|]. intros id'. by apply pending_goes.
Qed.

Lemma in_state_spec states m : in_state states m = true <-> m_state m ∈ states.
Proof. apply bool_decide_eq_true. Qed.

Lemma not_received states m :
  in_state states m = true -> State.Delivered ∉ states -> State.Read ∉ states -> ~ received m.
Proof. intros H%in_state_spec H1 H2 [E|E]; congruence. Qed.

Lemma stale_not_received s m why : stale s m = Some why -> ~ received m.
Proof.
  unfold stale. destruct (negb _) eqn:E; [done|]. intros _. apply negb_false_iff, andb_true_iff in E as [_ E].
  apply (not_received _ _ E); set_solver.
Qed.

Lemma goes_if_stale A m s : pending s (m_id m) -> goes A s (withdrawn_if_stale m s).2.
Proof.
  intros Hp Hok. unfold withdrawn_if_stale. destruct (stale s m); [|done].
  apply goes_withdraw_each; [done|by apply Forall_singleton|done].
Qed.

Lemma goes_stale_row A m s : m ∈ messages s -> goes A s (withdrawn_if_stale m s).2.
Proof.
  intros Hm Hok. destruct (stale s m) eqn:E; [|unfold withdrawn_if_stale; by rewrite E].
  apply goes_if_stale; [|done]. apply pending_row; [done..|]. by eapply stale_not_received.
Qed.

Lemma goes_stale_among A which s : goes A s (withdraw_stale_among which s).
Proof.
  apply goes_fold. intros s' id _. destruct (message_row s' id) as [m|] eqn:E; [|done].
  apply message_row_Some in E as [Hm _]. by apply goes_stale_row.
Qed.

(** ** What goes on in a task *)

Lemma goes_update A where_ set_ s :
  (forall m, m ∈ messages s -> where_ m = true -> changed (fun c => ~ pasted s c) A m (set_ m)) ->
  goes A s (update where_ set_ s).
Proof. intros H _. by apply ev_update. Qed.

Lemma continuations_pending s t where_ :
  ids_ok s -> (forall m, where_ m = true -> ~ received m) ->
  Forall (pending s) (continuations_of s t where_).*1.
Proof.
  intros Hok Hw. apply Forall_fmap, Forall_forall. intros [id w] Hin.
  unfold continuations_of in Hin. apply list_elem_of_omap in Hin as (m & Hm & E).
  destruct (_ && _) eqn:Ew in E; [|done]. apply bind_Some in E as (named & _ & E).
  destruct (_ || _) in E; [|done]. injection E as <- <-. simpl.
  apply andb_true_iff in Ew as [[_ Ew]%andb_true_iff _]. by apply pending_row; [..|apply Hw].
Qed.

Lemma goes_move A t to s : goes A s (move_task t to s).
Proof.
  unfold move_task. set (s1 := log _ _ _). assert (goes A s s1) as H.
  { etransitivity; [|logged]. intros _. by apply ev_same. }
  case_decide; [exact H|]. etransitivity; [exact H|]. intros Hok.
  apply goes_withdraw_each; [done| |done]. apply continuations_pending; [done|].
  intros m [E|[E _]%andb_true_iff]%orb_true_iff; apply (not_received _ _ E); set_solver.
Qed.

Lemma goes_reconcile A task s : goes A s (reconcile task s).
Proof.
  unfold reconcile. destruct (task_by_id s task) as [t|]; [|done]. destruct (t_assignee t) as [w|]; [|done].
  destruct (moved_to s t w) as [to|]; [|done]. apply goes_move.
Qed.

Lemma goes_reconcile_each A which s : goes A s (reconcile_each which s).
Proof. apply goes_fold. intros s' id _. apply goes_reconcile. Qed.

Lemma goes_reconcile_of A m s : goes A s (reconcile_of m s).
Proof. unfold reconcile_of. destruct (message_task s m); [apply goes_reconcile|done]. Qed.

(** ** Rows carried *)

Ltac row_change := constructor; simpl; unfold over, received, idle in *; simpl; intuition congruence.

Lemma joins_Some s m c :
  joins s m = Some c -> m_state m = State.Queued /\ m_carried_by m = None /\ m_kind m ∈ kept_kinds /\
    m_urgent m = false /\ behind_held_words s m = false /\
    exists k, k ∈ messages s /\ m_id k = c /\ is_Some (m_task m) /\ m_task k = m_task m /\
      m_recipient k = m_recipient m /\ m_kind k = Kind.Task /\ m_carried_by k = None /\
      (m_state k = State.Queued \/ m_state k = State.Gated) /\ m_id k <> m_id m /\
      begun s (m_project k) c = false.
Proof.
  unfold joins. destruct (_ && _) eqn:E; [|done]. intros Hl. where_. split_and!; try done.
  apply fmap_Some in Hl as (k & Hk & ->). apply last_Some_elem_of in Hk.
  apply list_elem_of_filter in Hk as [Hw Hk]. exists k. where_; split_and!; auto.
Qed.

Lemma not_pasted s k c : ids_ok s -> k ∈ messages s -> m_id k = c -> begun s (m_project k) c = false -> ~ pasted s c.
Proof. intros Hok Hk Hid Hb (k' & Hk' & Hid' & Hb'). rewrite (id_inj s k k') in Hb by congruence. congruence. Qed.

(** Rows that wait come to ride in a carrier whose paste has not begun. *)
Lemma goes_carry A where_ c s :
  ids_ok s -> (forall m, m ∈ messages s -> where_ m = true -> m_state m = State.Queued \/ is_Some (m_carried_by m)) ->
  ~ pasted s c -> goes A s (update where_ (set_carried (Some c)) s).
Proof.
  intros Hok Hw Hc. apply goes_update. intros m Hm E. specialize (Hw m Hm E) as Hw.
  constructor; simpl; unfold over, received, idle in *; simpl; try by (intuition congruence).
  intros [Hn Hs]. destruct Hw as [Hw|[? Hw]]; destruct Hs; congruence.
Qed.

Lemma pasted_update where_ set_ s c :
  (forall m, m_id (set_ m) = m_id m) -> (forall m, m_sent (set_ m) = m_sent m) ->
  pasted (update where_ set_ s) c -> pasted s c.
Proof.
  intros Hi Hs (k' & (k & -> & Hk)%list_elem_of_fmap & Hid & Hb). exists k. split; [done|].
  unfold m_project in *. destruct (where_ k); [by rewrite Hi, Hs in *|done].
Qed.

Lemma goes_adopt A id s : goes A s (adopt id s).
Proof.
  apply goes_ok. intros Hok. unfold adopt. destruct (message_row s id) as [m|] eqn:Em; [|done].
  apply message_row_Some in Em as [Hm <-]. destruct (joins s m) as [c|] eqn:Ej; [|done].
  apply joins_Some in Ej as (Hq & Hc & _ & _ & _ & k & Hk & Hkc & _ & _ & _ & _ & _ & _ & _ & Hb).
  pose proof (not_pasted _ _ _ Hok Hk Hkc Hb) as Hnp. set (s1 := update _ _ s).
  assert (goes A s s1) as H1.
  { apply goes_carry; [done| |done]. intros r Hr [E|E]%orb_true_iff; where_; [left; by rewrite (id_inj s r m)|eauto]. }
  etransitivity; [exact H1|]. apply goes_ok. intros Hok1. apply goes_carry; [done|intros r _ E; where_; by left|].
  intros Hp. apply Hnp. by apply pasted_update in Hp.
Qed.

Lemma goes_release_carried A task s : goes A s (release_carried task s).
Proof.
  unfold release_carried. etransitivity; [|apply goes_stale_among]. apply goes_update.
  intros m _ E. where_. row_change.
Qed.

Lemma goes_cancel A id reason s s' : cancel_message id reason s = inl s' -> goes A s s'.
Proof.
  unfold cancel_message. destruct (negb _); [done|]. destruct (message_row s id) as [m|] eqn:Em; [|done].
  destruct (in_state _ m) eqn:Es; [|done]. intros [= <-]. apply goes_ok. intros Hok.
  apply message_row_Some in Em as [Hm <-]. etransitivity; [|destruct (message_task _ m); [apply goes_release_carried|done]].
  etransitivity; [|logged]. apply goes_withdraw, pending_row; [done..|].
  apply (not_received _ _ Es); set_solver.
Qed.

Lemma goes_cancel_each A which reason s s' : cancel_each which reason s = inl s' -> goes A s s'.
Proof.
  revert s. induction which as [|id which IH]; intros s; simpl; [by intros [= ->]|].
  destruct (cancel_message _ _ _) as [s1|] eqn:E; [|done]. intros H. etransitivity; [by eapply goes_cancel|by apply IH].
Qed.

(** ** Rows that are new *)

(** What its row says of a message's state. *)
Definition state_at (s : store) (id : Z) : option State.t := m_state <$> message_row s id.

Lemma state_at_row s id m st : ids_ok s -> state_at s id = Some st -> m ∈ messages s -> m_id m = id -> m_state m = st.
Proof. intros Hok E Hm <-. unfold state_at in E. rewrite message_row_at in E by done. by injection E. Qed.

Lemma find_map {X} (p : X -> bool) (f : X -> X) l : (forall x, p (f x) = p x) -> find p (map f l) = f <$> find p l.
Proof. intros H. induction l as [|x l IH]; [done|]. simpl. rewrite H. by destruct (p x). Qed.

Lemma message_row_update where_ set_ s id :
  (forall m, m_id (set_ m) = m_id m) ->
  message_row (update where_ set_ s) id = (fun m => if where_ m then set_ m else m) <$> message_row s id.
Proof. intros H. apply find_map. intros m. destruct (where_ m); [by rewrite H|done]. Qed.

Lemma state_at_update where_ set_ s id :
  (forall m, m_id (set_ m) = m_id m) -> (forall m, m_id m = id -> where_ m = true -> m_state (set_ m) = m_state m) ->
  state_at (update where_ set_ s) id = state_at s id.
Proof.
  intros Hi Hs. unfold state_at. rewrite message_row_update by done. destruct (message_row s id) as [m|] eqn:E; [|done].
  apply message_row_Some in E as [_ E]. simpl. destruct (where_ m) eqn:W; [by rewrite Hs|done].
Qed.

Lemma goes_insert A now project q landing s id s' :
  landing <> State.Delivering -> insert_row now project q landing s = (id, s') -> goes A s s'.
Proof.
  intros Hl [= <- <-] _. constructor; simpl; [|by exists []; rewrite app_nil_r|lia].
  eexists (messages s), _. split_and!; [done| | |apply NoDup_singleton].
  - by apply Forall_Forall2_diag, Forall_true.
  - apply Forall_singleton. simpl. split; [lia|done].
Qed.

Lemma state_at_insert now project q landing s id s' i st :
  insert_row now project q landing s = (id, s') -> state_at s i = Some st -> state_at s' i = Some st.
Proof.
  intros [= <- <-] E. unfold state_at, message_row in *. simpl.
  induction (messages s) as [|m l IH]; [done|]. simpl in *. destruct (m_id m =? i); auto.
Qed.

Lemma state_at_adopt s id i : state_at (adopt id s) i = state_at s i.
Proof.
  unfold adopt. destruct (message_row s id); [|done]. destruct (joins s m); [|done].
  by rewrite !state_at_update.
Qed.

Lemma goes_queue A now project q s id s' : queue now project q s = inl (id, s') -> goes A s s'.
Proof.
  unfold queue. destruct (gate_holds _ _ _ _) as [gated|]; [|done].
  destruct (insert_row _ _ _ _ _) as [id' s1] eqn:E. intros [= <- <-].
  etransitivity; [eapply goes_insert; [|exact E]; by destruct gated, (q_from_window q)|].
  destruct (_ && _); [apply goes_adopt|done].
Qed.

Lemma queue_state now project q s id s' i st :
  queue now project q s = inl (id, s') -> state_at s i = Some st -> state_at s' i = Some st.
Proof.
  unfold queue. destruct (gate_holds _ _ _ _) as [gated|]; [|done].
  destruct (insert_row _ _ _ _ _) as [id' s1] eqn:E. intros [= <- <-] H.
  pose proof (state_at_insert _ _ _ _ _ _ _ _ _ E H). destruct (_ && _); [by rewrite state_at_adopt|done].
Qed.

(** Every way to send ends in the queue and the log. *)
Lemma send_queue now project d s id s' :
  send now project d s = inl (id, s') ->
  exists q s1, queue now project q s = inl (id, s1) /\ s' = log project (MessageSent id) s1 /\ q_kind q = d_kind d.
Proof.
  unfold send. intros H.
  repeat match type of H with
  | (if ?b then _ else _) = _ => destruct b; [done|]
  | match ?x with inl _ => _ | inr _ => _ end = _ =>
      lazymatch x with
      | queue _ _ _ _ => destruct x as [[id1 s1]|] eqn:E; [|done]
      | _ => destruct x; [|done]
      end
  end.
  injection H as <- <-. by eexists _, s1.
Qed.

Lemma goes_send A now project d s id s' : send now project d s = inl (id, s') -> goes A s s'.
Proof.
  intros (q & s1 & Hq & -> & _)%send_queue. etransitivity; [by eapply goes_queue|logged].
Qed.

Lemma send_state now project d s id s' i st :
  send now project d s = inl (id, s') -> state_at s i = Some st -> state_at s' i = Some st.
Proof. intros (q & s1 & Hq & -> & _)%send_queue H. exact (queue_state _ _ _ _ _ _ _ _ Hq H). Qed.

Lemma note_each_goes A now project notes s s' : note_each now project notes s = inl s' -> goes A s s'.
Proof.
  revert s. induction notes as [|[[[from to] body] task] notes IH]; intros s; simpl; [by intros [= ->]|].
  destruct (note _ _ _ _ _ _ _) as [[id s1]|] eqn:E; [|done]. intros H.
  etransitivity; [by eapply goes_send|by apply IH].
Qed.

(** ** Rows that go with another *)

(** Opens an operation that ended well, a guard or a step of it at a time. *)
Ltac steps H :=
  repeat match type of H with
  | inr _ = inl _ => discriminate H
  | inl _ = inl _ => injection H as H; try subst
  | match ?x with _ => _ end = inl _ => destruct x eqn:?; try discriminate H
  end.

Definition returning (K : Kind.t -> Prop) : allowed := Allowed (fun _ => False) (fun _ => False) False K.

(** What a window that was paused is told again. *)
Definition an_answer (k : Kind.t) : Prop := k = Kind.Answer.

Lemma goes_requeue t recipient s : goes (returning an_answer) s (requeue_unreceived_reads t recipient s).2.
Proof.
  unfold requeue_unreceived_reads. destruct (t_paused_at t) as [at_|]; [|done]. simpl. intros Hok.
  apply ev_update. intros m Hm E. where_. unfold ids in E. apply list_elem_of_fmap in E as (m' & E' & Hm').
  apply list_elem_of_filter in Hm' as [Hw Hm']. rewrite (id_inj s m m') by done. where_. row_change.
Qed.

Lemma goes_not_pasted A s s' c :
  goes A s s' -> ids_ok s -> c <= sequence s -> ~ begins_ A c -> ~ pasted s c -> ~ pasted s' c.
Proof.
  intros H Hok Hc Hb Hn (k' & Hk' & Hid & [n Hin]%begun_spec). specialize (H Hok).
  destruct (evolves_origin _ _ _ k' H Hk') as (k & Hk & Hch); [by rewrite Hid|].
  destruct H as [_ (more & Ee & He) _]. rewrite Ee in Hin. apply elem_of_app in Hin as [Hin|Hin].
  - apply Hn. exists k. split_and!; [done|by rewrite <- (ch_id _ _ _ _ Hch)|]. apply begun_spec. exists n.
    unfold m_project in *. by rewrite <- (ch_sent _ _ _ _ Hch).
  - rewrite Forall_forall in He. by apply Hb, (He _ Hin c n).
Qed.

Lemma goes_fold_in t recipient carrier s s' :
  carrier <= sequence s -> ~ pasted s carrier -> fold t recipient carrier s = inl s' -> goes (returning an_answer) s s'.
Proof.
  intros Hle Hnp. unfold fold. pose proof (goes_requeue t recipient s) as H.
  destruct (requeue_unreceived_reads t recipient s) as [requeued s1]. simpl in H.
  destruct (cancel_each _ _ _) as [s2|] eqn:E; [|done]. intros [= <-].
  apply (goes_cancel_each (returning an_answer)) in E. pose proof (goes_trans _ _ _ _ H E) as H2.
  apply goes_ok. intros Hok. etransitivity; [exact H2|].
  pose proof (evolves_ids _ _ _ (H2 Hok) Hok) as Hok2.
  assert (~ pasted s2 carrier) as Hnp2 by by (apply (goes_not_pasted (returning an_answer) s); [exact H2|done|done|by intros []|done]).
  set (taken := ids s2 _).
  assert (goes (returning an_answer) s2 (update (fun m => bool_decide (m_id m ∈ taken)) (set_carried (Some carrier)) s2)) as Hu.
  { apply goes_carry; [done| |done]. intros m Hm Ein. where_. unfold taken, ids in Ein.
    apply list_elem_of_fmap in Ein as (m' & E' & [Hw Hm']%list_elem_of_filter). rewrite (id_inj s2 m m') by done.
    unfold kept in Hw. where_. by left. }
  destruct (_ && _); [exact Hu|]. etransitivity; [exact Hu|logged].
Qed.

Lemma goes_release_one A s of_ : goes A s (release_one_stranded s of_).
Proof.
  unfold release_one_stranded. destruct of_ as [carrier project]. etransitivity; [|apply goes_stale_among].
  etransitivity; [|logged]. apply goes_update. intros m _ E. where_. row_change.
Qed.

Lemma goes_release_stranded A s : goes A s (release_stranded s).
Proof. apply goes_fold. intros s' of_ _. apply goes_release_one. Qed.

Lemma goes_reconcile_released A s : goes A s (reconcile_released s).
Proof.
  unfold reconcile_released. etransitivity; [|apply goes_fold; intros; logged].
  apply goes_fold. intros s' e _. apply goes_reconcile_each.
Qed.

(** ** What is received *)

Lemma goes_update_one A id set_ s :
  (forall m, m ∈ messages s -> m_id m = id -> changed (fun c => ~ pasted s c) A m (set_ m)) ->
  goes A s (update_one id set_ s).
Proof. intros H. apply goes_update. intros m Hm E%Z.eqb_eq. by apply H. Qed.

Lemma goes_received_as now m receipt s :
  m ∈ messages s -> m_state m = State.Queued -> goes receiving s (received_as now m receipt s).
Proof.
  intros Hm Hq. apply goes_ok. intros Hok. etransitivity; [|logged]. apply goes_update_one.
  intros r Hr E. rewrite (id_inj s r m) by done. row_change.
Qed.

Lemma goes_read_role m s : state_at s (m_id m) = Some State.Delivered -> goes receiving s (read_role m s).
Proof.
  intros Hs. apply goes_ok. intros Hok. unfold read_role.
  set (s1 := log _ _ _). assert (goes receiving s s1) as H.
  { etransitivity; [|logged]. apply goes_update_one. intros r Hr E.
    pose proof (state_at_row _ _ _ _ Hok Hs Hr E). row_change. }
  destruct (current_conversation s1 _); [|done]. destruct (message_row s1 _ ≫= m_role_text); [|done].
  destruct (_ && _); [|done]. etransitivity; [exact H|]. intros _. by apply ev_same.
Qed.

Lemma goes_keep_read A m via s : goes A s (keep_read m via s).
Proof. apply goes_update. intros r _ E. where_. row_change. Qed.

Lemma goes_receive_one now recipient via acc id :
  goes receiving acc.2 (receive_one now recipient via acc id).2.
Proof.
  destruct acc as [[n tasks] s]. unfold receive_one. simpl. destruct (message_row s id) as [m|] eqn:Em; [|done].
  destruct (negb _); [done|]. pose proof Em as [Hm Hid]%message_row_Some. subst id.
  destruct (_ && in_state [State.Delivered] m) eqn:Ed.
  { simpl. apply goes_read_role. unfold state_at. rewrite Em. simpl. where_. congruence. }
  destruct (in_state [State.Delivering] m); [simpl; destruct (keeps via m); [apply goes_keep_read|done]|].
  destruct (negb _ || _) eqn:Eq; [done|]. simpl. where_. by apply goes_received_as.
Qed.

Lemma goes_receive_read now recipient which via s : goes receiving s (receive_read now recipient which via s).2.
Proof.
  unfold receive_read. assert (forall acc, goes receiving acc.2 (fold_left (receive_one now recipient via) which acc).2) as H.
  { induction which as [|id which IH]; intros acc; [done|]. simpl. etransitivity; [apply goes_receive_one|apply IH]. }
  specialize (H (0%nat, [], s)). destruct (fold_left _ _ _) as [[n tasks] s1]. simpl in *.
  etransitivity; [exact H|apply goes_reconcile_each].
Qed.

Lemma goes_settle_kept now id s b s' :
  settle_kept_read now id State.Queued s = inl (b, s') -> goes receiving s s'.
Proof.
  unfold settle_kept_read. destruct (known_message s id) as [m|] eqn:Em; [|done].
  apply known_message_Some, message_row_Some in Em as [Hm _].
  destruct (kept_read m) as [k|]; [|by intros [= _ ->]].
  destruct (_ && _) eqn:Eq; [|by intros [= _ ->]]. intros [= _ <-]. where_. unfold reconcile_of.
  destruct (message_task _ _); [etransitivity; [|apply goes_reconcile]|]; by apply goes_received_as.
Qed.

Lemma goes_settle_answered id s s' : settle_answered id s = inl s' -> goes receiving s s'.
Proof.
  unfold settle_answered. destruct (known_message s id) as [q|] eqn:Eq; [|done].
  apply known_message_Some, message_row_Some in Eq as [Hq <-].
  destruct (negb _) eqn:En; [by intros [= ->]|]. intros [= <-]. destruct (standing s _); [|done]. where_.
  apply goes_ok. intros Hok. apply goes_update_one. intros r Hr E. rewrite (id_inj s r q) by done. row_change.
Qed.

Lemma goes_told_when_confirmed id k s s' :
  state_at s id = Some State.Delivered -> told_when_confirmed id k s = inl s' -> goes receiving s s'.
Proof.
  intros Hs. unfold told_when_confirmed. destruct (known_message s id) as [m|] eqn:Em; [|done].
  apply known_message_Some, message_row_Some in Em as [_ <-].
  destruct (negb _); [by intros [= ->]|]. intros [= <-]. case_decide; [by apply goes_read_role|done].
Qed.

(** ** A delivery *)

Definition beginning (id : Z) : allowed := Allowed (fun i => i = id) (fun _ => False) False (fun _ => False).

Lemma goes_begin id s r : begin_delivery id s = inl r -> goes (beginning id) s r.2.
Proof.
  unfold begin_delivery. destruct (require_message s id _) as [m|] eqn:Em; [|done].
  apply require_message_Some in Em as [[Hm Hid]%message_row_Some Hq]. intros H. steps H. simpl.
  apply goes_ok. intros Hok. etransitivity; [|intros [_ Hle _]; apply ev_more].
  - apply goes_update_one. intros m' Hm' E. rewrite (id_inj s m' m) by congruence. row_change.
  - intros c k [= <- _]. split; [done|]. destruct Hok as [_ Hgiven _]. rewrite Forall_forall in Hgiven.
    specialize (Hgiven m Hm). simpl. lia.
Qed.

Lemma goes_withdrawn_late A m t s b s' : withdrawn_late m t s = inl (b, s') -> goes A s s'.
Proof. unfold withdrawn_late. intros H. steps H; try done. by eapply goes_cancel. Qed.

Lemma goes_any_stale A rows s :
  ids_ok s -> Forall (fun r => pending s (m_id r)) rows -> goes A s (any_stale rows s).2.
Proof.
  intros Hok Hp. apply goes_weaken. unfold any_stale. generalize false.
  revert s Hok Hp. induction rows as [|r rows IH]; intros s Hok Hp b; [done|].
  apply Forall_cons in Hp as [Hr Hp]. simpl. pose proof (goes_if_stale quiet r s Hr) as H.
  destruct (withdrawn_if_stale r s) as [w s1]. simpl in H. etransitivity; [exact H|].
  apply IH; [by eapply evolves_ids; [apply H|]|]. eapply Forall_impl; [exact Hp|]. intros r'. by apply pending_goes.
Qed.

Lemma carried_pending s id : ids_ok s -> Forall (fun r => pending s (m_id r)) (carried s id).
Proof.
  intros Hok. apply Forall_forall. intros r [E Hr]%list_elem_of_filter. apply pending_row; [done..|].
  where_. intros [|]; congruence.
Qed.

Lemma goes_admit A now id begun_with s h s' : admit_delivery now id begun_with s = inl (h, s') -> goes A s s'.
Proof.
  intros H. apply goes_ok. intros Hok. unfold admit_delivery in H.
  destruct (message_row s id) as [m|] eqn:Em; [|by injection H as _ ->].
  apply message_row_Some in Em as [Hm Hid]. destruct (negb _); [by injection H as _ ->|].
  pose proof (goes_stale_row A m s Hm) as H1. pose proof (goes_stale_row quiet m s Hm Hok) as H1'.
  destruct (withdrawn_if_stale m s) as [w1 s1].
  simpl in H1, H1'. etransitivity; [exact H1|]. apply evolves_ids in H1'; [|done].
  pose proof (goes_any_stale A (carried s1 id) s1 H1' (carried_pending _ _ H1')) as H2.
  destruct (any_stale (carried s1 id) s1) as [w2 s2]. simpl in H2. etransitivity; [exact H2|].
  destruct (_ || _); [by injection H as _ <-|].
  destruct (match message_task s2 m with Some t => _ | None => _ end) as [[late s3]|] eqn:E; [|done].
  assert (goes A s2 s3) as H3.
  { destruct (message_task s2 m); [by eapply goes_withdrawn_late|by injection E as _ <-]. }
  etransitivity; [exact H3|]. destruct late; [by injection H as _ <-|].
  destruct (_ || _); [by injection H as _ <-|]. injection H as _ <-. apply goes_update. intros r _ _. row_change.
Qed.

Lemma state_at_update_one id set_ s st :
  (forall m, m_id (set_ m) = m_id m) -> (forall m, m_state (set_ m) = st) -> is_Some (message_row s id) ->
  state_at (update_one id set_ s) id = Some st.
Proof.
  intros Hi Hs [m E]. unfold state_at, update_one. rewrite message_row_update, E by done. simpl.
  apply message_row_Some in E as [_ E]. by rewrite (proj2 (Z.eqb_eq _ _) E), Hs.
Qed.

(** A row in another state than those a write is of is not written. *)
Lemma state_at_apart where_ set_ s id st :
  (forall m, m_id (set_ m) = m_id m) -> (forall m, where_ m = true -> m_state m <> st) ->
  state_at s id = Some st -> state_at (update where_ set_ s) id = Some st.
Proof.
  intros Hi Hw E. unfold state_at in *. rewrite message_row_update by done.
  destruct (message_row s id) as [m|]; [|done]. simpl in *. destruct (where_ m) eqn:W; [|done].
  exfalso. apply (Hw m W). congruence.
Qed.

Lemma rode_withdrawn_state s id m : rode_withdrawn s id m = true -> m_state m = State.Cancelled /\ m_carried_by m = Some id.
Proof. unfold rode_withdrawn. intros H. where_. done. Qed.

Lemma goes_confirm now id receipt s r : confirm_delivery now id receipt s = inl r -> goes receiving s r.2.
Proof.
  unfold confirm_delivery. destruct (require_message s id _) as [m|] eqn:Em; [|done].
  apply require_message_Some in Em as [Hrow Hd]. pose proof Hrow as [Hm Hid]%message_row_Some.
  set (receipt' := js_order _). set (s1 := update_one id _ s).
  set (s2 := update _ _ s1). set (s3 := update _ _ s2). set (s4 := log _ _ s3). intros H.
  assert (goes receiving s s1) as H1.
  { apply goes_ok. intros Hok. apply goes_update_one. intros r' Hr' E.
    rewrite (id_inj s r' m) by congruence. row_change. }
  assert (goes receiving s1 s2) as H2 by (apply goes_update; intros r' _ E; where_; row_change).
  assert (goes receiving s2 s3) as H3.
  { apply goes_update. intros r' _ [E E']%rode_withdrawn_state. row_change. }
  assert (state_at s4 id = Some State.Delivered) as Hst.
  { apply state_at_apart; [done|by intros r' [-> _]%rode_withdrawn_state|].
    apply state_at_apart; [done|intros r' E; where_; congruence|]. apply state_at_update_one; [done..|by eexists]. }
  assert (goes receiving s s4) as H4.
  { do 3 (etransitivity; [eassumption|]). logged. }
  etransitivity; [exact H4|]. clear H1 H2 H3 H4.
  destruct (match kept_read m with Some k => _ | None => _ end) as [s5|] eqn:E5; [|done].
  assert (goes receiving s4 s5) as H5.
  { destruct (kept_read m); [by eapply goes_told_when_confirmed|by injection E5 as <-]. }
  etransitivity; [exact H5|]. destruct (known_message _ id) as [m'|]; [|done]. injection H as <-.
  apply goes_reconcile_of.
Qed.

Lemma goes_confirm_telling now id receipt s r :
  confirm_delivery_telling now id receipt s = inl r -> goes receiving s r.2.
Proof.
  unfold confirm_delivery_telling. destruct (confirm_delivery _ _ _ _) as [[m s1]|] eqn:E; [|done].
  intros [= <-]. etransitivity; [by eapply goes_confirm|]. simpl.
  destruct (m_role_text m); [|done]. destruct (current_conversation s1 _); [|done]. intros _. by apply ev_same.
Qed.

Lemma goes_confirm_unproven now id item tell s r :
  confirm_unproven now id item tell s = inl r -> goes receiving s r.2.
Proof.
  unfold confirm_unproven. destruct (confirm_delivery _ _ _ _) as [[m s1]|] eqn:E; [|done].
  destruct (note_each _ _ _ _) as [s2|] eqn:E2; [|done]. intros [= <-].
  etransitivity; [by eapply goes_confirm|]. simpl. etransitivity; [|by eapply note_each_goes]. logged.
Qed.

(** *** A delivery tried again *)

(** What the message was sent with, where its row is. *)
Definition sent_at (s : store) (id : Z) : option sent := m_sent <$> message_row s id.

Lemma goes_sent A s s' id x : goes A s s' -> ids_ok s -> sent_at s id = Some x -> sent_at s' id = Some x.
Proof.
  intros H Hok E. pose proof (H Hok) as Hev. pose proof (evolves_ids _ _ _ Hev Hok) as Hok'. unfold sent_at in *.
  destruct (message_row s id) as [m|] eqn:Em; [|done]. injection E as <-.
  apply message_row_Some in Em as [Hm <-]. destruct (evolves_row _ _ _ _ Hev Hm) as (m' & Hm' & Hc).
  rewrite <- (ch_id _ _ _ _ Hc), message_row_at by done. simpl. by rewrite (ch_sent _ _ _ _ Hc).
Qed.

Lemma say_again_goes A now t why because s s' : say_again now t why because s = inl s' -> goes A s s'.
Proof.
  unfold say_again. destruct (participant_row _ _); [|done]. destruct (send _ _ _ _) as [[i s1]|] eqn:E; [|done].
  intros [= <-]. by eapply goes_send.
Qed.

Lemma say_each_again_keeps A now gone s s' :
  say_each_again now gone s = inl s' ->
  goes A s s' /\ forall id st, state_at s id = Some st -> state_at s' id = Some st.
Proof.
  revert s. induction gone as [|[t why] gone IH]; intros s; simpl; [by intros [= ->]|].
  destruct (warns why); [|by apply IH]. destruct (say_again _ _ _ _ _) as [s1|] eqn:E; [|done]. intros H.
  destruct (IH s1 H) as [Hg Hs]. split; [etransitivity; [by eapply say_again_goes|done]|].
  intros id st Hst. apply Hs. unfold say_again in E. destruct (participant_row _ _); [|done].
  destruct (send _ _ _ _) as [[i s2]|] eqn:E2; [|done]. injection E as <-. exact (send_state _ _ _ _ _ _ _ _ E2 Hst).
Qed.

Lemma pending_state s id st :
  ids_ok s -> state_at s id = Some st -> st <> State.Delivered -> st <> State.Read -> pending s id.
Proof.
  intros Hok E Hd Hr. unfold state_at in E. destruct (message_row s id) as [m|] eqn:Em; [|done].
  apply message_row_Some in Em as [Hm <-]. injection E as E. apply pending_row; [done..|]. intros [?|?]; congruence.
Qed.

Lemma goes_set_paused A id project stay s s' x :
  ids_ok s -> sent_at s id = Some x -> s_kind x = Kind.Note -> s_sender x = None ->
  set_paused id project stay s = inl s' ->
  goes A s s' /\ forall i st, state_at s i = Some st -> state_at s' i = Some st.
Proof.
  intros Hok Hx Hk Hs. unfold set_paused. destruct (match stay with [] => _ | _ => _ end) as [task|]; [|done].
  intros [= <-]. split; [|by intros i st <-; apply state_at_update].
  apply goes_update_one. intros r Hr E. unfold sent_at in Hx. rewrite <- E, message_row_at in Hx by done.
  injection Hx as Hx. assert (m_kind r = Kind.Note /\ m_sender r = None) by (unfold m_kind, m_sender; by rewrite Hx).
  row_change.
Qed.

Lemma withdrawn_on_its_way_goes A now m s b s' :
  ids_ok s -> m ∈ messages s -> m_state m = State.Delivering -> withdrawn_on_its_way now m s = inl (b, s') ->
  goes A s s' /\ (b = false -> state_at s' (m_id m) = Some State.Delivering).
Proof.
  intros Hok Hm Hd. assert (state_at s (m_id m) = Some State.Delivering) as Hst.
  { unfold state_at. rewrite message_row_at by done. by rewrite <- Hd. }
  unfold withdrawn_on_its_way. destruct (negb _) eqn:Ek; [by intros [= <- <-]|].
  destruct (read (m_body m)) as [paused|]; [|by intros [= <- <-]].
  destruct (moved_apart _ _ _) as [[stay gone]|]; [|done].
  destruct (bool_decide (gone = [])); [by intros [= <- <-]|].
  destruct (say_each_again _ _ _) as [s1|] eqn:E1; [|done]. apply (say_each_again_keeps A) in E1 as [Hg Hs].
  apply Hs in Hst. pose proof (evolves_ids _ _ _ (Hg Hok) Hok) as Hok1.
  destruct (bool_decide (stay = [])); simpl.
  - intros [= <- <-]. split; [|done]. etransitivity; [exact Hg|]. etransitivity; [|logged].
    by apply goes_withdraw, (pending_state _ _ _ Hok1 Hst).
  - destruct (set_paused _ _ _ _) as [s2|] eqn:E2; [|done]. intros [= <- <-]. where_.
    eapply (goes_set_paused A) in E2 as [Hg2 Hs2]; [|done|eapply goes_sent; [exact Hg|done|]| |].
    + split; [by etransitivity|auto].
    + unfold sent_at. by rewrite message_row_at.
    + done.
    + done.
Qed.

Lemma withdrawn_with_task_goes A m s b s' :
  withdrawn_with_task m s = inl (b, s') -> goes A s s' /\ (b = false -> s' = s).
Proof.
  unfold withdrawn_with_task. destruct (message_task s m) as [t|]; [|by intros [= <- <-]].
  destruct (withdrawn_late m t s) as [[late s1]|] eqn:E; [|done].
  pose proof (goes_withdrawn_late A _ _ _ _ _ E) as Hg. assert (late = false -> s1 = s) as Hs.
  { intros ->. unfold withdrawn_late in E. by steps E. }
  destruct late; [by intros [= <- <-]|]. specialize (Hs eq_refl) as ->.
  destruct (_ && _); [|by intros [= <- <-]]. destruct (cancel_message _ _ _) as [s2|] eqn:E2; [|done].
  intros [= <- <-]. split; [by eapply goes_cancel|done].
Qed.

Lemma withdrawn_if_stale_false m s : (withdrawn_if_stale m s).1 = false -> (withdrawn_if_stale m s).2 = s.
Proof. unfold withdrawn_if_stale. by destruct (stale s m). Qed.

(** What is withdrawn leaves the other rows' states. *)
Lemma withdraw_each_state project which reason s id :
  id ∉ which -> state_at (withdraw_each project which reason s) id = state_at s id.
Proof.
  unfold withdraw_each. revert s. induction which as [|i which IH]; intros s Hi; [done|]. cbn [fold_left].
  apply not_elem_of_cons in Hi as [Hne Hi]. rewrite IH by done. unfold state_at.
  change (message_row (log project _ ?x) id) with (message_row x id). apply state_at_update; [done|].
  intros m <- E%Z.eqb_eq. congruence.
Qed.

Lemma if_stale_state m s id : id <> m_id m -> state_at (withdrawn_if_stale m s).2 id = state_at s id.
Proof.
  intros Hne. unfold withdrawn_if_stale. destruct (stale s m); [|done]. apply withdraw_each_state.
  by intros ?%list_elem_of_singleton.
Qed.

Lemma stale_among_state which s id : id ∉ which -> state_at (withdraw_stale_among which s) id = state_at s id.
Proof.
  unfold withdraw_stale_among. revert s. induction which as [|i which IH]; intros s Hi; [done|]. cbn [fold_left].
  apply not_elem_of_cons in Hi as [Hne Hi]. rewrite IH by done.
  destruct (message_row s i) as [m|] eqn:E; [|done]. apply message_row_Some in E as [_ <-]. by apply if_stale_state.
Qed.

Lemma goes_retry now id reason refund logged s r :
  retry_delivery now id reason refund logged s = inl r -> goes receiving s r.2.
Proof.
  unfold retry_delivery. destruct (negb _); [done|].
  destruct (require_message s id _) as [m|] eqn:Em; [|done]. apply require_message_Some in Em as [Hrow Hd].
  pose proof Hrow as [Hm Hid]%message_row_Some. intros H. apply goes_ok. intros Hok.
  destruct (withdrawn_with_task m s) as [[gone s1]|] eqn:E1; [|done].
  apply (withdrawn_with_task_goes receiving) in E1 as [H1 Hs1]. etransitivity; [exact H1|]. destruct gone.
  { destruct (known_message s1 id); [|done]. by injection H as <-. }
  rewrite (Hs1 eq_refl) in *. clear Hs1 H1 s1.
  destruct (withdrawn_on_its_way now m s) as [[gone s1]|] eqn:E1; [|done].
  apply (withdrawn_on_its_way_goes receiving) in E1 as [H1 Hs1]; [|done..]. etransitivity; [exact H1|].
  pose proof (evolves_ids _ _ _ (H1 Hok) Hok) as Hok1. rewrite Hid in Hs1. clear H1.
  destruct gone.
  { destruct (known_message s1 id); [|done]. by injection H as <-. }
  specialize (Hs1 eq_refl).
  assert (pending s1 (m_id m)) as Hp by (rewrite Hid; by eapply pending_state).
  pose proof (goes_if_stale receiving m s1 Hp) as H2. pose proof (withdrawn_if_stale_false m s1) as H2'.
  destruct (withdrawn_if_stale m s1) as [gone s2]. simpl in H2, H2'. etransitivity; [exact H2|]. destruct gone.
  { destruct (known_message s2 id); [|done]. by injection H as <-. }
  rewrite (H2' eq_refl) in *. clear H2 H2' Hp s2.
  set (s3 := withdraw_stale_among _ s1) in H.
  assert (state_at s3 id = Some State.Delivering) as Hs3.
  { unfold s3. rewrite stale_among_state; [done|]. intros (c & Ec & [Hc Hcm]%list_elem_of_filter)%list_elem_of_fmap.
    where_. pose proof (state_at_row _ _ _ _ Hok1 Hs1 Hcm (eq_sym Ec)). congruence. }
  etransitivity; [apply (goes_stale_among _ (m_id <$> carried s1 id))|]. fold s3.
  set (s4 := update_one id _ s3) in H. assert (goes receiving s3 s4) as H4.
  { apply goes_ok. intros Hok3. apply goes_update_one. intros r' Hr' E.
    pose proof (state_at_row _ _ _ _ Hok3 Hs3 Hr' E). row_change. }
  etransitivity; [exact H4|].
  etransitivity; [apply (goes_update _ (fun r => rides_in id r && in_state [State.Queued] r) (set_handed None))|].
  { intros r' _ E. where_. row_change. }
  set (s5 := update _ _ s4) in H |- *. set (s6 := if logged then _ else s5) in H.
  etransitivity; [apply (goes_trans _ s5 s6); [|done]; unfold s6; destruct logged; [logged|done]|].
  etransitivity; [apply (goes_update _ (fun r => (m_id r =? id) && let_go_of s6 r) (set_carried None))|].
  { intros r' _ _. row_change. }
  set (s7 := update _ _ s6) in H |- *.
  destruct (settle_kept_read now id State.Queued s7) as [[read_ s8]|] eqn:E8; [|done].
  etransitivity; [by eapply goes_settle_kept|]. destruct read_.
  { destruct (known_message s8 id); [|done]. by injection H as <-. }
  destruct (settle_answered id (adopt id s8)) as [s9|] eqn:E9; [|done].
  etransitivity; [apply (goes_adopt _ id)|]. etransitivity; [by eapply goes_settle_answered|].
  destruct (known_message s9 id); [|done]. by injection H as <-.
Qed.

(** *** A delivery taken back *)

Lemma goes_take_back id reason s r : take_back id reason s = inl r -> goes (returning (fun _ => True)) s r.2.
Proof.
  unfold take_back. destruct (negb _); [done|].
  destruct (require_message s id _) as [m|] eqn:Em; [|done]. apply require_message_Some in Em as [Hrow Hd].
  pose proof Hrow as [Hm Hid]%message_row_Some. destruct (negb _); [done|]. intros H. apply goes_ok. intros Hok.
  etransitivity; [apply (goes_update_one _ id (fun r => kept_again (set_reason (Some reason) r)))|].
  { intros r' Hr' E. rewrite (id_inj s r' m) by congruence. row_change. }
  etransitivity; [apply (goes_update _ (fun r => rides_in id r && in_state [State.Delivered] r && arrived_withdrawn r)
                           (fun r => set_receipt None None (set_state State.Cancelled r)))|].
  { intros r' _ E. where_. row_change. }
  set (s2 := update _ _ (update_one _ _ s)) in H |- *.
  etransitivity; [apply (goes_update _ (fun r => rides_in id r && in_state [State.Delivered] r) kept_again)|].
  { intros r' _ E. where_. row_change. }
  set (s3 := update _ kept_again s2) in H |- *. destruct (known_message _ id); [|done]. injection H as <-.
  etransitivity; [|apply goes_adopt]. etransitivity; [|apply goes_stale_among]. logged.
Qed.

(** ** The human's own *)

Lemma goes_mark_read now id s r : mark_read now id s = inl r -> goes receiving s r.2.
Proof.
  unfold mark_read. destruct (known_message s id) as [m|]; [|done]. destruct (participant_row _ _); [|done].
  destruct (negb _); [done|]. destruct (in_state _ m); [by intros [= <-]|].
  destruct (require_message s id _) as [m'|] eqn:Em; [|done].
  apply require_message_Some in Em as [[Hm Hid]%message_row_Some Hq]. intros H. apply goes_ok. intros Hok.
  etransitivity; [apply (goes_update_one _ id (fun r => set_receipt (Some now) (m_receipt r) (set_state State.Read r)))|].
  { intros r' Hr' E. rewrite (id_inj s r' m') by congruence. row_change. }
  destruct (known_message _ id); [|done]. injection H as <-. logged.
Qed.

Definition passing_on (id : Z) : allowed := Allowed (fun _ => False) (fun i => i = id) False (fun _ => False).

Lemma goes_approve id by_ s r : approve_message id by_ s = inl r -> goes (passing_on id) s r.2.
Proof.
  unfold approve_message. destruct (require_message s id _) as [m|] eqn:Em; [|done].
  apply require_message_Some in Em as [[Hm Hid]%message_row_Some Hq].
  destruct (participant_by_handle _ _ _); [|done]. intros H. apply goes_ok. intros Hok.
  etransitivity; [apply (goes_update_one _ id (set_state State.Queued))|].
  { intros r' Hr' E. rewrite (id_inj s r' m) by congruence. row_change. }
  destruct (known_message _ id); [|done]. injection H as <-. etransitivity; [|apply goes_adopt]. logged.
Qed.

(** ** Doors *)

Lemma goes_work_while project number s s' : work_while_resumed project number s = inl s' -> goes quiet s s'.
Proof.
  unfold work_while_resumed. intros H. steps H. etransitivity; [apply goes_move|apply goes_reconcile].
Qed.

Lemma goes_rest_while project number why s s' : rest_while_resumed project number why s = inl s' -> goes quiet s s'.
Proof. unfold rest_while_resumed. intros H. steps H. apply goes_move. Qed.

Lemma goes_ask now project a s id s' : ask now project a s = inl (id, s') -> goes quiet s s'.
Proof.
  unfold ask. intros H. steps H. etransitivity; [by eapply goes_send|].
  lazymatch goal with |- goes _ _ match ?o with _ => _ end => destruct o; [apply goes_reconcile|done] end.
Qed.

(** What the answer to a question does to the question's row. *)
Lemma goes_withdraw_asked A q who s0 s :
  goes quiet s0 s -> ids_ok s0 -> q ∈ messages s0 ->
  (m_state q = State.Gated \/ m_state q = State.Queued) -> goes A s (withdraw (m_id q) who s).
Proof.
  intros Hg Hok Hq Hst. apply goes_withdraw. eapply pending_goes; [exact Hg|done|]. apply pending_row; [done..|].
  intros [?|?]; destruct Hst; congruence.
Qed.

(** Every answer taken is queued, its question withdrawn or not, and what goes on in its task told. *)
Lemma answer_queues number_text to_lowercase now question from body choices s r :
  answer number_text to_lowercase now question from body choices s = inl r ->
  exists q a id s1 s2 s3, q ∈ messages s /\ m_id q = question /\ m_kind q = Kind.Question /\
    standing s question = None /\
    queue now (m_project q) a s = inl (id, s1) /\ q_kind a = Kind.Answer /\ q_task a = m_task q /\
    (s2 = log (m_project q) (MessageSent id) s1 \/
     (m_state q = State.Gated \/ m_state q = State.Queued) /\
     exists why, s2 = withdraw question why (log (m_project q) (MessageSent id) s1)) /\
    settle_answered question s2 = inl s3 /\
    (r.2 = s3 \/ exists t, m_task q = Some t /\ r.2 = reconcile t s3).
Proof.
  unfold answer. intros H.
  destruct (match message_row s question with Some q => _ | None => _ end) as [q|] eqn:Eq; [|done].
  exists q. assert ((q ∈ messages s /\ m_id q = question) /\ m_kind q = Kind.Question) as [[Hq <-] Hk].
  { destruct (message_row s question) as [q'|] eqn:E; [|done]. destruct (is_kind _ _) eqn:Ek; [|done].
    injection Eq as <-. where_. by apply message_row_Some in E. }
  clear Eq. destruct (participant_row s from); [|done]. destruct (_ && _); [done|].
  destruct (match message_task s q with Some t => _ | None => _ end); [|done].
  case_bool_decide as Hst; [done|]. destruct (_ && _); [done|].
  destruct (match s_questions _ with Some qs => _ | None => _ end) as [[picks words]|]; [|done].
  destruct (negb _); [done|]. destruct (require_active _); [|done]. destruct (participant_of _ _); [|done].
  destruct (require_active _); [|done]. destruct (queue _ _ _ _) as [[id s1]|] eqn:Eqq; [|done].
  destruct (settle_answered _ _) as [s3|] eqn:E3; [|done]. destruct (known_message _ _); [|done]. injection H as <-.
  eexists _, id, s1, _, s3. split_and!; try done.
  - by apply eq_None_not_Some.
  - destruct (in_state [State.Gated] q) eqn:Eg, (in_state [State.Queued] q) eqn:Ew; simpl; where_; eauto 6.
    destruct (_ && _); eauto 6.
  - simpl. destruct (in_state _ m); [|by left]. destruct (m_task q) as [t|]; [right; by exists t|by left].
Qed.

Lemma goes_answer number_text to_lowercase now question from body choices s r :
  answer number_text to_lowercase now question from body choices s = inl r -> goes receiving s r.2.
Proof.
  intros (q & a & id & s1 & s2 & s3 & Hq & <- & _ & _ & Hqu & _ & _ & H2 & H3 & Hr)%answer_queues.
  apply goes_ok. intros Hok.
  assert (forall A, goes A s (log (m_project q) (MessageSent id) s1)) as H1.
  { intros A. etransitivity; [by eapply goes_queue|logged]. }
  etransitivity; [apply H1|]. etransitivity; [|etransitivity; [by eapply goes_settle_answered|]].
  - destruct H2 as [->|(Hst & why & ->)]; [done|]. by apply (goes_withdraw_asked _ _ _ s).
  - destruct Hr as [->|(t & _ & ->)]; [done|apply goes_reconcile].
Qed.

(** The claims of doors, and the questions a task leaves open. *)

Lemma goes_claim now question asker s c s' : claim_answer now question asker s = inl (c, s') -> goes quiet s s'.
Proof.
  unfold claim_answer. intros H. steps H; try done. etransitivity; [|logged].
  apply goes_update_one. intros r _ _. row_change.
Qed.

Lemma goes_settle_claim now id recipient got s s' : settle_claim now id recipient got s = inl s' -> goes receiving s s'.
Proof.
  unfold settle_claim. destruct (message_row s id) as [a|] eqn:Ea; [|done].
  apply message_row_Some in Ea as [Ha _]. destruct (negb _); [done|].
  destruct (negb got); [intros [= <-]; apply goes_update; intros r _ _; row_change|].
  destruct (in_state _ a); [by intros [= <-]|]. destruct (negb _) eqn:Eq; [done|]. intros [= <-]. where_.
  unfold reconcile_of. destruct (message_task _ _); [etransitivity; [|apply goes_reconcile]|]; by apply goes_received_as.
Qed.

Lemma goes_release_claims A participant s : goes A s (release_claims participant s).
Proof.
  unfold release_claims. set (claimed := filter _ _). clearbody claimed.
  assert (forall acc, goes A acc.2 (fold_left release_one claimed acc).2) as H.
  { induction claimed as [|a claimed IH]; intros [tasks s']; [done|]. simpl. etransitivity; [|apply IH].
    simpl. etransitivity; [|logged]. apply goes_update_one. intros r _ _. row_change. }
  specialize (H ([], s)). destruct (fold_left _ _ _) as [tasks s1]. simpl in *.
  etransitivity; [exact H|apply goes_reconcile_each].
Qed.

Lemma goes_withdraw_open_questions A t why s : goes A s (withdraw_open_questions t why s).
Proof.
  unfold withdraw_open_questions. destruct (t_assignee t); [|done]. apply goes_update. intros q _ E. where_. row_change.
Qed.

(** ** What a task that is over leaves *)

Lemma goes_withdraw_gated A task reason s : goes A s (withdraw_gated task reason s).
Proof.
  unfold withdraw_gated. etransitivity; [|apply goes_release_carried]. apply goes_update. intros m _ E. where_. row_change.
Qed.

Lemma goes_withdraw_result A t why s : goes A s (withdraw_result t why s).
Proof. apply goes_update. intros m _ E. where_; row_change. Qed.

Lemma goes_drop_queued A task s : goes A s (drop_queued task s).
Proof. apply goes_update. intros m _ E. where_; row_change. Qed.
