(* ===== verification/MessageRuns.v ===== *)
(** * What holds of messages whatever happens: every run of the ledger's operations

    [step] is any operation of [Ledger], [Deliveries] and [Doors] on the messages, at any time and of
    anyone, or what the rest of the ledger does to its other tables; [runs] is any sequence of them.
    What [MessageRules] says of each operation makes the theorems: a window is pasted one message at
    a time, what was received is told again only when it is taken back, what waits for the human
    waits till the human passes it on, and what a confirmation proves received rode in the paste
    from the first. *)
From S2P Require Import Prelude Utf8 Text JsValue Questions Words TaskPlan Ledger Deliveries Doors MessageRules.
#[local] Open Scope Z_scope.

(** ** Operations *)

(** The words that send a window on with a task, and what it keeps with them: a resume, or a task sent
    back ([tasks/pausing.rs], [tasks/finishing.rs]). *)
Definition hand_on (now : Z) (t : task) (recipient : Z) (from : option Z) (words : text) (s : store) : store + Refused :=
  let? (id, s) := queue now (t_project t)
    (ToQueue recipient from Kind.Task (Some (t_id t)) None words false false None None false None) s in
  fold t recipient id s.

Definition no_paste (e : Z * event) : bool := match e.2 with DeliveryBegun _ _ => false | _ => true end.

(** What an operation does of the tables that are not the messages' ([Rest]) is left open, but that it
    begins no paste. *)
Inductive op :=
| Queue (project : Z) (q : queued)
| Send (project : Z) (d : sending)
| HandOn (t : task) (recipient : Z) (from : option Z) (words : text)
| AskOne (project : Z) (a : asked)
| AnswerOne (question from : Z) (body choices : option json)
| Begin (id : Z)
| AdmitOne (id : Z) (begun_with : list Z)
| Confirm (id : Z) (receipt : option json)
| ConfirmTelling (id : Z) (receipt : option json)
| ConfirmUnproven (id : Z) (item : string) (tell : list new_note)
| Retry (id : Z) (reason : text) (refund logged : bool)
| TakeBack (id : Z) (reason : text)
| Read_ (recipient : Z) (which : list Z) (via : Via.t)
| MarkRead (id : Z)
| Approve (id : Z) (by_ : text)
| ClaimOne (question asker : Z)
| SettleClaim (id recipient : Z) (received : bool)
| ReleaseClaims (participant : option Z)
| CancelOne (id : Z) (reason : text)
| WorkWhile (project number : Z)
| RestWhile (project number : Z) (why : text)
| ReleaseStranded
| ReconcileReleased
| WithdrawGated (task : Z) (reason : text)
| WithdrawResult (t : task) (why : text)
| WithdrawQuestions (t : task) (why : text)
| DropQueued (task : Z)
| Rest (tasks_ : list task) (participants_ : list participant) (projects_ : list project)
       (conversations_ : list conversation) (more : list (Z * event)).

Section Run.
Context (number_text : Z -> text) (to_lowercase : text -> text).

Definition run (now : Z) (o : op) (s : store) : store + Refused :=
  match o with
  | Queue project q => let? (_, s) := queue now project q s in inl s
  | Send project d => let? (_, s) := send now project d s in inl s
  | HandOn t recipient from words => hand_on now t recipient from words s
  | AskOne project a => let? (_, s) := ask now project a s in inl s
  | AnswerOne question from body choices =>
      let? (_, s) := answer number_text to_lowercase now question from body choices s in inl s
  | Begin id => let? (_, s) := begin_delivery id s in inl s
  | AdmitOne id begun_with => let? (_, s) := admit_delivery now id begun_with s in inl s
  | Confirm id receipt => let? (_, s) := confirm_delivery now id receipt s in inl s
  | ConfirmTelling id receipt => let? (_, s) := confirm_delivery_telling now id receipt s in inl s
  | ConfirmUnproven id item tell => let? (_, s) := confirm_unproven now id item tell s in inl s
  | Retry id reason refund logged => let? (_, s) := retry_delivery now id reason refund logged s in inl s
  | TakeBack id reason => let? (_, s) := take_back id reason s in inl s
  | Read_ recipient which via => inl (receive_read now recipient which via s).2
  | MarkRead id => let? (_, s) := mark_read now id s in inl s
  | Approve id by_ => let? (_, s) := approve_message id by_ s in inl s
  | ClaimOne question asker => let? (_, s) := claim_answer now question asker s in inl s
  | SettleClaim id recipient received => settle_claim now id recipient received s
  | ReleaseClaims participant => inl (release_claims participant s)
  | CancelOne id reason => cancel_message id reason s
  | WorkWhile project number => work_while_resumed project number s
  | RestWhile project number why => rest_while_resumed project number why s
  | ReleaseStranded => inl (release_stranded s)
  | ReconcileReleased => inl (reconcile_released s)
  | WithdrawGated task reason => inl (withdraw_gated task reason s)
  | WithdrawResult t why => inl (withdraw_result t why s)
  | WithdrawQuestions t why => inl (withdraw_open_questions t why s)
  | DropQueued task => inl (drop_queued task s)
  | Rest tasks_ participants_ projects_ conversations_ more =>
      inl (Store (messages s) tasks_ participants_ projects_ conversations_
                 (events s ++ filter (fun e => no_paste e = true) more) (sequence s))
  end.

(** An operation refused leaves the ledger as it was. *)
Definition step (now : Z) (o : op) (s : store) : store :=
  match run now o s with inl s => s | inr _ => s end.

Fixpoint runs (l : list (Z * op)) (s : store) : store :=
  match l with [] => s | (now, o) :: l => runs l (step now o s) end.
End Run.

(** A ledger before its first message. *)
Definition opened (tasks_ : list task) (participants_ : list participant) (projects_ : list project)
    (conversations_ : list conversation) : store :=
  Store [] tasks_ participants_ projects_ conversations_ [] 0.

(** A ledger as its operations leave it, whatever they were. *)
Definition reached (s : store) : Prop :=
  exists number_text to_lowercase l tasks_ participants_ projects_ conversations_,
    s = runs number_text to_lowercase l (opened tasks_ participants_ projects_ conversations_).

(** What an operation may do. *)
Definition may (o : op) : allowed := {|
  begins_ := fun id => o = Begin id;
  passes_on := fun id => exists by_, o = Approve id by_;
  receives_ := True;
  returns := fun k => match o with TakeBack _ _ => True | HandOn _ _ _ _ => k = Kind.Answer | _ => False end
|}.

Lemma changed_may J (A A' : allowed) m m' :
  (forall id, begins_ A id -> begins_ A' id) -> (forall id, passes_on A id -> passes_on A' id) ->
  (receives_ A -> receives_ A') -> (forall k, returns A k -> returns A' k) -> changed J A m m' -> changed J A' m m'.
Proof. intros Hb Hp Hr Hk []. constructor; naive_solver. Qed.

Lemma goes_may A A' s s' :
  (forall id, begins_ A id -> begins_ A' id) -> (forall id, passes_on A id -> passes_on A' id) ->
  (receives_ A -> receives_ A') -> (forall k, returns A k -> returns A' k) -> goes A s s' -> goes A' s s'.
Proof.
  intros Hb Hp Hr Hk H Hok. destruct (H Hok) as [(r & n & E & Hrows & Hn & Hd) (e & Ee & He) Hs].
  constructor; [| |done].
  - exists r, n. split_and!; try done.
    + eapply Forall2_impl; [exact Hrows|]. intros m m'. by apply changed_may.
    + eapply Forall_impl; [exact Hn|]. simpl. intros m (? & Hm & ?). split; [done|]. split; auto.
  - exists e. split; [done|]. eapply Forall_impl; [exact He|]. intros x Hx c k Ek. destruct (Hx c k Ek). auto.
Qed.

Lemma goes_hand_on now t recipient from words s s' :
  hand_on now t recipient from words s = inl s' -> goes (returning an_answer) s s'.
Proof.
  unfold hand_on. destruct (queue _ _ _ _) as [[id s1]|] eqn:E; [|done]. intros H.
  pose proof (goes_queue (returning an_answer) _ _ _ _ _ _ E) as H1. apply goes_ok. intros Hok.
  etransitivity; [exact H1|]. assert (id = sequence s + 1 /\ sequence s1 = id /\ events s1 = events s) as (Hid & Hseq & Hev).
  { revert E. clear. unfold queue. simpl. destruct (gate_holds _ _ _ _) as [[]|]; [| |done]; simpl;
      rewrite ?andb_false_r; simpl; intros [= <- <-]; done. }
  apply (goes_fold_in t recipient id); [lia| |exact H]. intros (k & _ & _ & [n Hin]%begun_spec).
  rewrite Hev in Hin. destruct Hok as [_ _ Hb]. apply Hb in Hin. lia.
Qed.

(** Opens a result whose value is let go. *)
Lemma kept_store {X} (r : X * store + Refused) s' :
  (let? (_, s) := r in inl s) = inl s' -> exists x, r = inl (x, s').
Proof. destruct r as [[x s]|]; [|done]. intros [= <-]. by exists x. Qed.

Lemma step_keeps_rules number_text to_lowercase now o s : goes (may o) s (step number_text to_lowercase now o s).
Proof.
  unfold step. destruct (run number_text to_lowercase now o s) as [s'|] eqn:E; [|done].
  destruct o; simpl in E; try (apply kept_store in E as [? E]); try (injection E as <-);
    first
    [ eapply (goes_may quiet); [naive_solver..|]; first
        [ by eapply goes_queue | by eapply goes_send | by eapply goes_ask | by eapply goes_admit | by eapply goes_claim
        | by eapply goes_cancel | by eapply goes_work_while | by eapply goes_rest_while | apply goes_release_claims
        | apply goes_release_stranded | apply goes_reconcile_released | apply goes_withdraw_gated
        | apply goes_withdraw_result | apply goes_withdraw_open_questions | apply goes_drop_queued ]
    | eapply (goes_may receiving); [naive_solver..|]; first
        [ by eapply (goes_answer _ _ _ _ _ _ _ _ (_, _)) | by eapply (goes_confirm _ _ _ _ (_, _))
        | by eapply (goes_confirm_telling _ _ _ _ (_, _)) | by eapply (goes_confirm_unproven _ _ _ _ _ (_, _))
        | by eapply (goes_retry _ _ _ _ _ _ (_, _)) | apply goes_receive_read
        | by eapply (goes_mark_read _ _ _ (_, _)) | by eapply goes_settle_claim ]
    | eapply (goes_may (returning an_answer)); [naive_solver..|]; by eapply goes_hand_on
    | eapply (goes_may (returning (fun _ => True))); [naive_solver..|]; by eapply (goes_take_back _ _ _ (_, _))
    | idtac ].
  - eapply (goes_may (beginning id)); [naive_solver..|]. by apply (goes_begin _ _ (x, s')).
  - eapply (goes_may (passing_on id)); [simpl|simpl|simpl|simpl|by apply (goes_approve id by_ s (x, s'))]; naive_solver.
  - intros _. constructor; simpl; [| |lia].
    + exists (messages s), []. rewrite app_nil_r. split_and!; [done| |constructor|constructor].
      by apply Forall_Forall2_diag, Forall_true.
    + eexists. split; [done|]. apply Forall_forall. intros [p e] [Hp _]%list_elem_of_filter c n E. simpl in E. by subst e.
Qed.

(** Whatever holds of a row at its start, and each operation keeps, holds of it at the end. *)
Lemma runs_row number_text to_lowercase (P : message -> Prop) (may_be : op -> Prop) l s m :
  (forall J o m m', may_be o -> P m -> changed J (may o) m m' -> P m') ->
  Forall (fun x => may_be x.2) l -> ids_ok s -> m ∈ messages s -> P m ->
  exists m', message_row (runs number_text to_lowercase l s) (m_id m) = Some m' /\ P m' /\ m_sent m' = m_sent m.
Proof.
  intros HP. revert s m. induction l as [|[now o] l IH]; intros s m Hl Hok Hm HPm; simpl.
  { exists m. by rewrite message_row_at. }
  apply Forall_cons in Hl as [Ho Hl]. pose proof (step_keeps_rules number_text to_lowercase now o s Hok) as Hev.
  destruct (evolves_row _ _ _ _ Hev Hm) as (m1 & Hm1 & Hc).
  destruct (IH _ m1 Hl (evolves_ids _ _ _ Hev Hok) Hm1) as (m' & E & HP' & Es); [by eapply HP|].
  exists m'. rewrite <- (ch_id _ _ _ _ Hc), <- (ch_sent _ _ _ _ Hc). done.
Qed.

Lemma runs_ids number_text to_lowercase l s : ids_ok s -> ids_ok (runs number_text to_lowercase l s).
Proof.
  revert s. induction l as [|[now o] l IH]; intros s Hok; [done|]. apply IH.
  by eapply evolves_ids; [apply step_keeps_rules|].
Qed.

Lemma reached_ids s : reached s -> ids_ok s.
Proof.
  intros (number_text & to_lowercase & l & ts & ps & pr & cs & ->). apply runs_ids.
  constructor; [constructor|constructor|]. intros p c n H%not_elem_of_nil. done.
Qed.

(** ** One paste at a time *)

Definition one_on_its_way (s : store) : Prop :=
  forall m m', m ∈ messages s -> m' ∈ messages s -> m_state m = State.Delivering -> m_state m' = State.Delivering ->
    m_recipient m = m_recipient m' -> m_id m = m_id m'.

(** A delivery begun is the only one of its window. *)
Lemma begin_free id s r :
  begin_delivery id s = inl r ->
  exists m, message_row s id = Some m /\ forall o, o ∈ messages s -> m_recipient o = m_recipient m ->
    m_state o <> State.Delivering.
Proof.
  unfold begin_delivery. destruct (require_message s id _) as [m|] eqn:Em; [|done].
  apply require_message_Some in Em as [Hm _]. intros H. exists m. split; [done|]. intros o Ho Er Ed.
  destruct (participant_row _ _); [|done]. case_decide; [done|]. destruct (negb _); [done|]. destruct (negb _); [done|].
  assert (exists_message s (fun r => for_ (m_recipient m) r && in_state [State.Delivering] r) = true) as Hb.
  { apply existsb_exists. exists o. split; [by apply list_elem_of_In|]. unfold for_, in_state.
    rewrite Er, Z.eqb_refl, Ed. done. }
  by rewrite Hb in H.
Qed.

(** A row new on its way is that of the delivery begun. *)
Lemma step_delivering number_text to_lowercase now o s m' :
  ids_ok s -> m' ∈ messages (step number_text to_lowercase now o s) -> m_state m' = State.Delivering ->
  exists m, m ∈ messages s /\ m_id m = m_id m' /\ m_sent m = m_sent m' /\
    (m_state m = State.Delivering \/
     o = Begin (m_id m) /\
     forall r, r ∈ messages s -> m_recipient r = m_recipient m -> m_state r <> State.Delivering).
Proof.
  intros Hok Hm' Hd. pose proof (step_keeps_rules number_text to_lowercase now o s Hok) as Hev.
  set (s' := step _ _ _ _ _) in *.
  assert (forall id, o = Begin id -> s' = s \/ exists m, message_row s id = Some m /\
    forall r, r ∈ messages s -> m_recipient r = m_recipient m -> m_state r <> State.Delivering) as Hbegin.
  { intros id ->. unfold s', step. simpl. destruct (begin_delivery id s) as [[r s1]|] eqn:E; [|by left].
    right. by eapply begin_free. }
  destruct (decide (m_id m' <= sequence s)) as [Hle|Hgt].
  - destruct (evolves_origin _ _ _ _ Hev Hm' Hle) as (m & Hm & Hc). exists m.
    split; [done|]. split; [by rewrite (ch_id _ _ _ _ Hc)|]. split; [by rewrite (ch_sent _ _ _ _ Hc)|].
    destruct (ch_delivering _ _ _ _ Hc Hd) as [|Ho]; [by left|]. pose proof Ho as Ho'. apply Hbegin in Ho as [E|(k & Hk & Hfree)].
    + left. rewrite E in Hm'. by rewrite (id_inj s m m') by (done || by rewrite (ch_id _ _ _ _ Hc)).
    + right. split; [done|]. rewrite message_row_at in Hk by done. by injection Hk as <-.
  - exfalso. apply Hgt. destruct Hev as [(r & n & E & Hr & Hn & _) _ _]. pose proof Hm' as Hin.
    rewrite E in Hin. destruct Hok as [Hnd Hgiven Hpa]. pose proof Hgiven as Hgiven'. rewrite Forall_forall in Hgiven.
    apply elem_of_app in Hin as [Hin|Hin].
    + apply list_elem_of_lookup in Hin as [i Hi]. destruct (Forall2_lookup_r _ _ _ _ _ Hr Hi) as (m & Hm & Hc).
      rewrite (ch_id _ _ _ _ Hc). apply Hgiven. by eapply list_elem_of_lookup_2.
    + rewrite Forall_forall in Hn. destruct (Hn m' Hin) as (_ & Hb & _). specialize (Hb Hd). simpl in Hb.
      apply Hbegin in Hb as [Es|(k & [Hk <-]%message_row_Some & _)]; [rewrite Es in Hm'|]; by apply Hgiven.
Qed.

Lemma runs_one_on_its_way number_text to_lowercase l s :
  ids_ok s -> one_on_its_way s -> one_on_its_way (runs number_text to_lowercase l s).
Proof.
  revert s. induction l as [|[now o] l IH]; intros s Hok H1; [done|]. apply IH.
  { by eapply evolves_ids; [apply step_keeps_rules|]. }
  intros a b Ha Hb Hda Hdb Er.
  destruct (step_delivering _ _ _ _ _ a Hok Ha Hda) as (a0 & Ha0 & <- & Esa & Hca).
  destruct (step_delivering _ _ _ _ _ b Hok Hb Hdb) as (b0 & Hb0 & <- & Esb & Hcb).
  assert (m_recipient a0 = m_recipient b0) as Er0 by (unfold m_recipient in *; congruence).
  destruct Hca as [Hda0|[Ho Hfree]], Hcb as [Hdb0|[Ho' Hfree']].
  - by apply H1.
  - by destruct (Hfree' a0 Ha0 Er0).
  - by destruct (Hfree b0 Hb0 (eq_sym Er0)).
  - congruence.
Qed.

(** C18: whatever is done of its messages, a window has at most one of them on its way into it. *)
Theorem one_paste_at_a_time number_text to_lowercase l ts ps pr cs :
  one_on_its_way (runs number_text to_lowercase l (opened ts ps pr cs)).
Proof.
  apply runs_one_on_its_way; [by apply reached_ids; exists number_text, to_lowercase, [], ts, ps, pr, cs|].
  intros m m' Hm%not_elem_of_nil. done.
Qed.

(** ** The head of a queue *)

Lemma filter_map_same {X} (p : X -> bool) (f : X -> X) l :
  (forall x, x ∈ l -> f x = x \/ p x = false /\ p (f x) = false) ->
  filter (fun x => p x = true) (map f l) = filter (fun x => p x = true) l.
Proof.
  induction l as [|x l IH]; intros H; [done|]. cbn [map]. rewrite !filter_cons, IH by (intros y Hy; apply H; by right).
  destruct (H x) as [->|[E1 E2]]; [left|done|]. by rewrite E1, E2.
Qed.

(** A delivery of a row that waits on its own and nothing holds begins. *)
Lemma begin_at s m p :
  ids_ok s -> m ∈ messages s -> m_state m = State.Queued -> m_carried_by m = None -> m_claimed_at m = None ->
  participant_row s (m_recipient m) = inl p -> p_role p <> Human ->
  exists_message s (fun r => for_ (m_recipient m) r && in_state [State.Delivering] r) = false ->
  is_kind Kind.Task m && is_member p && has_task s (m_recipient m) active_states (m_task m) = false ->
  exists m' s', begin_delivery (m_id m) s = inl (m', carried s (m_id m), s') /\
    message_row s' (m_id m) = Some m' /\ participants s' = participants s /\
    m_state m' = State.Delivering /\ m_attempts m' = m_attempts m + 1 /\ m_recipient m' = m_recipient m.
Proof.
  intros Hok Hm Hq Hc Hcl Hp Hh Hb Hw. unfold begin_delivery, require_message, known_message.
  rewrite message_row_at by done. rewrite decide_True, Hp by done. rewrite decide_False by done.
  unfold on_its_own. rewrite Hc, Hcl, Hb, Hw. cbn [negb bool_decide orb].
  set (s' := log _ _ _). assert (message_row s' (m_id m) = Some (set_reason None (set_attempts (m_attempts m + 1)
    (set_state State.Delivering m)))) as Hrow.
  { unfold s'. change (message_row (log _ _ ?x) ?i) with (message_row x i). unfold update_one.
    rewrite message_row_update, message_row_at by done. simpl. by rewrite Z.eqb_refl. }
  rewrite Hrow. eexists _, s'. split; [|done]. do 3 f_equal. apply filter_map_same. intros r Hr.
  destruct (m_id r =? m_id m) eqn:E; [right|by left]. apply Z.eqb_eq in E. rewrite (id_inj s r m) by done.
  unfold rides_in. simpl. by rewrite Hc.
Qed.

(** C16: the message told to be next for a window is waiting, on its own and claimed by no door; its
    delivery can begin at once, with what rides with it, and while it lasts nothing is next. *)
Theorem next_delivery_begins s participant m :
  reached s -> next_delivery s participant = inl (Some m) ->
  exists m' s', begin_delivery (m_id m) s = inl (m', carried s (m_id m), s') /\
    m_recipient m = participant /\ m_state m = State.Queued /\ m_state m' = State.Delivering /\
    m_attempts m' = m_attempts m + 1 /\ next_delivery s' participant = inl None.
Proof.
  intros Hok%reached_ids. unfold next_delivery, next_delivery_among.
  destruct (participant_row s participant) as [p|] eqn:Ep; [|done]. case_decide as Hh; [done|].
  destruct (exists_message s _) eqn:Ed; [done|]. intros [= H].
  assert (m ∈ messages s /\ may_go s p m = true) as [Hm Hgo].
  { destruct (find (fun m => may_go s p m && true && ahead m) _) as [m0|] eqn:E; [injection H as <-|clear E; rename H into E];
      apply find_some in E as [Hin E]; where_; by apply list_elem_of_In in Hin. }
  assert (p_id p = participant) as Hid.
  { unfold participant_row in Ep. destruct (find _ _) eqn:E; [|done]. injection Ep as ->.
    by apply find_some in E as [_ E%Z.eqb_eq]. }
  clear H. unfold may_go in Hgo.
  apply andb_true_iff in Hgo as [[[[[Hgo Htask]%andb_true_iff _]%andb_true_iff _]%andb_true_iff _]%andb_true_iff _].
  apply andb_true_iff in Hgo as [[[Hto%Z.eqb_eq Hq]%andb_true_iff Hc]%andb_true_iff Hcl%bool_decide_eq_true].
  apply in_state_spec, list_elem_of_singleton in Hq. apply bool_decide_eq_true in Hc. rewrite Hid in *.
  destruct (begin_at s m p) as (m' & s' & Hb & Hrow & Hps & Hd & Hat & Hto'); rewrite ?Hto; try done.
  { by destruct (is_kind Kind.Task m), (is_member p), (has_task s participant active_states (m_task m)). }
  exists m', s'. split_and!; try done. unfold participant_row in *. rewrite Hps, Ep. case_decide; [done|].
  assert (exists_message s' (fun m => for_ participant m && in_state [State.Delivering] m) = true) as ->; [|done].
  apply existsb_exists. exists m'. apply message_row_Some in Hrow as [Hin _]. split; [by apply list_elem_of_In|].
  unfold for_, in_state. by rewrite Hto', Hto, Z.eqb_refl, Hd.
Qed.

(** ** What stays as it was *)

Lemma begin_refused s m :
  message_row s (m_id m) = Some m -> m_state m <> State.Queued -> begin_delivery (m_id m) s = inr (InvalidTransition (m_id m)).
Proof.
  intros Hm Hq. unfold begin_delivery, require_message, known_message. rewrite Hm. by rewrite decide_False.
Qed.

(** Takes nothing back of the kind. *)
Definition takes_none_back (k : Kind.t) (o : op) : Prop :=
  match o with TakeBack _ _ => False | HandOn _ _ _ _ => k <> Kind.Answer | _ => True end.

Lemma takes_none_back_spec k o : takes_none_back k o -> ~ returns (may o) k.
Proof. destruct o; simpl; tauto. Qed.

(** A message that was received, withdrawn or failed goes into no window again, whatever is done
    of it but a window's taking it back (and an old daemon's unproven answers, when a task is handed
    on); and one received stays received, but for a question. *)
Theorem over_goes_in_no_more number_text to_lowercase l s m :
  reached s -> m ∈ messages s -> over m -> Forall (fun x => takes_none_back (m_kind m) x.2) l ->
  let s' := runs number_text to_lowercase l s in
  exists m', message_row s' (m_id m) = Some m' /\ begin_delivery (m_id m) s' = inr (InvalidTransition (m_id m)) /\
    (received m -> m_kind m <> Kind.Question -> received m').
Proof.
  intros Hok%reached_ids Hm Hover Hl s'.
  destruct (runs_row number_text to_lowercase
    (fun r => m_kind r = m_kind m /\ over r /\ (received m -> m_kind m <> Kind.Question -> received r))
    (takes_none_back (m_kind m)) l s m) as (m' & E & (Hk & Ho & Hr) & _); try done.
  { intros J o r r' Hmay%takes_none_back_spec (Hk & Ho & Hr) Hc. split_and!.
    - unfold m_kind. by rewrite (ch_sent _ _ _ _ Hc).
    - destruct (ch_over _ _ _ _ Hc Ho) as [|H]; [done|]. by rewrite Hk in H.
    - intros H1 H2. destruct (ch_received _ _ _ _ Hc) as [|H]; [congruence|by apply Hr|done|]. by rewrite Hk in H. }
  exists m'. split_and!; try done. pose proof E as [_ Ei]%message_row_Some. rewrite <- Ei in *. apply begin_refused; [done|].
  unfold over, received in Ho. intuition congruence.
Qed.

(** C17: a word held for the human, or withdrawn, stays so until the human passes that word on: it rides
    in no paste, none of it begins, and no read or record makes it received. *)
Theorem held_waits_for_the_human number_text to_lowercase l s m :
  reached s -> m ∈ messages s -> idle m -> Forall (fun x => forall by_, x.2 <> Approve (m_id m) by_) l ->
  let s' := runs number_text to_lowercase l s in
  exists m', message_row s' (m_id m) = Some m' /\ idle m' /\ ~ received m' /\
    begin_delivery (m_id m) s' = inr (InvalidTransition (m_id m)).
Proof.
  intros Hok%reached_ids Hm Hidle Hl s'.
  destruct (runs_row number_text to_lowercase (fun r => m_id r = m_id m /\ idle r)
    (fun o => forall by_, o <> Approve (m_id m) by_) l s m) as (m' & E & (Hk & Hi) & _); try done.
  { intros J o r r' Hmay (Hid & Hi) Hc. split; [by rewrite (ch_id _ _ _ _ Hc)|].
    destruct (ch_idle _ _ _ _ Hc Hi) as [|[_ [by_ H]]]; [done|]. rewrite Hid in H. by destruct (Hmay by_). }
  exists m'. pose proof Hi as [_ Hst]. split_and!; try done; [intros [?|?]; destruct Hst; congruence|].
  rewrite <- Hk. apply begin_refused; [by rewrite Hk|]. destruct Hst; congruence.
Qed.

Lemma evolves_rides A s s' m' c :
  evolves A s s' -> pasted s c -> m' ∈ messages s' -> m_carried_by m' = Some c ->
  exists m, m ∈ messages s /\ m_id m = m_id m' /\ m_carried_by m = Some c.
Proof.
  intros [(r & n & E & Hr & Hn & _) _ _] Hp Hm' Hc. rewrite E in Hm'. apply elem_of_app in Hm' as [Hm'|Hm'].
  - apply list_elem_of_lookup in Hm' as [i Hi]. destruct (Forall2_lookup_r _ _ _ _ _ Hr Hi) as (m & Hm & Hch).
    exists m. split_and!; [by eapply list_elem_of_lookup_2|by rewrite (ch_id _ _ _ _ Hch)|].
    by destruct (ch_rides _ _ _ _ Hch c Hc).
  - rewrite Forall_forall in Hn. destruct (Hn m' Hm') as (_ & _ & Hj). by destruct (Hj c Hc).
Qed.

(** C13: the set a carrier carries never grows after its first paste began, through every paste of it and
    any of the operations of a run, in any order: a row that rides in it rode in it then. (The one operation
    that takes rows back into a carrier so begun, [confirm_sent_by_hand], is not modelled: it puts back what
    the paste that the human sent was begun with.) *)
Theorem carrier_takes_in_no_more number_text to_lowercase l s c m' :
  reached s -> pasted s c -> m' ∈ messages (runs number_text to_lowercase l s) -> m_carried_by m' = Some c ->
  exists m, m ∈ messages s /\ m_id m = m_id m' /\ m_carried_by m = Some c.
Proof.
  intros Hok%reached_ids. revert s m' Hok. induction l as [|[now o] l IH]; intros s m' Hok Hp Hm' Hc; [by exists m'|].
  pose proof (step_keeps_rules number_text to_lowercase now o s Hok) as Hev.
  destruct (IH _ m' (evolves_ids _ _ _ Hev Hok) (evolves_pasted _ _ _ _ Hev Hp) Hm' Hc) as (m1 & Hm1 & <- & Hc1).
  by apply (evolves_rides _ _ _ _ _ Hev Hp).
Qed.

(** ** What a confirmation proves *)

(** The messages are the same after what a task's window received moved the task. *)
Lemma reconcile_messages task s : messages (reconcile task s) = messages s.
Proof.
  unfold reconcile. destruct (task_by_id s task) as [t|]; [|done]. destruct (t_assignee t) as [w|]; [|done].
  unfold moved_to. destruct (t_state t); try done; repeat case_match; simplify_eq; done.
Qed.

(** A task of a window is where what the window received of it says. *)
Definition settled (s : store) (task : Z) : Prop :=
  forall t w, task_by_id s task = Some t -> t_assignee t = Some w ->
  match t_state t with
  | Queued => barrier s task w = true \/ arrived s task w = false
  | Working => outstanding s task w = false
  | Waiting => outstanding s task w = true
  | _ => True
  end.

Lemma found_task_id s id t : task_by_id s id = Some t -> t_id t = id.
Proof. by intros [_ ?%Z.eqb_eq]%find_some. Qed.

Lemma moved_task t to s :
  to ∈ active_states -> task_by_id s (t_id t) = Some t ->
  task_by_id (move_task t to s) (t_id t) = Some (with_state to t) /\ messages (move_task t to s) = messages s.
Proof.
  intros Hto Ht. unfold move_task. rewrite decide_True by done. split; [|done]. unfold task_by_id in *. simpl.
  rewrite (find_map (fun t' => t_id t' =? t_id t)); [|intros t'; destruct (t_id t' =? t_id t) eqn:E; simpl; by rewrite ?E].
  rewrite Ht. simpl. by rewrite Z.eqb_refl.
Qed.

Lemma reconcile_settles task s : settled (reconcile task s) task.
Proof.
  unfold reconcile. destruct (task_by_id s task) as [t|] eqn:Et; [|by intros t w Ht; rewrite Et in Ht].
  pose proof (found_task_id _ _ _ Et) as <-. destruct (t_assignee t) as [w|] eqn:Ew.
  2: { intros t' w' Ht' Hw'. rewrite Et in Ht'. congruence. }
  destruct (moved_to s t w) as [to|] eqn:Em.
  - assert (to ∈ active_states /\ (to = Working /\ outstanding s (t_id t) w = false \/
                                   to = Waiting /\ outstanding s (t_id t) w = true)) as [Hto Hm].
    { unfold moved_to in Em. destruct (t_state t); try done; repeat case_match; simplify_eq; split; auto; set_solver. }
    destruct (moved_task t to s Hto Et) as [Et' Ems]. intros t' w' Ht' Hw'. rewrite Et' in Ht'. injection Ht' as <-.
    simpl in *. assert (w' = w) as -> by congruence. unfold outstanding, exists_message in *. rewrite Ems.
    by destruct Hm as [[-> Hm]|[-> Hm]].
  - intros t' w' Ht' Hw'. rewrite Et in Ht'. injection Ht' as <-. assert (w' = w) as -> by congruence.
    unfold moved_to in Em. destruct (t_state t); try done.
    + destruct (barrier s (t_id t) w); [by left|]. destruct (arrived s (t_id t) w); [done|by right].
    + by destruct (outstanding s (t_id t) w).
    + by destruct (outstanding s (t_id t) w).
Qed.

(** What told of a read leaves: the message of the read, received still. *)
Lemma told_rows id k s s' m :
  told_when_confirmed id k s = inl s' -> message_row s (m_id m) = Some m -> (m_id m = id -> received m) ->
  exists r, message_row s' (m_id m) = Some r /\ (received r <-> received m) /\ m_task r = m_task m.
Proof.
  unfold told_when_confirmed. destruct (known_message s id) as [d|] eqn:Ed; [|done].
  apply known_message_Some, message_row_Some in Ed as [_ <-]. intros H Hm Hr.
  assert (s' = s \/ exists p e, messages s' = messages (log p e (update_one (m_id d) (set_state State.Read) s))) as [->|(p & e & E)].
  { destruct (negb _); injection H as <-; [by left|]. case_decide; [|by left]. right. eexists _, _.
    unfold read_role. destruct (current_conversation _ _); [|done]. destruct (message_row _ _ ≫= _); [|done].
    by destruct (_ && _). }
  { by exists m. }
  unfold message_row. rewrite E. change (find _ _) with (message_row (update_one (m_id d) (set_state State.Read) s) (m_id m)).
  unfold update_one. rewrite message_row_update, Hm by done. eexists. split; [done|].
  destruct (m_id m =? m_id d) eqn:Ei; [|done]. apply Z.eqb_eq in Ei. split; [|done].
  split; [auto|by right].
Qed.

Lemma told_tasks id k s s' : told_when_confirmed id k s = inl s' -> tasks s' = tasks s.
Proof.
  unfold told_when_confirmed. destruct (known_message s id); [|done]. destruct (negb _); [by intros [= ->]|].
  intros [= <-]. case_decide; [|done]. unfold read_role. destruct (current_conversation _ _); [|done].
  destruct (message_row _ _ ≫= _); [|done]. by destruct (_ && _).
Qed.

(** The messages the paste was made of, as the ledger knows when its record is found. *)
Definition in_paste (s : store) (id : Z) (m : message) : Prop :=
  m_id m = id \/ (m_carried_by m = Some id /\ m_state m = State.Queued) \/ rode_withdrawn s id m = true.

Lemma handed_update where_ set_ s id :
  (forall m, m_id (set_ m) = m_id m) -> (forall m, m_handed_at (set_ m) = m_handed_at m) ->
  message_row (update where_ set_ s) id ≫= m_handed_at = message_row s id ≫= m_handed_at.
Proof.
  intros Hi Hh. rewrite message_row_update by done. destruct (message_row s id) as [m|]; [|done]. simpl.
  by destruct (where_ m).
Qed.

(** The three writes of a confirmation, on one row. *)
Lemma paste_row s s2 id now r1 r2 r3 m :
  (m_id m = id -> m_state m = State.Delivering) -> message_row s2 id ≫= m_handed_at = message_row s id ≫= m_handed_at ->
  let m1 := if m_id m =? id then set_receipt now r1 (set_state State.Delivered m) else m in
  let m2 := if rides_in id m1 && in_state [State.Queued] m1 then set_receipt now r2 (set_state State.Delivered m1) else m1 in
  let m3 := if rode_withdrawn s2 id m2 then set_receipt now r3 (set_state State.Delivered m2) else m2 in
  (received m3 <-> received m \/ in_paste s id m) /\ m_task m3 = m_task m.
Proof.
  intros Hd Hh. assert (forall r, rode_withdrawn s2 id r = rode_withdrawn s id r) as Er by (unfold rode_withdrawn; by rewrite Hh).
  assert (forall st r, m_state r = st -> st <> State.Cancelled -> rode_withdrawn s id r = false) as Hn.
  { intros st r <- Hst. destruct (rode_withdrawn s id r) eqn:E; [|done]. by apply rode_withdrawn_state in E as [? _]. }
  intros m1 m2 m3. unfold m3, m2, m1, in_paste. destruct (m_id m =? id) eqn:Ei.
  - apply Z.eqb_eq in Ei. unfold in_state. simpl. rewrite andb_false_r, Er, (Hn State.Delivered) by done.
    split; [|done]. unfold received. simpl. intuition.
  - apply Z.eqb_neq in Ei. destruct (rides_in id m && in_state [State.Queued] m) eqn:Eq.
    + rewrite Er, (Hn State.Delivered) by done. split; [|done]. where_. unfold received. simpl. intuition.
    + assert (~ (m_carried_by m = Some id /\ m_state m = State.Queued)) as Hnq.
      { intros [E1 E2]. unfold rides_in, in_state in Eq. by rewrite E1, E2, bool_decide_eq_true_2 in Eq. }
      rewrite Er. destruct (rode_withdrawn s id m); (split; [|done]); unfold received; simpl; intuition congruence.
Qed.

(** C15: the record found of a message on its way proves received that message, what still waits in its
    paste, and what was withdrawn only after that paste was handed over, and not one row besides; and
    the task the message is about is then where what its window received of it says. *)
Theorem confirm_receives_the_paste now id receipt s m0 s' :
  reached s -> confirm_delivery now id receipt s = inl (m0, s') ->
  (forall m, m ∈ messages s -> exists r, message_row s' (m_id m) = Some r /\
     (received r <-> received m \/ in_paste s id m)) /\
  (forall t, message_row s id ≫= message_task s = Some t -> settled s' (t_id t)).
Proof.
  intros Hok%reached_ids. unfold confirm_delivery. destruct (require_message s id _) as [d|] eqn:Ed; [|done].
  apply require_message_Some in Ed as [Hrow Hd]. pose proof Hrow as [Hin Hid]%message_row_Some.
  set (receipt' := js_order _). set (s1 := update_one id _ s). set (s2 := update _ _ s1). set (s3 := update _ _ s2).
  set (s4 := log _ _ s3). intros H.
  destruct (match kept_read d with Some k => _ | None => _ end) as [s5|] eqn:E5; [|done].
  destruct (known_message _ id) as [m'|]; [|done]. injection H as <- <-.
  assert (forall m, m ∈ messages s -> exists r, message_row s4 (m_id m) = Some r /\
    (received r <-> received m \/ in_paste s id m) /\ m_task r = m_task m) as H4.
  { intros m Hm. change (message_row s4 (m_id m)) with (message_row s3 (m_id m)).
    unfold s3. rewrite message_row_update by done. fold s3. unfold s2 at 2. rewrite message_row_update by done.
    unfold s1 at 1, update_one. rewrite message_row_update, message_row_at by done.
    eexists. split; [done|]. apply (paste_row s s2 id (Some now)).
    - intros E. rewrite <- E, message_row_at in Hrow by done. by injection Hrow as ->.
    - unfold s2, s1, update_one. by rewrite !handed_update. }
  assert (tasks s5 = tasks s /\ forall m, m ∈ messages s -> exists r, message_row s5 (m_id m) = Some r /\
    (received r <-> received m \/ in_paste s id m)) as [Htasks H5].
  { destruct (kept_read d) as [k|]; [|injection E5 as <-].
    - split; [by rewrite (told_tasks _ _ _ _ E5)|]. intros m Hm. destruct (H4 m Hm) as (r & Er & Hr & _).
      pose proof Er as [_ Ei]%message_row_Some. rewrite <- Ei in Er.
      destruct (told_rows id k s4 s5 r E5 Er) as (r' & Er' & Hr' & _).
      { rewrite Ei. intros E. apply Hr. right. by left. }
      exists r'. rewrite <- Ei. split; [done|]. by rewrite Hr'.
    - split; [done|]. intros m Hm. destruct (H4 m Hm) as (r & Er & Hr & _). by exists r. }
  assert (messages (reconcile_of d s5) = messages s5) as E6.
  { unfold reconcile_of. destruct (message_task s5 d); [apply reconcile_messages|done]. }
  split; [intros m Hm; unfold message_row; rewrite E6; by apply H5|].
  intros t Ht. rewrite Hrow in Ht. simpl in Ht. unfold reconcile_of, message_task, task_by_id in *. rewrite Htasks, Ht.
  apply reconcile_settles.
Qed.

(** ** A ledger *)

(** A project of a human, a chief and a worker with a task, its brief and an answer on their way. *)
Module Demo.
Definition the_task : task := Task 10 1 1 Queued (Some 3) 2 None.
Definition before (gate : bool) : store :=
  opened [the_task]
    [Participant 1 1 (txt "you") Human false; Participant 2 1 (txt "chief") Chief false;
     Participant 3 1 (txt "ann") Worker false]
    [Project 1 true gate None] [].
Definition brief : queued :=
  ToQueue 3 (Some 2) Kind.Task (Some 10) None (txt "the brief") false false None None false None.
Definition an_answer : queued :=
  ToQueue 3 (Some 2) Kind.Answer (Some 10) (Some 7) (txt "the answer") false false None None false None.
Definition after (gate : bool) (l : list op) : store := runs show id (pair 5 <$> l) (before gate).
Definition sent_ : list op := [Queue 1 brief; Queue 1 an_answer].

Lemma reached_after gate l : reached (after gate l).
Proof. by eexists show, id, (pair 5 <$> l), _, _, _, _. Qed.
End Demo.

Definition row_of (s : store) (id : Z) (m : message) : message := default m (message_row s id).
Definition nothing : message := Message 0 (Sent 0 0 None Kind.Note None None None false 0 None) None [] State.Failed 0
  None None None None None None None.

Lemma find_in s id m : message_row s id = Some m -> m ∈ messages s.
Proof. by intros [? _]%message_row_Some. Qed.

Lemma next_delivery_begins_witness :
  let s := Demo.after false Demo.sent_ in let m := row_of s 1 nothing in
  next_delivery s 3 = inl (Some m) /\ m_id <$> carried s 1 = [2] /\
  exists m' s', begin_delivery (m_id m) s = inl (m', carried s (m_id m), s') /\
    m_recipient m = 3 /\ m_state m = State.Queued /\ m_state m' = State.Delivering /\
    m_attempts m' = m_attempts m + 1 /\ next_delivery s' 3 = inl None.
Proof.
  split; [vm_compute; reflexivity|]. split; [vm_compute; reflexivity|].
  apply next_delivery_begins; [apply Demo.reached_after|vm_compute; reflexivity].
Defined.

Lemma over_goes_in_no_more_witness :
  let s := Demo.after false (Demo.sent_ ++ [Begin 1; Confirm 1 None]) in let m := row_of s 2 nothing in
  received m /\
  let s' := runs show id (pair 6 <$> [Queue 1 Demo.brief; Begin 3; Retry 3 (txt "busy") false true]) s in
  exists m', message_row s' (m_id m) = Some m' /\ begin_delivery (m_id m) s' = inr (InvalidTransition (m_id m)) /\
    (received m -> m_kind m <> Kind.Question -> received m').
Proof.
  split; [left; vm_compute; reflexivity|].
  apply over_goes_in_no_more; [apply Demo.reached_after|apply (find_in _ 2); vm_compute; reflexivity| |by repeat constructor].
  left. left. vm_compute. reflexivity.
Defined.

Lemma held_waits_for_the_human_witness :
  let s := Demo.after true Demo.sent_ in let m := row_of s 1 nothing in
  m_state m = State.Gated /\
  let s' := runs show id (pair 6 <$> [Begin 1; Approve 2 (txt "you"); Read_ 3 [1] Via.Inbox]) s in
  exists m', message_row s' (m_id m) = Some m' /\ idle m' /\ ~ received m' /\
    begin_delivery (m_id m) s' = inr (InvalidTransition (m_id m)).
Proof.
  split; [vm_compute; reflexivity|].
  apply held_waits_for_the_human; [apply Demo.reached_after|apply (find_in _ 1); vm_compute; reflexivity| |].
  - split; [vm_compute; reflexivity|left; vm_compute; reflexivity].
  - repeat constructor; discriminate.
Defined.

Lemma carrier_takes_in_no_more_witness :
  let s := Demo.after false (Demo.sent_ ++ [Begin 1; Retry 1 (txt "busy") false true]) in
  let l := pair 6 <$> [Queue 1 Demo.an_answer; Begin 1] in let m' := row_of (runs show id l s) 2 nothing in
  m_carried_by m' = Some 1 /\ m_carried_by (row_of (runs show id l s) 3 nothing) <> Some 1 /\
  exists m, m ∈ messages s /\ m_id m = m_id m' /\ m_carried_by m = Some 1.
Proof.
  split; [vm_compute; reflexivity|]. split; [vm_compute; discriminate|].
  apply (carrier_takes_in_no_more show id (pair 6 <$> [Queue 1 Demo.an_answer; Begin 1])); [apply Demo.reached_after| | |].
  - exists (row_of (Demo.after false (Demo.sent_ ++ [Begin 1; Retry 1 (txt "busy") false true])) 1 nothing).
    split; [apply (find_in _ 1); vm_compute; reflexivity|]. split; vm_compute; reflexivity.
  - apply (find_in _ 2). vm_compute. reflexivity.
  - vm_compute. reflexivity.
Defined.

Lemma confirm_receives_the_paste_witness :
  let s := Demo.after false (Demo.sent_ ++ [Begin 1; AdmitOne 1 [2]]) in
  exists m0 s', confirm_delivery 6 1 None s = inl (m0, s') /\ in_paste s 1 (row_of s 2 nothing) /\
  (forall m, m ∈ messages s -> exists r, message_row s' (m_id m) = Some r /\
     (received r <-> received m \/ in_paste s 1 m)) /\
  (forall t, message_row s 1 ≫= message_task s = Some t -> settled s' (t_id t)).
Proof.
  intros s. destruct (confirm_delivery 6 1 None s) as [[m0 s']|] eqn:E; [|vm_compute in E; discriminate].
  exists m0, s'. split; [reflexivity|]. split; [right; left; split; vm_compute; reflexivity|].
  apply (confirm_receives_the_paste 6 1 None s m0 s'); [apply Demo.reached_after|exact E].
Defined.

(** A task whose window is at work before the words that resumed it are in reads working by
    [work_while_resumed], where [reconcile] leaves it queued. *)
Example work_while_resumed_moves_it :
  let s := Demo.after false [Queue 1 Demo.brief;
    Rest [Demo.the_task] [] [] [] [(1, TaskMoved 1 TaskPlan.Paused Queued (Some 1))]] in
  tasks (reconcile 10 s) = tasks s /\
  exists s', work_while_resumed 1 1 s = inl s' /\ tasks s' = [with_state Working Demo.the_task].
Proof. split; [vm_compute; reflexivity|]. eexists. split; vm_compute; reflexivity. Qed.
