(* ===== verification/MessageCarriers.v ===== *)
(** * What rides in another message's paste is never lost in it

    [carries] is the invariant of the rows that ride: each rides in a task message of the same task and
    window, and while it waits that one is no rider itself and may still go. Every operation of
    [MessageRuns] keeps it, so nothing this ledger wrote is ever left behind in a paste that is over. *)
From S2P Require Import Prelude Utf8 Text JsValue Questions Words TaskPlan TaskPlanRules Ledger Deliveries Doors MessageRules MessageRuns.
#[local] Open Scope Z_scope.

(** It may still go into its window. *)
Definition waiting (m : message) : Prop :=
  m_state m = State.Queued \/ m_state m = State.Gated \/ m_state m = State.Delivering.

(** [P] says which carriers it may wait in that will not go. *)
Record rides_but (P : Z -> Prop) (s : store) (r k : message) : Prop := RidesWell {
  rw_kind : m_kind k = Kind.Task;
  rw_task : m_task k = m_task r;
  rw_some : is_Some (m_task r);
  rw_to : m_recipient k = m_recipient r;
  rw_kept : m_kind r ∈ kept_kinds;
  rw_urgent : m_urgent r = false;
  rw_front : behind_held_words s r = false;
  rw_apart : m_id r <> m_id k;
  rw_state : m_state r <> State.Gated /\ m_state r <> State.Delivering;
  rw_waits : m_state r = State.Queued -> (m_carried_by k = None /\ waiting k) \/ P (m_id k)
}.

(** [ca_tasks] is the foreign key of the column. *)
Record carries_but (P : Z -> Prop) (s : store) : Prop := Carries {
  ca_ids : ids_ok s;
  ca_tasks : forall m t, m ∈ messages s -> m_task m = Some t -> is_Some (task_by_id s t);
  ca_rides : forall r c, r ∈ messages s -> m_carried_by r = Some c ->
    exists k, k ∈ messages s /\ m_id k = c /\ rides_but P s r k
}.

Definition nothing_else (c : Z) : Prop := False.
Abbreviation carries := (carries_but nothing_else).

Definition safe_but (P : Z -> Prop) (s s' : store) : Prop := carries_but P s -> carries_but P s'.
Abbreviation safe := (safe_but nothing_else).

#[export] Instance safe_refl P : Reflexive (safe_but P).
Proof. intros s C. exact C. Qed.

#[export] Instance safe_trans P : Transitive (safe_but P).
Proof. intros s1 s2 s3 H1 H2 C. by apply H2, H1. Qed.

Lemma safe_ok P s s' : (carries_but P s -> safe_but P s s') -> safe_but P s s'.
Proof. intros H C. by apply H. Qed.

Lemma safe_fold {X} P (f : store -> X -> store) xs s :
  (forall s x, x ∈ xs -> safe_but P s (f s x)) -> safe_but P s (fold_left f xs s).
Proof.
  revert s. induction xs as [|x xs IH]; intros s H; [done|]. simpl. etransitivity; [apply H; left|].
  apply IH. intros s' y Hy. apply H. by right.
Qed.

(** An operation that may do all. *)
Definition anything : allowed := Allowed (fun _ => True) (fun _ => True) True (fun _ => True).

(** ** Older words held before a row are never more than they were *)

Lemma told_kind m : told m = true -> m_kind m = Kind.Note /\ is_Some (m_sender m).
Proof. unfold told. intros H. where_. done. Qed.

Lemma changed_told J A m m' : changed J A m m' -> told m' = true -> told m = true /\ m_task m' = m_task m.
Proof.
  intros Hc Ht. assert (told m = true) as Hm.
  { revert Ht. unfold told, is_kind, m_kind, m_sender, m_urgent. by rewrite (ch_sent _ _ _ _ Hc). }
  split; [done|]. apply told_kind in Hm as [_ [x Hs]]. destruct (ch_task _ _ _ _ Hc) as [[_ Hn]|]; [congruence|done].
Qed.

Lemma evolves_behind A s s' m m' :
  evolves A s s' -> ids_ok s -> m ∈ messages s -> changed (fun c => ~ pasted s c) A m m' ->
  behind_held_words s' m' = true -> behind_held_words s m = true.
Proof.
  intros Hev Hok Hm Hc. unfold behind_held_words.
  intros [Ht (o' & Ho'%list_elem_of_In & Hw)%existsb_exists]%andb_true_iff.
  destruct (changed_told _ _ _ _ Hc Ht) as [Htm Etask]. rewrite Htm. simpl.
  apply andb_true_iff in Hw as [[[[[Hs Hta]%andb_true_iff Hfor]%andb_true_iff Hto]%andb_true_iff Hid]%andb_true_iff Hg].
  pose proof (ch_id _ _ _ _ Hc) as Eid. apply Z.ltb_lt in Hid.
  destruct Hok as [_ Hle _]. rewrite Forall_forall in Hle. specialize (Hle m Hm).
  destruct (evolves_origin _ _ _ o' Hev Ho') as (o & Ho & Hco); [lia|].
  destruct (changed_told _ _ _ _ Hco Hto) as [Hto' Etask'].
  apply existsb_exists. exists o. split; [by apply list_elem_of_In|]. where_.
  unfold m_recipient in *. rewrite (ch_sent _ _ _ _ Hc), (ch_sent _ _ _ _ Hco) in *.
  rewrite (ch_id _ _ _ _ Hco) in Hid. unfold for_, in_state, m_recipient.
  rewrite !bool_decide_eq_true_2, Hto', Hfor, Z.eqb_refl; try congruence.
  - simpl. rewrite (proj2 (Z.ltb_lt _ _)); [done|lia].
  - rewrite (ch_gated _ _ _ _ Hco) by congruence. left.
Qed.

(** ** Rows written *)

(** What a write of a row leaves of it. *)
Record fitting (s : store) (m m' : message) : Prop := Fitting {
  td_task : m_task m' = m_task m \/
    (m_carried_by m = None /\ m_kind m <> Kind.Task /\ forall t, m_task m' = Some t -> is_Some (task_by_id s t));
  td_carried : m_carried_by m' = m_carried_by m \/ m_carried_by m' = None;
  td_state : m_carried_by m' <> None -> m_state m' <> State.Gated /\ m_state m' <> State.Delivering
}.

(** And it makes no row wait again. *)
Record kempt (s : store) (m m' : message) : Prop := Kempt {
  td_fits : fitting s m m';
  td_queued : m_carried_by m' <> None -> m_state m' = State.Queued -> m_state m = State.Queued
}.

Lemma carries_apart P s m : carries_but P s -> m ∈ messages s -> m_carried_by m <> None ->
  m_state m <> State.Gated /\ m_state m <> State.Delivering.
Proof.
  intros C Hm Hc. destruct (m_carried_by m) as [c|] eqn:E; [|done].
  destruct (ca_rides _ _ C m c Hm E) as (k & _ & _ & Hw). apply (rw_state _ _ _ _ Hw).
Qed.

Definition written (where_ : message -> bool) (set_ : message -> message) (m : message) : message :=
  if where_ m then set_ m else m.

Lemma written_row where_ set_ s m :
  m ∈ messages (update where_ set_ s) <-> exists m0, m0 ∈ messages s /\ m = written where_ set_ m0.
Proof.
  split; [intros (m0 & ? & ?)%list_elem_of_fmap|intros (m0 & ? & ->); apply list_elem_of_fmap]; by exists m0.
Qed.

(** A write keeps the invariant, but for what waits in a carrier that it keeps from going. *)
Lemma carries_written P P' where_ set_ s :
  carries_but P s ->
  (forall m, m ∈ messages s -> where_ m = true ->
     changed (fun c => ~ pasted s c) anything m (set_ m) /\ fitting s m (set_ m)) ->
  (forall r k, r ∈ messages s -> k ∈ messages s -> m_carried_by r = Some (m_id k) -> rides_but P s r k ->
     m_carried_by (written where_ set_ r) = Some (m_id k) -> m_state (written where_ set_ r) = State.Queued ->
     (m_carried_by (written where_ set_ k) = None /\ waiting (written where_ set_ k)) \/ P' (m_id k)) ->
  carries_but P' (update where_ set_ s).
Proof.
  intros C H Hwaits. set (s' := update where_ set_ s). set (f := written where_ set_) in *.
  assert (forall m, m ∈ messages s -> changed (fun c => ~ pasted s c) anything m (f m) /\ fitting s m (f m)) as Hf.
  { intros m Hm. unfold f, written. destruct (where_ m) eqn:E; [by apply H|]. split; [done|]. constructor; auto.
    intros Hc. destruct (carries_apart P s m C Hm Hc). auto. }
  assert (evolves anything s s') as Hev by (apply ev_update; intros m Hm E; by apply H).
  constructor; [by eapply evolves_ids; [|apply C]| |].
  - intros m' t (m & Hm & ->)%written_row Ht. fold f in Ht. destruct (Hf m Hm) as [_ Htd].
    change (task_by_id s' t) with (task_by_id s t).
    destruct (td_task _ _ _ Htd) as [E|(_ & _ & E)]; [|by apply E]. rewrite E in Ht. by apply (ca_tasks _ _ C m).
  - intros r' c Hr' Hc'. pose proof Hr' as (r & Hr & ->)%written_row. destruct (Hf r Hr) as [Hcr Htr]. fold f in Hc', Hr' |- *.
    assert (m_carried_by r = Some c) as Hc by (destruct (td_carried _ _ _ Htr); congruence).
    destruct (ca_rides _ _ C r c Hr Hc) as (k & Hk & <- & Hw). destruct (Hf k Hk) as [Hck Htk].
    exists (f k). split; [apply written_row; by exists k|]. split; [by rewrite (ch_id _ _ _ _ Hck)|].
    pose proof (Hwaits r k Hr Hk Hc Hw) as Hwait. destruct Hw.
    assert (m_task (f k) = m_task k) as Etk by (destruct (td_task _ _ _ Htk) as [|(_ & Hn & _)]; done).
    assert (m_task (f r) = m_task r) as Etr by (destruct (td_task _ _ _ Htr) as [|(Hn & _)]; congruence).
    destruct (td_state _ _ _ Htr) as [Hng Hnd]; [congruence|]. unfold m_kind, m_recipient, m_urgent in *.
    constructor; unfold m_kind, m_recipient, m_urgent;
      rewrite ?Etk, ?Etr, ?(ch_sent _ _ _ _ Hck), ?(ch_sent _ _ _ _ Hcr), ?(ch_id _ _ _ _ Hck), ?(ch_id _ _ _ _ Hcr);
      try done.
    + apply not_true_iff_false. intros E. pose proof (evolves_behind _ _ _ _ _ Hev (ca_ids _ _ C) Hr Hcr E). congruence.
    + intros Hq'. by apply Hwait.
Qed.

(** One that makes no row wait again. *)
Lemma carries_update P P' where_ set_ s :
  carries_but P s ->
  (forall m, m ∈ messages s -> where_ m = true ->
     changed (fun c => ~ pasted s c) anything m (set_ m) /\ kempt s m (set_ m)) ->
  (forall r k, r ∈ messages s -> k ∈ messages s -> m_carried_by r = Some (m_id k) -> m_state r = State.Queued ->
     m_task k = m_task r -> m_kind k = Kind.Task ->
     (m_carried_by k = None /\ waiting k) \/ P (m_id k) ->
     m_carried_by (written where_ set_ r) = Some (m_id k) -> m_state (written where_ set_ r) = State.Queued ->
     (m_carried_by (written where_ set_ k) = None /\ waiting (written where_ set_ k)) \/ P' (m_id k)) ->
  carries_but P' (update where_ set_ s).
Proof.
  intros C H Hwaits. apply (carries_written P); [done|intros m Hm E; split; by apply H|]. intros r k Hr Hk Hc Hw Hc' Hq'.
  assert (m_state r = State.Queued) as Hrq.
  { unfold written in Hc', Hq'. destruct (where_ r) eqn:E; [|done]. apply (td_queued _ _ _ (proj2 (H r Hr E))); congruence. }
  apply (Hwaits r k); try done; [apply Hw..|]. by apply (rw_waits _ _ _ _ Hw).
Qed.

(** A write of rows that leaves all that carry as they are. *)
Record tidy (s : store) (m m' : message) : Prop := Tidy {
  td_kempt : kempt s m m';
  td_waits : m_kind m = Kind.Task -> m_carried_by m = None -> waiting m -> waiting m' /\ m_carried_by m' = None
}.

Lemma safe_update P where_ set_ s :
  (carries_but P s -> forall m, m ∈ messages s -> where_ m = true ->
     changed (fun c => ~ pasted s c) anything m (set_ m) /\ tidy s m (set_ m)) ->
  safe_but P s (update where_ set_ s).
Proof.
  intros H C. specialize (H C). apply (carries_update P); [done| |].
  - intros m Hm E. destruct (H m Hm E) as [? []]. done.
  - intros r k Hr Hk _ _ _ Hkind [[Ho Hw]|HP] _ _; [|by right]. left. unfold written. destruct (where_ k) eqn:E; [|done].
    destruct (H k Hk E) as [_ [_ Ht]]. by destruct (Ht Hkind Ho Hw).
Qed.

(** What is written besides messages. *)
Lemma carries_same P s s' :
  goes anything s s' -> messages s' = messages s ->
  (forall t, is_Some (task_by_id s t) -> is_Some (task_by_id s' t)) -> carries_but P s -> carries_but P s'.
Proof.
  intros Hg Em Ht C. pose proof (Hg (ca_ids _ _ C)) as Hev. constructor; [by eapply evolves_ids; [|apply C]| |].
  - intros m t. rewrite Em. intros Hm E. by apply Ht, (ca_tasks _ _ C m).
  - intros r c. rewrite Em. intros Hr Hc. destruct (ca_rides _ _ C r c Hr Hc) as (k & Hk & Hid & Hw).
    exists k. split_and!; try done. destruct Hw. constructor; try done.
    unfold behind_held_words, exists_message. by rewrite Em.
Qed.

Lemma safe_same P s s' :
  goes anything s s' -> messages s' = messages s ->
  (forall t, is_Some (task_by_id s t) -> is_Some (task_by_id s' t)) -> safe_but P s s'.
Proof. intros Hg Em Ht C. by apply (carries_same _ s). Qed.

Lemma carries_log P p e s : (forall c n, e <> DeliveryBegun c n) -> carries_but P s -> carries_but P (log p e s).
Proof. intros He. apply carries_same; [by apply goes_log|done|done]. Qed.

Lemma safe_log P p e s : (forall c n, e <> DeliveryBegun c n) -> safe_but P s (log p e s).
Proof. intros He C. by apply carries_log. Qed.

Ltac said := apply safe_log; intros ??; discriminate.

Lemma safe_insert now project q landing s id s' :
  landing <> State.Delivering -> (forall t, q_task q = Some t -> is_Some (task_by_id s t)) ->
  insert_row now project q landing s = (id, s') -> safe s s'.
Proof.
  intros Hl Ht E C. pose proof (goes_insert anything _ _ _ _ _ _ _ Hl E (ca_ids _ _ C)) as Hev. injection E as <- <-.
  constructor; [by eapply evolves_ids; [|apply C]| |].
  - intros m t [Hm| ->%list_elem_of_singleton]%elem_of_app; [by apply (ca_tasks _ _ C)|apply Ht].
  - intros r c [Hr| ->%list_elem_of_singleton]%elem_of_app Hc; [|done].
    destruct (ca_rides _ _ C r c Hr Hc) as (k & Hk & Hid & Hw). exists k. split_and!; [apply elem_of_app; by left|done|].
    destruct Hw. constructor; try done. apply not_true_iff_false. intros E.
    pose proof (evolves_behind _ _ _ r r Hev (ca_ids _ _ C) Hr ltac:(reflexivity) E). congruence.
Qed.

Ltac fits := constructor; simpl; unfold waiting in *; simpl; intuition congruence.
Ltac keep_up := constructor; [fits|]; simpl; unfold waiting in *; simpl; intuition congruence.
Ltac tidy_up := split; [row_change|constructor; [keep_up|simpl; unfold waiting in *; simpl; intuition congruence]].

(** ** Withdrawn, where it carries nothing *)

Lemma safe_withdraw P id reason s :
  (forall m, m ∈ messages s -> m_id m = id -> m_kind m <> Kind.Task /\ ~ received m) -> safe_but P s (withdraw id reason s).
Proof.
  intros H. apply safe_update. intros C m Hm E%Z.eqb_eq. destruct (H m Hm E) as [Hk Hr]. unfold received in Hr. tidy_up.
Qed.

(** A row of the id is such a one. *)
Definition light (s : store) (id : Z) : Prop :=
  id <= sequence s /\ forall m, m ∈ messages s -> m_id m = id -> m_kind m <> Kind.Task /\ ~ received m.

Lemma light_pending s id : light s id -> pending s id.
Proof. intros [Hle H]. split; [done|]. intros m Hm E. by apply H. Qed.

Lemma light_goes s s' id : goes quiet s s' -> ids_ok s -> light s id -> light s' id.
Proof.
  intros H Hok Hl. pose proof (pending_goes _ _ _ H Hok (light_pending _ _ Hl)) as [Hle Hp]. split; [done|].
  intros m' Hm' E. split; [|by apply Hp]. destruct Hl as [Hle0 Hl].
  destruct (evolves_origin _ _ _ m' (H Hok) Hm') as (m & Hm & Hc); [lia|].
  unfold m_kind. rewrite (ch_sent _ _ _ _ Hc). apply (Hl m Hm). by rewrite <- (ch_id _ _ _ _ Hc).
Qed.

Lemma light_row s m : ids_ok s -> m ∈ messages s -> m_kind m <> Kind.Task -> ~ received m -> light s (m_id m).
Proof.
  intros Hok Hm Hk Hr. split; [by apply (pending_row s m)|]. intros m' Hm' E. by rewrite (id_inj s m' m).
Qed.

Lemma safe_withdraw_each P project which reason s :
  ids_ok s -> Forall (light s) which -> safe_but P s (withdraw_each project which reason s).
Proof.
  unfold withdraw_each. revert s. induction which as [|id which IH]; intros s Hok Hl; [done|].
  apply Forall_cons in Hl as [Hid Hl]. cbn [fold_left].
  assert (goes quiet s (log project (DeliveryCancelled id reason) (withdraw id reason s))) as Hg.
  { etransitivity; [by apply goes_withdraw, light_pending|logged]. }
  etransitivity; [|apply IH; [by eapply evolves_ids; [apply Hg|]|]].
  - etransitivity; [apply safe_withdraw, Hid|said].
  - eapply Forall_impl; [exact Hl|]. intros id'. by apply light_goes.
Qed.

Lemma stale_light s m why : stale s m = Some why -> m_kind m <> Kind.Task /\ ~ received m.
Proof.
  intros H. split; [|by eapply stale_not_received]. unfold stale in H. destruct (negb _) eqn:E; [done|]. where_; congruence.
Qed.

Lemma safe_if_stale m s : ids_ok s -> light s (m_id m) -> safe s (withdrawn_if_stale m s).2.
Proof.
  intros Hok Hl. unfold withdrawn_if_stale. destruct (stale s m); [|done].
  apply safe_withdraw_each; [done|by apply Forall_singleton].
Qed.

(** The row as it was read: stale or not, what is withdrawn is it alone. *)
Lemma safe_stale_row m s : (exists m', m' ∈ messages s /\ m_id m' = m_id m /\ m_kind m' = m_kind m /\ ~ received m') ->
  safe s (withdrawn_if_stale m s).2.
Proof.
  intros (m' & Hm & Hid & Hk & Hr). apply safe_ok. intros C. unfold withdrawn_if_stale.
  destruct (stale s m) eqn:E; [|done]. apply stale_light in E as [Hk' _].
  apply safe_withdraw_each; [apply C|]. apply Forall_singleton. rewrite <- Hid. apply light_row; [apply C|done|congruence|done].
Qed.

Lemma safe_stale_among P which s : safe_but P s (withdraw_stale_among which s).
Proof.
  apply safe_fold. intros s' id _. destruct (message_row s' id) as [m|] eqn:E; [|done].
  apply message_row_Some in E as [Hm _]. apply safe_ok. intros C. unfold withdrawn_if_stale.
  destruct (stale s' m) eqn:Es; [|done]. apply stale_light in Es as [Hk Hr].
  apply safe_withdraw_each; [apply C|]. apply Forall_singleton. apply light_row; [apply C|done..].
Qed.

(** ** Rows that come to ride *)

(** The rows may ride in the carrier, and what waits in one of them comes with it. *)
Record may_carry (s : store) (k : message) (where_ : message -> bool) : Prop := MayCarry {
  mc_row : k ∈ messages s;
  mc_kind : m_kind k = Kind.Task;
  mc_own : m_carried_by k = None;
  mc_waits : waiting k;
  mc_some : is_Some (m_task k);
  mc_new : ~ pasted s (m_id k);
  mc_rows : forall m, m ∈ messages s -> where_ m = true ->
    m_id m <> m_id k /\ m_task m = m_task k /\ m_recipient m = m_recipient k /\ m_urgent m = false /\
    m_kind m ∈ kept_kinds /\ behind_held_words s m = false /\
    (m_state m = State.Queued \/ m_carried_by m <> None);
  mc_set : forall m r, m ∈ messages s -> where_ m = true -> r ∈ messages s -> m_carried_by r = Some (m_id m) ->
    m_state r = State.Queued -> where_ r = true
}.

Lemma carries_carried P where_ k s :
  carries_but P s -> may_carry s k where_ ->
  (forall r k0, r ∈ messages s -> k0 ∈ messages s -> rides_but P s r k0 -> m_carried_by r = Some (m_id k0) ->
     m_state r = State.Queued -> P (m_id k0) -> where_ r = true) ->
  carries (update where_ (set_carried (Some (m_id k))) s).
Proof.
  intros C [Hk Hkind Hown Hwait Hsome Hnew Hrows Hset] Hleft.
  set (s' := update _ _ s).
  assert (evolves anything s s') as Hev.
  { apply goes_carry; [apply C| |done|apply C]. intros m Hm E.
    destruct (Hrows m Hm E) as (_ & _ & _ & _ & _ & _ & [Hq|Hc]); [by left|right]. by destruct (m_carried_by m). }
  set (f := fun m => if where_ m then set_carried (Some (m_id k)) m else m).
  assert (forall m', m' ∈ messages s' -> exists m, m ∈ messages s /\ m' = f m) as Hfrom.
  { intros m' (m & -> & Hm)%list_elem_of_fmap. by exists m. }
  assert (where_ k = false) as Hnk.
  { destruct (where_ k) eqn:E; [|done]. destruct (Hrows k Hk E) as [Hne _]. done. }
  assert (forall m, m_id (f m) = m_id m /\ m_sent (f m) = m_sent m /\ m_task (f m) = m_task m /\ m_state (f m) = m_state m) as Hf.
  { intros m. unfold f. by destruct (where_ m). }
  assert (forall m, m ∈ messages s -> behind_held_words s m = false -> behind_held_words s' (f m) = false) as Hfront.
  { intros m Hm Hb. apply not_true_iff_false. intros E. destruct (Hf m) as (E1 & E2 & E3 & _).
    assert (behind_held_words s' m = true) as E'.
    { revert E. unfold behind_held_words, told, is_kind, m_kind, m_sender, m_urgent, for_, m_recipient. by rewrite E1, E2, E3. }
    pose proof (evolves_behind _ _ _ m m Hev (ca_ids _ _ C) Hm ltac:(reflexivity) E'). congruence. }
  constructor; [by eapply evolves_ids; [|apply C]| |].
  - intros m' t Hm' Ht. destruct (Hfrom m' Hm') as (m & Hm & ->). destruct (Hf m) as (_ & _ & E & _).
    change (task_by_id s' t) with (task_by_id s t). rewrite E in Ht. by apply (ca_tasks _ _ C m).
  - intros r' c Hr' Hc'. destruct (Hfrom r' Hr') as (r & Hr & ->). destruct (Hf r) as (Ei & Es & Et & Est).
    destruct (where_ r) eqn:Wr.
    + assert (c = m_id k) as -> by (unfold f in Hc'; rewrite Wr in Hc'; simpl in Hc'; congruence).
      exists k. split; [apply list_elem_of_fmap; exists k; by rewrite Hnk|]. split; [done|].
      destruct (Hrows r Hr Wr) as (Hne & Htask & Hto & Hu & Hkk & Hb & Hst).
      constructor; unfold m_kind, m_recipient, m_urgent in *; rewrite ?Ei, ?Es, ?Et, ?Est; try done; try congruence.
      * by apply Hfront.
      * destruct Hst as [->|Hc]; [done|]. by apply (carries_apart P s).
      * by left.
    + assert (m_carried_by r = Some c) as Hc by (unfold f in Hc'; by rewrite Wr in Hc').
      destruct (ca_rides _ _ C r c Hr Hc) as (k0 & Hk0 & Hid & Hw). exists (f k0).
      split; [apply list_elem_of_fmap; by exists k0|]. destruct (Hf k0) as (Ei0 & Es0 & Et0 & Est0).
      split; [by rewrite Ei0|]. pose proof (Hleft r k0 Hr Hk0 Hw ltac:(congruence)) as Hl. destruct Hw.
      constructor; unfold m_kind, m_recipient, m_urgent in *;
        rewrite ?Ei, ?Es, ?Et, ?Est, ?Ei0, ?Es0, ?Et0; try done; try congruence.
      * by apply Hfront.
      * intros Hq. destruct (rw_waits0 Hq) as [[Ho Hwa]|HP]; [|by rewrite (Hl Hq HP) in Wr]. destruct (where_ k0) eqn:Wk.
        { rewrite (Hset k0 r Hk0 Wk Hr) in Wr; [done|by rewrite Hid|done]. }
        left. unfold f. by rewrite Wk.
Qed.

Lemma safe_carry where_ k s :
  (carries s -> may_carry s k where_) -> safe s (update where_ (set_carried (Some (m_id k))) s).
Proof. intros H C. by apply (carries_carried nothing_else); auto. Qed.

(** ** A message joins another's paste *)

Lemma safe_adopt id s : safe s (adopt id s).
Proof.
  apply safe_ok. intros C. unfold adopt. destruct (message_row s id) as [m|] eqn:Em; [|done].
  apply message_row_Some in Em as [Hm <-]. destruct (joins s m) as [c|] eqn:Ej; [|done].
  apply joins_Some in Ej as (Hq & Hc & Hkk & Hu & Hfront & k & Hk & <- & Hsome & Htask & Hto & Hkind & Hown & Hwait & Hne & Hb).
  pose proof (not_pasted _ _ _ (ca_ids _ _ C) Hk eq_refl Hb) as Hnp.
  assert (waiting k) as Hwk by (unfold waiting; tauto).
  assert (may_carry s k (fun r => (m_id r =? m_id m) || rides_in (m_id m) r)) as Hmc.
  { constructor; try done; [by rewrite Htask| |].
    - intros r Hr [E|E]%orb_true_iff.
      + apply Z.eqb_eq in E. rewrite (id_inj s r m) by (done || apply C). split_and!; auto.
      + apply bool_decide_eq_true in E. destruct (ca_rides _ _ C r _ Hr E) as (m' & Hm' & Hid & Hw).
        apply (id_inj s m' m) in Hid as ->; [|apply C|done..]. destruct Hw.
        split_and!; try congruence; [|right; congruence]. intros E'. rewrite (id_inj s r k) in E by (done || apply C). congruence.
    - intros r r' Hr [E|E]%orb_true_iff Hr' Hc' Hq'.
      + apply Z.eqb_eq in E. rewrite E in Hc'. apply orb_true_iff. right. by apply bool_decide_eq_true.
      + exfalso. apply bool_decide_eq_true in E. destruct (ca_rides _ _ C r' _ Hr' Hc') as (r0 & Hr0 & Hid & Hw).
        apply (id_inj s r0 r) in Hid as ->; [|apply C|done..]. destruct (rw_waits _ _ _ _ Hw Hq') as [[? _]|[]]. congruence. }
  set (s1 := update _ _ s). assert (safe s s1) as H1 by (by apply safe_carry).
  etransitivity; [exact H1|]. apply safe_carry. intros C1.
  assert (k ∈ messages s1) as Hk1.
  { apply list_elem_of_fmap. exists k. split; [|done]. unfold rides_in. rewrite Hown, (proj2 (Z.eqb_neq _ _) Hne). done. }
  constructor; try done; [by rewrite Htask|intros Hp; by apply pasted_update in Hp| |].
  - intros f Hf E. assert (told f = true) as Ht by (where_; done). pose proof (told_kind _ Ht) as [Hkf _].
    unfold told in Ht. where_. split_and!; try congruence; [|unfold kept_kinds; rewrite Hkf; set_solver|by left].
    intros E'. rewrite (id_inj s1 f k) in Hkf by (done || apply C1). congruence.
  - intros f r Hf E Hr Hc' _. exfalso. assert (told f = true) as Ht by (where_; done). apply told_kind in Ht as [Hkf _].
    destruct (ca_rides _ _ C1 r _ Hr Hc') as (k' & Hk' & Hid & Hw). apply (id_inj s1 k' f) in Hid as ->; [|apply C1|done..].
    pose proof (rw_kind _ _ _ _ Hw). congruence.
Qed.

(** ** Carriers that will not go, and what they carried *)

Lemma safe_release_carried P task s : safe_but P s (release_carried task s).
Proof.
  unfold release_carried. etransitivity; [|apply safe_stale_among]. apply safe_update. intros C m Hm E. where_. tidy_up.
Qed.

Lemma safe_release_one s of_ : safe s (release_one_stranded s of_).
Proof.
  unfold release_one_stranded. destruct of_ as [carrier project]. etransitivity; [|apply safe_stale_among].
  etransitivity; [|said]. apply safe_update. intros C m Hm E. where_. tidy_up.
Qed.

(** What waits in the carriers of a task that will not go is let go of. *)
Lemma release_settles P P' task s :
  carries_but P s ->
  (forall k, k ∈ messages s -> P (m_id k) -> P' (m_id k) \/
     m_task k = Some task /\ (m_state k = State.Cancelled \/ m_state k = State.Failed)) ->
  carries_but P' (release_carried task s).
Proof.
  intros C Hgone. unfold release_carried. apply safe_stale_among. apply (carries_update P); [done| |].
  - intros m Hm E. where_. split; [row_change|keep_up].
  - intros r k Hr Hk Hc Hq Htask _ Hwaits Hc' _. unfold written in *.
    destruct (about task r && _ && _) eqn:E; [done|].
    assert ((about task k && in_state [State.Queued] k &&
      match m_carried_by k with Some c => bool_decide (c ∈ ids s (fun c => about task c && in_state [State.Cancelled; State.Failed] c)) | None => false end) = true ->
      waiting k -> False \/ m_carried_by k <> None) as Hk'.
    { intros H _. right. destruct (m_carried_by k); [done|]. by rewrite andb_false_r in H. }
    destruct Hwaits as [[Ho Hw]|HP].
    + left. destruct (about task k && _ && _) eqn:Ek; [|done]. by destruct (Hk' eq_refl Hw).
    + destruct (Hgone k Hk HP) as [|[Ht Hst]]; [by right|]. exfalso. rewrite Htask in Ht.
      assert (about task r = true) as Ha by (by apply bool_decide_eq_true).
      assert (in_state [State.Queued] r = true) as Hi by (by apply in_state_spec, list_elem_of_singleton).
      rewrite Ha, Hi, Hc in E. simpl in E. apply bool_decide_eq_false in E. apply E.
      apply list_elem_of_fmap. exists k. split; [done|]. apply list_elem_of_filter. split; [|done].
      apply andb_true_iff. split; [apply bool_decide_eq_true; congruence|]. apply in_state_spec.
      destruct Hst as [-> | ->]; set_solver.
Qed.

(** Rows withdrawn though others ride in them: what they carry may wait in none. *)
Lemma carries_settled P Q where_ set_ s :
  carries_but P s ->
  (forall m, m ∈ messages s -> where_ m = true ->
     changed (fun c => ~ pasted s c) anything m (set_ m) /\ kempt s m (set_ m) /\ Q (m_id m)) ->
  carries_but (fun c => P c \/ Q c) (update where_ set_ s).
Proof.
  intros C H. apply (carries_update P); [done|intros m Hm E; by destruct (H m Hm E) as (? & ? & ?)|].
  intros r k _ Hk _ _ _ _ [?|?] _ _; [|by right; left].
  unfold written. destruct (where_ k) eqn:E; [right; right; by apply H|by left].
Qed.

Lemma carries_none P P' s :
  carries_but P s -> (forall k, k ∈ messages s -> P (m_id k) -> P' (m_id k) \/ m_task k = None) -> carries_but P' s.
Proof.
  intros [Hi Ht Hr] Hn. constructor; [done|done|]. intros r c Hrm Hc. destruct (Hr r c Hrm Hc) as (k & Hk & Hid & Hw).
  exists k. split_and!; try done. destruct Hw. constructor; try done. intros Hq.
  destruct (rw_waits0 Hq) as [|HP]; [by left|]. destruct (Hn k Hk HP) as [|E]; [by right|]. exfalso.
  rewrite E in rw_task0. rewrite <- rw_task0 in rw_some0. by destruct rw_some0.
Qed.

Lemma safe_cancel P id reason s s' : cancel_message id reason s = inl s' -> safe_but P s s'.
Proof.
  unfold cancel_message. destruct (negb _); [done|]. destruct (message_row s id) as [m|] eqn:Em; [|done].
  destruct (in_state _ m) eqn:Es; [|done]. intros [= <-] C. apply message_row_Some in Em as [Hm <-].
  apply in_state_spec in Es. set (Q := fun c => P c \/ m_id m = c).
  assert (carries_but Q (withdraw (m_id m) reason s)) as C1.
  { apply carries_settled; [done|]. intros r Hr E%Z.eqb_eq. rewrite (id_inj s r m) by (done || apply C).
    apply elem_of_cons in Es as [Es|Es%list_elem_of_singleton]; (split; [row_change|split; [keep_up|done]]). }
  set (s1 := log _ _ _). assert (carries_but Q s1) as C2 by (apply carries_log; [discriminate|done]).
  assert (forall k, k ∈ messages s1 -> m_id m = m_id k -> m_task k = m_task m /\ m_state k = State.Cancelled) as Hk.
  { intros k (r & Hr & ->)%written_row Eid. unfold written in *. destruct (m_id r =? m_id m) eqn:E.
    - apply Z.eqb_eq in E. by rewrite (id_inj s r m) by (done || apply C).
    - exfalso. apply Z.eqb_neq in E. by rewrite Eid in E. }
  assert (message_task s1 m = message_task s m) as E by done. rewrite E. clearbody s1.
  unfold message_task. destruct (m_task m) as [t|] eqn:Et; simpl.
  - destruct (ca_tasks _ _ C m t Hm Et) as [row Erow]. rewrite Erow. rewrite (found_task_id _ _ _ Erow).
    apply (release_settles Q); [done|]. intros k Hk1 [?|Eid]; [by left|]. right. destruct (Hk k Hk1 Eid) as [-> ->]. auto.
  - apply (carries_none Q); [done|]. intros k Hk1 [?|Eid]; [by left|]. right. by destruct (Hk k Hk1 Eid).
Qed.

Lemma safe_cancel_each P which reason s s' : cancel_each which reason s = inl s' -> safe_but P s s'.
Proof.
  revert s. induction which as [|id which IH]; intros s; simpl; [by intros [= ->]|].
  destruct (cancel_message id reason s) as [s1|] eqn:E; [|done]. intros H.
  etransitivity; [by eapply safe_cancel|by apply IH].
Qed.

Lemma safe_withdraw_gated task reason s : safe s (withdraw_gated task reason s).
Proof.
  unfold withdraw_gated. intros C. set (s1 := update _ _ s).
  set (Q := fun c => exists k, k ∈ messages s1 /\ m_id k = c /\ m_task k = Some task /\ m_state k = State.Cancelled).
  apply (release_settles (fun c => nothing_else c \/ Q c)).
  - apply carries_settled; [done|]. intros m Hm E. split; [where_; row_change|]. split; [where_; keep_up|].
    exists (written (fun m => about task m && in_state [State.Gated] m) (fun m => set_reason (Some reason) (set_state State.Cancelled m)) m).
    split; [apply written_row; by exists m|]. unfold written. rewrite E. simpl. where_. done.
  - intros k Hk [[]|(k' & Hk' & Eid & Ht & Hst)]. right. rewrite (id_inj s1 k k'); auto. eapply evolves_ids; [|apply C].
    apply (ev_update anything). intros m Hm E. where_. row_change.
Qed.

Lemma safe_withdraw_result t why s : safe s (withdraw_result t why s).
Proof. apply safe_update. intros C m Hm E. where_. tidy_up. Qed.

Lemma safe_withdraw_open_questions t why s : safe s (withdraw_open_questions t why s).
Proof.
  unfold withdraw_open_questions. destruct (t_assignee t); [|done]. apply safe_update. intros C q Hq E. where_. tidy_up.
Qed.

(** What waits of a task is dropped, whatever it rides in. *)
Lemma safe_drop_queued task s : safe s (drop_queued task s).
Proof.
  intros C. apply (carries_update nothing_else); [done| |].
  - intros m Hm E. where_; (split; [row_change|keep_up]).
  - intros r k _ Hk _ Hq Htask _ [[Ho Hw]|[]] Hc' Hq'. left. unfold written in *.
    destruct (about task r && _) eqn:Er; [done|]. destruct (about task k && _) eqn:Ek; [|done].
    exfalso. where_; rewrite Hq in *; unfold about, in_state in Er; rewrite bool_decide_eq_true_2 in Er by congruence;
      rewrite bool_decide_eq_true_2 in Er by set_solver; done.
Qed.

(** ** What goes on in a task *)

Lemma task_in_table s t : t ∈ tasks s -> is_Some (task_by_id s (t_id t)).
Proof.
  intros Ht. unfold task_by_id. destruct (find _ _) eqn:E; [by eexists|].
  apply list_elem_of_In, (find_none _ _ E) in Ht. lia.
Qed.

Lemma task_row_in s project number t : task_row s project number = inl t -> is_Some (task_by_id s (t_id t)).
Proof.
  unfold task_row. destruct (find _ _) eqn:E; [|done]. intros [= ->]. apply find_some in E as [Ht _].
  by apply task_in_table, list_elem_of_In.
Qed.

Lemma task_moved_is_there s id f t :
  (forall t, t_id (f t) = t_id t) -> is_Some (task_by_id s t) -> is_Some (task_by_id (update_task id f s) t).
Proof.
  intros Hf [x Hx]. unfold task_by_id in *. simpl. rewrite find_map; [by rewrite Hx; eexists|].
  intros y. destruct (t_id y =? id); [by rewrite Hf|done].
Qed.

Lemma continuations_light s t where_ :
  ids_ok s -> (forall m, where_ m = true -> ~ received m) -> Forall (light s) (continuations_of s t where_).*1.
Proof.
  intros Hok Hw. apply Forall_fmap, Forall_forall. intros [id w] Hin.
  unfold continuations_of in Hin. apply list_elem_of_omap in Hin as (m & Hm & E).
  destruct (_ && _) eqn:Ew in E; [|done]. apply bind_Some in E as (named & _ & E).
  destruct (_ || _) in E; [|done]. injection E as <- <-. simpl.
  apply andb_true_iff in Ew as [[[_ Hk]%andb_true_iff Hw']%andb_true_iff _].
  apply light_row; [done..| |by apply Hw]. unfold is_kind in Hk. apply bool_decide_eq_true in Hk. congruence.
Qed.

Lemma safe_move t to s : safe s (move_task t to s).
Proof.
  unfold move_task. set (s1 := log _ _ _). assert (safe s s1) as H.
  { etransitivity; [|said]. apply safe_same; [intros _; by apply ev_same|done|].
    intros t' Ht'. by apply task_moved_is_there. }
  case_decide; [exact H|]. etransitivity; [exact H|]. apply safe_ok. intros C.
  apply safe_withdraw_each; [apply C|]. apply continuations_light; [apply C|].
  intros m [E|[E _]%andb_true_iff]%orb_true_iff; apply (not_received _ _ E); set_solver.
Qed.

Lemma safe_reconcile task s : safe s (reconcile task s).
Proof.
  unfold reconcile. destruct (task_by_id s task) as [t|]; [|done]. destruct (t_assignee t) as [w|]; [|done].
  destruct (moved_to s t w) as [to|]; [|done]. apply safe_move.
Qed.

Lemma safe_reconcile_each which s : safe s (reconcile_each which s).
Proof. apply safe_fold. intros s' id _. apply safe_reconcile. Qed.

Lemma safe_reconcile_of m s : safe s (reconcile_of m s).
Proof. unfold reconcile_of. destruct (message_task s m); [apply safe_reconcile|done]. Qed.

(** ** Rows that are new *)

Lemma safe_queue now project q s id s' :
  (forall t, q_task q = Some t -> is_Some (task_by_id s t)) -> queue now project q s = inl (id, s') -> safe s s'.
Proof.
  intros Ht. unfold queue. destruct (gate_holds _ _ _ _) as [gated|]; [|done].
  destruct (insert_row _ _ _ _ _) as [id' s1] eqn:E. intros [= <- <-].
  etransitivity; [eapply safe_insert; [|exact Ht|exact E]; by destruct gated, (q_from_window q)|].
  destruct (_ && _); [apply safe_adopt|done].
Qed.

Lemma safe_send now project d s id s' : send now project d s = inl (id, s') -> safe s s'.
Proof.
  unfold send. destruct (negb _); [done|].
  destruct (match d_from d with Some from => _ | None => _ end) as [sender|]; [|done].
  destruct (participant_by_handle _ _ _) as [recipient|]; [|done].
  destruct (match d_task d with Some number => _ | None => _ end) as [task|] eqn:Et; [|done].
  destruct (queue _ _ _ _) as [[id1 s1]|] eqn:E; [|done]. intros [= <- <-].
  etransitivity; [eapply safe_queue; [|exact E]|said]. simpl. intros t ->.
  destruct (d_task d) as [number|]; [|done]. destruct (task_row s project number) as [row|] eqn:Er; [|done].
  injection Et as <-. by eapply task_row_in.
Qed.

Lemma safe_note_each now project notes s s' : note_each now project notes s = inl s' -> safe s s'.
Proof.
  revert s. induction notes as [|[[[from to] body] task] notes IH]; intros s; simpl; [by intros [= ->]|].
  destruct (note _ _ _ _ _ _ _) as [[id s1]|] eqn:E; [|done]. intros H.
  etransitivity; [by eapply safe_send|by apply IH].
Qed.

Lemma safe_release_stranded s : safe s (release_stranded s).
Proof. apply safe_fold. intros s' of_ _. apply safe_release_one. Qed.

Lemma safe_reconcile_released s : safe s (reconcile_released s).
Proof.
  unfold reconcile_released. etransitivity; [|apply safe_fold; intros; said].
  apply safe_fold. intros s' e _. apply safe_reconcile_each.
Qed.

(** ** What is received *)

Lemma safe_update_one id set_ s :
  (carries s -> forall m, m ∈ messages s -> m_id m = id ->
     changed (fun c => ~ pasted s c) anything m (set_ m) /\ tidy s m (set_ m)) -> safe s (update_one id set_ s).
Proof. intros H. apply safe_update. intros C m Hm E%Z.eqb_eq. by apply H. Qed.

Lemma safe_received_as now m receipt s :
  m ∈ messages s -> m_state m = State.Queued -> m_kind m <> Kind.Task -> safe s (received_as now m receipt s).
Proof.
  intros Hm Hq Hk. etransitivity; [|said]. apply safe_update_one. intros C r Hr E.
  rewrite (id_inj s r m) by (done || apply C). tidy_up.
Qed.

Lemma safe_read_role m s : state_at s (m_id m) = Some State.Delivered -> safe s (read_role m s).
Proof.
  intros Hs. unfold read_role. set (s1 := log _ _ _). assert (safe s s1) as H.
  { etransitivity; [|said]. apply safe_update_one. intros C r Hr E.
    pose proof (state_at_row _ _ _ _ (ca_ids _ _ C) Hs Hr E). tidy_up. }
  destruct (current_conversation s1 _); [|done]. destruct (message_row s1 _ ≫= m_role_text); [|done].
  destruct (_ && _); [|done]. etransitivity; [exact H|]. apply safe_same; [intros _; by apply ev_same|done|done].
Qed.

Lemma receives_kind via m : receives via m = true -> m_kind m <> Kind.Task.
Proof. unfold receives. destruct via; intros E; where_; congruence. Qed.

Lemma safe_receive_one now recipient via acc id : safe acc.2 (receive_one now recipient via acc id).2.
Proof.
  destruct acc as [[n tasks] s]. unfold receive_one. simpl. destruct (message_row s id) as [m|] eqn:Em; [|done].
  destruct (negb _); [done|]. pose proof Em as [Hm Hid]%message_row_Some. subst id.
  destruct (_ && in_state [State.Delivered] m) eqn:Ed.
  { simpl. apply safe_read_role. unfold state_at. rewrite Em. simpl. where_. congruence. }
  destruct (in_state [State.Delivering] m) eqn:Eg.
  { simpl. destruct (keeps via m); [|done]. unfold keep_read. apply safe_update. intros C r Hr E. pose proof (carries_apart _ s r C Hr). where_. tidy_up. }
  destruct (negb _ || _) eqn:Eq; [done|]. simpl. apply orb_false_iff in Eq as [Eq Ev%negb_false_iff].
  apply receives_kind in Ev. where_. by apply safe_received_as.
Qed.

Lemma safe_receive_read now recipient which via s : safe s (receive_read now recipient which via s).2.
Proof.
  unfold receive_read. assert (forall acc, safe acc.2 (fold_left (receive_one now recipient via) which acc).2) as H.
  { induction which as [|id which IH]; intros acc; [done|]. simpl. etransitivity; [apply safe_receive_one|apply IH]. }
  specialize (H (0%nat, [], s)). destruct (fold_left _ _ _) as [[n tasks] s1]. simpl in *.
  etransitivity; [exact H|apply safe_reconcile_each].
Qed.

Lemma safe_settle_kept now id s b s' : settle_kept_read now id State.Queued s = inl (b, s') -> safe s s'.
Proof.
  unfold settle_kept_read. destruct (known_message s id) as [m|] eqn:Em; [|done].
  apply known_message_Some, message_row_Some in Em as [Hm _].
  destruct (kept_read m) as [k|]; [|by intros [= _ ->]].
  destruct (_ && _) eqn:Eq; [|by intros [= _ ->]]. intros [= _ <-]. apply andb_true_iff in Eq as [Eq Ev].
  apply receives_kind in Ev. where_. unfold reconcile_of.
  destruct (message_task _ _); [etransitivity; [|apply safe_reconcile]|]; by apply safe_received_as.
Qed.

Lemma safe_settle_answered id s s' : settle_answered id s = inl s' -> safe s s'.
Proof.
  unfold settle_answered. destruct (known_message s id) as [q|] eqn:Eq; [|done].
  apply known_message_Some, message_row_Some in Eq as [Hq <-].
  destruct (negb _) eqn:En; [by intros [= ->]|]. intros [= <-]. destruct (standing s _); [|done]. where_.
  apply safe_update_one. intros C r Hr E. rewrite (id_inj s r q) by (done || apply C). tidy_up.
Qed.

Lemma safe_told_when_confirmed id k s s' :
  state_at s id = Some State.Delivered -> told_when_confirmed id k s = inl s' -> safe s s'.
Proof.
  intros Hs. unfold told_when_confirmed. destruct (known_message s id) as [m|] eqn:Em; [|done].
  apply known_message_Some, message_row_Some in Em as [_ <-].
  destruct (negb _); [by intros [= ->]|]. intros [= <-]. case_decide; [by apply safe_read_role|done].
Qed.

(** ** A delivery *)

Lemma safe_begin id s r : begin_delivery id s = inl r -> safe s r.2.
Proof.
  unfold begin_delivery. destruct (require_message s id _) as [m|] eqn:Em; [|done].
  apply require_message_Some in Em as [[Hm Hid]%message_row_Some Hq].
  intros H. destruct (participant_row _ _); [|done]. case_decide; [done|]. destruct (negb (on_its_own m)) eqn:Eo; [done|].
  destruct (negb (bool_decide _)); [done|]. steps H. simpl.
  apply negb_false_iff, bool_decide_eq_true in Eo. apply safe_ok. intros C. set (s1 := update_one (m_id m) _ s). transitivity s1.
  - apply safe_update_one. intros _ m' Hm' E. rewrite (id_inj s m' m) by (done || congruence || apply C). tidy_up.
  - apply safe_same; [|done|done]. intros [_ Hle _]. apply ev_more. intros c n [= <- _]. split; [done|]. simpl.
    destruct (ca_ids _ _ C) as [_ Hgiven _]. rewrite Forall_forall in Hgiven. specialize (Hgiven m Hm). lia.
Qed.

Lemma safe_withdrawn_late m t s b s' : withdrawn_late m t s = inl (b, s') -> safe s s'.
Proof. unfold withdrawn_late. intros H. steps H; try done. by eapply safe_cancel. Qed.

(** The row that was read is there still, and was not received. *)
Definition known_row (s : store) (m : message) : Prop :=
  exists m', m' ∈ messages s /\ m_id m' = m_id m /\ m_sent m' = m_sent m /\ ~ received m'.

Lemma known_row_goes s s' m : goes quiet s s' -> ids_ok s -> known_row s m -> known_row s' m.
Proof.
  intros H Hok (m0 & Hm & Hid & Hs & Hr). destruct (evolves_row _ _ _ _ (H Hok) Hm) as (m' & Hm' & Hc).
  exists m'. split_and!; [done|by rewrite (ch_id _ _ _ _ Hc)|by rewrite (ch_sent _ _ _ _ Hc)|].
  intros Hr'. by destruct (ch_receives _ _ _ _ Hc Hr') as [|[]].
Qed.

Lemma safe_known_stale m s : known_row s m -> safe s (withdrawn_if_stale m s).2.
Proof.
  intros (m' & Hm & Hid & Hs & Hr). apply safe_stale_row. exists m'. unfold m_kind. by rewrite Hs.
Qed.

Lemma known_pending s m : ids_ok s -> known_row s m -> pending s (m_id m).
Proof. intros Hok (m' & Hm & <- & _ & Hr). by apply pending_row. Qed.

Lemma safe_any_stale rows s : ids_ok s -> Forall (known_row s) rows -> safe s (any_stale rows s).2.
Proof.
  unfold any_stale. generalize false. revert s. induction rows as [|r rows IH]; intros s b Hok Hp; [done|].
  apply Forall_cons in Hp as [Hr Hp]. simpl. pose proof (safe_known_stale r s Hr) as H.
  pose proof (goes_if_stale quiet r s (known_pending _ _ Hok Hr)) as Hg.
  destruct (withdrawn_if_stale r s) as [w s1]. simpl in *. etransitivity; [exact H|].
  apply IH; [by eapply evolves_ids; [apply Hg|]|]. eapply Forall_impl; [exact Hp|]. intros r'. by apply known_row_goes.
Qed.

Lemma carried_known s id : Forall (known_row s) (carried s id).
Proof.
  apply Forall_forall. intros r [E Hr]%list_elem_of_filter. exists r. split_and!; try done. where_. intros [|]; congruence.
Qed.

Lemma safe_admit now id begun_with s h s' : admit_delivery now id begun_with s = inl (h, s') -> safe s s'.
Proof.
  intros H. unfold admit_delivery in H.
  destruct (message_row s id) as [m|] eqn:Em; [|by injection H as _ ->].
  apply message_row_Some in Em as [Hm Hid]. destruct (negb _); [by injection H as _ ->|].
  assert (safe s (withdrawn_if_stale m s).2) as H1.
  { destruct (stale s m) eqn:E; [|unfold withdrawn_if_stale; by rewrite E].
    apply safe_stale_row. exists m. split_and!; try done. by eapply stale_light. }
  destruct (withdrawn_if_stale m s) as [w1 s1]. simpl in H1. etransitivity; [exact H1|]. apply safe_ok. intros C1.
  pose proof (safe_any_stale (carried s1 id) s1 (ca_ids _ _ C1) (carried_known _ _)) as H2.
  destruct (any_stale (carried s1 id) s1) as [w2 s2]. simpl in H2. etransitivity; [exact H2|].
  destruct (_ || _); [by injection H as _ <-|].
  destruct (match message_task s2 m with Some t => _ | None => _ end) as [[late s3]|] eqn:E; [|done].
  assert (safe s2 s3) as H3.
  { destruct (message_task s2 m); [by eapply safe_withdrawn_late|by injection E as _ <-]. }
  etransitivity; [exact H3|]. destruct late; [by injection H as _ <-|].
  destruct (_ || _); [by injection H as _ <-|]. injection H as _ <-. apply safe_update. intros C r Hr _.
  pose proof (carries_apart _ _ r C Hr). tidy_up.
Qed.

Lemma safe_confirm now id receipt s r : confirm_delivery now id receipt s = inl r -> safe s r.2.
Proof.
  unfold confirm_delivery. destruct (require_message s id _) as [m|] eqn:Em; [|done].
  apply require_message_Some in Em as [Hrow Hd]. pose proof Hrow as [Hm Hid]%message_row_Some.
  set (receipt' := js_order _). set (s1 := update_one id _ s).
  set (s2 := update _ _ s1). set (s3 := update _ _ s2). set (s4 := log _ _ s3). intros H.
  assert (safe s s2) as H2.
  { intros C. assert (carries_but (fun c => nothing_else c \/ id = c) s1) as C1.
    { apply carries_settled; [done|]. intros r' Hr' E%Z.eqb_eq. rewrite (id_inj s r' m) by (congruence || apply C).
      pose proof (carries_apart _ _ m C Hm). split; [row_change|]. split; [keep_up|congruence]. }
    apply (carries_update (fun c => nothing_else c \/ id = c)); [done|intros r' Hr' E; where_; split; [row_change|keep_up]|].
    intros r' k _ _ Hc Hq _ _ Hk Hc' Hq'. unfold written in *. destruct Hk as [[Ho Hw]|[[]|Ek]].
    - left. unfold rides_in. by rewrite Ho.
    - exfalso. unfold rides_in, in_state in Hq'. rewrite Hc, Ek, Hq in Hq'. rewrite !bool_decide_eq_true_2 in Hq' by set_solver.
      done. }
  assert (safe s2 s3) as H3.
  { apply safe_update. intros C r' _ [E E']%rode_withdrawn_state. tidy_up. }
  assert (state_at s4 id = Some State.Delivered) as Hst.
  { apply state_at_apart; [done|by intros r' [-> _]%rode_withdrawn_state|].
    apply state_at_apart; [done|intros r' E; where_; congruence|]. apply state_at_update_one; [done..|by eexists]. }
  assert (safe s s4) as H4 by (etransitivity; [exact H2|]; etransitivity; [exact H3|]; said).
  etransitivity; [exact H4|]. clear H2 H3 H4.
  destruct (match kept_read m with Some k => _ | None => _ end) as [s5|] eqn:E5; [|done].
  assert (safe s4 s5) as H5.
  { destruct (kept_read m); [by eapply safe_told_when_confirmed|by injection E5 as <-]. }
  etransitivity; [exact H5|]. destruct (known_message _ id) as [m'|]; [|done]. injection H as <-.
  apply safe_reconcile_of.
Qed.

Lemma safe_confirm_telling now id receipt s r : confirm_delivery_telling now id receipt s = inl r -> safe s r.2.
Proof.
  unfold confirm_delivery_telling. destruct (confirm_delivery _ _ _ _) as [[m s1]|] eqn:E; [|done].
  intros [= <-]. etransitivity; [by eapply safe_confirm|]. simpl.
  destruct (m_role_text m); [|done]. destruct (current_conversation s1 _); [|done].
  apply safe_same; [intros _; by apply ev_same|done|done].
Qed.

Lemma safe_confirm_unproven now id item tell s r : confirm_unproven now id item tell s = inl r -> safe s r.2.
Proof.
  unfold confirm_unproven. destruct (confirm_delivery _ _ _ _) as [[m s1]|] eqn:E; [|done].
  destruct (note_each _ _ _ _) as [s2|] eqn:E2; [|done]. intros [= <-].
  etransitivity; [by eapply safe_confirm|]. simpl. etransitivity; [|by eapply safe_note_each]. said.
Qed.

(** ** A window sent on with what it keeps *)

(** The task message waits on its own. *)
Definition ready (s : store) (id : Z) (task recipient : Z) : Prop :=
  exists k, k ∈ messages s /\ m_id k = id /\ m_kind k = Kind.Task /\ m_task k = Some task /\
    m_recipient k = recipient /\ m_carried_by k = None /\ waiting k.

Lemma ready_update where_ set_ s id task recipient :
  (forall k, k ∈ messages s -> m_id k = id -> m_kind k = Kind.Task -> m_carried_by k = None -> waiting k ->
     where_ k = true -> m_id (set_ k) = m_id k /\ m_sent (set_ k) = m_sent k /\ m_task (set_ k) = m_task k /\
       m_carried_by (set_ k) = None /\ waiting (set_ k)) ->
  ready s id task recipient -> ready (update where_ set_ s) id task recipient.
Proof.
  intros H (k & Hk & Hid & Hkind & Ht & Hto & Ho & Hw). exists (written where_ set_ k).
  split; [apply written_row; by exists k|]. unfold written. destruct (where_ k) eqn:E; [|done].
  destruct (H k Hk Hid Hkind Ho Hw E) as (-> & Hs & -> & ? & ?). unfold m_kind, m_recipient in *. by rewrite Hs.
Qed.

Lemma ready_if_stale m s id task recipient :
  ids_ok s -> m ∈ messages s -> ready s id task recipient -> ready (withdrawn_if_stale m s).2 id task recipient.
Proof.
  intros Hok Hm H. unfold withdrawn_if_stale. destruct (stale s m) eqn:E; [|done]. apply stale_light in E as [Hk _].
  refine (ready_update _ _ _ _ _ _ _ H). intros k Hkm _ Hkk _ _ Ei%Z.eqb_eq. by rewrite (id_inj s k m) in Hkk.
Qed.

Lemma ready_stale_among which s id task recipient :
  ids_ok s -> ready s id task recipient -> ready (withdraw_stale_among which s) id task recipient.
Proof.
  unfold withdraw_stale_among. revert s. induction which as [|i which IH]; intros s Hok H; [done|]. cbn [fold_left].
  destruct (message_row s i) as [m|] eqn:E; [|by apply IH]. apply message_row_Some in E as [Hm _].
  apply IH; [|by apply ready_if_stale]. eapply evolves_ids; [by apply (goes_stale_row quiet)|done].
Qed.

Lemma ready_cancel i reason s s' id task recipient :
  ids_ok s -> i <> id -> cancel_message i reason s = inl s' -> ready s id task recipient -> ready s' id task recipient.
Proof.
  intros Hok Hne. unfold cancel_message. destruct (negb _); [done|]. destruct (message_row s i) as [m|] eqn:Em; [|done].
  destruct (in_state _ m) eqn:Es; [|done]. intros [= <-] H. apply message_row_Some in Em as [Hm <-].
  set (s1 := log _ _ _). assert (goes quiet s s1) as Hg.
  { etransitivity; [|logged]. apply goes_withdraw, pending_row; [done..|]. apply (not_received _ _ Es); set_solver. }
  pose proof (evolves_ids _ _ _ (Hg Hok) Hok) as Hok1.
  assert (ready s1 id task recipient) as H1.
  { refine (ready_update _ _ _ _ _ _ _ H). intros k _ E _ _ _ E'%Z.eqb_eq. congruence. }
  destruct (message_task _ _); [|exact H1]. unfold release_carried. apply ready_stale_among.
  - eapply evolves_ids; [|exact Hok1]. apply (ev_update quiet). intros r _ E. where_; row_change.
  - refine (ready_update _ _ _ _ _ _ _ H1). intros k _ _ _ Ho _ E. by rewrite Ho, andb_false_r in E.
Qed.

Lemma ready_cancel_each which reason s s' id task recipient :
  ids_ok s -> id ∉ which -> cancel_each which reason s = inl s' -> ready s id task recipient -> ready s' id task recipient.
Proof.
  revert s. induction which as [|i which IH]; intros s Hok Hi; simpl; [by intros [= ->]|].
  apply not_elem_of_cons in Hi as [Hne Hi].
  destruct (cancel_message i reason s) as [s1|] eqn:E; [|done]. intros H Hr. apply (IH s1); try done.
  - eapply evolves_ids; [|exact Hok]. by apply (goes_cancel quiet _ _ _ _ E).
  - by eapply ready_cancel.
Qed.

Lemma carries_more P s : carries s -> carries_but P s.
Proof.
  intros [Hi Ht Hr]. constructor; [done|done|]. intros r c Hrm Hc. destruct (Hr r c Hrm Hc) as (k & Hk & Hid & []).
  exists k. split_and!; try done. constructor; try done. intros Hq. destruct (rw_waits0 Hq) as [?|[]]. by left.
Qed.

Lemma ids_row s where_ m : ids_ok s -> m ∈ messages s -> m_id m ∈ ids s where_ -> where_ m = true.
Proof.
  intros Hok Hm (m' & E & [Hw Hm']%list_elem_of_filter)%list_elem_of_fmap. by rewrite (id_inj s m m').
Qed.

Lemma in_ids s (where_ : message -> bool) m : m ∈ messages s -> where_ m = true -> m_id m ∈ ids s where_.
Proof. intros Hm Hw. apply list_elem_of_fmap. exists m. split; [done|]. by apply list_elem_of_filter. Qed.

(** A task message of the window's that is not on its way: what waits in it is to go with the new one. *)
Definition left_behind (s : store) (task recipient c : Z) : Prop :=
  exists k, k ∈ messages s /\ m_id k = c /\ m_kind k = Kind.Task /\ m_task k = Some task /\
    m_recipient k = recipient /\ m_state k <> State.Delivering.

Lemma carries_requeued t recipient s :
  carries s -> carries_but (left_behind s (t_id t) recipient) (requeue_unreceived_reads t recipient s).2.
Proof.
  intros C. unfold requeue_unreceived_reads. destruct (t_paused_at t) as [at_|]; [|by apply carries_more]. simpl.
  set (unread := ids s _).
  assert (forall m, m ∈ messages s -> m_id m ∈ unread -> m_task m = Some (t_id t) /\ m_recipient m = recipient /\
    m_kind m = Kind.Answer /\ m_state m = State.Read) as Hun.
  { intros m Hm E. apply ids_row in E; [|apply C|done]. where_. done. }
  apply (carries_written nothing_else); [done| |].
  - intros m Hm E%bool_decide_eq_true. destruct (Hun m Hm E) as (Ht & Hr & Hk & Hst). split; [row_change|fits].
  - intros r k Hr Hk Hc Hw Hc' Hq'. pose proof (rw_kind _ _ _ _ Hw) as Hkk.
    assert (bool_decide (m_id k ∈ unread) = false) as Ek.
    { apply bool_decide_eq_false. intros E. destruct (Hun k Hk E) as (_ & _ & E' & _). congruence. }
    unfold written in *. rewrite Ek. destruct (bool_decide (m_id r ∈ unread)) eqn:Er.
    + apply bool_decide_eq_true in Er. destruct (Hun r Hr Er) as (Ht & Hto & _ & _).
      destruct (decide (m_state k = State.Delivering)) as [E|E].
      * left. split; [|by right; right]. destruct (m_carried_by k) eqn:Ec; [|done].
        exfalso. destruct (carries_apart nothing_else s k C Hk); congruence.
      * right. exists k. pose proof (rw_task _ _ _ _ Hw). pose proof (rw_to _ _ _ _ Hw). split_and!; congruence.
    + destruct (rw_waits _ _ _ _ Hw Hq') as [?|[]]. by left.
Qed.

(** What a new carrier takes with it leaves nothing behind. *)
Lemma carries_taken s0 s t recipient carrier :
  carries_but (left_behind s0 t recipient) s -> ready s carrier t recipient -> ~ pasted s carrier ->
  evolves (returning an_answer) s0 s ->
  let pasting := ids s (in_state [State.Delivering]) in
  let taken := ids s (fun m => kept t recipient m && negb (m_id m =? carrier) && negb (behind_held_words s m) &&
    match m_carried_by m with
    | None => true
    | Some c => bool_decide (is_Some (message_row s c)) && negb (bool_decide (c ∈ pasting))
    end) in
  carries (update (fun m => bool_decide (m_id m ∈ taken)) (set_carried (Some carrier)) s).
Proof.
  intros C (k & Hk & <- & Hkind & Ht & Hto & Ho & Hwait) Hnp Hev pasting taken.
  assert (forall r c, r ∈ messages s -> c ∈ messages s -> rides_but (left_behind s0 t recipient) s r c ->
    m_carried_by r = Some (m_id c) -> m_state r = State.Queued -> m_task c = Some t -> m_recipient c = recipient ->
    m_state c <> State.Delivering -> bool_decide (m_id r ∈ taken) = true) as Hin.
  { intros r c Hr Hc [] Hrc Hq Htc Htoc Hnd. apply bool_decide_eq_true, in_ids; [done|]. unfold kept, about, for_.
    assert (m_id r =? m_id k = false) as ->.
    { apply Z.eqb_neq. intros E. rewrite (id_inj s r k) in Hrc by (done || apply C). congruence. }
    rewrite Hrc, rw_front0, rw_urgent0, bool_decide_eq_true_2 by congruence. simpl.
    rewrite (proj2 (Z.eqb_eq _ _)) by congruence. rewrite (bool_decide_eq_true_2 (_ ∈ kept_kinds)) by done. simpl.
    rewrite (proj2 (in_state_spec _ _)) by (rewrite Hq; left). simpl.
    rewrite message_row_at by (done || apply C). rewrite bool_decide_eq_true_2 by by eexists. simpl.
    apply negb_true_iff, bool_decide_eq_false. intros E%ids_row; [|apply C|done]. where_. congruence. }
  assert (forall m, m ∈ messages s -> bool_decide (m_id m ∈ taken) = true -> kept t recipient m = true /\ m_id m <> m_id k /\
    behind_held_words s m = false /\ match m_carried_by m with Some c => c ∉ pasting | None => True end) as Hout.
  { intros m Hm E%bool_decide_eq_true%ids_row; [|apply C|done].
    apply andb_true_iff in E as [[[Hkept Hne%negb_true_iff%Z.eqb_neq]%andb_true_iff Hb%negb_true_iff]%andb_true_iff Hc].
    split_and!; try done. destruct (m_carried_by m); [|done]. by apply andb_true_iff in Hc as [_ Hc%negb_true_iff%bool_decide_eq_false]. }
  apply (carries_carried (left_behind s0 t recipient)); [done| |].
  - constructor; try done.
    + intros m Hm (Hkept & Hne & Hb & _)%Hout; [|done]. unfold kept in Hkept. where_. split_and!; try congruence; by left.
    + intros m r Hm (Hkept & Hne & Hb & _)%Hout Hr Hc Hq; [|done]. unfold kept in Hkept. where_.
      destruct (ca_rides _ _ C r _ Hr Hc) as (c & Hcm & Eid & Hw). apply (id_inj s c m) in Eid as ->; [|apply C|done..].
      apply (Hin r m); try done; congruence.
  - intros r c Hr Hc Hw Hrc Hq (c0 & Hc0 & Eid & Hkc & Htc & Htoc & Hnd).
    destruct (evolves_row _ _ _ _ Hev Hc0) as (c' & Hc' & Hch).
    assert (c' = c) as -> by (apply (id_inj s); try done; [apply C|]; by rewrite (ch_id _ _ _ _ Hch)).
    apply (Hin r c); try done.
    + destruct (ch_task _ _ _ _ Hch) as [[? _]|]; congruence.
    + unfold m_recipient in *. by rewrite (ch_sent _ _ _ _ Hch).
    + intros E. by destruct (ch_delivering _ _ _ _ Hch E) as [|[]].
Qed.

Lemma safe_fold_in t recipient carrier s s' :
  ready s carrier (t_id t) recipient -> ~ pasted s carrier -> fold t recipient carrier s = inl s' -> safe s s'.
Proof.
  intros Hready Hnp. unfold fold. intros H C. pose proof (ca_ids _ _ C) as Hok.
  pose proof (goes_requeue t recipient s) as Hg. pose proof (carries_requeued t recipient s C) as C1.
  assert (ready (requeue_unreceived_reads t recipient s).2 carrier (t_id t) recipient) as Hready1.
  { unfold requeue_unreceived_reads. destruct (t_paused_at t); [|done]. refine (ready_update _ _ _ _ _ _ _ Hready).
    intros k Hk _ Hkk _ _ E%bool_decide_eq_true%ids_row; [|done..]. where_. congruence. }
  destruct (requeue_unreceived_reads t recipient s) as [requeued s1]. simpl in *.
  set (superseded := ids s1 _) in *. destruct (cancel_each _ _ _) as [s2|] eqn:E; [|done]. injection H as <-.
  assert (carrier ∉ superseded) as Hns.
  { intros (m & -> & [Hw _]%list_elem_of_filter)%list_elem_of_fmap. rewrite Z.eqb_refl in Hw. simpl in Hw. by rewrite andb_false_r in Hw. }
  pose proof (evolves_ids _ _ _ (Hg Hok) Hok) as Hok1. pose proof (ready_cancel_each _ _ _ _ _ _ _ Hok1 Hns E Hready1) as Hready2.
  pose proof (safe_cancel_each _ _ _ _ _ E C1) as C2. apply (goes_cancel_each (returning an_answer)) in E.
  pose proof (goes_trans _ _ _ _ Hg E) as H2. assert (carrier <= sequence s) as Hle.
  { destruct Hready as (k & Hk & <- & _). destruct Hok as [_ Hle _]. by eapply Forall_forall in Hle. }
  assert (~ pasted s2 carrier) as Hnp2 by by apply (goes_not_pasted (returning an_answer) s); [exact H2|done|done|intros []|].
  pose proof (carries_taken s s2 (t_id t) recipient carrier C2 Hready2 Hnp2 (H2 Hok)) as C3. cbv zeta in C3.
  destruct (_ && _); [exact C3|]. apply carries_log; [discriminate|exact C3].
Qed.

Lemma safe_hand_on now t recipient from words s s' :
  is_Some (task_by_id s (t_id t)) -> hand_on now t recipient from words s = inl s' -> safe s s'.
Proof.
  intros Ht. unfold hand_on. destruct (queue _ _ _ _) as [[id s1]|] eqn:E; [|done]. intros H.
  apply safe_ok. intros C. etransitivity; [eapply safe_queue; [|exact E]; by intros ? [= <-]|].
  assert (ready s1 id (t_id t) recipient /\ events s1 = events s /\ id = sequence s + 1) as (Hr & Hev & Hid).
  { revert E. clear. unfold queue. simpl. destruct (gate_holds _ _ _ _) as [[]|]; [| |done]; simpl;
      rewrite ?andb_false_r; simpl; intros [= <- <-]; (split; [|done]); eexists;
      (split; [apply elem_of_app; right; by apply list_elem_of_singleton|]); unfold waiting; simpl; auto 10. }
  apply (safe_fold_in t recipient id); [done| |exact H]. intros (k & _ & _ & [n Hin]%begun_spec).
  rewrite Hev in Hin. destruct (ca_ids _ _ C) as [_ _ Hb]. apply Hb in Hin. lia.
Qed.

(** ** A delivery tried again *)

Lemma safe_say_each_again now gone s s' : say_each_again now gone s = inl s' -> safe s s'.
Proof.
  revert s. induction gone as [|[t why] gone IH]; intros s; simpl; [by intros [= ->]|].
  destruct (warns why); [|by apply IH]. destruct (say_again _ _ _ _ _) as [s1|] eqn:E; [|done]. intros H.
  etransitivity; [|by apply IH]. unfold say_again in E. destruct (participant_row _ _); [|done].
  destruct (send _ _ _ _) as [[i s2]|] eqn:E2; [|done]. injection E as <-. by eapply safe_send.
Qed.

Lemma safe_set_paused id project stay s s' x :
  sent_at s id = Some x -> s_kind x = Kind.Note -> s_sender x = None -> state_at s id = Some State.Delivering ->
  set_paused id project stay s = inl s' -> safe s s'.
Proof.
  intros Hx Hk Hs Hst. unfold set_paused.
  destruct (match stay with [] => _ | _ => _ end) as [task|] eqn:Et; [|done]. intros [= <-].
  apply safe_update_one. intros C r Hr E. pose proof (state_at_row _ _ _ _ (ca_ids _ _ C) Hst Hr E) as Hd.
  assert (m_carried_by r = None) as Hc.
  { destruct (m_carried_by r) eqn:Ec; [|done]. destruct (carries_apart nothing_else s r C Hr); congruence. }
  assert (m_kind r = Kind.Note /\ m_sender r = None) as [Hkr Hsr].
  { unfold sent_at in Hx. rewrite <- E, message_row_at in Hx by (done || apply C). injection Hx as Hx.
    unfold m_kind, m_sender. by rewrite Hx. }
  split; [row_change|]. split; [|congruence]. split; [|simpl; congruence].
  constructor; simpl; [right|by left|congruence]. split_and!; [done|congruence|]. intros t ->.
  destruct stay as [|one [|]]; [done| |done]. destruct (task_row _ _ _) as [row|] eqn:Er; [|done].
  injection Et as <-. by eapply task_row_in.
Qed.

(** The row is on its way still, or it is withdrawn, a note. *)
Lemma safe_withdrawn_on_its_way now m s b s' :
  m ∈ messages s -> m_state m = State.Delivering -> withdrawn_on_its_way now m s = inl (b, s') -> safe s s'.
Proof.
  intros Hm Hd H. apply safe_ok. intros C. pose proof (ca_ids _ _ C) as Hok.
  assert (state_at s (m_id m) = Some State.Delivering) as Hst by (unfold state_at; rewrite message_row_at by done; by rewrite <- Hd).
  revert H. unfold withdrawn_on_its_way. destruct (negb _) eqn:Ek; [by intros [= _ <-]|].
  destruct (read (m_body m)) as [paused|]; [|by intros [= _ <-]].
  destruct (moved_apart _ _ _) as [[stay gone]|]; [|done].
  destruct (bool_decide (gone = [])); [by intros [= _ <-]|].
  destruct (say_each_again _ _ _) as [s1|] eqn:E1; [|done]. pose proof (safe_say_each_again _ _ _ _ E1) as Hs1.
  apply (say_each_again_keeps quiet) in E1 as [Hg Hs]. apply Hs in Hst.
  assert (sent_at s1 (m_id m) = Some (m_sent m)) as Hsent.
  { eapply goes_sent; [exact Hg|done|]. unfold sent_at. by rewrite message_row_at. }
  apply negb_false_iff, andb_true_iff in Ek as [Ek%bool_decide_eq_true Esn%bool_decide_eq_true].
  destruct (bool_decide (stay = [])); simpl.
  - intros [= _ <-]. etransitivity; [exact Hs1|]. etransitivity; [|said]. apply safe_ok. intros C1.
    apply safe_withdraw. intros r Hr E. pose proof (state_at_row _ _ _ _ (ca_ids _ _ C1) Hst Hr E) as Hdr. split.
    + unfold sent_at in Hsent. rewrite <- E, message_row_at in Hsent by (done || apply C1). injection Hsent as Hsent.
      unfold m_kind in *. rewrite Hsent. congruence.
    + intros [?|?]; congruence.
  - destruct (set_paused _ _ _ _) as [s2|] eqn:E2; [|done]. intros [= _ <-]. etransitivity; [exact Hs1|].
    by eapply safe_set_paused.
Qed.

Lemma safe_withdrawn_with_task m s b s' : withdrawn_with_task m s = inl (b, s') -> safe s s'.
Proof.
  unfold withdrawn_with_task. destruct (message_task s m) as [t|]; [|by intros [= _ <-]].
  destruct (withdrawn_late m t s) as [[late s1]|] eqn:E; [|done]. apply safe_withdrawn_late in E.
  destruct late; [by intros [= _ <-]|]. destruct (_ && _); [|by intros [= _ <-]].
  destruct (cancel_message _ _ _) as [s2|] eqn:E2; [|done]. intros [= _ <-].
  etransitivity; [exact E|by eapply safe_cancel].
Qed.

(** What is written of a row that goes back to its window's queue. *)
Lemma safe_requeue_one id set_ s :
  state_at s id = Some State.Delivering ->
  (forall m, m_id (set_ m) = m_id m /\ m_sent (set_ m) = m_sent m /\ m_task (set_ m) = m_task m /\
     m_state (set_ m) = State.Queued /\ m_carried_by (set_ m) = m_carried_by m) ->
  safe s (update_one id set_ s).
Proof.
  intros Hst Hset. apply safe_update_one. intros C r Hr E. pose proof (state_at_row _ _ _ _ (ca_ids _ _ C) Hst Hr E) as Hd.
  assert (m_carried_by r = None) as Hc.
  { destruct (m_carried_by r) eqn:Ec; [|done]. destruct (carries_apart nothing_else s r C Hr); congruence. }
  destruct (Hset r) as (Hi & Hs & Ht & Hq & Hcr). unfold waiting.
  split; [constructor; unfold over, received, idle in *; intuition congruence|].
  constructor; [constructor; [constructor|]|]; unfold waiting in *; rewrite ?Hi, ?Ht, ?Hq, ?Hcr; intuition congruence.
Qed.

Lemma safe_retry now id reason refund logged s r : retry_delivery now id reason refund logged s = inl r -> safe s r.2.
Proof.
  unfold retry_delivery. destruct (negb _); [done|].
  destruct (require_message s id _) as [m|] eqn:Em; [|done]. apply require_message_Some in Em as [Hrow Hd].
  pose proof Hrow as [Hm Hid]%message_row_Some. intros H. apply safe_ok. intros C. pose proof (ca_ids _ _ C) as Hok.
  destruct (withdrawn_with_task m s) as [[gone s1]|] eqn:E1; [|done].
  pose proof (safe_withdrawn_with_task _ _ _ _ E1) as H1.
  apply (withdrawn_with_task_goes receiving) in E1 as [_ Hs1]. etransitivity; [exact H1|]. destruct gone.
  { destruct (known_message s1 id); [|done]. by injection H as <-. }
  rewrite (Hs1 eq_refl) in *. clear Hs1 H1 s1.
  destruct (withdrawn_on_its_way now m s) as [[gone s1]|] eqn:E1; [|done].
  etransitivity; [by eapply safe_withdrawn_on_its_way|].
  apply (withdrawn_on_its_way_goes receiving) in E1 as [H1 Hs1]; [|done..].
  pose proof (evolves_ids _ _ _ (H1 Hok) Hok) as Hok1. rewrite Hid in Hs1. destruct gone.
  { destruct (known_message s1 id); [|done]. by injection H as <-. }
  specialize (Hs1 eq_refl). assert (safe s1 (withdrawn_if_stale m s1).2) as H2.
  { destruct (evolves_row _ _ _ _ (H1 Hok) Hm) as (m' & Hm' & Hc). apply safe_stale_row. exists m'.
    pose proof (ch_id _ _ _ _ Hc) as Ei. rewrite Hid in Ei. pose proof (state_at_row _ _ _ _ Hok1 Hs1 Hm' Ei).
    unfold m_kind. rewrite (ch_sent _ _ _ _ Hc). split_and!; [done|congruence|done|]. intros [?|?]; congruence. }
  pose proof (withdrawn_if_stale_false m s1) as H2'.
  destruct (withdrawn_if_stale m s1) as [gone s2]. simpl in H2, H2'. etransitivity; [exact H2|]. destruct gone.
  { destruct (known_message s2 id); [|done]. by injection H as <-. }
  rewrite (H2' eq_refl) in *. clear H2 H2' s2. set (s3 := withdraw_stale_among _ s1) in H.
  assert (state_at s3 id = Some State.Delivering) as Hs3.
  { unfold s3. rewrite stale_among_state; [done|]. intros (c & Ec & [Hc Hcm]%list_elem_of_filter)%list_elem_of_fmap.
    where_. pose proof (state_at_row _ _ _ _ Hok1 Hs1 Hcm (eq_sym Ec)). congruence. }
  etransitivity; [apply (safe_stale_among _ (m_id <$> carried s1 id))|]. fold s3.
  set (s4 := update_one id _ s3) in H. assert (safe s3 s4) as H4 by by apply safe_requeue_one.
  etransitivity; [exact H4|].
  etransitivity; [apply (safe_update _ (fun r => rides_in id r && in_state [State.Queued] r) (set_handed None))|].
  { intros _ r' _ E. where_. tidy_up. }
  set (s5 := update _ _ s4) in H |- *. set (s6 := if logged then _ else s5) in H.
  etransitivity; [apply (safe_trans _ s5 s6); [|done]; unfold s6; destruct logged; [said|done]|].
  etransitivity; [apply (safe_update _ (fun r => (m_id r =? id) && let_go_of s6 r) (set_carried None))|].
  { intros _ r' _ _. tidy_up. }
  set (s7 := update _ _ s6) in H |- *.
  destruct (settle_kept_read now id State.Queued s7) as [[read_ s8]|] eqn:E8; [|done].
  etransitivity; [by eapply safe_settle_kept|]. destruct read_.
  { destruct (known_message s8 id); [|done]. by injection H as <-. }
  destruct (settle_answered id (adopt id s8)) as [s9|] eqn:E9; [|done].
  etransitivity; [apply (safe_adopt id)|]. etransitivity; [by eapply safe_settle_answered|].
  destruct (known_message s9 id); [|done]. by injection H as <-.
Qed.

(** ** A delivery taken back *)

(** What rode in a message that waits again waits with it. *)
Lemma safe_ride_again id s :
  (forall k, k ∈ messages s -> m_id k = id -> m_state k = State.Queued /\ m_carried_by k = None) ->
  safe s (update (fun r => rides_in id r && in_state [State.Delivered] r) kept_again s).
Proof.
  intros Hk C. apply (carries_written nothing_else); [done| |].
  - intros r Hr E. where_. split; [row_change|fits].
  - intros r k Hr Hkm Hc Hw Hc' Hq'. left. unfold written in *.
    destruct (rides_in id k && _) eqn:Ek.
    { exfalso. apply andb_true_iff in Ek as [Ek%bool_decide_eq_true _].
      destruct (ca_rides _ _ C k id Hkm Ek) as (k0 & _ & _ & Hw0).
      destruct (rides_in id r && _) eqn:Er.
      - apply andb_true_iff in Er as [Er%bool_decide_eq_true _]. rewrite Hc in Er. injection Er as Er.
        destruct (Hk k Hkm Er). congruence.
      - destruct (rw_waits _ _ _ _ Hw Hq') as [[? _]|[]]. congruence. }
    destruct (rides_in id r && _) eqn:Er.
    + apply andb_true_iff in Er as [Er%bool_decide_eq_true _]. rewrite Hc in Er. injection Er as Er.
      destruct (Hk k Hkm Er) as [? ?]. split; [done|by left].
    + by destruct (rw_waits _ _ _ _ Hw Hq') as [|[]].
Qed.

Lemma safe_take_back id reason s r : take_back id reason s = inl r -> safe s r.2.
Proof.
  unfold take_back. destruct (negb _); [done|].
  destruct (require_message s id _) as [m|] eqn:Em; [|done]. apply require_message_Some in Em as [Hrow Hd].
  pose proof Hrow as [Hm Hid]%message_row_Some. destruct (negb _) eqn:Eo; [done|].
  apply negb_false_iff, andb_true_iff in Eo as [_ Eo%bool_decide_eq_true].
  set (s1 := update_one id _ s). set (s2 := update _ _ s1). intros H. apply safe_ok. intros C.
  assert (safe s s1) as H1.
  { apply safe_update_one. intros _ r' Hr' E. rewrite (id_inj s r' m) by (done || congruence || apply C). tidy_up. }
  assert (forall k, k ∈ messages s2 -> m_id k = id -> m_state k = State.Queued /\ m_carried_by k = None) as Hk.
  { intros k (k1 & (k0 & Hk0 & ->)%written_row & ->)%written_row E. unfold written in *.
    destruct (m_id k0 =? id) eqn:Ei; simpl in *.
    - apply Z.eqb_eq in Ei. rewrite (id_inj s k0 m) by (done || congruence || apply C). unfold rides_in. simpl. by rewrite Eo.
    - exfalso. destruct (_ && _) in E; simpl in E; by rewrite E, Z.eqb_refl in Ei. }
  etransitivity; [exact H1|].
  etransitivity; [apply (safe_update _ (fun r => rides_in id r && in_state [State.Delivered] r && arrived_withdrawn r)
                           (fun r => set_receipt None None (set_state State.Cancelled r)))|].
  { intros _ r' _ E. where_. tidy_up. }
  fold s2. etransitivity; [by apply safe_ride_again|]. destruct (known_message _ id); [|done]. injection H as <-.
  etransitivity; [|apply safe_adopt]. etransitivity; [|apply safe_stale_among]. said.
Qed.

(** ** The human's own, and doors *)

Lemma safe_mark_read now id s r :
  (forall m, m ∈ messages s -> m_id m = id -> m_kind m <> Kind.Task) -> mark_read now id s = inl r -> safe s r.2.
Proof.
  intros Hk. unfold mark_read. destruct (known_message s id) as [m|]; [|done]. destruct (participant_row _ _); [|done].
  destruct (negb _); [done|]. destruct (in_state _ m); [by intros [= <-]|].
  destruct (require_message s id _) as [m'|] eqn:Em; [|done].
  apply require_message_Some in Em as [[Hm Hid]%message_row_Some Hq]. intros H.
  etransitivity; [apply (safe_update_one id (fun r => set_receipt (Some now) (m_receipt r) (set_state State.Read r)))|].
  { intros C r' Hr' E. specialize (Hk _ Hr' E). assert (r' = m') as -> by (apply (id_inj s); [apply C|done|done|congruence]). tidy_up. }
  destruct (known_message _ id); [|done]. injection H as <-. said.
Qed.

Lemma safe_approve id by_ s r : approve_message id by_ s = inl r -> safe s r.2.
Proof.
  unfold approve_message. destruct (require_message s id _) as [m|] eqn:Em; [|done].
  apply require_message_Some in Em as [[Hm Hid]%message_row_Some Hq].
  destruct (participant_by_handle _ _ _); [|done]. intros H.
  etransitivity; [apply (safe_update_one id (set_state State.Queued))|].
  { intros C r' Hr' E. pose proof (carries_apart _ s r' C Hr').
    assert (r' = m) as -> by (apply (id_inj s); [apply C|done|done|congruence]). tidy_up. }
  destruct (known_message _ id); [|done]. injection H as <-. etransitivity; [|apply safe_adopt]. said.
Qed.

Lemma safe_work_while project number s s' : work_while_resumed project number s = inl s' -> safe s s'.
Proof. unfold work_while_resumed. intros H. steps H. etransitivity; [apply safe_move|apply safe_reconcile]. Qed.

Lemma safe_rest_while project number why s s' : rest_while_resumed project number why s = inl s' -> safe s s'.
Proof. unfold rest_while_resumed. intros H. steps H. apply safe_move. Qed.

Lemma safe_ask now project a s id s' : ask now project a s = inl (id, s') -> safe s s'.
Proof.
  unfold ask. intros H. steps H. etransitivity; [by eapply safe_send|].
  lazymatch goal with |- safe _ match ?o with _ => _ end => destruct o; [apply safe_reconcile|done] end.
Qed.

Lemma safe_answer number_text to_lowercase now question from body choices s r :
  answer number_text to_lowercase now question from body choices s = inl r -> safe s r.2.
Proof.
  intros (q & a & id & s1 & s2 & s3 & Hq & <- & Hk & _ & Hqu & _ & Ht & H2 & H3 & Hr)%answer_queues.
  apply safe_ok. intros C. pose proof (ca_ids _ _ C) as Hok.
  assert (safe s (log (m_project q) (MessageSent id) s1)) as H1.
  { etransitivity; [eapply safe_queue; [|exact Hqu]|said]. rewrite Ht. intros t. by apply (ca_tasks _ _ C). }
  etransitivity; [exact H1|]. etransitivity; [|etransitivity; [by eapply safe_settle_answered|]].
  - destruct H2 as [->|(Hst & why & ->)]; [done|]. apply safe_withdraw. eapply light_goes; [|exact Hok|].
    + etransitivity; [by eapply goes_queue|]. logged.
    + apply light_row; [done..|congruence|]. intros [?|?]; destruct Hst; congruence.
  - destruct Hr as [->|(t & _ & ->)]; [done|apply safe_reconcile].
Qed.

Lemma safe_claim now question asker s c s' : claim_answer now question asker s = inl (c, s') -> safe s s'.
Proof.
  unfold claim_answer. intros H. steps H; try done. etransitivity; [|said].
  apply safe_update_one. intros C r Hr _. pose proof (carries_apart _ s r C Hr). tidy_up.
Qed.

Lemma safe_settle_claim now id recipient got s s' : settle_claim now id recipient got s = inl s' -> safe s s'.
Proof.
  unfold settle_claim. destruct (message_row s id) as [a|] eqn:Ea; [|done].
  apply message_row_Some in Ea as [Ha _]. destruct (negb (is_kind Kind.Answer a && _)) eqn:Ek; [done|].
  destruct (negb got).
  { intros [= <-]. apply safe_update. intros C r Hr _. pose proof (carries_apart _ s r C Hr). tidy_up. }
  destruct (in_state _ a); [by intros [= <-]|]. intros H. steps H. where_.
  unfold reconcile_of. destruct (message_task _ _); [etransitivity; [|apply safe_reconcile]|];
    apply safe_received_as; congruence.
Qed.

Lemma safe_release_claims participant s : safe s (release_claims participant s).
Proof.
  unfold release_claims. set (claimed := filter _ _). clearbody claimed.
  assert (forall acc, safe acc.2 (fold_left release_one claimed acc).2) as H.
  { induction claimed as [|a claimed IH]; intros [tasks s']; [done|]. simpl. etransitivity; [|apply IH].
    simpl. etransitivity; [|said]. apply safe_update_one. intros C r Hr _. pose proof (carries_apart _ s' r C Hr). tidy_up. }
  specialize (H ([], s)). destruct (fold_left _ _ _) as [tasks s1]. simpl in *.
  etransitivity; [exact H|apply safe_reconcile_each].
Qed.

(** ** Every run *)

(** What the rest of the ledger keeps to: the tasks it names are there, and stay; and no task message is
    the human's to read. *)
Definition as_here (s : store) (o : op) : Prop :=
  match o with
  | Queue _ q => forall t, q_task q = Some t -> is_Some (task_by_id s t)
  | HandOn t _ _ _ => is_Some (task_by_id s (t_id t))
  | MarkRead id => forall m, m ∈ messages s -> m_id m = id -> m_kind m <> Kind.Task
  | Rest tasks_ _ _ _ _ => forall t, is_Some (task_by_id s t) -> is_Some (find (fun r => t_id r =? t) tasks_)
  | _ => True
  end.

Section Runs.
Context (number_text : Z -> text) (to_lowercase : text -> text).

Fixpoint all_here (l : list (Z * op)) (s : store) : Prop :=
  match l with
  | [] => True
  | (now, o) :: l => as_here s o /\ all_here l (step number_text to_lowercase now o s)
  end.

Lemma safe_one_step now o s : as_here s o -> safe s (step number_text to_lowercase now o s).
Proof.
  unfold step. destruct (run number_text to_lowercase now o s) as [s'|] eqn:E; [|done].
  destruct o; simpl in *; intros Hh; try (apply kept_store in E as [? E]); try (injection E as <-);
    first
    [ by eapply safe_queue | by eapply safe_send | by eapply safe_hand_on | by eapply safe_ask
    | by eapply (safe_answer _ _ _ _ _ _ _ _ (_, _)) | by eapply (safe_begin _ _ (_, _)) | by eapply safe_admit
    | by eapply (safe_confirm _ _ _ _ (_, _)) | by eapply (safe_confirm_telling _ _ _ _ (_, _))
    | by eapply (safe_confirm_unproven _ _ _ _ _ (_, _)) | by eapply (safe_retry _ _ _ _ _ _ (_, _))
    | by eapply (safe_take_back _ _ _ (_, _)) | apply safe_receive_read | by eapply (safe_mark_read _ _ _ (_, _))
    | by eapply (safe_approve _ _ _ (_, _)) | by eapply safe_claim | by eapply safe_settle_claim
    | apply safe_release_claims | by eapply safe_cancel | by eapply safe_work_while | by eapply safe_rest_while
    | apply safe_release_stranded | apply safe_reconcile_released | apply safe_withdraw_gated
    | apply safe_withdraw_result | apply safe_withdraw_open_questions | apply safe_drop_queued | idtac ].
  apply safe_same; [|done|done]. intros _. constructor; simpl; [| |lia].
  - exists (messages s), []. rewrite app_nil_r. split_and!; [done| |constructor|constructor].
    by apply Forall_Forall2_diag, Forall_true.
  - eexists. split; [done|]. apply Forall_forall. intros [p e] [Hp _]%list_elem_of_filter c n E'. simpl in E'. by subst e.
Qed.

Lemma safe_runs l s : all_here l s -> safe s (runs number_text to_lowercase l s).
Proof.
  revert s. induction l as [|[now o] l IH]; intros s; [done|]. simpl. intros [Ho Hl].
  etransitivity; [by apply safe_one_step|by apply IH].
Qed.
End Runs.

Lemma carries_opened ts ps pr cs : carries (opened ts ps pr cs).
Proof.
  constructor; [constructor; [constructor|constructor|]| |]; simpl.
  - intros p c n H%not_elem_of_nil. done.
  - intros m t H%not_elem_of_nil. done.
  - intros r c H%not_elem_of_nil. done.
Qed.

(** C14: in a ledger only these operations wrote, whose tasks stay, nothing a window is to be told is
    lost in another message's paste: each row that waits waits on its own, or in a task message of the
    same task and window that is on its own and waits or is on its way; so what lets go of the stranded
    finds nothing. *)
Theorem nothing_is_stranded number_text to_lowercase l ts ps pr cs :
  all_here number_text to_lowercase l (opened ts ps pr cs) ->
  let s := runs number_text to_lowercase l (opened ts ps pr cs) in
  (forall r, r ∈ messages s -> m_state r = State.Queued -> m_carried_by r = None \/
     exists k, k ∈ messages s /\ m_carried_by r = Some (m_id k) /\ m_kind k = Kind.Task /\ m_task k = m_task r /\
       m_recipient k = m_recipient r /\ m_carried_by k = None /\ waiting k) /\
  release_stranded s = s.
Proof.
  intros Hl s. assert (carries s) as C by (apply safe_runs; [done|apply carries_opened]). clearbody s. clear Hl.
  assert (forall r, r ∈ messages s -> m_state r = State.Queued -> m_carried_by r = None \/
     exists k, k ∈ messages s /\ m_carried_by r = Some (m_id k) /\ m_kind k = Kind.Task /\ m_task k = m_task r /\
       m_recipient k = m_recipient r /\ m_carried_by k = None /\ waiting k) as H.
  { intros r Hr Hq. destruct (m_carried_by r) as [c|] eqn:Hc; [right|by left].
    destruct (ca_rides _ _ C r c Hr Hc) as (k & Hk & <- & []). destruct (rw_waits0 Hq) as [[Ho Hw]|[]]. by exists k. }
  split; [exact H|]. unfold release_stranded. enough (stranding s = []) as -> by done.
  unfold stranding. set (settled_ := filter _ (TaskPlan.sorted _)). enough (settled_ = []) as -> by done.
  destruct settled_ as [|c cs'] eqn:E; [done|]. exfalso. assert (c ∈ settled_) as Hc by (rewrite E; left).
  apply list_elem_of_filter in Hc as [Hs (r & Hr & Hrc)%elem_of_sorted%list_elem_of_omap].
  apply list_elem_of_filter in Hr as [Hq Hr]. apply in_state_spec, list_elem_of_singleton in Hq.
  destruct (H r Hr Hq) as [|(k & Hk & Hck & _ & _ & _ & _ & Hw)]; [congruence|].
  assert (c = m_id k) as -> by congruence. unfold carrier_settled in Hs. rewrite message_row_at in Hs by (done || apply C).
  apply negb_true_iff, bool_decide_eq_false in Hs. apply Hs. destruct Hw as [-> |[-> | ->]]; set_solver.
Qed.

Lemma nothing_is_stranded_witness :
  let l := pair 5 <$> (Demo.sent_ ++ [Begin 1; Retry 1 (txt "busy") false true; HandOn Demo.the_task 3 None bare_resume;
                                      Begin 3; Confirm 3 None; TakeBack 3 (txt "lost")]) in
  let s := runs show id l (Demo.before false) in
  all_here show id l (Demo.before false) /\
  m_carried_by (row_of s 2 nothing) = Some 3 /\ m_state (row_of s 2 nothing) = State.Queued /\
  (forall r, r ∈ messages s -> m_state r = State.Queued -> m_carried_by r = None \/
     exists k, k ∈ messages s /\ m_carried_by r = Some (m_id k) /\ m_kind k = Kind.Task /\ m_task k = m_task r /\
       m_recipient k = m_recipient r /\ m_carried_by k = None /\ waiting k) /\
  release_stranded s = s.
Proof.
  intros l s. assert (all_here show id l (Demo.before false)) as Hl.
  { vm_compute. split_and!; try done; try by eexists. all: intros t [= <-]; by eexists. }
  split; [exact Hl|]. split; [vm_compute; reflexivity|]. split; [vm_compute; reflexivity|].
  apply (nothing_is_stranded show id l). exact Hl.
Defined.
