(* ===== verification/CfWord.v ===== *)
(** * How a window's commands start: [cf-proto/src/cf_word.rs]

    The word that runs a window's own [cf], its path as the window's shell takes it as one word, and
    a text of ConsensFlow's with its commands started by it. The letters and digits outside ASCII
    ([char::is_alphanumeric]'s tables) are a parameter. *)
From S2P Require Import Prelude Utf8 Keys Text.
#[local] Open Scope Z_scope.

Inductive Shell := Posix | PowerShell.

(** The start of a command: [CfWord]. *)
Abbreviation cf_word := text.

Definition COMMANDS : list text :=
  txt <$> ["task"; "ask"; "inbox"; "answer"; "note"; "tell"; "staff"; "history"]%string.

Definition bare : cf_word := txt "cf".

(** ASCII letters and digits. *)
Definition ascii_alphanumeric (c : char) : bool := within 0x30 0x39 c || within 0x41 0x5A c || within 0x61 0x7A c.

(** What every shell takes as it is; a byte outside ASCII is no such, nor is its character. *)
Definition plain (c : char) : bool := ascii_alphanumeric c || bool_decide (c ∈ txt "/._-:+~").

Definition APOSTROPHE : char := 0x27.
Definition BACKSLASH : char := 0x5C.

(** [path.replace('\'', by)] *)
Definition replace_apostrophe (by_ path : text) : text :=
  path ≫= fun c => if c =? APOSTROPHE then by_ else [c].

Definition new (path : text) (shell : Shell) : cf_word :=
  if bool_decide (path = []) then bare else
  if forallb plain path then path else
  match shell with
  | Posix => APOSTROPHE :: replace_apostrophe [APOSTROPHE; BACKSLASH; APOSTROPHE; APOSTROPHE] path ++ [APOSTROPHE]
  | PowerShell => txt "& '" ++ replace_apostrophe [APOSTROPHE; APOSTROPHE] path ++ [APOSTROPHE]
  end.

Definition of_word (word : text) : option cf_word :=
  if negb (bool_decide (word = [])) && (length (encode word) <=? 1024)%nat && negb (existsb is_control word)
  then Some word else None.

Section InText.
Context (alphanumeric : char -> bool).

(** [starts_a_word], of the character before. *)
Definition starts_a_word (before : option char) : bool :=
  match before with
  | None => true
  | Some c => negb (alphanumeric c || bool_decide (c ∈ txt "_-./\'$%"))
  end.

Definition names_a_command (rest : text) : bool :=
  existsb (fun command =>
    match strip_prefix command rest with
    | Some [] => true
    | Some (next :: _) => negb (alphanumeric next || (next =? 0x2D) || (next =? 0x5F))
    | None => false
    end) COMMANDS.

(** Whether the text, after [before], begins with a command by the word [cf]. *)
Definition begins_command (before : option char) (t : text) : bool :=
  match strip_prefix (txt "cf ") t with
  | Some rest => starts_a_word before && names_a_command rest
  | None => false
  end.

(** From each match of [cf ] to the next. *)
Fixpoint in_text_from (word : cf_word) (before : option char) (t : text) : text :=
  match t with
  | [] => []
  | c :: rest =>
      match rest with
      | d :: after => if begins_command before t then word ++ in_text_from word (Some d) after
                      else c :: in_text_from word (Some c) rest
      | [] => [c]
      end
  end.

Definition in_text (word : cf_word) (t : text) : text :=
  if decide (word = bare) then t else in_text_from word None t.

(** ** What a command started by the word is *)

(** The text with each command the word [cf] names taken out: what is before each, and what is after. *)
Fixpoint around (before : option char) (t : text) : list text :=
  match t with
  | [] => [[]]
  | c :: rest =>
      match rest with
      | d :: after => if begins_command before t then [] :: around (Some d) after
                      else match around (Some c) rest with p :: ps => (c :: p) :: ps | [] => [[c]] end
      | [] => [[c]]
      end
  end.

Lemma around_cons before t : exists p ps, around before t = p :: ps.
Proof.
  destruct t as [|c [|d t]]; simpl; [by do 2 eexists..|]. destruct (begins_command _ _); [by do 2 eexists|].
  destruct (match t with [] => _ | _ => _ end); by do 2 eexists.
Qed.

Lemma join_first sep c p ps : join sep ((c :: p) :: ps) = c :: join sep (p :: ps).
Proof. by destruct ps. Qed.

Lemma around_two before c d t :
  around before (c :: d :: t) =
    if begins_command before (c :: d :: t) then [] :: around (Some d) t
    else match around (Some c) (d :: t) with p :: ps => (c :: p) :: ps | [] => [[c]] end.
Proof. done. Qed.

Lemma in_text_two word before c d t :
  in_text_from word before (c :: d :: t) =
    if begins_command before (c :: d :: t) then word ++ in_text_from word (Some d) t
    else c :: in_text_from word (Some c) (d :: t).
Proof. done. Qed.

Lemma around_text word before t :
  (word = bare -> join bare (around before t) = t) /\ join word (around before t) = in_text_from word before t.
Proof.
  assert (forall n t before, (length t <= n)%nat ->
    join bare (around before t) = t /\ join word (around before t) = in_text_from word before t) as H.
  { clear. induction n as [|n IH]; intros [|c [|d t]] before Hn; simpl in Hn; try done; try lia.
    rewrite around_two, in_text_two. destruct (begins_command before (c :: d :: t)) eqn:E.
    - destruct (IH t (Some d)) as [H1 H2]; [lia|]. destruct (around_cons (Some d) t) as (p & ps & Ep).
      rewrite Ep in *. cbn [join] in *. rewrite H2. split; [|done]. rewrite H1.
      unfold begins_command in E. destruct (strip_prefix _ _) as [rest|] eqn:Es; [|done].
      apply strip_prefix_Some in Es. by injection Es as -> -> ->.
    - destruct (IH (d :: t) (Some c)) as [H1 H2]; [simpl; lia|]. destruct (around_cons (Some c) (d :: t)) as (p & ps & Ep).
      rewrite Ep in *. by rewrite !join_first, H1, H2. }
  destruct (H (length t) t before) as [H1 H2]; [lia|]. done.
Qed.

Lemma around_with word t : word <> bare -> in_text word t = join word (around None t).
Proof. intros H. unfold in_text. rewrite decide_False by done. symmetry. apply around_text. Qed.
End InText.

(** ** What a shell reads *)

(** A word as POSIX's shells read it, which is all of the text: between apostrophes every character is
    itself, after a backslash the one that follows, and else what no shell gives a meaning of its own,
    as [plain]'s have none; but a tilde first is a home. *)
Fixpoint posix_rest (quoted : bool) (t : text) : option text :=
  match t with
  | [] => if quoted then None else Some []
  | c :: rest =>
      if c =? APOSTROPHE then posix_rest (negb quoted) rest
      else if quoted then cons c <$> posix_rest quoted rest
      else if c =? BACKSLASH then match rest with d :: rest => cons d <$> posix_rest quoted rest | [] => None end
      else if plain c then cons c <$> posix_rest quoted rest
      else None
  end.

Definition TILDE : char := 0x7E.

Definition posix_reads (t : text) : option text :=
  if bool_decide (head t = Some TILDE) then None else posix_rest false t.

(** The command PowerShell runs, which is all of the text: a bare name, or the string after the call
    operator, in which a quote doubled is one. PowerShell takes the typographic single quotes for
    apostrophes. *)
Definition single_quote (c : char) : bool := bool_decide (c ∈ [APOSTROPHE; 0x2018; 0x2019; 0x201A; 0x201B]).

Fixpoint powershell_string (t : text) : option text :=
  match t with
  | [] => None
  | c :: rest =>
      if single_quote c then
        match rest with
        | [] => Some []
        | d :: rest => if single_quote d then cons d <$> powershell_string rest else None
        end
      else cons c <$> powershell_string rest
  end.

Definition powershell_reads (t : text) : option text :=
  match strip_prefix (txt "& '") t with
  | Some rest => powershell_string rest
  | None => if forallb plain t && negb (bool_decide (head t = Some TILDE)) then Some t else None
  end.

Definition reads (shell : Shell) : text -> option text :=
  match shell with Posix => posix_reads | PowerShell => powershell_reads end.

(** *** A path is read back *)

Lemma plain_no c : plain c = true -> c =? APOSTROPHE = false /\ c =? BACKSLASH = false.
Proof.
  unfold plain, ascii_alphanumeric, within. intros H. split; apply Z.eqb_neq; intros ->; vm_compute in H; discriminate.
Qed.

Lemma posix_plain path : forallb plain path = true -> posix_rest false path = Some path.
Proof.
  induction path as [|c path IH]; [done|]. simpl. intros [Hc H]%andb_true_iff. destruct (plain_no c Hc) as [-> ->].
  by rewrite Hc, IH.
Qed.

Lemma posix_quoted path : posix_rest true
  (replace_apostrophe [APOSTROPHE; BACKSLASH; APOSTROPHE; APOSTROPHE] path ++ [APOSTROPHE]) = Some path.
Proof.
  induction path as [|c path IH]; [done|]. cbn [replace_apostrophe mbind list_bind]. destruct (c =? APOSTROPHE) eqn:E.
  - apply Z.eqb_eq in E as ->. cbn -[replace_apostrophe]. unfold replace_apostrophe in IH. by rewrite IH.
  - cbn -[replace_apostrophe]. rewrite E. unfold replace_apostrophe in IH. by rewrite IH.
Qed.

Lemma powershell_quoted path :
  Forall (fun c => c = APOSTROPHE \/ single_quote c = false) path ->
  powershell_string (replace_apostrophe [APOSTROPHE; APOSTROPHE] path ++ [APOSTROPHE]) = Some path.
Proof.
  induction 1 as [|c path Hc _ IH]; [done|]. cbn [replace_apostrophe mbind list_bind]. unfold replace_apostrophe in IH.
  destruct (c =? APOSTROPHE) eqn:E.
  - apply Z.eqb_eq in E as ->. cbn. by rewrite IH.
  - destruct Hc as [->|Hc]; [done|]. cbn [app powershell_string]. by rewrite Hc, IH.
Qed.

(** What a path keeps to for a shell to take it as no home, and PowerShell as no string that ends. *)
Definition takes (shell : Shell) (path : text) : Prop :=
  path <> [] /\ head path <> Some TILDE /\
  (shell = PowerShell -> Forall (fun c => c = APOSTROPHE \/ single_quote c = false) path).

(** The word made of a path is read by its shell as that path, whole and nothing besides, whatever
    spaces, quotes and signs it has: the window's own program is what its commands start. *)
Theorem shell_reads_the_path shell path : takes shell path -> reads shell (new path shell) = Some path.
Proof.
  intros (Hne & Ht & Hq). unfold new. rewrite bool_decide_eq_false_2 by done.
  destruct (forallb plain path) eqn:Hp; destruct shell; cbn [reads].
  - unfold posix_reads. rewrite bool_decide_eq_false_2 by done. by apply posix_plain.
  - unfold powershell_reads. destruct (strip_prefix _ _) as [rest|] eqn:E.
    + apply strip_prefix_Some in E as ->. discriminate Hp.
    + by rewrite Hp, bool_decide_eq_false_2.
  - unfold posix_reads. simpl. by apply posix_quoted.
  - unfold powershell_reads. rewrite strip_prefix_app. by apply powershell_quoted, Hq.
Qed.

Definition spaced : text := txt "C:/Program Files/the 'q' $HOME/cf.exe".

Lemma shell_reads_the_path_witness :
  takes PowerShell spaced /\ reads PowerShell (new spaced PowerShell) = Some spaced.
Proof.
  assert (takes PowerShell spaced) as H.
  { split; [discriminate|]. split; [discriminate|]. intros _. vm_compute. repeat (constructor; [auto|]). constructor. }
  split; [exact H|]. exact (shell_reads_the_path PowerShell spaced H).
Defined.

(** A path of PowerShell's with a typographic apostrophe ends the string it is put in. *)
Example typographic_apostrophe_ends_the_path :
  let path := txt "C:/Users/Jane’s PC/cf.exe" in
  reads Posix (new path Posix) = Some path /\ reads PowerShell (new path PowerShell) = None.
Proof. by vm_compute. Qed.

(** Every command a text of ConsensFlow's names by the word [cf] starts by the window's own word, and
    nothing else of the text changes: it is cut at the same places whatever the word. *)
Theorem only_commands_change alphanumeric word t :
  join bare (around alphanumeric None t) = t /\
  in_text alphanumeric word t = join word (around alphanumeric None t).
Proof.
  destruct (around_text alphanumeric bare None t) as [H _]. specialize (H eq_refl). split; [exact H|].
  destruct (decide (word = bare)) as [->|Hne]; [by rewrite H|by apply around_with].
Qed.
