(* ===== verification/DeliveryText.v ===== *)
(** * How a message reads in its window, and is known again in its record: [cf-engine/src/delivery_text.rs]

    The text a message is pasted as, with the rows it carries ([delivery_text]); and what tells that
    paste again in what the window's harness recorded: the message's header, behind nothing but what
    Claude Code puts before a paste ([is_paste_of]). The theorems say that the two agree. *)
From S2P Require Import Prelude Utf8 Keys Text JsValue Words CfWord.
#[local] Open Scope Z_scope.

Abbreviation json := (@Value integers).

(** [MessageView] ([cf-proto/src/ledger.rs]), what is read of it here. *)
Record MessageView := View {
  v_id : Z;
  v_sender : option text;
  v_kind : text;
  v_task_number : option Z;
  v_reply_to : option Z;
  v_body : text;
  v_receipt : json;
  v_questions : json;
  v_urgent : bool
}.

Definition INLINE_LIMIT : nat := Z.to_nat 16000.
Definition OPENING : nat := Z.to_nat 15000.

(** ** The paste *)

Definition SENT_AGAIN : text := txt " · sent again after a restart, it may be there already".
Definition HEADER_START : text := txt "[ConsensFlow m-".

Definition marker_of (message_id : Z) : text := HEADER_START ++ show message_id ++ txt " ".

Definition from_of (m : MessageView) : text :=
  match v_sender m with Some sender => txt "@" ++ sender | None => txt "ConsensFlow" end.

(** The line over a row a paste carries. *)
Definition label (row : MessageView) : text :=
  match v_reply_to row with
  | Some question =>
      if decide (v_kind row = txt "answer")
      then txt "(kept for you: answer m-" ++ show (v_id row) ++ txt " from " ++ from_of row ++ txt ", to your m-" ++
           show question ++ txt ")"
      else txt "(kept for you: " ++ v_kind row ++ txt " m-" ++ show (v_id row) ++ txt " from " ++ from_of row ++ txt ")"
  | None => txt "(kept for you: " ++ v_kind row ++ txt " m-" ++ show (v_id row) ++ txt " from " ++ from_of row ++ txt ")"
  end.

(** [sort_by_key] of the ids, which keeps equal ones in their order. *)
Fixpoint row_insert (row : MessageView) (sorted : list MessageView) : list MessageView :=
  match sorted with
  | [] => [row]
  | r :: rest => if v_id row <=? v_id r then row :: sorted else r :: row_insert row rest
  end.
Definition by_id (rows : list MessageView) : list MessageView := foldr row_insert [] rows.

(** The first units of a text, and not the half of a pair. *)
Fixpoint opening_of (body : text) (units : nat) : text :=
  match body with
  | [] => []
  | c :: rest => if (units <? len_utf16 c)%nat then [] else c :: opening_of rest (units - len_utf16 c)
  end.
Definition opening (body : text) : text := opening_of body OPENING.

Definition DOT : text := txt " · ".
Definition LINE : text := [0x0A].
Definition PARAGRAPH : text := [0x0A; 0x0A].

Section Delivery.
Context (alphanumeric : char -> bool).

(** Its words, with its commands started by the window's own word where ConsensFlow wrote them. *)
Definition body_of (row : MessageView) (cf : cf_word) : text :=
  match v_sender row with None => in_text alphanumeric cf (v_body row) | Some _ => v_body row end.

(** The carrier's words, and under a line of its own each row it carries, by their ids. *)
Definition said_row (carrier : MessageView) (cf : cf_word) (row : MessageView) : text :=
  if v_id row =? v_id carrier then body_of row cf else label row ++ LINE ++ body_of row cf.
Definition composite (carrier : MessageView) (carried : list MessageView) (cf : cf_word) : text :=
  join (PARAGRAPH) (said_row carrier cf <$> by_id (carried ++ [carrier])).

(** [words_of]: a message's words whole, and the command that reads them. *)
Definition words_of (m : MessageView) (carried : list MessageView) (cf : cf_word) : text * text :=
  match (if bool_decide (carried = []) then None else v_task_number m) with
  | None => (body_of m cf, cf ++ txt " inbox read m-" ++ show (v_id m))
  | Some number => (composite m carried cf, cf ++ txt " task get T-" ++ show number)
  end.

Definition fits_whole (words : text) : bool := (utf16_len words <=? INLINE_LIMIT)%nat.
Definition goes_whole (m : MessageView) (carried : list MessageView) (cf : cf_word) : bool :=
  fits_whole (words_of m carried cf).1.

(** [footer] *)
Definition answer_line (m : MessageView) (cf : cf_word) : text :=
  txt "Run in your shell: " ++ cf ++ txt " answer m-" ++ show (v_id m) ++ txt " " ++ WORDS.

Definition footer (m : MessageView) (cf : cf_word) (told_in : option Z) : text :=
  if decide (v_kind m = txt "question") then
    if truthy (Some (v_questions m)) then
      let several := match as_array (v_questions m) with Some qs => (1 <? length qs)%nat | None => false end in
      PARAGRAPH ++ answer_line m cf ++ txt " (a label or your own words" ++
      (if several then txt "; one line per question" else []) ++ txt ")"
    else
      match (if v_urgent m then v_task_number m else None) with
      | Some task =>
          PARAGRAPH ++ txt "T-" ++ show task ++ txt " is paused for this. " ++ answer_line m cf ++ txt "; the chief resumes the task."
      | None => PARAGRAPH ++ answer_line m cf
      end
  else
    match (if decide (v_kind m = txt "result") then v_task_number m else None) with
    | Some task =>
        let T := txt "T-" ++ show task in
        PARAGRAPH ++ match told_in with
     | Some note => txt "The turn on your words while " ++ T ++
         txt " was paused ended with a report too, given in m-" ++ show note ++ txt ": this result is the one to decide. "
     | None => []
     end ++ txt "Decide with: " ++ cf ++ txt " task accept " ++ T ++ DOT ++ cf ++ txt " task reopen " ++ T ++
     txt " " ++ WORDS
    | None => []
    end.

Definition header (m : MessageView) (again : text) : text :=
  HEADER_START ++ show (v_id m) ++
  match v_task_number m with Some number => DOT ++ txt "T-" ++ show number | None => [] end ++
  DOT ++ v_kind m ++ txt " from " ++ from_of m ++ again ++ txt "]" ++ LINE.

Definition text_of (m : MessageView) (carried : list MessageView) (cf : cf_word) (again : text)
    (told_in : option Z) : text :=
  let '(whole, read_all) := words_of m carried cf in
  let body := if fits_whole whole then whole
              else opening whole ++ LINE ++ txt "… (" ++ show (Z.of_nat (utf16_len whole)) ++ txt " characters; read all of it with: " ++ read_all ++ txt ")" in
  header m again ++ body ++ footer m cf told_in.

Definition delivery_text (m : MessageView) (carried : list MessageView) (cf : cf_word) : text :=
  text_of m carried cf [] None.

Definition delivery_text_beside (m : MessageView) (carried : list MessageView) (cf : cf_word) (again : bool)
    (told_in : option Z) : text :=
  text_of m carried cf (if again then SENT_AGAIN else []) told_in.

Definition delivery_text_sent_again (m : MessageView) (carried : list MessageView) (cf : cf_word) : text :=
  delivery_text_beside m carried cf true None.

(** What a fresh window is given ahead of its first message. *)
Definition brief_first (brief : MessageView) (carried : list MessageView) (cf : cf_word) : text :=
  delivery_text brief carried cf ++ PARAGRAPH.
End Delivery.

(** ** The paste in a record *)

(** [trim_start] and [trim], of Rust's white space. *)
Fixpoint trim_space (t : text) : text :=
  match t with
  | c :: rest => if is_whitespace c then trim_space rest else t
  | [] => []
  end.
Definition trim_both (t : text) : text := trim_end (trim_space t).

(** [split_inclusive('\n')] *)
Fixpoint lines_inclusive (t : text) : list text :=
  match t with
  | [] => []
  | c :: rest =>
      if c =? 0x0A then [c] :: lines_inclusive rest
      else match lines_inclusive rest with
           | line :: lines => (c :: line) :: lines
           | [] => [[c]]
           end
  end.

(** [take_while(is_ascii_digit)], and what is after. *)
Fixpoint take_digits (t : text) : text * text :=
  match t with
  | c :: rest => if Text.is_digit c then let '(ds, after) := take_digits rest in (c :: ds, after) else ([], t)
  | [] => ([], [])
  end.

Definition starts_with (p t : text) : bool := bool_decide (is_Some (strip_prefix p t)).

Definition PASTED : text := txt "pasted_content".
Definition IMAGE : text := txt "[Image #".

(** [after_placeholders], a turn for each placeholder. *)
Fixpoint placeholders (turns : nat) (seen : bool) (rest : text) : option text :=
  let break := if seen then Some rest else None in
  match turns with
  | O => break
  | S turns =>
      match strip_prefix IMAGE rest with
      | None => break
      | Some after =>
          match take_digits after with
          | (_ :: _, c :: next) =>
              if c =? 0x5D then
                match strip_prefix (txt " ") next with
                | Some more => if starts_with IMAGE more then placeholders turns true more else Some next
                | None => Some next
                end
              else break
          | _ => break
          end
      end
  end.
Definition after_placeholders (t : text) : option text := placeholders (length t) false t.

Definition after_wrapper_opening (t : text) : option (text * text) :=
  rest ← strip_prefix (txt "<") t ≫= strip_prefix PASTED;
  '(attributes, inner) ← split_once (txt ">" ++ LINE) rest;
  if (bool_decide (attributes = []) || starts_with (txt " ") attributes) &&
     negb (existsb (fun c => (c =? 0x3E) || (c =? 0x0A)) attributes)
  then Some (attributes, inner) else None.

Definition unwrapped (t : text) : text :=
  match after_wrapper_opening t with
  | None => t
  | Some (attributes, inner) => if contains (txt "</" ++ PASTED ++ attributes ++ txt ">") inner then inner else t
  end.

(** [rsplit_once('.')] *)
Fixpoint after_last_dot (t : text) : option text :=
  match t with
  | [] => None
  | c :: rest => match after_last_dot rest with
                 | Some kind => Some kind
                 | None => if c =? 0x2E then Some rest else None
                 end
  end.

Definition IMAGES : list text := txt <$> ["png"; "jpg"; "jpeg"; "gif"; "webp"]%string.

Definition names_an_image (line : text) : bool :=
  let line := trim_both line in
  let line := match strip_suffix [0x22] line with
              | Some line => line
              | None => default line (strip_suffix [0x27] line)
              end in
  match after_last_dot line with
  | Some kind => bool_decide (ascii_lower <$> kind ∈ IMAGES)
  | None => false
  end.

(** [after_brief], line by line. *)
Fixpoint after_lines (handled : bool) (attached : nat) (lines : list text) (rest : text) : option text :=
  match lines with
  | [] => Some rest
  | line :: lines =>
      match strip_prefix line rest with
      | Some after => after_lines handled attached lines after
      | None =>
          if handled && bool_decide (trim_both line = []) then after_lines handled attached lines rest
          else match attached with
               | S attached => if names_an_image line then after_lines handled attached lines rest else None
               | O => None
               end
      end
  end.
Definition after_brief (paste first : text) (attached : nat) : option text :=
  after_lines (0 <? attached)%nat attached (lines_inclusive first) paste.

(** [matches(IMAGE).count()] *)
Fixpoint count_matches (turns : nat) (words t : text) : nat :=
  match turns, split_once words t with
  | S turns, Some (_, rest) => S (count_matches turns words rest)
  | _, _ => 0%nat
  end.

Definition is_paste_of (t : text) (message_id : Z) (first : option text) : bool :=
  let marker := marker_of message_id in
  if negb (contains marker t) then false else
  let t := trim_space (window_text t) in
  let paste := match after_placeholders t with
               | Some head => match strip_prefix PARAGRAPH head with Some inner => unwrapped inner | None => head end
               | None => unwrapped t
               end in
  let attached := match after_placeholders t with
                  | Some head => let before := take (length t - length head) t in
                                 count_matches (length before) IMAGE before
                  | None => 0%nat
                  end in
  let behind := first ≫= fun first => after_brief paste (window_text first) attached in
  starts_with marker paste || match behind with Some rest => starts_with marker rest | None => false end.

Definition put_there_by_claude (before : text) : bool :=
  let before := trim_space before in
  let after := match after_placeholders before with Some rest => trim_space rest | None => before end in
  bool_decide (after = []) ||
  match after_wrapper_opening after with Some (_, inner) => bool_decide (inner = []) | None => false end.

Definition header_id (t : text) : option Z :=
  '(_, after) ← split_once HEADER_START t; read_i64 (take_digits after).1.

(** [arrival_boundary], [arrived_among]: the item a message given again must come after. *)
Definition arrival_boundary (m : MessageView) : option string := get "before" (v_receipt m) ≫= as_str.

(** [rposition] *)
Fixpoint rposition {A} (p : A -> bool) (rows : list A) : option nat :=
  match rows with
  | [] => None
  | row :: rest => match rposition p rest with
                   | Some at_ => Some (S at_)
                   | None => if p row then Some 0%nat else None
                   end
  end.

Definition arrived_among {T} (rows : list T) (before : option string) (id : T -> string) (is_paste : T -> bool) :
    option T :=
  let from := match before ≫= fun before => rposition (fun row => bool_decide (id row = before)) rows with
              | Some at_ => (at_ + 1)%nat
              | None => 0%nat
              end in
  find is_paste (drop from rows).
