(* ===== verification/DeliveryRecord.v ===== *)
(** * A delivery is known by its own paste, and by nothing else

    What a window's record shows of a paste, and that [is_paste_of] tells from it just the message
    whose paste it is: whatever the message says, whatever lines and pictures the harness took out or
    put before it, and however it is quoted elsewhere. *)
From Stdlib Require Import Sorted.
From S2P Require Import Prelude Utf8 Keys Text JsValue Words CfWord DeliveryText.
#[local] Open Scope Z_scope.

#[local] Arguments show : simpl never.
#[local] Arguments HEADER_START : simpl never.

(** ** Numbers as they are shown *)

Lemma show_inj i j : show i = show j -> i = j.
Proof.
  assert (forall k, 0 <= k -> exists c ds, unsigned k = c :: ds /\ Text.is_digit c = true) as Hd.
  { intros k Hk. destruct (unsigned_spec k Hk) as (Hds & Hne & _). destruct (unsigned k) as [|c ds]; [done|].
    apply Forall_cons in Hds as [Hc _]. by exists c, ds. }
  assert (forall k l, 0 <= k -> 0 <= l -> unsigned k = unsigned l -> k = l) as Hu.
  { intros k l Hk Hl E. destruct (unsigned_spec k Hk) as (_ & _ & <-), (unsigned_spec l Hl) as (_ & _ & <-). by rewrite E. }
  unfold show. destruct (Z.ltb_spec i 0), (Z.ltb_spec j 0); intros E.
  - injection E as E. apply Hu in E; lia.
  - destruct (Hd j) as (c & ds & Ec & Hc); [lia|]. rewrite Ec in E. injection E as <- _. discriminate Hc.
  - destruct (Hd i) as (c & ds & Ec & Hc); [lia|]. rewrite Ec in E. injection E as -> _. discriminate Hc.
  - apply Hu; [lia|lia|done].
Qed.

(** ** Markers *)

Lemma starts_with_spec p t : starts_with p t = true <-> exists rest, t = p ++ rest.
Proof.
  unfold starts_with. rewrite bool_decide_eq_true. split; intros [rest H]; exists rest; by apply strip_prefix_Some.
Qed.

Lemma marker_is i j rest : starts_with (marker_of i) (marker_of j ++ rest) = (i =? j).
Proof.
  apply eq_true_iff_eq. rewrite starts_with_spec, Z.eqb_eq. split; [|by intros ->; exists rest].
  intros [rest' E]. unfold marker_of in E. rewrite <- !app_assoc in E. apply app_inv_head in E.
  apply (f_equal (split_once (txt " "))) in E. change (txt " ") with ([0x20] : text) in E.
  rewrite !split_once_first in E by by apply show_no. injection E as E _. by apply show_inj.
Qed.

Lemma contains_here words a b : contains words (a ++ words ++ b) = true.
Proof.
  unfold contains. apply bool_decide_eq_true. induction a as [|c a IH]; [rewrite app_nil_l, split_once_here; by eexists|].
  destruct (strip_prefix words ((c :: a) ++ words ++ b)) as [r|] eqn:E.
  - apply strip_prefix_Some in E. rewrite E, split_once_here. by eexists.
  - destruct IH as [[x y] IH]. exists (c :: x, y).
    change (match strip_prefix words ((c :: a) ++ words ++ b) with Some rest => Some ([], rest)
            | None => prod_map (cons c) id <$> split_once words (a ++ words ++ b) end = Some (c :: x, y)).
    by rewrite E, IH.
Qed.

(** ** Text as a window shows it *)

(** What a window shows as it is, and shows for nothing else. *)
Definition clean (c : char) : bool := within 0x20 0x7E c.

Lemma clean_shown c d : clean d = true -> shown c = d -> c = d.
Proof. unfold clean, shown, within, REPLACEMENT_CHARACTER, TAB, LF. intros Hd E. repeat case_match; lia. Qed.

Lemma clean_is_shown c : clean c = true -> shown c = c /\ c <> 0x0D /\ c <> 0x0A.
Proof. unfold clean, shown, within, TAB, LF. intros Hc. repeat case_match; lia. Qed.

Lemma window_text_cons c t :
  window_text (c :: t) = if (c =? 0x0D) && bool_decide (head t = Some 0x0A) then window_text t else shown c :: window_text t.
Proof.
  unfold window_text. destruct t as [|d t]; [by rewrite andb_false_r|]. cbn [without_cr head].
  rewrite (bool_decide_ext (Some d = Some 0x0A) (d = 0x0A)) by naive_solver.
  destruct (Z.eqb_spec d 0x0A) as [->|Hd]; [by destruct (c =? 0x0D)|]. by rewrite andb_false_r, bool_decide_eq_false_2, andb_false_r.
Qed.

Lemma window_text_clean p t : Forall (fun c => clean c = true) p -> window_text (p ++ t) = p ++ window_text t.
Proof.
  induction 1 as [|c p Hc Hp IH]; [done|]. cbn [app]. destruct (clean_is_shown c Hc) as (E & Hr & _).
  rewrite window_text_cons, (proj2 (Z.eqb_neq _ _) Hr), E. simpl. by rewrite IH.
Qed.

Lemma window_text_begins p b r :
  Forall (fun c => clean c = true) p -> window_text r = p ++ b -> exists b', r = p ++ b'.
Proof.
  intros Hp. revert r. induction Hp as [|c p Hc Hp IH]; intros r E; [by exists r|].
  destruct r as [|d r]; [done|]. rewrite window_text_cons in E. destruct (_ && _) eqn:Ecr.
  - apply andb_true_iff in Ecr as [_ Eh%bool_decide_eq_true]. destruct r as [|e r]; [done|]. injection Eh as ->.
    rewrite window_text_cons in E. simpl in E. injection E as E _. subst c. discriminate Hc.
  - injection E as E1 E2. apply clean_shown in E1 as ->; [|done]. destruct (IH r E2) as [b' ->]. by exists b'.
Qed.

Lemma window_text_has a p b r :
  Forall (fun c => clean c = true) p -> window_text r = a ++ p ++ b -> contains p r = true.
Proof.
  intros Hp E. enough (exists a' b', r = a' ++ p ++ b') as (a' & b' & ->) by apply contains_here.
  revert a E. induction r as [|c r IH]; intros a E.
  - destruct a; [|done]. simpl in E. destruct p; [|done]. by exists [], [].
  - destruct a as [|d a]; [destruct (window_text_begins p b (c :: r) Hp E) as [b' Eb]; by exists [], b'|].
    assert (exists a, window_text r = a ++ p ++ b) as [a0 Ea].
    { rewrite window_text_cons in E. destruct (_ && _); [by eexists|]. injection E as _ E. by exists a. }
    destruct (IH a0 Ea) as (a' & b' & ->). by exists (c :: a'), b'.
Qed.

Lemma marker_clean i : Forall (fun c => clean c = true) (marker_of i).
Proof.
  unfold marker_of. apply Forall_app_2; [repeat constructor|]. apply Forall_app_2; [|repeat constructor].
  eapply Forall_impl; [apply (show_chars i)|].
  unfold Text.is_digit, clean, within. simpl. intros c Hc. lia.
Qed.

(** ** What Claude Code puts before a paste *)

Definition number_text (ds : text) : Prop := ds <> [] /\ Forall (fun c => Text.is_digit c = true) ds.
Definition placeholder (n : text) : text := IMAGE ++ n ++ txt "]".
Definition pictures (ns : list text) : text := join (txt " ") (placeholder <$> ns).

(** The line that opens the wrapper, and the tag that closes it. *)
Definition opens (attributes : text) : text := txt "<" ++ PASTED ++ attributes ++ txt ">" ++ LINE.
Definition closes (attributes : text) : text := txt "</" ++ PASTED ++ attributes ++ txt ">".

Definition attributes_ok (attributes : text) : Prop :=
  (attributes = [] \/ exists more, attributes = txt " " ++ more) /\
  Forall (fun c => c <> 0x3E /\ c <> 0x0A) attributes.

(** The pictures it attached, the opening of the wrapper, or both with a blank line between. *)
Inductive put_ahead (rest : text) : list text -> text -> Prop :=
| PutNothing : put_ahead rest [] []
| PutWrapper attributes : attributes_ok attributes -> contains (closes attributes) rest = true ->
    put_ahead rest [] (opens attributes)
| PutPictures ns : ns <> [] -> Forall number_text ns -> put_ahead rest ns (pictures ns)
| PutBoth ns attributes : ns <> [] -> Forall number_text ns -> attributes_ok attributes ->
    contains (closes attributes) rest = true -> put_ahead rest ns (pictures ns ++ PARAGRAPH ++ opens attributes).

(** A text that opens as a header does. *)
Definition headed (t : text) : Prop := exists rest, t = HEADER_START ++ rest.

Lemma headed_marker i rest : headed (marker_of i ++ rest).
Proof. unfold marker_of. rewrite <- !app_assoc. by eexists. Qed.

Lemma take_digits_all ds t :
  Forall (fun c => Text.is_digit c = true) ds -> (forall c rest, t = c :: rest -> Text.is_digit c = false) ->
  take_digits (ds ++ t) = (ds, t).
Proof.
  intros Hds Ht. induction Hds as [|d ds Hd _ IH].
  - destruct t as [|c t]; [done|]. simpl. by rewrite (Ht c t).
  - simpl. by rewrite Hd, IH.
Qed.

Lemma strip_no_image c t : c <> 0x49 -> strip_prefix IMAGE (0x5B :: c :: t) = None.
Proof.
  intros Hc. destruct (strip_prefix _ _) as [rest|] eqn:E; [|done]. apply strip_prefix_Some in E.
  change IMAGE with ([0x5B; 0x49; 0x6D; 0x61; 0x67; 0x65; 0x20; 0x23] : text) in E. injection E as -> _. done.
Qed.

(** Where no more placeholder follows. *)
Definition no_picture (t : text) : Prop :=
  strip_prefix IMAGE t = None /\ forall more, t = txt " " ++ more -> starts_with IMAGE more = false.

Lemma placeholders_pictures ns t turns seen :
  Forall number_text ns -> ns <> [] -> no_picture t -> (length ns <= turns)%nat ->
  placeholders turns seen (pictures ns ++ t) = Some t.
Proof.
  intros Hns Hne [Hno Hmore]. revert turns seen. induction ns as [|n ns IH]; [done|]. clear Hne.
  apply Forall_cons in Hns as [Hn Hns]. intros turns seen Hlen. destruct turns as [|turns]; [simpl in Hlen; lia|].
  destruct Hn as [Hdne Hds].
  assert (forall tail, placeholder n ++ tail = IMAGE ++ n ++ 0x5D :: tail) as Ep.
  { intros tail. unfold placeholder. rewrite <- !app_assoc. done. }
  assert (forall tail, take_digits (n ++ 0x5D :: tail) = (n, 0x5D :: tail)) as Ed.
  { intros tail. apply take_digits_all; [done|]. by intros c rest [= <- <-]. }
  destruct ns as [|n' ns].
  - unfold pictures. cbn [fmap list_fmap join]. rewrite Ep. cbn [placeholders]. rewrite strip_prefix_app, Ed.
    destruct n as [|d ds]; [done|]. cbn [Z.eqb Pos.eqb].
    destruct (strip_prefix (txt " ") t) as [more|] eqn:Es; [|done]. apply strip_prefix_Some in Es.
    by rewrite (Hmore more Es).
  - change (pictures (n :: n' :: ns)) with (placeholder n ++ txt " " ++ pictures (n' :: ns)).
    rewrite <- !app_assoc, Ep. cbn [placeholders]. rewrite strip_prefix_app, Ed.
    destruct n as [|d ds]; [done|]. cbn [Z.eqb Pos.eqb]. rewrite strip_prefix_app.
    assert (starts_with IMAGE (pictures (n' :: ns) ++ t) = true) as ->.
    { apply starts_with_spec. unfold pictures. cbn [fmap list_fmap]. destruct (placeholder <$> ns); cbn [join];
        unfold placeholder; rewrite <- !app_assoc; by eexists. }
    apply IH; [done|done|]. simpl in *. lia.
Qed.

Lemma pictures_length ns : (length ns <= length (pictures ns))%nat.
Proof.
  induction ns as [|n [|n' ns] IH]; [done| |].
  - unfold pictures, placeholder. cbn [fmap list_fmap join]. rewrite length_app.
    change (length IMAGE) with 8%nat. simpl. lia.
  - change (pictures (n :: n' :: ns)) with (placeholder n ++ txt " " ++ pictures (n' :: ns)).
    rewrite !length_app. change (length (txt " ")) with 1%nat. simpl in *. lia.
Qed.

Lemma after_pictures ns t : Forall number_text ns -> ns <> [] -> no_picture t -> after_placeholders (pictures ns ++ t) = Some t.
Proof.
  intros Hns Hne Ht. apply placeholders_pictures; [done..|]. rewrite length_app. pose proof (pictures_length ns). lia.
Qed.

Lemma after_none t : strip_prefix IMAGE t = None -> after_placeholders t = None.
Proof. intros E. unfold after_placeholders. destruct (length t); [done|]. simpl. by rewrite E. Qed.

Lemma headed_no_picture t : headed t -> no_picture t.
Proof.
  intros [rest ->]. change HEADER_START with ([0x5B; 0x43] ++ txt "onsensFlow m-") at 1. split; [by apply strip_no_image|].
  intros more E. discriminate E.
Qed.

Lemma break_no_picture t : no_picture (0x0A :: t).
Proof.
  split; [|intros more E; discriminate E]. destruct (strip_prefix _ _) as [rest|] eqn:E; [|done].
  apply strip_prefix_Some in E. discriminate E.
Qed.

Lemma opens_no_picture attributes t : no_picture (opens attributes ++ t).
Proof.
  split; [|intros more E; discriminate E]. destruct (strip_prefix _ _) as [rest|] eqn:E; [|done].
  apply strip_prefix_Some in E. discriminate E.
Qed.

Lemma wrapper_opens attributes t :
  attributes_ok attributes -> after_wrapper_opening (opens attributes ++ t) = Some (attributes, t).
Proof.
  intros [Ha Hno]. unfold after_wrapper_opening, opens. rewrite <- !app_assoc, strip_prefix_app. cbn [mbind option_bind].
  rewrite strip_prefix_app. cbn [mbind option_bind].
  assert (split_once (txt ">" ++ LINE) (attributes ++ txt ">" ++ LINE ++ t) = Some (attributes, t)) as ->.
  { apply (split_once_first [0x0A] 0x3E). eapply Forall_impl; [exact Hno|]. by intros c [? _]. }
  cbn [mbind option_bind]. assert (existsb (fun c => (c =? 0x3E) || (c =? 0x0A)) attributes = false) as ->.
  { clear Ha. induction Hno as [|c l [H1 H2] _ IH]; [done|]. simpl. by rewrite (proj2 (Z.eqb_neq _ _) H1), (proj2 (Z.eqb_neq _ _) H2). }
  rewrite andb_true_r. destruct Ha as [->|[more ->]]; [done|].
  assert (starts_with (txt " ") (txt " " ++ more) = true) as -> by (apply starts_with_spec; by eexists).
  by rewrite orb_true_r.
Qed.

Lemma unwrapped_plain t : strip_prefix (txt "<") t = None -> unwrapped t = t.
Proof. unfold unwrapped, after_wrapper_opening. by intros ->. Qed.

Lemma unwrapped_opens attributes t :
  attributes_ok attributes -> contains (closes attributes) t = true -> unwrapped (opens attributes ++ t) = t.
Proof.
  intros Ha Hc. unfold unwrapped. rewrite wrapper_opens by done. unfold closes in Hc. by rewrite Hc.
Qed.

Lemma trim_space_app s t : Forall (fun c => is_whitespace c = true) s ->
  (forall c rest, t = c :: rest -> is_whitespace c = false) -> trim_space (s ++ t) = t.
Proof.
  intros Hs Ht. induction Hs as [|c s Hc _ IH]; [|simpl; by rewrite Hc].
  destruct t as [|c t]; [done|]. simpl. by rewrite (Ht c t).
Qed.

(** Behind what Claude Code puts there, the paste begins. *)
Definition paste_in (t : text) : text :=
  match after_placeholders t with
  | Some head => match strip_prefix PARAGRAPH head with Some inner => unwrapped inner | None => head end
  | None => unwrapped t
  end.

Lemma headed_starts t : headed t -> strip_prefix PARAGRAPH t = None /\ strip_prefix (txt "<") t = None.
Proof.
  intros [rest ->]. split; (destruct (strip_prefix _ _) as [r|] eqn:E; [|done]);
    apply strip_prefix_Some in E; discriminate E.
Qed.

Lemma paste_behind ns ahead t : headed t -> put_ahead t ns ahead -> paste_in (ahead ++ t) = t.
Proof.
  intros Ht Ha. pose proof (headed_no_picture t Ht) as Hnp. destruct (headed_starts t Ht) as [Hp Hl]. unfold paste_in.
  destruct Ha as [|attributes Ha Hc|ns Hne Hns|ns attributes Hne Hns Ha Hc].
  - simpl. rewrite after_none by apply Hnp. by apply unwrapped_plain.
  - rewrite after_none by apply opens_no_picture. by apply unwrapped_opens.
  - rewrite after_pictures, Hp by done. done.
  - rewrite <- !app_assoc, after_pictures by (done || apply break_no_picture). rewrite strip_prefix_app.
    by apply unwrapped_opens.
Qed.

Lemma ahead_begins ns ahead t : headed t -> put_ahead t ns ahead ->
  forall c rest, ahead ++ t = c :: rest -> is_whitespace c = false.
Proof.
  intros [more ->] Ha c rest E. destruct Ha as [|attributes Ha Hc|[|n ns] Hne Hns|[|n ns] attributes Hne Hns Ha Hc]; try done.
  - by injection E as <- _.
  - by injection E as <- _.
  - unfold pictures in E. cbn [fmap list_fmap] in E. destruct (placeholder <$> ns); by injection E as <- _.
  - unfold pictures in E. cbn [fmap list_fmap] in E. destruct (placeholder <$> ns); by injection E as <- _.
Qed.

(** An item of a record that shows a message's marker behind what Claude Code puts there, and space. *)
Definition shows_marker (id : Z) (r : text) : Prop :=
  exists space ns ahead rest, Forall (fun c => is_whitespace c = true) space /\
    window_text r = space ++ ahead ++ marker_of id ++ rest /\ put_ahead (marker_of id ++ rest) ns ahead.

Lemma marker_is_known id r i : shows_marker id r -> is_paste_of r i None = (i =? id).
Proof.
  intros (space & ns & ahead & rest & Hs & Er & Ha). unfold is_paste_of.
  assert (trim_space (window_text r) = ahead ++ marker_of id ++ rest) as ->.
  { rewrite Er. apply trim_space_app; [done|]. apply (ahead_begins ns); [apply headed_marker|done]. }
  fold (paste_in (ahead ++ marker_of id ++ rest)). rewrite (paste_behind ns) by (done || apply headed_marker).
  cbn [mbind option_bind]. rewrite orb_false_r, marker_is. destruct (contains (marker_of i) r) eqn:Ec; [done|]. symmetry.
  apply Z.eqb_neq. intros ->. rewrite (window_text_has (space ++ ahead) (marker_of id) rest) in Ec; [done|apply marker_clean|].
  by rewrite Er, app_assoc.
Qed.

(** ** A message's own paste *)

Lemma text_of_marker alphanumeric m carried cf again told_in :
  exists rest, text_of alphanumeric m carried cf again told_in = marker_of (v_id m) ++ rest.
Proof.
  assert (DOT = txt " " ++ [0xB7; 0x20]) as Ed by done.
  unfold text_of, header, marker_of. destruct (words_of _ _ _ _) as [whole read_all].
  destruct (v_task_number m); rewrite Ed; eexists; rewrite <- !app_assoc; reflexivity.
Qed.

(** The record of a paste: its first line and what of the rest the harness kept, however it cut it,
    behind what Claude Code puts there. *)
Definition recorded (given r : text) : Prop :=
  exists space ns ahead head more tail, Forall (fun c => is_whitespace c = true) space /\
    window_text given = head ++ more /\ 0x0A ∈ head /\
    window_text r = space ++ ahead ++ head ++ tail /\ put_ahead (head ++ tail) ns ahead.

Lemma marker_one_line i : 0x0A ∉ marker_of i.
Proof. intros H. pose proof (marker_clean i) as Hc. rewrite Forall_forall in Hc. by specialize (Hc _ H). Qed.

Lemma recorded_marker given r id rest :
  given = marker_of id ++ rest -> recorded given r -> shows_marker id r.
Proof.
  intros -> (space & ns & ahead & head & more & tail & Hs & Eg & Hlf & Er & Ha).
  rewrite window_text_clean in Eg by apply marker_clean. symmetry in Eg.
  apply app_eq_inv in Eg as [(k & -> & _)|(k & E & _)].
  - rewrite <- !app_assoc in *. by exists space, ns, ahead, (k ++ tail).
  - exfalso. apply (marker_one_line id). rewrite E. apply elem_of_app. by left.
Qed.

(** C20: a record that has the first line of a message's paste whole, behind no more than Claude Code puts
    there (space, the placeholders of its pictures, its wrapper's opening), is that message's paste and no
    other's, whatever its words say or quote, however the lines end in it and however much of the rest was
    kept ([recorded]). Not so one whose harness put words typed before in front of it or changed the first
    line's characters, as Devin's may. *)
Theorem paste_is_known alphanumeric m carried cf again told_in r i :
  recorded (delivery_text_beside alphanumeric m carried cf again told_in) r ->
  is_paste_of r i None = (i =? v_id m).
Proof.
  intros H. apply marker_is_known. destruct (text_of_marker alphanumeric m carried cf (if again then SENT_AGAIN else []) told_in) as [rest E].
  by apply (recorded_marker _ _ _ rest E).
Qed.

(** ** What is no paste *)

Lemma take_digits_spec t : exists ds, t = ds ++ (take_digits t).2 /\ (take_digits t).1 = ds /\ Forall (fun c => Text.is_digit c = true) ds.
Proof.
  induction t as [|c t (ds & E & E1 & Hd)]; [by exists []|]. simpl. destruct (Text.is_digit c) eqn:Ec; [|by exists []].
  destruct (take_digits t) as [ds' after]. simpl in *. subst ds'. exists (c :: ds). split_and!; [by rewrite E|done|by constructor].
Qed.

Lemma pictures_cons n ns : ns <> [] -> pictures (n :: ns) = placeholder n ++ txt " " ++ pictures ns.
Proof. by destruct ns. Qed.

Lemma placeholders_Some turns seen t head :
  placeholders turns seen t = Some head -> starts_with IMAGE head = false ->
  (seen = true /\ t = head) \/ exists ns, ns <> [] /\ Forall number_text ns /\ t = pictures ns ++ head.
Proof.
  revert seen t. induction turns as [|turns IH]; intros seen t H Hh; cbn [placeholders] in H.
  { destruct seen; [left|done]. by injection H as ->. }
  destruct (strip_prefix IMAGE t) as [after|] eqn:Es; [|destruct seen; [left; by injection H as ->|done]].
  assert ((if seen then Some t else None) = Some head -> False) as Hbreak.
  { destruct seen; [|done]. intros [= <-]. unfold starts_with in Hh. by rewrite Es in Hh. }
  apply strip_prefix_Some in Es. destruct (take_digits_spec after) as (ds & Eds & E1 & Hds).
  destruct (take_digits after) as [ds' after']. simpl in *. subst ds'. destruct ds as [|d ds]; [by apply Hbreak in H|].
  destruct after' as [|c next]; [by apply Hbreak in H|]. destruct (Z.eqb_spec c 0x5D) as [->|Hc]; [|by apply Hbreak in H].
  assert (number_text (d :: ds)) as Hn by done.
  assert (t = placeholder (d :: ds) ++ next) as Et.
  { rewrite Es, Eds. unfold placeholder. by rewrite <- !app_assoc. }
  right. destruct (strip_prefix (txt " ") next) as [more|] eqn:Em.
  - apply strip_prefix_Some in Em. destruct (starts_with IMAGE more) eqn:Ei.
    + destruct (IH true more H Hh) as [[_ ->]|(ns & Hne & Hns & ->)]; [by rewrite Ei in Hh|].
      exists ((d :: ds) :: ns). split_and!; [done|by constructor|]. by rewrite Et, Em, pictures_cons, <- !app_assoc.
    + injection H as <-. exists [d :: ds]. by split_and!; [|constructor|].
  - injection H as <-. exists [d :: ds]. by split_and!; [|constructor|].
Qed.

Lemma trim_space_split t : exists s, Forall (fun c => is_whitespace c = true) s /\ t = s ++ trim_space t.
Proof.
  induction t as [|c t (s & Hs & E)]; [by exists []|]. simpl. destruct (is_whitespace c) eqn:Ec; [|by exists []].
  exists (c :: s). split; [by constructor|]. simpl. by rewrite <- E.
Qed.

Lemma wrapper_spec t attributes inner :
  after_wrapper_opening t = Some (attributes, inner) -> attributes_ok attributes /\ t = opens attributes ++ inner.
Proof.
  unfold after_wrapper_opening. intros (rest & (t' & Et & Er)%bind_Some & ([a b] & Es & H)%bind_Some)%bind_Some.
  apply strip_prefix_Some in Et as ->. apply strip_prefix_Some in Er as ->. apply split_once_Some in Es as ->.
  destruct (_ && _) eqn:E; [|done]. injection H as -> ->. apply andb_true_iff in E as [Ea Eno%negb_true_iff]. split.
  - split.
    + apply orb_true_iff in Ea as [Ea|Ea]; [left; by apply bool_decide_eq_true in Ea|right].
      apply starts_with_spec in Ea as [more ->]. by exists more.
    + apply Forall_forall. intros c Hc. rewrite <- not_true_iff_false, existsb_exists in Eno.
      split; intros ->; apply Eno; eexists; (split; [by apply list_elem_of_In|done]).
  - unfold opens. by rewrite <- !app_assoc.
Qed.

Lemma unwrapped_spec t :
  unwrapped t = t \/ exists attributes inner, attributes_ok attributes /\ t = opens attributes ++ inner /\ unwrapped t = inner.
Proof.
  unfold unwrapped. destruct (after_wrapper_opening t) as [[attributes inner]|] eqn:E; [|by left].
  apply wrapper_spec in E as [Ha ->]. destruct (contains _ _); [right|by left]. by exists attributes, inner.
Qed.

Lemma wrapped_by_claude attributes : attributes_ok attributes ->
  after_wrapper_opening (opens attributes) = Some (attributes, []).
Proof. intros Ha. rewrite <- (app_nil_r (opens attributes)). by apply wrapper_opens. Qed.

Lemma trim_space_opens attributes : trim_space (opens attributes) = opens attributes.
Proof. done. Qed.

Lemma no_picture_nil : no_picture [].
Proof. split; [done|]. intros more E. discriminate E. Qed.

Lemma trim_space_pictures ns t : ns <> [] -> trim_space (pictures ns ++ t) = pictures ns ++ t.
Proof.
  intros Hne. destruct ns as [|n ns]; [done|]. unfold pictures. cbn [fmap list_fmap]. by destruct (placeholder <$> ns).
Qed.

(** What comes before the paste of an item is nothing a person wrote. *)
Lemma before_paste t :
  (forall rest, paste_in t = rest -> starts_with IMAGE rest = false /\ strip_prefix (txt "<") rest = None /\ rest <> []) ->
  exists before, t = before ++ paste_in t /\
    forall s, Forall (fun c => is_whitespace c = true) s -> trim_space t = t -> put_there_by_claude (s ++ before) = true.
Proof.
  intros Hhead. assert (forall s u, Forall (fun c => is_whitespace c = true) s -> trim_space u = u -> trim_space (s ++ u) = u) as Htrim.
  { intros s u Hs Hu. rewrite <- Hu at 2. clear Hhead Hu. induction Hs as [|c s Hc _ IH]; [done|]. simpl. by rewrite Hc. }
  unfold paste_in in *. destruct (after_placeholders t) as [head|] eqn:Ep.
  - destruct (strip_prefix PARAGRAPH head) as [inner|] eqn:Eh.
    + apply strip_prefix_Some in Eh.
      apply placeholders_Some in Ep as [[? _]|(ns & Hne & Hns & ->)]; [done| |by rewrite Eh].
      assert (forall u, after_placeholders (pictures ns ++ PARAGRAPH ++ u) = Some (PARAGRAPH ++ u)) as Ea.
      { intros u. apply after_pictures; [done..|apply break_no_picture]. }
      destruct (unwrapped_spec inner) as [E|(attributes & inner' & Ha & E1 & E2)].
      * rewrite E. exists (pictures ns ++ PARAGRAPH). split; [by rewrite Eh, <- app_assoc|]. intros s Hs _.
        unfold put_there_by_claude. rewrite Htrim by (done || by apply trim_space_pictures).
        rewrite <- (app_nil_r PARAGRAPH), Ea. done.
      * rewrite E2. exists (pictures ns ++ PARAGRAPH ++ opens attributes). split; [by rewrite Eh, E1, <- !app_assoc|].
        intros s Hs _. unfold put_there_by_claude. rewrite Htrim by (done || by apply trim_space_pictures).
        rewrite Ea. change (trim_space (PARAGRAPH ++ opens attributes)) with (opens attributes).
        by rewrite wrapped_by_claude, orb_true_r.
    + destruct (Hhead head eq_refl) as (Hi & _ & _).
      apply placeholders_Some in Ep as [[? _]|(ns & Hne & Hns & ->)]; [done| |done].
      exists (pictures ns). split; [done|]. intros s Hs _. unfold put_there_by_claude.
      rewrite Htrim by (done || by rewrite <- (app_nil_r (pictures ns)), trim_space_pictures).
      rewrite <- (app_nil_r (pictures ns)), after_pictures; [done..|apply no_picture_nil].
  - destruct (unwrapped_spec t) as [E|(attributes & inner & Ha & E1 & E2)].
    + rewrite E. exists []. split; [done|]. intros s Hs _. unfold put_there_by_claude. by rewrite Htrim.
    + rewrite E2. exists (opens attributes). split; [done|]. intros s Hs _. unfold put_there_by_claude.
      rewrite Htrim by done. rewrite <- (app_nil_r (opens attributes)), after_none by apply opens_no_picture.
      by rewrite app_nil_r, wrapped_by_claude, orb_true_r.
Qed.

(** An item taken for a message's paste holds, before the message's header, only what Claude Code put
    there: a header quoted behind words, a person's or another message's, proves nothing arrived. *)
Theorem quoted_header_is_no_paste r i :
  is_paste_of r i None = true ->
  exists before rest, window_text r = before ++ marker_of i ++ rest /\ put_there_by_claude before = true.
Proof.
  unfold is_paste_of. destruct (negb _); [done|]. set (t := trim_space (window_text r)). fold (paste_in t).
  cbn [mbind option_bind]. rewrite orb_false_r. intros [rest E]%starts_with_spec.
  destruct (trim_space_split (window_text r)) as (s & Hs & Er). fold t in Er.
  destruct (before_paste t) as (before & Et & Hb).
  { intros p Ep. rewrite E in Ep. subst p. pose proof (headed_marker i rest) as Hh. split_and!.
    - destruct (headed_no_picture _ Hh) as [Hn _]. unfold starts_with. by rewrite Hn.
    - by apply headed_starts.
    - unfold marker_of. intros [=]. }
  exists (s ++ before), rest. split; [by rewrite Er, Et, E, <- app_assoc|]. apply Hb; [done|].
  unfold t. clear. induction (window_text r) as [|c l IH]; [done|]. simpl. destruct (is_whitespace c) eqn:Ec; [done|].
  simpl. by rewrite Ec.
Qed.

(** ** Behind its brief *)

(** A line whole, with its end. *)
Definition whole_line (l : text) : Prop := exists b, l = b ++ LINE /\ 0x0A ∉ b.

Lemma lines_first b rest : 0x0A ∉ b -> lines_inclusive (b ++ 0x0A :: rest) = (b ++ LINE) :: lines_inclusive rest.
Proof.
  induction b as [|c b IH]; [done|]. intros [Hc Hb]%not_elem_of_cons. cbn [app lines_inclusive].
  rewrite (proj2 (Z.eqb_neq _ _)) by congruence. by rewrite IH.
Qed.

Lemma lines_whole t : Forall whole_line (lines_inclusive (t ++ LINE)).
Proof.
  assert (forall n t, (length t <= n)%nat -> Forall whole_line (lines_inclusive (t ++ LINE))) as H; [|by apply (H (length t))].
  clear t. induction n as [|n IH]; intros t Hn.
  { destruct t; [|simpl in Hn; lia]. constructor; [|constructor]. exists []. split; [done|apply not_elem_of_nil]. }
  destruct (decide (0x0A ∈ t)) as [Hin|Hin].
  - apply list_elem_of_split_l in Hin as (a & b & -> & Ha). rewrite <- app_assoc. simpl. rewrite lines_first by done.
    constructor; [by exists a|]. apply IH. rewrite length_app in Hn. simpl in Hn. lia.
  - change LINE with ([0x0A] : text). rewrite lines_first by done. constructor; [by exists t|constructor].
Qed.

(** Lines of a brief as the record keeps them: where pictures were attached, a blank line may be taken
    out, and a picture's for each of them. *)
Inductive kept_lines (handled : bool) : nat -> list text -> text -> text -> Prop :=
| KeptEnd k rest : kept_lines handled k [] rest rest
| KeptLine k l ls kept rest : kept_lines handled k ls kept rest -> kept_lines handled k (l :: ls) (l ++ kept) rest
| TakenBlank k l ls kept rest : handled = true -> trim_both l = [] -> kept_lines handled k ls kept rest ->
    kept_lines handled k (l :: ls) kept rest
| TakenPicture k l ls kept rest : names_an_image l = true -> kept_lines handled k ls kept rest ->
    kept_lines handled (S k) (l :: ls) kept rest.

(** It begins with no line that may be taken out. *)
Definition solid (t : text) : Prop :=
  forall l rest, whole_line l -> t = l ++ rest -> trim_both l <> [] /\ names_an_image l = false.

Lemma line_prefix l l' a b : whole_line l -> whole_line l' -> l ++ a = l' ++ b -> l = l' /\ a = b.
Proof.
  intros (x & -> & Hx) (y & -> & Hy) E. rewrite <- !app_assoc in E. simpl in E.
  assert (forall x y a b, 0x0A ∉ x -> 0x0A ∉ y -> x ++ 0x0A :: a = y ++ 0x0A :: b -> x = y /\ a = b) as H.
  { clear. induction x as [|c x IH]; intros [|d y] a b Hx Hy E; simpl in *; simplify_eq; try done; try set_solver.
    apply not_elem_of_cons in Hx as [_ Hx], Hy as [_ Hy]. by destruct (IH y a b Hx Hy H0) as [-> ->]. }
  by destruct (H x y a b Hx Hy E) as [-> ->].
Qed.

(** A line taken out first, though the same line comes, may as well be kept and the next taken out. *)
Lemma kept_sooner h k ls l kept rest :
  Forall whole_line ls -> whole_line l -> solid rest -> kept_lines h k ls (l ++ kept) rest ->
  (h = true -> trim_both l = [] -> kept_lines h k ls kept rest) /\
  (names_an_image l = true -> kept_lines h (S k) ls kept rest).
Proof.
  intros Hls Hl Hsolid H. remember (l ++ kept) as kept' eqn:E. induction H as [k rest|k l2 ls kept2 rest H IH|k l2 ls kept2 rest Hh Hb H IH|k l2 ls kept2 rest Hi H IH].
  - destruct (Hsolid l kept Hl E) as [Hb Hi]. split; [done|by rewrite Hi].
  - apply Forall_cons in Hls as [Hl2 Hls]. destruct (line_prefix l2 l kept2 kept Hl2 Hl E) as [-> ->].
    split; [by intros; apply TakenBlank|by intros; apply TakenPicture].
  - apply Forall_cons in Hls as [Hl2 Hls]. destruct (IH Hls Hsolid E) as [IHb IHi].
    split; intros; apply TakenBlank; auto.
  - apply Forall_cons in Hls as [Hl2 Hls]. destruct (IH Hls Hsolid E) as [IHb IHi].
    split; intros; apply TakenPicture; auto.
Qed.

Lemma kept_lines_read h k k' ls kept rest :
  Forall whole_line ls -> solid rest -> (k <= k')%nat -> kept_lines h k ls kept rest ->
  after_lines h k' ls kept = Some rest.
Proof.
  intros Hls Hsolid. revert k k' kept. induction ls as [|l ls IH]; intros k k' kept Hk H; [by inversion H|].
  apply Forall_cons in Hls as [Hl Hls]. specialize (IH Hls). cbn [after_lines].
  destruct (strip_prefix l kept) as [kept'|] eqn:Es.
  - apply strip_prefix_Some in Es as ->. inversion H as [|? ? ? kept2 ? H2|? ? ? ? ? Hh Hb H2|k2 ? ? ? ? Hi H2]; subst.
    + match goal with E : l ++ _ = l ++ _ |- _ => apply app_inv_head in E as -> end. by apply (IH k).
    + apply (IH k); [done|]. by apply (kept_sooner _ k ls l kept' rest).
    + apply (IH (S k2)); [done|]. by apply (kept_sooner _ k2 ls l kept' rest).
  - inversion H as [|? ? ? kept2 ? H2|? ? ? ? ? Hh Hb H2|k2 ? ? ? ? Hi H2]; subst.
    + by rewrite strip_prefix_app in Es.
    + rewrite bool_decide_eq_true_2 by done. simpl. by apply (IH k).
    + destruct (_ && _); [apply (IH k2); [lia|done]|]. destruct k' as [|k']; [lia|]. rewrite Hi. apply (IH k2); [lia|done].
Qed.

(** *** A header is one line, and no picture's *)

Lemma trim_end_snoc t c : trim_end (t ++ [c]) = if is_whitespace c then trim_end t else t ++ [c].
Proof.
  induction t as [|d t IH]; simpl; [by destruct (is_whitespace c)|]. rewrite IH. destruct (is_whitespace c); [done|].
  by destruct (t ++ [c]) eqn:E; [destruct t|].
Qed.

Lemma after_last_dot_snoc t c : c <> 0x2E -> match after_last_dot (t ++ [c]) with Some kind => exists k, kind = k ++ [c] | None => True end.
Proof.
  intros Hc. induction t as [|d t IH]; simpl; [by destruct (Z.eqb_spec c 0x2E)|].
  destruct (after_last_dot (t ++ [c])); [done|]. destruct (d =? 0x2E); [by exists t|done].
Qed.

Lemma bracket_ends_no_picture t : headed t -> trim_both (t ++ [0x5D; 0x0A]) <> [] /\ names_an_image (t ++ [0x5D; 0x0A]) = false.
Proof.
  intros [rest ->]. assert (trim_both ((HEADER_START ++ rest) ++ [0x5D; 0x0A]) = (HEADER_START ++ rest) ++ [0x5D]) as E.
  { unfold trim_both. change (trim_space _) with ((HEADER_START ++ rest) ++ [0x5D; 0x0A]).
    change [0x5D; 0x0A] with ([0x5D] ++ [0x0A]). by rewrite app_assoc, trim_end_snoc, trim_end_snoc. }
  split; [rewrite E; by intros [_ [=]]%app_nil|]. unfold names_an_image. rewrite E. set (t := HEADER_START ++ rest).
  assert (forall q, q <> 0x5D -> strip_suffix [q] (t ++ [0x5D]) = None) as Hq.
  { intros q Hq. by apply (strip_suffix_other _ _ [] t []). }
  rewrite !Hq by done. cbn [default]. pose proof (after_last_dot_snoc t 0x5D ltac:(done)) as Hd.
  destruct (after_last_dot (t ++ [0x5D])) as [kind|]; [|done]. destruct Hd as [k ->].
  apply bool_decide_eq_false. rewrite fmap_app. change (ascii_lower <$> [0x5D]) with ([0x5D] : text). intros Hin.
  assert (Forall (fun image => last image <> Some 0x5D) IMAGES) as Hl by (repeat constructor; done).
  rewrite Forall_forall in Hl. specialize (Hl _ Hin). apply Hl. by rewrite last_snoc.
Qed.

(** [window_text] keeps lines as they are. *)
Lemma window_text_apart a c b : c <> 0x0A -> window_text (a ++ c :: b) = window_text a ++ window_text (c :: b).
Proof.
  intros Hc. induction a as [|d a IH]; [done|]. cbn [app]. rewrite (window_text_cons d (a ++ c :: b)), (window_text_cons d a), IH.
  assert (bool_decide (head (a ++ c :: b) = Some 0x0A) = bool_decide (head a = Some 0x0A)) as ->; [|by destruct (_ && _)].
  destruct a; [|done]. simpl. apply bool_decide_eq_false_2. congruence.
Qed.

Lemma shown_break c : shown c = 0x0A -> c = 0x0A.
Proof. unfold shown, within, REPLACEMENT_CHARACTER, TAB, LF. intros E. repeat case_match; lia. Qed.

Lemma window_text_one_line t : 0x0A ∉ t -> 0x0A ∉ window_text t.
Proof.
  induction t as [|c t IH]; [done|]. intros [Hc Ht]%not_elem_of_cons. rewrite window_text_cons.
  destruct (_ && _); [by apply IH|]. apply not_elem_of_cons. split; [|by apply IH]. by intros E%eq_sym%shown_break.
Qed.

Lemma window_text_ends t : exists u, window_text (t ++ LINE) = u ++ LINE.
Proof.
  induction t as [|c t [u E]]; [by exists []|]. cbn [app]. rewrite window_text_cons, E.
  destruct (_ && _); [by exists u|by exists (shown c :: u)].
Qed.

Lemma absent (t : text) : bool_decide (0x0A ∉ t) = true -> 0x0A ∉ t.
Proof. apply bool_decide_eq_true. Qed.

(** Who a message is from and what it is are said in one line. *)
Definition one_line_header (m : MessageView) : Prop :=
  0x0A ∉ v_kind m /\ 0x0A ∉ from_of m.

Lemma header_line alphanumeric m carried cf again told_in suffix :
  one_line_header m ->
  exists first rest, window_text (delivery_text_beside alphanumeric m carried cf again told_in ++ suffix) =
    first ++ [0x5D; 0x0A] ++ rest /\ 0x0A ∉ first /\ exists more, first = marker_of (v_id m) ++ more.
Proof.
  intros [Hk Hf]. unfold delivery_text_beside, text_of, header. destruct (words_of _ _ _ _) as [whole read_all].
  rewrite <- !app_assoc. set (body := _ ++ footer _ _ _ ++ suffix). set (task := match v_task_number m with Some number => _ | None => _ end).
  set (again_ := if again then SENT_AGAIN else []).
  assert (exists more, task ++ DOT ++ v_kind m ++ txt " from " ++ from_of m ++ again_ = txt " " ++ more /\ 0x0A ∉ more) as (more & Em & Hm).
  { assert (0x0A ∉ task ++ DOT ++ v_kind m ++ txt " from " ++ from_of m ++ again_) as H.
    { rewrite !not_elem_of_app. split_and!; try done.
      - unfold task. destruct (v_task_number m) as [n|]; [|apply not_elem_of_nil]. rewrite !not_elem_of_app. split_and!; try by apply absent.
        intros Hin. pose proof (show_no 0x0A n eq_refl ltac:(done)) as Hs. rewrite Forall_forall in Hs. by apply (Hs _ Hin).
      - by apply absent.
      - by apply absent.
      - unfold again_. by destruct again; apply absent. }
    assert (head (task ++ DOT ++ v_kind m ++ txt " from " ++ from_of m ++ again_) = Some 0x20) as Eh.
    { unfold task. by destruct (v_task_number m). }
    destruct (task ++ _) as [|c l]; [done|]. injection Eh as ->. apply not_elem_of_cons in H as [_ H]. by exists l. }
  exists (window_text (marker_of (v_id m) ++ more)), (window_text body).
  assert (0x0A ∉ marker_of (v_id m) ++ more) as Hno by (rewrite not_elem_of_app; split; [apply marker_one_line|done]).
  split_and!; [|by apply window_text_one_line|by exists (window_text more); apply window_text_clean, marker_clean].
  transitivity (window_text ((marker_of (v_id m) ++ more) ++ 0x5D :: 0x0A :: body)).
  - f_equal. unfold marker_of. rewrite <- !app_assoc, (app_assoc (txt " ") more), <- Em, <- !app_assoc. done.
  - rewrite window_text_apart by done. f_equal. by rewrite !window_text_cons.
Qed.

Lemma count_pictures ns turns : Forall number_text ns -> (length ns <= turns)%nat -> count_matches turns IMAGE (pictures ns) = length ns.
Proof.
  pose (sep := [0x49; 0x6D; 0x61; 0x67; 0x65; 0x20; 0x23] : text). change IMAGE with (0x5B :: sep). intros Hns.
  assert (forall n tail, number_text n -> split_once (0x5B :: sep) (n ++ txt "]" ++ tail) =
            prod_map (app (n ++ txt "]")) id <$> split_once (0x5B :: sep) tail) as Hskip.
  { intros n tail [_ Hn]. rewrite app_assoc. apply split_once_skip. apply Forall_app_2; [|by repeat constructor].
    eapply Forall_impl; [exact Hn|]. by intros c Hc ->. }
  enough (forall pre, (exists n, number_text n /\ pre = n ++ txt "]" ++ txt " ") \/ pre = [] ->
    forall turns, (length ns <= turns)%nat -> count_matches turns (0x5B :: sep) (pre ++ pictures ns) = length ns) as H.
  { intros Ht. apply (H []); [by right|done]. }
  induction Hns as [|n ns Hn Hns IH]; intros pre Hpre turns' Ht.
  - destruct turns' as [|turns']; [done|]. cbn [count_matches]. rewrite app_nil_r.
    destruct Hpre as [(n & Hn & ->)| ->]; [|done]. by rewrite Hskip.
  - destruct turns' as [|turns']; [simpl in Ht; lia|]. cbn [count_matches].
    assert (exists rest before, split_once (0x5B :: sep) (pre ++ pictures (n :: ns)) = Some (before, rest) /\
      ((ns = [] /\ rest = n ++ txt "]") \/ (ns <> [] /\ rest = (n ++ txt "]" ++ txt " ") ++ pictures ns))) as (rest & before & Es & Hr).
    { assert (exists tail, pictures (n :: ns) = (0x5B :: sep) ++ n ++ txt "]" ++ tail /\
        (ns = [] /\ tail = [] \/ ns <> [] /\ tail = txt " " ++ pictures ns)) as (tail & -> & Htail).
      { destruct ns as [|n' ns]; [exists []; split; [by unfold pictures, placeholder|by left]|].
        exists (txt " " ++ pictures (n' :: ns)). split; [|by right].
        rewrite pictures_cons by done. unfold placeholder. by rewrite <- !app_assoc. }
      assert (exists before, split_once (0x5B :: sep) (pre ++ (0x5B :: sep) ++ n ++ txt "]" ++ tail) = Some (before, n ++ txt "]" ++ tail)) as [before Eb].
      { destruct Hpre as [(k & Hk & ->)| ->]; [|exists []; rewrite app_nil_l; apply split_once_here]. exists (k ++ txt "]" ++ txt " ").
        apply split_once_first. destruct Hk as [_ Hk]. apply Forall_app_2; [|by repeat constructor].
        eapply Forall_impl; [exact Hk|]. by intros c Hc ->. }
      exists (n ++ txt "]" ++ tail), before. split; [exact Eb|]. destruct Htail as [[-> ->]|[Hne ->]]; [left|right]; (split; [done|]).
      - by rewrite app_nil_r.
      - by rewrite <- !app_assoc. }
    rewrite Es. cbn [length]. f_equal. simpl in Ht. destruct Hr as [[-> ->]|[Hne ->]].
    + destruct turns'; [done|]. cbn [count_matches]. by rewrite <- (app_nil_r (txt "]")), Hskip.
    + apply IH; [left; by exists n|lia].
Qed.

(** The record of a fresh window's first message, given behind its brief: the brief's lines but those
    taken out, and the message. *)
Definition recorded_behind (first given r : text) : Prop :=
  exists space ns ahead kept head more tail, Forall (fun c => is_whitespace c = true) space /\
    window_text given = head ++ more /\ 0x0A ∈ head /\
    window_text r = space ++ ahead ++ kept /\ put_ahead kept ns ahead /\
    kept_lines (0 <? length ns)%nat (length ns) (lines_inclusive (window_text first)) kept (head ++ tail).

Lemma kept_lines_end h k ls kept rest : kept_lines h k ls kept rest -> exists before, kept = before ++ rest.
Proof.
  induction 1 as [k rest|k l ls kept rest _ [b ->]|k l ls kept rest _ _ _ [b ->]|k l ls kept rest _ _ [b ->]].
  - by exists [].
  - exists (l ++ b). by rewrite app_assoc.
  - by exists b.
  - by exists b.
Qed.

(** The pictures an item begins with are counted. *)
Lemma attached_count ns ahead t : headed t -> put_ahead t ns ahead ->
  match after_placeholders (ahead ++ t) with
  | Some head => let before := take (length (ahead ++ t) - length head) (ahead ++ t) in
                 count_matches (length before) IMAGE before
  | None => 0%nat
  end = length ns.
Proof.
  intros Ht Ha. pose proof (headed_no_picture t Ht) as Hnp.
  assert (forall ns tail, Forall number_text ns ->
    let before := take (length (pictures ns ++ tail) - length tail) (pictures ns ++ tail) in
    count_matches (length before) IMAGE before = length ns) as Hcount.
  { clear. intros ns tail Hns before. assert (before = pictures ns) as ->.
    { unfold before. rewrite length_app. replace (_ + _ - _)%nat with (length (pictures ns)) by lia. by rewrite take_app_length. }
    apply count_pictures; [done|apply pictures_length]. }
  destruct Ha as [|attributes Ha Hc|ns Hne Hns|ns attributes Hne Hns Ha Hc].
  - simpl. by rewrite after_none by apply Hnp.
  - by rewrite after_none by apply opens_no_picture.
  - rewrite after_pictures by done. by apply Hcount.
  - rewrite <- !app_assoc, after_pictures by (done || apply break_no_picture). by apply Hcount.
Qed.

Lemma header_whole f : 0x0A ∉ f -> whole_line (f ++ [0x5D; 0x0A]).
Proof.
  intros Hf. exists (f ++ [0x5D]). rewrite <- app_assoc. split; [done|].
  rewrite not_elem_of_app. split; [done|by apply absent].
Qed.

Lemma line_of_head first rest head more tail : 0x0A ∉ first -> first ++ [0x5D; 0x0A] ++ rest = head ++ more -> 0x0A ∈ head ->
  exists tail', head ++ tail = (first ++ [0x5D; 0x0A]) ++ tail'.
Proof.
  intros Hf E Hlf. rewrite app_assoc in E. apply app_eq_inv in E as [(k & E & _)|(k & -> & _)].
  - destruct (list_elem_of_split_l _ _ Hlf) as (a & b & Eh & Ha). subst head. exists (b ++ tail). rewrite <- app_assoc in E |- *.
    change [0x5D; 0x0A] with ([0x5D] ++ LINE) in *. rewrite !app_assoc in *.
    destruct (line_prefix (first ++ [0x5D] ++ LINE) (a ++ LINE) [] (b ++ k)) as [El _].
    + exists (first ++ [0x5D]). rewrite app_assoc. split; [done|]. rewrite not_elem_of_app. split; [done|by apply absent].
    + by exists a.
    + rewrite app_nil_r, !app_assoc, E, <- !app_assoc. done.
    + rewrite app_assoc in El. rewrite El, <- !app_assoc. done.
  - exists (k ++ tail). by rewrite app_assoc.
Qed.

(** The first message of a fresh window, given behind the brief it works on, is known in the record as
    well, as is the brief, and no other message: whatever pictures and blank lines of the brief Claude
    Code took out as it attached the pictures. *)
Theorem first_message_is_known alphanumeric brief brief_rows m carried cf again told_in r i :
  let first := brief_first alphanumeric brief brief_rows cf in
  one_line_header brief -> one_line_header m ->
  recorded_behind first (delivery_text_beside alphanumeric m carried cf again told_in) r ->
  is_paste_of r i (Some first) = (i =? v_id brief) || (i =? v_id m).
Proof.
  intros first Hob Hom (space & ns & ahead & kept & head & more & tail & Hs & Eg & Hlf & Er & Ha & Hk).
  destruct (header_line alphanumeric brief brief_rows cf false None PARAGRAPH Hob) as (f1 & rest1 & E1 & Hf1 & m1 & Em1).
  change (delivery_text_beside alphanumeric brief brief_rows cf false None ++ PARAGRAPH) with first in E1.
  destruct (header_line alphanumeric m carried cf again told_in [] Hom) as (f2 & rest2 & E2 & Hf2 & m2 & Em2).
  rewrite app_nil_r, Eg in E2. destruct (line_of_head f2 rest2 head more tail Hf2 (eq_sym E2) Hlf) as [tail' Et].
  assert (Forall whole_line (lines_inclusive (window_text first))) as Hwhole.
  { destruct (window_text_ends (delivery_text alphanumeric brief brief_rows cf ++ LINE)) as [u Eu].
    unfold first, brief_first. change PARAGRAPH with (LINE ++ LINE). rewrite app_assoc, Eu. apply lines_whole. }
  assert (solid (head ++ tail)) as Hsolid.
  { intros l rest Hl E. rewrite Et in E. apply line_prefix in E as [<- _]; [|by apply header_whole|done].
    apply bracket_ends_no_picture. rewrite Em2. apply headed_marker. }
  pose proof (kept_lines_read _ _ (length ns) _ _ _ Hwhole Hsolid (le_n _) Hk) as Hread.
  destruct (kept_lines_end _ _ _ _ _ Hk) as [before Ekept].
  assert (exists rest, kept = marker_of (v_id brief) ++ rest) as [rest Ek].
  { rewrite E1 in Hk. change ([0x5D; 0x0A] ++ rest1) with ([0x5D] ++ 0x0A :: rest1) in Hk.
    rewrite app_assoc, lines_first in Hk by (rewrite not_elem_of_app; split; [done|by apply absent]).
    destruct (bracket_ends_no_picture f1) as [Hb1 Hb2]; [rewrite Em1; apply headed_marker|].
    rewrite <- app_assoc in Hk. inversion Hk as [|? ? ? kept2|? ? ? ? ? ? Hb'|? ? ? ? ? Hb']; subst.
    - eexists. rewrite <- !app_assoc. reflexivity.
    - by destruct Hb1.
    - destruct (eq_true_false_abs _ Hb' Hb2). }
  assert (headed kept) as Hh by (rewrite Ek; apply headed_marker).
  unfold is_paste_of.
  assert (trim_space (window_text r) = ahead ++ kept) as ->.
  { rewrite Er. apply trim_space_app; [done|]. by apply (ahead_begins ns). }
  fold (paste_in (ahead ++ kept)). rewrite (paste_behind ns), (attached_count ns) by done.
  cbn [mbind option_bind]. unfold after_brief. rewrite Hread.
  assert (forall j, starts_with (marker_of j) kept = (j =? v_id brief)) as H1 by (intros j; rewrite Ek; apply marker_is).
  assert (forall j, starts_with (marker_of j) (head ++ tail) = (j =? v_id m)) as H2.
  { intros j. rewrite Et, Em2, <- !app_assoc. apply marker_is. }
  rewrite H1, H2. destruct (contains (marker_of i) r) eqn:Ec; [done|]. symmetry. apply orb_false_iff.
  split; apply Z.eqb_neq; intros ->.
  - rewrite (window_text_has (space ++ ahead) (marker_of (v_id brief)) rest) in Ec; [done|apply marker_clean|].
    by rewrite Er, Ek, <- app_assoc.
  - rewrite (window_text_has (space ++ ahead ++ before) (marker_of (v_id m)) (m2 ++ [0x5D; 0x0A] ++ tail')) in Ec; [done|apply marker_clean|].
    rewrite Er, Ekept, Et, Em2, <- !app_assoc. done.
Qed.

(** ** The message a paste names *)

Lemma header_after_pictures ns rest : Forall number_text ns ->
  exists before, split_once HEADER_START (pictures ns ++ HEADER_START ++ rest) = Some (before, rest).
Proof.
  pose (sep := txt "ConsensFlow m-"). change HEADER_START with (0x5B :: sep). intros Hns.
  induction Hns as [|n ns [Hne Hn] _ IH].
  { exists []. change (pictures []) with ([] : text). rewrite app_nil_l. apply split_once_here. }
  assert (exists gap, pictures (n :: ns) ++ (0x5B :: sep) ++ rest =
    IMAGE ++ (n ++ txt "]" ++ gap) ++ pictures ns ++ (0x5B :: sep) ++ rest /\ Forall (fun c => c <> 0x5B) gap) as (gap & E & Hgap).
  { destruct ns as [|n' ns].
    - exists []. unfold pictures, placeholder. cbn [fmap list_fmap join]. by rewrite app_nil_r, <- !app_assoc.
    - exists (txt " "). rewrite pictures_cons by done. unfold placeholder. rewrite <- !app_assoc.
      split; [done|by repeat constructor]. }
  destruct IH as [before IH]. exists (IMAGE ++ (n ++ txt "]" ++ gap) ++ before). rewrite E.
  pose (tail := txt "Image #" ++ (n ++ txt "]" ++ gap)).
  assert (split_once (0x5B :: sep) (0x5B :: tail ++ pictures ns ++ (0x5B :: sep) ++ rest) =
    prod_map (cons 0x5B) id <$> split_once (0x5B :: sep) (tail ++ pictures ns ++ (0x5B :: sep) ++ rest)) as Eb by done.
  change (IMAGE ++ (n ++ txt "]" ++ gap) ++ pictures ns ++ (0x5B :: sep) ++ rest)
    with (0x5B :: tail ++ pictures ns ++ (0x5B :: sep) ++ rest).
  rewrite Eb, split_once_skip, IH; [done|].
  unfold tail. apply Forall_app_2; [by repeat constructor|]. apply Forall_app_2; [|by constructor].
  eapply Forall_impl; [exact Hn|]. by intros c Hc ->.
Qed.

(** The message a record's item is said to be is the one whose paste it is, behind whatever pictures
    it has attached: its own header comes first, whatever headers its words quote. *)
Theorem paste_names_its_message alphanumeric m carried cf again told_in ns :
  is_i64 (v_id m) = true -> 0 <= v_id m -> Forall number_text ns ->
  header_id (pictures ns ++ delivery_text_beside alphanumeric m carried cf again told_in) = Some (v_id m).
Proof.
  intros Hi Hp Hns. unfold delivery_text_beside.
  destruct (text_of_marker alphanumeric m carried cf (if again then SENT_AGAIN else []) told_in) as [rest ->].
  unfold marker_of. rewrite <- !app_assoc. unfold header_id.
  destruct (header_after_pictures ns (show (v_id m) ++ txt " " ++ rest) Hns) as [before ->].
  cbn [mbind option_bind]. rewrite take_digits_all; [by apply read_show| |by intros c t [= <- _]].
  unfold show. destruct (Z.ltb_spec (v_id m) 0); [lia|]. by apply unsigned_spec.
Qed.

(** ** What a paste says of the rows it carries *)

Lemma row_insert_Permutation row rows : row_insert row rows ≡ₚ row :: rows.
Proof.
  induction rows as [|r rows IH]; simpl; [done|]. destruct (_ <=? _); [done|]. rewrite IH. apply Permutation_swap.
Qed.

Lemma by_id_Permutation rows : by_id rows ≡ₚ rows.
Proof. induction rows as [|r rows IH]; [done|]. unfold by_id. simpl. by rewrite row_insert_Permutation, IH. Qed.

Definition in_order : list MessageView -> Prop := StronglySorted (fun a b => v_id a <= v_id b).

Lemma row_insert_sorted row rows : in_order rows -> in_order (row_insert row rows).
Proof.
  induction 1 as [|r rows Hs IH Hr]; simpl; [by repeat constructor|]. destruct (Z.leb_spec (v_id row) (v_id r)).
  - constructor; [by constructor|]. constructor; [done|]. eapply Forall_impl; [exact Hr|]. simpl. lia.
  - constructor; [done|]. rewrite row_insert_Permutation. constructor; [lia|done].
Qed.

Lemma by_id_sorted rows : in_order (by_id rows).
Proof. induction rows as [|r rows IH]; [constructor|]. by apply row_insert_sorted. Qed.

(** The paste of a message that carries rows says, where it goes whole, every one of them and its own
    words, in the order of their ids, each under its own line but its own, between its header and its
    footer. *)
Theorem paste_says_what_rides alphanumeric m number carried cf again told_in :
  v_task_number m = Some number -> carried <> [] -> goes_whole alphanumeric m carried cf = true ->
  exists rows, rows ≡ₚ m :: carried /\ in_order rows /\
    delivery_text_beside alphanumeric m carried cf again told_in =
      header m (if again then SENT_AGAIN else []) ++ join PARAGRAPH (said_row alphanumeric m cf <$> rows) ++
      footer m cf told_in.
Proof.
  intros Hn Hc. exists (by_id (carried ++ [m])). split_and!.
  - rewrite by_id_Permutation. symmetry. apply Permutation_cons_append.
  - apply by_id_sorted.
  - unfold goes_whole, delivery_text_beside, text_of, words_of, composite in *.
    rewrite bool_decide_eq_false_2, Hn in * by done. simpl in *. by rewrite H.
Qed.

(** ** What a window is given of long words *)

Lemma opening_of_spec body units : exists rest,
  body = opening_of body units ++ rest /\ (utf16_len (opening_of body units) <= units)%nat /\
  forall c more, rest = c :: more -> (units < utf16_len (opening_of body units) + len_utf16 c)%nat.
Proof.
  revert units. induction body as [|c body IH]; intros units; [exists []; split_and!; [done|simpl; lia|done]|].
  simpl. destruct (Nat.ltb_spec units (len_utf16 c)).
  - exists (c :: body). split_and!; [done|simpl; lia|]. intros d more [= <- <-]. simpl. lia.
  - destruct (IH (units - len_utf16 c)%nat) as (rest & E & Hle & Hcut). exists rest. split_and!.
    + simpl. by rewrite <- E.
    + unfold utf16_len in *. simpl. lia.
    + intros d more Er. specialize (Hcut d more Er). unfold utf16_len in *. simpl. lia.
Qed.

(** Words longer than a paste is given go as their opening, cut between two characters at most where a
    pair would be halved, never as more than its limit, and with their length and the command that reads
    them; words no longer go whole. *)
Theorem long_words_go_as_their_opening alphanumeric m carried cf again told_in :
  let '(whole, read_all) := words_of alphanumeric m carried cf in
  exists body, delivery_text_beside alphanumeric m carried cf again told_in =
      header m (if again then SENT_AGAIN else []) ++ body ++ footer m cf told_in /\
    if goes_whole alphanumeric m carried cf then body = whole
    else exists cut c rest more, whole = cut ++ c :: rest /\ body = cut ++ LINE ++ txt "… (" ++ show (Z.of_nat (utf16_len whole)) ++ more /\
      (utf16_len cut <= OPENING < utf16_len cut + len_utf16 c)%nat /\ contains read_all more = true.
Proof.
  unfold delivery_text_beside, text_of, goes_whole. destruct (words_of alphanumeric m carried cf) as [whole read_all].
  cbn [fst]. eexists. split; [done|]. destruct (fits_whole whole) eqn:Ef; [done|].
  destruct (opening_of_spec whole OPENING) as (rest & E & Hle & Hcut). fold (opening whole) in *.
  destruct rest as [|c rest].
  - exfalso. rewrite app_nil_r in E. rewrite <- E in Hle. unfold fits_whole, OPENING, INLINE_LIMIT in *.
    apply Nat.leb_gt in Ef. lia.
  - exists (opening whole), c, rest, (txt " characters; read all of it with: " ++ read_all ++ txt ")").
    split_and!; [done|done|done|by apply (Hcut c rest)|apply contains_here].
Qed.

(** ** The item a message given again must come after *)

Section Arrival.
Context {T : Type} (id : T -> string) (is_paste : T -> bool).

Lemma rposition_spec (p : T -> bool) rows :
  match rposition p rows with
  | Some at_ => exists before row after, rows = before ++ row :: after /\ length before = at_ /\ p row = true /\
                  Forall (fun r => p r = false) after
  | None => Forall (fun r => p r = false) rows
  end.
Proof.
  induction rows as [|row rows IH]; simpl; [constructor|]. destruct (rposition p rows) as [at_|].
  - destruct IH as (before & r & after & -> & <- & Hp & Ha). by exists (row :: before), r, after.
  - destruct (p row) eqn:E; [by exists [], row, rows|by constructor].
Qed.

Lemma find_first (p : T -> bool) rows row :
  find p rows = Some row <->
  exists before after, rows = before ++ row :: after /\ p row = true /\ Forall (fun r => p r = false) before.
Proof.
  split.
  - induction rows as [|r rows IH]; simpl; [done|]. destruct (p r) eqn:E.
    + intros [= ->]. by exists [], rows.
    + intros (before & after & -> & Hp & Hb)%IH. exists (r :: before), after. split_and!; [done..|by constructor].
  - intros (before & after & -> & Hp & Hb). induction Hb as [|r before E _ IH]; simpl; [by rewrite Hp|by rewrite E].
Qed.

(** The item a message given again has arrived in is the first of its pastes after every item of the
    copy that never began, where the record holds that item, and else the first of them all: a copy
    before it proves nothing of the delivery. *)
Theorem arrival_is_after_its_boundary rows boundary row :
  let is_boundary r := bool_decide (boundary = Some (id r)) in
  arrived_among rows boundary id is_paste = Some row <->
  exists passed between after, rows = passed ++ between ++ row :: after /\ is_paste row = true /\
    Forall (fun r => is_paste r = false) between /\
    (passed = [] \/ exists r, last passed = Some r /\ is_boundary r = true) /\
    Forall (fun r => is_boundary r = false) (between ++ row :: after).
Proof.
  intros is_boundary. unfold arrived_among.
  assert (exists passed rest, rows = passed ++ rest /\
    drop match boundary ≫= fun before => rposition (fun row => bool_decide (id row = before)) rows with
         | Some at_ => at_ + 1 | None => 0 end rows = rest /\
    (passed = [] \/ exists r, last passed = Some r /\ is_boundary r = true) /\
    Forall (fun r => is_boundary r = false) rest) as (passed & rest & Erows & -> & Hp & Hr).
  { destruct boundary as [b|]; simpl.
    - pose proof (rposition_spec (fun row => bool_decide (id row = b)) rows) as Hs.
      assert (forall r, is_boundary r = bool_decide (id r = b)) as Hb.
      { intros r. apply bool_decide_ext. naive_solver. }
      destruct (rposition _ rows) as [at_|].
      + destruct Hs as (before & r & after & -> & <- & Hi & Ha). exists (before ++ [r]), after. split_and!.
        * by rewrite <- app_assoc.
        * change (r :: after) with ([r] ++ after). rewrite app_assoc, drop_app_length'; [done|]. by rewrite length_app.
        * right. exists r. by rewrite last_snoc, Hb.
        * eapply Forall_impl; [exact Ha|]. intros x. by rewrite Hb.
      + exists [], rows. split_and!; [done|done|by left|]. eapply Forall_impl; [exact Hs|]. intros x. by rewrite Hb.
    - exists [], rows. split_and!; [done|done|by left|]. apply Forall_forall. by intros. }
  rewrite find_first. split.
  - intros (between & after & -> & Hi & Hb). by exists passed, between, after.
  - intros (passed' & between & after & E & Hi & Hb & Hp' & Hr').
    enough (passed = passed') as <-; [exists between, after; split_and!; [|done..]|].
    { rewrite E in Erows. by apply app_inv_head in Erows. }
    assert (forall p1 r1 p2 r2, p1 ++ r1 = p2 ++ r2 -> Forall (fun r => is_boundary r = false) r1 ->
      (p2 = [] \/ exists r, last p2 = Some r /\ is_boundary r = true) -> exists k, p1 = p2 ++ k) as Hlong.
    { clear. intros p1 r1 p2 r2 E Hr [->|(r & Hl & Hb)]; [by exists p1|].
      apply app_eq_inv in E as [(k & -> & _)|(k & -> & ->)]; [by exists k|].
      destruct k as [|x k] using rev_ind; [exists []; by rewrite !app_nil_r|].
      rewrite app_assoc, last_snoc in Hl. injection Hl as ->.
      rewrite !Forall_app, Forall_singleton in Hr. destruct Hr as [[_ Hx] _]. congruence. }
    destruct (Hlong passed rest passed' (between ++ row :: after)) as [k1 E1]; [congruence|done..|].
    destruct (Hlong passed' (between ++ row :: after) passed rest) as [k2 E2]; [congruence|done..|].
    rewrite E1 in E2. rewrite <- app_assoc in E2. rewrite <- (app_nil_r passed') in E2 at 1.
    apply app_inv_head in E2. symmetry in E2. apply app_eq_nil in E2 as [-> _]. by rewrite app_nil_r in E1.
Qed.
End Arrival.

(** ** At a record of a paste *)

Definition result_7 : MessageView := View 7 (Some (txt "zeus")) (txt "result") (Some 3) None (txt "done: /work/desk.png") Null Null false.
Definition note_5 : MessageView := View 5 None (txt "note") (Some 3) None (txt "run cf task get T-3") Null Null false.
Definition windows_cf : cf_word := txt "/opt/cf".
Definition paste_7 : text := delivery_text_beside ascii_alphanumeric result_7 [note_5] windows_cf false (Some 5).

Definition number_4 : number_text (txt "4").
Proof. split; [done|by repeat constructor]. Qed.

(** The first line of the paste, cut there, behind a picture and in the wrapper. *)
Definition line_7 : text := default [] (head (lines_inclusive paste_7)).
Definition kept_7 : text := line_7 ++ txt "</pasted_content id=4> and more".
Definition record_7 : text := [0x20] ++ (pictures [txt "4"] ++ PARAGRAPH ++ opens (txt " id=4")) ++ kept_7.

Lemma record_7_is_recorded : recorded paste_7 record_7.
Proof.
  exists [0x20], [txt "4"], (pictures [txt "4"] ++ PARAGRAPH ++ opens (txt " id=4")), line_7,
    (drop (length line_7) paste_7), (txt "</pasted_content id=4> and more").
  split_and!.
  - by repeat constructor.
  - by vm_compute.
  - apply (bool_decide_eq_true (0x0A ∈ line_7)). by vm_compute.
  - by vm_compute.
  - constructor; [done| |split|by vm_compute].
    + constructor; [apply number_4|constructor].
    + right. by exists (txt "id=4").
    + by repeat constructor.
Qed.

Lemma paste_is_known_witness :
  is_paste_of record_7 7 None = true /\ is_paste_of record_7 5 None = false.
Proof. split; exact (paste_is_known ascii_alphanumeric result_7 [note_5] windows_cf false (Some 5) record_7 _ record_7_is_recorded). Defined.

Lemma quoted_header_is_no_paste_witness :
  is_paste_of record_7 7 None = true /\
  exists before rest, window_text record_7 = before ++ marker_of 7 ++ rest /\ put_there_by_claude before = true.
Proof.
  assert (is_paste_of record_7 7 None = true) as H by by vm_compute.
  split; [exact H|]. exact (quoted_header_is_no_paste record_7 7 H).
Defined.

Lemma paste_names_its_message_witness :
  header_id (pictures [txt "4"] ++ paste_7) = Some 7.
Proof.
  exact (paste_names_its_message ascii_alphanumeric result_7 [note_5] windows_cf false (Some 5) [txt "4"]
           eq_refl ltac:(by vm_compute) (Forall_cons_2 _ _ _ number_4 (Forall_nil_2 _))).
Defined.

Lemma paste_says_what_rides_witness : exists rows, rows ≡ₚ [result_7; note_5] /\ in_order rows /\
  paste_7 = header result_7 [] ++ join PARAGRAPH (said_row ascii_alphanumeric result_7 windows_cf <$> rows) ++
            footer result_7 windows_cf (Some 5).
Proof.
  exact (paste_says_what_rides ascii_alphanumeric result_7 3 [note_5] windows_cf false (Some 5)
           eq_refl ltac:(done) ltac:(by vm_compute)).
Defined.

(** A brief with a picture's path on a line of its own and a blank line, both taken out. *)
Definition brief_4 : MessageView := View 4 (Some (txt "zeus")) (txt "brief") (Some 3) None
  (txt "look at" ++ LINE ++ txt "/work/desk.png" ++ PARAGRAPH ++ txt "then fix it") Null Null false.
Definition first_4 : text := brief_first ascii_alphanumeric brief_4 [] windows_cf.
Definition kept_first : text :=
  txt "[ConsensFlow m-4 · T-3 · brief from @zeus]" ++ LINE ++ txt "look at" ++ LINE ++ txt "then fix it" ++ LINE.

Lemma first_4_lines : lines_inclusive (window_text first_4) =
  [txt "[ConsensFlow m-4 · T-3 · brief from @zeus]" ++ LINE; txt "look at" ++ LINE; txt "/work/desk.png" ++ LINE; LINE;
   txt "then fix it" ++ LINE; LINE].
Proof. by vm_compute. Qed.

Lemma record_behind_is_recorded :
  recorded_behind first_4 paste_7 (pictures [txt "4"] ++ kept_first ++ line_7).
Proof.
  exists [], [txt "4"], (pictures [txt "4"]), (kept_first ++ line_7), line_7, (drop (length line_7) paste_7), [].
  split_and!.
  - constructor.
  - by vm_compute.
  - apply (bool_decide_eq_true (0x0A ∈ line_7)). by vm_compute.
  - by vm_compute.
  - constructor; [done|]. constructor; [apply number_4|constructor].
  - rewrite first_4_lines, app_nil_r. unfold kept_first.
    rewrite !(app_assoc (txt _) LINE). rewrite <- !(app_assoc (_ ++ LINE)).
    do 2 apply KeptLine. apply TakenPicture; [by vm_compute|]. apply TakenBlank; [done|by vm_compute|].
    apply KeptLine. apply TakenBlank; [done|by vm_compute|]. apply KeptEnd.
Qed.

Lemma one_line_4 : one_line_header brief_4.
Proof. split; by apply absent. Qed.
Lemma one_line_7 : one_line_header result_7.
Proof. split; by apply absent. Qed.

Lemma first_message_is_known_witness :
  let r := pictures [txt "4"] ++ kept_first ++ line_7 in
  is_paste_of r 7 (Some first_4) = true /\ is_paste_of r 4 (Some first_4) = true /\
  is_paste_of r 5 (Some first_4) = false.
Proof.
  cbv zeta. split_and!;
    exact (first_message_is_known ascii_alphanumeric brief_4 [] result_7 [note_5] windows_cf false (Some 5) _ _
             one_line_4 one_line_7 record_behind_is_recorded).
Defined.
