(* ===== verification/Jsonl.v ===== *)
(** * A JSONL file read on from look to look: [cf-harness/src/shared/record/jsonl.rs]

    A look at a harness's own record reads on from where the last stopped: what it keeps of the file
    ([Seen]), the lines it reads, and when the file is another ([read_on_with]). A look is given the
    file as it finds it, and the pieces its reads come in. The JSON of a line, the hash and the
    records' reader are parameters; [reference], at the end, is what the looks are to read. *)
From S2P Require Import Prelude Utf8 Text.
#[local] Open Scope Z_scope.

(** [settled] of [cf-base/src/file.rs], over the doubles of a file's time, which between 2004 and
    2039 are whole numbers of 4096ths of a millisecond. *)
Definition per_ms : Z := 4096.
Definition WRITE_TIME_STEP_MS : Z := 2000 * per_ms.
Definition settled (written since_ms checked_ms now_ms : Z) : bool :=
  let since := since_ms * per_ms in
  let checked := checked_ms * per_ms in
  let now := now_ms * per_ms in
  (written + WRITE_TIME_STEP_MS <? checked) ||
  ((since + WRITE_TIME_STEP_MS <? checked) && (now + WRITE_TIME_STEP_MS <? written)).

(** [i64::saturating_sub] *)
Definition saturating_sub (a b : Z) : Z := Z.min (2 ^ 63 - 1) (Z.max (- 2 ^ 63) (a - b)).

Definition EDGE_BYTES : nat := 1024.
Definition TORN_WAIT_MS : Z := 5000.
(** [cf-base]'s [json::DEEPEST]. *)
Definition DEEPEST : Z := 127.

(** [Identity]: the volume and the file's number on it. *)
Abbreviation Identity := (Z * Z)%type.

(** A file as a look finds it: its size and time are read first, and its bytes after, of which the
    look reads no more than the size. *)
Record File := { f_identity : Identity; f_size : nat; f_written : Z; f_bytes : list byte }.

(** [bytes_at] *)
Definition bytes_at (f : File) (from to : nat) : list byte := take (to - from) (drop from (f_bytes f)).

(** [holds] *)
Definition holds (f : File) (at_ : nat) (bytes : list byte) : bool :=
  bool_decide (bytes = []) || bool_decide (bytes_at f at_ (at_ + length bytes) = bytes).

(** [ReadHash]: the bytes written to the hasher; two are equal where they hash the same. *)
Abbreviation ReadHash := (list byte).
(** [hash_of] *)
Definition hash_of (f : File) (hash : ReadHash) (from to : nat) : ReadHash :=
  if (to <=? from)%nat then hash else hash ++ bytes_at f from to.

Definition is_json_space (b : byte) : bool :=
  (u8 b =? 0x20) || (u8 b =? 0x09) || (u8 b =? 0x0D) || (u8 b =? 0x0A).
Definition is_blank (bytes : list byte) : bool := forallb is_json_space bytes.

(** [contains]: one of the windows is it. *)
Fixpoint begins (needle haystack : list byte) : bool :=
  match needle, haystack with
  | [], _ => true
  | n :: needle, h :: haystack => bool_decide (n = h) && begins needle haystack
  | _, [] => false
  end.
Fixpoint contains (needle haystack : list byte) : bool :=
  begins needle haystack || match haystack with [] => false | _ :: haystack => contains needle haystack end.

Record Unfinished := { u_since : Z; u_said : bool }.

Record Seen := {
  s_identity : Identity;
  s_size : nat;
  s_written : Z;
  s_looked : Z;
  s_since : Z;
  s_offset : nat;
  s_edge : list byte;
  s_read : ReadHash;
  s_rest : ReadHash;
  s_tail : list byte;
  s_records : nat;
  s_passed_over : list nat;
  s_torn_since : option Z;
  s_unfinished : option Unfinished
}.

(** [Stop]; of the failures of the file's own reads only those to find and to open it are modelled. *)
Inductive Stop := Failed (reason : text) | Io (error : text) | Reread.

Definition reason (stop : Stop) : text :=
  match stop with
  | Failed reason => reason
  | Io error => error
  | Reread => txt "read the transcript again"
  end.

Inductive Looked :=
| Unchanged
| Held (seen : Seen)
| Read (seen : Seen)
| NotTheFile.

Definition cannot_hold (index : nat) : Stop :=
  Failed (txt "JSON this build cannot hold at record " ++ show (Z.of_nat index) ++ txt ": nested past " ++
          show DEEPEST ++ txt " levels, or a number past a double's range").

Record Torn := { t_at : nat; t_index : nat; t_read : ReadHash }.

Section Reading.
Context {Value V : Type}.
(** [Parse]; [is_json_lossy]; the ends of the values serde_json reads one after the other in a line;
    what the hasher makes of the bytes written to it; and what reads a record, at its place and byte. *)
Context (parse : list byte -> option Value) (is_json : list byte -> bool)
        (value_ends : list byte -> list nat) (finish : ReadHash -> Z)
        (visit : Value -> nat -> nat -> V -> V * option Stop).

(** Whole records run together, as many as are read. *)
Fixpoint run_together (raw : list byte) (start : nat) (ends : list nat) : list Value * nat :=
  match ends with
  | [] => ([], start)
  | end_ :: ends =>
      match parse (take (end_ - start) (drop start raw)) with
      | Some record => let '(whole, start) := run_together raw end_ ends in (record :: whole, start)
      | None => ([], start)
      end
  end.

Definition whole_line (raw : list byte) (index : nat) : (list Value * bool) + Stop :=
  if is_blank raw then inl ([], false) else
  match parse raw with
  | Some record => inl ([record], false)
  | None =>
      if is_json raw then inr (cannot_hold index) else
      let '(whole, start) := run_together raw 0 (value_ends raw) in
      inl (whole, negb (is_blank (drop start raw)))
  end.

(** The records of a line, each in its place. *)
Fixpoint visit_whole (whole : list Value) (offset : nat) (records : nat) (v : V) : (nat * V) + (Stop * V) :=
  match whole with
  | [] => inl (records, v)
  | record :: whole =>
      match visit record records offset v with
      | (v, Some stop) => inr (stop, v)
      | (v, None) => visit_whole whole offset (S records) v
      end
  end.

(** ** The look *)

(** What a look holds as it reads. *)
Record Reader := {
  r_offset : nat;
  r_tail : list byte;
  r_records : nat;
  r_places : list nat;
  r_waiting : list Torn;
  r_passing : bool;
  r_hashed : ReadHash;
  r_line : list byte;
  r_visited : bool;
  r_at : nat;
  r_state : V
}.

(** A look that ends early: the file is another, or it stops. *)
Abbreviation Exit := (option Stop * V)%type.

Section Look.
Context (only : option (list byte)) (done_waiting : option nat).

Definition holds_only (line : list byte) : bool :=
  match only with None => true | Some wanted => contains wanted line end.

(** The line is read to its newline, and is the rest of the tail's. *)
Definition tail_ends (r : Reader) : Reader :=
  {| r_offset := r_offset r; r_tail := []; r_records := r_records r; r_places := r_places r;
     r_waiting := r_waiting r; r_passing := r_passing r; r_hashed := r_hashed r ++ r_tail r;
     r_line := r_line r; r_visited := false; r_at := r_at r; r_state := r_state r |}.

(** The records of a line were visited: what waited for one is passed over. *)
Definition visited_whole (whole : list Value) (records : nat) (v : V) (r : Reader) : Reader :=
  {| r_offset := r_offset r; r_tail := r_tail r; r_records := records;
     r_places := if bool_decide (length whole = 0%nat) then r_places r
                 else r_places r ++ (t_index <$> r_waiting r);
     r_waiting := if bool_decide (length whole = 0%nat) then r_waiting r else [];
     r_passing := if bool_decide (length whole = 0%nat) then r_passing r else false;
     r_hashed := r_hashed r; r_line := r_line r; r_visited := r_visited r; r_at := r_at r; r_state := v |}.

(** A torn line: passed over, or one more that waits. *)
Definition torn_line (led : bool) (r : Reader) : Reader :=
  let passing := r_passing r || bool_decide (done_waiting = Some (r_offset r)) in
  {| r_offset := r_offset r; r_tail := r_tail r; r_records := r_records r;
     r_places := if led || passing then r_places r ++ [r_records r] else r_places r;
     r_waiting := if led || passing then r_waiting r
                  else r_waiting r ++ [{| t_at := r_offset r; t_index := r_records r; t_read := r_hashed r |}];
     r_passing := passing; r_hashed := r_hashed r; r_line := r_line r; r_visited := r_visited r;
     r_at := r_at r; r_state := r_state r |}.

(** On to the line after the newline. *)
Definition next_line (newline : byte) (r : Reader) : Reader :=
  {| r_offset := S (r_at r); r_tail := r_tail r; r_records := r_records r; r_places := r_places r;
     r_waiting := r_waiting r; r_passing := r_passing r; r_hashed := r_hashed r ++ r_line r ++ [newline];
     r_line := []; r_visited := r_visited r; r_at := S (r_at r); r_state := r_state r |}.

Definition end_line (newline : byte) (r : Reader) : Reader + Exit :=
  if r_visited r then
    if is_blank (r_line r) then inl (next_line newline (tail_ends r)) else inr (None, r_state r)
  else if holds_only (r_line r) then
    match whole_line (r_line r) (r_records r) with
    | inr stop => inr (Some stop, r_state r)
    | inl (whole, torn) =>
        match visit_whole whole (r_offset r) (r_records r) (r_state r) with
        | inr (stop, v) => inr (Some stop, v)
        | inl (records, v) =>
            let r := visited_whole whole records v r in
            inl (next_line newline (if torn then torn_line (negb (bool_decide (length whole = 0%nat))) r else r))
        end
    end
  else inl (next_line newline r).

Definition push (b : byte) (r : Reader) : Reader :=
  {| r_offset := r_offset r; r_tail := r_tail r; r_records := r_records r; r_places := r_places r;
     r_waiting := r_waiting r; r_passing := r_passing r; r_hashed := r_hashed r; r_line := r_line r ++ [b];
     r_visited := r_visited r; r_at := S (r_at r); r_state := r_state r |}.

Definition is_newline (b : byte) : bool := u8 b =? 0x0A.

(** One piece read of the file: each line to its newline, and what is left of it. *)
Fixpoint read_piece (piece : list byte) (r : Reader) : Reader + Exit :=
  match piece with
  | [] => inl r
  | b :: piece =>
      match (if is_newline b then end_line b r else inl (push b r)) with
      | inl r => read_piece piece r
      | inr exit => inr exit
      end
  end.

(** The loop of reads, to the end of the file. *)
Fixpoint read_pieces (pieces : list (list byte)) (r : Reader) : Reader + Exit :=
  match pieces with
  | [] => inl r
  | piece :: pieces => match read_piece piece r with inl r => read_pieces pieces r | inr exit => inr exit end
  end.

(** The last line, with no newline: a record, not whole yet, or blank. *)
Definition last_line (seen : option Seen) (looked_ms : Z) (r : Reader) : (Reader * option Unfinished) + Exit :=
  if r_visited r then if is_blank (r_line r) then inl (r, None) else inr (None, r_state r)
  else if negb (is_blank (r_line r)) && holds_only (r_line r) then
    match parse (encode (from_utf8_lossy (r_line r))) with
    | Some record =>
        match visit record (r_records r) (r_offset r) (r_state r) with
        | (v, Some stop) => inr (Some stop, v)
        | (v, None) =>
            inl ({| r_offset := r_offset r; r_tail := r_line r; r_records := S (r_records r);
                    r_places := r_places r ++ (t_index <$> r_waiting r); r_waiting := [];
                    r_passing := r_passing r; r_hashed := r_hashed r; r_line := []; r_visited := r_visited r;
                    r_at := r_at r; r_state := v |}, None)
        end
    | None =>
        if is_json (r_line r) then inr (Some (cannot_hold (r_records r)), r_state r) else
        let it := default {| u_since := looked_ms; u_said := false |}
                    (seen ≫= fun seen => if bool_decide (s_size seen = r_at r) then s_unfinished seen else None) in
        inl (r, Some {| u_since := u_since it;
                        u_said := u_said it || (TORN_WAIT_MS <=? saturating_sub looked_ms (u_since it)) |})
    end
  else inl (r, None).
End Look.

(** What the look before left, or the start of the file. *)
Definition reader_from (seen : option Seen) (v : V) : Reader :=
  let tail := default [] (s_tail <$> seen) in
  {| r_offset := default 0%nat (s_offset <$> seen); r_tail := tail;
     r_records := default 0%nat (s_records <$> seen); r_places := default [] (s_passed_over <$> seen);
     r_waiting := []; r_passing := false; r_hashed := default [] (s_read <$> seen); r_line := [];
     r_visited := negb (bool_decide (tail = [])); r_at := default 0%nat (s_offset <$> seen) + length tail;
     r_state := v |}.

(** What the look keeps for the next. *)
Definition seen_by (f : File) (seen : option Seen) (looked_ms : Z) (r : Reader) (unfinished : option Unfinished) : Seen :=
  let first := head (r_waiting r) in
  let offset := match first with Some first => t_at first | None => r_offset r end in
  let same_offset := seen ≫= fun seen => if bool_decide (s_offset seen = offset) then Some seen else None in
  {| s_identity := f_identity f; s_size := r_at r; s_written := f_written f; s_looked := looked_ms;
     s_since := match seen with
                | Some seen => if bool_decide (s_written seen = f_written f) then s_since seen else looked_ms
                | None => looked_ms
                end;
     s_offset := offset;
     s_edge := match same_offset with
               | Some seen => s_edge seen
               | None => bytes_at f (offset - EDGE_BYTES) offset
               end;
     s_read := match first with Some first => t_read first | None => r_hashed r end;
     s_rest := hash_of f [] offset (r_at r); s_tail := r_tail r; s_records := r_records r;
     s_passed_over := r_places r;
     s_torn_since := match first with
                     | Some _ => Some (default looked_ms (same_offset ≫= s_torn_since))
                     | None => None
                     end;
     s_unfinished := unfinished |}.

Definition waited (looked_ms since : Z) : bool := TORN_WAIT_MS <=? saturating_sub looked_ms since.

(** The torn line whose wait is over. *)
Definition done_waiting_of (seen : option Seen) (looked_ms : Z) : option nat :=
  seen ≫= fun seen => since ← s_torn_since seen; if waited looked_ms since then Some (s_offset seen) else None.
Definition unfinished_due (seen : option Seen) (looked_ms : Z) : bool :=
  match seen ≫= s_unfinished with
  | Some it => negb (u_said it) && waited looked_ms (u_since it)
  | None => false
  end.

(** What the look tells of the file before it reads on: what it answers, or nothing. *)
Definition known (f : File) (seen : Seen) (looked_ms : Z) : option Looked :=
  if negb (bool_decide (f_identity f = s_identity seen)) then Some NotTheFile else
  let same := bool_decide (f_size f = s_size seen) && (f_written f =? s_written seen) &&
              bool_decide (done_waiting_of (Some seen) looked_ms = None) && negb (unfinished_due (Some seen) looked_ms) in
  if same && settled (f_written f) (s_since seen) (s_looked seen) looked_ms then Some Unchanged else
  if negb (holds f (s_offset seen - length (s_edge seen)) (s_edge seen)) || negb (holds f (s_offset seen) (s_tail seen))
  then Some NotTheFile else
  if same then
    if settled (f_written f) (s_since seen) looked_ms looked_ms &&
       negb (finish (hash_of f [] 0 (s_offset seen)) =? finish (s_read seen)) then Some NotTheFile
    else if finish (hash_of f [] (s_offset seen) (f_size f)) =? finish (s_rest seen) then
      Some (Held {| s_identity := s_identity seen; s_size := s_size seen; s_written := s_written seen;
                    s_looked := looked_ms; s_since := s_since seen; s_offset := s_offset seen; s_edge := s_edge seen;
                    s_read := s_read seen; s_rest := s_rest seen; s_tail := s_tail seen; s_records := s_records seen;
                    s_passed_over := s_passed_over seen; s_torn_since := s_torn_since seen;
                    s_unfinished := s_unfinished seen |})
    else None
  else None.

(** What is read of the file: from where the reader is to the size. *)
Definition to_read (f : File) (at_ : nat) : list byte := bytes_at f at_ (f_size f).

(** [read_on_with]; [pieces] are what its reads of the file give. *)
Definition read_on_with (f : File) (seen : option Seen) (looked_ms : Z) (only : option (list byte))
    (pieces : list (list byte)) (v : V) : (Looked + Stop) * V :=
  match seen ≫= fun seen => known f seen looked_ms with
  | Some looked => (inl looked, v)
  | None =>
      match read_pieces only (done_waiting_of seen looked_ms) pieces (reader_from seen v) with
      | inr (None, v) => (inl NotTheFile, v)
      | inr (Some stop, v) => (inr stop, v)
      | inl r =>
          match last_line only seen looked_ms r with
          | inr (None, v) => (inl NotTheFile, v)
          | inr (Some stop, v) => (inr stop, v)
          | inl (r, unfinished) => (inl (Read (seen_by f seen looked_ms r unfinished)), r_state r)
          end
      end
  end.
End Reading.

(** ** What the looks are to read *)

(** The lines of some bytes, each ended, and what is left after the last newline. *)
Fixpoint cut_lines (bytes : list byte) : list (list byte) * list byte :=
  match bytes with
  | [] => ([], [])
  | b :: bytes =>
      let '(lines, last) := cut_lines bytes in
      if is_newline b then ([] :: lines, last)
      else match lines with
           | [] => ([], b :: last)
           | line :: lines => ((b :: line) :: lines, last)
           end
  end.

Section Reference.
Context {Value V : Type}.
Context (parse : list byte -> option Value) (is_json : list byte -> bool)
        (value_ends : list byte -> list nat) (visit : Value -> nat -> nat -> V -> V * option Stop)
        (only : option (list byte)).

(** The records of a line, at its byte, behind those before it. *)
Definition visit_line (line : list byte) (offset records : nat) (v : V) : (nat * V) + (Stop * V) :=
  if holds_only only line then
    match whole_line parse is_json value_ends line records with
    | inr stop => inr (stop, v)
    | inl (whole, _) => visit_whole visit whole offset records v
    end
  else inl (records, v).

Fixpoint visit_lines (lines : list (list byte)) (offset records : nat) (v : V) : (nat * V) + (Stop * V) :=
  match lines with
  | [] => inl (records, v)
  | line :: lines =>
      match visit_line line offset records v with
      | inl (records, v) => visit_lines lines (offset + length line + 1) records v
      | inr stop => inr stop
      end
  end.

(** The last line, a record where it is whole. *)
Definition visit_last (line : list byte) (offset records : nat) (v : V) : (nat * V) + (Stop * V) :=
  if negb (is_blank line) && holds_only only line then
    match parse (encode (from_utf8_lossy line)) with
    | Some record => match visit record records offset v with
                     | (v, Some stop) => inr (stop, v)
                     | (v, None) => inl (S records, v)
                     end
    | None => if is_json line then inr (cannot_hold records, v) else inl (records, v)
    end
  else inl (records, v).

(** A file's records, read at once from its start. *)
Definition reference (bytes : list byte) (v : V) : (nat * V) + (Stop * V) :=
  let '(lines, last) := cut_lines bytes in
  match visit_lines lines 0 0 v with
  | inl (records, v) => visit_last last (length bytes - length last) records v
  | inr stop => inr stop
  end.
End Reference.

(** What a parser of JSON keeps to: white space behind a value is nothing, and bytes that are no text
    are read as they are decoded. *)
Class LawfulParse {Value : Type} (parse : list byte -> option Value) : Prop := {
  parse_spaces line spaces record : parse line = Some record -> is_blank spaces = true -> parse (line ++ spaces) = Some record;
  parse_lossy line : parse (encode (from_utf8_lossy line)) = parse line
}.
