(* ===== verification/Json.v ===== *)
(** * JSON read as Node reads it: [cf-base/src/json.rs]

    What is read of a harness's lines: bytes that are no text as U+FFFD, half of a surrogate pair too,
    each number as the double it is, and keys as JavaScript enumerates them. serde_json's own reading
    of a text is a parameter, with the numbers it makes. *)
From S2P Require Import Prelude Utf8 Text JsValue Jsonl.
#[local] Open Scope Z_scope.

Definition BACKSLASH : char := 0x5C.

(** [escaped_unit]: of the six characters a text begins with. A byte of a character outside ASCII is
    no digit, and no backslash. *)
Definition hex_digit (c : char) : option Z :=
  if within 0x30 0x39 c then Some (c - 0x30)
  else if within 0x41 0x46 c then Some (c - 0x41 + 10)
  else if within 0x61 0x66 c then Some (c - 0x61 + 10)
  else None.
Definition escaped_unit (t : text) : option Z :=
  match t with
  | b :: u :: h1 :: h2 :: h3 :: h4 :: _ =>
      if (b =? BACKSLASH) && (u =? 0x75) then
        h1 ← hex_digit h1; h2 ← hex_digit h2; h3 ← hex_digit h3; h4 ← hex_digit h4;
        Some (((h1 * 16 + h2) * 16 + h3) * 16 + h4)
      else None
  | _ => None
  end.

Definition is_leading (unit : Z) : bool := within 0xD800 0xDBFF unit.
Definition is_trailing (unit : Z) : bool := within 0xDC00 0xDFFF unit.

(** [without_lone_surrogates], from one backslash to the next. *)
Fixpoint fix_from (fuel : nat) (t : text) : text :=
  match fuel, t with
  | S fuel, c :: rest =>
      if c =? BACKSLASH then
        match escaped_unit t with
        | None => match rest with d :: rest => c :: d :: fix_from fuel rest | [] => [c] end
        | Some unit =>
            let paired := is_leading unit &&
                          match escaped_unit (drop 6 t) with Some next => is_trailing next | None => false end in
            if paired then take 12 t ++ fix_from fuel (drop 12 t)
            else if is_leading unit || is_trailing unit then txt "\ufffd" ++ fix_from fuel (drop 6 t)
            else take 6 t ++ fix_from fuel (drop 6 t)
        end
      else c :: fix_from fuel rest
  | _, _ => t
  end.
Definition without_lone_surrogates (json : text) : text := fix_from (length json) json.

Section Json.
Context `{Numbers}.
(** [serde_json::from_str], to a value and to nothing ([IgnoredAny]); and what a number answers. *)
Context (from_str : text -> option Value) (ignored : text -> bool)
        (as_u64 as_i64 : num -> option Z) (as_double : num -> option num).

(** [past_safe] *)
Definition SAFE : Z := 2 ^ 53.
Definition past_safe (number : num) : option num :=
  let beyond := match as_u64 number with Some whole => SAFE <? whole | None => false end ||
                match as_i64 number with Some whole => SAFE <? Z.abs whole | None => false end in
  if beyond then as_double number else None.

(** [as_parsed] *)
Fixpoint as_parsed (v : Value) : Value :=
  match v with
  | Number number => Number (default number (past_safe number))
  | Array items => Array (map as_parsed items)
  | Object fields =>
      Object (in_enumeration_order (map (fun field => (field.1, as_parsed field.2)) fields))
  | _ => v
  end.

Definition from_slice_lossy (bytes : list byte) : option Value :=
  as_parsed <$> from_str (without_lone_surrogates (from_utf8_lossy bytes)).

Inductive Inexact := NotRead | LoneSurrogate.

Definition from_slice_exact (bytes : list byte) : Value + Inexact :=
  let t := from_utf8_lossy bytes in
  if negb (bool_decide (without_lone_surrogates t = t)) then inr LoneSurrogate else
  match from_str t with Some v => inl (as_parsed v) | None => inr NotRead end.

Definition is_json_lossy (bytes : list byte) : bool := ignored (from_utf8_lossy bytes).

Fixpoint nesting (v : Value) : nat :=
  match v with
  | Array items => S (foldr (fun item n => Nat.max (nesting item) n) 0%nat items)
  | Object fields => S (foldr (fun field n => Nat.max (nesting field.2) n) 0%nat fields)
  | _ => 0%nat
  end.
End Json.

(** ** White space behind a text *)

Definition of_escape (c : char) : Prop := c = BACKSLASH \/ c = 0x75 \/ is_Some (hex_digit c).

Lemma escaped_chars t unit : escaped_unit t = Some unit -> (6 <= length t)%nat /\ Forall of_escape (take 6 t).
Proof.
  destruct t as [|b [|u [|h1 [|h2 [|h3 [|h4 t]]]]]]; try done. cbn [escaped_unit take].
  destruct ((b =? BACKSLASH) && (u =? 0x75)) eqn:E; [|done]. apply andb_true_iff in E as [->%Z.eqb_eq ->%Z.eqb_eq].
  intros (x1 & E1 & (x2 & E2 & (x3 & E3 & (x4 & E4 & _)%bind_Some)%bind_Some)%bind_Some)%bind_Some.
  split; [simpl; lia|]. unfold of_escape.
  repeat apply Forall_cons_2; [by left|by right; left|right; right; by eexists..|constructor].
Qed.

Definition plain (s : text) : Prop := Forall (fun c => ~ of_escape c) s.

Lemma escaped_app t s : plain s -> escaped_unit (t ++ s) = escaped_unit t.
Proof.
  intros Hs. destruct (Nat.leb_spec 6 (length t)) as [Hl|Hl].
  - by destruct t as [|? [|? [|? [|? [|? [|? ?]]]]]]; simpl in Hl; try lia.
  - destruct (escaped_unit t) eqn:E; [apply escaped_chars in E as [E _]; lia|].
    destruct (escaped_unit (t ++ s)) eqn:E'; [|done]. apply escaped_chars in E' as [Hl' He].
    rewrite take_app_ge in He by lia. apply Forall_app in He as [_ He].
    destruct s as [|c s]; [rewrite app_nil_r in Hl'; lia|]. apply Forall_cons in Hs as [Hc _].
    destruct (6 - length t)%nat eqn:En; [lia|]. by apply Forall_cons in He as [He _].
Qed.

Lemma fix_app s : plain s -> forall n t fuel fuel', (length t <= n)%nat -> (length t <= fuel)%nat ->
  (length (t ++ s) <= fuel')%nat -> fix_from fuel' (t ++ s) = fix_from fuel t ++ s.
Proof.
  intros Hs. assert (forall fuel s', plain s' -> fix_from fuel s' = s') as Hfix.
  { intros fuel. induction fuel as [|fuel IH]; intros [|c s'] Hp; try done. apply Forall_cons in Hp as [Hc Hp]. cbn [fix_from].
    destruct (Z.eqb_spec c BACKSLASH) as [->|_]; [destruct Hc; by left|]. by rewrite IH. }
  induction n as [|n IH]; intros t fuel fuel' Hn Hf Hf'.
  { destruct t; [|simpl in Hn; lia]. rewrite Hfix by done. by destruct fuel. }
  destruct t as [|c rest]; [rewrite Hfix by done; by destruct fuel|].
  destruct fuel as [|fuel]; [simpl in Hf; lia|]. destruct fuel' as [|fuel']; [simpl in Hf'; lia|].
  change ((c :: rest) ++ s) with (c :: rest ++ s) at 1. cbn [fix_from].
  change (c :: rest ++ s) with ((c :: rest) ++ s). set (t := c :: rest) in *.
  rewrite length_app in Hf'. assert (S (length rest) = length t) as El by done.
  assert (forall k, (0 < k <= length t)%nat -> fix_from fuel' (drop k (t ++ s)) = fix_from fuel (drop k t) ++ s) as Hdrop.
  { intros k Hk. rewrite drop_app_le by lia. apply IH; rewrite ?length_app, ?length_drop; lia. }
  destruct (c =? BACKSLASH); [|rewrite (IH rest fuel fuel') by (rewrite ?length_app; lia); done].
  rewrite escaped_app by done. destruct (escaped_unit t) as [unit|] eqn:Eu.
  - apply escaped_chars in Eu as [Hl _]. rewrite (drop_app_le t s 6), escaped_app by done.
    destruct (is_leading unit && _) eqn:Ep.
    + apply andb_true_iff in Ep as [_ Ep]. destruct (escaped_unit (drop 6 t)) as [next|] eqn:En; [|done].
      apply escaped_chars in En as [Hl2 _]. rewrite length_drop in Hl2.
      rewrite Hdrop, take_app_le by lia. by rewrite app_assoc.
    + rewrite <- (drop_app_le t s 6), Hdrop, take_app_le by lia. destruct (_ || _); by rewrite <- ?app_assoc.
  - destruct rest as [|d rest].
    + unfold t. cbn [app]. destruct s as [|d s]; [done|]. apply Forall_cons in Hs as [_ Hs]. by rewrite Hfix.
    + cbn [app]. rewrite (IH rest fuel fuel'); [done|simpl in *; lia..|rewrite length_app; simpl in *; lia].
Qed.

Lemma without_app t s : plain s -> without_lone_surrogates (t ++ s) = without_lone_surrogates t ++ s.
Proof. intros Hs. by apply (fix_app s Hs (length t)). Qed.

(** ** Bytes that are no text *)

Lemma space_ascii b : is_json_space b = true -> u8 b < 0x80 /\ ~ of_escape (u8 b).
Proof.
  unfold is_json_space, of_escape, hex_digit, BACKSLASH, within. intros H.
  assert (u8 b = 0x20 \/ u8 b = 0x09 \/ u8 b = 0x0D \/ u8 b = 0x0A) as Hb by lia.
  split; [lia|]. intros [E|[E|[x E]]]; [lia|lia|]. repeat case_match; try done; lia.
Qed.

(** ASCII begins nothing and goes on with nothing. *)
Lemma ascii_continues_none b : u8 b < 0x80 -> is_continuation b = false.
Proof. unfold is_continuation. rewrite within_false. lia. Qed.

Lemma lossy_ascii s : Forall (fun b => u8 b < 0x80) s -> from_utf8_lossy s = u8 <$> s.
Proof. induction 1 as [|b s Hb _ IH]; [done|]. simpl. rewrite (proj2 (Z.ltb_lt _ _) Hb). by rewrite IH. Qed.

Lemma ascii_second b0 b : u8 b < 0x80 -> char2 b0 b = None /\ second3 b0 b = false /\ second4 b0 b = false /\
  (forall b1, char3 b0 b1 b = None) /\ (forall b1 b2, char4 b0 b1 b2 b = None).
Proof.
  intros Hb. pose proof (ascii_continues_none b Hb) as Hc. unfold char2, second3, second4, char3, char4. rewrite Hc, ?andb_false_r.
  split_and!; intros; rewrite ?andb_false_r; try done; repeat case_match; try done; apply within_false; lia.
Qed.

Lemma lossy_app l s : Forall (fun b => u8 b < 0x80) s ->
  from_utf8_lossy (l ++ s) = from_utf8_lossy l ++ (u8 <$> s).
Proof.
  intros Hs. remember (length l) as n eqn:En. revert l En. induction (lt_wf n) as [n _ IH]. intros l ->.
  assert (forall k, (length k < length l)%nat -> from_utf8_lossy (k ++ s) = from_utf8_lossy k ++ (u8 <$> s)) as IH' by eauto. clear IH.
  pose proof (lossy_ascii s Hs) as Es.
  assert (forall c s', s = c :: s' -> u8 c < 0x80) as Hc by (intros c s' ->; by apply Forall_cons in Hs as [? _]).
  destruct l as [|b0 l0]; [done|]. cbn [app from_utf8_lossy]. destruct (u8 b0 <? 0x80); [simpl; by rewrite IH' by (simpl; lia)|].
  destruct l0 as [|b1 l1].
  { destruct s as [|c s']; [done|]. destruct (ascii_second b0 c (Hc _ _ eq_refl)) as (E2 & E3 & E4 & _).
    cbn [app]. rewrite E2, E3, E4, !andb_false_r. by rewrite Es. }
  cbn [app]. destruct (char2 b0 b1); [by rewrite IH' by (simpl; lia)|]. destruct (within 0xE0 0xEF (u8 b0) && second3 b0 b1).
  { destruct l1 as [|b2 l2].
    - destruct s as [|c s']; [done|]. destruct (ascii_second b0 c (Hc _ _ eq_refl)) as (_ & _ & _ & E3 & _).
      cbn [app]. by rewrite E3, Es.
    - cbn [app]. destruct (char3 b0 b1 b2); [by rewrite IH' by (simpl; lia)|]. change (b2 :: l2 ++ s) with ((b2 :: l2) ++ s).
      by rewrite IH' by (simpl; lia). }
  destruct (within 0xF0 0xF4 (u8 b0) && second4 b0 b1).
  2: { change (b1 :: l1 ++ s) with ((b1 :: l1) ++ s). by rewrite IH' by (simpl; lia). }
  destruct l1 as [|b2 l2].
  { destruct s as [|c s']; [done|]. cbn [app]. by rewrite (ascii_continues_none c (Hc _ _ eq_refl)), Es. }
  cbn [app]. destruct (is_continuation b2).
  - destruct l2 as [|b3 l3].
    + destruct s as [|c s']; [done|]. destruct (ascii_second b0 c (Hc _ _ eq_refl)) as (_ & _ & _ & _ & E4).
      cbn [app]. by rewrite E4, Es.
    + cbn [app]. destruct (char4 b0 b1 b2 b3); [by rewrite IH' by (simpl; lia)|].
      change (b3 :: l3 ++ s) with ((b3 :: l3) ++ s). by rewrite IH' by (simpl; lia).
  - change (b2 :: l2 ++ s) with ((b2 :: l2) ++ s). by rewrite IH' by (simpl; lia).
Qed.

Lemma lossy_scalar bytes : Forall (fun c => is_scalar c = true) (from_utf8_lossy bytes).
Proof.
  remember (length bytes) as n eqn:En. revert bytes En. induction (lt_wf n) as [n _ IH]. intros l ->.
  assert (forall k, (length k < length l)%nat -> Forall (fun c => is_scalar c = true) (from_utf8_lossy k)) as IH' by eauto. clear IH.
  destruct l as [|b0 l0]; [constructor|]. cbn [from_utf8_lossy].
  destruct (Z.ltb_spec (u8 b0) 0x80) as [H|H]; [constructor; [by apply ascii_scalar|apply IH'; simpl; lia]|].
  destruct l0 as [|b1 l1]; [by repeat constructor|].
  destruct (char2 b0 b1) eqn:E2; [constructor; [by eapply char2_scalar|apply IH'; simpl; lia]|].
  destruct (within 0xE0 0xEF (u8 b0) && second3 b0 b1).
  { destruct l1 as [|b2 l2]; [by repeat constructor|]. destruct (char3 b0 b1 b2) eqn:E3;
      (constructor; [done || by eapply char3_scalar|apply IH'; simpl; lia]). }
  destruct (within 0xF0 0xF4 (u8 b0) && second4 b0 b1); [|constructor; [done|apply IH'; simpl; lia]].
  destruct l1 as [|b2 l2]; [by repeat constructor|]. destruct (is_continuation b2); [|constructor; [done|apply IH'; simpl; lia]].
  destruct l2 as [|b3 l3]; [by repeat constructor|]. destruct (char4 b0 b1 b2 b3) eqn:E4;
    (constructor; [done || by eapply char4_scalar|apply IH'; simpl; lia]).
Qed.

Lemma blank_bytes s : is_blank s = true -> Forall (fun b => is_json_space b = true) s.
Proof. induction s as [|b s IH]; [done|]. simpl. intros [Hb Hs]%andb_true_iff. constructor; auto. Qed.

(** ** The promise to the reader of lines *)

Section Promise.
Context `{Numbers}.
Context (from_str : text -> option Value) (as_u64 as_i64 : num -> option Z) (as_double : num -> option num).

(** What serde_json's reading of a text promises: JSON's white space behind a value is nothing. *)
Definition takes_spaces : Prop :=
  forall t s v, from_str t = Some v -> Forall (fun c => c = 0x20 \/ c = 0x09 \/ c = 0x0D \/ c = 0x0A) s ->
    from_str (t ++ s) = Some v.

(** [from_slice_lossy] is a parser as the reader of lines takes it. *)
Lemma from_slice_lossy_lawful : takes_spaces -> LawfulParse (from_slice_lossy from_str as_u64 as_i64 as_double).
Proof.
  intros Hfs. split.
  - intros line spaces record E Hs. unfold from_slice_lossy in *. apply fmap_Some in E as (v & E & ->).
    assert (Forall (fun b => is_json_space b = true) spaces) as Hsp by by apply blank_bytes.
    rewrite lossy_app by (eapply Forall_impl; [exact Hsp|]; intros b Hb; by apply space_ascii).
    rewrite without_app; [erewrite Hfs; [done|exact E|]|].
    + apply Forall_fmap. eapply Forall_impl; [exact Hsp|]. intros b Hb. unfold is_json_space in Hb. simpl. lia.
    + apply Forall_fmap. eapply Forall_impl; [exact Hsp|]. intros b Hb. by apply space_ascii.
  - intros line. unfold from_slice_lossy. do 3 f_equal. apply from_utf8_lossy_valid, from_utf8_encode, lossy_scalar.
Qed.
End Promise.
