(* ===== verification/JsonlReads.v ===== *)
(** * What is read of a JSONL file, look by look, is what is read of it at once

    As long as a file only grows, every look leaves just the records of all the file holds, each once
    and in its place, however its reads and the looks cut it ([look_reads_on]); and a file rewritten
    is told at the look that settles it. *)
From S2P Require Import Prelude Utf8 Text JsValue Jsonl Json.
#[local] Open Scope nat_scope.

Definition nl : byte := byte_of 0x0A.
Definition one_line (l : list byte) : Prop := Forall (fun b => is_newline b = false) l.

Lemma is_newline_nl b : is_newline b = true -> b = nl.
Proof. intros E%Z.eqb_eq. apply u8_inj. by rewrite E. Qed.

(** ** Lines *)

Lemma cut_line l rest : one_line l ->
  cut_lines (l ++ nl :: rest) = let '(lines, last) := cut_lines rest in (l :: lines, last).
Proof.
  induction 1 as [|b l Hb _ IH]; cbn [app cut_lines]; [by destruct (cut_lines rest)|].
  rewrite IH. destruct (cut_lines rest). by rewrite Hb.
Qed.

Lemma cut_last l : one_line l -> cut_lines l = ([], l).
Proof. induction 1 as [|b l Hb _ IH]; [done|]. simpl. by rewrite IH, Hb. Qed.

(** Bytes are a line, its newline and the rest, or a line with none. *)
Lemma first_line bytes : one_line bytes \/ exists l rest, bytes = l ++ nl :: rest /\ one_line l.
Proof.
  induction bytes as [|b bytes IH]; [left; constructor|]. destruct (is_newline b) eqn:Eb.
  - right. apply is_newline_nl in Eb as ->. exists [], bytes. by split; [|constructor].
  - destruct IH as [IH|(l & rest & -> & Hl)]; [left; by constructor|]. right. exists (b :: l), rest.
    by split; [|constructor].
Qed.

(** Induction over the lines of some bytes. *)
Lemma lines_ind (P : list byte -> Prop) :
  (forall l, one_line l -> P l) -> (forall l rest, one_line l -> P rest -> P (l ++ nl :: rest)) ->
  forall bytes, P bytes.
Proof.
  intros Hlast Hline bytes. remember (length bytes) as n eqn:En. revert bytes En.
  induction (lt_wf n) as [n _ IH]. intros bytes ->.
  destruct (first_line bytes) as [H|(l & rest & -> & Hl)]; [by apply Hlast|].
  apply Hline; [done|]. eapply IH; [|done]. rewrite length_app. simpl. lia.
Qed.

(** Bytes that end where a line begins. *)
Definition whole (bytes : list byte) : Prop := (cut_lines bytes).2 = [].

Lemma cut_app pre bytes : whole pre ->
  cut_lines (pre ++ bytes) = ((cut_lines pre).1 ++ (cut_lines bytes).1, (cut_lines bytes).2).
Proof.
  unfold whole. revert pre. apply (lines_ind (fun pre => _ -> _)).
  - intros l Hl. rewrite cut_last by done. simpl. intros ->. simpl. by destruct (cut_lines bytes).
  - intros l rest Hl IH. rewrite <- app_assoc. cbn [app]. rewrite !cut_line by done.
    destruct (cut_lines rest) as [ls x]. simpl in *. intros ->. rewrite IH by done. done.
Qed.

Lemma whole_line_added pre l : whole pre -> one_line l -> whole (pre ++ l ++ [nl]).
Proof. intros Hp Hl. unfold whole. rewrite cut_app, cut_line by done. done. Qed.

Lemma whole_nil : whole [].
Proof. done. Qed.

Section Reads.
Context {Value V : Type}.
Context (parse : list byte -> option Value) (is_json : list byte -> bool)
        (value_ends : list byte -> list nat) (finish : ReadHash -> Z)
        (visit : Value -> nat -> nat -> V -> V * option Stop) (only : option (list byte)).
Context `{!LawfulParse parse}.

#[local] Abbreviation vline := (visit_line parse is_json value_ends visit only).
#[local] Abbreviation vlines := (visit_lines parse is_json value_ends visit only).
#[local] Abbreviation vlast := (visit_last parse is_json visit only).
#[local] Abbreviation ref := (reference parse is_json value_ends visit only).
#[local] Abbreviation piece := (read_piece parse is_json value_ends visit only).
#[local] Abbreviation pieces_ := (read_pieces parse is_json value_ends visit only).
#[local] Abbreviation eol := (end_line parse is_json value_ends visit only).

(** ** The reads, however they are cut *)

Lemma piece_app done a b r :
  piece done (a ++ b) r = match piece done a r with inl r => piece done b r | inr e => inr e end.
Proof.
  revert r. induction a as [|c a IH]; intros r; [done|]. cbn [app read_piece].
  destruct (if is_newline c then _ else _) as [r'|e]; [apply IH|done].
Qed.

Lemma pieces_as_one done ps r : pieces_ done ps r = piece done (concat ps) r.
Proof.
  revert r. induction ps as [|p ps IH]; intros r; [done|]. simpl. rewrite piece_app.
  destruct (piece done p r); [apply IH|done].
Qed.

(** What has come of a line. *)
Definition pushed (l : list byte) (r : @Reader V) : Reader :=
  {| r_offset := r_offset r; r_tail := r_tail r; r_records := r_records r; r_places := r_places r;
     r_waiting := r_waiting r; r_passing := r_passing r; r_hashed := r_hashed r; r_line := r_line r ++ l;
     r_visited := r_visited r; r_at := r_at r + length l; r_state := r_state r |}.

Lemma piece_last done l r : one_line l -> piece done l r = inl (pushed l r).
Proof.
  intros Hl. revert r. induction Hl as [|b l Hb _ IH]; intros r.
  - simpl. unfold pushed. rewrite app_nil_r, Nat.add_0_r. by destruct r.
  - cbn [read_piece]. rewrite Hb, IH. unfold push, pushed. simpl. by rewrite <- app_assoc, Nat.add_succ_r.
Qed.

Lemma piece_line done l rest r : one_line l ->
  piece done (l ++ nl :: rest) r = match eol done nl (pushed l r) with inl r => piece done rest r | inr e => inr e end.
Proof. intros Hl. by rewrite piece_app, piece_last. Qed.

(** ** The reference, line by line *)

Lemma vlines_app a b offset records v :
  vlines (a ++ b) offset records v =
  match vlines a offset records v with
  | inl (records, v) => vlines b (offset + length (concat a) + length a) records v
  | inr e => inr e
  end.
Proof.
  revert offset records v. induction a as [|l a IH]; intros offset records v; simpl.
  - by rewrite !Nat.add_0_r.
  - destruct (vline l offset records v) as [[n v']|e]; [|done]. rewrite IH, length_app.
    destruct (vlines a _ n v') as [[n' v'']|e]; [|done]. f_equal. lia.
Qed.

Lemma cut_length bytes : whole bytes -> length (concat (cut_lines bytes).1) + length (cut_lines bytes).1 = length bytes.
Proof.
  unfold whole. revert bytes. apply (lines_ind (fun bytes => _ -> _)).
  - intros l Hl. rewrite cut_last by done. simpl. by intros ->.
  - intros l rest Hl IH. rewrite cut_line by done. destruct (cut_lines rest) as [ls x]. simpl in *. intros Hx.
    rewrite !length_app. simpl. specialize (IH Hx). lia.
Qed.

(** The records of bytes that are whole lines. *)
Definition of_lines (pre : list byte) (v0 : V) : (nat * V) + (Stop * V) := vlines (cut_lines pre).1 0 0 v0.

Lemma of_lines_app pre bytes v0 : whole pre ->
  of_lines (pre ++ bytes) v0 =
  match of_lines pre v0 with inl (n, v) => vlines (cut_lines bytes).1 (length pre) n v | inr e => inr e end.
Proof.
  intros Hp. unfold of_lines. rewrite cut_app by done. simpl. rewrite vlines_app.
  destruct (vlines _ 0 0 v0) as [[n v]|e]; [|done]. by rewrite <- (cut_length pre) by done.
Qed.

Lemma of_line pre l v0 : whole pre -> one_line l ->
  of_lines (pre ++ l ++ [nl]) v0 = match of_lines pre v0 with inl (n, v) => vline l (length pre) n v | inr e => inr e end.
Proof.
  intros Hp Hl. rewrite of_lines_app by done. destruct (of_lines pre v0) as [[n v]|e]; [|done].
  rewrite cut_line by done. simpl. by destruct (vline l _ n v) as [[? ?]|?].
Qed.

Lemma ref_last pre l v0 : whole pre -> one_line l ->
  ref (pre ++ l) v0 = match of_lines pre v0 with inl (n, v) => vlast l (length pre) n v | inr e => inr e end.
Proof.
  intros Hp Hl. unfold reference. rewrite cut_app, (cut_last l) by done. simpl. rewrite app_nil_r.
  fold (of_lines pre v0). destruct (of_lines pre v0) as [[n v]|e]; [|done]. f_equal. rewrite length_app. lia.
Qed.

(** A failure of the lines is one of the file. *)
Lemma ref_fails pre bytes v0 e : whole pre -> of_lines pre v0 = inr e -> ref (pre ++ bytes) v0 = inr e.
Proof.
  intros Hp He. unfold reference. rewrite cut_app by done. simpl. rewrite vlines_app. fold (of_lines pre v0). by rewrite He.
Qed.

(** ** A look at where a line begins *)

(** The reader has read [pre], whole lines, of the file: its records are those of them; and where torn
    lines wait, none of the lines since the first has a record. *)
Record at_line (v0 : V) (pre : list byte) (r : @Reader V) : Prop := {
  al_whole : whole pre;
  al_line : r_line r = [];
  al_tail : r_tail r = [];
  al_visited : r_visited r = false;
  al_at : r_at r = length pre;
  al_offset : r_offset r = length pre;
  al_hashed : r_hashed r = pre;
  al_records : of_lines pre v0 = inl (r_records r, r_state r);
  al_waiting : forall t, head (r_waiting r) = Some t ->
    exists rest, pre = t_read t ++ rest /\ whole (t_read t) /\ t_at t = length (t_read t) /\
      of_lines (t_read t) v0 = inl (r_records r, r_state r)
}.

Lemma visit_whole_none offset records v whole_ :
  length whole_ = 0 -> visit_whole visit whole_ offset records v = inl (records, v).
Proof. by destruct whole_. Qed.

Lemma line_is_read done v0 pre l r :
  at_line v0 pre r -> one_line l ->
  match eol done nl (pushed l r) with
  | inl r' => at_line v0 (pre ++ l ++ [nl]) r'
  | inr (e, v) => exists stop, e = Some stop /\ of_lines (pre ++ l ++ [nl]) v0 = inr (stop, v)
  end.
Proof.
  intros [Hw Hli Hta Hvi Hat Hof Hha Hre Hwa] Hl.
  pose proof (of_line pre l v0 Hw Hl) as Hline. rewrite Hre in Hline. unfold visit_line in Hline.
  assert (whole (pre ++ l ++ [nl])) as Hw' by by apply whole_line_added.
  assert (forall n v, of_lines (pre ++ l ++ [nl]) v0 = inl (n, v) -> n = r_records r -> v = r_state r ->
    forall t, head (r_waiting r) = Some t -> exists rest, pre ++ l ++ [nl] = t_read t ++ rest /\ whole (t_read t) /\
      t_at t = length (t_read t) /\ of_lines (t_read t) v0 = inl (n, v)) as Hkeep.
  { intros n v _ -> -> t Ht. destruct (Hwa t Ht) as (rest & -> & H). exists (rest ++ l ++ [nl]). by rewrite <- app_assoc. }
  unfold end_line. cbn [pushed r_visited r_line r_records r_offset r_state]. rewrite Hvi, Hli, app_nil_l.
  destruct (holds_only only l) eqn:Eo.
  2: { split; simpl; rewrite ?Hli, ?Hat, ?Hha, ?length_app; simpl; auto; try lia; by eapply Hkeep. }
  destruct (whole_line parse is_json value_ends l (r_records r)) as [[whole_ torn]|stop]; [|by exists stop].
  rewrite Hof. destruct (visit_whole visit whole_ (length pre) (r_records r) (r_state r)) as [[n v]|[stop v]] eqn:Ev;
    [|by exists stop].
  unfold next_line, torn_line, visited_whole; destruct torn; split; cbn [r_tail r_line r_visited r_at r_offset r_hashed r_records r_state r_waiting pushed];
    rewrite ?Hta, ?Hvi, ?Hat, ?Hof, ?Hha, ?Hli, ?length_app; simpl; auto; try lia.
  - intros t Ht. destruct (bool_decide (length whole_ = 0)) eqn:E0; simpl in Ht.
    + apply bool_decide_eq_true in E0. rewrite visit_whole_none in Ev by done. injection Ev as <- <-.
      destruct (r_passing r || _) eqn:Ep; simpl in Ht; [by eapply Hkeep|].
      destruct (r_waiting r) as [|t' ts] eqn:Ew; simpl in Ht; [|eapply Hkeep; [done..|exact Ht]].
      injection Ht as <-. simpl. exists (l ++ [nl]). by split_and!.
    + done.
  - intros t Ht. destruct (bool_decide (length whole_ = 0)) eqn:E0; [|done].
    apply bool_decide_eq_true in E0. rewrite visit_whole_none in Ev by done. injection Ev as <- <-. by eapply Hkeep.
Qed.

Lemma lines_are_read done v0 bytes : forall pre r, at_line v0 pre r ->
  match piece done bytes r with
  | inl r' => exists lines last r0, bytes = lines ++ last /\ one_line last /\
                at_line v0 (pre ++ lines) r0 /\ r' = pushed last r0
  | inr (e, v) => exists lines more stop, bytes = lines ++ more /\ e = Some stop /\
                whole (pre ++ lines) /\ of_lines (pre ++ lines) v0 = inr (stop, v)
  end.
Proof.
  induction bytes as [l Hl|l rest Hl IH] using lines_ind; intros pre r Hr.
  - rewrite piece_last by done. exists [], l, r. by rewrite app_nil_r.
  - rewrite piece_line by done. pose proof (line_is_read done v0 pre l r Hr Hl) as H.
    assert (forall lines, pre ++ l ++ nl :: lines = (pre ++ l ++ [nl]) ++ lines) as Eq.
    { intros lines. by rewrite <- !app_assoc. }
    destruct (eol done nl (pushed l r)) as [r'|[e v]].
    + specialize (IH _ _ H). destruct (piece done rest r') as [r2|[e v]].
      * destruct IH as (lines & last & r0 & -> & Hlast & H0 & ->). exists (l ++ nl :: lines), last, r0.
        rewrite Eq. by rewrite <- app_assoc.
      * destruct IH as (lines & more & stop & -> & -> & Hw & Hs). exists (l ++ nl :: lines), more, stop.
        rewrite Eq. by rewrite <- app_assoc.
    + destruct H as (stop & -> & Hs). exists (l ++ [nl]), rest, stop. rewrite <- app_assoc. split_and!; [done..| |done].
      apply whole_line_added; [apply Hr|done].
Qed.

(** ** The last line *)

(** What a look leaves: [pre] are the whole lines of the file up to where it stopped. *)
Inductive left_by (v0 : V) (bytes pre : list byte) (s : Seen) : V -> Prop :=
| LeftLines v : s_tail s = [] -> of_lines pre v0 = inl (s_records s, v) -> ref bytes v0 = inl (s_records s, v) ->
    left_by v0 bytes pre s v
| LeftTail n v1 record spaces v :
    s_tail s <> [] -> bytes = pre ++ s_tail s ++ spaces -> one_line (s_tail s ++ spaces) -> is_blank spaces = true ->
    is_blank (s_tail s) = false -> holds_only only (s_tail s) = true ->
    of_lines pre v0 = inl (n, v1) -> parse (s_tail s) = Some record ->
    visit record n (length pre) v1 = (v, None) -> s_records s = S n -> left_by v0 bytes pre s v.

Definition edge_of (bytes : list byte) (offset : nat) : list byte :=
  take (offset - (offset - EDGE_BYTES)) (drop (offset - EDGE_BYTES) bytes).

(** What is kept of a file of these bytes, all of whose records were visited, once each. *)
Record keeps (v0 : V) (bytes : list byte) (s : Seen) (v : V) : Prop := {
  k_size : s_size s = length bytes;
  k_prefix : take (s_offset s) bytes `prefix_of` bytes;
  k_offset : s_offset s <= length bytes;
  k_whole : whole (take (s_offset s) bytes);
  k_edge : s_edge s = edge_of bytes (s_offset s);
  k_read : s_read s = take (s_offset s) bytes;
  k_rest : s_rest s = drop (s_offset s) bytes;
  k_left : left_by v0 bytes (take (s_offset s) bytes) s v
}.

Lemma blank_app a b : is_blank (a ++ b) = is_blank a && is_blank b.
Proof. apply forallb_app. Qed.

Lemma begins_app needle a b : begins needle a = true -> begins needle (a ++ b) = true.
Proof.
  revert a. induction needle as [|n needle IH]; intros [|h a]; simpl; [done..|].
  intros [Hn Hb]%andb_true_iff. by rewrite Hn, IH.
Qed.

Lemma contains_app needle a b : Jsonl.contains needle a = true -> Jsonl.contains needle (a ++ b) = true.
Proof.
  induction a as [|h a IH]; simpl.
  - destruct needle; [|done]. by destruct b.
  - rewrite orb_true_iff. intros [Hb|Hc]; apply orb_true_iff; [left; by apply (begins_app _ (h :: a))|right; by apply IH].
Qed.

Lemma holds_only_app a b : holds_only only a = true -> holds_only only (a ++ b) = true.
Proof. unfold holds_only. destruct only; [apply contains_app|done]. Qed.

(** A tail is a record of the file, white space behind it or not, ended or not. *)
Lemma tail_last v0 pre tail spaces n v1 v record :
  whole pre -> one_line (tail ++ spaces) -> is_blank spaces = true -> is_blank tail = false ->
  holds_only only tail = true -> of_lines pre v0 = inl (n, v1) -> parse tail = Some record ->
  visit record n (length pre) v1 = (v, None) ->
  ref (pre ++ tail ++ spaces) v0 = inl (S n, v) /\
  of_lines (pre ++ (tail ++ spaces) ++ [nl]) v0 = inl (S n, v).
Proof.
  intros Hw Ho Hs Ht Hh Hp Hpa Hv. rewrite ref_last, of_line, Hp by done. unfold visit_last, visit_line, whole_line.
  rewrite blank_app, Ht, holds_only_app, parse_lossy, (parse_spaces tail spaces record) by done. simpl. by rewrite Hv.
Qed.

Lemma left_ref v0 bytes pre s v : whole pre -> left_by v0 bytes pre s v -> ref bytes v0 = inl (s_records s, v).
Proof.
  intros Hw [|n v1 record spaces ? ? -> ? ? ? ? ? ? ? ->]; [done|]. by eapply tail_last.
Qed.

(** ** What a look keeps *)

(** A file's bytes, as far as its size was read; and a file that was not cut short since. *)
Definition content (f : File) : list byte := take (f_size f) (f_bytes f).
Definition complete (f : File) : Prop := f_size f <= length (f_bytes f).

Lemma content_length f : complete f -> length (content f) = f_size f.
Proof. unfold complete, content. rewrite length_take. lia. Qed.

Lemma bytes_at_content f from to : to <= f_size f -> bytes_at f from to = take (to - from) (drop from (content f)).
Proof.
  intros H. unfold bytes_at, content. destruct (decide (from <= f_size f)).
  - rewrite skipn_firstn_comm, take_take. f_equal. lia.
  - replace (to - from) with 0 by lia. done.
Qed.

Lemma to_read_content f at_ : to_read f at_ = drop at_ (content f).
Proof.
  unfold to_read. rewrite bytes_at_content by done. apply take_ge. rewrite length_drop. unfold content. rewrite length_take. lia.
Qed.

(** Where the reader stops: at the first of the torn lines that wait. *)
Definition stops_at (pre : list byte) (r : @Reader V) : Prop :=
  match head (r_waiting r) with
  | Some t => t_at t = length pre /\ t_read t = pre
  | None => r_offset r = length pre /\ r_hashed r = pre
  end.

Lemma kept_at f seen looked_ms r unfinished v0 pre more :
  complete f -> content f = pre ++ more -> whole pre -> stops_at pre r -> r_at r = f_size f ->
  (forall s, seen = Some s -> s_edge s = edge_of (content f) (s_offset s)) ->
  left_by v0 (content f) pre (seen_by f seen looked_ms r unfinished) (r_state r) ->
  keeps v0 (content f) (seen_by f seen looked_ms r unfinished) (r_state r).
Proof.
  intros Hf Hc Hw Hs Hat Hedge Hl.
  assert (s_offset (seen_by f seen looked_ms r unfinished) = length pre) as Eo.
  { unfold stops_at in Hs. simpl. destruct (head (r_waiting r)); by destruct Hs. }
  assert (length pre <= f_size f) as Hle by (rewrite <- (content_length f Hf), Hc, length_app; lia).
  assert (take (length pre) (content f) = pre) as Ep by by rewrite Hc, take_app_length.
  split; rewrite ?Eo, ?Ep, ?content_length; try done.
  - by rewrite Hc; exists more.
  - unfold seen_by. simpl. change (match head (r_waiting r) with Some first => t_at first | None => r_offset r end)
      with (s_offset (seen_by f seen looked_ms r unfinished)). rewrite Eo.
    destruct seen as [s|]; simpl; [destruct (bool_decide (s_offset s = length pre)) eqn:Es; simpl|].
    + apply bool_decide_eq_true in Es. rewrite (Hedge s eq_refl). by rewrite Es.
    + unfold edge_of. by rewrite bytes_at_content.
    + unfold edge_of. by rewrite bytes_at_content.
  - unfold stops_at in Hs. simpl. destruct (head (r_waiting r)); by destruct Hs.
  - unfold seen_by. simpl. change (match head (r_waiting r) with Some first => t_at first | None => r_offset r end)
      with (s_offset (seen_by f seen looked_ms r unfinished)). rewrite Eo, Hat. unfold hash_of.
    destruct (Nat.leb_spec (f_size f) (length pre)) as [H|H].
    + symmetry. apply drop_ge. rewrite content_length by done. done.
    + rewrite bytes_at_content by done. simpl. apply take_ge. rewrite length_drop, content_length by done. done.
Qed.

#[local] Abbreviation llast := (last_line parse is_json visit only).

(** A look that came to the last line. *)
Lemma last_is_read f seen looked_ms v0 pre l r0 :
  complete f -> content f = pre ++ l -> one_line l -> at_line v0 pre r0 ->
  (forall s, seen = Some s -> s_edge s = edge_of (content f) (s_offset s)) ->
  match llast seen looked_ms (pushed l r0) with
  | inl (r, unfinished) => keeps v0 (content f) (seen_by f seen looked_ms r unfinished) (r_state r)
  | inr (e, v) => exists stop, e = Some stop /\ ref (content f) v0 = inr (stop, v)
  end.
Proof.
  intros Hf Hc Hl Hr Hedge. pose proof (ref_last pre l v0 (al_whole _ _ _ Hr) Hl) as Href. rewrite <- Hc in Href.
  destruct Hr as [Hw Hli Hta Hvi Hat Hof Hha Hre Hwa]. rewrite Hre in Href. unfold visit_last in Href.
  assert (r_at (pushed l r0) = f_size f) as Eat.
  { rewrite <- (content_length f Hf), Hc, length_app. simpl. lia. }
  assert (forall r unf, r_waiting r = r_waiting r0 -> r_offset r = r_offset r0 -> r_hashed r = r_hashed r0 -> r_at r = f_size f ->
    r_tail r = [] -> r_records r = r_records r0 -> r_state r = r_state r0 -> ref (content f) v0 = inl (r_records r0, r_state r0) ->
    keeps v0 (content f) (seen_by f seen looked_ms r unf) (r_state r)) as Hkeep.
  { intros r unf E1 E2 E3 E4 E5 E6 E7 E8.
    destruct (head (r_waiting r0)) as [t|] eqn:Et.
    - destruct (Hwa t eq_refl) as (rest & Ep & Hwt & Ht & Hrt). rewrite Ep, <- app_assoc in Hc.
      eapply kept_at; [done|exact Hc|done| |done|done|]; [by unfold stops_at; rewrite E1, Et|].
      constructor; simpl; by rewrite ?E5, ?E6, ?E7.
    - eapply kept_at; [done|exact Hc|done| |done|done|]; [unfold stops_at; by rewrite E1, Et, E2, E3|].
      constructor; simpl; by rewrite ?E5, ?E6, ?E7. }
  unfold last_line. cbn [pushed r_visited r_line r_records r_offset r_state]. rewrite Hvi, Hli, app_nil_l, Hof.
  destruct (negb (is_blank l) && holds_only only l) eqn:Eb; [|by apply Hkeep].
  apply andb_true_iff in Eb as [Hb%negb_true_iff Ho]. rewrite parse_lossy in *.
  destruct (parse l) as [record|] eqn:Ep.
  - destruct (visit record (r_records r0) (length pre) (r_state r0)) as [v [stop|]] eqn:Ev; [by exists stop|].
    eapply kept_at; [done|exact Hc|done|by split|done|done|].
    eapply (LeftTail _ _ _ _ (r_records r0) _ record []); simpl; rewrite ?app_nil_r; try done. intros ->. discriminate Hb.
  - destruct (is_json l); [by eexists|]. by apply Hkeep.
Qed.

(** The rest of the file, from where a line begins. *)
Lemma rest_is_read f seen looked_ms done v0 pre bytes r0 :
  complete f -> content f = pre ++ bytes -> at_line v0 pre r0 ->
  (forall s, seen = Some s -> s_edge s = edge_of (content f) (s_offset s)) ->
  match match piece done bytes r0 with inl r => llast seen looked_ms r | inr e => inr e end with
  | inl (r, unfinished) => keeps v0 (content f) (seen_by f seen looked_ms r unfinished) (r_state r)
  | inr (e, v) => exists stop, e = Some stop /\ ref (content f) v0 = inr (stop, v)
  end.
Proof.
  intros Hf Hc Hr Hedge. pose proof (lines_are_read done v0 bytes pre r0 Hr) as H.
  destruct (piece done bytes r0) as [r|[e v]].
  - destruct H as (lines & last & r1 & -> & Hl & Hr1 & ->). rewrite app_assoc in Hc. by eapply last_is_read.
  - destruct H as (lines & more & stop & -> & -> & Hw & Hs). exists stop. split; [done|].
    rewrite Hc, app_assoc. by apply ref_fails.
Qed.

(** The line that the last look ended on, a record with no newline, goes on in the file, to its newline or
    the end, with more than white space: it is another line now. *)
Definition another_line (f : File) (pre tail : list byte) : Prop :=
  tail <> [] /\ exists x rest, content f = pre ++ tail ++ x ++ rest /\ one_line x /\ is_blank x = false /\
    (rest = [] \/ head rest = Some nl).

(** The line of a tail goes on: with white space alone, or the file is another. *)
Lemma tail_is_read f s looked_ms done v0 pre n v1 record spaces v more :
  let r := reader_from (Some s) v in
  complete f -> s_offset s = length pre -> s_read s = pre -> s_edge s = edge_of (content f) (s_offset s) -> whole pre ->
  s_tail s <> [] -> content f = pre ++ s_tail s ++ spaces ++ more -> one_line (s_tail s ++ spaces) ->
  is_blank spaces = true -> is_blank (s_tail s) = false -> holds_only only (s_tail s) = true ->
  of_lines pre v0 = inl (n, v1) -> parse (s_tail s) = Some record ->
  visit record n (length pre) v1 = (v, None) -> s_records s = S n ->
  match match piece done (spaces ++ more) r with inl r => llast (Some s) looked_ms r | inr e => inr e end with
  | inl (r, unfinished) => keeps v0 (content f) (seen_by f (Some s) looked_ms r unfinished) (r_state r)
  | inr (Some stop, v) => ref (content f) v0 = inr (stop, v)
  | inr (None, _) => another_line f pre (s_tail s)
  end.
Proof.
  intros r Hf Eo Er Ee Hw Ht Hc Ho Hb Htb Hh Hp Hpa Hv Hn. apply Forall_app in Ho as [Hto Hso].
  assert (r_visited r = true) as Hvis by (unfold r; simpl; by rewrite bool_decide_eq_false_2).
  assert (r_at r = length (pre ++ s_tail s)) as Hat by (unfold r; simpl; by rewrite length_app, Eo).
  assert (forall x rest, is_blank x = false -> one_line x -> spaces ++ more = x ++ rest -> rest = [] \/ head rest = Some nl ->
    another_line f pre (s_tail s)) as Hgrown.
  { intros x rest Hx Hox E Hrest. split; [done|]. exists x, rest. by rewrite <- E. }
  destruct (first_line (spaces ++ more)) as [Hx|(x & rest & Ex & Hx)].
  - rewrite piece_last by done. set (x := spaces ++ more) in *. unfold last_line. cbn [pushed r_visited r_line]. rewrite Hvis.
    change (r_line r) with (@nil byte). rewrite app_nil_l. destruct (is_blank x) eqn:Ex; [|by apply (Hgrown x []); rewrite ?app_nil_r; auto].
    cbn [pushed r_state]. change (r_state r) with v. change v with (r_state (pushed x r)).
    eapply kept_at; [done|exact Hc|done|by split| |by intros ? [= <-]|].
    + cbn [pushed r_at]. rewrite Hat, <- (content_length f Hf), Hc, !length_app. unfold x. rewrite length_app. lia.
    + eapply (LeftTail _ _ _ _ n v1 record x); simpl; try done. by apply Forall_app.
  - rewrite Ex, piece_line by done. unfold end_line. cbn [pushed r_visited r_line]. rewrite Hvis. change (r_line r) with (@nil byte).
    rewrite app_nil_l. destruct (is_blank x) eqn:Ebx; [|by eapply (Hgrown x (nl :: rest)); auto].
    rewrite Ex in Hc. assert (content f = (pre ++ (s_tail s ++ x) ++ [nl]) ++ rest) as Hc'.
    { rewrite Hc, <- !app_assoc. done. }
    assert (one_line (s_tail s ++ x)) as Hox by by apply Forall_app.
    destruct (tail_last v0 pre (s_tail s) x n v1 v record) as [_ Hol]; try done.
    pose proof (rest_is_read f (Some s) looked_ms done v0 _ rest (next_line nl (tail_ends (pushed x r))) Hf Hc') as H.
    assert (at_line v0 (pre ++ (s_tail s ++ x) ++ [nl]) (next_line nl (tail_ends (pushed x r)))) as Hr.
    { split; simpl; rewrite ?Er, ?Eo, ?Hn, ?length_app; simpl; try done; try lia.
      - by apply whole_line_added.
      - by rewrite <- !app_assoc. }
    specialize (H Hr ltac:(by intros ? [= <-])). destruct (match piece _ _ _ with inl r => _ | inr e => _ end) as [[r' u]|[e w]]; [exact H|].
    by destruct H as (stop & -> & H).
Qed.

(** ** A file that grew is the one read *)

Lemma edge_grown bytes more offset : offset <= length bytes -> edge_of (bytes ++ more) offset = edge_of bytes offset.
Proof.
  intros H. unfold edge_of. rewrite drop_app_le by lia. rewrite take_app_le; [done|]. rewrite length_drop. lia.
Qed.

Lemma edge_length bytes offset : offset <= length bytes -> length (edge_of bytes offset) = offset - (offset - EDGE_BYTES).
Proof. intros H. unfold edge_of. rewrite length_take, length_drop. lia. Qed.

Lemma holds_content f at_ bytes :
  at_ + length bytes <= f_size f -> take (length bytes) (drop at_ (content f)) = bytes -> holds f at_ bytes = true.
Proof.
  intros Hle E. unfold holds. rewrite bytes_at_content by done. replace (at_ + length bytes - at_) with (length bytes) by lia.
  rewrite E, (bool_decide_eq_true_2 (bytes = bytes)) by done. by rewrite orb_true_r.
Qed.

Section Grown.
Context (v0 : V) (f : File) (s : Seen) (v : V) (bytes more : list byte).
Hypotheses (Hk : keeps v0 bytes s v) (Hf : complete f) (Hc : content f = bytes ++ more).

Lemma grown_size : f_size f = length bytes + length more.
Proof. rewrite <- (content_length f Hf), Hc. apply length_app. Qed.

Lemma grown_split : exists rest, content f = take (s_offset s) bytes ++ rest /\ length (take (s_offset s) bytes) = s_offset s /\
  drop (s_offset s) bytes ++ more = rest.
Proof.
  pose proof (k_offset _ _ _ _ Hk) as Ho. exists (drop (s_offset s) bytes ++ more). rewrite Hc, app_assoc, take_drop, length_take.
  split_and!; [done|lia|done].
Qed.

Lemma grown_edge : s_edge s = edge_of (content f) (s_offset s).
Proof. rewrite Hc, edge_grown, (k_edge _ _ _ _ Hk); [done|apply Hk]. Qed.

Lemma grown_holds_edge : holds f (s_offset s - length (s_edge s)) (s_edge s) = true.
Proof.
  pose proof (k_offset _ _ _ _ Hk) as Ho. pose proof grown_size as Hsz.
  assert (length (s_edge s) = s_offset s - (s_offset s - EDGE_BYTES)) as El by (rewrite (k_edge _ _ _ _ Hk); by apply edge_length).
  apply holds_content; [lia|]. rewrite El. replace (s_offset s - (s_offset s - (s_offset s - EDGE_BYTES))) with (s_offset s - EDGE_BYTES) by lia.
  symmetry. apply grown_edge.
Qed.

Lemma grown_holds_tail : holds f (s_offset s) (s_tail s) = true.
Proof.
  destruct (decide (s_tail s = [])) as [->|Ht]; [done|]. destruct grown_split as (rest & Er & El & Ed).
  destruct (k_left _ _ _ _ Hk) as [|n v1 record spaces ? _ Eb]; [done|].
  assert (drop (s_offset s) bytes = s_tail s ++ spaces) as Edb.
  { rewrite Eb at 1. rewrite <- El at 1. apply drop_app_length. }
  apply holds_content.
  - rewrite grown_size, Eb, !length_app, El. lia.
  - rewrite Er, <- Ed, Edb. rewrite <- El at 1. rewrite drop_app_length, <- app_assoc. apply take_app_length.
Qed.

Lemma grown_known looked_ms : f_identity f = s_identity s ->
  match known finish f s looked_ms with
  | Some Unchanged => content f = bytes
  | Some (Held s') => content f = bytes /\ keeps v0 bytes s' v
  | None => True
  | _ => False
  end.
Proof.
  intros Hi. unfold known. rewrite Hi, bool_decide_eq_true_2 by done. cbn [negb]. rewrite grown_holds_edge, grown_holds_tail.
  cbn [negb orb]. destruct (bool_decide (f_size f = s_size s)) eqn:Esz; [|done]. apply bool_decide_eq_true in Esz.
  assert (content f = bytes) as Eb.
  { rewrite (k_size _ _ _ _ Hk), grown_size in Esz. destruct more; [by rewrite Hc, app_nil_r|simpl in Esz; lia]. }
  pose proof (k_offset _ _ _ _ Hk) as Ho. rewrite (k_size _ _ _ _ Hk) in Esz.
  assert (hash_of f [] 0 (s_offset s) = s_read s) as Er.
  { rewrite (k_read _ _ _ _ Hk). unfold hash_of. destruct (Nat.leb_spec (s_offset s) 0); [by replace (s_offset s) with 0 by lia|].
    rewrite bytes_at_content, Eb, Nat.sub_0_r by lia. done. }
  assert (hash_of f [] (s_offset s) (f_size f) = s_rest s) as Et.
  { rewrite (k_rest _ _ _ _ Hk). unfold hash_of. destruct (Nat.leb_spec (f_size f) (s_offset s)); [symmetry; apply drop_ge; lia|].
    rewrite bytes_at_content, Eb by done. simpl. apply take_ge. rewrite length_drop. lia. }
  rewrite Er, Et, !Z.eqb_refl, andb_false_r.
  match goal with |- context [if ?same && settled _ _ (s_looked s) _ then _ else _] => destruct same; cbn [andb]; [|done] end.
  destruct (settled _ _ (s_looked s) _); [done|]. split; [done|].
  destruct Hk as [? ? ? ? ? ? ? Hl]. split; simpl; try done. destruct Hl as [|n v1 record spaces]; [by constructor|].
  by eapply (LeftTail _ _ _ _ n v1 record spaces).
Qed.
End Grown.

Lemma left_pre v0 bytes pre s v : left_by v0 bytes pre s v -> s_tail s = [] -> of_lines pre v0 = inl (s_records s, v).
Proof. by intros []. Qed.

(** A look at a file that grew since the last. *)
Lemma look_leaves v0 f s v bytes looked_ms ps :
  keeps v0 bytes s v -> complete f -> bytes `prefix_of` content f -> f_identity f = s_identity s ->
  concat ps = to_read f (s_offset s + length (s_tail s)) ->
  match read_on_with parse is_json value_ends finish visit f (Some s) looked_ms only ps v with
  | (inl Unchanged, v') => v' = v /\ keeps v0 (content f) s v
  | (inl (Held s'), v') => v' = v /\ keeps v0 (content f) s' v
  | (inl (Read s'), v') => keeps v0 (content f) s' v' /\ ref (content f) v0 = inl (s_records s', v')
  | (inl NotTheFile, _) => another_line f (take (s_offset s) bytes) (s_tail s)
  | (inr stop, v') => ref (content f) v0 = inr (stop, v')
  end.
Proof.
  intros Hk Hf [more Hc] Hi Hps. unfold read_on_with. cbn [mbind option_bind].
  pose proof (grown_known v0 f s v bytes more Hk Hf Hc looked_ms Hi) as Hkn.
  destruct (known finish f s looked_ms) as [[]|]; [by rewrite Hkn|destruct Hkn as [-> ?]; by split|done|done|]. clear Hkn.
  rewrite pieces_as_one, Hps, to_read_content.
  destruct (grown_split v0 f s v bytes more Hk Hc) as (rest & Er & El & Ed).
  pose proof (grown_edge v0 f s v bytes more Hk Hc) as Hedge.
  rewrite Er. rewrite drop_app_ge by (rewrite El; lia). rewrite El. replace (s_offset s + _ - s_offset s) with (length (s_tail s)) by lia. rewrite <- Er.
  set (r0 := reader_from (Some s) v). set (dw := done_waiting_of _ _).
  assert (forall r u, keeps v0 (content f) (seen_by f (Some s) looked_ms r u) (r_state r) ->
    ref (content f) v0 = inl (s_records (seen_by f (Some s) looked_ms r u), r_state r)) as Hfin.
  { intros r u Hkeep. eapply left_ref; [apply (k_whole _ _ _ _ Hkeep)|apply (k_left _ _ _ _ Hkeep)]. }
  destruct (decide (s_tail s = [])) as [Et|Et].
  - rewrite Et. cbn [length]. rewrite drop_0. pose proof (rest_is_read f (Some s) looked_ms dw v0 _ rest r0 Hf Er) as H.
    assert (at_line v0 (take (s_offset s) bytes) r0) as Hr0.
    { unfold r0. split; simpl; rewrite ?Et; simpl; rewrite ?El; try done.
      - apply Hk.
      - apply Hk.
      - by apply (left_pre _ bytes), Et; apply Hk. }
    specialize (H Hr0 ltac:(by intros ? [= <-])). destruct (piece dw rest r0) as [r|[e w]].
    + destruct (llast _ _ r) as [[r' u]|[e w]]; [by split; [|apply Hfin]|]. by destruct H as (stop & -> & H).
    + by destruct H as (stop & -> & H).
  - destruct (k_left _ _ _ _ Hk) as [|n v1 record spaces v _ Eb Ho Hb Htb Hh Hp Hpa Hv Hn]; [done|].
    assert (rest = s_tail s ++ spaces ++ more) as Erest.
    { rewrite <- Ed. rewrite Eb at 1. rewrite <- El at 1. by rewrite drop_app_length, <- app_assoc. }
    rewrite Erest, drop_app_length.
    pose proof (tail_is_read f s looked_ms dw v0 (take (s_offset s) bytes) n v1 record spaces v more Hf (eq_sym El)) as H.
    rewrite El in H. cbv zeta in H. fold r0 in H. rewrite El in Hv.
    specialize (H (k_read _ _ _ _ Hk) Hedge (k_whole _ _ _ _ Hk) Et ltac:(by rewrite Er, Erest) Ho Hb Htb Hh Hp Hpa Hv Hn).
    destruct (piece dw (spaces ++ more) r0) as [r|[[stop|] w]]; [|done|exact H].
    destruct (llast _ _ r) as [[r' u]|[[stop|] w]]; [by split; [|apply Hfin]|done|exact H].
Qed.

(** C22: a look at a file that grew since the last leaves just the records of all it holds, visited once
    each, in their places and in order, as if the file were read at once: however its reads come in
    pieces, its lines were cut by the looks, and torn lines wait. It takes the file for another, to be
    read afresh, only where the last look ended on a record with no newline and the line it began, as
    the file holds it now, goes on with more than white space ([another_line]); a record that gets its
    newline, or spaces before it, and whatever comes on the lines after it, is read on from. And where
    a look stops, reading the file at once stops there. *)
Theorem look_reads_on v0 f s v bytes looked_ms ps :
  keeps v0 bytes s v -> complete f -> bytes `prefix_of` content f -> f_identity f = s_identity s ->
  concat ps = to_read f (s_offset s + length (s_tail s)) ->
  match read_on_with parse is_json value_ends finish visit f (Some s) looked_ms only ps v with
  | (inl Unchanged, v') => v' = v /\ keeps v0 (content f) s v
  | (inl (Held s'), v') => v' = v /\ keeps v0 (content f) s' v
  | (inl (Read s'), v') => keeps v0 (content f) s' v' /\ ref (content f) v0 = inl (s_records s', v')
  | (inl NotTheFile, _) => another_line f (take (s_offset s) bytes) (s_tail s)
  | (inr stop, v') => ref (content f) v0 = inr (stop, v')
  end.
Proof. apply look_leaves. Qed.

(** A first look reads all the file holds. *)
Theorem first_look_reads_all v0 f looked_ms ps :
  complete f -> concat ps = to_read f 0 ->
  match read_on_with parse is_json value_ends finish visit f None looked_ms only ps v0 with
  | (inl (Read s), v) => keeps v0 (content f) s v /\ s_identity s = f_identity f /\ ref (content f) v0 = inl (s_records s, v)
  | (inr stop, v) => ref (content f) v0 = inr (stop, v)
  | _ => False
  end.
Proof.
  intros Hf Hps. unfold read_on_with. cbn [mbind option_bind]. rewrite pieces_as_one, Hps, to_read_content, drop_0.
  set (r0 := reader_from None v0).
  pose proof (rest_is_read f None looked_ms (done_waiting_of None looked_ms) v0 [] (content f) r0 Hf eq_refl) as H.
  specialize (H ltac:(by split) ltac:(done)). destruct (piece _ (content f) r0) as [r|[e w]].
  - destruct (llast _ _ r) as [[r' u]|[e w]]; [|by destruct H as (stop & -> & H)].
    split_and!; [done|done|]. eapply left_ref; [apply (k_whole _ _ _ _ H)|apply (k_left _ _ _ _ H)].
  - by destruct H as (stop & -> & H).
Qed.

(** A file of the size and time the last look found, at the look whose time settles it, is held for
    unchanged only if every byte it had is as it was: a record rewritten at its length is told, however
    far from the end, but for two contents that hash alike. *)
Theorem rewritten_file_is_told v0 f s v bytes looked_ms ps s' v' :
  keeps v0 bytes s v -> complete f ->
  settled (f_written f) (s_since s) (s_looked s) looked_ms = false ->
  settled (f_written f) (s_since s) looked_ms looked_ms = true ->
  (forall read, finish read = finish (s_read s) -> read = s_read s) ->
  (forall rest, finish rest = finish (s_rest s) -> rest = s_rest s) ->
  read_on_with parse is_json value_ends finish visit f (Some s) looked_ms only ps v = (inl (Held s'), v') ->
  content f = bytes /\ v' = v /\ keeps v0 bytes s' v.
Proof.
  intros Hk Hf Hnot Hset Hread Hrest. unfold read_on_with. cbn [mbind option_bind].
  destruct (known finish f s looked_ms) as [looked|] eqn:E.
  2: { destruct (read_pieces _ _ _ _ _ _ _ _) as [r|[[?|] ?]]; [|done|done]. by destruct (last_line _ _ _ _ _ _ _) as [[? ?]|[[?|] ?]]. }
  intros [= -> <-]. unfold known in E. destruct (negb _); [done|].
  destruct (bool_decide (f_size f = s_size s)) eqn:Esz; cbn [andb] in E.
  2: { destruct (_ || _) in E; done. }
  rewrite Hnot, andb_false_r in E.
  destruct (_ || _) in E; [done|]. destruct (_ && _ && negb (unfinished_due _ _)) in E; [|done].
  rewrite Hset in E. cbn [andb] in E.
  destruct (finish (hash_of f [] 0 (s_offset s)) =? finish (s_read s))%Z eqn:Er; [|done]. cbn [negb] in E.
  destruct (finish (hash_of f [] (s_offset s) (f_size f)) =? finish (s_rest s))%Z eqn:Et; [|done].
  injection E as <-. apply Z.eqb_eq, Hread in Er. apply Z.eqb_eq, Hrest in Et. apply bool_decide_eq_true in Esz.
  destruct Hk as [Hs Hp Ho Hw He Hr Ht Hl].
  assert (content f = bytes) as Ec.
  { rewrite <- (take_drop (s_offset s) bytes), <- Hr, <- Ht, <- Er, <- Et. rewrite <- (take_drop (s_offset s) (content f)) at 1.
    assert (forall h from to, to <= f_size f -> hash_of f h from to = h ++ take (to - from) (drop from (content f))) as Hh.
    { intros h from to H. unfold hash_of. rewrite bytes_at_content by done. destruct (Nat.leb_spec to from); [|done].
      replace (to - from) with 0 by lia. by rewrite take_0, app_nil_r. }
    rewrite !Hh by lia. simpl. rewrite drop_0, Nat.sub_0_r. f_equal. symmetry. apply take_ge. rewrite length_drop, content_length by done. done. }
  split_and!; [done..|]. split; simpl; try done. destruct Hl as [|n v1 record spaces]; [by constructor|].
  by eapply (LeftTail _ _ _ _ n v1 record spaces).
Qed.
End Reads.

(** ** At a file that grows *)

Module Sample.
Definition json_space (c : char) : bool := ((c =? 0x20) || (c =? 0x09) || (c =? 0x0D) || (c =? 0x0A))%Z.
Definition without_spaces (t : text) : text :=
  foldr (fun c t => if json_space c && bool_decide (t = []) then [] else c :: t) [] t.

(** A reading of texts between braces, which takes what is between for the value. *)
Definition from_str (t : text) : option (@JsValue.Value integers) :=
  let t := without_spaces t in
  if bool_decide (head t = Some 0x7B%Z) && bool_decide (last t = Some 0x7D%Z)
  then Some (Array (@Number integers <$> t)) else None.

Lemma without_spaces_app t s : Forall (fun c => json_space c = true) s -> without_spaces (t ++ s) = without_spaces t.
Proof.
  intros Hs. unfold without_spaces. rewrite foldr_app. f_equal.
  induction Hs as [|c s Hc _ IH]; [done|]. simpl. by rewrite IH, Hc.
Qed.

Lemma from_str_spaces : takes_spaces from_str.
Proof.
  intros t s v E Hs. unfold from_str in *. rewrite without_spaces_app; [done|].
  eapply Forall_impl; [exact Hs|]. intros c Hc. unfold json_space. simpl in Hc. lia.
Qed.

Definition parse : list byte -> option (@JsValue.Value integers) :=
  from_slice_lossy from_str (fun _ => None) (fun _ => None) (fun _ => None).
#[export] Instance parse_lawful : LawfulParse parse := from_slice_lossy_lawful _ _ _ _ from_str_spaces.
Definition is_json (_ : list byte) : bool := false.
Definition value_ends (_ : list byte) : list nat := [].
Definition finish (read : ReadHash) : Z := foldr (fun b n => n * 257 + u8 b + 1)%Z 0%Z read.
(** The places and bytes of the records. *)
Definition visit (r : @JsValue.Value integers) (n offset : nat) (v : list (nat * nat)) : list (nat * nat) * option Stop :=
  (v ++ [(n, offset)], None).

Definition bytes_of (s : string) : list byte := String.list_byte_of_string s.
Definition newline : list byte := [nl].
(** A record, a torn line and a record with no newline yet; then its newline and one record more. *)
Definition first_bytes : list byte := bytes_of "{a}" ++ newline ++ bytes_of "{to" ++ newline ++ bytes_of "{b}".
Definition next_bytes : list byte := first_bytes ++ bytes_of " " ++ newline ++ bytes_of "{c}" ++ newline.
Definition file (bytes : list byte) (written : Z) : File :=
  {| f_identity := (1, 7)%Z; f_size := length bytes; f_written := written; f_bytes := bytes |}.

Definition seen : Seen :=
  match read_on_with parse is_json value_ends finish visit (file first_bytes 0) None 10 None [first_bytes] [] with
  | (inl (Read s), _) => s
  | _ => {| s_identity := (0, 0)%Z; s_size := 0; s_written := 0; s_looked := 0; s_since := 0; s_offset := 0; s_edge := [];
            s_read := []; s_rest := []; s_tail := []; s_records := 0; s_passed_over := []; s_torn_since := None; s_unfinished := None |}
  end.
Definition records : list (nat * nat) := [(0, 0); (1, 8)].

Lemma seen_keeps : keeps parse is_json value_ends visit None [] first_bytes seen records.
Proof.
  split; [by vm_compute|exists (drop (s_offset seen) first_bytes); by vm_compute|vm_compute; lia|by vm_compute..|].
  apply (LeftTail _ _ _ _ _ _ _ _ _ 1 [(0, 0)] (Array (@Number integers <$> [0x7B; 0x62; 0x7D]%Z)) []).
  all: try (apply (bool_decide_eq_true (s_tail seen <> [])); by vm_compute).
  all: try (match goal with |- @eq _ _ _ => by vm_compute end).
  vm_compute. by repeat constructor.
Qed.

Lemma finish_nonneg l : (0 <= finish l)%Z.
Proof. induction l as [|b l IH]; [done|]. unfold finish in *. simpl. pose proof (u8_range b). lia. Qed.

Lemma finish_inj a b : finish a = finish b -> a = b.
Proof.
  revert b. induction a as [|x a IH]; intros [|y b]; [done|..].
  - unfold finish. simpl. intros E. pose proof (u8_range y) as Hy. fold (finish b) in E.
    pose proof (finish_nonneg b). lia.
  - unfold finish. simpl. intros E. pose proof (u8_range x) as Hx. fold (finish a) in E.
    pose proof (finish_nonneg a). lia.
  - unfold finish. simpl. fold (finish a) (finish b). intros E. pose proof (u8_range x) as Hx. pose proof (u8_range y) as Hy.
    assert (finish a = finish b /\ u8 x = u8 y) as [Ef Eu] by lia. f_equal; [by apply u8_inj|by apply IH].
Qed.
End Sample.
#[local] Existing Instance Sample.parse_lawful.

Lemma look_reads_on_witness :
  let next := Sample.file Sample.next_bytes 1 in
  match read_on_with Sample.parse Sample.is_json Sample.value_ends Sample.finish Sample.visit next (Some Sample.seen) 20 None
          [Sample.bytes_of " "; Sample.newline ++ Sample.bytes_of "{c}" ++ Sample.newline] Sample.records with
  | (inl (Read s), v) => v = [(0, 0); (1, 8); (2, 13)] /\ s_passed_over s = [1] /\
      keeps Sample.parse Sample.is_json Sample.value_ends Sample.visit None [] Sample.next_bytes s v
  | _ => False
  end.
Proof.
  intros next.
  pose proof (look_reads_on Sample.parse Sample.is_json Sample.value_ends Sample.finish Sample.visit None []
    next Sample.seen Sample.records Sample.first_bytes 20
    [Sample.bytes_of " "; Sample.newline ++ Sample.bytes_of "{c}" ++ Sample.newline] Sample.seen_keeps
    (le_n _) ltac:(by eexists) eq_refl eq_refl) as H.
  destruct (read_on_with _ _ _ _ _ next _ _ _ _ _) as [[[]|] v] eqn:E; vm_compute in E; try discriminate E.
  destruct H as [H _]. injection E as Es Ev. subst. split_and!; [done|done|exact H].
Defined.

Lemma rewritten_file_is_told_witness :
  let same := Sample.file Sample.first_bytes 0 in
  match read_on_with Sample.parse Sample.is_json Sample.value_ends Sample.finish Sample.visit same (Some Sample.seen) 3000 None
          [] Sample.records with
  | (inl (Held s), v) => content same = Sample.first_bytes /\ v = Sample.records /\
      keeps Sample.parse Sample.is_json Sample.value_ends Sample.visit None [] Sample.first_bytes s v
  | _ => False
  end.
Proof.
  intros same. destruct (read_on_with _ _ _ _ _ same _ _ _ _ _) as [[[]|] v] eqn:E; try (vm_compute in E; discriminate E).
  destruct (rewritten_file_is_told Sample.parse Sample.is_json Sample.value_ends Sample.finish Sample.visit None []
    same Sample.seen Sample.records Sample.first_bytes 3000 [] seen v Sample.seen_keeps (le_n _)
    ltac:(by vm_compute) ltac:(by vm_compute) (fun read => Sample.finish_inj read _) (fun rest => Sample.finish_inj rest _) E)
    as (H1 & -> & H2). by split_and!.
Defined.
