(* ===== verification/Followed.v ===== *)
(** * A conversation's transcript followed from look to look: [cf-harness/src/shared/record/followed.rs]

    A look finds the transcript, reads on from where the last stopped into the state its parser makes,
    and reads it again from its start where it is another. Where the file is, what it holds as it is
    opened and how its reads come are the look's [World]. *)
From S2P Require Import Prelude Utf8 Text JsValue Jsonl JsonlReads.
#[local] Open Scope Z_scope.

(** [cf-base]'s [file::Stat]. *)
Record Stat := { st_identity : Identity; st_size : nat; st_mtime : Z }.
#[export] Instance stat_eq_dec : EqDecision Stat.
Proof. solve_decision. Defined.

Section Followed.
Context {Path : Type} `{!EqDecision Path} {Value P : Type}.
(** [Parser]: how it reads a line, visits a record and decides at the end of a look; how a fresh one is
    made ([Fresh]); and the readings of JSON and the hash that [Jsonl] takes. *)
Context (parse : list byte -> option Value) (is_json : list byte -> bool)
        (value_ends : list byte -> list nat) (finish : ReadHash -> Z)
        (visit_at : Value -> nat -> nat -> P -> P * option Stop) (flush : P -> P * option text)
        (fresh : Path -> P).

(** What a look is made in: the file's [stat], the harness's answer to where it is, and the file as
    each read of the look opens it, with the pieces it comes in from a byte on. *)
Record World := {
  w_stat : Path -> option Stat;
  w_locate : option Path + text;
  w_open : Path -> nat -> File + text;
  w_pieces : Path -> nat -> nat -> list (list byte);
  w_no_stat : text
}.

Record Followed := {
  fo_file : option Path;
  fo_seen : option Seen;
  fo_state : option P;
  fo_broken : option (Stat * Z * text)
}.

Definition new : Followed := {| fo_file := None; fo_seen := None; fo_state := None; fo_broken := None |}.

(** [Read] *)
Record ReadLook := { rd_state : P; rd_file : Path; rd_changed : bool; rd_lost : list nat }.

Definition with_state (fo : Followed) (seen : option Seen) (state : option P) (broken : option (Stat * Z * text)) : Followed :=
  {| fo_file := fo_file fo; fo_seen := seen; fo_state := state; fo_broken := broken |}.

(** Where the look's file is: kept while it is there, else asked of the harness. *)
Definition find_file (w : World) (fo : Followed) : Followed * (option (Path * Stat) + Stop) :=
  match (file ← fo_file fo; stat ← w_stat w file; Some (file, stat)) with
  | Some found => (fo, inl (Some found))
  | None =>
      match w_locate w with
      | inr why => (fo, inr (Failed why))
      | inl located =>
          let fo := if decide (located = fo_file fo) then fo
                    else {| fo_file := located; fo_seen := None; fo_state := None; fo_broken := None |} in
          match located with
          | None => (fo, inl None)
          | Some file => match w_stat w file with
                         | Some stat => (fo, inl (Some (file, stat)))
                         | None => (fo, inr (Io (w_no_stat w)))
                         end
          end
      end
  end.

(** The failure kept, while the file is as it was. *)
Definition still_broken (fo : Followed) (current : Stat) (now_ms : Z) : option text :=
  '(stat, looked_ms, why) ← fo_broken fo;
  if bool_decide (stat = current) && settled (st_mtime stat) looked_ms looked_ms now_ms then Some why else None.

(** Where the read after what was seen begins. *)
Definition starts_at (seen : option Seen) : nat :=
  match seen with Some s => s_offset s + length (s_tail s) | None => 0 end.

(** One turn of the loop: [read_on_with], and [flush]. *)
Definition look_once (w : World) (file : Path) (turn : nat) (seen : option Seen) (state : P) (now_ms : Z) :
    (Looked + Stop) * P :=
  match w_open w file turn with
  | inr error => (inr (Io error), state)
  | inl f =>
      match read_on_with parse is_json value_ends finish visit_at f seen now_ms None
              (w_pieces w file turn (starts_at seen)) state with
      | (inl NotTheFile, state) => (inl NotTheFile, state)
      | (inl looked, state) =>
          match flush state with
          | (state, None) => (inl looked, state)
          | (state, Some why) => (inr (Failed why), state)
          end
      | stopped => stopped
      end
  end.

(** The loop, with fuel: [None] where it has none left. *)
Fixpoint look_loop (fuel : nat) (w : World) (file : Path) (current : Stat) (turn : nat) (now_ms : Z)
    (fo : Followed) : option (Followed * (ReadLook + Stop)) :=
  match fuel with
  | O => None
  | S fuel =>
      let state := default (fresh file) (fo_state fo) in
      let again := look_loop fuel w file current (S turn) now_ms (with_state fo None None (fo_broken fo)) in
      match look_once w file turn (fo_seen fo) state now_ms with
      | (inl NotTheFile, _) | (inr Reread, _) => again
      | (inl looked, state) =>
          let seen := match looked with Held seen | Read seen => Some seen | _ => fo_seen fo end in
          let changed := match looked with Read _ => true | _ => false end in
          Some (with_state fo seen (Some state) (fo_broken fo),
                inl {| rd_state := state; rd_file := file; rd_changed := changed;
                       rd_lost := default [] (s_passed_over <$> seen) |})
      | (inr stop, _) => Some (with_state fo None None (Some (current, now_ms, reason stop)), inr stop)
      end
  end.

(** [Followed::read] *)
Definition read (fuel : nat) (w : World) (now_ms : Z) (fo : Followed) : option (Followed * (option ReadLook + Stop)) :=
  match find_file w fo with
  | (fo, inr stop) => Some (fo, inr stop)
  | (fo, inl None) => Some (fo, inl None)
  | (fo, inl (Some (file, current))) =>
      match still_broken fo current now_ms with
      | Some why => Some (fo, inr (Failed why))
      | None =>
          '(fo, result) ← look_loop fuel w file current 0 now_ms (with_state fo (fo_seen fo) (fo_state fo) None);
          Some (fo, match result with inl rd => inl (Some rd) | inr stop => inr stop end)
      end
  end.

(** ** What a look leaves *)

Context `{!LawfulParse parse}.

#[local] Abbreviation ref := (reference parse is_json value_ends visit_at None).
#[local] Abbreviation kept := (keeps parse is_json value_ends visit_at None).

(** No parser asks for another read as it reads from a file's start; and one that decides nothing at the end
    of a look (all but Claude Code's). *)
Definition asks_once : Prop :=
  forall file bytes, match ref bytes (fresh file) with inr (Reread, _) => False | _ => True end.
Definition decides_nothing : Prop := forall p, flush p = (p, None).

(** What is kept is of a file read so far. *)
Definition follows (fo : Followed) : Prop :=
  match fo_seen fo, fo_state fo with
  | None, None => True
  | Some s, Some p => exists file bytes, fo_file fo = Some file /\ kept (fresh file) bytes s p
  | _, _ => False
  end.

(** The files the look opens are whole as their sizes were read, and the pieces of its reads are of them. *)
Definition whole_files (w : World) : Prop :=
  forall file turn f, w_open w file turn = inl f ->
    complete f /\ forall at_, concat (w_pieces w file turn at_) = to_read f at_.

(** Each is the one read so far grown, or another. *)
Definition grows (w : World) (fo : Followed) : Prop :=
  forall file turn f, w_open w file turn = inl f ->
    forall s p bytes, fo_seen fo = Some s -> fo_state fo = Some p -> fo_file fo = Some file ->
      kept (fresh file) bytes s p -> f_identity f = s_identity s -> bytes `prefix_of` content f.

(** A parser that never asks for another read. *)
Definition never_asks : Prop := forall r n o p, (visit_at r n o p).2 <> Some Reread.

Lemma visit_whole_plain whole_ offset records p :
  never_asks -> match visit_whole visit_at whole_ offset records p with inr (stop, _) => stop <> Reread | _ => True end.
Proof.
  intros Hv. revert records p. induction whole_ as [|r whole_ IH]; intros records p; [done|]. simpl.
  pose proof (Hv r records offset p) as H. destruct (visit_at r records offset p) as [p' [stop|]]; simpl in H; [by intros ->|apply IH].
Qed.

Lemma ref_plain bytes p0 : never_asks -> match ref bytes p0 with inr (stop, _) => stop <> Reread | _ => True end.
Proof.
  intros Hp. unfold reference. destruct (cut_lines bytes) as [lines last].
  assert (forall offset n p, match visit_lines parse is_json value_ends visit_at None lines offset n p with
    inr (stop, _) => stop <> Reread | _ => True end) as H.
  { clear -Hp. induction lines as [|l lines IH]; intros offset n p; [done|]. simpl. unfold visit_line. simpl.
    destruct (whole_line parse is_json value_ends l n) as [[whole_ torn]|stop] eqn:E.
    - pose proof (visit_whole_plain whole_ offset n p Hp) as H.
      destruct (visit_whole visit_at whole_ offset n p) as [[n' p']|[stop p']]; [apply IH|done].
    - unfold whole_line in E. repeat case_match; simplify_eq; done. }
  specialize (H 0%nat 0%nat p0). destruct (visit_lines _ _ _ _ _ lines 0 0 p0) as [[n p]|[stop p]]; [|done].
  unfold visit_last. destruct (_ && _); [|done]. destruct (parse _) as [r|]; [|by destruct (is_json last)].
  pose proof (Hp r n (length bytes - length last)%nat p) as Hr.
  destruct (visit_at r n _ p) as [p' [stop|]]; simpl in Hr; [by intros ->|done].
Qed.

Lemma never_asks_once : never_asks -> asks_once.
Proof.
  intros Hp file bytes. pose proof (ref_plain bytes (fresh file) Hp) as H.
  destruct (ref bytes (fresh file)) as [?|[[] ?]]; try done.
Qed.

(** What such a look reads: all the file it opened holds, in the state and in what it keeps. *)
Definition read_all (w : World) (fo : Followed) (rd : ReadLook) : Prop :=
  fo_file fo = Some (rd_file rd) /\ fo_state fo = Some (rd_state rd) /\
  exists turn f s, w_open w (rd_file rd) turn = inl f /\ fo_seen fo = Some s /\
    kept (fresh (rd_file rd)) (content f) s (rd_state rd).

Lemma read_all_follows w fo rd : read_all w fo rd -> follows fo.
Proof. intros (Hf & Hs & turn & f & s & _ & Es & Hk). unfold follows. rewrite Es, Hs. eauto. Qed.

Lemma kept_ref file bytes s p : kept (fresh file) bytes s p -> ref bytes (fresh file) = inl (s_records s, p).
Proof. intros Hk. eapply left_ref; [done|apply Hk|apply Hk]. Qed.

(** What comes of a turn that ended the look. *)
Definition turn_ok (w : World) (file : Path) (result : option (Followed * (ReadLook + Stop))) : Prop :=
  exists fo' r, result = Some (fo', r) /\ follows fo' /\
    match r with inl rd => read_all w fo' rd /\ rd_file rd = file | inr _ => True end.

Lemma stopped_ok w file fo broken stop :
  turn_ok w file (Some (with_state fo None None broken, inr stop)).
Proof. by do 2 eexists. Qed.

Section Looks.
Context (w : World) (Hwhole : whole_files w) (Hasks : asks_once).

(** A turn from the start of a file ends the look, whatever the parser decides at its end. *)
Lemma fresh_ends fo file current turn now_ms fuel :
  fo_seen fo = None -> fo_state fo = None -> is_Some (look_loop (S fuel) w file current turn now_ms fo).
Proof using Hwhole Hasks LawfulParse0.
  intros Hseen Hstate. cbn [look_loop]. unfold look_once. rewrite Hseen, Hstate. cbn [default].
  destruct (w_open w file turn) as [f|error] eqn:Ef; [|by eexists]. destruct (Hwhole file turn f Ef) as [Hcf Hps].
  pose proof (first_look_reads_all parse is_json value_ends finish visit_at None (fresh file) f now_ms _ Hcf (Hps 0%nat)) as H.
  change (starts_at None) with 0%nat. pose proof (Hasks file (content f)) as Hno.
  destruct (read_on_with _ _ _ _ _ f None now_ms None _ (fresh file)) as [[[]|stop] p]; try done.
  - destruct (flush p) as [p' [why|]]; by eexists.
  - rewrite H in Hno. destruct stop; [by eexists|by eexists|destruct Hno].
Qed.

Lemma loop_ends fo file current turn now_ms fuel : is_Some (look_loop (S (S fuel)) w file current turn now_ms fo).
Proof using Hwhole Hasks LawfulParse0.
  assert (is_Some (look_loop (S fuel) w file current (S turn) now_ms (with_state fo None None (fo_broken fo)))) as Hagain
    by by apply fresh_ends.
  remember (S fuel) as fuel' eqn:Efuel. cbn [look_loop].
  destruct (look_once w file turn (fo_seen fo) (default (fresh file) (fo_state fo)) now_ms) as [[[]|[]] p];
    first [by eexists|exact Hagain].
Qed.

Context (Hflush : decides_nothing).

Lemma fresh_turn fo file current turn now_ms fuel :
  fo_file fo = Some file -> fo_seen fo = None -> fo_state fo = None ->
  turn_ok w file (look_loop (S fuel) w file current turn now_ms fo).
Proof using Hwhole Hasks Hflush LawfulParse0.
  intros Hfile Hseen Hstate. cbn [look_loop]. unfold look_once. rewrite Hseen, Hstate. cbn [default].
  destruct (w_open w file turn) as [f|error] eqn:Ef; [|by apply stopped_ok].
  destruct (Hwhole file turn f Ef) as [Hcf Hps].
  pose proof (first_look_reads_all parse is_json value_ends finish visit_at None (fresh file) f now_ms _ Hcf (Hps 0%nat)) as H.
  change (starts_at None) with 0%nat. pose proof (Hasks file (content f)) as Hno.
  destruct (read_on_with _ _ _ _ _ f None now_ms None _ (fresh file)) as [[[]|stop] p]; try done.
  - destruct H as (Hk & _ & _). rewrite Hflush. cbn [default fmap option_fmap option_map].
    do 2 eexists. split; [done|]. assert (read_all w (with_state fo (Some seen) (Some p) (fo_broken fo))
      {| rd_state := p; rd_file := file; rd_changed := true; rd_lost := s_passed_over seen |}) as Hr.
    { split_and!; [done..|]. by exists turn, f, seen. }
    split; [by eapply read_all_follows|done].
  - rewrite H in Hno. destruct stop; [by apply stopped_ok|by apply stopped_ok|done].
Qed.

Lemma kept_turn fo file current turn now_ms fuel s p bytes :
  grows w fo -> fo_file fo = Some file -> fo_seen fo = Some s -> fo_state fo = Some p ->
  kept (fresh file) bytes s p ->
  turn_ok w file (look_loop (S (S fuel)) w file current turn now_ms fo).
Proof using Hwhole Hasks Hflush LawfulParse0.
  intros Hgrow Hfile Hseen Hstate Hk.
  assert (turn_ok w file (look_loop (S fuel) w file current (S turn) now_ms (with_state fo None None (fo_broken fo)))) as Hagain
    by by apply fresh_turn.
  remember (S fuel) as fuel' eqn:Efuel. cbn [look_loop]. unfold look_once. rewrite Hseen, Hstate. cbn [default id].
  destruct (w_open w file turn) as [f|error] eqn:Ef; [|by apply stopped_ok].
  destruct (Hwhole file turn f Ef) as [Hcf Hps]. change (starts_at (Some s)) with (s_offset s + length (s_tail s))%nat.
  destruct (decide (f_identity f = s_identity s)) as [Hid|Hid].
  - pose proof (look_leaves parse is_json value_ends finish visit_at None (fresh file) f s p bytes now_ms _ Hk Hcf
      (Hgrow file turn f Ef s p bytes Hseen Hstate Hfile Hk Hid) Hid (Hps (s_offset s + length (s_tail s))%nat)) as H.
    pose proof (Hasks file (content f)) as Hno.
    destruct (read_on_with _ _ _ _ _ f (Some s) now_ms None _ p) as [looked p'].
    assert (forall seen changed lost, kept (fresh file) (content f) seen p' ->
      turn_ok w file (Some (with_state fo (Some seen) (Some p') (fo_broken fo),
        inl {| rd_state := p'; rd_file := file; rd_changed := changed; rd_lost := lost |}))) as Hdone.
    { intros seen changed lost Hs. do 2 eexists. split; [done|].
      assert (read_all w (with_state fo (Some seen) (Some p') (fo_broken fo))
        {| rd_state := p'; rd_file := file; rd_changed := changed; rd_lost := lost |}) as Hr.
      { split_and!; [done..|]. by exists turn, f, seen. }
      split; [by eapply read_all_follows|done]. }
    destruct looked as [[]|stop]; rewrite ?Hflush.
    + destruct H as [-> H]. by apply Hdone.
    + destruct H as [-> H]. by apply Hdone.
    + destruct H as [H _]. by apply Hdone.
    + exact Hagain.
    + rewrite H in Hno. destruct stop; [by apply stopped_ok|by apply stopped_ok|done].
  - assert (forall ps, read_on_with parse is_json value_ends finish visit_at f (Some s) now_ms None ps p = (inl NotTheFile, p)) as E.
    { intros ps. unfold read_on_with, known. cbn [mbind option_bind]. by rewrite bool_decide_eq_false_2. }
    by rewrite E.
Qed.
End Looks.

Lemma find_file_ok w fo : follows fo -> grows w fo ->
  match find_file w fo with
  | (fo', inl (Some (file, _))) => fo_file fo' = Some file /\ follows fo' /\ grows w fo'
  | (fo', _) => follows fo'
  end.
Proof.
  intros Hfo Hh. unfold find_file. destruct (fo_file fo) as [file|] eqn:Efile; cbn [mbind option_bind].
  - destruct (w_stat w file) as [st|]; cbn [mbind option_bind]; [done|]. destruct (w_locate w) as [[located|]|why]; [|done|done].
    destruct (decide (Some located = Some file)) as [E|E]; [injection E as ->; by destruct (w_stat w file)|].
    assert (grows w {| fo_file := Some located; fo_seen := None; fo_state := None; fo_broken := None |}) as Hh' by by intros ? ? ? ? ? ?.
    by destruct (w_stat w located).
  - destruct (w_locate w) as [[located|]|why]; [|done|done]. rewrite decide_False by done.
    assert (grows w {| fo_file := Some located; fo_seen := None; fo_state := None; fo_broken := None |}) as Hh' by by intros ? ? ? ? ? ?.
    by destruct (w_stat w located).
Qed.

Lemma loop_more w file current now_ms fuel k : forall turn fo r,
  look_loop fuel w file current turn now_ms fo = Some r -> look_loop (fuel + k) w file current turn now_ms fo = Some r.
Proof.
  induction fuel as [|fuel IH]; intros turn fo r H; [done|]. cbn [look_loop Nat.add] in *.
  destruct (look_once _ _ _ _ _ _) as [[[]|[]] p]; try done; by apply IH.
Qed.

(** C23: every look at a transcript ends, after at most two reads of it, whatever the looks before it left
    and whatever its parser asks and decides, if only the parser asks for no other read while it reads from
    a file's start. And with a parser that decides nothing at a look's end (all but Claude Code's), where the
    file, between looks, only grew or another was put in its place (what a rewriting in place comes to is
    [JsonlReads.rewritten_file_is_told]), a look leaves the state that a fresh parser has after all the
    records of the file it opened, once each and in order, and so do the looks after it; or it answers why
    it read nothing. *)
Theorem look_is_of_the_whole_transcript w now_ms fo :
  whole_files w -> asks_once ->
  exists fo' result, (forall fuel, (2 <= fuel)%nat -> read fuel w now_ms fo = Some (fo', result)) /\
    (decides_nothing -> follows fo -> grows w fo -> follows fo' /\
     match result with
     | inl (Some rd) => exists turn f records, w_open w (rd_file rd) turn = inl f /\
                          ref (content f) (fresh (rd_file rd)) = inl (records, rd_state rd)
     | _ => True
     end).
Proof.
  intros Hw Hasks. pose proof (find_file_ok w fo) as H. unfold read.
  destruct (find_file w fo) as [fo1 [[[file current]|]|stop]];
    [|do 2 eexists; split; [done|]; by split; [apply H|]|do 2 eexists; split; [done|]; by split; [apply H|]].
  destruct (still_broken fo1 current now_ms); [do 2 eexists; split; [done|]; by split; [apply H|]|].
  set (fo2 := with_state fo1 (fo_seen fo1) (fo_state fo1) None).
  destruct (loop_ends w Hw Hasks fo2 file current 0 now_ms 0) as [[fo' r] Er].
  exists fo', (match r with inl rd => inl (Some rd) | inr stop => inr stop end). split.
  - intros fuel Hfuel. replace fuel with (2 + (fuel - 2))%nat by lia. by rewrite (loop_more _ _ _ _ _ _ _ _ _ Er).
  - intros Hflush Hfo Hh. destruct (H Hfo Hh) as (Hfile & Hfo1 & Hh1).
    assert (turn_ok w file (Some (fo', r))) as (fo'' & r' & [= <- <-] & Hf' & Hr).
    { rewrite <- Er. unfold follows in Hfo1. destruct (fo_seen fo1) as [s|] eqn:Es, (fo_state fo1) as [p|] eqn:Ep; try done.
      - destruct Hfo1 as (file' & bytes & Ef' & Hk). rewrite Hfile in Ef'. injection Ef' as <-.
        apply (kept_turn w Hw Hasks Hflush fo2 file current 0 now_ms 0 s p bytes); try done.
        intros f1 t1 g1 Eg s1 p1 b1 E1 E2. apply (Hh1 f1 t1 g1 Eg s1 p1 b1); [by rewrite Es|by rewrite Ep].
      - by apply (fresh_turn w Hw Hasks Hflush fo2). }
    split; [done|]. destruct r as [rd|stop]; [|done]. destruct Hr as [(_ & _ & turn & f & s & Hopen & _ & Hk) _].
    exists turn, f, (s_records s). split; [exact Hopen|]. by apply kept_ref.
Qed.
End Followed.

(** ** A transcript that grows *)

#[local] Existing Instance Sample.parse_lawful.

Definition grown_world : World :=
  let f := Sample.file Sample.next_bytes 1 in
  {| w_stat := fun _ => Some {| st_identity := f_identity f; st_size := f_size f; st_mtime := f_written f |};
     w_locate := inl (Some tt); w_open := fun _ _ => inl f; w_pieces := fun _ _ at_ => [to_read f at_]; w_no_stat := [] |}.
Definition followed_so_far : Followed :=
  {| fo_file := Some tt; fo_seen := Some Sample.seen; fo_state := Some Sample.records; fo_broken := None |}.
Definition no_flush (v : list (nat * nat)) : list (nat * nat) * option text := (v, None).

Lemma look_is_of_the_whole_transcript_witness :
  exists fo' result, (forall fuel, (2 <= fuel)%nat -> read Sample.parse Sample.is_json Sample.value_ends Sample.finish
      Sample.visit no_flush (fun _ => []) fuel grown_world 20 followed_so_far = Some (fo', result)) /\
    match result with inl (Some rd) => rd_state rd = [(0, 0); (1, 8); (2, 13)]%nat | _ => False end.
Proof.
  destruct (look_is_of_the_whole_transcript Sample.parse Sample.is_json Sample.value_ends Sample.finish Sample.visit no_flush
    (fun _ => []) grown_world 20 followed_so_far) as (fo' & result & Hr & Hres).
  - intros file turn f [= <-]. split; [unfold complete; done|intros at_; apply app_nil_r].
  - by apply never_asks_once.
  - exists fo', result. split; [exact Hr|]. specialize (Hr 2%nat ltac:(done)). vm_compute in Hr. injection Hr as _ <-. done.
Defined.

(** Both of what the second part asks for hold of it: nothing is decided, and the file grew. *)
Example followed_so_far_follows :
  decides_nothing no_flush /\ follows Sample.parse Sample.is_json Sample.value_ends Sample.visit (fun _ => []) followed_so_far /\
  grows Sample.parse Sample.is_json Sample.value_ends Sample.visit (fun _ => []) grown_world followed_so_far.
Proof.
  split_and!; [done|exists tt, Sample.first_bytes; split; [done|]; apply Sample.seen_keeps|].
  - intros file turn f [= <-] s p bytes Es Ep _ Hk _. change (Some Sample.seen = Some s) in Es. change (Some Sample.records = Some p) in Ep.
    apply (inj Some) in Es, Ep. subst s p. assert (bytes = Sample.first_bytes) as ->; [|by eexists].
    pose proof (k_read _ _ _ _ _ _ _ _ _ Hk) as Er. pose proof (k_rest _ _ _ _ _ _ _ _ _ Hk) as Et.
    transitivity (s_read Sample.seen ++ s_rest Sample.seen); [by rewrite Er, Et, take_drop|]. by vm_compute.
Qed.
