(* ===== verification/Executor.v ===== *)
(** * The engine's executor: [cf-engine/src/runtime/executor.rs]

    Work woken from anywhere, and run on the engine's thread in the order it was woken: by a drain, or
    by the driver, a task of tokio's that a wake outside a drain wakes. Each piece of work is played
    from what it does at its polls ([Play]), which is left open, and so are the callbacks of the
    engine's thread and the threads that wake work. *)
From S2P Require Import Prelude Threads.
#[local] Open Scope nat_scope.

(** What a piece of work does while it is polled: wakes work (its own, say), spawns some, calls for a
    drain; and how the poll ends. *)
Inductive Deed := Wakes (task : nat) | Spawns | Drains.
Inductive Polled := Pending | Ready | Panicked.
#[export] Instance polled_eq_dec : EqDecision Polled.
Proof. solve_decision. Defined.
Record Play := { deeds : list Deed; polled : Polled }.

(** What the engine's thread is called for: the driver's poll, a drain, or what begins or wakes work
    outside of one. *)
Inductive Callback := CDriver | CDrain | CDeeds (ds : list Deed).

(** What the account tells of a piece of work: that the executor took it in, that it was woken (whether
    or not the wake did anything), and that it was polled, and how that ended. *)
Inductive Event := Added (task : nat) | Asked (task : nat) | Polls (task : nat) (p : Polled).

#[export] Instance event_eq_dec : EqDecision Event.
Proof. solve_decision. Defined.

(** What a drain has in hand: nothing, a piece of work off the queue, one that is taken out to be
    polled, or one that was and is to be put back. *)
Inductive Hand := Nothing | Taken (task : nat) | Held (task : nat) | Out (task : nat).

(** The executor's state ([Executor], [Woken], [Queue]), and tokio's: whether the driver is to be polled,
    and the callbacks whose turn comes. The last are what the proofs keep account of: whether the
    engine's thread is in a callback and is still to look at the queue, the threads on their way through
    a wake, how many threads there were, what was ever queued and ever taken off the queue, all that was
    ever taken in, woken and polled, in order, and what the drain has in hand. *)
Record exec := Exec {
  x_order : list nat;
  x_queued : gset nat;
  x_draining : bool;
  x_driver : bool;
  x_tasks : gset nat;
  x_next : nat;
  x_due : bool;
  x_inbox : list Callback;
  x_plays : list Play;
  x_in_callback : bool;
  x_looking : bool;
  x_owing : gset nat;
  x_threads : nat;
  x_woken : list nat;
  x_ran : list nat;
  x_log : list Event;
  x_hand : Hand
}.

Abbreviation code := (prog exec).

Definition with_draining (d looking : bool) (s : exec) : exec :=
  Exec (x_order s) (x_queued s) d (x_driver s) (x_tasks s) (x_next s) (x_due s) (x_inbox s) (x_plays s)
       (x_in_callback s) looking (x_owing s) (x_threads s) (x_woken s) (x_ran s) (x_log s) (x_hand s).
Definition with_looking (looking : bool) (s : exec) : exec := with_draining (x_draining s) looking s.
Definition with_driver (s : exec) : exec :=
  Exec (x_order s) (x_queued s) (x_draining s) true (x_tasks s) (x_next s) (x_due s) (x_inbox s) (x_plays s)
       (x_in_callback s) (x_looking s) (x_owing s) (x_threads s) (x_woken s) (x_ran s) (x_log s) (x_hand s).
Definition with_due (due : bool) (inbox : list Callback) (s : exec) : exec :=
  Exec (x_order s) (x_queued s) (x_draining s) (x_driver s) (x_tasks s) (x_next s) due inbox (x_plays s)
       (x_in_callback s) (x_looking s) (x_owing s) (x_threads s) (x_woken s) (x_ran s) (x_log s) (x_hand s).
Definition with_tasks (tasks : gset nat) (next : nat) (plays : list Play) (s : exec) : exec :=
  Exec (x_order s) (x_queued s) (x_draining s) (x_driver s) tasks next (x_due s) (x_inbox s) plays
       (x_in_callback s) (x_looking s) (x_owing s) (x_threads s) (x_woken s) (x_ran s) (x_log s) (x_hand s).
Definition with_owing (owing : gset nat) (s : exec) : exec :=
  Exec (x_order s) (x_queued s) (x_draining s) (x_driver s) (x_tasks s) (x_next s) (x_due s) (x_inbox s) (x_plays s)
       (x_in_callback s) (x_looking s) owing (x_threads s) (x_woken s) (x_ran s) (x_log s) (x_hand s).
Definition with_callback (in_callback looking : bool) (inbox : list Callback) (s : exec) : exec :=
  Exec (x_order s) (x_queued s) (x_draining s) (x_driver s) (x_tasks s) (x_next s) (x_due s) inbox (x_plays s)
       in_callback looking (x_owing s) (x_threads s) (x_woken s) (x_ran s) (x_log s) (x_hand s).
Definition with_threads (n : nat) (s : exec) : exec :=
  Exec (x_order s) (x_queued s) (x_draining s) (x_driver s) (x_tasks s) (x_next s) (x_due s) (x_inbox s) (x_plays s)
       (x_in_callback s) (x_looking s) (x_owing s) n (x_woken s) (x_ran s) (x_log s) (x_hand s).
Definition noted (es : list Event) (h : Hand) (s : exec) : exec :=
  Exec (x_order s) (x_queued s) (x_draining s) (x_driver s) (x_tasks s) (x_next s) (x_due s) (x_inbox s) (x_plays s)
       (x_in_callback s) (x_looking s) (x_owing s) (x_threads s) (x_woken s) (x_ran s) (x_log s ++ es) h.

(** ** Wakes *)

(** [Woken::wake], on the thread [me], with the queue's lock held; the thread owes a wake to the driver
    until it has looked whether a drain runs. *)
Definition queue_it (me task : nat) (s : exec) : exec * bool :=
  if decide (task ∈ x_queued s) then (noted [Asked task] (x_hand s) s, false)
  else (Exec (x_order s ++ [task]) ({[task]} ∪ x_queued s) (x_draining s) (x_driver s) (x_tasks s) (x_next s) (x_due s)
             (x_inbox s) (x_plays s) (x_in_callback s) (x_looking s) ({[me]} ∪ x_owing s) (x_threads s)
             (x_woken s ++ [task]) (x_ran s) (x_log s ++ [Asked task]) (x_hand s), true).

Definition settled (me : nat) (s : exec) : exec := with_owing (x_owing s ∖ {[me]}) s.

(** A thread that finds nobody to wake, or woke the driver, owes nothing. *)
Definition is_draining (me : nat) (s : exec) : exec * bool :=
  (if x_draining s then settled me s else s, x_draining s).
Definition the_driver (me : nat) (s : exec) : exec * bool :=
  (if x_driver s then s else settled me s, x_driver s).
Definition wake_driver (me : nat) (s : exec) : exec := settled me (with_due true (x_inbox s) s).

Definition wake (me task : nat) : code unit :=
  queued ← act (queue_it me task);
  if queued : bool then
    draining ← act (is_draining me);
    if draining : bool then mret tt
    else driver ← act (the_driver me); if driver : bool then change (wake_driver me) else mret tt
  else mret tt.

(** [Woken::next], [Woken::is_idle]: the drain that looks last finds nothing, or goes on. *)
Definition next (s : exec) : exec * option nat :=
  match x_order s with
  | [] => (s, None)
  | task :: order =>
      (Exec order (x_queued s ∖ {[task]}) (x_draining s) (x_driver s) (x_tasks s) (x_next s) (x_due s) (x_inbox s) (x_plays s)
            (x_in_callback s) (x_looking s) (x_owing s) (x_threads s) (x_woken s) (x_ran s ++ [task]) (x_log s) (Taken task), Some task)
  end.
Definition is_idle (s : exec) : exec * bool :=
  (if bool_decide (x_order s = []) then with_looking false s else s, bool_decide (x_order s = [])).

(** ** The engine's thread *)

Section Engine.
(** [Executor::strict], or not. *)
Context (strict : bool).

Definition engine : nat := 0.

(** [Executor::add] *)
Definition add (s : exec) : exec * nat :=
  (noted [Added (x_next s)] (x_hand s) (with_tasks ({[x_next s]} ∪ x_tasks s) (S (x_next s)) (x_plays s) s), x_next s).
(** [Spawn::spawn] *)
Definition spawn : code unit := task ← act add; wake engine task.

Definition run_deed (nested : code (option bool)) (d : Deed) : code unit :=
  match d with
  | Wakes task => wake engine task
  | Spawns => spawn
  | Drains => nested;; mret tt
  end.
Fixpoint run_deeds (nested : code (option bool)) (ds : list Deed) : code unit :=
  match ds with
  | [] => mret tt
  | d :: ds => run_deed nested d;; run_deeds nested ds
  end.

(** The work is taken out while it is polled, and put back where it waits. *)
Definition take_out (task : nat) (s : exec) : exec * bool :=
  (noted [] (if bool_decide (task ∈ x_tasks s) then Held task else Nothing)
     (with_tasks (x_tasks s ∖ {[task]}) (x_next s) (x_plays s) s), bool_decide (task ∈ x_tasks s)).
Definition put_back (task : nat) (s : exec) : exec :=
  noted [] Nothing (with_tasks ({[task]} ∪ x_tasks s) (x_next s) (x_plays s) s).
(** The poll of the work itself, played. *)
Definition play (task : nat) (s : exec) : exec * Play :=
  let p := match x_plays s with [] => {| deeds := []; polled := Ready |} | p :: _ => p end in
  (noted [Polls task (polled p)] (match polled p with Pending => Out task | _ => Nothing end)
     (with_tasks (x_tasks s) (x_next s) (drop 1 (x_plays s)) s), p).

(** [Executor::poll]: whether it ran; none where its panic comes out. *)
Definition poll (nested : code (option bool)) (task : nat) : code (option bool) :=
  had ← act (take_out task);
  if had : bool then
    p ← act (play task);
    run_deeds nested (deeds p);;
    match polled p with
    | Pending => change (put_back task);; mret (Some true)
    | Ready => mret (Some true)
    | Panicked => if strict then mret None else mret (Some true)
    end
  else mret (Some false).

(** [draining.swap(true)], and its stores. *)
Definition swap_draining (s : exec) : exec * bool := (with_draining true false s, x_draining s).
Definition stop_draining (s : exec) : exec := with_draining false true s.
Definition resume_draining (s : exec) : exec := with_draining true false s.
Definition unwound (s : exec) : exec := with_draining false false s.

(** What is woken, to the end of it. *)
Definition run_woken (nested : code (option bool)) (ran : bool) : code (option bool) :=
  Iter ran (fun ran =>
    task ← act next;
    match task with
    | None => mret (inr (Some ran))
    | Some task =>
        did ← poll nested task;
        mret (match did with Some did => inl (ran || did) | None => inr None end)
    end) Ret.

(** [Executor::drain]: whether anything ran; none where a panic comes out, and [Draining] lets go. A call
    from inside the work it runs is [nested]. *)
Definition drain_with (nested : code (option bool)) : code (option bool) :=
  was ← act swap_draining;
  if was : bool then mret (Some false)
  else Iter false (fun ran =>
    r ← run_woken nested ran;
    match r with
    | None => change unwound;; mret (inr None)
    | Some ran =>
        change stop_draining;;
        idle ← act is_idle;
        if idle : bool then mret (inr (Some ran))
        else change resume_draining;; mret (inl ran)
    end) Ret.

(** A drain from inside of one; that it finds one running is proved, so how deep it would go on is
    nothing to it. *)
Definition nested_drain : code (option bool) := drain_with (await (fun _ => None)).
Definition drain : code (option bool) := drain_with nested_drain.

(** One poll of [Executor::driver]'s future. *)
Definition driver_poll : code unit := change with_driver;; drain;; mret tt.

(** ** The engine's thread and the others *)

(** The callback whose turn it is; the driver's is to look at the queue. *)
Definition next_callback (s : exec) : option (exec * Callback) :=
  match x_inbox s with
  | [] => None
  | cb :: inbox => Some (with_callback true (match cb with CDriver => true | _ => x_looking s end) inbox s, cb)
  end.
Definition end_callback (s : exec) : exec := with_callback false (x_looking s) (x_inbox s) s.

Definition engine_thread : code unit :=
  Iter tt (fun _ =>
    cb ← await next_callback;
    match cb with
    | CDriver => driver_poll
    | CDrain => drain;; mret tt
    | CDeeds ds => run_deeds drain ds
    end;;
    change end_callback;; mret (inl tt)) Ret.

(** From outside: tokio polls the driver it is to poll, or has the driver spawned; another callback comes. *)
Inductive outside := PollsDriver | SpawnsDriver | Calls (cb : Callback).
Definition outside_step (e : outside) (s : exec) : option exec :=
  match e with
  | PollsDriver => if x_due s then Some (with_due false (x_inbox s ++ [CDriver]) s) else None
  | SpawnsDriver => Some (with_due true (x_inbox s) s)
  | Calls CDriver => None
  | Calls cb => Some (with_due (x_due s) (x_inbox s ++ [cb]) s)
  end.

(** Another thread that calls a piece of work's waker, as the next of them. *)
Definition waker_thread (t task : nat) (s : exec) : option (exec * code unit) :=
  if decide (t = x_threads s) then Some (with_threads (S t) s, wake t task) else None.

Definition built (plays : list Play) : exec := Exec [] ∅ false false ∅ 0 false [] plays false false ∅ 1 [] [] [] Nothing.
Definition running (plays : list Play) : config := Config (built plays) [engine_thread].
End Engine.
