(* ===== verification/ExecutorRuns.v ===== *)
(** * What is woken is run: no wake of the executor is lost

    Whichever thread wakes work, and whenever: every wake is followed by a poll of the work, or the work
    waits in the queue, with the engine's thread on its way to look at it or the driver woken
    ([no_wake_is_lost]); and work is taken from the queue in the order it was woken, once for each wake
    that found it not waiting. *)
From S2P Require Import Prelude Threads Executor.
#[local] Open Scope nat_scope.

(** ** What the account says *)

(** Polled to its end, and no more of it. *)
Definition ended (t : nat) (log : list Event) : Prop := exists p, p <> Pending /\ Polls t p ∈ log.

(** Every wake there was of work that was taken in and had not ended: a poll of it came after, or it is
    one of [P]. *)
Definition heard (P : nat -> Prop) (log : list Event) : Prop :=
  forall before t after, log = before ++ Asked t :: after -> Added t ∈ before -> ~ ended t before ->
    (exists p, Polls t p ∈ after) \/ P t.

(** Whatever was taken in has ended, or is one of [P]. *)
Definition kept (P : nat -> Prop) (log : list Event) : Prop := forall t, Added t ∈ log -> ended t log \/ P t.

Lemma ended_snoc t log e : ended t (log ++ [e]) <-> ended t log \/ exists p, p <> Pending /\ e = Polls t p.
Proof.
  unfold ended. setoid_rewrite elem_of_app. setoid_rewrite list_elem_of_singleton. split.
  - intros (p & Hp & [H|<-]); eauto.
  - intros [(p & Hp & H)|(p & Hp & ->)]; eauto.
Qed.

Lemma heard_snoc (P P' : nat -> Prop) log e : heard P log ->
  (forall t, P t -> P' t \/ exists p, e = Polls t p) -> (forall t, e = Asked t -> P' t) -> heard P' (log ++ [e]).
Proof.
  intros H HP He before t after E Ha Hn. destruct after as [|e' after' _] using rev_ind.
  - apply app_inj_tail in E as [-> ->]. right. by apply He.
  - rewrite app_comm_cons, app_assoc in E. apply app_inj_tail in E as [-> ->].
    destruct (H before t after' eq_refl Ha Hn) as [(p & Hp)|Ht]; [left; exists p; set_solver|].
    destruct (HP t Ht) as [|(p & ->)]; [by right|]. left. exists p. set_solver.
Qed.

Lemma heard_mono (P P' : nat -> Prop) log : heard P log -> (forall t, P t -> P' t) -> heard P' log.
Proof. intros H HP before t after E Ha Hn. destruct (H before t after E Ha Hn); auto. Qed.

Lemma kept_snoc (P P' : nat -> Prop) log e : kept P log ->
  (forall t, P t -> P' t \/ exists p, p <> Pending /\ e = Polls t p) -> (forall t, e = Added t -> P' t) -> kept P' (log ++ [e]).
Proof.
  intros H HP He t [Ht|Ht%list_elem_of_singleton]%elem_of_app; [|right; by apply He]. rewrite ended_snoc.
  destruct (H t Ht) as [|Hk]; [auto|]. destruct (HP t Hk); auto.
Qed.

Lemma kept_mono (P P' : nat -> Prop) log : kept P log -> (forall t, P t -> P' t) -> kept P' log.
Proof. intros H HP t Ht. destruct (H t Ht); auto. Qed.

(** What is woken and not polled yet, and what has not ended. *)
Definition to_poll (s : exec) (t : nat) : Prop := t ∈ x_order s \/ x_hand s = Taken t \/ x_hand s = Held t.
Definition alive (s : exec) (t : nat) : Prop := t ∈ x_tasks s \/ x_hand s = Held t \/ x_hand s = Out t.

(** ** The invariant *)

Record inv (s : exec) : Prop := {
  i_heard : heard (to_poll s) (x_log s);
  i_kept : kept (alive s) (x_log s);
  i_nodup : NoDup (x_order s);
  i_queued : forall t, t ∈ x_queued s <-> t ∈ x_order s;
  i_log : x_woken s = x_ran s ++ x_order s;
  i_seen : x_order s = [] \/ x_driver s = false \/ x_draining s = true \/ x_looking s = true \/
           x_due s = true \/ CDriver ∈ x_inbox s \/ exists i, i ∈ x_owing s;
  i_idle : x_in_callback s = false -> x_draining s = false /\ x_looking s = false /\ engine ∉ x_owing s /\ x_hand s = Nothing;
  i_owing : forall i, i ∈ x_owing s -> i < x_threads s;
  i_threads : 0 < x_threads s
}.

(** What a thread leaves as it is: what the others owe, and, but the engine's, whether a drain runs. *)
Definition gua (i : nat) (s s' : exec) : Prop :=
  (forall j, j <> i -> j ∈ x_owing s <-> j ∈ x_owing s') /\ x_threads s = x_threads s' /\
  (i <> engine -> x_draining s = x_draining s' /\ x_looking s = x_looking s' /\ x_in_callback s = x_in_callback s' /\ x_hand s = x_hand s').

Definition post (i : nat) (s : exec) : Prop := i ∉ x_owing s.

#[local] Abbreviation others := (rely_of outside_step waker_thread gua).
#[local] Abbreviation ok i := (safe inv (others i) (gua i)).

Lemma exec_gua_refl i s : gua i s s.
Proof. done. Qed.

(** What no other thread changes for [i]. *)
Lemma others_leave i s s' : others i s s' ->
  (i ∈ x_owing s <-> i ∈ x_owing s') /\ (i < x_threads s -> i < x_threads s') /\
  (i = engine -> x_draining s = x_draining s' /\ x_looking s = x_looking s' /\ x_in_callback s = x_in_callback s' /\ x_hand s = x_hand s').
Proof.
  intros [[e He]|[(t & n & p & Hb)|(j & Hj & Ho & Ht & Hd)]].
  - destruct e as [| |[]]; simpl in He; repeat case_match; simplify_eq; by split_and!.
  - unfold waker_thread in Hb. destruct (decide (t = x_threads s)) as [->|]; [|discriminate Hb].
    injection Hb as <- <-. simpl. split_and!; [done|lia|done].
  - split_and!; [apply Ho; congruence|by rewrite Ht|]. intros Ei. apply Hd. congruence.
Qed.

(** A thread between wakes, with what the engine's knows of the drain. *)
Definition between (i : nat) (a : bool -> bool -> bool -> Hand -> Prop) (s : exec) : Prop :=
  i < x_threads s /\ i ∉ x_owing s /\ a (x_draining s) (x_looking s) (x_in_callback s) (x_hand s).
Definition owes (i : nat) (a : bool -> bool -> bool -> Hand -> Prop) (s : exec) : Prop :=
  i < x_threads s /\ i ∈ x_owing s /\ a (x_draining s) (x_looking s) (x_in_callback s) (x_hand s).
(** What it knows is of its own: nothing, but on the engine's thread. *)
Definition own (i : nat) (a : bool -> bool -> bool -> Hand -> Prop) : Prop := i <> engine -> forall d l c h, a d l c h.

(** On the engine's thread work is woken in a callback. *)
Definition called (i : nat) (a : bool -> bool -> bool -> Hand -> Prop) : Prop := i = engine -> forall d l c h, a d l c h -> c = true.

Lemma stable_own i a : own i a -> stable inv (others i) (between i a) /\ stable inv (others i) (owes i a).
Proof.
  intros Ha. assert (forall s s', others i s s' -> a (x_draining s) (x_looking s) (x_in_callback s) (x_hand s) ->
    a (x_draining s') (x_looking s') (x_in_callback s') (x_hand s')) as Hs.
  { intros s s' H. destruct (others_leave i s s' H) as (_ & _ & He). destruct (decide (i = engine)) as [E|E].
    - destruct (He E) as (-> & -> & -> & ->). done.
    - intros _. by apply Ha. }
  split; intros s s' _ _ H (Ht & Ho & Hx); destruct (others_leave i s s' H) as (Eo & Et & _); split_and!; eauto; by rewrite <- Eo.
Qed.

Lemma stable_either (b : bool) i a : own i a ->
  stable inv (others i) (if b then owes i a else between i a) /\ stable inv (others i) (if b then between i a else owes i a).
Proof. intros Ha. destruct (stable_own i a Ha). by destruct b. Qed.

(** A change of what the invariant reads nothing of. *)
Ltac keep := intros [? ? ? ? ? ? ? ? ?]; split; simpl; auto.

(** ** A wake *)

Lemma queue_it_ok i a task s : called i a -> inv s -> between i a s ->
  inv (queue_it i task s).1 /\ gua i s (queue_it i task s).1 /\
  (if (queue_it i task s).2 then owes i a else between i a) (queue_it i task s).1.
Proof.
  intros Hcall [Hh Hk Hn Hq Hl Hs Hi Ho Ht] (Hit & Hio & Ha). unfold queue_it. destruct (decide (task ∈ x_queued s)) as [Hin|Hin]; simpl.
  { split_and!; [split; simpl; try done|done..].
    - eapply heard_snoc; [done|by left|]. intros t [= <-]. left. by apply Hq.
    - eapply kept_snoc; [done|by left|done]. }
  split_and!; [split; simpl|..].
  - eapply heard_snoc; [done| |intros t [= <-]; left; simpl; set_solver].
    intros t [H|H]; left; [left; simpl; set_solver|by right].
  - eapply kept_snoc; [done|by left|done].
  - apply NoDup_app. split_and!; [done| |apply NoDup_singleton]. intros x Hx ->%list_elem_of_singleton. by apply Hin, Hq.
  - intros t. rewrite elem_of_union, elem_of_singleton, elem_of_app, list_elem_of_singleton, Hq. tauto.
  - by rewrite Hl, app_assoc.
  - do 6 right. exists i. set_solver.
  - intros Hc. destruct (Hi Hc) as (? & ? & He & ?). split_and!; [done..| |done]. intros [E%elem_of_singleton|E]%elem_of_union; [|done].
    specialize (Hcall (eq_sym E) _ _ _ _ Ha). congruence.
  - intros j [->%elem_of_singleton|Hj]%elem_of_union; [done|by apply Ho].
  - done.
  - split_and!; simpl; [set_solver|done|done].
  - split_and!; simpl; [done|set_solver|done].
Qed.

Lemma settled_ok i a s : inv s -> owes i a s ->
  x_driver s = false \/ x_draining s = true \/ x_due s = true ->
  inv (settled i s) /\ gua i s (settled i s) /\ between i a (settled i s).
Proof.
  intros [Hh Hk Hn Hq Hl Hs Hi Ho Ht] (Hit & Hio & Ha) Hwhy. split_and!; [split; simpl; try done|..].
  - tauto.
  - intros Hc. destruct (Hi Hc) as (? & ? & ? & ?). split_and!; [done..| |done]. set_solver.
  - intros j Hj. apply Ho. set_solver.
  - split_and!; simpl; [set_solver|done|done].
  - split_and!; simpl; [done|set_solver|done].
Qed.

Lemma wake_ok i a task : own i a -> called i a -> ok i (between i a) (wake i task) (fun _ => between i a).
Proof.
  intros Ha Hcall. destruct (stable_own i a Ha) as [Hb Hw].
  eapply safe_bind; [apply (safe_act _ _ _ _ _ (fun b : bool => if b then owes i a else between i a))|].
  { intros b. by apply stable_either. }
  { intros s Hs Hp. by apply queue_it_ok. }
  intros []; [|by apply safe_ret].
  eapply safe_bind; [apply (safe_act _ _ _ _ _ (fun b : bool => if b then between i a else owes i a))|].
  { intros b. by apply stable_either. }
  { intros s Hs Hp. unfold is_draining. destruct (x_draining s) eqn:Ed; simpl; [|done]. apply settled_ok; auto. }
  intros []; [by apply safe_ret|].
  eapply safe_bind; [apply (safe_act _ _ _ _ _ (fun b : bool => if b then owes i a else between i a))|].
  { intros b. by apply stable_either. }
  { intros s Hs Hp. unfold the_driver. destruct (x_driver s) eqn:Ed; simpl; [done|]. apply settled_ok; auto. }
  intros []; [|by apply safe_ret].
  apply safe_act; [done|]. intros s Hs Hp.
  assert (inv (with_due true (x_inbox s) s)) as Hs' by (revert Hs; keep; tauto).
  destruct (settled_ok i a (with_due true (x_inbox s) s) Hs' Hp) as (H1 & H2 & H3); [auto|]. done.
Qed.

(** ** A drain *)

(** What the engine's thread knows in a callback: whether a drain runs, whether it is to look, and what
    it has in hand. *)
Definition in_turn (draining looking : bool) (hand : Hand) : bool -> bool -> bool -> Hand -> Prop :=
  fun d l c h => d = draining /\ l = looking /\ c = true /\ h = hand.
#[local] Abbreviation at_hand d l h := (between engine (in_turn d l h)).
#[local] Abbreviation at_turn d l := (at_hand d l Nothing).

Lemma own_engine a : own engine a.
Proof. by intros []. Qed.
Lemma called_turn d l h : called engine (in_turn d l h).
Proof. by intros _ ???? (_ & _ & ? & _). Qed.
#[local] Hint Resolve own_engine called_turn : core.

Lemma stable_turn d l h : stable inv (others engine) (at_hand d l h).
Proof. by apply stable_own. Qed.
#[local] Hint Resolve stable_turn : core.

Lemma stable_given (Q : Prop) i a : own i a -> stable inv (others i) (fun s => Q /\ between i a s).
Proof. intros Ha s s' Hs Hs' H [HQ HP]. split; [done|]. by apply (proj1 (stable_own i a Ha) s s'). Qed.

(** From where nothing can be, anything goes. *)
Lemma ok_never {A : Type} i (p : code A) : forall P Q, (forall s, inv s -> P s -> False) -> ok i P p Q.
Proof.
  induction p as [A a|A B f k IH|A X B x turn IHt k IH]; intros P Q HP; simpl.
  - intros s Hs Ps. by destruct (HP s Hs Ps).
  - exists (fun _ _ => False). split_and!; [by intros ? ?|intros s s' b Hs Ps; by destruct (HP s Hs Ps)|]. intros b. by apply IH.
  - exists (fun _ _ => False), (fun _ _ => False). split_and!; [by intros ? ?|by intros ? ?|intros s Hs Ps; by destruct (HP s Hs Ps)| |].
    + intros x'. by apply IHt.
    + intros b. by apply IH.
Qed.

(** A step of the engine's thread that changes what the others and the account of the queue read nothing of. *)
Definition aside (s s' : exec) : Prop :=
  x_order s' = x_order s /\ x_queued s' = x_queued s /\ x_driver s' = x_driver s /\ x_draining s' = x_draining s /\
  x_looking s' = x_looking s /\ x_due s' = x_due s /\ x_inbox s' = x_inbox s /\ x_in_callback s' = x_in_callback s /\
  x_owing s' = x_owing s /\ x_threads s' = x_threads s /\ x_woken s' = x_woken s /\ x_ran s' = x_ran s.

Lemma aside_ok d l h h' s s' : aside s s' -> x_hand s' = h' -> inv s -> at_hand d l h s ->
  heard (to_poll s') (x_log s') -> kept (alive s') (x_log s') ->
  inv s' /\ gua engine s s' /\ at_hand d l h' s'.
Proof.
  intros (E1 & E2 & E3 & E4 & E5 & E6 & E7 & E8 & E9 & E10 & E11 & E12) Eh' [_ _ Hn Hq Hl Hs Hi Ho Ht] (Hit & Hio & Ed & El & Ec & Eh) Hh Hk.
  split_and!; [split|split_and!|split_and!]; rewrite ?E1, ?E3, ?E4, ?E5, ?E6, ?E7, ?E8, ?E9, ?E10, ?E11, ?E12; try done.
  - intros t. by rewrite E2, Hq.
  - by rewrite Ec.
Qed.

Section Drains.
Context (nested : code (option bool)) (d l : bool) (h : Hand).
Hypothesis nested_ok : ok engine (at_hand d l h) nested (fun _ => at_hand d l h).

Lemma add_ok s : inv s -> at_hand d l h s -> inv (add s).1 /\ gua engine s (add s).1 /\ at_hand d l h (add s).1.
Proof.
  intros Hs Hp. apply (aside_ok d l h h s); [done|apply Hp|done..| |].
  - eapply heard_snoc; [exact (i_heard s Hs)|by left|done].
  - eapply kept_snoc; [exact (i_kept s Hs)| |].
    + intros t [Hk|Hk]; left; [left; simpl; set_solver|by right].
    + intros t [= <-]. left. simpl. set_solver.
Qed.

Lemma deeds_ok ds : ok engine (at_hand d l h) (run_deeds nested ds) (fun _ => at_hand d l h).
Proof.
  induction ds as [|deed ds IH]; [by apply safe_ret|]. cbn [run_deeds].
  refine (safe_bind _ _ _ _ _ _ (fun _ => at_hand d l h) _ _ (fun _ => IH)).
  destruct deed as [task| |]; cbn [run_deed]; unfold spawn.
  - by apply wake_ok.
  - eapply safe_bind; [apply (safe_act _ _ _ _ _ (fun _ => at_hand d l h))|intros task; by apply wake_ok]; [auto|].
    by apply add_ok.
  - eapply safe_bind; [exact nested_ok|]. intros ?. by apply safe_ret.
Qed.
End Drains.

(** What is in hand, from the queue to the end of its poll. *)
Section Polls.
Context (d l : bool) (task : nat).
#[local] Abbreviation with_hand h := (at_hand d l h).

Lemma take_out_ok s : inv s -> with_hand (Taken task) s ->
  inv (take_out task s).1 /\ gua engine s (take_out task s).1 /\
  with_hand (if (take_out task s).2 then Held task else Nothing) (take_out task s).1.
Proof.
  intros Hs Hp. assert (x_hand s = Taken task) as Eh by apply Hp. unfold take_out.
  case_bool_decide as Ht; simpl.
  - eapply (aside_ok d l (Taken task) _ s); [done..| |]; simpl; rewrite app_nil_r.
    + eapply heard_mono; [exact (i_heard s Hs)|]. intros t [H|[H|H]]; [by left|right; right; simpl; congruence|congruence].
    + eapply kept_mono; [exact (i_kept s Hs)|]. intros t [H|[H|H]]; [|congruence..].
      destruct (decide (t = task)) as [->|Hne]; [right; by left|left; simpl; set_solver].
  - eapply (aside_ok d l (Taken task) _ s); [done..| |]; simpl; rewrite app_nil_r.
    + intros before t after E Ha Hn. destruct (i_heard s Hs before t after E Ha Hn) as [|[H|[H|H]]]; [by left|right; by left| |congruence].
      assert (t = task) as -> by congruence. left.
      destruct (i_kept s Hs task) as [(p & Hp1 & Hp2)|[H1|[H1|H1]]]; [rewrite E; set_solver| |done|congruence..].
      rewrite E in Hp2. apply elem_of_app in Hp2 as [Hp2|[Hp2|Hp2]%elem_of_cons]; [|done|by exists p].
      destruct Hn. by exists p.
    + eapply kept_mono; [exact (i_kept s Hs)|]. intros t [H|[H|H]]; [|congruence..].
      left. simpl. set_solver.
Qed.

Lemma play_ok s : inv s -> with_hand (Held task) s ->
  inv (play task s).1 /\ gua engine s (play task s).1 /\
  with_hand (match polled (play task s).2 with Pending => Out task | _ => Nothing end) (play task s).1.
Proof.
  intros Hs Hp. assert (x_hand s = Held task) as Eh by apply Hp. unfold play. cbv zeta. set (p := match x_plays s with [] => _ | p :: _ => p end).
  eapply (aside_ok d l (Held task) _ s); [done..| |]; simpl.
  - eapply heard_snoc; [exact (i_heard s Hs)| |done]. intros t [H|[H|H]]; [left; by left|congruence|].
    right. exists (polled p). congruence.
  - eapply kept_snoc; [exact (i_kept s Hs)| |done]. intros t [H|[H|H]]; [left; by left| |congruence].
    assert (t = task) as -> by congruence. destruct (polled p) eqn:E; [left; right; right; done|right; by exists (polled p); rewrite E..].
Qed.

Lemma put_back_ok s : inv s -> with_hand (Out task) s ->
  inv (put_back task s) /\ gua engine s (put_back task s) /\ at_turn d l (put_back task s).
Proof.
  intros Hs Hp. assert (x_hand s = Out task) as Eh by apply Hp.
  eapply (aside_ok d l (Out task) _ s); [done..| |]; simpl; rewrite app_nil_r.
  - eapply heard_mono; [exact (i_heard s Hs)|]. intros t [H|[H|H]]; [by left|congruence..].
  - eapply kept_mono; [exact (i_kept s Hs)|]. intros t [H|[H|H]]; left; simpl; [set_solver|congruence|].
    assert (t = task) as -> by congruence. set_solver.
Qed.

Lemma next_ok s : inv s -> at_turn d l s ->
  inv (next s).1 /\ gua engine s (next s).1 /\
  with_hand (match (next s).2 with Some t => Taken t | None => Nothing end) (next s).1.
Proof.
  intros Hs (Hit & Hio & Ed & El & Ec & Eh). unfold next. destruct (x_order s) as [|t order] eqn:E; simpl; [by split_and!|].
  destruct Hs as [Hh Hk Hn Hq Hl Hs Hi Ho Ht]. rewrite E in *.
  apply NoDup_cons in Hn as [Hnt Hn]. split_and!; [split; simpl|..]; try done.
  - eapply heard_mono; [exact Hh|]. unfold to_poll. simpl. rewrite E, Eh. intros u [[->|H]%elem_of_cons|[H|H]]; [tauto..|done|done].
  - eapply kept_mono; [exact Hk|]. unfold alive. simpl. rewrite Eh. intros u [H|[H|H]]; [by left|done..].
  - intros x. rewrite elem_of_difference, Hq, elem_of_singleton, elem_of_cons. split; [tauto|]. intros Hx. split; [by right|]. by intros ->.
  - by rewrite Hl, <- app_assoc.
  - by destruct Hs as [|Hs]; [|right].
  - by rewrite Ec.
Qed.
End Polls.

Section Run.
Context (nested : code (option bool)) (d l : bool).
Hypothesis nested_ok : forall h, ok engine (at_hand d l h) nested (fun _ => at_hand d l h).

Lemma poll_ok task : ok engine (at_hand d l (Taken task)) (poll false nested task) (fun r s => r <> None /\ at_turn d l s).
Proof.
  eapply safe_bind; [apply (safe_act _ _ _ _ _ (fun b : bool => at_hand d l (if b then Held task else Nothing)))|]; [auto|by apply take_out_ok|].
  intros []; [|by apply safe_ret].
  eapply safe_bind; [apply (safe_act _ _ _ _ _ (fun p => at_hand d l (match polled p with Pending => Out task | _ => Nothing end)))|];
    [auto|by apply play_ok|].
  intros p. eapply safe_bind; [by apply deeds_ok|]. intros ?. destruct (polled p); [|by apply safe_ret..].
  eapply safe_bind; [apply (safe_act _ _ _ _ _ (fun _ => at_turn d l))|]; [auto|by apply put_back_ok|].
  intros ?. by apply safe_ret.
Qed.

Lemma run_woken_ok ran : ok engine (at_turn d l) (run_woken false nested ran) (fun r s => r <> None /\ at_turn d l s).
Proof.
  exists (fun _ => at_turn d l), (fun r s => r <> None /\ at_turn d l s). split_and!; [auto|intros b; by apply stable_given|done| |].
  - intros ran'.
    eapply safe_bind; [apply (safe_act _ _ _ _ _ (fun t => at_hand d l (match t with Some t => Taken t | None => Nothing end)))|];
      [auto|by apply next_ok|].
    intros [task|]; [|by apply safe_ret]. eapply safe_bind; [apply poll_ok|]. intros did. apply safe_ret.
    intros s Hs [Hd Hp]. by destruct did.
  - intros b. by apply safe_ret.
Qed.
End Run.

(** The drain's own steps. *)
Lemma swap_ok d l h s : inv s -> at_hand d l h s ->
  inv (swap_draining s).1 /\ gua engine s (swap_draining s).1 /\ (swap_draining s).2 = d /\ at_hand true false h (swap_draining s).1.
Proof.
  intros [Hh Hk Hn Hq Hl Hs Hi Ho Ht] (Hit & Hio & Ed & El & Ec & Eh). split_and!; [split; simpl|split_and!|..]; try done; try tauto; by rewrite Ec.
Qed.

Lemma stop_ok s : inv s -> at_turn true false s -> inv (stop_draining s) /\ gua engine s (stop_draining s) /\ at_turn false true (stop_draining s).
Proof.
  intros [Hh Hk Hn Hq Hl Hs Hi Ho Ht] (Hit & Hio & Ed & El & Ec & Eh). split_and!; [split; simpl|split_and!|..]; try done; try tauto; by rewrite Ec.
Qed.

Lemma resume_ok s : inv s -> at_turn false true s -> inv (resume_draining s) /\ gua engine s (resume_draining s) /\ at_turn true false (resume_draining s).
Proof.
  intros [Hh Hk Hn Hq Hl Hs Hi Ho Ht] (Hit & Hio & Ed & El & Ec & Eh). split_and!; [split; simpl|split_and!|..]; try done; try tauto; by rewrite Ec.
Qed.

Lemma idle_ok s : inv s -> at_turn false true s ->
  inv (is_idle s).1 /\ gua engine s (is_idle s).1 /\ (if (is_idle s).2 then at_turn false false else at_turn false true) (is_idle s).1.
Proof.
  intros Hs (Hit & Hio & Ed & El & Ec & Eh). unfold is_idle. destruct (bool_decide (x_order s = [])) eqn:E; simpl; [|done].
  apply bool_decide_eq_true in E. destruct Hs as [Hh Hk Hn Hq Hl Hs Hi Ho Ht]. split_and!; [split; simpl|split_and!|..]; try done; try (by left); by rewrite Ec.
Qed.

(** A drain where none runs leaves none to run and nothing to look at; one inside of it does nothing. *)
Lemma drain_ok nested l :
  (forall h, ok engine (at_hand true false h) nested (fun _ => at_hand true false h)) ->
  ok engine (at_turn false l) (drain_with false nested) (fun _ => at_turn false false).
Proof.
  intros Hn. eapply safe_bind; [apply (safe_act _ _ _ _ _ (fun was s => was = false /\ at_turn true false s))|].
  { intros b. by apply stable_given. }
  { intros s Hs Hp. by destruct (swap_ok false l Nothing s Hs Hp) as (? & ? & ? & ?). }
  intros [|]; [apply ok_never; by intros ? ? [? _]|].
  exists (fun _ => at_turn true false), (fun _ => at_turn false false). split_and!; [auto|auto|by intros ? ? [_ ?]| |by intros b; apply safe_ret].
  intros ran. eapply safe_bind; [by apply run_woken_ok|]. intros [ran'|]; [|apply ok_never; by intros ? ? [? _]].
  eapply safe_pre; [intros s Hs [_ Hp]; exact Hp|].
  eapply safe_bind; [apply (safe_act _ _ _ _ _ (fun _ => at_turn false true))|]; [auto|by apply stop_ok|]. intros ?.
  eapply safe_bind; [apply (safe_act _ _ _ _ _ (fun b : bool => if b then at_turn false false else at_turn false true))|].
  { intros []; auto. }
  { by apply idle_ok. }
  intros []; [by apply safe_ret|].
  eapply safe_bind; [apply (safe_act _ _ _ _ _ (fun _ => at_turn true false))|]; [auto|by apply resume_ok|]. intros ?. by apply safe_ret.
Qed.

Lemma nested_ok h : ok engine (at_hand true false h) (nested_drain false) (fun _ => at_hand true false h).
Proof.
  eapply safe_bind; [apply (safe_act _ _ _ _ _ (fun was s => was = true /\ at_hand true false h s))|].
  { intros b. by apply stable_given. }
  { intros s Hs Hp. by destruct (swap_ok true false h s Hs Hp) as (? & ? & ? & ?). }
  intros [|]; [apply safe_ret; by intros ? ? [_ ?]|apply ok_never; by intros ? ? [? _]].
Qed.

(** ** The engine's thread *)

Definition at_rest : exec -> Prop := between engine (fun d l c h => d = false /\ l = false /\ c = false /\ h = Nothing).

Lemma with_driver_ok s : inv s -> at_turn false true s -> inv (with_driver s) /\ gua engine s (with_driver s) /\ at_turn false true (with_driver s).
Proof.
  intros [Hh Hk Hn Hq Hl Hs Hi Ho Ht] (Hit & Hio & Ed & El & Ec & Eh). split_and!; [split; simpl|split_and!|..]; try done. tauto.
Qed.

Lemma next_callback_ok s s' cb : inv s -> at_rest s -> next_callback s = Some (s', cb) ->
  inv s' /\ gua engine s s' /\ at_turn false (match cb with CDriver => true | _ => false end) s'.
Proof.
  intros [Hh Hk Hn Hq Hl Hs Hi Ho Ht] (Hit & Hio & Ed & El & Ec & Eh). unfold next_callback. destruct (x_inbox s) as [|cb' inbox] eqn:Ei; [done|].
  intros [= <- ->]. split_and!; [split; simpl|split_and!|split_and!]; try done; [|by destruct cb].
  destruct Hs as [Hs|[Hs|[Hs|[Hs|[Hs|[Hs|Hs]]]]]]; try tauto; [congruence|].
  destruct cb; [tauto|..]; apply elem_of_cons in Hs as [Hs|Hs]; try done; tauto.
Qed.

Lemma end_callback_ok s : inv s -> at_turn false false s -> inv (end_callback s) /\ gua engine s (end_callback s) /\ at_rest (end_callback s).
Proof.
  intros [Hh Hk Hn Hq Hl Hs Hi Ho Ht] (Hit & Hio & Ed & El & Ec & Eh). split_and!; [split; simpl|split_and!|split_and!]; done.
Qed.

Lemma engine_ok : ok engine at_rest (engine_thread false) (fun _ => post engine).
Proof.
  assert (forall l, ok engine (at_turn false l) (drain false) (fun _ => at_turn false false)) as Hdrain.
  { intros l. apply drain_ok. intros h. apply nested_ok. }
  assert (stable inv (others engine) at_rest) as Hrest by by apply stable_own.
  exists (fun _ => at_rest), (fun _ => post engine). split_and!; [done| |done| |intros b; by apply safe_ret].
  { intros b s s' _ _ H Hp. destruct (others_leave engine s s' H) as (Ho & _ & _). unfold post in *. by rewrite <- Ho. }
  intros _. eapply safe_bind;
    [apply (safe_await _ _ _ _ _ (fun cb => at_turn false (match cb with CDriver => true | _ => false end)))|].
  { auto. }
  { intros s s' cb. by apply next_callback_ok. }
  intros cb. refine (safe_bind _ _ _ _ _ _ (fun _ => at_turn false false) _ _ _).
  - destruct cb as [| |ds].
    + eapply safe_bind; [apply (safe_act _ _ _ _ _ (fun _ => at_turn false true))|]; [auto|by apply with_driver_ok|].
      intros ?. eapply safe_bind; [apply Hdrain|]. intros ?. by apply safe_ret.
    + eapply safe_bind; [apply Hdrain|]. intros ?. by apply safe_ret.
    + apply deeds_ok, Hdrain.
  - intros ?. eapply safe_bind; [apply (safe_act _ _ _ _ _ (fun _ => at_rest))|]; [auto|by apply end_callback_ok|].
    intros ?. by apply safe_ret.
Qed.

(** ** Any execution *)

Lemma running_ok plays : config_ok outside_step waker_thread inv gua post (running false plays).
Proof.
  split.
  - split; simpl; try done; [by intros []|by intros t ?%elem_of_nil|apply NoDup_nil_2|intros t; set_solver|by left|lia].
  - intros [|i] p Hp; [|done]. injection Hp as <-. exists at_rest. split_and!; [by apply stable_own| |apply engine_ok].
    split_and!; [exact Nat.lt_0_1|by apply not_elem_of_empty|done..].
Qed.

Lemma outside_ok e s s' : inv s -> outside_step e s = Some s' -> inv s'.
Proof.
  intros [Hh Hk Hn Hq Hl Hs Hi Ho Ht] He.
  destruct e as [| |[]]; simpl in He; repeat case_match; simplify_eq; split; simpl; try done; try tauto.
  - do 5 right. left. apply elem_of_app. right. by apply list_elem_of_singleton.
  - destruct Hs as [?|[?|[?|[?|[?|[?|?]]]]]]; try tauto. do 5 right. left. apply elem_of_app. by left.
  - destruct Hs as [?|[?|[?|[?|[?|[?|?]]]]]]; try tauto. do 5 right. left. apply elem_of_app. by left.
Qed.

Lemma waker_ok t n s s' p : inv s -> waker_thread t n s = Some (s', p) ->
  inv s' /\ exists P, stable inv (others t) P /\ P s' /\ ok t P p (fun _ => post t).
Proof.
  intros Hs Hb. unfold waker_thread in Hb. destruct (decide (t = x_threads s)) as [->|]; [|done].
  injection Hb as <- <-. destruct Hs as [Hh Hk Hn Hq Hl Hs Hi Ho Ht].
  split; [split; simpl; try done; [|lia]; intros i Hi'%Ho; lia|].
  exists (between (x_threads s) (fun _ _ _ _ => True)). split_and!.
  - by apply stable_own.
  - split_and!; simpl; [lia| |done]. intros Hin%Ho. lia.
  - eapply safe_post; [|apply wake_ok; [done|intros E; unfold engine in E; lia]]. by intros a s' _ (_ & ? & _).
Qed.

(** Threads are counted as they start, so a new one is always the next. *)
Lemma counted_step c ch c' : config_ok outside_step waker_thread inv gua post c ->
  x_threads (shared c) = length (threads c) -> choose outside_step waker_thread c ch = Some c' ->
  x_threads (shared c') = length (threads c').
Proof.
  intros [Hs Ht] Hlen. destruct ch as [i|e|n]; simpl.
  - destruct (threads c !! i) as [p|] eqn:Ep; [|done]. simpl. destruct (step p (shared c)) as [[s' p']|] eqn:Estep; [|done].
    intros [= <-]. destruct (Ht i p Ep) as (P & HP & Ps & Hp).
    destruct (safe_step inv (others i) (gua i) p p' P _ _ s' (exec_gua_refl i) HP Hp Hs Ps Estep) as (_ & (_ & E & _) & _).
    simpl. by rewrite length_insert, <- E.
  - destruct (outside_step e (shared c)) as [s'|] eqn:E; [|done]. intros [= <-]. simpl.
    destruct e as [| |[]]; simpl in E; repeat case_match; by simplify_eq.
  - destruct (waker_thread _ n (shared c)) as [[s' p]|] eqn:E; [|done]. intros [= <-]. simpl.
    unfold waker_thread in E. destruct (decide _) as [Ed|]; [|done]. injection E as <- <-. rewrite length_app. simpl. lia.
Qed.

(** What holds at any time, the threads counted. *)
Lemma exec_reached plays chs c : execute outside_step waker_thread (running false plays) chs = Some c ->
  config_ok outside_step waker_thread inv gua post c /\ x_threads (shared c) = length (threads c).
Proof.
  assert (config_ok outside_step waker_thread inv gua post (running false plays) /\
    x_threads (shared (running false plays)) = length (threads (running false plays))) as H by (split; [apply running_ok|done]).
  revert H. generalize (running false plays). induction chs as [|ch chs IH]; intros c0 [Hok Hlen]; [by intros [= <-]|]. simpl.
  destruct (choose outside_step waker_thread c0 ch) as [c1|] eqn:E; [|done]. apply IH. split.
  - eapply (choose_ok outside_step waker_thread inv gua post exec_gua_refl outside_ok waker_ok); [exact Hok|exact E].
  - by apply (counted_step c0 ch).
Qed.

Lemma waker_starts c t task : x_threads (shared c) = length (threads c) -> t = length (threads c) ->
  is_Some (waker_thread t task (shared c)).
Proof. intros E ->. unfold waker_thread. rewrite decide_True by done. by eexists. Qed.

Lemma owing_none c : config_ok outside_step waker_thread inv gua post c -> x_threads (shared c) = length (threads c) ->
  (forall i p, i <> engine -> threads c !! i = Some p -> p = Ret tt) -> forall i, i ∈ x_owing (shared c) -> i = engine.
Proof.
  intros Hc Hlen Hdone i Hi. destruct (decide (i = engine)) as [|Hne]; [done|].
  destruct (lookup_lt_is_Some_2 (threads c) i) as [p Hp]; [rewrite <- Hlen; by apply (i_owing _ (shared_ok _ _ _ _ _ _ Hc))|].
  rewrite (Hdone i p Hne Hp) in Hp. by destruct (ended_ok _ _ _ _ _ c i Hc Hp).
Qed.

(** C35: no wake is lost, however the engine's thread, its callbacks and the threads that wake work go
    between one another, and whether or not the work waits for its turn already when it is woken: while
    the engine's thread is between callbacks and nobody is on the way through a wake, each wake there
    ever was of work that had been spawned and had not ended was followed by a poll of that work, or
    the work is in the queue, and then the driver is woken or has its turn to come (or was never
    polled: what waits then waits for the next drain). *)
Theorem no_wake_is_lost plays chs c :
  execute outside_step waker_thread (running false plays) chs = Some c ->
  (forall i p, i <> engine -> threads c !! i = Some p -> p = Ret tt) -> x_in_callback (shared c) = false ->
  forall before t after, x_log (shared c) = before ++ Asked t :: after -> Added t ∈ before -> ~ ended t before ->
  (exists p, Polls t p ∈ after) \/
  t ∈ x_order (shared c) /\ (x_driver (shared c) = false \/ x_due (shared c) = true \/ CDriver ∈ x_inbox (shared c)).
Proof.
  intros Hc Hdone Hcall before t after E Ha Hn. destruct (exec_reached plays chs c Hc) as [Hok Hlen].
  destruct (shared_ok _ _ _ _ _ _ Hok) as [Hh _ _ _ _ Hs Hi _ _]. destruct (Hi Hcall) as (Hd & Hlo & He & Ehand).
  destruct (Hh before t after E Ha Hn) as [|[Ht|[Ht|Ht]]]; [by left| |congruence..]. right. split; [done|].
  destruct Hs as [Hs|[Hs|[Hs|[Hs|[Hs|[Hs|[i Hs]]]]]]]; try congruence; try tauto; [rewrite Hs in Ht; by apply elem_of_nil in Ht|].
  destruct He. by rewrite (owing_none c Hok Hlen Hdone i Hs) in Hs.
Qed.

(** Work runs in the order it was woken, once for each wake of work that does not wait for its turn
    already: what was taken to be run is the first of what was woken, and the rest waits, each once. *)
Theorem work_runs_in_the_order_it_was_woken plays chs c :
  execute outside_step waker_thread (running false plays) chs = Some c ->
  x_woken (shared c) = x_ran (shared c) ++ x_order (shared c) /\ NoDup (x_order (shared c)) /\
  forall t, t ∈ x_queued (shared c) <-> t ∈ x_order (shared c).
Proof. intros Hc. destruct (exec_reached plays chs c Hc) as [[[_ _ Hn Hq Hl _ _ _ _] _] _]. by split_and!. Qed.

(** ** An execution of them *)

(** The driver is polled, a piece of work is spawned that is woken at once, and another thread wakes a
    piece of work. *)
Module Sample.
Definition plays : list Play :=
  [{| deeds := [Wakes 0; Drains]; polled := Pending |}; {| deeds := [Spawns]; polled := Ready |}].
Definition woken : list (choice (E := outside)) :=
  [Env SpawnsDriver; Env PollsDriver; Env (Calls (CDeeds [Spawns]))] ++ repeat (Go 0) 19 ++
  [Begin 7; Go 1; Go 1; Go 1; Go 1].

Definition after (chs : list choice) : option (config (S := exec)) :=
  execute outside_step waker_thread (running false plays) chs.
Definition ended (p : code unit) : bool := match p with Ret _ => true | _ => false end.

Lemma sample_intro chs (check : config (S := exec) -> bool) (P : config -> Prop) :
  match after chs with Some c => check c | None => false end = true ->
  (forall c, execute outside_step waker_thread (running false plays) chs = Some c -> check c = true -> P c) ->
  exists c, after chs = Some c /\ P c.
Proof. unfold after. destruct (execute _ _ _ chs) as [c|]; [|done]. eauto. Qed.

Lemma others_ended c : forallb ended (drop 1 (threads c)) = true ->
  forall i p, i <> engine -> threads c !! i = Some p -> p = Ret tt.
Proof.
  intros H i p Hi Hp. destruct i as [|i]; [done|]. rewrite forallb_forall in H.
  assert (ended p = true) as Hend by (apply H, list_elem_of_In, list_elem_of_lookup; exists i; by rewrite lookup_drop).
  by destruct p as [[]| |].
Qed.
End Sample.

Lemma no_wake_is_lost_witness : exists c,
  Sample.after Sample.woken = Some c /\
  (x_log (shared c) = [Added 0; Asked 0; Asked 7] /\ x_order (shared c) = [0; 7] /\
   ((exists p, Polls 0 p ∈ [Asked 7]) \/
    0 ∈ x_order (shared c) /\ (x_driver (shared c) = false \/ x_due (shared c) = true \/ CDriver ∈ x_inbox (shared c)))).
Proof.
  apply (Sample.sample_intro _ (fun c => forallb Sample.ended (drop 1 (threads c)) && negb (x_in_callback (shared c)) &&
    bool_decide (x_log (shared c) = [Added 0; Asked 0; Asked 7]) && bool_decide (x_order (shared c) = [0; 7]))); [vm_compute; reflexivity|].
  intros c E Ec. apply andb_true_iff in Ec as [[[Et Ei%negb_true_iff]%andb_true_iff El%bool_decide_eq_true]%andb_true_iff Eo%bool_decide_eq_true].
  split; [done|]. split_and!; [done..|].
  apply (no_wake_is_lost Sample.plays Sample.woken c E (Sample.others_ended c Et) Ei [Added 0] 0 [Asked 7] El); [by apply list_elem_of_singleton|].
  intros (p & _ & Hp%list_elem_of_singleton). discriminate Hp.
Defined.

Lemma work_runs_in_the_order_it_was_woken_witness : exists c,
  Sample.after Sample.woken = Some c /\ (x_woken (shared c) = [0; 7] /\ NoDup (x_order (shared c))).
Proof.
  apply (Sample.sample_intro _ (fun c => bool_decide (x_woken (shared c) = [0; 7]))); [vm_compute; reflexivity|].
  intros c E Ec%bool_decide_eq_true. split; [done|].
  by apply (work_runs_in_the_order_it_was_woken Sample.plays Sample.woken c).
Defined.
