(* ===== verification/Holds.v ===== *)
(** * A participant's hold: [cf-engine/src/runtime.rs]

    Each participant is held by one piece of work at a time ([Hold]): a step of a pass or a human's
    operation, with the launch or the delivery a step starts going on apart from it. A pass that finds
    it held moves on, an operation waits its turn, and the participant is handed to it. All of it is on
    the engine's one thread: what is polled now is the stack of calls, and the pieces of work are polled
    in any order. What a piece of work does is left open: how each of its polls ends, and whether it
    acts. *)
From S2P Require Import Prelude.
#[local] Open Scope nat_scope.

(** The flag of the hold that a piece of work sets: a step or an operation, a launch or a delivery. *)
Inductive flag := Running | Acting.
#[export] Instance flag_eq_dec : EqDecision flag.
Proof. solve_decision. Defined.

(** How far a piece of work has come: in the queue ([Waiting]), or handed the participant and not polled
    since; polled, and in the turn it goes on after; in the first poll of its work ([Hold::lasting]);
    past it; and its work ended, with turns to go until it lets go. *)
Inductive phase := Waits | Hops | Starts (f : flag) | Works (f : flag) | LetsGo (f : flag) (turns : nat).

(** [Hold], each waiter's [Turn::given], and the pieces of work that have not ended, by their numbers;
    those being polled, the innermost first; those that acted. The last two are the account of the
    waiters: those that came, but those that went away before their work ran, and those whose work began. *)
Record hold := MkHold {
  h_running : bool;
  h_acting : bool;
  h_handed : bool;
  h_waiting : list nat;
  h_given : gset nat;
  h_pieces : gmap nat phase;
  h_stack : list nat;
  h_acted : gset nat;
  h_next : nat;
  h_came : list nat;
  h_began : list nat
}.

Definition default_hold : hold := MkHold false false false [] ∅ ∅ [] ∅ 0 [] [].

(** [Hold::held] *)
Definition held (s : hold) : bool := h_running s || h_acting s || h_handed s.

Definition set_held (f : flag) (b : bool) (s : hold) : hold :=
  match f with
  | Running => MkHold b (h_acting s) (h_handed s) (h_waiting s) (h_given s) (h_pieces s) (h_stack s) (h_acted s)
                      (h_next s) (h_came s) (h_began s)
  | Acting => MkHold (h_running s) b (h_handed s) (h_waiting s) (h_given s) (h_pieces s) (h_stack s) (h_acted s)
                     (h_next s) (h_came s) (h_began s)
  end.
Definition set_handed (b : bool) (s : hold) : hold :=
  MkHold (h_running s) (h_acting s) b (h_waiting s) (h_given s) (h_pieces s) (h_stack s) (h_acted s)
         (h_next s) (h_came s) (h_began s).
Definition set_work (pieces : gmap nat phase) (stack : list nat) (s : hold) : hold :=
  MkHold (h_running s) (h_acting s) (h_handed s) (h_waiting s) (h_given s) pieces stack (h_acted s)
         (h_next s) (h_came s) (h_began s).
Definition set_piece (p : nat) (ph : phase) (s : hold) : hold := set_work (<[p := ph]> (h_pieces s)) (h_stack s) s.
Definition ended (p : nat) (s : hold) : hold := set_work (delete p (h_pieces s)) (h_stack s) s.
Definition set_stack (stack : list nat) (s : hold) : hold := set_work (h_pieces s) stack s.
(** The waiters, with the account of them. *)
Definition set_waiting (waiting : list nat) (came began : list nat) (s : hold) : hold :=
  MkHold (h_running s) (h_acting s) (h_handed s) waiting (h_given s) (h_pieces s) (h_stack s) (h_acted s)
         (h_next s) came began.

(** [Hold::pass_on], with [Turn::give] *)
Definition pass_on (s : hold) : hold :=
  if held s then s
  else match h_waiting s with
       | [] => s
       | turn :: waiting =>
           MkHold (h_running s) (h_acting s) true waiting ({[turn]} ∪ h_given s) (h_pieces s) (h_stack s) (h_acted s)
                  (h_next s) (h_came s) (h_began s)
       end.

(** [Release::drop], of a piece of work that is gone. *)
Definition release (f : flag) (p : nat) (s : hold) : hold := pass_on (set_held f false (ended p s)).

(** The first poll of a piece of work in [Hold::lasting]; one of its own makes it as the next of them. *)
Definition lasting (f : flag) (p : nat) (s : hold) : hold :=
  set_work (<[p := Starts f]> (h_pieces s)) (p :: h_stack s) s.
Definition numbered (acted : gset nat) (s : hold) : hold :=
  MkHold (h_running s) (h_acting s) (h_handed s) (h_waiting s) (h_given s) (h_pieces s) (h_stack s) acted
         (S (h_next s)) (h_came s) (h_began s).
Definition hold_for (f : flag) (s : hold) : hold := lasting f (h_next s) (numbered (h_acted s) s).

(** [Hold::try_exclusive], [Hold::exclusive] *)
Definition try_exclusive (s : hold) : hold := if held s then s else hold_for Running s.
Definition waiting_new (s : hold) : hold :=
  let p := h_next s in
  set_piece p Waits (set_waiting (h_waiting s ++ [p]) (h_came s ++ [p]) (h_began s) (numbered (h_acted s) s)).
Definition exclusive (s : hold) : hold := if held s then waiting_new s else hold_for Running s.

(** [Hold::act], of a launch or a delivery that [p] starts. *)
Definition act (p : nat) (s : hold) : hold := lasting Acting (h_next s) (numbered ({[p]} ∪ h_acted s) s).

Definition LET_GO_AFTER_WAIT : nat := 2.
Definition LET_GO_AFTER_START : nat := 3.

(** How a poll of a piece's own work ends. *)
Inductive polled := Pending | Ready | Panicked.

(** A panic unwinds out of what is polled now, and out of what called it. *)
Definition flag_of (ph : phase) : flag :=
  match ph with Starts f | Works f | LetsGo f _ => f | Waits | Hops => Running end.
Definition unwind (p : nat) (s : hold) : hold :=
  match h_pieces s !! p with Some ph => release (flag_of ph) p s | None => s end.

(** The poll of the innermost piece ends: its first or a later one. *)
Definition poll_ends (o : polled) (s : hold) : option hold :=
  match h_stack s with
  | [] => None
  | p :: stack =>
      match o, h_pieces s !! p with
      | Panicked, Some _ => Some (fold_left (fun s p => unwind p s) (p :: stack) (set_stack [] s))
      | Pending, Some (Starts f) => Some (set_held f true (set_work (<[p := Works f]> (h_pieces s)) stack s))
      | Ready, Some (Starts f) =>
          Some (set_held f true (set_work (<[p := LetsGo f LET_GO_AFTER_START]> (h_pieces s)) stack s))
      | Pending, Some (Works f) => Some (set_stack stack s)
      | Ready, Some (Works f) => Some (set_work (<[p := LetsGo f LET_GO_AFTER_WAIT]> (h_pieces s)) stack s)
      | _, _ => None
      end
  end.

(** The executor polls a piece of work: [Waiting::poll], the turn after it, its work, the turns after it. *)
Definition poll (p : nat) (s : hold) : hold :=
  match h_pieces s !! p with
  | Some Waits => if decide (p ∈ h_given s) then set_piece p Hops s else s
  | Some Hops => lasting Running p (set_waiting (h_waiting s) (h_came s) (h_began s ++ [p]) (set_handed false s))
  | Some (Works f) => set_stack [p] s
  | Some (LetsGo f (S (S turns))) => set_piece p (LetsGo f (S turns)) s
  | Some (LetsGo f _) => release f p s
  | _ => s
  end.

(** A piece of work is dropped between its polls: [Waiting::drop], [Release::drop]. *)
Definition leaves (p : nat) (l : list nat) : list nat := filter (fun q => q <> p) l.
Definition drop_work (p : nat) (s : hold) : hold :=
  match h_pieces s !! p with
  | Some Waits =>
      let gone := ended p (set_waiting (leaves p (h_waiting s)) (leaves p (h_came s)) (h_began s) s) in
      if decide (p ∈ h_given s) then pass_on (set_handed false gone) else gone
  | Some Hops => ended p (set_waiting (h_waiting s) (leaves p (h_came s)) (h_began s) s)
  | Some (Works f) | Some (LetsGo f _) => release f p s
  | _ => s
  end.

(** What comes: a pass, an operation; the work polled now starts a launch or a delivery, a step one at
    most; a poll, and how it ends; a piece that goes away. The thread does nothing else while it polls. *)
Inductive event := TryExclusive | Exclusive | Acts | Polls (p : nat) | PollEnds (o : polled) | GoesAway (p : nat).

Definition acts (s : hold) : option hold :=
  match h_stack s with
  | p :: _ =>
      match h_pieces s !! p with
      | Some (Starts Running) | Some (Works Running) => if decide (p ∈ h_acted s) then None else Some (act p s)
      | _ => None
      end
  | [] => None
  end.

Definition at_rest (s s' : hold) : option hold := match h_stack s with [] => Some s' | _ => None end.
Definition step (e : event) (s : hold) : option hold :=
  match e with
  | TryExclusive => at_rest s (try_exclusive s)
  | Exclusive => at_rest s (exclusive s)
  | Acts => acts s
  | Polls p => at_rest s (poll p s)
  | PollEnds o => poll_ends o s
  | GoesAway p => at_rest s (drop_work p s)
  end.

Fixpoint run (es : list event) (s : hold) : option hold :=
  match es with [] => Some s | e :: es => s ← step e s; run es s end.
