(* ===== verification/HoldRuns.v ===== *)
(** * What every step of a participant's hold keeps

    Whose turn it is and whose launch or delivery goes on are known of any state ([core]), and so is what
    is polled ([calls]); whoever waits, somebody has the participant ([taken]). Every step keeps it
    ([step_inv]); the theorems of it are [HoldTurns]. *)
From S2P Require Import Prelude Holds.
#[local] Open Scope nat_scope.

(** What a piece of work has of the participant: its flag, the participant handed to it. *)
Definition sets_flag (ph : option phase) : bool :=
  match ph with Some (Works _ | LetsGo _ _) => true | _ => false end.
Definition handed_to (ph : option phase) : bool := match ph with None | Some (Waits | Hops) => true | _ => false end.
Definition before_work (p : nat) (ph : option phase) : list nat := match ph with Some (Waits | Hops) => [p] | _ => [] end.

(** Whose turn it is ([o]: handed the participant, or its step or operation runs) and whose launch or
    delivery goes on ([a]). *)
Record core (o a : option nat) (s : hold) : Prop := {
  c_place : forall p ph, h_pieces s !! p = Some ph ->
    match ph with
    | Waits => if decide (p ∈ h_given s) then o = Some p else p ∈ h_waiting s
    | Hops => o = Some p
    | Starts f | Works f | LetsGo f _ => match f with Running => o | Acting => a end = Some p
    end;
  c_running : h_running s = match o with Some p => sets_flag (h_pieces s !! p) | None => false end;
  c_acting : h_acting s = match a with Some p => sets_flag (h_pieces s !! p) | None => false end;
  c_handed : h_handed s = match o with Some p => handed_to (h_pieces s !! p) | None => false end;
  c_owner : forall p ph, o = Some p -> h_pieces s !! p = Some ph -> flag_of ph = Running /\ (ph = Waits -> p ∈ h_given s);
  c_actor : forall p, a = Some p -> exists ph, h_pieces s !! p = Some ph /\ flag_of ph = Acting;
  c_acted : forall p b, o = Some p -> a = Some b -> p ∈ h_acted s /\ handed_to (h_pieces s !! p) = false;
  c_waits : forall p, p ∈ h_waiting s -> h_pieces s !! p = Some Waits /\ p ∉ h_given s;
  c_fresh : forall p, is_Some (h_pieces s !! p) \/ p ∈ h_given s \/ p ∈ h_acted s \/ p ∈ h_came s \/ o = Some p -> p < h_next s;
  c_came : h_came s = h_began s ++ match o with Some p => before_work p (h_pieces s !! p) | None => [] end ++ h_waiting s;
  c_nodup : NoDup (h_came s)
}.

(** What is polled now: a piece that has its turn or acts, or one that acts and the one that called it. *)
Record calls (o a : option nat) (s : hold) : Prop := {
  k_stack : match h_stack s with
            | [] => True
            | [p] => o = Some p \/ a = Some p
            | [b; p] => a = Some b /\ o = Some p
            | _ => False
            end;
  k_polled : forall p, p ∈ h_stack s -> exists f, h_pieces s !! p = Some (Starts f) \/ h_pieces s !! p = Some (Works f);
  k_starts : forall p f, h_pieces s !! p = Some (Starts f) -> p ∈ h_stack s
}.

(** Whoever waits, somebody has the participant. *)
Definition taken (o a : option nat) (s : hold) : Prop := h_waiting s <> [] -> o <> None \/ a <> None.

Definition inv (s : hold) : Prop := exists o a, core o a s /\ calls o a s /\ taken o a s.

Lemma default_inv : inv default_hold.
Proof.
  exists None, None. split_and!; [split|split|by intros ?]; simpl; try done; try set_solver.
  - intros p [[? H]|[H|[H|[H|H]]]]; set_solver.
  - apply NoDup_nil_2.
Qed.

(** ** Letting go *)

Lemma came_waiting o a s : core o a s -> NoDup (h_waiting s).
Proof. intros H. pose proof (c_nodup _ _ _ H) as Hn. rewrite (c_came _ _ _ H) in Hn. by apply NoDup_app in Hn as (_ & _ & (_ & _ & ?)%NoDup_app). Qed.

(** A participant let go is passed on where nothing starts. *)
Lemma let_go_core a s : core None a s -> (forall p f, h_pieces s !! p <> Some (Starts f)) ->
  exists o, core o a (pass_on s) /\ taken o a (pass_on s).
Proof.
  intros H Hst. pose proof (came_waiting _ _ _ H) as Hw. pose proof H as [Hp Hr Ha Hh Ho Hac Hacted Hwait Hf Hc Hn].
  unfold pass_on, held. rewrite Hr, Hh, orb_false_r. simpl. destruct (h_acting s) eqn:Ea.
  { exists None. split; [done|]. intros _. right. by destruct a. }
  assert (a = None) as ->.
  { destruct a as [b|]; [|done]. destruct (Hac b eq_refl) as (ph & Eb & Ef). rewrite Eb in Ha.
    destruct ph as [| |f|f|f n]; try done. by destruct (Hst b f). }
  destruct (h_waiting s) as [|turn rest] eqn:Ew.
  { exists None. split; [done|]. unfold taken. by rewrite Ew. }
  destruct (Hwait turn) as [Et Eg]; [left|]. apply NoDup_cons in Hw as [Hnt Hw].
  exists (Some turn). split; [split; simpl|by left]; rewrite ?Et; try done.
  - intros p ph Eph. specialize (Hp p ph Eph). destruct ph as [| |f|f|f n]; try (by destruct f); [|done].
    destruct (decide (p ∈ h_given s)); [done|]. apply elem_of_cons in Hp as [->|Hp].
    + rewrite decide_True by set_solver. done.
    + rewrite decide_False by set_solver. done.
  - intros p ph [= <-] Eph. rewrite Et in Eph. injection Eph as <-. split; [done|]. set_solver.
  - intros p Hin. destruct (Hwait p) as [? ?]; [by right|]. split; [done|]. set_solver.
  - assert (turn < h_next s) by by apply Hf; left; eexists.
    intros p [?|[Hin|[?|[?|[= <-]]]]]; [apply Hf; auto.. | done].
    apply elem_of_union in Hin as [->%elem_of_singleton|Hin]; auto.
Qed.

(** Whose turn it is holds the participant, but while it starts. *)
Lemma holds o a s : core o a s -> (forall p f, h_pieces s !! p <> Some (Starts f)) -> held s = false -> o = None /\ a = None.
Proof.
  intros [_ Hr Ha Hh _ Hac _ _ _ _ _] Hst Heq. unfold held in Heq. rewrite Hr, Ha, Hh in Heq.
  apply orb_false_iff in Heq as [[Er Ea]%orb_false_iff Eh]. split.
  - destruct o as [p|]; [|done]. destruct (h_pieces s !! p) as [[| |f|f|f n]|] eqn:E; try done. by destruct (Hst p f).
  - destruct a as [p|]; [|done]. destruct (Hac p eq_refl) as ([| |f|f|f n] & E & Hf); rewrite E in Ea; try done. by destruct (Hst p f).
Qed.

Lemma pass_on_core o a s : core o a s -> (forall p f, h_pieces s !! p <> Some (Starts f)) ->
  exists o', core o' a (pass_on s) /\ taken o' a (pass_on s).
Proof.
  intros H Hst. destruct o as [p|]; [|by apply let_go_core]. exists (Some p). split; [|by left].
  unfold pass_on. destruct (held s) eqn:E; [done|]. by destruct (holds _ _ _ H Hst E).
Qed.

(** A piece of work that has its turn is gone, or one that acts. *)
Lemma core_turn_over p ph a s : core (Some p) a s -> h_pieces s !! p = Some ph -> handed_to (Some ph) = false ->
  core None a (set_held Running false (ended p s)).
Proof.
  intros [Hp Hr Ha Hh Ho Hac Hacted Hwait Hf Hc Hn] Eph Hph.
  destruct (Ho p ph eq_refl Eph) as [Hflag _].
  assert (forall b, a = Some b -> b <> p) as Hne.
  { intros b Hb ->. destruct (Hac p Hb) as (ph' & E & Hf'). rewrite Eph in E. injection E as <-. congruence. }
  split; simpl; try done.
  - intros q ph' [Hq Eq]%lookup_delete_Some. specialize (Hp q ph' Eq). destruct ph' as [| |f|f|f n]; try congruence.
    + destruct (decide (q ∈ h_given s)); congruence.
    + destruct f; congruence.
    + destruct f; congruence.
    + destruct f; congruence.
  - rewrite Ha. destruct a as [b|]; [|done]. rewrite lookup_delete_ne; [done|]. intros ->. by destruct (Hne b).
  - by rewrite Hh, Eph, Hph.
  - intros b Hb. destruct (Hac b Hb) as (ph' & E & ?). exists ph'. rewrite lookup_delete_ne; [done|]. intros ->. by destruct (Hne b).
  - intros q Hq. destruct (Hwait q Hq) as [E ?]. rewrite lookup_delete_ne; [done|]. intros <-. rewrite Eph in E. injection E as ->. done.
  - intros q [[? [_ E]%lookup_delete_Some]|H]; [apply Hf; left; by eexists|]. apply Hf. naive_solver.
  - rewrite Hc, Eph. f_equal. destruct ph; done.
Qed.

Lemma core_act_over o b s : core o (Some b) s -> core o None (set_held Acting false (ended b s)).
Proof.
  intros [Hp Hr Ha Hh Ho Hac Hacted Hwait Hf Hc Hn]. destruct (Hac b eq_refl) as (ph & Eb & Hflag).
  assert (forall p, o = Some p -> p <> b) as Hne.
  { intros p Hpo ->. destruct (Ho b ph Hpo Eb) as [? _]. congruence. }
  assert (forall p, o = Some p -> delete b (h_pieces s) !! p = h_pieces s !! p) as Eo.
  { intros p Hpo. apply lookup_delete_ne. intros ->. by destruct (Hne p). }
  split; simpl; try done.
  - intros q ph' [Hq Eq]%lookup_delete_Some. specialize (Hp q ph' Eq). destruct ph' as [| |f|f|f n]; try done.
    + destruct f; congruence.
    + destruct f; congruence.
    + destruct f; congruence.
  - rewrite Hr. destruct o as [p|]; [|done]. by rewrite Eo.
  - rewrite Hh. destruct o as [p|]; [|done]. by rewrite Eo.
  - intros p ph' Hpo. rewrite (Eo p Hpo). auto.
  - intros q Hq. destruct (Hwait q Hq) as [E ?]. rewrite lookup_delete_ne; [done|]. intros <-. rewrite Eb in E. injection E as ->. done.
  - intros q [[? [_ E]%lookup_delete_Some]|H]; [apply Hf; left; by eexists|]. apply Hf. tauto.
  - rewrite Hc. destruct o as [p|]; [|done]. by rewrite Eo.
Qed.

(** Two that unwind pass the participant on once. *)
Lemma pass_on_unwinds f p s : release f p (pass_on s) = release f p s.
Proof.
  unfold release, pass_on at 2. destruct (held s) eqn:Eh; [done|]. destruct (h_waiting s) as [|turn rest] eqn:Ew; [done|].
  apply orb_false_iff in Eh as [[Er Ea]%orb_false_iff Eh].
  destruct f; unfold pass_on, held; simpl; rewrite Er || rewrite Ea; rewrite ?Eh, ?orb_true_r; simpl; by rewrite ?Er, ?Ea, Ew.
Qed.

(** ** A step *)

Lemma core_stack o a stack s : core o a s -> core o a (set_stack stack s).
Proof. intros [? ? ? ? ? ? ? ? ? ? ?]. by split. Qed.

Lemma pass_on_same s : h_stack (pass_on s) = h_stack s /\ h_pieces (pass_on s) = h_pieces s.
Proof. unfold pass_on. repeat case_match; done. Qed.

Definition quiet (s : hold) : Prop := h_stack s = [] /\ forall p f, h_pieces s !! p <> Some (Starts f).

Lemma quiet_calls o a s : quiet s -> calls o a s.
Proof. intros [Hs Hst]. split; rewrite Hs; [done|set_solver|]. intros p f E. by destruct (Hst p f). Qed.

Lemma at_rest_quiet o a s : calls o a s -> h_stack s = [] -> quiet s.
Proof. intros [_ _ H] Hs. split; [done|]. intros p f E. apply H in E. rewrite Hs in E. set_solver. Qed.

Lemma quiet_pass_on o a s : core o a s -> quiet s -> inv (pass_on s).
Proof.
  intros H Hq. destruct (pass_on_core o a s H (proj2 Hq)) as (o' & H' & Ht). exists o', a. split_and!; [done| |done].
  apply quiet_calls. unfold quiet. destruct (pass_on_same s) as [-> ->]. done.
Qed.

(** What a piece of work at its work goes on as. *)
Lemma core_works o a p ph ph' s : core o a s -> h_pieces s !! p = Some ph -> handed_to (Some ph) = false ->
  flag_of ph' = flag_of ph -> sets_flag (Some ph') = true -> core o a (set_held (flag_of ph) true (set_piece p ph' s)).
Proof.
  intros [Hp Hr Ha Hh Ho Hac Hacted Hwait Hf Hc Hn] Eph Hph Hflag Hsets.
  assert (match flag_of ph with Running => o | Acting => a end = Some p) as Hpo.
  { specialize (Hp p ph Eph). by destruct ph. }
  assert (forall q, q <> p -> <[p:=ph']> (h_pieces s) !! q = h_pieces s !! q) as Ene by (intros q Hq; by rewrite lookup_insert_ne).
  assert (<[p:=ph']> (h_pieces s) !! p = Some ph') as Eeq by apply lookup_insert_eq.
  assert (handed_to (Some ph') = false) as Hph' by by destruct ph'.
  assert (forall q, handed_to (<[p:=ph']> (h_pieces s) !! q) = handed_to (h_pieces s !! q)) as Ehanded.
  { intros q. destruct (decide (q = p)) as [->|Hq]; [by rewrite Eeq, Eph, Hph|by rewrite Ene]. }
  assert (forall q, before_work q (<[p:=ph']> (h_pieces s) !! q) = before_work q (h_pieces s !! q)) as Ebefore.
  { intros q. destruct (decide (q = p)) as [->|Hq]; [|by rewrite Ene]. rewrite Eeq, Eph. by destruct ph, ph'. }
  assert (forall q ph1, <[p:=ph']> (h_pieces s) !! q = Some ph1 -> match ph1 with
    | Waits => if decide (q ∈ h_given s) then o = Some q else q ∈ h_waiting s
    | Hops => o = Some q
    | Starts f | Works f | LetsGo f _ => match f with Running => o | Acting => a end = Some q end) as Hp'.
  { intros q ph1 [[<- <-]|[Hq E]]%lookup_insert_Some; [|exact (Hp q ph1 E)]. destruct ph'; try done; simpl in Hflag; by rewrite Hflag. }
  assert (forall q ph1, o = Some q -> <[p:=ph']> (h_pieces s) !! q = Some ph1 ->
    flag_of ph1 = Running /\ (ph1 = Waits -> q ∈ h_given s)) as Ho'.
  { intros q ph1 Hq [[<- <-]|[Hne E]]%lookup_insert_Some; [|by apply Ho]. destruct (Ho p ph Hq Eph). split; [congruence|]. by intros ->. }
  assert (forall q, a = Some q -> exists ph1, <[p:=ph']> (h_pieces s) !! q = Some ph1 /\ flag_of ph1 = Acting) as Hac'.
  { intros q Hq. destruct (Hac q Hq) as (ph1 & E & Hf1). destruct (decide (q = p)) as [->|Hne]; [|rewrite Ene; eauto].
    exists ph'. split; [done|]. congruence. }
  assert (forall q, q ∈ h_waiting s -> <[p:=ph']> (h_pieces s) !! q = Some Waits /\ q ∉ h_given s) as Hwait'.
  { intros q Hq. destruct (Hwait q Hq) as [E ?]. rewrite Ene; [done|]. intros ->. rewrite Eph in E. by injection E as ->. }
  assert (forall q, is_Some (<[p:=ph']> (h_pieces s) !! q) \/ q ∈ h_given s \/ q ∈ h_acted s \/ q ∈ h_came s \/ o = Some q -> q < h_next s) as Hf'.
  { intros q [[? [[<- _]|[_ E]]%lookup_insert_Some]|H]; apply Hf; [left; by eexists|left; by eexists|tauto]. }
  assert (match flag_of ph with Running => a | Acting => o end <> Some p) as Hother.
  { intros E. destruct (flag_of ph) eqn:Ef.
    - destruct (Hac p E) as (ph1 & E1 & ?). rewrite Eph in E1. injection E1 as <-. congruence.
    - destruct (Ho p ph E Eph) as [? _]. congruence. }
  destruct (flag_of ph) eqn:Ef; split; simpl; try done.
  - by rewrite Hpo, Eeq, Hsets.
  - rewrite Ha. destruct a as [q|]; [|done]. rewrite Ene; [done|]. intros ->. by apply Hother.
  - rewrite Hh. destruct o as [q|]; [|done]. by rewrite Ehanded.
  - intros q b Hq Hb. rewrite Ehanded. by apply (Hacted q b).
  - rewrite Hc. destruct o as [q|]; [|done]. by rewrite Ebefore.
  - rewrite Hr. destruct o as [q|]; [|done]. rewrite Ene; [done|]. intros ->. by apply Hother.
  - by rewrite Hpo, Eeq, Hsets.
  - rewrite Hh. destruct o as [q|]; [|done]. by rewrite Ehanded.
  - intros q b Hq Hb. rewrite Ehanded. by apply (Hacted q b).
  - rewrite Hc. destruct o as [q|]; [|done]. by rewrite Ebefore.
Qed.

Lemma set_held_set o a p ph s : core o a s -> h_pieces s !! p = Some ph -> sets_flag (Some ph) = true ->
  set_held (flag_of ph) true s = s.
Proof.
  intros [Hp Hr Ha _ _ _ _ _ _ _ _] Eph Hph. specialize (Hp p ph Eph). destruct s, ph as [| |f|f|f n]; try done;
    destruct f; simpl in *; subst; by rewrite Eph.
Qed.

(** A new piece of work. *)
Lemma core_new_turn s : core None None s -> h_waiting s = [] -> core (Some (h_next s)) None (hold_for Running s).
Proof.
  intros [Hp Hr Ha Hh Ho Hac Hacted Hwait Hf Hc Hn] Hw.
  assert (forall q, q < h_next s -> <[h_next s:=Starts Running]> (h_pieces s) !! q = h_pieces s !! q) as Ene.
  { intros q Hq. apply lookup_insert_ne. lia. }
  split; simpl; rewrite ?lookup_insert_eq; try done.
  - intros q ph [[<- <-]|[Hq E]]%lookup_insert_Some; [done|]. specialize (Hp q ph E). destruct ph as [| |f|f|f n]; try done.
    + by destruct (decide (q ∈ h_given s)).
    + by destruct f.
    + by destruct f.
    + by destruct f.
  - intros q ph [= <-]. rewrite lookup_insert_eq. by intros [= <-].
  - intros q. rewrite Hw. set_solver.
  - intros q [[? [[<- _]|[_ E]]%lookup_insert_Some]|[H|[H|[H|[= <-]]]]]; [lia| |..]; try (assert (q < h_next s) by (apply Hf; tauto); lia); [|lia].
    assert (q < h_next s) by (apply Hf; left; by eexists). lia.
Qed.

Lemma core_new_wait o a s : core o a s -> core o a (waiting_new s).
Proof.
  intros [Hp Hr Ha Hh Ho Hac Hacted Hwait Hf Hc Hn].
  assert (forall q, q < h_next s -> <[h_next s:=Waits]> (h_pieces s) !! q = h_pieces s !! q) as Ene.
  { intros q Hq. apply lookup_insert_ne. lia. }
  assert (forall q, o = Some q -> <[h_next s:=Waits]> (h_pieces s) !! q = h_pieces s !! q) as Eo.
  { intros q Hq. apply Ene, Hf. tauto. }
  assert (forall q, a = Some q -> <[h_next s:=Waits]> (h_pieces s) !! q = h_pieces s !! q) as Ea.
  { intros q Hq. apply Ene, Hf. destruct (Hac q Hq) as (ph & E & _). left. by eexists. }
  assert (h_next s ∉ h_given s) as Hg by (intros H; assert (h_next s < h_next s) by (apply Hf; tauto); lia).
  split; simpl; try done.
  - intros q ph [[<- <-]|[Hq E]]%lookup_insert_Some.
    + rewrite decide_False by done. set_solver.
    + specialize (Hp q ph E). destruct ph as [| |f|f|f n]; try done. destruct (decide (q ∈ h_given s)); [done|]. set_solver.
  - rewrite Hr. destruct o as [q|]; [|done]. by rewrite Eo.
  - rewrite Ha. destruct a as [q|]; [|done]. by rewrite Ea.
  - rewrite Hh. destruct o as [q|]; [|done]. by rewrite Eo.
  - intros q ph Hq. rewrite (Eo q Hq). auto.
  - intros q Hq. rewrite (Ea q Hq). auto.
  - intros q b Hq Hb. rewrite (Eo q Hq). eauto.
  - intros q [Hq| ->%list_elem_of_singleton]%elem_of_app; [|by rewrite lookup_insert_eq].
    destruct (Hwait q Hq) as [E ?]. rewrite Ene; [done|]. apply Hf. left. by eexists.
  - intros q [[? [[<- _]|[_ E]]%lookup_insert_Some]|[H|[H|[[H| ->%list_elem_of_singleton]%elem_of_app|H]]]]; try lia;
      try (assert (q < h_next s) by (apply Hf; tauto); lia).
    assert (q < h_next s) by (apply Hf; left; by eexists). lia.
  - rewrite Hc. destruct o as [q|]; [rewrite Eo by done|]; by rewrite <- !app_assoc.
  - apply NoDup_app. split_and!; [done| |apply NoDup_singleton]. intros q Hq ->%list_elem_of_singleton.
    assert (h_next s < h_next s) by (apply Hf; tauto). lia.
Qed.

Lemma core_new_act p s ph : core (Some p) None s -> h_pieces s !! p = Some ph -> handed_to (Some ph) = false ->
  core (Some p) (Some (h_next s)) (act p s).
Proof.
  intros [Hp Hr Ha Hh Ho Hac Hacted Hwait Hf Hc Hn] Eph Hph.
  assert (p < h_next s) as Hlt by (apply Hf; tauto).
  assert (<[h_next s:=Starts Acting]> (h_pieces s) !! p = Some ph) as Ep by (rewrite lookup_insert_ne; [done|lia]).
  split; simpl; rewrite ?Ep, ?lookup_insert_eq, ?Eph in *; try done.
  - intros q ph1 [[<- <-]|[Hq E]]%lookup_insert_Some; [done|]. specialize (Hp q ph1 E). destruct ph1 as [| |f|f|f n]; try done; by destruct f.
  - intros q ph1 [= <-]. rewrite Ep. intros [= <-]. by apply (Ho p).
  - intros q [= <-]. exists (Starts Acting). by rewrite lookup_insert_eq.
  - intros q b [= <-] [= <-]. rewrite Ep. set_solver.
  - intros q Hq. destruct (Hwait q Hq) as [E ?]. rewrite lookup_insert_ne; [done|]. assert (q < h_next s) by (apply Hf; left; by eexists). lia.
  - intros q [[? [[<- _]|[_ E]]%lookup_insert_Some]|[H|[[->%elem_of_singleton|H]%elem_of_union|[H|[= <-]]]]]; try lia;
      try (assert (q < h_next s) by (apply Hf; tauto); lia).
    assert (q < h_next s) by (apply Hf; left; by eexists). lia.
Qed.

Lemma hold_for_inv s : inv s -> h_stack s = [] -> held s = false -> inv (hold_for Running s).
Proof.
  intros (o & a & Hc & Hk & Ht) Hs Hh. destruct (at_rest_quiet _ _ _ Hk Hs) as [_ Hq].
  destruct (holds _ _ _ Hc Hq Hh) as [-> ->].
  assert (h_waiting s = []) as Hw by (destruct (h_waiting s) eqn:E; [done|]; destruct Ht; rewrite ?E; done).
  exists (Some (h_next s)), None. split_and!; [by apply core_new_turn| |by left].
  split; simpl; rewrite ?Hs; [by left| |].
  - intros p ->%list_elem_of_singleton. exists Running. left. apply lookup_insert_eq.
  - intros p f [[<- _]|[_ E]]%lookup_insert_Some; [set_solver|]. by destruct (Hq p f).
Qed.

Lemma waiting_new_inv s : inv s -> h_stack s = [] -> held s = true -> inv (waiting_new s).
Proof.
  intros (o & a & Hc & Hk & Ht) Hs Hh. destruct (at_rest_quiet _ _ _ Hk Hs) as [_ Hq].
  exists o, a. split_and!; [by apply core_new_wait| |].
  - apply quiet_calls. split; [done|]. simpl. intros p f [[_ [=]]|[_ E]]%lookup_insert_Some. by destruct (Hq p f).
  - intros _. destruct Hc as [_ Hr Ha Hd _ _ _ _ _ _ _]. unfold held in Hh. rewrite Hr, Ha, Hd in Hh.
    destruct o; [by left|]. destruct a; [by right|]. done.
Qed.

(** A piece of work that is polled calls from where its own turn is. *)
Lemma caller s p stack f o a : core o a s -> calls o a s -> h_stack s = p :: stack ->
  h_pieces s !! p = Some (Starts f) \/ h_pieces s !! p = Some (Works f) ->
  match f with Running => o | Acting => a end = Some p /\ (f = Running -> stack = []).
Proof.
  intros [Hp _ _ _ _ Hac _ _ _ _ _] [Hs Hk _] Es Hph. rewrite Es in Hs.
  assert (match f with Running => o | Acting => a end = Some p) as E by (destruct Hph as [Hph|Hph]; exact (Hp p _ Hph)).
  split; [done|]. intros ->. destruct stack as [|q [|]]; [done| |done]. destruct Hs as [Eb _].
  destruct (Hac p Eb) as (ph & Eph & Hflag). destruct Hph as [Hph|Hph]; rewrite Eph in Hph; injection Hph as ->; done.
Qed.

Lemma acts_inv s s' : inv s -> acts s = Some s' -> inv s'.
Proof.
  intros (o & a & Hc & Hk & Ht) Ha. unfold acts in Ha. destruct (h_stack s) as [|p stack] eqn:Es; [done|].
  assert (exists ph, h_pieces s !! p = Some ph /\ (ph = Starts Running \/ ph = Works Running) /\ p ∉ h_acted s /\ s' = act p s)
    as (ph & Eph & Hph & Hna & ->).
  { destruct (h_pieces s !! p) as [[| |[]|[]|]|]; try done; destruct (decide (p ∈ h_acted s)); try done;
      injection Ha as <-; eexists; split_and!; eauto. }
  destruct (caller s p stack Running o a Hc Hk Es) as [-> Hst]; [rewrite Eph; destruct Hph as [-> | ->]; auto|].
  specialize (Hst eq_refl). subst stack.
  assert (a = None) as ->.
  { destruct a as [b|]; [|done]. by destruct (c_acted _ _ _ Hc p b eq_refl eq_refl). }
  exists (Some p), (Some (h_next s)). split_and!; [|split|by left].
  - eapply core_new_act; [done|exact Eph|]. by destruct Hph as [-> | ->].
  - simpl. by rewrite Es.
  - simpl. rewrite Es. intros q [-> | ->%list_elem_of_singleton]%elem_of_cons; [exists Acting; left; apply lookup_insert_eq|].
    assert (p < h_next s) by (apply (c_fresh _ _ _ Hc); left; by eexists).
    exists Running. rewrite lookup_insert_ne by lia. rewrite Eph. destruct Hph as [-> | ->]; auto.
  - simpl. rewrite Es. intros q f [[<- _]|[_ E]]%lookup_insert_Some; [set_solver|].
    apply (k_starts _ _ _ Hk) in E. rewrite Es in E. set_solver.
Qed.

(** The poll of a piece of work ends, which goes on or lets go later. *)
Lemma poll_goes_on s p stack ph ph' : inv s -> h_stack s = p :: stack -> h_pieces s !! p = Some ph ->
  handed_to (Some ph) = false -> flag_of ph' = flag_of ph -> sets_flag (Some ph') = true ->
  (ph = Starts (flag_of ph) \/ ph = Works (flag_of ph)) ->
  inv (set_held (flag_of ph) true (set_work (<[p := ph']> (h_pieces s)) stack s)).
Proof.
  intros (o & a & Hc & Hk & Ht) Es Eph Hph Hflag Hsets Hkind. exists o, a. split_and!.
  - replace (set_held _ _ _) with (set_stack stack (set_held (flag_of ph) true (set_piece p ph' s))) by by destruct (flag_of ph).
    by apply core_stack, core_works.
  - assert (calls o a (set_work (<[p := ph']> (h_pieces s)) stack s)) as [H1 H2 H3].
    { assert (p ∉ stack) as Hni.
      { pose proof (k_stack _ _ _ Hk) as H. rewrite Es in H. destruct stack as [|q [|]]; [set_solver| |done].
        destruct H as [-> ->]. destruct (c_actor _ _ _ Hc p eq_refl) as (ph1 & E1 & F1). intros ->%list_elem_of_singleton.
        destruct (c_owner _ _ _ Hc q ph1 eq_refl E1) as [F2 _]. congruence. }
      split; simpl.
      - pose proof (k_stack _ _ _ Hk) as H. rewrite Es in H. destruct stack as [|q [|]]; [done| |done]. left. tauto.
      - intros q Hq. rewrite lookup_insert_ne by (by intros ->). apply (k_polled _ _ _ Hk). rewrite Es. by right.
      - intros q f [[<- ->]|[Hne E]]%lookup_insert_Some; [done|]. apply (k_starts _ _ _ Hk) in E. rewrite Es in E.
        apply elem_of_cons in E as [->|E]; done. }
    destruct (flag_of ph); by split.
  - revert Ht. unfold taken. destruct (flag_of ph); done.
Qed.

Lemma unwind_one o a p ph s : core o a s -> h_pieces s !! p = Some ph -> handed_to (Some ph) = false ->
  exists o' a', core o' a' (set_held (flag_of ph) false (ended p s)) /\
    match flag_of ph with Running => o' = None /\ a' = a | Acting => o' = o /\ a' = None end.
Proof.
  intros Hc Eph Hph. pose proof (c_place _ _ _ Hc p ph Eph) as Hp. destruct (flag_of ph) eqn:Ef.
  - exists None, a. split; [|done]. assert (o = Some p) as -> by by destruct ph; simpl in Ef; subst. by eapply core_turn_over.
  - exists o, None. split; [|done]. assert (a = Some p) as -> by by destruct ph; simpl in Ef; subst. by apply core_act_over.
Qed.

Lemma release_inv o a p ph s : core o a s -> quiet (ended p s) -> h_pieces s !! p = Some ph -> handed_to (Some ph) = false ->
  inv (release (flag_of ph) p s).
Proof.
  intros Hc Hq Eph Hph. destruct (unwind_one o a p ph s Hc Eph Hph) as (o' & a' & H & _).
  eapply quiet_pass_on; [exact H|]. by destruct (flag_of ph).
Qed.

Lemma unwind_inv s p stack : inv s -> h_stack s = p :: stack ->
  inv (fold_left (fun s p => unwind p s) (p :: stack) (set_stack [] s)).
Proof.
  intros (o & a & Hc & Hk & Ht) Es. pose proof (k_stack _ _ _ Hk) as Hs. rewrite Es in Hs.
  destruct (k_polled _ _ _ Hk p) as (f & Hf); [rewrite Es; left|].
  assert (exists ph, h_pieces s !! p = Some ph /\ flag_of ph = f /\ handed_to (Some ph) = false) as (ph & Eph & Eflag & Hph).
  { destruct Hf as [Hf|Hf]; eexists; by split_and!. }
  simpl. unfold unwind at 2. simpl. rewrite Eph. destruct stack as [|q [|]]; [| |done].
  - simpl. eapply release_inv; [by apply core_stack| |exact Eph|done]. split; [done|].
    simpl. intros r g [Hr E]%lookup_delete_Some. apply (k_starts _ _ _ Hk) in E. rewrite Es in E. set_solver.
  - destruct Hs as [-> ->]. destruct (k_polled _ _ _ Hk q) as (g & Hg); [rewrite Es; right; left|].
    assert (exists qh, h_pieces s !! q = Some qh /\ flag_of qh = g /\ handed_to (Some qh) = false) as (qh & Eqh & Egflag & Hqh).
    { destruct Hg as [Hg|Hg]; eexists; by split_and!. }
    destruct (c_actor _ _ _ Hc p eq_refl) as (ph1 & E1 & F1). rewrite Eph in E1. injection E1 as <-.
    destruct (c_owner _ _ _ Hc q qh eq_refl Eqh) as [F2 _].
    assert (q <> p) as Hqp by (intros ->; rewrite Eph in Eqh; congruence).
    simpl. unfold unwind. set (s1 := release _ p _). assert (h_pieces s1 = delete p (h_pieces s)) as Ep1.
    { unfold s1, release. rewrite (proj2 (pass_on_same _)). by destruct (flag_of ph). }
    rewrite Ep1, lookup_delete_ne, Eqh by done.
    change s1 with (pass_on (set_held (flag_of ph) false (ended p (set_stack [] s)))). rewrite pass_on_unwinds, F1.
    eapply (release_inv (Some q) None); [by apply core_act_over, core_stack| | |done].
    + split; [done|]. simpl. intros r h [Hr [Hr' E]%lookup_delete_Some]%lookup_delete_Some.
      apply (k_starts _ _ _ Hk) in E. rewrite Es in E. set_solver.
    + simpl. by rewrite lookup_delete_ne.
Qed.

Lemma poll_ends_inv o s s' : inv s -> poll_ends o s = Some s' -> inv s'.
Proof.
  intros H Hs. unfold poll_ends in Hs. destruct (h_stack s) as [|p stack] eqn:Es; [done|].
  destruct (h_pieces s !! p) as [ph|] eqn:Eph; [|by destruct o].
  assert (forall f ph', ph = Starts f \/ ph = Works f -> flag_of ph' = f -> sets_flag (Some ph') = true ->
    inv (set_held f true (set_work (<[p := ph']> (h_pieces s)) stack s))) as Hgo.
  { intros f ph' Hph Hf Hsets. assert (flag_of ph = f) as <- by by destruct Hph as [-> | ->].
    apply (poll_goes_on s p stack ph ph'); try done; by destruct Hph as [-> | ->]. }
  assert (forall f, ph = Works f -> set_held f true s = s) as Hset.
  { intros f ->. destruct H as (o' & a & Hc & _). by apply (set_held_set o' a p (Works f)). }
  assert (forall f pieces, ph = Works f -> set_work pieces stack s = set_held f true (set_work pieces stack s)) as Heq.
  { intros f pieces E. specialize (Hset f E). destruct s, f; simpl in *; by injection Hset as <-. }
  destruct o, ph as [| |f|f|f n]; try done; injection Hs as <-; try by apply Hgo; auto.
  - unfold set_stack. rewrite (Heq f) by done. rewrite <- (insert_id (h_pieces s) p (Works f)) at 1 by done. apply Hgo; auto.
  - rewrite (Heq f) by done. apply Hgo; auto.
  - by apply unwind_inv.
  - by apply unwind_inv.
  - by apply unwind_inv.
  - by apply unwind_inv.
  - by apply unwind_inv.
Qed.

(** *** Polls, and pieces that go away *)

(** The piece that was handed the participant goes on: to the turn after, or to its work. *)
Lemma core_hops p s : core (Some p) None s -> h_pieces s !! p = Some Waits -> core (Some p) None (set_piece p Hops s).
Proof.
  intros [Hp Hr Ha Hh Ho Hac Hacted Hwait Hf Hc Hn] Eph.
  split; simpl; rewrite ?lookup_insert_eq, ?Eph in *; try done.
  - intros q ph [[<- <-]|[Hq E]]%lookup_insert_Some; [done|]. exact (Hp q ph E).
  - intros q ph [= <-]. rewrite lookup_insert_eq. by intros [= <-].
  - intros q Hq. destruct (Hwait q Hq) as [E Hg]. rewrite lookup_insert_ne; [done|]. intros <-.
    destruct (Ho p Waits eq_refl Eph) as [_ H]. by apply Hg, H.
  - intros q [[? [[<- _]|[_ E]]%lookup_insert_Some]|H]; apply Hf; [tauto|left; by eexists|tauto].
Qed.

Lemma core_begins p s : core (Some p) None s -> h_pieces s !! p = Some Hops ->
  core (Some p) None (lasting Running p (set_waiting (h_waiting s) (h_came s) (h_began s ++ [p]) (set_handed false s))).
Proof.
  intros [Hp Hr Ha Hh Ho Hac Hacted Hwait Hf Hc Hn] Eph.
  split; simpl; rewrite ?lookup_insert_eq, ?Eph in *; try done.
  - intros q ph [[<- <-]|[Hq E]]%lookup_insert_Some; [done|]. exact (Hp q ph E).
  - intros q ph [= <-]. rewrite lookup_insert_eq. by intros [= <-].
  - intros q Hq. destruct (Hwait q Hq) as [E Hg]. rewrite lookup_insert_ne; [done|]. intros <-. congruence.
  - intros q [[? [[<- _]|[_ E]]%lookup_insert_Some]|H]; apply Hf; [tauto|left; by eexists|tauto].
  - by rewrite Hc, <- app_assoc.
Qed.

(** Nothing acts while the participant is handed on. *)
Lemma handed_alone p a s : core (Some p) a s -> handed_to (h_pieces s !! p) = true -> a = None.
Proof. intros Hc Hh. destruct a as [b|]; [|done]. destruct (c_acted _ _ _ Hc p b eq_refl eq_refl). congruence. Qed.

Lemma poll_inv p s : inv s -> h_stack s = [] -> inv (poll p s).
Proof.
  intros Hs Es. pose proof Hs as (o & a & Hc & Hk & Ht). destruct (at_rest_quiet _ _ _ Hk Es) as [_ Hq].
  unfold poll. destruct (h_pieces s !! p) as [ph|] eqn:Eph; [|done]. pose proof (c_place _ _ _ Hc p ph Eph) as Hp.
  destruct ph as [| |f|f|f [|[|n]]]; try done.
  - destruct (decide (p ∈ h_given s)); [|done]. subst o.
    assert (a = None) as -> by (eapply handed_alone; [exact Hc|by rewrite Eph]).
    exists (Some p), None. split_and!; [by apply core_hops| |by left]. apply quiet_calls. split; [done|]. simpl.
    intros q f [[_ [=]]|[_ E]]%lookup_insert_Some. by destruct (Hq q f).
  - subst o. assert (a = None) as -> by (eapply handed_alone; [exact Hc|by rewrite Eph]).
    exists (Some p), None. split_and!; [by apply core_begins|split|by left]; simpl; rewrite Es; [by left| |].
    + intros q ->%list_elem_of_singleton. exists Running. left. apply lookup_insert_eq.
    + intros q f [[<- _]|[_ E]]%lookup_insert_Some; [set_solver|]. by destruct (Hq q f).
  - exists o, a. split_and!; [by apply core_stack|split|done]; simpl.
    + destruct f; auto.
    + intros q ->%list_elem_of_singleton. exists f. by right.
    + intros q g E. by destruct (Hq q g).
  - apply (release_inv o a p (LetsGo f 0)); try done. split; [done|]. simpl. intros q g [_ E]%lookup_delete_Some. by destruct (Hq q g).
  - apply (release_inv o a p (LetsGo f 1)); try done. split; [done|]. simpl. intros q g [_ E]%lookup_delete_Some. by destruct (Hq q g).
  - exists o, a. split_and!; [| |done].
    + rewrite <- (set_held_set o a p (LetsGo f (S (S n))) s Hc Eph) by done.
      pose proof (core_works o a p _ (LetsGo f (S n)) s Hc Eph eq_refl eq_refl eq_refl) as H. simpl in H. by destruct f.
    + apply quiet_calls. split; [done|]. simpl. intros q g [[_ [=]]|[_ E]]%lookup_insert_Some. by destruct (Hq q g).
Qed.

Lemma leaves_in p q l : q ∈ leaves p l <-> q ∈ l /\ q <> p.
Proof. unfold leaves. rewrite list_elem_of_filter. tauto. Qed.
Lemma leaves_app p l l' : leaves p (l ++ l') = leaves p l ++ leaves p l'.
Proof. apply filter_app. Qed.
Lemma leaves_out p l : p ∉ l -> leaves p l = l.
Proof. intros H. induction l as [|q l IH]; [done|]. unfold leaves in *. rewrite filter_cons_True by set_solver. f_equal. apply IH. set_solver. Qed.

(** One in the queue goes away. *)
Lemma core_leaves_queue o a p s : core o a s -> h_pieces s !! p = Some Waits -> p ∉ h_given s ->
  core o a (ended p (set_waiting (leaves p (h_waiting s)) (leaves p (h_came s)) (h_began s) s)).
Proof.
  intros [Hp Hr Ha Hh Ho Hac Hacted Hwait Hf Hc Hn] Eph Hg.
  assert (o <> Some p) as Hop by (intros E; destruct (Ho p Waits E Eph) as [_ H]; auto).
  assert (a <> Some p) as Hap by (intros E; destruct (Hac p E) as (ph & E1 & H1); rewrite Eph in E1; by injection E1 as <-).
  assert (forall q, Some q <> Some p -> delete p (h_pieces s) !! q = h_pieces s !! q) as Ene.
  { intros q Hq. apply lookup_delete_ne. congruence. }
  assert (p ∈ h_waiting s) as Hpw by (specialize (Hp p Waits Eph); by rewrite decide_False in Hp).
  split; simpl; try done.
  - intros q ph [Hq E]%lookup_delete_Some. specialize (Hp q ph E). destruct ph as [| |f|f|f n]; try done.
    destruct (decide (q ∈ h_given s)); [done|]. by apply leaves_in.
  - rewrite Hr. destruct o as [q|]; [|done]. by rewrite Ene.
  - rewrite Ha. destruct a as [q|]; [|done]. by rewrite Ene.
  - rewrite Hh. destruct o as [q|]; [|done]. by rewrite Ene.
  - intros q ph Hq. rewrite Ene by congruence. auto.
  - intros q Hq. rewrite Ene by congruence. auto.
  - intros q b Hq Hb. rewrite Ene by congruence. eauto.
  - intros q [Hq Hne]%leaves_in. rewrite Ene by congruence. auto.
  - intros q [[? [_ E]%lookup_delete_Some]|H]; apply Hf; [left; by eexists|]. rewrite leaves_in in H. tauto.
  - rewrite Hc in Hn |- *. rewrite app_assoc in Hn. apply NoDup_app in Hn as (_ & Hout & _). rewrite app_assoc, leaves_app.
    rewrite leaves_out, <- app_assoc by (intros Hin; by apply (Hout p)). destruct o as [q|]; [|done]. rewrite Ene; [done|]. congruence.
  - by apply NoDup_filter.
Qed.

(** One that was handed the participant goes away: before it was polled since, and after. *)
Lemma core_leaves_turn p s : core (Some p) None s -> h_pieces s !! p = Some Waits ->
  core None None (set_handed false (ended p (set_waiting (leaves p (h_waiting s)) (leaves p (h_came s)) (h_began s) s))).
Proof.
  intros [Hp Hr Ha Hh Ho Hac Hacted Hwait Hf Hc Hn] Eph. rewrite Eph in *.
  assert (p ∈ h_given s) as Hg by (by apply (Ho p Waits eq_refl)).
  assert (p ∉ h_waiting s) as Hpw by (intros H; by destruct (Hwait p H)).
  split; simpl; try done; rewrite ?(leaves_out p (h_waiting s)) by done.
  - intros q ph [Hq E]%lookup_delete_Some. specialize (Hp q ph E). destruct ph as [| |f|f|f n]; try congruence; try (destruct f; congruence).
    destruct (decide (q ∈ h_given s)); congruence.
  - intros q Hq. destruct (Hwait q Hq) as [E ?]. rewrite lookup_delete_ne; [done|]. by intros <-.
  - intros q [[? [_ E]%lookup_delete_Some]|H]; apply Hf; [left; by eexists|]. rewrite leaves_in in H. naive_solver.
  - rewrite Hc in Hn |- *. apply NoDup_app in Hn as (_ & Hout & _). rewrite leaves_app, leaves_out.
    + f_equal. simpl. unfold leaves. rewrite filter_cons_False by (intros H; by apply H). by apply leaves_out.
    + intros Hin. apply (Hout p Hin). left.
  - by apply NoDup_filter.
Qed.

Lemma core_leaves_hops p s : core (Some p) None s -> h_pieces s !! p = Some Hops ->
  core (Some p) None (ended p (set_waiting (h_waiting s) (leaves p (h_came s)) (h_began s) s)).
Proof.
  intros [Hp Hr Ha Hh Ho Hac Hacted Hwait Hf Hc Hn] Eph. rewrite Eph in *.
  assert (p ∉ h_waiting s) as Hpw by (intros H; destruct (Hwait p H); congruence).
  split; simpl; try done; rewrite ?lookup_delete_eq; try done.
  - intros q ph [Hq E]%lookup_delete_Some. exact (Hp q ph E).
  - intros q ph [= <-]. by rewrite lookup_delete_eq.
  - intros q Hq. destruct (Hwait q Hq) as [E ?]. rewrite lookup_delete_ne; [done|]. by intros <-.
  - intros q [[? [_ E]%lookup_delete_Some]|H]; apply Hf; [left; by eexists|]. rewrite leaves_in in H. tauto.
  - rewrite Hc in Hn |- *. apply NoDup_app in Hn as (_ & Hout & _). rewrite leaves_app, leaves_out.
    + f_equal. simpl. unfold leaves. rewrite filter_cons_False by (intros H; by apply H). by apply leaves_out.
    + intros Hin. apply (Hout p Hin). left.
  - by apply NoDup_filter.
Qed.

Lemma drop_work_inv p s : inv s -> h_stack s = [] -> inv (drop_work p s).
Proof.
  intros Hs Es. pose proof Hs as (o & a & Hc & Hk & Ht). destruct (at_rest_quiet _ _ _ Hk Es) as [_ Hq].
  unfold drop_work. destruct (h_pieces s !! p) as [ph|] eqn:Eph; [|done]. pose proof (c_place _ _ _ Hc p ph Eph) as Hp.
  assert (forall s', h_stack s' = h_stack s -> h_pieces s' = delete p (h_pieces s) -> quiet s') as Hquiet.
  { intros s' E1 E2. split; [congruence|]. rewrite E2. intros q f [_ E]%lookup_delete_Some. by destruct (Hq q f). }
  destruct ph as [| |f|f|f n]; try done.
  - destruct (decide (p ∈ h_given s)) as [Hg|Hg].
    + subst o. assert (a = None) as -> by (eapply handed_alone; [exact Hc|by rewrite Eph]).
      eapply quiet_pass_on; [by apply core_leaves_turn|by apply Hquiet].
    + exists o, a. split_and!; [by apply core_leaves_queue|by apply quiet_calls, Hquiet|].
      intros Hw. apply Ht. simpl in Hw. by intros E; rewrite E in Hw.
  - subst o. assert (a = None) as -> by (eapply handed_alone; [exact Hc|by rewrite Eph]).
    exists (Some p), None. split_and!; [by apply core_leaves_hops|by apply quiet_calls, Hquiet|by left].
  - apply (release_inv o a p (Works f)); try done. by apply Hquiet.
  - apply (release_inv o a p (LetsGo f n)); try done. by apply Hquiet.
Qed.

Lemma step_inv e s s' : inv s -> step e s = Some s' -> inv s'.
Proof.
  intros H Hs. assert (forall s1, at_rest s s1 = Some s' -> h_stack s = [] /\ s' = s1) as Hrest.
  { intros s1. unfold at_rest. destruct (h_stack s); [|done]. by intros [= <-]. }
  destruct e as [| | |p|o|p]; simpl in Hs.
  - apply Hrest in Hs as [Es ->]. unfold try_exclusive. destruct (held s) eqn:E; [done|]. by apply hold_for_inv.
  - apply Hrest in Hs as [Es ->]. unfold exclusive. destruct (held s) eqn:E; [by apply waiting_new_inv|by apply hold_for_inv].
  - by eapply acts_inv.
  - apply Hrest in Hs as [Es ->]. by apply poll_inv.
  - by eapply poll_ends_inv.
  - apply Hrest in Hs as [Es ->]. by apply drop_work_inv.
Qed.

Lemma hold_run_inv es s s' : inv s -> run es s = Some s' -> inv s'.
Proof.
  revert s. induction es as [|e es IH]; intros s Hs Hr; simpl in Hr; [by injection Hr as <-|].
  destruct (step e s) as [s1|] eqn:E; [|done]. eapply IH; [by eapply step_inv|done].
Qed.
