(* ===== verification/HoldTurns.v ===== *)
(** * A participant is held by one piece of work at a time, and handed on in turn

    In any execution: one step or operation runs at a time, and begins where nothing that another
    started goes on ([one_holds_it_at_a_time]); those that wait are served in the order they came
    ([first_come_first_served]), each in its turn ([first_that_waits_begins]). *)
From S2P Require Import Prelude Holds HoldRuns.
#[local] Open Scope nat_scope.

(** ** One at a time *)

Definition at_work (f : flag) (s : hold) (p : nat) : Prop :=
  exists ph, h_pieces s !! p = Some ph /\ handed_to (Some ph) = false /\ flag_of ph = f.

Lemma work_owner o a s f p : core o a s -> at_work f s p -> match f with Running => o | Acting => a end = Some p.
Proof. intros Hc (ph & E & Hh & Hf). pose proof (c_place _ _ _ Hc p ph E) as H. by destruct ph; simpl in Hf; subst. Qed.

(** No step but of the hold's own starts a piece of work. *)
Lemma unwind_pieces l s p ph : h_pieces (fold_left (fun s p => unwind p s) l s) !! p = Some ph -> h_pieces s !! p = Some ph.
Proof.
  revert s. induction l as [|q l IH]; intros s; [done|]. simpl. intros H%IH. unfold unwind, release in H.
  destruct (h_pieces s !! q) as [qh|]; [|done]. rewrite (proj2 (pass_on_same _)) in H. destruct (flag_of qh); simpl in H;
    by apply lookup_delete_Some in H as [_ H].
Qed.

Lemma release_pieces f q s p ph : h_pieces (release f q s) !! p = Some ph -> h_pieces s !! p = Some ph.
Proof.
  unfold release. rewrite (proj2 (pass_on_same _)). destruct f; simpl; by intros [_ H]%lookup_delete_Some.
Qed.

Lemma starts_where e s s' p : step e s = Some s' -> h_pieces s' !! p = Some (Starts Running) -> h_pieces s !! p <> Some (Starts Running) ->
  h_stack s = [] /\ ((held s = false /\ p = h_next s) \/ h_pieces s !! p = Some Hops).
Proof.
  intros Hs E Hne. assert (forall s1, at_rest s s1 = Some s' -> h_stack s = [] /\ s' = s1) as Hrest.
  { intros s1. unfold at_rest. destruct (h_stack s); [|done]. by intros [= <-]. }
  assert (forall q f, f <> Running -> <[q := Starts f]> (h_pieces s) !! p <> Some (Starts Running)) as Hno.
  { intros q f Hf [[_ [=]]|[_ H]]%lookup_insert_Some; done. }
  assert (forall q ph, (forall f, ph <> Starts f) -> <[q := ph]> (h_pieces s) !! p <> Some (Starts Running)) as Hno'.
  { intros q ph Hf [[_ ->]|[_ H]]%lookup_insert_Some; [by destruct (Hf Running)|done]. }
  destruct e as [| | |q|o|q]; simpl in Hs.
  - apply Hrest in Hs as [Es ->]. split; [done|]. unfold try_exclusive in E. destruct (held s); [done|]. left. split; [done|].
    simpl in E. by apply lookup_insert_Some in E as [[<- _]|[_ E]].
  - apply Hrest in Hs as [Es ->]. split; [done|]. unfold exclusive in E. destruct (held s); simpl in E; [by destruct (Hno' (h_next s) Waits)|].
    left. split; [done|]. by apply lookup_insert_Some in E as [[<- _]|[_ E]].
  - unfold acts in Hs. repeat case_match; try done; injection Hs as <-; by destruct (Hno (h_next s) Acting).
  - apply Hrest in Hs as [Es ->]. split; [done|]. right. unfold poll in E. destruct (h_pieces s !! q) as [[| |f|f|f [|[|n]]]|] eqn:Eq; try done.
    + destruct (decide (q ∈ h_given s)); [by destruct (Hno' q Hops)|done].
    + simpl in E. by apply lookup_insert_Some in E as [[<- _]|[_ E]].
    + by apply release_pieces in E.
    + by apply release_pieces in E.
    + by destruct (Hno' q (LetsGo f (S n))).
  - exfalso. unfold poll_ends in Hs. destruct (h_stack s) as [|q stack]; [done|].
    destruct o, (h_pieces s !! q) as [[| |f|f|f n]|]; try done; injection Hs as <-; try (by apply (unwind_pieces (q :: stack)) in E);
      destruct f; simpl in E; try done; eapply Hno'; try exact E; done.
  - apply Hrest in Hs as [Es ->]. exfalso. unfold drop_work in E. destruct (h_pieces s !! q) as [[| |f|f|f n]|]; try done.
    + destruct (decide (q ∈ h_given s)); [rewrite (proj2 (pass_on_same _)) in E|]; simpl in E; by apply lookup_delete_Some in E as [_ E].
    + simpl in E. by apply lookup_delete_Some in E as [_ E].
    + by apply release_pieces in E.
    + by apply release_pieces in E.
Qed.

(** C37: one piece of work at a time has the participant, and one launch or delivery, at whatever point:
    a step or an operation begins only where none runs and nothing that one started goes on. *)
Theorem one_holds_it_at_a_time es s : run es default_hold = Some s ->
  (forall f p q, at_work f s p -> at_work f s q -> p = q) /\
  forall e s' p, step e s = Some s' -> h_pieces s' !! p = Some (Starts Running) -> h_pieces s !! p <> Some (Starts Running) ->
  forall f q, ~ at_work f s q.
Proof.
  intros Hr. destruct (hold_run_inv _ _ _ default_inv Hr) as (o & a & Hc & Hk & _). split.
  - intros f p q Hp%(work_owner _ _ _ _ _ Hc) Hq%(work_owner _ _ _ _ _ Hc). congruence.
  - intros e s' p Hs Hp Hne f q Hq. pose proof (work_owner _ _ _ _ _ Hc Hq) as Ho.
    destruct (starts_where e s s' p Hs Hp Hne) as [Es [[Hh ->]|Eph]].
    + destruct (holds _ _ _ Hc (proj2 (at_rest_quiet _ _ _ Hk Es)) Hh) as [-> ->]. by destruct f.
    + pose proof (c_place _ _ _ Hc p Hops Eph) as ->.
      assert (a = None) as -> by (eapply handed_alone; [exact Hc|by rewrite Eph]).
      destruct f; [|done]. injection Ho as ->. destruct Hq as (ph & E & Hh & _). rewrite Eph in E. by injection E as <-.
Qed.

(** First come, first served: those whose work began, the one the participant is handed to, if any,
    and those that still wait are all that came to wait and stayed, in the order they came; and while one
    waits the participant is held, so nothing that comes later takes it first. *)
Theorem first_come_first_served es s : run es default_hold = Some s ->
  (exists next, length next <= 1 /\ h_came s = h_began s ++ next ++ h_waiting s) /\ NoDup (h_came s) /\
  (h_stack s = [] -> h_waiting s <> [] -> held s = true).
Proof.
  intros Hr. destruct (hold_run_inv _ _ _ default_inv Hr) as (o & a & Hc & Hk & Ht). split_and!.
  - eexists. split; [|exact (c_came _ _ _ Hc)]. destruct o as [p|]; [|simpl; lia]. destruct (h_pieces s !! p) as [[]|]; simpl; lia.
  - exact (c_nodup _ _ _ Hc).
  - intros Es Hw. destruct (held s) eqn:E; [done|].
    destruct (holds _ _ _ Hc (proj2 (at_rest_quiet _ _ _ Hk Es)) E) as [-> ->]. by destruct (Ht Hw).
Qed.

(** ** The first that waits has its turn *)

Definition stays (e : event) : bool := match e with GoesAway _ => false | _ => true end.

(** Who was handed the participant is there to take it. *)
Definition alive (s : hold) : Prop :=
  (h_handed s = true -> exists q, h_pieces s !! q = Some Hops \/ h_pieces s !! q = Some Waits /\ q ∈ h_given s) /\
  (forall p, p ∈ h_waiting s -> h_pieces s !! p = Some Waits).

Lemma alive_pass_on s : alive s -> alive (pass_on s).
Proof.
  intros [Ha Hw]. unfold pass_on. destruct (held s); [done|]. destruct (h_waiting s) as [|turn rest] eqn:E; [by split; rewrite ?E|].
  split; simpl; [|intros p Hp; apply Hw; by right]. intros _. exists turn. right. split; [apply Hw; left|set_solver].
Qed.

Lemma alive_ended f p ph s : alive s -> h_pieces s !! p = Some ph -> handed_to (Some ph) = false -> alive (set_held f false (ended p s)).
Proof.
  intros [Ha Hw] E Hph. assert (forall q, h_pieces s !! q = Some Hops \/ h_pieces s !! q = Some Waits -> q <> p) as Hne.
  { intros q Hq ->. rewrite E in Hq. destruct Hq as [[= ->]|[= ->]]; done. }
  destruct f; split; simpl.
  1,3: intros Hh; destruct (Ha Hh) as (q & Hq); exists q; rewrite lookup_delete_ne; [done|]; intros <-; by apply (Hne p); tauto.
  all: intros q Hq; rewrite lookup_delete_ne; [auto|]; intros <-; by apply (Hne p); auto.
Qed.

Lemma alive_release p ph s : alive s -> h_pieces s !! p = Some ph -> handed_to (Some ph) = false -> alive (release (flag_of ph) p s).
Proof. intros. by eapply alive_pass_on, alive_ended. Qed.

Lemma alive_unwind l s : alive s -> (forall p ph, p ∈ l -> h_pieces s !! p = Some ph -> handed_to (Some ph) = false) ->
  alive (fold_left (fun s p => unwind p s) l s).
Proof.
  revert s. induction l as [|p l IH]; intros s Ha Hl; [done|]. simpl. apply IH.
  - unfold unwind. destruct (h_pieces s !! p) as [ph|] eqn:E; [|done]. apply alive_release; [done..|]. apply (Hl p ph); [left|done].
  - intros q ph Hq E. apply (Hl q ph); [by right|]. by apply (unwind_pieces [p]) in E.
Qed.

Lemma alive_new p ph s : (forall q, is_Some (h_pieces s !! q) -> q <> p) -> alive s -> (p ∈ h_waiting s -> ph = Waits) ->
  alive (set_piece p ph s).
Proof.
  intros Hnew [Ha Hw] Hp. split; simpl.
  - intros Hh. destruct (Ha Hh) as (q & Hq). exists q. rewrite lookup_insert_ne; [done|]. intros <-.
    apply (Hnew p); [|done]. destruct Hq as [E|[E _]]; by eexists.
  - intros q Hq. rewrite lookup_insert_ne; [auto|]. intros <-. apply (Hnew p); [|done]. eexists. by apply Hw.
Qed.

Lemma alive_works p ph ph' s : alive s -> h_pieces s !! p = Some ph -> handed_to (Some ph) = false -> alive (set_piece p ph' s).
Proof.
  intros [Ha Hw] E Hph. split; simpl.
  - intros Hh. destruct (Ha Hh) as (q & Hq). exists q. rewrite lookup_insert_ne; [done|]. intros <-. rewrite E in Hq.
    destruct Hq as [[= ->]|[[= ->] _]]; done.
  - intros q Hq. rewrite lookup_insert_ne; [auto|]. intros <-. specialize (Hw p Hq). rewrite E in Hw. by injection Hw as ->.
Qed.

Lemma alive_step e s s' : inv s -> stays e = true -> step e s = Some s' -> alive s -> alive s'.
Proof.
  intros (o & a & Hc & Hk & _) He Hs Ha. assert (forall s1, at_rest s s1 = Some s' -> h_stack s = [] /\ s' = s1) as Hrest.
  { intros s1. unfold at_rest. destruct (h_stack s); [|done]. by intros [= <-]. }
  assert (forall q, is_Some (h_pieces s !! q) -> q <> h_next s) as Hnew.
  { intros q Hq ->. assert (h_next s < h_next s) by (apply (c_fresh _ _ _ Hc); tauto). lia. }
  assert (h_next s ∉ h_waiting s) as Hnw.
  { intros Hin. destruct (c_waits _ _ _ Hc _ Hin) as [E _]. apply (Hnew (h_next s)); [by eexists|done]. }
  assert (forall f, alive (hold_for f s)) as Hfor by (intros f; apply (alive_new (h_next s) (Starts f) s Hnew Ha); tauto).
  destruct e as [| | |p|out|p]; simpl in Hs; [| | | | |done].
  - apply Hrest in Hs as [_ ->]. unfold try_exclusive. by destruct (held s).
  - apply Hrest in Hs as [_ ->]. unfold exclusive. destruct (held s); [|done].
    split; simpl; [exact (proj1 (alive_new (h_next s) Waits s Hnew Ha (fun _ => eq_refl)))|].
    intros q [Hq| ->%list_elem_of_singleton]%elem_of_app; [|apply lookup_insert_eq].
    exact (proj2 (alive_new (h_next s) Waits s Hnew Ha (fun _ => eq_refl)) q Hq).
  - unfold acts in Hs. repeat case_match; try done; injection Hs as <-; exact (alive_new (h_next s) (Starts Acting) s Hnew Ha (fun H => match Hnw H with end)).
  - apply Hrest in Hs as [_ ->]. unfold poll. destruct (h_pieces s !! p) as [[| |f|f|f [|[|n]]]|] eqn:E; try done.
    + destruct (decide (p ∈ h_given s)) as [Hg|]; [|done]. split; simpl; [intros _; exists p; left; apply lookup_insert_eq|].
      intros q Hq. destruct (c_waits _ _ _ Hc q Hq) as [Eq Hng]. rewrite lookup_insert_ne; [done|]. by intros <-.
    + split; simpl; [done|]. intros q Hq. destruct (c_waits _ _ _ Hc q Hq) as [Eq _]. rewrite lookup_insert_ne; [done|]. intros <-. congruence.
    + by apply (alive_release p (LetsGo f 0)).
    + by apply (alive_release p (LetsGo f 1)).
    + by apply (alive_works p (LetsGo f (S (S n)))).
  - unfold poll_ends in Hs. destruct (h_stack s) as [|p stack] eqn:Es; [done|].
    assert (forall q ph, q ∈ p :: stack -> h_pieces s !! q = Some ph -> handed_to (Some ph) = false) as Hpolled.
    { intros q ph Hq E. rewrite <- Es in Hq. destruct (k_polled _ _ _ Hk q Hq) as (f & [E'|E']); rewrite E in E'; by injection E' as ->. }
    destruct (h_pieces s !! p) as [ph|] eqn:E; [|by destruct out].
    assert (handed_to (Some ph) = false) as Hph by (apply (Hpolled p ph); [left|done]).
    assert (forall f ph', alive (set_held f true (set_work (<[p := ph']> (h_pieces s)) stack s))) as Hgo.
    { intros f ph'. pose proof (alive_works p ph ph' s Ha E Hph) as [H1 H2]. destruct f; by split. }
    destruct out, ph as [| |f|f|f n]; try done; injection Hs as <-; try apply Hgo.
    + destruct Ha as [H1 H2]. by split.
    + exact (Hgo Running (LetsGo f LET_GO_AFTER_WAIT)).
    + apply (alive_unwind (p :: stack)); [destruct Ha; by split|exact Hpolled].
    + apply (alive_unwind (p :: stack)); [destruct Ha; by split|exact Hpolled].
    + apply (alive_unwind (p :: stack)); [destruct Ha; by split|exact Hpolled].
Qed.

(** The participant's work goes on to its end: polls alone, each of them whose work is over. *)
Definition goes_on (e : event) : bool := match e with Polls _ | PollEnds Ready => true | _ => false end.
Definition ends_as (s s' : hold) : Prop := exists es, forallb goes_on es = true /\ run es s = Some s'.

Lemma ends_refl s : ends_as s s.
Proof. by exists []. Qed.

Lemma ends_step e s s1 s' : goes_on e = true -> step e s = Some s1 -> ends_as s1 s' -> ends_as s s'.
Proof. intros He Hs (es & Hes & Hr). exists (e :: es). simpl. by rewrite He, Hs. Qed.

Lemma ends_trans s s1 s' : ends_as s s1 -> ends_as s1 s' -> ends_as s s'.
Proof.
  intros (es & Hes & Hr) H. revert s Hr Hes. induction es as [|e es IH]; intros s Hr Hes; simpl in Hr; [by injection Hr as ->|].
  simpl in Hes. apply andb_true_iff in Hes as [He Hes]. destruct (step e s) as [s2|] eqn:E; [|done]. by eapply ends_step; [|exact E|by apply IH].
Qed.

Lemma polls_at_rest p s : h_stack s = [] -> step (Polls p) s = Some (poll p s).
Proof. intros E. simpl. unfold at_rest. by rewrite E. Qed.

Lemma piece_replaced p ph ph' s : set_piece p ph' (set_piece p ph s) = set_piece p ph' s.
Proof. unfold set_piece, set_work. simpl. by rewrite insert_insert_eq. Qed.
Lemma piece_ended p ph s : ended p (set_piece p ph s) = ended p s.
Proof. unfold ended, set_piece, set_work. simpl. by rewrite delete_insert_eq. Qed.

Lemma lets_go f p n s : h_stack s = [] -> h_pieces s !! p = Some (LetsGo f n) -> ends_as s (release f p s).
Proof.
  revert s. induction n as [|[|n] IH]; intros s Es Ep.
  1,2: eapply (ends_step (Polls p)); [done|by apply polls_at_rest|]; unfold poll; rewrite Ep; apply ends_refl.
  eapply (ends_step (Polls p)); [done|by apply polls_at_rest|]. unfold poll. rewrite Ep.
  replace (release f p s) with (release f p (set_piece p (LetsGo f (S n)) s)) by (unfold release; by rewrite piece_ended).
  apply IH; [done|]. apply lookup_insert_eq.
Qed.

Lemma work_over f p ph s : h_stack s = [] -> h_pieces s !! p = Some ph -> sets_flag (Some ph) = true -> flag_of ph = f ->
  ends_as s (release f p s).
Proof.
  intros Es Ep Hph Hf. destruct ph as [| |g|g|g n]; try done; simpl in Hf; subst g; [|by eapply lets_go].
  eapply (ends_step (Polls p)); [done|by apply polls_at_rest|]. unfold poll. rewrite Ep.
  eapply (ends_step (PollEnds Ready)); [done|simpl; unfold poll_ends; simpl; by rewrite Ep|].
  replace (release f p s) with (release f p (set_piece p (LetsGo f LET_GO_AFTER_WAIT) s)) by (unfold release; by rewrite piece_ended).
  replace (set_work _ [] (set_stack [p] s)) with (set_piece p (LetsGo f LET_GO_AFTER_WAIT) s) by (unfold set_piece, set_work; simpl; by rewrite Es).
  eapply lets_go; [done|]. apply lookup_insert_eq.
Qed.

(** Who was handed the participant begins, and is over. *)
Lemma handed_begins p s : h_stack s = [] -> h_pieces s !! p = Some Hops \/ h_pieces s !! p = Some Waits /\ p ∈ h_given s ->
  exists s1, ends_as s s1 /\ h_pieces s1 !! p = Some (Starts Running) /\ h_stack s1 = [p] /\
    h_waiting s1 = h_waiting s /\ forall q, q <> p -> h_pieces s1 !! q = h_pieces s !! q.
Proof.
  intros Es Hp.
  assert (forall s, h_stack s = [] -> h_pieces s !! p = Some Hops ->
    exists s1, ends_as s s1 /\ h_pieces s1 !! p = Some (Starts Running) /\ h_stack s1 = [p] /\
      h_waiting s1 = h_waiting s /\ forall q, q <> p -> h_pieces s1 !! q = h_pieces s !! q) as Hhops.
  { intros s0 Es0 Ep0. eexists. split; [eapply (ends_step (Polls p)); [done|by apply polls_at_rest|apply ends_refl]|].
    unfold poll. rewrite Ep0. simpl. rewrite lookup_insert_eq, Es0. split_and!; [done..|].
    intros q Hq. by rewrite lookup_insert_ne. }
  destruct Hp as [Ep|[Ep Hg]]; [by apply Hhops|].
  destruct (Hhops (set_piece p Hops s)) as (s1 & H1 & H2 & H3 & H4 & H5); [done|apply lookup_insert_eq|].
  exists s1. split_and!; [|done..|intros q Hq; rewrite H5 by done; simpl; by rewrite lookup_insert_ne]. eapply (ends_step (Polls p)); [done|by apply polls_at_rest|]. unfold poll. by rewrite Ep, decide_True.
Qed.

Lemma ends_inv s s' : inv s -> ends_as s s' -> inv s'.
Proof. intros H (es & _ & Hr). by eapply hold_run_inv. Qed.

(** The participant is handed to [p], the first of those that wait. *)
Definition handed_on (p : nat) (rest : list nat) (s : hold) : Prop :=
  h_stack s = [] /\ h_pieces s !! p = Some Waits /\ p ∈ h_given s /\ h_waiting s = rest.

Lemma passes p rest s : core None None s -> quiet s -> h_waiting s = p :: rest -> handed_on p rest (pass_on s).
Proof.
  intros Hc [Es Hq] Hw. assert (h_pieces s !! p = Some Waits) as Ep by (apply (c_waits _ _ _ Hc); rewrite Hw; left).
  unfold pass_on, held. rewrite (c_running _ _ _ Hc), (c_acting _ _ _ Hc), (c_handed _ _ _ Hc), Hw. simpl.
  split_and!; [done..|simpl; set_solver|done].
Qed.

Lemma turn_over_passes p rest q ph s : core (Some q) None s -> quiet s -> h_pieces s !! q = Some ph -> sets_flag (Some ph) = true ->
  h_waiting s = p :: rest -> exists s', ends_as s s' /\ handed_on p rest s'.
Proof.
  intros Hc [Es Hq] Eq Hph Hw. assert (handed_to (Some ph) = false) as Hh by by destruct ph.
  destruct (c_owner _ _ _ Hc q ph eq_refl Eq) as [Hf _].
  exists (release Running q s). split; [by eapply work_over|]. apply passes; [by eapply core_turn_over| |done].
  split; [done|]. simpl. intros r f [_ E]%lookup_delete_Some. by destruct (Hq r f).
Qed.

Lemma owner_passes p rest o s : inv s -> alive s -> core o None s -> quiet s -> h_waiting s = p :: rest -> o <> None ->
  exists s', ends_as s s' /\ handed_on p rest s'.
Proof.
  intros Hs [Ha _] Hc [Es Hq] Hw Ho. destruct o as [q|]; [|done].
  destruct (sets_flag (h_pieces s !! q)) eqn:Esets.
  { destruct (h_pieces s !! q) as [ph|] eqn:Eq; [|done]. by eapply turn_over_passes. }
  assert (h_handed s = true) as Hh.
  { rewrite (c_handed _ _ _ Hc). destruct (h_pieces s !! q) as [[| |f|f|f n]|] eqn:Eq; try done. by destruct (Hq q f). }
  destruct (Ha Hh) as (r & Hr). assert (r = q) as ->.
  { destruct Hr as [E|[E Hg]]; pose proof (c_place _ _ _ Hc r _ E) as H; simpl in H; [|rewrite decide_True in H by done]; by injection H. }
  destruct (handed_begins q s Es Hr) as (s1 & H1 & E1 & Es1 & Hw1 & Hne).
  pose (s2 := set_held Running true (set_work (<[q := LetsGo Running LET_GO_AFTER_START]> (h_pieces s1)) [] s1)).
  assert (ends_as s s2) as H2.
  { eapply ends_trans; [exact H1|]. apply (ends_step (PollEnds Ready) _ s2); [done| |apply ends_refl].
    simpl. unfold poll_ends. by rewrite Es1, E1. }
  destruct (ends_inv _ _ Hs H2) as (o2 & a2 & Hc2 & Hk2 & _).
  assert (h_pieces s2 !! q = Some (LetsGo Running LET_GO_AFTER_START)) as E2 by apply lookup_insert_eq.
  pose proof (c_place _ _ _ Hc2 q _ E2) as Ho2. simpl in Ho2. subst o2.
  assert (a2 = None) as ->.
  { destruct a2 as [b|]; [|done]. destruct (c_actor _ _ _ Hc2 b eq_refl) as (ph & Eb & Hf).
    destruct (decide (b = q)) as [->|Hb]; [rewrite E2 in Eb; by injection Eb as <-|].
    unfold s2 in Eb. simpl in Eb. rewrite lookup_insert_ne, Hne in Eb by done. pose proof (c_place _ _ _ Hc b ph Eb) as H.
    by destruct ph as [| |[]|[]|[]]. }
  destruct (turn_over_passes p rest q (LetsGo Running LET_GO_AFTER_START) s2 Hc2) as (s' & H' & Hon); [by eapply at_rest_quiet|exact E2|done|simpl; congruence|].
  exists s'. split; [by eapply ends_trans|done].
Qed.

(** Whoever waits has its turn: where no work is dropped, as its executor drops none, polls alone, as
    the work that has the participant comes to its end, bring the first that waits to begin, and nobody
    before it. *)
Theorem first_that_waits_begins es s p rest : run es default_hold = Some s -> forallb stays es = true ->
  h_stack s = [] -> h_waiting s = p :: rest ->
  exists s', ends_as s s' /\ h_pieces s' !! p = Some (Starts Running) /\ h_waiting s' = rest.
Proof.
  intros Hr Hst Es Hw. pose proof (hold_run_inv _ _ _ default_inv Hr) as Hs.
  assert (alive s) as Ha.
  { assert (alive default_hold) as Hd by (split; simpl; [done|set_solver]). pose proof default_inv as Hi. revert Hd Hi Hr Hst. generalize default_hold.
    induction es as [|e es IH]; intros s0 Hd Hi Hr0 Hst0; simpl in *; [by injection Hr0 as <-|].
    apply andb_true_iff in Hst0 as [He Hst0]. destruct (step e s0) as [s1|] eqn:E; [|done].
    by apply (IH s1); [eapply alive_step|eapply step_inv|..]. }
  assert (exists s', ends_as s s' /\ handed_on p rest s') as (s1 & H1 & Es1 & Ep1 & Hg1 & Hw1).
  { destruct Hs as (o & a & Hc & Hk & Ht). pose proof (at_rest_quiet _ _ _ Hk Es) as [_ Hq]. destruct a as [b|].
    - destruct (c_actor _ _ _ Hc b eq_refl) as (ph & Eb & Hf).
      assert (sets_flag (Some ph) = true) as Hph by (destruct ph as [| |f|f|f n]; try done; by destruct (Hq b f)).
      pose (s1 := set_held Acting false (ended b s)).
      assert (core o None s1) as Hc1 by (by apply core_act_over).
      assert (quiet s1) as Hq1 by (split; [done|]; simpl; intros r f [_ E]%lookup_delete_Some; by destruct (Hq r f)).
      assert (ends_as s (pass_on s1)) as H1 by (by eapply work_over).
      destruct (held s1) eqn:Eh.
      + assert (pass_on s1 = s1) as E1 by (unfold pass_on; by rewrite Eh). rewrite E1 in H1.
        destruct (owner_passes p rest o s1) as (s' & H' & Hon); try done; [|by eapply (alive_ended Acting); [exact Ha|exact Eb|destruct ph]| |].
        * rewrite <- E1. by eapply quiet_pass_on.
        * intros ->. unfold held in Eh. by rewrite (c_running _ _ _ Hc1), (c_acting _ _ _ Hc1), (c_handed _ _ _ Hc1) in Eh.
        * exists s'. split; [by eapply ends_trans|done].
      + destruct (holds _ _ _ Hc1 (proj2 Hq1) Eh) as [-> _]. exists (pass_on s1). split; [done|]. by apply passes.
    - apply (owner_passes p rest o s); try done; [by exists o, None|]. destruct Ht; [by rewrite Hw|done|done]. }
  destruct (handed_begins p s1 Es1) as (s' & H' & E' & _ & Hw' & _); [by right|].
  exists s'. split_and!; [by eapply ends_trans|done|congruence].
Qed.

(** ** An execution, and work that is dropped *)

(** A step runs and starts a delivery; two operations come to wait, and a pass that moves on. *)
Definition busy : list event :=
  [TryExclusive; PollEnds Pending; Exclusive; Exclusive; TryExclusive; Polls 0; Acts; PollEnds Pending; PollEnds Ready].

Definition busy_hold : hold :=
  MkHold true true false [1; 2] ∅ (<[3 := Works Acting]> (<[0 := LetsGo Running 2]> (<[2 := Waits]> {[1 := Waits]}))) [] {[0]} 4 [1; 2] [].
Example busy_runs : run busy default_hold = Some busy_hold.
Proof. vm_compute. reflexivity. Qed.

Lemma one_holds_it_at_a_time_witness : run busy default_hold = Some busy_hold /\
  (at_work Running busy_hold 0 /\ forall f p q, at_work f busy_hold p -> at_work f busy_hold q -> p = q).
Proof.
  split; [exact busy_runs|]. split; [by exists (LetsGo Running 2)|].
  exact (proj1 (one_holds_it_at_a_time busy busy_hold busy_runs)).
Defined.

Lemma first_come_first_served_witness : run busy default_hold = Some busy_hold /\ (h_waiting busy_hold = [1; 2] /\ held busy_hold = true).
Proof.
  split; [exact busy_runs|]. split; [done|].
  destruct (first_come_first_served busy busy_hold busy_runs) as (_ & _ & H). by apply H.
Defined.

Lemma first_that_waits_begins_witness : run busy default_hold = Some busy_hold /\
  exists s', ends_as busy_hold s' /\ h_pieces s' !! 1 = Some (Starts Running) /\ h_waiting s' = [2].
Proof.
  split; [exact busy_runs|].
  exact (first_that_waits_begins busy busy_hold 1 [2] busy_runs eq_refl eq_refl eq_refl).
Defined.

(** The comment on [Waiting] says that one that goes away before it runs leaves the queue, or passes on
    the turn it was given. One that is dropped in the turn between its wait and its work does neither: the
    flag [handed] stays, and the participant is held for good. *)
Definition dropped_between : list event :=
  [TryExclusive; PollEnds Pending; Exclusive; Polls 0; PollEnds Ready; Polls 0; Polls 0; Polls 1; GoesAway 1].
Definition stranded (s : hold) : Prop :=
  h_handed s = true /\ h_stack s = [] /\ (forall p ph, h_pieces s !! p = Some ph -> ph = Waits /\ p ∉ h_given s) /\
  forall p, p ∈ h_given s -> p < h_next s.

Lemma stranded_step e s s' : stranded s -> step e s = Some s' -> stranded s'.
Proof.
  intros (Hh & Es & Hp & Hg) Hs. assert (held s = true) as Hheld by (unfold held; by rewrite Hh, orb_true_r).
  destruct e as [| | |p|o|p]; simpl in Hs; unfold at_rest, acts, poll_ends in Hs; rewrite Es in Hs; try done; injection Hs as <-.
  - unfold try_exclusive. by rewrite Hheld.
  - unfold exclusive. rewrite Hheld. split_and!; [done..| |intros p H; simpl; specialize (Hg p H); lia].
    simpl. intros p ph [[<- <-]|[_ E]]%lookup_insert_Some; [|by apply Hp]. split; [done|]. intros H. specialize (Hg _ H). lia.
  - unfold poll. destruct (h_pieces s !! p) as [ph|] eqn:E; [|done]. destruct (Hp p ph E) as [-> Hng]. by rewrite decide_False.
  - unfold drop_work. destruct (h_pieces s !! p) as [ph|] eqn:E; [|done]. destruct (Hp p ph E) as [-> Hng]. rewrite decide_False by done.
    split_and!; [done..| |done]. simpl. intros q ph [_ Eq]%lookup_delete_Some. by apply Hp.
Qed.

(** The finding: after such a drop nothing begins for the participant, whatever comes. *)
Theorem drop_between_turns_holds_for_good : exists s, run dropped_between default_hold = Some s /\ h_pieces s = ∅ /\
  forall es s', run es s = Some s' -> held s' = true /\ forall f p, ~ at_work f s' p.
Proof.
  destruct (run dropped_between default_hold) as [s|] eqn:E; [|by vm_compute in E].
  assert (h_handed s = true /\ h_stack s = [] /\ h_pieces s = ∅ /\ h_given s = {[1]} /\ h_next s = 2) as (H1 & H2 & H3 & H4 & H5).
  { vm_compute in E. injection E as <-. done. }
  exists s. split_and!; [done|done|].
  assert (stranded s) as Hs by (split_and!; [done|done|intros p ph Ep; by rewrite H3 in Ep|rewrite H4, H5; intros p ->%elem_of_singleton; lia]).
  clear - Hs. intros es. revert s Hs. induction es as [|e es IH]; intros s Hs s' Hr; simpl in Hr.
  - injection Hr as <-. destruct Hs as (Hh & _ & Hp & _). split; [unfold held; by rewrite Hh, orb_true_r|].
    intros f p (ph & E & Hph & _). by destruct (Hp p ph E) as [-> _].
  - destruct (step e s) as [s1|] eqn:E; [|done]. by apply (IH s1); [eapply stranded_step|].
Qed.
