(* ===== verification/ProcessTree.v ===== *)
(** * The processes of a pane: [cf-panes/src/process_tree.rs], [process_tree/bound.rs], [selection.rs]

    On a Mac a pane's processes are found in the system's table: the pane's program, what descends from
    it by the process each was started by, what is in its session, and what carries the pane's marker
    ([select]). A choice can be wrong, so every signal passes a check of its own ([Bound]), which
    allows the program, what is under it, what is in the session it leads, and what was seen so at a
    look before. The system is asked through [System], as in the source: what it answers, and what it
    does meanwhile, is left open. *)
From S2P Require Import Prelude.
#[local] Open Scope Z_scope.

(** [Identity]: the number, when it began, and the identifier the system gives no other process. *)
Record Identity := MkIdentity { pid : Z; born : Z * Z; unique : Z }.
#[export] Instance identity_eq_dec : EqDecision Identity.
Proof. solve_decision. Defined.

Record Process := MkProcess {
  identity : Identity;
  parent : Z;
  group : Z;
  session : option Z;
  name : string
}.

(** [crate::background::ProcessKey], and [key_of]. *)
Record ProcessKey := MkKey { key_pid : Z; began : Z }.
#[export] Instance process_key_eq_dec : EqDecision ProcessKey.
Proof. solve_decision. Defined.
Definition key_of (i : Identity) : ProcessKey := MkKey (Z.abs (pid i)) (fst (born i) * 1000000 + snd (born i)).

Record Member := MkMember {
  m_key : ProcessKey; m_command : string; m_program : string; m_exe : string; m_group : option Z; m_parent : option ProcessKey
}.
Record PossiblyLeft := MkLeft { l_pid : Z; l_program : string }.

Module Looked.
Inductive t := Readable | Ended | Unreadable | Changed.
End Looked.

Definition SIGHUP : Z := 1.
Definition SIGKILL : Z := 9.
Definition SIGTERM : Z := 15.
Definition SIGSTOP : Z := 17.

(** A system call that failed, a group that is none, a tree that goes on growing. *)
Inductive Error := Os (code : Z) | InvalidInput (group : Z) | NotStable.

(** The trait [System], with what the tree reads of a process apart from it ([native]), and the order a
    [HashMap]'s values come in, which is any. [W] is the system; each call finds it as it is then. *)
Class System (W : Type) := {
  processes : W -> (list Process + Error) * W;
  runs : ProcessKey -> W -> bool * W;
  children : Z -> W -> (list Z + Error) * W;
  looked : Z -> W -> Looked.t * W;
  send : Identity -> Z -> W -> option Error * W;
  send_group : Z -> Z -> W -> option Error * W;
  carries : Z -> string -> W -> bool * W;
  nobody_holds : Z -> W -> bool * W;
  has_marker : Z -> string -> W -> bool * W;
  command_of : Z -> W -> option string * W;
  exe_of : Z -> W -> string * W;
  values : gmap Z Identity -> list Identity;
  values_are : forall m, values m ≡ₚ (map_to_list m).*2
}.

(** ** The bound *)

(** [Table]: by the identifier, the last of two that have one. *)
Definition by_identifier (table : list Process) : gmap Z Process :=
  fold_left (fun m p => <[unique (identity p) := p]> m) table ∅.

(** [Bound], but for what it saw, which its clones share ([seen]). *)
Record Bound := MkBound { program : option Identity; bound_session : option Z }.

(** What is signalled: a process, or a group whole; with what the tree had looked at by then. *)
Inductive signalled :=
| One (looks : list (list Process)) (to : Identity) (signal : Z)
| Whole (looks : list (list Process)) (group signal : Z).

(** The state: the system, what the bound has seen; the looks it was shown, the latest first, and the
    signals sent, which are its account. *)
Record world (W : Type) := World { sys : W; seen : gset Z; looks : list (list Process); sent : list signalled }.
#[global] Arguments World {_}. #[global] Arguments sys {_}. #[global] Arguments seen {_}. #[global] Arguments looks {_}. #[global] Arguments sent {_}.

Definition M (W A : Type) : Type := world W -> A * world W.
#[export] Instance M_ret {W} : MRet (M W) := fun _ a w => (a, w).
#[export] Instance M_bind {W} : MBind (M W) := fun _ _ k m w => let '(a, w') := m w in k a w'.

(** A call of the system. *)
Definition ask {W A} (call : W -> A * W) : M W A :=
  fun w => let '(a, s) := call (sys w) in (a, World s (seen w) (looks w) (sent w)).

Definition filterM {W A} (keep : A -> M W bool) : list A -> M W (list A) :=
  fix go l := match l with
              | [] => mret []
              | x :: l => k ← keep x; l' ← go l; mret (if k : bool then x :: l' else l')
              end.
Definition mapM_ {W A B} (f : A -> M W B) : list A -> M W (list B) :=
  fix go l := match l with [] => mret [] | x :: l => y ← f x; ys ← go l; mret (y :: ys) end.
Definition foldM {W A B} (f : B -> A -> M W B) : B -> list A -> M W B :=
  fix go b l := match l with [] => mret b | x :: l => b ← f b x; go b l end.

Section Bounds.
Context {W : Type} `{System W} (b : Bound).

(** [Bound::led_session] *)
Definition led_session (table : list Process) : option Z :=
  program ← program b;
  let leads := match by_identifier table !! unique program with
               | Some p => bool_decide (identity p = program) && bool_decide (session p = Some (pid program))
               | None => bool_decide (bound_session b = Some (pid program)) &&
                         negb (existsb (fun p => pid (identity p) =? pid program) table)
               end in
  if leads : bool then Some (pid program) else None.

(** [Bound::leads] *)
Definition leads (table : list Process) (g : Z) : bool :=
  match program b with
  | None => false
  | Some program =>
      (pid program =? g) &&
      match by_identifier table !! unique program with
      | Some p => bool_decide (identity p = program) && (group p =? g)
      | None => false
      end
  end.

(** [Bound::under]: the walk up, of as many steps as there are processes and one. *)
Definition known (seen : gset Z) (identifier : Z) : bool :=
  bool_decide (Some identifier = unique <$> program b) || bool_decide (identifier ∈ seen).
Definition in_session (led : option Z) (p : Process) : bool :=
  match led with Some s => bool_decide (session p = Some s) | None => false end.
Definition settled (seen : gset Z) (led : option Z) (p : Process) : bool :=
  known seen (unique (identity p)) || known seen (parent p) || in_session led p.

Fixpoint walk (steps : nat) (table : list Process) (seen : gset Z) (led : option Z) (p : Process) : bool :=
  match steps with
  | O => false
  | S steps =>
      settled seen led p ||
      match by_identifier table !! parent p with
      | Some q => walk steps table seen led q
      | None => false
      end
  end.
Definition under (table : list Process) (seen : gset Z) (led : option Z) (p : Process) : bool :=
  walk (S (size (by_identifier table))) table seen led p.

(** [Bound::observe] *)
Definition observe (table : list Process) : M W unit := fun w =>
  let led := led_session table in
  let now := list_to_set (map (fun p => unique (identity p)) (List.filter (under table (seen w) led) table)) in
  (tt, World (sys w) now (table :: looks w) (sent w)).

(** [Bound::allows] *)
Definition allows (table : list Process) (target : Identity) (seen : gset Z) : bool :=
  if decide (program b = Some target) then true
  else match by_identifier table !! unique target with
       | None => bool_decide (unique target ∈ seen)
       | Some p => if decide (identity p = target) then under table seen (led_session table) p else false
       end.

(** [Bound::signal]: whether it was, or why it could not be sent. *)
Definition signal (table : list Process) (target : Identity) (sig : Z) : M W (bool + Error) := fun w =>
  if negb (allows table target (seen w)) then (inl false, w)
  else let '(failed, s) := send target sig (sys w) in
       (match failed with None => inl true | Some e => inr e end,
        World s (seen w) (looks w) (One (looks w) target sig :: sent w)).

Definition send_whole (g sig : Z) : M W (option Error) := fun w =>
  let '(failed, s) := send_group g sig (sys w) in
  (failed, World s (seen w) (looks w) (Whole (looks w) g sig :: sent w)).

(** [Bound::signal_group] *)
Definition bound_signal_group (table : list Process) (g sig : Z) : M W (option Error) :=
  if g <=? 1 then mret (Some (InvalidInput g))
  else if leads table g then send_whole g sig
  else foldM (fun failure p =>
         r ← signal table (identity p) sig; mret (match r with inr e => Some e | inl _ => failure end))
         None (List.filter (fun p => group p =? g) table).
End Bounds.

(** ** The tree *)

(** [ProcessTree]; its bound is made of its root and its session as the program is attached. *)
Record ProcessTree := MkTree { marker : string; root : option Identity; tree_session : option Z }.
Definition new (marker : string) : ProcessTree := MkTree marker None None.
Definition attach (read : option Process) (t : ProcessTree) : ProcessTree :=
  MkTree (marker t) (identity <$> read) (read ≫= session).
Definition bound (t : ProcessTree) : Bound := MkBound (root t) (tree_session t).

Definition by_pid (l : list Identity) : gmap Z Identity := fold_left (fun m i => <[pid i := i]> m) l ∅.

Definition LOOKS : nat := 3.
Definition PASSES : nat := 16.

Inductive Readable := All (members : list Member) | Unreadable | Unsettled.
Record Asked := MkAsked { identities : list Identity; failed : bool }.

Section Trees.
Context {W : Type} `{System W} (t : ProcessTree).

(** [ProcessTree::carries_marker]; born times compare as pairs. *)
Definition born_before (a b : Z * Z) : bool := (fst a <? fst b) || ((fst a =? fst b) && (snd a <? snd b)).
Definition carries_marker (p : Process) : M W bool :=
  if match root t with Some r => negb (born_before (born (identity p)) (born r)) | None => true end
  then ask (has_marker (pid (identity p)) (marker t)) else mret false.

(** The session, while its number is nobody else's. *)
Definition own_session (snapshot : list Process) : option Z :=
  s ← tree_session t;
  match find (fun p => pid (identity p) =? s) snapshot with
  | None => Some s
  | Some holder => if decide (Some (identity holder) = root t) then Some s else None
  end.

(** Whether a process is one to begin with; the marker is read only of one that is by nothing else. *)
Definition chosen_by_place (session_ : option Z) (owned : gmap Z Identity) (p : Process) : bool :=
  bool_decide (root t = Some (identity p)) ||
  bool_decide (Some (parent p) = unique <$> root t) ||
  in_session session_ p ||
  bool_decide (owned !! pid (identity p) = Some (identity p)).
Definition begins (session_ : option Z) (owned : gmap Z Identity) (p : Process) : M W bool :=
  if chosen_by_place session_ owned p then mret true else carries_marker p.

(** One turn of [descendants]: in the table's order, each that descends from one selected by then. *)
Definition descend (parents : gset Z) (selected : gmap Z Identity) (p : Process) : gmap Z Identity :=
  if bool_decide (parent p ∈ parents) || existsb (fun i => unique i =? parent p) (map_to_list selected).*2
  then <[pid (identity p) := identity p]> selected else selected.
Fixpoint descendants (turns : nat) (snapshot : list Process) (parents : gset Z) (selected : gmap Z Identity) : gmap Z Identity :=
  match turns with
  | O => selected
  | S turns =>
      let after := fold_left (descend parents) snapshot selected in
      if (size after =? size selected)%nat then after else descendants turns snapshot parents after
  end.

(** [ProcessTree::select] *)
Definition select (snapshot : list Process) (owned : gmap Z Identity) : M W (gmap Z Identity) :=
  chosen ← filterM (begins (own_session snapshot) owned) snapshot;
  let parents : gset Z := list_to_set (unique <$> (map_to_list owned).*2) in
  mret (descendants (S (length snapshot)) snapshot parents (by_pid (identity <$> chosen))).

(** [ProcessTree::members_in] *)
Definition held_in (snapshot : list Process) (tree : gmap Z Identity) : list Process :=
  List.filter (fun p => bool_decide (tree !! pid (identity p) = Some (identity p))) snapshot.
Definition keys_of (held : list Process) : gmap Z ProcessKey :=
  fold_left (fun m p => <[unique (identity p) := key_of (identity p)]> m) held ∅.
Definition member (keys : gmap Z ProcessKey) (p : Process) : M W Member :=
  command ← ask (command_of (pid (identity p)));
  exe ← ask (exe_of (pid (identity p)));
  mret (MkMember (key_of (identity p)) (default (name p) command) (name p) exe (Some (group p)) (keys !! parent p)).
Definition members_in (snapshot : list Process) (tree : gmap Z Identity) : M W (list Member) :=
  let held := held_in snapshot tree in mapM_ (member (keys_of held)) held.

(** A look: the system's processes, which the bound is shown. *)
Definition look {A} (k : list Process -> M W A) (failed : Error -> A) : M W A :=
  r ← ask processes;
  match r with
  | inl snapshot => observe (bound t) snapshot;; k snapshot
  | inr e => mret (failed e)
  end.

(** [ProcessTree::members_by], [ProcessTree::holds_by] *)
Definition members_by : M W (list Member + Error) :=
  look (fun snapshot => tree ← select snapshot ∅; ms ← members_in snapshot tree; mret (inl ms)) inr.
Definition holds_by (n : Z) : M W (bool + Error) :=
  r ← members_by;
  mret (match r with inl ms => inl (existsb (fun m => key_pid (m_key m) =? n) ms) | inr e => inr e end).

(** [ProcessTree::possibly_left_by]: each reading is made only of those that passed the one before. *)
Definition left_behind (table : list Process) (r : Identity) (p : Process) : M W bool :=
  if born_before (born (identity p)) (born r) then mret false else
  match session p with
  | None => mret false
  | Some s =>
      if s <=? 1 then mret false else
      nobody ← ask (nobody_holds s);
      if negb nobody then mret false else
      allowed ← (fun w => (allows (bound t) table (identity p) (seen w), w));
      if allowed : bool then mret false else
      marked ← ask (carries (pid (identity p)) (marker t));
      if negb marked then mret false else ask (runs (key_of (identity p)))
  end.
Definition possibly_left_by : M W (list PossiblyLeft) :=
  match root t with
  | None => mret []
  | Some r =>
      read ← ask processes;
      match read with
      | inr _ => mret []
      | inl snapshot =>
          left ← filterM (left_behind snapshot r) snapshot;
          mret (map (fun p => MkLeft (Z.abs (pid (identity p))) (name p)) left)
      end
  end.
End Trees.

(** ** What a close does *)

Section Close.
Context {W : Type} `{System W} (t : ProcessTree).

Definition allowed (table : list Process) (i : Identity) : M W bool := fun w => (allows (bound t) table i (seen w), w).

(** [ProcessTree::closing_by] *)
Definition closing_by : M W (list ProcessKey + Error) :=
  look t (fun snapshot =>
    chosen ← select t snapshot ∅;
    ending ← filterM (fun p => allowed snapshot (identity p))
               (List.filter (fun p => bool_decide (is_Some (chosen !! pid (identity p)))) snapshot);
    mret (inl (map (fun p => key_of (identity p)) ending))) inr.

(** A look of [ProcessTree::readable_members_by] at the children of each process of the tree: whether one
    was born since, none where one is not to be read. *)
Definition child_read (tree : gmap Z Identity) (born : bool) (child : Z) : M W (bool + Readable) :=
  if bool_decide (is_Some (tree !! child)) then mret (inl born) else
  l ← ask (looked child);
  mret (match l with
        | Looked.Unreadable => inr Unreadable
        | Looked.Readable | Looked.Changed => inl true
        | Looked.Ended => inl born
        end).
Fixpoint children_read (tree : gmap Z Identity) (born : bool) (l : list Z) : M W (bool + Readable) :=
  match l with
  | [] => mret (inl born)
  | child :: l => r ← child_read tree born child; match r with inl born => children_read tree born l | inr r => mret (inr r) end
  end.
Fixpoint parents_read (tree : gmap Z Identity) (born : bool) (parents : list Z) : M W (bool + (Readable + Error)) :=
  match parents with
  | [] => mret (inl born)
  | p :: parents =>
      cs ← ask (children p);
      match cs with
      | inr e => mret (inr (inr e))
      | inl cs =>
          r ← children_read tree born cs;
          match r with inl born => parents_read tree born parents | inr r => mret (inr (inl r)) end
      end
  end.

(** [ProcessTree::readable_members_by]; a map's keys are the numbers of its values. *)
Fixpoint readable_looks (n : nat) (r : Identity) : M W (Readable + Error) :=
  match n with
  | O => mret (inl Unsettled)
  | S n =>
      read ← ask processes;
      match read with
      | inr e => mret (inr e)
      | inl snapshot =>
          observe (bound t) snapshot;;
          tree ← select t snapshot ∅;
          born ← parents_read tree false (pid r :: map pid (values tree));
          match born with
          | inl true => readable_looks n r
          | inl false => ms ← members_in snapshot tree; mret (inl (All ms))
          | inr stop => mret stop
          end
      end
  end.
Definition readable_members_by : M W (Readable + Error) :=
  match root t with None => mret (inl Unsettled) | Some r => readable_looks LOOKS r end.

(** [ProcessTree::ask_by]: TERM to each, then HUP to each that was asked. *)
Definition ask_one (table : list Process) (acc : list Identity * bool) (i : Identity) : M W (list Identity * bool) :=
  r ← signal (bound t) table i SIGTERM;
  mret (match r with
        | inl false => acc
        | inl true => (fst acc ++ [i], snd acc)
        | inr _ => (fst acc ++ [i], true)
        end).
Definition hang_up (table : list Process) (failed : bool) (i : Identity) : M W bool :=
  r ← signal (bound t) table i SIGHUP;
  mret (failed || match r with inr _ => true | inl _ => false end).
Definition outside (snapshot : list Process) (chosen : gmap Z Identity) (g : option Z) : list Identity :=
  identity <$> List.filter (fun p => bool_decide (chosen !! pid (identity p) = Some (identity p)) &&
                                     negb (bool_decide (Some (group p) = g))) snapshot.
Definition ask_by (g : option Z) : M W (Asked + Error) :=
  look t (fun snapshot =>
    chosen ← select t snapshot ∅;
    '(asked, f) ← foldM (ask_one snapshot) ([], false) (outside snapshot chosen g);
    f ← foldM (hang_up snapshot) f asked;
    mret (inl (MkAsked asked f))) inr.

(** [ProcessTree::signal_group_by] *)
Definition signal_group_by (g sig : Z) : M W (option Error) :=
  look t (fun snapshot => bound_signal_group (bound t) snapshot g sig) Some.

(** [ProcessTree::force_by]: what a pass keeps for the next. *)
Record forcing := MkForcing {
  known_parents : gmap Z Identity;
  frozen : gmap Z Identity;
  refused : gmap Z Identity;
  failure : option Error;
  last_look : list Process
}.

(** The stop of one process: refused, or stopped, as one that could not be sent is taken to be. *)
Definition stop_one (table : list Process) (acc : gmap Z Identity * gmap Z Identity * option Error) (i : Identity)
  : M W (gmap Z Identity * gmap Z Identity * option Error) :=
  let '(refused, stopping, failure) := acc in
  r ← signal (bound t) table i SIGSTOP;
  mret (match r with
        | inl false => (<[pid i := i]> refused, stopping, failure)
        | inl true => (refused, <[pid i := i]> stopping, failure)
        | inr e => (refused, <[pid i := i]> stopping, Some e)
        end).

Definition fresh_of (chosen : gmap Z Identity) (f : forcing) : gmap Z Identity :=
  base.filter (fun kv => frozen f !! kv.1 <> Some kv.2 /\ refused f !! kv.1 <> Some kv.2) chosen.

(** A pass: whether there is to be another. *)
Definition pass (last : bool) (f : forcing) : M W (bool * forcing) :=
  read ← ask processes;
  match read with
  | inr e => mret (false, MkForcing (known_parents f) (frozen f) (refused f) (Some e) (last_look f))
  | inl snapshot =>
      observe (bound t) snapshot;;
      chosen ← select t snapshot (known_parents f);
      let fresh := fresh_of chosen f in
      if bool_decide (fresh = ∅)
      then mret (false, MkForcing (known_parents f) (frozen f) (refused f) (failure f) snapshot)
      else
        '(refused, stopping, failure) ← foldM (stop_one snapshot) (refused f, ∅, failure f) (values fresh);
        mret (true, MkForcing (stopping ∪ known_parents f) (stopping ∪ frozen f) refused
                              (if last then Some NotStable else failure) snapshot)
  end.
Fixpoint passes (n : nat) (f : forcing) : M W forcing :=
  match n with
  | O => mret f
  | S n => '(more, f) ← pass (n =? 0)%nat f; if more : bool then passes n f else mret f
  end.

Definition kill_one (table : list Process) (failure : option Error) (i : Identity) : M W (option Error) :=
  r ← signal (bound t) table i SIGKILL;
  mret (match r with inr e => Some e | inl _ => failure end).

(** Who was stopped is killed, and the program last, whatever failed. *)
Definition force_by (seeds : list Identity) : M W (option Error) :=
  f ← passes PASSES (MkForcing (by_pid seeds) ∅ ∅ None []);
  failure ← foldM (kill_one (last_look f)) (failure f) (values (frozen f));
  match root t with
  | None => mret failure
  | Some r => kill_one (last_look f) failure r
  end.

(** [ProcessTree::terminate] *)
Definition terminate : M W (option Error) := force_by [].
End Close.
