(* ===== verification/ProcessBound.v ===== *)
(** * What a pane's bound lets through: the window's processes, and no other

    The walk up a table finds what is under the window's as far as the table names it, however the
    table is ([under_is_reached]); and of all that the tree does, in any order and whatever the system
    answers meanwhile, each signal goes to a process of the window's by what the looks had shown by
    then ([signals_reach_only_the_windows]). *)
From S2P Require Import Prelude ProcessTree.
#[local] Open Scope Z_scope.

(** ** The walk up a table *)

Section Walk.
Context (b : Bound) (table : list Process) (seen : gset Z) (led : option Z).

(** What is the window's at a look: what is settled so, and what is under it by the table. *)
Inductive reached : Process -> Prop :=
| ReachedHere p : settled b seen led p = true -> reached p
| ReachedUnder p q : by_identifier table !! parent p = Some q -> reached q -> reached p.

#[local] Abbreviation steps n p := (walk b n table seen led p).

Lemma walk_reached n p : steps n p = true -> reached p.
Proof.
  revert p. induction n as [|n IH]; intros p; simpl; [done|]. rewrite orb_true_iff. intros [H|H]; [by apply ReachedHere|].
  destruct (by_identifier table !! parent p) as [q|] eqn:E; [|done]. eapply ReachedUnder; eauto.
Qed.

Lemma walk_more n m p : (n <= m)%nat -> steps n p = true -> steps m p = true.
Proof.
  revert m p. induction n as [|n IH]; intros m p Hle H; [done|]. destruct m as [|m]; [lia|]. simpl in *.
  apply orb_true_iff in H as [->|H]; [done|]. apply orb_true_iff. right.
  destruct (by_identifier table !! parent p); [|done]. apply IH; [lia|done].
Qed.

(** The identifiers of a shortest walk are as many as its steps but one, and each its own. *)
Lemma shortest_walk n p : steps (S n) p = true -> steps n p = false ->
  exists ks, length ks = n /\ NoDup ks /\ forall k, k ∈ ks -> exists q j, by_identifier table !! k = Some q /\
    (j < n)%nat /\ steps (S j) q = true /\ steps j q = false.
Proof.
  revert p. induction n as [|n IH]; intros p Hs Hn; [exists []; split_and!; [done|apply NoDup_nil_2|set_solver]|].
  cbn [walk] in Hs, Hn. apply orb_false_iff in Hn as [Hp Hn]. rewrite Hp in Hs. simpl in Hs.
  destruct (by_identifier table !! parent p) as [q|] eqn:Eq; [|done].
  destruct (IH q Hs Hn) as (ks & Hlen & Hnd & Hks). exists (parent p :: ks). split_and!; [by rewrite <- Hlen| |].
  - apply NoDup_cons. split; [|done]. intros Hin. destruct (Hks _ Hin) as (q' & j & E & Hj & Hs' & Hn').
    rewrite Eq in E. injection E as <-. rewrite (walk_more (S j) n q) in Hn by (lia || done). done.
  - intros k [->|Hk]%elem_of_cons; [exists q, n; split_and!; auto; lia|].
    destruct (Hks k Hk) as (q' & j & E & Hj & H). exists q', j. split_and!; [done|lia|tauto..].
Qed.

Lemma reached_walk p : reached p -> exists n, steps n p = true.
Proof.
  induction 1 as [p Hp|p q Eq Hq [n IH]]; [exists 1%nat; simpl; by rewrite Hp|].
  exists (S n). simpl. rewrite Eq, IH. apply orb_true_r.
Qed.

Lemma least_walk n p : steps n p = true -> exists m, steps (S m) p = true /\ steps m p = false.
Proof.
  induction n as [|n IH]; [done|]. intros H. destruct (steps n p) eqn:E; [by apply IH|]. by exists n.
Qed.

(** The bound's walk of as many steps as there are processes misses nothing: a process is allowed for
    what is above it exactly where its ancestors, as far as the table names them, lead to one of the
    window's, though two processes had one identifier or were each other's parents. *)
Theorem under_is_reached p : under b table seen led p = true <-> reached p.
Proof.
  split; [by apply walk_reached|]. intros [n Hn]%reached_walk. destruct (least_walk n p Hn) as (m & Hs & Hm).
  destruct (shortest_walk m p Hs Hm) as (ks & Hlen & Hnd & Hks). unfold under. eapply walk_more; [|exact Hs].
  apply le_n_S. rewrite <- Hlen, <- (size_list_to_set (C := gset Z) ks Hnd), <- (size_dom (D := gset Z) (by_identifier table)).
  apply subseteq_size. intros k Hk%elem_of_list_to_set. destruct (Hks k Hk) as (q & j & E & _). apply elem_of_dom. by exists q.
Qed.
End Walk.

(** ** Whose the signalled are *)

(** The session a bound's program leads by a table: while it runs and leads it, or once it has gone and
    nobody has its number, if it led one. *)
Definition its_session (b : Bound) (table : list Process) (s : Z) : Prop :=
  exists i, program b = Some i /\ s = pid i /\
    ((exists p, p ∈ table /\ identity p = i /\ session p = Some s) \/
     (bound_session b = Some s /\ forall p, p ∈ table -> pid (identity p) <> s)).

(** The window's identifiers by the looks there were, the latest first: the program's; that of what was
    the window's before; of what is in its session; and of what the window's started. *)
Inductive the_windows (b : Bound) : list (list Process) -> Z -> Prop :=
| Program looks i : program b = Some i -> the_windows b looks (unique i)
| Before table looks u : the_windows b looks u -> the_windows b (table :: looks) u
| InSession table looks p s : p ∈ table -> its_session b table s -> session p = Some s ->
    the_windows b (table :: looks) (unique (identity p))
| Under table looks p : p ∈ table -> the_windows b (table :: looks) (parent p) ->
    the_windows b (table :: looks) (unique (identity p)).

(** A signal as it may be: to one of the window's; to the group that the program leads while it runs. *)
Definition proper (b : Bound) (s : signalled) : Prop :=
  match s with
  | One looks to _ => the_windows b looks (unique to)
  | Whole looks g _ => 1 < g /\ exists table before p i, looks = table :: before /\ p ∈ table /\
      program b = Some i /\ identity p = i /\ group p = g /\ pid i = g
  end.

Lemma by_identifier_app l p : by_identifier (l ++ [p]) = <[unique (identity p) := p]> (by_identifier l).
Proof. unfold by_identifier. by rewrite fold_left_app. Qed.

Lemma by_identifier_in table u p : by_identifier table !! u = Some p -> p ∈ table /\ unique (identity p) = u.
Proof.
  induction table as [|q l IH] using rev_ind; [by intros E; vm_compute in E|]. rewrite by_identifier_app.
  intros [[<- ->]|[_ H]]%lookup_insert_Some; [split; [set_solver|done]|]. apply IH in H. set_solver.
Qed.

Lemma by_identifier_none table u : by_identifier table !! u = None -> forall p, p ∈ table -> unique (identity p) <> u.
Proof.
  induction table as [|q l IH] using rev_ind; [set_solver|]. rewrite by_identifier_app.
  intros [H Hne]%lookup_insert_None p [Hp| ->%list_elem_of_singleton]%elem_of_app; [by apply IH|done].
Qed.

Lemma led_session_spec b table s : led_session b table = Some s -> its_session b table s.
Proof.
  unfold led_session. destruct (program b) as [i|] eqn:Ei; [|done]. simpl. intros H. exists i. split; [done|].
  destruct (by_identifier table !! unique i) as [p|] eqn:Ep.
  - destruct (bool_decide (identity p = i)) eqn:E1; [|done]. destruct (bool_decide (session p = _)) eqn:E2; [|done]. simpl in H. injection H as <-.
    apply bool_decide_eq_true in E1, E2. split; [done|]. left. exists p. by destruct (by_identifier_in _ _ _ Ep).
  - destruct (bool_decide _) eqn:E1; [|done]. destruct (existsb _ table) eqn:E2; [done|]. simpl in H. injection H as <-.
    apply bool_decide_eq_true in E1. split; [done|]. right. split; [done|]. intros p Hp E.
    apply Bool.not_true_iff_false in E2. apply E2, existsb_exists. exists p. split; [by apply list_elem_of_In|by apply Z.eqb_eq].
Qed.

Section Safe.
Context {W : Type} `{System W} (b : Bound).

Definition good (w : world W) : Prop :=
  (forall u, u ∈ seen w -> the_windows b (looks w) u) /\ forall s, s ∈ sent w -> proper b s.

(** The table acted on is the latest look, or none. *)
Definition current (table : list Process) (w : world W) : Prop := table = [] \/ exists before, looks w = table :: before.

(** What is settled by a look is the window's by it. *)
Lemma reached_windows table before (seen : gset Z) p : (forall u, u ∈ seen -> the_windows b (table :: before) u) -> p ∈ table ->
  reached b table seen (led_session b table) p -> the_windows b (table :: before) (unique (identity p)).
Proof.
  intros Hseen Hp Hr. revert Hp. induction Hr as [p Hs|p q Eq Hq IH]; intros Hp.
  - unfold settled, known, in_session in Hs. rewrite !orb_true_iff, !bool_decide_eq_true in Hs.
    assert (forall u, Some u = unique <$> program b -> the_windows b (table :: before) u) as Hprog.
    { intros u E. destruct (program b) as [i|] eqn:Ei; [|done]. injection E as ->. by apply Program. }
    destruct Hs as [[[E|E]|[E|E]]|E].
    + by apply Hprog.
    + by apply Hseen.
    + by apply Under, Hprog.
    + by apply Under, Hseen.
    + destruct (led_session b table) as [s|] eqn:El; [|done]. apply bool_decide_eq_true in E.
      eapply InSession; [done|by apply led_session_spec|done].
  - destruct (by_identifier_in _ _ _ Eq) as [Hin E]. apply Under; [done|]. rewrite <- E. by apply IH.
Qed.

Lemma allows_windows table target w : good w -> current table w -> allows b table target (seen w) = true ->
  the_windows b (looks w) (unique target).
Proof.
  intros [Hseen _] Hcur. unfold allows. destruct (decide _) as [E|_]; [by intros _; apply Program|].
  destruct (by_identifier table !! unique target) as [p|] eqn:Ep; [|intros Hin%bool_decide_eq_true; by apply Hseen].
  destruct (by_identifier_in _ _ _ Ep) as [Hin <-]. destruct (decide _); [|done]. intros Hu%under_is_reached.
  destruct Hcur as [->|[before El]]; [set_solver|]. rewrite El in Hseen |- *. by apply reached_windows with (seen := seen w).
Qed.

(** ** What keeps it so *)

(** A program of the tree that keeps all it sent proper, from [P] to [Q]. *)
Definition keeps {A} (P : world W -> Prop) (m : M W A) (Q : world W -> Prop) : Prop :=
  forall w, good w -> P w -> good (m w).2 /\ Q (m w).2.

Lemma keeps_mret {A} (a : A) P : keeps P (mret a) P.
Proof. by intros w. Qed.

Lemma keeps_both {A B} (m : M W A) (k : A -> M W B) P Q R : keeps P m Q -> (forall a, keeps Q (k a) R) -> keeps P (m ≫= k) R.
Proof.
  intros Hm Hk w Hw Hp. unfold mbind, M_bind. destruct (m w) as [a w1] eqn:E. destruct (Hm w Hw Hp) as [H1 H2]. rewrite E in H1, H2.
  by apply Hk.
Qed.

Lemma keeps_ask {A} (call : W -> A * W) table : keeps (current table) (ask call) (current table).
Proof. intros w Hw Hc. unfold ask. by destruct (call (sys w)). Qed.

Lemma keeps_asked {A} (call : W -> A * W) : keeps (fun _ => True) (ask call) (fun _ => True).
Proof. intros w Hw _. unfold ask. by destruct (call (sys w)). Qed.

Lemma keeps_observe table P : keeps P (observe b table) (current table).
Proof.
  intros w [Hseen Hsent] _. unfold observe. simpl. split; [split; simpl; [|done]|right; by eexists].
  intros u Hu. apply elem_of_list_to_set, list_elem_of_In, in_map_iff in Hu as (p & <- & [Hp Hu]%filter_In).
  apply under_is_reached in Hu. apply list_elem_of_In in Hp.
  apply reached_windows with (seen := seen w); [|done|done]. intros u Hin. by apply Before, Hseen.
Qed.

Lemma keeps_signal table target sig : keeps (current table) (signal b table target sig) (current table).
Proof.
  intros w Hw Hc. unfold signal. destruct (allows b table target (seen w)) eqn:Ea; simpl; [|done].
  destruct (send target sig (sys w)) as [failed s]. simpl. destruct Hw as [Hseen Hsent] eqn:E. split; [split; simpl; [done|]|done].
  intros x [->|Hx]%elem_of_cons; [|by apply Hsent]. by apply (allows_windows table).
Qed.

Lemma keeps_fold {A B} (f : B -> A -> M W B) l P : (forall b a, keeps P (f b a) P) -> forall b, keeps P (foldM f b l) P.
Proof.
  intros Hf. induction l as [|a l IH]; intros b0; simpl; [apply keeps_mret|]. eapply keeps_both; [apply Hf|]. intros b1. apply IH.
Qed.

Lemma keeps_filter {A} (f : A -> M W bool) l P : (forall a, keeps P (f a) P) -> keeps P (filterM f l) P.
Proof.
  intros Hf. induction l as [|a l IH]; simpl; [apply keeps_mret|]. eapply keeps_both; [apply Hf|]. intros k.
  eapply keeps_both; [exact IH|]. intros l'. apply keeps_mret.
Qed.

Lemma keeps_map {A B} (f : A -> M W B) l P : (forall a, keeps P (f a) P) -> keeps P (mapM_ f l) P.
Proof.
  intros Hf. induction l as [|a l IH]; simpl; [apply keeps_mret|]. eapply keeps_both; [apply Hf|]. intros k.
  eapply keeps_both; [exact IH|]. intros l'. apply keeps_mret.
Qed.

Lemma keeps_any {A} (m : M W A) P Q : keeps P m Q -> keeps P m (fun _ => True).
Proof. intros Hm w Hw Hp. by destruct (Hm w Hw Hp). Qed.

Lemma keeps_pre {A} (m : M W A) (P P' Q : world W -> Prop) : (forall w, P' w -> P w) -> keeps P m Q -> keeps P' m Q.
Proof. intros Hp Hm w Hw Hp'. apply Hm; auto. Qed.

(** A group is signalled whole only while the program leads it. *)
Lemma keeps_group table g sig : keeps (fun w => exists before, looks w = table :: before) (bound_signal_group b table g sig) (fun _ => True).
Proof.
  unfold bound_signal_group. destruct (g <=? 1) eqn:Eg; [by intros w|]. destruct (leads b table g) eqn:El.
  - intros w [Hseen Hsent] [before Eb]. unfold send_whole. destruct (send_group g sig (sys w)) as [failed s]. simpl.
    split; [split; simpl; [done|]|done]. intros x [->|Hx]%elem_of_cons; [|by apply Hsent]. simpl. split; [by apply Z.leb_gt|].
    unfold leads in El. destruct (program b) as [i|] eqn:Ei; [|done]. apply andb_true_iff in El as [Ep%Z.eqb_eq El].
    destruct (by_identifier table !! unique i) as [p|] eqn:E; [|done]. apply andb_true_iff in El as [E1%bool_decide_eq_true E2%Z.eqb_eq].
    destruct (by_identifier_in _ _ _ E) as [Hin _]. by exists table, before, p, i.
  - apply (keeps_pre _ (current table)); [|eapply keeps_any, keeps_fold].
    + intros w [before Eb]. right. by exists before.
    + intros f p. eapply keeps_both; [apply keeps_signal|]. intros r. apply keeps_mret.
Qed.
End Safe.

#[local] Hint Resolve keeps_mret keeps_asked keeps_ask keeps_observe keeps_signal keeps_fold keeps_filter keeps_map : core.

(** ** All the tree does *)

Section Whole.
Context {W : Type} `{System W} (t : ProcessTree).
#[local] Abbreviation anywhere := (fun _ : world W => True).

Lemma keeps_marker table p : keeps (bound t) (current table) (carries_marker t p) (current table).
Proof. unfold carries_marker. by case_match. Qed.

Lemma keeps_select table snapshot owned : keeps (bound t) (current table) (select t snapshot owned) (current table).
Proof.
  eapply keeps_both; [|intros ?; apply keeps_mret]. apply keeps_filter. intros p. unfold begins.
  case_match; [done|apply keeps_marker].
Qed.

Lemma keeps_members table snapshot tree : keeps (bound t) (current table) (members_in snapshot tree) (current table).
Proof.
  apply keeps_map. intros p. eapply keeps_both; [apply keeps_ask|]. intros command. eapply keeps_both; [apply keeps_ask|]. by intros exe.
Qed.

Lemma keeps_a_look {A} (k : list Process -> M W A) failed :
  (forall snapshot, keeps (bound t) (current snapshot) (k snapshot) anywhere) -> keeps (bound t) anywhere (look t k failed) anywhere.
Proof.
  intros Hk. eapply keeps_both; [apply keeps_asked|]. intros [snapshot|e]; [|done].
  eapply keeps_both; [apply keeps_observe|]. intros _. apply Hk.
Qed.

Lemma keeps_members_by : keeps (bound t) anywhere (members_by t) anywhere.
Proof.
  apply keeps_a_look. intros snapshot. eapply keeps_both; [apply keeps_select|]. intros tree.
  eapply keeps_both; [apply keeps_members|]. intros ms. by apply (keeps_any _ _ _ (current snapshot)).
Qed.

Lemma keeps_left_by : keeps (bound t) anywhere (possibly_left_by t) anywhere.
Proof.
  unfold possibly_left_by. destruct (root t) as [r|]; [|done]. eapply keeps_both; [apply keeps_asked|]. intros [snapshot|e]; [|done].
  apply (keeps_both _ _ _ _ anywhere); [|intros left; apply keeps_mret]. apply keeps_filter. intros p. unfold left_behind. case_match; [done|].
  destruct (session p) as [s|]; [|done]. case_match; [done|]. eapply keeps_both; [apply keeps_asked|]. intros nobody.
  case_match; [done|]. apply (keeps_both _ _ _ _ anywhere); [by intros w|]. intros ok. case_match; [done|].
  eapply keeps_both; [apply keeps_asked|]. intros marked. case_match; [done|apply keeps_asked].
Qed.

Lemma keeps_closing_by : keeps (bound t) anywhere (closing_by t) anywhere.
Proof.
  apply keeps_a_look. intros snapshot. eapply keeps_both; [apply keeps_select|]. intros chosen.
  eapply keeps_both; [apply keeps_filter; by intros p w|]. intros ending. by apply (keeps_any _ _ _ (current snapshot)).
Qed.

Lemma keeps_children tree born l P : (forall {A} (call : W -> A * W), keeps (bound t) P (ask call) P) ->
  keeps (bound t) P (children_read tree born l) P.
Proof.
  intros Hask. revert born. induction l as [|c l IH]; intros born; [apply keeps_mret|]. eapply keeps_both.
  - unfold child_read. case_match; [done|]. eapply keeps_both; [apply Hask|]. by intros [].
  - intros [b|]; [apply IH|done].
Qed.

Lemma keeps_parents tree table born l : keeps (bound t) (current table) (parents_read tree born l) (current table).
Proof.
  revert born. induction l as [|p l IH]; intros born; [apply keeps_mret|]. eapply keeps_both; [apply keeps_ask|].
  intros [cs|e]; [|done]. eapply keeps_both; [apply keeps_children; intros; apply keeps_ask|]. intros [b|r]; [apply IH|done].
Qed.

Lemma keeps_readable n r : keeps (bound t) anywhere (readable_looks t n r) anywhere.
Proof.
  induction n as [|n IH]; [done|]. eapply keeps_both; [apply keeps_asked|]. intros [snapshot|e]; [|done].
  eapply keeps_both; [apply keeps_observe|]. intros _. eapply keeps_both; [apply keeps_select|]. intros tree.
  eapply keeps_both; [apply keeps_parents|]. intros [[|]|stop].
  - by eapply keeps_pre; [|exact IH].
  - eapply keeps_both; [apply keeps_members|]. intros ms. by apply (keeps_any _ _ _ (current snapshot)).
  - by apply (keeps_any _ _ _ (current snapshot)).
Qed.

Lemma keeps_ask_by g : keeps (bound t) anywhere (ask_by t g) anywhere.
Proof.
  apply keeps_a_look. intros snapshot. eapply keeps_both; [apply keeps_select|]. intros chosen.
  eapply (keeps_both _ _ _ _ (current snapshot)).
  - apply keeps_fold. intros acc i. eapply keeps_both; [apply keeps_signal|]. by intros r.
  - intros [asked f]. eapply (keeps_both _ _ _ _ (current snapshot)).
    + apply keeps_fold. intros acc i. eapply keeps_both; [apply keeps_signal|]. by intros r.
    + intros f'. by apply (keeps_any _ _ _ (current snapshot)).
Qed.

(** A look kept for later is the latest one. *)
Definition latest (f : forcing) (w : world W) : Prop := current (last_look f) w.

(** What a program gives, with the state it leaves. *)
Definition yields {A} (P : world W -> Prop) (m : M W A) (Q : A -> world W -> Prop) : Prop :=
  forall w, good (bound t) w -> P w -> good (bound t) (m w).2 /\ Q (m w).1 (m w).2.

Lemma yields_bind {A B} (m : M W A) (k : A -> M W B) P (Q : A -> world W -> Prop) R :
  yields P m Q -> (forall a, yields (Q a) (k a) R) -> yields P (m ≫= k) R.
Proof.
  intros Hm Hk w Hw Hp. unfold mbind, M_bind. destruct (m w) as [a w1] eqn:E. destruct (Hm w Hw Hp) as [H1 H2]. rewrite E in H1, H2.
  by apply Hk.
Qed.

Lemma keeps_yields {A} (m : M W A) P Q : keeps (bound t) P m Q -> yields P m (fun _ => Q).
Proof. done. Qed.

Lemma pass_yields last f : yields (latest f) (pass t last f) (fun r => latest r.2).
Proof.
  eapply yields_bind; [apply keeps_yields, keeps_ask|]. intros [snapshot|e]; [|by intros w].
  eapply yields_bind; [apply keeps_yields, keeps_observe|]. intros ?.
  eapply yields_bind; [apply keeps_yields, keeps_select|]. intros chosen. cbv zeta. case_match; [by intros w|].
  eapply yields_bind.
  - apply keeps_yields, keeps_fold. intros [[refused stopping] failure] i. eapply keeps_both; [apply keeps_signal|]. by intros r.
  - intros [[refused stopping] failure]. by intros w.
Qed.

Lemma passes_yields n f : yields (latest f) (passes t n f) latest.
Proof.
  revert f. induction n as [|n IH]; intros f; [by intros w|]. eapply yields_bind; [apply pass_yields|].
  intros [[|] f']; [apply IH|by intros w].
Qed.

Lemma keeps_force seeds : keeps (bound t) anywhere (force_by t seeds) anywhere.
Proof.
  assert (yields anywhere (force_by t seeds) (fun _ => anywhere)) as H'; [|exact H'].
  eapply yields_bind; [|intros f].
  - intros w Hw _. by apply passes_yields; [|left].
  - assert (forall failure i, keeps (bound t) (latest f) (kill_one t (last_look f) failure i) (latest f)) as Hkill.
    { intros failure i. eapply keeps_both; [apply keeps_signal|]. by intros r. }
    eapply yields_bind; [by apply keeps_yields, keeps_fold|]. intros failure. apply keeps_yields.
    destruct (root t); [|by intros w]. by eapply keeps_any.
Qed.

(** Anything that is done of a tree. *)
Inductive act :=
| Members | Holds (n : Z) | PossiblyLefts | ReadableMembers | Closing | AskToExit (g : option Z) | SignalGroup (g sig : Z)
| Force (seeds : list Identity).

Definition do_act (a : act) : M W unit :=
  match a with
  | Members => members_by t;; mret tt
  | Holds n => holds_by t n;; mret tt
  | PossiblyLefts => possibly_left_by t;; mret tt
  | ReadableMembers => readable_members_by t;; mret tt
  | Closing => closing_by t;; mret tt
  | AskToExit g => ask_by t g;; mret tt
  | SignalGroup g sig => signal_group_by t g sig;; mret tt
  | Force seeds => force_by t seeds;; mret tt
  end.
Definition do_all (acts : list act) : M W unit := mapM_ do_act acts;; mret tt.

Lemma keeps_do_act a : keeps (bound t) anywhere (do_act a) anywhere.
Proof.
  assert (forall A (m : M W A), keeps (bound t) anywhere m anywhere -> keeps (bound t) anywhere (m;; mret tt) anywhere) as Hdo.
  { intros A m Hm. eapply keeps_both; [exact Hm|]. by intros ? w. }
  destruct a; apply Hdo.
  - apply keeps_members_by.
  - eapply keeps_both; [apply keeps_members_by|]. by intros ? w.
  - apply keeps_left_by.
  - unfold readable_members_by. destruct (root t); [apply keeps_readable|by intros w].
  - apply keeps_closing_by.
  - apply keeps_ask_by.
  - eapply keeps_both; [apply keeps_asked|]. intros [snapshot|e]; [|by intros w].
    intros w Hw _. unfold mbind, M_bind. destruct (keeps_observe (bound t) snapshot anywhere w Hw I) as [H1 _].
    by apply keeps_group; [|eexists].
  - apply keeps_force.
Qed.

(** A tree whose program was just attached, in the system as it is. *)
Definition attached (s : W) : world W := World s ∅ [] [].

(** C4: whatever is done of a tree, in any order, and whatever the system answers and does meanwhile, each
    signal goes to the pane's program, to what was under it or in the session it leads by a look, or to
    what is under one that was; and a group is signalled whole only where the latest look shows the
    program run and lead it. *)
Theorem signals_reach_only_the_windows acts s :
  Forall (proper (bound t)) (sent (do_all acts (attached s)).2).
Proof.
  apply Forall_forall. assert (keeps (bound t) anywhere (do_all acts) anywhere) as Hall.
  { eapply keeps_both; [apply keeps_map, keeps_do_act|]. by intros ? w. }
  apply (Hall (attached s)); [|done]. split; simpl; set_solver.
Qed.
End Whole.
