(* ===== verification/ProcessSelection.v ===== *)
(** * What a tree selects of the system's table is the window's tree, whole

    [select] ends, and what it selects is the closure it is to be: what is the pane's by its place or by
    its marker, and all that descends from those, or from what was found before, as far as the table
    names the process each was started by ([select_is_the_whole_tree]); a look's members are named by
    it. *)
From S2P Require Import Prelude ProcessTree.
#[local] Open Scope Z_scope.

(** ** Filtering through the system *)

Section Monad.
Context {W : Type}.

Lemma filterM_cons {A} (f : A -> M W bool) x l w :
  (filterM f (x :: l) w).1 =
  let r := f x w in if r.1 then x :: (filterM f l r.2).1 else (filterM f l r.2).1.
Proof.
  change (filterM f (x :: l)) with (k ← f x; l' ← filterM f l; mret (if k : bool then x :: l' else l')).
  unfold mbind, M_bind, mret, M_ret. destruct (f x w) as [k w1]. simpl. destruct (filterM f l w1) as [l' w2]. by destruct k.
Qed.

(** Those kept are some that passed, in their order; one that always passes is kept. *)
Lemma filterM_spec {A} (f : A -> M W bool) l w :
  (filterM f l w).1 `sublist_of` l /\ forall x, x ∈ (filterM f l w).1 -> exists w', (f x w').1 = true.
Proof.
  revert w. induction l as [|x l IH]; intros w; [split; [done|set_solver]|]. rewrite filterM_cons. cbv zeta.
  destruct (IH (f x w).2) as [Hs Hin]. destruct (f x w).1 eqn:E.
  - split; [by apply sublist_skip|]. intros y [->|Hy]%elem_of_cons; [by exists w|by apply Hin].
  - split; [by apply sublist_cons|done].
Qed.

Lemma filterM_keeps {A} (f : A -> M W bool) l w x : x ∈ l -> (forall w', (f x w').1 = true) -> x ∈ (filterM f l w).1.
Proof.
  revert w. induction l as [|y l IH]; intros w Hx Hf; [set_solver|]. rewrite filterM_cons. cbv zeta.
  apply elem_of_cons in Hx as [->|Hx]; [rewrite Hf; left|]. destruct (f y w).1; [right|]; by apply IH.
Qed.
End Monad.

(** ** Maps of a table *)

Lemma by_pid_in l n i : by_pid l !! n = Some i -> i ∈ l /\ pid i = n.
Proof.
  induction l as [|j l IH] using rev_ind; [by intros E; vm_compute in E|]. unfold by_pid in *. rewrite fold_left_app. simpl.
  intros [[<- ->]|[_ H]]%lookup_insert_Some; [set_solver|]. apply IH in H. set_solver.
Qed.

Lemma by_pid_some l i : i ∈ l -> is_Some (by_pid l !! pid i).
Proof.
  induction l as [|j l IH] using rev_ind; [set_solver|]. unfold by_pid in *. rewrite fold_left_app. simpl.
  intros [Hi| ->%list_elem_of_singleton]%elem_of_app; [|by rewrite lookup_insert_eq].
  destruct (decide (pid j = pid i)) as [->|Hne]; [by rewrite lookup_insert_eq|]. rewrite lookup_insert_ne by done. by apply IH.
Qed.

Section Table.
Context (snapshot : list Process).
(** A look names no number twice. *)
Hypothesis numbers : NoDup ((fun p => pid (identity p)) <$> snapshot).

Lemma one_number p q : p ∈ snapshot -> q ∈ snapshot -> pid (identity p) = pid (identity q) -> p = q.
Proof.
  intros [i Hi]%list_elem_of_lookup [j Hj]%list_elem_of_lookup E.
  assert (i = j) as ->; [|congruence]. eapply (NoDup_lookup _ _ _ (pid (identity p)) numbers); rewrite list_lookup_fmap.
  - by rewrite Hi.
  - by rewrite Hj, E.
Qed.

(** A map of processes of the table, each at its number. *)
Definition of_table (m : gmap Z Identity) : Prop :=
  forall n i, m !! n = Some i -> exists p, p ∈ snapshot /\ identity p = i /\ pid i = n.

Lemma of_table_agree m1 m2 n i j : of_table m1 -> of_table m2 -> m1 !! n = Some i -> m2 !! n = Some j -> i = j.
Proof.
  intros H1 H2 E1 E2. destruct (H1 n i E1) as (p & Hp & <- & Ep), (H2 n j E2) as (q & Hq & <- & Eq).
  by rewrite (one_number p q Hp Hq) by congruence.
Qed.

Lemma of_table_size m : of_table m -> (size m <= length snapshot)%nat.
Proof.
  intros H. rewrite <- (size_dom (D := gset Z)).
  rewrite <- (length_fmap (fun p => pid (identity p)) snapshot), <- (size_list_to_set (C := gset Z) _ numbers).
  apply subseteq_size. intros n [i Hi]%elem_of_dom. destruct (H n i Hi) as (p & Hp & <- & <-).
  apply elem_of_list_to_set, list_elem_of_fmap. by exists p.
Qed.

(** *** Descendants *)

Context (parents : gset Z).

(** A process that a turn selects. *)
Definition drawn (m : gmap Z Identity) (p : Process) : Prop :=
  parent p ∈ parents \/ exists n i, m !! n = Some i /\ unique i = parent p.

Lemma descend_drawn m p : descend parents m p = m /\ ~ drawn m p \/ descend parents m p = <[pid (identity p) := identity p]> m /\ drawn m p.
Proof.
  unfold descend, drawn. destruct (bool_decide (parent p ∈ parents)) eqn:E1; simpl.
  { apply bool_decide_eq_true in E1. tauto. }
  apply bool_decide_eq_false in E1. destruct (existsb _ _) eqn:E2.
  - right. split; [done|]. right. apply existsb_exists in E2 as (i & Hi & Eu%Z.eqb_eq).
    apply list_elem_of_In, list_elem_of_fmap in Hi as ([n j] & -> & Hj%elem_of_map_to_list). by exists n, j.
  - left. split; [done|]. intros [H|(n & i & H & Eu)]; [done|]. apply Bool.not_true_iff_false in E2. apply E2, existsb_exists.
    exists i. split; [|by apply Z.eqb_eq]. apply list_elem_of_In, list_elem_of_fmap. exists (n, i). split; [done|]. by apply elem_of_map_to_list.
Qed.

Lemma insert_of_table m p : p ∈ snapshot -> of_table m -> of_table (<[pid (identity p) := identity p]> m) /\ m ⊆ <[pid (identity p) := identity p]> m.
Proof.
  intros Hp H. assert (of_table (<[pid (identity p) := identity p]> m)) as H'.
  { intros n i [[<- <-]|[_ E]]%lookup_insert_Some; [by exists p|by apply H]. }
  split; [done|]. apply map_subseteq_spec. intros n i E. destruct (decide (pid (identity p) = n)) as [<-|Hne].
  - rewrite lookup_insert_eq. f_equal. symmetry. eapply (of_table_agree _ _ _ _ _ H H'); [exact E|apply lookup_insert_eq].
  - by rewrite lookup_insert_ne.
Qed.

Lemma turn_grows l m : (forall p, p ∈ l -> p ∈ snapshot) -> of_table m ->
  let m' := fold_left (descend parents) l m in
  of_table m' /\ m ⊆ m' /\ forall p, p ∈ l -> drawn m p -> m' !! pid (identity p) = Some (identity p).
Proof.
  revert m. induction l as [|p l IH]; intros m Hl Hm; cbv zeta in *; [split_and!; [done|done|set_solver]|]. simpl.
  assert (of_table (descend parents m p) /\ m ⊆ descend parents m p) as [Hd Hsub].
  { destruct (descend_drawn m p) as [[-> _]|[-> _]]; [done|]. apply insert_of_table; [apply Hl; left|done]. }
  destruct (IH (descend parents m p)) as (H1 & H2 & H3); [intros q Hq; apply Hl; by right|done|].
  split_and!; [done|by etrans|]. intros q [->|Hq]%elem_of_cons Hdr.
  - eapply lookup_weaken; [|exact H2].
    destruct (descend_drawn m p) as [[_ Hn]|[-> _]]; [done|apply lookup_insert_eq].
  - apply H3; [done|]. destruct Hdr as [?|(n & i & E & Eu)]; [by left|]. right. exists n, i. split; [|done]. by eapply lookup_weaken.
Qed.

(** The turns end with all that descends. *)
Lemma descendants_closed turns m : of_table m -> (length snapshot < turns + size m)%nat ->
  let m' := descendants turns snapshot parents m in
  of_table m' /\ m ⊆ m' /\ forall p, p ∈ snapshot -> drawn m' p -> m' !! pid (identity p) = Some (identity p).
Proof.
  revert m. induction turns as [|turns IH]; intros m Hm Hlt; cbv zeta in *; simpl.
  { pose proof (of_table_size m Hm). lia. }
  destruct (turn_grows snapshot m (fun p Hp => Hp) Hm) as (H1 & H2 & H3). set (m' := fold_left _ _ _) in *.
  destruct (size m' =? size m)%nat eqn:Es.
  - apply Nat.eqb_eq in Es. assert (m = m') as E by (symmetry in Es; by apply map_subseteq_size_eq; [|lia]).
    split_and!; [done|done|]. intros p Hp Hd. apply H3; [done|]. by rewrite E.
  - apply Nat.eqb_neq in Es. pose proof (map_subseteq_size _ _ H2). destruct (IH m' H1) as (H4 & H5 & H6); [lia|].
    split_and!; [done|by etrans|done].
Qed.

(** And with nothing else. *)
Lemma descendants_only turns m (P : Process -> Prop) :
  (forall p, p ∈ snapshot -> (parent p ∈ parents \/ exists q, q ∈ snapshot /\ P q /\ unique (identity q) = parent p) -> P p) ->
  (forall n i, m !! n = Some i -> exists p, p ∈ snapshot /\ identity p = i /\ pid i = n /\ P p) ->
  forall n i, descendants turns snapshot parents m !! n = Some i -> exists p, p ∈ snapshot /\ identity p = i /\ pid i = n /\ P p.
Proof.
  intros HP. revert m. induction turns as [|turns IH]; intros m Hm; simpl; [done|].
  assert (forall l m, (forall p, p ∈ l -> p ∈ snapshot) ->
    (forall n i, m !! n = Some i -> exists p, p ∈ snapshot /\ identity p = i /\ pid i = n /\ P p) ->
    forall n i, fold_left (descend parents) l m !! n = Some i -> exists p, p ∈ snapshot /\ identity p = i /\ pid i = n /\ P p) as Hfold.
  { clear m Hm IH. induction l as [|p l IH]; intros m Hl Hm; simpl; [done|]. apply IH; [intros q Hq; apply Hl; by right|].
    destruct (descend_drawn m p) as [[-> _]|[-> Hd]]; [done|].
    intros n i [[<- <-]|[_ E]]%lookup_insert_Some; [|by apply Hm]. exists p. assert (p ∈ snapshot) as Hp by (apply Hl; left).
    split_and!; [done..|]. apply HP; [done|]. destruct Hd as [Hd|(n & i & E & Eu)]; [by left|right].
    destruct (Hm n i E) as (q & Hq & <- & _ & Hpq). by exists q. }
  case_match; [by apply Hfold|]. apply IH. by apply Hfold.
Qed.
End Table.

(** ** The selection *)

Section Selection.
Context {W : Type} `{System W} (t : ProcessTree) (snapshot : list Process) (owned : gmap Z Identity).

(** The session is the pane's: its number is nobody's in the look, or the program's. *)
Definition keeps_session (s : Z) : Prop :=
  tree_session t = Some s /\ forall q, q ∈ snapshot -> pid (identity q) = s -> root t = Some (identity q).

(** A process that is the pane's by itself: its program, one that it started, one in its session, or one
    found before. *)
Definition placed (p : Process) : Prop :=
  root t = Some (identity p) \/
  (exists r, root t = Some r /\ parent p = unique r) \/
  (exists s, keeps_session s /\ session p = Some s) \/
  owned !! pid (identity p) = Some (identity p).

(** The pane's processes of a look, [marked] those that carry its marker. *)
Inductive Selected (marked : list Process) : Process -> Prop :=
| Placed p : placed p -> Selected marked p
| Marked p : p ∈ marked -> Selected marked p
| UnderOwned p n i : owned !! n = Some i -> unique i = parent p -> Selected marked p
| UnderSelected p q : q ∈ snapshot -> Selected marked q -> unique (identity q) = parent p -> Selected marked p.

(** A process that may carry the marker: it began with the pane's program or later. *)
Definition may_carry (p : Process) : Prop :=
  p ∈ snapshot /\ forall r, root t = Some r -> born_before (born (identity p)) (born r) = false.
(** The system says it does, when asked; and whenever it is asked. *)
Definition marks (p : Process) : Prop := may_carry p /\ exists s, fst (has_marker (pid (identity p)) (marker t) s) = true.
Definition always_marks (p : Process) : Prop := may_carry p /\ forall s, fst (has_marker (pid (identity p)) (marker t) s) = true.

Hypothesis numbers : NoDup ((fun p => pid (identity p)) <$> snapshot).

Lemma own_session_spec s : own_session t snapshot = Some s <-> keeps_session s.
Proof using numbers.
  unfold own_session, keeps_session. destruct (tree_session t) as [s'|]; simpl; [|split; [done|by intros [? _]]].
  destruct (find _ snapshot) as [q|] eqn:Eq.
  - apply find_some in Eq as [Hq%list_elem_of_In Ep%Z.eqb_eq]. destruct (decide _) as [E|E]; split; try done.
    + intros [= <-]. split; [done|]. intros q' Hq' E'. by rewrite (one_number snapshot numbers q' q Hq' Hq) by congruence.
    + intros [[= <-] _]. done.
    + intros [[= <-] Hall]. destruct E. symmetry. by apply Hall.
  - pose proof (find_none _ _ Eq) as Hn. split; [|by intros [[= <-] _]]. intros [= <-]. split; [done|].
    intros q Hq E. apply list_elem_of_In, Hn, Z.eqb_neq in Hq. done.
Qed.

Lemma chosen_placed p : chosen_by_place t (own_session t snapshot) owned p = true <-> placed p.
Proof using numbers.
  assert (bool_decide (Some (parent p) = unique <$> root t) = true <-> exists r, root t = Some r /\ parent p = unique r) as E1.
  { rewrite bool_decide_eq_true. destruct (root t) as [r|]; simpl; split; try done.
    - intros [= ->]. by exists r.
    - by intros (? & [= <-] & ->).
    - by intros (? & ? & _). }
  assert (in_session (own_session t snapshot) p = true <-> exists s, keeps_session s /\ session p = Some s) as E2.
  { unfold in_session. destruct (own_session t snapshot) as [s|] eqn:Es.
    - rewrite bool_decide_eq_true. split; [intros E; exists s; split; [by apply own_session_spec|done]|].
      intros (s' & Hs'%own_session_spec & ->). congruence.
    - split; [done|]. intros (s & Hs%own_session_spec & _). congruence. }
  unfold chosen_by_place, placed. rewrite !orb_true_iff, E1, E2, !bool_decide_eq_true. tauto.
Qed.

(** What the filter keeps: all that is the pane's by its place, and those that answer for the marker. *)
Lemma begins_spec w : exists marked, Forall marks marked /\
  let chosen := (filterM (begins t (own_session t snapshot) owned) snapshot w).1 in
  (forall p, p ∈ chosen -> p ∈ snapshot) /\ (forall p, p ∈ marked -> p ∈ chosen) /\ (forall p, always_marks p -> p ∈ chosen) /\
  (forall p, p ∈ snapshot -> placed p -> p ∈ chosen) /\
  (forall p, p ∈ chosen -> placed p \/ p ∈ marked).
Proof using numbers.
  pose proof (filterM_spec (begins t (own_session t snapshot) owned) snapshot w) as [Hsub Hkept].
  set (chosen := (filterM _ snapshot w).1) in *. cbv zeta.
  assert (forall p, p ∈ chosen -> p ∈ snapshot) as Hin by (intros p Hp; by eapply (sublist_subseteq)).
  exists (List.filter (fun p => negb (chosen_by_place t (own_session t snapshot) owned p)) chosen). split_and!; [|done| | | |].
  - apply Forall_forall. intros p [Hp E]%list_elem_of_In%filter_In. apply list_elem_of_In in Hp.
    apply negb_true_iff in E. destruct (Hkept p Hp) as (w' & Hw'). unfold begins, carries_marker in Hw'. rewrite E in Hw'.
    assert (forall r, root t = Some r -> born_before (born (identity p)) (born r) = false) as Hb.
    { intros r Er. rewrite Er in Hw'. by destruct (born_before _ _). }
    split; [by split; [apply Hin|]|]. exists (sys w'). unfold ask in Hw'. destruct (root t) as [r|]; [rewrite (Hb r) in Hw' by done|];
      simpl in Hw'; by destruct (has_marker _ _ (sys w')).
  - intros p [Hp _]%list_elem_of_In%filter_In. by apply list_elem_of_In.
  - intros p [[Hp Hb] Ha]. apply filterM_keeps; [done|]. intros w'. unfold begins, carries_marker. destruct (chosen_by_place _ _ _ p); [done|].
    specialize (Ha (sys w')). unfold ask. destruct (root t) as [r|]; [rewrite (Hb r) by done|]; simpl; by destruct (has_marker _ _ (sys w')).
  - intros p Hp E%chosen_placed. apply filterM_keeps; [done|]. intros w'. unfold begins. by rewrite E.
  - intros p Hp. destruct (chosen_by_place t (own_session t snapshot) owned p) eqn:E; [left; by apply chosen_placed|right].
    apply list_elem_of_In, filter_In. rewrite E. split; [by apply list_elem_of_In|done].
Qed.

(** The selection is the descendants of those. *)
Lemma select_is w : (select t snapshot owned w).1 = descendants (S (length snapshot)) snapshot
  (list_to_set (unique <$> (map_to_list owned).*2)) (by_pid (identity <$> (filterM (begins t (own_session t snapshot) owned) snapshot w).1)).
Proof. unfold select, mbind, M_bind. by destruct (filterM _ snapshot w). Qed.

Lemma in_parents u : u ∈ (list_to_set (unique <$> (map_to_list owned).*2) : gset Z) <-> exists n i, owned !! n = Some i /\ unique i = u.
Proof.
  rewrite elem_of_list_to_set, list_elem_of_fmap. split.
  - intros (i & -> & ([n j] & -> & E%elem_of_map_to_list)%list_elem_of_fmap). by exists n, j.
  - intros (n & i & E & <-). exists i. split; [done|]. apply list_elem_of_fmap. exists (n, i). split; [done|]. by apply elem_of_map_to_list.
Qed.
End Selection.

(** C24: what a look selects is the pane's tree, whole and nothing besides: the program, what it started,
    what is in its session while its number is nobody else's, what was found before, what carries the
    marker, and whatever descends from these; and the search for it ends. A process that says it carries
    the marker whenever it is asked is selected. *)
Theorem select_is_the_whole_tree {W} `{System W} t snapshot owned w : NoDup ((fun p => pid (identity p)) <$> snapshot) ->
  exists marked, Forall (marks t snapshot) marked /\ (forall p, always_marks t snapshot p -> Selected t snapshot owned marked p) /\
  forall n i, (select t snapshot owned w).1 !! n = Some i <->
    exists p, p ∈ snapshot /\ identity p = i /\ pid i = n /\ Selected t snapshot owned marked p.
Proof.
  intros Hnd. destruct (begins_spec t snapshot owned Hnd w) as (marked & Hmarks & Hin & Hmark & Halways & Hplace & Hchosen).
  rewrite select_is. set (chosen := (filterM _ snapshot w).1) in *. exists marked.
  assert (forall p, p ∈ chosen -> Selected t snapshot owned marked p) as Hsel.
  { intros p [?|?]%Hchosen; [by apply Placed|by apply Marked]. }
  assert (forall n i, by_pid (identity <$> chosen) !! n = Some i ->
    exists p, p ∈ snapshot /\ identity p = i /\ pid i = n /\ Selected t snapshot owned marked p) as Hbase.
  { intros n i [Hi Ei]%by_pid_in. apply list_elem_of_fmap in Hi as (p & -> & Hp). exists p. split_and!; auto. }
  assert (of_table snapshot (by_pid (identity <$> chosen))) as Hof.
  { intros n i E. destruct (Hbase n i E) as (p & ? & ? & ? & _). by exists p. }
  split_and!; [done|by intros p Hp%Halways%Hsel|]. intros n i.
  destruct (descendants_closed snapshot Hnd (list_to_set (unique <$> (map_to_list owned).*2)) (S (length snapshot)) _ Hof) as (_ & H2 & H3); [lia|].
  split.
  - apply descendants_only; [|exact Hbase]. intros p Hp [(n' & j & E & Eu)%in_parents|(q & Hq & Hs & Eu)].
    + by eapply UnderOwned.
    + by eapply UnderSelected.
  - assert (forall p, p ∈ chosen -> p ∈ snapshot -> by_pid (identity <$> chosen) !! pid (identity p) = Some (identity p)) as Hhas.
    { intros p Hc Hp. destruct (by_pid_some (identity <$> chosen) (identity p)) as [j Hj]; [apply list_elem_of_fmap; by exists p|].
      rewrite Hj. f_equal. destruct (Hof _ _ Hj) as (q & Hq & <- & E). by rewrite (one_number snapshot Hnd q p Hq Hp E). }
    intros (p & Hp & <- & <- & Hs). revert Hp. induction Hs as [p Hs|p Hs|p n' i' E Eu|p q Hq Hs IH Eu]; intros Hp.
    + eapply lookup_weaken; [|exact H2]. by apply Hhas; [apply Hplace|].
    + eapply lookup_weaken; [|exact H2]. by apply Hhas; [apply Hmark|].
    + apply H3; [done|]. left. apply in_parents. by exists n', i'.
    + apply H3; [done|]. right. exists (pid (identity q)), (identity q). split; [by apply IH|done].
Qed.
