(* ===== verification/ProcessClose.v ===== *)
(** * What a close sends, and a machine made up

    A close asks each process of the tree outside the pane's group to end, by TERM and then HUP, where the
    bound allows it, and no other ([a_close_asks_what_it_may]); and the force that follows kills
    what it stopped and its last look shows as the window's, and the pane's program last, whatever fails
    before ([force_kills_what_it_stops]). [Machine] is a system of processes that signals nobody's; in
    [Unread] it leaves a process it runs out of one look, and the force leaves that one stopped. *)
From S2P Require Import Prelude ProcessTree ProcessBound ProcessSelection.
#[local] Open Scope Z_scope.

Section Closing.
Context {W : Type} `{System W} (t : ProcessTree).

(** *** What a run of signals leaves *)

Lemma signal_sent b table i sig (w : world W) :
  let r := signal b table i sig w in
  seen r.2 = seen w /\ looks r.2 = looks w /\
  sent r.2 = (if allows b table i (seen w) then [One (looks w) i sig] else []) ++ sent w /\
  (allows b table i (seen w) = false <-> r.1 = inl false).
Proof.
  unfold signal. destruct (allows b table i (seen w)) eqn:E; simpl; [|done].
  destruct (send i sig (sys w)) as [[e|] s]; simpl; split_and!; done.
Qed.

Lemma foldM_cons {A B} (f : B -> A -> M W B) b x l (w : world W) : foldM f b (x :: l) w = foldM f (f b x w).1 l (f b x w).2.
Proof.
  change (foldM f b (x :: l)) with (b' ← f b x; foldM f b' l). unfold mbind, M_bind. by destruct (f b x w).
Qed.

(** TERM to each that may be asked; they are those that were. *)
Lemma asks table l acc (w : world W) :
  let r := foldM (ask_one t table) acc l w in
  let asked := List.filter (fun i => allows (bound t) table i (seen w)) l in
  seen r.2 = seen w /\ looks r.2 = looks w /\ fst r.1 = fst acc ++ asked /\
  sent r.2 = rev ((fun i => One (looks w) i SIGTERM) <$> asked) ++ sent w.
Proof.
  revert acc w. induction l as [|i l IH]; intros acc w; cbv zeta; [simpl; by rewrite app_nil_r|]. rewrite foldM_cons.
  destruct (signal_sent (bound t) table i SIGTERM w) as (E1 & E2 & E3 & E4).
  assert ((ask_one t table acc i w).2 = (signal (bound t) table i SIGTERM w).2 /\
    fst (ask_one t table acc i w).1 = fst acc ++ (if allows (bound t) table i (seen w) then [i] else [])) as [Ew Ef].
  { unfold ask_one, mbind, M_bind. destruct (signal (bound t) table i SIGTERM w) as [r w']. simpl in *. split; [done|].
    destruct (allows _ _ _ _); [|destruct r as [[]|]; simpl; try by rewrite app_nil_r; destruct E4 as [E4 _]; by specialize (E4 eq_refl)].
    destruct r as [[]|]; simpl; [done| |done]. destruct E4 as [_ E4]. by specialize (E4 eq_refl). }
  destruct (IH (ask_one t table acc i w).1 (ask_one t table acc i w).2) as (H1 & H2 & H3 & H4). rewrite Ew in *.
  rewrite H1, H2, H3, H4, E1, E2, E3, Ef. cbn [List.filter]. split_and!; [done..| |].
  - destruct (allows _ _ _ _); rewrite <- ?app_assoc; done.
  - destruct (allows _ _ _ _); cbn [fmap list_fmap rev]; rewrite <- ?app_assoc; done.
Qed.

Lemma hangs_up table l f (w : world W) : (forall i, i ∈ l -> allows (bound t) table i (seen w) = true) ->
  let r := foldM (hang_up t table) f l w in
  seen r.2 = seen w /\ looks r.2 = looks w /\ sent r.2 = rev ((fun i => One (looks w) i SIGHUP) <$> l) ++ sent w.
Proof.
  revert f w. induction l as [|i l IH]; intros f w Hl; cbv zeta; [done|]. rewrite foldM_cons.
  destruct (signal_sent (bound t) table i SIGHUP w) as (E1 & E2 & E3 & _).
  assert ((hang_up t table f i w).2 = (signal (bound t) table i SIGHUP w).2) as Ew.
  { unfold hang_up, mbind, M_bind. by destruct (signal (bound t) table i SIGHUP w). }
  rewrite Ew. destruct (IH (hang_up t table f i w).1 (signal (bound t) table i SIGHUP w).2) as (H1 & H2 & H3).
  { intros j Hj. rewrite E1. apply Hl. by right. }
  rewrite H1, H2, H3, E1, E2, E3, (Hl i) by left. cbn [fmap list_fmap rev]. by rewrite <- app_assoc.
Qed.
(** A program that only reads. *)
Definition reads {A} (m : M W A) : Prop := forall w, seen (m w).2 = seen w /\ looks (m w).2 = looks w /\ sent (m w).2 = sent w.

Lemma reads_ret {A} (a : A) : reads (mret a).
Proof. by intros w. Qed.
Lemma reads_ask {A} (call : W -> A * W) : reads (ask call).
Proof. intros w. unfold ask. by destruct (call (sys w)). Qed.
Lemma reads_bind {A B} (m : M W A) (k : A -> M W B) : reads m -> (forall a, reads (k a)) -> reads (m ≫= k).
Proof.
  intros Hm Hk w. unfold mbind, M_bind. destruct (m w) as [a w1] eqn:E. destruct (Hm w) as (E1 & E2 & E3). rewrite E in *. simpl in *.
  destruct (Hk a w1) as (F1 & F2 & F3). split_and!; congruence.
Qed.
Lemma reads_filter {A} (f : A -> M W bool) l : (forall a, reads (f a)) -> reads (filterM f l).
Proof.
  intros Hf. induction l as [|a l IH]; simpl; [apply reads_ret|]. apply reads_bind; [apply Hf|]. intros k. apply reads_bind; [exact IH|].
  intros l'. apply reads_ret.
Qed.
Lemma select_reads snapshot owned : reads (select t snapshot owned).
Proof.
  apply reads_bind; [|intros; apply reads_ret]. apply reads_filter. intros p. unfold begins, carries_marker.
  repeat case_match; solve [apply reads_ret|apply reads_ask].
Qed.

Definition told (looks : list (list Process)) (sig : Z) (l : list Identity) : list signalled := (fun i => One looks i sig) <$> l.

(** A close asks the processes of the tree outside the pane's group to end: TERM to each, in the table's
    order, that the bound allows, then HUP to each of those, and nothing to another; they are the ones it
    then waits for. Where the table cannot be read it sends nothing. *)
Theorem a_close_asks_what_it_may g w :
  let r := ask_by t g w in
  match r.1 with
  | inl a => exists snapshot w1, looks r.2 = snapshot :: looks w /\
      let chosen := (select t snapshot ∅ w1).1 in
      identities a = List.filter (fun i => allows (bound t) snapshot i (seen r.2)) (outside snapshot chosen g) /\
      sent r.2 = rev (told (looks r.2) SIGTERM (identities a) ++ told (looks r.2) SIGHUP (identities a)) ++ sent w
  | inr _ => sent r.2 = sent w
  end.
Proof.
  cbv zeta. unfold ask_by, look, ask, mbind, M_bind. destruct (processes (sys w)) as [[snapshot|e] s]; [|done].
  set (w0 := World s (seen w) (looks w) (sent w)). destruct (observe (bound t) snapshot w0) as [u w1] eqn:Eo.
  assert (looks w1 = snapshot :: looks w /\ sent w1 = sent w) as [El1 Es1] by by injection Eo as <- <-.
  destruct (select_reads snapshot ∅ w1) as (E1 & E2 & E3). destruct (select t snapshot ∅ w1) as [chosen w2] eqn:Ec.
  pose proof (asks snapshot (outside snapshot chosen g) ([], false) w2) as Ha. cbv zeta in Ha.
  destruct (foldM (ask_one t snapshot) ([], false) (outside snapshot chosen g) w2) as [[asked f] w3] eqn:Ef.
  destruct Ha as (H1 & H2 & H3 & H4). simpl in *.
  assert (forall i, i ∈ asked -> allows (bound t) snapshot i (seen w3) = true) as Hall.
  { intros i Hi. rewrite H3 in Hi. rewrite H1. by apply list_elem_of_In, filter_In in Hi as [_ Hi]. }
  pose proof (hangs_up snapshot asked f w3 Hall) as Hh. cbv zeta in Hh.
  destruct (foldM (hang_up t snapshot) f asked w3) as [f' w4] eqn:Eh. destruct Hh as (H5 & H6 & H7). simpl in *.
  exists snapshot, w1. rewrite Ec. simpl. split_and!; [by rewrite H6, H2, E2, El1|by rewrite H5, H1; exact H3|].
  unfold told. rewrite H7, H4, rev_app_distr, <- app_assoc, H6, H2, E3, Es1, E2, <- H3. done.
Qed.

(** *** What a force leaves *)

Lemma stop_one_sent table refused st fl i (w : world W) :
  let r := stop_one t table (refused, st, fl) i w in
  seen r.2 = seen w /\ looks r.2 = looks w /\
  (r.1.1.2 = st /\ sent r.2 = sent w \/ r.1.1.2 = <[pid i := i]> st /\ sent r.2 = One (looks w) i SIGSTOP :: sent w).
Proof.
  unfold stop_one, mbind, M_bind, signal. destruct (allows _ _ _ _); simpl; [|by split_and!; [| |left]].
  destruct (send i SIGSTOP (sys w)) as [[e|] s]; simpl; split_and!; auto.
Qed.

(** What was stopped is under its number, or a later one of that number that was stopped is. *)
Definition accounted (m : gmap Z Identity) (new : list signalled) : Prop :=
  (forall s, s ∈ new -> exists ls i, s = One ls i SIGSTOP /\ is_Some (m !! pid i)) /\
  (forall n j, m !! n = Some j -> pid j = n /\ exists ls, One ls j SIGSTOP ∈ new).

Lemma accounted_insert m new ls i : accounted m new -> accounted (<[pid i := i]> m) (One ls i SIGSTOP :: new).
Proof.
  intros [H1 H2]. split.
  - intros s [->|(ls' & j & -> & Hj)%H1]%elem_of_cons; [exists ls, i|exists ls', j]; split; try done.
    + by rewrite lookup_insert_eq.
    + destruct (decide (pid i = pid j)) as [->|Hne]; [by rewrite lookup_insert_eq|by rewrite lookup_insert_ne].
  - intros n j [[<- <-]|[_ [E (ls' & Hj)]%H2]]%lookup_insert_Some; [split; [done|exists ls; left]|split; [done|exists ls'; by right]].
Qed.

Lemma accounted_union m1 m2 new1 new2 : accounted m1 new1 -> accounted m2 new2 -> accounted (m1 ∪ m2) (new1 ++ new2).
Proof.
  intros [H1 H2] [H3 H4]. split.
  - intros s [(ls & i & -> & [j Hj])%H1|(ls & i & -> & [j Hj])%H3]%elem_of_app; exists ls, i; (split; [done|]).
    + exists j. by apply lookup_union_Some_l.
    + destruct (m1 !! pid i) as [k|] eqn:E; [exists k; by apply lookup_union_Some_l|exists j; by rewrite lookup_union_r].
  - intros n j [E|[_ E]]%lookup_union_Some_raw; [destruct (H2 n j E) as [-> [ls Hj]]|destruct (H4 n j E) as [-> [ls Hj]]];
      (split; [done|]); exists ls; apply elem_of_app; auto.
Qed.

Lemma stops table l refused st fl new (w w0 : world W) : sent w = new ++ sent w0 -> accounted st new ->
  let r := foldM (stop_one t table) (refused, st, fl) l w in
  looks r.2 = looks w /\ exists new', sent r.2 = new' ++ sent w0 /\ accounted r.1.1.2 new'.
Proof.
  revert refused st fl new w. induction l as [|i l IH]; intros refused st fl new w Hs Ha; cbv zeta; [split; [done|]; by exists new|].
  rewrite foldM_cons. destruct (stop_one_sent table refused st fl i w) as (_ & El & Hc).
  destruct (stop_one t table (refused, st, fl) i w) as [[[refused' st'] fl'] w']. simpl in *. rewrite <- El.
  destruct Hc as [[-> E]|[-> E]].
  - apply (IH _ _ _ new); [by rewrite E|done].
  - apply (IH _ _ _ (One (looks w) i SIGSTOP :: new)); [by rewrite E, Hs|by apply accounted_insert].
Qed.

(** At the end of a pass. *)
Definition stopped (w0 : world W) (f : forcing) (w : world W) : Prop :=
  (exists new, sent w = new ++ sent w0 /\ accounted (frozen f) new) /\
  (frozen f = ∅ \/ exists before, looks w = last_look f :: before).

Lemma pass_stopped last f (w0 w : world W) : stopped w0 f w -> stopped w0 (pass t last f w).1.2 (pass t last f w).2.
Proof.
  intros [(new & Hs & Ha) Hl]. unfold pass, ask, mbind, M_bind. destruct (processes (sys w)) as [[snapshot|e] s]; [|by split; [exists new|]].
  destruct (observe (bound t) snapshot (World s (seen w) (looks w) (sent w))) as [u w1] eqn:Eo.
  assert (looks w1 = snapshot :: looks w /\ sent w1 = sent w) as [El1 Es1] by by injection Eo as <- <-.
  destruct (select_reads snapshot (known_parents f) w1) as (_ & E2 & E3). destruct (select t snapshot (known_parents f) w1) as [chosen w2].
  simpl in *. cbv zeta. case_match.
  - split; simpl; [exists new; split; [congruence|done]|right; exists (looks w); congruence].
  - destruct (stops snapshot (values (fresh_of chosen f)) (refused f) ∅ (failure f) [] w2 w2 eq_refl) as (H1 & new' & H2 & H3).
    { split; [set_solver|done]. }
    destruct (foldM (stop_one t snapshot) (refused f, ∅, failure f) (values (fresh_of chosen f)) w2) as [[[refused stopping] fl] w3].
    simpl in *. split; simpl; [exists (new' ++ new); split; [rewrite H2, E3, Es1, Hs; by rewrite app_assoc|by apply accounted_union]|].
    right. exists (looks w). congruence.
Qed.

Lemma passes_stopped n f (w0 w : world W) : stopped w0 f w -> stopped w0 (passes t n f w).1 (passes t n f w).2.
Proof.
  revert f w. induction n as [|n IH]; intros f w Hf; [done|]. simpl. unfold mbind, M_bind.
  pose proof (pass_stopped (n =? 0)%nat f w0 w Hf) as Hp. destruct (pass t (n =? 0)%nat f w) as [[[|] f'] w']; [by apply IH|done].
Qed.

Lemma kill_one_sent table fl i (w : world W) :
  let r := kill_one t table fl i w in
  seen r.2 = seen w /\ looks r.2 = looks w /\
  sent r.2 = (if allows (bound t) table i (seen w) then [One (looks w) i SIGKILL] else []) ++ sent w.
Proof.
  destruct (signal_sent (bound t) table i SIGKILL w) as (E1 & E2 & E3 & _). unfold kill_one, mbind, M_bind.
  by destruct (signal (bound t) table i SIGKILL w).
Qed.

Lemma kills table l fl (w : world W) :
  let r := foldM (kill_one t table) fl l w in
  seen r.2 = seen w /\ looks r.2 = looks w /\
  sent r.2 = rev (told (looks w) SIGKILL (List.filter (fun i => allows (bound t) table i (seen w)) l)) ++ sent w.
Proof.
  revert fl w. induction l as [|i l IH]; intros fl w; cbv zeta; [done|]. rewrite foldM_cons.
  destruct (kill_one_sent table fl i w) as (E1 & E2 & E3). destruct (IH (kill_one t table fl i w).1 (kill_one t table fl i w).2) as (H1 & H2 & H3).
  rewrite H1, H2, H3, E1, E2, E3. split_and!; [done..|]. cbn [List.filter]. destruct (allows _ _ _ _); [|done].
  unfold told. cbn [fmap list_fmap rev]. by rewrite <- app_assoc.
Qed.

(** What may become of a process that was stopped: it is killed, or another of its number is stopped, or it
    is not the window's by the last look. *)
Definition ended (new : list signalled) (w : world W) (i : Identity) : Prop :=
  (exists ls, One ls i SIGKILL ∈ new) \/
  (exists ls j, One ls j SIGSTOP ∈ new /\ j <> i /\ pid j = pid i) \/
  exists snapshot before, looks w = snapshot :: before /\ allows (bound t) snapshot i (seen w) = false.

Lemma stopped_is_killed f new ls i (w : world W) : accounted (frozen f) new -> (frozen f = ∅ \/ exists before, looks w = last_look f :: before) ->
  One ls i SIGSTOP ∈ new ->
  ended (rev (told (looks w) SIGKILL (List.filter (fun i => allows (bound t) (last_look f) i (seen w)) (values (frozen f)))) ++ new) w i.
Proof.
  intros [H1 H2] Hl Hi. destruct (H1 _ Hi) as (? & ? & [= <- <-] & [j Hj]). destruct (H2 _ _ Hj) as [Ep [ls' Hs]].
  destruct (decide (j = i)) as [->|Hne]; [|right; left; exists ls', j; split; [apply elem_of_app; by right|done]].
  destruct (allows (bound t) (last_look f) i (seen w)) eqn:Ea.
  - left. exists (looks w). apply elem_of_app. left. apply list_elem_of_In, in_rev. rewrite rev_involutive. apply list_elem_of_In.
    unfold told. apply list_elem_of_fmap. exists i. split; [done|]. apply list_elem_of_In, filter_In. split; [|done].
    apply list_elem_of_In. rewrite values_are. apply list_elem_of_fmap. exists (pid i, i). split; [done|]. by apply elem_of_map_to_list.
  - right. right. destruct Hl as [Hl|[before Hl]]; [by rewrite Hl in Hj|]. by exists (last_look f), before.
Qed.

Lemma ended_more l new (w w' : world W) i : seen w' = seen w -> looks w' = looks w -> ended new w i -> ended (l ++ new) w' i.
Proof.
  unfold ended. intros -> -> [[ls H1]|[(ls & j & H1 & H2)|H1]]; [left; exists ls|right; left; exists ls, j|by right; right].
  - apply elem_of_app. by right.
  - split; [apply elem_of_app; by right|done].
Qed.

(** C25: a force kills each process it stops, whatever fails meanwhile, but one whose number was taken by
    another that it stops as well, and one that its last look at the table does not show as the window's: it
    went, or is another's by then, or the system would not read it then (such a one is left stopped,
    [Unread.stopped_and_never_killed]). And the pane's program it kills last, whatever failed before: the
    table that could not be read, a process that could not be stopped, a tree that went on growing. *)
Theorem force_kills_what_it_stops seeds w :
  let r := (force_by t seeds w).2 in
  exists new, sent r = new ++ sent w /\
  (forall ls i, One ls i SIGSTOP ∈ new ->
    ended new r i) /\
  (forall i, root t = Some i -> exists ls earlier, new = One ls i SIGKILL :: earlier).
Proof.
  cbv zeta. unfold force_by, mbind, M_bind. pose proof (passes_stopped PASSES (MkForcing (by_pid seeds) ∅ ∅ None []) w w) as Hp.
  destruct (passes t PASSES _ w) as [f w1]. destruct Hp as [(new & Hs & Ha) Hl]; [split; [exists []; split; [done|split; [set_solver|done]]|by left]|].
  simpl in *. destruct (kills (last_look f) (values (frozen f)) (failure f) w1) as (K1 & K2 & K3).
  destruct (foldM (kill_one t (last_look f)) (failure f) (values (frozen f)) w1) as [fl w2]. simpl in *.
  assert (forall ls i, One ls i SIGSTOP ∈ new -> ended (rev (told (looks w1) SIGKILL (List.filter
    (fun i => allows (bound t) (last_look f) i (seen w1)) (values (frozen f)))) ++ new) w1 i) as Hend.
  { intros ls i Hi. by eapply stopped_is_killed. }
  set (killed := rev _) in *. assert (forall ls i, One ls i SIGSTOP ∈ killed -> False) as Hno.
  { intros ls i. unfold killed, told. rewrite list_elem_of_In, <- in_rev, <- list_elem_of_In. by intros (? & [=] & _)%list_elem_of_fmap. }
  rewrite Hs, app_assoc in K3. destruct (root t) as [i|] eqn:Er.
  - destruct (kill_one_sent (last_look f) fl i w2) as (R1 & R2 & R3). destruct (kill_one t (last_look f) fl i w2) as [fl' w3]. simpl in *.
    unfold allows in R3. simpl in R3. rewrite Er, decide_True in R3 by done. exists (One (looks w2) i SIGKILL :: killed ++ new). split_and!.
    + by rewrite R3, K3.
    + intros ls j [[=]|[Hk|Hj]%elem_of_app]%elem_of_cons; [by apply Hno in Hk|].
      apply (ended_more [_] (killed ++ new) w1); [congruence|congruence|by eapply Hend].
    + intros i' [= <-]. by eexists _, _.
  - exists (killed ++ new). split_and!; [done| |done]. intros ls j [Hk|Hj]%elem_of_app; [by apply Hno in Hk|].
    apply (ended_more [] (killed ++ new) w1); [done..|]. by eapply Hend.
Qed.
End Closing.

(** ** A machine made up *)

(** The processes there are, and the numbers of those that carry the pane's marker; a process that is sent
    KILL is gone. *)
Module Machine.
Record machine := MkMachine { running : list Process; marked : list Z }.

Definition sent_to (i : Identity) (sig : Z) (m : machine) : machine :=
  if sig =? SIGKILL then MkMachine (List.filter (fun p => negb (bool_decide (identity p = i))) (running m)) (marked m) else m.

#[global] Instance machine_system : System machine := {
  processes m := (inl (running m), m);
  runs k m := (existsb (fun p => bool_decide (key_of (identity p) = k)) (running m), m);
  children n m := (inl (map (fun p => pid (identity p)) (List.filter (fun p =>
    existsb (fun q => (pid (identity q) =? n) && (unique (identity q) =? parent p)) (running m)) (running m))), m);
  looked n m := (if existsb (fun p => pid (identity p) =? n) (running m) then Looked.Readable else Looked.Ended, m);
  send i sig m := (None, sent_to i sig m);
  send_group g sig m := (None, m);
  carries n _ m := (existsb (Z.eqb n) (marked m), m);
  nobody_holds n m := (negb (existsb (fun p => pid (identity p) =? n) (running m)), m);
  has_marker n _ m := (existsb (Z.eqb n) (marked m), m);
  command_of _ m := (None, m);
  exe_of _ m := (EmptyString, m);
  values m := (map_to_list m).*2;
  values_are _ := Permutation_refl _
}.

Definition listed (n u parent_ : Z) (s : option Z) : Process := MkProcess (MkIdentity n (1, 0) u) parent_ n s "p"%string.
(** A window: its program, a shell in a session of its own, the shell's job, a job that was detached in the
    program's session; and the user's shell with its job, and a job of another's that carries the marker. *)
Definition program_of : Process := listed 10 1000 700 (Some 10).
Definition window : list Process := [program_of; listed 11 1100 1000 (Some 11); listed 12 1200 1100 (Some 11); listed 14 1400 1 (Some 10)].
Definition strangers : list Process := [listed 20 2000 1 None; listed 21 2100 2000 None; listed 23 2300 1 (Some 23)].
Definition machine_of : machine := MkMachine (window ++ strangers) [23].
Definition tree : ProcessTree := attach (Some program_of) (new "marker"%string).

Definition pids (s : list signalled) : list Z := map (fun x => match x with One _ i _ => pid i | Whole _ g _ => g end) s.

(** The marked stranger is selected, and not signalled. *)
Example selects_the_window : map fst (map_to_list (select tree (window ++ strangers) ∅ (attached machine_of)).1) ≡ₚ [10; 11; 12; 14; 23].
Proof. by apply (bool_decide_unpack _); vm_compute. Qed.

Example ends_the_window : let w := (terminate tree (attached machine_of)).2 in
  map (fun p => pid (identity p)) (running (sys w)) = [20; 21; 23] /\ 23 ∉ pids (sent w) /\ 20 ∉ pids (sent w).
Proof. cbv zeta. split_and!; [vm_compute; reflexivity|by apply (bool_decide_unpack _); vm_compute..]. Qed.
End Machine.

Lemma select_is_the_whole_tree_witness : let snapshot := Machine.window ++ Machine.strangers in
  NoDup ((fun p => pid (identity p)) <$> snapshot) /\
  exists marked, Forall (marks Machine.tree snapshot) marked /\
  (forall p, always_marks Machine.tree snapshot p -> Selected Machine.tree snapshot ∅ marked p) /\
  forall n i, (select Machine.tree snapshot ∅ (attached Machine.machine_of)).1 !! n = Some i <->
    exists p, p ∈ snapshot /\ identity p = i /\ pid i = n /\ Selected Machine.tree snapshot ∅ marked p.
Proof.
  assert (NoDup ((fun p => pid (identity p)) <$> Machine.window ++ Machine.strangers)) as Hn by (by apply (bool_decide_unpack _); vm_compute).
  cbv zeta. split; [exact Hn|]. apply (select_is_the_whole_tree Machine.tree (Machine.window ++ Machine.strangers) ∅ (attached Machine.machine_of) Hn).
Defined.

(** The same machine, whose list of processes leaves one of them out at its second look: one whose entry the
    system would not read then. *)
Module Unread.
Import Machine.
Record flaky := MkFlaky { machine_ : machine; looks_done : nat }.
Definition with_machine (f : machine -> machine) (m : flaky) : flaky := MkFlaky (f (machine_ m)) (looks_done m).
Definition one_left_out : Z := 12.
#[local] Instance flaky_system : System flaky := {
  processes m := (inl (List.filter (fun p => negb ((looks_done m =? 1)%nat && (pid (identity p) =? one_left_out))) (running (machine_ m))),
                  MkFlaky (machine_ m) (S (looks_done m)));
  runs k m := (fst (runs k (machine_ m)), m);
  children n m := (fst (children n (machine_ m)), m);
  looked n m := (fst (looked n (machine_ m)), m);
  send i sig m := (None, with_machine (sent_to i sig) m);
  send_group g sig m := (None, m);
  carries n _ m := (existsb (Z.eqb n) (marked (machine_ m)), m);
  nobody_holds n m := (fst (nobody_holds n (machine_ m)), m);
  has_marker n _ m := (existsb (Z.eqb n) (marked (machine_ m)), m);
  command_of _ m := (None, m);
  exe_of _ m := (EmptyString, m);
  values m := (map_to_list m).*2;
  values_are _ := Permutation_refl _
}.

Definition closed : world flaky := (terminate tree (attached (MkFlaky machine_of 0))).2.
Definition is_sent (n sig : Z) (s : signalled) : bool :=
  match s with One _ i sig' => (pid i =? n) && (sig' =? sig) | Whole _ _ _ => false end.

(** It is stopped, and neither killed nor let go on: it stays there, stopped. *)
Example stopped_and_never_killed :
  existsb (is_sent one_left_out SIGSTOP) (sent closed) = true /\ existsb (is_sent one_left_out SIGKILL) (sent closed) = false /\
  map (fun p => pid (identity p)) (running (machine_ (sys closed))) = [12; 20; 21; 23].
Proof. split_and!; vm_compute; reflexivity. Qed.
End Unread.
