(* ===== verification/PaneClock.v ===== *)
(** * The clocks a pane is watched by: [cf-panes/src/background/clock.rs]

    Whether a process is proved to have begun before a call, by the wall clock's times of the two. The wall
    clock may be set; the host reads it beside two clocks that are not, and takes a time for earlier only
    where its readings show that the wall clock did not fall. The readings are kept where the clocks moved
    against each other. What follows is what the proof is worth: where the wall clock is set one way at most
    between two readings, no process that began after the call is taken for older
    ([nothing_after_the_call_is_older]). *)
From S2P Require Import Prelude ProcessTree.
#[local] Open Scope Z_scope.

Definition MAX_GAP : Z := 2000000.
Definition SLEW_PPM : Z := 1000.
Definition BUDGET : Z := 500000.
Definition READ_BOUND : Z := 1000.
Definition PROCESS_NOISE : Z := 5000.
Definition KEPT : Z := 1000.

Record Reading := MkReading { wall : Z; awake : Z; continuous : Z }.
#[export] Instance reading_eq_dec : EqDecision Reading.
Proof. solve_decision. Defined.

(** The clocks as read: the wall clock between two reads of each of the others. *)
Record Read := MkRead { r_wall : Z; r_awake : Z * Z; r_continuous : Z * Z }.

(** [Reading::of] *)
Definition apart (x : Z * Z) : bool := within 0 READ_BOUND (snd x - fst x).
Definition middle (x : Z * Z) : Z := fst x + (snd x - fst x) ÷ 2.
Definition of_read (r : Read) : option Reading :=
  if negb (apart (r_awake r)) || negb (apart (r_continuous r)) then None
  else Some (MkReading (r_wall r) (middle (r_awake r)) (middle (r_continuous r))).

Definition ahead (r : Reading) : Z := wall r - continuous r.
Definition slept (r : Reading) : Z := continuous r - awake r.
Definition steady_lead (r : Reading) : Z := ahead r + continuous r * SLEW_PPM ÷ 1000000.

Record PaneClock := MkClock { kept : list Reading; last_reading : option Reading; peak : Z; fall : Z; unknown : bool }.

Definition I64_MIN : Z := - 2 ^ 63.
Definition I64_MAX : Z := 2 ^ 63 - 1.

(** [PaneClock::observe] *)
Definition moved (k before now : Reading) : bool := (KEPT <? Z.abs (ahead now - ahead k)) || (KEPT <? Z.abs (slept now - slept before)).
Definition observe (now : option Reading) (c : PaneClock) : PaneClock :=
  match now with
  | None => c
  | Some now =>
      match last_reading c with
      | None => MkClock (kept c ++ [now]) (Some now) (steady_lead now) (fall c) (unknown c)
      | Some before =>
          let unknown := unknown c || (awake now <? awake before) || (MAX_GAP <? awake now - awake before) in
          let peak := Z.max (peak c) (steady_lead now) in
          let fall := Z.max (fall c) (peak - steady_lead now) in
          let k := default before (last (kept c)) in
          let kept :=
            if moved k before now
            then (if bool_decide (last (kept c) = Some before) then kept c else kept c ++ [before]) ++ [now]
            else kept c in
          MkClock kept (Some now) peak fall unknown
      end
  end.

(** [Watch::reading]: of the reads the clocks would make, three at most. *)
Definition reading (reads : list Read) : option Reading := head (omap of_read (take 3 reads)).

(** [PaneClock::new] *)
Definition new (first : option Reading) : PaneClock := observe first (MkClock [] None I64_MIN 0 false).

(** The two readings around a start, the first there are. *)
Fixpoint around (previous : option Reading) (awake_ : Z) (readings : list Reading) : option (Reading * Reading) :=
  match readings with
  | [] => None
  | r :: rest =>
      match previous with
      | Some p => if (awake p <=? awake_) && (awake_ <=? awake r) then Some (p, r) else around (Some r) awake_ rest
      | None => around (Some r) awake_ rest
      end
  end.

(** [PaneClock::began_before] *)
Definition began_before (c : PaneClock) (wall_ awake_ after : Z) : bool :=
  if unknown c || (BUDGET <? fall c) || (after <=? wall_) then false else
  match head (kept c), last_reading c with
  | Some first, Some last_ =>
      let found :=
        match around None awake_ (kept c ++ [last_]) with
        | Some both => Some both
        | None => if (length (kept c) =? 1)%nat && (awake_ =? awake first) then Some (first, first) else None
        end in
      match found with
      | Some (before, after_it) =>
          if KEPT <? Z.abs (slept after_it - slept before) then false
          else Z.min (ahead before) (ahead after_it) - PROCESS_NOISE <=? wall_ - (awake_ + slept before)
      | None => false
      end
  | _, _ => false
  end.

(** [began_before] of a member: [after] is in milliseconds, a start not read is none. *)
Definition saturating_mul (a b : Z) : Z := Z.max I64_MIN (Z.min I64_MAX (a * b)).
Definition member_began_before (c : PaneClock) (after : Z) (awake_of : Z -> option Z) (m : Member) : bool :=
  let wall_ := began (m_key m) in
  if I64_MAX <? wall_ then false else
  negb (wall_ =? 0) &&
  match awake_of (key_pid (m_key m)) with
  | Some start => began_before c wall_ start (saturating_mul after 1000)
  | None => false
  end.

(** ** The world the clocks are read in *)

(** The wall clock and the awake one, at each time of the continuous one. *)
Record world_clocks := MkWorld { wall_at : Z -> Z; awake_at : Z -> Z }.

Section Watched.
Context (w : world_clocks).

Definition reading_at (c : Z) : Reading := MkReading (wall_at w c) (awake_at w c) c.
Definition lead_at (c : Z) : Z := steady_lead (reading_at c).

(** A pane's clock after its reads, the pane opened at the first: none at a time where they made no reading. *)
Definition watched (reads : list (option Z)) : PaneClock :=
  match reads with
  | [] => new None
  | first :: rest => fold_left (fun c at_ => observe (reading_at <$> at_) c) rest (new (reading_at <$> first))
  end.

(** The times of the readings. *)
Definition times (reads : list (option Z)) : list Z := omap id reads.

(** What is known of a clock read at [cs], the latest last. *)
Definition knows (cs : list Z) (c : PaneClock) : Prop :=
  last_reading c = reading_at <$> last cs /\
  Forall (fun r => exists x, x ∈ cs /\ r = reading_at x) (kept c) /\
  (forall x, x ∈ cs -> lead_at x <= peak c) /\ (cs <> [] -> exists x, x ∈ cs /\ peak c = lead_at x) /\
  (forall i j x y, cs !! i = Some x -> cs !! j = Some y -> (i <= j)%nat -> lead_at x - lead_at y <= fall c).

Lemma knows_observe cs c x : 0 <= fall c -> knows cs c -> knows (cs ++ [x]) (observe (Some (reading_at x)) c) /\ 0 <= fall (observe (Some (reading_at x)) c).
Proof.
  intros H0 (Hl & Hk & Hp & Hpx & Hf). unfold observe. rewrite Hl.
  assert (Forall (fun r => exists y, y ∈ cs ++ [x] /\ r = reading_at y) (kept c)) as Hk'.
  { eapply Forall_impl; [exact Hk|]. intros r (y & Hy & ->). exists y. split; [set_solver|done]. }
  destruct (last cs) as [b|] eqn:Eb; simpl.
  - assert (b ∈ cs) as Hb by (apply last_Some in Eb as [l' ->]; set_solver). split; [split_and!|lia].
    + simpl. by rewrite last_snoc.
    + simpl. assert (exists y, y ∈ cs ++ [x] /\ reading_at x = reading_at y) as Hx by (exists x; split; [set_solver|done]).
      assert (exists y, y ∈ cs ++ [x] /\ reading_at b = reading_at y) as Hb' by (exists b; split; [set_solver|done]).
      repeat case_match; repeat (apply Forall_app; split); repeat constructor; done.
    + simpl. intros y [Hy%Hp| ->%list_elem_of_singleton]%elem_of_app; unfold lead_at in *; lia.
    + simpl. intros _. destruct (Z.max_spec (peak c) (lead_at x)) as [[_ E]|[_ E]]; unfold lead_at in E |- *; rewrite E.
      * exists x. split; [set_solver|done].
      * destruct Hpx as (y & Hy & Ey); [by intros ->|]. exists y. split; [set_solver|done].
    + simpl. intros i j y z Hi Hj Hij. destruct (decide (j < length cs)%nat) as [Hlt|Hge].
      * rewrite lookup_app_l in Hj by done. rewrite lookup_app_l in Hi by lia. specialize (Hf i j y z Hi Hj Hij). unfold lead_at in *. lia.
      * assert (z = x) as ->. { rewrite lookup_app_r in Hj by lia. by apply list_lookup_singleton_Some in Hj as [_ ->]. }
        assert (lead_at y <= Z.max (peak c) (lead_at x)) as Hy.
        { apply list_elem_of_lookup_2 in Hi. apply elem_of_app in Hi as [Hi%Hp| ->%list_elem_of_singleton]; lia. }
        unfold lead_at in *. lia.
  - apply last_None in Eb as ->. split; [split_and!|done]; simpl.
    + done.
    + apply Forall_app. split; [done|]. repeat constructor. exists x. split; [set_solver|done].
    + intros y ->%list_elem_of_singleton. done.
    + intros _. exists x. split; [set_solver|done].
    + intros i j y z Hi%list_lookup_singleton_Some Hj%list_lookup_singleton_Some _. destruct Hi as [_ <-], Hj as [_ <-]. lia.
Qed.

Lemma knows_fold reads cs c : 0 <= fall c -> knows cs c ->
  knows (cs ++ times reads) (fold_left (fun c at_ => observe (reading_at <$> at_) c) reads c).
Proof.
  revert cs c. induction reads as [|[x|] reads IH]; intros cs c H0 Hc; simpl; [by rewrite app_nil_r| |by apply IH].
  destruct (knows_observe cs c x H0 Hc) as [Hk Hf]. specialize (IH (cs ++ [x]) _ Hf Hk). rewrite <- app_assoc in IH. exact IH.
Qed.

Lemma watched_knows reads : knows (times reads) (watched reads).
Proof.
  assert (knows [] (MkClock [] None I64_MIN 0 false)) as H0.
  { split_and!; [done|constructor|set_solver|done|intros i j x y H; done]. }
  destruct reads as [|first rest]; [exact H0|]. simpl. unfold new.
  apply (knows_fold (first :: rest) [] (MkClock [] None I64_MIN 0 false)); [simpl; lia|exact H0].
Qed.

(** ** One way at most between two readings *)

(** Between two readings next to each other the wall clock is set forward only, or back only. *)
Definition one_way (cs : list Z) : Prop := forall i x y, cs !! i = Some x -> cs !! S i = Some y ->
  (forall a b, x <= a <= b -> b <= y -> lead_at a <= lead_at b) \/ (forall a b, x <= a <= b -> b <= y -> lead_at b <= lead_at a).

(** Readings come one after another. *)
Definition in_order (cs : list Z) : Prop := forall i x y, cs !! i = Some x -> cs !! S i = Some y -> x < y.

(** A time after the first reading and not after the last is between two next to each other. *)
Lemma in_a_gap cs first last_ t : in_order cs -> head cs = Some first -> last cs = Some last_ -> first <= t <= last_ ->
  (cs = [first] /\ t = first) \/ exists i x y, cs !! i = Some x /\ cs !! S i = Some y /\ x <= t <= y.
Proof.
  revert first. induction cs as [|a cs IH]; intros first Ho [= ->] Hl Ht. destruct cs as [|b cs].
  { left. injection Hl as <-. split; [done|lia]. }
  right. destruct (Z.leb_spec t b) as [Hb|Hb]; [exists 0%nat, first, b; split_and!; [done|done|lia|lia]|].
  destruct (IH b) as [[E1 E2]|(i & x & y & H1 & H2 & H3)].
  - intros i x y H1 H2. apply (Ho (S i)); done.
  - done.
  - done.
  - lia.
  - lia.
  - exists (S i), x, y. done.
Qed.

Lemma in_order_le cs i j x y : in_order cs -> cs !! i = Some x -> cs !! j = Some y -> (i < j)%nat -> x < y.
Proof.
  intros Ho Hi Hj Hlt. replace j with (S i + (j - S i))%nat in Hj by lia. revert Hj. generalize (j - S i)%nat as n. clear Hlt j. intros n. revert y.
  induction n as [|n IH]; intros y Hj; [rewrite Nat.add_0_r in Hj; by eapply Ho|].
  rewrite Nat.add_succ_r in Hj. destruct (cs !! (S i + n)%nat) as [z|] eqn:Ez.
  - specialize (IH z eq_refl). specialize (Ho _ _ _ Ez Hj). lia.
  - apply lookup_ge_None in Ez. apply lookup_lt_Some in Hj. lia.
Qed.

(** The wall clock's lead, once it was [lead_at a], is never less by more than the fall that was seen. *)
Lemma lead_falls cs first last_ fall_ a b : in_order cs -> one_way cs -> head cs = Some first -> last cs = Some last_ ->
  (forall i j x y, cs !! i = Some x -> cs !! j = Some y -> (i <= j)%nat -> lead_at x - lead_at y <= fall_) ->
  first <= a <= b -> b <= last_ -> 0 <= fall_ -> lead_at a - fall_ <= lead_at b.
Proof.
  intros Ho Hw Hh Hl Hf Hab Hb H0.
  destruct (in_a_gap cs first last_ a Ho Hh Hl) as [[-> ->]|(i & x & y & Hi & Hi' & Ha)]; [lia| |].
  { simpl in Hl. injection Hl as <-. assert (b = first) as -> by lia. lia. }
  destruct (in_a_gap cs first last_ b Ho Hh Hl) as [[-> ->]|(j & u & v & Hj & Hj' & Hb')]; [lia|by destruct i|].
  assert (u < v) as Huv by (by eapply Ho). assert (x < y) as Hxy by (by eapply Ho).
  destruct (Nat.lt_trichotomy i j) as [Hij|[->|Hij]].
  - assert (y <= u). { destruct (decide (S i = j)) as [<-|]; [rewrite Hi' in Hj; injection Hj as ->; lia|]. apply Z.lt_le_incl. eapply (in_order_le cs (S i) j); [done..|lia]. }
    assert (lead_at a <= Z.max (lead_at x) (lead_at y)) as Ga by (destruct (Hw i x y Hi Hi') as [H'|H']; [specialize (H' a y)|specialize (H' x a)]; lia).
    assert (Z.min (lead_at u) (lead_at v) <= lead_at b) as Gb by (destruct (Hw j u v Hj Hj') as [H'|H']; [specialize (H' u b)|specialize (H' b v)]; lia).
    pose proof (Hf i j x u Hi Hj ltac:(lia)). pose proof (Hf i (S j) x v Hi Hj' ltac:(lia)).
    pose proof (Hf (S i) j y u Hi' Hj ltac:(lia)). pose proof (Hf (S i) (S j) y v Hi' Hj' ltac:(lia)). lia.
  - rewrite Hi in Hj. rewrite Hi' in Hj'. injection Hj as <-. injection Hj' as <-.
    pose proof (Hf j (S j) x y Hi Hi' ltac:(lia)).
    destruct (Hw j x y Hi Hi') as [H'|H']; [specialize (H' a b); lia|]. pose proof (H' x a). pose proof (H' b y). lia.
  - assert (v <= x). { destruct (decide (S j = i)) as [<-|]; [rewrite Hj' in Hi; injection Hi as ->; lia|]. apply Z.lt_le_incl. eapply (in_order_le cs (S j) i); [done..|lia]. }
    assert (a = b) as -> by lia. lia.
Qed.

(** *** What is taken for older *)

Lemma around_in previous awake_ l p q : around previous awake_ l = Some (p, q) -> awake p <= awake_ <= awake q /\ q ∈ l.
Proof.
  revert previous. induction l as [|r l IH]; intros previous; simpl; [done|]. destruct previous as [p'|].
  - destruct (_ && _) eqn:E; [|intros H%IH; set_solver]. intros [= -> ->]. ranges. split; [done|left].
  - intros H%IH. set_solver.
Qed.

(** A start that is placed by the readings is not after the last of them. *)
Lemma placed_by_readings c wall_ awake_ after cs last_ : knows cs c -> last cs = Some last_ ->
  (forall x, x ∈ cs -> awake_at w x <= awake_at w last_) -> began_before c wall_ awake_ after = true ->
  fall c <= BUDGET /\ wall_ < after /\ awake_ <= awake_at w last_.
Proof.
  intros (Hl & Hk & _) Elast Ha. unfold began_before. destruct (unknown c || (BUDGET <? fall c) || (after <=? wall_)) eqn:E; [done|].
  rewrite !orb_false_iff, Z.ltb_ge, Z.leb_gt in E. destruct E as [[_ E1] E2]. rewrite Hl, Elast. cbn [fmap option_fmap option_map].
  destruct (head (kept c)) as [first|] eqn:Ehead; [|done]. rewrite Forall_forall in Hk.
  assert (forall r, r ∈ kept c ++ [reading_at last_] -> awake r <= awake_at w last_) as Hle.
  { intros r [(x & Hx & ->)%Hk| ->%list_elem_of_singleton]%elem_of_app; simpl; [by apply Ha|lia]. }
  destruct (around None awake_ (kept c ++ [reading_at last_])) as [[before after_it]|] eqn:Er.
  - intros _. apply around_in in Er as [H1 H2%Hle]. lia.
  - destruct (_ && _) eqn:E3; [|done]. intros _. ranges. subst awake_. split_and!; [done|done|]. apply Hle, elem_of_app. left.
    destruct (kept c); [done|]. injection Ehead as ->. left.
Qed.
End Watched.

(** C30: where the wall clock is set one way at most between two readings, no process that began after a call
    is taken for older: not one is proved to have begun before a time that is earlier than the call by half a
    second and a microsecond, which is within the margin that the engine leaves. *)
Theorem nothing_after_the_call_is_older w reads first last_ call began after :
  let cs := times reads in
  in_order cs -> one_way w cs -> head cs = Some first -> last cs = Some last_ -> 0 <= first ->
  (forall x, x ∈ cs -> awake_at w x <= awake_at w last_) -> (last_ < began -> awake_at w last_ < awake_at w began) ->
  first <= call <= began -> after <= wall_at w call - BUDGET - 1 ->
  began_before (watched w reads) (wall_at w began) (awake_at w began) after = false.
Proof.
  cbv zeta. intros Ho Hw Hh Hl H0 Ha Hlate Hcall Hafter. apply not_true_iff_false. intros Hb.
  pose proof (watched_knows w reads) as Hk.
  destruct (placed_by_readings w _ _ _ _ _ last_ Hk Hl Ha Hb) as (Hfall & Hwall & Hawake). destruct Hk as (_ & _ & _ & _ & Hf).
  assert (began <= last_) as Hlast by (destruct (Z.le_gt_cases began last_); [done|]; specialize (Hlate ltac:(lia)); lia).
  assert (0 <= fall (watched w reads)) as Hpos.
  { destruct (times reads) as [|x cs] eqn:E; [done|]. specialize (Hf 0%nat 0%nat x x eq_refl eq_refl ltac:(lia)). lia. }
  pose proof (lead_falls w _ _ _ _ call began Ho Hw Hh Hl Hf Hcall Hlast Hpos) as Hlead.
  unfold lead_at, steady_lead, ahead, reading_at, SLEW_PPM in Hlead. cbn [wall continuous] in Hlead. unfold BUDGET in *.
  rewrite !Z.quot_div_nonneg in Hlead by lia. Z.to_euclidean_division_equations. lia.
Qed.

(** *** A clock *)

(** A wall clock that keeps its time, and one set back by two seconds at ten seconds. *)
Definition steady_world : world_clocks := MkWorld (fun c => 1000000000 + c) (fun c => c).
Definition set_back : world_clocks := MkWorld (fun c => 1000000000 + c - (if c <? 10000000 then 0 else 2000000)) (fun c => c).
Definition seconds (n : nat) : list (option Z) := (fun i => Some (Z.of_nat i * 1000000)) <$> seq 0 n.

(** A process begun long before the call is proved older, and where the clock was set back none is. *)
Example older_is_proved : began_before (watched steady_world (seconds 20)) (wall_at steady_world 3000000) 3000000 (wall_at steady_world 5000000) = true.
Proof. vm_compute. reflexivity. Qed.
Example set_back_proves_nothing : began_before (watched set_back (seconds 20)) (wall_at set_back 11000000) 11000000 (wall_at set_back 9500000) = false /\
  wall_at set_back 11000000 < wall_at set_back 9500000.
Proof. split; vm_compute; reflexivity. Qed.

Lemma steady_leads a b : 0 <= a -> a <= b -> lead_at steady_world a <= lead_at steady_world b.
Proof.
  intros Ha Hb. unfold lead_at, steady_lead, ahead, reading_at, steady_world, SLEW_PPM. cbn [wall continuous wall_at].
  assert (a * 1000 ÷ 1000000 <= b * 1000 ÷ 1000000) by (apply Z.quot_le_mono; lia). lia.
Qed.

Lemma nothing_after_the_call_is_older_witness :
  began_before (watched steady_world (seconds 3)) (wall_at steady_world 1500000) (awake_at steady_world 1500000) (wall_at steady_world 1200000 - BUDGET - 1) = false.
Proof.
  apply (nothing_after_the_call_is_older steady_world (seconds 3) 0 2000000 1200000 1500000); simpl.
  - intros i x y H1 H2. do 3 (destruct i as [|i]; [injection H1 as <-; try injection H2 as <-; try done; lia|]). done.
  - intros i x y Hx%list_elem_of_lookup_2 _. left. intros a b Ha _. apply steady_leads; [|lia].
    rewrite !elem_of_cons, elem_of_nil in Hx. lia.
  - done.
  - done.
  - lia.
  - intros x Hx. rewrite !elem_of_cons, elem_of_nil in Hx. lia.
  - lia.
  - lia.
  - vm_compute. discriminate.
Defined.
