(* ===== verification/Births.v ===== *)
(** * How a window's processes began: [cf-panes/src/background/births.rs]

    A Windows job tells of each process as it joins, and of each exit. What is read of a process as it
    joins is kept while it runs, [cap] of them at most, the one recorded longest ago let go of first. The
    record is a map by number with the numbers by when each was recorded; what it promises is a plain list,
    oldest first ([latest]), which it keeps to over any joins and exits ([births_keep_the_latest]). *)
From stdpp Require Import sorting.
From S2P Require Import Prelude ProcessTree.
#[local] Open Scope Z_scope.

Definition BIRTHS : nat := 8192.

Record Birth := MkBirth { b_began : Z; started_by_a_shell : bool; recorded : Z }.

(** A [BTreeMap]: its entries, by their keys. *)
Abbreviation btree := (list (Z * Z)).
Fixpoint btree_insert (k v : Z) (m : btree) : btree :=
  match m with
  | [] => [(k, v)]
  | (k', v') :: m' =>
      if k <? k' then (k, v) :: m else if k =? k' then (k, v) :: m' else (k', v') :: btree_insert k v m'
  end.
Definition btree_remove (k : Z) (m : btree) : btree := filter (fun e => fst e <> k) m.

Record Births := MkBirths { by_number : gmap Z Birth; order : btree; next : Z; cap : nat }.

Definition with_cap (cap : nat) : Births := MkBirths ∅ [] 0 cap.
Definition births_default : Births := with_cap BIRTHS.

(** [Births::forget] *)
Definition forget (pid : Z) (b : Births) : Births :=
  match by_number b !! pid with
  | Some birth => MkBirths (delete pid (by_number b)) (btree_remove (recorded birth) (order b)) (next b) (cap b)
  | None => b
  end.

(** [Births::record]: a turn of its loop for each entry is enough. *)
Fixpoint let_go (turns : nat) (b : Births) : Births :=
  match turns with
  | O => b
  | S turns =>
      if (cap b <? length (order b))%nat then
        match order b with
        | [] => b
        | (_, oldest) :: order => let_go turns (MkBirths (delete oldest (by_number b)) order (next b) (cap b))
        end
      else b
  end.
Definition record (pid began : Z) (started_by_a_shell : bool) (b : Births) : Births :=
  let b := forget pid b in
  let b := MkBirths (<[pid := MkBirth began started_by_a_shell (next b)]> (by_number b)) (btree_insert (next b) pid (order b)) (next b + 1) (cap b) in
  let_go (length (order b)) b.

(** [Births::started_by_a_shell] *)
Definition was_started_by_a_shell (b : Births) (key : ProcessKey) : bool :=
  match by_number b !! key_pid key with
  | Some birth => (b_began birth =? began key) && started_by_a_shell birth
  | None => false
  end.

(** What a job tells. *)
Inductive told := Joined (pid began : Z) (by_a_shell : bool) | Exited (pid : Z).
Definition tell (b : Births) (t : told) : Births :=
  match t with Joined pid began by_a_shell => record pid began by_a_shell b | Exited pid => forget pid b end.

(** ** What it promises *)

(** A number, when its process began and whether a shell started it. *)
Abbreviation entry := (Z * (Z * bool))%type.
Definition latest (cap : nat) (kept : list entry) (t : told) : list entry :=
  match t with
  | Joined pid began by_a_shell =>
      let kept := filter (fun e => fst e <> pid) kept ++ [(pid, (began, by_a_shell))] in drop (length kept - cap) kept
  | Exited pid => filter (fun e => fst e <> pid) kept
  end.

(** *** The record is the list *)

Definition entry_of (e : Z * Birth) : entry := (fst e, (b_began (snd e), started_by_a_shell (snd e))).
Definition in_order (e : Z * Birth) : Z * Z := (recorded (snd e), fst e).

Record keeps (b : Births) (es : list (Z * Birth)) : Prop := {
  keeps_number : by_number b = list_to_map es;
  keeps_order : order b = in_order <$> es;
  keeps_numbers : NoDup (fst <$> es);
  keeps_sorted : StronglySorted Z.lt ((fun e => recorded (snd e)) <$> es);
  keeps_next : Forall (fun e => recorded (snd e) < next b) es
}.

Lemma sorted_filter {A} (f : A -> Z) (P : A -> Prop) `{forall x, Decision (P x)} (l : list A) :
  StronglySorted Z.lt (f <$> l) -> StronglySorted Z.lt (f <$> filter P l).
Proof.
  induction l as [|x l IH]; [done|]. rewrite fmap_cons. intros [Hs Hx]%StronglySorted_inv. rewrite filter_cons.
  case_decide; [|auto]. simpl. constructor; [auto|]. rewrite Forall_fmap, Forall_forall in Hx |- *.
  intros y [_ Hy]%list_elem_of_filter. by apply Hx.
Qed.

Lemma nodup_filter_fst {B} (P : Z * B -> Prop) `{forall x, Decision (P x)} (l : list (Z * B)) : NoDup l.*1 -> NoDup (filter P l).*1.
Proof.
  induction l as [|e l IH]; [done|]. rewrite fmap_cons, NoDup_cons, filter_cons. intros [He Hn]. case_decide; [|auto].
  simpl. apply NoDup_cons. split; [|auto]. intros (x & Ex & [_ Hx]%list_elem_of_filter)%list_elem_of_fmap. apply He. rewrite Ex. by apply list_elem_of_fmap_2.
Qed.

Lemma map_without (es : list (Z * Birth)) pid : NoDup es.*1 ->
  delete pid (list_to_map es : gmap Z Birth) = list_to_map (filter (fun e => fst e <> pid) es).
Proof.
  intros Hn. assert (NoDup (filter (fun e => fst e <> pid) es).*1) as Hn' by by apply nodup_filter_fst.
  apply map_eq. intros i. apply option_eq. intros b. rewrite lookup_delete_Some, <- !elem_of_list_to_map, list_elem_of_filter by done.
  simpl. split; intros [? ?]; (split; [congruence|done]).
Qed.

Lemma filter_whole {A} (P : A -> Prop) `{forall x, Decision (P x)} (l : list A) : Forall P l -> filter P l = l.
Proof. induction 1 as [|x l Hx Hl IH]; [done|]. rewrite filter_cons, decide_True, IH by done. done. Qed.

Lemma filter_agree {A} (P Q : A -> Prop) `{forall x, Decision (P x)} `{forall x, Decision (Q x)} (l : list A) :
  (forall x, x ∈ l -> (P x <-> Q x)) -> filter P l = filter Q l.
Proof.
  induction l as [|x l IH]; intros He; [done|]. rewrite !filter_cons, IH by (intros; apply He; by right).
  assert (P x <-> Q x) by (apply He; left). by repeat case_decide; try tauto.
Qed.

Lemma sorted_same (es : list (Z * Birth)) x y : StronglySorted Z.lt ((fun e => recorded (snd e)) <$> es) ->
  x ∈ es -> y ∈ es -> recorded (snd x) = recorded (snd y) -> x = y.
Proof.
  induction es as [|e es IH]; [set_solver|]. rewrite fmap_cons. intros [Hs He]%StronglySorted_inv Hx Hy E.
  rewrite Forall_fmap, Forall_forall in He. apply elem_of_cons in Hx, Hy.
  destruct Hx as [->|Hx], Hy as [->|Hy]; [done|specialize (He y Hy); simpl in He; lia|specialize (He x Hx); simpl in He; lia|auto].
Qed.

Lemma filter_of_fmap {A B} (f : A -> B) (P : B -> Prop) `{forall x, Decision (P x)} (l : list A) :
  filter P (f <$> l) = f <$> filter (fun x => P (f x)) l.
Proof. induction l as [|x l IH]; [done|]. rewrite fmap_cons, !filter_cons, IH. by case_decide. Qed.

Lemma keeps_forget b es pid : keeps b es -> keeps (forget pid b) (filter (fun e => fst e <> pid) es).
Proof.
  intros [Hm Ho Hn Hs Hx]. unfold forget. destruct (by_number b !! pid) as [birth|] eqn:E.
  - rewrite Hm in E. apply elem_of_list_to_map in E; [|done]. split; simpl.
    + by rewrite Hm, map_without.
    + rewrite Ho. unfold btree_remove. rewrite filter_of_fmap. f_equal. apply filter_agree. intros [n e] Hin. simpl.
      split; intros Hne Heq; apply Hne.
      * subst. apply (elem_of_list_to_map (M := gmap Z)) in Hin, E; [|done..]. congruence.
      * by apply (sorted_same es (n, e) (pid, birth)) in Heq as [= -> ->].
    + by apply nodup_filter_fst.
    + by apply sorted_filter.
    + apply Forall_forall. intros e [_ He]%list_elem_of_filter. rewrite Forall_forall in Hx. by apply Hx.
  - rewrite filter_whole; [by split|]. rewrite Hm in E. apply Forall_forall. intros e He <-.
    apply not_elem_of_list_to_map in E. apply E. by apply list_elem_of_fmap_2.
Qed.

Lemma insert_last k v (m : btree) : Forall (fun e => fst e < k) m -> btree_insert k v m = m ++ [(k, v)].
Proof.
  induction 1 as [|[k' v'] m Hk Hm IH]; [done|]. simpl in *. rewrite IH.
  destruct (Z.ltb_spec k k'); [lia|]. destruct (Z.eqb_spec k k'); [lia|done].
Qed.

Lemma keeps_let_go b es turns : keeps b es -> (length es <= turns)%nat ->
  keeps (let_go turns b) (drop (length es - cap b) es).
Proof.
  revert b es. induction turns as [|turns IH]; intros b es Hk Hlen.
  { destruct es; [done|simpl in Hlen; lia]. }
  simpl. rewrite (keeps_order _ _ Hk), length_fmap. destruct (Nat.ltb_spec (cap b) (length es)) as [Hlt|Hge].
  - destruct es as [|[oldest e] es]; [simpl in Hlt; lia|]. destruct Hk as [Hm Ho Hn Hs Hx]. cbn [fmap list_fmap in_order fst snd] in *.
    apply NoDup_cons in Hn as [Hnot Hn]. apply StronglySorted_inv in Hs as [Hs _]. apply Forall_cons in Hx as [_ Hx].
    replace (length ((oldest, e) :: es) - cap b)%nat with (S (length es - cap b)) by (simpl in *; lia). simpl drop.
    apply (IH (MkBirths (delete oldest (by_number b)) (in_order <$> es) (next b) (cap b)) es); [|simpl in *; lia].
    split; simpl; try done. rewrite Hm. simpl. rewrite delete_insert_eq. apply delete_id, not_elem_of_list_to_map. done.
  - replace (length es - cap b)%nat with 0%nat by lia. done.
Qed.

Lemma cap_forget pid b : cap (forget pid b) = cap b.
Proof. unfold forget. by case_match. Qed.

Lemma keeps_record b es pid began by_a_shell : keeps b es ->
  let es' := filter (fun e => fst e <> pid) es ++ [(pid, MkBirth began by_a_shell (next (forget pid b)))] in
  keeps (record pid began by_a_shell b) (drop (length es' - cap b) es').
Proof.
  intros Hk%(keeps_forget _ _ pid) es'. destruct Hk as [Hm Ho Hn Hs Hx]. unfold record. set (b' := MkBirths _ _ _ _).
  assert (btree_insert (next (forget pid b)) pid (order (forget pid b)) = in_order <$> es') as Eo.
  { rewrite insert_last; rewrite Ho; [unfold es'; by rewrite fmap_app|]. rewrite Forall_fmap. exact Hx. }
  assert (keeps b' es') as Hb'.
  { split; simpl.
    - rewrite Hm. unfold es'. rewrite list_to_map_snoc; [done|]. intros (e & -> & [Hne _]%list_elem_of_filter)%list_elem_of_fmap. done.
    - exact Eo.
    - unfold es'. rewrite fmap_app. apply NoDup_app. split_and!; [done| |apply NoDup_singleton].
      intros i (e & -> & [Hne _]%list_elem_of_filter)%list_elem_of_fmap. simpl. set_solver.
    - unfold es'. rewrite fmap_app. simpl. clear -Hs Hx. induction (filter _ es) as [|e l IH]; simpl; [by repeat constructor|].
      apply StronglySorted_inv in Hs as [Hs He]. apply Forall_cons in Hx as [Hxe Hx]. constructor; [auto|]. apply Forall_app. split; [done|]. by repeat constructor.
    - unfold es'. apply Forall_app. split; [eapply Forall_impl; [exact Hx|]; simpl; lia|]. repeat constructor. simpl. lia. }
  replace (cap b) with (cap b') by apply cap_forget. apply keeps_let_go; [done|]. rewrite (keeps_order _ _ Hb'). by rewrite length_fmap.
Qed.

Lemma cap_let_go turns b : cap (let_go turns b) = cap b.
Proof. revert b. induction turns as [|turns IH]; intros b; [done|]. simpl. repeat case_match; [done|by rewrite IH|done]. Qed.

Lemma cap_tell b t : cap (tell b t) = cap b.
Proof. destruct t; simpl; [unfold record; rewrite cap_let_go|]; apply cap_forget. Qed.

Lemma filter_entries (pid : Z) (es : list (Z * Birth)) : entry_of <$> filter (fun e => fst e <> pid) es = filter (fun e => fst e <> pid) (entry_of <$> es).
Proof. by rewrite filter_of_fmap. Qed.

Lemma keeps_tell b es t : keeps b es -> exists es', keeps (tell b t) es' /\ entry_of <$> es' = latest (cap b) (entry_of <$> es) t.
Proof.
  intros Hk. destruct t as [pid began by_a_shell|pid]; simpl.
  - eexists. split; [by apply keeps_record|]. rewrite fmap_drop, fmap_app, filter_entries. f_equal.
    rewrite !length_app, <- filter_entries, length_fmap. done.
  - eexists. split; [by apply keeps_forget|]. apply filter_entries.
Qed.

Lemma keeps_tells ts b es : keeps b es ->
  exists es', keeps (fold_left tell ts b) es' /\ entry_of <$> es' = fold_left (latest (cap b)) ts (entry_of <$> es).
Proof.
  revert b es. induction ts as [|t ts IH]; intros b es Hk; [eauto|]. simpl.
  destruct (keeps_tell b es t Hk) as (es1 & Hk1 & E1). destruct (IH _ _ Hk1) as (es' & Hk' & E'). exists es'. split; [done|].
  rewrite E', E1. by rewrite cap_tell.
Qed.

Lemma latest_bounded cap_ kept ts : (length kept <= cap_)%nat -> (length (fold_left (latest cap_) ts kept) <= cap_)%nat.
Proof.
  revert kept. induction ts as [|t ts IH]; intros kept Hl; [done|]. apply IH. destruct t as [pid began by_a_shell|pid]; simpl.
  - rewrite length_drop. lia.
  - pose proof (length_filter (fun e : entry => fst e <> pid) kept). lia.
Qed.

(** C29: over any joins and exits a job tells of, the record of births is the latest of them, of processes
    that have not exited, [cap] at most: what it answers of a process is what was read of that very one as
    it joined, and its two maps never hold more than [cap]. *)
Theorem births_keep_the_latest cap_ ts key :
  let b := fold_left tell ts (with_cap cap_) in
  let kept := fold_left (latest cap_) ts [] in
  (length (order b) = length kept /\ size (by_number b) = length kept /\ (length kept <= cap_)%nat) /\
  (was_started_by_a_shell b key = true <-> (key_pid key, (began key, true)) ∈ kept).
Proof.
  assert (keeps (with_cap cap_) []) as H0 by (split; simpl; constructor).
  cbv zeta. destruct (keeps_tells ts _ _ H0) as (es & [Hm Ho Hn _ _] & E). simpl in E. rewrite <- E.
  split; [split_and!|].
  - by rewrite Ho, !length_fmap.
  - by rewrite Hm, map_size_list_to_map, !length_fmap.
  - rewrite E. apply latest_bounded. simpl. lia.
  - unfold was_started_by_a_shell. rewrite Hm, list_elem_of_fmap. split.
    + destruct (list_to_map es !! key_pid key) as [birth|] eqn:El; [|done]. apply elem_of_list_to_map in El; [|done].
      rewrite andb_true_iff, Z.eqb_eq. intros [Eb Es]. exists (key_pid key, birth). split; [|done]. unfold entry_of. simpl. congruence.
    + intros ([n birth] & [= -> Eb Es] & Hin). apply (elem_of_list_to_map (M := gmap Z)) in Hin; [|done]. rewrite Hin, <- Es, Eb, Z.eqb_refl. done.
Qed.

(** A server left at the beginning of the day keeps its birth through any number of processes that end. *)
Example a_birth_outlives_the_others :
  was_started_by_a_shell (fold_left tell (Joined 7 100 true :: flat_map (fun n => [Joined n n false; Exited n]) (seqZ 10 50)) (with_cap 2)) (MkKey 7 100) = true.
Proof. vm_compute. reflexivity. Qed.
