(* ===== verification/Background.v ===== *)
(** * What a window's program started and left running: [cf-panes/src/background.rs], [background/work.rs], [background/harness.rs]

    A pane's tree is its [Member]s. The daemon says that a turn begins ([mark]), and what of a later tree is
    the turn's work ([turn_work]), what was detached from it ([detached]) and what is the harness's own
    ([protected]) is told by walks up the tree, through the processes that started one another ([climb]).
    What was seen to be the harness's own is kept as long as it runs, in a set that the copies of a
    baseline share: it is passed here beside the baseline, as it is before and after. *)
From S2P Require Import Prelude Utf8 Keys Text ProcessTree.
#[local] Open Scope Z_scope.

#[export] Instance process_key_countable : Countable ProcessKey.
Proof. apply (inj_countable' (fun k => (key_pid k, began k)) (fun p => MkKey (fst p) (snd p))). by intros []. Defined.

Abbreviation keys := (gset ProcessKey).

Definition RESTS : nat := 16.
Definition BACKGROUND_PROCESSES : nat := 16.
Definition COMMAND_CHARS : nat := 512.

Module Servers.
Inductive t := InGroup | AtLaunch | ByShell | Unknown.
#[global] Instance servers_eq_dec : EqDecision t.
Proof. solve_decision. Defined.
End Servers.

(** ** Walks up a tree *)

Definition keys_in (tree : list Member) : keys := list_to_set (m_key <$> tree).

(** The members by their keys, the last of two that have one. *)
Definition by_key (tree : list Member) : gmap ProcessKey Member := fold_left (fun m x => <[m_key x := x]> m) tree ∅.
Definition parent_among (started : gmap ProcessKey Member) (at_ : Member) : option Member := parent ← m_parent at_; started !! parent.

(** What a walk does at a process: it ends, or goes up to the next. [turns] are the most it looks at. *)
Inductive step := Ends (found : bool) | Up (to : Member).
Fixpoint climb (turns : nat) (look : Member -> step) (at_ : Member) : bool :=
  match turns with
  | O => false
  | S turns => match look at_ with Ends found => found | Up to => climb turns look to end
  end.
Definition walks (among : gmap ProcessKey Member) (look : Member -> step) : Member -> bool := climb (S (size among)) look.

(** [descending_from] *)
Definition from_roots (roots : keys) (among : gmap ProcessKey Member) (at_ : Member) : step :=
  if decide (m_key at_ ∈ roots) then Ends true else
  match parent_among among at_ with Some parent => Up parent | None => Ends false end.
Definition descending_from (roots : keys) (tree : list Member) : keys :=
  if decide (roots = ∅) then ∅ else
  keys_in (filter (fun m => walks (by_key tree) (from_roots roots (by_key tree)) m = true) tree).

(** ** The turn's work: [background/work.rs] *)

Definition SHELLS : list text := txt <$> ["sh"; "bash"; "zsh"; "dash"; "ksh"; "fish"; "csh"; "tcsh"; "powershell"; "pwsh"]%string.

Definition is_shell (program : text) : bool :=
  let name := ascii_lower <$> program in
  let name := default name (strip_suffix (txt ".exe") name) in
  bool_decide (name ∈ SHELLS).

(** A path cut at its last separator, of either kind. *)
Definition separator (c : char) : bool := (c =? 0x2F) || (c =? 0x5C).
Fixpoint cut_last (t : text) : option (text * text) :=
  match t with
  | [] => None
  | c :: t => match cut_last t with
              | Some (dir, file) => Some (c :: dir, file)
              | None => if separator c then Some ([], t) else None
              end
  end.

Definition runs_a_shell (m : Member) : bool :=
  let file := match cut_last (txt (m_exe m)) with Some (_, file) => file | None => txt (m_exe m) end in
  if bool_decide (file = []) then is_shell (txt (m_program m)) else is_shell file.

(** [descends_from_a_shell] *)
Definition to_a_shell (started : gmap ProcessKey Member) (at_ : Member) : step :=
  match parent_among started at_ with
  | Some parent => Up parent
  | None => Ends (bool_decide (is_Some (m_parent at_)) && runs_a_shell at_)
  end.
Definition descends_from_a_shell (m : Member) (started : gmap ProcessKey Member) : bool := walks started (to_a_shell started) m.

Definition turns (started : list Member) (protected : keys) : keys :=
  keys_in (filter (fun m => m_key m ∉ protected /\ descends_from_a_shell m (by_key started) = true) started).

(** [lost_its_starter] *)
Definition to_no_parent (started : gmap ProcessKey Member) (protected : keys) (at_ : Member) : step :=
  if decide (m_key at_ ∈ protected) then Ends false else
  match m_parent at_ with
  | None => Ends true
  | Some parent => match started !! parent with Some parent => Up parent | None => Ends false end
  end.
Definition lost_its_starter (m : Member) (started : gmap ProcessKey Member) (protected : keys) : bool :=
  walks started (to_no_parent started protected) m.

Definition detached_among (started : list Member) (protected : keys) : keys :=
  keys_in (filter (fun m => lost_its_starter m (by_key started) protected = true) started).

(** ** The harness's own: [background/harness.rs] *)

Record Kept := MkKept { k_group : option Z; k_servers : Servers.t }.
Definition kept_of (servers : Servers.t) (group : option Z) : option Kept :=
  if decide (servers = Servers.Unknown) then None else Some (MkKept group servers).

(** [i32::try_from] of a process's number. *)
Definition as_i32 (pid : Z) : option Z := if pid <=? 2 ^ 31 - 1 then Some pid else None.

Definition leads (kept : Kept) (m : Member) : bool :=
  match k_group kept with Some group => bool_decide (as_i32 (key_pid (m_key m)) = Some group) | None => false end.

Definition is_server (kept : Kept) (launch : keys) (m : Member) : bool :=
  match k_servers kept with
  | Servers.InGroup => bool_decide (is_Some (k_group kept)) && bool_decide (m_group m = k_group kept)
  | Servers.AtLaunch =>
      bool_decide (m_key m ∈ launch) &&
      match k_group kept, m_group m with Some window, Some group => negb (group =? window) | _, _ => false end
  | Servers.ByShell | Servers.Unknown => false
  end.

(** [descends_from_a_server] *)
Definition to_a_server (kept : Kept) (launch : keys) (among : gmap ProcessKey Member) (at_ : Member) : step :=
  if is_server kept launch at_ then Ends true else
  match parent_among among at_ with
  | Some parent => if leads kept parent then Ends false else Up parent
  | None => Ends false
  end.
Definition descends_from_a_server (kept : Kept) (launch : keys) (among : gmap ProcessKey Member) (m : Member) : bool :=
  walks among (to_a_server kept launch among) m.

Definition own_servers (kept : Kept) (launch : keys) (tree : list Member) : keys :=
  keys_in (filter (fun m => negb (leads kept m) && descends_from_a_server kept launch (by_key tree) m = true) tree).

(** [harness::commands] *)
Definition runs_alone (group : Z) (m : Member) : bool :=
  match m_parent m with
  | Some parent => bool_decide (as_i32 (key_pid parent) = Some group)
  | None => bool_decide (m_group m = as_i32 (key_pid (m_key m)))
  end.
Definition group_commands (group : Z) (tree : list Member) (rest : keys) (before : Member -> bool) : list Member :=
  filter (fun m => m_key m ∉ rest /\ before m = false /\ m_group m <> Some group /\ runs_alone group m = true) tree.

Definition split_path (exe : text) : option (text * text) :=
  '(dir, file) ← cut_last exe; if bool_decide (file = []) then None else Some (dir, file).
Definition strip_exe (file : text) : text := match strip_suffix (txt ".exe") (ascii_lower <$> file) with
                                              | Some _ => take (length file - 4) file
                                              | None => file
                                              end.
Definition name_of (program : text) : text := ascii_lower <$> strip_exe program.
Definition stem_of (exe : text) : text := match split_path exe with Some (_, file) => name_of file | None => [] end.

(** A state that holds what the copies of a baseline share. *)
Class Owns (S : Type) := { own_of : S -> keys; set_own : keys -> S -> S }.
#[export] Instance owns_keys : Owns keys := {| own_of own := own; set_own own _ := own |}.

Section Platform.
Context (windows : bool).

Definition same_directory (a b : text) : bool :=
  if windows then bool_decide (ascii_lower <$> a = ascii_lower <$> b) else bool_decide (a = b).

Definition programs (harness : text) (tree : list Member) : keys :=
  let harness := ascii_lower <$> harness in
  let homes := omap (fun m => fst <$> split_path (txt (m_exe m)))
                    (filter (fun m => name_of (txt (m_program m)) = harness \/ stem_of (txt (m_exe m)) = harness) tree) in
  let named := harness ++ txt "-" in
  let is_own m := match split_path (txt (m_exe m)) with
                  | Some (dir, file) => bool_decide (is_Some (strip_prefix named (ascii_lower <$> strip_exe file))) &&
                                        existsb (fun home => same_directory home dir) homes
                  | None => false
                  end in
  descending_from (keys_in (filter (fun m => is_own m = true) tree)) tree.

(** ** A pane's baseline *)

(** [Baseline], but for its [own], which its copies share. *)
Record Baseline := MkBaseline {
  before : option keys;
  launch : keys;
  kept : option Kept;
  harness : option text;
  rests : list (Z * keys);
  next_rest : Z;
  carried : keys
}.
Definition unmarked : Baseline := MkBaseline None ∅ None None [] 0 ∅.

(** [sort_by_key] of when they began and their numbers, which keeps those of one key as they are. *)
Definition began_first (a b : Member) : bool :=
  (began (m_key a) <? began (m_key b)) || ((began (m_key a) =? began (m_key b)) && (key_pid (m_key a) <=? key_pid (m_key b))).
Fixpoint put_by_birth (m : Member) (sorted : list Member) : list Member :=
  match sorted with
  | [] => [m]
  | x :: rest => if began_first m x then m :: sorted else x :: put_by_birth m rest
  end.
Definition by_birth (members : list Member) : list Member := foldr put_by_birth [] members.

(** [Baseline::protected], with [own] after it. *)
Definition protected (b : Baseline) (tree : list Member) (own : keys) : keys * keys :=
  let protected := match kept b with Some kept => own_servers kept (launch b) tree | None => ∅ end in
  let protected := match harness b with Some harness => protected ∪ programs harness tree | None => protected end in
  let protected := protected ∪ descending_from own tree in
  let keeps m := bool_decide (m_key m ∈ protected) &&
                 (bool_decide (m_key m ∈ own) || match m_parent m with Some parent => bool_decide (parent ∈ protected) | None => false end) in
  (protected, keys_in (filter (fun m => keeps m = true) tree)).

(** [Baseline::turn_work] *)
Definition turn_work (b : Baseline) (tree : list Member) (own : keys) : list Member * keys :=
  match before b with
  | None => ([], own)
  | Some before =>
      let '(protected, own) := protected b tree own in
      let started := filter (fun m => m_key m ∉ before) tree in
      let turns := turns started protected in
      (by_birth (filter (fun m => m_key m ∈ turns) started), own)
  end.

(** [Baseline::detached] *)
Definition detached (b : Baseline) (tree : list Member) (own : keys) : list Member * keys :=
  match before b with
  | None => ([], own)
  | Some before =>
      let '(protected, own) := protected b tree own in
      let started := filter (fun m => ~ (m_key m ∈ before /\ m_key m ∉ carried b)) tree in
      let detached := detached_among started protected in
      (by_birth (filter (fun m => m_key m ∈ detached) started), own)
  end.

(** [Baseline::named]: [proved] may ask the system, which others act on meanwhile, and fail. *)
Definition named {S} `{Owns S} (b : Baseline) (tree : list Member) (proved : list Member -> S -> (option keys + Error) * S) (s : S) :
  (list Member + Error) * S :=
  let '(work, own) := turn_work b tree (own_of s) in let s := set_own own s in
  let '(jobs, own) := detached b tree (own_of s) in let s := set_own own s in
  if bool_decide (jobs = []) then (inl work, s) else
  match proved jobs s with
  | (inl named, s) =>
      let allowed m := match named with Some named => bool_decide (m_key m ∈ named) | None => true end in
      (inl (by_birth (work ++ filter (fun m => allowed m = true) jobs)), s)
  | (inr e, s) => (inr e, s)
  end.

(** [Baseline::mark] *)
Definition mark (b : Baseline) (tree : list Member) (kept : option Kept) (harness : option text) (own : keys) : Baseline * keys :=
  let '(jobs, own) := detached b tree own in
  let now := keys_in tree in
  let launch := match before b with None => now | Some _ => launch b end in
  let b := MkBaseline (Some now) launch kept harness (rests b) (next_rest b) (keys_in jobs) in
  let '(_, own) := protected b tree own in
  (b, own).

Definition is_marked (b : Baseline) : bool := bool_decide (is_Some (before b)).

(** [Baseline::tells_commands] *)
Definition commands_kept (b : Baseline) : option Kept :=
  kept ← kept b;
  if bool_decide (k_servers kept = Servers.InGroup) && bool_decide (is_Some (k_group kept)) then Some kept
  else if bool_decide (k_servers kept = Servers.ByShell) then Some kept
  else None.
Definition tells_commands (b : Baseline) : bool := bool_decide (is_Some (commands_kept b)).

(** [Baseline::rest] *)
Definition retain (keep : list Z) (rests : list (Z * keys)) : list (Z * keys) :=
  let latest := (length rests - RESTS)%nat in
  filter (fun r => fst r ∈ keep) (take latest rests) ++ drop latest rests.
Definition rest (b : Baseline) (tree : list Member) (keep : list Z) : option Z * Baseline :=
  match commands_kept b with
  | None => (None, b)
  | Some _ =>
      let number := next_rest b in
      (Some number,
       MkBaseline (before b) (launch b) (kept b) (harness b) (retain keep (rests b ++ [(number, keys_in tree)])) (number + 1) (carried b))
  end.
Definition rest_of (b : Baseline) (since : option Z) : option keys :=
  since ← since; '(_, found) ← list_find (fun r => fst r = since) (rests b); Some (snd found).

(** [Baseline::chained] *)
Definition chained (b : Baseline) (tree : list Member) (since : option Z) (own : keys) : list Member * keys :=
  let left_out := default (launch b) (rest_of b since) in
  let '(protected, own) := protected b tree own in
  let started := filter (fun m => m_key m ∉ left_out) tree in
  let shells := turns started protected in
  (filter (fun m => m_key m ∈ shells) started, own).

(** ** What the daemon is told *)

Record BackgroundProcess := MkBackgroundProcess { bp_pid : Z; bp_command : text }.
Record Background := MkBackground { total : nat; processes : list BackgroundProcess; possibly_left : list PossiblyLeft }.
Definition none_left : Background := MkBackground 0 [] [].

Definition bounded (command : text) : text :=
  let words := join [0x20] (split_whitespace command) in
  if (length words <=? COMMAND_CHARS)%nat then words else take (COMMAND_CHARS - 1) words ++ [0x2026].

Definition listed (chosen : list Member) : Background :=
  let chosen := by_birth chosen in
  MkBackground (length chosen) ((fun m => MkBackgroundProcess (key_pid (m_key m)) (bounded (txt (m_command m)))) <$> take BACKGROUND_PROCESSES chosen) [].

(** [Baseline::commands] *)
Definition commands (b : Baseline) (tree : list Member) (since : option Z) (before : Member -> bool) (own : keys) : option Background * keys :=
  match commands_kept b with
  | None => (None, own)
  | Some kept =>
      match (if bool_decide (k_servers kept = Servers.InGroup) then k_group kept else None) with
      | Some group => (Some (listed (group_commands group tree (default ∅ (rest_of b since)) before)), own)
      | None => let '(chosen, own) := chained b tree since own in (Some (listed chosen), own)
      end
  end.
End Platform.

(** What is there at both of two looks. *)
Definition steady (earlier later : list Member) : list Member := filter (fun m => m_key m ∈ keys_in earlier) later.

(** [proved_by_birth] *)
Definition to_its_birth (born_of_a_shell : ProcessKey -> bool) (among : gmap ProcessKey Member) (at_ : Member) : step :=
  match m_parent at_ with
  | None => Ends (born_of_a_shell (m_key at_))
  | Some parent => match among !! parent with Some parent => Up parent | None => Ends false end
  end.
Definition proved_by_birth (detached : list Member) (born_of_a_shell : ProcessKey -> bool) : keys :=
  keys_in (filter (fun m => walks (by_key detached) (to_its_birth born_of_a_shell (by_key detached)) m = true) detached).
