(* ===== verification/BackgroundRules.v ===== *)
(** * What is the turn's, what is detached and what is the harness's own: rules of [Background]

    Each bounded walk up a tree finds what is there to be found, on any list of processes, a tree or not
    ([walks_reach]): so the turn's work is what a chain of processes ties to a shell, the detached work what
    lost its starter, and the harness's own what descends from it. Then what holds from look to look. *)
From stdpp Require Import relations sorting.
From S2P Require Import Prelude Utf8 Keys Text ProcessTree Background.
#[local] Open Scope Z_scope.

(** ** Walks *)

(** How far a walk goes. *)
Inductive climbs (look : Member -> step) : nat -> Member -> bool -> Prop :=
| climbs_ends m found : look m = Ends found -> climbs look 0 m found
| climbs_up m p n found : look m = Up p -> climbs look n p found -> climbs look (S n) m found.

Lemma climb_iff look turns m : climb turns look m = true <-> exists n, (n < turns)%nat /\ climbs look n m true.
Proof.
  revert m. induction turns as [|turns IH]; intros m; simpl; [split; [done|intros (n & ? & _); lia]|].
  destruct (look m) as [found|p] eqn:E.
  - split; [intros ->; exists 0%nat; split; [lia|by constructor]|]. intros (n & _ & Hc). inversion Hc; congruence.
  - rewrite IH. split; intros (n & Hn & Hc).
    + exists (S n). split; [lia|]. by econstructor.
    + inversion Hc; subst; [congruence|]. exists n0. split; [lia|congruence].
Qed.

Lemma climbs_height look n n' m found found' : climbs look n m found -> climbs look n' m found' -> n = n'.
Proof.
  intros Hc. revert n'. induction Hc as [m found E|m p n found E Hc IH]; intros n' Hc'; inversion Hc'; subst; try congruence.
  f_equal. apply IH. congruence.
Qed.

Lemma climbs_path look n m found : climbs look n m found ->
  exists l, length l = n /\ NoDup l /\ forall p, p ∈ l -> (exists k, (k < n)%nat /\ climbs look k p found) /\ exists q, look q = Up p.
Proof.
  induction 1 as [m found E|m p n found E Hc (l & Hl & Hn & Hp)].
  { exists []. split_and!; [done|constructor|set_solver]. }
  exists (p :: l). simpl. split_and!; [lia|constructor; [|done]|].
  - intros Hin. destruct (Hp p Hin) as ((k & Hk & Hc') & _). pose proof (climbs_height _ _ _ _ _ _ Hc Hc'). lia.
  - intros q [->|Hq]%elem_of_cons; [split; [exists n; split; [lia|done]|eauto]|].
    destruct (Hp q Hq) as ((k & Hk & Hc') & Hup). split; [exists k; split; [lia|done]|done].
Qed.

Lemma climbs_short (among : gmap ProcessKey Member) look n m found :
  (forall m p, look m = Up p -> exists k, among !! k = Some p) -> climbs look n m found -> (n <= size among)%nat.
Proof.
  intros Hup Hc. destruct (climbs_path _ _ _ _ Hc) as (l & <- & Hn & Hp).
  assert (l ⊆ (map_to_list among).*2) as Hsub.
  { intros p Hin. destruct (Hp p Hin) as (_ & q & E). destruct (Hup _ _ E) as (k & Hk).
    apply list_elem_of_fmap. exists (k, p). split; [done|]. by apply elem_of_map_to_list. }
  pose proof (submseteq_length _ _ (NoDup_submseteq _ _ Hn Hsub)) as Hle. by rewrite length_fmap, length_map_to_list in Hle.
Qed.

(** A walk finds what there is: whatever the list, the turns it has are enough. *)
Lemma walks_reach (among : gmap ProcessKey Member) look (R : Member -> Member -> Prop) (good : Member -> Prop) m :
  (forall m p, look m = Up p -> R m p /\ exists k, among !! k = Some p) ->
  (forall m, look m = Ends true -> good m) -> (forall m, good m -> look m = Ends true) ->
  (forall m p, R m p -> look m = Up p \/ look m = Ends true) ->
  walks among look m = true <-> exists top, rtc R m top /\ good top.
Proof.
  intros Hup Hgood Hends HR. unfold walks. rewrite climb_iff. split.
  - intros (n & _ & Hc). remember true as found eqn:Ef in Hc. induction Hc as [m found E|m p n found E Hc IH]; subst.
    + exists m. split; [done|by apply Hgood].
    + destruct (IH eq_refl) as (top & Hr & Ht). exists top. split; [|done]. eapply rtc_l; [by apply Hup|done].
  - intros (top & Hr & Ht). assert (exists n, climbs look n m true) as (n & Hc).
    { induction Hr as [m|m p top Hm Hr IH]; [exists 0%nat; constructor; by apply Hends|].
      destruct (HR _ _ Hm) as [E|E]; [|exists 0%nat; by constructor].
      destruct (IH Ht) as (n & Hc). exists (S n). by econstructor. }
    exists n. split; [|done]. apply Nat.lt_succ_r. eapply climbs_short; [|done]. intros ? ? E. by apply Hup in E as [_ ?].
Qed.

(** [p] is the process of [among] that started [m]. *)
Definition started_by (among : gmap ProcessKey Member) (m p : Member) : Prop := parent_among among m = Some p.

Lemma parent_in among m p : parent_among among m = Some p -> exists k, m_parent m = Some k /\ among !! k = Some p.
Proof. unfold parent_among. destruct (m_parent m) as [k|]; [|done]. eauto. Qed.

Lemma parent_in' among m p : parent_among among m = Some p -> exists k, among !! k = Some p.
Proof. intros (k & _ & H)%parent_in. eauto. Qed.

(** A shell the harness started, on the way up from [m]. *)
Definition under_a_shell (among : gmap ProcessKey Member) (m : Member) : Prop :=
  exists shell, rtc (started_by among) m shell /\ parent_among among shell = None /\ is_Some (m_parent shell) /\ runs_a_shell shell = true.

Lemma descends_from_a_shell_iff m among : descends_from_a_shell m among = true <-> under_a_shell among m.
Proof.
  unfold descends_from_a_shell. apply walks_reach; unfold to_a_shell, started_by.
  - intros m' p. destruct (parent_among among m') as [p'|] eqn:E; [|done]. intros [= ->]. eauto using parent_in'.
  - intros m'. destruct (parent_among among m') eqn:E; [done|]. intros [= H]. rewrite andb_true_iff, bool_decide_eq_true in H. tauto.
  - intros m' (-> & H1 & ->). by rewrite bool_decide_true.
  - intros m' p ->. by left.
Qed.

(** A process that has lost its starter, on the way up from [m], nothing of it the harness's own. *)
Definition lost (among : gmap ProcessKey Member) (protected : keys) (m : Member) : Prop :=
  exists top, rtc (fun x p => m_key x ∉ protected /\ started_by among x p) m top /\ m_key top ∉ protected /\ m_parent top = None.

Lemma lost_its_starter_iff m among protected : lost_its_starter m among protected = true <-> lost among protected m.
Proof.
  unfold lost_its_starter. apply walks_reach; unfold to_no_parent, started_by, parent_among.
  - intros m' p. case_decide; [done|]. destruct (m_parent m') as [k|]; [|done]. simpl. destruct (among !! k) as [q|] eqn:E; [|done]. intros [= ->]. eauto.
  - intros m'. case_decide; [done|]. destruct (m_parent m') as [k|]; [|done]. by destruct (among !! k).
  - intros m' [H ->]. by rewrite decide_False.
  - intros m' p [H E]. rewrite decide_False by done. destruct (m_parent m') as [k|]; [|done]. simpl in E. rewrite E. by left.
Qed.

Lemma from_roots_iff roots among m : walks among (from_roots roots among) m = true <-> exists top, rtc (started_by among) m top /\ m_key top ∈ roots.
Proof.
  apply walks_reach; unfold from_roots, started_by.
  - intros m' p. case_decide; [done|]. destruct (parent_among among m') as [q|] eqn:E; [|done]. intros [= ->]. eauto using parent_in'.
  - intros m'. case_decide; [done|]. by destruct (parent_among among m').
  - intros m' H. by rewrite decide_True.
  - intros m' p E. case_decide; [by right|]. rewrite E. by left.
Qed.

(** A server of the harness's, on the way up from [m], which does not pass the window's program. *)
Definition under_a_server (kept : Kept) (launch : keys) (among : gmap ProcessKey Member) (m : Member) : Prop :=
  exists server, rtc (fun x p => started_by among x p /\ leads kept p = false) m server /\ is_server kept launch server = true.

Lemma descends_from_a_server_iff kept launch among m :
  descends_from_a_server kept launch among m = true <-> under_a_server kept launch among m.
Proof.
  unfold descends_from_a_server. apply walks_reach; unfold to_a_server, started_by.
  - intros m' p. destruct (is_server _ _ _); [done|]. destruct (parent_among among m') as [q|] eqn:E; [|done].
    destruct (leads kept q) eqn:El; [done|]. intros [= ->]. eauto using parent_in'.
  - intros m'. destruct (is_server _ _ _); [done|]. destruct (parent_among among m') as [q|]; [|done]. by destruct (leads kept q).
  - by intros m' ->.
  - intros m' p [-> ->]. destruct (is_server _ _ _); [by right|by left].
Qed.

Definition to_birth (born_of_a_shell : ProcessKey -> bool) (among : gmap ProcessKey Member) (m : Member) : Prop :=
  exists top, rtc (started_by among) m top /\ m_parent top = None /\ born_of_a_shell (m_key top) = true.

Lemma to_its_birth_iff born_of_a_shell among m : walks among (to_its_birth born_of_a_shell among) m = true <-> to_birth born_of_a_shell among m.
Proof.
  apply walks_reach; unfold to_its_birth, started_by, parent_among.
  - intros m' p. destruct (m_parent m') as [k|]; [|done]. simpl. destruct (among !! k) as [q|] eqn:E; [|done]. intros [= ->]. eauto.
  - intros m'. destruct (m_parent m') as [k|]; [by destruct (among !! k)|]. by intros [= ->].
  - intros m' [-> ->]. done.
  - intros m' p E. destruct (m_parent m') as [k|]; [|done]. simpl in E. rewrite E. by left.
Qed.

(** ** A tree: no two of its processes have one key *)

Definition is_tree (tree : list Member) : Prop := NoDup (m_key <$> tree).

#[export] Instance is_tree_dec tree : Decision (is_tree tree).
Proof. unfold is_tree. apply _. Defined.

Lemma keys_in_iff k tree : k ∈ keys_in tree <-> exists m, m ∈ tree /\ m_key m = k.
Proof. unfold keys_in. rewrite elem_of_list_to_set, list_elem_of_fmap. firstorder. Qed.

Lemma key_in m tree : m ∈ tree -> m_key m ∈ keys_in tree.
Proof. rewrite keys_in_iff. eauto. Qed.

Lemma same_key tree m m' : is_tree tree -> m ∈ tree -> m' ∈ tree -> m_key m = m_key m' -> m = m'.
Proof.
  unfold is_tree. induction tree as [|x tree IH]; [set_solver|]. rewrite fmap_cons, NoDup_cons, !elem_of_cons. intros [Hx Hn] [->|Hm] [->|Hm'] E.
  - done.
  - destruct Hx. rewrite E. by apply list_elem_of_fmap_2.
  - destruct Hx. rewrite <- E. by apply list_elem_of_fmap_2.
  - auto.
Qed.

Lemma is_tree_filter (P : Member -> Prop) `{forall m, Decision (P m)} tree : is_tree tree -> is_tree (filter P tree).
Proof.
  unfold is_tree. induction tree as [|x tree IH]; [done|]. rewrite fmap_cons, NoDup_cons, filter_cons. intros [Hx Hn].
  case_decide; [|auto]. simpl. apply NoDup_cons. split; [|auto]. intros (y & E & [_ Hy]%list_elem_of_filter)%list_elem_of_fmap. apply Hx. rewrite E. by apply list_elem_of_fmap_2.
Qed.

(** Those of a tree whose keys are those of some of it are these. *)
Lemma filter_by_keys (P : Member -> Prop) `{forall m, Decision (P m)} tree m : is_tree tree ->
  m ∈ filter (fun m => m_key m ∈ keys_in (filter P tree)) tree <-> m ∈ tree /\ P m.
Proof.
  intros Ht. rewrite list_elem_of_filter, keys_in_iff. split.
  - intros [(x & [HP Hx]%list_elem_of_filter & E) Hm]. by rewrite <- (same_key tree x m).
  - intros [Hm HP]. split; [|done]. exists m. by rewrite list_elem_of_filter.
Qed.

Lemma by_key_snoc tree m : by_key (tree ++ [m]) = <[m_key m := m]> (by_key tree).
Proof. unfold by_key. by rewrite fold_left_app. Qed.

Lemma by_key_in tree k m : by_key tree !! k = Some m -> m ∈ tree /\ m_key m = k.
Proof.
  induction tree as [|x tree IH] using rev_ind; [done|]. rewrite by_key_snoc, lookup_insert_Some.
  intros [[<- ->]|[_ H]]; [set_solver|]. apply IH in H as [? ?]. set_solver.
Qed.

Lemma by_key_known tree m : is_tree tree -> m ∈ tree -> by_key tree !! m_key m = Some m.
Proof.
  intros Ht Hm. destruct (by_key tree !! m_key m) as [x|] eqn:E.
  - apply by_key_in in E as [Hx E]. f_equal. by apply (same_key tree).
  - exfalso. clear Ht. induction tree as [|x tree IH] using rev_ind; [set_solver|]. rewrite by_key_snoc, lookup_insert_None in E.
    destruct E as [E Hne]. apply elem_of_app in Hm as [Hm| ->%list_elem_of_singleton]; auto.
Qed.

Lemma started_by_in tree m p : started_by (by_key tree) m p -> p ∈ tree /\ m_parent m = Some (m_key p).
Proof. intros (k & Hk & [Hp <-]%by_key_in)%parent_in. done. Qed.

Lemma rtc_started_in tree m top (P : Member -> Member -> Prop) :
  rtc (fun x p => P x p /\ started_by (by_key tree) x p) m top -> m ∈ tree -> top ∈ tree.
Proof. induction 1 as [|x p top [_ H] _ IH]; [done|]. intros _. apply IH. by apply started_by_in in H as [? _]. Qed.

(** ** Sorted by birth *)

Lemma put_by_birth_perm m l : put_by_birth m l ≡ₚ m :: l.
Proof. induction l as [|x l IH]; simpl; [done|]. destruct (began_first m x); [done|]. rewrite IH. by constructor. Qed.

Lemma by_birth_perm l : by_birth l ≡ₚ l.
Proof. induction l as [|m l IH]; simpl; [done|]. by rewrite put_by_birth_perm, IH. Qed.

Lemma began_first_total a b : began_first a b = false -> began_first b a = true.
Proof. unfold began_first. rewrite !orb_true_iff, !andb_true_iff, orb_false_iff, andb_false_iff. lia. Qed.

Lemma began_first_trans a b c : began_first a b = true -> began_first b c = true -> began_first a c = true.
Proof. unfold began_first. rewrite !orb_true_iff, !andb_true_iff. lia. Qed.

Definition oldest_first : list Member -> Prop := StronglySorted (fun a b => began_first a b = true).

Lemma by_birth_sorted l : oldest_first (by_birth l).
Proof.
  induction l as [|m l IH]; simpl; [constructor|]. unfold oldest_first in *. revert IH. generalize (by_birth l) as s. clear l.
  induction 1 as [|x s Hs IH Hx]; simpl; [repeat constructor|]. destruct (began_first m x) eqn:E.
  - constructor; [by constructor|]. constructor; [done|]. eapply Forall_impl; [exact Hx|]. intros y. by apply began_first_trans.
  - constructor; [done|]. rewrite put_by_birth_perm. constructor; [by apply began_first_total|done].
Qed.

Lemma by_birth_in m l : m ∈ by_birth l <-> m ∈ l.
Proof. by rewrite by_birth_perm. Qed.

(** ** The turn's work, and what was detached from it *)

Section Told.
Context (windows : bool).
#[local] Abbreviation protected := (protected windows).
#[local] Abbreviation turn_work := (turn_work windows).
#[local] Abbreviation detached := (detached windows).

(** What began after the mark: for the turn's work, and with what was carried over it. *)
Definition after_mark (before : keys) (tree : list Member) : list Member := filter (fun m => m_key m ∉ before) tree.
Definition after_mark_or_carried (before carried : keys) (tree : list Member) : list Member :=
  filter (fun m => ~ (m_key m ∈ before /\ m_key m ∉ carried)) tree.

Lemma turn_work_in b before_ tree own m : is_tree tree -> before b = Some before_ ->
  m ∈ (turn_work b tree own).1 <->
  m ∈ tree /\ m_key m ∉ before_ /\ m_key m ∉ (protected b tree own).1 /\ under_a_shell (by_key (after_mark before_ tree)) m.
Proof.
  intros Ht Hb. unfold Background.turn_work. rewrite Hb. destruct (protected b tree own) as [prot own']. cbn [fst].
  rewrite by_birth_in. unfold turns. fold (after_mark before_ tree). rewrite filter_by_keys by by apply is_tree_filter.
  rewrite descends_from_a_shell_iff. unfold after_mark at 1. rewrite list_elem_of_filter. tauto.
Qed.

Lemma detached_in b before_ tree own m : is_tree tree -> before b = Some before_ ->
  m ∈ (detached b tree own).1 <->
  m ∈ tree /\ ~ (m_key m ∈ before_ /\ m_key m ∉ carried b) /\
  lost (by_key (after_mark_or_carried before_ (carried b) tree)) (protected b tree own).1 m.
Proof.
  intros Ht Hb. unfold Background.detached. rewrite Hb. destruct (protected b tree own) as [prot own']. cbn [fst].
  rewrite by_birth_in. unfold detached_among. fold (after_mark_or_carried before_ (carried b) tree). rewrite filter_by_keys by by apply is_tree_filter.
  rewrite lost_its_starter_iff. unfold after_mark_or_carried at 1. rewrite list_elem_of_filter. tauto.
Qed.
(** C26: the turn's work is what began after the mark, is none of the harness's own, and is, or descends
    from, a shell that a process from before the mark started; the detached work is what began after it, or
    was carried over it, and is, or descends from, a process that has lost its starter, none of them the
    harness's own. Both are given oldest first, and neither holds anything else. *)
Theorem work_is_told_by_its_chain b before_ tree own : is_tree tree -> before b = Some before_ ->
  (oldest_first (turn_work b tree own).1 /\ oldest_first (detached b tree own).1) /\
  (forall m, m ∈ (turn_work b tree own).1 <->
    m ∈ tree /\ m_key m ∉ before_ /\ m_key m ∉ (protected b tree own).1 /\ under_a_shell (by_key (after_mark before_ tree)) m) /\
  (forall m, m ∈ (detached b tree own).1 <->
    m ∈ tree /\ ~ (m_key m ∈ before_ /\ m_key m ∉ carried b) /\
    lost (by_key (after_mark_or_carried before_ (carried b) tree)) (protected b tree own).1 m).
Proof.
  intros Ht Hb. split; [|split; intros m; [by apply turn_work_in|by apply detached_in]].
  unfold Background.turn_work, Background.detached. rewrite Hb. destruct (protected b tree own). split; apply by_birth_sorted.
Qed.

(** ** What is named *)

Lemma parent_among_mono tree (P Q : Member -> Prop) `{forall m, Decision (P m)} `{forall m, Decision (Q m)} m p :
  is_tree tree -> (forall x, P x -> Q x) -> started_by (by_key (filter P tree)) m p -> started_by (by_key (filter Q tree)) m p.
Proof.
  intros Ht HPQ Hs. apply started_by_in in Hs as [[HP Hp]%list_elem_of_filter E]. unfold started_by, parent_among. rewrite E. simpl.
  apply by_key_known; [by apply is_tree_filter|]. apply list_elem_of_filter. auto.
Qed.

(** A chain of which each process was started by the next has one end. *)
Lemma lost_through among prot m x : lost among prot m -> rtc (started_by among) m x -> lost among prot x.
Proof.
  intros Hl Hr. induction Hr as [m|m p x Hm Hr IH]; [done|]. apply IH. destruct Hl as (top & Hl & Ht & Hp).
  inversion Hl as [?|? q ? [Hq Hs] Hr']; subst.
  - unfold started_by, parent_among in Hm. by rewrite Hp in Hm.
  - unfold started_by in *. assert (q = p) as -> by congruence. exists top. done.
Qed.

(** What is both is under a job that was carried over the mark. *)
Lemma both_under_carried b before_ tree own own' m : is_tree tree -> before b = Some before_ ->
  m ∈ (turn_work b tree own).1 -> m ∈ (detached b tree own').1 ->
  exists shell job, shell ∈ tree /\ job ∈ tree /\ m_parent shell = Some (m_key job) /\ runs_a_shell shell = true /\
    m_key shell ∉ before_ /\ m_key job ∈ carried b.
Proof.
  intros Ht Hb Hw Hd. apply (turn_work_in _ _ _ _ _ Ht Hb) in Hw as (Hm & Hbm & _ & shell & Hr & Hnone & [k Hk] & Hshell).
  apply (detached_in _ _ _ _ _ Ht Hb) in Hd as (_ & _ & Hl).
  assert (shell ∈ after_mark before_ tree) as [Hs Hin]%list_elem_of_filter.
  { assert (m ∈ after_mark before_ tree) as Hm' by by apply list_elem_of_filter. clear -Hr Hm'. induction Hr as [|m p shell H _ IH]; [done|].
    apply IH. by apply started_by_in in H as [? _]. }
  assert (rtc (started_by (by_key (after_mark_or_carried before_ (carried b) tree))) m shell) as Hr'.
  { clear -Hr Ht. induction Hr as [|m p shell H _ IH]; [done|]. eapply rtc_l; [|done]. eapply parent_among_mono; [done| |done]. simpl. tauto. }
  pose proof (lost_through _ _ _ _ Hl Hr') as (top & Hlast & _ & Hp). inversion Hlast as [?|? job ? [_ Hjob] _]; subst; [congruence|].
  apply started_by_in in Hjob as [[Hjob Hjt]%list_elem_of_filter E].
  exists shell, job. split_and!; try done. destruct (decide (m_key job ∈ carried b)) as [|Hnc]; [done|].
  assert (job ∈ after_mark before_ tree) as Hin' by (apply list_elem_of_filter; split; [|done]; intros Hbj; by apply Hjob).
  unfold parent_among in Hnone. rewrite E in Hnone. simpl in Hnone.
  rewrite by_key_known in Hnone; [done|by apply is_tree_filter|done].
Qed.

Lemma turn_work_tree b tree own : is_tree tree -> is_tree (turn_work b tree own).1.
Proof.
  intros Ht. unfold Background.turn_work. destruct (before b); [|constructor]. destruct (protected b tree own). cbn [fst].
  unfold is_tree. rewrite by_birth_perm. by do 2 apply is_tree_filter.
Qed.

Lemma detached_tree b tree own : is_tree tree -> is_tree (detached b tree own).1.
Proof.
  intros Ht. unfold Background.detached. destruct (before b); [|constructor]. destruct (protected b tree own). cbn [fst].
  unfold is_tree. rewrite by_birth_perm. by do 2 apply is_tree_filter.
Qed.

Lemma turn_work_from b tree own m : m ∈ (turn_work b tree own).1 -> m ∈ tree.
Proof.
  unfold Background.turn_work. destruct (before b); [|set_solver]. destruct (protected b tree own). cbn [fst].
  rewrite by_birth_in, !list_elem_of_filter. tauto.
Qed.

Lemma detached_from b tree own m : m ∈ (detached b tree own).1 -> m ∈ tree.
Proof.
  unfold Background.detached. destruct (before b); [|set_solver]. destruct (protected b tree own). cbn [fst].
  rewrite by_birth_in, !list_elem_of_filter. tauto.
Qed.

Lemma is_tree_app l l' : is_tree l -> is_tree l' -> (forall m m', m ∈ l -> m' ∈ l' -> m_key m <> m_key m') -> is_tree (l ++ l').
Proof.
  unfold is_tree. rewrite fmap_app, NoDup_app. intros Hl Hl' Hd. split_and!; [done| |done].
  intros k (m & -> & Hm)%list_elem_of_fmap (m' & E & Hm')%list_elem_of_fmap. by apply (Hd m m').
Qed.

(** Nothing is named twice, where no shell that began after the mark was started by a job carried over
    it: what the chain proves the turn's and what was detached from it do not meet then. *)
Theorem nothing_is_named_twice {S} `{Owns S} b before_ tree (proved : list Member -> S -> (option keys + Error) * S) s ms s' :
  is_tree tree -> before b = Some before_ ->
  (forall shell job, shell ∈ tree -> job ∈ tree -> m_parent shell = Some (m_key job) -> runs_a_shell shell = true ->
    m_key shell ∉ before_ -> m_key job ∉ carried b) ->
  named windows b tree proved s = (inl ms, s') -> NoDup (m_key <$> ms).
Proof.
  intros Ht Hb Hapart. unfold named. destruct (turn_work b tree (own_of s)) as [work own1] eqn:Ew. cbv zeta.
  set (s1 := set_own own1 s). destruct (detached b tree (own_of s1)) as [jobs own2] eqn:Ej.
  pose proof (turn_work_tree b tree (own_of s) Ht) as Hwork. pose proof (detached_tree b tree (own_of s1) Ht) as Hjobs. rewrite Ew in Hwork. rewrite Ej in Hjobs. cbn [fst] in *.
  destruct (bool_decide (jobs = [])); [by intros [= <- _]|]. destruct (proved jobs _) as [[allowed|e] s2]; [|done]. intros [= <- _].
  rewrite by_birth_perm. apply is_tree_app; [done|by apply is_tree_filter|].
  intros m m' Hm [_ Hm']%list_elem_of_filter E.
  assert (m ∈ tree) as Hmt by (apply (turn_work_from b tree (own_of s)); by rewrite Ew). assert (m' ∈ tree) as Hmt' by (apply (detached_from b tree (own_of s1)); by rewrite Ej).
  apply (same_key tree) in E as <-; [|done..].
  destruct (both_under_carried b before_ tree (own_of s) (own_of s1) m) as (shell & job & ? & ? & ? & ? & ? & ?); [done|done|by rewrite Ew|by rewrite Ej|].
  by apply (Hapart shell job).
Qed.

(** ** What is seen to be the harness's own stays its own *)

Lemma own_protected b tree own top m : is_tree tree -> m ∈ tree -> rtc (started_by (by_key tree)) m top -> m_key top ∈ own ->
  m_key m ∈ (protected b tree own).1.
Proof.
  intros Ht Hm Hr Htop. unfold Background.protected. cbn [fst]. apply elem_of_union_r. unfold descending_from.
  rewrite decide_False by set_solver. apply keys_in_iff. exists m. rewrite list_elem_of_filter, from_roots_iff. eauto.
Qed.

Lemma own_kept b tree own k : k ∈ (protected b tree own).2 <->
  exists m, m ∈ tree /\ m_key m = k /\ k ∈ (protected b tree own).1 /\
    (k ∈ own \/ exists parent, m_parent m = Some parent /\ parent ∈ (protected b tree own).1).
Proof.
  unfold Background.protected. cbn [fst snd]. set (prot := _ ∪ descending_from own tree). rewrite keys_in_iff. split.
  - intros (m & [H Hm]%list_elem_of_filter & <-). exists m. rewrite andb_true_iff, orb_true_iff, !bool_decide_eq_true in H.
    destruct H as [Hp Ho]. split_and!; [done|done|done|]. destruct Ho as [Ho|Ho]; [by left|right].
    destruct (m_parent m) as [parent|]; [|done]. apply bool_decide_eq_true in Ho. eauto.
  - intros (m & Hm & <- & Hp & Ho). exists m. rewrite list_elem_of_filter. split_and!; [|done|done].
    rewrite bool_decide_true by done. destruct Ho as [Ho|(parent & -> & Ho)]; rewrite (bool_decide_true _ Ho); [done|]. by rewrite orb_true_r.
Qed.

Lemma own_stays b tree own k : is_tree tree -> k ∈ keys_in tree -> k ∈ own -> k ∈ (protected b tree own).2.
Proof.
  intros Ht (m & Hm & E)%keys_in_iff Hk. apply own_kept. exists m. split_and!; [done|done| |by left].
  rewrite <- E. eapply own_protected; [done|done|done|by rewrite E].
Qed.

(** A look at a tree, of any copy of a baseline: each tells the harness's own anew. *)
Inductive look :=
| Worked (b : Baseline) (tree : list Member)
| Detached (b : Baseline) (tree : list Member)
| Marked (b : Baseline) (tree : list Member) (kept : option Kept) (harness : option text)
| Commands (b : Baseline) (tree : list Member) (since : option Z) (before : Member -> bool).
Definition looked_at (l : look) : list Member :=
  match l with Worked _ tree | Detached _ tree | Marked _ tree _ _ | Commands _ tree _ _ => tree end.
Definition own_after (l : look) (own : keys) : keys :=
  match l with
  | Worked b tree => (turn_work b tree own).2
  | Detached b tree => (detached b tree own).2
  | Marked b tree kept harness => (mark windows b tree kept harness own).2
  | Commands b tree since before => (commands windows b tree since before own).2
  end.

Lemma own_after_stays l own k : is_tree (looked_at l) -> k ∈ keys_in (looked_at l) -> k ∈ own -> k ∈ own_after l own.
Proof.
  destruct l as [b tree|b tree|b tree kept harness|b tree since before]; cbn [looked_at own_after]; intros Ht Hk Ho.
  - unfold Background.turn_work. destruct (Background.before b); [|done]. pose proof (own_stays b tree own k Ht Hk Ho) as H. by destruct (protected b tree own).
  - unfold Background.detached. destruct (Background.before b); [|done]. pose proof (own_stays b tree own k Ht Hk Ho) as H. by destruct (protected b tree own).
  - unfold mark. destruct (Background.detached windows b tree own) as [jobs own1] eqn:E.
    assert (k ∈ own1) as Ho1.
    { unfold Background.detached in E. destruct (Background.before b); [|congruence]. pose proof (own_stays b tree own k Ht Hk Ho) as H.
      destruct (protected b tree own). by injection E as _ <-. }
    pose proof (own_stays (MkBaseline (Some (keys_in tree)) (match Background.before b with None => keys_in tree | Some _ => launch b end) kept harness (rests b) (next_rest b) (keys_in jobs)) tree own1 k Ht Hk Ho1) as H.
    by destruct (protected _ tree own1).
  - unfold commands. destruct (commands_kept b) as [kept|]; [|done]. destruct (if bool_decide _ then k_group kept else None); [done|].
    unfold chained. pose proof (own_stays b tree own k Ht Hk Ho) as H. by destruct (protected b tree own).
Qed.

Lemma own_over_looks looks own k : Forall (fun l => is_tree (looked_at l) /\ k ∈ keys_in (looked_at l)) looks -> k ∈ own ->
  k ∈ foldl (fun own l => own_after l own) own looks.
Proof. revert own. induction looks as [|l looks IH]; intros own Hl Ho; [done|]. apply Forall_cons in Hl as [[? ?] Hl]. apply IH; [done|]. by apply own_after_stays. Qed.

(** C27: a process that was seen to descend from one of the harness's own is its own as long as it runs, with
    whatever descends from it, though what it descended from has ended, or left what told it: whatever looks
    are made meanwhile, of whatever copies of the baseline and of a turn marked since, neither is the
    turn's work or detached from it. *)
Theorem own_stays_own b tree own m parent_ looks b' tree' x top :
  is_tree tree -> m ∈ tree -> m_parent m = Some parent_ -> parent_ ∈ (protected b tree own).1 -> m_key m ∈ (protected b tree own).1 ->
  Forall (fun l => is_tree (looked_at l) /\ m_key m ∈ keys_in (looked_at l)) looks ->
  is_tree tree' -> x ∈ tree' -> rtc (started_by (by_key tree')) x top -> m_key top = m_key m ->
  let own' := foldl (fun own l => own_after l own) (protected b tree own).2 looks in
  x ∉ (turn_work b' tree' own').1 /\ x ∉ (detached b' tree' own').1.
Proof.
  intros Ht Hm Hparent Hpp Hpm Hlooks Ht' Hx Hr Etop own'.
  assert (m_key m ∈ own') as Hown.
  { apply own_over_looks; [done|]. apply own_kept. exists m. split_and!; [done|done|done|right; eauto]. }
  assert (m_key x ∈ (protected b' tree' own').1) as Hp by (eapply own_protected; [done..|by rewrite Etop]).
  destruct (Background.before b') as [before_|] eqn:Eb.
  - split.
    + intros (_ & _ & H & _)%(turn_work_in _ _ _ _ _ Ht' Eb). done.
    + intros (_ & _ & top' & Hl & Ht2 & _)%(detached_in _ _ _ _ _ Ht' Eb). inversion Hl as [|? ? ? [H _] _]; subst; done.
  - unfold Background.turn_work, Background.detached. rewrite Eb. cbn [fst]. split; apply not_elem_of_nil.
Qed.

(** ** Jobs carried over the marks *)

Lemma no_starter_is_lost among prot m : m_parent m = None -> m_key m ∉ prot -> lost among prot m.
Proof. intros Hp Hk. by exists m. Qed.

(** A job that was detached, and is none of the harness's own, is named at each mark and each look after. *)
Lemma carried_over_a_mark b tree kept harness own m : m ∈ (detached b tree own).1 ->
  m_key m ∈ carried (mark windows b tree kept harness own).1 /\ before (mark windows b tree kept harness own).1 = Some (keys_in tree).
Proof.
  intros Hm. unfold mark. destruct (detached b tree own) as [jobs own1]. destruct (protected _ tree own1). cbn [fst carried before] in *.
  split; [by apply key_in|done].
Qed.

(** A turn's marks: the tree of each, how the harness keeps its servers and which it is; with what [own] is at each. *)
Record marking := MkMarking { at_tree : list Member; says : option Kept; says_harness : option text; sees : keys }.
Definition marked (b : Baseline) (m : marking) : Baseline := (mark windows b (at_tree m) (says m) (says_harness m) (sees m)).1.

(** A job that was detached in a turn is named after any number of turns, as long as it runs and is not
    told for the harness's own: each mark carries it over. *)
Theorem a_detached_job_is_carried b m before_ marks tree own :
  before b = Some before_ -> ~ (m_key m ∈ before_ /\ m_key m ∉ carried b) -> m_parent m = None ->
  (forall done_ next later, marks = done_ ++ next :: later -> is_tree (at_tree next) /\ m ∈ at_tree next /\
     m_key m ∉ (protected (foldl marked b done_) (at_tree next) (sees next)).1) ->
  is_tree tree -> m ∈ tree -> m_key m ∉ (protected (foldl marked b marks) tree own).1 ->
  m ∈ (detached (foldl marked b marks) tree own).1.
Proof.
  intros Hb Hnot Hparent Hmarks Ht Hm Hp.
  assert (exists before_, before (foldl marked b marks) = Some before_ /\ ~ (m_key m ∈ before_ /\ m_key m ∉ carried (foldl marked b marks))) as (before' & Hb' & Hnot').
  { clear Hp. induction marks as [|next marks IH] using rev_ind; [eauto|]. rewrite foldl_app. cbn [foldl].
    destruct IH as (bb & Hbb & Hn).
    { intros done_ n later E. apply (Hmarks done_ n (later ++ [next])). rewrite E. by rewrite <- app_assoc. }
    destruct (Hmarks marks next [] eq_refl) as (Hn1 & Hn2 & Hn3).
    assert (m ∈ (detached (foldl marked b marks) (at_tree next) (sees next)).1) as Hd.
    { apply (detached_in _ _ _ _ _ Hn1 Hbb). split_and!; [done|done|by apply no_starter_is_lost]. }
    unfold marked at 1 3. destruct (carried_over_a_mark _ _ (says next) (says_harness next) _ _ Hd) as [Hc ->].
    eexists. split; [done|]. tauto. }
  apply (detached_in _ _ _ _ _ Ht Hb'). split_and!; [done|done|by apply no_starter_is_lost].
Qed.

(** ** Rests *)

(** What the daemon says of a window: a turn begins, it is at rest. *)
Inductive said := Begins (m : marking) | Rests (tree : list Member) (keep : list Z).
Definition after_said (b : Baseline) (s : said) : Baseline :=
  match s with Begins m => marked b m | Rests tree keep => (rest b tree keep).2 end.

Lemma marked_rests b m : rests (marked b m) = rests b /\ next_rest (marked b m) = next_rest b.
Proof. unfold marked, mark. destruct (Background.detached _ _ _ _). by destruct (protected _ _ _). Qed.

Lemma in_take {A} (x : A) n l : x ∈ take n l -> x ∈ l.
Proof. rewrite <- (take_drop n l) at 2. set_solver. Qed.
Lemma in_drop {A} (x : A) n l : x ∈ drop n l -> x ∈ l.
Proof. rewrite <- (take_drop n l) at 2. set_solver. Qed.

Lemma retain_keeps keep (pre post : list (Z * keys)) e : fst e ∈ keep \/ (length post < RESTS)%nat ->
  exists pre' post', retain keep (pre ++ e :: post) = pre' ++ e :: post' /\ pre' ⊆ pre /\ (length post' <= length post)%nat.
Proof.
  intros H. unfold retain. rewrite length_app. cbn [length]. set (latest := (length pre + S (length post) - RESTS)%nat).
  destruct (decide (latest <= length pre)%nat) as [Hle|Hgt].
  - rewrite take_app_le, drop_app_le by done. exists (filter (fun r => fst r ∈ keep) (take latest pre) ++ drop latest pre), post. split_and!; [by rewrite <- app_assoc| |done].
    intros r [[_ Hr%in_take]%list_elem_of_filter|Hr%in_drop]%elem_of_app; done.
  - destruct H as [H|H]; [|unfold latest in Hgt; lia]. rewrite take_app_ge, drop_app_ge by lia.
    destruct (latest - length pre)%nat as [|k] eqn:Ek; [lia|]. cbn [take drop]. rewrite filter_app, filter_cons, decide_True by done.
    exists (filter (fun r => fst r ∈ keep) pre), (filter (fun r => fst r ∈ keep) (take k post) ++ drop k post). split_and!; [by rewrite <- app_assoc| |].
    + intros r [_ Hr]%list_elem_of_filter. done.
    + rewrite length_app. etransitivity; [apply Nat.add_le_mono_r, length_filter|]. rewrite length_take, length_drop. lia.
Qed.

Lemma retain_from keep l : retain keep l ⊆ l.
Proof. unfold retain. intros r [[_ Hr%in_take]%list_elem_of_filter|Hr%in_drop]%elem_of_app; done. Qed.

Definition numbered_before (b : Baseline) : Prop := Forall (fun r => fst r < next_rest b) (rests b).

Lemma numbered_after b s : numbered_before b -> numbered_before (after_said b s).
Proof.
  unfold numbered_before. destruct s as [m|tree keep]; cbn [after_said].
  - by destruct (marked_rests b m) as [-> ->].
  - unfold rest. destruct (commands_kept b); [|done]. cbn. intros H. apply Forall_forall. intros r Hr%retain_from.
    apply elem_of_app in Hr as [Hr| ->%list_elem_of_singleton]; [|simpl; lia]. rewrite Forall_forall in H. specialize (H r Hr). lia.
Qed.

Lemma numbered_all saids b : numbered_before b -> numbered_before (foldl after_said b saids).
Proof. revert b. induction saids as [|s saids IH]; intros b H; [done|]. by apply IH, numbered_after. Qed.

(** The rest [n] is kept, with [later] rests after it at most. *)
Definition rest_kept (b : Baseline) (n : Z) (tree : keys) (later : nat) : Prop :=
  exists pre post, rests b = pre ++ (n, tree) :: post /\ Forall (fun r => fst r <> n) pre /\ (length post <= later)%nat.

Lemma rest_kept_of b n tree later : rest_kept b n tree later -> rest_of b (Some n) = Some tree.
Proof.
  intros (pre & post & E & Hpre & _). unfold rest_of. rewrite E. cbn.
  rewrite list_find_app_r by (apply list_find_None; eapply Forall_impl; [exact Hpre|done]). cbn. by rewrite decide_True.
Qed.

Lemma rest_kept_after b n tree later s :
  rest_kept b n tree later -> match s with Begins _ => True | Rests _ keep => n ∈ keep \/ (S later < RESTS)%nat end ->
  rest_kept (after_said b s) n tree (match s with Begins _ => later | Rests _ _ => S later end).
Proof.
  intros (pre & post & E & Hpre & Hpost) Hs. unfold rest_kept. destruct s as [m|tree' keep]; cbn [after_said].
  - destruct (marked_rests b m) as [-> _]. eauto.
  - unfold rest. destruct (commands_kept b); [|cbn; eauto with lia]. cbn [snd rests]. rewrite E, <- app_assoc. cbn [app].
    destruct (retain_keeps keep pre (post ++ [(next_rest b, keys_in tree')]) (n, tree)) as (pre' & post' & -> & Hsub & Hlen).
    { rewrite length_app. simpl. destruct Hs as [Hs|Hs]; [by left|right; lia]. }
    exists pre', post'. split_and!; [done| |rewrite length_app in Hlen; simpl in Hlen; lia].
    rewrite Forall_forall in Hpre |- *. auto.
Qed.

Lemma rest_kept_all saids b n tree later :
  rest_kept b n tree later ->
  Forall (fun s => match s with Begins _ => True | Rests _ keep => n ∈ keep end) saids \/
    (later + length (filter (fun s => match s with Begins _ => false | Rests _ _ => true end = true) saids) < RESTS)%nat ->
  exists later', rest_kept (foldl after_said b saids) n tree later'.
Proof.
  revert b later. induction saids as [|s saids IH]; intros b later Hk Hs; [cbn; eauto|]. cbn [foldl].
  eapply IH; [apply rest_kept_after; [done|]|].
  - destruct s; [done|]. destruct Hs as [Hs|Hs]; [left; by inversion Hs|right]. rewrite filter_cons in Hs. simpl in Hs. lia.
  - destruct Hs as [Hs|Hs]; [left; by inversion Hs|right]. rewrite filter_cons in Hs. by destruct s; simpl in *; lia.
Qed.

(** A rest that the host answered the number of is the tree of that rest whenever it is asked of, while
    the latest few rests are after it, and however many are where each names it for one to keep: turns may
    begin meanwhile. *)
Theorem a_rest_is_the_tree_it_was_of earlier tree keep n b later :
  let b0 := foldl after_said unmarked earlier in
  rest b0 tree keep = (Some n, b) ->
  Forall (fun s => match s with Begins _ => True | Rests _ keep => n ∈ keep end) later \/
    (length (filter (fun s => match s with Begins _ => false | Rests _ _ => true end = true) later) < RESTS)%nat ->
  rest_of (foldl after_said b later) (Some n) = Some (keys_in tree).
Proof.
  cbv zeta. set (b0 := foldl after_said unmarked earlier). intros Hr Hl.
  assert (numbered_before b0) as Hn by (apply numbered_all; constructor).
  assert (rest_kept b n (keys_in tree) 0) as Hk.
  { unfold rest in Hr. destruct (commands_kept b0); [|done]. injection Hr as <- <-. unfold rest_kept. cbn [rests].
    destruct (retain_keeps keep (rests b0) [] (next_rest b0, keys_in tree)) as (pre & post & -> & Hsub & Hlen); [right; unfold RESTS; simpl; lia|].
    exists pre, post. split_and!; [done| |done]. unfold numbered_before in Hn. rewrite Forall_forall in Hn |- *. intros r Hin%Hsub. specialize (Hn r Hin). lia. }
  destruct (rest_kept_all later b n _ 0 Hk) as (later' & H); [done|]. by eapply rest_kept_of.
Qed.
End Told.

(** ** What the daemon is told *)

Lemma bounded_length command : (length (bounded command) <= COMMAND_CHARS)%nat.
Proof.
  unfold bounded. case_match eqn:E; [by apply Nat.leb_le in E|]. rewrite length_app, length_take. simpl. unfold COMMAND_CHARS. lia.
Qed.

(** Whatever was chosen, all of it is counted, and the oldest few are named, each by a bounded line. *)
Theorem what_is_listed_is_bounded chosen :
  total (listed chosen) = length chosen /\ (length (processes (listed chosen)) <= BACKGROUND_PROCESSES)%nat /\
  Forall (fun p => (length (bp_command p) <= COMMAND_CHARS)%nat) (processes (listed chosen)) /\
  (bp_pid <$> processes (listed chosen)) = key_pid ∘ m_key <$> take BACKGROUND_PROCESSES (by_birth chosen).
Proof.
  unfold listed. cbn [total processes]. split_and!.
  - apply Permutation_length, by_birth_perm.
  - rewrite length_fmap, length_take. lia.
  - apply Forall_fmap, Forall_forall. intros m _. apply bounded_length.
  - by rewrite <- list_fmap_compose.
Qed.

(** Of the detached work of a job object, what a shell is proved to have begun. *)
Lemma proved_by_birth_in detached born m : is_tree detached -> m ∈ detached ->
  m_key m ∈ proved_by_birth detached born <-> to_birth born (by_key detached) m.
Proof.
  intros Ht Hm. unfold proved_by_birth. rewrite keys_in_iff. split.
  - intros (x & [H Hx]%list_elem_of_filter & E). apply (same_key detached) in E as ->; [|done..]. by apply to_its_birth_iff.
  - intros H. exists m. rewrite list_elem_of_filter, to_its_birth_iff. done.
Qed.

(** *** A window *)

#[export] Instance member_eq_dec : EqDecision Member.
Proof. solve_decision. Defined.

Definition claude : Member := MkMember (MkKey 100 1) "claude --resume" "claude" "/opt/claude/claude" (Some 100) None.
Definition server : Member := MkMember (MkKey 150 10) "node mcp.js" "node" "/usr/bin/node" (Some 100) (Some (MkKey 100 1)).
Definition browser : Member := MkMember (MkKey 151 60) "chrome" "chrome" "/opt/chrome" (Some 151) (Some (MkKey 150 10)).
Definition shell : Member := MkMember (MkKey 200 50) "/bin/zsh -c eval 'make'" "zsh" "/bin/zsh" (Some 200) (Some (MkKey 100 1)).
Definition make : Member := MkMember (MkKey 201 51) "make" "make" "/usr/bin/make" (Some 200) (Some (MkKey 200 50)).
Definition watcher : Member := MkMember (MkKey 210 52) "node watch.js" "node" "/usr/bin/node" (Some 205) None.
Definition watchers_shell : Member := MkMember (MkKey 300 90) "sh -c build" "sh" "/bin/sh" (Some 205) (Some (MkKey 210 52)).
Definition orphan_browser : Member := MkMember (MkKey 151 60) "chrome" "chrome" "/opt/chrome" (Some 151) None.

Definition at_first : list Member := [claude; server].
Definition in_turn : list Member := [make; claude; server; watcher; shell; browser].
Definition next_turn : list Member := [claude; watchers_shell; watcher; orphan_browser].
Definition in_group : option Kept := kept_of Servers.InGroup (Some 100).
Definition first_mark : Baseline * keys := mark false unmarked at_first in_group (Some (txt "claude")) ∅.
Definition first_turn : Baseline := first_mark.1.
Definition second_turn : Baseline := (mark false first_turn in_turn in_group (Some (txt "claude")) first_mark.2).1.

Example what_it_left : m_key <$> (turn_work false first_turn in_turn ∅).1 = [MkKey 200 50; MkKey 201 51] /\
  m_key <$> (detached false first_turn in_turn ∅).1 = [MkKey 210 52].
Proof. split; vm_compute; reflexivity. Qed.

(** A shell that a carried job starts is found both ways, and named twice. *)
Definition all_may (_ : list Member) (own : keys) : (option keys + Error) * keys := (inl None, own).
Example a_carried_jobs_shell_is_named_twice :
  exists ms own, named false second_turn [claude; watchers_shell; watcher] all_may ∅ = (inl ms, own) /\
    m_key <$> ms = [MkKey 210 52; MkKey 300 90; MkKey 300 90].
Proof. eexists _, _. split; [vm_compute|]; reflexivity. Qed.

Lemma work_is_told_by_its_chain_witness :
  oldest_first (turn_work false first_turn in_turn ∅).1 /\ oldest_first (detached false first_turn in_turn ∅).1.
Proof.
  refine (proj1 (work_is_told_by_its_chain false first_turn (keys_in at_first) in_turn ∅ _ _)).
  - apply (bool_decide_unpack _). vm_compute. exact I.
  - vm_compute. reflexivity.
Defined.

Lemma nothing_is_named_twice_witness : NoDup (m_key <$> [shell; make; watcher]).
Proof.
  refine (nothing_is_named_twice false first_turn (keys_in at_first) in_turn all_may ∅ _ {[ MkKey 151 60 ]} _ _ _ _).
  - apply (bool_decide_unpack _). vm_compute. exact I.
  - vm_compute. reflexivity.
  - intros s j _ _ _ _ _. replace (carried first_turn) with (∅ : keys) by (vm_compute; reflexivity). apply not_elem_of_empty.
  - vm_compute. reflexivity.
Defined.

Definition looks_since : list look := [Marked first_turn in_turn in_group (Some (txt "claude"))].
Definition own_since : keys := foldl (fun own l => own_after false l own) (protected false first_turn in_turn ∅).2 looks_since.
Definition marks_since : list marking := [MkMarking in_turn in_group (Some (txt "claude")) ∅].

(** The server has ended, and left its browser running with no parent: it is the harness's own still. *)
Lemma own_stays_own_witness :
  orphan_browser ∉ (turn_work false second_turn next_turn own_since).1 /\ orphan_browser ∉ (detached false second_turn next_turn own_since).1.
Proof.
  apply (own_stays_own false first_turn in_turn ∅ browser (MkKey 150 10) looks_since second_turn next_turn orphan_browser orphan_browser).
  all: try (apply (bool_decide_unpack _); vm_compute; exact I).
  apply rtc_refl.
Defined.

Lemma a_detached_job_is_carried_witness : watcher ∈ (detached false (foldl (marked false) first_turn marks_since) next_turn ∅).1.
Proof.
  apply (a_detached_job_is_carried false first_turn watcher (keys_in at_first) marks_since next_turn ∅).
  all: try (apply (bool_decide_unpack _); vm_compute; exact I).
  intros [|d done_] next later E; [injection E as <- <-|by destruct done_].
  split_and!; apply (bool_decide_unpack _); vm_compute; exact I.
Defined.

Lemma a_rest_is_the_tree_it_was_of_witness :
  rest_of (foldl (after_said false) (rest (foldl (after_said false) unmarked [Begins (MkMarking at_first in_group (Some (txt "claude")) ∅)]) at_first []).2
    [Rests in_turn [0]; Rests next_turn [0; 1]]) (Some 0) = Some (keys_in at_first).
Proof.
  apply (a_rest_is_the_tree_it_was_of false [Begins (MkMarking at_first in_group (Some (txt "claude")) ∅)] at_first [] 0).
  - apply injective_projections; [vm_compute; reflexivity|reflexivity].
  - left. constructor; [|constructor; [|constructor]]; apply (bool_decide_unpack _); vm_compute; exact I.
Defined.
