(* ===== verification/PaneTurns.v ===== *)
(** * A pane's turns: [cf-panes/src/pty/turn.rs]

    What the daemon asks of a pane's turn ([pane.mark], [pane.background], [pane.commands], [pane.rest]) and
    what the host keeps of what a window left running, for its close and its exit. The table's lock is held
    for none of the walks of the system's processes: each operation asks the system of a state that others
    may have changed by then, and goes on with the copy of the baseline it took ([Asks]). On a Mac the
    system is asked through the pane's [ProcessTree] ([on_a_mac]). *)
From S2P Require Import Prelude Utf8 Keys Text ProcessTree PaneClock Background BackgroundRules.
#[local] Open Scope Z_scope.

(** Of [PaneError], what an operation of a turn answers. *)
Inductive PaneError := NotFound | Io (e : Error).

(** What of a pane its turns use: its place in the table, with its baseline, its process group and its
    clock; what the copies of its baseline share; and what was kept of what it left running ([EndedSlot]). *)
Record PaneState := MkPane { baseline : Baseline; process_group_id : option Z; clock : PaneClock }.
Record host (W : Type) := MkHost { sys : W; pane : option PaneState; own : keys; slot : option (list BackgroundProcess) }.
#[global] Arguments MkHost {_}. #[global] Arguments sys {_}. #[global] Arguments pane {_}. #[global] Arguments own {_}. #[global] Arguments slot {_}.
#[export] Instance owns_host W : Owns (host W) := {| own_of := own; set_own own h := MkHost (sys h) (pane h) own (slot h) |}.

Definition set_pane {W} (p : PaneState) (h : host W) : host W := MkHost (sys h) (Some p) (own h) (slot h).
Definition set_slot {W} (left : list BackgroundProcess) (h : host W) : host W := MkHost (sys h) (pane h) (own h) (Some left).

(** ** The operations *)

Definition H (W A : Type) : Type := host W -> A * host W.
#[export] Instance H_ret {W} : MRet (H W) := fun _ a h => (a, h).
#[export] Instance H_bind {W} : MBind (H W) := fun _ _ k m h => let '(a, h) := m h in k a h.

(** [?] *)
Definition try {W A B E} (m : H W (A + E)) (k : A -> H W (B + E)) : H W (B + E) :=
  r ← m; match r with inl a => k a | inr e => mret (inr e) end.
Definition io {W A} (m : H W (A + Error)) : H W (A + PaneError) :=
  r ← m; mret (match r with inl a => inl a | inr e => inr (Io e) end).
Definition get {W} : H W (host W) := fun h => (h, h).
Definition modify {W} (f : host W -> host W) : H W unit := fun h => (tt, f h).

(** The pane of the table. *)
Definition lock_pane {W} : H W (PaneState + PaneError) :=
  h ← get; mret (match pane h with Some p => inl p | None => inr NotFound end).

(** What [Tree] asks of the platform, and the reads of its clocks; what others do meanwhile is with them. *)
Class Asks (W : Type) := {
  windows : bool;
  reads_clocks : bool;
  members : H W (list Member + Error);
  readable_members : H W (Readable + Error);
  possibly_left_now : H W (list PossiblyLeft);
  proved : list Member -> H W (option keys + Error);
  settle : H W unit;
  clocks : H W (list Read);
  awake_start : host W -> Z -> option Z
}.

Section Turns.
Context {W : Type} `{Asks W}.

(** [Tree::named], [Tree::steady_work] *)
Definition named_now (b : Baseline) : H W (list Member + Error) :=
  try members (fun tree => named windows b tree proved).
Definition steady_work (b : Baseline) : H W (list Member + Error) :=
  try (named_now b) (fun first =>
    if bool_decide (first = []) then mret (inl first) else
    _ ← settle; try (named_now b) (fun later => mret (inl (steady first later)))).

Definition looked_at_now (b : Baseline) : H W (Background + Error) :=
  if negb (is_marked b) then mret (inl none_left) else try (named_now b) (fun ms => mret (inl (listed ms))).
Definition steadily_looked_at (b : Baseline) : H W (Background + Error) :=
  if negb (is_marked b) then mret (inl none_left) else try (steady_work b) (fun ms => mret (inl (listed ms))).

(** [EndedSlot::keep_background] *)
Definition keep_in_slot (left : list BackgroundProcess) : H W unit :=
  modify (fun h => match slot h with None => set_slot left h | Some _ => h end).
Definition or_none (r : Background + Error) : list BackgroundProcess := match r with inl b => processes b | inr _ => [] end.

(** [Pane::keep_background], of the pane [p] whose close this is. *)
Definition keep_background (p : PaneState) : H W unit :=
  h ← get;
  match slot h with
  | Some _ => mret tt
  | None => left ← steadily_looked_at (baseline p); keep_in_slot (or_none left)
  end.

(** [PaneTable::left_running_at_exit] *)
Definition left_running_at_exit : H W (list BackgroundProcess) :=
  h ← get;
  match slot h with
  | Some kept => mret kept
  | None =>
      p ← lock_pane;
      match p with
      | inr _ => mret []
      | inl p => left ← steadily_looked_at (baseline p); _ ← keep_in_slot (or_none left); h ← get; mret (default [] (slot h))
      end
  end.

(** [PaneTable::mark]: the baseline marked is the pane's once its tree was read. *)
Definition mark_pane (servers : Servers.t) (harness : option text) : H W (unit + PaneError) :=
  try lock_pane (fun first =>
  try (io members) (fun tree =>
  try lock_pane (fun p =>
    _ ← modify (fun h =>
      let '(b, own) := mark windows (baseline p) tree (kept_of servers (process_group_id first)) harness (own h) in
      set_pane (MkPane b (process_group_id p) (clock p)) (set_own own h));
    mret (inl tt)))).

(** [PaneTable::background] *)
Definition background : H W (Background + PaneError) :=
  try lock_pane (fun p =>
  try (io (looked_at_now (baseline p))) (fun found =>
    left ← possibly_left_now; mret (inl (MkBackground (total found) (processes found) left)))).

Record CommandsAnswer := MkAnswer { answered : option Background; unreadable : bool; unsettled : bool }.
Definition no_answer : CommandsAnswer := MkAnswer None false false.

(** [proved_before], [Watch::now] *)
Definition clock_now : H W (PaneClock + PaneError) :=
  try lock_pane (fun first =>
    reads ← clocks;
    h ← get;
    match pane h with
    | Some p => let seen := observe (reading reads) (clock p) in
                _ ← modify (set_pane (MkPane (baseline p) (process_group_id p) seen)); mret (inl seen)
    | None => mret (inl (observe (reading reads) (clock first)))
    end).
Definition proved_before (seen : option (Z * PaneClock)) (awake_of : Z -> option Z) (m : Member) : bool :=
  match seen with Some (after, clock) => member_began_before clock after awake_of m | None => false end.

(** [PaneTable::commands] *)
Definition commands_of_pane (since : option Z) (after : option Z) : H W (CommandsAnswer + PaneError) :=
  try lock_pane (fun p =>
    if negb (tells_commands (baseline p)) then mret (inl no_answer) else
    try (match after with
         | Some after => if reads_clocks then try clock_now (fun seen => mret (inl (Some (after, seen)))) else mret (inl None)
         | None => mret (inl None)
         end) (fun seen =>
    try (io readable_members) (fun read =>
      match read with
      | All tree => fun h =>
          let '(found, own) := commands windows (baseline p) tree since (proved_before seen (awake_start h)) (own h) in
          (inl (MkAnswer found false false), set_own own h)
      | Unreadable => mret (inl (MkAnswer None true false))
      | Unsettled => mret (inl (MkAnswer None false true))
      end))).

(** [PaneTable::rest] *)
Definition rest_pane (keep : list Z) : H W (option Z + PaneError) :=
  try lock_pane (fun first =>
    if negb (tells_commands (baseline first)) then mret (inl None) else
    try (io members) (fun tree =>
    try lock_pane (fun p =>
      let '(number, b) := rest (baseline p) tree keep in
      _ ← modify (set_pane (MkPane b (process_group_id p) (clock p))); mret (inl number)))).
End Turns.

(** *** On a Mac *)

(** A pane's [ProcessTree], asked of the system [V]; [others] is what other threads do to the pane each time. *)
Section Mac.
Context {V : Type} `{System V} (t : ProcessTree) (others : host (world V) -> host (world V)).
Context (read_clocks : V -> list Read) (awake_of : V -> Z -> option Z).

Definition of_tree {A} (ask : M V A) : H (world V) A :=
  fun h => let '(a, w) := ask (sys h) in (a, others (MkHost w (pane h) (own h) (slot h))).

Definition on_a_mac : Asks (world V) := {|
  windows := false;
  reads_clocks := true;
  members := of_tree (members_by t);
  readable_members := of_tree (readable_members_by t);
  possibly_left_now := of_tree (possibly_left_by t);
  proved _ := of_tree (r ← closing_by t; mret (match r with inl ending => inl (Some (list_to_set ending)) | inr e => inr e end));
  settle := fun h => (tt, others h);
  clocks := fun h => (read_clocks (ProcessTree.sys (sys h)), others h);
  awake_start h := awake_of (ProcessTree.sys (sys h))
|}.
End Mac.

(** ** What is kept of what a window left running *)

Section Kept.
Context {W : Type} `{Asks W}.

Lemma named_from {S} `{Owns S} w b tree (ask : list Member -> S -> (option keys + Error) * S) s ms s' :
  named w b tree ask s = (inl ms, s') -> ms ⊆ tree.
Proof.
  unfold named. destruct (turn_work w b tree (own_of s)) as [work own1] eqn:Ew. cbv zeta. destruct (detached w b tree _) as [jobs own2] eqn:Ej.
  assert (work ⊆ tree) as Hw by (intros m Hm; apply (turn_work_from w b tree (own_of s)); by rewrite Ew).
  assert (jobs ⊆ tree) as Hj by (intros m Hm; eapply (detached_from w b tree); by rewrite Ej).
  destruct (bool_decide _); [by intros [= <- _]|]. destruct (ask jobs _) as [[allowed|e] s2]; [|done]. intros [= <- _] m.
  rewrite by_birth_in, elem_of_app, list_elem_of_filter. intros [?%Hw|[_ ?%Hj]]; done.
Qed.

(** A look: the tree that was read, and what was named of it. *)
Lemma named_now_look b h ms h' : named_now b h = (inl ms, h') ->
  exists tree h1, members h = (inl tree, h1) /\ named windows b tree proved h1 = (inl ms, h') /\ ms ⊆ tree.
Proof.
  unfold named_now, try, mbind, H_bind, mret, H_ret. destruct (members h) as [[tree|e] h1] eqn:E; [|done]. intros Hn.
  exists tree, h1. split_and!; [done|done|by eapply named_from].
Qed.

(** [ms] were named at two looks: the tree of each that was read, and what was named of it. *)
Definition named_twice (b : Baseline) (h : host W) (ms : list Member) (h' : host W) : Prop :=
  exists tree1 tree2 h1 h2 h3 h4 named1 named2,
    members h = (inl tree1, h1) /\ named windows b tree1 proved h1 = (inl named1, h2) /\ named1 ⊆ tree1 /\ h3 = (settle h2).2 /\
    members h3 = (inl tree2, h4) /\ named windows b tree2 proved h4 = (inl named2, h') /\ named2 ⊆ tree2 /\
    forall m, m ∈ ms <-> m ∈ named2 /\ exists m1, m1 ∈ named1 /\ m_key m1 = m_key m.

(** What a close or an exit names as left running was there at two looks, the second made some time
    after the first: each process named was in the tree that was read at the first look and was named then,
    and is in the tree that was read at the second, and is named again; where the first look named none,
    nothing is, and no second is made. *)
Theorem what_is_kept_was_there_twice b h ms h' : steady_work b h = (inl ms, h') ->
  (ms = [] /\ named_now b h = (inl [], h')) \/ named_twice b h ms h'.
Proof.
  unfold steady_work. unfold try at 1, mbind, H_bind, mret, H_ret. destruct (named_now b h) as [[first|e] h1] eqn:E1; [|done].
  case_bool_decide as Ef; [intros [= <- <-]; by subst; left|]. unfold mbind, H_bind. destruct (settle h1) as [u h3] eqn:Es.
  unfold try, mbind, H_bind, mret, H_ret. destruct (named_now b h3) as [[later|e] h4] eqn:E2; [|done]. intros [= <- <-]. right.
  apply named_now_look in E1 as (tree1 & h1' & Hm1 & Hn1 & Hs1). apply named_now_look in E2 as (tree2 & h3' & Hm2 & Hn2 & Hs2).
  exists tree1, tree2, h1', h1, h3, h3', first, later. split_and!; try done; [by rewrite Es|].
  intros m. unfold steady. rewrite list_elem_of_filter, keys_in_iff. tauto.
Qed.

(** ** What is said is said once *)

Lemma keep_first left (h : host W) : exists kept, slot (keep_in_slot left h).2 = Some kept /\ kept = default left (slot h).
Proof. unfold keep_in_slot, modify. destruct (slot h) as [kept|] eqn:E; cbn; [rewrite E|]; eauto. Qed.

Lemma close_keeps p (h : host W) : exists kept, slot (keep_background p h).2 = Some kept /\ (forall before, slot h = Some before -> kept = before).
Proof.
  unfold keep_background, get, mbind, H_bind, mret, H_ret. destruct (slot h) as [kept|] eqn:E; [exists kept; split; [done|congruence]|].
  destruct (steadily_looked_at (baseline p) h) as [r h1]. destruct (keep_first (or_none r) h1) as (kept & Hk & _). exists kept. split; [done|congruence].
Qed.

Lemma exit_keeps (h : host W) kept : slot h = Some kept -> left_running_at_exit h = (kept, h).
Proof. intros E. unfold left_running_at_exit, get, mbind, H_bind, mret, H_ret. by rewrite E. Qed.

Lemma exit_says h said_ h' : left_running_at_exit h = (said_, h') -> pane h <> None -> slot h' = Some said_.
Proof.
  unfold left_running_at_exit, lock_pane, get, mbind, H_bind, mret, H_ret. destruct (slot h) as [kept|] eqn:E; [congruence|].
  destruct (pane h) as [p|]; [|done]. destruct (steadily_looked_at (baseline p) h) as [r h1]. destruct (keep_first (or_none r) h1) as (kept & Hk & _).
  destruct (keep_in_slot (or_none r) h1) as [u h2]. cbn in Hk. intros [= <- <-] _. by rewrite Hk.
Qed.

(** A window's close, and the telling of its exit, in any order and any number; others act between. *)
Inductive ending := Closes (p : PaneState) | Exits | Others (h : host W).
Definition end_step (h : host W) (e : ending) : host W :=
  match e with Closes p => (keep_background p h).2 | Exits => (left_running_at_exit h).2 | Others h' => h' end.

(** What a window left running is said once: what its close kept is what every exit says, and what an
    exit said is what the close that follows keeps, whatever others do between that does not take it back. *)
Theorem what_was_left_is_said_once e h kept later :
  (exists p, e = Closes p /\ slot (end_step h e) = Some kept) \/ (e = Exits /\ pane h <> None /\ (left_running_at_exit h).1 = kept) ->
  (forall before h' after, later = before ++ Others h' :: after -> slot (foldl end_step (end_step h e) before) = Some kept -> slot h' = Some kept) ->
  slot (foldl end_step (end_step h e) later) = Some kept /\ (left_running_at_exit (foldl end_step (end_step h e) later)).1 = kept.
Proof.
  intros He Hothers. assert (slot (end_step h e) = Some kept) as Hfirst.
  { destruct He as [(p & -> & Hk)|(-> & Hp & Hs)]; [done|]. cbn. destruct (left_running_at_exit h) as [said_ h'] eqn:E. cbn in *. subst. by eapply exit_says. }
  assert (slot (foldl end_step (end_step h e) later) = Some kept) as Hall.
  { induction later as [|step later IH] using rev_ind; [done|]. rewrite foldl_app. cbn [foldl].
    assert (slot (foldl end_step (end_step h e) later) = Some kept) as Hk.
    { apply IH. intros before h' after E. apply (Hothers before h' (after ++ [step])). rewrite E. by rewrite <- app_assoc. }
    destruct step as [p| |h']; cbn [end_step].
    - destruct (close_keeps p (foldl end_step (end_step h e) later)) as (kept' & -> & Hsame). by rewrite (Hsame kept).
    - by rewrite (exit_keeps _ _ Hk).
    - by apply (Hothers later h' []). }
  split; [done|]. by rewrite (exit_keeps _ _ Hall).
Qed.
End Kept.

(** ** On a Mac, what is named is the turn's by a chain, or what a close ends *)

Section NamedOnAMac.
Context {V : Type} `{System V} (t : ProcessTree) (others : host (world V) -> host (world V)).
Context (read_clocks : V -> list Read) (awake_of : V -> Z -> option Z).
#[local] Existing Instance on_a_mac.
#[local] Abbreviation asks := (on_a_mac t others read_clocks awake_of).

(** What the system's table is: no two processes have a number. *)
Definition a_table (snapshot : list Process) : Prop :=
  NoDup ((fun p => pid (identity p)) <$> snapshot) /\ Forall (fun p => 0 <= pid (identity p)) snapshot.
Context (tables : forall w, match (ProcessTree.processes w).1 with inl snapshot => a_table snapshot | inr _ => True end).

Lemma mapM_keys ks held (w : world V) : m_key <$> (mapM_ (member ks) held w).1 = (fun p => key_of (identity p)) <$> held.
Proof.
  revert w. induction held as [|p held IH]; intros w; [done|]. cbn [mapM_]. unfold mbind at 1, M_bind at 1.
  destruct (member ks p w) as [m w1] eqn:Em. unfold mbind, M_bind, mret, M_ret. specialize (IH w1). destruct (mapM_ (member ks) held w1) as [ms w2].
  cbn in *. rewrite IH. f_equal. unfold member, mbind, M_bind, mret, M_ret in Em.
  destruct (ask _ w) as [? ?]. destruct (ask _ _) as [? ?]. by injection Em as <- _.
Qed.

Lemma table_keys snapshot : a_table snapshot -> NoDup ((fun p => key_of (identity p)) <$> snapshot).
Proof.
  intros [Hn Hpos]. induction snapshot as [|p snapshot IH]; [constructor|]. rewrite fmap_cons, NoDup_cons in Hn; rewrite fmap_cons, NoDup_cons.
  apply Forall_cons in Hpos as [Hp Hpos]. destruct Hn as [Hnot Hn]. split; [|by apply IH].
  intros (q & E & Hq)%list_elem_of_fmap. apply Hnot. apply list_elem_of_fmap. exists q. split; [|done].
  rewrite Forall_forall in Hpos. specialize (Hpos q Hq). unfold key_of in E. injection E as E _. lia.
Qed.

Lemma a_table_filter (f : Process -> bool) snapshot : a_table snapshot -> a_table (List.filter f snapshot).
Proof.
  intros [Hn Hpos]. split.
  - induction snapshot as [|p snapshot IH]; [constructor|]. rewrite fmap_cons, NoDup_cons in Hn. destruct Hn as [Hnot Hn].
    apply Forall_cons in Hpos as [_ Hpos]. cbn [List.filter]. destruct (f p); [|auto]. rewrite fmap_cons, NoDup_cons. split; [|auto].
    intros (q & E & [Hq _]%list_elem_of_In%List.filter_In)%list_elem_of_fmap. apply Hnot, list_elem_of_fmap. exists q. split; [done|]. by apply list_elem_of_In.
  - rewrite Forall_forall in Hpos |- *. intros q [Hq _]%list_elem_of_In%List.filter_In. apply Hpos. by apply list_elem_of_In.
Qed.

Lemma mac_members_tree h tree h' : @members _ asks h = (inl tree, h') -> is_tree tree.
Proof.
  cbn [members on_a_mac]. unfold of_tree, members_by, ProcessTree.look, mbind, M_bind, mret, M_ret. destruct (ask ProcessTree.processes (sys h)) as [r w1] eqn:Ea.
  unfold ask in Ea. pose proof (tables (ProcessTree.sys (sys h))) as Ht. destruct (ProcessTree.processes (ProcessTree.sys (sys h))) as [r' s']. injection Ea as <- _. cbn in Ht.
  destruct r' as [snapshot|e]; [|done]. destruct (ProcessTree.observe _ _ _) as [u w2]. destruct (select t snapshot ∅ w2) as [chosen w3].
  unfold members_in. pose proof (mapM_keys (keys_of (held_in snapshot chosen)) (held_in snapshot chosen) w3) as Hk.
  destruct (mapM_ _ _ w3) as [ms w4]. intros [= <- _]. unfold is_tree. cbn in Hk. rewrite Hk. apply table_keys, a_table_filter, Ht.
Qed.

(** The harness's own in a tree, and what of it stays known: after the turn's work was told, and after the
    detached work was, with what the first left known. *)
Definition own_at_work (b : Baseline) (tree : list Member) (own_ : keys) : keys := (protected false b tree own_).1.
Definition own_at_jobs (b : Baseline) (tree : list Member) (own_ : keys) : keys := (protected false b tree (protected false b tree own_).2).1.
Definition own_left (b : Baseline) (tree : list Member) (own_ : keys) : keys := (protected false b tree (protected false b tree own_).2).2.

Lemma turn_work_own b before_ tree own_ : before b = Some before_ -> (turn_work false b tree own_).2 = (protected false b tree own_).2.
Proof. intros Hb. unfold turn_work. rewrite Hb. by destruct (protected false b tree own_). Qed.
Lemma detached_own b before_ tree own_ : before b = Some before_ -> (detached false b tree own_).2 = (protected false b tree own_).2.
Proof. intros Hb. unfold detached. rewrite Hb. by destruct (protected false b tree own_). Qed.

(** C28: on a Mac, each process that is named is of the tree the pane's process tree read for it, began after
    the mark or was carried over it, and: a chain of processes that run in that tree ties it to a shell the
    harness started, and it is none of the harness's own, what was known for its own at that read among them;
    or it, or what it descends from, has lost its starter, with none of the harness's own between, and it is of
    what a close of the window would end, as the process tree answers of the system as that read left it. And
    what is the harness's own in that tree stays known. *)
Theorem named_on_a_mac b before_ h ms h' m : @named_now _ asks b h = (inl ms, h') -> m ∈ ms -> before b = Some before_ ->
  exists tree h1, @members _ asks h = (inl tree, h1) /\ is_tree tree /\ m ∈ tree /\ ~ (m_key m ∈ before_ /\ m_key m ∉ carried b) /\
    (under_a_shell (by_key (after_mark before_ tree)) m /\ m_key m ∉ own_at_work b tree (own h1) \/
     lost (by_key (after_mark_or_carried before_ (carried b) tree)) (own_at_jobs b tree (own h1)) m /\
     exists ending, (closing_by t (sys h1)).1 = inl ending /\ m_key m ∈ ending) /\
    (h' = MkHost (sys h1) (pane h1) (own_left b tree (own h1)) (slot h1) \/
     h' = others (MkHost (closing_by t (sys h1)).2 (pane h1) (own_left b tree (own h1)) (slot h1))).
Proof.
  intros (tree & h1 & Hm & Hn & _)%named_now_look Hin Hb. pose proof (mac_members_tree _ _ _ Hm) as Ht. unfold named in Hn. change (@windows _ asks) with false in Hn.
  pose proof (turn_work_own b before_ tree (own h1) Hb) as Eown1. destruct (turn_work false b tree (own_of h1)) as [work own1] eqn:Ew.
  change (own_of h1) with (own h1) in Ew. rewrite Ew in Eown1. cbn [snd] in Eown1. cbn [own_of set_own owns_host own] in Hn.
  pose proof (detached_own b before_ tree own1 Hb) as Eown2. destruct (detached false b tree own1) as [jobs own2] eqn:Ej.
  cbn [snd sys pane slot] in Eown2, Hn. assert (own2 = own_left b tree (own h1)) as Eown3 by by rewrite Eown2, Eown1.
  exists tree, h1. split; [exact Hm|]. split; [exact Ht|]. rewrite <- Eown3.
  assert (m ∈ work \/ m ∈ jobs /\ exists ending, (closing_by t (sys h1)).1 = inl ending /\ m_key m ∈ ending) as Hwhy.
  { destruct (bool_decide (jobs = [])); [injection Hn as <- _; by left|]. cbn [proved on_a_mac] in Hn. unfold of_tree, mbind, M_bind, mret, M_ret in Hn. cbn [sys] in Hn.
    destruct (closing_by t (sys h1)) as [[ending_|e] w] eqn:Ec; [|done]. injection Hn as <- _.
    rewrite by_birth_in, elem_of_app, list_elem_of_filter in Hin. destruct Hin as [Hin|[Ha Hin]]; [by left|right]. split; [done|].
    apply bool_decide_eq_true, elem_of_list_to_set in Ha. by exists ending_. }
  assert (h' = MkHost (sys h1) (pane h1) own2 (slot h1) \/ h' = others (MkHost (closing_by t (sys h1)).2 (pane h1) own2 (slot h1))) as Hleft.
  { destruct (bool_decide (jobs = [])); [injection Hn as _ <-; by left|right]. cbn [proved on_a_mac] in Hn. unfold of_tree, mbind, M_bind, mret, M_ret in Hn. cbn [sys pane own slot] in Hn.
    destruct (closing_by t (sys h1)) as [[ending_|e] w] eqn:Ec; [|done]. by injection Hn as _ <-. }
  destruct Hwhy as [Hw|[Hj Hc]].
  - destruct (proj1 (turn_work_in false b before_ tree (own h1) m Ht Hb)) as (? & ? & ? & ?); [by rewrite Ew|].
    split_and!; [done|tauto|by left|done].
  - destruct (proj1 (detached_in false b before_ tree own1 m Ht Hb)) as (? & ? & ?); [by rewrite Ej|].
    split_and!; [done..|right; split; [|done]|done]. unfold own_at_jobs. by rewrite <- Eown1.
Qed.
End NamedOnAMac.

(** *** A machine that stays as it is *)

Module Still.
Definition runs_one (n u parent_ : Z) (s : option Z) (name : string) : Process := MkProcess (MkIdentity n (1, n) u) parent_ n s name.
Definition program_of : Process := runs_one 10 1000 700 (Some 10) "claude".
Definition table : list Process :=
  [program_of; runs_one 11 1100 1000 (Some 11) "zsh"; runs_one 12 1200 1100 (Some 11) "make"; runs_one 14 1400 1 (Some 10) "sleep"].
#[global] Instance still_system : System unit := {
  processes u := (inl table, u); runs k u := (true, u); children n u := (inl [], u); looked n u := (Looked.Readable, u);
  send i sig u := (None, u); send_group g sig u := (None, u); carries n _ u := (false, u); nobody_holds n u := (false, u);
  has_marker n _ u := (false, u); command_of _ u := (None, u); exe_of _ u := (EmptyString, u); values m := (map_to_list m).*2;
  values_are _ := Permutation_refl _
}.
Definition tree : ProcessTree := attach (Some program_of) (ProcessTree.new "marker"%string).
Definition asks : Asks (world unit) := on_a_mac tree id (fun _ => []) (fun _ _ => None).
Definition before_of : keys := {[ key_of (identity program_of) ]}.
Definition baseline_of : Baseline := MkBaseline (Some before_of) before_of None None [] 0 ∅.
Definition pane_of : PaneState := MkPane baseline_of (Some 10) (PaneClock.new None).
Definition host_of : host (world unit) := MkHost (World tt ∅ [] []) (Some pane_of) ∅ None.
Definition job : Member := MkMember (key_of (MkIdentity 14 (1, 14) 1400)) "sleep" "sleep" "" (Some 14) None.

Definition found (r : list Member + Error) : list Member := match r with inl ms => ms | inr _ => [] end.
Definition kept_of_it : list Member := found (@steady_work _ asks baseline_of host_of).1.

(** The command of the turn with its shell, and the job it left, which a close ends. *)
Example names_the_three : (fun m => key_pid (m_key m)) <$> kept_of_it = [11; 12; 14].
Proof. vm_compute. reflexivity. Qed.
Definition said_of : list BackgroundProcess := (@left_running_at_exit _ asks host_of).1.
End Still.

Lemma named_on_a_mac_witness :
  exists tree h1, @members _ Still.asks Still.host_of = (inl tree, h1) /\ is_tree tree /\ Still.job ∈ tree /\
    ~ (m_key Still.job ∈ Still.before_of /\ m_key Still.job ∉ carried Still.baseline_of) /\
    (under_a_shell (by_key (after_mark Still.before_of tree)) Still.job /\ m_key Still.job ∉ own_at_work Still.baseline_of tree (own h1) \/
     lost (by_key (after_mark_or_carried Still.before_of (carried Still.baseline_of) tree)) (own_at_jobs Still.baseline_of tree (own h1)) Still.job /\
     exists ending, (closing_by Still.tree (sys h1)).1 = inl ending /\ m_key Still.job ∈ ending) /\
    ((@named_now _ Still.asks Still.baseline_of Still.host_of).2 = MkHost (sys h1) (pane h1) (own_left Still.baseline_of tree (own h1)) (slot h1) \/
     (@named_now _ Still.asks Still.baseline_of Still.host_of).2 =
       MkHost (closing_by Still.tree (sys h1)).2 (pane h1) (own_left Still.baseline_of tree (own h1)) (slot h1)).
Proof.
  eapply (named_on_a_mac Still.tree id (fun _ => []) (fun _ _ => None)).
  - intros w. split; apply (bool_decide_unpack _); vm_compute; exact I.
  - vm_compute. reflexivity.
  - apply (bool_decide_unpack _). vm_compute. exact I.
  - reflexivity.
Defined.

Lemma what_is_kept_was_there_twice_witness :
  (Still.kept_of_it = [] /\ @named_now _ Still.asks Still.baseline_of Still.host_of = (inl [], (@steady_work _ Still.asks Still.baseline_of Still.host_of).2)) \/
  @named_twice _ Still.asks Still.baseline_of Still.host_of Still.kept_of_it (@steady_work _ Still.asks Still.baseline_of Still.host_of).2.
Proof. apply (@what_is_kept_was_there_twice _ Still.asks). vm_compute. reflexivity. Defined.

Lemma what_was_left_is_said_once_witness :
  slot (foldl (@end_step _ Still.asks) (@end_step _ Still.asks Still.host_of Exits) [Closes Still.pane_of; Exits]) = Some Still.said_of /\
  (@left_running_at_exit _ Still.asks (foldl (@end_step _ Still.asks) (@end_step _ Still.asks Still.host_of Exits) [Closes Still.pane_of; Exits])).1 = Still.said_of.
Proof.
  apply (@what_was_left_is_said_once _ Still.asks Exits Still.host_of Still.said_of [Closes Still.pane_of; Exits]).
  - right. split; [exact eq_refl|]. split; [discriminate|exact eq_refl].
  - intros before h' after E. destruct before as [|? [|? [|? before]]]; discriminate E.
Defined.
