(* ===== verification/Handles.v ===== *)
(** * The names of members: [cf-ledger/src/handles.rs]

    A member's handle is made of words of its model and its effort ([member_handle]), one that is not
    taken, and its model is looked for in it ([names_its_model]); and what a row of a ledger from before
    is listed as by its harness ([listed_model]). *)
From S2P Require Import Prelude Utf8 Keys Text JsValue Words CfWord DeliveryText.
#[local] Open Scope Z_scope.

Definition DASH : char := 0x2D.
Definition MEMBER_HANDLE_MAX : nat := 40.

(** ** What a model is called *)

Definition harness_label (harness : option text) : text :=
  match harness with
  | None => txt "its harness's"
  | Some h =>
      if decide (h = txt "claude-code") then txt "Claude Code"
      else if decide (h = txt "codex") then txt "Codex"
      else if decide (h = txt "pi") then txt "Pi"
      else if decide (h = txt "devin") then txt "Devin"
      else if decide (h = txt "muse") then txt "Muse Code"
      else h
  end.

(** A name that is blank is none. *)
Definition named (model_name : option text) : option text :=
  name ← model_name; if forallb is_whitespace name then None else Some name.

Definition model_shown (model_name model harness : option text) : text :=
  match named model_name with
  | Some name => name
  | None => match model with Some m => m | None => harness_label harness ++ txt " default" end
  end.

Definition model_and_effort (model_name model harness effort : option text) : text :=
  let shown := model_shown model_name model harness in
  match effort with
  | Some e => if bool_decide (e = []) then shown else shown ++ txt " · " ++ e
  | None => shown
  end.

Definition NEEDS_AN_EDIT : text := txt "no model: needs an edit".

(** ** Slugs *)

Definition word_parts (word : text) : list text :=
  List.filter (fun part => negb (bool_decide (part = []))) (split_by (fun c => negb (ascii_alphanumeric c)) (ascii_lower <$> word)).

Definition push_part (slug part : text) : text := (if bool_decide (slug = []) then slug else slug ++ [DASH]) ++ part.

(** [trim_end_matches('-')] *)
Fixpoint trim_dashes_start (t : text) : text :=
  match t with
  | c :: rest => if c =? DASH then trim_dashes_start rest else t
  | [] => []
  end.
Definition trim_dashes (t : text) : text := reverse (trim_dashes_start (reverse t)).

Definition cut_to_fit (slug : text) : text :=
  if (MEMBER_HANDLE_MAX <? length slug)%nat then trim_dashes (take MEMBER_HANDLE_MAX slug) else slug.

(** [slug]: its characters are ASCII, so that its bytes are they ([slug_is_a_name]). *)
Definition slug (words : list text) : text :=
  let slug := fold_left (fun slug word => fold_left push_part (word_parts word) slug) words [] in
  let slug := cut_to_fit slug in
  if bool_decide (slug = []) then txt "member" else slug.

(** ** Handles *)

Definition ends_with (suffix t : text) : bool := bool_decide (is_Some (strip_suffix suffix t)).

(** The effort, but of a name that ends with it already. *)
Definition effort_said (shown : text) (effort : option text) : text :=
  match effort with
  | Some e => if ends_with (DASH :: slug [e]) (slug [shown]) then [] else e
  | None => []
  end.

Definition numbered (name : text) (n : Z) : text :=
  let number := DASH :: show n in
  let room := (MEMBER_HANDLE_MAX - length number)%nat in
  trim_dashes (take (room `min` length name) name) ++ number.

(** The search of the numbers from [n] on, as far as [turns]. *)
Fixpoint first_free (turns : nat) (taken : text -> bool) (name : text) (n : Z) : option text :=
  match turns with
  | O => None
  | S turns => if taken (numbered name n) then first_free turns taken name (n + 1) else Some (numbered name n)
  end.

Definition member_handle (turns : nat) (shown : text) (provider effort : option text) (harness : text) (taken : text -> bool) : text :=
  let effort := effort_said shown effort in
  let plain := slug [shown; effort] in
  if negb (taken plain) then plain else
  let after_provider :=
    let with_harness := slug [harness; default [] provider; shown; effort] in
    if negb (taken with_harness) then with_harness else default with_harness (first_free turns taken with_harness 2) in
  match provider with
  | Some provider =>
      let with_provider := slug [provider; shown; effort] in
      if negb (taken with_provider) then with_provider else after_provider
  | None => after_provider
  end.

Definition SLASH : char := 0x2F.
Definition split_provider (model : text) : option text * text :=
  match split_once [SLASH] model with
  | Some (provider, id) =>
      if negb (bool_decide (provider = [])) && negb (bool_decide (id = [])) then (Some provider, id) else (None, model)
  | None => (None, model)
  end.

Definition model_handle (turns : nat) (model : text) (effort : option text) (harness : text) (taken : text -> bool) : text :=
  let '(provider, id) := split_provider model in member_handle turns id provider effort harness taken.

Definition names_its_model (handle : text) (model_name model effort : option text) : bool :=
  match (match named model_name with Some name => Some name | None => model end) with
  | None => false
  | Some shown =>
      let id := (split_provider shown).2 in
      let name := slug [id; effort_said id effort] in
      contains (DASH :: name ++ [DASH]) (DASH :: handle ++ [DASH])
  end.

(** ** The models a harness lists *)

Inductive Listed := AsTaken | FromList | ByLabel | LaunchId.
#[export] Instance listed_eq_dec : EqDecision Listed.
Proof. solve_decision. Defined.

Abbreviation ModelsList := (list (text * list text)).

(** [Vec::dedup] *)
Fixpoint dedup (l : list text) : list text :=
  match l with
  | x :: ((y :: _) as rest) => if decide (x = y) then dedup rest else x :: dedup rest
  | _ => l
  end.

Definition by_label (model : text) (effort label : option text) : option text :=
  effort ← effort;
  label ← label;
  let words := split_at DASH model in
  match List.filter (fun at_ => bool_decide (words !! at_ = Some effort)) (seq 0 (length words)) with
  | [at_] =>
      let stripped := join [DASH] (delete at_ words) in
      if negb (bool_decide (stripped = [])) && bool_decide (slug [stripped] = slug [label]) then Some stripped else None
  | _ => None
  end.

Definition listed_model (model : text) (effort label : option text) (list : ModelsList) : text * Listed :=
  let found := fst <$> List.filter (fun row : text * _ => existsb (fun launch => bool_decide (launch = model)) row.2) list in
  match dedup found with
  | [id] => (id, FromList)
  | [] =>
      if existsb (fun row => bool_decide (row.1 = model)) list then (model, AsTaken) else
      match by_label model effort label with
      | Some stripped => (stripped, ByLabel)
      | None => (model, AsTaken)
      end
  | _ => (model, LaunchId)
  end.

(** ** Harnesses *)

Module Harness.
Inductive t := Claude | Codex | Pi | Devin | Muse.
Definition ALL : list t := [Claude; Codex; Pi; Devin; Muse].
Definition as_str (h : t) : text :=
  match h with
  | Claude => txt "claude" | Codex => txt "codex" | Pi => txt "pi" | Devin => txt "devin" | Muse => txt "muse"
  end.
Definition kind (h : t) : text := match h with Claude => txt "claude-code" | other => as_str other end.
Definition from_kind (k : text) : option t := find (fun h => bool_decide (kind h = k)) ALL.
End Harness.
