(* ===== verification/HandleRules.v ===== *)
(** * What a member's name is made of

    A slug is a name: words of lowercase letters and digits, joined by a hyphen each, of forty characters
    at most, and the slug of a name is the name ([slug_is_a_name]). The name made for a member is one, and
    nobody's in its project ([member_has_a_name_of_its_own]); and it holds the model it was made of, unless
    it was cut ([name_holds_its_model], [cut_name_holds_no_model]). *)
From S2P Require Import Prelude Utf8 Keys Text JsValue Words CfWord DeliveryText DeliveryRecord Handles.
#[local] Open Scope Z_scope.

(** ** Names *)

Definition name_char (c : char) : bool := within 0x30 0x39 c || within 0x61 0x7A c.

(** The rest of a name, [after] a hyphen or at its start. *)
Fixpoint name_from (after : bool) (t : text) : bool :=
  match t with
  | [] => negb after
  | c :: t => if c =? DASH then negb after && name_from true t else name_char c && name_from false t
  end.
Definition is_name (t : text) : bool := name_from true t.

Lemma name_char_dash c : name_char c = true -> (c =? DASH) = false.
Proof. unfold name_char, DASH. intros H. ranges. destruct H as [H|H]; ranges; lia. Qed.

Lemma name_from_part b part rest : Forall (fun c => name_char c = true) part -> part <> [] ->
  name_from b (part ++ rest) = name_from false rest.
Proof.
  intros Hp. revert b. induction Hp as [|c part Hc Hp IH]; intros b Hne; [done|]. simpl. rewrite name_char_dash, Hc by done. simpl.
  destruct part as [|d part]; [done|]. by apply IH.
Qed.

Lemma name_from_app b s t : name_from b s = true -> name_from b (s ++ t) = name_from (bool_decide (s = []) && b) t.
Proof.
  revert b. induction s as [|c s IH]; intros b; simpl; [by destruct b|]. destruct (c =? DASH).
  - intros [Hb Hs]%andb_true_iff. rewrite Hb. simpl. rewrite IH by done. by destruct s.
  - intros [Hb Hs]%andb_true_iff. rewrite Hb. simpl. rewrite IH by done. by rewrite andb_false_r.
Qed.

Lemma name_from_weaken t : name_from true t = true -> name_from false t = true.
Proof. destruct t as [|c t]; simpl; [done|]. destruct (c =? DASH); [done|done]. Qed.

(** ** The end of a cut name *)

Lemma trim_dashes_snoc s c : trim_dashes (s ++ [c]) = if c =? DASH then trim_dashes s else s ++ [c].
Proof.
  unfold trim_dashes. rewrite reverse_snoc. simpl. destruct (c =? DASH); [done|]. by rewrite reverse_cons, reverse_involutive.
Qed.

Lemma trim_dashes_name b t : name_from b t = true -> trim_dashes t = t.
Proof.
  destruct t as [|c t] using rev_ind; [done|]. rewrite trim_dashes_snoc. destruct (Z.eqb_spec c DASH) as [->|]; [|done].
  assert (forall s b, name_from b (s ++ [DASH]) = false) as Hno; [|by rewrite Hno].
  induction s as [|d s IH]; intros b'; simpl; [by rewrite andb_false_r|]. rewrite !IH, !andb_false_r. by destruct (d =? DASH).
Qed.

(** What a name begins with is one, without a hyphen at its end. *)
Lemma trim_dashes_cut b s r : name_from b (s ++ r) = true -> s <> [] \/ b = false -> name_from b (trim_dashes s) = true.
Proof.
  assert (forall s b c r, (c =? DASH) = false -> name_from b (s ++ c :: r) = true -> name_from b (s ++ [c]) = true) as Hplain.
  { clear. induction s as [|d s IH]; intros b c r Ec; simpl; [rewrite Ec; intros [-> _]%andb_true_iff; done|].
    destruct (d =? DASH); intros [-> H]%andb_true_iff; by eapply IH. }
  assert (forall s b r, name_from b (s ++ DASH :: r) = true -> name_from b s = true) as Hdash.
  { clear. induction s as [|d s IH]; intros b r; simpl; [by intros [-> _]%andb_true_iff|].
    destruct (d =? DASH); intros [-> H]%andb_true_iff; by eapply IH. }
  intros H Hne. destruct s as [|c s] using rev_ind; [destruct Hne as [?| ->]; done|]. clear IHs. rewrite <- app_assoc in H. simpl in H.
  rewrite trim_dashes_snoc. destruct (Z.eqb_spec c DASH) as [->|Hc%Z.eqb_neq].
  - apply Hdash in H as Hs. by rewrite (trim_dashes_name b).
  - by eapply Hplain.
Qed.

(** ** Slugs *)

(** A slug before it is cut. *)
Definition spelled (words : list text) : text := fold_left (fun slug word => fold_left push_part (word_parts word) slug) words [].

Definition part_ok (part : text) : Prop := part <> [] /\ Forall (fun c => name_char c = true) part.

Lemma lower_alphanumeric c : ascii_alphanumeric (ascii_lower c) = true -> name_char (ascii_lower c) = true.
Proof.
  unfold ascii_alphanumeric, ascii_lower, name_char, within. intros H. repeat case_match; lia.
Qed.

Lemma word_parts_ok word : Forall part_ok (word_parts word).
Proof.
  unfold word_parts. apply Forall_forall. intros part [Hin Hne]%list_elem_of_In%filter_In. apply list_elem_of_In in Hin.
  apply negb_true_iff, bool_decide_eq_false in Hne. split; [done|]. apply Forall_forall. intros c Hc.
  pose proof (split_by_in _ _ _ _ Hin Hc) as (d & -> & _)%list_elem_of_fmap. apply lower_alphanumeric.
  pose proof (split_by_parts (fun c => negb (ascii_alphanumeric c)) (ascii_lower <$> word)) as Hs. rewrite Forall_forall in Hs.
  specialize (Hs part Hin). rewrite Forall_forall in Hs. specialize (Hs _ Hc). by apply negb_false_iff in Hs.
Qed.

(** What is spelled so far: nothing yet, or a name. *)
Abbreviation spelling t := (t = [] \/ is_name t = true).

Lemma push_part_name t part : spelling t -> part_ok part -> is_name (push_part t part) = true.
Proof.
  intros Ht [Hne Hp]. unfold push_part. destruct (bool_decide (t = [])) eqn:E.
  - apply bool_decide_eq_true in E as ->. simpl. unfold is_name. rewrite <- (app_nil_r part). by rewrite name_from_part.
  - apply bool_decide_eq_false in E. destruct Ht as [->|Ht]; [done|]. unfold is_name in *. rewrite <- app_assoc, name_from_app by done.
    rewrite bool_decide_eq_false_2 by done. simpl. rewrite <- (app_nil_r part). by rewrite name_from_part.
Qed.

Lemma push_parts_spelling parts t : Forall part_ok parts -> spelling t -> spelling (fold_left push_part parts t).
Proof. intros Hp. revert t. induction Hp as [|part parts Hx Hp IH]; intros t Ht; [done|]. simpl. apply IH. right. by apply push_part_name. Qed.

Lemma spelled_spelling words : spelling (spelled words).
Proof.
  unfold spelled. assert (forall t, spelling t -> spelling (fold_left (fun slug word => fold_left push_part (word_parts word) slug) words t)) as H; [|apply H; by left].
  induction words as [|word words IH]; intros t Ht; [done|]. simpl. apply IH, push_parts_spelling; [apply word_parts_ok|done].
Qed.

Lemma slug_spelled words : slug words = if bool_decide (cut_to_fit (spelled words) = []) then txt "member" else cut_to_fit (spelled words).
Proof. done. Qed.

Lemma trim_dashes_length t : (length (trim_dashes t) <= length t)%nat.
Proof.
  induction t as [|c t IH] using rev_ind; [done|]. rewrite trim_dashes_snoc, length_app. destruct (c =? DASH); [simpl; lia|rewrite length_app; done].
Qed.

Lemma slug_name words : is_name (slug words) = true /\ (length (slug words) <= MEMBER_HANDLE_MAX)%nat.
Proof.
  rewrite slug_spelled. set (cut := cut_to_fit _).
  assert (cut = [] \/ is_name cut = true) as Hc.
  { unfold cut, cut_to_fit. destruct (Nat.ltb_spec MEMBER_HANDLE_MAX (length (spelled words))) as [Hlt|]; [|apply spelled_spelling].
    destruct (spelled_spelling words) as [E|E]; [rewrite E in Hlt; simpl in Hlt; lia|]. right.
    apply (trim_dashes_cut true _ (drop MEMBER_HANDLE_MAX (spelled words))); [by rewrite take_drop|]. left.
    intros H. apply (f_equal length) in H. rewrite length_take in H. simpl in H. unfold MEMBER_HANDLE_MAX in *. lia. }
  assert (length cut <= MEMBER_HANDLE_MAX)%nat as Hl.
  { unfold cut, cut_to_fit. destruct (Nat.ltb_spec MEMBER_HANDLE_MAX (length (spelled words))); [|done].
    etrans; [apply trim_dashes_length|]. rewrite length_take. lia. }
  destruct (bool_decide (cut = [])) eqn:E; [split; [vm_compute; reflexivity|vm_compute; lia]|]. apply bool_decide_eq_false in E. by destruct Hc.
Qed.

(** ** The slug of a name *)

(** A text whose separators are hyphens is its parts, joined. *)
Lemma join_cons sep t parts : parts <> [] -> join sep (t :: parts) = t ++ sep ++ join sep parts.
Proof. by destruct parts. Qed.

Lemma join_split p t : Forall (fun c => p c = true -> c = DASH) t -> join [DASH] (split_by p t) = t.
Proof.
  induction 1 as [|c t Hc Ht IH]; [done|]. simpl. pose proof (split_by_ne p t). destruct (p c) eqn:E.
  - rewrite join_cons, IH by done. by rewrite Hc.
  - destruct (split_by p t) as [|first rest]; [done|]. rewrite <- IH. by destruct rest.
Qed.

Lemma push_parts_join parts t : Forall part_ok parts -> t <> [] ->
  fold_left push_part parts t = join [DASH] (t :: parts).
Proof.
  intros Hp. revert t. induction Hp as [|part parts Hx Hp IH]; intros t Ht; [done|]. rewrite join_cons by done. simpl fold_left.
  rewrite IH by (unfold push_part; rewrite bool_decide_eq_false_2 by done; by destruct t).
  unfold push_part at 1. rewrite bool_decide_eq_false_2 by done. destruct parts as [|q parts]; simpl; rewrite <- ?app_assoc; done.
Qed.

Lemma name_char_own c : name_char c = true -> ascii_lower c = c /\ ascii_alphanumeric c = true.
Proof. unfold name_char, ascii_lower, ascii_alphanumeric, within. intros H. repeat case_match; split; lia. Qed.

(** The parts of a name are none empty. *)
Lemma name_parts b t : name_from b t = true -> exists first rest,
  split_by (fun c => negb (ascii_alphanumeric c)) t = first :: rest /\ (b = true -> first <> []) /\ Forall (fun part => part <> []) rest.
Proof.
  revert b. induction t as [|c t IH]; intros b; simpl; [exists [], []; split_and!; [done|by destruct b|constructor]|].
  destruct (Z.eqb_spec c DASH) as [->|_]; intros [Hb Ht]%andb_true_iff.
  - simpl. destruct (IH true Ht) as (first & rest & -> & Hf & Hr). exists [], (first :: rest). split_and!; [done|by destruct b|].
    constructor; auto.
  - destruct (name_char_own c Hb) as [_ ->]. simpl. destruct (IH false Ht) as (first & rest & -> & _ & Hr). by exists (c :: first), rest.
Qed.

Lemma name_separators t b : name_from b t = true -> Forall (fun c => negb (ascii_alphanumeric c) = true -> c = DASH) t /\ ascii_lower <$> t = t.
Proof.
  revert b. induction t as [|c t IH]; intros b; [split; [constructor|done]|]. rewrite fmap_cons. simpl name_from. destruct (Z.eqb_spec c DASH) as [->|_];
    intros [Hb Ht]%andb_true_iff; destruct (IH _ Ht) as [H1 H2].
  - rewrite H2. split; [by constructor|done].
  - destruct (name_char_own c Hb) as [-> Ha]. rewrite H2. split; [constructor; [by rewrite Ha|done]|done].
Qed.

Lemma parts_kept parts : Forall (fun part : text => part <> []) parts -> List.filter (fun part => negb (bool_decide (part = []))) parts = parts.
Proof. induction 1 as [|x parts Hx _ IH]; [done|]. simpl. by rewrite bool_decide_eq_false_2, IH. Qed.

Lemma spelled_name t : is_name t = true -> spelled [t] = t.
Proof.
  intros Ht. unfold spelled. simpl. unfold word_parts. destruct (name_separators t true Ht) as [Hs Hl]. rewrite Hl.
  destruct (name_parts true t Ht) as (first & rest & E & Hf & Hr).
  assert (Forall (fun part => part <> []) (first :: rest)) as Hall by (constructor; auto).
  rewrite E, parts_kept by done.
  pose proof (word_parts_ok t) as Hok. unfold word_parts in Hok. rewrite Hl, E, parts_kept in Hok by done.
  apply Forall_cons in Hok as [_ Hok]. simpl. unfold push_part at 2. rewrite bool_decide_eq_true_2 by done. simpl.
  rewrite push_parts_join by auto. rewrite <- E. by apply join_split.
Qed.

(** A slug is a name, words of lowercase letters and digits with a hyphen between each two, of forty
    characters at most, whatever it is made of; and the slug of such a name is that name. *)
Theorem slug_is_a_name words : is_name (slug words) = true /\ (length (slug words) <= MEMBER_HANDLE_MAX)%nat /\
  forall t, is_name t = true -> (length t <= MEMBER_HANDLE_MAX)%nat -> slug [t] = t.
Proof.
  destruct (slug_name words) as [H1 H2]. split_and!; [done|done|]. intros t Ht Hl. rewrite slug_spelled, spelled_name by done.
  unfold cut_to_fit. destruct (Nat.ltb_spec MEMBER_HANDLE_MAX (length t)); [lia|]. rewrite bool_decide_eq_false_2; [done|].
  intros ->. done.
Qed.

(** ** Numbers after a name *)

Lemma unsigned_length n k : 0 <= n < 10 ^ Z.of_nat k -> (0 < k)%nat -> (length (unsigned n) <= k)%nat.
Proof.
  unfold unsigned. generalize (Z.to_nat (Z.log2 n) + 1)%nat as fuel. intros fuel. revert n k.
  induction fuel as [|fuel IH]; intros n k Hn Hk; [simpl; lia|]. cbn [digits]. rewrite length_app. simpl.
  destruct (Z.ltb_spec n 10); [simpl; lia|]. destruct k as [|k]; [lia|]. rewrite Nat2Z.inj_succ, Z.pow_succ_r in Hn by lia.
  destruct k as [|k]; [simpl in Hn; lia|]. enough (length (digits fuel (n / 10)) <= S k)%nat by lia.
  apply IH; [|lia]. split; [apply Z.div_pos; lia|]. apply Z.div_lt_upper_bound; lia.
Qed.

Lemma show_unsigned n : 0 <= n -> show n = unsigned n.
Proof. intros Hn. unfold show. by destruct (Z.ltb_spec n 0); [lia|]. Qed.

Lemma show_name_chars n : 0 <= n -> Forall (fun c => name_char c = true) (show n) /\ show n <> [].
Proof.
  intros Hn. rewrite show_unsigned by done. destruct (unsigned_spec n Hn) as (H & Hne & _). split; [|done].
  eapply Forall_impl; [exact H|]. intros c Hc. unfold name_char. change (within 0x30 0x39 c = true) in Hc. by rewrite Hc.
Qed.

(** What is after the last hyphen. *)
Lemma last_dash s t u v : Forall (fun c => c <> DASH) u -> Forall (fun c => c <> DASH) v -> s ++ DASH :: u = t ++ DASH :: v -> u = v.
Proof.
  intros Hu Hv E. apply (f_equal reverse) in E. rewrite !reverse_app, !reverse_cons, <- !app_assoc in E.
  apply (f_equal (split_once [DASH])) in E.
  rewrite !(split_once_first [] DASH) in E by by apply Forall_reverse. injection E as E _. by apply (inj reverse).
Qed.

Lemma numbered_inj name1 name2 n m : 0 <= n -> 0 <= m -> numbered name1 n = numbered name2 m -> n = m.
Proof.
  intros Hn Hm E. unfold numbered in E. apply last_dash in E; [by apply show_inj|..];
    (eapply Forall_impl; [by apply show_name_chars|]; intros c Hc%name_char_dash ->; done).
Qed.

(** Numbers of [digits] digits at most. *)
Lemma numbered_name name n digits : is_name name = true -> 0 <= n < 10 ^ Z.of_nat digits -> (0 < digits < MEMBER_HANDLE_MAX - 1)%nat ->
  is_name (numbered name n) = true /\ (length (numbered name n) <= MEMBER_HANDLE_MAX)%nat.
Proof.
  intros Hname Hn Hd. destruct (show_name_chars n) as [Hc Hne]; [lia|].
  assert (length (show n) <= digits)%nat as Hl by (rewrite show_unsigned by lia; apply unsigned_length; lia). unfold numbered.
  rewrite length_app. cbn [length]. set (room := (MEMBER_HANDLE_MAX - S (length (show n)))%nat).
  assert (name_from true (trim_dashes (take (room `min` length name) name)) = true) as Hcut.
  { apply (trim_dashes_cut true _ (drop (room `min` length name) name)); [by rewrite take_drop|]. left. intros E.
    apply (f_equal length) in E. rewrite length_take in E. simpl in E. destruct name; [done|]. simpl in E. unfold MEMBER_HANDLE_MAX in *. lia. }
  split.
  - unfold is_name. rewrite name_from_app by done. rewrite bool_decide_eq_false_2 by (intros E; by rewrite E in Hcut). simpl.
    rewrite <- (app_nil_r (show n)). by rewrite name_from_part.
  - pose proof (trim_dashes_length (take (room `min` length name) name)) as Ht. rewrite length_take in Ht. unfold MEMBER_HANDLE_MAX in *. lia.
Qed.

(** ** A name of its own *)

(** Of more names than are taken one is free. *)
Lemma some_free (taken : text -> bool) l names : (forall h, taken h = true -> h ∈ l) -> NoDup names -> (length l < length names)%nat ->
  exists h, h ∈ names /\ taken h = false.
Proof.
  intros Htaken Hnd Hlt. destruct (decide (Forall (fun h => taken h = true) names)) as [Hall|Hn].
  - assert (names ⊆+ l) as Hsub%submseteq_length; [|lia]. apply NoDup_submseteq; [done|]. rewrite Forall_forall in Hall. auto.
  - apply not_Forall_Exists in Hn; [|apply _]. apply Exists_exists in Hn as (h & Hh & E). exists h. split; [done|]. by apply not_true_is_false.
Qed.

(** The search of the numbers ends with the first that is free. *)
Lemma first_free_spec turns taken name n : 0 <= n ->
  match first_free turns taken name n with
  | Some h => exists k, n <= k < n + Z.of_nat turns /\ h = numbered name k /\ taken h = false
  | None => forall k, n <= k < n + Z.of_nat turns -> taken (numbered name k) = true
  end.
Proof.
  revert n. induction turns as [|turns IH]; intros n Hn; [simpl; lia|]. simpl. destruct (taken (numbered name n)) eqn:E.
  - specialize (IH (n + 1)). destruct (first_free turns taken name (n + 1)) as [h|].
    + destruct IH as (k & Hk & H); [lia|]. exists k. split; [lia|done].
    + intros k Hk. destruct (decide (k = n)) as [->|]; [done|]. apply IH; lia.
  - exists n. split; [lia|done].
Qed.

Lemma first_free_finds turns taken name n l : (forall h, taken h = true -> h ∈ l) -> (length l < turns)%nat -> 0 <= n ->
  exists k, first_free turns taken name n = Some (numbered name k) /\ n <= k < n + Z.of_nat turns /\ taken (numbered name k) = false.
Proof.
  intros Htaken Hlt Hn. pose proof (first_free_spec turns taken name n Hn) as H. destruct (first_free turns taken name n) as [h|].
  - destruct H as (k & Hk & -> & Ht). by exists k.
  - destruct (some_free taken l ((fun i => numbered name (n + Z.of_nat i)) <$> seq 0 turns)) as (h & Hh & Ht); [done| | |].
    + apply NoDup_fmap_2_strong; [|apply NoDup_seq]. intros i j _ _ E. apply numbered_inj in E; lia.
    + by rewrite length_fmap, length_seq.
    + apply list_elem_of_fmap in Hh as (i & -> & Hi%elem_of_seq). rewrite H in Ht; [done|lia].
Qed.

Lemma member_handle_tried turns shown provider effort harness taken l :
  (forall h, taken h = true -> h ∈ l) -> (length l < turns)%nat ->
  let h := member_handle turns shown provider effort harness taken in
  taken h = false /\ exists k, 2 <= k < 2 + Z.of_nat turns /\
  (h = slug [shown; effort_said shown effort] \/ (exists p, provider = Some p /\ h = slug [p; shown; effort_said shown effort]) \/
   h = slug [harness; default [] provider; shown; effort_said shown effort] \/
   h = numbered (slug [harness; default [] provider; shown; effort_said shown effort]) k).
Proof.
  intros Htaken Hlt. cbv zeta. unfold member_handle. cbv zeta.
  destruct (first_free_finds turns taken (slug [harness; default [] provider; shown; effort_said shown effort]) 2 l) as (k & -> & Hk & Hf); [done..|lia|].
  simpl default. repeat case_match; split; try done; try (by apply negb_true_iff);
    exists k; (split; [done|]); eauto 6.
Qed.

Lemma model_handle_own turns model effort harness taken l :
  (forall h, taken h = true -> h ∈ l) -> (length l < turns)%nat -> Z.of_nat turns < 2 ^ 63 ->
  let h := model_handle turns model effort harness taken in
  taken h = false /\ is_name h = true /\ (length h <= MEMBER_HANDLE_MAX)%nat.
Proof.
  intros Htaken Hlt Hturns. cbv zeta. unfold model_handle. destruct (split_provider model) as [provider id].
  destruct (member_handle_tried turns id provider effort harness taken l Htaken Hlt) as (Hf & k & Hk & Hh). split; [exact Hf|].
  destruct Hh as [->|[(p & _ & ->)|[->| ->]]]; try apply slug_name.
  apply (numbered_name _ _ 20); [apply slug_name|lia|unfold MEMBER_HANDLE_MAX; lia].
Qed.

(** A member's name is its own: nobody of the project has it, whatever names are taken, and it is a
    name of forty characters at most, the number after it included; the search for it ends after as many
    numbers as there are names taken, and one. *)
Theorem member_has_a_name_of_its_own turns model effort harness taken l :
  (forall h, taken h = true -> h ∈ l) -> (length l < turns)%nat -> Z.of_nat turns < 2 ^ 63 ->
  let h := model_handle turns model effort harness taken in
  taken h = false /\ is_name h = true /\ (length h <= MEMBER_HANDLE_MAX)%nat.
Proof. apply model_handle_own. Qed.

(** ** The model a name holds *)

Definition all_parts (words : list text) : list text := words ≫= word_parts.

Lemma all_parts_ok words : Forall part_ok (all_parts words).
Proof. induction words as [|w words IH]; [constructor|]. apply Forall_app. split; [apply word_parts_ok|done]. Qed.

Lemma spelled_join words : spelled words = join [DASH] (all_parts words).
Proof.
  assert (forall t, fold_left (fun slug word => fold_left push_part (word_parts word) slug) words t = fold_left push_part (all_parts words) t) as E.
  { induction words as [|w words IH]; intros t; [done|]. simpl. unfold all_parts. cbn [mbind list_bind]. by rewrite fold_left_app, IH. }
  unfold spelled. rewrite E. pose proof (all_parts_ok words) as Hp. destruct (all_parts words) as [|p ps]; [done|]. apply Forall_cons in Hp as [[Hne _] Hp].
  simpl. unfold push_part at 2. rewrite bool_decide_eq_true_2 by done. simpl. by apply push_parts_join.
Qed.

Lemma join_app ps qs : qs <> [] -> exists s, join [DASH] (ps ++ qs) = s ++ join [DASH] qs /\ (s = [] \/ exists s', s = s' ++ [DASH]).
Proof.
  intros Hq. induction ps as [|p ps (s & E & Hs)]; [exists []; auto|]. simpl app. rewrite join_cons, E by (destruct ps; [done|done]).
  exists (p ++ [DASH] ++ s). rewrite <- !app_assoc. split; [done|]. right. destruct Hs as [->|(s' & ->)]; [exists p; done|].
  exists (p ++ [DASH] ++ s'). by rewrite <- !app_assoc.
Qed.

(** Words behind others, as they are spelled. *)
Lemma spelled_behind before words : spelled words <> [] -> exists s, spelled (before ++ words) = s ++ spelled words /\
  (s = [] \/ exists s', s = s' ++ [DASH]).
Proof.
  rewrite !spelled_join. intros Hne. unfold all_parts. rewrite bind_app. apply join_app. unfold all_parts in Hne. by intros E; rewrite E in Hne.
Qed.

Lemma slug_whole words : spelled words <> [] -> (length (spelled words) <= MEMBER_HANDLE_MAX)%nat -> slug words = spelled words.
Proof.
  intros Hne Hl. rewrite slug_spelled. unfold cut_to_fit. destruct (Nat.ltb_spec MEMBER_HANDLE_MAX (length (spelled words))); [lia|].
  by rewrite bool_decide_eq_false_2.
Qed.

Lemma stands_in s name u : (s = [] \/ exists s', s = s' ++ [DASH]) -> (u = [] \/ exists u', u = DASH :: u') ->
  contains (DASH :: name ++ [DASH]) (DASH :: (s ++ name ++ u) ++ [DASH]) = true.
Proof.
  intros Hs Hu. assert (exists a b, DASH :: (s ++ name ++ u) ++ [DASH] = a ++ (DASH :: name ++ [DASH]) ++ b) as (a & b & ->); [|apply contains_here].
  assert (exists a, DASH :: s = a ++ [DASH]) as [a Ea] by (destruct Hs as [->|[s' ->]]; [by exists []|by exists (DASH :: s')]).
  assert (exists b, u ++ [DASH] = DASH :: b) as [b Eb] by (destruct Hu as [->|[u' ->]]; [by exists []|by eexists]).
  exists a, b. rewrite <- !app_assoc, Eb, app_comm_cons, Ea, <- !app_assoc. simpl. by rewrite <- app_assoc.
Qed.

(** The words of a model's name: its id, and its effort if the id does not end with it. *)
Definition words_of_model (model : text) (effort : option text) : list text :=
  [(split_provider model).2; effort_said (split_provider model).2 effort].

(** The name made for a member holds the model and the effort it runs on, as they are looked for in it,
    whatever had to go in front of it or after it, where all of it fits: the harness, the provider, the
    model, the effort and the number. *)
Theorem name_holds_its_model turns model other effort harness taken l digits :
  (forall h, taken h = true -> h ∈ l) -> (length l < turns)%nat -> 2 + Z.of_nat turns <= 10 ^ Z.of_nat digits ->
  forallb is_whitespace model = false ->
  spelled (words_of_model model effort) <> [] ->
  (length (spelled (harness :: default [] (split_provider model).1 :: words_of_model model effort)) + 1 + digits <= MEMBER_HANDLE_MAX)%nat ->
  names_its_model (model_handle turns model effort harness taken) (Some model) other effort = true.
Proof.
  intros Htaken Hlt Hd Hb. unfold words_of_model. destruct (split_provider model) as [provider id] eqn:Es. cbn [fst snd]. intros Hne Hfit.
  assert (0 < digits)%nat as Hpos by (destruct digits; [simpl in Hd; lia|lia]).
  destruct (spelled_behind [harness; default [] provider] [id; effort_said id effort] Hne) as (s & E & Hs). cbn [app] in E.
  assert (slug [id; effort_said id effort] = spelled [id; effort_said id effort]) as E1.
  { apply slug_whole; [done|]. rewrite E, length_app in Hfit. lia. }
  assert (slug [harness; default [] provider; id; effort_said id effort] = s ++ spelled [id; effort_said id effort]) as E2.
  { rewrite <- E. apply slug_whole; [|lia]. rewrite E. by intros [_ ?]%app_nil. }
  unfold names_its_model, named. cbn [mbind option_bind]. rewrite Hb, Es. cbn [snd]. rewrite E1. unfold model_handle. rewrite Es.
  destruct (member_handle_tried turns id provider effort harness taken l Htaken Hlt) as (_ & k & Hk & Hh).
  destruct Hh as [->|[(p & -> & ->)|[->| ->]]].
  - rewrite E1. pose proof (stands_in [] (spelled [id; effort_said id effort]) []) as H. rewrite app_nil_r in H. auto.
  - destruct (spelled_behind [p] [id; effort_said id effort] Hne) as (s' & E' & Hs'). cbn [app] in E'.
    destruct (spelled_behind [harness] [p; id; effort_said id effort]) as (s2 & E3 & _); [rewrite E'; by intros [_ ?]%app_nil|].
    assert (slug [p; id; effort_said id effort] = spelled [p; id; effort_said id effort]) as ->.
    { apply slug_whole; [rewrite E'; by intros [_ ?]%app_nil|]. cbn [app] in E3. simpl default in Hfit. rewrite E3, length_app in Hfit. lia. }
    rewrite E'. pose proof (stands_in s' (spelled [id; effort_said id effort]) []) as H. rewrite app_nil_r in H. auto.
  - rewrite E2. pose proof (stands_in s (spelled [id; effort_said id effort]) []) as H. rewrite app_nil_r in H. auto.
  - rewrite E2. unfold numbered. cbn [length].
    assert (length (show k) <= digits)%nat as Hl by (rewrite show_unsigned by lia; apply unsigned_length; lia).
    rewrite E in Hfit. rewrite Nat.min_r by lia. rewrite take_ge by lia.
    rewrite (trim_dashes_name true); [rewrite <- (app_assoc s); apply stands_in; [done|right; by eexists]|].
    rewrite <- E2. apply slug_name.
Qed.

(** ** Examples *)

Definition taken_names (l : list string) (h : text) : bool := bool_decide (h ∈ txt <$> l).

(** A name is cut where it is forty characters long, in a word too. *)
Example slug_is_cut_in_a_word : slug [txt "a-very-long-model-id-that-some-harness-may-send-one-day"] = txt "a-very-long-model-id-that-some-harness-m".
Proof. vm_compute. reflexivity. Qed.

(** The name of a member whose model's name is taken already, with its harness in front, is cut, and does
    not hold its model. *)
Theorem cut_name_holds_no_model : exists model effort harness l,
  names_its_model (model_handle 3 (txt model) (Some (txt effort)) (txt harness) (taken_names l)) (Some (txt model)) None (Some (txt effort)) = false.
Proof. exists "claude-opus-5-5-fast-preview-1m"%string, "xhigh"%string, "devin"%string, ["claude-opus-5-5-fast-preview-1m-xhigh"%string]. vm_compute. reflexivity. Qed.

Lemma taken_names_in l h : taken_names l h = true -> h ∈ txt <$> l.
Proof. apply bool_decide_eq_true. Qed.

Definition SWE : list string := ["swe-2"; "devin-swe-2"]%string.
Lemma member_has_a_name_of_its_own_witness :
  let h := model_handle 3 (txt "swe-2") None (txt "devin") (taken_names SWE) in
  h = txt "devin-swe-2-2" /\ taken_names SWE h = false /\ is_name h = true /\ (length h <= MEMBER_HANDLE_MAX)%nat.
Proof.
  cbv zeta. split; [vm_compute; reflexivity|].
  apply (member_has_a_name_of_its_own 3 (txt "swe-2") None (txt "devin") (taken_names SWE) (txt <$> SWE)); [apply taken_names_in|simpl; lia|lia].
Defined.

Definition OPUS : list string := ["claude-opus-5-5-high"; "anthropic-claude-opus-5-5-high"; "pi-anthropic-claude-opus-5-5-high"]%string.
Lemma name_holds_its_model_witness :
  let h := model_handle 4 (txt "anthropic/claude-opus-5-5") (Some (txt "high")) (txt "pi") (taken_names OPUS) in
  h = txt "pi-anthropic-claude-opus-5-5-high-2" /\ names_its_model h (Some (txt "anthropic/claude-opus-5-5")) None (Some (txt "high")) = true.
Proof.
  cbv zeta. split; [vm_compute; reflexivity|].
  refine (name_holds_its_model 4 (txt "anthropic/claude-opus-5-5") None (Some (txt "high")) (txt "pi") (taken_names OPUS) (txt <$> OPUS) 1
            (taken_names_in OPUS) _ _ _ _ _).
  - apply Nat.ltb_lt. vm_compute. reflexivity.
  - apply Z.leb_le. vm_compute. reflexivity.
  - vm_compute. reflexivity.
  - vm_compute. discriminate.
  - apply Nat.leb_le. vm_compute. reflexivity.
Defined.
