(* ===== verification/HandleLedger.v ===== *)
(** * The participants' table, as members are named in it: [cf-ledger/src/handles.rs]

    [rename_member], what an edit and an entry name a member ([staff.rs], [projects.rs]), and the two
    migrations. *)
From S2P Require Import Prelude Utf8 Keys Text JsValue Words CfWord DeliveryText Handles.
#[local] Open Scope Z_scope.

(** A row of [participant], as far as names go: a window's [p_member] is the member it is of; a former
    name is an item of the column's JSON list. *)
Record participant := Participant {
  p_id : Z;
  p_project : Z;
  p_member : option Z;
  p_role : text;
  p_handle : text;
  p_agent : option text;
  p_harness : option text;
  p_model : option text;
  p_effort : option text;
  p_model_name : option text;
  p_needs_edit : bool;
  p_former : list text
}.
Abbreviation table := (list participant).

Definition with_handle (h : text) (p : participant) : participant :=
  Participant (p_id p) (p_project p) (p_member p) (p_role p) h (p_agent p) (p_harness p) (p_model p) (p_effort p)
              (p_model_name p) (p_needs_edit p) (p_former p).
Definition with_former (l : list text) (p : participant) : participant :=
  Participant (p_id p) (p_project p) (p_member p) (p_role p) (p_handle p) (p_agent p) (p_harness p) (p_model p) (p_effort p)
              (p_model_name p) (p_needs_edit p) l.
Definition with_model_name (m : text) (p : participant) : participant :=
  Participant (p_id p) (p_project p) (p_member p) (p_role p) (p_handle p) (p_agent p) (p_harness p) (p_model p) (p_effort p)
              (Some m) (p_needs_edit p) (p_former p).

(** An UPDATE of the rows that [which] names. *)
Definition update_rows (which : participant -> bool) (f : participant -> participant) (t : table) : table :=
  (fun p => if which p then f p else p) <$> t.
Definition row_of (t : table) (id : Z) : option participant := find (fun p => p_id p =? id) t.

Definition handle_taken (t : table) (project : Z) (handle : text) : bool :=
  existsb (fun p => (p_project p =? project) && bool_decide (p_handle p = handle)) t.

(** UPDATE of a handle: refused where another row of the project has it ([participant_handle_unique]). *)
Definition set_handle (id : Z) (handle : text) (t : table) : option table :=
  match row_of t id with
  | None => Some t
  | Some row =>
      if existsb (fun p => negb (p_id p =? id) && (p_project p =? p_project row) && bool_decide (p_handle p = handle)) t then None
      else Some (update_rows (fun p => p_id p =? id) (with_handle handle) t)
  end.

(** [keep_former] *)
Definition keep_former (id : Z) (handle : text) (t : table) : option table :=
  row ← row_of t id;
  let kept := p_former row in
  let kept := if bool_decide (last kept = Some handle) then kept else kept ++ [handle] in
  Some (update_rows (fun p => p_id p =? id) (with_former kept) t).

(** ORDER BY *)
Fixpoint row_insert (before : participant -> participant -> bool) (p : participant) (sorted : table) : table :=
  match sorted with
  | [] => [p]
  | q :: rest => if before p q then p :: sorted else q :: row_insert before p rest
  end.
Definition order_by (before : participant -> participant -> bool) (t : table) : table := foldr (row_insert before) [] t.
Definition by_id (p q : participant) : bool := p_id p <=? p_id q.
Definition by_project (p q : participant) : bool := (p_project p <? p_project q) || ((p_project p =? p_project q) && (p_id p <=? p_id q)).

(** ** A member renamed *)

Definition windows_of (t : table) (member : Z) : list (Z * text) :=
  (fun p => (p_id p, p_handle p)) <$> order_by by_id (List.filter (fun p => bool_decide (p_member p = Some member)) t).

(** A window's own words: what is after its member's name and a hyphen, or its whole name. *)
Definition own_words (old was : text) : text := default was (strip_prefix old was ≫= strip_prefix [DASH]).

(** [while handle_taken { name = base-n }] *)
Fixpoint free_name (turns : nat) (taken : text -> bool) (base name : text) (n : Z) : option text :=
  match turns with
  | O => None
  | S turns => if taken name then free_name turns taken base (base ++ DASH :: show n) (n + 1) else Some name
  end.
Definition window_name (t : table) (project : Z) (base : text) : option text :=
  free_name (S (length t)) (handle_taken t project) base base 2.

Definition rename_window (project : Z) (old new : text) (t : table) (w : Z * text) : option table :=
  name ← window_name t project (new ++ DASH :: own_words old w.2);
  t ← keep_former w.1 w.2 t;
  set_handle w.1 name t.

Definition each {A} (f : table -> A -> option table) : list A -> table -> option table :=
  fix go l t := match l with [] => Some t | x :: l => t ← f t x; go l t end.

Definition rename_member (project member : Z) (old new : text) (t : table) : option table :=
  t ← (if bool_decide (old = new) then Some t else keep_former member old t);
  t ← set_handle member new t;
  if bool_decide (old = new) then Some t
  else each (rename_window project old new) (windows_of t member) t.

(** ** Where a member is named *)

(** The name a member joins by ([ProjectMember::handle] of [projects.rs]). *)
Definition joined_handle (t : table) (project : Z) (model_name model : option text) (harness : text) (effort : option text) : text :=
  model_handle (S (length t)) (model_shown model_name model (Some harness)) effort harness (handle_taken t project).

(** The name after an edit, and the renaming ([edit_member] of [staff.rs]). *)
Definition edited_handle (t : table) (member : participant) (model_name model : text) (harness : text) (effort : option text) : text :=
  model_handle (S (length t)) (model_shown (Some model_name) (Some model) (Some harness)) effort harness
    (fun candidate => negb (bool_decide (candidate = p_handle member)) && handle_taken t (p_project member) candidate).

(** ** Migration 0031 *)

Definition PLACE : char := 1.
(** A place held for a name. *)
Definition placeholder (id : Z) : text := PLACE :: show id.

Definition first_goes (t : table) (p : participant) : option table := set_handle (p_id p) (placeholder (p_id p)) t.

Definition rename_window_by_model (project : Z) (old new : text) (t : table) (w : Z * text) : option table :=
  name ← window_name t project (new ++ DASH :: own_words old w.2);
  set_handle w.1 name t.

Definition name_by_model (t : table) (m : participant) : option table :=
  let shown := model_shown (p_model_name m) (p_model m) (p_harness m) in
  let handle := member_handle (S (length t)) shown None (p_effort m) (default [] (p_harness m)) (handle_taken t (p_project m)) in
  t ← set_handle (p_id m) handle t;
  each (rename_window_by_model (p_project m) (p_handle m) handle) (windows_of t (p_id m)) t.

Definition by_agent (p : participant) : bool :=
  bool_decide (p_member p = None) && negb (bool_decide (p_role p = txt "human") || bool_decide (p_role p = txt "chief")) &&
  bool_decide (is_Some (p_agent p)) && negb (p_needs_edit p).
Definition name_members_by_model (t : table) : option table :=
  let members := order_by by_project (List.filter by_agent t) in
  t ← each first_goes members t;
  each name_by_model members t.

(** ** Migration 0033 *)

Definition as_text (v : json) : option text := txt <$> as_str v.
Definition values_of (v : option json) : list json := snd <$> default [] (v ≫= as_object).

(** [list_of]: of the table of the models' lists, by the harness's own name. *)
Definition listed_row (model : json) : option (text * list text) :=
  id ← get "id" model ≫= as_text;
  Some (id, omap as_text (values_of (get "launchIds" model))).
Definition list_of (lists : list (text * json)) (k : text) : ModelsList :=
  match Harness.from_kind k with
  | None => []
  | Some harness =>
      match find (fun row => bool_decide (row.1 = Harness.as_str harness)) lists with
      | None => []
      | Some (_, models) => omap listed_row (default [] (as_array models))
      end
  end.

Record Renamed := MkRenamed {
  r_members : nat; r_chiefs : nat; r_changed : nat; r_windows : nat; r_by_list : nat; r_by_label : nat; r_by_launch_id : nat
}.
Definition none_renamed : Renamed := MkRenamed 0 0 0 0 0 0 0.
Definition count_listed (how : Listed) (d : Renamed) : Renamed :=
  let '(MkRenamed m c ch w l b i) := d in
  match how with
  | FromList => MkRenamed m c ch w (S l) b i
  | ByLabel => MkRenamed m c ch w l (S b) i
  | LaunchId => MkRenamed m c ch w l b (S i)
  | AsTaken => d
  end.
Definition count_chief (d : Renamed) : Renamed := let '(MkRenamed m c ch w l b i) := d in MkRenamed m (S c) ch w l b i.
Definition count_member (changed : bool) (windows : nat) (d : Renamed) : Renamed :=
  let '(MkRenamed m c ch w l b i) := d in
  if changed then MkRenamed (S m) c (S ch) (w + windows) l b i else MkRenamed (S m) c ch w l b i.

Definition with_model (p : participant) : bool :=
  bool_decide (p_member p = None) && negb (bool_decide (p_role p = txt "human")) && negb (p_needs_edit p) &&
  bool_decide (is_Some (p_model p)) && bool_decide (is_Some (p_harness p)).
Definition is_chief (p : participant) : bool := bool_decide (p_role p = txt "chief").

Definition of_member (id : Z) (p : participant) : bool := (p_id p =? id) || bool_decide (p_member p = Some id).

(** What a row is listed as, in every row of it. *)
Definition list_row (lists : list (text * json)) (m : participant) : text * Listed :=
  listed_model (default [] (p_model m)) (p_effort m) (p_model_name m) (list_of lists (default [] (p_harness m))).

Definition name_by_id (lists : list (text * json)) (m : participant) (t : table) (d : Renamed) : option (table * Renamed) :=
  let '(listed, how) := list_row lists m in
  let d := count_listed how d in
  let t := update_rows (of_member (p_id m)) (with_model_name listed) t in
  if is_chief m then Some (t, count_chief d) else
  let handle := model_handle (S (length t)) listed (p_effort m) (default [] (p_harness m)) (handle_taken t (p_project m)) in
  let windows := length (List.filter (fun p => bool_decide (p_member p = Some (p_id m))) t) in
  let d := count_member (negb (bool_decide (handle = p_handle m))) windows d in
  t ← rename_member (p_project m) (p_id m) (p_handle m) handle t;
  Some (t, d).

Fixpoint name_all (lists : list (text * json)) (rows : list participant) (t : table) (d : Renamed) : option (table * Renamed) :=
  match rows with
  | [] => Some (t, d)
  | m :: rows => '(t, d) ← name_by_id lists m t d; name_all lists rows t d
  end.

Definition name_members_by_id (lists : list (text * json)) (t : table) : option (table * Renamed) :=
  let rows := order_by by_project (List.filter with_model t) in
  t ← each first_goes (List.filter (fun m => negb (is_chief m)) rows) t;
  name_all lists rows t none_renamed.
