(* ===== verification/HandleRuns.v ===== *)
(** * Members renamed

    A renaming ends, with every handle its row's own in its project: the member has its new name, each of
    its windows that name and the window's own words, and what they left is kept ([renamed_with_its_windows]);
    and the migration that names every member by its model ends so for all of them
    ([members_are_named_by_their_models]). *)
From S2P Require Import Prelude Utf8 Keys Text JsValue Words CfWord DeliveryText DeliveryRecord Handles HandleRules HandleLedger.
#[local] Open Scope Z_scope.

(** No number twice, and no handle twice in a project. *)
Definition unique (t : table) : Prop :=
  NoDup (p_id <$> t) /\
  forall p q, p ∈ t -> q ∈ t -> p_project p = p_project q -> p_handle p = p_handle q -> p_id p = p_id q.

(** What no renaming changes of a row. *)
Definition fixed (p : participant) : Z * Z * option Z * text := (p_id p, p_project p, p_member p, p_role p).

(** ** Rows *)

Lemma one_row t p q : unique t -> p ∈ t -> q ∈ t -> p_id p = p_id q -> p = q.
Proof.
  intros [Hnd _] [i Hi]%list_elem_of_lookup [j Hj]%list_elem_of_lookup E.
  assert (i = j) as ->; [|congruence]. eapply (NoDup_lookup _ _ _ (p_id p) Hnd); rewrite list_lookup_fmap; [by rewrite Hi|by rewrite Hj, E].
Qed.

Lemma row_of_in t p : unique t -> p ∈ t -> row_of t (p_id p) = Some p.
Proof.
  intros Hu Hp. unfold row_of. destruct (find _ t) as [q|] eqn:E.
  - apply find_some in E as [Hq%list_elem_of_In Eq%Z.eqb_eq]. f_equal. by apply (one_row t).
  - apply list_elem_of_In in Hp. pose proof (find_none _ _ E _ Hp) as Hn. simpl in Hn. by rewrite Z.eqb_refl in Hn.
Qed.

Lemma handle_taken_spec t project h : handle_taken t project h = true <-> exists p, p ∈ t /\ p_project p = project /\ p_handle p = h.
Proof.
  unfold handle_taken. rewrite existsb_exists. split; intros (p & Hp & H); exists p; rewrite ?list_elem_of_In in *.
  - apply andb_true_iff in H as [?%Z.eqb_eq ?%bool_decide_eq_true]. done.
  - split; [done|]. destruct H as [-> ->]. by rewrite Z.eqb_refl, bool_decide_eq_true_2.
Qed.

Lemma taken_handles t project h : handle_taken t project h = true -> h ∈ p_handle <$> t.
Proof. intros (p & Hp & _ & <-)%handle_taken_spec. apply list_elem_of_fmap. by exists p. Qed.

Lemma not_taken t project h p : handle_taken t project h = false -> p ∈ t -> p_project p = project -> p_handle p <> h.
Proof. intros H Hp Ep Eh. apply not_true_iff_false in H. apply H, handle_taken_spec. by exists p. Qed.

(** An update of one row, of what is not fixed, leaves the rows unique where its handle is nobody else's. *)
Lemma update_unique t id f : unique t -> (forall p, fixed (f p) = fixed p) ->
  (forall p q, p ∈ t -> q ∈ t -> p_id p = id -> p_id q <> id -> p_project p = p_project q -> p_handle (f p) <> p_handle q) ->
  unique (update_rows (fun p => p_id p =? id) f t).
Proof.
  intros [Hnd Hu] Hf Hh. unfold update_rows.
  assert (forall p, p_id (if p_id p =? id then f p else p) = p_id p /\ p_project (if p_id p =? id then f p else p) = p_project p) as Hfix.
  { intros p. specialize (Hf p). unfold fixed in Hf. destruct (p_id p =? id); [|done]. by injection Hf as -> -> _ _. }
  split.
  - rewrite <- list_fmap_compose, (list_fmap_ext _ p_id t); [done|]. intros i p _. apply Hfix.
  - intros p' q' (p & -> & Hp)%list_elem_of_fmap (q & -> & Hq)%list_elem_of_fmap. rewrite !(proj1 (Hfix _)), !(proj2 (Hfix _)).
    intros Ep. destruct (Z.eqb_spec (p_id p) id) as [E1|E1], (Z.eqb_spec (p_id q) id) as [E2|E2]; intros Eh.
    + congruence.
    + by destruct (Hh p q).
    + symmetry in Eh. by destruct (Hh q p).
    + by apply Hu.
Qed.

Lemma set_handle_ok t m h : unique t -> m ∈ t -> handle_taken t (p_project m) h = false \/ p_handle m = h ->
  set_handle (p_id m) h t = Some (update_rows (fun p => p_id p =? p_id m) (with_handle h) t) /\
  unique (update_rows (fun p => p_id p =? p_id m) (with_handle h) t).
Proof.
  intros Hu Hm Hh. assert (forall q, q ∈ t -> p_id q <> p_id m -> p_project q = p_project m -> p_handle q <> h) as Hno.
  { intros q Hq Hid Ep Eh. destruct Hh as [Hh|Hh]; [by eapply not_taken in Hh|]. destruct Hu as [_ Hu]. apply Hid, Hu; congruence. }
  split.
  - unfold set_handle. rewrite row_of_in by done. destruct (existsb _ t) eqn:E; [|done]. exfalso.
    apply existsb_exists in E as (q & Hq%list_elem_of_In & [[H1 H2]%andb_true_iff H3]%andb_true_iff).
    apply negb_true_iff, Z.eqb_neq in H1. apply Z.eqb_eq in H2. apply bool_decide_eq_true in H3. by apply (Hno q).
  - apply update_unique; [done|done|]. intros p q Hp Hq E1 E2 Ep Eh. apply (Hno q); [done|done| |done]. by rewrite <- Ep, (one_row t p m).
Qed.

Definition kept (l : list text) (h : text) : list text := if bool_decide (last l = Some h) then l else l ++ [h].

Lemma keep_former_ok t m h : unique t -> m ∈ t ->
  keep_former (p_id m) h t = Some (update_rows (fun p => p_id p =? p_id m) (with_former (kept (p_former m) h)) t) /\
  unique (update_rows (fun p => p_id p =? p_id m) (with_former (kept (p_former m) h)) t).
Proof.
  intros Hu Hm. split; [unfold keep_former; by rewrite row_of_in|]. apply update_unique; [done|done|].
  intros p q Hp Hq E1 E2 Ep Eh. destruct Hu as [_ Hu]. apply E2. rewrite <- E1. symmetry. by apply Hu.
Qed.

(** ** A window renamed *)

(** A window's name: its member's, its own words, and a number where that was taken. *)
Definition window_named (new own h : text) : Prop := h = new ++ DASH :: own \/ exists n, 2 <= n /\ h = (new ++ DASH :: own) ++ DASH :: show n.

Lemma free_name_spec turns taken base name n : 0 <= n ->
  match free_name turns taken base name n with
  | Some h => taken h = false /\ (h = name \/ exists k, n <= k /\ h = base ++ DASH :: show k)
  | None => taken name = true /\ (forall k, n <= k < n + Z.of_nat turns - 1 -> taken (base ++ DASH :: show k) = true) \/ turns = 0%nat
  end.
Proof.
  revert name n. induction turns as [|turns IH]; intros name n Hn; [by right|]. simpl. destruct (taken name) eqn:E; [|by split; [|left]].
  specialize (IH (base ++ DASH :: show n) (n + 1)). destruct (free_name turns taken base _ (n + 1)) as [h|].
  - destruct IH as [H [->|(k & Hk & ->)]]; [lia|split; [done|right; by exists n]|]. split; [done|]. right. exists k. split; [lia|done].
  - left. split; [done|]. intros k Hk. destruct IH as [[H1 H2]| ->]; [lia| |lia]. destruct (decide (k = n)) as [->|]; [done|]. apply H2. lia.
Qed.

Lemma window_name_free t project base : exists h, window_name t project base = Some h /\ handle_taken t project h = false /\
  (h = base \/ exists n, 2 <= n /\ h = base ++ DASH :: show n).
Proof.
  unfold window_name. pose proof (free_name_spec (S (length t)) (handle_taken t project) base base 2) as H.
  destruct (free_name _ _ _ _ _) as [h|]; [exists h; destruct H as [H1 H2]; [lia|done]|]. exfalso.
  destruct H as [[H1 H2]|]; [lia| |done].
  destruct (some_free (handle_taken t project) (p_handle <$> t) (base :: ((fun i => base ++ DASH :: show (2 + Z.of_nat i)) <$> seq 0 (length t))))
    as (h & Hh & Hf); [apply taken_handles| | |].
  - apply NoDup_cons. split.
    + intros (i & E & _)%list_elem_of_fmap. rewrite <- (app_nil_r base) in E at 1. apply app_inv_head in E. done.
    + apply NoDup_fmap_2_strong; [|apply NoDup_seq]. intros i j _ _ E. apply app_inv_head in E. injection E as E%show_inj. lia.
  - simpl. rewrite !length_fmap, length_seq. lia.
  - apply elem_of_cons in Hh as [->|(i & -> & Hi%elem_of_seq)%list_elem_of_fmap]; [congruence|]. rewrite H2 in Hf; [done|lia].
Qed.

(** What becomes of a window that had the name [was]. *)
Definition rename_row (h was : text) (p : participant) : participant := with_handle h (with_former (kept (p_former p) was) p).

Lemma fixed_id p q : fixed p = fixed q -> p_id p = p_id q /\ p_project p = p_project q /\ p_member p = p_member q /\ p_role p = p_role q.
Proof. unfold fixed. intros [= ? ? ? ?]. done. Qed.

Lemma update_compose t id f g : (forall p, fixed (f p) = fixed p) ->
  update_rows (fun p => p_id p =? id) g (update_rows (fun p => p_id p =? id) f t) = update_rows (fun p => p_id p =? id) (g ∘ f) t.
Proof.
  intros Hf. unfold update_rows. rewrite <- list_fmap_compose. apply list_fmap_ext. intros i p _. simpl.
  destruct (fixed_id _ _ (Hf p)) as [E _]. destruct (p_id p =? id) eqn:E'; [by rewrite E, E'|by rewrite E'].
Qed.

Lemma rename_window_ok t project old new r was : unique t -> r ∈ t -> p_project r = project ->
  exists h, window_named new (own_words old was) h /\
  rename_window project old new t (p_id r, was) = Some (update_rows (fun p => p_id p =? p_id r) (rename_row h was) t) /\
  unique (update_rows (fun p => p_id p =? p_id r) (rename_row h was) t).
Proof.
  intros Hu Hr <-. destruct (window_name_free t (p_project r) (new ++ DASH :: own_words old was)) as (h & E & Hf & Hh).
  exists h. split; [done|]. unfold rename_window. cbn [fst snd]. rewrite E. cbn [mbind option_bind].
  destruct (keep_former_ok t r was Hu Hr) as [-> Hu']. cbn [mbind option_bind].
  set (t' := update_rows _ _ t) in *. set (r' := with_former (kept (p_former r) was) r).
  assert (r' ∈ t') as Hr'.
  { unfold t', update_rows. apply list_elem_of_fmap. exists r. by rewrite Z.eqb_refl. }
  destruct (set_handle_ok t' r' h Hu' Hr') as [E1 E2].
  { left. apply not_true_iff_false. intros (p & (q & -> & Hq)%list_elem_of_fmap & Ep & Eh)%handle_taken_spec.
    apply not_true_iff_false in Hf. apply Hf, handle_taken_spec. exists q. by destruct (p_id q =? p_id r). }
  change (p_id r') with (p_id r) in *. rewrite E1. unfold t' in *. rewrite update_compose in * by done.
  assert (update_rows (fun p => p_id p =? p_id r) (with_handle h ∘ with_former (kept (p_former r) was)) t =
    update_rows (fun p => p_id p =? p_id r) (rename_row h was) t) as Eq; [|by rewrite Eq in *].
  apply list_fmap_ext. intros i p Hp%list_elem_of_lookup_2. destruct (Z.eqb_spec (p_id p) (p_id r)); [|done]. by rewrite (one_row t p r).
Qed.

(** ** All its windows *)

Lemma each_cons {A} (f : table -> A -> option table) x l t : each f (x :: l) t = (t ← f t x; each f l t).
Proof. done. Qed.

Lemma windows_renamed project old new ws t : unique t -> NoDup ws.*1 ->
  (forall w, w ∈ ws -> exists r, r ∈ t /\ p_id r = w.1 /\ p_project r = project) ->
  exists f, each (rename_window project old new) ws t = Some (f <$> t) /\ unique (f <$> t) /\ forall p, fixed (f p) = fixed p /\
  (p_id p ∉ ws.*1 -> f p = p) /\
  forall was, (p_id p, was) ∈ ws -> exists h, window_named new (own_words old was) h /\ f p = rename_row h was p.
Proof.
  revert t. induction ws as [|[id was] ws IH]; intros t Hu Hnd Hin.
  { exists id. rewrite list_fmap_id. split_and!; [done|done|]. intros p. split_and!; [done|done|]. intros was Hw. set_solver. }
  rewrite each_cons. destruct (Hin (id, was)) as (r & Hr & Eid & Ep); [by left|]. simpl in Eid. subst id.
  destruct (rename_window_ok t project old new r was Hu Hr Ep) as (h & Hh & -> & Hu'). cbn [mbind option_bind].
  simpl in Hnd. apply NoDup_cons in Hnd as [Hni Hnd].
  set (g := fun p => if p_id p =? p_id r then rename_row h was p else p).
  assert (forall p, fixed (g p) = fixed p) as Hg by (intros p; unfold g; by destruct (p_id p =? p_id r)).
  destruct (IH (g <$> t) Hu' Hnd) as (f & E & Huf & Hf).
  { intros w Hw. destruct (Hin w) as (q & Hq & Eq & Epq); [by right|]. exists (g q). destruct (fixed_id _ _ (Hg q)) as (-> & -> & _).
    split; [|done]. apply list_elem_of_fmap. by exists q. }
  exists (f ∘ g). rewrite list_fmap_compose. split_and!; [exact E|done|]. intros p. destruct (Hf (g p)) as (F1 & F2 & F3).
  destruct (fixed_id _ _ (Hg p)) as (Egid & _). rewrite Egid in *. simpl. split_and!; [by rewrite F1|..].
  - intros [Hne Hp]%not_elem_of_cons. rewrite F2 by done. unfold g. by destruct (Z.eqb_spec (p_id p) (p_id r)).
  - intros was' [[= Eid <-]|Hw]%elem_of_cons.
    + exists h. split; [done|]. rewrite F2 by by rewrite Eid. unfold g. by rewrite Eid, Z.eqb_refl.
    + destruct (F3 was' Hw) as (h' & Hh' & ->). exists h'. split; [done|]. unfold g.
      destruct (Z.eqb_spec (p_id p) (p_id r)) as [Eid|]; [|done]. destruct Hni. rewrite <- Eid. apply list_elem_of_fmap. by exists (p_id p, was').
Qed.

(** ** ORDER BY *)

Lemma order_by_permutation before t : order_by before t ≡ₚ t.
Proof.
  induction t as [|p t IH]; [done|]. simpl. rewrite <- IH at 2. generalize (order_by before t) as l. induction l as [|q l IHl]; [done|].
  simpl. destruct (before p q); [done|]. rewrite IHl. apply Permutation_swap.
Qed.

Lemma order_by_filter_in before f t p : p ∈ order_by before (List.filter f t) <-> p ∈ t /\ f p = true.
Proof. by rewrite order_by_permutation, list_elem_of_In, filter_In, <- list_elem_of_In. Qed.

Lemma filter_ids f t : NoDup (p_id <$> t) -> NoDup (p_id <$> List.filter f t).
Proof.
  induction t as [|p t IH]; [done|]. simpl. intros [Hp Hnd]%NoDup_cons. destruct (f p); [|by apply IH]. simpl. apply NoDup_cons. split; [|by apply IH].
  intros (q & E & Hq)%list_elem_of_fmap. apply Hp. rewrite E. apply list_elem_of_fmap. exists q. split; [done|].
  by apply list_elem_of_In, filter_In in Hq as [Hq%list_elem_of_In _].
Qed.

Lemma order_by_ids before f t : NoDup (p_id <$> t) -> NoDup (p_id <$> order_by before (List.filter f t)).
Proof. intros H. rewrite order_by_permutation. by apply filter_ids. Qed.

Lemma windows_of_spec t member w : w ∈ windows_of t member <-> exists p, p ∈ t /\ p_member p = Some member /\ w = (p_id p, p_handle p).
Proof.
  unfold windows_of. rewrite list_elem_of_fmap. setoid_rewrite order_by_filter_in. setoid_rewrite bool_decide_eq_true. naive_solver.
Qed.

Lemma windows_of_ids t member : unique t -> NoDup (windows_of t member).*1.
Proof. intros [Hnd _]. unfold windows_of. rewrite <- list_fmap_compose. by apply (order_by_ids by_id). Qed.

(** ** A member renamed *)

(** What a row is after the renaming of [m]: the member, a window of its, or another. *)
Definition renamed (m : participant) (old new : text) (p q : participant) : Prop :=
  fixed q = fixed p /\
  (p_id p = p_id m -> q = if decide (old = new) then with_handle new p else rename_row new old p) /\
  (p_member p = Some (p_id m) ->
     if decide (old = new) then q = p
     else exists h, window_named new (own_words old (p_handle p)) h /\ q = rename_row h (p_handle p) p) /\
  (p_id p <> p_id m -> p_member p <> Some (p_id m) -> q = p).

(** Windows are of their member's project, and no row is its own. *)
Definition windows_sound (t : table) : Prop :=
  forall m p, m ∈ t -> p ∈ t -> p_member p = Some (p_id m) -> p_project p = p_project m /\ p_id p <> p_id m.

(** A member renamed is so in its own row. *)
Lemma member_renamed t m old new : unique t -> m ∈ t -> handle_taken t (p_project m) new = false \/ p_handle m = new ->
  let t1 := if bool_decide (old = new) then Some t else keep_former (p_id m) old t in
  let g := if decide (old = new) then with_handle new else rename_row new old in
  (t1 ≫= set_handle (p_id m) new) = Some (update_rows (fun p => p_id p =? p_id m) g t) /\ unique (update_rows (fun p => p_id p =? p_id m) g t).
Proof.
  intros Hu Hm Hnew. cbv zeta. destruct (decide (old = new)) as [E|E].
  { rewrite bool_decide_eq_true_2 by done. by apply set_handle_ok. }
  rewrite bool_decide_eq_false_2 by done. destruct (keep_former_ok t m old Hu Hm) as [-> Hu']. cbn [mbind option_bind].
  set (t' := update_rows _ _ t) in *. set (m' := with_former (kept (p_former m) old) m).
  assert (m' ∈ t') as Hm'. { unfold t', update_rows. apply list_elem_of_fmap. exists m. by rewrite Z.eqb_refl. }
  destruct (set_handle_ok t' m' new Hu' Hm') as [E1 E2].
  { destruct Hnew as [Hnew|Hnew]; [left|by right].
    apply not_true_iff_false. intros (p & (q & -> & Hq)%list_elem_of_fmap & Ep & Eh)%handle_taken_spec.
    apply not_true_iff_false in Hnew. apply Hnew, handle_taken_spec. exists q. by destruct (p_id q =? p_id m). }
  change (p_id m') with (p_id m) in *. rewrite E1. unfold t' in *. rewrite update_compose in * by done.
  assert (update_rows (fun p => p_id p =? p_id m) (with_handle new ∘ with_former (kept (p_former m) old)) t =
    update_rows (fun p => p_id p =? p_id m) (rename_row new old) t) as Eq; [|by rewrite Eq in *].
  apply list_fmap_ext. intros i p Hp%list_elem_of_lookup_2. destruct (Z.eqb_spec (p_id p) (p_id m)); [|done]. by rewrite (one_row t p m).
Qed.

Lemma rename_member_ok t m old new : unique t -> windows_sound t -> m ∈ t -> handle_taken t (p_project m) new = false \/ p_handle m = new ->
  exists f, rename_member (p_project m) (p_id m) old new t = Some (f <$> t) /\ unique (f <$> t) /\
  forall p, p ∈ t -> renamed m old new p (f p).
Proof.
  intros Hu Hw Hm Hnew. destruct (member_renamed t m old new Hu Hm Hnew) as [E1 Hu1]. cbv zeta in E1.
  set (g := if decide (old = new) then with_handle new else rename_row new old) in *.
  set (g' := fun p => if p_id p =? p_id m then g p else p).
  assert (forall p, fixed (g' p) = fixed p) as Hg by (intros p; unfold g', g; destruct (p_id p =? p_id m); [by case_decide|done]).
  assert (rename_member (p_project m) (p_id m) old new t =
    (if bool_decide (old = new) then Some (g' <$> t) else each (rename_window (p_project m) old new) (windows_of (g' <$> t) (p_id m)) (g' <$> t))) as ->.
  { unfold rename_member. destruct (if bool_decide (old = new) then Some t else keep_former (p_id m) old t) as [t1|]; [|done].
    cbn [mbind option_bind] in *. by rewrite E1. }
  change (update_rows (fun p => p_id p =? p_id m) g t) with (g' <$> t) in Hu1. destruct (decide (old = new)) as [E|E].
  - rewrite bool_decide_eq_true_2 by done. exists g'. split_and!; [done|done|]. intros p Hp. split_and!; [done|..].
    + intros Ep. rewrite decide_True by done. unfold g'. by rewrite Ep, Z.eqb_refl.
    + intros Ep. rewrite decide_True by done. unfold g'. destruct (Z.eqb_spec (p_id p) (p_id m)) as [Ei|]; [|done]. by destruct (Hw m p).
    + intros Hi _. unfold g'. by destruct (Z.eqb_spec (p_id p) (p_id m)).
  - rewrite bool_decide_eq_false_2 by done.
    destruct (windows_renamed (p_project m) old new (windows_of (g' <$> t) (p_id m)) (g' <$> t) Hu1) as (f & Ef & Huf & Hf); [by apply windows_of_ids| |].
    { intros w (p' & Hp' & Em & ->)%windows_of_spec. exists p'. split_and!; [done|done|]. apply list_elem_of_fmap in Hp' as (p & -> & Hp).
      destruct (fixed_id _ _ (Hg p)) as (_ & Epr & Emm & _). rewrite Epr. rewrite Emm in Em. by destruct (Hw m p). }
    exists (f ∘ g'). rewrite list_fmap_compose. split_and!; [done|done|]. intros p Hp. destruct (Hf (g' p)) as (F1 & F2 & F3).
    destruct (fixed_id _ _ (Hg p)) as (Epi & _ & Epm & _).
    assert (p_member p <> Some (p_id m) -> f (g' p) = g' p) as Hno.
    { intros Hn. apply F2. intros ([i h] & Ei & (q' & Hq' & Em & [= Ei' _])%windows_of_spec)%list_elem_of_fmap. simpl in Ei.
      apply list_elem_of_fmap in Hq' as (q & -> & Hq). destruct (fixed_id _ _ (Hg q)) as (Eqi & _ & Eqm & _).
      apply Hn. rewrite <- Em, Eqm. f_equal. apply (one_row t); congruence. }
    split_and!; [simpl; by rewrite F1|..].
    + intros Ep. rewrite decide_False by done. simpl. rewrite Hno; [unfold g', g; by rewrite Ep, Z.eqb_refl|].
      intros Em. by destruct (Hw m p).
    + intros Em. rewrite decide_False by done. simpl. assert (g' p = p) as Eg.
      { unfold g'. destruct (Z.eqb_spec (p_id p) (p_id m)); [by destruct (Hw m p)|done]. }
      rewrite Eg in *. destruct (F3 (p_handle p)) as (h & Hh & ->); [|by exists h]. apply windows_of_spec. exists p. split_and!; [|done|done].
      apply list_elem_of_fmap. by exists p.
    + intros Hi Hn. simpl. rewrite Hno by done. unfold g'. by destruct (Z.eqb_spec (p_id p) (p_id m)).
Qed.

(** What a row keeps as the rows of a table change. *)
Lemma sound_fmap f t : (forall p, p ∈ t -> fixed (f p) = fixed p) -> windows_sound t -> windows_sound (f <$> t).
Proof.
  intros Hf Hw m' p' (m & -> & Hm)%list_elem_of_fmap (p & -> & Hp)%list_elem_of_fmap.
  destruct (fixed_id _ _ (Hf m Hm)) as (-> & -> & _), (fixed_id _ _ (Hf p Hp)) as (-> & -> & -> & _). by apply Hw.
Qed.

Lemma renamed_fixed m old new p q : renamed m old new p q -> fixed q = fixed p.
Proof. by intros [? _]. Qed.

(** A member edited is named by its model, and its windows with it: the renaming is refused by no row,
    every handle is its row's own after it, the new one is a name of forty characters at most, each window has
    it and its own words after it, what they were named is kept, and no other row changes. *)
Theorem renamed_with_its_windows t m model_name model harness effort : unique t -> windows_sound t -> m ∈ t ->
  Z.of_nat (S (length t)) < 2 ^ 63 ->
  let new := edited_handle t m model_name model harness effort in
  is_name new = true /\ (length new <= MEMBER_HANDLE_MAX)%nat /\
  exists f, rename_member (p_project m) (p_id m) (p_handle m) new t = Some (f <$> t) /\ unique (f <$> t) /\
  forall p, p ∈ t -> renamed m (p_handle m) new p (f p).
Proof.
  intros Hu Hw Hm Hl. cbv zeta. unfold edited_handle. set (taken := fun candidate => _).
  destruct (model_handle_own (S (length t)) (model_shown (Some model_name) (Some model) (Some harness)) effort harness taken (p_handle <$> t))
    as (Hf & Hn & Hlen); [|rewrite length_fmap; lia|done|].
  { intros h [_ Hh]%andb_true_iff. by eapply taken_handles. }
  split_and!; [done|done|]. apply rename_member_ok; [done..|]. apply andb_false_iff in Hf as [Hf|Hf]; [right|by left].
  apply negb_false_iff, bool_decide_eq_true in Hf. congruence.
Qed.

(** ** The migration to ids *)

(** The row of a member or of a window of its, listed. *)
Definition listed_as (m : participant) (listed : text) (p : participant) : participant :=
  if of_member (p_id m) p then with_model_name listed p else p.

(** A name made for a row of the model [listed]. *)
Definition made_for (size : nat) (m : participant) (listed new : text) : Prop :=
  is_name new = true /\ (length new <= MEMBER_HANDLE_MAX)%nat /\
  exists taken l, length l = size /\ (forall h, taken h = true -> h ∈ l) /\
    new = model_handle (S size) listed (p_effort m) (default [] (p_harness m)) taken.

(** What the migration makes of a row [m] and of its windows, [f] its change of every row. *)
Definition migrated (lists : list (text * json)) (t : table) (f : participant -> participant) (m : participant) : Prop :=
  let listed := (list_row lists m).1 in
  if is_chief m then forall p, p ∈ t -> of_member (p_id m) p = true -> f p = with_model_name listed p
  else exists new, made_for (length t) m listed new /\
       forall p, p ∈ t -> of_member (p_id m) p = true -> renamed m (p_handle m) new (with_model_name listed p) (f p).

Lemma of_member_spec id p : of_member id p = true <-> p_id p = id \/ p_member p = Some id.
Proof. unfold of_member. by rewrite orb_true_iff, Z.eqb_eq, bool_decide_eq_true. Qed.

Lemma of_member_false id p : of_member id p = false <-> p_id p <> id /\ p_member p <> Some id.
Proof. unfold of_member. by rewrite orb_false_iff, Z.eqb_neq, bool_decide_eq_false. Qed.

Lemma listed_fixed m listed p : fixed (listed_as m listed p) = fixed p.
Proof. unfold listed_as. by destruct (of_member _ _). Qed.

Lemma listed_unique m listed t : unique t -> unique (listed_as m listed <$> t).
Proof.
  intros [Hnd Hu]. split.
  - rewrite <- list_fmap_compose, (list_fmap_ext _ p_id t); [done|]. intros i p _. apply (fixed_id _ _ (listed_fixed m listed p)).
  - intros p' q' (p & -> & Hp)%list_elem_of_fmap (q & -> & Hq)%list_elem_of_fmap.
    destruct (fixed_id _ _ (listed_fixed m listed p)) as (-> & -> & _), (fixed_id _ _ (listed_fixed m listed q)) as (-> & -> & _).
    intros Ep Eh. apply Hu; [done..|]. unfold listed_as in Eh. by destruct (of_member _ p), (of_member _ q).
Qed.

(** One member's turn. *)
Lemma name_by_id_ok lists m t d r : unique t -> windows_sound t -> r ∈ t -> fixed r = fixed m -> Z.of_nat (S (length t)) < 2 ^ 63 ->
  exists f d', name_by_id lists m t d = Some (f <$> t, d') /\ unique (f <$> t) /\
  r_members d' = (r_members d + if is_chief m then 0 else 1)%nat /\ r_chiefs d' = (r_chiefs d + if is_chief m then 1 else 0)%nat /\
  migrated lists t f m /\ (forall p, p ∈ t -> fixed (f p) = fixed p) /\ (forall p, p ∈ t -> of_member (p_id m) p = false -> f p = p).
Proof.
  intros Hu Hw Hr Hrm Hl. unfold name_by_id, migrated. destruct (list_row lists m) as [listed how]. cbn [fst].
  change (update_rows (of_member (p_id m)) (with_model_name listed) t) with (listed_as m listed <$> t).
  assert (forall d, r_members (count_listed how d) = r_members d /\ r_chiefs (count_listed how d) = r_chiefs d) as Hcount by by intros []; destruct how.
  destruct (Hcount d) as [C1 C2]. destruct (fixed_id _ _ Hrm) as (Eid & Epr & _).
  assert (forall p, of_member (p_id m) p = true -> listed_as m listed p = with_model_name listed p) as Hlisted by (intros p E; unfold listed_as; by rewrite E).
  assert (forall p, of_member (p_id m) p = false -> listed_as m listed p = p) as Hother by (intros p E; unfold listed_as; by rewrite E).
  destruct (is_chief m) eqn:Ec.
  - exists (listed_as m listed), (count_chief (count_listed how d)). split_and!; [done|by apply listed_unique| | |by auto|by intros; apply listed_fixed|by auto].
    + rewrite <- C1. destruct (count_listed how d). simpl. lia.
    + rewrite <- C2. destruct (count_listed how d). simpl. lia.
  - set (t1 := listed_as m listed <$> t).
    set (taken := handle_taken t1 (p_project m)).
    destruct (model_handle_own (S (length t1)) listed (p_effort m) (default [] (p_harness m)) taken (p_handle <$> t1))
      as (Hf & Hn & Hlen); [apply taken_handles|rewrite length_fmap; lia|unfold t1; by rewrite length_fmap|].
    set (new := model_handle _ _ _ _ _) in *.
    destruct (rename_member_ok t1 (listed_as m listed r) (p_handle m) new) as (f & Ef & Huf & Hren); [by apply listed_unique|by apply sound_fmap; [intros; apply listed_fixed|]| | |].
    { apply list_elem_of_fmap. by exists r. }
    { left. destruct (fixed_id _ _ (listed_fixed m listed r)) as (_ & -> & _). by rewrite Epr. }
    destruct (fixed_id _ _ (listed_fixed m listed r)) as (Eri & Erp & _). rewrite Eri, Erp, Eid, Epr in Ef.
    unfold t1 in Ef, Huf. rewrite <- list_fmap_compose in Ef, Huf. fold t1 in Ef.
    assert (forall p, p ∈ t -> renamed m (p_handle m) new (listed_as m listed p) (f (listed_as m listed p))) as Hren'.
    { intros p Hp. specialize (Hren (listed_as m listed p)). unfold renamed in *. rewrite Eri, Eid in Hren. apply Hren.
      apply list_elem_of_fmap. by exists p. }
    eexists (f ∘ listed_as m listed), _. rewrite Ef. cbn [mbind option_bind]. split_and!; [done|done| | | | |].
    + rewrite <- C1. destruct (count_listed how d). unfold count_member. case_match; simpl; lia.
    + rewrite <- C2. destruct (count_listed how d). unfold count_member. case_match; simpl; lia.
    + exists new. split; [split_and!; [done|done|]|].
      * exists taken, (p_handle <$> t1). split_and!; [unfold t1; by rewrite !length_fmap|apply taken_handles|unfold new, t1; by rewrite length_fmap].
      * intros p Hp Eo. simpl. rewrite <- (Hlisted p Eo) at 1. by apply Hren'.
    + intros p Hp. simpl. rewrite (renamed_fixed _ _ _ _ _ (Hren' p Hp)). apply listed_fixed.
    + intros p Hp Eo. simpl. destruct (Hren' p Hp) as (_ & _ & _ & H). rewrite (Hother p Eo) in *. apply of_member_false in Eo as [? ?]. by apply H.
Qed.

(** The rows of the migration: each a row of the table as it is, and a member or the chief, no window. *)
Definition rows_of (ms t : table) : Prop :=
  NoDup (p_id <$> ms) /\ (forall m, m ∈ ms -> p_member m = None) /\ forall m, m ∈ ms -> exists r, r ∈ t /\ fixed r = fixed m.

(** A row is of one of them at most. *)
Lemma of_one_member t ms m m' p : unique t -> rows_of ms t -> m ∈ ms -> m' ∈ ms -> p ∈ t ->
  of_member (p_id m) p = true -> of_member (p_id m') p = true -> p_id m = p_id m'.
Proof.
  intros Hu (_ & Hnone & Hrows) Hm Hm' Hp [H|H]%of_member_spec [H'|H']%of_member_spec; try congruence.
  - destruct (Hrows m Hm) as (r & Hr & Er). destruct (fixed_id _ _ Er) as (Ei & _ & Em & _).
    assert (p = r) as -> by (apply (one_row t); congruence). rewrite (Hnone m Hm) in Em. congruence.
  - destruct (Hrows m' Hm') as (r & Hr & Er). destruct (fixed_id _ _ Er) as (Ei & _ & Em & _).
    assert (p = r) as -> by (apply (one_row t); congruence). rewrite (Hnone m' Hm') in Em. congruence.
Qed.

Lemma rows_of_fmap f ms t : (forall p, p ∈ t -> fixed (f p) = fixed p) -> rows_of ms t -> rows_of ms (f <$> t).
Proof.
  intros Hf (H1 & H2 & H3). split_and!; [done|done|]. intros m (r & Hr & E)%H3. exists (f r). rewrite Hf by done.
  split; [|done]. apply list_elem_of_fmap. by exists r.
Qed.

(** What is changed of other rows only changes nothing of a member's. *)
Lemma migrated_before lists t f g m : (forall p, p ∈ t -> of_member (p_id m) p = true -> g p = p) -> (forall p, p ∈ t -> fixed (g p) = fixed p) ->
  migrated lists (g <$> t) f m -> migrated lists t (f ∘ g) m.
Proof.
  intros Hg Hfix. unfold migrated. rewrite length_fmap. destruct (is_chief m).
  - intros H p Hp Eo. simpl. rewrite (Hg p Hp Eo). apply H; [|done]. apply list_elem_of_fmap. exists p. by rewrite Hg.
  - intros (new & Hnew & H). exists new. split; [done|]. intros p Hp Eo. simpl. rewrite (Hg p Hp Eo). apply H; [|done].
    apply list_elem_of_fmap. exists p. by rewrite Hg.
Qed.

Lemma migrated_after lists t f g m : (forall p, p ∈ t -> of_member (p_id m) p = true -> f (g p) = g p) ->
  migrated lists t g m -> migrated lists t (f ∘ g) m.
Proof.
  intros Hf. unfold migrated. destruct (is_chief m).
  - intros H p Hp Eo. simpl. rewrite Hf by done. by apply H.
  - intros (new & Hnew & H). exists new. split; [done|]. intros p Hp Eo. simpl. rewrite Hf by done. by apply H.
Qed.

Definition members_in (ms : table) : nat := length (List.filter (fun m => negb (is_chief m)) ms).
Definition chiefs_in (ms : table) : nat := length (List.filter is_chief ms).

Lemma name_all_ok lists ms t d : unique t -> windows_sound t -> rows_of ms t -> Z.of_nat (S (length t)) < 2 ^ 63 ->
  exists f d', name_all lists ms t d = Some (f <$> t, d') /\ unique (f <$> t) /\
  r_members d' = (r_members d + members_in ms)%nat /\ r_chiefs d' = (r_chiefs d + chiefs_in ms)%nat /\
  (forall m, m ∈ ms -> migrated lists t f m) /\ (forall p, p ∈ t -> fixed (f p) = fixed p) /\
  (forall p, p ∈ t -> (forall m, m ∈ ms -> of_member (p_id m) p = false) -> f p = p).
Proof.
  revert t d. induction ms as [|m ms IH]; intros t d Hu Hw Hrows Hl.
  { exists id, d. rewrite list_fmap_id. unfold members_in, chiefs_in. simpl. split_and!; try done; try lia. intros m Hm. set_solver. }
  pose proof Hrows as (Hnd & Hnone & Hex). destruct (Hex m) as (r & Hr & Er); [by left|].
  destruct (name_by_id_ok lists m t d r Hu Hw Hr Er Hl) as (g & d1 & E1 & Hu1 & Cm & Cc & Hmig & Hfix & Hrest).
  assert (rows_of ms t) as Hrows'.
  { split_and!; [by apply NoDup_cons in Hnd as [_ ?]|intros; apply Hnone; by right|intros; apply Hex; by right]. }
  destruct (IH (g <$> t) d1 Hu1) as (f & d' & E2 & Hu2 & Cm2 & Cc2 & Hmig2 & Hfix2 & Hrest2);
    [by apply sound_fmap|by apply rows_of_fmap|by rewrite length_fmap|].
  exists (f ∘ g), d'. rewrite list_fmap_compose. cbn [name_all]. rewrite E1. cbn [mbind option_bind].
  assert (forall m' p, m' ∈ ms -> p ∈ t -> of_member (p_id m) p = true -> of_member (p_id m') p = false) as Hsplit.
  { intros m' p Hm' Hp Eo. apply not_true_iff_false. intros Eo'. apply NoDup_cons in Hnd as [Hni _]. apply Hni.
    rewrite (of_one_member t (m :: ms) m m' p) by (done || set_solver). apply list_elem_of_fmap. by exists m'. }
  assert (forall p, p ∈ t -> of_member (p_id m) p = true -> f (g p) = g p) as Hdone.
  { intros p Hp Eo. apply Hrest2; [apply list_elem_of_fmap; by exists p|]. intros m' Hm'. unfold of_member.
    destruct (fixed_id _ _ (Hfix p Hp)) as (-> & _ & -> & _). by apply (Hsplit m'). }
  split_and!; [exact E2|done| | | | |].
  - rewrite Cm2, Cm. unfold members_in. simpl. destruct (is_chief m); simpl; lia.
  - rewrite Cc2, Cc. unfold chiefs_in. simpl. destruct (is_chief m); simpl; lia.
  - intros m' [->|Hm']%elem_of_cons; [by apply migrated_after|]. apply migrated_before; [|done|by apply Hmig2].
    intros p Hp Eo. apply Hrest; [done|]. apply not_true_iff_false. intros Eo'. by rewrite (Hsplit m' p) in Eo.
  - intros p Hp. simpl. rewrite Hfix2, Hfix by (done || (apply list_elem_of_fmap; by exists p)). done.
  - intros p Hp Hno. simpl. assert (g p = p) as Eg by (apply Hrest; [done|]; apply Hno; left). rewrite Eg.
    apply Hrest2; [apply list_elem_of_fmap; by exists p|]. intros m' Hm'. apply Hno. by right.
Qed.

(** ** The places held *)

Lemma firsts_go ms t : unique t -> NoDup (p_id <$> ms) -> (forall m, m ∈ ms -> exists r, r ∈ t /\ fixed r = fixed m) ->
  (forall m p, m ∈ ms -> p ∈ t -> p_handle p <> placeholder (p_id m)) ->
  exists f, each first_goes ms t = Some (f <$> t) /\ unique (f <$> t) /\
  forall p, (p_id p ∈ p_id <$> ms -> f p = with_handle (placeholder (p_id p)) p) /\ (p_id p ∉ p_id <$> ms -> f p = p).
Proof.
  revert t. induction ms as [|m ms IH]; intros t Hu Hnd Hex Hfree.
  { exists id. rewrite list_fmap_id. split_and!; [done|done|]. intros p. split; [set_solver|done]. }
  rewrite each_cons. destruct (Hex m) as (r & Hr & Er); [by left|]. destruct (fixed_id _ _ Er) as (Ei & Ep & _).
  simpl in Hnd. apply NoDup_cons in Hnd as [Hni Hnd]. destruct (set_handle_ok t r (placeholder (p_id m)) Hu Hr) as [E Hu1].
  { left. apply not_true_iff_false. intros (p & Hp & _ & Eh)%handle_taken_spec. by apply (Hfree m p); [left| |]. }
  rewrite Ei in *. change (first_goes t m) with (set_handle (p_id m) (placeholder (p_id m)) t). rewrite E. cbn [mbind option_bind]. set (g := fun p => if p_id p =? p_id m then with_handle (placeholder (p_id m)) p else p).
  assert (forall p, fixed (g p) = fixed p) as Hg by (intros p; unfold g; by destruct (p_id p =? p_id m)).
  destruct (IH (g <$> t) Hu1 Hnd) as (f & E2 & Hu2 & Hf).
  - intros m' Hm'. destruct (Hex m') as (r' & Hr' & Er'); [by right|]. exists (g r'). rewrite Hg. split; [|done]. apply list_elem_of_fmap. by exists r'.
  - intros m' p' Hm' (p & -> & Hp)%list_elem_of_fmap. unfold g. destruct (Z.eqb_spec (p_id p) (p_id m)) as [Eid|]; [|by apply Hfree; [right|]].
    simpl. intros [= E']. apply Hni. apply show_inj in E'. rewrite E'. apply list_elem_of_fmap. by exists m'.
  - exists (f ∘ g). rewrite list_fmap_compose. split_and!; [exact E2|done|]. intros p. destruct (Hf (g p)) as [F1 F2].
    destruct (fixed_id _ _ (Hg p)) as (Egi & _). rewrite Egi in *. simpl. split.
    + intros [Eid|Hin]%elem_of_cons.
      * rewrite F2 by by rewrite Eid. unfold g. by rewrite Eid, Z.eqb_refl.
      * rewrite F1 by done. unfold g. by destruct (p_id p =? p_id m).
    + intros [Hne Hin]%not_elem_of_cons. rewrite F2 by done. unfold g. by destruct (Z.eqb_spec (p_id p) (p_id m)).
Qed.

(** A place that is held is nothing to what becomes of the row. *)
Lemma renamed_from_place m old new l h p q : of_member (p_id m) p = true -> p_member p <> Some (p_id m) ->
  renamed m old new (with_model_name l (with_handle h p)) q -> renamed m old new (with_model_name l p) q.
Proof.
  intros [Ep|Em]%of_member_spec Hn; [|done]. intros (H1 & H2 & H3 & H4). split_and!; [done| | |].
  - intros E. rewrite H2 by done. by case_decide.
  - intros E. done.
  - intros E. done.
Qed.

Lemma filter_length_permutation {A} (f : A -> bool) l l' : l ≡ₚ l' -> length (List.filter f l) = length (List.filter f l').
Proof. induction 1 as [|x l l' _ IH|x y l|l l' l'' _ IH1 _ IH2]; simpl; [done|destruct (f x); simpl; congruence|by destruct (f x), (f y)|congruence]. Qed.

(** From the rows with their places held to the rows that were. *)
Lemma migrated_from_places lists t f g m : m ∈ t -> p_member m = None -> unique t ->
  (forall p, p ∈ t -> g p = p \/ (p_member p = None /\ is_chief p = false /\ g p = with_handle (placeholder (p_id p)) p)) ->
  migrated lists (g <$> t) f m -> (forall p, fixed (g p) = fixed p) -> migrated lists t (f ∘ g) m.
Proof.
  intros Hm Hnone Hu Hg Hmig Hfix. unfold migrated in *. rewrite length_fmap in Hmig. destruct (is_chief m) eqn:Ec.
  - intros p Hp Eo. simpl. assert (g p = p) as Eg.
    { destruct (Hg p Hp) as [?|(Hn & Hc & _)]; [done|]. apply of_member_spec in Eo as [Eo|Eo]; [|congruence].
      rewrite (one_row t p m) in Hc by done. congruence. }
    rewrite Eg. apply Hmig; [|done]. apply list_elem_of_fmap. by exists p.
  - destruct Hmig as (new & Hnew & H). exists new. split; [done|]. intros p Hp Eo. simpl.
    assert (renamed m (p_handle m) new (with_model_name (list_row lists m).1 (g p)) (f (g p))) as Hr.
    { apply H; [apply list_elem_of_fmap; by exists p|]. unfold of_member. by destruct (fixed_id _ _ (Hfix p)) as (-> & _ & -> & _). }
    destruct (Hg p Hp) as [Eg|(Hn & _ & Eg)]; [by rewrite Eg in *|]. rewrite Eg in Hr at 1. apply renamed_from_place in Hr; [done|done|congruence].
Qed.

(** C31: the migration that names members by their models' ids ends, refused by no row: every handle is its
    row's own after it; each member that has a model is named by the model its row is listed as, its windows
    with it, as a renaming names them; the chief and its windows are only listed; no other row changes;
    and the members and the chiefs are counted. *)
Theorem members_are_named_by_their_models lists t : unique t -> windows_sound t ->
  (forall p n, p ∈ t -> p_handle p <> placeholder n) -> Z.of_nat (S (length t)) < 2 ^ 63 ->
  exists f d, name_members_by_id lists t = Some (f <$> t, d) /\ unique (f <$> t) /\
  r_members d = members_in (List.filter with_model t) /\ r_chiefs d = chiefs_in (List.filter with_model t) /\
  (forall m, m ∈ t -> with_model m = true -> migrated lists t f m) /\
  forall p, p ∈ t -> (forall m, m ∈ t -> with_model m = true -> of_member (p_id m) p = false) -> f p = p.
Proof.
  intros Hu Hw Hplace Hl. unfold name_members_by_id. set (rows := order_by by_project (List.filter with_model t)).
  assert (forall m, m ∈ rows <-> m ∈ t /\ with_model m = true) as Hin by (intros m; apply order_by_filter_in).
  assert (forall m, with_model m = true -> p_member m = None) as Hnone.
  { intros m H. unfold with_model in H. rewrite !andb_true_iff, bool_decide_eq_true in H. tauto. }
  set (firsts := List.filter (fun m => negb (is_chief m)) rows).
  assert (forall m, m ∈ firsts <-> m ∈ rows /\ is_chief m = false) as Hfirsts.
  { intros m. unfold firsts. by rewrite list_elem_of_In, filter_In, <- list_elem_of_In, negb_true_iff. }
  assert (NoDup (p_id <$> rows)) as Hnd by (apply order_by_ids, Hu).
  destruct (firsts_go firsts t Hu) as (g & E1 & Hu1 & Hg).
  { unfold firsts. by apply filter_ids. }
  { intros m [[Hm _]%Hin _]%Hfirsts. by exists m. }
  { intros m p _ Hp. by apply Hplace. }
  assert (forall p, fixed (g p) = fixed p) as Hfix.
  { intros p. destruct (decide (p_id p ∈ p_id <$> firsts)) as [H|H]; [by rewrite (proj1 (Hg p) H)|by rewrite (proj2 (Hg p) H)]. }
  assert (forall p, p ∈ t -> g p = p \/ (p_member p = None /\ is_chief p = false /\ g p = with_handle (placeholder (p_id p)) p)) as Hplaced.
  { intros p Hp. destruct (decide (p_id p ∈ p_id <$> firsts)) as [H|H]; [|left; by apply (proj2 (Hg p))]. right. rewrite (proj1 (Hg p) H).
    apply list_elem_of_fmap in H as (m & Em & [[Hm Hwm]%Hin Hc]%Hfirsts). rewrite (one_row t p m) by done. auto. }
  destruct (name_all_ok lists rows (g <$> t) none_renamed Hu1) as (f & d & E2 & Hu2 & Cm & Cc & Hmig & Hfix2 & Hrest).
  { by apply sound_fmap. }
  { split_and!; [done|intros m [_ H]%Hin; by apply Hnone|]. intros m [Hm _]%Hin. exists (g m). rewrite Hfix. split; [|done]. apply list_elem_of_fmap. by exists m. }
  { by rewrite length_fmap. }
  exists (f ∘ g), d. rewrite list_fmap_compose. cbv zeta. fold firsts. rewrite E1. cbn [mbind option_bind]. split_and!; [exact E2|done| | | |].
  - rewrite Cm. apply filter_length_permutation, order_by_permutation.
  - rewrite Cc. apply filter_length_permutation, order_by_permutation.
  - intros m Hm Hwm. apply migrated_from_places; [done|by apply Hnone|done|done|by apply Hmig, Hin|done].
  - intros p Hp Hno. simpl. destruct (Hplaced p Hp) as [Eg|(_ & _ & Eg)].
    + rewrite Eg. apply Hrest; [apply list_elem_of_fmap; by exists p|]. intros m [Hm Hwm]%Hin. by apply Hno.
    + exfalso. destruct (decide (p_id p ∈ p_id <$> firsts)) as [(m & Em & [[Hm Hwm]%Hin _]%Hfirsts)%list_elem_of_fmap|Hni].
      * specialize (Hno m Hm Hwm). apply of_member_false in Hno as [? _]. done.
      * rewrite (proj2 (Hg p) Hni) in Eg. apply (Hplace p (p_id p) Hp). by rewrite Eg at 1.
Qed.

(** ** Examples *)

(** What [unique] and [windows_sound] say, decided. *)
Definition sound (t : table) : bool :=
  bool_decide (NoDup (p_id <$> t)) &&
  forallb (fun p => forallb (fun q =>
    (negb ((p_project p =? p_project q) && bool_decide (p_handle p = p_handle q)) || (p_id p =? p_id q)) &&
    (negb (bool_decide (p_member q = Some (p_id p))) || ((p_project q =? p_project p) && negb (p_id q =? p_id p)))) t) t.

Lemma sound_spec t : sound t = true -> unique t /\ windows_sound t.
Proof.
  unfold sound. rewrite andb_true_iff, bool_decide_eq_true, forallb_forall. intros [Hnd H].
  assert (forall p q, p ∈ t -> q ∈ t -> _) as H' by (intros p q Hp%list_elem_of_In Hq%list_elem_of_In; pose proof (H p Hp) as Hpq;
    rewrite forallb_forall in Hpq; exact (Hpq q Hq)). clear H.
  split; [split; [done|]|].
  - intros p q Hp Hq Ep Eh. specialize (H' p q Hp Hq). apply andb_true_iff in H' as [H' _].
    rewrite Ep, Z.eqb_refl, bool_decide_eq_true_2 in H' by done. by apply Z.eqb_eq in H'.
  - intros m p Hm Hp E. specialize (H' m p Hm Hp). apply andb_true_iff in H' as [_ H']. rewrite bool_decide_eq_true_2 in H' by done.
    apply andb_true_iff in H' as [?%Z.eqb_eq ?%negb_true_iff%Z.eqb_neq]. done.
Qed.

Definition row (id : Z) (of_ : option Z) (role handle : string) (agent harness model effort name : option string) : participant :=
  Participant id 1 of_ (txt role) (txt handle) (txt <$> agent) (txt <$> harness) (txt <$> model) (txt <$> effort) (txt <$> name) false [].

Definition handles (t : table) : list text := map p_handle t.
Definition texts (l : list string) : list text := map txt l.

Definition staff : table :=
  [row 1 None "human" "human" None None None None None;
   row 2 None "chief" "chief" None (Some "claude-code") (Some "claude-opus-5-5") (Some "high") (Some "Opus");
   row 3 None "worker" "opus-high" (Some "horus") (Some "claude-code") (Some "claude-opus-5-5") (Some "high") (Some "Opus");
   row 4 (Some 3) "worker" "opus-high-amber-pine" (Some "horus") (Some "claude-code") (Some "claude-opus-5-5") (Some "high") (Some "Opus");
   row 5 None "worker" "swe-2-max" None (Some "devin") (Some "swe-2-max-lightning") (Some "max") (Some "SWE-2")]%string.

Definition lists : list (text * json) :=
  [(txt "devin", Array [Object [("id", Str "swe-2-lightning"); ("launchIds", Object [("max", Str "swe-2-max-lightning")])]])]%string.

Example staff_named : (fun r : table * Renamed => (handles r.1, r_members r.2, r_changed r.2, r_windows r.2, r_by_list r.2)) <$> name_members_by_id lists staff =
  Some (texts ["human"; "chief"; "claude-opus-5-5-high"; "claude-opus-5-5-high-amber-pine"; "swe-2-lightning-max"]%string, 2, 2, 1, 1)%nat.
Proof. vm_compute. reflexivity. Qed.

(** The migration to models, where a member is to have the name it has: it keeps it, and its window, whose
    name is taken by the window itself, is numbered, though nothing of it changed. *)
Theorem kept_name_numbers_its_windows : unique staff /\ windows_sound staff /\
  handles <$> name_members_by_model staff =
  Some (texts ["human"; "chief"; "opus-high"; "opus-high-amber-pine-2"; "swe-2-max"]%string).
Proof. destruct (sound_spec staff) as [H1 H2]; [vm_compute; reflexivity|]. split_and!; [exact H1|exact H2|vm_compute; reflexivity]. Qed.

Definition horus : participant :=
  row 3 None "worker" "opus-high" (Some "horus") (Some "claude-code") (Some "claude-opus-5-5") (Some "high") (Some "Opus")%string.

Lemma renamed_with_its_windows_witness :
  sound staff = true /\ horus ∈ staff /\
  let new := edited_handle staff horus (txt "gpt-6.1-sol") (txt "gpt-6.1-sol") (txt "codex") (Some (txt "max")) in
  is_name new = true /\ (length new <= MEMBER_HANDLE_MAX)%nat /\
  exists f, rename_member (p_project horus) (p_id horus) (p_handle horus) new staff = Some (f <$> staff) /\ unique (f <$> staff) /\
  forall p, p ∈ staff -> renamed horus (p_handle horus) new p (f p).
Proof.
  assert (sound staff = true) as H by (vm_compute; reflexivity). assert (horus ∈ staff) as Hin by (right; right; left).
  split; [exact H|]. split; [exact Hin|].
  refine (renamed_with_its_windows staff horus (txt "gpt-6.1-sol") (txt "gpt-6.1-sol") (txt "codex") (Some (txt "max"))
    (proj1 (sound_spec staff H)) (proj2 (sound_spec staff H)) Hin _).
  apply Z.ltb_lt. vm_compute. reflexivity.
Defined.

Lemma members_are_named_by_their_models_witness :
  sound staff = true /\
  exists f d, name_members_by_id lists staff = Some (f <$> staff, d) /\ unique (f <$> staff) /\
  r_members d = members_in (List.filter with_model staff) /\ r_chiefs d = chiefs_in (List.filter with_model staff) /\
  (forall m, m ∈ staff -> with_model m = true -> migrated lists staff f m) /\
  forall p, p ∈ staff -> (forall m, m ∈ staff -> with_model m = true -> of_member (p_id m) p = false) -> f p = p.
Proof.
  assert (sound staff = true) as H by (vm_compute; reflexivity). split; [exact H|].
  refine (members_are_named_by_their_models lists staff (proj1 (sound_spec staff H)) (proj2 (sound_spec staff H)) _ _).
  - assert (Forall (fun p => head (p_handle p) <> Some PLACE) staff) as Hh by (by apply (bool_decide_unpack _); vm_compute).
    intros p n Hp E. rewrite Forall_forall in Hh. apply (Hh p Hp). by rewrite E.
  - apply Z.ltb_lt. vm_compute. reflexivity.
Defined.
