(* ===== verification/TurnWords.v ===== *)
(** * Which of a worker's words are its task's result: [cf-engine/src/turn_end.rs], [turn_end/earlier_turns.rs], [role_change.rs]

    A task's result is the final answer of its worker's last turn: what the record of its window shows it
    wrote after the latest message or tool output. A turn that ended with a complete answer and was followed
    by a message loses nothing by it: the result begins with the words of each, but for the lines about a
    wait. Here are the two walks over a record that find them ([answers_to_the_task], [ended_turns]) and
    the result made of what they find ([result_of]). *)
From S2P Require Import Prelude Utf8 Keys Text JsValue Words CfWord DeliveryText.
#[local] Open Scope Z_scope.

Definition WITHOUT_ANSWER : text := txt "(the agent ended its turn without a written answer)".
Definition ASKED_THEN_END_THE_TURN : text := txt "The answer arrives as a message; end your turn now.".
Definition WRAPPER_CHARS : nat := 500.

Module Role.
Inductive t := User | Assistant | Tool | Custom.
#[global] Instance role_eq_dec : EqDecision t.
Proof. solve_decision. Defined.
End Role.

(** [Item], but for its time and what the history draws of it. *)
Record Item := MkItem {
  i_id : string;
  i_role : Role.t;
  i_text : text;
  i_complete : bool;
  i_commentary : bool;
  i_synthetic : bool;
  i_compaction : bool
}.

(** Of a message, besides what its paste shows: whom it is to, and how far it is. *)
Record ThreadMessage := MkMessage { tm_view : MessageView; tm_recipient_id : Z; tm_state : text }.
Record TaskThread := MkThread { th_number : Z; th_messages : list ThreadMessage }.

(** ** The answers of a record *)

(** Whether a user's item says the role, by its header. *)
Definition says_the_role (replacements : list Z) (item : Item) : bool :=
  match header_id (i_text item) with Some message => bool_decide (message ∈ replacements) | None => false end.

Record FirstRun := MkFirst { f_run : list Item; f_over : bool }.
Definition first_default : FirstRun := MkFirst [] false.
Definition see (item : Item) (of_the_role : bool) (first : FirstRun) : FirstRun :=
  if of_the_role then first else
  match i_role item with
  | Role.User => first_default
  | Role.Tool => MkFirst (f_run first) true
  | Role.Assistant => if negb (f_over first) && negb (i_synthetic item) then MkFirst (f_run first ++ [item]) (f_over first) else first
  | Role.Custom => first
  end.
Definition first_reply (first : FirstRun) : list Item := if f_over first then f_run first else [].

Record Answers := MkAnswers { a_last : option Item; a_final_run : list Item; a_complete_run : option (list Item); a_reply : list Item }.

(** [answers_to_the_task]: what its walk keeps, and an item of it. *)
Record answering := MkAnswering { of_the_role : bool; last_said : option Item; final_run : list Item; complete_run : option (list Item); first_run : FirstRun }.
Definition answer_item (replacements : list Z) (w : answering) (item : Item) : answering :=
  let w :=
    match i_role item with
    | Role.User =>
        if says_the_role replacements item then MkAnswering true (last_said w) (final_run w) (complete_run w) (first_run w)
        else MkAnswering false None [] (complete_run w) (first_run w)
    | Role.Tool => if of_the_role w then w else MkAnswering false (last_said w) [] (complete_run w) (first_run w)
    | Role.Assistant =>
        if of_the_role w then w else
        let run := final_run w ++ [item] in
        MkAnswering false (Some item) run (if i_complete item then Some run else complete_run w) (first_run w)
    | Role.Custom => w
    end in
  MkAnswering (of_the_role w) (last_said w) (final_run w) (complete_run w) (see item (of_the_role w) (first_run w)).
Definition answers_to_the_task (items : list Item) (replacements : list Z) : option Answers :=
  let w := fold_left (answer_item replacements) (List.filter (fun item => negb (i_compaction item)) items) (MkAnswering false None [] None first_default) in
  if bool_decide (is_Some (last_said w)) || bool_decide (is_Some (complete_run w))
  then Some (MkAnswers (last_said w) (final_run w) (complete_run w) (first_reply (first_run w)))
  else None.

(** ** The turns that ended before *)

Record Ended := MkEnded { e_words : list Item; e_turn : list Item; e_at : nat }.

(** [ended_turns]: what its walk keeps, and the item at [at_]. *)
Record ending := MkEnding { ended : list Ended; en_of_the_role : bool; en_run : list Item; en_complete : nat; en_began : nat }.
Definition end_item (items : list Item) (replacements : list Z) (w : ending) (at_ : nat) (item : Item) : ending :=
  if i_compaction item then w else
  match i_role item with
  | Role.User =>
      if says_the_role replacements item then MkEnding (ended w) true (en_run w) (en_complete w) (en_began w) else
      let ended := if (0 <? en_complete w)%nat
                   then ended w ++ [MkEnded (take (en_complete w) (en_run w)) (take (at_ - en_began w) (drop (en_began w) items)) at_]
                   else ended w in
      MkEnding ended false [] 0 (at_ + 1)
  | Role.Tool => if en_of_the_role w then w else MkEnding (ended w) false [] 0 (en_began w)
  | Role.Assistant =>
      if en_of_the_role w then w else
      let run := en_run w ++ [item] in
      MkEnding (ended w) false run (if i_complete item then length run else en_complete w) (en_began w)
  | Role.Custom => w
  end.
Fixpoint end_items (items : list Item) (replacements : list Z) (w : ending) (at_ : nat) (rest : list Item) : ending :=
  match rest with
  | [] => w
  | item :: rest => end_items items replacements (end_item items replacements w at_ item) (S at_) rest
  end.
Definition ended_turns (items : list Item) (from : nat) (replacements : list Z) : list Ended :=
  ended (end_items items replacements (MkEnding [] false [] 0 from) from (drop from items)).

(** [ended_on_asking] *)
Definition is_tool (item : Item) : bool := bool_decide (i_role item = Role.Tool).
Definition ended_on_asking (turn : list Item) : bool :=
  match last (List.filter is_tool turn) with Some item => contains ASKED_THEN_END_THE_TURN (i_text item) | None => true end.

(** [turn_end::words_of], [reply_of] *)
Definition written (run : list Item) : list text := List.filter (fun t => negb (bool_decide (t = []))) ((fun item => trim (i_text item)) <$> run).
Definition words_of_run (final_run : list Item) : text :=
  let words := written (List.filter (fun item => negb (i_commentary item)) final_run) in
  if bool_decide (words = []) then WITHOUT_ANSWER else join PARAGRAPH words.
Definition reply_of (reply : list Item) : option text :=
  if bool_decide (written reply = []) then None else Some (join PARAGRAPH (written reply)).

(** ** Where a message is in a record *)

Definition receipt_item (m : MessageView) : option string := get "item" (v_receipt m) ≫= as_str.

(** [message_of] *)
Definition message_of (thread : TaskThread) (item : Item) : option MessageView :=
  let views := tm_view <$> th_messages thread in
  match find (fun m => bool_decide (receipt_item m = Some (i_id item))) views with
  | Some m => Some m
  | None => id ← header_id (i_text item); find (fun m => v_id m =? id) views
  end.

Section Pastes.
(** What a fresh window was given ahead of a message ([brief_given_first]), as the ledger says. *)
Context (brief_given_first : MessageView -> option text).

Definition is_user (item : Item) : bool := bool_decide (i_role item = Role.User).

Definition paste_of (m : MessageView) (items : list Item) : option nat :=
  match receipt_item m ≫= fun id => rposition (fun said => is_user said && bool_decide (i_id said = id)) items with
  | Some found => Some found
  | None => rposition (fun item => is_user item && negb (i_compaction item) && is_paste_of (i_text item) (v_id m) (brief_given_first m)) items
  end.

(** [delivered_at] and [latest_message_at], of the task's latest message pasted, as the ledger says. *)
Definition delivered_at (last_pasted : option MessageView) (items : list Item) : option nat := m ← last_pasted; paste_of m items.
Definition latest_message_at (last_pasted : option MessageView) (items : list Item) (replacements : list Z) : option nat :=
  start ← delivered_at last_pasted items;
  Some match rposition (fun item => is_user item && negb (i_compaction item) &&
                          match header_id (i_text item) with Some id => negb (bool_decide (id ∈ replacements)) | None => false end)
                       (drop (start + 1) items) with
       | Some later => (start + 1 + later)%nat
       | None => start
       end.

(** ** What the result says of them *)

Inductive Why := Answer (question : Z) | Note (id : Z) | Message (id : Z) (kind : text) | Notice.

Definition kind_words (kind : text) : text :=
  if bool_decide (kind = txt "question") then txt "the chief's tell"
  else if bool_decide (kind = txt "answer") then txt "an answer"
  else if bool_decide (kind = txt "task") then txt "words for the task"
  else if bool_decide (kind = txt "result") then txt "a result"
  else txt "a message".
Definition why_label (w : Why) : text :=
  match w with
  | Answer question => txt "Written before the answer to its question m-" ++ show question ++ txt " went in:"
  | Note id => txt "Written before the note m-" ++ show id ++ txt " went in:"
  | Message id kind => txt "Written before m-" ++ show id ++ txt ", " ++ kind_words kind ++ txt ", went in:"
  | Notice => txt "Written before a notice of its harness's (or words typed into its window) began its next turn:"
  end.

Record Earlier := MkEarlier { ea_why : Why; ea_words : text }.

Definition with_finish_line (words handle : text) (number : Z) : text :=
  words ++ PARAGRAPH ++ txt "(ConsensFlow: @" ++ handle ++ txt "'s turn ended on these words. If they are its result: `cf task finish T-" ++ show number ++ txt "`.)".

(** [keep_earlier] *)
Definition ends_with (suffix t : text) : bool := bool_decide (is_Some (strip_suffix suffix t)).
Definition on_the_board (thread : TaskThread) (handle words : text) : bool :=
  existsb (fun m => bool_decide (v_kind m = txt "question") && bool_decide (v_sender m = Some handle) &&
                    starts_with words (v_body m) && ends_with (with_finish_line [] handle (th_number thread)) (v_body m))
          (tm_view <$> th_messages thread).
Definition line_about_the_wait (why : Why) (turn : list Item) (words : text) : bool :=
  (length words <=? WRAPPER_CHARS)%nat && match why with Answer _ => ended_on_asking turn | _ => true end.
Definition keep_earlier (thread : TaskThread) (handle : text) (e : Ended) (why : Why) (last : text) (earlier : list Earlier) : list Earlier :=
  let words := words_of_run (e_words e) in
  if bool_decide (words = WITHOUT_ANSWER) || bool_decide (words = last) || line_about_the_wait why (e_turn e) words ||
     on_the_board thread handle words || existsb (fun kept => bool_decide (ea_words kept = words)) earlier
  then earlier else earlier ++ [MkEarlier why words].

(** [earlier_turns]: a place out of the record raises, which none that the walk gives is. *)
Definition own_questions (thread : TaskThread) (handle : text) : list Z :=
  v_id <$> List.filter (fun m => bool_decide (v_kind m = txt "question") && negb (v_urgent m) && bool_decide (v_sender m = Some handle)) (tm_view <$> th_messages thread).
Definition why_of (thread : TaskThread) (handle : text) (next : Item) : Why :=
  match message_of thread next with
  | Some m =>
      let asked := question ← v_reply_to m; if bool_decide (question ∈ own_questions thread handle) then Some question else None in
      match asked with
      | Some question => if bool_decide (v_kind m = txt "answer") then Answer question
                         else if bool_decide (v_kind m = txt "note") then Note (v_id m) else Message (v_id m) (v_kind m)
      | None => if bool_decide (v_kind m = txt "note") then Note (v_id m) else Message (v_id m) (v_kind m)
      end
  | None => match header_id (i_text next) with Some id => Message id [] | None => Notice end
  end.
Definition floor_with (participant : Z) (items : list Item) (floor : option nat) (m : ThreadMessage) : option nat :=
  if bool_decide (v_kind (tm_view m) = txt "task") && (tm_recipient_id m =? participant) &&
     (bool_decide (tm_state m = txt "delivered") || bool_decide (tm_state m = txt "read"))
  then match paste_of (tm_view m) items with
       | Some at_ => Some match floor with Some floor => Nat.max floor at_ | None => at_ end
       | None => floor
       end
  else floor.
Definition task_floor (thread : TaskThread) (participant : Z) (items : list Item) : option nat :=
  foldl (floor_with participant items) None (th_messages thread).
Definition earlier_with (thread : TaskThread) (handle : text) (items : list Item) (last : text) (earlier : option (list Earlier)) (e : Ended) :
  option (list Earlier) :=
  earlier ← earlier; next ← items !! e_at e; Some (keep_earlier thread handle e (why_of thread handle next) last earlier).
Definition earlier_from (thread : TaskThread) (handle : text) (items : list Item) (last : text) (turns : list Ended) : option (list Earlier) :=
  foldl (earlier_with thread handle items last) (Some []) turns.
Definition earlier_turns (thread : TaskThread) (handle : text) (participant : Z) (items : list Item) (replacements : list Z) (last : text) : option (list Earlier) :=
  match task_floor thread participant items with
  | None => Some []
  | Some floor => earlier_from thread handle items last (ended_turns items (floor + 1) replacements)
  end.

Definition with_earlier (words : text) (earlier : list Earlier) : text :=
  if bool_decide (earlier = []) then words else
  mjoin ((fun e => why_label (ea_why e) ++ PARAGRAPH ++ ea_words e ++ PARAGRAPH) <$> earlier) ++ txt "What it said last:" ++ PARAGRAPH ++ words.

Definition with_lost (words handle : text) (lost : option nat) : text :=
  match lost with
  | Some lost => words ++ PARAGRAPH ++ txt "A line of @" ++ handle ++ txt "'s record was lost (record " ++ show (Z.of_nat lost) ++
                 txt "); this result may miss part of the turn."
  | None => words
  end.
Definition with_leftovers (words said : text) : text :=
  if bool_decide (said = []) then words else words ++ PARAGRAPH ++ txt "(ConsensFlow: " ++ said ++ txt ")".

(** [lost_in_turn]: of the lines lost, the first past the paste's record, or past the count at the hand-over. *)
Definition lost_in_turn (lost : list nat) (places : option (list nat)) (lost_before : option nat) (pasted : option nat) : option nat :=
  match places with
  | None => lost !! default 0%nat lost_before
  | Some places => pasted ← pasted; began ← places !! pasted; find (fun line => (began <? line)%nat) lost
  end.

(** What [Dispatcher::collect] records of a turn that ended with nothing pending and asks nothing, where
    [said] is what it left ([leftovers]); and what [Dispatcher::finish_task] does of one still under way. *)
Definition result_of (thread : TaskThread) (handle : text) (participant : Z) (items : list Item) (replacements : list Z)
    (run : list Item) (lost : option nat) (said : text) : option text :=
  earlier ← earlier_turns thread handle participant items replacements (words_of_run run);
  Some (with_leftovers (with_earlier (with_lost (words_of_run run) handle lost) earlier) said).
End Pastes.
