(* ===== verification/TurnWordsRules.v ===== *)
(** * The turns of a record, and that no report of one is lost: rules of [TurnWords]

    A record is cut at the messages to the member into turns ([turns_of]). Both walks over it find what is
    to be found in them: the answers that of the last ([answers_are_of_the_last_turn]), the other those of
    the turns before ([ended_are_the_turns_before]); and the result has the words of each but for a line
    about a wait ([no_report_is_lost]). *)
From S2P Require Import Prelude Utf8 Keys Text JsValue Words CfWord DeliveryText TurnWords.
#[local] Open Scope Z_scope.

(** ** Turns *)

Section Turns.
Context (replacements : list Z).

(** The rest of the turn under way, [of_the_role] where it is a turn on a role, and the turns after it. *)
Fixpoint cut (of_the_role : bool) (items : list Item) : list Item * list (list Item) :=
  match items with
  | [] => ([], [])
  | x :: rest =>
      if i_compaction x then cut of_the_role rest else
      match i_role x with
      | Role.User => if says_the_role replacements x then cut true rest else let '(t, ts) := cut false rest in ([], t :: ts)
      | _ => let '(t, ts) := cut of_the_role rest in (if of_the_role then t else x :: t, ts)
      end
  end.
Definition turns_of (items : list Item) : list (list Item) := let '(t, ts) := cut false items in t :: ts.

(** What a turn wrote last, after its last tool; and of that what stands at its last complete item. *)
Definition is_assistant (item : Item) : bool := bool_decide (i_role item = Role.Assistant).
Fixpoint after_tools (t : list Item) : list Item :=
  match t with
  | [] => []
  | x :: t => if existsb is_tool t then after_tools t else if is_tool x then t else x :: t
  end.
Definition run_of (t : list Item) : list Item := List.filter is_assistant (after_tools t).
Fixpoint upto_complete (run : list Item) : list Item :=
  match run with
  | [] => []
  | x :: run => match upto_complete run with [] => if i_complete x then [x] else [] | done => x :: done end
  end.
Definition report (t : list Item) : list Item := upto_complete (run_of t).

(** The run as it stood at the last complete item of a turn, whatever came after that. *)
Fixpoint through_complete (t : list Item) : list Item :=
  match t with
  | [] => []
  | x :: t => match through_complete t with [] => if is_assistant x && i_complete x then [x] else [] | done => x :: done end
  end.
Definition standing (t : list Item) : option (list Item) :=
  match through_complete t with [] => None | done => Some (run_of done) end.

(** What a turn wrote before its first tool, where it ran one. *)
Fixpoint before_tool (t : list Item) : list Item :=
  match t with
  | [] => []
  | x :: t => if is_tool x then [] else if is_assistant x && negb (i_synthetic x) then x :: before_tool t else before_tool t
  end.
Definition reply_in (t : list Item) : list Item := if existsb is_tool t then before_tool t else [].

(** *** One item more *)

Lemma after_tools_snoc t x : after_tools (t ++ [x]) = if is_tool x then [] else after_tools t ++ [x].
Proof.
  induction t as [|y t IH]; simpl; [by destruct (is_tool x)|]. rewrite existsb_app. simpl. rewrite IH, orb_false_r.
  destruct (is_tool x); [by rewrite orb_true_r|]. rewrite orb_false_r. by destruct (existsb is_tool t), (is_tool y).
Qed.

Lemma run_of_snoc t x : run_of (t ++ [x]) = match i_role x with Role.Tool => [] | Role.Assistant => run_of t ++ [x] | _ => run_of t end.
Proof.
  unfold run_of. rewrite after_tools_snoc. assert (is_tool x = match i_role x with Role.Tool => true | _ => false end) as -> by (unfold is_tool; by destruct (i_role x)).
  destruct (i_role x) eqn:E; [..|done|]; rewrite List.filter_app; simpl; unfold is_assistant at 2; rewrite E; simpl; by rewrite ?app_nil_r.
Qed.

Lemma upto_snoc run x : upto_complete (run ++ [x]) = if i_complete x then run ++ [x] else upto_complete run.
Proof.
  induction run as [|y run IH]; simpl; [done|]. rewrite IH. destruct (i_complete x); [|done]. by destruct run.
Qed.

Lemma through_snoc t x : through_complete (t ++ [x]) = if is_assistant x && i_complete x then t ++ [x] else through_complete t.
Proof. induction t as [|y t IH]; simpl; [done|]. rewrite IH. destruct (is_assistant x && i_complete x); [|done]. by destruct t. Qed.

Lemma standing_snoc t x : standing (t ++ [x]) = if is_assistant x && i_complete x then Some (run_of (t ++ [x])) else standing t.
Proof. unfold standing. rewrite through_snoc. destruct (is_assistant x && i_complete x); [|done]. by destruct t. Qed.

Lemma before_tool_snoc t x :
  before_tool (t ++ [x]) = if existsb is_tool t then before_tool t else if is_assistant x && negb (i_synthetic x) then before_tool t ++ [x] else before_tool t.
Proof.
  induction t as [|y t IH]; simpl.
  - unfold is_tool, is_assistant. by destruct (i_role x), (i_synthetic x).
  - rewrite IH. destruct (is_tool y) eqn:E; [done|]. simpl. by destruct (existsb is_tool t), (is_assistant y && negb (i_synthetic y)), (is_assistant x && negb (i_synthetic x)).
Qed.

Lemma upto_prefix run : exists rest, run = upto_complete run ++ rest.
Proof.
  induction run as [|x run (rest & E)]; [by exists []|]. simpl. destruct (upto_complete run) as [|y done]; [|exists rest; by rewrite E at 1].
  destruct (i_complete x); [by exists run|by exists (x :: run)].
Qed.

(** ** The walk over the turns that ended *)

Lemma end_items_are items at_ rest w p : en_run w = run_of p -> en_complete w = length (report p) ->
  e_words <$> ended (end_items items replacements w at_ rest) =
  (e_words <$> ended w) ++ filter (fun run => run <> []) (report <$> removelast ((p ++ (cut (en_of_the_role w) rest).1) :: (cut (en_of_the_role w) rest).2)).
Proof.
  revert at_ w p. induction rest as [|x rest IH]; intros at_ w p Hr Hc; [cbn; by rewrite app_nil_r|].
  cbn [end_items cut]. unfold end_item. destruct (i_compaction x); [by apply IH|].
  destruct (i_role x) eqn:Ex.
  - destruct (says_the_role replacements x); [by rewrite (IH _ _ p)|]. rewrite (IH _ _ []) by done. cbn [ended en_of_the_role]. destruct (cut false rest) as [t ts]. cbn [fst snd].
    rewrite app_nil_r. cbn [removelast app]. rewrite fmap_cons, filter_cons. rewrite Hc.
    destruct (report p) as [|y done] eqn:Ep; simpl length.
    + by rewrite decide_False by tauto.
    + rewrite decide_True by done. assert ((0 <? S (length done))%nat = true) as -> by (apply Nat.ltb_lt; lia).
      rewrite fmap_app, <- app_assoc. cbn [fmap list_fmap app e_words]. do 2 f_equal.
      destruct (upto_prefix (run_of p)) as (rest' & Er). rewrite Hr, Er. unfold report in Ep. rewrite Ep.
      change (S (length done)) with (length (y :: done)). by rewrite take_app_length.
  - destruct (en_of_the_role w) eqn:Eb.
    + rewrite (IH _ _ p) by done. rewrite Eb. by destruct (cut true rest).
    + rewrite (IH _ _ (p ++ [x])); cbn [ended en_of_the_role en_run en_complete].
      * destruct (cut false rest) as [t ts]. cbn [fst snd]. by rewrite <- app_assoc.
      * by rewrite run_of_snoc, Ex, Hr.
      * unfold report. rewrite run_of_snoc, Ex, upto_snoc, <- Hr. destruct (i_complete x); [done|]. rewrite Hc. unfold report. by rewrite Hr.
  - destruct (en_of_the_role w) eqn:Eb.
    + rewrite (IH _ _ p) by done. rewrite Eb. by destruct (cut true rest).
    + rewrite (IH _ _ (p ++ [x])); cbn [ended en_of_the_role en_run en_complete].
      * destruct (cut false rest) as [t ts]. cbn [fst snd]. by rewrite <- app_assoc.
      * by rewrite run_of_snoc, Ex.
      * unfold report. by rewrite run_of_snoc, Ex.
  - destruct (en_of_the_role w) eqn:Eb.
    + rewrite (IH _ _ p) by done. rewrite Eb. by destruct (cut true rest).
    + rewrite (IH _ _ (p ++ [x])); rewrite ?Eb.
      * destruct (cut false rest) as [t ts]. cbn [fst snd]. by rewrite <- app_assoc.
      * by rewrite run_of_snoc, Ex.
      * unfold report. by rewrite run_of_snoc, Ex.
Qed.

Lemma ended_are_the_turns_before items from :
  e_words <$> ended_turns items from replacements = filter (fun run => run <> []) (report <$> removelast (turns_of (drop from items))).
Proof.
  unfold ended_turns. rewrite (end_items_are _ _ _ _ []) by done. unfold turns_of. cbn [ended en_of_the_role fmap list_fmap app].
  by destruct (cut false (drop from items)).
Qed.

(** ** The walk over the answers *)

(** What the walk keeps after the turns [done_] and [p] of the one under way. *)
Record follows (done_ : list (list Item)) (p : list Item) (w : answering) : Prop := {
  follows_last : last_said w = last (List.filter is_assistant p);
  follows_final : final_run w = run_of p;
  follows_complete : complete_run w = last (omap standing (done_ ++ [p]));
  follows_first : first_run w = MkFirst (before_tool p) (existsb is_tool p)
}.

Lemma last_app {A} (l : list A) o : last (l ++ option_list o) = match o with Some x => Some x | None => last l end.
Proof. destruct o; simpl; [apply last_snoc|by rewrite app_nil_r]. Qed.

Lemma omap_snoc {A B} (f : A -> option B) (l : list A) x : omap f (l ++ [x]) = omap f l ++ option_list (f x).
Proof. rewrite omap_app. cbn. by destruct (f x). Qed.

Lemma follows_item done_ p w x : follows done_ p w -> of_the_role w = false -> i_role x <> Role.User ->
  follows done_ (p ++ [x]) (answer_item replacements w x).
Proof.
  intros [Hl Hf Hc H1] Hw Hx. unfold answer_item. rewrite Hw. rewrite omap_snoc, last_app in Hc.
  assert (is_tool x = match i_role x with Role.Tool => true | _ => false end) as Et by (unfold is_tool; by destruct (i_role x)).
  assert (is_assistant x = match i_role x with Role.Assistant => true | _ => false end) as Ea by (unfold is_assistant; by destruct (i_role x)).
  split; rewrite ?omap_snoc, ?last_app, ?standing_snoc, ?run_of_snoc, ?before_tool_snoc, ?List.filter_app, ?existsb_app; cbn [List.filter existsb];
    rewrite ?Et, ?Ea; destruct (i_role x) eqn:E; try done; cbn [last_said final_run complete_run first_run of_the_role andb orb];
    rewrite ?app_nil_r, ?orb_false_r, ?orb_true_r, ?Hl, ?Hf, ?Hc, ?H1, ?last_snoc, ?Hw; try done; unfold see; rewrite ?E, ?H1; cbn [f_over f_run];
    try (by destruct (i_complete x)); by destruct (existsb is_tool p), (i_synthetic x).
Qed.

Lemma follows_next done_ p w x : follows done_ p w -> i_role x = Role.User -> says_the_role replacements x = false ->
  follows (done_ ++ [p]) [] (answer_item replacements w x).
Proof.
  intros [Hl Hf Hc H1] Hx Hs. unfold answer_item. rewrite Hx, Hs. cbn [of_the_role last_said final_run complete_run first_run].
  split; cbn; [done|done| |unfold see; by rewrite Hx]. rewrite Hc, (omap_snoc standing (done_ ++ [p])). cbn. by rewrite app_nil_r.
Qed.

Lemma answers_follow rest done_ p w : follows done_ p w ->
  exists w' done' p', fold_left (answer_item replacements) (List.filter (fun item => negb (i_compaction item)) rest) w = w' /\ follows done' p' w' /\
    done' ++ [p'] = done_ ++ (p ++ (cut (of_the_role w) rest).1) :: (cut (of_the_role w) rest).2.
Proof.
  revert done_ p w. induction rest as [|x rest IH]; intros done_ p w Hw; [exists w, done_, p; cbn; by rewrite app_nil_r|].
  cbn [List.filter cut]. destruct (i_compaction x); cbn [negb]; [by apply IH|]. cbn [fold_left].
  destruct (decide (i_role x = Role.User)) as [Ex|Hx]; [rewrite Ex; destruct (says_the_role replacements x) eqn:Es|].
  - assert (of_the_role (answer_item replacements w x) = true) as Er by (unfold answer_item; by rewrite Ex, Es).
    destruct (IH done_ p (answer_item replacements w x)) as (w' & done' & p' & H1 & H2 & H3).
    { unfold answer_item. rewrite Ex, Es. cbn. by destruct Hw. }
    exists w', done', p'. rewrite Er in H3. done.
  - assert (of_the_role (answer_item replacements w x) = false) as Er by (unfold answer_item; by rewrite Ex, Es).
    destruct (IH (done_ ++ [p]) [] (answer_item replacements w x)) as (w' & done' & p' & H1 & H2 & H3); [by apply follows_next|].
    exists w', done', p'. rewrite Er in H3. destruct (cut false rest) as [t ts]. cbn [fst snd] in *. rewrite app_nil_r. split_and!; [done|done|].
    rewrite H3. cbn. by rewrite <- app_assoc.
  - assert (of_the_role (answer_item replacements w x) = of_the_role w) as Er.
    { unfold answer_item. destruct (i_role x), (of_the_role w) eqn:Eb; try done; cbn; by rewrite ?Eb. }
    destruct (of_the_role w) eqn:Eb.
    + destruct (IH done_ p (answer_item replacements w x)) as (w' & done' & p' & H1 & H2 & H3).
      { destruct Hw as [? ? ? ?]. split; unfold answer_item; rewrite ?Eb; destruct (i_role x) eqn:E; try done; cbn; rewrite ?Eb; try done; unfold see; by rewrite ?E, ?Eb. }
      exists w', done', p'. rewrite Er in H3. split_and!; [done|done|]. rewrite H3. destruct (i_role x); try done; by destruct (cut true rest).
    + destruct (IH done_ (p ++ [x]) (answer_item replacements w x)) as (w' & done' & p' & H1 & H2 & H3); [by apply follows_item|].
      exists w', done', p'. rewrite Er in H3. split_and!; [done|done|]. rewrite H3, <- app_assoc. destruct (i_role x); try done; by destruct (cut false rest).
Qed.

(** The answers of a record are those of its last turn: what is complete is what the member wrote last
    in it, the final answer what it wrote after the last tool, the reply what it wrote before the first; and
    the complete answer that Finish takes is the run as it stood at the last complete item of any turn.
    There are none just where the last turn has no words and no turn a complete item. *)
Theorem answers_are_of_the_last_turn items :
  exists turns turn, turns_of items = turns ++ [turn] /\
  answers_to_the_task items replacements =
    if bool_decide (is_Some (last (List.filter is_assistant turn))) || bool_decide (is_Some (last (omap standing (turns_of items))))
    then Some (MkAnswers (last (List.filter is_assistant turn)) (run_of turn) (last (omap standing (turns_of items))) (reply_in turn))
    else None.
Proof.
  destruct (answers_follow items [] [] (MkAnswering false None [] None first_default)) as (w & done_ & p & Hw & [Hl Hf Hc H1] & E); [done|].
  cbn [of_the_role app] in E. exists done_, p. assert (turns_of items = done_ ++ [p]) as -> by (unfold turns_of; rewrite E; by destruct (cut false items)).
  split; [done|]. unfold answers_to_the_task. rewrite Hw, Hl, Hf, Hc, H1. unfold first_reply, reply_in. done.
Qed.
End Turns.

(** ** No report is lost *)

Section Reports.
Context (brief_given_first : MessageView -> option text) (thread : TaskThread) (handle : text) (replacements : list Z).

Lemma keep_grows e why last earlier : earlier ⊆ keep_earlier thread handle e why last earlier.
Proof. unfold keep_earlier. case_match; [done|]. set_solver. Qed.

Lemma keep_keeps e why last earlier : let words := words_of_run (e_words e) in
  words <> WITHOUT_ANSWER -> words <> last -> line_about_the_wait why (e_turn e) words = false -> on_the_board thread handle words = false ->
  words ∈ ea_words <$> keep_earlier thread handle e why last earlier.
Proof.
  intros words H1 H2 H3 H4. unfold keep_earlier. fold words. rewrite !bool_decide_eq_false_2, H3, H4 by done. cbn [orb].
  destruct (existsb _ earlier) eqn:E.
  - apply existsb_exists in E as (kept & Hk%list_elem_of_In & <-%bool_decide_eq_true). by apply list_elem_of_fmap_2.
  - rewrite fmap_app. set_solver.
Qed.

Lemma earlier_keeps items last turns (earlier kept : list Earlier) : Forall (fun e => (e_at e < length items)%nat) turns ->
  foldl (earlier_with thread handle items last) (Some earlier) turns = Some kept ->
  earlier ⊆ kept /\ forall e, e ∈ turns -> let words := words_of_run (e_words e) in
    words <> WITHOUT_ANSWER -> words <> last -> (WRAPPER_CHARS < length words)%nat -> on_the_board thread handle words = false -> words ∈ ea_words <$> kept.
Proof.
  revert earlier. induction turns as [|e turns IH]; intros earlier Hat.
  { intros [= <-]. split; [done|]. intros e He. by apply not_elem_of_nil in He. }
  apply Forall_cons in Hat as [He Hat]. cbn [foldl]. destruct (lookup_lt_is_Some_2 items (e_at e) He) as [next Hn]. unfold earlier_with at 2. simpl. rewrite Hn. simpl.
  intros Hk. destruct (IH _ Hat Hk) as [Hsub Hall]. split; [etransitivity; [apply keep_grows|exact Hsub]|].
  intros e' He'. apply elem_of_cons in He' as [->|He']; [|by apply Hall]. set (words := words_of_run (e_words e)). intros H1 H2 H3 H4.
  assert (words ∈ ea_words <$> keep_earlier thread handle e (why_of thread handle next) last earlier) as Hin.
  { apply keep_keeps; try done. unfold line_about_the_wait. apply andb_false_intro1, Nat.leb_gt. done. }
  apply list_elem_of_fmap in Hin as (k & -> & Hin). apply list_elem_of_fmap_2. by apply Hsub.
Qed.

Lemma ended_at items w at_ : (at_ <= length items)%nat -> Forall (fun e => (e_at e < length items)%nat) (ended w) ->
  Forall (fun e => (e_at e < length items)%nat) (ended (end_items items replacements w at_ (drop at_ items))).
Proof.
  intros Hle. remember (drop at_ items) as rest eqn:E. revert w at_ Hle E. induction rest as [|x rest IH]; intros w at_ Hle E Hw; [done|].
  assert (at_ < length items)%nat as Hlt by (apply (f_equal length) in E; rewrite length_drop in E; simpl in E; lia).
  cbn [end_items]. apply IH; [lia| |].
  - apply (f_equal tail) in E. simpl in E. rewrite E. replace (S at_) with (at_ + 1)%nat by lia. rewrite <- drop_drop. by destruct (drop at_ items).
  - unfold end_item. repeat case_match; cbn [ended]; try done; apply Forall_app; split; [done|]; repeat constructor; done.
Qed.

Lemma ended_turns_at items from : (from <= length items)%nat -> Forall (fun e => (e_at e < length items)%nat) (ended_turns items from replacements).
Proof. intros Hle. apply ended_at; [done|constructor]. Qed.

Lemma rposition_at {A} (f : A -> bool) l n : rposition f l = Some n -> (n < length l)%nat.
Proof.
  revert n. induction l as [|x l IH]; intros n; [done|]. cbn [rposition]. destruct (rposition f l) as [k|]; [intros [= <-]; specialize (IH k eq_refl); simpl; lia|].
  case_match; [intros [= <-]; simpl; lia|done].
Qed.

Lemma paste_at m items n : paste_of brief_given_first m items = Some n -> (n < length items)%nat.
Proof.
  unfold paste_of. destruct (receipt_item m ≫= _) as [k|] eqn:E; [|apply rposition_at]. intros [= <-].
  destruct (receipt_item m); [|done]. by apply rposition_at in E.
Qed.

Lemma floor_at participant items n : task_floor brief_given_first thread participant items = Some n -> (n < length items)%nat.
Proof.
  unfold task_floor. assert (forall l floor, (forall n, floor = Some n -> (n < length items)%nat) -> forall n,
    foldl (floor_with brief_given_first participant items) floor l = Some n -> (n < length items)%nat) as Hg; [|apply Hg; by intros].
  induction l as [|m l IH]; intros floor Hf k; [apply Hf|]. cbn [foldl]. apply IH. intros j. unfold floor_with. case_match; [|apply Hf].
  destruct (paste_of brief_given_first (tm_view m) items) as [at_|] eqn:Ep; [|apply Hf]. intros [= <-]. apply paste_at in Ep.
  destruct floor as [fl|]; [|done]. specialize (Hf fl eq_refl). lia.
Qed.

Lemma earlier_turns_total participant items last :
  exists earlier, earlier_turns brief_given_first thread handle participant items replacements last = Some earlier.
Proof.
  unfold earlier_turns. destruct (task_floor _ _ _ _) as [floor|] eqn:Ef; [|eauto]. apply floor_at in Ef.
  pose proof (ended_turns_at items (floor + 1) ltac:(lia)) as Hat. unfold earlier_from. revert Hat. generalize (ended_turns items (floor + 1) replacements) as turns.
  intros turns. generalize ([] : list Earlier) as earlier. induction turns as [|e turns IH]; intros earlier Hat; [by eexists|].
  apply Forall_cons in Hat as [He Hat]. cbn [foldl]. destruct (lookup_lt_is_Some_2 items (e_at e) He) as [next Hn]. unfold earlier_with at 2. simpl. rewrite Hn. simpl. by apply IH.
Qed.

Lemma with_earlier_has words earlier k : k ∈ earlier -> exists before after, with_earlier words earlier = before ++ ea_words k ++ after.
Proof.
  intros Hk. unfold with_earlier. rewrite bool_decide_eq_false_2 by (intros ->; by apply not_elem_of_nil in Hk).
  apply list_elem_of_split in Hk as (l1 & l2 & ->). rewrite fmap_app, fmap_cons, join_app. cbn [mjoin list_join].
  set (said := fun e : Earlier => _). set (tail := txt "What it said last:" ++ _).
  exists (mjoin (said <$> l1) ++ why_label (ea_why k) ++ PARAGRAPH), (PARAGRAPH ++ mjoin (said <$> l2) ++ tail).
  unfold said at 2. by rewrite <- !app_assoc.
Qed.

(** C21: no report is lost: a result is made of any record, and whatever a turn since the task's latest
    message wrote last, if it was complete when a message came, is in it word for word, unless it is as
    short as a line about a wait, or is on the board as a question raised of it. So is the final answer. *)
Theorem no_report_is_lost participant items run lost said :
  exists body, result_of brief_given_first thread handle participant items replacements run lost said = Some body /\
  (exists before after, body = before ++ words_of_run run ++ after) /\
  forall floor turn, task_floor brief_given_first thread participant items = Some floor ->
    turn ∈ removelast (turns_of replacements (drop (floor + 1) items)) -> report turn <> [] ->
    let words := words_of_run (report turn) in
    words <> WITHOUT_ANSWER -> (WRAPPER_CHARS < length words)%nat -> on_the_board thread handle words = false ->
    exists before after, body = before ++ words ++ after.
Proof.
  destruct (earlier_turns_total participant items (words_of_run run)) as [earlier Ee]. unfold result_of. rewrite Ee. simpl. eexists. split; [done|].
  assert (forall words, exists after, with_leftovers words said = words ++ after) as Hleft
    by (intros words; unfold with_leftovers; case_match; [exists []; by rewrite app_nil_r|eauto]).
  assert (exists after, with_lost (words_of_run run) handle lost = words_of_run run ++ after) as [lost_after Elost]
    by (unfold with_lost; destruct lost; [eauto|exists []; by rewrite app_nil_r]).
  destruct (Hleft (with_earlier (with_lost (words_of_run run) handle lost) earlier)) as [after ->].
  assert (exists before after, with_earlier (with_lost (words_of_run run) handle lost) earlier = before ++ words_of_run run ++ after) as (fb & fa & Efinal).
  { unfold with_earlier. rewrite Elost. case_match; [by exists [], lost_after|]. set (before := mjoin _). exists (before ++ txt "What it said last:" ++ PARAGRAPH), lost_after. by rewrite <- !app_assoc. }
  split; [exists fb, (fa ++ after); by rewrite Efinal, <- !app_assoc|].
  intros floor turn Hfloor Hturn Hreport. set (words := words_of_run (report turn)). intros H1 H2 H3. destruct (decide (words = words_of_run run)) as [E|Hne].
  { rewrite E. exists fb, (fa ++ after). by rewrite Efinal, <- !app_assoc. }
  pose proof (floor_at _ _ _ Hfloor) as Hlt. unfold earlier_turns in Ee. rewrite Hfloor in Ee.
  destruct (earlier_keeps _ _ _ _ _ (ended_turns_at items (floor + 1) ltac:(lia)) Ee) as [_ Hkept].
  assert (report turn ∈ e_words <$> ended_turns items (floor + 1) replacements) as (e & Er & He)%list_elem_of_fmap.
  { rewrite ended_are_the_turns_before. apply list_elem_of_filter. split; [done|]. by apply list_elem_of_fmap_2. }
  specialize (Hkept e He). unfold words in *. rewrite Er in *. apply list_elem_of_fmap in Hkept as (k & Ek & Hk); [|done..].
  destruct (with_earlier_has (with_lost (words_of_run run) handle lost) earlier k Hk) as (kb & ka & ->). exists kb, (ka ++ after). by rewrite Ek, <- !app_assoc.
Qed.
End Reports.

(** *** A record *)

(** The worker wrote its report, a notice of its harness's began another turn, and that ended with a line. *)
Definition write_up : text := replicate 501 0x61.
Definition said_by (role : Role.t) (id : string) (words : text) : Item := MkItem id role words true false false false.
Definition worked : list Item :=
  [said_by Role.User "u1" (txt "[ConsensFlow m-1 · T-1 · task from @chief]" ++ LINE ++ txt "Brief"); said_by Role.Assistant "a1" (txt "Reading");
   said_by Role.Tool "t1" (txt "output"); said_by Role.Assistant "a2" write_up; said_by Role.User "u2" (txt "<task-notification>b1 ended</task-notification>");
   said_by Role.Assistant "a3" (txt "My result is unchanged.")].
Definition brief_1 : ThreadMessage := MkMessage (View 1 (Some (txt "chief")) (txt "task") (Some 1) None (txt "Brief") Null Null false) 5 (txt "delivered").
Definition thread_1 : TaskThread := MkThread 1 [brief_1].
Definition nothing_first (_ : MessageView) : option text := None.
Definition final_of (items : list Item) : list Item := match answers_to_the_task items [] with Some a => a_final_run a | None => [] end.

Example its_result : result_of nothing_first thread_1 (txt "w") 5 worked [] (final_of worked) None [] =
  Some (why_label Notice ++ PARAGRAPH ++ write_up ++ PARAGRAPH ++ txt "What it said last:" ++ PARAGRAPH ++ txt "My result is unchanged.").
Proof. vm_compute. reflexivity. Qed.

Definition reporting : list Item := [said_by Role.Assistant "a1" (txt "Reading"); said_by Role.Tool "t1" (txt "output"); said_by Role.Assistant "a2" write_up].

Lemma no_report_is_lost_witness :
  exists body, result_of nothing_first thread_1 (txt "w") 5 worked [] (final_of worked) None [] = Some body /\
    exists before after, body = before ++ words_of_run (report reporting) ++ after.
Proof.
  destruct (no_report_is_lost nothing_first thread_1 (txt "w") [] 5 worked (final_of worked) None []) as (body & Hbody & _ & Hreports).
  exists body. split; [exact Hbody|]. apply (Hreports 0%nat reporting).
  - vm_compute. reflexivity.
  - vm_compute. left.
  - vm_compute. discriminate.
  - vm_compute. discriminate.
  - vm_compute. lia.
  - vm_compute. reflexivity.
Defined.
